(* ===== verification/_CoqProject ===== *)
-Q . S2P
Prelude.v
Hoare.v
Core.v
Fxp.v
TopK.v
Slab.v
Records.v
Graph.v
GraphProofs.v
Index.v
Event.v
Kernel.v
KernelWf.v
KernelProofs.v
KernelTheorems.v
KernelLifecycle.v
KernelChecks.v
KernelRel.v
Bytes.v
Snapshot.v
SnapshotProofs.v
StateProof.v
SnapshotSafety.v
EventCodec.v
KernelTyped.v
Wire.v
WireTheorems.v
EventLog.v
EventLogTheorems.v
EventCommit.v
Rotation.v
CommitProofs.v
CommitTheorems.v
RotationTheorems.v
Registry.v
Consensus.v
ConsensusProofs.v
ConsensusRestart.v
ConsensusTheorems.v
LogStore.v
LogStoreTheorems.v
Verify.v
VerifyProofs.v
VerifyTheorems.v
Anchor.v
Wal.v
WalTheorems.v
AuditLog.v
Planner.v
PlannerProofs.v
PlannerTheorems.v
F32.v
HostIndex.v
Reranker.v
Vault.v
Engine.v
EngineProofs.v
EngineRuns.v
EngineSnapshot.v
EngineTheorems.v
Effects.v
EffectTheorems.v
Runner.v
RunnerTheorems.v
Chunker.v
ChunkerTheorems.v
Pipeline.v
PipelineTheorems.v
Search.v
Ivf.v
IvfTheorems.v
IvfEquivalence.v
Hnsw.v
HnswTheorems.v
HnswSearch.v
GraphRag.v
GraphRagTheorems.v
Metadata.v
ApiKeys.v
TreeRag.v
