(* ===== verification/Prelude.v ===== *)
(** * Valori: verification library

    Valori is a vector database whose core is a deterministic state machine: a
    kernel of fixed-point vectors and a knowledge graph that changes only by
    events, a binary log of those events under a hash chain, snapshots of the
    kernel, and proofs (state hash, Merkle roots, receipts) over it.  A planner, a
    task runner with an effect bus, an ingestion pipeline and a Raft node work
    on this core; servers and front ends surround it.  The library models the
    core and these layers from the Rust sources and proves what makes them
    correct.

    ** Parts of the program and the files that model them

    - Identifiers, kinds, versions ([crates/valori-core/src]): [Core].
    - Fixed-point arithmetic and the SIMD kernels ([valori-kernel/src/config.rs],
      [fxp/], [math/l2.rs], [math/dot.rs]): [Fxp].  A [SimdPath] names the code
      path the run-time feature detection picks.
    - Pools ([storage/record.rs], [storage/pool.rs], [graph/]): [Slab] (slots,
      intrusive lists), [Records], [Graph]; the adjacency invariant and the
      correctness of edge insertion, deletion and iteration in [GraphProofs].
    - Indexes ([index/]): [TopK] (the three bounded selections the searches
      use) and [Index] (brute force, binary quantization).
    - The state machine ([state/kernel.rs], [event.rs]): [Event], [Kernel].
      [KernelState] is a record with the fields of the struct; every arm of
      [apply_event_ns] is a definition [arm_*] in a state-and-outcome monad.
      [KernelWf] and [KernelProofs] hold the invariant and one specification
      per arm; [KernelTheorems], [KernelLifecycle] and [KernelChecks] the
      theorems.
    - Snapshots ([snapshot/encode.rs], [decode.rs]): [Bytes] (little-endian
      integers, UTF-8, the reader monad), [Snapshot], [SnapshotProofs],
      [SnapshotSafety].
    - Hashes and proofs ([snapshot/blake3.rs], [proof.rs], [verify.rs]):
      [StateProof]; the hash of
      restored states is at the end of [SnapshotSafety].
    - The log format ([valori-wire/src/lib.rs] and the hand-written serde of
      [event.rs]): [EventCodec], [Wire], [WireTheorems].
    - The log writer ([valori-storage/src/events/event_log.rs]): [EventLog],
      [EventLogTheorems].  A directory is a finite map from
      names to bytes; a [BufWriter] keeps its unflushed bytes in the writer.
    - Journal, commit barrier, recovery ([event_journal.rs],
      [event_commit.rs], [event_replay.rs], [event_proof.rs]): [EventCommit],
      [CommitProofs], [CommitTheorems].
    - Collections and shard routing ([valori-metadata/src/collection.rs],
      [shard_for_namespace] of the node): [Registry].
    - The Raft state machine ([valori-consensus/src/state_machine.rs],
      [types.rs]): [Consensus]; [ConsensusProofs] holds the abstract replicated
      machine ([Core], [spec_request], [spec_run]) and the proof that [apply]
      refines it, [ConsensusRestart] what snapshots and the tables keep
      and a concrete openraft for the witnesses, [ConsensusTheorems] the theorems.
    - The Raft log stores ([log_store.rs], [log_store_redb.rs]): [LogStore],
      [LogStoreTheorems].
    - The offline verifier ([valori-verify/src/lib.rs]): [Verify];
      [VerifyProofs] holds the clean-prefix relation its diagnosis is stated
      with, [VerifyTheorems] the theorems.  Signed anchors ([anchor.rs],
      [bin/valori_anchor.rs]): [Anchor].
    - The legacy write-ahead log ([wal_writer.rs], [wal_reader.rs],
      [wal_compat.rs]) and bootstrap ([valori-state/src/bootstrap.rs]): [Wal],
      [WalTheorems].
    - Log rotation and recovery over several segments: [Rotation] (what a
      directory of sealed segments holds), [RotationTheorems].  The cluster
      node's audit log ([valori-node/src/commit/audit.rs]) and its composition
      with the replicated state machine: [AuditLog].
    - The planner ([valori-planner/src], [planner_cache.rs] and the cache calls of
      [db.rs] in [valori-metadata]): [Planner], [PlannerProofs] (the invariant of
      Kahn's loop), [PlannerTheorems].
    - The floating-point boundary (the conversions of [valori-engine/src/engine.rs]
      and [valori-kernel/src/fxp/ops.rs]): [F32], over the binary32 of the
      Standard Library's [SpecFloat].
    - Host-side indexes ([valori-index/src/traits.rs], [brute_force.rs], [bq.rs]):
      [HostIndex]; the trait is the class [VectorIndex].
    - The keyword reranker ([valori-search/src/reranker.rs]): [Reranker].
    - The key vault ([valori-kernel/src/crypto/mod.rs],
      [valori-node/src/crypto_vault.rs]): [Vault]; the trait is the class
      [KeyVault].
    - The engine of a standalone node ([valori-engine/src]): [Engine], generic in
      the index and the vault.  [KernelRel] shows what the kernel's arms do not
      look at (version, index, and for most events the dimension), [EngineProofs]
      the invariant that ties the engine's kernel to its committer's, [EngineRuns]
      that each handler keeps it, with concrete
      parameters, [EngineTheorems] what a restart finds
      and concrete runs, [EngineSnapshot] the snapshot file.
    - Effects ([valori-effect/src]: [effect.rs], [capability.rs], [bus.rs],
      [task.rs], [receipt.rs]): [Effects], with the capability traits as records
      of operations on an arbitrary world; [EffectTheorems].
    - Tasks and their runner ([valori-effect/src/tasks],
      [valori-node/src/runner.rs]): [Runner], on top of [Planner] (the order of
      a graph) and [Effects]; [RunnerTheorems].
    - Ingestion ([valori-ingest/src]): [Chunker] ([chunker.rs], texts as lists of
      code points), [Pipeline] (documents, validator, retry, progress, the
      stages of [pipeline.rs]); [ChunkerTheorems], [PipelineTheorems].
    - Metadata filters and time decay ([valori-search/src/filter.rs],
      [decay.rs]): [Search].
    - K-means, the inverted-file index and the quantizers
      ([valori-index/src/deterministic/kmeans.rs], [ivf.rs], [quant/]): [Ivf],
      [IvfTheorems] (order independence, contents, search), [IvfEquivalence]
      (rebuilds, snapshots, product quantization).
    - The HNSW index ([valori-index/src/hnsw.rs]): [Hnsw]; [HnswTheorems] holds what
      its loops do and the invariant of a history, [HnswSearch] what searches
      return, snapshots and concrete runs.
    - Subgraphs and communities ([valori-rag/src/graph.rs], [community.rs]):
      [GraphRag], [GraphRagTheorems].  Tree indexes of documents ([tree.rs]):
      [TreeRag].
    - Projects and collections of the metadata database
      ([valori-metadata/src/db.rs], [project.rs]): [Metadata].
    - API keys and the authentication guard ([valori-node/src/api_keys.rs], the
      guard and the key handlers of [server.rs] and [cluster_server.rs]):
      [ApiKeys].
    - [KernelTyped]: the state as values of the Rust types.

    This file holds what all share: outcomes, the state-and-outcome monad,
    machine integers, list lookups at [Z] indexes, tactics and hints; [Hoare]
    holds the weakest preconditions the kernel proofs use.

    ** How code is represented

    A Rust function that can fail returns an [outcome]: [Ok], [Err], [Panic]
    (the process aborts in both profiles) or [Hang] (a loop over pointers read
    from the state used up its fuel).  "Never panics" and "terminates" are
    therefore statements about results.  [&mut self] methods are functions
    [S -> S * outcome E A], so the state left by an error is visible.  Machine
    integers are [Z] with wrap-around written out ([wrap_u32], [wrap_i64], ...);
    the release profile wraps and the model follows it.  Of the debug
    assertions, those of the kernel compare an allocated id with one that was
    checked to be the next before, and are left out; that of
    [topological_order] fires on cyclic graphs, and
    [Planner.topological_order_with] takes the profile as an argument.  Bytes are [Z] in 0..255, strings their UTF-8 bytes.

    Hashes are arbitrary functions, so a theorem that needs two hashes to differ
    says "or two of these messages collide", the messages being listed:
    [StateProof.collision] of a list holds when two different messages of that
    list have one hash.

    ** What the theorems show

    - Kernel: every event on a well-formed state returns and leaves a well-formed
      state; rejected events change nothing (one exception is stated); searches
      are exact; adjacency lists are sound and complete; deletion cascades to
      exactly the right edges; dropping a namespace touches no other; slots are
      immutable; shredding erases what a key encrypts.
    - Arithmetic: the operations saturate exactly; the SIMD paths agree under a
      stated bound, and a bound on inputs that implies it.
    - Indexes: brute force is exact; binary quantization is exact below its
      candidate capacity; Hamming distance counts sign disagreements.
    - Snapshots: round trip on reachable states; totality and validation on
      arbitrary bytes; truncations rejected; hash preserved.
    - Proofs: receipts and Merkle roots bind their content up to a collision of
      the messages hashed for them.
    - Log: entries round trip and torn ones are recognized; a segment cut at any
      byte reopens at the last whole entry; equal chain heads mean equal
      content up to a collision of the chained messages.
    - Commit: each commit is atomic, and a stopped process recovers its exact
      state from the directory.
    - Consensus: [apply] refines an abstract deterministic machine, so replicas
      that apply the same log agree whatever their batches, clocks, sinks and
      replay marks; an accepted request is applied once within the dedup window;
      namespace ids are never reused; snapshots transfer the replicated state;
      a restart from the log or from a snapshot rebuilds the core and audits
      nothing twice; the two log stores are equivalent and hold one gap-free
      run of entries.
    - Verifier and anchors: what the committer writes the verifier accepts; what
      it accepts the recovery code recovers, to the reported hash; its diagnosis
      is exact; an altered entry is located; the two replay loops agree; an
      anchored log verifies, and an accepted log is one that was signed.
    - Write-ahead log: a cut at any byte after the header replays the longest
      prefix of whole entries; version 1 files replay as their translation.
    - Rotation and audit: a stopped process recovers its exact state however
      often its log was rotated; a node's audit log holds exactly the events its
      state machine accepted.
    - Planner: graph construction terminates on every acyclic input, in both
      profiles, and orders tasks after their dependencies; the caches return what
      the planner would build.
    - Floats, reranker, vault: the canonical conversion rounds a float to the
      nearest fixed-point number and clamps; the reranker's inverted index is exact after any history; a
      shredded key stays dead across restarts.
    - Engine: every handler keeps the engine's state and the committer's in step;
      a commit does what the kernel's verdict says, all or nothing; a restarted
      node has the data and the collections of the stopped one; snapshots are
      restored as written, and restoring is total on arbitrary bytes.
    - Effects and tasks: no durable effect is routed twice and none is dropped;
      what retrying a batch does; a writing task the kernel answers reaches it exactly once;
      a run over a planned graph gives every task the outputs of its
      predecessors; receipts bind the fields they hash, and the store keeps the
      last ones.
    - Ingestion and search: fixed-size chunks cover the text above stated
      bounds and every strategy is total above one; the batch size is not
      observable; every chunk is written when all are answered; retries stop at
      the first success; filters are conjunctions; decayed hits are the k best.
    - Approximate indexes: an HNSW index keeps its invariant over any history,
      returns stored records at their distances, and is exact on what its start
      reaches when the width covers the records; an inverted-file index does not
      depend on the order it was built in and returns the k best of the lists it
      probes; both answer alike after a snapshot; product codes name the nearest
      codebook entries.
    - Graph retrieval: a subgraph is exactly the nodes and edges within the depth;
      communities stay within connected components; receipts bind assignments.
      A document's tree has the headings as nodes under the nearest enclosing
      ones, and answers over it verify, alone and as chains.
    - Control plane: the key store, restarted at will, accepts exactly the keys
      issued and not revoked; the key routes need an admin key; the tables hold
      the projects and collections last written.

    Some theorems are concrete runs that show where the code departs from what
    its comments promise; they are evaluated by the kernel.

    ** Fuel

    Loops over lists in the state take the length of the pool plus one or two as
    fuel: a list that visits a slot twice is the only way to use it up, and
    the invariant excludes it; [Hang] is then a real result (see
    [SnapshotSafety.decode_accepts_cyclic_list]).  Recursion over bytes takes
    the number of bytes left, each step consumes at least one.  The year loop of
    [format_utc] takes the number of 365-day years, an upper bound of its turns.

    ** Parameters

    BLAKE3 and CRC32 are function arguments, assumed to return 32 bytes and a
    32-bit value.  bincode is the class [EventCodec.Bincode] with its round-trip
    laws [BincodeLaws]; [EventCodec.FixedInt] is a concrete instance, used by
    the witnesses.  Times read from the clock and directory listings are
    arguments.
    openraft's types and their encodings are the classes [Consensus.Openraft] and
    [Consensus.RaftSerde] with laws [RaftSerdeLaws]; the audit sink is the class
    [Consensus.AuditSink].  A redb database is a finite map and its transactions
    commit.  Ed25519 is the class [Anchor.Ed25519] with laws [Ed25519Laws], the
    JSON text of an anchor the class [Anchor.AnchorText], the JSON of graphs and
    cache rows the class [Planner.PlannerJson] with laws [PlannerJsonLaws].  The
    key a hash map yields first is an argument of the planner's cache.  AES-GCM is
    the class [Vault.Aead] with laws [AeadLaws]; the JSON and map encodings of the
    engine's sidecars are the class [Engine.EngineCodec] with laws
    [EngineCodecLaws].  The tokenizer and the logarithm are arguments of the
    reranker, the table of upper-case characters one of the chunker, [powf] one of
    the decay.  JSON values are the classes [Effects.EffectJson],
    [Runner.TaskJson] and [Search.SearchJson]; capabilities, tasks that only read,
    readers, chunkers, embedders and writers of a pipeline are trait objects of
    the program and arguments of the model.  The bincode of index snapshots are the
    classes [Ivf.IvfCodec], [Ivf.PqCodec] and [Hnsw.HnswCodec] with their laws, JSON
    rows and key files [Metadata.MetadataJson] and [ApiKeys.KeyJson]; random tokens,
    the clock and the order of a hash map are arguments; the
    distance and the logarithm are arguments of [Hnsw].  Its loops take the number
    of slots plus one as fuel (a node is expanded once, a descent moves to closer
    nodes), the expansion of a subgraph the seeds plus, for every node slot, the
    edge slots and one.

    ** Not modelled

    Operating-system failures (every file operation succeeds, so that the errors
    [append_shred_log] ignores do not occur; a crash is a cut of the bytes),
    exhausted memory (a list has any length: with a configured [hnsw_m] of 1 the
    level of an HNSW node is the largest of its type, and its levels are more than
    a process can allocate), fsync, threads and locks, the journal's broadcast channel,
    random ids, HTTP and gRPC servers, document readers and extractors, embedding
    and language-model calls, command-line tools, Python bindings.
    [valori-kernel/src/replay_events.rs] is not part of any build.
    Of the engine: health, metrics, cosine similarity.  Of the ingestion: measured
    durations.  Of the host-side indexes:
    the distance of HNSW on aarch64 (fused multiply-add) and the quantizer that copies
    float bytes.  Of the anchors, key files and printed output; of the verifier, its command
    line.
    *)

From stdpp Require Export base list numbers option gmap sorting.
From Stdlib Require Export ZArith Lia.

Global Open Scope Z_scope.

(** ** Outcomes of Rust code

    A fallible Rust function returns [Ok] or [Err]; besides, it can abort the
    process ([panic = "abort"] in both profiles: slice index out of range,
    [unwrap] of [None], [expect]), or a [while] loop over pointers read from
    the state can fail to end.  The four are kept apart so that "never panics"
    and "terminates" are theorems and not conventions. *)
Inductive outcome (E A : Type) : Type :=
| Ok (a : A)
| Err (e : E)
| Panic
| Hang.
Arguments Ok {E A} _.
Arguments Err {E A} _.
Arguments Panic {E A}.
Arguments Hang {E A}.

Definition obind {E A B} (m : outcome E A) (k : A -> outcome E B) : outcome E B :=
  match m with
  | Ok a => k a
  | Err e => Err e
  | Panic => Panic
  | Hang => Hang
  end.

(** [Option::ok_or] followed by [?]. *)
Definition ok_or {E A} (o : option A) (e : E) : outcome E A :=
  match o with Some a => Ok a | None => Err e end.

(** [Option::unwrap], and slice indexing once the lookup is an option. *)
Definition unwrap {E A} (o : option A) : outcome E A :=
  match o with Some a => Ok a | None => Panic end.

Definition map_err {E F A} (f : E -> F) (m : outcome E A) : outcome F A :=
  match m with
  | Ok a => Ok a
  | Err e => Err (f e)
  | Panic => Panic
  | Hang => Hang
  end.

Definition is_ok {E A} (m : outcome E A) : bool :=
  match m with Ok _ => true | _ => false end.

(** The code returns: [Ok] or [Err], neither an abort nor an endless loop. *)
Definition returns {E A} (m : outcome E A) : Prop :=
  match m with Ok _ | Err _ => True | Panic | Hang => False end.

(** ** Methods taking [&mut self]

    A method that mutates its receiver is a state transformer.  The state is
    returned on every outcome: Rust does not roll a receiver back when a
    method returns [Err], so what was written before the early return stays. *)
Definition M (E S A : Type) : Type := S -> S * outcome E A.

Section StateMonad.
Context {E S : Type}.

Definition sret {A} (a : A) : M E S A := fun s => (s, Ok a).
Definition sthrow {A} (e : E) : M E S A := fun s => (s, Err e).
Definition spanic {A} : M E S A := fun s => (s, Panic).
Definition slift {A} (o : outcome E A) : M E S A := fun s => (s, o).
Definition sget : M E S S := fun s => (s, Ok s).
Definition smodify (f : S -> S) : M E S unit := fun s => (f s, Ok tt).

Definition sbind {A B} (m : M E S A) (k : A -> M E S B) : M E S B :=
  fun s =>
    match m s with
    | (s', Ok a) => k a s'
    | (s', Err e) => (s', Err e)
    | (s', Panic) => (s', Panic)
    | (s', Hang) => (s', Hang)
    end.

(** A guard [if c { return Err(e) }]. *)
Definition sguard (c : bool) (e : E) : M E S unit :=
  if c then sthrow e else sret tt.

(** [for x in xs { body(x)?; }]. *)
Fixpoint sfor {A} (xs : list A) (body : A -> M E S unit) : M E S unit :=
  match xs with
  | [] => sret tt
  | x :: xs => sbind (body x) (fun _ => sfor xs body)
  end.
End StateMonad.

(** Run a method of a field of the receiver. *)
Definition zoom {E S T A} (proj : S -> T) (upd : T -> S -> S) (m : M E T A) : M E S A :=
  fun s => let '(t, o) := m (proj s) in (upd t s, o).

Declare Scope valori_scope.
Delimit Scope valori_scope with valori.
Notation "'let*' x := c 'in' k" := (sbind c (fun x => k))
  (at level 10, x name, c at level 100, k at level 200) : valori_scope.
Notation "c ;;; k" := (sbind c (fun _ => k))
  (at level 199, right associativity) : valori_scope.
Notation "'do*' x := c 'in' k" := (obind c (fun x => k))
  (at level 10, x name, c at level 100, k at level 200) : valori_scope.
Global Open Scope valori_scope.

(** ** Machine integers

    A [w]-bit integer is a [Z]; the width shows in the ranges and in the
    explicit wrap-around of the casts and of the (release-profile) operators. *)
Definition u8_MAX : Z := 255.
Definition u16_MAX : Z := 65535.
Definition u32_MAX : Z := 4294967295.
Definition u64_MAX : Z := 18446744073709551615.
Definition i32_MAX : Z := 2147483647.
Definition i32_MIN : Z := -2147483648.
Definition i64_MAX : Z := 9223372036854775807.
Definition i64_MIN : Z := -9223372036854775808.

Definition in_u8 (z : Z) : Prop := 0 <= z <= u8_MAX.
Definition in_u16 (z : Z) : Prop := 0 <= z <= u16_MAX.
Definition in_u32 (z : Z) : Prop := 0 <= z <= u32_MAX.
Definition in_u64 (z : Z) : Prop := 0 <= z <= u64_MAX.
Definition in_i32 (z : Z) : Prop := i32_MIN <= z <= i32_MAX.
Definition in_i64 (z : Z) : Prop := i64_MIN <= z <= i64_MAX.

(** [x as u32] and the like. *)
Definition wrap_u32 (z : Z) : Z := z mod 4294967296.
Definition wrap_i32 (z : Z) : Z := (z + 2147483648) mod 4294967296 - 2147483648.
Definition wrap_i64 (z : Z) : Z :=
  (z + 9223372036854775808) mod 18446744073709551616 - 9223372036854775808.

Definition clamp (lo hi z : Z) : Z := Z.max lo (Z.min hi z).

Definition saturating_add_i32 (a b : Z) : Z := clamp i32_MIN i32_MAX (a + b).
Definition saturating_sub_i32 (a b : Z) : Z := clamp i32_MIN i32_MAX (a - b).
Definition saturating_add_i64 (a b : Z) : Z := clamp i64_MIN i64_MAX (a + b).

Ltac unfold_int :=
  unfold in_u8, in_u16, in_u32, in_u64, in_i32, in_i64,
    saturating_add_i32, saturating_sub_i32, saturating_add_i64, clamp,
    u8_MAX, u16_MAX, u32_MAX, u64_MAX, i32_MAX, i32_MIN, i64_MAX, i64_MIN in *.

Ltac int_lia := unfold_int; lia.

(** [Forall P l] for a concrete list and an arithmetic [P]. *)
Ltac concrete_forall := repeat first [apply Forall_nil_2 | apply Forall_cons_2; [simpl; int_lia|]].

(** ** Vectors indexed by machine integers

    [vec_get] is [slice::get]; indexing with [v[i]] is [unwrap] of it.  The
    bounds test comes first, so that a sentinel such as [u32::MAX] is rejected
    without being turned into a [nat]. *)
Definition len {A} (l : list A) : Z := Z.of_nat (length l).

Definition in_range {A} (l : list A) (i : Z) : bool := (0 <=? i) && (i <? len l).

Definition vec_get {A} (l : list A) (i : Z) : option A :=
  if in_range l i then l !! Z.to_nat i else None.

(** [v[i] = x] for an index already known to be in range (no effect otherwise). *)
Definition vec_set {A} (l : list A) (i : Z) (x : A) : list A :=
  if in_range l i then <[Z.to_nat i := x]> l else l.

(** ** Automation *)

Create HintDb valori.

Ltac bool_prop :=
  repeat match goal with
  | H : (_ && _)%bool = true |- _ => apply andb_true_iff in H; destruct H
  | H : (_ || _)%bool = false |- _ => apply orb_false_iff in H; destruct H
  | H : negb _ = true |- _ => apply negb_true_iff in H
  | H : negb _ = false |- _ => apply negb_false_iff in H
  | H : (_ =? _) = true |- _ => apply Z.eqb_eq in H
  | H : (_ =? _) = false |- _ => apply Z.eqb_neq in H
  | H : (_ <? _) = true |- _ => apply Z.ltb_lt in H
  | H : (_ <? _) = false |- _ => apply Z.ltb_ge in H
  | H : (_ <=? _) = true |- _ => apply Z.leb_le in H
  | H : (_ <=? _) = false |- _ => apply Z.leb_gt in H
  end.

(** Split the next test or match of the goal, keeping its equation as facts. *)
Ltac split_match := case_match; bool_prop; simplify_eq/=.

Lemma in_range_spec {A} (l : list A) i : in_range l i = true <-> 0 <= i < len l.
Proof. unfold in_range. rewrite andb_true_iff, Z.leb_le, Z.ltb_lt. lia. Qed.

Lemma in_range_false {A} (l : list A) i : in_range l i = false <-> ~ (0 <= i < len l).
Proof. rewrite <- in_range_spec. destruct (in_range l i); naive_solver. Qed.

Lemma vec_get_Some {A} (l : list A) i x :
  vec_get l i = Some x <-> 0 <= i < len l /\ l !! Z.to_nat i = Some x.
Proof.
  unfold vec_get. destruct (in_range l i) eqn:E.
  - apply in_range_spec in E. tauto.
  - apply in_range_false in E. split; [done|]. tauto.
Qed.

Lemma vec_get_lt {A} (l : list A) i x : vec_get l i = Some x -> 0 <= i < len l.
Proof. intros H. by apply vec_get_Some in H as [? _]. Qed.

Lemma vec_get_None {A} (l : list A) i : vec_get l i = None <-> ~ (0 <= i < len l).
Proof.
  unfold vec_get. destruct (in_range l i) eqn:E.
  - apply in_range_spec in E. rewrite lookup_ge_None. unfold len in *. lia.
  - apply in_range_false in E. naive_solver.
Qed.

Lemma vec_get_is_Some {A} (l : list A) i : 0 <= i < len l -> exists x, vec_get l i = Some x.
Proof.
  intros H. destruct (vec_get l i) eqn:E; [eauto|]. by apply vec_get_None in E.
Qed.

Lemma vec_get_nat {A} (l : list A) (n : nat) : vec_get l (Z.of_nat n) = l !! n.
Proof.
  unfold vec_get. destruct (in_range l (Z.of_nat n)) eqn:E.
  - by rewrite Nat2Z.id.
  - apply in_range_false in E. symmetry. apply lookup_ge_None. unfold len in *. lia.
Qed.

Lemma len_nonneg {A} (l : list A) : 0 <= len l.
Proof. unfold len. lia. Qed.

Lemma len_app {A} (l k : list A) : len (l ++ k) = len l + len k.
Proof. unfold len. rewrite length_app. lia. Qed.

Lemma len_cons {A} (x : A) l : len (x :: l) = 1 + len l.
Proof. unfold len. simpl. lia. Qed.

Lemma len_nil {A} : len (@nil A) = 0.
Proof. done. Qed.

(** Arithmetic over lengths of concatenations. *)
Ltac len_lia :=
  unfold len in *; rewrite ?length_app, ?length_cons, ?length_nil in *; simpl in *; lia.

Lemma len_vec_set {A} (l : list A) i x : len (vec_set l i x) = len l.
Proof. unfold vec_set, len. case_match; [by rewrite length_insert | done]. Qed.

Lemma vec_get_set_eq {A} (l : list A) i x :
  0 <= i < len l -> vec_get (vec_set l i x) i = Some x.
Proof.
  intros H. apply vec_get_Some. rewrite len_vec_set. split; [done|].
  unfold vec_set. rewrite (proj2 (in_range_spec l i) H).
  apply list_lookup_insert_eq. unfold len in H. lia.
Qed.

Lemma vec_get_set_ne {A} (l : list A) i j x :
  i <> j -> vec_get (vec_set l i x) j = vec_get l j.
Proof.
  intros Hne. unfold vec_get.
  assert (in_range (vec_set l i x) j = in_range l j) as ->.
  { unfold in_range. by rewrite len_vec_set. }
  destruct (in_range l j) eqn:Ej; [|done]. unfold vec_set.
  destruct (in_range l i) eqn:Ei; [|done].
  apply in_range_spec in Ej, Ei. apply list_lookup_insert_ne. lia.
Qed.

Lemma vec_get_app_l {A} (l k : list A) i :
  i < len l -> vec_get (l ++ k) i = vec_get l i.
Proof.
  intros H. unfold vec_get, in_range. rewrite len_app.
  pose proof (len_nonneg k). destruct (0 <=? i) eqn:E0; [|done]. bool_prop.
  rewrite (proj2 (Z.ltb_lt i (len l))), (proj2 (Z.ltb_lt i (len l + len k))) by lia.
  simpl. apply lookup_app_l. unfold len in H. lia.
Qed.

Lemma vec_get_snoc {A} (l : list A) x : vec_get (l ++ [x]) (len l) = Some x.
Proof.
  apply vec_get_Some. split; [len_lia|].
  unfold len. rewrite Nat2Z.id. by apply list_lookup_middle.
Qed.

Lemma vec_get_snoc_ge {A} (l : list A) x i :
  len l < i -> vec_get (l ++ [x]) i = None.
Proof. intros. apply vec_get_None. len_lia. Qed.

#[export] Hint Resolve len_nonneg : valori.
#[export] Hint Rewrite @len_app @len_cons @len_vec_set : valori.

Lemma wrap_u32_small z : in_u32 z -> wrap_u32 z = z.
Proof. intros. unfold wrap_u32. apply Z.mod_small. int_lia. Qed.

Lemma wrap_i64_small z : in_i64 z -> wrap_i64 z = z.
Proof. intros. unfold wrap_i64. rewrite Z.mod_small; int_lia. Qed.

Lemma wrap_i32_small z : in_i32 z -> wrap_i32 z = z.
Proof. intros. unfold wrap_i32. rewrite Z.mod_small; int_lia. Qed.

Lemma wrap_i64_range z : in_i64 (wrap_i64 z).
Proof.
  unfold wrap_i64. pose proof (Z.mod_pos_bound (z + 9223372036854775808) 18446744073709551616).
  int_lia.
Qed.

Lemma wrap_i32_range z : in_i32 (wrap_i32 z).
Proof.
  unfold wrap_i32. pose proof (Z.mod_pos_bound (z + 2147483648) 4294967296). int_lia.
Qed.

(** [wrap_i64] is a ring morphism on the left argument of [+]. *)
Lemma wrap_i64_add_l a b : wrap_i64 (wrap_i64 a + b) = wrap_i64 (a + b).
Proof.
  unfold wrap_i64. f_equal.
  replace ((a + 9223372036854775808) mod 18446744073709551616 - 9223372036854775808 + b
           + 9223372036854775808)
    with ((a + 9223372036854775808) mod 18446744073709551616 + b) by lia.
  rewrite Zplus_mod_idemp_l. f_equal. lia.
Qed.

Lemma wrap_i64_add_r a b : wrap_i64 (a + wrap_i64 b) = wrap_i64 (a + b).
Proof. rewrite (Z.add_comm a (wrap_i64 b)), wrap_i64_add_l. f_equal. lia. Qed.

Lemma wrap_i64_idem a : wrap_i64 (wrap_i64 a) = wrap_i64 a.
Proof. apply wrap_i64_small, wrap_i64_range. Qed.

#[export] Hint Rewrite wrap_i64_add_l wrap_i64_add_r wrap_i64_idem : valori.

(** Distinct indices below [n] are at most [n]. *)
Lemma NoDup_range_length (l : list Z) (n : nat) :
  NoDup l -> (forall i, i ∈ l -> 0 <= i < Z.of_nat n) -> (length l <= n)%nat.
Proof.
  intros Hnd Hr.
  assert (NoDup (Z.to_nat <$> l)) as Hnd'.
  { apply NoDup_fmap_2_strong; [|done]. intros x y Hx Hy ?. apply Hr in Hx, Hy. lia. }
  assert ((Z.to_nat <$> l) ⊆ seq 0 n) as Hsub.
  { intros x (y & -> & Hy)%list_elem_of_fmap. apply Hr in Hy. apply elem_of_seq. lia. }
  pose proof (submseteq_length _ _ (NoDup_submseteq _ _ Hnd' Hsub)) as Hl.
  by rewrite length_fmap, length_seq in Hl.
Qed.

Lemma NoDup_remove_mid {A} (l1 l2 : list A) x :
  NoDup (l1 ++ x :: l2) -> NoDup (l1 ++ l2) /\ x ∉ l1 ++ l2.
Proof.
  intros Hnd. split.
  - eapply sublist_NoDup; [exact Hnd|]. apply sublist_app; [done|]. by apply sublist_cons.
  - apply NoDup_app in Hnd as (_ & Hd & [? _]%NoDup_cons). intros [Hc|Hc]%elem_of_app; [|done].
    apply (Hd x Hc). by left.
Qed.

Lemma elem_of_remove_mid {A} (l1 l2 : list A) x i :
  NoDup (l1 ++ x :: l2) -> i ∈ l1 ++ l2 <-> i ∈ l1 ++ x :: l2 /\ x <> i.
Proof.
  intros [_ Hx]%NoDup_remove_mid. rewrite !elem_of_app, elem_of_cons in *. split.
  - intros Hi. split; [tauto|]. intros ->. tauto.
  - intros [Hi Hne]. destruct Hi as [?|[?|?]]; [tauto|congruence|tauto].
Qed.

Lemma last_None_nil {A} (l : list A) : last l = None -> l = [].
Proof. apply last_None. Qed.

Lemma filter_ext_in {A} (P Q : A -> Prop) `{!forall x, Decision (P x), !forall x, Decision (Q x)}
    (l : list A) :
  (forall x, x ∈ l -> P x <-> Q x) -> filter P l = filter Q l.
Proof.
  induction l as [|x l IH]; intros Hl; [done|]. rewrite !filter_cons.
  rewrite IH by (intros; apply Hl; by right).
  destruct (decide (P x)), (decide (Q x)); try done; exfalso; destruct (Hl x); [by left|tauto|by left|tauto].
Qed.

(** ** [sort_by_key]

    A stable sort by an integer key, as insertion from the left. *)
Fixpoint insert_by {A} (key : A -> Z) (x : A) (l : list A) : list A :=
  match l with
  | [] => [x]
  | y :: l => if key x <? key y then x :: y :: l else y :: insert_by key x l
  end.
Definition sort_by_key {A} (key : A -> Z) (l : list A) : list A :=
  foldl (fun acc x => insert_by key x acc) [] l.

Section SortByKey.
Context {A : Type} (key : A -> Z).
Implicit Types (x y : A) (l : list A).

Definition key_le x y : Prop := key x <= key y.

Lemma insert_by_perm x l : insert_by key x l ≡ₚ x :: l.
Proof.
  induction l as [|y l IH]; [done|]. cbn [insert_by]. destruct (_ <? _); [done|].
  rewrite IH. apply Permutation_swap.
Qed.

Lemma insert_by_sorted x l : StronglySorted key_le l -> StronglySorted key_le (insert_by key x l).
Proof.
  induction 1 as [|y l Hl IH Hy]; cbn [insert_by]; [by repeat constructor|].
  destruct (Z.ltb_spec (key x) (key y)).
  - constructor; [by constructor|]. constructor; [unfold key_le; lia|].
    eapply Forall_impl; [exact Hy|]. unfold key_le. intros z. lia.
  - constructor; [done|]. rewrite insert_by_perm. constructor; [unfold key_le; lia|done].
Qed.

Lemma sort_by_key_ok l : sort_by_key key l ≡ₚ l /\ StronglySorted key_le (sort_by_key key l).
Proof.
  unfold sort_by_key. assert (forall acc, StronglySorted key_le acc ->
    foldl (fun acc x => insert_by key x acc) acc l ≡ₚ acc ++ l
    /\ StronglySorted key_le (foldl (fun acc x => insert_by key x acc) acc l)) as Hg.
  { induction l as [|x l IH]; intros acc Ha; [by rewrite app_nil_r|]. simpl.
    destruct (IH (insert_by key x acc)) as [Hp Hs]; [by apply insert_by_sorted|]. split; [|done].
    rewrite Hp, insert_by_perm. apply Permutation_middle. }
  apply Hg. constructor.
Qed.

(** A list that is sorted by distinct keys is what sorting any of its
    permutations gives. *)
Lemma sort_by_key_unique l l' :
  l ≡ₚ l' -> StronglySorted (fun x y => key x < key y) l' -> sort_by_key key l = l'.
Proof.
  intros Hp Hs. destruct (sort_by_key_ok l) as [Hp' Hs'].
  assert (forall x y, x ∈ l' -> y ∈ l' -> key x = key y -> x = y) as Hd.
  { clear -Hs. induction Hs as [|z l Hl IH Hz]; [set_solver|]. rewrite Forall_forall in Hz.
    intros x y [-> | Hx]%elem_of_cons [-> | Hy]%elem_of_cons E1; [done| | |by apply IH];
      [specialize (Hz _ Hy)|specialize (Hz _ Hx)]; lia. }
  apply (StronglySorted_unique_strong key_le); [|done| |by rewrite Hp'].
  - intros x y Hx Hy H1 H2. rewrite Hp', Hp in Hx. apply Hd; [done|done|]. unfold key_le in *. lia.
  - clear -Hs. induction Hs as [|z l Hl IH Hz]; constructor; [done|].
    eapply Forall_impl; [exact Hz|]. unfold key_le. intros y. lia.
Qed.
(** Items whose key is their position are sorted. *)
Lemma sorted_by_position l s :
  (forall k x, l !! k = Some x -> key x = Z.of_nat (s + k)) -> StronglySorted (fun x y => key x < key y) l.
Proof.
  revert s. induction l as [|x l IH]; intros s Hk; [constructor|]. constructor.
  - apply (IH (S s)). intros k y Hy. rewrite (Hk (S k) y Hy). lia.
  - apply Forall_lookup. intros k y Hy. rewrite (Hk 0%nat x eq_refl), (Hk (S k) y Hy). lia.
Qed.
End SortByKey.

(** Reading a list through its indices. *)
Lemma omap_lookup_seq {A} (l : list A) : omap (fun i => l !! i) (seq 0 (length l)) = l.
Proof.
  assert (forall pre, omap (fun i => (pre ++ l) !! i) (seq (length pre) (length l)) = l) as Hg; [|apply (Hg [])].
  induction l as [|x l IH]; intros pre; [done|]. csimpl. rewrite list_lookup_middle by done. f_equal.
  specialize (IH (pre ++ [x])). rewrite length_app, <- app_assoc in IH. simpl in IH.
  by rewrite Nat.add_1_r in IH.
Qed.

Lemma omap_lookup_all {A B} (f : A -> option B) l k :
  Forall (fun x => is_Some (f x)) l -> omap f l !! k = l !! k ≫= f.
Proof.
  intros Hl. revert k. induction Hl as [|x l [y Hx] Hl IH]; intros k; [done|]. csimpl. rewrite Hx.
  destruct k as [|k]; [simpl; by rewrite Hx|]. apply IH.
Qed.
