(* ===== verification/Hoare.v ===== *)
(** * Weakest preconditions for the state-and-outcome monad

    [wp m s Q R] runs [m] from [s] and says that it returns: with [Ok a] in a
    state satisfying [Q a], or with [Err e] in a state satisfying [R e].  An
    abort or an endless loop satisfies nothing, so a [wp] is a total-correctness
    statement. *)

From S2P Require Import Prelude.

Section Wp.
Context {E S : Type}.

Definition wp {A} (m : M E S A) (s : S) (Q : A -> S -> Prop) (R : E -> S -> Prop) : Prop :=
  match m s with
  | (s', Ok a) => Q a s'
  | (s', Err e) => R e s'
  | (_, Panic) | (_, Hang) => False
  end.

Lemma wp_mono {A} (m : M E S A) s (Q Q' : A -> S -> Prop) (R R' : E -> S -> Prop) :
  (forall a s', Q a s' -> Q' a s') -> (forall e s', R e s' -> R' e s') ->
  wp m s Q R -> wp m s Q' R'.
Proof. intros HQ HR. unfold wp. destruct (m s) as [s' [a|e| |]]; auto. Qed.

Lemma wp_ret {A} (a : A) s (Q : A -> S -> Prop) R : Q a s -> wp (sret a) s Q R.
Proof. done. Qed.

Lemma wp_throw {A} e s (Q : A -> S -> Prop) (R : E -> S -> Prop) : R e s -> wp (sthrow e) s Q R.
Proof. done. Qed.

Lemma wp_get s (Q : S -> S -> Prop) (R : E -> S -> Prop) : Q s s -> wp sget s Q R.
Proof. done. Qed.

Lemma wp_modify f s (Q : unit -> S -> Prop) (R : E -> S -> Prop) : Q tt (f s) -> wp (smodify f) s Q R.
Proof. done. Qed.

Lemma wp_bind {A B} (m : M E S A) (k : A -> M E S B) s Q R :
  wp m s (fun a s' => wp (k a) s' Q R) R -> wp (sbind m k) s Q R.
Proof. unfold wp, sbind. destruct (m s) as [s' [a|e| |]]; auto. Qed.

Lemma wp_guard c e s (Q : unit -> S -> Prop) (R : E -> S -> Prop) :
  (c = true -> R e s) -> (c = false -> Q tt s) -> wp (sguard c e) s Q R.
Proof. intros H1 H2. destruct c; [by apply H1|by apply H2]. Qed.

Lemma wp_ok_or {A} (o : option A) e s (Q : A -> S -> Prop) (R : E -> S -> Prop) :
  (o = None -> R e s) -> (forall a, o = Some a -> Q a s) -> wp (slift (ok_or o e)) s Q R.
Proof. intros H1 H2. destruct o as [a|]; [by apply H2|by apply H1]. Qed.

Lemma wp_lift_ok {A} (o : outcome E A) a s (Q : A -> S -> Prop) (R : E -> S -> Prop) :
  o = Ok a -> Q a s -> wp (slift o) s Q R.
Proof. by intros ->. Qed.

Lemma wp_run {A} (m : M E S A) s s' a (Q : A -> S -> Prop) (R : E -> S -> Prop) :
  m s = (s', Ok a) -> Q a s' -> wp m s Q R.
Proof. unfold wp. by intros ->. Qed.

(** A loop keeps an invariant indexed by what is left to do. *)
Lemma wp_for {A} (xs : list A) (body : A -> M E S unit) (I : list A -> S -> Prop) R s :
  (forall x xs s, I (x :: xs) s -> wp (body x) s (fun _ s' => I xs s') R) ->
  I xs s -> wp (sfor xs body) s (fun _ s' => I [] s') R.
Proof.
  intros Hb. revert s. induction xs as [|x xs IH]; intros s HI; simpl; [done|].
  apply wp_bind. apply (wp_mono _ _ (fun _ s' => I xs s') _ R); [|auto|by apply Hb].
  intros _ s' HI'. by apply IH.
Qed.

(** A command whose outcome is known in both cases. *)
Lemma wp_decides (m : M E S unit) s d :
  wp m s (fun _ _ => d = Ok tt) (fun e _ => d = Err e) -> (m s).2 = d.
Proof. unfold wp. destruct (m s) as [s' [[]|e| |]]; simpl; (done || by intros ->). Qed.

Lemma wp_outcome {A} (m : M E S A) s Q R :
  wp m s Q R -> returns (m s).2.
Proof. unfold wp, returns. by destruct (m s) as [s' [a|e| |]]. Qed.
End Wp.

(** [wp] of a method run on a field. *)
Lemma wp_zoom {E S T A} (proj : S -> T) (upd : T -> S -> S) (m : M E T A) s Q R :
  wp m (proj s) (fun a t => Q a (upd t s)) (fun e t => R e (upd t s)) ->
  wp (zoom proj upd m) s Q R.
Proof. unfold wp, zoom. destruct (m (proj s)) as [t [a|e| |]]; auto. Qed.

(** Step through the monadic structure of a goal [wp ...]. *)
Ltac wp_step :=
  lazymatch goal with
  | |- wp (sbind _ _) _ _ _ => apply wp_bind
  | |- wp sget _ _ _ => apply wp_get
  | |- wp (sret _) _ _ _ => apply wp_ret
  | |- wp (smodify _) _ _ _ => apply wp_modify
  | |- wp (sguard _ _) _ _ _ => apply wp_guard; intros
  | |- wp (slift (ok_or _ _)) _ _ _ => apply wp_ok_or; [intros|intros ? ?]
  end; bool_prop.

(** A step that succeeds. *)
Lemma bind_ok {E S X Y} (m : M E S X) (k : X -> M E S Y) s s' x :
  m s = (s', Ok x) -> sbind m k s = k x s'.
Proof. unfold sbind. by intros ->. Qed.
