(* ===== verification/Core.v ===== *)
(** * valori-core: identifiers, kinds and the version counter

    Models [crates/valori-core/src]: the integer newtypes of [id.rs] (an id is
    the [Z] it wraps), the graph kinds of [enums.rs] with their [u8] codes, the
    monotonic [Version] counter, and [ExecutionId] with its byte and text
    forms. *)

From S2P Require Import Prelude.

(** ** Constants of id.rs *)
Definition DEFAULT_NS : Z := 0.
Definition NS_LIST_NIL : Z := u32_MAX.
Definition MAX_NAMESPACES : Z := 1024.

(** ** Graph kinds (enums.rs) *)
Inductive NodeKind : Type :=
| NRecord | NConcept | NAgent | NUser | NTool | NDocument | NChunk.

Inductive EdgeKind : Type :=
| ERelation | EFollows | EInEpisode | EByAgent | EMentions | ERefersTo
| EParentOf | ESupersedes | EContradicts.

#[export] Instance NodeKind_eq_dec : EqDecision NodeKind.
Proof. solve_decision. Defined.
#[export] Instance EdgeKind_eq_dec : EqDecision EdgeKind.
Proof. solve_decision. Defined.

(** [kind as u8]: the [repr(u8)] discriminants. *)
Definition NodeKind_as_u8 (k : NodeKind) : Z :=
  match k with
  | NRecord => 0 | NConcept => 1 | NAgent => 2 | NUser => 3
  | NTool => 4 | NDocument => 5 | NChunk => 6
  end.

Definition NodeKind_from_u8 (v : Z) : option NodeKind :=
  match v with
  | 0 => Some NRecord | 1 => Some NConcept | 2 => Some NAgent | 3 => Some NUser
  | 4 => Some NTool | 5 => Some NDocument | 6 => Some NChunk
  | _ => None
  end.

Definition EdgeKind_as_u8 (k : EdgeKind) : Z :=
  match k with
  | ERelation => 0 | EFollows => 1 | EInEpisode => 2 | EByAgent => 3
  | EMentions => 4 | ERefersTo => 5 | EParentOf => 6 | ESupersedes => 7
  | EContradicts => 8
  end.

Definition EdgeKind_from_u8 (v : Z) : option EdgeKind :=
  match v with
  | 0 => Some ERelation | 1 => Some EFollows | 2 => Some EInEpisode
  | 3 => Some EByAgent | 4 => Some EMentions | 5 => Some ERefersTo
  | 6 => Some EParentOf | 7 => Some ESupersedes | 8 => Some EContradicts
  | _ => None
  end.

(** ** Version (version.rs): [checked_add(1).expect(..)] aborts at [u64::MAX]. *)
Definition Version_next {E} (v : Z) : outcome E Z :=
  if v <? u64_MAX then Ok (v + 1) else Panic.

(** [ClusterEpoch::next] has the same body. *)
Definition ClusterEpoch_next {E} (e : Z) : outcome E Z :=
  if e <? u64_MAX then Ok (e + 1) else Panic.

(** ** ExecutionId *)
Record ExecutionId : Type := mkExecutionId { hi : Z; lo : Z }.

(** [u64::from_be_bytes] and [to_be_bytes], by Horner's rule. *)
Definition be_combine (bs : list Z) : Z := foldl (fun acc b => acc * 256 + b) 0 bs.

Fixpoint be_split (n : nat) (v : Z) : list Z :=
  match n with
  | O => []
  | S n => be_split n (v / 256) ++ [v mod 256]
  end.

Definition ExecutionId_from_bytes (b : list Z) : ExecutionId :=
  mkExecutionId (be_combine (take 8 b)) (be_combine (take 8 (drop 8 b))).

Definition ExecutionId_to_bytes (e : ExecutionId) : list Z :=
  be_split 8 (hi e) ++ be_split 8 (lo e).

(** ASCII text is a list of bytes.  [{:016x}] prints sixteen lowercase digits. *)
Definition hex_digit (d : Z) : Z := if d <? 10 then 48 + d else 87 + d.

Fixpoint hex_fixed (n : nat) (v : Z) : list Z :=
  match n with
  | O => []
  | S n => hex_fixed n (v / 16) ++ [hex_digit (v mod 16)]
  end.

Definition ExecutionId_display (e : ExecutionId) : list Z :=
  hex_fixed 16 (hi e) ++ hex_fixed 16 (lo e).

(** [char::to_digit(16)]: digits and letters of either case. *)
Definition to_digit16 (c : Z) : option Z :=
  if (48 <=? c) && (c <=? 57) then Some (c - 48)
  else if (97 <=? c) && (c <=? 102) then Some (c - 87)
  else if (65 <=? c) && (c <=? 70) then Some (c - 55)
  else None.

(** The digit loop of [u64::from_str_radix], with its overflow checks. *)
Fixpoint radix16_digits (acc : Z) (s : list Z) : option Z :=
  match s with
  | [] => Some acc
  | c :: s =>
      match to_digit16 c with
      | None => None
      | Some d =>
          let acc' := acc * 16 + d in
          if acc' <=? u64_MAX then radix16_digits acc' s else None
      end
  end.

(** [u64::from_str_radix(s, 16)]: an optional leading [+], then at least one
    digit.  A lone sign is rejected, and so is [-] for an unsigned type. *)
Definition u64_from_str_radix16 (s : list Z) : option Z :=
  match s with
  | [] => None
  | 43 :: (_ :: _) as digits => radix16_digits 0 digits
  | _ => radix16_digits 0 s
  end.

Inductive CoreError : Type := InvalidInput.

Definition ExecutionId_from_str (s : list Z) : outcome CoreError ExecutionId :=
  if negb (len s =? 32) || negb (forallb (fun c => c <? 128) s) then Err InvalidInput
  else match u64_from_str_radix16 (take 16 s), u64_from_str_radix16 (drop 16 s) with
       | Some h, Some l => Ok (mkExecutionId h l)
       | _, _ => Err InvalidInput
       end.

(** ** Kind codes *)

Lemma NodeKind_code_range k : 0 <= NodeKind_as_u8 k <= 6.
Proof. destruct k; simpl; lia. Qed.

Lemma NodeKind_from_as k : NodeKind_from_u8 (NodeKind_as_u8 k) = Some k.
Proof. by destruct k. Qed.

Lemma EdgeKind_code_range k : 0 <= EdgeKind_as_u8 k <= 8.
Proof. destruct k; simpl; lia. Qed.

Lemma EdgeKind_from_as k : EdgeKind_from_u8 (EdgeKind_as_u8 k) = Some k.
Proof. by destruct k. Qed.

#[export] Hint Rewrite NodeKind_from_as EdgeKind_from_as : valori.

(** ** Text and byte forms of an ExecutionId *)

Lemma length_be_split n v : length (be_split n v) = n.
Proof. revert v. induction n; intros; simpl; rewrite ?length_app, ?IHn; simpl; lia. Qed.

Lemma length_hex_fixed n v : length (hex_fixed n v) = n.
Proof. revert v. induction n; intros; simpl; rewrite ?length_app, ?IHn; simpl; lia. Qed.

Lemma be_combine_split n v : 0 <= v < 256 ^ Z.of_nat n -> be_combine (be_split n v) = v.
Proof.
  unfold be_combine. revert v. induction n as [|n IH]; intros v Hv.
  - simpl in *. lia.
  - rewrite Nat2Z.inj_succ, Z.pow_succ_r in Hv by lia. simpl.
    rewrite foldl_app. simpl. rewrite IH.
    + pose proof (Z.div_mod v 256). lia.
    + split; [apply Z.div_pos; lia | apply Z.div_lt_upper_bound; lia].
Qed.

Lemma to_digit16_hex d : 0 <= d < 16 -> to_digit16 (hex_digit d) = Some d.
Proof.
  intros. assert (d = 0 \/ d = 1 \/ d = 2 \/ d = 3 \/ d = 4 \/ d = 5 \/ d = 6 \/ d = 7 \/
    d = 8 \/ d = 9 \/ d = 10 \/ d = 11 \/ d = 12 \/ d = 13 \/ d = 14 \/ d = 15) by lia.
  destruct_or!; subst; reflexivity.
Qed.

Lemma hex_digit_range d : 0 <= d < 16 -> 48 <= hex_digit d < 128.
Proof. intros. unfold hex_digit. case_match; bool_prop; lia. Qed.

Lemma hex_fixed_ascii n v : Forall (fun c => 48 <= c < 128) (hex_fixed n v).
Proof.
  revert v. induction n; intros v; simpl; [constructor|].
  apply Forall_app; split; [done|]. constructor; [|constructor].
  apply hex_digit_range, Z.mod_pos_bound. lia.
Qed.

Lemma radix16_digits_app acc s t :
  radix16_digits acc (s ++ t) =
  match radix16_digits acc s with Some a => radix16_digits a t | None => None end.
Proof.
  revert acc. induction s as [|c s IH]; intros acc; simpl; [done|].
  destruct (to_digit16 c); [|done]. case_match; [apply IH|done].
Qed.

Lemma radix16_hex_fixed n acc v :
  0 <= acc -> 0 <= v < 16 ^ Z.of_nat n -> acc * 16 ^ Z.of_nat n + v <= u64_MAX ->
  radix16_digits acc (hex_fixed n v) = Some (acc * 16 ^ Z.of_nat n + v).
Proof.
  revert v. induction n as [|n IH]; intros v Ha Hv Hm.
  - simpl in *. f_equal. lia.
  - rewrite Nat2Z.inj_succ, Z.pow_succ_r in * by lia. simpl.
    pose proof (Z.div_mod v 16). pose proof (Z.mod_pos_bound v 16).
    rewrite radix16_digits_app, IH by (try split; try apply Z.div_pos;
      try apply Z.div_lt_upper_bound; nia).
    simpl. rewrite to_digit16_hex by lia.
    rewrite (proj2 (Z.leb_le _ _)) by nia. f_equal. nia.
Qed.

Lemma u64_radix16_hex v : in_u64 v -> u64_from_str_radix16 (hex_fixed 16 v) = Some v.
Proof.
  intros Hv.
  assert (radix16_digits 0 (hex_fixed 16 v) = Some v) as Hr.
  { rewrite radix16_hex_fixed; unfold_int; simpl; [f_equal; lia | lia ..]. }
  pose proof (hex_fixed_ascii 16 v) as Ha. pose proof (length_hex_fixed 16 v) as Hl.
  unfold u64_from_str_radix16. destruct (hex_fixed 16 v) as [|c s]; [done|].
  inversion_clear Ha as [|? ? Hc _]. repeat case_match; try done; lia.
Qed.

Lemma ExecutionId_bytes_roundtrip e :
  in_u64 (hi e) -> in_u64 (lo e) -> ExecutionId_from_bytes (ExecutionId_to_bytes e) = e.
Proof.
  intros. unfold ExecutionId_from_bytes, ExecutionId_to_bytes.
  rewrite take_app_length', drop_app_length' by (by rewrite length_be_split).
  rewrite (take_ge (be_split 8 (lo e))) by (rewrite length_be_split; lia).
  rewrite !be_combine_split by (simpl; int_lia). by destruct e.
Qed.

Lemma ExecutionId_text_roundtrip e :
  in_u64 (hi e) -> in_u64 (lo e) -> ExecutionId_from_str (ExecutionId_display e) = Ok e.
Proof.
  intros. unfold ExecutionId_from_str, ExecutionId_display.
  assert (len (hex_fixed 16 (hi e) ++ hex_fixed 16 (lo e)) = 32) as ->.
  { unfold len. rewrite length_app, !length_hex_fixed. done. }
  rewrite (proj2 (forallb_forall _ _)).
  - rewrite take_app_length', drop_app_length' by (by rewrite length_hex_fixed).
    rewrite !u64_radix16_hex by done. by destruct e.
  - intros c Hc. apply list_elem_of_In, elem_of_app in Hc. apply Z.ltb_lt.
    destruct Hc as [Hc|Hc]; revert Hc;
      by apply (Forall_forall (fun c => c < 128)), (Forall_impl _ _ _ (hex_fixed_ascii _ _));
      intros; lia.
Qed.

(** An ExecutionId survives both of its encodings: for every pair of u64
    halves, from_bytes(to_bytes(id)) is id, and parsing the text written by
    Display succeeds and yields id. *)
Theorem ExecutionId_roundtrip (e : ExecutionId)
  (Hhi : in_u64 (hi e)) (Hlo : in_u64 (lo e)) :
  ExecutionId_from_bytes (ExecutionId_to_bytes e) = e
  /\ ExecutionId_from_str (ExecutionId_display e) = Ok e.
Proof. split; [by apply ExecutionId_bytes_roundtrip | by apply ExecutionId_text_roundtrip]. Qed.

Lemma ExecutionId_roundtrip_witness :
  ExecutionId_from_str (ExecutionId_display (mkExecutionId 72623859790382856 17945089112343186192))
  = Ok (mkExecutionId 72623859790382856 17945089112343186192).
Proof.
  apply (ExecutionId_roundtrip (mkExecutionId 72623859790382856 17945089112343186192));
    simpl; int_lia.
Defined.
