(* ===== verification/Fxp.v ===== *)
(** * Q16.16 arithmetic and vector kernels

    Models [crates/valori-kernel/src/config.rs], [fxp/ops.rs],
    [fxp/format.rs], [types/vector.rs], [math/l2.rs] and [math/dot.rs].  A
    scalar is the [i32] it wraps, a vector the list of its scalars.

    The SIMD kernels are modelled lane by lane with the wrap-around of the
    intrinsics they use: 32-bit lane subtraction wraps, the widening
    multiplications are exact, 64-bit lane additions wrap.  Ordinary [+] and
    [*] on [i64] wrap (release profile).  A pair of slices cut to their common
    length is the list of their pairs, [zip a b]. *)

From S2P Require Import Prelude.

(** ** Configuration constants *)
Definition FRAC_BITS : Z := 16.
Definition SCALE : Z := Z.shiftl 1 FRAC_BITS.
Definition MAX_METADATA_SIZE : Z := 65536.
Definition MAX_DIM : Z := 65536.
Definition MAX_RECORDS : Z := 10000000.
Definition MAX_NODES : Z := 50000000.
Definition MAX_EDGES : Z := 200000000.
Definition MAX_META_ENTRIES : Z := 1000000.

(** ** Scalar operations (fxp/ops.rs) *)
Definition fxp_add (a b : Z) : Z := saturating_add_i32 a b.
Definition fxp_sub (a b : Z) : Z := saturating_sub_i32 a b.

Definition fxp_mul (a b : Z) : Z :=
  let product := wrap_i64 (a * b) in
  let shifted := Z.shiftr product FRAC_BITS in
  if i32_MAX <? shifted then i32_MAX
  else if shifted <? i32_MIN then i32_MIN
  else shifted.

(** ** Formats (fxp/format.rs) *)
Inductive FxpFormat : Type := Q16_16 | Q8_8 | Q32_32.

Definition FORMAT_ID (f : FxpFormat) : Z :=
  match f with Q16_16 => 1 | Q8_8 => 2 | Q32_32 => 3 end.

Definition format_FRAC_BITS (f : FxpFormat) : Z :=
  match f with Q16_16 => 16 | Q8_8 => 8 | Q32_32 => 32 end.

Definition ACTIVE_FORMAT_ID : Z := FORMAT_ID Q16_16.

(** [format_name]: the known format of an id (its name stands for it). *)
Definition format_name (id : Z) : option FxpFormat :=
  match id with
  | 1 => Some Q16_16
  | 2 => Some Q8_8
  | 3 => Some Q32_32
  | _ => None
  end.

(** ** Vectors (types/vector.rs) *)
Definition FxpVector : Type := list Z.

Definition new_zeros (dim : Z) : FxpVector := replicate (Z.to_nat dim) 0.

(** ** Squared L2 distance (math/l2.rs) *)

(** The code path taken by [l2_sq_i32]: fixed by the target architecture and,
    on x86, by the features detected at run time. *)
Inductive SimdPath : Type := Scalar | Neon | Avx2 | Sse41.

Definition l2_sq_scalar_from (sum : Z) (ps : list (Z * Z)) : Z :=
  foldl (fun sum p =>
           let diff := p.1 - p.2 in
           saturating_add_i64 sum (wrap_i64 (diff * diff))) sum ps.

Definition l2_sq_scalar (ps : list (Z * Z)) : Z := l2_sq_scalar_from 0 ps.

(** The scalar tail shared by the SIMD bodies: [total += diff * diff]. *)
Definition l2_tail (total : Z) (ps : list (Z * Z)) : Z :=
  foldl (fun total p =>
           let diff := p.1 - p.2 in
           wrap_i64 (total + wrap_i64 (diff * diff))) total ps.

(** One lane: 32-bit wrapping difference, widening square. *)
Definition lane_sq (p : Z * Z) : Z :=
  let d := wrap_i32 (p.1 - p.2) in d * d.

(** NEON reduction: four elements a step, accumulators [acc0] (lanes 0, 1) and
    [acc1] (lanes 2, 3), horizontal sum, scalar tail. *)
Fixpoint neon_reduce (lane : Z * Z -> Z) (tail : Z -> list (Z * Z) -> Z)
    (acc0 acc1 : Z * Z) (ps : list (Z * Z)) : Z :=
  match ps with
  | p0 :: p1 :: p2 :: p3 :: rest =>
      neon_reduce lane tail
        (wrap_i64 (acc0.1 + lane p0), wrap_i64 (acc0.2 + lane p1))
        (wrap_i64 (acc1.1 + lane p2), wrap_i64 (acc1.2 + lane p3)) rest
  | rest =>
      let acc := (wrap_i64 (acc0.1 + acc1.1), wrap_i64 (acc0.2 + acc1.2)) in
      tail (wrap_i64 (acc.1 + acc.2)) rest
  end.

Definition l2_sq_neon (ps : list (Z * Z)) : Z :=
  neon_reduce lane_sq l2_tail (0, 0) (0, 0) ps.

(** AVX2 reduction: eight elements a step into four 64-bit lanes; lane [j] gets
    elements [j] (low half) and [4 + j] (high half). *)
Fixpoint avx2_reduce (lane : Z * Z -> Z) (tail : Z -> list (Z * Z) -> Z)
    (a0 a1 a2 a3 : Z) (ps : list (Z * Z)) : Z :=
  match ps with
  | p0 :: p1 :: p2 :: p3 :: p4 :: p5 :: p6 :: p7 :: rest =>
      avx2_reduce lane tail
        (wrap_i64 (a0 + wrap_i64 (lane p0 + lane p4)))
        (wrap_i64 (a1 + wrap_i64 (lane p1 + lane p5)))
        (wrap_i64 (a2 + wrap_i64 (lane p2 + lane p6)))
        (wrap_i64 (a3 + wrap_i64 (lane p3 + lane p7))) rest
  | rest =>
      let s0 := wrap_i64 (a0 + a2) in
      let s1 := wrap_i64 (a1 + a3) in
      tail (wrap_i64 (s0 + s1)) rest
  end.

Definition l2_sq_avx2 (ps : list (Z * Z)) : Z :=
  avx2_reduce lane_sq l2_tail 0 0 0 0 ps.

(** SSE4.1 reduction: four elements a step into two 64-bit lanes. *)
Fixpoint sse41_reduce (lane : Z * Z -> Z) (tail : Z -> list (Z * Z) -> Z)
    (a0 a1 : Z) (ps : list (Z * Z)) : Z :=
  match ps with
  | p0 :: p1 :: p2 :: p3 :: rest =>
      sse41_reduce lane tail
        (wrap_i64 (a0 + wrap_i64 (lane p0 + lane p2)))
        (wrap_i64 (a1 + wrap_i64 (lane p1 + lane p3))) rest
  | rest => tail (wrap_i64 (a0 + a1)) rest
  end.

Definition l2_sq_sse41 (ps : list (Z * Z)) : Z :=
  sse41_reduce lane_sq l2_tail 0 0 ps.

Definition l2_sq_i32 (path : SimdPath) (a b : list Z) : Z :=
  let ps := zip a b in
  match path with
  | Neon => l2_sq_neon ps
  | Avx2 => l2_sq_avx2 ps
  | Sse41 => l2_sq_sse41 ps
  | Scalar => l2_sq_scalar ps
  end.

Definition fxp_l2_sq (path : SimdPath) (a b : FxpVector) : Z := l2_sq_i32 path a b.

(** ** Dot product (math/dot.rs) *)

Definition dot_scalar_from (sum : Z) (ps : list (Z * Z)) : Z :=
  foldl (fun sum p => wrap_i64 (sum + wrap_i64 (p.1 * p.2))) sum ps.

Definition dot_scalar (ps : list (Z * Z)) : Z := dot_scalar_from 0 ps.

(** Widening lane product of two 32-bit lanes. *)
Definition lane_mul (p : Z * Z) : Z := p.1 * p.2.

Definition dot_neon (ps : list (Z * Z)) : Z :=
  neon_reduce lane_mul dot_scalar_from (0, 0) (0, 0) ps.

Definition dot_avx2 (ps : list (Z * Z)) : Z :=
  avx2_reduce lane_mul dot_scalar_from 0 0 0 0 ps.

Definition dot_sse41 (ps : list (Z * Z)) : Z :=
  sse41_reduce lane_mul dot_scalar_from 0 0 ps.

Definition dot_i32 (path : SimdPath) (ps : list (Z * Z)) : Z :=
  match path with
  | Neon => dot_neon ps
  | Avx2 => dot_avx2 ps
  | Sse41 => dot_sse41 ps
  | Scalar => dot_scalar ps
  end.

Definition fxp_dot (path : SimdPath) (a b : FxpVector) : Z :=
  let raw := dot_i32 path (zip a b) in
  let shifted := Z.shiftr raw FRAC_BITS in
  clamp i32_MIN i32_MAX shifted.

(** ** Sums of exact squares and products *)

Definition zsum (f : Z * Z -> Z) (ps : list (Z * Z)) : Z :=
  foldr (fun p acc => f p + acc) 0 ps.

Definition sq_diff (p : Z * Z) : Z := (p.1 - p.2) * (p.1 - p.2).

Lemma zsum_nonneg f ps : (forall p, 0 <= f p) -> 0 <= zsum f ps.
Proof. intros Hf. induction ps as [|p ps IH]; simpl; [lia|]. pose proof (Hf p). lia. Qed.

Lemma sq_diff_nonneg p : 0 <= sq_diff p.
Proof. apply Z.square_nonneg. Qed.

(** ** Congruence modulo 2^64

    Wrapped 64-bit sums are compared modulo [2^64]: [wrap_i64 z] is congruent to
    [z], and congruent integers wrap to the same [i64].  Addition respects the
    congruence, so inner wraps can be erased by setoid rewriting. *)
Definition cong64 (a b : Z) : Prop :=
  a mod 18446744073709551616 = b mod 18446744073709551616.

#[export] Instance cong64_equiv : Equivalence cong64.
Proof. unfold cong64. split; congruence. Qed.

#[export] Instance cong64_add : Proper (cong64 ==> cong64 ==> cong64) Z.add.
Proof.
  unfold cong64. intros a a' Ha b b' Hb.
  by rewrite (Zplus_mod a), (Zplus_mod a'), Ha, Hb.
Qed.

#[export] Instance wrap_i64_cong_proper : Proper (cong64 ==> eq) wrap_i64.
Proof.
  unfold cong64. intros a b H. unfold wrap_i64. f_equal.
  by rewrite (Zplus_mod a), (Zplus_mod b), H.
Qed.

Lemma wrap_i64_cong z : cong64 (wrap_i64 z) z.
Proof.
  unfold cong64, wrap_i64. rewrite Zminus_mod_idemp_l. f_equal. lia.
Qed.

(** Solve [wrap_i64 a = wrap_i64 b] where the two sides agree once the inner
    wraps are erased. *)
Ltac wrap_ring :=
  apply wrap_i64_cong_proper; rewrite ?wrap_i64_cong;
  apply eq_subrelation; [typeclasses eauto | ring].

(** ** The reductions compute the wrapped sum *)

(** [tail] adds the exact value [f] of each remaining element. *)
Definition adds (f : Z * Z -> Z) (tail : Z -> list (Z * Z) -> Z) : Prop :=
  forall t ps, tail (wrap_i64 t) ps = wrap_i64 (t + zsum f ps).

Section Reductions.
Context (f lane : Z * Z -> Z) (tail : Z -> list (Z * Z) -> Z).
Hypothesis tail_adds : adds f tail.

(** Expose the exact lane values of the elements a step consumes. *)
Ltac use_lanes H :=
  repeat (apply Forall_cons in H as [?He H]);
  repeat match goal with E : lane _ = f _ |- _ => rewrite E; clear E end.

Lemma neon_reduce_sum ps acc0 acc1 :
  Forall (fun p => lane p = f p) ps ->
  neon_reduce lane tail acc0 acc1 ps
  = wrap_i64 (acc0.1 + acc0.2 + acc1.1 + acc1.2 + zsum f ps).
Proof using tail_adds.
  revert acc0 acc1. induction ps as [ps IH] using (induction_ltof1 _ (@length _)).
  unfold ltof in IH. intros acc0 acc1 Hl.
  destruct ps as [|p0 [|p1 [|p2 [|p3 rest]]]]; simpl;
    try (rewrite tail_adds; simpl; wrap_ring).
  use_lanes Hl. rewrite IH; [|simpl; lia|done]. simpl. wrap_ring.
Qed.

Lemma avx2_reduce_sum ps a0 a1 a2 a3 :
  Forall (fun p => lane p = f p) ps ->
  avx2_reduce lane tail a0 a1 a2 a3 ps
  = wrap_i64 (a0 + a1 + a2 + a3 + zsum f ps).
Proof using tail_adds.
  revert a0 a1 a2 a3. induction ps as [ps IH] using (induction_ltof1 _ (@length _)).
  unfold ltof in IH. intros a0 a1 a2 a3 Hl.
  destruct ps as [|p0 [|p1 [|p2 [|p3 [|p4 [|p5 [|p6 [|p7 rest]]]]]]]]; simpl;
    try (rewrite tail_adds; simpl; wrap_ring).
  use_lanes Hl. rewrite IH; [|simpl; lia|done]. simpl. wrap_ring.
Qed.

Lemma sse41_reduce_sum ps a0 a1 :
  Forall (fun p => lane p = f p) ps ->
  sse41_reduce lane tail a0 a1 ps = wrap_i64 (a0 + a1 + zsum f ps).
Proof using tail_adds.
  revert a0 a1. induction ps as [ps IH] using (induction_ltof1 _ (@length _)).
  unfold ltof in IH. intros a0 a1 Hl.
  destruct ps as [|p0 [|p1 [|p2 [|p3 rest]]]]; simpl;
    try (rewrite tail_adds; simpl; wrap_ring).
  use_lanes Hl. rewrite IH; [|simpl; lia|done]. simpl. wrap_ring.
Qed.
End Reductions.

Lemma l2_tail_adds : adds sq_diff l2_tail.
Proof.
  intros t ps. unfold l2_tail. revert t.
  induction ps as [|p ps IH]; intros t; simpl; [wrap_ring|].
  rewrite IH. unfold sq_diff. wrap_ring.
Qed.

Lemma dot_scalar_adds : adds lane_mul dot_scalar_from.
Proof.
  intros t ps. unfold dot_scalar_from. revert t.
  induction ps as [|p ps IH]; intros t; simpl; [wrap_ring|].
  rewrite IH. unfold lane_mul. wrap_ring.
Qed.

(** ** L2: every path against the exact sum of squares *)

Definition diff_fits (p : Z * Z) : Prop := in_i32 (p.1 - p.2).

Lemma lane_sq_exact ps :
  Forall diff_fits ps -> Forall (fun p => lane_sq p = sq_diff p) ps.
Proof.
  intros H. eapply Forall_impl; [exact H|]. intros p Hp. unfold lane_sq, sq_diff. by rewrite wrap_i32_small.
Qed.

Lemma l2_scalar_saturates ps sum :
  Forall diff_fits ps -> 0 <= sum <= i64_MAX ->
  l2_sq_scalar_from sum ps = Z.min i64_MAX (sum + zsum sq_diff ps).
Proof.
  intros Hp. unfold l2_sq_scalar_from. revert sum.
  induction Hp as [|p ps Hd Hp IH]; intros sum Hs; simpl; [lia|].
  pose proof (zsum_nonneg sq_diff ps sq_diff_nonneg). pose proof (sq_diff_nonneg p).
  assert (sq_diff p <= 4611686018427387904) by (unfold sq_diff, diff_fits in *; unfold_int; nia).
  rewrite wrap_i64_small by (unfold sq_diff in *; int_lia).
  fold (sq_diff p). rewrite IH; int_lia.
Qed.

Lemma l2_simd_wraps path a b :
  path <> Scalar -> Forall diff_fits (zip a b) ->
  l2_sq_i32 path a b = wrap_i64 (zsum sq_diff (zip a b)).
Proof.
  intros Hp Hf%lane_sq_exact. pose proof l2_tail_adds.
  destruct path; [done| | |]; simpl; unfold l2_sq_neon, l2_sq_avx2, l2_sq_sse41.
  - by rewrite (neon_reduce_sum sq_diff).
  - by rewrite (avx2_reduce_sum sq_diff).
  - by rewrite (sse41_reduce_sum sq_diff).
Qed.

(** A pair of vectors whose distance no path can get wrong. *)
Definition l2_safe (a b : FxpVector) : Prop :=
  Forall diff_fits (zip a b) /\ zsum sq_diff (zip a b) <= i64_MAX.

Lemma l2_exact path a b :
  l2_safe a b -> fxp_l2_sq path a b = zsum sq_diff (zip a b).
Proof.
  intros [Hf Hm]. pose proof (zsum_nonneg sq_diff (zip a b) sq_diff_nonneg).
  unfold fxp_l2_sq. destruct path.
  - simpl. unfold l2_sq_scalar. rewrite l2_scalar_saturates; [lia|done|int_lia].
  - rewrite l2_simd_wraps by done. apply wrap_i64_small. int_lia.
  - rewrite l2_simd_wraps by done. apply wrap_i64_small. int_lia.
  - rewrite l2_simd_wraps by done. apply wrap_i64_small. int_lia.
Qed.

(** When every component difference fits in an i32 and the exact sum of
    squares fits in an i64, the scalar loop and the NEON, AVX2 and SSE4.1
    reductions all return that exact sum, for every dimension (any number of full
    SIMD steps and any tail). *)
Theorem l2_paths_agree (a b : FxpVector) (Hsafe : l2_safe a b) :
  forall path path', fxp_l2_sq path a b = fxp_l2_sq path' a b
    /\ fxp_l2_sq path a b = zsum sq_diff (zip a b).
Proof. intros. by rewrite !l2_exact. Qed.

Lemma l2_paths_agree_witness :
  fxp_l2_sq Avx2 [100; 200; 300; 400; 500; 600; 700; 800; 900] [0; 0; 0; 0; 0; 0; 0; 0; 0]
  = fxp_l2_sq Neon [100; 200; 300; 400; 500; 600; 700; 800; 900] [0; 0; 0; 0; 0; 0; 0; 0; 0].
Proof.
  refine (proj1 (l2_paths_agree _ _ _ Avx2 Neon)). split; [|vm_compute; congruence].
  unfold diff_fits. simpl. concrete_forall.
Defined.

(** Components within [-2^22, 2^22] (real values within [-64, 64]) and at most
    [MAX_DIM] of them are enough. *)
Lemma l2_safe_bounded (a b : FxpVector) :
  len a <= MAX_DIM ->
  Forall (fun x => -4194304 <= x <= 4194304) a ->
  Forall (fun x => -4194304 <= x <= 4194304) b ->
  l2_safe a b.
Proof.
  intros Hlen Ha Hb.
  assert (Forall (fun p => -8388608 <= p.1 - p.2 <= 8388608) (zip a b)) as Hd.
  { clear Hlen. revert b Hb. induction Ha as [|x a Hx Ha IH]; intros [|y b] Hb; simpl;
      constructor; inversion_clear Hb; [simpl; lia | auto]. }
  assert (zsum sq_diff (zip a b) <= len a * 70368744177664).
  { clear Hlen Ha Hb. revert b Hd. induction a as [|x a IH]; intros [|y b] Hd.
    1-3: simpl; unfold len; simpl; lia.
    inversion_clear Hd as [|? ? Hp Hps]. specialize (IH _ Hps).
    rewrite len_cons. simpl in *. unfold sq_diff at 1. simpl. nia. }
  split.
  - eapply Forall_impl; [exact Hd|]. intros p Hp. unfold diff_fits. int_lia.
  - unfold MAX_DIM in *. int_lia.
Qed.

(** For vectors of at most 65536 components, each within +-64.0 in Q16.16, the
    squared distance is the exact integer, within i64, on every target: replicas
    of different architectures rank such records alike. *)
Theorem l2_bounded_deterministic (a b : FxpVector)
  (Hdim : len a <= MAX_DIM)
  (Ha : Forall (fun x => -4194304 <= x <= 4194304) a)
  (Hb : Forall (fun x => -4194304 <= x <= 4194304) b) :
  forall path, fxp_l2_sq path a b = zsum sq_diff (zip a b)
    /\ 0 <= fxp_l2_sq path a b <= i64_MAX.
Proof.
  intros path. pose proof (l2_safe_bounded a b Hdim Ha Hb) as Hs.
  rewrite l2_exact by done. pose proof (zsum_nonneg sq_diff (zip a b) sq_diff_nonneg).
  destruct Hs. split; [done|lia].
Qed.

Lemma l2_bounded_deterministic_witness :
  fxp_l2_sq Sse41 [65536; -65536; 131072; 0; 7] [0; 65536; -131072; 1; 7]
  = zsum sq_diff (zip [65536; -65536; 131072; 0; 7] [0; 65536; -131072; 1; 7]).
Proof.
  apply l2_bounded_deterministic; [vm_compute; congruence| |]; concrete_forall.
Defined.

(** Outside those bounds the kernels disagree, on inputs that are valid Q16.16
    values: the 32-bit lane subtraction wraps, while the scalar code (and the
    scalar tail, which serves all four components on AVX2) does not. The module
    comment of [math/l2.rs] claims the same integer on every path. *)
Theorem l2_paths_diverge :
  let a := [i32_MAX; 0; 0; 0] in
  let b := [-2; 0; 0; 0] in
  Forall in_i32 a /\ Forall in_i32 b
  /\ fxp_l2_sq Neon a b = 4611686014132420609
  /\ fxp_l2_sq Sse41 a b = 4611686014132420609
  /\ fxp_l2_sq Avx2 a b = 4611686022722355201
  /\ fxp_l2_sq Scalar a b = 4611686022722355201.
Proof.
  simpl. split; [concrete_forall|]. split; [concrete_forall|]. by vm_compute.
Qed.

(** ** Dot product: all paths agree unconditionally *)

Lemma dot_wraps path ps : dot_i32 path ps = wrap_i64 (zsum lane_mul ps).
Proof.
  pose proof dot_scalar_adds as Ht.
  assert (Forall (fun p => lane_mul p = lane_mul p) ps) by by apply Forall_true.
  destruct path; simpl; unfold dot_scalar, dot_neon, dot_avx2, dot_sse41.
  - by apply (Ht 0).
  - by rewrite (neon_reduce_sum lane_mul).
  - by rewrite (avx2_reduce_sum lane_mul).
  - by rewrite (sse41_reduce_sum lane_mul).
Qed.

(** The dot-product kernels return the same integer on every path for all
    inputs (each is the exact sum modulo 2^64), and fxp_dot is that sum shifted by
    16 and clamped to i32. *)
Theorem fxp_dot_paths_agree (a b : FxpVector) :
  forall path path', fxp_dot path a b = fxp_dot path' a b
    /\ in_i32 (fxp_dot path a b)
    /\ fxp_dot path a b
       = clamp i32_MIN i32_MAX (wrap_i64 (zsum lane_mul (zip a b)) / 65536).
Proof.
  intros path path'. unfold fxp_dot. rewrite !dot_wraps. split; [done|]. split.
  - int_lia.
  - by rewrite Z.shiftr_div_pow2.
Qed.

(** ** Scalar operations *)

(** The Q16.16 operations never leave i32 and are the clamped exact results:
    addition and subtraction saturate, multiplication is the floor of the exact
    product divided by SCALE, saturated. *)
Theorem fxp_ops_exact (a b : Z) (Ha : in_i32 a) (Hb : in_i32 b) :
  fxp_add a b = clamp i32_MIN i32_MAX (a + b)
  /\ fxp_sub a b = clamp i32_MIN i32_MAX (a - b)
  /\ fxp_mul a b = clamp i32_MIN i32_MAX (a * b / SCALE)
  /\ in_i32 (fxp_add a b) /\ in_i32 (fxp_sub a b) /\ in_i32 (fxp_mul a b).
Proof.
  assert (fxp_mul a b = clamp i32_MIN i32_MAX (a * b / SCALE)) as Hm.
  { unfold fxp_mul. rewrite wrap_i64_small by (unfold_int; nia).
    rewrite Z.shiftr_div_pow2 by (unfold FRAC_BITS; lia).
    change (2 ^ FRAC_BITS) with SCALE. unfold clamp.
    repeat case_match; bool_prop; int_lia. }
  rewrite Hm. unfold fxp_add, fxp_sub. repeat split; int_lia.
Qed.

Lemma fxp_ops_exact_witness : fxp_mul 98304 (-131073) = clamp i32_MIN i32_MAX (98304 * (-131073) / SCALE).
Proof. apply (fxp_ops_exact 98304 (-131073)); int_lia. Defined.
