(* ===== verification/TopK.v ===== *)
(** * Bounded sorted selection

    Three searches of the kernel keep the [k] best candidates seen so far: an
    insertion into an array ([search_l2_ns]), an insertion by swaps
    ([BinaryQuantizationIndex::search], stage 2), a bounded sorted vector
    (stage 1) and a bounded max-heap ([BruteForceIndex::search]).  This file
    models those inner loops over any total order and proves that each computes
    the reference selection [topk]: the first [k] elements of the sorted
    candidates. *)

From S2P Require Import Prelude.

(** ** Total orders, as the [Ord] trait gives them *)
Class TotalOrd (A : Type) : Type := {
  ltb : A -> A -> bool;
  ltb_irrefl : forall a, ltb a a = false;
  ltb_trans : forall a b c, ltb a b = true -> ltb b c = true -> ltb a c = true;
  ltb_total : forall a b, ltb a b = false -> ltb b a = false -> a = b;
}.

Section TopK.
Context {A : Type} `{TotalOrd A}.
Implicit Types (a c : A) (l acc : list A).

Definition le_ord a c : Prop := ltb c a = false.

(** ** Reference selection *)
Fixpoint ins c l : list A :=
  match l with
  | [] => [c]
  | x :: l' => if ltb c x then c :: x :: l' else x :: ins c l'
  end.

Definition isort l : list A := foldl (fun acc c => ins c acc) [] l.

Definition topk (k : nat) l : list A := take k (isort l).

(** ** The inner loops of the code *)

(** Array insertion of [search_l2_ns]:
    [while pos > 0 && results[pos-1] > candidate { results[pos] = results[pos-1]; pos -= 1 }
     results[pos] = candidate]. *)
Fixpoint shift_insert (res : list A) (pos : nat) c : list A :=
  match pos with
  | O => <[O := c]> res
  | S p =>
      match res !! p with
      | Some x => if ltb c x then shift_insert (<[S p := x]> res) p c else <[S p := c]> res
      | None => res
      end
  end.

(** Insertion by swaps:
    [while pos > 0 && results[pos-1] > results[pos] { results.swap(pos, pos-1); pos -= 1 }]. *)
Fixpoint swap_down (res : list A) (pos : nat) : list A :=
  match pos with
  | O => res
  | S p =>
      match res !! p, res !! S p with
      | Some x, Some y => if ltb y x then swap_down (<[p := y]> (<[S p := x]> res)) p else res
      | _, _ => res
      end
  end.

(** One candidate offered to a result array of [k] slots of which [found] are
    filled: append while there is room, else replace a worse last entry. *)
Definition offer_shift (k : nat) (st : list A * nat) c : list A * nat :=
  let '(res, found) := st in
  if Nat.ltb found k then (shift_insert res found c, S found)
  else match res !! (k - 1)%nat with
       | Some w => if ltb c w then (shift_insert res (k - 1) c, found) else (res, found)
       | None => (res, found)
       end.

Definition offer_swap (k : nat) (st : list A * nat) c : list A * nat :=
  let '(res, count) := st in
  if Nat.ltb count k then (swap_down (<[count := c]> res) count, S count)
  else match res !! (k - 1)%nat with
       | Some w =>
           if ltb c w then (swap_down (<[(k - 1)%nat := c]> res) (k - 1), count) else (res, count)
       | None => (res, count)
       end.

(** [Vec::partition_point] on a slice partitioned by the predicate: the length
    of the prefix where it holds. *)
Fixpoint partition_point (p : A -> bool) l : nat :=
  match l with
  | [] => O
  | x :: l' => if p x then S (partition_point p l') else O
  end.

(** [Vec::insert(pos, x)]. *)
Definition vec_insert l (pos : nat) c : list A := take pos l ++ c :: drop pos l.

(** One step of the bounded sorted vector of the BQ coarse scan. *)
Definition bounded_vec_step (cap : nat) l c : list A :=
  if Nat.ltb (length l) cap then
    vec_insert l (partition_point (fun x => ltb x c) l) c
  else match l !! (cap - 1)%nat with
       | Some w =>
           if ltb c w then
             vec_insert (removelast l) (partition_point (fun x => ltb x c) l) c
           else l
       | None => l
       end.

(** [BinaryHeap]: a bag with access to its greatest element. *)
Fixpoint heap_peek (h : list A) : option A :=
  match h with
  | [] => None
  | x :: h' => match heap_peek h' with
               | Some m => Some (if ltb m x then x else m)
               | None => Some x
               end
  end.

Fixpoint remove_first (f : A -> bool) (h : list A) : list A :=
  match h with
  | [] => []
  | x :: h' => if f x then h' else x :: remove_first f h'
  end.

Definition heap_pop (h : list A) : list A :=
  match heap_peek h with
  | Some m => remove_first (fun x => negb (ltb x m)) h
  | None => h
  end.

Definition heap_push (h : list A) c : list A := c :: h.

(** One step of the brute-force scan. *)
Definition bounded_heap_step (k : nat) (h : list A) c : list A :=
  if Nat.ltb (length h) k then heap_push h c
  else match heap_peek h with
       | Some worst => if ltb c worst then heap_push (heap_pop h) c else h
       | None => h
       end.

(** ** Sorted insertion *)

Abbreviation sorted := (StronglySorted le_ord).

Lemma le_ord_refl a : le_ord a a.
Proof. apply ltb_irrefl. Qed.

Lemma le_ord_trans a b c : le_ord a b -> le_ord b c -> le_ord a c.
Proof.
  unfold le_ord. intros Hab Hbc. destruct (ltb c a) eqn:Hca; [|done].
  destruct (ltb a b) eqn:E.
  - by rewrite (ltb_trans _ _ _ Hca E) in Hbc.
  - assert (a = b) as -> by by apply ltb_total. congruence.
Qed.

Lemma ltb_le a b : ltb a b = true -> le_ord a b.
Proof.
  unfold le_ord. intros Hab. destruct (ltb b a) eqn:Hba; [|done].
  pose proof (ltb_trans _ _ _ Hab Hba) as Haa. by rewrite ltb_irrefl in Haa.
Qed.

Lemma ltb_le_trans a b c : ltb a b = true -> le_ord b c -> ltb a c = true.
Proof.
  unfold le_ord. intros Hab Hbc. destruct (ltb b c) eqn:E; [by eapply ltb_trans|].
  by assert (b = c) as -> by by apply ltb_total.
Qed.

Lemma ins_perm c l : ins c l ≡ₚ c :: l.
Proof.
  induction l as [|x l IH]; simpl; [done|]. case_match; [done|].
  rewrite IH. apply Permutation_swap.
Qed.

Lemma length_ins c l : length (ins c l) = S (length l).
Proof. by rewrite ins_perm. Qed.

Lemma ins_sorted c l : sorted l -> sorted (ins c l).
Proof.
  induction 1 as [|x l Hs IH Hf]; simpl; [repeat constructor|].
  destruct (ltb c x) eqn:E.
  - constructor; [by constructor|]. constructor; [by apply ltb_le|].
    eapply Forall_impl; [exact Hf|]. intros y. apply le_ord_trans. by apply ltb_le.
  - constructor; [done|]. rewrite ins_perm. by constructor.
Qed.

Lemma isort_snoc l c : isort (l ++ [c]) = ins c (isort l).
Proof. unfold isort. by rewrite foldl_app. Qed.

Lemma isort_sorted l : sorted (isort l).
Proof.
  induction l as [|c l IH] using rev_ind; [constructor|]. rewrite isort_snoc. by apply ins_sorted.
Qed.

Lemma isort_perm l : isort l ≡ₚ l.
Proof.
  induction l as [|c l IH] using rev_ind; [done|].
  rewrite isort_snoc, ins_perm, IH. apply Permutation_cons_append.
Qed.

Lemma sorted_unique l1 l2 : sorted l1 -> sorted l2 -> l1 ≡ₚ l2 -> l1 = l2.
Proof.
  intros Hs1. revert l2. induction Hs1 as [|x l1 Hs1 IH Hf1]; intros l2 Hs2 Hp.
  - by apply Permutation_nil_l in Hp.
  - destruct Hs2 as [|y l2 Hs2 Hf2]; [by apply Permutation_nil_r in Hp|].
    assert (x = y) as ->.
    { assert (x ∈ y :: l2) as Hx by (rewrite <- Hp; by left).
      assert (y ∈ x :: l1) as Hy by (rewrite Hp; by left).
      apply elem_of_cons in Hx as [?|Hx]; [done|]. apply elem_of_cons in Hy as [?|Hy]; [done|].
      apply ltb_total.
      - exact (proj1 (Forall_forall _ _) Hf2 x Hx).
      - exact (proj1 (Forall_forall _ _) Hf1 y Hy). }
    f_equal. apply IH; [done|]. by apply (Permutation_cons_inv (a := y)).
Qed.

Lemma sorted_app_inv l1 l2 : sorted (l1 ++ l2) -> sorted l1 /\ sorted l2
  /\ forall a b, a ∈ l1 -> b ∈ l2 -> le_ord a b.
Proof.
  induction l1 as [|x l1 IH]; simpl; intros Hs.
  - split; [constructor|]. split; [done|]. intros a b Ha. by apply elem_of_nil in Ha.
  - apply StronglySorted_inv in Hs as [Hs Hf]. destruct (IH Hs) as (H1 & H2 & H3).
    apply Forall_app in Hf as [Hf1 Hf2]. split; [by constructor|]. split; [done|].
    intros a b Ha Hb. apply elem_of_cons in Ha as [->|Ha]; [|by apply H3].
    exact (proj1 (Forall_forall _ _) Hf2 b Hb).
Qed.

Lemma take_sorted k l : sorted l -> sorted (take k l).
Proof. intros Hs. rewrite <- (take_drop k l) in Hs. by apply sorted_app_inv in Hs as [? _]. Qed.

Lemma ins_snoc_gt c x l : sorted (l ++ [x]) -> ltb c x = true -> ins c (l ++ [x]) = ins c l ++ [x].
Proof.
  intros Hs Hx. induction l as [|y l IH]; simpl; [by rewrite Hx|].
  destruct (ltb c y); [done|]. simpl. f_equal. apply IH. by apply StronglySorted_inv in Hs as [? _].
Qed.

Lemma ins_ge c l : Forall (fun x => ltb c x = false) l -> ins c l = l ++ [c].
Proof. induction 1 as [|x l Hx _ IH]; simpl; [done|]. by rewrite Hx, IH. Qed.

Lemma sorted_snoc_ge c x l :
  sorted (l ++ [x]) -> ltb c x = false -> Forall (fun y => ltb c y = false) (l ++ [x]).
Proof.
  intros Hs Hx. apply sorted_app_inv in Hs as (_ & _ & Hle). apply Forall_app. split; [|by constructor].
  apply Forall_forall. intros y Hy. apply (le_ord_trans y x c); [|done]. apply Hle; [done|by left].
Qed.

(** ** The loops insert *)

Lemma insert_middle {B} (l : list B) x y rest n :
  n = length l -> <[n := y]> (l ++ x :: rest) = l ++ y :: rest.
Proof. intros ->. rewrite insert_app_r_alt by lia. by rewrite Nat.sub_diag. Qed.

Lemma shift_insert_spec acc x rest c :
  sorted acc -> shift_insert (acc ++ x :: rest) (length acc) c = ins c acc ++ rest.
Proof.
  revert x rest. induction acc as [|y acc IH] using rev_ind; intros x rest Hs; [done|].
  rewrite length_app, Nat.add_comm. simpl.
  rewrite <- app_assoc. simpl. rewrite list_lookup_middle by done.
  change (acc ++ y :: x :: rest) with (acc ++ [y] ++ x :: rest). rewrite app_assoc.
  rewrite !insert_middle by (rewrite length_app; simpl; lia).
  destruct (ltb c y) eqn:E.
  - rewrite <- app_assoc. simpl. rewrite IH by by apply sorted_app_inv in Hs as [? _].
    rewrite ins_snoc_gt by done. by rewrite <- app_assoc.
  - rewrite ins_ge by by apply sorted_snoc_ge. by rewrite <- !app_assoc.
Qed.

Lemma swap_down_spec acc rest c :
  sorted acc -> swap_down (acc ++ c :: rest) (length acc) = ins c acc ++ rest.
Proof.
  revert rest. induction acc as [|y acc IH] using rev_ind; intros rest Hs; [done|].
  rewrite length_app, Nat.add_comm. simpl.
  rewrite <- app_assoc. simpl. rewrite list_lookup_middle by done.
  change (acc ++ y :: c :: rest) with (acc ++ [y] ++ c :: rest). rewrite app_assoc.
  rewrite list_lookup_middle by (rewrite length_app; simpl; lia).
  destruct (ltb c y) eqn:E.
  - rewrite !insert_middle by (rewrite length_app; simpl; lia).
    rewrite <- app_assoc. simpl. rewrite insert_middle by done.
    rewrite IH by by apply sorted_app_inv in Hs as [? _].
    rewrite ins_snoc_gt by done. by rewrite <- app_assoc.
  - rewrite ins_ge by by apply sorted_snoc_ge. by rewrite <- !app_assoc.
Qed.

Lemma ins_le c l : Forall (le_ord c) l -> ins c l = c :: l.
Proof.
  induction 1 as [|x l Hx Hl IH]; simpl; [done|]. destruct (ltb c x) eqn:E; [done|].
  assert (c = x) as <- by by apply ltb_total. by rewrite IH.
Qed.

Lemma partition_point_ins l c :
  sorted l -> vec_insert l (partition_point (fun x => ltb x c) l) c = ins c l.
Proof.
  unfold vec_insert. induction 1 as [|x l Hs IH Hf]; simpl; [done|].
  destruct (ltb x c) eqn:E; simpl.
  - rewrite (ltb_le _ _ E). simpl. by rewrite IH.
  - symmetry. apply (ins_le c (x :: l)). constructor; [done|].
    eapply Forall_impl; [exact Hf|]. intros y. by apply le_ord_trans.
Qed.

(** ** Keeping the best [k] *)

Definition bstep (k : nat) acc c : list A :=
  if Nat.ltb (length acc) k then ins c acc
  else match last acc with
       | Some w => if ltb c w then ins c (removelast acc) else acc
       | None => acc
       end.

Lemma take_ins_lt n c s w :
  sorted s -> s !! n = Some w -> ltb c w = true -> take (S n) (ins c s) = ins c (take n s).
Proof.
  revert n. induction s as [|x s IH]; intros n Hs Hw Hc; [done|]. simpl.
  apply StronglySorted_inv in Hs as [Hs Hf]. destruct (ltb c x) eqn:E.
  - destruct n as [|n]; simpl; [done|]. by rewrite E.
  - destruct n as [|n]; simpl in Hw; [simplify_eq; congruence|].
    change (take (S (S n)) (x :: ins c s)) with (x :: take (S n) (ins c s)).
    rewrite (IH n) by done. simpl. by rewrite E.
Qed.

Lemma take_ins_ge n c s w :
  sorted s -> s !! n = Some w -> ltb c w = false -> take (S n) (ins c s) = take (S n) s.
Proof.
  revert n. induction s as [|x s IH]; intros n Hs Hw Hc; [done|].
  apply StronglySorted_inv in Hs as [Hs Hf]. cbn [ins].
  destruct (ltb c x) eqn:E.
  - exfalso. assert (le_ord x w) as Hxw.
    { destruct n as [|n]; simpl in Hw; [simplify_eq; apply le_ord_refl|].
      apply (proj1 (Forall_forall _ _) Hf). by eapply list_elem_of_lookup_2. }
    by rewrite (ltb_le_trans _ _ _ E Hxw) in Hc.
  - destruct n as [|n]; simpl in Hw; [done|].
    change (x :: take (S n) (ins c s) = x :: take (S n) s). f_equal. by apply (IH n).
Qed.

Lemma bstep_take k c s : sorted s -> bstep k (take k s) c = take k (ins c s).
Proof.
  intros Hs. unfold bstep. destruct (Nat.ltb_spec (length (take k s)) k) as [Hl|Hl].
  - rewrite length_take in Hl. rewrite (take_ge s) by lia.
    by rewrite take_ge by (rewrite length_ins; lia).
  - rewrite length_take in Hl. destruct k as [|n]; [done|].
    destruct (lookup_lt_is_Some_2 s n) as [w Hw]; [lia|].
    rewrite (take_S_r s n w Hw), last_snoc, removelast_last, <- (take_S_r s n w Hw).
    destruct (ltb c w) eqn:E; symmetry; [by eapply take_ins_lt|by eapply take_ins_ge].
Qed.

Lemma bstep_fold k l : foldl (bstep k) [] l = topk k l.
Proof.
  induction l as [|c l IH] using rev_ind; [by destruct k|].
  rewrite foldl_app. simpl. rewrite IH. unfold topk. rewrite isort_snoc.
  apply bstep_take, isort_sorted.
Qed.

Lemma topk_sorted k l : sorted (topk k l).
Proof. apply take_sorted, isort_sorted. Qed.

Lemma length_topk k l : length (topk k l) = (k `min` length l)%nat.
Proof. unfold topk. by rewrite length_take, isort_perm. Qed.

Lemma topk_elem k l c : c ∈ topk k l -> c ∈ l.
Proof.
  unfold topk. intros Hc. rewrite <- (isort_perm l). by eapply elem_of_take in Hc as (i & Hi & _);
    eapply list_elem_of_lookup_2.
Qed.

(** Everything left out is at least as large as everything kept. *)
Lemma topk_best k l c d : c ∈ topk k l -> d ∈ drop k (isort l) -> le_ord c d.
Proof.
  unfold topk. intros Hc Hd. pose proof (isort_sorted l) as Hs. rewrite <- (take_drop k (isort l)) in Hs.
  by apply sorted_app_inv in Hs as (_ & _ & Hle); apply Hle.
Qed.

Lemma topk_perm k l l' : l ≡ₚ l' -> topk k l = topk k l'.
Proof.
  intros Hp. unfold topk. f_equal. apply sorted_unique; [apply isort_sorted..|].
  by rewrite !isort_perm.
Qed.

Lemma topk_all k l : (length l <= k)%nat -> topk k l = isort l.
Proof. intros Hl. unfold topk. apply take_ge. by rewrite isort_perm. Qed.

Lemma bstep_sorted k acc c : sorted acc -> sorted (bstep k acc c).
Proof.
  intros Hs. unfold bstep. repeat case_match; try done; apply ins_sorted; [done|].
  destruct acc as [|w l _] using rev_ind; [done|]. rewrite removelast_last.
  by apply sorted_app_inv in Hs as [? _].
Qed.

Lemma bstep_length k acc c : (length acc <= k)%nat -> (length (bstep k acc c) <= k)%nat.
Proof.
  intros Hl. unfold bstep. destruct (Nat.ltb_spec (length acc) k) as [?|Hge].
  - rewrite length_ins. lia.
  - repeat case_match; try done. destruct acc as [|w l _] using rev_ind; [done|].
    rewrite removelast_last, length_ins. rewrite length_app in Hl. simpl in Hl. lia.
Qed.

(** The result arrays: the filled prefix is the selection so far. *)
Definition filled (k : nat) (st : list A * nat) acc : Prop :=
  length st.1 = k /\ st.2 = length acc /\ sorted acc /\ exists rest, st.1 = acc ++ rest.

Lemma filled_step k (offer : list A * nat -> A -> list A * nat) :
  (forall acc x rest c, sorted acc -> (length acc < k)%nat ->
     offer (acc ++ x :: rest, length acc) c = (ins c acc ++ rest, S (length acc))) ->
  (forall acc w c, sorted (acc ++ [w]) -> length (acc ++ [w]) = k ->
     offer (acc ++ [w], k) c = if ltb c w then (ins c acc, k) else (acc ++ [w], k)) ->
  (0 < k)%nat ->
  forall st acc c, filled k st acc -> filled k (offer st c) (bstep k acc c).
Proof.
  intros Hroom Hfull Hk [res n] acc c (Hlen & Hn & Hs & rest & Hres). simpl in *. subst res n.
  assert (sorted (bstep k acc c)) as Hs' by by apply bstep_sorted.
  unfold bstep in *. destruct (Nat.ltb_spec (length acc) k) as [Hlt|Hge].
  - destruct rest as [|x rest]; [rewrite app_nil_r in Hlen; lia|]. rewrite Hroom by done.
    rewrite length_app in Hlen. simpl in Hlen. split; [simpl; rewrite length_app, length_ins; lia|].
    split; [by rewrite length_ins|]. split; [done|]. by exists rest.
  - rewrite length_app in Hlen. destruct rest as [|x rest]; [|simpl in Hlen; lia].
    rewrite app_nil_r. simpl in Hlen. rewrite Nat.add_0_r in Hlen.
    destruct acc as [|w acc _] using rev_ind; [simpl in Hlen; lia|].
    rewrite last_snoc, removelast_last in *. rewrite Hlen, Hfull by done.
    rewrite length_app in Hlen. simpl in Hlen. destruct (ltb c w).
    + split; [simpl; rewrite length_ins; lia|]. split; [rewrite length_ins; simpl; lia|].
      split; [done|]. exists []. by rewrite app_nil_r.
    + split; [simpl; rewrite length_app; simpl; lia|]. split; [rewrite length_app; simpl; lia|].
      split; [done|]. exists []. by rewrite app_nil_r.
Qed.

Lemma filled_fold k offer l st acc :
  (forall st acc c, filled k st acc -> filled k (offer st c) (bstep k acc c)) ->
  filled k st acc -> filled k (foldl offer st l) (foldl (bstep k) acc l).
Proof. intros Hstep. revert st acc. induction l as [|c l IH]; intros; simpl; [done|]. auto. Qed.

Lemma offer_shift_filled k st acc c :
  (0 < k)%nat -> filled k st acc -> filled k (offer_shift k st c) (bstep k acc c).
Proof.
  intros Hk. apply filled_step; [| |done].
  - intros acc' x rest c' Hs Hl. unfold offer_shift.
    rewrite (proj2 (Nat.ltb_lt _ _)) by done. by rewrite shift_insert_spec.
  - intros acc' w c' Hs Hl. unfold offer_shift. rewrite (proj2 (Nat.ltb_ge _ _)) by done.
    rewrite length_app in Hl. simpl in Hl. rewrite list_lookup_middle by lia.
    destruct (ltb c' w); [|done]. replace (k - 1)%nat with (length acc') by lia.
    rewrite shift_insert_spec by by apply sorted_app_inv in Hs as [? _]. by rewrite app_nil_r.
Qed.

Lemma offer_swap_filled k st acc c :
  (0 < k)%nat -> filled k st acc -> filled k (offer_swap k st c) (bstep k acc c).
Proof.
  intros Hk. apply filled_step; [| |done].
  - intros acc' x rest c' Hs Hl. unfold offer_swap.
    rewrite (proj2 (Nat.ltb_lt _ _)) by done.
    by rewrite insert_middle, swap_down_spec.
  - intros acc' w c' Hs Hl. unfold offer_swap. rewrite (proj2 (Nat.ltb_ge _ _)) by done.
    rewrite length_app in Hl. simpl in Hl. rewrite list_lookup_middle by lia.
    destruct (ltb c' w); [|done]. replace (k - 1)%nat with (length acc') by lia.
    rewrite insert_middle by done.
    rewrite swap_down_spec by by apply sorted_app_inv in Hs as [? _]. by rewrite app_nil_r.
Qed.

(** Offering a list of candidates to an empty array selects the best [k]. *)
Lemma filled_topk k offer res l :
  (forall st acc c, filled k st acc -> filled k (offer st c) (bstep k acc c)) ->
  length res = k ->
  exists rest, foldl offer (res, 0%nat) l = (topk k l ++ rest, length (topk k l)).
Proof.
  intros Hstep Hk. assert (filled k (res, 0%nat) []) as H0.
  { split; [done|]. split; [done|]. split; [constructor|]. by exists res. }
  pose proof (filled_fold k offer l _ _ Hstep H0) as (_ & Hc & _ & rest & Hr).
  rewrite bstep_fold in Hc, Hr. exists rest. destruct (foldl offer (res, 0%nat) l). simpl in *.
  congruence.
Qed.

(** The bounded sorted vector. *)
Lemma bounded_vec_step_bstep cap l c :
  sorted l -> (length l <= cap)%nat -> (0 < cap)%nat -> bounded_vec_step cap l c = bstep cap l c.
Proof.
  intros Hs Hl Hcap. unfold bounded_vec_step, bstep.
  destruct (Nat.ltb_spec (length l) cap) as [?|Hge]; [by apply partition_point_ins|].
  destruct l as [|w l _] using rev_ind; [simpl in Hge; lia|].
  rewrite length_app in *. simpl in *. rewrite last_snoc, removelast_last.
  rewrite list_lookup_middle by lia. destruct (ltb c w) eqn:E; [|done].
  rewrite <- (partition_point_ins l c) by by apply sorted_app_inv in Hs as [? _]. f_equal.
  assert (ltb w c = false) as Hwc by by apply ltb_le. clear -Hwc.
  induction l as [|x l IH]; simpl; [by rewrite Hwc|]. case_match; [by rewrite IH|done].
Qed.

Lemma bounded_vec_fold cap l : (0 < cap)%nat -> foldl (bounded_vec_step cap) [] l = topk cap l.
Proof.
  intros Hcap. rewrite <- bstep_fold.
  assert (forall acc, sorted acc -> (length acc <= cap)%nat ->
            foldl (bounded_vec_step cap) acc l = foldl (bstep cap) acc l) as Hgen.
  { induction l as [|c l IH]; intros acc Hs Hl; [done|]. simpl.
    rewrite bounded_vec_step_bstep by done.
    apply IH; [by apply bstep_sorted|by apply bstep_length]. }
  apply Hgen; [constructor|simpl; lia].
Qed.

(** The heap: its content is the same bag as the sorted selection. *)
Lemma heap_peek_None h : heap_peek h = None -> h = [].
Proof. destruct h as [|x h]; simpl; [done|]. by destruct (heap_peek h). Qed.

Lemma heap_peek_max h m : heap_peek h = Some m -> m ∈ h /\ Forall (fun x => le_ord x m) h.
Proof.
  revert m. induction h as [|x h IH]; intros m; simpl; [done|].
  destruct (heap_peek h) as [m'|] eqn:E.
  - intros [= <-]. destruct (IH m' eq_refl) as [Hin Hf]. destruct (ltb m' x) eqn:Ex.
    + split; [by left|]. constructor; [apply le_ord_refl|].
      eapply Forall_impl; [exact Hf|]. intros y Hy.
      apply (le_ord_trans _ m'); [done|]. by apply ltb_le.
    + split; [by right|]. by constructor.
  - intros [= <-]. apply heap_peek_None in E as ->. split; [by left|].
    constructor; [apply le_ord_refl|constructor].
Qed.

Lemma heap_peek_last h acc : sorted acc -> h ≡ₚ acc -> heap_peek h = last acc.
Proof.
  intros Hs Hp. destruct (heap_peek h) as [m|] eqn:E.
  - apply heap_peek_max in E as [Hin Hf].
    destruct acc as [|w l _] using rev_ind; [apply Permutation_nil_r in Hp; subst; by apply elem_of_nil in Hin|].
    rewrite last_snoc. f_equal. apply ltb_total.
    + rewrite Hp in Hf. apply Forall_app in Hf as [_ Hf]. by inversion Hf.
    + rewrite Hp in Hin. apply elem_of_app in Hin as [Hin|Hin];
        [|apply list_elem_of_singleton in Hin as ->; apply ltb_irrefl].
      apply sorted_app_inv in Hs as (_ & _ & Hle). apply Hle; [done|by left].
  - apply heap_peek_None in E as ->. symmetry in Hp. apply Permutation_nil_r in Hp as ->. done.
Qed.

Lemma remove_max h m :
  m ∈ h -> Forall (fun x => le_ord x m) h -> m :: remove_first (fun x => negb (ltb x m)) h ≡ₚ h.
Proof.
  intros Hin Hf. induction Hf as [|x h Hx Hf IH]; [by apply elem_of_nil in Hin|]. simpl.
  destruct (ltb x m) eqn:E; simpl.
  - apply elem_of_cons in Hin as [->|Hin]; [by rewrite ltb_irrefl in E|].
    rewrite Permutation_swap. by rewrite IH.
  - by assert (x = m) as -> by by apply ltb_total.
Qed.

Lemma bounded_heap_step_perm k h acc c :
  sorted acc -> h ≡ₚ acc -> bounded_heap_step k h c ≡ₚ bstep k acc c.
Proof.
  intros Hs Hp. unfold bounded_heap_step, bstep. rewrite (Permutation_length Hp).
  rewrite (heap_peek_last h acc) by done.
  destruct (Nat.ltb (length acc) k); [unfold heap_push; by rewrite ins_perm, Hp|].
  destruct (last acc) as [w|] eqn:Ew; [|done]. destruct (ltb c w); [|done].
  rewrite ins_perm. unfold heap_push. apply perm_skip. unfold heap_pop.
  pose proof (heap_peek_last h acc Hs Hp) as Hm. rewrite Ew in Hm. rewrite Hm.
  apply heap_peek_max in Hm as [Hin Hf]. apply (Permutation_cons_inv (a := w)).
  rewrite remove_max, Hp by done.
  destruct acc as [|w' l _] using rev_ind; [done|]. rewrite last_snoc in Ew. simplify_eq.
  rewrite removelast_last. symmetry. apply Permutation_cons_append.
Qed.

Lemma bounded_heap_fold k l : foldl (bounded_heap_step k) [] l ≡ₚ topk k l.
Proof.
  rewrite <- bstep_fold.
  assert (forall h acc, sorted acc -> h ≡ₚ acc ->
            foldl (bounded_heap_step k) h l ≡ₚ foldl (bstep k) acc l) as Hgen.
  { induction l as [|c l IH]; intros h acc Hs Hp; [done|]. simpl.
    apply IH; [by apply bstep_sorted|by apply bounded_heap_step_perm]. }
  apply Hgen; [constructor|done].
Qed.
(** What a search promises of its output, whatever loop computes it: sorted,
    as many entries as asked for or available, all of them candidates, and no
    candidate left out that beats one kept. *)
Definition best_k (k : nat) (cands out : list A) : Prop :=
  sorted out
  /\ length out = (k `min` length cands)%nat
  /\ exists rest, cands ≡ₚ out ++ rest /\ forall a b, a ∈ out -> b ∈ rest -> le_ord a b.

Lemma topk_best_k k l : best_k k l (topk k l).
Proof.
  split; [apply topk_sorted|]. split; [apply length_topk|].
  exists (drop k (isort l)). split.
  - unfold topk. by rewrite take_drop, isort_perm.
  - intros a b. apply topk_best.
Qed.

(** The promise determines the output. *)
Lemma best_k_unique k l out : best_k k l out -> out = topk k l.
Proof.
  intros (Hs & Hl & rest & Hp & Hle). unfold topk.
  assert (isort l = out ++ isort rest) as ->.
  { apply sorted_unique; [apply isort_sorted| |by rewrite !isort_perm].
    clear Hl Hp. induction Hs as [|x out Hs IH Hf]; simpl; [apply isort_sorted|].
    constructor; [apply IH; intros a b Ha; apply Hle; by right|].
    apply Forall_app. split; [done|]. apply Forall_forall. intros y Hy.
    rewrite isort_perm in Hy. apply Hle; [by left|done]. }
  apply Permutation_length in Hp. rewrite length_app in Hp.
  destruct (Nat.le_gt_cases k (length l)).
  - rewrite take_app_le by lia. rewrite take_ge by lia. done.
  - assert (length rest = 0%nat) as Hr by lia. apply nil_length_inv in Hr. subst rest.
    unfold isort. simpl. rewrite app_nil_r, take_ge by lia. done.
Qed.
End TopK.
