(* ===== verification/Slab.v ===== *)
(** * Slabs and intrusive namespace lists

    The record, node and edge pools of the kernel are slabs: vectors of
    optional entries where a [None] is a hole left by a deletion.  Records and
    nodes are threaded through their slab by per-namespace doubly linked lists
    ([next_in_ns], [prev_in_ns], and one head per namespace).  The code that
    links and unlinks an entry is the same for records and for nodes
    ([state/kernel.rs]); it is written here once, against the interface
    [NsLinked], together with its correctness: [ns_list] describes a well-formed
    list, [push_front] and [unlink] act on it as [cons] and as removal. *)

From S2P Require Import Prelude.
From S2P Require Import Core.

(** ** Slabs *)
Abbreviation slab A := (list (option A)).

(** [self.slots.get(i)?.as_ref()]. *)
Definition slab_get {A} (s : slab A) (i : Z) : option A :=
  match vec_get s i with Some o => o | None => None end.

(** [if let Some(x) = self.slots.get_mut(i).and_then(|o| o.as_mut()) { *x = f(x) }]. *)
Definition slab_alter {A} (f : A -> A) (s : slab A) (i : Z) : slab A :=
  match slab_get s i with Some x => vec_set s i (Some (f x)) | None => s end.

(** [self.slots[i] = None]. *)
Definition slab_clear {A} (s : slab A) (i : Z) : slab A := vec_set s i None.

Lemma slab_get_lt {A} (s : slab A) i x : slab_get s i = Some x -> 0 <= i < len s.
Proof.
  unfold slab_get. destruct (vec_get s i) eqn:E; [|done]. intros _. by eapply vec_get_lt.
Qed.

Lemma slab_get_vec {A} (s : slab A) i x : slab_get s i = Some x <-> vec_get s i = Some (Some x).
Proof. unfold slab_get. destruct (vec_get s i) as [[]|]; naive_solver. Qed.

Lemma len_slab_alter {A} (f : A -> A) s i : len (slab_alter f s i) = len s.
Proof. unfold slab_alter. case_match; [apply len_vec_set | done]. Qed.

Lemma len_slab_clear {A} (s : slab A) i : len (slab_clear s i) = len s.
Proof. apply len_vec_set. Qed.

Lemma slab_get_alter_eq {A} (f : A -> A) s i : slab_get (slab_alter f s i) i = f <$> slab_get s i.
Proof.
  unfold slab_alter. destruct (slab_get s i) as [x|] eqn:E; [|by rewrite E].
  unfold slab_get. by rewrite vec_get_set_eq by by eapply slab_get_lt.
Qed.

Lemma slab_get_alter_ne {A} (f : A -> A) s i j :
  i <> j -> slab_get (slab_alter f s i) j = slab_get s j.
Proof.
  intros Hne. unfold slab_alter. case_match; [|done].
  unfold slab_get. by rewrite vec_get_set_ne.
Qed.

Lemma slab_get_alter {A} (f : A -> A) s i j :
  slab_get (slab_alter f s i) j = if decide (i = j) then f <$> slab_get s j else slab_get s j.
Proof. case_decide; subst; [apply slab_get_alter_eq | by apply slab_get_alter_ne]. Qed.

Lemma slab_alter_inv {A} (f : A -> A) s i j x :
  slab_get (slab_alter f s i) j = Some x ->
  exists y, slab_get s j = Some y /\ x = if decide (i = j) then f y else y.
Proof.
  rewrite slab_get_alter. case_decide; subst; [|eauto].
  destruct (slab_get s j) as [y|]; simpl; [|done]. intros [= <-]. eauto.
Qed.

Lemma slab_get_clear {A} (s : slab A) i j :
  slab_get (slab_clear s i) j = if decide (i = j) then None else slab_get s j.
Proof.
  unfold slab_clear, slab_get. case_decide as Hd; subst.
  - destruct (in_range s j) eqn:E.
    + apply in_range_spec in E. by rewrite vec_get_set_eq.
    + unfold vec_set. rewrite E. unfold vec_get. by rewrite E.
  - by rewrite vec_get_set_ne.
Qed.

Lemma slab_get_push_lt {A} (s : slab A) x i : i <> len s -> slab_get (s ++ [x]) i = slab_get s i.
Proof.
  intros Hne. unfold slab_get.
  destruct (decide (i < len s)); [by rewrite vec_get_app_l|].
  rewrite vec_get_snoc_ge by lia. by rewrite (proj2 (vec_get_None s i)) by lia.
Qed.

Lemma slab_get_push_eq {A} (s : slab A) x : slab_get (s ++ [x]) (len s) = x.
Proof. unfold slab_get. by rewrite vec_get_snoc. Qed.

Lemma slab_get_push {A} (s : slab A) x i :
  slab_get (s ++ [x]) i = if decide (i = len s) then x else slab_get s i.
Proof. case_decide; subst; [apply slab_get_push_eq | by apply slab_get_push_lt]. Qed.

Lemma slab_get_ge {A} (s : slab A) i : len s <= i -> slab_get s i = None.
Proof. intros. unfold slab_get. by rewrite (proj2 (vec_get_None s i)) by lia. Qed.

Lemma slab_alter_push {A} (f : A -> A) (s : slab A) x :
  slab_alter f (s ++ [Some x]) (len s) = s ++ [Some (f x)].
Proof.
  unfold slab_alter. rewrite slab_get_push_eq. unfold vec_set.
  rewrite (proj2 (in_range_spec _ _)) by (pose proof (len_nonneg s); len_lia).
  unfold len. rewrite Nat2Z.id. rewrite insert_app_r_alt by lia. by rewrite Nat.sub_diag.
Qed.

#[export] Hint Rewrite @len_slab_alter @len_slab_clear @slab_get_push_eq : valori.

(** ** The interface of an entry threaded in a namespace list *)
Class NsLinked (A : Type) : Type := {
  ns_of : A -> Z;
  next_of : A -> Z;
  prev_of : A -> Z;
  set_next : Z -> A -> A;
  set_prev : Z -> A -> A;
  ns_of_set_next : forall v x, ns_of (set_next v x) = ns_of x;
  ns_of_set_prev : forall v x, ns_of (set_prev v x) = ns_of x;
  next_of_set_next : forall v x, next_of (set_next v x) = v;
  next_of_set_prev : forall v x, next_of (set_prev v x) = next_of x;
  prev_of_set_next : forall v x, prev_of (set_next v x) = prev_of x;
  prev_of_set_prev : forall v x, prev_of (set_prev v x) = v;
  relink_next : forall p n v x, set_prev p (set_next n (set_next v x)) = set_prev p (set_next n x);
  relink_prev : forall p n v x, set_prev p (set_next n (set_prev v x)) = set_prev p (set_next n x);
}.

#[export] Hint Rewrite @ns_of_set_next @ns_of_set_prev @next_of_set_next @next_of_set_prev
  @prev_of_set_next @prev_of_set_prev : valori.

(** Head array and slab: what linking and unlinking touch. *)
Definition linked (A : Type) : Type := list Z * slab A.

(** The tail of every insertion arm of [apply_event_ns]: read the old head,
    point the fresh entry at it, fix the old head's back pointer, and store the
    new head.  Each index is a slice index and aborts when out of range. *)
Definition push_front {E A} `{NsLinked A} (ns id : Z) (hs : linked A) : outcome E (linked A) :=
  let '(heads, s) := hs in
  do* old_head := unwrap (vec_get heads ns) in
  do* _ := unwrap (slab_get s id) in
  let s := slab_alter (fun r => set_prev NS_LIST_NIL (set_next old_head r)) s id in
  do* s :=
    (if old_head =? NS_LIST_NIL then Ok s
     else do* _ := unwrap (vec_get s old_head) in Ok (slab_alter (set_prev id) s old_head)) in
  Ok (vec_set heads ns id, s).

(** [_unlink_record_from_ns] / [_unlink_node_from_ns]. *)
Definition unlink {E A} `{NsLinked A} (ns prev next : Z) (hs : linked A) : outcome E (linked A) :=
  let '(heads, s) := hs in
  do* hs :=
    (if prev =? NS_LIST_NIL then
       do* _ := unwrap (vec_get heads ns) in Ok (vec_set heads ns next, s)
     else Ok (heads, slab_alter (set_next next) s prev)) in
  Ok (hs.1, if next =? NS_LIST_NIL then hs.2 else slab_alter (set_prev prev) hs.2 next).

(** ** Well-formed lists *)

Section Lists.
Context {A : Type} `{NsLinked A}.
Implicit Types (s : slab A) (l : list Z).

(** [seg s ns p l n]: starting at the first id of [l], following [next] visits
    exactly [l]; the back pointer of the first entry is [p] and the forward
    pointer of the last one is [n]; every entry belongs to [ns]. *)
Fixpoint seg s (ns p : Z) l (n : Z) : Prop :=
  match l with
  | [] => True
  | id :: l' =>
      (exists r, slab_get s id = Some r /\ ns_of r = ns /\ prev_of r = p
                 /\ next_of r = default n (head l'))
      /\ seg s ns id l' n
  end.

Definition ns_list (heads : list Z) s (ns : Z) l : Prop :=
  vec_get heads ns = Some (default NS_LIST_NIL (head l))
  /\ seg s ns NS_LIST_NIL l NS_LIST_NIL
  /\ NoDup l.

Lemma seg_elem s ns p l n id :
  seg s ns p l n -> id ∈ l -> exists r, slab_get s id = Some r /\ ns_of r = ns.
Proof.
  revert p. induction l as [|x l IH]; intros p Hs Hin; [by apply elem_of_nil in Hin|].
  destruct Hs as [(r & Hr & Hns & _) Hs]. apply elem_of_cons in Hin as [->|Hin]; eauto.
Qed.

Lemma seg_range s ns p l n id : seg s ns p l n -> id ∈ l -> 0 <= id < len s.
Proof. intros Hs Hin. destruct (seg_elem _ _ _ _ _ _ Hs Hin) as (r & Hr & _). by eapply slab_get_lt. Qed.

(** A segment depends only on the entries it visits. *)
Lemma seg_ext s s' ns p l n :
  (forall id, id ∈ l -> slab_get s' id = slab_get s id) -> seg s ns p l n -> seg s' ns p l n.
Proof.
  revert p. induction l as [|x l IH]; intros p Hext Hs; [done|].
  destruct Hs as [(r & Hr & Hrest) Hs]. split.
  - exists r. rewrite Hext by set_solver. eauto.
  - apply IH; [set_solver|done].
Qed.

Lemma seg_alter_ne f s ns p l n i : i ∉ l -> seg s ns p l n -> seg (slab_alter f s i) ns p l n.
Proof. intros Hi. apply seg_ext. intros id Hid. apply slab_get_alter_ne. set_solver. Qed.

Lemma seg_app s ns p l1 l2 n :
  seg s ns p (l1 ++ l2) n
  <-> seg s ns p l1 (default n (head l2)) /\ seg s ns (default p (last l1)) l2 n.
Proof.
  revert p. induction l1 as [|x l1 IH]; intros p; [simpl; tauto|].
  simpl app. simpl seg. rewrite IH.
  assert (default n (head (l1 ++ l2)) = default (default n (head l2)) (head l1)) as ->
    by by destruct l1.
  assert (default x (last l1) = default p (last (x :: l1))) as ->
    by (rewrite last_cons; by destruct (last l1)).
  tauto.
Qed.

Lemma seg_snoc s ns p l x n :
  seg s ns p (l ++ [x]) n
  <-> seg s ns p l x /\ exists r, slab_get s x = Some r /\ ns_of r = ns
      /\ prev_of r = default p (last l) /\ next_of r = n.
Proof. rewrite seg_app. simpl. naive_solver. Qed.

(** Redirecting the forward pointer of the last entry. *)
Lemma seg_set_next s ns p l x n n' :
  x ∉ l -> seg s ns p (l ++ [x]) n -> seg (slab_alter (set_next n') s x) ns p (l ++ [x]) n'.
Proof.
  intros Hx. rewrite !seg_snoc. intros [Hs (r & Hr & Hns & Hp & _)]. split.
  - by apply seg_alter_ne.
  - exists (set_next n' r). rewrite slab_get_alter_eq, Hr. simpl.
    autorewrite with valori. eauto.
Qed.

(** Redirecting the back pointer of the first entry. *)
Lemma seg_set_prev s ns p p' x l n :
  x ∉ l -> seg s ns p (x :: l) n -> seg (slab_alter (set_prev p') s x) ns p' (x :: l) n.
Proof.
  intros Hx [(r & Hr & Hns & _ & Hn) Hs]. split.
  - exists (set_prev p' r). rewrite slab_get_alter_eq, Hr. simpl.
    autorewrite with valori. eauto.
  - by apply seg_alter_ne.
Qed.

(** The entry with its links erased: linking and unlinking never change it. *)
Definition payload (x : A) : A := set_prev NS_LIST_NIL (set_next NS_LIST_NIL x).

Definition same_payload (s s' : slab A) : Prop :=
  len s' = len s /\ forall i, payload <$> slab_get s' i = payload <$> slab_get s i.

#[export] Instance same_payload_preorder : PreOrder same_payload.
Proof. split; [done|]. intros s1 s2 s3 [? H1] [? H2]. split; [congruence|]. intros. by rewrite H2. Qed.

Lemma payload_set_next v x : payload (set_next v x) = payload x.
Proof. apply relink_next. Qed.

Lemma payload_set_prev v x : payload (set_prev v x) = payload x.
Proof. apply relink_prev. Qed.

Lemma same_payload_alter f s i :
  (forall x, payload (f x) = payload x) -> same_payload s (slab_alter f s i).
Proof.
  intros Hf. split; [apply len_slab_alter|]. intros j. rewrite slab_get_alter.
  case_decide; [|done]. destruct (slab_get s j); simpl; [by rewrite Hf|done].
Qed.

Lemma payload_ns x y : payload x = payload y -> ns_of x = ns_of y.
Proof.
  intros Hp. apply (f_equal ns_of) in Hp. unfold payload in Hp.
  by rewrite !ns_of_set_prev, !ns_of_set_next in Hp.
Qed.

(** Links are changed only at the ids of [touched]. *)
Definition frame (touched : list Z) (s s' : slab A) : Prop :=
  same_payload s s' /\ forall i, i ∉ touched -> slab_get s' i = slab_get s i.

Lemma frame_trans t1 t2 s1 s2 s3 : frame t1 s1 s2 -> frame t2 s2 s3 -> frame (t1 ++ t2) s1 s3.
Proof.
  intros [P1 F1] [P2 F2]. split; [by etrans|]. intros i Hi.
  rewrite F2, F1; [done| |]; intros Hc; apply Hi, elem_of_app; auto.
Qed.

Lemma frame_alter f s i : (forall x, payload (f x) = payload x) -> frame [i] s (slab_alter f s i).
Proof.
  intros Hf. split; [by apply same_payload_alter|]. intros j Hj. apply slab_get_alter_ne.
  intros ->. apply Hj. by left.
Qed.

Lemma frame_refl t s : frame t s s.
Proof. split; done. Qed.

(** Linking a fresh entry in front of a well-formed list. *)
Lemma push_front_ok E heads s ns id r l :
  ns_list heads s ns l -> slab_get s id = Some r -> ns_of r = ns -> id ∉ l -> id <> NS_LIST_NIL ->
  len s <= NS_LIST_NIL ->
  exists s', push_front (E := E) ns id (heads, s) = Ok (vec_set heads ns id, s')
    /\ ns_list (vec_set heads ns id) s' ns (id :: l)
    /\ frame (id :: option_list (head l)) s s'.
Proof.
  intros (Hh & Hs & Hnd) Hr Hns Hid Hnil Hlen. pose proof (vec_get_lt _ _ _ Hh) as Hrange.
  set (s1 := slab_alter (fun r => set_prev NS_LIST_NIL (set_next (default NS_LIST_NIL (head l)) r)) s id).
  assert (frame [id] s s1) as Hf1.
  { apply frame_alter. intros x. by rewrite payload_set_prev, payload_set_next. }
  assert (seg s1 ns NS_LIST_NIL l NS_LIST_NIL) as Hs1 by by apply seg_alter_ne.
  assert (slab_get s1 id = Some (set_prev NS_LIST_NIL (set_next (default NS_LIST_NIL (head l)) r))) as Hid1.
  { unfold s1. by rewrite slab_get_alter_eq, Hr. }
  unfold push_front. rewrite Hh, Hr. simpl. fold s1.
  destruct l as [|h l]; simpl.
  - exists s1. split; [done|]. split; [|done]. split; [by apply vec_get_set_eq|].
    split; [|apply NoDup_singleton]. simpl. split; [|done].
    eexists. split; [exact Hid1|]. autorewrite with valori. done.
  - assert (h ∈ h :: l) as Hin by by left. pose proof (seg_range _ _ _ _ _ _ Hs1 Hin) as Hhr.
    assert (h <> NS_LIST_NIL) as Hhn.
    { rewrite (proj1 (proj1 Hf1)) in Hhr. lia. }
    rewrite (proj2 (Z.eqb_neq _ _) Hhn).
    destruct (vec_get_is_Some s1 h Hhr) as [o ->]. simpl.
    exists (slab_alter (set_prev id) s1 h). split; [done|]. split.
    + split; [by apply vec_get_set_eq|]. split; [|by constructor].
      apply NoDup_cons in Hnd as [Hhl _]. split.
      * eexists. rewrite slab_get_alter_ne by set_solver. split; [exact Hid1|].
        simpl. autorewrite with valori. done.
      * by eapply seg_set_prev.
    + apply (frame_trans [id] [h] _ s1); [done|]. apply frame_alter, payload_set_prev.
Qed.

(** Unlinking an entry of a well-formed list with the pointers stored in it. *)
Lemma unlink_ok E heads s ns id r l1 l2 :
  ns_list heads s ns (l1 ++ id :: l2) -> slab_get s id = Some r -> len s <= NS_LIST_NIL ->
  exists heads' s', unlink (E := E) ns (prev_of r) (next_of r) (heads, s) = Ok (heads', s')
    /\ ns_list heads' s' ns (l1 ++ l2)
    /\ frame (option_list (last l1) ++ option_list (head l2)) s s'
    /\ slab_get s' id = Some r
    /\ len heads' = len heads
    /\ forall ns', ns' <> ns -> vec_get heads' ns' = vec_get heads ns'.
Proof.
  intros (Hh & Hs & Hnd) Hr Hlen. pose proof (vec_get_lt _ _ _ Hh) as Hrange.
  pose proof Hs as Hs0. rewrite seg_app in Hs. simpl in Hs.
  destruct Hs as (Hs1 & (r' & Hr' & _ & Hp & Hn) & Hs2). simplify_eq.
  assert (forall i, i ∈ l1 ++ id :: l2 -> i <> NS_LIST_NIL) as Hnn.
  { intros i Hi. pose proof (seg_range _ _ _ _ _ _ Hs0 Hi). lia. }
  apply NoDup_app in Hnd as (Hnd1 & Hdis & Hnd2). apply NoDup_cons in Hnd2 as [Hid2 Hnd2].
  assert (id ∉ l1) as Hid1. { intros Hc. apply (Hdis id Hc). by left. }
  assert (NoDup (l1 ++ l2)) as Hnd.
  { apply NoDup_app. split; [done|]. split; [|done]. intros x Hx Hx2. apply (Hdis x Hx). by right. }
  unfold unlink. rewrite Hp, Hn.
  (* first half: the predecessor, or the head of the namespace *)
  destruct l1 as [|y l1' _] using rev_ind.
  - simpl in *. rewrite Hh. simpl. destruct l2 as [|z l2]; simpl.
    + eexists _, _. split; [done|]. repeat split; auto using len_vec_set, vec_get_set_eq.
      intros. by apply vec_get_set_ne.
    + assert (z <> NS_LIST_NIL) as Hz by (apply Hnn; set_solver).
      rewrite (proj2 (Z.eqb_neq _ _) Hz). eexists _, _. split; [done|].
      apply NoDup_cons in Hnd2 as [? ?].
      split. { split; [by apply vec_get_set_eq|]. split; [|done]. by eapply seg_set_prev. }
      split; [apply frame_alter, payload_set_prev|].
      split; [rewrite slab_get_alter_ne; set_solver|]. split; [apply len_vec_set|].
      intros. by apply vec_get_set_ne.
  - rewrite last_snoc in *. simpl in *.
    assert (y <> NS_LIST_NIL) as Hy by (apply Hnn; set_solver).
    rewrite (proj2 (Z.eqb_neq _ _) Hy). simpl. rewrite <- app_assoc in *. simpl in *.
    assert (y ∉ l1' /\ y ∉ l2) as [Hy1 Hy2].
    { apply NoDup_app in Hnd as (? & Hd & Hc%NoDup_cons). split; [|tauto].
      intros Hc'. apply (Hd y Hc'). by left. }
    assert (y <> id) as Hyid by set_solver.
    destruct l2 as [|z l2]; simpl.
    + eexists _, _. split; [done|].
      split. { split; [|split; [|done]]; [by destruct l1'|]. by eapply seg_set_next. }
      split; [apply frame_alter, payload_set_next|].
      split; [by rewrite slab_get_alter_ne|]. done.
    + assert (z <> NS_LIST_NIL) as Hz by (apply Hnn; set_solver).
      rewrite (proj2 (Z.eqb_neq _ _) Hz). eexists _, _. split; [done|].
      apply NoDup_cons in Hnd2 as [Hzl2 Hnd2].
      assert (z ∉ l1' ++ [y]) as Hzl.
      { intros Hc. apply NoDup_app in Hnd as (_ & Hd & Hc2%NoDup_cons).
        apply elem_of_app in Hc as [Hc|Hc]; [apply (Hd z Hc); set_solver|set_solver]. }
      split.
      { split; [by destruct l1'|]. split; [|done].
        replace (l1' ++ y :: z :: l2) with ((l1' ++ [y]) ++ z :: l2) by by rewrite <- app_assoc.
        apply seg_app. split.
        - apply seg_alter_ne; [done|]. by eapply seg_set_next.
        - rewrite last_snoc. simpl. eapply seg_set_prev; [done|]. by apply seg_alter_ne. }
      split. { apply (frame_trans [y] [z] _ (slab_alter (set_next z) s y)); apply frame_alter;
        auto using payload_set_next, payload_set_prev. }
      split; [|done]. rewrite slab_get_alter_ne by set_solver. by rewrite slab_get_alter_ne.
Qed.
End Lists.

(** ** All the namespace lists of a slab

    [must x] marks the entries that belong in the list of their namespace: every
    node; every record that was not soft-deleted.  A list holds these and no
    others. *)
Section AllLists.
Context {A : Type} `{NsLinked A} (must : A -> bool).
Hypothesis must_payload : forall x y, payload x = payload y -> must x = must y.
Implicit Types (s : slab A) (l : list Z) (heads : list Z).

Record ns_wf heads s : Prop := {
  wf_heads : len heads = MAX_NAMESPACES;
  wf_len : len s <= NS_LIST_NIL;
  wf_ns : forall i r, slab_get s i = Some r -> 0 <= ns_of r < MAX_NAMESPACES;
  wf_lists : forall ns, 0 <= ns < MAX_NAMESPACES -> exists l, ns_list heads s ns l
    /\ forall i r, slab_get s i = Some r -> ns_of r = ns -> must r = true <-> i ∈ l;
}.

(** Entries of another namespace are untouched by an operation on [ns]. *)
Definition others_kept (ns : Z) s s' : Prop :=
  forall i r, slab_get s i = Some r -> ns_of r <> ns -> slab_get s' i = Some r.

Lemma same_payload_get s s' i r' :
  same_payload s s' -> slab_get s' i = Some r' ->
  exists r, slab_get s i = Some r /\ payload r' = payload r.
Proof.
  intros [_ Hp] Hr'. specialize (Hp i). rewrite Hr' in Hp. simpl in Hp.
  destruct (slab_get s i) as [r|] eqn:E; simpl in Hp; [|done].
  eexists. split; [done|]. congruence.
Qed.

(** What an operation confined to entries of [ns] leaves of the others. *)
Lemma frame_others touched s s' ns :
  frame touched s s' -> (forall i r, i ∈ touched -> slab_get s i = Some r -> ns_of r = ns) ->
  others_kept ns s s' /\ others_kept ns s' s.
Proof.
  intros [Hp Hf] Ht. split; intros i r Hr Hne.
  - rewrite Hf; [done|]. intros Hi. by apply Hne, (Ht i).
  - destruct (same_payload_get _ _ _ _ Hp Hr) as (r0 & Hr0 & Hpay).
    rewrite Hf in Hr; [done|]. intros Hi. apply Hne. rewrite (payload_ns _ _ Hpay). eauto.
Qed.

Lemma ns_list_other heads heads' s s' ns ns' l :
  ns' <> ns -> vec_get heads' ns' = vec_get heads ns' -> others_kept ns s s' ->
  ns_list heads s ns' l -> ns_list heads' s' ns' l.
Proof.
  intros Hne Hh Hk (Hh' & Hs & Hnd). split; [congruence|]. split; [|done].
  apply (seg_ext s); [|done]. intros i Hi.
  destruct (seg_elem _ _ _ _ _ _ Hs Hi) as (r & Hr & Hns).
  rewrite Hr. apply Hk; congruence.
Qed.

Lemma ns_list_elem_ns heads s ns l i :
  ns_list heads s ns l -> i ∈ l -> exists r, slab_get s i = Some r /\ ns_of r = ns.
Proof. intros (_ & Hs & _). by eapply seg_elem. Qed.

(** The general step: one list is replaced, the others are kept. *)
Lemma ns_wf_step heads heads' s s' ns l' :
  ns_wf heads s -> len heads' = len heads -> len s' <= NS_LIST_NIL ->
  (forall ns', ns' <> ns -> vec_get heads' ns' = vec_get heads ns') ->
  others_kept ns s s' ->
  others_kept ns s' s -> 0 <= ns < MAX_NAMESPACES ->
  ns_list heads' s' ns l' ->
  (forall i r', slab_get s' i = Some r' -> ns_of r' = ns -> must r' = true <-> i ∈ l') ->
  ns_wf heads' s'.
Proof.
  intros [W1 W2 W3 W4] Hh Hlen Hhn Hk Hback Hr Hl' Hm. split; [congruence|done| |].
  - intros i r' Hr'. destruct (decide (ns_of r' = ns)) as [->|Hne]; [done|].
    by eapply W3, Hback.
  - intros n Hn. destruct (decide (n = ns)) as [->|Hne]; [by exists l'|].
    destruct (W4 n Hn) as (l & Hl & Hcov). exists l. split.
    + apply (ns_list_other heads heads' s s' ns); auto.
    + intros i r' Hr' Hns. apply Hcov; [|done]. apply (Hback i r' Hr'). congruence.
Qed.

Lemma ns_wf_empty : ns_wf (replicate 1024 NS_LIST_NIL) [].
Proof.
  split; [done|done| |].
  - intros i r Hr. apply slab_get_lt in Hr. unfold len in Hr. simpl in Hr. lia.
  - intros ns Hns. exists []. split; [|intros i r Hr; apply slab_get_lt in Hr; unfold len in Hr; simpl in Hr; lia].
    split; [|split; [done|constructor]].
    destruct (vec_get_is_Some (replicate 1024 NS_LIST_NIL) ns) as [x Hx].
    { unfold len. rewrite length_replicate. unfold MAX_NAMESPACES in *. lia. }
    rewrite Hx. apply vec_get_Some in Hx as [_ Hx]. by apply lookup_replicate in Hx as [-> _].
Qed.

(** Appending an entry and linking it. *)
Lemma ns_wf_insert E heads s r :
  ns_wf heads s -> len s < NS_LIST_NIL -> 0 <= ns_of r < MAX_NAMESPACES -> must r = true ->
  exists s', push_front (E := E) (ns_of r) (len s) (heads, s ++ [Some r])
             = Ok (vec_set heads (ns_of r) (len s), s')
    /\ ns_wf (vec_set heads (ns_of r) (len s)) s'
    /\ same_payload (s ++ [Some r]) s'
    /\ others_kept (ns_of r) s s'.
Proof using must_payload.
  intros W Hlen Hns Hmust. pose proof W as [W1 W2 W3 W4]. destruct (W4 _ Hns) as (l & Hl & Hcov).
  assert (forall i, i ∈ l -> i <> len s) as Hfresh.
  { intros i Hi ->. destruct Hl as (_ & Hs & _). pose proof (seg_range _ _ _ _ _ _ Hs Hi). lia. }
  assert (others_kept (ns_of r) s (s ++ [Some r]) /\ others_kept (ns_of r) (s ++ [Some r]) s) as [Hk0 Hk0'].
  { split; intros i x Hx Hne.
    - rewrite slab_get_push_lt; [done|]. intros ->. apply slab_get_lt in Hx. lia.
    - rewrite slab_get_push in Hx. case_decide; [congruence|done]. }
  assert (ns_list heads (s ++ [Some r]) (ns_of r) l) as Hl1.
  { destruct Hl as (? & Hs & ?). split; [done|]. split; [|done]. apply (seg_ext s); [|done].
    intros i Hi. by apply slab_get_push_lt, Hfresh. }
  destruct (push_front_ok E heads (s ++ [Some r]) (ns_of r) (len s) r l) as (s' & He & Hl' & Hf);
    [done|apply slab_get_push_eq|done|naive_solver|lia|len_lia|].
  destruct (frame_others _ _ _ (ns_of r) Hf) as [Hk Hk'].
  { intros i x [->|Hi]%elem_of_cons Hx; [rewrite slab_get_push_eq in Hx; congruence|].
    destruct l as [|h l]; [by apply elem_of_nil in Hi|]. apply list_elem_of_singleton in Hi as ->.
    destruct (ns_list_elem_ns _ _ _ _ h Hl1) as (y & Hy & ?); [by left|congruence]. }
  exists s'. split; [done|]. split; [|split; [apply Hf|intros i x Hx Hne; apply Hk; eauto]].
  apply (ns_wf_step heads _ s s' (ns_of r) (len s :: l)); try done.
  - apply len_vec_set.
  - rewrite (proj1 (proj1 Hf)). len_lia.
  - intros. by apply vec_get_set_ne.
  - intros i x Hx Hne. apply Hk; eauto.
  - intros i x Hx Hne. apply Hk0'; eauto.
  - intros i x Hx Hxn. destruct (same_payload_get _ _ _ _ (proj1 Hf) Hx) as (y & Hy & Hpay).
    rewrite (must_payload _ _ Hpay). rewrite slab_get_push in Hy. case_decide as Hd.
    { simplify_eq. split; [by left|done]. }
    rewrite elem_of_cons, (Hcov i y Hy) by (by rewrite <- (payload_ns _ _ Hpay)). naive_solver.
Qed.

(** Unlinking a linked entry, then replacing it by something that does not belong
    in the list ([s'']: a hole, or an entry outside [must]). *)
Lemma ns_wf_remove E heads s id r :
  ns_wf heads s -> slab_get s id = Some r -> must r = true ->
  exists heads' s', unlink (E := E) (ns_of r) (prev_of r) (next_of r) (heads, s) = Ok (heads', s')
    /\ same_payload s s' /\ slab_get s' id = Some r /\ others_kept (ns_of r) s s'
    /\ forall s'', len s'' = len s' -> (forall i, i <> id -> slab_get s'' i = slab_get s' i) ->
         (forall r'', slab_get s'' id = Some r'' -> ns_of r'' = ns_of r /\ must r'' = false) ->
         ns_wf heads' s''.
Proof using must_payload.
  intros W Hr Hm. pose proof W as [W1 W2 W3 W4]. pose proof (W3 _ _ Hr) as Hns.
  destruct (W4 _ Hns) as (l & Hl & Hcov).
  pose proof (proj1 (Hcov id r Hr eq_refl) Hm) as Hin.
  apply list_elem_of_split in Hin as (l1 & l2 & ->).
  destruct (unlink_ok E heads s (ns_of r) id r l1 l2) as (heads' & s' & He & Hl' & Hf & Hid & Hlh & Hhn);
    [done..|].
  assert (forall i x, i ∈ option_list (last l1) ++ option_list (head l2) ->
            slab_get s i = Some x -> ns_of x = ns_of r) as Ht.
  { intros i x Hi Hx. destruct (ns_list_elem_ns _ _ _ _ i Hl) as (y & Hy & ?); [|congruence].
    apply elem_of_app in Hi as [Hi|Hi].
    - destruct (last l1) as [z|] eqn:Ez; [|by apply elem_of_nil in Hi].
      apply list_elem_of_singleton in Hi as ->. apply last_Some_elem_of in Ez. set_solver.
    - destruct l2 as [|z l2]; [by apply elem_of_nil in Hi|].
      apply list_elem_of_singleton in Hi as ->. set_solver. }
  destruct (frame_others _ _ _ _ Hf Ht) as [Hk Hk'].
  exists heads', s'. split; [done|]. split; [apply Hf|]. split; [done|]. split; [done|].
  intros s'' Hlen Hoth Hnew.
  assert (NoDup (l1 ++ id :: l2)) as Hnd by apply Hl.
  assert (id ∉ l1 ++ l2) as Hidl.
  { apply NoDup_app in Hnd as (_ & Hd & [? _]%NoDup_cons). intros [Hc|Hc]%elem_of_app; [|done].
    apply (Hd id Hc). by left. }
  apply (ns_wf_step heads heads' s s'' (ns_of r) (l1 ++ l2)); try done.
  - rewrite Hlen, (proj1 (proj1 Hf)). done.
  - intros i x Hx Hne. rewrite Hoth by congruence. by apply Hk.
  - intros i x Hx Hne. apply Hk'; [|done]. rewrite <- Hoth; [done|]. intros ->.
    destruct (Hnew _ Hx). congruence.
  - destruct Hl' as (? & Hs' & ?). split; [done|]. split; [|done]. apply (seg_ext s'); [|done].
    intros i Hi. apply Hoth. intros ->. done.
  - intros i x Hx Hxn. destruct (decide (i = id)) as [->|Hne].
    { destruct (Hnew _ Hx) as [_ ->]. split; [done|]. by intros ?%Hidl. }
    rewrite Hoth in Hx by done. destruct (same_payload_get _ _ _ _ (proj1 Hf) Hx) as (y & Hy & Hpay).
    rewrite (must_payload _ _ Hpay), (Hcov i y Hy) by (by rewrite <- (payload_ns _ _ Hpay)). set_solver.
Qed.

(** What the lists depend on. *)
Definition link_view (x : A) : Z * Z * Z * bool := (ns_of x, next_of x, prev_of x, must x).

Lemma ns_wf_ext heads s s' :
  len s' = len s -> (forall i, link_view <$> slab_get s' i = link_view <$> slab_get s i) ->
  ns_wf heads s -> ns_wf heads s'.
Proof.
  intros Hlen Hv [W1 W2 W3 W4].
  assert (forall i x, slab_get s' i = Some x -> exists y, slab_get s i = Some y
            /\ link_view x = link_view y) as Hget.
  { intros i x Hx. specialize (Hv i). rewrite Hx in Hv.
    destruct (slab_get s i) as [y|]; [|done]. injection Hv as H1 H2 H3 H4. exists y. split; [done|].
    unfold link_view. congruence. }
  split; [done|by rewrite Hlen| |].
  - intros i x (y & Hy & [=])%Hget. specialize (W3 i y Hy). lia.
  - intros ns Hns. destruct (W4 ns Hns) as (l & (Hh & Hs & Hnd) & Hcov). exists l. split.
    + split; [done|]. split; [|done]. clear -Hs Hv.
      generalize dependent NS_LIST_NIL. intros n. generalize n at 1 3. revert n.
      induction l as [|x l IH]; intros n p Hs; [done|]. destruct Hs as [(r & Hr & Hx) Hs].
      split; [|by apply IH]. specialize (Hv x). rewrite Hr in Hv.
      destruct (slab_get s' x) as [r'|]; [|done]. exists r'. injection Hv as H1 H2 H3 _.
      destruct Hx as (? & ? & ?). repeat split; congruence.
    + intros i x Hx Hns'. destruct (Hget i x Hx) as (y & Hy & Hxy). injection Hxy as E1 E2 E3 E4. rewrite E4.
      apply Hcov; congruence.
Qed.

(** Changing an entry without touching its links, its namespace or its need
    to be linked. *)
Lemma ns_wf_alter heads s id f :
  (forall x, link_view (f x) = link_view x) -> ns_wf heads s -> ns_wf heads (slab_alter f s id).
Proof.
  intros Hf. apply ns_wf_ext; [apply len_slab_alter|]. intros i. rewrite slab_get_alter.
  case_decide; [|done]. destruct (slab_get s i); simpl; by rewrite ?Hf.
Qed.

(** Erasing every entry of one list and resetting its head. *)
Lemma ns_wf_drop heads s s' ns l :
  ns_wf heads s -> 0 <= ns < MAX_NAMESPACES -> ns_list heads s ns l ->
  len s' = len s ->
  (forall i, slab_get s' i = if decide (i ∈ l) then None else slab_get s i) ->
  (forall i r, slab_get s i = Some r -> ns_of r = ns -> must r = true <-> i ∈ l) ->
  ns_wf (vec_set heads ns NS_LIST_NIL) s'.
Proof.
  intros W Hns Hl Hlen Hget Hcov. pose proof W as [W1 W2 W3 W4].
  apply (ns_wf_step heads _ s s' ns []); try done.
  - apply len_vec_set.
  - by rewrite Hlen.
  - intros. by apply vec_get_set_ne.
  - intros i r Hr Hne. rewrite Hget. case_decide as Hi; [|done].
    destruct (ns_list_elem_ns _ _ _ _ _ Hl Hi) as (y & Hy & ?). congruence.
  - intros i r Hr Hne. rewrite Hget in Hr. by case_decide.
  - split; [|split; [done|constructor]]. apply vec_get_set_eq. lia.
  - intros i r Hr Hn. rewrite Hget in Hr. case_decide as Hi; [done|]. split; [|by intros ?%elem_of_nil].
    intros Hm. by apply (Hcov i r Hr Hn) in Hm.
Qed.
End AllLists.
