(* ===== verification/Records.v ===== *)
(** * Records and the record pool

    Models [crates/valori-kernel/src/error.rs], [storage/record.rs] and
    [storage/pool.rs]. *)

From S2P Require Import Prelude.
From S2P Require Import Core.
From S2P Require Import Fxp.
From S2P Require Import Slab.

(** ** Errors (error.rs) *)
Inductive KernelError : Type :=
| InvalidCommand (c : Z)
| DimensionMismatch (expected found : Z)
| InvalidPayloadLength (expected found : Z)
| IoError
| DistanceOverflow
| QueryOutOfRange (v : Z)
| CapacityExceeded
| NotFound
| Overflow
| InvalidInputK
| InvalidOperation
| MetadataTooLarge
| NotImplemented.

(** ** Records (storage/record.rs) *)
Definition FLAG_SOFT_DELETED : Z := 1.
Definition FLAG_ENCRYPTED : Z := 2.
Definition FLAG_SHREDDED : Z := 4.

Record Record_ : Type := mkRecord {
  rec_id : Z;
  rec_vector : FxpVector;
  rec_metadata : option (list Z);
  rec_tag : Z;
  rec_flags : Z;
  rec_namespace_id : Z;
  rec_next_in_ns : Z;
  rec_prev_in_ns : Z;
}.

Definition Record_new (id : Z) (vector : FxpVector) (metadata : option (list Z))
    (tag namespace_id : Z) : Record_ :=
  mkRecord id vector metadata tag 0 namespace_id NS_LIST_NIL NS_LIST_NIL.

Definition is_active (r : Record_) : bool :=
  Z.land (rec_flags r) (Z.lor FLAG_SOFT_DELETED FLAG_SHREDDED) =? 0.

Definition is_searchable (r : Record_) : bool :=
  Z.land (rec_flags r) (Z.lor (Z.lor FLAG_SOFT_DELETED FLAG_ENCRYPTED) FLAG_SHREDDED) =? 0.

(** Field updates. *)
Definition rec_set_flags (fl : Z) (r : Record_) : Record_ :=
  mkRecord (rec_id r) (rec_vector r) (rec_metadata r) (rec_tag r) fl
    (rec_namespace_id r) (rec_next_in_ns r) (rec_prev_in_ns r).
Definition rec_set_metadata (m : option (list Z)) (r : Record_) : Record_ :=
  mkRecord (rec_id r) (rec_vector r) m (rec_tag r) (rec_flags r)
    (rec_namespace_id r) (rec_next_in_ns r) (rec_prev_in_ns r).
Definition rec_set_next (v : Z) (r : Record_) : Record_ :=
  mkRecord (rec_id r) (rec_vector r) (rec_metadata r) (rec_tag r) (rec_flags r)
    (rec_namespace_id r) v (rec_prev_in_ns r).
Definition rec_set_prev (v : Z) (r : Record_) : Record_ :=
  mkRecord (rec_id r) (rec_vector r) (rec_metadata r) (rec_tag r) (rec_flags r)
    (rec_namespace_id r) (rec_next_in_ns r) v.

#[export] Instance Record_linked : NsLinked Record_.
Proof.
  refine {| ns_of := rec_namespace_id; next_of := rec_next_in_ns; prev_of := rec_prev_in_ns;
            set_next := rec_set_next; set_prev := rec_set_prev |}; reflexivity.
Defined.

(** ** The pool (storage/pool.rs) *)
Abbreviation RecordPool := (slab Record_).

Definition rp_next_id (p : RecordPool) : Z := wrap_u32 (len p).

Definition rp_insert (vector : FxpVector) (metadata : option (list Z)) (tag namespace_id : Z)
    : M KernelError RecordPool Z :=
  fun p =>
    let id := wrap_u32 (len p) in
    (p ++ [Some (Record_new id vector metadata tag namespace_id)], Ok id).

Definition rp_get (p : RecordPool) (id : Z) : option Record_ := slab_get p id.

(** [delete]: the length test and the hole test both answer [NotFound]. *)
Definition rp_delete (id : Z) : M KernelError RecordPool unit :=
  fun p =>
    if len p <=? id then (p, Err NotFound)
    else match slab_get p id with
         | Some _ => (slab_clear p id, Ok tt)
         | None => (p, Err NotFound)
         end.

(** The three in-place updates share the shape
    [match self.records.get_mut(idx).and_then(..) { Some(r) => .., None => Err(NotFound) }]. *)
Definition rp_update (f : Record_ -> Record_) (id : Z) : M KernelError RecordPool unit :=
  fun p =>
    match slab_get p id with
    | Some _ => (slab_alter f p id, Ok tt)
    | None => (p, Err NotFound)
    end.

Definition rp_update_metadata (id : Z) (metadata : option (list Z)) : M KernelError RecordPool unit :=
  rp_update (rec_set_metadata metadata) id.

Definition rp_soft_delete (id : Z) : M KernelError RecordPool unit :=
  rp_update (fun r => rec_set_flags (Z.lor (rec_flags r) FLAG_SOFT_DELETED) r) id.

Definition rp_mark_encrypted (id : Z) : M KernelError RecordPool unit :=
  rp_update (fun r => rec_set_flags (Z.lor (rec_flags r) FLAG_ENCRYPTED) r) id.

Definition rp_mark_shredded (id : Z) : M KernelError RecordPool unit :=
  rp_update (fun r => rec_set_metadata None
                        (rec_set_flags (Z.lor (rec_flags r) FLAG_SHREDDED) r)) id.

(** [iter]: the live records in slot order. *)
Definition rp_iter (p : RecordPool) : list Record_ :=
  filter (fun r => is_active r = true) (omap (fun o => o) p).

Definition rp_total_slots (p : RecordPool) : Z := len p.

(** ** Lemmas *)

(** A record that was not soft-deleted must stay linked in its namespace. *)
Definition not_soft_deleted (r : Record_) : bool := Z.land (rec_flags r) FLAG_SOFT_DELETED =? 0.

Lemma not_soft_deleted_payload (x y : Record_) :
  payload x = payload y -> not_soft_deleted x = not_soft_deleted y.
Proof. destruct x, y. unfold payload. simpl. intros [=]. by subst. Qed.

Lemma payload_eq (x y : Record_) :
  payload x = payload y ->
  rec_id x = rec_id y /\ rec_vector x = rec_vector y /\ rec_metadata x = rec_metadata y
  /\ rec_tag x = rec_tag y /\ rec_flags x = rec_flags y /\ rec_namespace_id x = rec_namespace_id y.
Proof. destruct x, y. unfold payload. simpl. intros [=]. by subst. Qed.

Lemma is_active_payload (x y : Record_) : payload x = payload y -> is_active x = is_active y.
Proof. intros (_ & _ & _ & _ & Hf & _)%payload_eq. unfold is_active. by rewrite Hf. Qed.

Lemma land_sub_zero a m n : Z.land m n = n -> Z.land a m = 0 -> Z.land a n = 0.
Proof. intros Hn Ha. by rewrite <- Hn, Z.land_assoc, Ha, Z.land_0_l. Qed.

Lemma is_active_not_soft_deleted r : is_active r = true -> not_soft_deleted r = true.
Proof.
  unfold is_active, not_soft_deleted. rewrite !Z.eqb_eq. by apply land_sub_zero.
Qed.

Lemma is_searchable_active r : is_searchable r = true -> is_active r = true.
Proof. unfold is_active, is_searchable. rewrite !Z.eqb_eq. by apply land_sub_zero. Qed.

Lemma rp_iter_elem p r :
  r ∈ rp_iter p <-> (exists i, slab_get p i = Some r) /\ is_active r = true.
Proof.
  unfold rp_iter. rewrite list_elem_of_filter, list_elem_of_omap. split.
  - intros [Ha (o & Ho & Hr)]. subst o. split; [|done].
    apply list_elem_of_lookup in Ho as [n Hn]. exists (Z.of_nat n).
    apply slab_get_vec. by rewrite vec_get_nat.
  - intros [[i Hi] Ha]. split; [done|]. exists (Some r). split; [|done].
    apply slab_get_vec, vec_get_Some in Hi as [_ Hi]. eapply list_elem_of_lookup_2; eauto.
Qed.
