(* ===== verification/Graph.v ===== *)
(** * The knowledge graph: nodes, edges and adjacency lists

    Models [crates/valori-kernel/src/graph/] ([node.rs], [edge.rs], [pool.rs],
    [adjacency.rs]) and the edge and node deletion of [state/kernel.rs].  Every
    node heads two singly linked lists threaded through the edge pool: its
    outgoing edges ([next_out]) and its incoming edges ([next_in]).  The code
    for the two is the same up to the fields it names; [Side] selects them. *)

From S2P Require Import Prelude.
From S2P Require Import Core.
From S2P Require Import Slab.
From S2P Require Import Records.

(** ** Nodes and edges *)
Record GraphNode : Type := mkNode {
  nd_id : Z;
  nd_kind : NodeKind;
  nd_record : option Z;
  nd_first_out_edge : option Z;
  nd_first_in_edge : option Z;
  nd_namespace_id : Z;
  nd_next_in_ns : Z;
  nd_prev_in_ns : Z;
}.

Definition GraphNode_new (id : Z) (kind : NodeKind) (record : option Z) (namespace_id : Z) : GraphNode :=
  mkNode id kind record None None namespace_id NS_LIST_NIL NS_LIST_NIL.

Record GraphEdge : Type := mkEdge {
  ed_id : Z;
  ed_kind : EdgeKind;
  ed_from : Z;
  ed_to : Z;
  ed_next_out : option Z;
  ed_next_in : option Z;
}.

Definition GraphEdge_new (id : Z) (kind : EdgeKind) (from to : Z) : GraphEdge :=
  mkEdge id kind from to None None.

Definition nd_set_id (v : Z) (n : GraphNode) : GraphNode :=
  mkNode v (nd_kind n) (nd_record n) (nd_first_out_edge n) (nd_first_in_edge n)
    (nd_namespace_id n) (nd_next_in_ns n) (nd_prev_in_ns n).
Definition nd_set_next (v : Z) (n : GraphNode) : GraphNode :=
  mkNode (nd_id n) (nd_kind n) (nd_record n) (nd_first_out_edge n) (nd_first_in_edge n)
    (nd_namespace_id n) v (nd_prev_in_ns n).
Definition nd_set_prev (v : Z) (n : GraphNode) : GraphNode :=
  mkNode (nd_id n) (nd_kind n) (nd_record n) (nd_first_out_edge n) (nd_first_in_edge n)
    (nd_namespace_id n) (nd_next_in_ns n) v.
Definition ed_set_id (v : Z) (e : GraphEdge) : GraphEdge :=
  mkEdge v (ed_kind e) (ed_from e) (ed_to e) (ed_next_out e) (ed_next_in e).

#[export] Instance Node_linked : NsLinked GraphNode.
Proof.
  refine {| ns_of := nd_namespace_id; next_of := nd_next_in_ns; prev_of := nd_prev_in_ns;
            set_next := nd_set_next; set_prev := nd_set_prev |}; reflexivity.
Defined.

(** ** The two adjacency lists *)
Inductive Side : Type := Out | In.

Definition first_edge (d : Side) (n : GraphNode) : option Z :=
  match d with Out => nd_first_out_edge n | In => nd_first_in_edge n end.
Definition set_first_edge (d : Side) (v : option Z) (n : GraphNode) : GraphNode :=
  match d with
  | Out => mkNode (nd_id n) (nd_kind n) (nd_record n) v (nd_first_in_edge n)
             (nd_namespace_id n) (nd_next_in_ns n) (nd_prev_in_ns n)
  | In => mkNode (nd_id n) (nd_kind n) (nd_record n) (nd_first_out_edge n) v
            (nd_namespace_id n) (nd_next_in_ns n) (nd_prev_in_ns n)
  end.
Definition next_edge (d : Side) (e : GraphEdge) : option Z :=
  match d with Out => ed_next_out e | In => ed_next_in e end.
Definition set_next_edge (d : Side) (v : option Z) (e : GraphEdge) : GraphEdge :=
  match d with
  | Out => mkEdge (ed_id e) (ed_kind e) (ed_from e) (ed_to e) v (ed_next_in e)
  | In => mkEdge (ed_id e) (ed_kind e) (ed_from e) (ed_to e) (ed_next_out e) v
  end.
(** The node whose list on side [d] holds the edge. *)
Definition endpoint (d : Side) (e : GraphEdge) : Z :=
  match d with Out => ed_from e | In => ed_to e end.

(** ** Pools (pool.rs) *)
Abbreviation NodePool := (slab GraphNode).
Abbreviation EdgePool := (slab GraphEdge).
Abbreviation Graph := (NodePool * EdgePool)%type.

Definition np_insert (node : GraphNode) : M KernelError NodePool Z :=
  fun p => let id := wrap_u32 (len p) in (p ++ [Some (nd_set_id id node)], Ok id).

Definition ep_insert (edge : GraphEdge) : M KernelError EdgePool Z :=
  fun p => let id := wrap_u32 (len p) in (p ++ [Some (ed_set_id id edge)], Ok id).

(** [delete] of both pools: out of range or already a hole is [NotFound]. *)
Definition pool_delete {A} (id : Z) : M KernelError (slab A) unit :=
  fun p =>
    match slab_get p id with
    | Some _ => (slab_clear p id, Ok tt)
    | None => (p, Err NotFound)
    end.

Definition is_allocated {A} (p : slab A) (id : Z) : bool :=
  match slab_get p id with Some _ => true | None => false end.

Definition live_count {A} (p : slab A) : Z := len (filter (fun o : option A => is_Some o) p).

(** ** add_edge (adjacency.rs) *)
Definition add_edge (kind : EdgeKind) (from to : Z) : M KernelError Graph Z :=
  fun g =>
    let '(nodes, edges) := g in
    match slab_get nodes from, slab_get nodes to with
    | Some nf, Some nt =>
        let edge := set_next_edge In (first_edge In nt)
                      (set_next_edge Out (first_edge Out nf) (GraphEdge_new 0 kind from to)) in
        match ep_insert edge edges with
        | (edges, Ok edge_id) =>
            let nodes := slab_alter (set_first_edge Out (Some edge_id)) nodes from in
            let nodes := slab_alter (set_first_edge In (Some edge_id)) nodes to in
            ((nodes, edges), Ok edge_id)
        | (edges, _) => ((nodes, edges), Panic)
        end
    | _, _ => (g, Err NotFound)
    end.

(** ** Edge iteration

    [OutEdgeIterator] / [InEdgeIterator]: follow the side's pointers until the
    list ends or a slot is empty.  The fuel is one more than the number of
    slots: a walk that exceeds it has met some edge twice and never ends. *)
Fixpoint edge_walk (d : Side) (edges : EdgePool) (fuel : nat) (current : option Z)
    : outcome KernelError (list GraphEdge) :=
  match current with
  | None => Ok []
  | Some c =>
      match slab_get edges c with
      | None => Ok []
      | Some e =>
          match fuel with
          | O => Hang
          | S fuel => do* rest := edge_walk d edges fuel (next_edge d e) in Ok (e :: rest)
          end
      end
  end.

Definition iter_edges (d : Side) (edges : EdgePool) (start : option Z)
    : outcome KernelError (list GraphEdge) := edge_walk d edges (S (length edges)) start.

(** The id-collecting loop of [_delete_node]: it records the id before looking
    the edge up. *)
Fixpoint collect_ids (d : Side) (edges : EdgePool) (fuel : nat) (curr : option Z)
    : outcome KernelError (list Z) :=
  match curr with
  | None => Ok []
  | Some eid =>
      match fuel with
      | O => Hang
      | S fuel =>
          do* rest := collect_ids d edges fuel
                        (match slab_get edges eid with Some e => next_edge d e | None => None end) in
          Ok (eid :: rest)
      end
  end.

(** ** Unlinking an edge

    The search loop of [_delete_edge]: the predecessor of [edge_id] in the list,
    or [None] when the loop ends without meeting it. *)
Fixpoint find_pred (d : Side) (edges : EdgePool) (edge_id : Z) (fuel : nat)
    (prev curr : option Z) : outcome KernelError (option (option Z)) :=
  match curr with
  | None => Ok None
  | Some c =>
      if c =? edge_id then Ok (Some prev)
      else match fuel with
           | O => Hang
           | S fuel =>
               find_pred d edges edge_id fuel (Some c)
                 (match slab_get edges c with Some e => next_edge d e | None => None end)
           end
  end.

Definition locate_pred (d : Side) (edges : EdgePool) (edge_id : Z) (first : option Z)
    : outcome KernelError (option (option Z)) :=
  find_pred d edges edge_id (S (length edges)) None first.

(** One block of [_delete_edge]: take the edge out of the list of [owner]. *)
Definition unlink_edge (d : Side) (owner edge_id : Z) : M KernelError Graph unit :=
  fun g =>
    let '(nodes, edges) := g in
    let first := match slab_get nodes owner with Some n => first_edge d n | None => None end in
    match locate_pred d edges edge_id first with
    | Ok (Some prev) =>
        let next := match slab_get edges edge_id with Some e => next_edge d e | None => None end in
        match prev with
        | Some p =>
            match slab_get edges p with
            | Some _ => ((nodes, slab_alter (set_next_edge d next) edges p), Ok tt)
            | None => (g, Panic)
            end
        | None =>
            match slab_get nodes owner with
            | Some _ => ((slab_alter (set_first_edge d next) nodes owner, edges), Ok tt)
            | None => (g, Panic)
            end
        end
    | Ok None => (g, Ok tt)
    | Err e => (g, Err e)
    | Panic => (g, Panic)
    | Hang => (g, Hang)
    end.

Definition delete_edge (edge_id : Z) : M KernelError Graph unit :=
  let* g := sget in
  let* edge := slift (ok_or (slab_get g.2 edge_id) NotFound) in
  unlink_edge Out (ed_from edge) edge_id ;;;
  unlink_edge In (ed_to edge) edge_id ;;;
  zoom snd (fun e g => (g.1, e)) (pool_delete edge_id).

(** The cascade of [_delete_node]: every collected edge still present. *)
Definition delete_edges (ids : list Z) : M KernelError Graph unit :=
  sfor ids (fun eid =>
    let* g := sget in
    if is_allocated g.2 eid then delete_edge eid else sret tt).
