(* ===== verification/GraphProofs.v ===== *)
(** * Correctness of the adjacency lists

    [graph_wf] says that, for every live node and each side, following the
    pointers visits exactly the live edges with that endpoint, once each, and
    that every edge has live endpoints.  [add_edge], [delete_edge] and the
    cascade [delete_edges] preserve it, always return, and change nothing else. *)

From S2P Require Import Prelude.
From S2P Require Import Core.
From S2P Require Import Slab.
From S2P Require Import Records.
From S2P Require Import Graph.

Section Adjacency.
Implicit Types (nodes : NodePool) (edges : EdgePool) (l : list Z).

(** [l] is the list of ids met from [start] along the pointers of side [d]. *)
Fixpoint adj (d : Side) edges (start : option Z) l : Prop :=
  match l with
  | [] => start = None
  | id :: l' => start = Some id
      /\ exists e, slab_get edges id = Some e /\ adj d edges (next_edge d e) l'
  end.

Lemma adj_ext d edges edges' start l :
  (forall i, i ∈ l -> next_edge d <$> slab_get edges' i = next_edge d <$> slab_get edges i) ->
  adj d edges start l -> adj d edges' start l.
Proof.
  revert start. induction l as [|x l IH]; intros start Hext; [done|].
  intros [-> (e & He & Hadj)]. split; [done|].
  pose proof (Hext x ltac:(by left)) as Hx. rewrite He in Hx. simpl in Hx.
  destruct (slab_get edges' x) as [e'|]; simpl in Hx; [|done]. simplify_eq.
  exists e'. split; [done|]. rewrite Hx. apply IH; [|done]. intros. apply Hext. by right.
Qed.

Lemma adj_range d edges start l i : adj d edges start l -> i ∈ l -> 0 <= i < len edges.
Proof.
  revert start. induction l as [|x l IH]; intros start Ha Hi; [by apply elem_of_nil in Hi|].
  destruct Ha as [_ (e & He & Ha)]. apply elem_of_cons in Hi as [->|Hi]; [by eapply slab_get_lt|eauto].
Qed.

Lemma adj_length d edges start l : adj d edges start l -> NoDup l -> (length l <= length edges)%nat.
Proof. intros Ha Hnd. apply NoDup_range_length; [done|]. intros. by eapply adj_range. Qed.

(** The loops of the code follow the list and stop at its end. *)
Lemma edge_walk_adj d edges l start fuel :
  adj d edges start l -> (length l <= fuel)%nat ->
  exists es, edge_walk d edges fuel start = Ok es
    /\ Forall2 (fun i e => slab_get edges i = Some e) l es.
Proof.
  revert start fuel. induction l as [|x l IH]; intros start fuel Ha Hf.
  - simpl in Ha. subst. exists []. by destruct fuel.
  - destruct Ha as [-> (e & He & Ha)]. simpl in Hf. destruct fuel as [|fuel]; [lia|].
    destruct (IH _ fuel Ha ltac:(lia)) as (es & Hes & Hall). exists (e :: es).
    simpl. rewrite He, Hes. auto.
Qed.

Lemma collect_ids_adj d edges l start fuel :
  adj d edges start l -> (length l <= fuel)%nat -> collect_ids d edges fuel start = Ok l.
Proof.
  revert start fuel. induction l as [|x l IH]; intros start fuel Ha Hf.
  - simpl in Ha. subst. by destruct fuel.
  - destruct Ha as [-> (e & He & Ha)]. simpl in Hf. destruct fuel as [|fuel]; [lia|].
    simpl. rewrite He, (IH _ fuel Ha) by lia. done.
Qed.

Lemma find_pred_adj d edges id l1 l2 start prev fuel :
  adj d edges start (l1 ++ id :: l2) -> id ∉ l1 -> (length l1 <= fuel)%nat ->
  find_pred d edges id fuel prev start
  = Ok (Some (match last l1 with Some p => Some p | None => prev end)).
Proof.
  revert start prev fuel. induction l1 as [|x l1 IH]; intros start prev fuel Ha Hid Hf.
  - destruct Ha as [-> _]. destruct fuel; simpl; by rewrite Z.eqb_refl.
  - destruct Ha as [-> (e & He & Ha)]. simpl in Hf. destruct fuel as [|fuel]; [lia|].
    apply not_elem_of_cons in Hid as [Hne Hid]. simpl.
    rewrite (proj2 (Z.eqb_neq x id)) by congruence. rewrite He.
    rewrite (IH _ _ _ Ha Hid) by lia. rewrite last_cons. by destruct (last l1).
Qed.

(** Bypassing [id]: redirect its predecessor, or the start when it is first. *)
Lemma adj_bypass d edges id e l1 l2 start :
  adj d edges start (l1 ++ id :: l2) -> NoDup (l1 ++ id :: l2) -> slab_get edges id = Some e ->
  match last l1 with
  | Some p => adj d (slab_alter (set_next_edge d (next_edge d e)) edges p) start (l1 ++ l2)
  | None => adj d edges (next_edge d e) (l1 ++ l2)
  end.
Proof.
  revert start. induction l1 as [|x l1 IH]; intros start Ha Hnd He.
  - simpl in *. destruct Ha as [_ (e' & He' & Ha)]. by simplify_eq.
  - simpl in Ha. destruct Ha as [-> (ex & Hex & Ha)]. simpl in Hnd.
    apply NoDup_cons in Hnd as [Hx Hnd]. specialize (IH _ Ha Hnd He).
    rewrite last_cons. destruct (last l1) as [p|] eqn:Ep; simpl.
    + split; [done|]. assert (p ∈ l1) by by apply last_Some_elem_of.
      exists ex. rewrite slab_get_alter_ne; [done|]. set_solver.
    + split; [done|]. exists (set_next_edge d (next_edge d e) ex).
      rewrite slab_get_alter_eq, Hex. split; [done|].
      apply (adj_ext d edges).
      * intros i Hi. rewrite slab_get_alter_ne; [done|]. set_solver.
      * destruct l1; [|by rewrite last_cons in Ep; destruct (last l1)]. by destruct d.
Qed.
End Adjacency.

(** ** Well-formed graphs *)

(** The part of an edge (of a node) that list surgery never changes. *)
Definition ecore (e : GraphEdge) : GraphEdge := set_next_edge Out None (set_next_edge In None e).
Definition ncore (n : GraphNode) : GraphNode := set_first_edge Out None (set_first_edge In None n).

(** The lists of side [d] hold exactly the live edges outside [X]. *)
Definition adj_wf (d : Side) (g : Graph) (X : Z -> Prop) : Prop :=
  forall n nd, slab_get g.1 n = Some nd ->
    exists l, adj d g.2 (first_edge d nd) l /\ NoDup l
      /\ forall i, i ∈ l <-> exists e, slab_get g.2 i = Some e /\ endpoint d e = n /\ ~ X i.

Record graph_wf (g : Graph) : Prop := {
  gw_edge : forall i e, slab_get g.2 i = Some e ->
    ed_id e = i /\ forall d, is_Some (slab_get g.1 (endpoint d e));
  gw_node : forall i n, slab_get g.1 i = Some n -> nd_id n = i;
  gw_adj : forall d, adj_wf d g (fun _ => False);
}.

Definition same_edges (g g' : Graph) : Prop :=
  len g'.2 = len g.2 /\ forall i, ecore <$> slab_get g'.2 i = ecore <$> slab_get g.2 i.
Definition same_nodes (g g' : Graph) : Prop :=
  len g'.1 = len g.1 /\ forall i, ncore <$> slab_get g'.1 i = ncore <$> slab_get g.1 i.

Lemma ecore_endpoint d e e' : ecore e = ecore e' -> endpoint d e = endpoint d e' /\ ed_id e = ed_id e'.
Proof. destruct e, e'. cbv. destruct d; intros [=]; subst; auto. Qed.

Lemma ncore_fields n n' : ncore n = ncore n' ->
  nd_id n = nd_id n' /\ nd_kind n = nd_kind n' /\ nd_record n = nd_record n'
  /\ nd_namespace_id n = nd_namespace_id n' /\ nd_next_in_ns n = nd_next_in_ns n'
  /\ nd_prev_in_ns n = nd_prev_in_ns n'.
Proof. destruct n, n'. cbv. intros [=]. subst. auto 10. Qed.

Lemma fmap_eq_Some {A B} (f : A -> B) o o' x :
  f <$> o' = f <$> o -> o' = Some x -> exists y, o = Some y /\ f x = f y.
Proof. intros H ->. destruct o; simpl in H; [|done]. simplify_eq. eauto. Qed.

Lemma set_next_edge_core d v e : ecore (set_next_edge d v e) = ecore e.
Proof. by destruct d. Qed.
Lemma set_first_edge_core d v n : ncore (set_first_edge d v n) = ncore n.
Proof. by destruct d. Qed.
Lemma set_next_edge_other d d' v e : d' <> d -> next_edge d' (set_next_edge d v e) = next_edge d' e.
Proof. by destruct d, d'. Qed.
Lemma set_first_edge_other d d' v n : d' <> d -> first_edge d' (set_first_edge d v n) = first_edge d' n.
Proof. by destruct d, d'. Qed.
Lemma set_first_edge_eq d v n : first_edge d (set_first_edge d v n) = v.
Proof. by destruct d. Qed.

Lemma fmap_slab_alter {A B} (h : A -> B) (f : A -> A) s i j :
  (forall x, h (f x) = h x) -> h <$> slab_get (slab_alter f s i) j = h <$> slab_get s j.
Proof.
  intros Hh. rewrite slab_get_alter. case_decide; [|done].
  destruct (slab_get s j); simpl; by rewrite ?Hh.
Qed.

(** The lists of a side depend on the pointers of that side, on which nodes
    live, and on which edges live with which endpoint. *)
Lemma adj_wf_ext d (g g' : Graph) X :
  (forall i, first_edge d <$> slab_get g'.1 i = first_edge d <$> slab_get g.1 i) ->
  (forall i, next_edge d <$> slab_get g'.2 i = next_edge d <$> slab_get g.2 i) ->
  (forall i, endpoint d <$> slab_get g'.2 i = endpoint d <$> slab_get g.2 i) ->
  adj_wf d g X -> adj_wf d g' X.
Proof.
  intros Hn He Hp W n nd Hnd. destruct (fmap_eq_Some _ _ _ _ (Hn n) Hnd) as (nd0 & Hnd0 & Hf).
  destruct (W n nd0 Hnd0) as (l & Ha & Hd & Hl). exists l. rewrite Hf.
  split; [by apply (adj_ext d g.2); auto|]. split; [done|]. intros i. rewrite Hl.
  split; intros (e & Hi & Hep & HX).
  - destruct (fmap_eq_Some _ _ _ _ (eq_sym (Hp i)) Hi) as (e' & ? & ?). exists e'. naive_solver.
  - destruct (fmap_eq_Some _ _ _ _ (Hp i) Hi) as (e' & ? & ?). exists e'. naive_solver.
Qed.

Lemma same_edges_live d (g g' : Graph) i n (P : Prop) :
  same_edges g g' ->
  (exists e, slab_get g'.2 i = Some e /\ endpoint d e = n /\ P)
  <-> (exists e, slab_get g.2 i = Some e /\ endpoint d e = n /\ P).
Proof.
  intros [_ Hs]. split; intros (e & He & Hep & HP).
  - destruct (fmap_eq_Some _ _ _ _ (Hs i) He) as (e' & He' & [Hc _]%(ecore_endpoint d)).
    exists e'. naive_solver.
  - destruct (fmap_eq_Some _ _ _ _ (eq_sym (Hs i)) He) as (e' & He' & [Hc _]%(ecore_endpoint d)).
    exists e'. naive_solver.
Qed.

(** Dropping one id from the list of one node, leaving the other lists alone. *)
Lemma adj_wf_remove d (g g' : Graph) id e nd l1 l2 :
  adj_wf d g (fun _ => False) -> slab_get g.2 id = Some e -> same_edges g g' ->
  slab_get g.1 (endpoint d e) = Some nd -> adj d g.2 (first_edge d nd) (l1 ++ id :: l2) ->
  NoDup (l1 ++ id :: l2) ->
  (forall i, i ∈ l1 ++ id :: l2 <->
     exists e', slab_get g.2 i = Some e' /\ endpoint d e' = endpoint d e /\ ~ False) ->
  (forall nd', slab_get g'.1 (endpoint d e) = Some nd' -> adj d g'.2 (first_edge d nd') (l1 ++ l2)) ->
  (forall n, n <> endpoint d e -> first_edge d <$> slab_get g'.1 n = first_edge d <$> slab_get g.1 n) ->
  (forall i, i ∉ l1 ++ id :: l2 -> slab_get g'.2 i = slab_get g.2 i) ->
  adj_wf d g' (eq id).
Proof.
  intros W He Hse Hnd Ha Hdup Hl Hown Hfirst Hkeep n nd' Hn'.
  destruct (decide (n = endpoint d e)) as [->|Hne].
  - exists (l1 ++ l2). split; [by apply Hown|]. split; [by apply NoDup_remove_mid in Hdup as [? _]|].
    intros i. rewrite (same_edges_live d g g') by done. rewrite elem_of_remove_mid by done.
    rewrite Hl. naive_solver.
  - destruct (fmap_eq_Some _ _ _ _ (Hfirst n Hne) Hn') as (nd0 & Hnd0 & Hf).
    destruct (W _ _ Hnd0) as (l & Ha' & Hd' & Hl'). exists l. rewrite Hf. split; [|split; [done|]].
    + apply (adj_ext d g.2); [|done]. intros i Hi. rewrite Hkeep; [done|].
      intros Hc. apply Hl' in Hi as (e1 & ? & ? & _). apply Hl in Hc as (e2 & ? & ? & _). congruence.
    + intros i. rewrite (same_edges_live d g g') by done. rewrite Hl'. split; [|naive_solver].
      intros (e' & Hi & Hee & _). exists e'. split; [done|]. split; [done|]. intros <-. congruence.
Qed.

(** Removing an edge from the list of its endpoint. *)
Lemma unlink_edge_ok d (g : Graph) id e nd :
  adj_wf d g (fun _ => False) -> slab_get g.2 id = Some e -> slab_get g.1 (endpoint d e) = Some nd ->
  exists g', unlink_edge d (endpoint d e) id g = (g', Ok tt)
    /\ adj_wf d g' (eq id) /\ same_edges g g' /\ same_nodes g g'
    /\ forall d' X, d' <> d -> adj_wf d' g X -> adj_wf d' g' X.
Proof.
  destruct g as [nodes edges]. simpl. intros W He Hnd.
  destruct (W _ _ Hnd) as (l & Ha & Hdup & Hl). simpl in *.
  assert (id ∈ l) as Hin by (apply Hl; eauto).
  apply list_elem_of_split in Hin as (l1 & l2 & ->).
  pose proof (proj2 (NoDup_remove_mid _ _ _ Hdup)) as Hid.
  assert (id ∉ l1) as Hid1 by (rewrite elem_of_app in Hid; tauto).
  pose proof (adj_bypass d edges id e l1 l2 _ Ha Hdup He) as Hby.
  pose proof (adj_length _ _ _ _ Ha Hdup) as Hlen. rewrite length_app in Hlen. simpl in Hlen.
  unfold unlink_edge. lazy beta iota zeta. rewrite Hnd.
  unfold locate_pred. rewrite (find_pred_adj d edges id l1 l2) by (done || lia). rewrite He.
  destruct (last l1) as [p|] eqn:Ep.
  - assert (p ∈ l1 ++ id :: l2) as Hpin.
    { apply elem_of_app. left. by apply last_Some_elem_of. }
    destruct (proj1 (Hl p) Hpin) as (ep & Hep & _). rewrite Hep. eexists. split; [done|].
    assert (same_edges (nodes, edges) (nodes, slab_alter (set_next_edge d (next_edge d e)) edges p)) as Hse.
    { split; [apply len_slab_alter|]. intros i. apply fmap_slab_alter, set_next_edge_core. }
    split; [|split; [done|split; [done|]]].
    + apply (adj_wf_remove d (nodes, edges) _ id e nd l1 l2); try done; simpl.
      * intros. by simplify_eq.
      * intros i Hi. apply slab_get_alter_ne. intros ->. done.
    + intros d' X Hd'. apply adj_wf_ext; simpl; [done| |]; intros i; apply fmap_slab_alter; intros x.
      * by apply set_next_edge_other.
      * by destruct d, d'.
  - apply last_None_nil in Ep as ->. eexists. split; [done|]. split; [|split; [done|split]].
    + apply (adj_wf_remove d (nodes, edges) _ id e nd [] l2); try done; simpl.
      * intros nd'. rewrite slab_get_alter_eq, Hnd. simpl. intros [= <-]. by rewrite set_first_edge_eq.
      * intros n Hne. by rewrite slab_get_alter_ne by congruence.
    + split; [apply len_slab_alter|]. intros i. apply fmap_slab_alter, set_first_edge_core.
    + intros d' X Hd'. apply adj_wf_ext; simpl; [|done|done].
      intros i. apply fmap_slab_alter. intros x. by apply set_first_edge_other.
Qed.

#[export] Instance same_edges_preorder : PreOrder same_edges.
Proof. split; [done|]. intros a b c [? H1] [? H2]. split; [congruence|]. intros. by rewrite H2. Qed.
#[export] Instance same_nodes_preorder : PreOrder same_nodes.
Proof. split; [done|]. intros a b c [? H1] [? H2]. split; [congruence|]. intros. by rewrite H2. Qed.

(** The slot of an edge that no list mentions can be emptied. *)
Lemma adj_wf_clear d nodes (edges : EdgePool) id :
  adj_wf d (nodes, edges) (eq id) -> adj_wf d (nodes, slab_clear edges id) (fun _ => False).
Proof.
  intros W n nd Hnd. destruct (W n nd Hnd) as (l & Ha & Hdup & Hl). simpl in *.
  exists l. split; [|split; [done|]].
  - apply (adj_ext d edges); [|done]. intros i Hi. rewrite slab_get_clear.
    case_decide as Hd; [|done]. apply Hl in Hi as (? & ? & ? & Hne). by destruct Hne.
  - intros i. rewrite Hl, slab_get_clear. simpl. case_decide as Hd; naive_solver.
Qed.

(** Deleting one edge: the lists stay exact, nothing else changes. *)
Lemma delete_edge_ok (g : Graph) id e :
  graph_wf g -> slab_get g.2 id = Some e ->
  exists g', delete_edge id g = (g', Ok tt) /\ graph_wf g' /\ same_nodes g g' /\ len g'.2 = len g.2
    /\ forall i, ecore <$> slab_get g'.2 i = if decide (i = id) then None else ecore <$> slab_get g.2 i.
Proof.
  intros [We Wn Wa] He. destruct (We _ _ He) as [_ Hends].
  destruct (Hends Out) as [nf Hnf]. destruct (unlink_edge_ok Out g id e nf) as
    (g1 & Hu1 & W1 & Se1 & Sn1 & K1); [by apply Wa|done|done|].
  destruct (fmap_eq_Some _ _ _ _ (eq_sym (proj2 Se1 id)) He) as (e1 & He1 & Hc1).
  destruct (Hends In) as [nt Hnt].
  destruct (ecore_endpoint In _ _ Hc1) as [Hep _].
  destruct (fmap_eq_Some _ _ _ _ (eq_sym (proj2 Sn1 _)) Hnt) as (nt1 & Hnt1 & _).
  rewrite Hep in Hnt1.
  destruct (unlink_edge_ok In g1 id e1 nt1) as (g2 & Hu2 & W2 & Se2 & Sn2 & K2);
    [by apply K1, Wa|done|done|].
  assert (same_nodes g g2) as Sn by by etrans. assert (same_edges g g2) as Se by by etrans.
  destruct (fmap_eq_Some _ _ _ _ (eq_sym (proj2 Se2 id)) He1) as (e2 & He2 & _).
  exists (g2.1, slab_clear g2.2 id). split.
  { unfold delete_edge, sbind, sget, slift. rewrite He. simpl.
    change (ed_from e) with (endpoint Out e). rewrite Hu1.
    change (ed_to e) with (endpoint In e). rewrite Hep, Hu2.
    unfold zoom, pool_delete. by rewrite He2. }
  assert (forall i, ecore <$> slab_get (slab_clear g2.2 id) i
            = if decide (i = id) then None else ecore <$> slab_get g.2 i) as Hget.
  { intros i. rewrite slab_get_clear. case_decide; case_decide; subst; try done.
    by rewrite (proj2 Se i). }
  split; [|split; [exact Sn|split; [|done]]].
  - split; simpl.
    + intros i x Hx. specialize (Hget i). case_decide; [by rewrite Hx in Hget|].
      destruct (fmap_eq_Some _ _ _ _ Hget Hx) as (y & Ey & Hcore).
      destruct (We _ _ Ey) as [Hid Hy]. split.
      * destruct (ecore_endpoint Out _ _ Hcore). congruence.
      * intros d. destruct (ecore_endpoint d _ _ Hcore) as [-> _]. destruct (Hy d) as [n Hn].
        destruct (fmap_eq_Some _ _ _ _ (eq_sym (proj2 Sn _)) Hn) as (n' & -> & _). eauto.
    + intros i n Hn. destruct (fmap_eq_Some _ _ _ _ (proj2 Sn i) Hn) as (n' & Hn' & Hc).
      apply ncore_fields in Hc as (-> & _). eauto.
    + intros d. apply adj_wf_clear. rewrite <- surjective_pairing.
      destruct d; [by apply K2|done].
  - simpl. rewrite len_slab_clear. apply Se.
Qed.

(** The cascade deletes exactly the listed edges. *)
Lemma delete_edges_ok (ids : list Z) (g : Graph) :
  graph_wf g ->
  exists g', delete_edges ids g = (g', Ok tt) /\ graph_wf g' /\ same_nodes g g' /\ len g'.2 = len g.2
    /\ forall i, ecore <$> slab_get g'.2 i = if decide (i ∈ ids) then None else ecore <$> slab_get g.2 i.
Proof.
  revert g. induction ids as [|id ids IH]; intros g W.
  - exists g. split; [done|]. split; [done|]. split; [done|]. split; [done|].
    intros i. by rewrite decide_False by apply not_elem_of_nil.
  - assert (exists g1, (let* g := sget in
              if is_allocated g.2 id then delete_edge id else sret tt) g = (g1, Ok tt)
            /\ graph_wf g1 /\ same_nodes g g1 /\ len g1.2 = len g.2
            /\ forall i, ecore <$> slab_get g1.2 i
                 = if decide (i = id) then None else ecore <$> slab_get g.2 i) as H1.
    { unfold sbind, sget, is_allocated. simpl. destruct (slab_get g.2 id) as [e|] eqn:He.
      - by eapply delete_edge_ok.
      - exists g. split; [done|]. split; [done|]. split; [done|]. split; [done|].
        intros i. case_decide; [|done]. subst. by rewrite He. }
    destruct H1 as (g1 & Hg1 & W1 & Sn1 & L1 & E1).
    destruct (IH g1 W1) as (g2 & Hg2 & W2 & Sn2 & L2 & E2).
    exists g2. split; [unfold delete_edges; cbn [sfor]; unfold sbind at 1; by rewrite Hg1|].
    split; [done|]. split; [by etrans|]. split; [congruence|].
    intros i. rewrite E2, E1. repeat case_decide; set_solver.
Qed.

(** ** Adding an edge *)

(** The node slab after both heads were redirected to the new edge. *)
Lemma add_edge_nodes nodes from to id i nd' :
  slab_get (slab_alter (set_first_edge In (Some id))
             (slab_alter (set_first_edge Out (Some id)) nodes from) to) i = Some nd' ->
  exists nd, slab_get nodes i = Some nd /\ ncore nd' = ncore nd
    /\ first_edge Out nd' = (if decide (i = from) then Some id else first_edge Out nd)
    /\ first_edge In nd' = (if decide (i = to) then Some id else first_edge In nd).
Proof.
  rewrite !slab_get_alter. destruct (slab_get nodes i) as [nd|]; [|by repeat case_decide].
  repeat case_decide; subst; simpl; intros [= <-]; exists nd; done.
Qed.

Lemma graph_push_adj d (nodes nodes' : NodePool) (edges : EdgePool) e id :
  id = len edges -> adj_wf d (nodes, edges) (fun _ => False) ->
  (forall i nd', slab_get nodes' i = Some nd' -> exists nd, slab_get nodes i = Some nd
     /\ first_edge d nd' = if decide (i = endpoint d e) then Some id else first_edge d nd) ->
  (forall nd, slab_get nodes (endpoint d e) = Some nd -> next_edge d e = first_edge d nd) ->
  adj_wf d (nodes', edges ++ [Some e]) (fun _ => False).
Proof.
  intros -> W Hn Hhead n nd' Hnd'. simpl in *. destruct (Hn n nd' Hnd') as (nd & Hnd & Hf).
  destruct (W n nd Hnd) as (l & Ha & Hdup & Hl). simpl in *.
  assert (len edges ∉ l) as Hfresh.
  { intros Hc. pose proof (adj_range _ _ _ _ _ Ha Hc). lia. }
  assert (adj d (edges ++ [Some e]) (first_edge d nd) l) as Ha'.
  { apply (adj_ext d edges); [|done]. intros i Hi. rewrite slab_get_push_lt; [done|]. by intros ->. }
  case_decide as Hdec.
  - subst n. exists (len edges :: l). rewrite Hf. split; [|split; [by constructor|]].
    + split; [done|]. exists e. rewrite slab_get_push_eq. split; [done|]. by rewrite (Hhead nd).
    + intros i. rewrite elem_of_cons, Hl, slab_get_push. case_decide; naive_solver.
  - exists l. rewrite Hf. split; [done|]. split; [done|]. intros i. rewrite Hl, slab_get_push.
    case_decide as Hi; [|done]. subst i. split; [|naive_solver].
    intros (e' & He' & _). apply slab_get_lt in He'. lia.
Qed.

Lemma add_edge_ok (g : Graph) kind from to nf nt :
  graph_wf g -> slab_get g.1 from = Some nf -> slab_get g.1 to = Some nt -> len g.2 <= u32_MAX ->
  exists g', add_edge kind from to g = (g', Ok (len g.2)) /\ graph_wf g' /\ same_nodes g g'
    /\ g'.2 = g.2 ++ [Some (mkEdge (len g.2) kind from to (nd_first_out_edge nf) (nd_first_in_edge nt))].
Proof.
  destruct g as [nodes edges]. simpl. intros [We Wn Wa] Hf Ht Hlen. simpl in *.
  unfold add_edge. rewrite Hf, Ht. unfold ep_insert. rewrite wrap_u32_small by (unfold_int; len_lia).
  eexists. split; [done|]. cbn [fst snd]. split; [|split; [|done]].
  - split; cbn [fst snd].
    + intros i e. rewrite slab_get_push. case_decide as Hd.
      * intros [= <-]. split; [done|]. intros []; simpl; rewrite !slab_get_alter;
          repeat case_decide; subst; simplify_option_eq; rewrite ?Hf, ?Ht; simpl; eauto.
      * intros He. destruct (We _ _ He) as [Hid Hep]. split; [done|]. intros d.
        destruct (Hep d) as [n Hn]. rewrite !slab_get_alter, Hn. repeat case_decide; simpl; eauto.
    + intros i n Hn. destruct (add_edge_nodes _ _ _ _ _ _ Hn) as (nd & Hnd & Hc & _).
      apply ncore_fields in Hc as (-> & _). eauto.
    + intros d. apply (graph_push_adj d nodes _ edges _ (len edges)); [done|apply Wa| |].
      * intros i nd' Hnd'. destruct (add_edge_nodes _ _ _ _ _ _ Hnd') as (nd & ? & _ & ? & ?).
        exists nd. by destruct d.
      * intros nd. destruct d; simpl; congruence.
  - split; [cbn [fst]; by rewrite !len_slab_alter|]. intros i. cbn [fst].
    rewrite !fmap_slab_alter; [done|apply set_first_edge_core..].
Qed.

(** ** Nodes *)

(** Namespace links of nodes are invisible to the graph. *)
Definition adj_view (n : GraphNode) : Z * option Z * option Z :=
  (nd_id n, nd_first_out_edge n, nd_first_in_edge n).

Lemma graph_wf_nodes nodes nodes' (edges : EdgePool) :
  (forall i, adj_view <$> slab_get nodes' i = adj_view <$> slab_get nodes i) ->
  graph_wf (nodes, edges) -> graph_wf (nodes', edges).
Proof.
  intros Hv [We Wn Wa]. split; simpl in *.
  - intros i e He. destruct (We i e He) as [Hid Hep]. split; [done|]. intros d.
    destruct (Hep d) as [n Hn]. destruct (fmap_eq_Some _ _ _ _ (eq_sym (Hv _)) Hn) as (n' & -> & _). eauto.
  - intros i n Hn. destruct (fmap_eq_Some _ _ _ _ (Hv i) Hn) as (n' & Hn' & Hc).
    unfold adj_view in Hc. simplify_eq. rewrite <- (Wn _ _ Hn'). congruence.
  - intros d. apply (adj_wf_ext d (nodes, edges)); [|done|done|apply Wa]. simpl. intros i.
    specialize (Hv i). destruct (slab_get nodes' i), (slab_get nodes i); simpl in *; try done.
    injection Hv as H1 H2 H3. destruct d; simpl; congruence.
Qed.

Lemma payload_adj_view (n n' : GraphNode) : payload n = payload n' -> adj_view n = adj_view n'.
Proof. destruct n, n'. unfold payload, adj_view. simpl. intros [=]. by subst. Qed.

Lemma same_payload_adj_view (s s' : NodePool) :
  same_payload s s' -> forall i, adj_view <$> slab_get s' i = adj_view <$> slab_get s i.
Proof.
  intros [_ Hp] i. specialize (Hp i).
  destruct (slab_get s' i) as [x|], (slab_get s i) as [y|]; try done.
  apply (inj Some) in Hp. cbn. f_equal. by apply payload_adj_view.
Qed.

Lemma graph_wf_push_node nodes (edges : EdgePool) n :
  graph_wf (nodes, edges) -> nd_id n = len nodes -> nd_first_out_edge n = None ->
  nd_first_in_edge n = None -> graph_wf (nodes ++ [Some n], edges).
Proof.
  intros [We Wn Wa] Hid Ho Hi. split; simpl in *.
  - intros i e He. destruct (We i e He) as [? Hep]. split; [done|]. intros d.
    destruct (Hep d) as [m Hm]. rewrite slab_get_push_lt; [by rewrite Hm; eauto|].
    apply slab_get_lt in Hm. lia.
  - intros i m. rewrite slab_get_push. case_decide; [|apply Wn]. intros [= <-]. congruence.
  - intros d k nd. simpl. rewrite slab_get_push. case_decide as Hd; [|apply (Wa d)].
    intros [= <-]. exists []. split; [by destruct d|]. split; [constructor|].
    intros i. rewrite elem_of_nil. split; [done|]. intros (e & He & Hep & _).
    destruct (We _ _ He) as [_ Hl]. destruct (Hl d) as [m Hm]. apply slab_get_lt in Hm.
    simpl in *. lia.
Qed.

(** A node without incident edges can be removed. *)
Lemma graph_wf_clear_node nodes (edges : EdgePool) k :
  graph_wf (nodes, edges) ->
  (forall i e d, slab_get edges i = Some e -> endpoint d e <> k) ->
  graph_wf (slab_clear nodes k, edges).
Proof.
  intros [We Wn Wa] Hfree. split; simpl in *.
  - intros i e He. destruct (We i e He) as [? Hep]. split; [done|]. intros d.
    rewrite slab_get_clear, decide_False; [apply Hep|]. intros Hc. by eapply Hfree.
  - intros i n. rewrite slab_get_clear. case_decide; [done|apply Wn].
  - intros d n nd. simpl. rewrite slab_get_clear. case_decide; [done|apply (Wa d)].
Qed.

(** The ids collected for a node are exactly its edges on that side. *)
Lemma collect_ids_ok d (g : Graph) n nd :
  graph_wf g -> slab_get g.1 n = Some nd ->
  exists l, collect_ids d g.2 (S (length g.2)) (first_edge d nd) = Ok l
    /\ forall i, i ∈ l <-> exists e, slab_get g.2 i = Some e /\ endpoint d e = n.
Proof.
  intros [_ _ Wa] Hnd. destruct (Wa d n nd Hnd) as (l & Ha & Hdup & Hl). exists l. split.
  - apply collect_ids_adj; [done|]. pose proof (adj_length _ _ _ _ Ha Hdup). lia.
  - intros i. rewrite Hl. naive_solver.
Qed.

(** The edge iterator of a node yields exactly its edges, and terminates. *)
Lemma iter_edges_ok d (g : Graph) n nd :
  graph_wf g -> slab_get g.1 n = Some nd ->
  exists es, iter_edges d g.2 (first_edge d nd) = Ok es
    /\ forall e, e ∈ es <-> exists i, slab_get g.2 i = Some e /\ endpoint d e = n.
Proof.
  intros [_ _ Wa] Hnd. destruct (Wa d n nd Hnd) as (l & Ha & Hdup & Hl).
  destruct (edge_walk_adj d g.2 l _ (S (length g.2)) Ha) as (es & Hes & Hall).
  { pose proof (adj_length _ _ _ _ Ha Hdup). lia. }
  exists es. split; [done|]. intros e. rewrite list_elem_of_lookup. split.
  - intros [k Hk]. destruct (Forall2_lookup_r _ _ _ _ _ Hall Hk) as (i & Hi & He).
    exists i. split; [done|]. assert (i ∈ l) as Hil by (eapply list_elem_of_lookup_2; eauto).
    apply Hl in Hil as (e' & ? & ? & _). congruence.
  - intros (i & He & Hep). assert (i ∈ l) as Hil by (apply Hl; eauto).
    apply list_elem_of_lookup in Hil as [k Hk].
    destruct (Forall2_lookup_l _ _ _ _ _ Hall Hk) as (e' & ? & ?). exists k. congruence.
Qed.
