(* ===== verification/Index.v ===== *)
(** * Kernel vector indexes

    Models [crates/valori-kernel/src/index/]: [SearchResult] and its order, the
    brute-force index, the 1-bit binary-quantization index and the [ActiveIndex]
    that dispatches to them.  [path] is the L2 kernel of the target (see
    [Fxp]); a search takes the caller's result slice and returns it with the
    number of entries written. *)

From S2P Require Import Prelude.
From S2P Require Import Core.
From S2P Require Import Fxp.
From S2P Require Import TopK.
From S2P Require Import Slab.
From S2P Require Import Records.

(** ** Search results (index/mod.rs) *)
Record SearchResult : Type := mkResult { sr_score : Z; sr_id : Z }.

(** [Ord for SearchResult]: score ascending, then id ascending. *)
Definition SearchResult_cmp (a b : SearchResult) : comparison :=
  match sr_score a ?= sr_score b with
  | Eq => sr_id a ?= sr_id b
  | c => c
  end.

(** Lexicographic order on pairs; [cmp_cand] of the BQ index. *)
Definition cmp_cand (a b : Z * Z) : comparison :=
  match a.1 ?= b.1 with
  | Eq => a.2 ?= b.2
  | c => c
  end.

Definition is_less (c : comparison) : bool := match c with Lt => true | _ => false end.

Lemma cand_irrefl a : is_less (cmp_cand a a) = false.
Proof. unfold cmp_cand. by rewrite !Z.compare_refl. Qed.

Lemma cand_trans a b c :
  is_less (cmp_cand a b) = true -> is_less (cmp_cand b c) = true -> is_less (cmp_cand a c) = true.
Proof.
  destruct a as [a1 a2], b as [b1 b2], c as [c1 c2]. unfold cmp_cand; simpl.
  destruct (Z.compare_spec a1 b1), (Z.compare_spec b1 c1), (Z.compare_spec a1 c1),
    (Z.compare_spec a2 b2), (Z.compare_spec b2 c2), (Z.compare_spec a2 c2); simpl; try done; lia.
Qed.

Lemma cand_total a b :
  is_less (cmp_cand a b) = false -> is_less (cmp_cand b a) = false -> a = b.
Proof.
  destruct a as [a1 a2], b as [b1 b2]. unfold cmp_cand; simpl.
  rewrite (Z.compare_antisym a1 b1), (Z.compare_antisym a2 b2).
  destruct (Z.compare_spec a1 b1), (Z.compare_spec a2 b2); simpl; try done; intros; by subst.
Qed.

#[export] Instance cand_ord : TotalOrd (Z * Z).
Proof.
  refine {| ltb := fun a b => is_less (cmp_cand a b) |};
    [apply cand_irrefl | apply cand_trans | apply cand_total].
Defined.

(** The derived order on results is that of their (score, id) pairs. *)
Definition result_key (r : SearchResult) : Z * Z := (sr_score r, sr_id r).

#[export] Instance result_ord : TotalOrd SearchResult.
Proof.
  refine {| ltb := fun a b => is_less (SearchResult_cmp a b) |}.
  - intros a. apply (cand_irrefl (result_key a)).
  - intros a b c. apply (cand_trans (result_key a) (result_key b) (result_key c)).
  - intros a b H1 H2. pose proof (cand_total (result_key a) (result_key b) H1 H2) as Hk.
    destruct a, b. unfold result_key in Hk. simpl in *. congruence.
Defined.

(** The filler written to a result slice before a search. *)
Definition sentinel : SearchResult := mkResult i64_MAX u32_MAX.

(** [for (i, r) in tmp.into_iter().enumerate() { results[i] = r }]. *)
Definition write_prefix (tmp results : list SearchResult) : list SearchResult :=
  tmp ++ drop (length tmp) results.

Definition tag_matches (filter : option Z) (r : Record_) : bool :=
  match filter with Some req_tag => rec_tag r =? req_tag | None => true end.

(** The scored candidate of a record. *)
Definition score (path : SimdPath) (query : FxpVector) (r : Record_) : SearchResult :=
  mkResult (fxp_l2_sq path (rec_vector r) query) (rec_id r).

(** ** Brute force (index/brute_force.rs)

    [sort_unstable] is any sort; over a total order whose equal elements are
    identical all sorts agree. *)
Definition bf_search (path : SimdPath) (pool : RecordPool) (query : FxpVector)
    (results : list SearchResult) (filter : option Z) : list SearchResult * Z :=
  let k := length results in
  if Nat.eqb k 0 then (results, 0)
  else
    let heap :=
      foldl (fun heap record =>
               if tag_matches filter record
               then bounded_heap_step k heap (score path query record)
               else heap) [] (rp_iter pool) in
    let tmp := isort heap in
    (write_prefix tmp results, Z.of_nat (length heap)).

(** ** Binary quantization (index/bq.rs) *)
Record BinaryQuantizationIndex : Type := mkBq {
  bq_dim : Z;
  bq_words_per_vec : Z;
  bq_codes : list Z;
}.

Definition bq_new : BinaryQuantizationIndex := mkBq 0 0 [].

Definition words_for (dim : Z) : Z := (dim + 63) / 64.

(** [code[i / 64] |= 1 << (i % 64)] for a positive component. *)
Definition encode_step (code : list Z) (ix : nat * Z) : list Z :=
  if 0 <? ix.2
  then alter (fun w => Z.lor w (Z.shiftl 1 (Z.of_nat (ix.1 mod 64)))) (ix.1 / 64)%nat code
  else code.

Definition encode_vector (v : FxpVector) : list Z :=
  foldl encode_step (replicate (Z.to_nat (words_for (len v))) 0) (imap pair v).

(** [u64::count_ones]. *)
Definition count_ones (w : Z) : Z :=
  Z.of_nat (length (filter (fun i => Z.testbit w i = true) (seqZ 0 64))).

Definition hamming_distance (a b : list Z) : Z :=
  foldl (fun dist p => dist + count_ones (Z.lxor p.1 p.2)) 0 (zip a b).

(** [codes[start .. start + code.len()].copy_from_slice(code)], in range. *)
Definition splice (codes : list Z) (start : Z) (code : list Z) : list Z :=
  take (Z.to_nat start) codes ++ code ++ drop (Z.to_nat start + length code) codes.

(** [codes.resize(n, 0)] when it grows. *)
Definition resize_up (codes : list Z) (n : Z) : list Z :=
  codes ++ replicate (Z.to_nat (n - len codes)) 0.

Definition bq_on_insert (id : Z) (vec : FxpVector) (ix : BinaryQuantizationIndex)
    : BinaryQuantizationIndex :=
  let ix := if (bq_dim ix =? 0) && negb (len vec =? 0)
            then mkBq (len vec) (words_for (len vec)) (bq_codes ix) else ix in
  if (bq_words_per_vec ix =? 0) || negb (len vec =? bq_dim ix) then ix
  else
    let required := (id + 1) * bq_words_per_vec ix in
    let codes := if len (bq_codes ix) <? required then resize_up (bq_codes ix) required
                 else bq_codes ix in
    mkBq (bq_dim ix) (bq_words_per_vec ix)
      (splice codes (id * bq_words_per_vec ix) (encode_vector vec)).

Definition bq_on_delete (id : Z) (ix : BinaryQuantizationIndex) : BinaryQuantizationIndex :=
  if bq_words_per_vec ix =? 0 then ix
  else
    let start := id * bq_words_per_vec ix in
    if start + bq_words_per_vec ix <=? len (bq_codes ix) then
      mkBq (bq_dim ix) (bq_words_per_vec ix)
        (splice (bq_codes ix) start (replicate (Z.to_nat (bq_words_per_vec ix)) 0))
    else ix.

(** One slot of the [rebuild] loop. *)
Definition rebuild_step (dim : Z) (codes : list Z) (ix : nat * option Record_) : list Z :=
  match ix.2 with
  | Some r => if is_searchable r && (len (rec_vector r) =? dim)
              then splice codes (Z.of_nat ix.1 * words_for dim) (encode_vector (rec_vector r))
              else codes
  | None => codes
  end.

(** The dimension of the first record with a non-empty vector. *)
Definition first_dim (pool : RecordPool) : Z :=
  match head (omap (fun o => match o with
                             | Some r => if len (rec_vector r) =? 0 then None else Some (len (rec_vector r))
                             | None => None
                             end) pool) with
  | Some d => d
  | None => 0
  end.

Definition bq_rebuild (pool : RecordPool) : BinaryQuantizationIndex :=
  let dim := first_dim pool in
  let words := words_for dim in
  if words =? 0 then mkBq dim words []
  else
    mkBq dim words
      (foldl (rebuild_step dim)
         (replicate (Z.to_nat (rp_total_slots pool * words)) 0) (imap pair pool)).

(** The stored code of a record, when its slot lies inside the arena. *)
Definition bq_code (ix : BinaryQuantizationIndex) (id : Z) : option (list Z) :=
  let start := id * bq_words_per_vec ix in
  if len (bq_codes ix) <? start + bq_words_per_vec ix then None
  else Some (take (Z.to_nat (bq_words_per_vec ix)) (drop (Z.to_nat start) (bq_codes ix))).

Definition candidates_cap (k : nat) : nat := Nat.max (40 * k) 400.

(** Stage 1: the coarse scan keeps the [candidates_cap k] smallest Hamming distances. *)
Definition bq_stage1 (ix : BinaryQuantizationIndex) (pool : RecordPool) (query : FxpVector)
    (filter : option Z) (cap : nat) : list (Z * Z) :=
  let query_code := encode_vector query in
  foldl (fun cands record =>
           if is_searchable record && tag_matches filter record then
             match bq_code ix (rec_id record) with
             | Some code =>
                 bounded_vec_step cap cands (hamming_distance query_code code, rec_id record)
             | None => cands
             end
           else cands) [] (rp_iter pool).

(** Stage 2: exact rescoring into the result slice. *)
Definition bq_stage2 (path : SimdPath) (pool : RecordPool) (query : FxpVector) (k : nat)
    (results : list SearchResult) (cands : list (Z * Z)) : list SearchResult * nat :=
  foldl (fun st (cand : Z * Z) =>
           match rp_get pool cand.2 with
           | Some r => if is_searchable r then offer_swap k st (score path query r) else st
           | None => st
           end) (results, 0%nat) cands.

Definition bq_search (path : SimdPath) (ix : BinaryQuantizationIndex) (pool : RecordPool)
    (query : FxpVector) (results : list SearchResult) (filter : option Z)
    : list SearchResult * Z :=
  let k := length results in
  if Nat.eqb k 0 then (results, 0)
  else
    let results := replicate k sentinel in
    if (bq_words_per_vec ix =? 0) || negb (len query =? bq_dim ix) then (results, 0)
    else
      let cands := bq_stage1 ix pool query filter (candidates_cap k) in
      let '(results, count) := bq_stage2 path pool query k results cands in
      (results, Z.of_nat count).

(** ** The active index (index/mod.rs) *)
Inductive IndexVariant : Type := VBruteForce | VBinaryQuantization.

Inductive ActiveIndex : Type :=
| BruteForce
| BinaryQuantization (i : BinaryQuantizationIndex).

Definition index_variant (ix : ActiveIndex) : IndexVariant :=
  match ix with BruteForce => VBruteForce | BinaryQuantization _ => VBinaryQuantization end.

Definition on_insert (id : Z) (vec : FxpVector) (ix : ActiveIndex) : ActiveIndex :=
  match ix with
  | BruteForce => BruteForce
  | BinaryQuantization i => BinaryQuantization (bq_on_insert id vec i)
  end.

Definition on_delete (id : Z) (ix : ActiveIndex) : ActiveIndex :=
  match ix with
  | BruteForce => BruteForce
  | BinaryQuantization i => BinaryQuantization (bq_on_delete id i)
  end.

Definition rebuild (pool : RecordPool) (ix : ActiveIndex) : ActiveIndex :=
  match ix with
  | BruteForce => BruteForce
  | BinaryQuantization _ => BinaryQuantization (bq_rebuild pool)
  end.

Definition index_search (path : SimdPath) (ix : ActiveIndex) (pool : RecordPool)
    (query : FxpVector) (results : list SearchResult) (filter : option Z)
    : list SearchResult * Z :=
  match ix with
  | BruteForce => bf_search path pool query results filter
  | BinaryQuantization i => bq_search path i pool query results filter
  end.

(** ** Brute force is exact *)

(** The candidates of a scan: live records with a matching tag, scored. *)
Definition bf_candidates (path : SimdPath) (pool : RecordPool) (query : FxpVector)
    (filter_ : option Z) : list SearchResult :=
  score path query <$> filter (fun r => tag_matches filter_ r = true) (rp_iter pool).

Lemma foldl_if_filter {A B} (p : B -> bool) (f : A -> B -> A) l a :
  foldl (fun a b => if p b then f a b else a) a l
  = foldl f a (filter (fun b => p b = true) l).
Proof.
  revert a. induction l as [|b l IH]; intros a; simpl; [done|]. destruct (p b) eqn:E.
  - rewrite filter_cons_True by done. simpl. apply IH.
  - rewrite filter_cons_False by congruence. apply IH.
Qed.

Lemma foldl_fmap {A B C} (f : A -> B -> A) (g : C -> B) l a :
  foldl (fun a c => f a (g c)) a l = foldl f a (g <$> l).
Proof. revert a. induction l; intros; simpl; auto. Qed.

Lemma bf_search_topk path pool query results filter_ :
  results <> [] ->
  bf_search path pool query results filter_
  = (write_prefix (topk (length results) (bf_candidates path pool query filter_)) results,
     len (topk (length results) (bf_candidates path pool query filter_))).
Proof.
  intros Hk. unfold bf_search. destruct results as [|r0 results]; [done|]. simpl Nat.eqb. cbv iota.
  rewrite (foldl_if_filter (tag_matches filter_)
    (fun h record => bounded_heap_step (length (r0 :: results)) h (score path query record))).
  rewrite foldl_fmap. fold (bf_candidates path pool query filter_).
  set (heap := foldl _ _ _). set (cs := bf_candidates _ _ _ _).
  assert (heap ≡ₚ topk (length (r0 :: results)) cs) as Hp by apply bounded_heap_fold.
  assert (isort heap = topk (length (r0 :: results)) cs) as ->.
  { apply sorted_unique; [apply isort_sorted|apply topk_sorted|]. by rewrite isort_perm. }
  unfold len. by rewrite Hp.
Qed.

(** On every pool, query, filter and result buffer, the bounded max-heap of
    BruteForceIndex::search writes the k best active records that pass the tag
    filter, sorted by (distance, id), at the front of the buffer, leaves the rest
    of the buffer untouched and returns how many it wrote. *)
Theorem bf_search_exact path pool query results filter_ :
  exists out,
    best_k (length results) (bf_candidates path pool query filter_) out
    /\ bf_search path pool query results filter_ = (out ++ drop (length out) results, len out).
Proof.
  destruct results as [|r0 results].
  - exists []. split; [apply (topk_best_k 0)|done].
  - exists (topk (length (r0 :: results)) (bf_candidates path pool query filter_)).
    split; [apply topk_best_k|]. by apply bf_search_topk.
Qed.

(** ** Binary quantization rescoring *)

(** Slot [i] of a pool holds the record with id [i]. *)
Definition ids_ok (pool : RecordPool) : Prop :=
  forall i r, slab_get pool i = Some r -> rec_id r = i.

(** The records the coarse scan considers. *)
Definition bq_eligible (ix : BinaryQuantizationIndex) (filter : option Z) (r : Record_) : bool :=
  is_searchable r && tag_matches filter r
  && match bq_code ix (rec_id r) with Some _ => true | None => false end.

Definition bq_eligibles (ix : BinaryQuantizationIndex) (pool : RecordPool) (filter_ : option Z)
    : list Record_ :=
  filter (fun r => bq_eligible ix filter_ r = true) (rp_iter pool).

(** The coarse key of a record: its Hamming distance and its id. *)
Definition bq_key (ix : BinaryQuantizationIndex) (query : FxpVector) (r : Record_) : Z * Z :=
  (hamming_distance (encode_vector query) (default [] (bq_code ix (rec_id r))), rec_id r).

Lemma bq_stage1_topk ix pool query filter_ cap :
  (0 < cap)%nat ->
  bq_stage1 ix pool query filter_ cap = topk cap (bq_key ix query <$> bq_eligibles ix pool filter_).
Proof.
  intros Hcap. rewrite <- (bounded_vec_fold _ _ Hcap). rewrite <- foldl_fmap.
  unfold bq_eligibles. rewrite <- foldl_if_filter. unfold bq_stage1.
  generalize (@nil (Z * Z)). induction (rp_iter pool) as [|r l IH]; intros acc; simpl; [done|].
  rewrite IH. f_equal. unfold bq_eligible, bq_key.
  destruct (is_searchable r && tag_matches filter_ r); [|done]. simpl.
  by destruct (bq_code ix (rec_id r)).
Qed.

(** The records behind a list of coarse candidates. *)
Definition rescored (pool : RecordPool) (cands : list (Z * Z)) : list Record_ :=
  omap (fun c => match rp_get pool c.2 with
                 | Some r => if is_searchable r then Some r else None
                 | None => None
                 end) cands.

Lemma bq_stage2_fold path pool query k st cands :
  foldl (fun st (cand : Z * Z) =>
           match rp_get pool cand.2 with
           | Some r => if is_searchable r then offer_swap k st (score path query r) else st
           | None => st
           end) st cands
  = foldl (offer_swap k) st (score path query <$> rescored pool cands).
Proof.
  revert st. induction cands as [|c cands IH]; intros st; simpl; [done|].
  rewrite IH. unfold rescored. simpl. destruct (rp_get pool c.2) as [r|]; simpl; [|done].
  by destruct (is_searchable r).
Qed.

Lemma bq_search_topk path ix pool query results filter_ :
  results <> [] -> bq_words_per_vec ix <> 0 -> len query = bq_dim ix ->
  let k := length results in
  let cands := topk (candidates_cap k) (bq_key ix query <$> bq_eligibles ix pool filter_) in
  let out := topk k (score path query <$> rescored pool cands) in
  exists rest, bq_search path ix pool query results filter_ = (out ++ rest, len out).
Proof.
  intros Hne Hw Hd k cands out. unfold bq_search. fold k.
  assert (0 < k)%nat as Hk by (unfold k; destruct results; [done|simpl; lia]).
  rewrite (proj2 (Nat.eqb_neq k 0)) by lia.
  rewrite (proj2 (Z.eqb_neq _ _) Hw), (proj2 (Z.eqb_eq _ _) Hd). simpl.
  rewrite bq_stage1_topk by (unfold candidates_cap; lia). fold cands.
  unfold bq_stage2. rewrite bq_stage2_fold.
  destruct (filled_topk k (offer_swap k) (replicate k sentinel)
              (score path query <$> rescored pool cands)) as [rest Hr].
  - intros. by apply offer_swap_filled.
  - apply length_replicate.
  - rewrite Hr. exists rest. done.
Qed.

Lemma rescored_keys ix pool query l :
  ids_ok pool ->
  (forall r, r ∈ l -> (exists i, slab_get pool i = Some r) /\ is_searchable r = true) ->
  rescored pool (bq_key ix query <$> l) = l.
Proof.
  intros Hids. induction l as [|r l IH]; intros Hl; [done|].
  destruct (Hl r) as [[i Hi] Hs]; [by left|].
  unfold rescored in *. simpl. unfold rp_get. rewrite (Hids _ _ Hi), Hi, Hs. f_equal.
  apply IH. intros r' Hr'. apply Hl. by right.
Qed.

#[export] Instance rescored_perm pool : Proper ((≡ₚ) ==> (≡ₚ)) (rescored pool).
Proof. intros l l' Hp. unfold rescored. by apply omap_Permutation. Qed.

Lemma bq_eligibles_elem ix pool filter_ r :
  r ∈ bq_eligibles ix pool filter_ <->
  (exists i, slab_get pool i = Some r) /\ bq_eligible ix filter_ r = true.
Proof.
  unfold bq_eligibles. rewrite list_elem_of_filter, rp_iter_elem. split; [naive_solver|].
  intros [Hi He]. split; [done|]. split; [done|]. unfold bq_eligible in He. bool_prop.
  by apply is_searchable_active.
Qed.

(** ** The code arena *)

Lemma words_for_nonneg d : 0 <= d -> 0 <= words_for d.
Proof. intros. unfold words_for. apply Z.div_pos; lia. Qed.

Lemma length_encode_vector v : length (encode_vector v) = Z.to_nat (words_for (len v)).
Proof.
  unfold encode_vector.
  assert (forall ps code, length (foldl encode_step code ps) = length code) as Hgen.
  { induction ps as [|p ps IH]; intros code; simpl; [done|]. rewrite IH.
    unfold encode_step. case_match; [apply length_alter|done]. }
  by rewrite Hgen, length_replicate.
Qed.

(** The [w] words of slot [i]. *)
Definition slot (w : nat) (codes : list Z) (i : nat) : list Z := take w (drop (i * w) codes).

Lemma length_splice codes i (w : nat) code :
  length code = w -> ((i + 1) * w <= length codes)%nat ->
  length (splice codes (Z.of_nat (i * w)) code) = length codes.
Proof.
  intros Hc Hl. unfold splice. rewrite Nat2Z.id, !length_app, length_take, length_drop. lia.
Qed.

Lemma slot_splice_eq codes i (w : nat) code :
  length code = w -> ((i + 1) * w <= length codes)%nat ->
  slot w (splice codes (Z.of_nat (i * w)) code) i = code.
Proof.
  intros Hc Hl. unfold slot, splice. rewrite Nat2Z.id.
  rewrite drop_app_length' by (rewrite length_take; lia).
  by rewrite take_app_length' by lia.
Qed.

Lemma slot_splice_ne codes i j (w : nat) code :
  i <> j -> length code = w -> ((i + 1) * w <= length codes)%nat ->
  slot w (splice codes (Z.of_nat (i * w)) code) j = slot w codes j.
Proof.
  intros Hne Hc Hl. unfold slot. apply list_eq. intros n.
  destruct (decide (n < w)%nat); [|by rewrite !lookup_take_ge by lia].
  rewrite !lookup_take_lt, !lookup_drop by lia. unfold splice. rewrite Nat2Z.id.
  destruct (decide (j < i)%nat).
  - assert (j * w + n < i * w)%nat by nia. rewrite lookup_app_l by (rewrite length_take; nia).
    by rewrite lookup_take_lt by done.
  - assert ((i + 1) * w <= j * w)%nat by nia.
    rewrite lookup_app_r by (rewrite length_take; nia).
    rewrite lookup_app_r by (rewrite length_take; nia).
    rewrite lookup_drop, length_take. f_equal. nia.
Qed.

Lemma slot_resize w codes n i :
  ((i + 1) * w <= length codes)%nat -> slot w (resize_up codes n) i = slot w codes i.
Proof.
  intros Hl. unfold slot, resize_up. rewrite drop_app_le by lia.
  rewrite take_app_le; [done|]. rewrite length_drop. lia.
Qed.

Lemma bq_code_slot ix i (w : nat) :
  bq_words_per_vec ix = Z.of_nat w ->
  bq_code ix (Z.of_nat i)
  = if decide ((i + 1) * w <= length (bq_codes ix))%nat then Some (slot w (bq_codes ix) i) else None.
Proof.
  intros Hw. unfold bq_code, len, slot. rewrite Hw. case_decide.
  - rewrite (proj2 (Z.ltb_ge _ _)) by nia. rewrite Nat2Z.id. do 3 f_equal. nia.
  - by rewrite (proj2 (Z.ltb_lt _ _)) by nia.
Qed.

(** What the index promises of a pool: every searchable record with a
    non-empty vector has the index's dimension, and the arena holds its sign code
    in its slot. *)
Definition bq_ok (ix : BinaryQuantizationIndex) (pool : RecordPool) : Prop :=
  bq_words_per_vec ix = words_for (bq_dim ix)
  /\ 0 <= bq_dim ix
  /\ forall i r, slab_get pool i = Some r -> is_searchable r = true -> len (rec_vector r) <> 0 ->
       len (rec_vector r) = bq_dim ix /\ bq_code ix i = Some (encode_vector (rec_vector r)).

(** All vectors of a pool have length [d]. *)
Definition uniform (d : Z) (pool : RecordPool) : Prop :=
  forall i r, slab_get pool i = Some r -> len (rec_vector r) = d.

Lemma foldl_imap_snoc {A B} (f : B -> nat * A -> B) b l x :
  foldl f b (imap pair (l ++ [x])) = f (foldl f b (imap pair l)) (length l, x).
Proof. rewrite imap_app, foldl_app. simpl. by rewrite Nat.add_0_r. Qed.

(** The loop of [rebuild]. *)
Lemma rebuild_loop (dim : Z) (w : nat) (pool : RecordPool) codes :
  Z.of_nat w = words_for dim -> (length pool * w <= length codes)%nat ->
  let codes' := foldl (rebuild_step dim) codes (imap pair pool) in
  length codes' = length codes
  /\ forall i r, slab_get pool i = Some r -> is_searchable r = true -> len (rec_vector r) = dim ->
       slot w codes' (Z.to_nat i) = encode_vector (rec_vector r).
Proof.
  intros Hw. induction pool as [|o pool IH] using rev_ind; intros Hl; simpl.
  - split; [done|]. intros i r Hr. apply slab_get_lt in Hr. len_lia.
  - rewrite length_app in Hl. simpl in Hl. destruct IH as [IHl IHs]; [lia|].
    rewrite foldl_imap_snoc.
    set (codes1 := foldl _ codes (imap pair pool)) in *.
    destruct o as [r0|]; unfold rebuild_step; simpl.
    2: { split; [done|]. intros i r Hr. rewrite slab_get_push in Hr. case_decide; [done|]. by apply IHs. }
    destruct (is_searchable r0 && (len (rec_vector r0) =? dim)) eqn:E.
    2: { split; [done|]. intros i r Hr Hs Hd. rewrite slab_get_push in Hr. case_decide; [|by apply IHs].
         simplify_eq. rewrite Hs, Z.eqb_refl in E. done. }
    bool_prop. rewrite <- Hw, <- Nat2Z.inj_mul.
    assert (length (encode_vector (rec_vector r0)) = w) as Hc
      by (rewrite length_encode_vector; subst dim; lia).
    split; [rewrite (length_splice _ _ w); [done|done|lia]|].
    intros i r Hr Hs Hd. rewrite slab_get_push in Hr. case_decide as Hi.
    + simplify_eq. unfold len. rewrite Nat2Z.id. apply slot_splice_eq; [done|lia].
    + pose proof (slab_get_lt _ _ _ Hr) as Hlt. rewrite slot_splice_ne; [by apply IHs| |done|lia].
      unfold len in *. lia.
Qed.

Lemma first_dim_nonneg pool : 0 <= first_dim pool.
Proof.
  unfold first_dim. destruct (head _) as [d|] eqn:E; [|lia].
  assert (d ∈ omap (fun o => match o with
     | Some r => if len (rec_vector r) =? 0 then None else Some (len (rec_vector r))
     | None => None end) pool) as Hd by by apply head_Some_elem_of.
  apply list_elem_of_omap in Hd as (o & _ & Ho). repeat case_match; simplify_eq. apply len_nonneg.
Qed.

Lemma words_for_pos d : 0 < d -> 0 < words_for d.
Proof. intros. unfold words_for. apply Z.div_str_pos. lia. Qed.

Lemma first_dim_uniform d pool :
  uniform d pool -> first_dim pool = d \/ first_dim pool = 0 /\ (d = 0 \/ omap id pool = []).
Proof.
  intros Hu. unfold first_dim.
  assert (forall o, o ∈ pool -> match o with Some r => len (rec_vector r) = d | None => True end) as Hin.
  { intros [r|] Ho; [|done]. apply list_elem_of_lookup in Ho as [n Hn]. apply (Hu (Z.of_nat n)).
    apply slab_get_vec. by rewrite vec_get_nat. }
  clear Hu. induction pool as [|o pool IH]; simpl; [auto|].
  destruct o as [r|]; simpl; [|apply IH; intros; apply Hin; by right].
  pose proof (Hin (Some r) ltac:(by left)) as Hr. simpl in Hr.
  destruct (len (rec_vector r) =? 0) eqn:E; simpl; bool_prop; [|by left].
  destruct IH as [IH|[IH _]]; [intros; apply Hin; by right|left; exact IH|].
  right. split; [exact IH|]. left. lia.
Qed.

Lemma bq_ok_rebuild d pool : uniform d pool -> bq_ok (bq_rebuild pool) pool.
Proof.
  intros Hu. pose proof (first_dim_nonneg pool). pose proof (words_for_nonneg (first_dim pool)).
  pose proof (first_dim_uniform d pool Hu) as Hfd.
  set (dim := first_dim pool) in *.
  assert (forall i r, slab_get pool i = Some r -> len (rec_vector r) <> 0 -> len (rec_vector r) = dim)
    as Hdim.
  { intros i r Hr Hne. rewrite (Hu _ _ Hr) in *. destruct Hfd as [?|[_ [?|Hnil]]]; [done|done|].
    assert (r ∈ omap id pool) as Hin; [|rewrite Hnil in Hin; by apply elem_of_nil in Hin].
    apply list_elem_of_omap. exists (Some r). split; [|done].
    apply slab_get_vec, vec_get_Some in Hr as [_ Hr]. by eapply list_elem_of_lookup_2. }
  unfold bq_rebuild. fold dim. destruct (words_for dim =? 0) eqn:E; bool_prop.
  - split; [done|]. split; [simpl; lia|]. intros i r Hr _ Hne. pose proof (Hdim _ _ Hr Hne) as Hd.
    pose proof (len_nonneg (rec_vector r)). pose proof (words_for_pos dim). lia.
  - set (w := Z.to_nat (words_for dim)).
    assert (Z.of_nat w = words_for dim) as Hw by (unfold w; lia).
    destruct (rebuild_loop dim w pool (replicate (Z.to_nat (rp_total_slots pool * words_for dim)) 0))
      as [Hl Hs]; [done|rewrite length_replicate; unfold rp_total_slots, len; nia|].
    rewrite length_replicate in Hl. unfold rp_total_slots in *.
    split; [done|]. split; [simpl; lia|].
    intros i r Hr Hsr Hne. pose proof (slab_get_lt _ _ _ Hr). split; [by eapply Hdim|].
    replace i with (Z.of_nat (Z.to_nat i)) at 1 by lia.
    rewrite (bq_code_slot _ _ w) by done.
    rewrite decide_True; [f_equal; apply Hs; [done|done|by eapply Hdim]|].
    simpl. rewrite Hl. unfold len in *. nia.
Qed.

Lemma bq_code_range ix (w : nat) i c :
  bq_words_per_vec ix = Z.of_nat w -> 0 <= i -> bq_code ix i = Some c ->
  ((Z.to_nat i + 1) * w <= length (bq_codes ix))%nat /\ slot w (bq_codes ix) (Z.to_nat i) = c.
Proof.
  intros Hw Hi. replace i with (Z.of_nat (Z.to_nat i)) at 1 by lia.
  rewrite (bq_code_slot _ _ w) by done. case_decide; [|done]. by intros [= <-].
Qed.

Lemma bq_code_intro ix (w : nat) i c :
  bq_words_per_vec ix = Z.of_nat w -> 0 <= i -> ((Z.to_nat i + 1) * w <= length (bq_codes ix))%nat ->
  slot w (bq_codes ix) (Z.to_nat i) = c -> bq_code ix i = Some c.
Proof.
  intros Hw Hi Hl <-. replace i with (Z.of_nat (Z.to_nat i)) at 1 by lia.
  rewrite (bq_code_slot _ _ w) by done. by rewrite decide_True.
Qed.

(** Inserting a record at the end of the pool. *)
Lemma bq_ok_insert ix pool r d :
  bq_ok ix pool -> len (rec_vector r) = d -> bq_dim ix = 0 \/ bq_dim ix = d ->
  bq_ok (bq_on_insert (len pool) (rec_vector r) ix) (pool ++ [Some r])
  /\ (bq_dim (bq_on_insert (len pool) (rec_vector r) ix) = 0
      \/ bq_dim (bq_on_insert (len pool) (rec_vector r) ix) = d).
Proof.
  intros (Hw & Hd & Hc) Hv Hdim. unfold bq_on_insert. rewrite Hv.
  pose proof (len_nonneg (rec_vector r)) as Hvn. rewrite Hv in Hvn.
  set (ix1 := if (bq_dim ix =? 0) && negb (d =? 0) then _ else ix).
  assert (bq_words_per_vec ix1 = words_for (bq_dim ix1) /\ bq_dim ix1 = d
          /\ bq_codes ix1 = bq_codes ix) as (Hw1 & Hd1 & Hcs).
  { unfold ix1. destruct (bq_dim ix =? 0) eqn:E0, (d =? 0) eqn:E1; bool_prop; simpl;
      repeat split; (done || lia). }
  assert (d = 0 \/ bq_words_per_vec ix1 <> 0) as Hz.
  { pose proof (words_for_pos d). rewrite Hw1, Hd1. lia. }
  rewrite Hd1, Z.eqb_refl, orb_false_r.
  destruct (bq_words_per_vec ix1 =? 0) eqn:Ew; bool_prop.
  { assert (d = 0) as -> by (destruct Hz; [done|lia]). rewrite Hd1. split; [|by left].
    split; [done|]. split; [by rewrite Hd1|]. intros i r' Hr' Hs' Hne. rewrite slab_get_push in Hr'.
    case_decide; [simplify_eq; lia|]. destruct (Hc i r' Hr' Hs' Hne) as [Hl' _]. lia. }
  simpl bq_dim. split; [|by right]. rewrite Hcs.
  set (w := Z.to_nat (bq_words_per_vec ix1)).
  assert (bq_words_per_vec ix1 = Z.of_nat w) as Hw'.
  { unfold w. pose proof (words_for_nonneg d). rewrite Hw1, Hd1. lia. }
  rewrite Hw' in *.
  set (codes := if len (bq_codes ix) <? _ then _ else _).
  assert ((length pool + 1) * w <= length codes)%nat as Hlc.
  { unfold codes. case_match; bool_prop; unfold len in *; [|nia].
    unfold resize_up, len. rewrite length_app, length_replicate. nia. }
  assert (forall i, ((i + 1) * w <= length (bq_codes ix))%nat ->
            slot w codes i = slot w (bq_codes ix) i /\ ((i + 1) * w <= length codes)%nat) as Hsl.
  { intros i Hi. unfold codes. case_match; [|done]. split; [by apply slot_resize|].
    unfold resize_up. rewrite length_app. lia. }
  assert (length (encode_vector (rec_vector r)) = w) as Hce
    by (rewrite length_encode_vector, Hv; rewrite Hd1 in Hw1; lia).
  unfold len at 1. rewrite <- Nat2Z.inj_mul.
  pose proof (length_splice codes (length pool) w _ Hce Hlc) as Hls.
  split; [simpl; by rewrite Hw1, Hd1|]. split; [simpl; lia|].
  intros i r' Hr' Hs' Hne. pose proof (slab_get_lt _ _ _ Hr') as Hlt.
  rewrite slab_get_push in Hr'. case_decide as Hi.
  - injection Hr' as <-. rewrite Hi. split; [done|]. apply (bq_code_intro _ w); [done|apply len_nonneg| |];
      unfold len; rewrite Nat2Z.id; cbn [bq_codes]; [lia|by apply slot_splice_eq].
  - destruct (Hc i r' Hr' Hs' Hne) as [Hl' Hcode].
    assert (bq_dim ix = d) as Hdd by (pose proof (len_nonneg (rec_vector r')); lia).
    split; [simpl; lia|]. apply (bq_code_range ix w) in Hcode as [Hr1 Hr2];
      [|by rewrite Hw, Hdd, <- Hd1|lia].
    destruct (Hsl _ Hr1) as [Hs1 Hs2]. apply (bq_code_intro _ w); [done|lia|cbn [bq_codes]; lia|].
    cbn [bq_codes]. rewrite slot_splice_ne, Hs1 by (done || unfold len in *; lia). done.
Qed.

(** The index only reads flags, vectors and slots. *)
Lemma bq_ok_weaken ix pool pool' :
  (forall i r', slab_get pool' i = Some r' -> is_searchable r' = true ->
     exists r, slab_get pool i = Some r /\ is_searchable r = true /\ rec_vector r' = rec_vector r) ->
  bq_ok ix pool -> bq_ok ix pool'.
Proof.
  intros Hr (Hw & Hd & Hc). split; [done|]. split; [done|].
  intros i r' Hr' Hs' Hd'. destruct (Hr i r' Hr' Hs') as (r & Hi & Hs & Hv).
  rewrite Hv in *. by apply Hc.
Qed.

(** Clearing the code of a record that is no longer searchable. *)
Lemma bq_ok_delete ix pool id :
  bq_ok ix pool -> 0 <= id ->
  (forall r, slab_get pool id = Some r -> is_searchable r = false) ->
  bq_ok (bq_on_delete id ix) pool /\ bq_dim (bq_on_delete id ix) = bq_dim ix.
Proof.
  intros (Hw & Hd & Hc) Hid Hns. unfold bq_on_delete. pose proof (words_for_nonneg _ Hd).
  destruct (bq_words_per_vec ix =? 0) eqn:E; [done|]. bool_prop.
  destruct (_ <=? _) eqn:Er; [|done]. bool_prop. split; [|done].
  set (w := Z.to_nat (bq_words_per_vec ix)).
  assert (bq_words_per_vec ix = Z.of_nat w) as Hw' by (unfold w; lia). rewrite Hw' in *.
  replace (id * Z.of_nat w) with (Z.of_nat (Z.to_nat id * w)) by lia.
  assert (length (replicate w 0) = w) as Hlr by apply length_replicate.
  assert ((Z.to_nat id + 1) * w <= length (bq_codes ix))%nat as Hle by (unfold len in *; nia).
  pose proof (length_splice _ _ w _ Hlr Hle) as Hls.
  split; [done|]. split; [done|].
  intros i r Hr Hs Hne. assert (i <> id) as Hi by (intros ->; apply Hns in Hr; congruence).
  destruct (Hc i r Hr Hs Hne) as [Hl Hcode]. split; [done|]. pose proof (slab_get_lt _ _ _ Hr).
  apply (bq_code_range ix w) in Hcode as [Hr1 Hr2]; [|done|lia].
  apply (bq_code_intro _ w); [done|lia|cbn [bq_codes]; lia|]. cbn [bq_codes]. rewrite slot_splice_ne; [done|lia|done..].
Qed.

(** The searchable records with a matching tag, scored. *)
Definition bq_candidates (path : SimdPath) (pool : RecordPool) (query : FxpVector)
    (filter_ : option Z) : list SearchResult :=
  score path query <$> filter (fun r => is_searchable r && tag_matches filter_ r = true) (rp_iter pool).

Lemma bq_ok_eligibles ix pool filter_ :
  bq_ok ix pool -> ids_ok pool -> uniform (bq_dim ix) pool -> bq_dim ix <> 0 ->
  bq_eligibles ix pool filter_
  = filter (fun r => is_searchable r && tag_matches filter_ r = true) (rp_iter pool).
Proof.
  intros (Hw & Hd & Hc) Hids Hu Hne. unfold bq_eligibles. apply filter_ext_in. intros r Hr.
  apply rp_iter_elem in Hr as [[i Hi] _]. unfold bq_eligible.
  destruct (is_searchable r) eqn:Es; [|done]. rewrite (Hids _ _ Hi).
  destruct (Hc i r Hi Es) as [_ ->]; [by rewrite (Hu _ _ Hi)|]. by rewrite andb_true_r.
Qed.

(** When the eligible records do not exceed the stage-1 candidate capacity
    max(40k, 400), binary-quantization search returns what exact search does: the
    k best eligible records by (distance, id). *)
Theorem bq_search_exact path ix pool query results filter_ :
  bq_ok ix pool -> ids_ok pool -> uniform (bq_dim ix) pool ->
  query <> [] -> len query = bq_dim ix ->
  (length (bq_candidates path pool query filter_) <= candidates_cap (length results))%nat ->
  exists out rest,
    best_k (length results) (bq_candidates path pool query filter_) out
    /\ bq_search path ix pool query results filter_ = (out ++ rest, len out).
Proof.
  intros Hok Hids Hu Hq0 Hq Hcap.
  assert (bq_dim ix <> 0) as Hd0 by (rewrite <- Hq; destruct query; [done|len_lia]).
  destruct results as [|r0 results].
  { exists [], []. split; [apply (topk_best_k 0)|done]. }
  pose proof (bq_ok_eligibles ix pool filter_ Hok Hids Hu Hd0) as Hel.
  destruct Hok as (Hw & Hd & Hok). pose proof (words_for_pos (bq_dim ix)).
  destruct (bq_search_topk path ix pool query (r0 :: results) filter_) as [rest Hr]; [done|lia|done|].
  eexists _, rest. split; [|exact Hr].
  unfold bq_candidates in Hcap. rewrite length_fmap in Hcap.
  rewrite (topk_all (candidates_cap (length (r0 :: results))))
    by (rewrite length_fmap, Hel; exact Hcap).
  match goal with |- best_k ?k ?c (topk _ ?l) => assert (l ≡ₚ c) as Hp end.
  { unfold bq_candidates. apply fmap_Permutation. rewrite isort_perm, <- Hel.
    rewrite rescored_keys; [done|done|]. intros r Hin. apply bq_eligibles_elem in Hin as [Hi He].
    split; [done|]. unfold bq_eligible in He. by bool_prop. }
  rewrite (topk_perm _ _ _ Hp). apply topk_best_k.
Qed.

(** The pool of the unit test [test_bq_rebuild_and_search]. *)
Definition demo_pool : RecordPool :=
  [Some (Record_new 0 [100; 100; 100; 100] None 0 0);
   Some (Record_new 1 [-100; -100; -100; -100] None 0 0);
   Some (Record_new 2 [90; 90; 90; 90] None 0 0)].

Lemma demo_pool_facts : ids_ok demo_pool /\ uniform 4 demo_pool.
Proof.
  split; intros i r Hr; pose proof (slab_get_lt _ _ _ Hr) as Hi; unfold len in Hi; simpl in Hi;
    (assert (i = 0 \/ i = 1 \/ i = 2) as [-> | [-> | ->]] by lia); vm_compute in Hr; by simplify_eq.
Qed.

Lemma bq_search_exact_witness :
  exists out rest,
    best_k 2 (bq_candidates Scalar demo_pool [80; 80; 80; 80] None) out
    /\ bq_search Scalar (bq_rebuild demo_pool) demo_pool [80; 80; 80; 80] [sentinel; sentinel] None
       = (out ++ rest, len out).
Proof.
  apply (bq_search_exact Scalar (bq_rebuild demo_pool) demo_pool [80; 80; 80; 80]
           [sentinel; sentinel] None).
  - apply (bq_ok_rebuild 4), demo_pool_facts.
  - apply demo_pool_facts.
  - apply demo_pool_facts.
  - discriminate.
  - reflexivity.
  - vm_compute. lia.
Defined.

(** ** Hamming distance counts sign disagreements *)

(** One component of [encode_vector]. *)
Lemma encode_bits (v : FxpVector) codes :
  (length v <= 64 * length codes)%nat ->
  let out := foldl encode_step codes (imap pair v) in
  length out = length codes
  /\ forall j b, (j < length codes)%nat -> 0 <= b < 64 ->
       Z.testbit (nth j out 0) b
       = Z.testbit (nth j codes 0) b || (0 <? nth (64 * j + Z.to_nat b) v 0).
Proof.
  induction v as [|x v IH] using rev_ind; intros Hl; cbv zeta.
  - split; [done|]. intros j b Hj Hb. rewrite (nth_overflow []) by (rewrite length_nil; lia).
    by rewrite orb_false_r.
  - rewrite length_app in Hl. simpl in Hl. destruct IH as [IHl IHb]; [lia|].
    rewrite foldl_imap_snoc. set (out := foldl _ codes (imap pair v)) in *.
    unfold encode_step. cbn [fst snd].
    assert (forall i, nth i (v ++ [x]) 0 = if decide (i = length v) then x else nth i v 0) as Hnth.
    { intros i. destruct (lt_eq_lt_dec i (length v)) as [[?|?]|?].
      - rewrite app_nth1 by done. by rewrite decide_False by lia.
      - subst. rewrite app_nth2, Nat.sub_diag by lia. by rewrite decide_True.
      - rewrite !nth_overflow by (rewrite ?length_app; simpl; lia). by rewrite decide_False by lia. }
    destruct (0 <? x) eqn:Hx.
    + split; [by rewrite length_alter|]. intros j b Hj Hb. rewrite Hnth.
      assert (nth j (alter (fun w => Z.lor w (Z.shiftl 1 (Z.of_nat (length v mod 64))))
                       (length v / 64)%nat out) 0
              = if decide (j = length v / 64)%nat
                then Z.lor (nth j out 0) (Z.shiftl 1 (Z.of_nat (length v mod 64)))
                else nth j out 0) as ->.
      { rewrite !nth_lookup. case_decide; subst.
        - rewrite list_lookup_alter_eq. destruct (lookup_lt_is_Some_2 out (length v / 64)) as [y Hy]; [lia|].
          by rewrite Hy.
        - by rewrite list_lookup_alter_ne. }
      pose proof (Nat.div_mod (length v) 64 ltac:(lia)) as Hdm.
      pose proof (Nat.mod_upper_bound (length v) 64 ltac:(lia)) as Hub.
      case_decide as Hj1.
      * rewrite Z.lor_spec, IHb, Z.shiftl_spec by lia. case_decide as Hd.
        -- rewrite Hx. replace (b - Z.of_nat (length v mod 64)) with 0 by lia.
           by rewrite !orb_true_r.
        -- assert (Z.testbit 1 (b - Z.of_nat (length v mod 64)) = false) as ->; [|by rewrite orb_false_r].
           destruct (decide (b - Z.of_nat (length v mod 64) < 0)); [by apply Z.testbit_neg_r|].
           replace 1 with (2 ^ 0) by done. apply Z.pow2_bits_false. lia.
      * rewrite IHb by done. case_decide as Hd; [|done]. exfalso. apply Hj1.
        rewrite <- Hd. rewrite Nat.mul_comm, Nat.div_add_l, Nat.div_small by lia. lia.
    + split; [done|]. intros j b Hj Hb. rewrite Hnth, IHb by done.
      case_decide as Hd; [|done]. rewrite Hx. by rewrite (nth_overflow v) by lia.
Qed.

(** The sign of a component and the disagreements of two vectors. *)
Definition sign_disagree (v w : FxpVector) (i : nat) : bool :=
  xorb (0 <? nth i v 0) (0 <? nth i w 0).

Definition sign_disagreements (v w : FxpVector) : Z :=
  Z.of_nat (length (filter (fun i => sign_disagree v w i = true) (seq 0 (length v)))).

Lemma count_filter_eq {A B} (P : A -> bool) (Q : B -> bool) (f : A -> B) l :
  (forall x, x ∈ l -> P x = Q (f x)) ->
  length (filter (fun x => P x = true) l) = length (filter (fun x => Q x = true) (f <$> l)).
Proof.
  induction l as [|x l IH]; intros Hl; [done|]. rewrite fmap_cons, !filter_cons.
  rewrite <- (Hl x) by by left. specialize (IH (fun y Hy => Hl y (list_elem_of_further _ _ _ Hy))).
  destruct (decide _); simpl; by rewrite IH.
Qed.

Lemma block_seq j : (fun b => 64 * j + Z.to_nat b)%nat <$> seqZ 0 64 = seq (64 * j) 64.
Proof.
  unfold seqZ. rewrite <- list_fmap_compose.
  replace (seq (64 * j) 64) with (Nat.add (64 * j) <$> seq 0 64).
  - apply list_fmap_ext. intros i x _. simpl. f_equal. lia.
  - rewrite fmap_add_seq. by rewrite Nat.add_0_r.
Qed.

(** Summing the blocks of 64 components. *)
Lemma hamming_blocks (a b : list Z) (p : nat -> bool) n0 acc :
  length a = length b ->
  (forall j c, (j < length a)%nat -> 0 <= c < 64 ->
     xorb (Z.testbit (nth j a 0) c) (Z.testbit (nth j b 0) c) = p (64 * (n0 + j) + Z.to_nat c)%nat) ->
  foldl (fun dist q => dist + count_ones (Z.lxor q.1 q.2)) acc (zip a b)
  = acc + Z.of_nat (length (filter (fun i => p i = true) (seq (64 * n0) (64 * length a)))).
Proof.
  revert b n0 acc. induction a as [|x a IH]; intros [|y b] n0 acc Hl Hp; try done.
  - change (length (@nil Z)) with 0%nat. rewrite Nat.mul_0_r. simpl. lia.
  - simpl foldl. rewrite (IH b (S n0)).
    + replace (64 * length (x :: a))%nat with (64 + 64 * length a)%nat by (simpl; lia).
      rewrite seq_app, filter_app, length_app.
      replace (64 * n0 + 64)%nat with (64 * S n0)%nat by lia.
      assert (count_ones (Z.lxor x y)
              = Z.of_nat (length (filter (fun i => p i = true) (seq (64 * n0) 64)))) as ->; [|lia].
      unfold count_ones. f_equal. rewrite <- block_seq. apply count_filter_eq. intros c Hc.
      apply elem_of_seqZ in Hc. rewrite Z.lxor_spec.
      replace (64 * n0)%nat with (64 * (n0 + 0))%nat by lia. apply (Hp 0%nat); [simpl; lia|lia].
    + by simplify_eq/=.
    + intros j c Hj Hc. replace (S n0 + j)%nat with (n0 + S j)%nat by lia.
      apply (Hp (S j)); [simpl; lia|done].
Qed.

Lemma nth_zeros j n : nth j (replicate n 0) 0 = 0.
Proof.
  rewrite nth_lookup. destruct (replicate n 0 !! j) as [x|] eqn:E; [|done].
  by apply lookup_replicate in E as [-> _].
Qed.

(** The Hamming distance of the codes of two vectors of equal length is the
    number of components in which exactly one is positive, whatever the dimension
    and the padding of the last word. *)
Theorem hamming_counts_sign_disagreements v w :
  length v = length w ->
  hamming_distance (encode_vector v) (encode_vector w) = sign_disagreements v w.
Proof.
  intros Hl. unfold hamming_distance.
  assert (Z.to_nat (words_for (len v)) * 64 >= length v)%nat as Hw.
  { unfold words_for, len. pose proof (Z.div_mod (Z.of_nat (length v) + 63) 64 ltac:(lia)).
    pose proof (Z.mod_pos_bound (Z.of_nat (length v) + 63) 64 ltac:(lia)). lia. }
  assert (words_for (len w) = words_for (len v)) as Hww by (unfold len; by rewrite Hl).
  set (n := Z.to_nat (words_for (len v))) in *.
  destruct (encode_bits v (replicate n 0)) as [Lv Bv]; [rewrite length_replicate; lia|].
  destruct (encode_bits w (replicate n 0)) as [Lw Bw]; [rewrite length_replicate; lia|].
  rewrite length_replicate in *.
  rewrite (hamming_blocks _ _ (sign_disagree v w) 0 0).
  - unfold encode_vector at 1. fold n. rewrite Lv. unfold sign_disagreements. rewrite Z.add_0_l. f_equal.
    replace (64 * 0)%nat with 0%nat by done.
    replace (64 * n)%nat with (length v + (64 * n - length v))%nat by lia.
    rewrite seq_app, filter_app, length_app.
    match goal with |- (_ + length ?tl)%nat = _ =>
      assert (tl = []) as ->; [|simpl; lia] end.
    apply elem_of_nil_inv. intros i [Hd Hi]%list_elem_of_filter. apply elem_of_seq in Hi.
    unfold sign_disagree in Hd. by rewrite !nth_overflow in Hd by lia.
  - rewrite !length_encode_vector. by rewrite Hww.
  - intros j c Hj Hc. rewrite length_encode_vector in Hj. fold n in Hj.
    unfold encode_vector. rewrite Hww. fold n.
    rewrite Bv, Bw by (done || lia). unfold sign_disagree. simpl.
    by rewrite !nth_zeros, Z.bits_0.
Qed.

Lemma hamming_counts_sign_disagreements_witness :
  hamming_distance (encode_vector [10; -5; 3; -1; 0; 2]) (encode_vector [-1; 5; -3; 1; 0; -2]) = 5.
Proof.
  rewrite (hamming_counts_sign_disagreements [10; -5; 3; -1; 0; 2] [-1; 5; -3; 1; 0; -2] eq_refl).
  reflexivity.
Defined.
