(* ===== verification/Event.v ===== *)
(** * Kernel events

    Models the event language of [crates/valori-kernel/src/event.rs].  Strings
    ([String]) and byte vectors are lists of bytes; a key id ([[u8; 16]]) is the
    list of its sixteen bytes. *)

From Stdlib Require Import String.
From S2P Require Import Prelude.
From S2P Require Import Core.
From S2P Require Import Fxp.

Inductive KernelEvent : Type :=
| InsertRecord (id : Z) (vector : FxpVector) (metadata : option (list Z)) (tag : Z)
| DeleteRecord (id : Z)
| CreateNode (id : Z) (kind : NodeKind) (record : option Z)
| CreateEdge (id from to : Z) (kind : EdgeKind)
| DeleteEdge (id : Z)
| SoftDeleteRecord (id : Z)
| DeleteNode (id : Z)
| InsertRecordEncrypted (id : Z) (key_id : list Z) (ciphertext : list Z)
    (metadata_ciphertext : option (list Z)) (tag : Z)
| ShredKey (key_id : list Z)
| AutoInsertRecord (vector : FxpVector) (metadata : option (list Z)) (tag : Z)
| AutoCreateNode (kind : NodeKind) (record : option Z)
| AutoCreateEdge (from to : Z) (kind : EdgeKind)
| AutoInsertRecordEncrypted (namespace_id : Z) (key_id : list Z) (ciphertext : list Z) (tag : Z)
| UpdateRecordMetadata (id : Z) (metadata : option (list Z))
| SetMeta (key value : list Z)
| AutoCreateNamespace (name : list Z)
| DropNamespace (name : list Z).

Definition event_type (e : KernelEvent) : string :=
  match e with
  | InsertRecord _ _ _ _ => "InsertRecord"
  | DeleteRecord _ => "DeleteRecord"
  | CreateNode _ _ _ => "CreateNode"
  | CreateEdge _ _ _ _ => "CreateEdge"
  | DeleteEdge _ => "DeleteEdge"
  | SoftDeleteRecord _ => "SoftDeleteRecord"
  | DeleteNode _ => "DeleteNode"
  | InsertRecordEncrypted _ _ _ _ _ => "InsertRecordEncrypted"
  | ShredKey _ => "ShredKey"
  | AutoInsertRecord _ _ _ => "AutoInsertRecord"
  | AutoCreateNode _ _ => "AutoCreateNode"
  | AutoCreateEdge _ _ _ => "AutoCreateEdge"
  | AutoInsertRecordEncrypted _ _ _ _ => "AutoInsertRecordEncrypted"
  | UpdateRecordMetadata _ _ => "UpdateRecordMetadata"
  | SetMeta _ _ => "SetMeta"
  | AutoCreateNamespace _ => "AutoCreateNamespace"
  | DropNamespace _ => "DropNamespace"
  end%string.
