(* ===== verification/Kernel.v ===== *)
(** * The kernel state machine

    Models [crates/valori-kernel/src/state/kernel.rs]: [KernelState], its read
    and search methods, and [apply_event_ns], the only write path, one
    definition per arm.  The [std] feature is on (crypto-shredding is compiled
    in).  [HashMap] is a [gmap]; [BTreeMap] is an association list kept sorted by
    key, because the snapshot writes it in that order. *)

From S2P Require Import Prelude.
From S2P Require Import Core.
From S2P Require Import Fxp.
From S2P Require Import TopK.
From S2P Require Import Slab.
From S2P Require Import Records.
From S2P Require Import Graph.
From S2P Require Import Index.
From S2P Require Import Event.

(** ** State *)
Record KernelState : Type := mkKernel {
  ks_dim : option Z;
  ks_version : Z;
  ks_records : RecordPool;
  ks_nodes : NodePool;
  ks_edges : EdgePool;
  ks_index : ActiveIndex;
  ks_record_heads : list Z;
  ks_keys : gmap (list Z) (list Z);
  ks_node_heads : list Z;
  ks_meta : list (list Z * list Z);
}.

Definition ks_set_dim v s := mkKernel v (ks_version s) (ks_records s) (ks_nodes s) (ks_edges s)
  (ks_index s) (ks_record_heads s) (ks_keys s) (ks_node_heads s) (ks_meta s).
Definition ks_set_version v s := mkKernel (ks_dim s) v (ks_records s) (ks_nodes s) (ks_edges s)
  (ks_index s) (ks_record_heads s) (ks_keys s) (ks_node_heads s) (ks_meta s).
Definition ks_set_records v s := mkKernel (ks_dim s) (ks_version s) v (ks_nodes s) (ks_edges s)
  (ks_index s) (ks_record_heads s) (ks_keys s) (ks_node_heads s) (ks_meta s).
Definition ks_set_graph (g : Graph) s := mkKernel (ks_dim s) (ks_version s) (ks_records s) g.1 g.2
  (ks_index s) (ks_record_heads s) (ks_keys s) (ks_node_heads s) (ks_meta s).
Definition ks_set_index v s := mkKernel (ks_dim s) (ks_version s) (ks_records s) (ks_nodes s)
  (ks_edges s) v (ks_record_heads s) (ks_keys s) (ks_node_heads s) (ks_meta s).
Definition ks_set_keys v s := mkKernel (ks_dim s) (ks_version s) (ks_records s) (ks_nodes s)
  (ks_edges s) (ks_index s) (ks_record_heads s) v (ks_node_heads s) (ks_meta s).
Definition ks_set_meta v s := mkKernel (ks_dim s) (ks_version s) (ks_records s) (ks_nodes s)
  (ks_edges s) (ks_index s) (ks_record_heads s) (ks_keys s) (ks_node_heads s) v.
(** The record heads with the record pool, the node heads with the node pool. *)
Definition ks_set_record_list (hs : linked Record_) s := mkKernel (ks_dim s) (ks_version s) hs.2
  (ks_nodes s) (ks_edges s) (ks_index s) hs.1 (ks_keys s) (ks_node_heads s) (ks_meta s).
Definition ks_set_node_list (hs : linked GraphNode) s := mkKernel (ks_dim s) (ks_version s)
  (ks_records s) hs.2 (ks_edges s) (ks_index s) (ks_record_heads s) (ks_keys s) hs.1 (ks_meta s).

Definition ks_record_list (s : KernelState) : linked Record_ := (ks_record_heads s, ks_records s).
Definition ks_node_list (s : KernelState) : linked GraphNode := (ks_node_heads s, ks_nodes s).
Definition ks_graph (s : KernelState) : Graph := (ks_nodes s, ks_edges s).

Abbreviation KM := (M KernelError KernelState).

Definition KernelState_new : KernelState :=
  mkKernel None 0 [] [] [] BruteForce (replicate (Z.to_nat MAX_NAMESPACES) NS_LIST_NIL) ∅
    (replicate (Z.to_nat MAX_NAMESPACES) NS_LIST_NIL) [].

Definition KernelState_with_dim (dim : Z) : KernelState :=
  if 0 <? dim then ks_set_dim (Some dim) KernelState_new else KernelState_new.

Definition set_index_kind (variant : IndexVariant) (s : KernelState) : KernelState :=
  match index_variant (ks_index s), variant with
  | VBruteForce, VBruteForce => s
  | VBinaryQuantization, VBinaryQuantization => s
  | _, VBruteForce => ks_set_index (rebuild (ks_records s) BruteForce) s
  | _, VBinaryQuantization => ks_set_index (rebuild (ks_records s) (BinaryQuantization bq_new)) s
  end.

(** [BTreeMap::insert]: keys compare as byte strings. *)
Fixpoint bytes_cmp (a b : list Z) : comparison :=
  match a, b with
  | [], [] => Eq
  | [], _ => Lt
  | _, [] => Gt
  | x :: a, y :: b => match x ?= y with Eq => bytes_cmp a b | c => c end
  end.

Fixpoint btree_insert (k v : list Z) (m : list (list Z * list Z)) : list (list Z * list Z) :=
  match m with
  | [] => [(k, v)]
  | (k', v') :: m' =>
      match bytes_cmp k k' with
      | Lt => (k, v) :: m
      | Eq => (k, v) :: m'
      | Gt => (k', v') :: btree_insert k v m'
      end
  end.

Fixpoint btree_get (k : list Z) (m : list (list Z * list Z)) : option (list Z) :=
  match m with
  | [] => None
  | (k', v') :: m' => match bytes_cmp k k' with Eq => Some v' | _ => btree_get k m' end
  end.

(** ** Read methods *)
Definition record_count (s : KernelState) : Z := len (rp_iter (ks_records s)).
Definition total_record_slots (s : KernelState) : Z := rp_total_slots (ks_records s).
Definition get_record (s : KernelState) (id : Z) : option Record_ := rp_get (ks_records s) id.
Definition get_node (s : KernelState) (id : Z) : option GraphNode := slab_get (ks_nodes s) id.
Definition get_edge (s : KernelState) (id : Z) : option GraphEdge := slab_get (ks_edges s) id.

Definition outgoing_edges (s : KernelState) (node_id : Z) : option (outcome KernelError (list GraphEdge)) :=
  (fun n => iter_edges Out (ks_edges s) (nd_first_out_edge n)) <$> get_node s node_id.
Definition incoming_edges (s : KernelState) (node_id : Z) : option (outcome KernelError (list GraphEdge)) :=
  (fun n => iter_edges In (ks_edges s) (nd_first_in_edge n)) <$> get_node s node_id.

Definition iter_nodes (s : KernelState) : list GraphNode := omap id (ks_nodes s).
Definition iter_records_in_ns (s : KernelState) (namespace_id : Z) : list Record_ :=
  filter (fun r => rec_namespace_id r = namespace_id) (rp_iter (ks_records s)).

Definition next_record_id (s : KernelState) : Z := wrap_u32 (len (ks_records s)).
Definition node_count (s : KernelState) : Z := live_count (ks_nodes s).
Definition next_node_id (s : KernelState) : Z := wrap_u32 (len (ks_nodes s)).
Definition edge_count (s : KernelState) : Z := live_count (ks_edges s).
Definition next_edge_id (s : KernelState) : Z := wrap_u32 (len (ks_edges s)).
Definition is_edge_active (s : KernelState) (id : Z) : bool := is_allocated (ks_edges s) id.

Definition search_l2 (path : SimdPath) (s : KernelState) (query : FxpVector)
    (results : list SearchResult) (filter : option Z) : list SearchResult * Z :=
  index_search path (ks_index s) (ks_records s) query results filter.

(** The cursor loop of [search_l2_ns].  A walk of more steps than there are
    slots has met a record twice and never ends. *)
Fixpoint ns_walk (path : SimdPath) (pool : RecordPool) (query : FxpVector) (k : nat) (fuel : nat)
    (st : list SearchResult * nat) (cursor : Z) : outcome KernelError (list SearchResult * nat) :=
  if cursor =? NS_LIST_NIL then Ok st
  else
    match slab_get pool cursor with
    | None => Ok st
    | Some rec =>
        match fuel with
        | O => Hang
        | S fuel =>
            let st := if is_active rec
                      then offer_shift k st (mkResult (fxp_l2_sq path (rec_vector rec) query) cursor)
                      else st in
            ns_walk path pool query k fuel st (rec_next_in_ns rec)
        end
    end.

Definition search_l2_ns (path : SimdPath) (s : KernelState) (query : FxpVector)
    (results : list SearchResult) (namespace_id : Z)
    : outcome KernelError (list SearchResult * Z) :=
  if MAX_NAMESPACES <=? namespace_id then Ok (results, 0)
  else
    let k := length results in
    if Nat.eqb k 0 then Ok (results, 0)
    else
      do* cursor := unwrap (vec_get (ks_record_heads s) namespace_id) in
      do* st := ns_walk path (ks_records s) query k (S (length (ks_records s)))
                  (replicate k sentinel, 0%nat) cursor in
      Ok (st.1, Z.of_nat st.2).

(** ** The arms of [apply_event_ns]

    [as_linked] runs a list operation on the heads and the pool it threads. *)
Definition as_linked {A} (proj : KernelState -> linked A) (upd : linked A -> KernelState -> KernelState)
    (op : linked A -> outcome KernelError (linked A)) : KM unit :=
  fun s =>
    match op (proj s) with
    | Ok hs => (upd hs s, Ok tt)
    | Err e => (s, Err e)
    | Panic => (s, Panic)
    | Hang => (s, Hang)
    end.

Definition with_records {A} (m : M KernelError RecordPool A) : KM A := zoom ks_records ks_set_records m.
Definition with_nodes {A} (m : M KernelError NodePool A) : KM A :=
  zoom ks_nodes (fun n s => ks_set_graph (n, ks_edges s) s) m.
Definition with_graph {A} (m : M KernelError Graph A) : KM A := zoom ks_graph ks_set_graph m.

Definition link_record (ns id : Z) : KM unit :=
  as_linked ks_record_list ks_set_record_list (push_front ns id).
Definition link_node (ns id : Z) : KM unit :=
  as_linked ks_node_list ks_set_node_list (push_front ns id).
Definition unlink_record_from_ns (ns prev next : Z) : KM unit :=
  as_linked ks_record_list ks_set_record_list (unlink ns prev next).
Definition unlink_node_from_ns (ns prev next : Z) : KM unit :=
  as_linked ks_node_list ks_set_node_list (unlink ns prev next).

Definition index_insert (id : Z) (v : FxpVector) : KM unit :=
  smodify (fun s => ks_set_index (on_insert id v (ks_index s)) s).
Definition index_delete (id : Z) : KM unit :=
  smodify (fun s => ks_set_index (on_delete id (ks_index s)) s).

(** [if ns >= MAX_NAMESPACES { return Err(InvalidOperation) }]. *)
Definition check_ns (ns : Z) : KM unit := sguard (MAX_NAMESPACES <=? ns) InvalidOperation.

(** The dimension lock: the first insert sets [dim]. *)
Definition check_dim (d : Z) : KM unit :=
  let* s := sget in
  match ks_dim s with
  | Some dim => sguard (negb (d =? dim)) (DimensionMismatch dim d)
  | None => smodify (ks_set_dim (Some d))
  end.

Definition metadata_too_large (metadata : option (list Z)) : bool :=
  match metadata with Some m => MAX_METADATA_SIZE <? len m | None => false end.

(** The common tail of [InsertRecord] and [AutoInsertRecord]. *)
Definition insert_checked (vector : FxpVector) (metadata : option (list Z)) (tag ns : Z) : KM unit :=
  check_dim (len vector) ;;;
  sguard (metadata_too_large metadata) MetadataTooLarge ;;;
  let* allocated_id := with_records (rp_insert vector metadata tag ns) in
  link_record ns allocated_id ;;;
  index_insert allocated_id vector.

Definition arm_insert_record (id : Z) (vector : FxpVector) (metadata : option (list Z)) (tag ns : Z)
    : KM unit :=
  check_ns ns ;;;
  let* s := sget in
  sguard (negb (rp_next_id (ks_records s) =? id)) InvalidOperation ;;;
  insert_checked vector metadata tag ns.

Definition arm_auto_insert_record (vector : FxpVector) (metadata : option (list Z)) (tag ns : Z)
    : KM unit :=
  check_ns ns ;;;
  insert_checked vector metadata tag ns.

(** Reading the pointers of a record before it is unlinked. *)
Definition unlink_record (id : Z) : KM unit :=
  let* s := sget in
  let* r := slift (ok_or (rp_get (ks_records s) id) NotFound) in
  unlink_record_from_ns (rec_namespace_id r) (rec_prev_in_ns r) (rec_next_in_ns r).

Definition arm_delete_record (id : Z) : KM unit :=
  unlink_record id ;;; with_records (rp_delete id) ;;; index_delete id.

Definition arm_soft_delete_record (id : Z) : KM unit :=
  unlink_record id ;;; with_records (rp_soft_delete id) ;;; index_delete id.

(** The record a node refers to must exist in the same namespace. *)
Definition check_node_record (record : option Z) (ns : Z) : KM unit :=
  match record with
  | None => sret tt
  | Some rid =>
      let* s := sget in
      let* rec := slift (ok_or (rp_get (ks_records s) rid) NotFound) in
      sguard (negb (rec_namespace_id rec =? ns)) InvalidOperation
  end.

Definition insert_node (id : Z) (kind : NodeKind) (record : option Z) (ns : Z) : KM unit :=
  check_node_record record ns ;;;
  let* allocated := with_nodes (np_insert (GraphNode_new id kind record ns)) in
  link_node ns allocated.

Definition arm_create_node (id : Z) (kind : NodeKind) (record : option Z) (ns : Z) : KM unit :=
  check_ns ns ;;;
  let* s := sget in
  sguard (negb (next_node_id s =? id)) InvalidOperation ;;;
  insert_node id kind record ns.

Definition arm_auto_create_node (kind : NodeKind) (record : option Z) (ns : Z) : KM unit :=
  let* s := sget in
  check_ns ns ;;;
  insert_node (next_node_id s) kind record ns.

Definition insert_edge (from to : Z) (kind : EdgeKind) : KM unit :=
  let* s := sget in
  let* nf := slift (ok_or (slab_get (ks_nodes s) from) NotFound) in
  let* nt := slift (ok_or (slab_get (ks_nodes s) to) NotFound) in
  sguard (negb (nd_namespace_id nf =? nd_namespace_id nt)) InvalidOperation ;;;
  let* _ := with_graph (add_edge kind from to) in
  sret tt.

Definition arm_create_edge (id from to : Z) (kind : EdgeKind) : KM unit :=
  let* s := sget in
  sguard (negb (next_edge_id s =? id)) InvalidOperation ;;;
  insert_edge from to kind.

Definition arm_delete_edge (id : Z) : KM unit := with_graph (delete_edge id).

(** [_delete_node]: unlink, collect the incident edges, delete them, free the slot. *)
Definition arm_delete_node (node_id : Z) : KM unit :=
  let* s := sget in
  let* n := slift (ok_or (slab_get (ks_nodes s) node_id) NotFound) in
  unlink_node_from_ns (nd_namespace_id n) (nd_prev_in_ns n) (nd_next_in_ns n) ;;;
  let* s := sget in
  let first d := match slab_get (ks_nodes s) node_id with Some n => first_edge d n | None => None end in
  let* out_edges := slift (collect_ids Out (ks_edges s) (S (length (ks_edges s))) (first Out)) in
  let* in_edges := slift (collect_ids In (ks_edges s) (S (length (ks_edges s))) (first In)) in
  with_graph (delete_edges (out_edges ++ in_edges)) ;;;
  with_nodes (pool_delete node_id).

(** The encrypted insert stores a zero vector and the ciphertext as metadata. *)
Definition arm_insert_record_encrypted (id : Z) (key_id ciphertext : list Z) (tag ns : Z) : KM unit :=
  check_ns ns ;;;
  let* s := sget in
  sguard (negb (rp_next_id (ks_records s) =? id)) InvalidOperation ;;;
  sguard (MAX_METADATA_SIZE + 28 <? len ciphertext) MetadataTooLarge ;;;
  let* dim := slift (ok_or (ks_dim s) InvalidOperation) in
  let* allocated_id :=
    with_records (rp_insert (new_zeros dim) (Some ciphertext) tag ns) in
  with_records (rp_mark_encrypted allocated_id) ;;;
  smodify (fun s => ks_set_keys
    (<[key_id := default [] (ks_keys s !! key_id) ++ [allocated_id]]> (ks_keys s)) s) ;;;
  link_record ns allocated_id.

(** [let _ = f()?]-less: the error is dropped, an abort is not. *)
Definition ignore_err {A} (m : KM A) : KM unit :=
  fun s => match m s with
           | (s', Ok _) | (s', Err _) => (s', Ok tt)
           | (s', Panic) => (s', Panic)
           | (s', Hang) => (s', Hang)
           end.

Definition apply_shred_key (key_id : list Z) : KM unit :=
  let* s := sget in
  let records := default [] (ks_keys s !! key_id) in
  smodify (fun s => ks_set_keys (delete key_id (ks_keys s)) s) ;;;
  sfor records (fun rid => ignore_err (with_records (rp_mark_shredded rid))).

(** The record loop of [DropNamespace]: it empties the slots it visits, so it
    meets an empty slot after at most as many steps as there are slots. *)
Fixpoint drop_records (fuel : nat) (cursor : Z) : KM unit :=
  if cursor =? NS_LIST_NIL then sret tt
  else
    match fuel with
    | O => fun s => (s, Hang)
    | S fuel =>
        let* s := sget in
        let next := match slab_get (ks_records s) cursor with
                    | Some r => rec_next_in_ns r
                    | None => NS_LIST_NIL
                    end in
        (if in_range (ks_records s) cursor
         then smodify (fun s => ks_set_records (slab_clear (ks_records s) cursor) s)
         else spanic) ;;;
        index_delete cursor ;;;
        drop_records fuel next
    end.

(** The node loop of [DropNamespace] only collects the ids. *)
Fixpoint collect_nodes (nodes : NodePool) (fuel : nat) (cursor : Z) : outcome KernelError (list Z) :=
  if cursor =? NS_LIST_NIL then Ok []
  else
    match fuel with
    | O => Hang
    | S fuel =>
        let next := match slab_get nodes cursor with
                    | Some n => nd_next_in_ns n
                    | None => NS_LIST_NIL
                    end in
        do* rest := collect_nodes nodes fuel next in Ok (cursor :: rest)
    end.

Definition set_record_head (ns v : Z) : KM unit :=
  smodify (fun s => ks_set_record_list (vec_set (ks_record_heads s) ns v, ks_records s) s).
Definition set_node_head (ns v : Z) : KM unit :=
  smodify (fun s => ks_set_node_list (vec_set (ks_node_heads s) ns v, ks_nodes s) s).

Definition arm_drop_namespace (ns : Z) : KM unit :=
  sguard (ns =? 0) InvalidOperation ;;;
  check_ns ns ;;;
  let* s := sget in
  let* cursor := slift (unwrap (vec_get (ks_record_heads s) ns)) in
  drop_records (S (S (length (ks_records s)))) cursor ;;;
  set_record_head ns NS_LIST_NIL ;;;
  let* s := sget in
  let* node_cursor := slift (unwrap (vec_get (ks_node_heads s) ns)) in
  let* node_ids := slift (collect_nodes (ks_nodes s) (S (length (ks_nodes s))) node_cursor) in
  sfor node_ids (fun nid =>
    let* s := sget in
    if is_allocated (ks_nodes s) nid then ignore_err (arm_delete_node nid) else sret tt) ;;;
  set_node_head ns NS_LIST_NIL.

Definition bump_version : KM unit :=
  let* s := sget in
  let* v := slift (Version_next (ks_version s)) in
  smodify (ks_set_version v).

(** ** apply_event_ns *)
Definition apply_event_ns (evt : KernelEvent) (namespace_id : Z) : KM unit :=
  match evt with
  | InsertRecord id vector metadata tag => arm_insert_record id vector metadata tag namespace_id
  | DeleteRecord id => arm_delete_record id
  | SoftDeleteRecord id => arm_soft_delete_record id
  | CreateNode id kind record => arm_create_node id kind record namespace_id
  | CreateEdge id from to kind => arm_create_edge id from to kind
  | DeleteNode id => arm_delete_node id
  | DeleteEdge id => arm_delete_edge id
  | AutoInsertRecord vector metadata tag => arm_auto_insert_record vector metadata tag namespace_id
  | AutoCreateNode kind record => arm_auto_create_node kind record namespace_id
  | AutoCreateEdge from to kind => insert_edge from to kind
  | AutoInsertRecordEncrypted evt_ns key_id ciphertext tag =>
      let* s := sget in
      arm_insert_record_encrypted (next_record_id s) key_id ciphertext tag evt_ns
  | UpdateRecordMetadata id metadata => with_records (rp_update_metadata id metadata)
  | SetMeta key value => smodify (fun s => ks_set_meta (btree_insert key value (ks_meta s)) s)
  | AutoCreateNamespace _ => check_ns namespace_id
  | DropNamespace _ => arm_drop_namespace namespace_id
  | InsertRecordEncrypted id key_id ciphertext _ tag =>
      arm_insert_record_encrypted id key_id ciphertext tag namespace_id
  | ShredKey key_id => apply_shred_key key_id
  end ;;;
  bump_version.

Definition apply_event (evt : KernelEvent) : KM unit := apply_event_ns evt DEFAULT_NS.

Definition create_node (kind : NodeKind) (record : option Z) : KM Z :=
  let* s := sget in
  let id := wrap_u32 (len (ks_nodes s)) in
  apply_event_ns (CreateNode id kind record) DEFAULT_NS ;;; sret id.

Definition create_edge (from to : Z) (kind : EdgeKind) : KM Z :=
  let* s := sget in
  let id := wrap_u32 (len (ks_edges s)) in
  apply_event_ns (CreateEdge id from to kind) DEFAULT_NS ;;; sret id.

(** ** The invariant checker *)
Definition check_node (s : KernelState) (i : Z) (node : GraphNode) : outcome KernelError unit :=
  if negb (nd_id node =? i) then Err InvalidOperation
  else
    do* _ := match nd_record node with
             | Some rid => do* _ := ok_or (rp_get (ks_records s) rid) NotFound in Ok tt
             | None => Ok tt
             end in
    match nd_first_out_edge node with
    | Some eid =>
        do* edge := ok_or (slab_get (ks_edges s) eid) NotFound in
        if negb (ed_from edge =? nd_id node) then Err InvalidOperation else Ok tt
    | None => Ok tt
    end.

Definition check_edge (s : KernelState) (i : Z) (edge : GraphEdge) : outcome KernelError unit :=
  if negb (ed_id edge =? i) then Err InvalidOperation
  else if negb (is_allocated (ks_nodes s) (ed_from edge)) || negb (is_allocated (ks_nodes s) (ed_to edge))
  then Err NotFound
  else match ed_next_out edge with
       | Some next_id =>
           do* next_edge := ok_or (slab_get (ks_edges s) next_id) NotFound in
           if negb (ed_from next_edge =? ed_from edge) then Err InvalidOperation else Ok tt
       | None => Ok tt
       end.

(** [for (i, slot) in pool.iter().enumerate() { if let Some(x) = slot { check? } }]. *)
Fixpoint check_slots {A} (check : Z -> A -> outcome KernelError unit) (i : Z) (p : slab A)
    : outcome KernelError unit :=
  match p with
  | [] => Ok tt
  | None :: p => check_slots check (i + 1) p
  | Some x :: p => do* _ := check i x in check_slots check (i + 1) p
  end.

Definition check_invariants (s : KernelState) : outcome KernelError unit :=
  do* _ := check_slots (check_node s) 0 (ks_nodes s) in
  check_slots (check_edge s) 0 (ks_edges s).

(** ** Rebuilding the namespace lists

    The slots are visited from the last to the first and pushed in front. *)
Fixpoint relink_from {A} `{NsLinked A} (n : nat) (hs : linked A) : outcome KernelError (linked A) :=
  match n with
  | O => Ok hs
  | S idx =>
      do* hs' := match slab_get hs.2 (Z.of_nat idx) with
                 | Some x => push_front (Z.min (ns_of x) (MAX_NAMESPACES - 1)) (wrap_u32 (Z.of_nat idx)) hs
                 | None => Ok hs
                 end in
      relink_from idx hs'
  end.

Definition reset_heads (heads : list Z) : list Z := (fun _ => NS_LIST_NIL) <$> heads.

Definition rebuild_namespace_lists : KM unit :=
  smodify (fun s => ks_set_node_list (reset_heads (ks_node_heads s), ks_nodes s)
                      (ks_set_record_list (reset_heads (ks_record_heads s), ks_records s) s)) ;;;
  as_linked ks_record_list ks_set_record_list
    (fun hs => relink_from (length hs.2) hs) ;;;
  as_linked ks_node_list ks_set_node_list
    (fun hs => relink_from (length hs.2) hs).
