(* ===== verification/KernelWf.v ===== *)
(** * The kernel invariant

    What every reachable [KernelState] satisfies, split along the two halves of
    the state: [rec_wf] for the records, their namespace lists, the dimension
    lock and the search index; [net_wf] for the nodes, their namespace lists
    and the adjacency lists.  The lemmas of this file are the transitions of
    the two halves; [KernelProofs] assembles them into the event arms. *)

From S2P Require Import Prelude.
From S2P Require Import Core.
From S2P Require Import Fxp.
From S2P Require Import TopK.
From S2P Require Import Slab.
From S2P Require Import Records.
From S2P Require Import Graph.
From S2P Require Import GraphProofs.
From S2P Require Import Index.
From S2P Require Import Event.
From S2P Require Import Kernel.

(** ** Records *)

(** The index promises [bq_ok] and agrees with the dimension lock. *)
Definition index_ok (dim : option Z) (pool : RecordPool) (ix : ActiveIndex) : Prop :=
  match ix with
  | BruteForce => True
  | BinaryQuantization i => bq_ok i pool /\ (bq_dim i = 0 \/ dim = Some (bq_dim i))
  end.

Record rec_wf (dim : option Z) (heads : list Z) (pool : RecordPool) (ix : ActiveIndex) : Prop := {
  rw_list : ns_wf not_soft_deleted heads pool;
  rw_ids : ids_ok pool;
  rw_dim : forall i r, slab_get pool i = Some r -> dim = Some (len (rec_vector r));
  rw_pos : forall d, dim = Some d -> 0 <= d;
  rw_index : index_ok dim pool ix;
}.

Lemma same_payload_record (s s' : RecordPool) i r' :
  same_payload s s' -> slab_get s' i = Some r' ->
  exists r, slab_get s i = Some r /\ payload r' = payload r.
Proof. apply same_payload_get. Qed.

Lemma is_searchable_payload (x y : Record_) : payload x = payload y -> is_searchable x = is_searchable y.
Proof. intros (_ & _ & _ & _ & Hf & _)%payload_eq. unfold is_searchable. by rewrite Hf. Qed.

(** Everything but the list depends on the payload only. *)
Lemma ids_ok_payload s s' : same_payload s s' -> ids_ok s -> ids_ok s'.
Proof.
  intros Hp Hi i r' Hr'. destruct (same_payload_record _ _ _ _ Hp Hr') as (r & Hr & Hpl).
  apply payload_eq in Hpl as (-> & _). by apply Hi.
Qed.

Lemma index_ok_payload dim s s' ix : same_payload s s' -> index_ok dim s ix -> index_ok dim s' ix.
Proof.
  intros Hp. destruct ix as [|i]; [done|]. intros [Hb Hd]. split; [|done].
  eapply bq_ok_weaken; [|exact Hb]. intros j r' Hr' Hs'.
  destruct (same_payload_record _ _ _ _ Hp Hr') as (r & Hr & Hpl). exists r. split; [done|].
  split; [by rewrite <- (is_searchable_payload _ _ Hpl)|]. by apply payload_eq in Hpl as (_ & ? & _).
Qed.

Lemma rec_wf_empty : rec_wf None (replicate (Z.to_nat MAX_NAMESPACES) NS_LIST_NIL) [] BruteForce.
Proof.
  assert (forall i (r : Record_), slab_get [] i = Some r -> False) as Hno
    by (intros i r Hr; apply slab_get_lt in Hr; len_lia).
  split; [apply ns_wf_empty|..]; try done.
  - intros i r Hr. by destruct (Hno _ _ Hr).
  - intros i r Hr. by destruct (Hno _ _ Hr).
Qed.

(** Locking the dimension of an empty store. *)
Lemma rec_wf_set_dim heads pool ix d :
  rec_wf None heads pool ix -> 0 <= d -> rec_wf (Some d) heads pool ix.
Proof.
  intros [W1 W2 W3 W4 W5] Hd. split; try done.
  - intros i r Hr. by specialize (W3 i r Hr).
  - intros d' [= <-]. done.
  - destruct ix as [|i]; [done|]. destruct W5 as [? [?|?]]; [|done]. split; [done|]. by left.
Qed.

(** Appending a record and linking it in front of its namespace list. *)
Lemma rec_wf_insert E d heads pool ix r :
  rec_wf (Some d) heads pool ix -> len pool < NS_LIST_NIL ->
  0 <= rec_namespace_id r < MAX_NAMESPACES -> not_soft_deleted r = true ->
  rec_id r = len pool -> len (rec_vector r) = d ->
  exists pool', push_front (E := E) (rec_namespace_id r) (len pool) (heads, pool ++ [Some r])
                = Ok (vec_set heads (rec_namespace_id r) (len pool), pool')
    /\ same_payload (pool ++ [Some r]) pool'
    /\ others_kept (rec_namespace_id r) pool pool'
    /\ rec_wf (Some d) (vec_set heads (rec_namespace_id r) (len pool)) pool'
         (on_insert (len pool) (rec_vector r) ix)
    /\ (is_searchable r = false ->
        rec_wf (Some d) (vec_set heads (rec_namespace_id r) (len pool)) pool' ix).
Proof.
  intros [W1 W2 W3 W4 W5] Hroom Hns Hlive Hid Hv.
  destruct (ns_wf_insert not_soft_deleted not_soft_deleted_payload E heads pool r W1 Hroom Hns Hlive)
    as (pool' & Hpf & Hwf & Hpl & Hoth).
  exists pool'. split; [done|]. split; [done|]. split; [done|].
  assert (ids_ok pool') as Hids.
  { apply (ids_ok_payload _ _ Hpl). intros i x. rewrite slab_get_push.
    case_decide; [|apply W2]. intros [= <-]. congruence. }
  assert (forall i x, slab_get pool' i = Some x -> Some d = Some (len (rec_vector x))) as Hdim.
  { intros i x Hx. destruct (same_payload_record _ _ _ _ Hpl Hx) as (x0 & Hx0 & Hpx).
    apply payload_eq in Hpx as (_ & -> & _). rewrite slab_get_push in Hx0.
    case_decide; [simplify_eq; done|by eapply W3]. }
  split; [split; try done|intros Hns'; split; try done].
  - apply (index_ok_payload _ _ _ _ Hpl). destruct ix as [|i]; [done|]. destruct W5 as [Hb Hbd].
    destruct (bq_ok_insert i pool r d Hb Hv) as [Hb' Hd']; [naive_solver|]. split; [done|].
    destruct Hd' as [?|Hd']; [by left|right; by rewrite Hd'].
  - apply (index_ok_payload _ _ _ _ Hpl). destruct ix as [|i]; [done|]. destruct W5 as [Hb Hbd].
    split; [|done]. eapply bq_ok_weaken; [|exact Hb]. intros j x Hx Hsx.
    rewrite slab_get_push in Hx. case_decide; [simplify_eq; congruence|]. eauto.
Qed.

(** Taking a record out of its list and then emptying or tombstoning its slot. *)
Lemma rec_wf_remove E dim heads pool ix id r :
  rec_wf dim heads pool ix -> slab_get pool id = Some r -> not_soft_deleted r = true ->
  exists heads' pool',
    unlink (E := E) (rec_namespace_id r) (rec_prev_in_ns r) (rec_next_in_ns r) (heads, pool)
    = Ok (heads', pool')
    /\ same_payload pool pool' /\ slab_get pool' id = Some r
    /\ others_kept (rec_namespace_id r) pool pool'
    /\ rec_wf dim heads' (slab_clear pool' id) (on_delete id ix)
    /\ forall f, (forall x, rec_id (f x) = rec_id x /\ rec_vector (f x) = rec_vector x
                   /\ rec_namespace_id (f x) = rec_namespace_id x /\ not_soft_deleted (f x) = false
                   /\ is_searchable (f x) = false) ->
         rec_wf dim heads' (slab_alter f pool' id) (on_delete id ix).
Proof.
  intros [W1 W2 W3 W4 W5] Hr Hm. pose proof (slab_get_lt _ _ _ Hr) as Hrange.
  destruct (ns_wf_remove not_soft_deleted not_soft_deleted_payload E heads pool id r W1 Hr Hm)
    as (heads' & pool' & Hul & Hpl & Hid & Hoth & Hwf).
  exists heads', pool'. split; [done|]. split; [done|]. split; [done|]. split; [done|].
  pose proof (ids_ok_payload _ _ Hpl W2) as Hids.
  pose proof (index_ok_payload _ _ _ _ Hpl W5) as Hix.
  assert (forall i x, slab_get pool' i = Some x -> dim = Some (len (rec_vector x))) as Hdim.
  { intros i x Hx. destruct (same_payload_record _ _ _ _ Hpl Hx) as (x0 & Hx0 & Hpx).
    apply payload_eq in Hpx as (_ & -> & _). by eapply W3. }
  assert (forall pool'', (forall i x, slab_get pool'' i = Some x -> is_searchable x = true ->
                            slab_get pool' i = Some x) ->
            (forall x, slab_get pool'' id = Some x -> is_searchable x = false) ->
            index_ok dim pool'' (on_delete id ix)) as Hindex.
  { intros pool'' Hsub Hnos. destruct ix as [|i]; [done|]. destruct Hix as [Hb Hbd].
    destruct (bq_ok_delete i pool'' id) as [Hb' Hd']; [|lia|done|split; [done|by rewrite Hd']].
    eapply bq_ok_weaken; [|exact Hb]. eauto. }
  split.
  - split; [| | |done|].
    + apply Hwf; [apply len_slab_clear| |].
      * intros i Hne. rewrite slab_get_clear. by rewrite decide_False by done.
      * intros x. rewrite slab_get_clear. by rewrite decide_True.
    + intros i x. rewrite slab_get_clear. case_decide; [done|apply Hids].
    + intros i x. rewrite slab_get_clear. case_decide; [done|apply Hdim].
    + apply Hindex; [intros i x|intros x]; rewrite slab_get_clear; by case_decide.
  - intros f Hf.
    split; [| | |done|].
    + apply Hwf; [apply len_slab_alter| |].
      * intros i Hne. by apply slab_get_alter_ne.
      * intros x (y & Hy & ->)%slab_alter_inv. rewrite decide_True by done. simplify_eq. split; apply Hf.
    + intros i x (y & Hy & ->)%slab_alter_inv. specialize (Hids i y Hy). case_decide; [|done].
      rewrite <- Hids. apply Hf.
    + intros i x (y & Hy & ->)%slab_alter_inv. specialize (Hdim i y Hy). case_decide; [|done].
      rewrite Hdim. do 2 f_equal. symmetry. apply Hf.
    + apply Hindex.
      * intros i x (y & Hy & ->)%slab_alter_inv. case_decide; [|done]. intros Hs.
        destruct (Hf y) as (_ & _ & _ & _ & Hn). congruence.
      * intros x (y & Hy & ->)%slab_alter_inv. rewrite decide_True by done. apply Hf.
Qed.

(** In-place updates that keep the identity, the vector and the links, and do
    not make a record searchable. *)
Lemma rec_wf_alter dim heads pool ix id f :
  (forall x, rec_id (f x) = rec_id x /\ rec_vector (f x) = rec_vector x
     /\ rec_namespace_id (f x) = rec_namespace_id x /\ rec_next_in_ns (f x) = rec_next_in_ns x
     /\ rec_prev_in_ns (f x) = rec_prev_in_ns x /\ not_soft_deleted (f x) = not_soft_deleted x
     /\ (is_searchable (f x) = true -> is_searchable x = true)) ->
  rec_wf dim heads pool ix -> rec_wf dim heads (slab_alter f pool id) ix.
Proof.
  intros Hf [W1 W2 W3 W4 W5].
  split; [| | |done|].
  - apply ns_wf_alter; [|done]. intros x. destruct (Hf x) as (_ & _ & H1 & H2 & H3 & H4 & _).
    unfold link_view. simpl. congruence.
  - intros i x (y & Hy & ->)%slab_alter_inv. specialize (W2 i y Hy). case_decide; [|done].
    rewrite <- W2. apply Hf.
  - intros i x (y & Hy & ->)%slab_alter_inv. specialize (W3 i y Hy). case_decide; [|done].
    rewrite W3. do 2 f_equal. symmetry. apply Hf.
  - destruct ix as [|ix]; [done|]. destruct W5 as [Hb Hbd]. split; [|done].
    eapply bq_ok_weaken; [|exact Hb]. intros i x (y & Hy & ->)%slab_alter_inv Hs. exists y. split; [done|].
    case_decide; [|done]. split; [by apply (Hf y)|apply Hf].
Qed.

(** Erasing one namespace list. *)
Lemma on_delete_all_ok dim pool l ix :
  index_ok dim pool ix -> (forall i, i ∈ l -> 0 <= i /\ slab_get pool i = None) ->
  index_ok dim pool (foldl (fun ix i => on_delete i ix) ix l).
Proof.
  revert ix. induction l as [|x l IH]; intros ix Hix Hl; simpl; [done|].
  apply IH; [|intros; apply Hl; by right]. destruct ix as [|i]; [done|]. destruct Hix as [Hb Hd].
  destruct (Hl x) as [Hx Hn]; [by left|].
  destruct (bq_ok_delete i pool x Hb Hx) as [Hb' Hd']; [intros r Hr; congruence|].
  split; [done|]. by rewrite Hd'.
Qed.

Lemma rec_wf_drop dim heads pool pool' ix ns l :
  rec_wf dim heads pool ix -> 0 <= ns < MAX_NAMESPACES -> ns_list heads pool ns l ->
  (forall i r, slab_get pool i = Some r -> rec_namespace_id r = ns -> not_soft_deleted r = true <-> i ∈ l) ->
  len pool' = len pool ->
  (forall i, slab_get pool' i = if decide (i ∈ l) then None else slab_get pool i) ->
  rec_wf dim (vec_set heads ns NS_LIST_NIL) pool' (foldl (fun ix i => on_delete i ix) ix l).
Proof.
  intros [W1 W2 W3 W4 W5] Hns Hl Hcov Hlen Hget.
  assert (forall i r, slab_get pool' i = Some r -> slab_get pool i = Some r) as Hsub
    by (intros i r; rewrite Hget; by case_decide).
  split; [by eapply ns_wf_drop| | |done|].
  - intros i r Hr. by apply W2, Hsub.
  - intros i r Hr. by eapply W3, Hsub.
  - apply on_delete_all_ok.
    + destruct ix as [|i]; [done|]. destruct W5 as [Hb Hd]. split; [|done].
      eapply bq_ok_weaken; [|exact Hb]. eauto.
    + intros i Hi. split; [|rewrite Hget; by rewrite decide_True].
      destruct Hl as (_ & Hs & _). pose proof (seg_range _ _ _ _ _ _ Hs Hi). lia.
Qed.

(** ** Nodes and edges *)
Record net_wf (heads : list Z) (nodes : NodePool) (edges : EdgePool) : Prop := {
  nw_list : ns_wf (fun _ => true) heads nodes;
  nw_graph : graph_wf (nodes, edges);
  nw_edge_ns : forall i e nf nt, slab_get edges i = Some e ->
    slab_get nodes (ed_from e) = Some nf -> slab_get nodes (ed_to e) = Some nt ->
    nd_namespace_id nf = nd_namespace_id nt;
}.

(** What identifies a node and an edge, links left out. *)
Definition nstat (n : GraphNode) : Z * NodeKind * option Z * Z :=
  (nd_id n, nd_kind n, nd_record n, nd_namespace_id n).
Definition estat (e : GraphEdge) : Z * EdgeKind * Z * Z := (ed_id e, ed_kind e, ed_from e, ed_to e).

Lemma ncore_nstat n n' : ncore n = ncore n' -> nstat n = nstat n'.
Proof. intros (? & ? & ? & ? & _)%ncore_fields. unfold nstat. congruence. Qed.

Lemma payload_nstat (n n' : GraphNode) : payload n = payload n' -> nstat n = nstat n'.
Proof. destruct n, n'. unfold payload, nstat. simpl. intros [=]. by subst. Qed.

Lemma ecore_estat e e' : ecore e = ecore e' -> estat e = estat e'.
Proof. destruct e, e'. unfold ecore, estat. simpl. intros [=]. by subst. Qed.

Lemma fmap_weaken {A B C} (f : A -> B) (g : A -> C) (o o' : option A) :
  (forall x y, f x = f y -> g x = g y) -> f <$> o = f <$> o' -> g <$> o = g <$> o'.
Proof. intros H He. destruct o, o'; simpl in *; try done. injection He as He. f_equal. auto. Qed.

Lemma edge_ns_keep (nodes nodes' : NodePool) (edges edges' : EdgePool) :
  (forall i n', slab_get nodes' i = Some n' -> exists n, slab_get nodes i = Some n /\ nstat n' = nstat n) ->
  (forall i e', slab_get edges' i = Some e' -> exists e, slab_get edges i = Some e /\ estat e' = estat e) ->
  (forall i e nf nt, slab_get edges i = Some e ->
    slab_get nodes (ed_from e) = Some nf -> slab_get nodes (ed_to e) = Some nt ->
    nd_namespace_id nf = nd_namespace_id nt) ->
  forall i e nf nt, slab_get edges' i = Some e ->
    slab_get nodes' (ed_from e) = Some nf -> slab_get nodes' (ed_to e) = Some nt ->
    nd_namespace_id nf = nd_namespace_id nt.
Proof.
  intros Hn He W i e nf nt Hi Hf Ht. destruct (He i e Hi) as (e0 & He0 & Hee).
  unfold estat in Hee. injection Hee as H1 H2 H3 H4. rewrite H3 in Hf. rewrite H4 in Ht.
  destruct (Hn _ _ Hf) as (nf0 & Hf0 & Hff), (Hn _ _ Ht) as (nt0 & Ht0 & Htt).
  unfold nstat in Hff, Htt. injection Hff as _ _ _ ->. injection Htt as _ _ _ ->. by eapply W.
Qed.

Lemma fmap_get {A B} (f : A -> B) (s s' : slab A) i x :
  f <$> slab_get s' i = f <$> slab_get s i -> slab_get s' i = Some x ->
  exists y, slab_get s i = Some y /\ f x = f y.
Proof. apply fmap_eq_Some. Qed.

Lemma net_wf_empty : net_wf (replicate (Z.to_nat MAX_NAMESPACES) NS_LIST_NIL) [] [].
Proof.
  split; [apply ns_wf_empty| |].
  - split; simpl; intros; match goal with H : slab_get [] _ = _ |- _ => apply slab_get_lt in H; len_lia
      | _ => idtac end.
    intros n nd Hn. apply slab_get_lt in Hn. simpl in Hn. len_lia.
  - intros i e nf nt Hi. apply slab_get_lt in Hi. len_lia.
Qed.

Lemma true_payload (x y : GraphNode) : payload x = payload y -> true = true.
Proof. done. Qed.

Lemma net_wf_insert E heads nodes edges n :
  net_wf heads nodes edges -> len nodes < NS_LIST_NIL ->
  0 <= nd_namespace_id n < MAX_NAMESPACES -> nd_id n = len nodes ->
  nd_first_out_edge n = None -> nd_first_in_edge n = None ->
  exists nodes', push_front (E := E) (nd_namespace_id n) (len nodes) (heads, nodes ++ [Some n])
                 = Ok (vec_set heads (nd_namespace_id n) (len nodes), nodes')
    /\ same_payload (nodes ++ [Some n]) nodes'
    /\ others_kept (nd_namespace_id n) nodes nodes'
    /\ net_wf (vec_set heads (nd_namespace_id n) (len nodes)) nodes' edges.
Proof.
  intros [W1 W2 W3] Hroom Hns Hid Ho Hi.
  destruct (ns_wf_insert (fun _ => true) true_payload E heads nodes n W1 Hroom Hns eq_refl)
    as (nodes' & Hpf & Hwf & Hpl & Hoth).
  exists nodes'. split; [done|]. split; [done|]. split; [done|]. split; [done| |].
  - eapply graph_wf_nodes; [by apply same_payload_adj_view|]. by apply graph_wf_push_node.
  - intros i e nf nt He Hf Ht. destruct W2 as [We _ _]. destruct (We _ _ He) as [_ Hep].
    destruct (Hep Out) as [f0 Hf0], (Hep In) as [t0 Ht0]. simpl in Hf0, Ht0.
    destruct (same_payload_get _ _ _ _ Hpl Hf) as (f1 & Hf1 & Hpf1%payload_nstat).
    destruct (same_payload_get _ _ _ _ Hpl Ht) as (t1 & Ht1 & Hpt1%payload_nstat).
    pose proof (slab_get_lt _ _ _ Hf0). pose proof (slab_get_lt _ _ _ Ht0).
    rewrite slab_get_push_lt in Hf1, Ht1 by lia.
    unfold nstat in *. injection Hpf1 as _ _ _ ->. injection Hpt1 as _ _ _ ->. by eapply W3.
Qed.

(** Node pools that differ in adjacency heads only have the same lists. *)
Lemma ns_wf_same_nodes heads (nodes nodes' : NodePool) :
  len nodes' = len nodes -> (forall i, ncore <$> slab_get nodes' i = ncore <$> slab_get nodes i) ->
  ns_wf (fun _ => true) heads nodes -> ns_wf (fun _ => true) heads nodes'.
Proof.
  intros Hl Hc. apply ns_wf_ext; [done|]. intros i. eapply fmap_weaken; [|apply Hc].
  intros x y (_ & _ & _ & ? & ? & ?)%ncore_fields. unfold link_view. simpl. congruence.
Qed.

Lemma net_wf_add_edge heads nodes edges kind from to nf nt :
  net_wf heads nodes edges -> slab_get nodes from = Some nf -> slab_get nodes to = Some nt ->
  nd_namespace_id nf = nd_namespace_id nt -> len edges <= u32_MAX ->
  exists g', add_edge kind from to (nodes, edges) = (g', Ok (len edges))
    /\ net_wf heads g'.1 g'.2 /\ same_nodes (nodes, edges) g'
    /\ g'.2 = edges ++ [Some (mkEdge (len edges) kind from to (nd_first_out_edge nf) (nd_first_in_edge nt))].
Proof.
  intros [W1 W2 W3] Hf Ht Hns Hroom.
  destruct (add_edge_ok (nodes, edges) kind from to nf nt W2 Hf Ht Hroom) as (g' & Hadd & Wg & Hsn & He').
  exists g'. split; [done|]. split; [|done]. destruct g' as [nodes' edges']. simpl in *.
  destruct Hsn as [Hlen Hcore]. simpl in *. split; [by eapply ns_wf_same_nodes|done|].
  intros i e mf mt Hi Hmf Hmt. subst edges'.
  destruct (fmap_get _ _ _ _ _ (Hcore _) Hmf) as (mf0 & Hmf0 & Hcf%ncore_nstat).
  destruct (fmap_get _ _ _ _ _ (Hcore _) Hmt) as (mt0 & Hmt0 & Hct%ncore_nstat).
  unfold nstat in *. injection Hcf as _ _ _ ->. injection Hct as _ _ _ ->.
  rewrite slab_get_push in Hi. case_decide; [|by eapply W3]. simplify_eq/=. congruence.
Qed.

Lemma net_wf_graph heads (nodes nodes' : NodePool) (edges edges' : EdgePool) :
  net_wf heads nodes edges -> graph_wf (nodes', edges') -> len nodes' = len nodes ->
  (forall i, ncore <$> slab_get nodes' i = ncore <$> slab_get nodes i) ->
  (forall i e', slab_get edges' i = Some e' -> exists e, slab_get edges i = Some e /\ ecore e' = ecore e) ->
  net_wf heads nodes' edges'.
Proof.
  intros [W1 W2 W3] Wg Hl Hc He. split; [by eapply ns_wf_same_nodes|done|].
  eapply edge_ns_keep; [| |exact W3].
  - intros i n' Hn'. destruct (fmap_get _ _ _ _ _ (Hc _) Hn') as (n & Hn & Hs%ncore_nstat). eauto.
  - intros i e' He'. destruct (He i e' He') as (e & ? & ?%ecore_estat). eauto.
Qed.

Lemma net_wf_delete_edge heads nodes edges id e :
  net_wf heads nodes edges -> slab_get edges id = Some e ->
  exists g', delete_edge id (nodes, edges) = (g', Ok tt) /\ net_wf heads g'.1 g'.2
    /\ same_nodes (nodes, edges) g' /\ len g'.2 = len edges
    /\ forall i, ecore <$> slab_get g'.2 i = if decide (i = id) then None else ecore <$> slab_get edges i.
Proof.
  intros W He. pose proof W as [_ W2 _].
  destruct (delete_edge_ok (nodes, edges) id e W2 He) as (g' & Hd & Wg & Hsn & Hlen & Hcore).
  exists g'. split; [done|]. split; [|done]. destruct g' as [nodes' edges']. simpl in *.
  destruct Hsn as [Hl Hc]. eapply net_wf_graph; eauto.
  intros i e' He'. specialize (Hcore i). rewrite He' in Hcore. case_decide; [done|].
  destruct (slab_get edges i) as [e0|]; [|done]. injection Hcore as Hce. exists e0. split; [done|]. by destruct e', e0; unfold ecore in *; simpl in *; simplify_eq.
Qed.
