(* ===== verification/KernelProofs.v ===== *)
(** * Correctness of the event arms

    One specification per arm of [apply_event_ns]: from a well-formed state
    with room, the arm returns; on success it describes the new state
    completely, on error the state is the old one (up to the dimension lock). *)

From S2P Require Import Prelude.
From S2P Require Import Hoare.
From S2P Require Import Core.
From S2P Require Import Fxp.
From S2P Require Import TopK.
From S2P Require Import Slab.
From S2P Require Import Records.
From S2P Require Import Graph.
From S2P Require Import GraphProofs.
From S2P Require Import Index.
From S2P Require Import Event.
From S2P Require Import Kernel.
From S2P Require Import KernelWf.

(** ** The invariant *)
Definition meta_sorted (m : list (list Z * list Z)) : Prop :=
  StronglySorted (fun a b => bytes_cmp a.1 b.1 = Lt) m.

Record kernel_wf (s : KernelState) : Prop := {
  kw_rec : rec_wf (ks_dim s) (ks_record_heads s) (ks_records s) (ks_index s);
  kw_net : net_wf (ks_node_heads s) (ks_nodes s) (ks_edges s);
  kw_meta : meta_sorted (ks_meta s);
}.

(** Below the 32-bit id space, and below the last version. *)
Definition room (s : KernelState) : Prop :=
  len (ks_records s) < NS_LIST_NIL /\ len (ks_nodes s) < NS_LIST_NIL
  /\ len (ks_edges s) < u32_MAX /\ ks_version s < u64_MAX.

(** What an arm may leave behind when it fails: nothing, or the dimension lock
    taken by an insert whose metadata was refused afterwards. *)
Definition err_frame (s : KernelState) (e : KernelError) (s' : KernelState) : Prop :=
  s' = s \/ ks_dim s = None /\ e = MetadataTooLarge
            /\ exists d, 0 <= d /\ s' = ks_set_dim (Some d) s.

Lemma kernel_wf_new : kernel_wf KernelState_new.
Proof. split; [apply rec_wf_empty|apply net_wf_empty|constructor]. Qed.

Lemma err_frame_wf s e s' : kernel_wf s -> err_frame s e s' -> kernel_wf s'.
Proof.
  intros W [->|(Hd & _ & d & Hpos & ->)]; [done|]. destruct W as [W1 W2 W3]. split; [|done|done].
  simpl. rewrite Hd in W1. by apply rec_wf_set_dim.
Qed.

Lemma wrap_len {A} (l : list A) : len l <= u32_MAX -> wrap_u32 (len l) = len l.
Proof. intros. apply wrap_u32_small. pose proof (len_nonneg l). int_lia. Qed.

(** ** Inserting a record *)

(** The state after a record [r] was appended. *)
Definition inserted (r : Record_) (index : ActiveIndex) (keys : gmap (list Z) (list Z))
    (s s' : KernelState) : Prop :=
  exists pool',
    s' = mkKernel (Some (len (rec_vector r))) (ks_version s) pool' (ks_nodes s) (ks_edges s) index
           (vec_set (ks_record_heads s) (rec_namespace_id r) (len (ks_records s))) keys
           (ks_node_heads s) (ks_meta s)
    /\ same_payload (ks_records s ++ [Some r]) pool'
    /\ others_kept (rec_namespace_id r) (ks_records s) pool'.

Lemma check_dim_spec d s R Q :
  (forall dim, ks_dim s = Some dim -> d <> dim -> R (DimensionMismatch dim d) s) ->
  (ks_dim s = None -> Q tt (ks_set_dim (Some d) s)) ->
  (ks_dim s = Some d -> Q tt s) ->
  wp (check_dim d) s Q R.
Proof.
  intros Hm Hn Hs. unfold check_dim. wp_step. wp_step. destruct (ks_dim s) as [dim|] eqn:E.
  - wp_step; [by apply Hm|]. apply Hs. congruence.
  - wp_step. by apply Hn.
Qed.

Lemma link_record_run s ns id hs :
  push_front (E := KernelError) ns id (ks_record_list s) = Ok hs -> link_record ns id s = (ks_set_record_list hs s, Ok tt).
Proof. intros Hp. unfold link_record, as_linked. by rewrite Hp. Qed.

Lemma link_node_run s ns id hs :
  push_front (E := KernelError) ns id (ks_node_list s) = Ok hs ->
  link_node ns id s = (ks_set_node_list hs s, Ok tt).
Proof. intros Hp. unfold link_node, as_linked. by rewrite Hp. Qed.

(** The checks of an insert, in their order. *)
Definition insert_decision (s : KernelState) (vector : FxpVector) (metadata : option (list Z))
    : outcome KernelError unit :=
  match ks_dim s with
  | Some d => if negb (len vector =? d) then Err (DimensionMismatch d (len vector))
              else if metadata_too_large metadata then Err MetadataTooLarge else Ok tt
  | None => if metadata_too_large metadata then Err MetadataTooLarge else Ok tt
  end.

Definition insert_post (vector : FxpVector) (metadata : option (list Z)) (tag ns : Z)
    (s s' : KernelState) : Prop :=
  kernel_wf s' /\ insert_decision s vector metadata = Ok tt
  /\ inserted (Record_new (len (ks_records s)) vector metadata tag ns)
       (on_insert (len (ks_records s)) vector (ks_index s)) (ks_keys s) s s'.

Lemma insert_checked_spec vector metadata tag ns s :
  kernel_wf s -> room s -> 0 <= ns < MAX_NAMESPACES ->
  wp (insert_checked vector metadata tag ns) s
    (fun _ s' => insert_post vector metadata tag ns s s')
    (fun e s' => err_frame s e s' /\ insert_decision s vector metadata = Err e).
Proof.
  intros W (Hr1 & _) Hns. pose proof W as [W1 W2 W3]. unfold insert_checked. wp_step.
  pose proof (len_nonneg vector) as Hpos.
  assert (forall s1, s1 = ks_set_dim (Some (len vector)) s ->
            ks_dim s = None \/ ks_dim s = Some (len vector) ->
            (metadata_too_large metadata = true -> err_frame s MetadataTooLarge s1) ->
            wp (sguard (metadata_too_large metadata) MetadataTooLarge ;;;
                let* allocated_id := with_records (rp_insert vector metadata tag ns) in
                link_record ns allocated_id ;;; index_insert allocated_id vector) s1
    (fun _ s' => insert_post vector metadata tag ns s s')
    (fun e s' => err_frame s e s' /\ insert_decision s vector metadata = Err e)) as Hrest.
  { intros s1 -> Hd Herr.
    assert (insert_decision s vector metadata
            = if metadata_too_large metadata then Err MetadataTooLarge else Ok tt) as Hdec.
    { unfold insert_decision. by destruct Hd as [-> | ->]; [|rewrite Z.eqb_refl]. }
    wp_step. wp_step; [split; [by apply Herr|by rewrite Hdec; case_match]|].
    assert (rec_wf (Some (len vector)) (ks_record_heads s) (ks_records s) (ks_index s)) as W1'.
    { destruct Hd as [Hd|Hd]; rewrite Hd in W1; [by apply rec_wf_set_dim|done]. }
    set (r := Record_new (len (ks_records s)) vector metadata tag ns).
    destruct (rec_wf_insert KernelError (len vector) (ks_record_heads s) (ks_records s) (ks_index s) r)
      as (pool' & Hpf & Hpl & Hoth & Wr & _); [done..|].
    wp_step. apply wp_zoom. unfold wp at 1. simpl. rewrite wrap_len by (unfold NS_LIST_NIL in *; lia).
    wp_step. eapply wp_run; [apply link_record_run; exact Hpf|].
    unfold index_insert. wp_step.
    split; [split; [exact Wr|done|done]|]. split; [by rewrite Hdec; case_match|]. exists pool'. done. }
  apply check_dim_spec.
  - intros dim Hdim Hne. split; [by left|]. unfold insert_decision. rewrite Hdim.
    by rewrite (proj2 (Z.eqb_neq _ _)).
  - intros Hn. apply Hrest; [done|by left|]. intros Hm. right. split; [done|]. split; [done|]. eauto.
  - intros Hd. apply Hrest; [|by right|intros; by left].
    destruct s. simpl in *. by subst.
Qed.

(** ** Deleting and tombstoning a record *)

(** Ids that may be deleted: a record already tombstoned keeps stale links. *)
Definition deletable (s : KernelState) (id : Z) : Prop :=
  forall r, slab_get (ks_records s) id = Some r -> not_soft_deleted r = true.

Definition tombstone (r : Record_) : Record_ := rec_set_flags (Z.lor (rec_flags r) FLAG_SOFT_DELETED) r.

Lemma tombstone_facts x :
  rec_id (tombstone x) = rec_id x /\ rec_vector (tombstone x) = rec_vector x
  /\ rec_namespace_id (tombstone x) = rec_namespace_id x /\ not_soft_deleted (tombstone x) = false
  /\ is_searchable (tombstone x) = false.
Proof.
  split; [done|]. split; [done|]. split; [done|].
  assert (forall m, Z.testbit m 0 = true -> Z.land (Z.lor (rec_flags x) FLAG_SOFT_DELETED) m =? 0 = false)
    as Hbit.
  { intros m Hm. apply Z.eqb_neq. intros Hz. apply (f_equal (fun z => Z.testbit z 0)) in Hz.
    rewrite Z.land_spec, Z.lor_spec, Hm, Z.bits_0 in Hz. unfold FLAG_SOFT_DELETED in Hz.
    by rewrite orb_true_r in Hz. }
  split; by apply Hbit.
Qed.

(** The records after [id] was taken out and [g] applied to its slot. *)
Definition removed (id : Z) (g : RecordPool -> RecordPool) (s s' : KernelState) : Prop :=
  exists r heads' pool', slab_get (ks_records s) id = Some r
    /\ s' = ks_set_index (on_delete id (ks_index s)) (ks_set_record_list (heads', g pool') s)
    /\ same_payload (ks_records s) pool' /\ slab_get pool' id = Some r
    /\ others_kept (rec_namespace_id r) (ks_records s) pool'.

Lemma unlink_record_spec id s Q R :
  kernel_wf s -> deletable s id -> (slab_get (ks_records s) id = None -> R NotFound s) ->
  (forall r heads' pool', slab_get (ks_records s) id = Some r ->
     same_payload (ks_records s) pool' -> slab_get pool' id = Some r ->
     others_kept (rec_namespace_id r) (ks_records s) pool' ->
     rec_wf (ks_dim s) heads' (slab_clear pool' id) (on_delete id (ks_index s)) ->
     rec_wf (ks_dim s) heads' (slab_alter tombstone pool' id) (on_delete id (ks_index s)) ->
     Q tt (ks_set_record_list (heads', pool') s)) ->
  wp (unlink_record id) s Q R.
Proof.
  intros [W1 _ _] Hdel HR HQ. unfold unlink_record. wp_step. wp_step. wp_step. wp_step; [by apply HR|].
  match goal with H : rp_get _ _ = Some ?a |- _ => rename H into Hr; rename a into r end.
  destruct (rec_wf_remove KernelError _ _ _ _ id r W1 Hr (Hdel r Hr))
    as (heads' & pool' & Hul & Hpl & Hid & Hoth & Hclear & Halter).
  eapply wp_run; [unfold unlink_record_from_ns, as_linked, ks_record_list; by rewrite Hul|].
  apply (HQ r); try done. apply Halter, tombstone_facts.
Qed.

Lemma arm_delete_record_spec id s :
  kernel_wf s -> deletable s id ->
  wp (arm_delete_record id) s
    (fun _ s' => kernel_wf s' /\ removed id (fun p => slab_clear p id) s s')
    (fun e s' => e = NotFound /\ s' = s /\ slab_get (ks_records s) id = None).
Proof.
  intros W Hdel. pose proof W as [W1 W2 W3]. unfold arm_delete_record. wp_step.
  apply unlink_record_spec; [done|done|done|]. intros r heads' pool' Hr Hpl Hid Hoth Hc _.
  pose proof (slab_get_lt _ _ _ Hid) as Hlt.
  wp_step. eapply wp_run.
  { unfold with_records, zoom, rp_delete. simpl. rewrite (proj2 (Z.leb_gt _ _)) by lia.
    by rewrite Hid. }
  unfold index_delete. wp_step. split; [split; [exact Hc|done|done]|].
  exists r, heads', pool'. done.
Qed.

Lemma arm_soft_delete_record_spec id s :
  kernel_wf s -> deletable s id ->
  wp (arm_soft_delete_record id) s
    (fun _ s' => kernel_wf s' /\ removed id (fun p => slab_alter tombstone p id) s s')
    (fun e s' => e = NotFound /\ s' = s /\ slab_get (ks_records s) id = None).
Proof.
  intros W Hdel. pose proof W as [W1 W2 W3]. unfold arm_soft_delete_record. wp_step.
  apply unlink_record_spec; [done|done|done|]. intros r heads' pool' Hr Hpl Hid Hoth _ Ht.
  wp_step. eapply wp_run.
  { unfold with_records, zoom, rp_soft_delete, rp_update. simpl. by rewrite Hid. }
  unfold index_delete. wp_step. split; [split; [exact Ht|done|done]|].
  exists r, heads', pool'. done.
Qed.

(** ** In-place updates *)

Lemma update_metadata_facts m x :
  rec_id (rec_set_metadata m x) = rec_id x /\ rec_vector (rec_set_metadata m x) = rec_vector x
  /\ rec_namespace_id (rec_set_metadata m x) = rec_namespace_id x
  /\ rec_next_in_ns (rec_set_metadata m x) = rec_next_in_ns x
  /\ rec_prev_in_ns (rec_set_metadata m x) = rec_prev_in_ns x
  /\ not_soft_deleted (rec_set_metadata m x) = not_soft_deleted x
  /\ (is_searchable (rec_set_metadata m x) = true -> is_searchable x = true).
Proof. done. Qed.

Lemma update_metadata_spec id m s :
  kernel_wf s ->
  wp (with_records (rp_update_metadata id m)) s
    (fun _ s' => kernel_wf s' /\ is_Some (slab_get (ks_records s) id)
       /\ s' = ks_set_records (slab_alter (rec_set_metadata m) (ks_records s) id) s)
    (fun e s' => e = NotFound /\ s' = s /\ slab_get (ks_records s) id = None).
Proof.
  intros [W1 W2 W3]. apply wp_zoom. unfold rp_update_metadata, rp_update, wp.
  destruct (slab_get (ks_records s) id) as [r|] eqn:E; [|by destruct s].
  split; [|eauto]. split; [|done|done]. by apply rec_wf_alter; [apply update_metadata_facts|].
Qed.

(** [mark_shredded]: erase the metadata, raise the flag. *)
Definition shred (r : Record_) : Record_ :=
  rec_set_metadata None (rec_set_flags (Z.lor (rec_flags r) FLAG_SHREDDED) r).

Lemma land_lor_zero a b m : Z.land (Z.lor a b) m = 0 -> Z.land a m = 0.
Proof.
  intros Hz. apply Z.bits_inj_0. intros n. apply (f_equal (fun z => Z.testbit z n)) in Hz.
  rewrite Z.land_spec, Z.lor_spec, Z.bits_0 in Hz. rewrite Z.land_spec.
  destruct (Z.testbit a n), (Z.testbit m n); simpl in *; done.
Qed.

Lemma lor_disjoint_land a b m : Z.land b m = 0 -> Z.land (Z.lor a b) m = Z.land a m.
Proof. intros Hb. by rewrite Z.land_lor_distr_l, Hb, Z.lor_0_r. Qed.

Lemma shred_facts x :
  rec_id (shred x) = rec_id x /\ rec_vector (shred x) = rec_vector x
  /\ rec_namespace_id (shred x) = rec_namespace_id x /\ rec_next_in_ns (shred x) = rec_next_in_ns x
  /\ rec_prev_in_ns (shred x) = rec_prev_in_ns x /\ not_soft_deleted (shred x) = not_soft_deleted x
  /\ (is_searchable (shred x) = true -> is_searchable x = true).
Proof.
  repeat (split; [done|]). split.
  - unfold not_soft_deleted, shred. simpl. by rewrite lor_disjoint_land.
  - unfold is_searchable, shred. simpl. rewrite !Z.eqb_eq. apply land_lor_zero.
Qed.

Lemma apply_shred_key_spec key_id s :
  kernel_wf s ->
  wp (apply_shred_key key_id) s
    (fun _ s' => kernel_wf s'
       /\ s' = ks_set_keys (delete key_id (ks_keys s))
                 (ks_set_records (foldl (slab_alter shred) (ks_records s)
                                    (default [] (ks_keys s !! key_id))) s))
    (fun _ _ => False).
Proof.
  intros W. unfold apply_shred_key. wp_step. wp_step. wp_step. wp_step.
  set (ids := default [] (ks_keys s !! key_id)).
  set (keys' := delete key_id (ks_keys s)).
  set (I := fun todo st => kernel_wf st /\ exists recs,
         st = ks_set_keys keys' (ks_set_records recs s)
         /\ foldl (slab_alter shred) recs todo = foldl (slab_alter shred) (ks_records s) ids).
  apply (wp_mono _ _ (fun _ s' => I [] s') _ (fun _ _ => False)); [|done|].
  { intros _ s' (Ws & recs & -> & Hf). simpl in Hf. by subst recs. }
  apply wp_for.
  - intros x xs st (Wst & recs & -> & Hf). unfold ignore_err, wp, with_records, zoom, rp_mark_shredded, rp_update.
    simpl. destruct (slab_get recs x) as [r|] eqn:E.
    + split.
      * destruct Wst as [V1 V2 V3]. split; [|done|done]. simpl in *.
        by apply rec_wf_alter; [apply shred_facts|].
      * exists (slab_alter shred recs x). done.
    + split; [by destruct s|]. exists recs. split; [by destruct s|].
      simpl in Hf. unfold slab_alter in Hf at 2. by rewrite E in Hf.
  - split; [destruct W as [W1 W2 W3]; by split|]. exists (ks_records s). split; [by destruct s|done].
Qed.

(** ** Encrypted insertion *)
Definition mark_encrypted (r : Record_) : Record_ := rec_set_flags (Z.lor (rec_flags r) FLAG_ENCRYPTED) r.

Definition add_key (key_id : list Z) (id : Z) (keys : gmap (list Z) (list Z)) : gmap (list Z) (list Z) :=
  <[key_id := default [] (keys !! key_id) ++ [id]]> keys.

Lemma arm_insert_encrypted_spec id key_id ciphertext tag ns s :
  kernel_wf s -> room s -> 0 <= ns ->
  wp (arm_insert_record_encrypted id key_id ciphertext tag ns) s
    (fun _ s' => kernel_wf s' /\ id = len (ks_records s) /\ ns < MAX_NAMESPACES
       /\ exists dim, ks_dim s = Some dim
       /\ inserted (mark_encrypted (Record_new id (new_zeros dim) (Some ciphertext) tag ns))
            (ks_index s) (add_key key_id id (ks_keys s)) s s')
    (fun _ s' => s' = s).
Proof.
  intros W (Hr1 & _) Hns0. pose proof W as [W1 W2 W3]. unfold arm_insert_record_encrypted, check_ns.
  wp_step. wp_step; [done|]. wp_step. wp_step. wp_step. wp_step; [done|].
  wp_step. wp_step; [done|]. wp_step. wp_step; [done|].
  match goal with H : ks_dim s = Some ?a |- _ => rename H into Hdim; rename a into dim end.
  assert (rp_next_id (ks_records s) = len (ks_records s)) as Hnext
    by (unfold rp_next_id; apply wrap_len; unfold NS_LIST_NIL in *; lia).
  rewrite Hnext in *. subst id.
  wp_step. apply wp_zoom. unfold wp at 1. simpl.
  fold (rp_next_id (ks_records s)). rewrite Hnext.
  wp_step. apply wp_zoom. unfold rp_mark_encrypted, rp_update, wp at 1. simpl.
  rewrite slab_get_push_eq, slab_alter_push.
  wp_step. wp_step.
  set (r := mark_encrypted (Record_new (len (ks_records s)) (new_zeros dim) (Some ciphertext) tag ns)).
  rewrite Hdim in W1.
  assert (len (rec_vector r) = dim) as Hv.
  { unfold r, new_zeros, len. simpl. rewrite length_replicate.
    pose proof (rw_pos _ _ _ _ W1 dim eq_refl). lia. }
  destruct (rec_wf_insert KernelError dim (ks_record_heads s) (ks_records s) (ks_index s) r)
    as (pool' & Hpf & Hpl & Hoth & _ & Wr); [done|done|simpl; lia|done|done|done|].
  eapply wp_run; [apply link_record_run; exact Hpf|]. simpl.
  split; [split; [simpl; rewrite Hdim; by apply Wr|done|done]|].
  split; [done|]. split; [done|]. exists dim. split; [done|]. exists pool'.
  split; [|done]. fold r. rewrite Hv. unfold ks_set_record_list, ks_set_records, ks_set_keys. simpl.
  by rewrite Hdim.
Qed.

(** ** Nodes *)
Definition node_inserted (n : GraphNode) (s s' : KernelState) : Prop :=
  exists nodes',
    s' = ks_set_node_list (vec_set (ks_node_heads s) (nd_namespace_id n) (len (ks_nodes s)), nodes') s
    /\ same_payload (ks_nodes s ++ [Some n]) nodes'
    /\ others_kept (nd_namespace_id n) (ks_nodes s) nodes'.

(** The record a node points to exists, in the node's namespace. *)
Definition node_record_ok (s : KernelState) (record : option Z) (ns : Z) : Prop :=
  match record with
  | None => True
  | Some rid => exists r, get_record s rid = Some r /\ rec_namespace_id r = ns
  end.

Lemma insert_node_spec id kind record ns s :
  kernel_wf s -> room s -> 0 <= ns < MAX_NAMESPACES ->
  wp (insert_node id kind record ns) s
    (fun _ s' => kernel_wf s' /\ node_record_ok s record ns
       /\ node_inserted (GraphNode_new (len (ks_nodes s)) kind record ns) s s')
    (fun _ s' => s' = s).
Proof.
  intros W (_ & Hr2 & _) Hns. pose proof W as [W1 W2 W3]. unfold insert_node. wp_step.
  assert (node_record_ok s record ns ->
    wp (let* allocated := with_nodes (np_insert (GraphNode_new id kind record ns)) in
        link_node ns allocated) s
    (fun _ s' => kernel_wf s' /\ node_record_ok s record ns
       /\ node_inserted (GraphNode_new (len (ks_nodes s)) kind record ns) s s')
    (fun _ s' => s' = s)) as Hrest.
  { intros Hrec. wp_step. apply wp_zoom. unfold wp at 1. simpl.
    rewrite wrap_len by (unfold NS_LIST_NIL in *; lia).
    set (n := GraphNode_new (len (ks_nodes s)) kind record ns).
    destruct (net_wf_insert KernelError (ks_node_heads s) (ks_nodes s) (ks_edges s) n)
      as (nodes' & Hpf & Hpl & Hoth & Wn); [done..|].
    eapply wp_run; [apply link_node_run; exact Hpf|].
    split; [by split|]. split; [done|]. exists nodes'. done. }
  unfold check_node_record. destruct record as [rid|]; [|wp_step; by apply Hrest].
  wp_step. wp_step. wp_step. wp_step; [done|]. wp_step; [done|]. apply Hrest. simpl. eauto.
Qed.

(** ** Edges *)
Definition edge_inserted (from to : Z) (kind : EdgeKind) (s s' : KernelState) : Prop :=
  exists nf nt g', slab_get (ks_nodes s) from = Some nf /\ slab_get (ks_nodes s) to = Some nt
    /\ nd_namespace_id nf = nd_namespace_id nt
    /\ s' = ks_set_graph g' s /\ same_nodes (ks_graph s) g'
    /\ g'.2 = ks_edges s ++ [Some (mkEdge (len (ks_edges s)) kind from to
                                     (nd_first_out_edge nf) (nd_first_in_edge nt))].

Lemma insert_edge_spec from to kind s :
  kernel_wf s -> room s ->
  wp (insert_edge from to kind) s
    (fun _ s' => kernel_wf s' /\ edge_inserted from to kind s s')
    (fun _ s' => s' = s).
Proof.
  intros W (_ & _ & Hr3 & _). pose proof W as [W1 W2 W3]. unfold insert_edge.
  wp_step. wp_step. wp_step. wp_step; [done|]. wp_step. wp_step; [done|]. wp_step. wp_step; [done|].
  match goal with H1 : slab_get _ from = Some ?nf, H2 : slab_get _ to = Some ?nt,
                  H3 : nd_namespace_id ?nf = nd_namespace_id ?nt |- _ =>
    destruct (net_wf_add_edge _ _ _ kind from to nf nt W2 H1 H2 H3 ltac:(lia))
      as (g' & Hadd & Wg & Hsn & He) end.
  wp_step. eapply wp_run; [unfold with_graph, zoom, ks_graph; by rewrite Hadd|]. wp_step.
  split; [by split|]. do 3 eexists. eauto 10.
Qed.

Definition edge_deleted (id : Z) (s s' : KernelState) : Prop :=
  exists g', s' = ks_set_graph g' s /\ same_nodes (ks_graph s) g' /\ len g'.2 = len (ks_edges s)
    /\ is_Some (slab_get (ks_edges s) id)
    /\ forall i, ecore <$> slab_get g'.2 i
                 = if decide (i = id) then None else ecore <$> slab_get (ks_edges s) i.

Lemma arm_delete_edge_spec id s :
  kernel_wf s ->
  wp (arm_delete_edge id) s
    (fun _ s' => kernel_wf s' /\ edge_deleted id s s')
    (fun e s' => e = NotFound /\ s' = s /\ slab_get (ks_edges s) id = None).
Proof.
  intros W. pose proof W as [W1 W2 W3]. unfold arm_delete_edge.
  destruct (slab_get (ks_edges s) id) as [e|] eqn:E.
  - destruct (net_wf_delete_edge _ _ _ id e W2 E) as (g' & Hd & Wg & Hsn & Hlen & Hcore).
    eapply wp_run; [unfold with_graph, zoom, ks_graph; by rewrite Hd|]. split; [by split|].
    exists g'. rewrite E. eauto 10.
  - unfold wp, with_graph, zoom, delete_edge, sbind, sget, slift. simpl. rewrite E. simpl. by destruct s.
Qed.

(** ** Deleting a node *)
Definition incident (id : Z) (e : GraphEdge) : bool := (ed_from e =? id) || (ed_to e =? id).

(** Node [id] and its incident edges are gone, everything else is still there. *)
Definition node_deleted (id : Z) (s s' : KernelState) : Prop :=
  exists heads' nodes' edges',
    s' = ks_set_graph (nodes', edges') (ks_set_node_list (heads', nodes') s)
    /\ is_Some (slab_get (ks_nodes s) id)
    /\ len nodes' = len (ks_nodes s) /\ len edges' = len (ks_edges s)
    /\ (forall i, nstat <$> slab_get nodes' i
                  = if decide (i = id) then None else nstat <$> slab_get (ks_nodes s) i)
    /\ (forall i, estat <$> slab_get edges' i
                  = match slab_get (ks_edges s) i with
                    | Some e => if incident id e then None else Some (estat e)
                    | None => None
                    end).

Lemma incident_spec id e : incident id e = true <-> exists d, endpoint d e = id.
Proof.
  unfold incident. rewrite orb_true_iff, !Z.eqb_eq. split.
  - intros [?|?]; [by exists Out|by exists In].
  - intros [[] ?]; auto.
Qed.

Lemma estat_endpoint d e e' : estat e = estat e' -> endpoint d e = endpoint d e'.
Proof. unfold estat. intros [=]. by destruct d. Qed.

(** The cascade on a graph whose node [id] was already unlinked. *)
Lemma cascade_ok (nodes : NodePool) (edges : EdgePool) id n :
  graph_wf (nodes, edges) -> slab_get nodes id = Some n ->
  exists out_edges in_edges g',
    collect_ids Out edges (S (length edges)) (first_edge Out n) = Ok out_edges
    /\ collect_ids In edges (S (length edges)) (first_edge In n) = Ok in_edges
    /\ delete_edges (out_edges ++ in_edges) (nodes, edges) = (g', Ok tt)
    /\ graph_wf (slab_clear g'.1 id, g'.2) /\ same_nodes (nodes, edges) g' /\ len g'.2 = len edges
    /\ forall i, estat <$> slab_get g'.2 i
                 = match slab_get edges i with
                   | Some e => if incident id e then None else Some (estat e)
                   | None => None
                   end.
Proof.
  intros W Hn. destruct (collect_ids_ok Out (nodes, edges) id n W Hn) as (lo & Ho & Hlo).
  destruct (collect_ids_ok In (nodes, edges) id n W Hn) as (li & Hi & Hli). simpl in *.
  destruct (delete_edges_ok (lo ++ li) (nodes, edges) W) as (g' & Hd & Wg & Hsn & Hlen & Hcore).
  exists lo, li, g'. split; [done|]. split; [done|]. split; [done|].
  assert (forall i, estat <$> slab_get g'.2 i
            = match slab_get edges i with
              | Some e => if incident id e then None else Some (estat e)
              | None => None
              end) as Hst.
  { intros i. specialize (Hcore i). simpl in Hcore. destruct (slab_get edges i) as [e|] eqn:Ee.
    - destruct (incident id e) eqn:Einc.
      + apply incident_spec in Einc as [d Hd']. rewrite decide_True in Hcore.
        * by destruct (slab_get g'.2 i).
        * apply elem_of_app. destruct d; [left; apply Hlo|right; apply Hli]; eauto.
      + rewrite decide_False in Hcore.
        * destruct (slab_get g'.2 i) as [e'|]; [|done]. injection Hcore as Hc. simpl. f_equal.
          apply ecore_estat. destruct e, e'; unfold ecore; simpl in *; congruence.
        * intros [Hx|Hx]%elem_of_app; [apply Hlo in Hx|apply Hli in Hx];
            destruct Hx as (e' & He' & Hep); simplify_eq.
          -- assert (incident (ed_from e) e = true) by (apply incident_spec; by exists Out). simpl in *. congruence.
          -- assert (incident (ed_to e) e = true) by (apply incident_spec; by exists In). simpl in *. congruence.
    - case_decide; by destruct (slab_get g'.2 i). }
  split; [|done]. destruct g' as [nodes' edges']. simpl in *.
  apply graph_wf_clear_node; [done|]. intros i e d He Hep. specialize (Hst i). rewrite He in Hst.
  destruct (slab_get edges i) as [e0|]; [|done]. destruct (incident id e0) eqn:Einc; [done|].
  assert (estat e = estat e0) as Hs by (simpl in Hst; congruence).
  assert (incident id e0 = true); [|congruence]. apply incident_spec. exists d.
  by rewrite <- (estat_endpoint d e e0 Hs).
Qed.

Lemma unlink_node_run s ns prev next hs :
  unlink (E := KernelError) ns prev next (ks_node_list s) = Ok hs ->
  unlink_node_from_ns ns prev next s = (ks_set_node_list hs s, Ok tt).
Proof. intros Hp. unfold unlink_node_from_ns, as_linked. by rewrite Hp. Qed.

Lemma arm_delete_node_spec id s :
  kernel_wf s ->
  wp (arm_delete_node id) s
    (fun _ s' => kernel_wf s' /\ node_deleted id s s')
    (fun e s' => e = NotFound /\ s' = s /\ slab_get (ks_nodes s) id = None).
Proof.
  intros W. pose proof W as [W1 [V1 V2 V3] W3]. unfold arm_delete_node.
  wp_step. wp_step. wp_step. wp_step; [done|].
  match goal with H : slab_get _ id = Some ?a |- _ => rename H into Hn; rename a into n end.
  destruct (ns_wf_remove (fun _ => true) true_payload KernelError _ _ id n V1 Hn eq_refl)
    as (heads' & nodes1 & Hul & Hpl & Hid & Hoth & Hwf).
  wp_step. eapply wp_run; [apply unlink_node_run; exact Hul|].
  wp_step. wp_step. simpl. rewrite Hid.
  assert (graph_wf (nodes1, ks_edges s)) as Wg1
    by (eapply graph_wf_nodes; [by apply same_payload_adj_view|done]).
  destruct (cascade_ok nodes1 (ks_edges s) id n Wg1 Hid)
    as (lo & li & [nodes2 edges2] & Ho & Hi & Hd & Wg & [Hlen Hcore] & Hlene & Hst). simpl in *.
  wp_step. eapply wp_lift_ok; [exact Ho|]. wp_step. eapply wp_lift_ok; [exact Hi|].
  wp_step. eapply wp_run; [unfold with_graph, zoom, ks_graph; simpl; by rewrite Hd|].
  destruct (fmap_get _ _ _ _ _ (eq_sym (Hcore id)) Hid) as (n2 & Hn2 & _).
  eapply wp_run; [unfold with_nodes, zoom, pool_delete; simpl; by rewrite Hn2|]. simpl.
  assert (forall i, nstat <$> slab_get (slab_clear nodes2 id) i
            = if decide (i = id) then None else nstat <$> slab_get (ks_nodes s) i) as Hns.
  { intros i. rewrite slab_get_clear. destruct (decide (id = i)), (decide (i = id)); try congruence; [done|].
    etrans; [eapply fmap_weaken; [apply ncore_nstat|apply Hcore]|].
    eapply fmap_weaken; [apply payload_nstat|]. apply (proj2 Hpl). }
  split; [split; [done| |done]|].
  - split; simpl.
    + apply (ns_wf_same_nodes _ (slab_clear nodes1 id)).
      * by rewrite !len_slab_clear.
      * intros i. rewrite !slab_get_clear. case_decide; [done|apply Hcore].
      * apply Hwf; [by rewrite len_slab_clear| |].
        -- intros i Hne. rewrite slab_get_clear. by rewrite decide_False by done.
        -- intros x. rewrite slab_get_clear. by rewrite decide_True.
    + exact Wg.
    + eapply edge_ns_keep; [| |exact V3].
      * intros i m Hm. specialize (Hns i). rewrite Hm in Hns. case_decide; [done|].
        destruct (slab_get (ks_nodes s) i) as [m0|]; [|done]. exists m0. split; [done|].
        by apply (inj Some) in Hns.
      * intros i e He. specialize (Hst i). rewrite He in Hst.
        destruct (slab_get (ks_edges s) i) as [e0|]; [|done]. exists e0.
        destruct (incident id e0); [done|]. split; [done|]. by apply (inj Some) in Hst.
  - exists heads', (slab_clear nodes2 id), edges2. split; [done|]. rewrite Hn. split; [eauto|].
    split; [rewrite len_slab_clear, Hlen; apply Hpl|]. split; [done|]. done.
Qed.

(** ** Dropping a namespace *)

Lemma ns_list_cursor (l : list Z) (pool : RecordPool) ns p n :
  len pool <= NS_LIST_NIL -> seg pool ns p l n -> forall x, x ∈ l -> (x =? NS_LIST_NIL) = false.
Proof.
  intros Hl Hs x Hx. pose proof (seg_range _ _ _ _ _ _ Hs Hx). apply Z.eqb_neq. lia.
Qed.

Lemma drop_records_ok l ns p fuel s :
  len (ks_records s) <= NS_LIST_NIL -> seg (ks_records s) ns p l NS_LIST_NIL -> NoDup l ->
  (length l <= fuel)%nat ->
  exists pool', drop_records fuel (default NS_LIST_NIL (head l)) s
    = (ks_set_index (foldl (fun ix i => on_delete i ix) (ks_index s) l) (ks_set_records pool' s), Ok tt)
    /\ len pool' = len (ks_records s)
    /\ forall i, slab_get pool' i = if decide (i ∈ l) then None else slab_get (ks_records s) i.
Proof.
  revert p fuel s. induction l as [|x l IH]; intros p fuel s Hlen Hs Hnd Hf.
  - exists (ks_records s). split; [destruct fuel, s; done|]. split; [done|].
    intros i. by rewrite decide_False by apply not_elem_of_nil.
  - destruct fuel as [|fuel]; [simpl in Hf; lia|]. simpl head. simpl default.
    destruct Hs as [(r & Hr & _ & _ & Hnext) Hs].
    apply NoDup_cons in Hnd as [Hx Hnd]. pose proof (slab_get_lt _ _ _ Hr) as Hlt.
    set (s1 := ks_set_index (on_delete x (ks_index s)) (ks_set_records (slab_clear (ks_records s) x) s)).
    destruct (IH x fuel s1) as (pool' & Hrun & Hl' & Hget).
    + simpl. by rewrite len_slab_clear.
    + simpl. apply (seg_ext (ks_records s)); [|done]. intros i Hi. rewrite slab_get_clear.
      rewrite decide_False; [done|]. intros ->. done.
    + done.
    + simpl in Hf. lia.
    + exists pool'. split; [|split].
      * simpl drop_records. rewrite (proj2 (Z.eqb_neq x NS_LIST_NIL)) by lia.
        unfold sbind, sget. rewrite Hr, (proj2 (in_range_spec _ _) Hlt).
        unfold smodify, index_delete, smodify. simpl in Hnext. rewrite Hnext.
        unfold s1 in Hrun. simpl in *. exact Hrun.
      * rewrite Hl'. apply len_slab_clear.
      * intros i. rewrite Hget. simpl. rewrite slab_get_clear.
        destruct (decide (i ∈ l)) as [Hi|Hi].
        -- rewrite decide_True; [done|]. by right.
        -- destruct (decide (x = i)) as [->|Hne]; [rewrite decide_True; [done|by left]|].
           rewrite decide_False; [done|]. intros [->|?]%elem_of_cons; done.
Qed.

Lemma collect_nodes_ok l ns p fuel (nodes : NodePool) :
  len nodes <= NS_LIST_NIL -> seg nodes ns p l NS_LIST_NIL -> (length l <= fuel)%nat ->
  collect_nodes nodes fuel (default NS_LIST_NIL (head l)) = Ok l.
Proof.
  revert p fuel. induction l as [|x l IH]; intros p fuel Hlen Hs Hf; [by destruct fuel|].
  destruct fuel as [|fuel]; [simpl in Hf; lia|]. destruct Hs as [(n & Hn & _ & _ & Hnext) Hs].
  pose proof (slab_get_lt _ _ _ Hn). simpl. rewrite (proj2 (Z.eqb_neq x NS_LIST_NIL)) by lia.
  rewrite Hn. simpl in Hnext. rewrite Hnext. rewrite (IH x fuel) by (done || simpl in Hf; lia). done.
Qed.

Lemma seg_length {A} `{NsLinked A} (s : slab A) ns p l n :
  seg s ns p l n -> NoDup l -> (length l <= length s)%nat.
Proof. intros Hs Hnd. apply NoDup_range_length; [done|]. intros i Hi. by apply (seg_range s ns p l n). Qed.

(** The half of the state the graph operations do not touch. *)
Definition rec_half (s : KernelState) :=
  (ks_dim s, ks_version s, ks_records s, ks_index s, ks_record_heads s, ks_keys s, ks_meta s).

(** Progress of the node loop: nodes of [ns] outside [todo] are gone with their
    edges; nodes and edges of other namespaces are kept. *)
Record purged (ns : Z) (todo : list Z) (s1 s : KernelState) : Prop := {
  pg_wf : kernel_wf s;
  pg_half : rec_half s = rec_half s1;
  pg_len : len (ks_nodes s) = len (ks_nodes s1) /\ len (ks_edges s) = len (ks_edges s1);
  pg_sub : forall i n', slab_get (ks_nodes s) i = Some n' ->
    exists n, slab_get (ks_nodes s1) i = Some n /\ nstat n' = nstat n
              /\ (nd_namespace_id n = ns -> i ∈ todo);
  pg_keep : forall i n, slab_get (ks_nodes s1) i = Some n -> nd_namespace_id n <> ns ->
    nstat <$> slab_get (ks_nodes s) i = Some (nstat n);
  pg_edges : forall i e n, slab_get (ks_edges s1) i = Some e ->
    slab_get (ks_nodes s1) (ed_from e) = Some n -> nd_namespace_id n <> ns ->
    estat <$> slab_get (ks_edges s) i = Some (estat e);
  pg_edges_sub : forall i e', slab_get (ks_edges s) i = Some e' ->
    exists e, slab_get (ks_edges s1) i = Some e /\ estat e' = estat e;
}.

Lemma purge_node ns x todo s1 s :
  kernel_wf s1 -> purged ns (x :: todo) s1 s ->
  (exists n, slab_get (ks_nodes s1) x = Some n /\ nd_namespace_id n = ns) ->
  wp (let* s := sget in
      if is_allocated (ks_nodes s) x then ignore_err (arm_delete_node x) else sret tt) s
    (fun _ s' => purged ns todo s1 s') (fun _ _ => False).
Proof.
  intros W1 [P1 P2 [Pn Pe] P3 P4 P5 P6] (nx & Hnx & Hnsx). wp_step. wp_step.
  unfold is_allocated. destruct (slab_get (ks_nodes s) x) as [n|] eqn:Ex.
  2: { wp_step. split; try done. intros i n' Hn'. destruct (P3 i n' Hn') as (m & Hm & Hst & Hin).
       exists m. split; [done|]. split; [done|]. intros Hns.
       pose proof (Hin Hns) as [->|?]%elem_of_cons; [congruence|done]. }
  pose proof (arm_delete_node_spec x s P1) as Hspec. unfold ignore_err, wp in *.
  destruct (arm_delete_node x s) as [s' [u|e| |]]; [|destruct Hspec as (_ & _ & ?); congruence|done|done].
  destruct Hspec as (Ws' & heads' & nodes' & edges' & -> & _ & Hln & Hle & Hn & He). simpl in *.
  split; simpl; [done|done|split; congruence|..].
  - intros i n' Hn'. specialize (Hn i). rewrite Hn' in Hn. case_decide as Hd; [done|].
    destruct (slab_get (ks_nodes s) i) as [m|] eqn:Em; [|done]. apply (inj Some) in Hn.
    destruct (P3 i m Em) as (m1 & Hm1 & Hst & Hin). exists m1. split; [done|]. split; [congruence|].
    intros Hns. by pose proof (Hin Hns) as [?|?]%elem_of_cons.
  - intros i m Hm Hne. rewrite Hn. rewrite decide_False; [by apply P4|]. intros ->. congruence.
  - intros i e m Hi Hm Hne. rewrite He. specialize (P5 i e m Hi Hm Hne).
    destruct (slab_get (ks_edges s) i) as [e0|]; [|done]. apply (inj Some) in P5.
    destruct (incident x e0) eqn:Einc; [|simpl; congruence]. exfalso.
    destruct (gw_edge _ (nw_graph _ _ _ (kw_net _ W1)) _ _ Hi) as [_ Hends].
    destruct (Hends In) as [mt Hmt]. simpl in Hmt.
    pose proof (nw_edge_ns _ _ _ (kw_net _ W1) i e m mt Hi Hm Hmt) as Hee.
    apply incident_spec in Einc as [d Hd]. rewrite (estat_endpoint d e0 e P5) in Hd.
    destruct d; simpl in Hd; subst x; congruence.
  - intros i e' Hi. specialize (He i). rewrite Hi in He.
    destruct (slab_get (ks_edges s) i) as [e0|] eqn:E0; [|done]. destruct (incident x e0); [done|].
    apply (inj Some) in He. destruct (P6 i e0 E0) as (e & ? & ?). exists e. split; [done|congruence].
Qed.

(** Setting the head of an empty list to nil changes nothing. *)
Lemma net_wf_reset_head heads nodes edges ns :
  net_wf heads nodes edges -> 0 <= ns < MAX_NAMESPACES ->
  (forall i n, slab_get nodes i = Some n -> nd_namespace_id n <> ns) ->
  vec_set heads ns NS_LIST_NIL = heads.
Proof.
  intros [V1 _ _] Hns Hno. destruct V1 as [H1 _ _ V4]. destruct (V4 ns Hns) as (l & (Hh & Hs & _) & _).
  assert (l = []) as ->.
  { destruct l as [|x l]; [done|]. destruct Hs as [(r & Hr & Hn & _) _]. by destruct (Hno x r Hr). }
  simpl in Hh. unfold vec_set. destruct (in_range heads ns) eqn:E; [|done].
  apply vec_get_Some in Hh as [_ Hh]. by apply list_insert_id.
Qed.

(** Namespace [ns] was emptied of its linked records and of its nodes; nothing
    else was touched. *)
Record dropped (ns : Z) (s s' : KernelState) : Prop := {
  dr_half : (ks_dim s', ks_version s', ks_keys s', ks_meta s')
            = (ks_dim s, ks_version s, ks_keys s, ks_meta s);
  dr_len : len (ks_records s') = len (ks_records s) /\ len (ks_nodes s') = len (ks_nodes s)
           /\ len (ks_edges s') = len (ks_edges s);
  dr_nodes_sub : forall i n', slab_get (ks_nodes s') i = Some n' ->
    exists n, slab_get (ks_nodes s) i = Some n /\ nstat n' = nstat n;
  dr_edges_sub : forall i e', slab_get (ks_edges s') i = Some e' ->
    exists e, slab_get (ks_edges s) i = Some e /\ estat e' = estat e;
  dr_records : forall i r, slab_get (ks_records s') i = Some r ->
    slab_get (ks_records s) i = Some r /\ (rec_namespace_id r = ns -> not_soft_deleted r = false);
  dr_records_keep : forall i r, slab_get (ks_records s) i = Some r -> rec_namespace_id r <> ns ->
    slab_get (ks_records s') i = Some r;
  dr_nodes : forall i n, slab_get (ks_nodes s') i = Some n -> nd_namespace_id n <> ns;
  dr_nodes_keep : forall i n, slab_get (ks_nodes s) i = Some n -> nd_namespace_id n <> ns ->
    nstat <$> slab_get (ks_nodes s') i = Some (nstat n);
  dr_edges_keep : forall i e n, slab_get (ks_edges s) i = Some e ->
    slab_get (ks_nodes s) (ed_from e) = Some n -> nd_namespace_id n <> ns ->
    estat <$> slab_get (ks_edges s') i = Some (estat e);
}.

Lemma arm_drop_namespace_spec ns s :
  kernel_wf s -> 0 <= ns ->
  wp (arm_drop_namespace ns) s
    (fun _ s' => kernel_wf s' /\ 0 < ns < MAX_NAMESPACES /\ dropped ns s s')
    (fun e s' => e = InvalidOperation /\ s' = s /\ (ns = 0 \/ MAX_NAMESPACES <= ns)).
Proof.
  intros W Hns0. pose proof W as [W1 W2 W3]. unfold arm_drop_namespace, check_ns.
  wp_step. wp_step; [auto|]. wp_step. wp_step; [auto|]. wp_step. wp_step.
  assert (0 <= ns < MAX_NAMESPACES) as Hns by lia.
  destruct (wf_lists _ _ _ (rw_list _ _ _ _ W1) ns Hns) as (l & Hl & Hcov).
  pose proof Hl as (Hh & Hseg & Hnd). wp_step. eapply wp_lift_ok; [by rewrite Hh|].
  pose proof (seg_length _ _ _ _ _ Hseg Hnd) as Hll.
  destruct (drop_records_ok l ns _ (S (S (length (ks_records s)))) s
              (wf_len _ _ _ (rw_list _ _ _ _ W1)) Hseg Hnd ltac:(lia)) as (pool' & Hrun & Hlen & Hget).
  wp_step. eapply wp_run; [exact Hrun|]. wp_step. unfold set_record_head. wp_step. wp_step. wp_step.
  match goal with |- wp _ ?st _ _ => set (s1 := st) end.
  assert (kernel_wf s1) as Ws1.
  { split; [|done|done]. unfold s1. simpl. by eapply rec_wf_drop. }
  destruct (wf_lists _ _ _ (nw_list _ _ _ W2) ns Hns) as (ln & Hln & Hcovn).
  pose proof Hln as (Hhn & Hsegn & Hndn). simpl in Hcovn. wp_step.
  eapply wp_lift_ok; [change (ks_node_heads s1) with (ks_node_heads s); by rewrite Hhn|].
  pose proof (seg_length _ _ _ _ _ Hsegn Hndn) as Hlln.
  wp_step. eapply wp_lift_ok.
  { apply (collect_nodes_ok ln ns NS_LIST_NIL _ (ks_nodes s)); [apply W2|done|simpl; lia]. }
  wp_step.
  set (I := fun todo st => purged ns todo s1 st /\ forall x, x ∈ todo -> x ∈ ln).
  apply (wp_mono _ _ (fun _ s' => I [] s') _ (fun _ _ => False)); [|done|].
  - intros _ s2 [[P1 P2 [Pn Pe] P3 P4 P5 P6] _]. unfold set_node_head. wp_step.
    assert (forall i n, slab_get (ks_nodes s2) i = Some n -> nd_namespace_id n <> ns) as Hgone.
    { intros i n Hn Hc. destruct (P3 i n Hn) as (m & _ & Hst & Hin).
      unfold nstat in Hst. injection Hst as _ _ _ Hst. rewrite Hst in Hc.
      by apply Hin, elem_of_nil in Hc. }
    rewrite (net_wf_reset_head _ _ _ ns (kw_net _ P1) Hns Hgone).
    assert (ks_set_node_list (ks_node_heads s2, ks_nodes s2) s2 = s2) as -> by by destruct s2.
    split; [done|]. split; [lia|]. unfold rec_half, s1 in P2. simpl in P2.
    injection P2 as Q1 Q2 Q3 Q4 Q5 Q6 Q7. split; [congruence|..]; try done.
    + by rewrite Q3.
    + intros i n' Hn'. destruct (P3 i n' Hn') as (n & ? & ? & _). eauto.
    + intros i r. rewrite Q3, Hget. case_decide as Hi; [done|]. intros Hr. split; [done|].
      intros Hc. destruct (not_soft_deleted r) eqn:E; [|done]. destruct Hi. by apply (Hcov i r Hr Hc).
    + intros i r Hr Hne. rewrite Q3, Hget. rewrite decide_False; [done|]. intros Hi.
      destruct (seg_elem _ _ _ _ _ _ Hseg Hi) as (r' & Hr' & Hc). simplify_eq.
  - apply wp_for.
    + intros x xs st [HP Hsub]. 
      apply (wp_mono _ _ (fun _ s' => purged ns xs s1 s') _ (fun _ _ => False)); [|done|].
      * intros _ s2 HP2. split; [done|]. intros y Hy. apply Hsub. by right.
      * apply purge_node; [done|done|]. apply (seg_elem _ _ _ _ _ _ Hsegn), Hsub. by left.
    + split; [|done]. split; try done.
      * intros i n' Hn'. exists n'. split; [done|]. split; [done|]. intros Hc. by apply (Hcovn i n').
      * intros i n Hn _. by rewrite Hn.
      * intros i e n Hi _ _. by rewrite Hi.
      * eauto.
Qed.

(** ** The metadata map *)
Lemma bytes_cmp_refl a : bytes_cmp a a = Eq.
Proof. induction a as [|x a IH]; simpl; [done|]. by rewrite Z.compare_refl. Qed.

Lemma bytes_cmp_eq a b : bytes_cmp a b = Eq -> a = b.
Proof.
  revert b. induction a as [|x a IH]; intros [|y b]; simpl; try done.
  destruct (Z.compare_spec x y); try done. intros ?%IH. by subst.
Qed.

Lemma bytes_cmp_antisym a b : bytes_cmp b a = CompOpp (bytes_cmp a b).
Proof.
  revert b. induction a as [|x a IH]; intros [|y b]; simpl; try done.
  rewrite (Z.compare_antisym x y). destruct (x ?= y); simpl; done.
Qed.

Lemma bytes_cmp_trans a b c : bytes_cmp a b = Lt -> bytes_cmp b c = Lt -> bytes_cmp a c = Lt.
Proof.
  revert b c. induction a as [|x a IH]; intros [|y b] [|z c]; simpl; try done.
  destruct (Z.compare_spec x y), (Z.compare_spec y z), (Z.compare_spec x z); try done; try lia.
  apply IH.
Qed.

Lemma btree_insert_keys k v m x : x ∈ btree_insert k v m -> x = (k, v) \/ x ∈ m.
Proof.
  induction m as [|[k' v'] m IH]; simpl.
  - rewrite list_elem_of_singleton. auto.
  - destruct (bytes_cmp k k'); rewrite !elem_of_cons; naive_solver.
Qed.

Lemma btree_insert_sorted k v m : meta_sorted m -> meta_sorted (btree_insert k v m).
Proof.
  unfold meta_sorted. induction 1 as [|[k' v'] m Hs IH Hf]; simpl; [repeat constructor|].
  destruct (bytes_cmp k k') eqn:E.
  - apply bytes_cmp_eq in E as ->. by constructor.
  - constructor; [by constructor|]. constructor; [done|].
    eapply Forall_impl; [exact Hf|]. intros [k2 v2] Hk2. simpl in *. by eapply bytes_cmp_trans.
  - constructor; [done|]. apply Forall_forall. intros x [->|Hx]%btree_insert_keys.
    + simpl. by rewrite bytes_cmp_antisym, E.
    + by eapply Forall_forall in Hf.
Qed.

Lemma btree_get_insert k v m k' :
  meta_sorted m ->
  btree_get k' (btree_insert k v m) = if decide (k' = k) then Some v else btree_get k' m.
Proof.
  unfold meta_sorted. induction 1 as [|[k1 v1] m Hs IH Hf]; simpl.
  - case_decide as Hd; [subst; by rewrite bytes_cmp_refl|]. destruct (bytes_cmp k' k) eqn:E; try done.
    by apply bytes_cmp_eq in E.
  - destruct (bytes_cmp k k1) eqn:E; simpl.
    + apply bytes_cmp_eq in E as ->. case_decide as Hd; [subst; by rewrite bytes_cmp_refl|].
      destruct (bytes_cmp k' k1) eqn:E; try done. by apply bytes_cmp_eq in E.
    + case_decide as Hd; [subst; by rewrite bytes_cmp_refl|].
      destruct (bytes_cmp k' k) eqn:E'; try done. by apply bytes_cmp_eq in E'.
    + rewrite IH. destruct (bytes_cmp k' k1) eqn:E1; [|done..]. apply bytes_cmp_eq in E1 as ->.
      case_decide; [subst; by rewrite bytes_cmp_refl in E|done].
Qed.
