(* ===== verification/KernelTheorems.v ===== *)
(** * Theorems about the kernel

    The properties of [apply_event_ns], of the searches and of the read methods
    that hold of every state the kernel can reach. *)

From S2P Require Import Prelude.
From S2P Require Import Hoare.
From S2P Require Import Core.
From S2P Require Import Fxp.
From S2P Require Import TopK.
From S2P Require Import Slab.
From S2P Require Import Records.
From S2P Require Import Graph.
From S2P Require Import GraphProofs.
From S2P Require Import Index.
From S2P Require Import Event.
From S2P Require Import Kernel.
From S2P Require Import KernelWf.
From S2P Require Import KernelProofs.

(** ** One specification for all events *)

(** Events the kernel may be given: namespace numbers are unsigned, and a
    record is deleted or tombstoned at most once. *)
Definition evt_ok (s : KernelState) (evt : KernelEvent) (ns : Z) : Prop :=
  0 <= ns /\ match evt with
             | DeleteRecord id | SoftDeleteRecord id => deletable s id
             | AutoInsertRecordEncrypted ens _ _ _ => 0 <= ens
             | _ => True
             end.

(** The effect of an event that succeeded, before the version bump. *)
Definition arm_post (evt : KernelEvent) (ns : Z) (s s' : KernelState) : Prop :=
  let rid := len (ks_records s) in
  match evt with
  | InsertRecord id v m t =>
      id = rid /\ inserted (Record_new rid v m t ns) (on_insert rid v (ks_index s)) (ks_keys s) s s'
  | AutoInsertRecord v m t =>
      inserted (Record_new rid v m t ns) (on_insert rid v (ks_index s)) (ks_keys s) s s'
  | DeleteRecord id => removed id (fun p => slab_clear p id) s s'
  | SoftDeleteRecord id => removed id (fun p => slab_alter tombstone p id) s s'
  | CreateNode id kind record =>
      id = len (ks_nodes s) /\ node_record_ok s record ns
      /\ node_inserted (GraphNode_new (len (ks_nodes s)) kind record ns) s s'
  | AutoCreateNode kind record =>
      node_record_ok s record ns
      /\ node_inserted (GraphNode_new (len (ks_nodes s)) kind record ns) s s'
  | CreateEdge id from to kind => id = len (ks_edges s) /\ edge_inserted from to kind s s'
  | AutoCreateEdge from to kind => edge_inserted from to kind s s'
  | DeleteEdge id => edge_deleted id s s'
  | DeleteNode id => node_deleted id s s'
  | InsertRecordEncrypted id key_id ct _ t =>
      id = rid /\ exists dim, ks_dim s = Some dim
      /\ inserted (mark_encrypted (Record_new rid (new_zeros dim) (Some ct) t ns)) (ks_index s)
           (add_key key_id rid (ks_keys s)) s s'
  | AutoInsertRecordEncrypted ens key_id ct t =>
      exists dim, ks_dim s = Some dim
      /\ inserted (mark_encrypted (Record_new rid (new_zeros dim) (Some ct) t ens)) (ks_index s)
           (add_key key_id rid (ks_keys s)) s s'
  | ShredKey key_id =>
      s' = ks_set_keys (delete key_id (ks_keys s))
             (ks_set_records (foldl (slab_alter shred) (ks_records s)
                                (default [] (ks_keys s !! key_id))) s)
  | UpdateRecordMetadata id m =>
      is_Some (slab_get (ks_records s) id)
      /\ s' = ks_set_records (slab_alter (rec_set_metadata m) (ks_records s) id) s
  | SetMeta k v => s' = ks_set_meta (btree_insert k v (ks_meta s)) s
  | AutoCreateNamespace _ => s' = s
  | DropNamespace _ => dropped ns s s'
  end.

Lemma arm_post_version evt ns s s' : arm_post evt ns s s' -> ks_version s' = ks_version s.
Proof.
  destruct evt; simpl; unfold inserted, removed, node_inserted, edge_inserted, edge_deleted, node_deleted;
    intros Hp; destruct_and?; try (destruct Hp as [Hp]; injection Hp; congruence);
    repeat match goal with
           | H : exists _, _ |- _ => destruct H
           | H : _ /\ _ |- _ => destruct H
           end; subst; done.
Qed.

Lemma wrap_next {A} (l : list A) : len l < u32_MAX -> wrap_u32 (len l) = len l.
Proof. intros. apply wrap_len. lia. Qed.

Ltac use_next Hw := match goal with H : wrap_u32 _ = ?id |- _ => rewrite Hw in H; subst id end.

(** The arms, with the bump applied afterwards. *)
Lemma apply_event_spec evt ns s :
  kernel_wf s -> room s -> evt_ok s evt ns ->
  wp (apply_event_ns evt ns) s
    (fun _ s' => kernel_wf s'
       /\ exists s1, arm_post evt ns s s1 /\ s' = ks_set_version (ks_version s + 1) s1)
    (err_frame s).
Proof.
  intros W Hroom [Hns Hevt]. pose proof Hroom as (Hr1 & Hr2 & Hr3 & Hr4).
  unfold apply_event_ns. wp_step.
  apply (wp_mono _ _ (fun _ s1 => kernel_wf s1 /\ arm_post evt ns s s1) _ (err_frame s)); [|done|].
  { intros _ s1 [W1 Hpost]. pose proof (arm_post_version _ _ _ _ Hpost) as Hv.
    unfold bump_version. wp_step. wp_step. wp_step. unfold Version_next.
    rewrite Hv, (proj2 (Z.ltb_lt _ _) Hr4).
    eapply wp_lift_ok; [done|]. wp_step.
    split; [destruct W1 as [V1 V2 V3]; by split|]. eauto. }
  pose proof (wrap_next (ks_records s) Hr1) as Hw1. pose proof (wrap_next (ks_nodes s) Hr2) as Hw2.
  pose proof (wrap_next (ks_edges s) Hr3) as Hw3.
  assert (forall e s', s' = s -> err_frame s e s') as Hsame by (intros e s' ->; by left).
  destruct evt; simpl in *.
  - unfold arm_insert_record, check_ns. wp_step. wp_step; [by left|]. wp_step. wp_step. wp_step.
    wp_step; [by left|]. unfold rp_next_id in *. use_next Hw1.
    eapply wp_mono; [| |apply insert_checked_spec; [done|done|lia]]; [|naive_solver].
    intros a s' (? & _ & ?). auto.
  - eapply wp_mono; [| |by apply arm_delete_record_spec]; [intros [] s' [? ?]; auto|].
    intros e s' (_ & ? & _). auto.
  - unfold arm_create_node, check_ns. wp_step. wp_step; [by left|]. wp_step. wp_step. wp_step.
    wp_step; [by left|]. unfold next_node_id in *. use_next Hw2.
    eapply wp_mono; [| |apply insert_node_spec; [done|done|lia]]; [|by auto]. intros a s' (? & ? & ?). auto.
  - unfold arm_create_edge. wp_step. wp_step. wp_step. wp_step; [by left|].
    unfold next_edge_id in *. use_next Hw3.
    eapply wp_mono; [| |by apply insert_edge_spec]; [|by auto]. intros a s' (? & ?). auto.
  - eapply wp_mono; [| |by apply arm_delete_edge_spec]; [intros a s' [? ?]; auto|].
    intros e s' (_ & ? & _). auto.
  - eapply wp_mono; [| |by apply arm_soft_delete_record_spec]; [intros a s' [? ?]; auto|].
    intros e s' (_ & ? & _). auto.
  - eapply wp_mono; [| |by apply arm_delete_node_spec]; [intros a s' [? ?]; auto|].
    intros e s' (_ & ? & _). auto.
  - eapply wp_mono; [| |by apply arm_insert_encrypted_spec]; [|by auto].
    intros a s' (? & -> & _ & ?). auto.
  - eapply wp_mono; [| |by apply apply_shred_key_spec]; [|done]. intros a s' (? & ?). auto.
  - unfold arm_auto_insert_record, check_ns. wp_step. wp_step; [by left|].
    eapply wp_mono; [| |apply insert_checked_spec; [done|done|lia]]; [|naive_solver].
    intros a s' (? & _ & ?). auto.
  - unfold arm_auto_create_node, check_ns. wp_step. wp_step. wp_step. wp_step; [by left|].
    eapply wp_mono; [| |apply insert_node_spec; [done|done|lia]]; [|by auto]. intros a s' (? & ? & ?). auto.
  - eapply wp_mono; [| |by apply insert_edge_spec]; [|by auto]. intros a s' (? & ?). auto.
  - wp_step. wp_step. unfold next_record_id. rewrite Hw1.
    eapply wp_mono; [| |by apply arm_insert_encrypted_spec]; [|by auto].
    intros a s' (? & _ & _ & ?). auto.
  - eapply wp_mono; [| |by apply update_metadata_spec]; [intros a s' (? & ? & ?); auto|].
    intros e s' (_ & ? & _). auto.
  - wp_step. split; [|done]. destruct W as [W1 W2 W3]. split; [done|done|]. by apply btree_insert_sorted.
  - unfold check_ns. wp_step; [by left|done].
  - eapply wp_mono; [| |by apply arm_drop_namespace_spec]; [intros a s' (? & _ & ?); auto|].
    intros e s' (_ & ? & _). auto.
Qed.

(** C1: From a well-formed kernel state with room in its id ranges, every one
    of the event arms of apply_event_ns, with any event that does not delete an
    already soft-deleted record, returns (no panic, no endless loop) with Ok or an
    error, and the state it leaves is well formed again: slot i of each pool holds
    the item with id i; the record list of every namespace visits exactly the
    records of that namespace that are not soft-deleted, and its node list exactly
    the nodes, each once and with matching back pointers (a soft-deleted record is
    in no list); every adjacency list visits exactly the edges that leave (enter)
    its node, and edges join live nodes of one namespace. *)
Theorem apply_event_preserves_invariant evt ns s s' o :
  kernel_wf s -> room s -> evt_ok s evt ns -> apply_event_ns evt ns s = (s', o) ->
  returns o /\ kernel_wf s'.
Proof.
  intros W Hr He Hrun. pose proof (apply_event_spec evt ns s W Hr He) as Hs. unfold wp in Hs.
  rewrite Hrun in Hs. destruct o as [u|e| |]; try done; [by destruct Hs|].
  split; [done|]. by eapply err_frame_wf.
Qed.

(** A first insert into a fresh kernel. *)
Lemma apply_event_preserves_invariant_witness :
  let '(s', o) := apply_event_ns (AutoInsertRecord [65536; 0] (Some [7]) 5) 3 KernelState_new in
  returns o /\ kernel_wf s'.
Proof.
  destruct (apply_event_ns (AutoInsertRecord [65536; 0] (Some [7]) 5) 3 KernelState_new)
    as [s' o] eqn:E.
  apply (apply_event_preserves_invariant (AutoInsertRecord [65536; 0] (Some [7]) 5) 3
           KernelState_new s' o).
  - apply kernel_wf_new.
  - vm_compute. done.
  - split; [lia|exact I].
  - exact E.
Defined.

(** An event that apply_event_ns rejects leaves the state as it was, with one
    exception: a first insert refused with MetadataTooLarge leaves the dimension
    it had set behind. An event it accepts increments the version by exactly one.
    *)
Theorem apply_event_atomic evt ns s s' o :
  kernel_wf s -> room s -> evt_ok s evt ns -> apply_event_ns evt ns s = (s', o) ->
  match o with
  | Ok _ => ks_version s' = ks_version s + 1
  | Err e => s' = s \/ ks_dim s = None /\ e = MetadataTooLarge
                       /\ exists d, s' = ks_set_dim (Some d) s
  | Panic | Hang => False
  end.
Proof.
  intros W Hr He Hrun. pose proof (apply_event_spec evt ns s W Hr He) as Hs. unfold wp in Hs.
  rewrite Hrun in Hs. destruct o as [u|e| |]; try done.
  - destruct Hs as (_ & s1 & _ & ->). done.
  - destruct Hs as [->|(? & ? & d & _ & ->)]; [by left|right; eauto].
Qed.

(** A refused event: the namespace number is out of range. *)
Lemma apply_event_atomic_witness :
  exists s', apply_event_ns (AutoCreateNode NConcept None) 1024 KernelState_new
             = (s', Err InvalidOperation)
    /\ (s' = KernelState_new \/ ks_dim KernelState_new = None /\ InvalidOperation = MetadataTooLarge
        /\ exists d, s' = ks_set_dim (Some d) KernelState_new).
Proof.
  eexists. split; [vm_compute; reflexivity|].
  apply (apply_event_atomic (AutoCreateNode NConcept None) 1024 KernelState_new _ (Err InvalidOperation)).
  - apply kernel_wf_new.
  - vm_compute. done.
  - split; [lia|exact I].
  - vm_compute. reflexivity.
Defined.

(** ** Reachable states *)
Lemma uniform_dim s :
  rec_wf (ks_dim s) (ks_record_heads s) (ks_records s) (ks_index s) ->
  exists d, uniform d (ks_records s) /\ (ks_dim s = Some d \/ ks_dim s = None /\ d = 0).
Proof.
  intros W. destruct (ks_dim s) as [d|] eqn:E.
  - exists d. split; [|by left]. intros i r Hr. pose proof (rw_dim _ _ _ _ W i r Hr). congruence.
  - exists 0. split; [|by right]. intros i r Hr. pose proof (rw_dim _ _ _ _ W i r Hr). congruence.
Qed.

Lemma set_index_kind_wf v s : kernel_wf s -> kernel_wf (set_index_kind v s).
Proof.
  intros [W1 W2 W3].
  assert (kernel_wf (ks_set_index (BinaryQuantization (bq_rebuild (ks_records s))) s)) as Hbq.
  { destruct (uniform_dim s W1) as (d & Hu & Hd). split; [|done|done].
    destruct W1 as [V1 V2 V3 V4 V5]. split; try done. simpl. split; [by eapply bq_ok_rebuild|].
    assert (bq_dim (bq_rebuild (ks_records s)) = first_dim (ks_records s)) as ->
      by (unfold bq_rebuild; by case_match).
    destruct (first_dim_uniform d _ Hu) as [->|[-> _]]; [|by left].
    destruct Hd as [->|[_ ->]]; [by right|by left]. }
  assert (kernel_wf (ks_set_index BruteForce s)) as Hbf.
  { split; [|done|done]. destruct W1 as [V1 V2 V3 V4 V5]. by split. }
  unfold set_index_kind. destruct (index_variant (ks_index s)), v; simpl; try done; by split.
Qed.

(** A step of a running kernel: an event, whatever it returns, or a switch of
    the index. *)
Inductive kstep : KernelState -> KernelState -> Prop :=
| kstep_event evt ns s s' o :
    room s -> evt_ok s evt ns -> apply_event_ns evt ns s = (s', o) -> kstep s s'
| kstep_index v s : kstep s (set_index_kind v s).

Lemma kstep_wf s s' : kstep s s' -> kernel_wf s -> kernel_wf s'.
Proof.
  intros [evt ns t t' o Hr He Hrun|v t] W; [|by apply set_index_kind_wf].
  pose proof (apply_event_spec evt ns t W Hr He) as Hs. unfold wp in Hs. rewrite Hrun in Hs.
  destruct o; try done; [by destruct Hs|by eapply err_frame_wf].
Qed.

Definition reachable (s : KernelState) : Prop := rtc kstep KernelState_new s.

Lemma reachable_kernel_wf s : reachable s -> kernel_wf s.
Proof.
  intros Hs. refine (rtc_ind_r (R := kstep) (fun s => kernel_wf s) KernelState_new _ _ s Hs).
  - apply kernel_wf_new.
  - intros y z _ Hyz Wy. by eapply kstep_wf.
Qed.

(** ** Namespace search *)

(** What a namespace search ranks: the active records of the namespace. *)
Definition ns_candidates (path : SimdPath) (s : KernelState) (query : FxpVector) (ns : Z)
    : list SearchResult :=
  score path query <$> iter_records_in_ns s ns.

(** The candidates met on a list of slots. *)
Definition visit (path : SimdPath) (pool : RecordPool) (query : FxpVector) (i : Z) : option SearchResult :=
  match slab_get pool i with
  | Some r => if is_active r then Some (mkResult (fxp_l2_sq path (rec_vector r) query) i) else None
  | None => None
  end.

Lemma ns_walk_ok path (pool : RecordPool) query k ns p l fuel st :
  len pool <= NS_LIST_NIL -> seg pool ns p l NS_LIST_NIL -> (length l <= fuel)%nat ->
  ns_walk path pool query k fuel st (default NS_LIST_NIL (head l))
  = Ok (foldl (offer_shift k) st (omap (visit path pool query) l)).
Proof.
  intros Hlen. revert p fuel st. induction l as [|x l IH]; intros p fuel st Hs Hf; [by destruct fuel|].
  destruct fuel as [|fuel]; [simpl in Hf; lia|]. destruct Hs as [(r & Hr & _ & _ & Hnext) Hs].
  pose proof (slab_get_lt _ _ _ Hr). simpl. rewrite (proj2 (Z.eqb_neq x NS_LIST_NIL)) by lia.
  unfold visit at 1. rewrite Hr. simpl in Hnext. rewrite Hnext.
  rewrite (IH x) by (done || simpl in Hf; lia). by destruct (is_active r).
Qed.

Lemma ids_ok_snoc pool o : ids_ok (pool ++ [o]) -> ids_ok pool.
Proof.
  intros Hi i r Hr. apply Hi. rewrite slab_get_push_lt; [done|]. apply slab_get_lt in Hr. lia.
Qed.

Lemma rp_iter_NoDup pool : ids_ok pool -> NoDup (rec_id <$> rp_iter pool).
Proof.
  intros Hi. unfold rp_iter.
  apply (sublist_NoDup _ (rec_id <$> omap (fun o => o) pool)); [|apply fmap_sublist, sublist_filter].
  induction pool as [|o pool IH] using rev_ind; [constructor|]. specialize (IH (ids_ok_snoc _ _ Hi)).
  rewrite omap_app, fmap_app. destruct o as [r|]; simpl; [|by rewrite app_nil_r].
  apply NoDup_app. split; [done|]. split; [|apply NoDup_singleton].
  intros x (r' & -> & Hr')%list_elem_of_fmap Hc%list_elem_of_singleton.
  apply list_elem_of_omap in Hr' as (o & Ho & ->). apply list_elem_of_lookup in Ho as [n Hn].
  pose proof (lookup_lt_Some _ _ _ Hn) as Hlt.
  assert (rec_id r' = Z.of_nat n) as H1.
  { apply Hi. apply slab_get_vec. rewrite vec_get_nat. by rewrite lookup_app_l. }
  assert (rec_id r = len pool) as H2 by (apply Hi, slab_get_push_eq).
  unfold len in H2. lia.
Qed.

Lemma omap_visit_elem path (pool : RecordPool) query (l : list Z) x :
  x ∈ omap (visit path pool query) l <->
  exists i r, i ∈ l /\ slab_get pool i = Some r /\ is_active r = true
              /\ x = mkResult (fxp_l2_sq path (rec_vector r) query) i.
Proof.
  rewrite list_elem_of_omap. unfold visit. split.
  - intros (i & Hi & Hx). destruct (slab_get pool i) as [r|] eqn:E; [|done].
    destruct (is_active r) eqn:Ea; [|done]. simplify_eq. eauto 10.
  - intros (i & r & Hi & Hr & Ha & ->). exists i. by rewrite Hr, Ha.
Qed.

Lemma NoDup_omap_visit path (pool : RecordPool) query (l : list Z) :
  NoDup l -> NoDup (omap (visit path pool query) l).
Proof.
  induction 1 as [|i l Hi Hnd IH]; simpl; [constructor|].
  destruct (visit path pool query i) as [x|] eqn:E; [|done]. constructor; [|done].
  intros (j & r & Hj & Hr & Ha & ->)%omap_visit_elem. unfold visit in E.
  destruct (slab_get pool i) as [r'|]; [|done]. destruct (is_active r'); [|done]. by simplify_eq.
Qed.

Lemma ns_candidates_perm path s query ns (l : list Z) :
  ids_ok (ks_records s) ->
  (forall i, i ∈ l -> exists r, slab_get (ks_records s) i = Some r /\ rec_namespace_id r = ns) ->
  (forall i r, slab_get (ks_records s) i = Some r -> rec_namespace_id r = ns -> is_active r = true -> i ∈ l) ->
  NoDup l ->
  omap (visit path (ks_records s) query) l ≡ₚ ns_candidates path s query ns.
Proof.
  intros Hids Hl Hcov Hnd. apply NoDup_Permutation; [by apply NoDup_omap_visit| |].
  - unfold ns_candidates, iter_records_in_ns.
    apply (NoDup_fmap_1 sr_id). rewrite <- list_fmap_compose.
    apply (sublist_NoDup _ (rec_id <$> rp_iter (ks_records s))); [by apply rp_iter_NoDup|].
    apply (fmap_sublist (sr_id ∘ score path query)), sublist_filter.
  - intros x. rewrite omap_visit_elem. unfold ns_candidates, iter_records_in_ns.
    rewrite list_elem_of_fmap. split.
    + intros (i & r & Hi & Hr & Ha & ->). exists r.
      destruct (Hl i Hi) as (r' & Hr' & Hns). simplify_eq. split.
      * unfold score. f_equal. symmetry. by apply Hids.
      * apply list_elem_of_filter. split; [done|]. apply rp_iter_elem. eauto.
    + intros (r & -> & [Hns [[i Hi] Ha]%rp_iter_elem]%list_elem_of_filter). exists i, r.
      split; [by eapply Hcov|]. split; [done|]. split; [done|]. unfold score. f_equal. by apply Hids.
Qed.

Lemma search_l2_ns_ok path s query results ns :
  kernel_wf s -> 0 <= ns < MAX_NAMESPACES ->
  exists out rest,
    best_k (length results) (ns_candidates path s query ns) out
    /\ search_l2_ns path s query results ns = Ok (out ++ rest, len out).
Proof.
  intros [W1 _ _] Hns. unfold search_l2_ns. rewrite (proj2 (Z.leb_gt _ _)) by lia.
  destruct results as [|r0 results].
  { exists [], []. split; [apply (topk_best_k 0)|done]. }
  set (k := length (r0 :: results)). simpl Nat.eqb. cbv iota.
  destruct W1 as [V1 V2 _ _ _]. destruct (wf_lists _ _ _ V1 ns Hns) as (l & (Hh & Hs & Hnd) & Hcov).
  rewrite Hh. cbn [unwrap obind]. pose proof (wf_len _ _ _ V1) as Hlen.
  rewrite (ns_walk_ok path _ query k ns NS_LIST_NIL l (S (length (ks_records s))) _ Hlen Hs)
    by (pose proof (seg_length _ _ _ _ _ Hs Hnd); lia).
  destruct (filled_topk k (offer_shift k) (replicate k sentinel)
              (omap (visit path (ks_records s) query) l)) as [rest Hr].
  - intros. apply offer_shift_filled; [unfold k; simpl; lia|done].
  - apply length_replicate.
  - cbn [obind]. rewrite Hr. eexists _, rest. split; [|done].
    rewrite (topk_perm k _ (ns_candidates path s query ns)); [apply topk_best_k|].
    apply ns_candidates_perm; [done| | |done].
    + intros i Hi. by apply (seg_elem _ _ _ _ _ _ Hs).
    + intros i r Hi Hr' Ha. apply (Hcov i r); [done|done|]. by apply is_active_not_soft_deleted.
Qed.

(** What a search of a namespace is meant to rank: its searchable records, which
    are the active ones that are not encrypted. *)
Definition searchable_candidates (path : SimdPath) (s : KernelState) (query : FxpVector) (ns : Z) : list SearchResult :=
  score path query <$> filter (fun r => rec_namespace_id r = ns /\ is_searchable r = true) (omap (fun o => o) (ks_records s)).

(** No record of the namespace is encrypted. *)
Definition plain_namespace (s : KernelState) (ns : Z) : Prop :=
  forall i r, slab_get (ks_records s) i = Some r -> rec_namespace_id r = ns -> Z.land (rec_flags r) FLAG_ENCRYPTED = 0.

Lemma searchable_iff r :
  is_searchable r = true <-> is_active r = true /\ Z.land (rec_flags r) FLAG_ENCRYPTED = 0.
Proof.
  unfold is_searchable, is_active. rewrite !Z.eqb_eq, !Z.land_lor_distr_r, !Z.lor_eq_0_iff. tauto.
Qed.

Lemma candidates_searchable path s query ns :
  plain_namespace s ns -> ns_candidates path s query ns = searchable_candidates path s query ns.
Proof.
  intros Hp. unfold ns_candidates, searchable_candidates, iter_records_in_ns, rp_iter. f_equal.
  rewrite list_filter_filter. apply filter_ext_in. intros r (o & Ho & ->)%list_elem_of_omap.
  apply list_elem_of_lookup in Ho as [i Hi]. rewrite searchable_iff. split; [|tauto]. intros [Hns Ha].
  split; [done|]. split; [done|]. apply (Hp (Z.of_nat i)); [|done]. apply slab_get_vec. by rewrite vec_get_nat.
Qed.

(** C2: In every reachable state and every namespace in range that holds no
    encrypted record, search_l2_ns returns, on every SIMD path, exactly the k best
    searchable records of that namespace: the results are sorted by (distance,
    id), each is the result of a searchable record of the namespace with its
    distance to the query, and no candidate left out ranks before one returned.
    Reachable means by events within the id ranges none of which deletes an
    already soft-deleted record. *)
Theorem search_l2_ns_exact path s query results ns :
  reachable s -> 0 <= ns < MAX_NAMESPACES -> plain_namespace s ns ->
  exists out rest,
    best_k (length results) (searchable_candidates path s query ns) out
    /\ search_l2_ns path s query results ns = Ok (out ++ rest, len out).
Proof.
  intros Hr Hns Hp. rewrite <- candidates_searchable by done. by apply search_l2_ns_ok, Hns; apply reachable_kernel_wf.
Qed.

(** ** Running a list of events *)
Definition run_events (evs : list (KernelEvent * Z)) (s : KernelState) : KernelState :=
  foldl (fun s e => (apply_event_ns e.1 e.2 s).1) s evs.

(** The side conditions, as a test. *)
Definition evt_okb (s : KernelState) (evt : KernelEvent) (ns : Z) : bool :=
  (0 <=? ns) && match evt with
                | DeleteRecord id | SoftDeleteRecord id =>
                    match slab_get (ks_records s) id with Some r => not_soft_deleted r | None => true end
                | AutoInsertRecordEncrypted ens _ _ _ => 0 <=? ens
                | _ => true
                end.

Definition roomb (s : KernelState) : bool :=
  (len (ks_records s) <? NS_LIST_NIL) && (len (ks_nodes s) <? NS_LIST_NIL)
  && (len (ks_edges s) <? u32_MAX) && (ks_version s <? u64_MAX).

Fixpoint history_ok (evs : list (KernelEvent * Z)) (s : KernelState) : bool :=
  match evs with
  | [] => true
  | e :: evs => roomb s && evt_okb s e.1 e.2 && history_ok evs (apply_event_ns e.1 e.2 s).1
  end.

Lemma evt_okb_ok s evt ns : evt_okb s evt ns = true -> evt_ok s evt ns.
Proof.
  unfold evt_okb. intros H. bool_prop. split; [done|].
  destruct evt; try done; try (by bool_prop); unfold deletable; intros r Hr; by rewrite Hr in *.
Qed.

Lemma roomb_ok s : roomb s = true -> room s.
Proof. unfold roomb. intros H. bool_prop. by split_and!. Qed.

Lemma history_wf evs s : kernel_wf s -> history_ok evs s = true -> kernel_wf (run_events evs s).
Proof.
  revert s. induction evs as [|[evt ns] evs IH]; intros s W Hh; [done|]. simpl in *. bool_prop.
  apply IH; [|done]. destruct (apply_event_ns evt ns s) as [s' o] eqn:E.
  eapply kstep_wf; [|exact W]. econstructor; eauto using evt_okb_ok, roomb_ok.
Qed.

(** A small store in namespace 2, with a neighbour in namespace 5. *)
Definition demo_events : list (KernelEvent * Z) :=
  [(AutoInsertRecord [65536; 0] (Some [1; 2]) 7, 2);
   (AutoInsertRecord [0; 65536] None 7, 2);
   (AutoInsertRecord [65536; 65536] None 9, 5);
   (AutoInsertRecord [131072; 0] None 7, 2);
   (SoftDeleteRecord 1, 2);
   (AutoCreateNode NRecord (Some 0), 2);
   (AutoCreateNode NConcept None, 2);
   (AutoCreateEdge 0 1 EMentions, 2);
   (AutoCreateEdge 1 0 ERefersTo, 2);
   (AutoCreateNode NAgent None, 5)].

Definition demo_state : KernelState := run_events demo_events KernelState_new.

Lemma demo_state_wf : kernel_wf demo_state.
Proof. apply history_wf; [apply kernel_wf_new|]. vm_compute. reflexivity. Qed.

Lemma history_reachable evs s :
  reachable s -> history_ok evs s = true -> reachable (run_events evs s).
Proof.
  revert s. induction evs as [|[evt ns] evs IH]; intros s Hr Hh; [done|]. simpl in *. bool_prop.
  apply IH; [|done]. destruct (apply_event_ns evt ns s) as [s' o] eqn:E.
  eapply rtc_r; [exact Hr|]. econstructor; eauto using evt_okb_ok, roomb_ok.
Qed.

Lemma demo_state_reachable : reachable demo_state.
Proof. apply history_reachable; [apply rtc_refl|]. vm_compute. reflexivity. Qed.

Lemma demo_state_plain ns : plain_namespace demo_state ns.
Proof.
  assert (Forall (fun o => match o with Some r => Z.land (rec_flags r) FLAG_ENCRYPTED = 0 | None => True end)
            (ks_records demo_state)) as Hf by (vm_compute; repeat constructor).
  intros i r Hr _. apply slab_get_vec, vec_get_Some in Hr as [_ Hr]. exact (proj1 (Forall_lookup _ _) Hf _ _ Hr).
Qed.

Lemma search_l2_ns_exact_witness :
  exists out rest,
    best_k 3 (searchable_candidates Scalar demo_state [65536; 0] 2) out
    /\ search_l2_ns Scalar demo_state [65536; 0] [sentinel; sentinel; sentinel] 2
       = Ok (out ++ rest, len out).
Proof.
  apply (search_l2_ns_exact Scalar demo_state [65536; 0] [sentinel; sentinel; sentinel] 2).
  - apply demo_state_reachable.
  - unfold MAX_NAMESPACES. lia.
  - apply demo_state_plain.
Defined.

(** ** Adjacency *)

(** In every reachable state, the outgoing (incoming) edge iterator of a live
    node terminates and yields exactly the live edges that leave (enter) it, and
    every live edge joins two live nodes of the same namespace. *)
Theorem reachable_adjacency_sound s n :
  reachable s -> is_Some (get_node s n) ->
  (exists es, outgoing_edges s n = Some (Ok es)
     /\ forall e, e ∈ es <-> get_edge s (ed_id e) = Some e /\ ed_from e = n)
  /\ (exists es, incoming_edges s n = Some (Ok es)
     /\ forall e, e ∈ es <-> get_edge s (ed_id e) = Some e /\ ed_to e = n)
  /\ forall i e, get_edge s i = Some e ->
       exists nf nt, get_node s (ed_from e) = Some nf /\ get_node s (ed_to e) = Some nt
                     /\ nd_namespace_id nf = nd_namespace_id nt.
Proof.
  intros Hr [nd Hnd]. pose proof (kw_net _ (reachable_kernel_wf s Hr)) as W.
  pose proof (nw_graph _ _ _ W) as Wg. unfold outgoing_edges, incoming_edges. rewrite Hnd. simpl.
  assert (forall d, exists es, iter_edges d (ks_edges s) (first_edge d nd) = Ok es
            /\ forall e, e ∈ es <-> get_edge s (ed_id e) = Some e /\ endpoint d e = n) as Hd.
  { intros d. destruct (iter_edges_ok d (ks_graph s) n nd Wg Hnd) as (es & Hes & Hin).
    exists es. split; [done|]. intros e. rewrite Hin. split; [|naive_solver].
    intros (i & Hi & Hep). by rewrite (proj1 (gw_edge _ Wg i e Hi)). }
  split; [|split].
  - destruct (Hd Out) as (es & Hout & Hes). exists es. split; [|done]. f_equal. exact Hout.
  - destruct (Hd In) as (es & Hin & Hes). exists es. split; [|done]. f_equal. exact Hin.
  - intros i e He. destruct (gw_edge _ Wg i e He) as [_ Hends].
    destruct (Hends Out) as [nf Hf], (Hends In) as [nt Ht]. exists nf, nt.
    split; [done|]. split; [done|]. by eapply (nw_edge_ns _ _ _ W).
Qed.

Lemma reachable_adjacency_sound_witness :
  exists es, outgoing_edges demo_state 0 = Some (Ok es)
     /\ forall e, e ∈ es <-> get_edge demo_state (ed_id e) = Some e /\ ed_from e = 0.
Proof.
  refine (proj1 (reachable_adjacency_sound demo_state 0 demo_state_reachable _)).
  vm_compute. eexists. reflexivity.
Defined.

(** ** Inserting *)

(** The static part of a record: everything but the list links. *)
Lemma inserted_lookup r index keys s s' :
  rec_id r = len (ks_records s) -> inserted r index keys s s' ->
  payload <$> get_record s' (len (ks_records s)) = Some (payload r)
  /\ (forall i, i <> len (ks_records s) -> payload <$> get_record s' i = payload <$> get_record s i)
  /\ (forall i x, get_record s i = Some x -> rec_namespace_id x <> rec_namespace_id r ->
        get_record s' i = Some x)
  /\ len (ks_records s') = len (ks_records s) + 1.
Proof.
  intros Hid (pool' & -> & [Hl Hp] & Hoth). unfold get_record, rp_get. simpl. split; [|split; [|split]].
  - rewrite Hp, slab_get_push_eq. done.
  - intros i Hne. by rewrite Hp, slab_get_push_lt.
  - intros i x Hx Hne. by apply Hoth.
  - rewrite Hl. len_lia.
Qed.

(** A successful insert stores exactly the given vector, metadata, tag and
    namespace under the next id, changes the contents of no other record, does not
    touch records of other namespaces at all, fixes the dimension, and leaves
    graph and metadata map alone. *)
Theorem insert_then_lookup v m t ns s s' :
  kernel_wf s -> room s -> 0 <= ns ->
  apply_event_ns (AutoInsertRecord v m t) ns s = (s', Ok tt) ->
  payload <$> get_record s' (next_record_id s)
    = Some (Record_new (next_record_id s) v m t ns)
  /\ (forall i, i <> next_record_id s -> payload <$> get_record s' i = payload <$> get_record s i)
  /\ (forall i x, get_record s i = Some x -> rec_namespace_id x <> ns -> get_record s' i = Some x)
  /\ ks_dim s' = Some (len v)
  /\ ks_nodes s' = ks_nodes s /\ ks_edges s' = ks_edges s /\ ks_meta s' = ks_meta s.
Proof.
  intros W Hr Hns Hrun. pose proof (apply_event_spec (AutoInsertRecord v m t) ns s W Hr) as Hs.
  specialize (Hs ltac:(by split)). unfold wp in Hs. rewrite Hrun in Hs.
  destruct Hs as (_ & s1 & Hpost & ->). simpl in Hpost. unfold next_record_id.
  rewrite (wrap_next _ (proj1 Hr)).
  pose proof Hpost as Hl. apply inserted_lookup in Hl as (H1 & H2 & H3 & _); [|done].
  split; [exact H1|]. split; [exact H2|]. split; [exact H3|].
  destruct Hpost as (pool' & -> & _). done.
Qed.

Lemma insert_then_lookup_witness :
  exists s', apply_event_ns (AutoInsertRecord [1; 2] None 3) 4 demo_state = (s', Ok tt)
    /\ payload <$> get_record s' 4 = Some (Record_new 4 [1; 2] None 3 4).
Proof.
  eexists. split; [vm_compute; reflexivity|].
  refine (proj1 (insert_then_lookup [1; 2] None 3 4 demo_state _ demo_state_wf _ _ _)).
  - vm_compute. done.
  - lia.
  - vm_compute. reflexivity.
Defined.

(** The [Auto*] events are the explicit ones at the next free id, outcome and
    state alike. *)
Theorem auto_events_allocate_next_id s ns v m t kind rec from to ek key ct ens :
  apply_event_ns (AutoInsertRecord v m t) ns s
    = apply_event_ns (InsertRecord (next_record_id s) v m t) ns s
  /\ apply_event_ns (AutoCreateNode kind rec) ns s
    = apply_event_ns (CreateNode (next_node_id s) kind rec) ns s
  /\ apply_event_ns (AutoCreateEdge from to ek) ns s
    = apply_event_ns (CreateEdge (next_edge_id s) from to ek) ns s
  /\ apply_event_ns (AutoInsertRecordEncrypted ens key ct t) ns s
    = apply_event_ns (InsertRecordEncrypted (next_record_id s) key ct None t) ens s.
Proof.
  repeat split.
  - unfold apply_event_ns, arm_insert_record, arm_auto_insert_record, check_ns, sbind, sguard, sget, sthrow, sret.
    unfold rp_next_id, next_record_id. destruct (MAX_NAMESPACES <=? ns); [done|]. by rewrite Z.eqb_refl.
  - unfold apply_event_ns, arm_create_node, arm_auto_create_node, check_ns, sbind, sguard, sget, sthrow, sret.
    destruct (MAX_NAMESPACES <=? ns); [done|]. by rewrite Z.eqb_refl.
  - unfold apply_event_ns, arm_create_edge, sbind, sguard, sget, sthrow, sret. by rewrite Z.eqb_refl.
Qed.
