(* ===== verification/KernelLifecycle.v ===== *)
(** * Deletion, erasure and the life of ids

    What an event removes and what it leaves: node cascades, namespace drops,
    tombstones, crypto-shredding, the identity of slots over time, and the
    concrete histories on which the kernel departs from its documentation. *)

From S2P Require Import Prelude.
From S2P Require Import Hoare.
From S2P Require Import Core.
From S2P Require Import Fxp.
From S2P Require Import TopK.
From S2P Require Import Slab.
From S2P Require Import Records.
From S2P Require Import Graph.
From S2P Require Import GraphProofs.
From S2P Require Import Index.
From S2P Require Import Event.
From S2P Require Import Kernel.
From S2P Require Import KernelWf.
From S2P Require Import KernelProofs.
From S2P Require Import KernelTheorems.

(** The effect of a successful event. *)
Lemma apply_ok_post evt ns s s' :
  kernel_wf s -> room s -> evt_ok s evt ns -> apply_event_ns evt ns s = (s', Ok tt) ->
  exists s1, arm_post evt ns s s1 /\ s' = ks_set_version (ks_version s + 1) s1.
Proof.
  intros W Hr He Hrun. pose proof (apply_event_spec evt ns s W Hr He) as Hs. unfold wp in Hs.
  rewrite Hrun in Hs. by destruct Hs.
Qed.

(** A successful DeleteNode removes the node and exactly the edges that touch
    it (self loops and parallel edges included), and leaves every other node,
    every other edge and all records as they were up to the list pointers. *)
Theorem delete_node_cascades id ns s s' :
  kernel_wf s -> room s -> 0 <= ns -> apply_event_ns (DeleteNode id) ns s = (s', Ok tt) ->
  get_node s' id = None
  /\ (forall i, i <> id -> nstat <$> get_node s' i = nstat <$> get_node s i)
  /\ (forall i, estat <$> get_edge s' i
                = match get_edge s i with
                  | Some e => if (ed_from e =? id) || (ed_to e =? id) then None else Some (estat e)
                  | None => None
                  end)
  /\ ks_records s' = ks_records s.
Proof.
  intros W Hr Hns Hrun. apply apply_ok_post in Hrun as (s1 & Hp & ->); [|done|done|by split].
  destruct Hp as (heads' & nodes' & edges' & -> & _ & _ & _ & Hn & He).
  unfold get_node, get_edge. simpl. split; [|split; [|split]].
  - specialize (Hn id). rewrite decide_True in Hn by done. by destruct (slab_get nodes' id).
  - intros i Hi. by rewrite Hn, decide_False.
  - intros i. by rewrite He.
  - done.
Qed.

Lemma delete_node_cascades_witness :
  exists s', apply_event_ns (DeleteNode 0) 2 demo_state = (s', Ok tt) /\ get_node s' 0 = None.
Proof.
  eexists. split; [vm_compute; reflexivity|].
  refine (proj1 (delete_node_cascades 0 2 demo_state _ demo_state_wf _ _ _)).
  - apply roomb_ok. vm_compute. reflexivity.
  - lia.
  - vm_compute. reflexivity.
Defined.

(** A successful DropNamespace leaves no active record and no node of the
    namespace, and touches nothing of any other namespace: records are
    bit-identical, nodes and edges keep everything but their list pointers. *)
Theorem drop_namespace_isolated name ns s s' :
  kernel_wf s -> room s -> 0 <= ns -> apply_event_ns (DropNamespace name) ns s = (s', Ok tt) ->
  iter_records_in_ns s' ns = []
  /\ (forall i n, get_node s' i = Some n -> nd_namespace_id n <> ns)
  /\ (forall i r, get_record s i = Some r -> rec_namespace_id r <> ns -> get_record s' i = Some r)
  /\ (forall i n, get_node s i = Some n -> nd_namespace_id n <> ns ->
        nstat <$> get_node s' i = Some (nstat n))
  /\ (forall i e n, get_edge s i = Some e -> get_node s (ed_from e) = Some n ->
        nd_namespace_id n <> ns -> estat <$> get_edge s' i = Some (estat e)).
Proof.
  intros W Hr Hns Hrun. apply apply_ok_post in Hrun as (s1 & Hp & ->); [|done|done|by split].
  destruct Hp as [_ _ _ _ D1 D2 D3 D4 D5]. split; [|split; [|split; [|split]]]; try done.
  apply elem_of_nil_inv. intros r [Hc [[i Hi] Ha]%rp_iter_elem]%list_elem_of_filter.
  destruct (D1 i r Hi) as [_ Hsd]. specialize (Hsd Hc). apply is_active_not_soft_deleted in Ha. congruence.
Qed.

Lemma drop_namespace_isolated_witness :
  exists s', apply_event_ns (DropNamespace [104; 105]) 2 demo_state = (s', Ok tt)
    /\ iter_records_in_ns s' 2 = [].
Proof.
  eexists. split; [vm_compute; reflexivity|].
  refine (proj1 (drop_namespace_isolated [104; 105] 2 demo_state _ demo_state_wf _ _ _)).
  - apply roomb_ok. vm_compute. reflexivity.
  - lia.
  - vm_compute. reflexivity.
Defined.

(** ** Tombstones *)

Lemma tombstone_inactive r : is_active (tombstone r) = false.
Proof.
  destruct (is_active (tombstone r)) eqn:E; [|done]. apply is_active_not_soft_deleted in E.
  destruct (tombstone_facts r) as (_ & _ & _ & Hn & _). congruence.
Qed.

Lemma ns_candidates_id path s query ns x :
  ids_ok (ks_records s) -> x ∈ ns_candidates path s query ns ->
  exists r, get_record s (sr_id x) = Some r /\ is_active r = true /\ rec_namespace_id r = ns
            /\ sr_score x = fxp_l2_sq path (rec_vector r) query.
Proof.
  intros Hids (r & -> & [Hns [[i Hi] Ha]%rp_iter_elem]%list_elem_of_filter)%list_elem_of_fmap.
  exists r. unfold score, get_record, rp_get. simpl. by rewrite (Hids i r Hi).
Qed.

(** A successful first SoftDeleteRecord keeps the record with its vector and
    metadata but inactive, changes no other record's contents, and from then on no
    namespace search returns the record. *)
Theorem soft_delete_hides id ns s s' :
  kernel_wf s -> room s -> 0 <= ns -> deletable s id ->
  apply_event_ns (SoftDeleteRecord id) ns s = (s', Ok tt) ->
  (exists r r', get_record s id = Some r /\ get_record s' id = Some r' /\ is_active r' = false
     /\ rec_vector r' = rec_vector r /\ rec_metadata r' = rec_metadata r)
  /\ (forall i, i <> id -> payload <$> get_record s' i = payload <$> get_record s i)
  /\ (forall path query results m, 0 <= m < MAX_NAMESPACES ->
        exists out rest, search_l2_ns path s' query results m = Ok (out ++ rest, len out)
          /\ Forall (fun x => sr_id x <> id) out).
Proof.
  intros W Hr Hns Hdel Hrun. pose proof Hrun as Hrun'.
  apply apply_ok_post in Hrun' as (s1 & Hp & Hs'); [|done|done|by split].
  destruct Hp as (r & heads' & pool' & Hget & -> & [Hl Hpl] & Hid & Hoth).
  assert (get_record s' id = Some (tombstone r)) as Hrec.
  { subst s'. unfold get_record, rp_get. simpl. by rewrite slab_get_alter_eq, Hid. }
  assert (kernel_wf s') as W'.
  { pose proof (apply_event_spec (SoftDeleteRecord id) ns s W Hr ltac:(by split)) as Hsp.
    unfold wp in Hsp. rewrite Hrun in Hsp. by destruct Hsp. }
  split; [|split].
  - exists r, (tombstone r). split; [done|]. split; [done|]. split; [apply tombstone_inactive|done].
  - intros i Hi. subst s'. unfold get_record, rp_get. simpl. by rewrite slab_get_alter_ne, Hpl.
  - intros path query results m Hm.
    destruct (search_l2_ns_ok path s' query results m W' Hm) as (out & rest & (_ & _ & rst & Hperm & _) & Hs).
    exists out, rest. split; [done|]. apply Forall_forall. intros x Hx Hc.
    assert (x ∈ ns_candidates path s' query m) as Hin by (rewrite Hperm; apply elem_of_app; by left).
    apply ns_candidates_id in Hin as (y & Hy & Ha & _); [|apply W'].
    rewrite Hc, Hrec in Hy. simplify_eq. by rewrite tombstone_inactive in Ha.
Qed.

Lemma soft_delete_hides_witness :
  exists s' r r', apply_event_ns (SoftDeleteRecord 0) 2 demo_state = (s', Ok tt)
    /\ get_record demo_state 0 = Some r /\ get_record s' 0 = Some r' /\ is_active r' = false
    /\ rec_vector r' = rec_vector r /\ rec_metadata r' = rec_metadata r.
Proof.
  eexists.
  destruct (soft_delete_hides 0 2 demo_state (apply_event_ns (SoftDeleteRecord 0) 2 demo_state).1
              demo_state_wf) as [(r & r' & H) _].
  - apply roomb_ok. vm_compute. reflexivity.
  - lia.
  - intros r Hr. vm_compute in Hr. injection Hr as <-. reflexivity.
  - vm_compute. reflexivity.
  - exists r, r'. split; [|exact H]. vm_compute. reflexivity.
Defined.

(** The same event twice: the tombstone of record 0 still holds the links of its
    time, and unlinking it again resets the head of the namespace list. *)
Definition double_delete_events : list (KernelEvent * Z) :=
  [(AutoInsertRecord [65536] None 0, 0);
   (SoftDeleteRecord 0, 0);
   (AutoInsertRecord [131072] None 0, 0);
   (SoftDeleteRecord 0, 0)].

(** A concrete history of accepted events (two inserts, the same record
    soft-deleted twice) after which the other record is still active and counted,
    found by search_l2, but not by search_l2_ns. *)
Theorem double_soft_delete_loses_live_record :
  let s := run_events double_delete_events KernelState_new in
  ks_version s = 4
  /\ (exists r, get_record s 1 = Some r /\ is_active r = true)
  /\ record_count s = 1
  /\ search_l2_ns Scalar s [131072] [sentinel] 0 = Ok ([sentinel], 0)
  /\ search_l2 Scalar s [131072] [sentinel] None = ([mkResult 0 1], 1).
Proof. vm_compute. repeat split; try done. by eexists. Qed.

(** ** Slots over time *)

(** Slots are only appended; an emptied slot stays empty; the static part of an
    entry never changes. *)
Definition evolves {A B} (st : A -> B) (p p' : slab A) : Prop :=
  len p <= len p'
  /\ forall i x', i < len p -> slab_get p' i = Some x' -> exists x, slab_get p i = Some x /\ st x' = st x.

#[export] Instance evolves_preorder {A B} (st : A -> B) : PreOrder (evolves st).
Proof.
  split; [intros p; split; [lia|eauto]|].
  intros p1 p2 p3 [H1 E1] [H2 E2]. split; [lia|]. intros i x Hi Hx.
  destruct (E2 i x ltac:(lia) Hx) as (y & Hy & Hst). destruct (E1 i y Hi Hy) as (z & Hz & Hst').
  exists z. split; [done|congruence].
Qed.

(** Id, vector, tag and namespace of a record. *)
Definition rstat (r : Record_) : Z * FxpVector * Z * Z :=
  (rec_id r, rec_vector r, rec_tag r, rec_namespace_id r).

Lemma payload_rstat (x y : Record_) : payload x = payload y -> rstat x = rstat y.
Proof. intros (? & ? & ? & ? & ? & ?)%payload_eq. unfold rstat. congruence. Qed.

Lemma evolves_fmap {A B C} (st : A -> B) (f : A -> C) (p p' : slab A) :
  (forall x y, f x = f y -> st x = st y) -> len p <= len p' ->
  (forall i, i < len p -> f <$> slab_get p' i = f <$> slab_get p i) -> evolves st p p'.
Proof.
  intros Hf Hl Hp. split; [done|]. intros i x' Hi Hx'.
  destruct (fmap_eq_Some _ _ _ _ (Hp i Hi) Hx') as (x & Hx & Hc). eauto.
Qed.

Lemma evolves_alter {A B} (st : A -> B) f (p : slab A) i :
  (forall x, st (f x) = st x) -> evolves st p (slab_alter f p i).
Proof.
  intros Hf. apply (evolves_fmap st st); [done|by rewrite len_slab_alter|].
  intros j _. rewrite slab_get_alter. case_decide; [|done]. destruct (slab_get p j); simpl; by rewrite ?Hf.
Qed.

Lemma evolves_sub {A B} (st : A -> B) (p p' : slab A) :
  len p <= len p' -> (forall i x, slab_get p' i = Some x -> slab_get p i = Some x) -> evolves st p p'.
Proof. intros Hl Hs. split; [done|]. eauto. Qed.

Lemma evolves_push {A B} `{NsLinked A} (st : A -> B) (p p' : slab A) x :
  (forall x y : A, payload x = payload y -> st x = st y) -> same_payload (p ++ [Some x]) p' -> evolves st p p'.
Proof.
  intros Hst [Hl Hp]. apply (evolves_fmap st payload); [done|rewrite Hl; len_lia|].
  intros i Hi. rewrite Hp. by rewrite slab_get_push_lt by lia.
Qed.

Lemma inserted_evolves r ix keys s s' :
  inserted r ix keys s s' -> evolves rstat (ks_records s) (ks_records s').
Proof. intros (pool' & -> & Hp & _). by apply (evolves_push _ _ _ r payload_rstat). Qed.

Lemma removed_evolves id g s s' :
  (forall p, evolves rstat p (g p)) -> removed id g s s' -> evolves rstat (ks_records s) (ks_records s').
Proof.
  intros Hg (r & heads' & pool' & _ & -> & [Hl Hp] & _). simpl. etrans; [|apply Hg].
  apply (evolves_fmap rstat payload); [apply payload_rstat|lia|]. intros; apply Hp.
Qed.

Lemma shred_fold_evolves ids p : evolves rstat p (foldl (slab_alter shred) p ids).
Proof.
  revert p. induction ids as [|i ids IH]; intros p; simpl; [done|]. etrans; [|apply IH].
  by apply evolves_alter.
Qed.

(** The records of a successful event. *)
Lemma arm_post_records evt ns s s' :
  arm_post evt ns s s' -> evolves rstat (ks_records s) (ks_records s').
Proof.
  destruct evt; simpl; intros Hp;
    try (by eapply inserted_evolves); try (by destruct Hp as [_ Hp]; eapply inserted_evolves).
  - eapply removed_evolves; [|exact Hp]. intros p. apply evolves_sub; [by rewrite len_slab_clear|].
    intros i x. rewrite slab_get_clear. by case_decide.
  - destruct Hp as (_ & _ & nodes' & -> & _). done.
  - destruct Hp as (_ & ? & ? & g' & _ & _ & _ & -> & _). done.
  - destruct Hp as (g' & -> & _). done.
  - eapply removed_evolves; [|exact Hp]. intros p. by apply evolves_alter.
  - destruct Hp as (? & ? & ? & -> & _). done.
  - destruct Hp as (_ & dim & _ & Hp). by eapply inserted_evolves.
  - subst s'. apply shred_fold_evolves.
  - destruct Hp as (_ & nodes' & -> & _). done.
  - destruct Hp as (? & ? & g' & _ & _ & _ & -> & _). done.
  - destruct Hp as (dim & _ & Hp). by eapply inserted_evolves.
  - destruct Hp as (_ & ->). by apply evolves_alter.
  - by subst.
  - by subst.
  - destruct Hp as [_ (Hl & _) _ _ Hr _ _ _ _]. apply evolves_sub; [by rewrite Hl|].
    intros i x Hx. by apply Hr.
Qed.

Lemma same_nodes_evolves (g g' : Graph) : same_nodes g g' -> evolves nstat g.1 g'.1.
Proof. intros [Hl Hc]. apply (evolves_fmap nstat ncore); [apply ncore_nstat|lia|]. intros; apply Hc. Qed.

Lemma evolves_push_eq {A B} (st : A -> B) (p : slab A) x : evolves st p (p ++ [x]).
Proof.
  split; [len_lia|]. intros i y Hi. rewrite slab_get_push_lt by lia. eauto.
Qed.

Lemma evolves_deleted {A B} (st : A -> B) (p p' : slab A) (f : Z -> option B) :
  len p' = len p -> (forall i, st <$> slab_get p' i = f i) ->
  (forall i b, f i = Some b -> st <$> slab_get p i = Some b) -> evolves st p p'.
Proof.
  intros Hl Hp Hf. split; [lia|]. intros i x' _ Hx'. specialize (Hp i). rewrite Hx' in Hp. simpl in Hp.
  specialize (Hf i (st x') (eq_sym Hp)). destruct (slab_get p i) as [x|]; [|done]. exists x.
  split; [done|]. by apply (inj Some) in Hf.
Qed.

(** Nodes and edges. *)
Lemma arm_post_graph evt ns s s' :
  arm_post evt ns s s' ->
  evolves nstat (ks_nodes s) (ks_nodes s') /\ evolves estat (ks_edges s) (ks_edges s').
Proof.
  destruct evt; simpl; intros Hp.
  - by destruct Hp as (_ & pool' & -> & _).
  - by destruct Hp as (? & ? & ? & _ & -> & _).
  - destruct Hp as (_ & _ & nodes' & -> & Hpl & _). split; [|done]. by eapply evolves_push; [apply payload_nstat|].
  - destruct Hp as (_ & ? & ? & g' & _ & _ & _ & -> & Hs & He). split; [by apply same_nodes_evolves in Hs|].
    simpl. rewrite He. apply evolves_push_eq.
  - destruct Hp as (g' & -> & Hs & Hl & _ & He). split; [by apply same_nodes_evolves in Hs|].
    split; [simpl; lia|]. intros i x' _ Hx'. specialize (He i). simpl in Hx'. rewrite Hx' in He.
    case_decide; [done|]. destruct (slab_get (ks_edges s) i) as [x|]; [|done]. exists x.
    split; [done|]. apply ecore_estat. by apply (inj Some) in He.
  - by destruct Hp as (? & ? & ? & _ & -> & _).
  - destruct Hp as (? & nodes' & edges' & -> & _ & Hln & Hle & Hn & He). split.
    + eapply evolves_deleted; [exact Hln|exact Hn|]. simpl. intros i b. by case_decide.
    + eapply evolves_deleted; [exact Hle|exact He|]. simpl. intros i b.
      destruct (slab_get (ks_edges s) i) as [e|]; [|done]. by destruct (incident _ _).
  - by destruct Hp as (_ & dim & _ & pool' & -> & _).
  - by subst.
  - by destruct Hp as (pool' & -> & _).
  - destruct Hp as (_ & nodes' & -> & Hpl & _). split; [|done]. by eapply evolves_push; [apply payload_nstat|].
  - destruct Hp as (? & ? & g' & _ & _ & _ & -> & Hs & He). split; [by apply same_nodes_evolves in Hs|].
    simpl. rewrite He. apply evolves_push_eq.
  - by destruct Hp as (dim & _ & pool' & -> & _).
  - by destruct Hp as (_ & ->).
  - by subst.
  - by subst.
  - destruct Hp as [_ (_ & Hln & Hle) Hn He _ _ _ _ _]. split; (split; [lia|]); eauto.
Qed.

(** Whatever event is applied, with whatever outcome, slots are only appended,
    an emptied slot stays empty forever (ids are never reused within a process)
    and the immutable part of every surviving record, node and edge (id, vector,
    tag, namespace, kind, end points) is unchanged. *)
Theorem slots_are_immutable evt ns s s' o :
  kernel_wf s -> room s -> evt_ok s evt ns -> apply_event_ns evt ns s = (s', o) ->
  evolves rstat (ks_records s) (ks_records s')
  /\ evolves nstat (ks_nodes s) (ks_nodes s')
  /\ evolves estat (ks_edges s) (ks_edges s').
Proof.
  intros W Hr He Hrun. pose proof (apply_event_spec evt ns s W Hr He) as Hs. unfold wp in Hs.
  rewrite Hrun in Hs. destruct o as [u|e| |]; try done.
  - destruct Hs as (_ & s1 & Hp & ->). simpl.
    split; [by eapply arm_post_records|by eapply arm_post_graph].
  - by destruct Hs as [->|(_ & _ & d & _ & ->)].
Qed.

Lemma slots_are_immutable_witness :
  evolves rstat (ks_records demo_state)
    (ks_records (apply_event_ns (DropNamespace []) 2 demo_state).1).
Proof.
  destruct (apply_event_ns (DropNamespace []) 2 demo_state) as [s' o] eqn:E.
  refine (proj1 (slots_are_immutable (DropNamespace []) 2 demo_state s' o demo_state_wf _ _ E)).
  - apply roomb_ok. vm_compute. reflexivity.
  - split; [lia|exact I].
Defined.

(** ** Crypto-shredding *)

Lemma shred_shred r : shred (shred r) = shred r.
Proof. unfold shred. simpl. by rewrite <- Z.lor_assoc, Z.lor_diag. Qed.

Lemma shred_inactive r : is_active (shred r) = false.
Proof.
  unfold is_active, shred. simpl. apply Z.eqb_neq. intros Hz.
  apply (f_equal (fun z => Z.testbit z 2)) in Hz.
  rewrite Z.land_spec, Z.lor_spec, Z.bits_0 in Hz. unfold FLAG_SHREDDED in Hz.
  by rewrite orb_true_r in Hz.
Qed.

Lemma shred_fold_get ids (p : RecordPool) i :
  slab_get (foldl (slab_alter shred) p ids) i
  = if decide (i ∈ ids) then shred <$> slab_get p i else slab_get p i.
Proof.
  revert p. induction ids as [|x ids IH]; intros p; cbn [foldl].
  - by rewrite decide_False by apply not_elem_of_nil.
  - rewrite IH, slab_get_alter. destruct (decide (x = i)) as [->|Hne].
    + rewrite (decide_True (P := i ∈ i :: ids)) by by left.
      destruct (slab_get p i) as [r|]; simpl; [rewrite shred_shred|]; by case_decide.
    + destruct (decide (i ∈ ids)) as [Hi|Hi].
      * by rewrite decide_True by by right.
      * rewrite decide_False; [done|]. by intros [?|?]%elem_of_cons.
Qed.

(** An id registered under a key stays registered until that key is shredded. *)
Definition registered (k : list Z) (id : Z) (s : KernelState) : Prop :=
  exists ids, ks_keys s !! k = Some ids /\ id ∈ ids.

Lemma registered_add k id k' id' keys :
  (exists ids, keys !! k = Some ids /\ id ∈ ids) ->
  exists ids, add_key k' id' keys !! k = Some ids /\ id ∈ ids.
Proof.
  intros (ids & Hk & Hi). unfold add_key. destruct (decide (k' = k)) as [->|Hne].
  - rewrite lookup_insert_eq, Hk. eexists. split; [done|]. apply elem_of_app. by left.
  - rewrite lookup_insert_ne by done. eauto.
Qed.

Lemma arm_post_registered evt ns s s' k id :
  arm_post evt ns s s' -> evt <> ShredKey k -> registered k id s -> registered k id s'.
Proof.
  intros Hp Hne Hreg. unfold registered in *. destruct evt; simpl in Hp.
  - by destruct Hp as (_ & pool' & -> & _).
  - by destruct Hp as (? & ? & ? & _ & -> & _).
  - by destruct Hp as (_ & _ & nodes' & -> & _).
  - by destruct Hp as (_ & ? & ? & g' & _ & _ & _ & -> & _).
  - by destruct Hp as (g' & -> & _).
  - by destruct Hp as (? & ? & ? & _ & -> & _).
  - by destruct Hp as (? & nodes' & edges' & -> & _).
  - destruct Hp as (_ & dim & _ & pool' & -> & _). by apply registered_add.
  - subst s'. simpl. rewrite lookup_delete_ne; [done|]. intros ->. done.
  - by destruct Hp as (pool' & -> & _).
  - by destruct Hp as (_ & nodes' & -> & _).
  - by destruct Hp as (? & ? & g' & _ & _ & _ & -> & _).
  - destruct Hp as (dim & _ & pool' & -> & _). by apply registered_add.
  - by destruct Hp as (_ & ->).
  - by subst.
  - by subst.
  - destruct Hp as [Hh _ _ _ _ _ _ _ _]. injection Hh as _ _ -> _. done.
Qed.

Lemma apply_registered evt ns s k id :
  kernel_wf s -> room s -> evt_ok s evt ns -> evt <> ShredKey k ->
  registered k id s -> registered k id (apply_event_ns evt ns s).1.
Proof.
  intros W Hr He Hne Hreg. pose proof (apply_event_spec evt ns s W Hr He) as Hs. unfold wp in Hs.
  destruct (apply_event_ns evt ns s) as [s' [u|e| |]]; try done; simpl.
  - destruct Hs as (_ & s1 & Hp & ->). by apply (arm_post_registered evt ns s s1).
  - by destruct Hs as [->|(_ & _ & d & _ & ->)].
Qed.

Lemma history_registered evs s k id :
  kernel_wf s -> history_ok evs s = true -> Forall (fun e => e.1 <> ShredKey k) evs ->
  registered k id s -> registered k id (run_events evs s).
Proof.
  revert s. induction evs as [|[evt ns] evs IH]; intros s W Hh Hf Hreg; [done|]. simpl in *. bool_prop.
  inversion Hf; subst. simpl in *.
  apply IH; [|done|done|by apply apply_registered; eauto using evt_okb_ok, roomb_ok].
  destruct (apply_event_ns evt ns s) as [s' o] eqn:E.
  eapply kstep_wf; [|exact W]. econstructor; eauto using evt_okb_ok, roomb_ok.
Qed.

(** Insert a record encrypted under a key, apply any events that do not shred
    that key, then ShredKey: the record is gone or inactive with no ciphertext
    left in its metadata, whatever happened in between. *)
Theorem shred_erases_encrypted_record s s1 ns key ct mct tag evs s2 ns' :
  kernel_wf s -> room s -> 0 <= ns ->
  apply_event_ns (InsertRecordEncrypted (next_record_id s) key ct mct tag) ns s = (s1, Ok tt) ->
  history_ok evs s1 = true -> Forall (fun e => e.1 <> ShredKey key) evs ->
  room (run_events evs s1) -> 0 <= ns' ->
  apply_event_ns (ShredKey key) ns' (run_events evs s1) = (s2, Ok tt) ->
  match get_record s2 (next_record_id s) with
  | Some r => is_active r = false /\ rec_metadata r = None
  | None => True
  end.
Proof.
  intros W Hr Hns Hins Hh Hf Hr2 Hns' Hshred.
  assert (kernel_wf s1) as W1.
  { eapply kstep_wf; [|exact W]. econstructor; [exact Hr| |exact Hins]. by split. }
  apply apply_ok_post in Hins as (s0 & (Hid & dim & _ & pool' & -> & _) & ->); [|done|done|by split].
  assert (registered key (next_record_id s) (run_events evs
    (ks_set_version (ks_version s + 1) (mkKernel (Some (len (rec_vector (mark_encrypted
       (Record_new (len (ks_records s)) (new_zeros dim) (Some ct) tag ns))))) (ks_version s) pool'
       (ks_nodes s) (ks_edges s) (ks_index s)
       (vec_set (ks_record_heads s) ns (len (ks_records s)))
       (add_key key (len (ks_records s)) (ks_keys s)) (ks_node_heads s) (ks_meta s))))) as Hreg.
  { apply history_registered; [done|done|done|]. unfold registered, add_key. simpl.
    rewrite lookup_insert_eq. eexists. split; [done|]. apply elem_of_app. right.
    rewrite Hid. by apply list_elem_of_singleton. }
  set (t := run_events _ _) in *. destruct Hreg as (ids & Hk & Hin).
  apply apply_ok_post in Hshred as (t1 & Hp & ->); [|by apply history_wf|done|by split].
  simpl in Hp. subst t1. unfold get_record, rp_get. simpl.
  rewrite Hk. simpl. rewrite shred_fold_get, decide_True by done.
  destruct (slab_get (ks_records t) (next_record_id s)) as [r|]; simpl; [|done].
  split; [apply shred_inactive|done].
Qed.

Definition demo_key : list Z := replicate 16 9.
Definition demo_encrypted : KernelState :=
  (apply_event_ns (InsertRecordEncrypted 4 demo_key [1; 2; 3] None 6) 2 demo_state).1.
Definition demo_shredded : KernelState :=
  (apply_event_ns (ShredKey demo_key) 0
     (run_events [(AutoInsertRecord [5; 6] None 1, 2)] demo_encrypted)).1.

Lemma shred_erases_encrypted_record_witness :
  match get_record demo_shredded 4 with
  | Some r => is_active r = false /\ rec_metadata r = None
  | None => True
  end.
Proof.
  refine (shred_erases_encrypted_record demo_state demo_encrypted 2 demo_key [1; 2; 3] None 6
            [(AutoInsertRecord [5; 6] None 1, 2)] demo_shredded 0 demo_state_wf _ _ _ _ _ _ _ _).
  - apply roomb_ok. vm_compute. reflexivity.
  - lia.
  - vm_compute. reflexivity.
  - vm_compute. reflexivity.
  - repeat constructor. discriminate.
  - apply roomb_ok. vm_compute. reflexivity.
  - lia.
  - vm_compute. reflexivity.
Defined.

(** An encrypted record is not searchable by [is_searchable], and both
    searches rank it. *)
Theorem encrypted_record_is_ranked :
  let s := demo_encrypted in
  (exists r, get_record s 4 = Some r /\ is_searchable r = false)
  /\ (exists res, search_l2_ns Scalar s [0; 0] [sentinel] 2 = Ok (res, 1) /\ head res = Some (mkResult 0 4))
  /\ (exists res, search_l2 Scalar s [0; 0] [sentinel] None = (res, 1) /\ head res = Some (mkResult 0 4)).
Proof. vm_compute. split_and!; eexists; (split; [reflexivity|reflexivity]). Qed.

(** ** The outcome of an insert *)

(** The outcome of InsertRecord as a decision table: namespace out of range
    and a non-sequential id give InvalidOperation, in that order, then a dimension
    mismatch, then oversized metadata; otherwise the insert succeeds. *)
Theorem insert_record_outcome id v m t ns s :
  kernel_wf s -> room s -> 0 <= ns ->
  (apply_event_ns (InsertRecord id v m t) ns s).2
  = if MAX_NAMESPACES <=? ns then Err InvalidOperation
    else if negb (next_record_id s =? id) then Err InvalidOperation
    else match ks_dim s with
         | Some d => if negb (len v =? d) then Err (DimensionMismatch d (len v))
                     else if metadata_too_large m then Err MetadataTooLarge else Ok tt
         | None => if metadata_too_large m then Err MetadataTooLarge else Ok tt
         end.
Proof.
  intros W Hr Hns. fold (insert_decision s v m). apply wp_decides. unfold apply_event_ns. wp_step.
  unfold arm_insert_record, check_ns. wp_step. apply wp_guard; intros Hg1; rewrite Hg1; [done|].
  wp_step. wp_step. wp_step. change (rp_next_id (ks_records s)) with (next_record_id s).
  apply wp_guard; intros Hg2; rewrite Hg2; [done|]. bool_prop.
  eapply wp_mono; [| |apply insert_checked_spec; [done|done|lia]].
  - intros a s' (_ & Hdec & pool' & -> & _). destruct Hr as (_ & _ & _ & Hr4).
    unfold bump_version. wp_step. wp_step. wp_step. unfold Version_next. simpl.
    rewrite (proj2 (Z.ltb_lt _ _) Hr4). eapply wp_lift_ok; [done|]. by wp_step.
  - by intros e s' [_ Hdec].
Qed.

Lemma insert_record_outcome_witness :
  (apply_event_ns (InsertRecord 4 [1; 2; 3] None 0) 2 demo_state).2 = Err (DimensionMismatch 2 3).
Proof.
  rewrite (insert_record_outcome 4 [1; 2; 3] None 0 2 demo_state demo_state_wf).
  - vm_compute. reflexivity.
  - apply roomb_ok. vm_compute. reflexivity.
  - lia.
Defined.
