(* ===== verification/KernelChecks.v ===== *)
(** * The invariant checker and the list rebuild

    [check_invariants] accepts what the invariant promises, and
    [rebuild_namespace_lists] establishes the list half of it from the
    namespace fields alone. *)

From S2P Require Import Prelude.
From S2P Require Import Hoare.
From S2P Require Import Core.
From S2P Require Import Fxp.
From S2P Require Import TopK.
From S2P Require Import Slab.
From S2P Require Import Records.
From S2P Require Import Graph.
From S2P Require Import GraphProofs.
From S2P Require Import Index.
From S2P Require Import Event.
From S2P Require Import Kernel.
From S2P Require Import KernelWf.
From S2P Require Import KernelProofs.
From S2P Require Import KernelTheorems.

(** ** check_invariants *)
Lemma check_slots_ok {A} (check : Z -> A -> outcome KernelError unit) (p : slab A) :
  (forall i x, slab_get p i = Some x -> check i x = Ok tt) -> check_slots check 0 p = Ok tt.
Proof.
  assert (forall off (q : slab A), (forall i x, slab_get q i = Some x -> check (off + i) x = Ok tt) ->
            check_slots check off q = Ok tt) as Hgen; [|by intros H; apply Hgen].
  intros off q. revert off. induction q as [|o q IH]; intros off Hq; [done|]. simpl.
  assert (check_slots check (off + 1) q = Ok tt) as Hrest.
  { apply IH. intros i x Hx. replace (off + 1 + i) with (off + (i + 1)) by lia. apply Hq.
    pose proof (slab_get_lt _ _ _ Hx). apply slab_get_vec, vec_get_Some. apply slab_get_vec, vec_get_Some in Hx.
    split; [len_lia|]. replace (Z.to_nat (i + 1)) with (S (Z.to_nat i)) by lia. apply Hx. }
  destruct o as [x|]; [|done]. rewrite <- (Z.add_0_r off) at 1. rewrite Hq; [done|].
  apply slab_get_vec, vec_get_Some. split; [len_lia|done].
Qed.

Lemma adj_next d (edges : EdgePool) start l i e j :
  adj d edges start l -> i ∈ l -> slab_get edges i = Some e -> next_edge d e = Some j -> j ∈ l.
Proof.
  revert start. induction l as [|x l IH]; intros start Ha Hi He Hn; [by apply elem_of_nil in Hi|].
  destruct Ha as [_ (e0 & He0 & Ha)]. apply elem_of_cons in Hi as [->|Hi]; [|right; by eapply IH].
  simplify_eq. rewrite Hn in Ha. destruct l as [|y l]; simpl in Ha; [done|].
  destruct Ha as [[= ->] _]. right. by left.
Qed.

Lemma adj_first d (edges : EdgePool) j l : adj d edges (Some j) l -> j ∈ l.
Proof. destruct l as [|x l]; simpl; [done|]. intros [[= ->] _]. by left. Qed.

(** Nodes whose record is still there. *)
Definition records_alive (s : KernelState) : Prop :=
  forall i n rid, get_node s i = Some n -> nd_record n = Some rid -> is_Some (get_record s rid).

(** check_invariants accepts every reachable state in which the records that
    nodes point to are still allocated: no false alarm. *)
Theorem check_invariants_accepts s :
  reachable s -> records_alive s -> check_invariants s = Ok tt.
Proof.
  intros Hr Halive. pose proof (nw_graph _ _ _ (kw_net _ (reachable_kernel_wf s Hr))) as Wg.
  destruct Wg as [We Wn Wa]. unfold check_invariants. rewrite check_slots_ok; simpl.
  - apply check_slots_ok. intros i e He. destruct (We i e He) as [Hid Hends]. unfold check_edge.
    rewrite Hid, Z.eqb_refl. simpl. destruct (Hends Out) as [nf Hf], (Hends In) as [nt Ht].
    simpl in Hf, Ht. unfold is_allocated. rewrite Hf, Ht. simpl.
    destruct (ed_next_out e) as [j|] eqn:Ej; [|done].
    destruct (Wa Out _ _ Hf) as (l & Ha & _ & Hl).
    assert (i ∈ l) as Hi by (apply Hl; eauto).
    destruct (proj1 (Hl j)) as (e' & He' & Hep & _).
    { eapply (adj_next Out); [exact Ha|exact Hi|exact He|exact Ej]. }
    simpl in He', Hep. rewrite He'. simpl. by rewrite Hep, Z.eqb_refl.
  - intros i n Hn. unfold check_node. rewrite (Wn i n Hn), Z.eqb_refl. simpl.
    assert (match nd_record n with
            | Some rid => do* _ := ok_or (rp_get (ks_records s) rid) NotFound in Ok tt
            | None => Ok tt
            end = Ok (E := KernelError) tt) as ->.
    { destruct (nd_record n) as [rid|] eqn:Erec; [|done].
      destruct (Halive i n rid Hn Erec) as [r Hrec]. unfold get_record in Hrec. by rewrite Hrec. }
    simpl. destruct (nd_first_out_edge n) as [j|] eqn:Ej; [|done].
    destruct (Wa Out _ _ Hn) as (l & Ha & _ & Hl). simpl in Ha. rewrite Ej in Ha.
    destruct (proj1 (Hl j) (adj_first _ _ _ _ Ha)) as (e & He & Hep & _). simpl in He, Hep.
    rewrite He. simpl. by rewrite Hep, Z.eqb_refl.
Qed.

Lemma check_invariants_accepts_witness : check_invariants demo_state = Ok tt.
Proof.
  apply (check_invariants_accepts demo_state demo_state_reachable).
  intros i n rid Hn Hrec. unfold get_node in Hn. pose proof (slab_get_lt _ _ _ Hn) as Hi.
  assert (0 <= i < 3) as Hi' by (vm_compute in Hi; vm_compute; exact Hi).
  assert (i = 0 \/ i = 1 \/ i = 2) as [-> | [-> | ->]] by lia; vm_compute in Hn;
    injection Hn as <-; simpl in Hrec; try discriminate.
  injection Hrec as <-. vm_compute. eexists. reflexivity.
Defined.

(** Deleting a record a node points to leads to a state [check_invariants]
    rejects. *)
Theorem delete_record_breaks_check_invariants :
  let s := run_events [(AutoInsertRecord [1] None 0, 0); (AutoCreateNode NRecord (Some 0), 0);
                       (DeleteRecord 0, 0)] KernelState_new in
  ks_version s = 3 /\ reachable s /\ check_invariants s = Err NotFound.
Proof.
  split; [vm_compute; reflexivity|]. split; [|vm_compute; reflexivity].
  apply history_reachable; [apply rtc_refl|vm_compute; reflexivity].
Qed.

(** ** rebuild_namespace_lists *)
Section Relink.
Context {A : Type} `{NsLinked A}.
Implicit Types (s : slab A) (heads : list Z).

(** Every namespace list holds, in ascending order, the live slots from [n] on. *)
Definition relinked (n : nat) heads s : Prop :=
  len heads = MAX_NAMESPACES
  /\ forall ns, 0 <= ns < MAX_NAMESPACES -> exists l, ns_list heads s ns l /\ StronglySorted Z.lt l
       /\ forall i, i ∈ l <-> Z.of_nat n <= i /\ exists r, slab_get s i = Some r /\ ns_of r = ns.

Definition ns_ranges s : Prop := forall i r, slab_get s i = Some r -> 0 <= ns_of r < MAX_NAMESPACES.

Lemma same_payload_ns s s' i ns :
  same_payload s s' ->
  (exists r, slab_get s' i = Some r /\ ns_of r = ns) <-> (exists r, slab_get s i = Some r /\ ns_of r = ns).
Proof.
  intros [_ Hp]. specialize (Hp i).
  destruct (slab_get s' i) as [x|], (slab_get s i) as [y|]; try done.
  apply (inj Some) in Hp. apply payload_ns in Hp. split; intros (r & [= <-] & Hr); eexists; split; eauto; congruence.
Qed.

Lemma relinked_skip n heads s : slab_get s (Z.of_nat n) = None -> relinked (S n) heads s -> relinked n heads s.
Proof.
  intros Hn [Hh Hr]. split; [done|]. intros ns Hns. destruct (Hr ns Hns) as (l & Hl & Hs & Hi).
  exists l. split; [done|]. split; [done|]. intros i. rewrite Hi. split; [intros [? ?]; split; [lia|done]|].
  intros (Hge & r & Hr' & Hn'). split; [|eauto].
  destruct (decide (i = Z.of_nat n)); [subst; congruence|lia].
Qed.

Lemma relinked_push n heads s x :
  len s <= NS_LIST_NIL -> slab_get s (Z.of_nat n) = Some x -> 0 <= ns_of x < MAX_NAMESPACES ->
  relinked (S n) heads s ->
  exists s', push_front (E := KernelError) (ns_of x) (Z.of_nat n) (heads, s)
             = Ok (vec_set heads (ns_of x) (Z.of_nat n), s')
    /\ same_payload s s' /\ relinked n (vec_set heads (ns_of x) (Z.of_nat n)) s'.
Proof.
  intros Hlen Hx Hns [Hh Hr]. destruct (Hr _ Hns) as (l & Hl & Hsort & Hi).
  pose proof (slab_get_lt _ _ _ Hx) as Hlt.
  destruct (push_front_ok KernelError heads s (ns_of x) (Z.of_nat n) x l Hl Hx eq_refl)
    as (s' & Hpf & Hl' & Hfr); [rewrite Hi; lia|lia|done|].
  exists s'. split; [done|]. pose proof (proj1 Hfr) as Hpl. split; [done|].
  destruct (frame_others (Z.of_nat n :: option_list (head l)) s s' (ns_of x) Hfr) as [Hk _].
  { intros i r [->|Hin]%elem_of_cons Hr'; [congruence|].
    destruct l as [|h l]; [by apply elem_of_nil in Hin|]. apply list_elem_of_singleton in Hin as ->.
    destruct (proj1 (Hi h)) as (_ & r2 & Hr2 & Hn2); [by left|]. congruence. }
  split; [by rewrite len_vec_set|]. intros ns Hns'. destruct (decide (ns = ns_of x)) as [->|Hne].
  - exists (Z.of_nat n :: l). split; [done|]. split.
    + constructor; [done|]. apply Forall_forall. intros j Hj. apply Hi in Hj. lia.
    + intros i. rewrite elem_of_cons, Hi, (same_payload_ns s s' i _ Hpl). split.
      * intros [->|[? ?]]; [split; [lia|eauto]|split; [lia|done]].
      * intros [Hge He]. destruct (decide (i = Z.of_nat n)); [by left|right; split; [lia|done]].
  - destruct (Hr ns Hns') as (l2 & Hl2 & Hs2 & Hi2). exists l2. split; [|split; [done|]].
    + eapply (ns_list_other heads _ s s' (ns_of x)); [done|by apply vec_get_set_ne|done|done].
    + intros i. rewrite Hi2, (same_payload_ns s s' i _ Hpl). split; intros [Hge He]; (split; [|done]); [lia|].
      destruct (decide (i = Z.of_nat n)) as [->|]; [|lia].
      destruct He as (r & Hr1 & Hr2). simplify_eq.
Qed.

Lemma relink_from_ok n heads s :
  len s <= NS_LIST_NIL -> ns_ranges s -> (n <= length s)%nat -> relinked n heads s ->
  exists heads' s', relink_from n (heads, s) = Ok (heads', s') /\ same_payload s s' /\ relinked 0 heads' s'.
Proof.
  revert heads s. induction n as [|n IH]; intros heads s Hlen Hns Hn Hr; [by exists heads, s|].
  cbn [relink_from snd]. destruct (slab_get s (Z.of_nat n)) as [x|] eqn:Ex.
  - pose proof (Hns _ _ Ex) as Hnx.
    destruct (relinked_push n heads s x Hlen Ex Hnx Hr) as (s1 & Hpf & Hpl & Hr1).
    rewrite Z.min_l by (unfold MAX_NAMESPACES in *; lia).
    rewrite wrap_u32_small by (apply slab_get_lt in Ex; unfold NS_LIST_NIL in *; int_lia).
    rewrite Hpf. simpl.
    destruct (IH (vec_set heads (ns_of x) (Z.of_nat n)) s1) as (heads' & s' & Hrun & Hpl' & Hr'); [by rewrite (proj1 Hpl)| | |exact Hr1|].
    + intros i r Hir. destruct (same_payload_get _ _ _ _ Hpl Hir) as (r0 & Hr0 & Hp%payload_ns).
      rewrite Hp. by eapply Hns.
    + pose proof (proj1 Hpl). unfold len in *. lia.
    + exists heads', s'. split; [done|]. split; [by etrans|done].
  - simpl. apply IH; [done|done|lia|]. by apply relinked_skip.
Qed.

Lemma relinked_nil heads s : len heads = MAX_NAMESPACES -> relinked (length s) (reset_heads heads) s.
Proof.
  intros Hh. split; [unfold reset_heads, len in *; by rewrite length_fmap|].
  intros ns Hns. exists []. split; [|split; [constructor|]].
  - split; [|split; [done|constructor]]. simpl. apply vec_get_Some. unfold reset_heads.
    split; [unfold len in *; rewrite length_fmap; lia|]. rewrite list_lookup_fmap.
    destruct (lookup_lt_is_Some_2 heads (Z.to_nat ns)) as [h ->]; [unfold len in *; lia|done].
  - intros i. split; [by intros ?%elem_of_nil|]. intros (Hge & r & Hr & _).
    apply slab_get_lt in Hr. unfold len in *. lia.
Qed.

Lemma relinked_wf (must : A -> bool) heads s :
  len s <= NS_LIST_NIL -> ns_ranges s -> (forall i r, slab_get s i = Some r -> must r = true) ->
  relinked 0 heads s -> ns_wf must heads s.
Proof.
  intros Hlen Hns Hall [Hh Hr]. split; try done. intros ns Hn. destruct (Hr ns Hn) as (l & Hl & _ & Hi).
  exists l. split; [done|]. intros i r Hir Hnr. split; [|intros _; by eapply Hall].
  intros _. apply Hi. apply slab_get_lt in Hir as ?. split; [lia|eauto].
Qed.

Lemma relink_all heads s :
  len heads = MAX_NAMESPACES -> len s <= NS_LIST_NIL -> ns_ranges s ->
  exists heads' s', relink_from (length s) (reset_heads heads, s) = Ok (heads', s')
    /\ same_payload s s' /\ relinked 0 heads' s'
    /\ forall must : A -> bool, (forall i r, slab_get s' i = Some r -> must r = true) -> ns_wf must heads' s'.
Proof.
  intros Hh Hl Hns.
  destruct (relink_from_ok (length s) (reset_heads heads) s Hl Hns) as (heads' & s' & Hrun & Hpl & Hr);
    [lia|by apply relinked_nil|]. exists heads', s'. split; [done|]. split; [done|]. split; [done|].
  intros must Hall. apply relinked_wf; [by rewrite (proj1 Hpl)| |done|done].
  intros i r Hir. destruct (same_payload_get _ _ _ _ Hpl Hir) as (r0 & Hr0 & Hp%payload_ns).
  rewrite Hp. by eapply Hns.
Qed.
End Relink.

(** rebuild_namespace_lists returns on every state with full head tables and
    in-range namespaces, whatever its list pointers are (cyclic or dangling ones
    included), changes no contents, and relinks every list: each visits exactly
    the records (nodes) of its namespace, tombstones included, so that the list
    invariant holds when no record is soft-deleted. *)
Theorem rebuild_restores_lists s :
  len (ks_record_heads s) = MAX_NAMESPACES -> len (ks_node_heads s) = MAX_NAMESPACES ->
  len (ks_records s) <= NS_LIST_NIL -> len (ks_nodes s) <= NS_LIST_NIL ->
  ns_ranges (ks_records s) -> ns_ranges (ks_nodes s) ->
  exists rheads records nheads nodes,
    rebuild_namespace_lists s
    = (ks_set_node_list (nheads, nodes) (ks_set_record_list (rheads, records) s), Ok tt)
    /\ same_payload (ks_records s) records /\ same_payload (ks_nodes s) nodes
    /\ relinked 0 rheads records /\ relinked 0 nheads nodes
    /\ ns_wf (fun _ => true) rheads records /\ ns_wf (fun _ => true) nheads nodes
    /\ ((forall i r, slab_get records i = Some r -> not_soft_deleted r = true) ->
        ns_wf not_soft_deleted rheads records).
Proof.
  intros Hh1 Hh2 Hl1 Hl2 Hn1 Hn2.
  destruct (relink_all _ _ Hh1 Hl1 Hn1) as (rheads & records & Hr1 & Hp1 & Hk1 & Hw1).
  destruct (relink_all _ _ Hh2 Hl2 Hn2) as (nheads & nodes & Hr2 & Hp2 & Hk2 & Hw2).
  exists rheads, records, nheads, nodes. split; [|do 4 (split; [done|]); split_and!; [by apply Hw1|by apply Hw2|apply Hw1]].
  unfold rebuild_namespace_lists, sbind, smodify, as_linked, ks_record_list, ks_node_list. simpl.
  rewrite Hr1. simpl. rewrite Hr2. done.
Qed.

Lemma rebuild_restores_lists_witness :
  exists rheads records nheads nodes,
    rebuild_namespace_lists demo_state
    = (ks_set_node_list (nheads, nodes) (ks_set_record_list (rheads, records) demo_state), Ok tt)
    /\ same_payload (ks_records demo_state) records /\ same_payload (ks_nodes demo_state) nodes
    /\ relinked 0 rheads records /\ relinked 0 nheads nodes
    /\ ns_wf (fun _ => true) rheads records /\ ns_wf (fun _ => true) nheads nodes
    /\ ((forall i r, slab_get records i = Some r -> not_soft_deleted r = true) ->
        ns_wf not_soft_deleted rheads records).
Proof.
  destruct demo_state_wf as [W1 W2 _].
  apply (rebuild_restores_lists demo_state).
  - apply (wf_heads _ _ _ (rw_list _ _ _ _ W1)).
  - apply (wf_heads _ _ _ (nw_list _ _ _ W2)).
  - apply (wf_len _ _ _ (rw_list _ _ _ _ W1)).
  - apply (wf_len _ _ _ (nw_list _ _ _ W2)).
  - exact (wf_ns _ _ _ (rw_list _ _ _ _ W1)).
  - exact (wf_ns _ _ _ (nw_list _ _ _ W2)).
Defined.
