(* ===== verification/KernelRel.v ===== *)
(** * What the event arms do not look at

    Two kernels that agree on records, graph, lists, keys and metadata react
    alike to every event, whatever their version counters and kernel indexes,
    and, events that insert records apart, whatever their dimensions.  The
    engine keeps a second kernel next to the committer's, and recovery replays
    from a kernel without a dimension: both rest on this. *)

From stdpp Require Import gmap.
From S2P Require Import Prelude.
From S2P Require Import Core.
From S2P Require Import Fxp.
From S2P Require Import TopK.
From S2P Require Import Slab.
From S2P Require Import Records.
From S2P Require Import Graph.
From S2P Require Import Index.
From S2P Require Import Event.
From S2P Require Import Kernel.

(** All fields but dimension, version and index. *)
Definition contents (s : KernelState) :=
  (ks_records s, ks_nodes s, ks_edges s, ks_record_heads s, ks_keys s, ks_node_heads s, ks_meta s).

(** A relation between kernels that sees the contents and is kept by updates of
    them and by index maintenance. *)
Record congruence (R : KernelState -> KernelState -> Prop) : Prop := {
  cg_contents s t : R s t -> contents s = contents t;
  cg_records v s t : R s t -> R (ks_set_records v s) (ks_set_records v t);
  cg_graph v s t : R s t -> R (ks_set_graph v s) (ks_set_graph v t);
  cg_keys v s t : R s t -> R (ks_set_keys v s) (ks_set_keys v t);
  cg_meta v s t : R s t -> R (ks_set_meta v s) (ks_set_meta v t);
  cg_record_list v s t : R s t -> R (ks_set_record_list v s) (ks_set_record_list v t);
  cg_node_list v s t : R s t -> R (ks_set_node_list v s) (ks_set_node_list v t);
  cg_index f s t : R s t -> R (ks_set_index (f (ks_index s)) s) (ks_set_index (f (ks_index t)) t);
}.

Section Related.
Context (R : KernelState -> KernelState -> Prop) (CG : congruence R).

(** Same outcome, related states. *)
Definition rel {A} (m m' : M KernelError KernelState A) : Prop :=
  forall s t, R s t -> (m s).2 = (m' t).2 /\ R (m s).1 (m' t).1.

Lemma rel_bind {A B} (m m' : M KernelError KernelState A) (k k' : A -> M KernelError KernelState B) :
  rel m m' -> (forall a, rel (k a) (k' a)) -> rel (sbind m k) (sbind m' k').
Proof.
  intros Hm Hk s t Hst. destruct (Hm s t Hst) as [E1 H1]. unfold sbind.
  destruct (m s) as [s1 o], (m' t) as [t1 o']. simpl in *. subst o'. destruct o; [|done..]. by apply Hk.
Qed.

Lemma rel_get {A} (k k' : KernelState -> M KernelError KernelState A) :
  (forall s t, contents s = contents t -> R s t -> rel (k s) (k' t)) -> rel (sbind sget k) (sbind sget k').
Proof. intros Hk s t Hst. apply Hk; [by apply CG|done|done]. Qed.

Lemma rel_same {A} (o : outcome KernelError A) : rel (slift o) (slift o).
Proof. by intros s t Hst. Qed.
Lemma rel_ret {A} (a : A) : rel (sret a) (sret a).
Proof. by intros s t Hst. Qed.
Lemma rel_throw {A} (e : KernelError) : rel (A := A) (sthrow e) (sthrow e).
Proof. by intros s t Hst. Qed.
Lemma rel_panic {A} : rel (A := A) spanic spanic.
Proof. by intros s t Hst. Qed.
Lemma rel_hang {A} : rel (A := A) (fun s => (s, Hang)) (fun s => (s, Hang)).
Proof. by intros s t Hst. Qed.
Lemma rel_guard b (e : KernelError) : rel (sguard b e) (sguard b e).
Proof. unfold sguard. destruct b; [apply rel_throw|apply rel_ret]. Qed.

Lemma rel_if {A} (b : bool) (m1 m2 m1' m2' : M KernelError KernelState A) :
  rel m1 m1' -> rel m2 m2' -> rel (if b then m1 else m2) (if b then m1' else m2').
Proof. by destruct b. Qed.

Lemma rel_modify (f f' : KernelState -> KernelState) :
  (forall s t, contents s = contents t -> R s t -> R (f s) (f' t)) -> rel (smodify f) (smodify f').
Proof. intros Hf s t Hst. split; [done|]. apply Hf; [by apply CG|done]. Qed.

Lemma rel_for {X} (xs : list X) (f f' : X -> M KernelError KernelState unit) :
  (forall x, rel (f x) (f' x)) -> rel (sfor xs f) (sfor xs f').
Proof. intros Hf. induction xs as [|x xs IH]; [apply rel_ret|]. by apply rel_bind. Qed.

Lemma rel_ignore {A} (m m' : M KernelError KernelState A) : rel m m' -> rel (ignore_err m) (ignore_err m').
Proof.
  intros Hm s t Hst. destruct (Hm s t Hst) as [E1 H1]. unfold ignore_err.
  destruct (m s) as [s1 o], (m' t) as [t1 o']. simpl in *. subst o'. by destruct o.
Qed.

Lemma rel_records {A} (m : M KernelError RecordPool A) : rel (with_records m) (with_records m).
Proof.
  intros s t Hst. pose proof (cg_contents _ CG s t Hst) as Hc. injection Hc as E1 _ _ _ _ _ _.
  unfold with_records, zoom. rewrite E1. destruct (m (ks_records t)). split; [done|]. by apply CG.
Qed.
Lemma rel_nodes {A} (m : M KernelError NodePool A) : rel (with_nodes m) (with_nodes m).
Proof.
  intros s t Hst. pose proof (cg_contents _ CG s t Hst) as Hc. injection Hc as _ E1 E2 _ _ _ _.
  unfold with_nodes, zoom. rewrite E1, E2. destruct (m (ks_nodes t)). split; [done|]. by apply CG.
Qed.
Lemma rel_graph {A} (m : M KernelError Graph A) : rel (with_graph m) (with_graph m).
Proof.
  intros s t Hst. pose proof (cg_contents _ CG s t Hst) as Hc. injection Hc as _ E1 E2 _ _ _ _.
  unfold with_graph, zoom, ks_graph. rewrite E1, E2. destruct (m (ks_nodes t, ks_edges t)). split; [done|]. by apply CG.
Qed.
Lemma rel_record_list op : rel (as_linked ks_record_list ks_set_record_list op) (as_linked ks_record_list ks_set_record_list op).
Proof.
  intros s t Hst. pose proof (cg_contents _ CG s t Hst) as Hc. injection Hc as E1 _ _ E2 _ _ _.
  unfold as_linked, ks_record_list. rewrite E1, E2. destruct (op _); (split; [done|]); by try apply CG.
Qed.
Lemma rel_node_list op : rel (as_linked ks_node_list ks_set_node_list op) (as_linked ks_node_list ks_set_node_list op).
Proof.
  intros s t Hst. pose proof (cg_contents _ CG s t Hst) as Hc. injection Hc as _ E1 _ _ _ E2 _.
  unfold as_linked, ks_node_list. rewrite E1, E2. destruct (op _); (split; [done|]); by try apply CG.
Qed.
Lemma rel_index_insert id v : rel (index_insert id v) (index_insert id v).
Proof. apply rel_modify. intros. by apply (cg_index _ CG (on_insert id v)). Qed.
Lemma rel_index_delete id : rel (index_delete id) (index_delete id).
Proof. apply rel_modify. intros. by apply (cg_index _ CG (on_delete id)). Qed.

(** One step of a computation, reads resolved by the equations of the contents. *)
Ltac rel_read :=
  apply rel_get; intros ?s ?t ?Hc ?Hst;
  match goal with Hc : contents ?s = contents ?t |- _ =>
    unfold contents in Hc; injection Hc as ?E ?E ?E ?E ?E ?E ?E
  end;
  unfold next_node_id, next_edge_id, next_record_id;
  repeat match goal with E : ?f ?s = ?f ?t |- _ => rewrite ?E; clear E end.
Ltac rel_update :=
  apply rel_modify; intros ?s ?t ?Hc ?Hst;
  match goal with Hc : contents ?s = contents ?t |- _ =>
    unfold contents in Hc; injection Hc as ?E ?E ?E ?E ?E ?E ?E
  end;
  repeat match goal with E : ?f ?s = ?f ?t |- _ => rewrite ?E; clear E end; by apply CG.
Ltac rel_step :=
  lazymatch goal with
  | |- rel (sbind sget _) _ => rel_read
  | |- rel (sbind _ _) _ => apply rel_bind; [|intros ?]
  | |- rel (slift _) _ => apply rel_same
  | |- rel (sret _) _ => apply rel_ret
  | |- rel (sguard _ _) _ => apply rel_guard
  | |- rel (sthrow _) _ => apply rel_throw
  | |- rel spanic _ => apply rel_panic
  | |- rel (with_records _) _ => apply rel_records
  | |- rel (with_nodes _) _ => apply rel_nodes
  | |- rel (with_graph _) _ => apply rel_graph
  | |- rel (as_linked ks_record_list _ _) _ => apply rel_record_list
  | |- rel (as_linked ks_node_list _ _) _ => apply rel_node_list
  | |- rel (index_insert _ _) _ => apply rel_index_insert
  | |- rel (index_delete _) _ => apply rel_index_delete
  | |- rel (ignore_err _) _ => apply rel_ignore
  | |- rel (sfor _ _) _ => apply rel_for; intros ?
  | |- rel (smodify _) _ => rel_update
  | |- rel (if _ then _ else _) _ => apply rel_if
  | |- rel (match ?o with Some _ => _ | None => _ end) _ => destruct o
  end.

Lemma rel_delete_node id : rel (arm_delete_node id) (arm_delete_node id).
Proof. unfold arm_delete_node, unlink_node_from_ns. repeat rel_step. Qed.

Lemma rel_drop_records fuel cursor : rel (drop_records fuel cursor) (drop_records fuel cursor).
Proof.
  revert cursor. induction fuel as [|fuel IH]; intros cursor; simpl.
  - apply rel_if; [apply rel_ret|apply rel_hang].
  - repeat (rel_step || apply IH).
Qed.

Lemma rel_drop_namespace ns : rel (arm_drop_namespace ns) (arm_drop_namespace ns).
Proof.
  unfold arm_drop_namespace, check_ns, set_record_head, set_node_head.
  repeat (rel_step || apply rel_drop_records || apply rel_delete_node).
Qed.

(** The arm of an event, before the version is counted. *)
Definition arm_body (evt : KernelEvent) (namespace_id : Z) : M KernelError KernelState unit :=
  match evt with
  | InsertRecord id vector metadata tag => arm_insert_record id vector metadata tag namespace_id
  | DeleteRecord id => arm_delete_record id
  | SoftDeleteRecord id => arm_soft_delete_record id
  | CreateNode id kind record => arm_create_node id kind record namespace_id
  | CreateEdge id from to kind => arm_create_edge id from to kind
  | DeleteNode id => arm_delete_node id
  | DeleteEdge id => arm_delete_edge id
  | AutoInsertRecord vector metadata tag => arm_auto_insert_record vector metadata tag namespace_id
  | AutoCreateNode kind record => arm_auto_create_node kind record namespace_id
  | AutoCreateEdge from to kind => insert_edge from to kind
  | AutoInsertRecordEncrypted evt_ns key_id ciphertext tag =>
      let* s := sget in arm_insert_record_encrypted (next_record_id s) key_id ciphertext tag evt_ns
  | UpdateRecordMetadata id metadata => with_records (rp_update_metadata id metadata)
  | SetMeta key value => smodify (fun s => ks_set_meta (btree_insert key value (ks_meta s)) s)
  | AutoCreateNamespace _ => check_ns namespace_id
  | DropNamespace _ => arm_drop_namespace namespace_id
  | InsertRecordEncrypted id key_id ciphertext _ tag => arm_insert_record_encrypted id key_id ciphertext tag namespace_id
  | ShredKey key_id => apply_shred_key key_id
  end.

(** The events that look at the dimension. *)
Definition reads_dim (evt : KernelEvent) : bool :=
  match evt with
  | InsertRecord _ _ _ _ | AutoInsertRecord _ _ _ | InsertRecordEncrypted _ _ _ _ _ | AutoInsertRecordEncrypted _ _ _ _ => true
  | _ => false
  end.

Lemma rel_arm evt ns : reads_dim evt = false -> rel (arm_body evt ns) (arm_body evt ns).
Proof.
  intros He. destruct evt; try discriminate He; cbn [arm_body];
    unfold arm_delete_record, arm_soft_delete_record, unlink_record, unlink_record_from_ns, arm_create_node, arm_auto_create_node,
      insert_node, check_node_record, link_node, arm_create_edge, arm_delete_edge, insert_edge, check_ns, apply_shred_key;
    repeat (rel_step || apply rel_delete_node || apply rel_drop_namespace).
Qed.

(** After the dimension is settled the inserting arms are blind to it too. *)
Lemma rel_insert_tail vector metadata tag ns :
  rel (sguard (metadata_too_large metadata) MetadataTooLarge ;;;
       let* allocated_id := with_records (rp_insert vector metadata tag ns) in
       link_record ns allocated_id ;;; index_insert allocated_id vector)
      (sguard (metadata_too_large metadata) MetadataTooLarge ;;;
       let* allocated_id := with_records (rp_insert vector metadata tag ns) in
       link_record ns allocated_id ;;; index_insert allocated_id vector).
Proof. unfold link_record. repeat rel_step. Qed.
End Related.

(** ** Kernels that differ in version and index *)
Definition same_data (s t : KernelState) : Prop := contents s = contents t /\ ks_dim s = ks_dim t.

#[export] Instance same_data_equiv : Equivalence same_data.
Proof.
  split; [done|by intros s t []|]. intros s t u [E1 E2] [E3 E4]. split; congruence.
Qed.

Lemma same_data_congruence : congruence same_data.
Proof.
  split; intros *; unfold same_data, contents; intros [Hc Hd]; [done|..];
    injection Hc as E1 E2 E3 E4 E5 E6 E7; simpl; (split; [|done]); congruence.
Qed.

(** A state with its version. *)
Definition at_version (v : Z) (s t : KernelState) : Prop := s = t /\ ks_version s = v.
Lemma at_version_congruence v : congruence (at_version v).
Proof. by split; intros *; intros [-> ?]. Qed.

Section WithDim.
Context (R : KernelState -> KernelState -> Prop) (CG : congruence R).
Context (dim_eq : forall s t, R s t -> ks_dim s = ks_dim t).
Context (dim_set : forall d s t, R s t -> R (ks_set_dim d s) (ks_set_dim d t)).

Lemma rel_check_dim d : rel R (check_dim d) (check_dim d).
Proof.
  unfold check_dim. intros s t Hst. unfold sbind, sget. rewrite (dim_eq _ _ Hst).
  destruct (ks_dim t); [by apply rel_guard|]. split; [done|]. by apply dim_set.
Qed.

Lemma rel_insert_checked vector metadata tag ns :
  rel R (insert_checked vector metadata tag ns) (insert_checked vector metadata tag ns).
Proof. apply rel_bind; [apply rel_check_dim|intros _; by apply rel_insert_tail]. Qed.

Lemma rel_encrypted id key ct tag ns :
  rel R (arm_insert_record_encrypted id key ct tag ns) (arm_insert_record_encrypted id key ct tag ns).
Proof.
  unfold arm_insert_record_encrypted, check_ns, link_record. apply rel_bind; [apply rel_guard|intros _].
  apply rel_get; [done|]. intros s t Hc Hst. unfold contents in Hc. injection Hc as E1 _ _ _ _ _ _.
  rewrite E1, (dim_eq _ _ Hst). apply rel_bind; [apply rel_guard|intros _]. apply rel_bind; [apply rel_guard|intros _].
  apply rel_bind; [apply rel_same|intros d]. apply rel_bind; [by apply rel_records|intros rid].
  apply rel_bind; [by apply rel_records|intros _]. apply rel_bind; [|intros _; by apply rel_record_list].
  apply rel_modify; [done|]. intros s1 t1 Hc1 Hst1. unfold contents in Hc1. injection Hc1 as _ _ _ _ E2 _ _. rewrite E2. by apply CG.
Qed.

Lemma rel_arm_dim evt ns : rel R (arm_body evt ns) (arm_body evt ns).
Proof.
  destruct (reads_dim evt) eqn:He; [|by apply rel_arm].
  destruct evt; try discriminate He; cbn [arm_body].
  - apply rel_bind; [apply rel_guard|intros _]. apply rel_get; [done|]. intros s t Hc Hst.
    unfold contents in Hc. injection Hc as E1 _ _ _ _ _ _. rewrite E1.
    apply rel_bind; [apply rel_guard|intros _]. apply rel_insert_checked.
  - apply rel_encrypted.
  - apply rel_bind; [apply rel_guard|intros _]. apply rel_insert_checked.
  - apply rel_get; [done|]. intros s t Hc Hst. unfold contents in Hc. injection Hc as E1 _ _ _ _ _ _.
    unfold next_record_id. rewrite E1. apply rel_encrypted.
Qed.
End WithDim.

Lemma arm_body_version evt ns s : ks_version (arm_body evt ns s).1 = ks_version s.
Proof.
  destruct (rel_arm_dim (at_version (ks_version s)) (at_version_congruence _)) with (evt := evt) (ns := ns) (s := s) (t := s)
    as [_ [_ E]]; [by intros ? ? [-> _]|by intros d s1 t1 [-> ?]|done|done].
Qed.

Lemma apply_event_body evt ns : apply_event_ns evt ns = (arm_body evt ns ;;; bump_version).
Proof. by destruct evt. Qed.

(** The outcome, and the version it leaves. *)
Lemma apply_version evt ns s :
  ks_version s < u64_MAX ->
  apply_event_ns evt ns s
  = match arm_body evt ns s with
    | (s1, Ok _) => (ks_set_version (ks_version s + 1) s1, Ok tt)
    | r => r
    end.
Proof.
  intros Hv. rewrite apply_event_body. unfold sbind at 1. pose proof (arm_body_version evt ns s) as E1.
  destruct (arm_body evt ns s) as [s1 [[]|e| |]]; [|done..]. simpl in E1.
  unfold bump_version, sbind, sget, slift, Version_next. rewrite E1.
  by rewrite (proj2 (Z.ltb_lt _ _)) by lia.
Qed.

Lemma apply_same_data evt ns s t :
  same_data s t -> ks_version s < u64_MAX -> ks_version t < u64_MAX ->
  (apply_event_ns evt ns s).2 = (apply_event_ns evt ns t).2
  /\ same_data (apply_event_ns evt ns s).1 (apply_event_ns evt ns t).1.
Proof.
  intros Hst Hs Ht. rewrite !apply_version by done.
  destruct (rel_arm_dim same_data same_data_congruence) with (evt := evt) (ns := ns) (s := s) (t := t) as [E1 H1];
    [by intros ? ? []|by intros d ? ? []|done|].
  destruct (arm_body evt ns s) as [s1 o], (arm_body evt ns t) as [t1 o']. simpl in *. subst o'. by destruct o.
Qed.

Lemma apply_counts evt ns s :
  ks_version s < u64_MAX ->
  ks_version (apply_event_ns evt ns s).1
  = ks_version s + match (apply_event_ns evt ns s).2 with Ok _ => 1 | _ => 0 end.
Proof.
  intros Hs. rewrite apply_version by done. pose proof (arm_body_version evt ns s) as E1.
  destruct (arm_body evt ns s) as [s1 [[]|e| |]]; simpl in *; lia.
Qed.

(** ** A kernel that has not learnt its dimension *)
Definition behind (d : Z) (s t : KernelState) : Prop := ks_dim s = Some d /\ (t = s \/ t = ks_set_dim None s).

Lemma behind_congruence d : congruence (behind d).
Proof. by split; intros *; intros [? [-> | ->]]; (done || (split; [done|by right]) || (split; [done|by left])). Qed.

Definition inserts_plain (evt : KernelEvent) : bool :=
  match evt with InsertRecord _ _ _ _ | AutoInsertRecord _ _ _ => true | _ => false end.
Definition inserts_encrypted (evt : KernelEvent) : bool :=
  match evt with InsertRecordEncrypted _ _ _ _ _ | AutoInsertRecordEncrypted _ _ _ _ => true | _ => false end.

Lemma ks_set_dim_id d s : ks_dim s = Some d -> ks_set_dim (Some d) s = s.
Proof. destruct s. simpl. by intros ->. Qed.

(** A kernel of a fixed dimension. *)
Definition of_dim (d : Z) (s t : KernelState) : Prop := s = t /\ ks_dim s = Some d.
Lemma of_dim_congruence d : congruence (of_dim d).
Proof. by split; intros *; intros [-> ?]. Qed.

Lemma insert_checked_dim d vector metadata tag ns s :
  ks_dim s = Some d -> ks_dim (insert_checked vector metadata tag ns s).1 = Some d.
Proof.
  intros Hd. unfold insert_checked.
  enough (rel (of_dim d) (check_dim (len vector)) (check_dim (len vector))) as H1.
  { refine (proj2 (proj2 (rel_bind (of_dim d) _ _ _ _ H1 (fun _ => rel_insert_tail _ (of_dim_congruence d) vector metadata tag ns) s s _))). by split. }
  intros s1 t1 [-> H1]. unfold check_dim, sbind, sget. rewrite H1. by apply rel_guard.
Qed.

Lemma encrypted_dim d id key ct tag ns s :
  ks_dim s = Some d -> ks_dim (arm_insert_record_encrypted id key ct tag ns s).1 = Some d.
Proof.
  intros Hd. destruct (rel_encrypted (of_dim d) (of_dim_congruence d)) with (id := id) (key := key) (ct := ct) (tag := tag) (ns := ns) (s := s) (t := s)
    as [_ [_ E]]; [by intros ? ? [-> _]|done|done].
Qed.

Lemma guarded_dim d b e (m : KM unit) s :
  ks_dim s = Some d -> ks_dim (m s).1 = Some d -> ks_dim ((sguard b e ;;; m) s).1 = Some d.
Proof. by destruct b. Qed.

Lemma arm_dim d evt ns s : ks_dim s = Some d -> ks_dim (arm_body evt ns s).1 = Some d.
Proof.
  intros Hd. destruct (reads_dim evt) eqn:He.
  - destruct evt; try discriminate He; cbn [arm_body].
    + by apply guarded_dim, (guarded_dim d _ _ _ s), insert_checked_dim.
    + by apply encrypted_dim.
    + by apply guarded_dim, insert_checked_dim.
    + by apply encrypted_dim.
  - by destruct (rel_arm (of_dim d) (of_dim_congruence d) evt ns He s s) as [_ [_ E]].
Qed.

Lemma insert_checked_undim d vector metadata tag ns s s' :
  ks_dim s = Some d -> insert_checked vector metadata tag ns s = (s', Ok tt) ->
  insert_checked vector metadata tag ns (ks_set_dim None s) = (s', Ok tt).
Proof.
  intros Hd. unfold insert_checked, check_dim. unfold sbind at 1 2. unfold sget. rewrite Hd.
  unfold sguard at 1. destruct (Z.eqb_spec (len vector) d) as [Hl | Hl]; [|done]. simpl negb. cbv iota. unfold sret at 1.
  intros E1. unfold sbind at 1 2. cbn [ks_dim ks_set_dim]. unfold smodify at 1.
  change (ks_set_dim (Some (len vector)) (ks_set_dim None s)) with (ks_set_dim (Some (len vector)) s).
  by rewrite Hl, ks_set_dim_id.
Qed.

Lemma guard_step b (e : KernelError) (m : KM unit) s : (sguard b e ;;; m) s = if b then (s, Err e) else m s.
Proof. by destruct b. Qed.
Lemma get_step {A} (k : KernelState -> KM A) s : sbind sget k s = k s s.
Proof. done. Qed.

(** An inserting arm from a kernel without a dimension: where the dimensioned one succeeds, so does this, with the same state. *)
Lemma arm_undim d evt ns s s' :
  inserts_plain evt = true -> ks_dim s = Some d -> arm_body evt ns s = (s', Ok tt) ->
  arm_body evt ns (ks_set_dim None s) = (s', Ok tt).
Proof.
  intros He Hd. destruct evt; try discriminate He; cbn [arm_body].
  - unfold arm_insert_record, check_ns. rewrite !guard_step. destruct (MAX_NAMESPACES <=? ns); [done|].
    rewrite !get_step, !guard_step. simpl ks_records. destruct (negb _); [done|]. by apply (insert_checked_undim d).
  - unfold arm_auto_insert_record, check_ns. rewrite !guard_step.
    destruct (MAX_NAMESPACES <=? ns); [done|]. by apply (insert_checked_undim d).
Qed.

Lemma apply_behind d evt ns s t :
  behind d s t -> ks_version s < u64_MAX -> (apply_event_ns evt ns s).2 = Ok tt ->
  (inserts_encrypted evt = true -> t = s) ->
  (apply_event_ns evt ns t).2 = Ok tt /\ behind d (apply_event_ns evt ns s).1 (apply_event_ns evt ns t).1
  /\ (inserts_plain evt = true -> (apply_event_ns evt ns t).1 = (apply_event_ns evt ns s).1).
Proof.
  intros Hb Hv Hok Henc. destruct Hb as [Hd [-> | ->]].
  { split; [done|]. split; [|done]. split; [|by left]. rewrite apply_version by done.
    pose proof (arm_dim d evt ns s Hd). by destruct (arm_body evt ns s) as [s1 [[]|e| |]]. }
  rewrite !apply_version in * by done. pose proof (arm_dim d evt ns s Hd) as Hd1.
  destruct (inserts_plain evt) eqn:Hp.
  - destruct (arm_body evt ns s) as [s1 [[]|e| |]] eqn:E1; try discriminate Hok.
    rewrite (arm_undim d _ _ _ _ Hp Hd E1). split; [done|]. split; [|done]. split; [done|by left].
  - destruct (inserts_encrypted evt) eqn:He; [specialize (Henc eq_refl); apply (f_equal ks_dim) in Henc; simpl in Henc; congruence|].
    assert (reads_dim evt = false) as Hr by by destruct evt.
    destruct (rel_arm (behind d) (behind_congruence d) evt ns Hr s (ks_set_dim None s)) as [E1 H1]; [split; [done|by right]|].
    destruct (arm_body evt ns s) as [s1 o], (arm_body evt ns (ks_set_dim None s)) as [t1 o']. simpl in E1, H1. subst o'.
    destruct o as [[]|e| |]; try discriminate Hok. split; [done|]. split; [|done].
    destruct H1 as [? [-> | ->]]; (split; [done|]); [by left|by right].
Qed.
