(* ===== verification/Bytes.v ===== *)
(** * Bytes

    Little-endian integers, UTF-8 validity and the reader monad shared by the
    binary formats.  A byte is a [Z] in [0, 255]. *)

From S2P Require Import Prelude.

(** ** Little-endian integers ([to_le_bytes] / [from_le_bytes]) *)
Fixpoint le_bytes (n : nat) (v : Z) : list Z :=
  match n with
  | O => []
  | S n => v mod 256 :: le_bytes n (v / 256)
  end.

Fixpoint le_val (bs : list Z) : Z :=
  match bs with
  | [] => 0
  | b :: bs => b + 256 * le_val bs
  end.

Abbreviation bytes := (Forall in_u8).

Lemma length_le_bytes n v : length (le_bytes n v) = n.
Proof. revert v. induction n as [|n IH]; intros v; simpl; [done|]. by rewrite IH. Qed.

Lemma le_bytes_bytes n v : bytes (le_bytes n v).
Proof.
  revert v. induction n as [|n IH]; intros v; simpl; constructor; [|apply IH].
  pose proof (Z.mod_pos_bound v 256). int_lia.
Qed.

Lemma le_val_bytes n v : le_val (le_bytes n v) = v mod 256 ^ Z.of_nat n.
Proof.
  revert v. induction n as [|n IH]; intros v.
  - simpl. by rewrite Z.mod_1_r.
  - cbn [le_bytes le_val]. rewrite IH. replace (Z.of_nat (S n)) with (Z.of_nat n + 1) by lia.
    rewrite Z.pow_add_r by lia. rewrite (Z.mul_comm (256 ^ Z.of_nat n)).
    rewrite Z.rem_mul_r by (first [lia | apply Z.pow_nonzero; lia | apply Z.pow_pos_nonneg; lia]).
    done.
Qed.

Lemma le_val_range bs : bytes bs -> 0 <= le_val bs < 256 ^ Z.of_nat (length bs).
Proof.
  induction 1 as [|b bs Hb Hbs IH]; [simpl; lia|]. cbn [le_val length].
  replace (Z.of_nat (S (length bs))) with (Z.of_nat (length bs) + 1) by lia.
  rewrite Z.pow_add_r by lia. unfold_int. lia.
Qed.

Lemma le_val_small n v : 0 <= v < 256 ^ Z.of_nat n -> le_val (le_bytes n v) = v.
Proof. intros. rewrite le_val_bytes. by apply Z.mod_small. Qed.

(** ** UTF-8 ([String::from_utf8]) *)
Definition in_byte_range (lo hi b : Z) : bool := (lo <=? b) && (b <=? hi).
Definition is_cont (b : Z) : bool := in_byte_range 128 191 b.

Fixpoint utf8_valid (l : list Z) : bool :=
  match l with
  | [] => true
  | b0 :: l1 =>
      if in_byte_range 0 127 b0 then utf8_valid l1
      else
        match l1 with
        | [] => false
        | b1 :: l2 =>
            if in_byte_range 194 223 b0 then is_cont b1 && utf8_valid l2
            else
              match l2 with
              | [] => false
              | b2 :: l3 =>
                  if in_byte_range 224 239 b0 then
                    (if b0 =? 224 then in_byte_range 160 191 b1
                     else if b0 =? 237 then in_byte_range 128 159 b1
                     else is_cont b1)
                    && is_cont b2 && utf8_valid l3
                  else
                    match l3 with
                    | [] => false
                    | b3 :: l4 =>
                        in_byte_range 240 244 b0
                        && (if b0 =? 240 then in_byte_range 144 191 b1
                            else if b0 =? 244 then in_byte_range 128 143 b1
                            else is_cont b1)
                        && is_cont b2 && is_cont b3 && utf8_valid l4
                    end
              end
        end
  end.

(** ** Readers

    A reader's state is what is left of the buffer: [off] of the source is the
    length already consumed. *)
Section Readers.
Context {E : Type}.
Abbreviation R A := (M E (list Z) A).

(** [o + n > buf.len()]: fewer than [n] bytes are left. *)
Fixpoint short (l : list Z) (n : Z) : bool :=
  match l with
  | [] => 0 <? n
  | _ :: l => if 0 <? n then short l (n - 1) else false
  end.

Lemma short_spec l n : short l n = (len l <? n).
Proof.
  revert n. induction l as [|b l IH]; intros n; [done|]. cbn [short]. rewrite len_cons, IH.
  pose proof (len_nonneg l). destruct (Z.ltb_spec 0 n), (Z.ltb_spec (len l) (n - 1)), (Z.ltb_spec (1 + len l) n);
    done || lia.
Qed.

(** [if o + n > buf.len() { return Err(e) }; take n bytes]. *)
Definition read_n (e : E) (n : Z) : R (list Z) :=
  fun l => if short l n then (l, Err e) else (drop (Z.to_nat n) l, Ok (take (Z.to_nat n) l)).

Definition read_le (e : E) (n : Z) : R Z := let* bs := read_n e n in sret (le_val bs).

(** [n] reads in a row, each told its index. *)
Fixpoint read_loop {A} (n : nat) (i : Z) (read : Z -> R A) : R (list A) :=
  match n with
  | O => sret []
  | S n => let* x := read i in let* rest := read_loop n (i + 1) read in sret (x :: rest)
  end.

(** [n] steps over an accumulator. *)
Fixpoint read_fold {A} (n : nat) (step : A -> R A) (acc : A) : R A :=
  match n with
  | O => sret acc
  | S n => let* acc := step acc in read_fold n step acc
  end.

(** [reads r bs a]: [r] reads exactly [bs], whatever follows, and yields [a]. *)
Definition reads {A} (r : R A) (bs : list Z) (a : A) : Prop :=
  forall rest, r (bs ++ rest) = (rest, Ok a).

Lemma reads_ret {A} (a : A) : reads (sret a) [] a.
Proof. done. Qed.

Lemma reads_bind {A B} (r : R A) (k : A -> R B) bs1 bs2 a b :
  reads r bs1 a -> reads (k a) bs2 b -> reads (sbind r k) (bs1 ++ bs2) b.
Proof. intros H1 H2 rest. unfold sbind. rewrite <- app_assoc, H1. apply H2. Qed.

Lemma reads_bind_nil {A B} (r : R A) (k : A -> R B) bs a b :
  reads r [] a -> reads (k a) bs b -> reads (sbind r k) bs b.
Proof. intros. by apply (reads_bind r k [] bs a b). Qed.

Lemma reads_guard e (c : bool) : c = false -> reads (sguard c e) [] tt.
Proof. by intros -> rest. Qed.

Lemma reads_n e n bs : len bs = n -> reads (read_n e n) bs bs.
Proof.
  intros <- rest. unfold read_n. rewrite short_spec, len_app, (proj2 (Z.ltb_ge _ _)) by (pose proof (len_nonneg rest); lia).
  unfold len. rewrite Nat2Z.id. by rewrite drop_app_length, take_app_length.
Qed.

Lemma reads_le e (n : nat) v :
  0 <= v < 256 ^ Z.of_nat n -> reads (read_le e (Z.of_nat n)) (le_bytes n v) v.
Proof.
  intros Hv. unfold read_le. rewrite <- (app_nil_r (le_bytes n v)).
  eapply reads_bind; [apply reads_n; unfold len; by rewrite length_le_bytes|].
  rewrite le_val_small by done. apply reads_ret.
Qed.

Lemma reads_loop {A X} (read : Z -> R A) (enc : X -> list Z) (out : X -> A) xs i :
  (forall k x, xs !! k = Some x -> reads (read (i + Z.of_nat k)) (enc x) (out x)) ->
  reads (read_loop (length xs) i read) (concat (enc <$> xs)) (out <$> xs).
Proof.
  revert i. induction xs as [|x xs IH]; intros i Hx; [apply reads_ret|]. cbn [length read_loop fmap list_fmap concat].
  eapply reads_bind; [specialize (Hx 0%nat x eq_refl); by rewrite Z.add_0_r in Hx|].
  rewrite <- (app_nil_r (concat _)). eapply reads_bind; [|apply reads_ret].
  apply IH. intros k y Hy. replace (i + 1 + Z.of_nat k) with (i + Z.of_nat (S k)) by lia. by apply Hx.
Qed.

Lemma reads_fold {A X} (step : A -> R A) (enc : X -> list Z) (f : A -> X -> A) xs acc :
  (forall pre x post, xs = pre ++ x :: post -> reads (step (foldl f acc pre)) (enc x) (f (foldl f acc pre) x)) ->
  reads (read_fold (length xs) step acc) (concat (enc <$> xs)) (foldl f acc xs).
Proof.
  revert acc. induction xs as [|x xs IH]; intros acc Hx; [apply reads_ret|].
  cbn [length read_fold fmap list_fmap concat foldl].
  eapply reads_bind; [by apply (Hx [] x xs)|]. apply IH. intros pre y post ->. by apply (Hx (x :: pre) y post).
Qed.

(** ** Stability: more input never changes a successful read *)
Definition stable {A} (r : R A) : Prop :=
  forall l rest a more, r l = (rest, Ok a) -> r (l ++ more) = (rest ++ more, Ok a).

Lemma stable_ret {A} (a : A) : stable (sret a).
Proof. intros l rest b more. unfold sret. by intros [= -> ->]. Qed.

Lemma stable_throw {A} e : stable (sthrow (A := A) e).
Proof. done. Qed.

Lemma stable_guard (c : bool) e : stable (sguard c e).
Proof. destruct c; [apply stable_throw|apply stable_ret]. Qed.

Lemma stable_lift {A} (o : outcome E A) : stable (slift o).
Proof. intros l rest a more. unfold slift. by intros [= -> ->]. Qed.

Lemma stable_bind {A B} (r : R A) (k : A -> R B) :
  stable r -> (forall a, stable (k a)) -> stable (sbind r k).
Proof.
  intros Hr Hk l rest b more. unfold sbind. destruct (r l) as [l' [a|e| |]] eqn:E1; try done.
  intros Hkb. rewrite (Hr _ _ _ _ E1). by apply Hk.
Qed.

Lemma stable_read_n e n : stable (read_n e n).
Proof.
  intros l rest a more. unfold read_n. rewrite !short_spec, len_app. pose proof (len_nonneg more).
  destruct (len l <? n) eqn:E1; [done|]. bool_prop. rewrite (proj2 (Z.ltb_ge _ _)) by lia.
  intros [= <- <-]. unfold len in *. rewrite drop_app_le, take_app_le by lia. done.
Qed.

Lemma stable_read_le e n : stable (read_le e n).
Proof. apply stable_bind; [apply stable_read_n|]. intros. apply stable_ret. Qed.

Lemma stable_loop {A} n i (read : Z -> R A) : (forall i, stable (read i)) -> stable (read_loop n i read).
Proof.
  intros Hr. revert i. induction n as [|n IH]; intros i; [apply stable_ret|]. simpl.
  apply stable_bind; [done|]. intros a. apply stable_bind; [done|]. intros b. apply stable_ret.
Qed.

Lemma stable_fold {A} n (step : A -> R A) acc : (forall a, stable (step a)) -> stable (read_fold n step acc).
Proof.
  intros Hr. revert acc. induction n as [|n IH]; intros acc; [apply stable_ret|]. simpl.
  by apply stable_bind.
Qed.

(** A reader that consumes all of [full] rejects every proper prefix, if it returns. *)
Lemma stable_truncated {A} (r : R A) full a n :
  stable r -> r full = ([], Ok a) -> (n < length full)%nat -> returns (r (take n full)).2 ->
  exists e, (r (take n full)).2 = Err e.
Proof.
  intros Hs Hf Hn Hret. destruct (r (take n full)) as [rest o] eqn:E1. simpl in *.
  destruct o as [b|e| |]; try done; [|by exists e].
  apply (Hs _ _ _ (drop n full)) in E1. rewrite take_drop, Hf in E1.
  injection E1 as Hnil _. symmetry in Hnil. apply app_eq_nil in Hnil as [_ Hd].
  apply (f_equal length) in Hd. rewrite length_drop in Hd. simpl in Hd. lia.
Qed.
End Readers.
