(* ===== verification/Snapshot.v ===== *)
(** * Snapshots

    Models [crates/valori-kernel/src/snapshot/encode.rs] and [decode.rs]: the
    V7 encoder, and the decoder of schema versions 1 to 7. *)

From S2P Require Import Prelude.
From S2P Require Import Core.
From S2P Require Import Fxp.
From S2P Require Import Slab.
From S2P Require Import Records.
From S2P Require Import Graph.
From S2P Require Import Index.
From S2P Require Import Event.
From S2P Require Import Kernel.
From S2P Require Import Bytes.

(** ** Encoding (encode.rs) *)
Definition MAGIC : list Z := [86; 65; 76; 75].
Definition SCHEMA_VERSION : Z := 7.

Definition push_u8 (v : Z) : list Z := [v].
Definition push_u16 (v : Z) : list Z := le_bytes 2 v.
Definition push_u32 (v : Z) : list Z := le_bytes 4 v.
Definition push_i32 (v : Z) : list Z := le_bytes 4 v.
Definition push_u64 (v : Z) : list Z := le_bytes 8 v.

(** The capacity hint, a size for pre-allocation. *)
Definition encode_capacity_hint (s : KernelState) : Z :=
  64 + len (ks_records s) * (28 + default 0 (ks_dim s) * 4) + node_count s * 30 + edge_count s * 29
  + 2 * 1024 * 4 + len (ks_meta s) * 128 + 4096.

Definition push_blob (b : list Z) : list Z := push_u32 (wrap_u32 (len b)) ++ b.

Definition encode_slot (slot : option Record_) : list Z :=
  match slot with
  | None => push_u8 0
  | Some r =>
      push_u8 1 ++ push_u32 (rec_id r) ++ push_u8 (rec_flags r) ++ push_u64 (rec_tag r)
      ++ concat (push_i32 <$> rec_vector r)
      ++ match rec_metadata r with Some m => push_blob m | None => push_u32 0 end
      ++ push_u16 (rec_namespace_id r) ++ push_u32 (rec_next_in_ns r) ++ push_u32 (rec_prev_in_ns r)
  end.

Definition push_opt (o : option Z) : list Z :=
  match o with Some v => push_u8 1 ++ push_u32 v | None => push_u8 0 end.

Definition encode_node (n : GraphNode) : list Z :=
  push_u32 (nd_id n) ++ push_u8 (NodeKind_as_u8 (nd_kind n)) ++ push_opt (nd_record n)
  ++ push_opt (nd_first_out_edge n) ++ push_opt (nd_first_in_edge n)
  ++ push_u16 (nd_namespace_id n) ++ push_u32 (nd_next_in_ns n) ++ push_u32 (nd_prev_in_ns n).

Definition encode_edge (e : GraphEdge) : list Z :=
  push_u32 (ed_id e) ++ push_u8 (EdgeKind_as_u8 (ed_kind e)) ++ push_u32 (ed_from e) ++ push_u32 (ed_to e)
  ++ push_opt (ed_next_out e) ++ push_opt (ed_next_in e).

Definition encode_meta (kv : list Z * list Z) : list Z := push_blob kv.1 ++ push_blob kv.2.

(** The live entries, in slot order. *)
Definition live {A} (p : slab A) : list A := omap id p.

Definition encode_header (s : KernelState) : list Z :=
  MAGIC ++ push_u32 SCHEMA_VERSION ++ push_u64 (ks_version s)
  ++ push_u32 (wrap_u32 (len (ks_records s))) ++ push_u32 (wrap_u32 (default 0 (ks_dim s)))
  ++ push_u32 (wrap_u32 (len (ks_nodes s))) ++ push_u32 (wrap_u32 (len (ks_edges s)))
  ++ push_u8 ACTIVE_FORMAT_ID.

Definition encode_state (s : KernelState) : list Z :=
  encode_header s
  ++ push_u32 (wrap_u32 (len (ks_records s))) ++ concat (encode_slot <$> ks_records s)
  ++ push_u32 (wrap_u32 (live_count (ks_nodes s))) ++ concat (encode_node <$> live (ks_nodes s))
  ++ push_u32 (wrap_u32 (live_count (ks_edges s))) ++ concat (encode_edge <$> live (ks_edges s))
  ++ concat (push_u32 <$> take (Z.to_nat MAX_NAMESPACES) (ks_record_heads s))
  ++ concat (push_u32 <$> take (Z.to_nat MAX_NAMESPACES) (ks_node_heads s))
  ++ push_u32 (wrap_u32 (len (ks_meta s))) ++ concat (encode_meta <$> ks_meta s).

(** ** Decoding (decode.rs) *)
Abbreviation R := (M KernelError (list Z)).

Definition read_bytes (n : Z) : R (list Z) := read_n InvalidOperation n.
Definition read_u8 : R Z :=
  fun l => match l with [] => (l, Err InvalidOperation) | b :: l => (l, Ok b) end.
Definition read_u16 : R Z := read_le InvalidOperation 2.
Definition read_u32 : R Z := read_le InvalidOperation 4.
Definition read_u64 : R Z := read_le InvalidOperation 8.
Definition read_i32 : R Z := let* v := read_le InvalidOperation 4 in sret (wrap_i32 v).

Definition read_flag : R bool :=
  let* b := read_u8 in
  if b =? 0 then sret false else if b =? 1 then sret true else sthrow InvalidOperation.

Definition read_blob (n max : Z) : R (list Z) :=
  sguard (max <? n) InvalidOperation ;;; read_bytes n.

Definition read_str (max : Z) : R (list Z) :=
  let* n := read_u32 in
  let* bs := read_blob n max in
  sguard (negb (utf8_valid bs)) InvalidOperation ;;; sret bs.

Definition read_opt_edge : R (option Z) :=
  let* present := read_flag in
  if present : bool then let* v := read_u32 in sret (Some v) else sret None.

(** [if n > buf.len().saturating_sub(off) { return Err }]. *)
Definition check_remaining (n : Z) : R unit :=
  let* rest := sget in sguard (len rest <? n) InvalidOperation.

(** The namespace fields: V6+. *)
Definition read_ns (schema_ver : Z) : R (Z * Z * Z) :=
  if 6 <=? schema_ver then
    let* ns := read_u16 in
    sguard (MAX_NAMESPACES <=? ns) InvalidOperation ;;;
    let* next := read_u32 in
    let* prev := read_u32 in
    sret (ns, next, prev)
  else sret (0, NS_LIST_NIL, NS_LIST_NIL).

Definition read_metadata (schema_ver : Z) : R (option (list Z)) :=
  if 2 <=? schema_ver then
    let* meta_len := read_u32 in
    if 0 <? meta_len then let* b := read_blob meta_len MAX_METADATA_SIZE in sret (Some b) else sret None
  else sret None.

Definition read_slot (schema_ver dim i : Z) : R (option Record_) :=
  let* present := read_flag in
  if negb present then sret None
  else
    let* id_val := read_u32 in
    sguard (negb (id_val =? i)) InvalidOperation ;;;
    let* flags := read_u8 in
    let* tag := if 3 <=? schema_ver then read_u64 else sret 0 in
    check_remaining (dim * 4) ;;;
    let* vector := read_loop (Z.to_nat dim) 0 (fun _ => read_i32) in
    let* metadata := read_metadata schema_ver in
    let* ns := read_ns schema_ver in
    sret (Some (mkRecord (wrap_u32 i) vector metadata tag flags ns.1.1 ns.1.2 ns.2)).

(** One node, stored at its id. *)
Definition read_node (schema_ver node_count : Z) (records : RecordPool) (nodes : NodePool) : R NodePool :=
  let* id_val := read_u32 in
  sguard (node_count <=? id_val) InvalidOperation ;;;
  let* kind_val := read_u8 in
  let* kind := slift (ok_or (NodeKind_from_u8 kind_val) InvalidOperation) in
  let* has_record := read_flag in
  let* record := (if has_record : bool then let* r := read_u32 in sret (Some r) else sret None) in
  let* first_out := read_opt_edge in
  let* first_in := if 4 <=? schema_ver then read_opt_edge else sret None in
  let* ns := read_ns schema_ver in
  match record with
  | Some rid => sguard (negb (is_allocated records rid)) InvalidOperation
  | None => sret tt
  end ;;;
  sret (vec_set nodes id_val
          (Some (mkNode (wrap_u32 id_val) kind record first_out first_in ns.1.1 ns.1.2 ns.2))).

Definition read_edge (schema_ver edge_count : Z) (nodes : NodePool) (edges : EdgePool) : R EdgePool :=
  let* id_val := read_u32 in
  sguard (edge_count <=? id_val) InvalidOperation ;;;
  let* kind_val := read_u8 in
  let* kind := slift (ok_or (EdgeKind_from_u8 kind_val) InvalidOperation) in
  let* from := read_u32 in
  let* to := read_u32 in
  sguard (negb (is_allocated nodes from)) InvalidOperation ;;;
  sguard (negb (is_allocated nodes to)) InvalidOperation ;;;
  let* next_out := read_opt_edge in
  let* next_in := if 4 <=? schema_ver then read_opt_edge else sret None in
  sret (vec_set edges id_val (Some (mkEdge (wrap_u32 id_val) kind from to next_out next_in))).

(** A count field with its two bounds. *)
Definition read_count (max : Z) : R Z :=
  let* n := read_u32 in
  sguard (max <? n) InvalidOperation ;;;
  check_remaining n ;;;
  sret n.

(** V1-V3: rebuild the incoming lists by pushing every edge in front. *)
Definition relink_incoming (nodes : NodePool) (edges : EdgePool) : Graph :=
  foldl (fun (g : Graph) (t : Z * Z) =>
           let '(eid, to) := t in
           let head := match slab_get g.1 to with Some n => nd_first_in_edge n | None => None end in
           (slab_alter (set_first_edge In (Some eid)) g.1 to,
            slab_alter (set_next_edge In head) g.2 eid))
    (nodes, edges) ((fun e => (ed_id e, ed_to e)) <$> live edges).

(** One head array entry: a slot index or the sentinel. *)
Definition read_head (n : Z) : R Z :=
  let* head := read_u32 in
  sguard (negb (head =? NS_LIST_NIL) && (n <=? head)) InvalidOperation ;;;
  sret head.

Definition read_header : R (Z * Z * Z) :=
  let* magic := read_bytes 4 in
  sguard (negb (bool_decide (magic = MAGIC))) InvalidOperation ;;;
  let* schema_ver := read_u32 in
  sguard ((schema_ver <? 1) || (7 <? schema_ver)) InvalidOperation ;;;
  let* version_val := read_u64 in
  let* _cap_records := read_u32 in
  let* dim := read_u32 in
  let* _cap_nodes := read_u32 in
  let* _cap_edges := read_u32 in
  (if 5 <=? schema_ver then
     let* format_id := read_u8 in
     sguard (negb (format_id =? ACTIVE_FORMAT_ID)) InvalidOperation
   else sret tt) ;;;
  sguard (MAX_DIM <? dim) InvalidOperation ;;;
  sret (schema_ver, version_val, dim).

(** The namespace lists: read (V6+) or rebuilt. *)
Definition read_lists (schema_ver total_slots node_count : Z) (s : KernelState) : R KernelState :=
  if 6 <=? schema_ver then
    let* rheads := read_loop (Z.to_nat MAX_NAMESPACES) 0 (fun _ => read_head total_slots) in
    let* nheads := read_loop (Z.to_nat MAX_NAMESPACES) 0 (fun _ => read_head node_count) in
    sret (ks_set_node_list (nheads, ks_nodes s) (ks_set_record_list (rheads, ks_records s) s))
  else
    let '(s', o) := rebuild_namespace_lists s in
    let* _ := slift o in sret s'.

Definition read_meta_entry (m : list (list Z * list Z)) : R (list (list Z * list Z)) :=
  let* key := read_str MAX_METADATA_SIZE in
  let* value := read_str MAX_METADATA_SIZE in
  sret (btree_insert key value m).

Definition read_meta (schema_ver : Z) : R (list (list Z * list Z)) :=
  if 7 <=? schema_ver then
    let* meta_count := read_u32 in
    sguard (MAX_META_ENTRIES <? meta_count) InvalidOperation ;;;
    read_fold (Z.to_nat meta_count) read_meta_entry []
  else sret [].

Definition read_state : R KernelState :=
  let* h := read_header in
  let '(schema_ver, version_val, dim) := h in
  let* total_slots := read_count MAX_RECORDS in
  let* records := read_loop (Z.to_nat total_slots) 0 (read_slot schema_ver dim) in
  let* node_count := read_count MAX_NODES in
  let* nodes := read_fold (Z.to_nat node_count) (read_node schema_ver node_count records)
                  (replicate (Z.to_nat node_count) None) in
  let* edge_count := read_count MAX_EDGES in
  let* edges := read_fold (Z.to_nat edge_count) (read_edge schema_ver edge_count nodes)
                  (replicate (Z.to_nat edge_count) None) in
  let g := if schema_ver <? 4 then relink_incoming nodes edges else (nodes, edges) in
  let s0 := ks_set_version version_val
              (ks_set_dim (if 0 <? dim then Some dim else None) KernelState_new) in
  let s1 := ks_set_graph g (ks_set_records records s0) in
  let* s2 := read_lists schema_ver total_slots node_count s1 in
  let* meta := read_meta schema_ver in
  sret (ks_set_meta meta s2).

Definition decode_state (buf : list Z) : outcome KernelError KernelState := (read_state buf).2.
