(* ===== verification/SnapshotProofs.v ===== *)
(** * Snapshots: round trip, truncation, totality *)

From S2P Require Import Prelude.
From S2P Require Import Hoare.
From S2P Require Import Core.
From S2P Require Import Fxp.
From S2P Require Import TopK.
From S2P Require Import Slab.
From S2P Require Import Records.
From S2P Require Import Graph.
From S2P Require Import GraphProofs.
From S2P Require Import Index.
From S2P Require Import Event.
From S2P Require Import Kernel.
From S2P Require Import KernelWf.
From S2P Require Import KernelProofs.
From S2P Require Import KernelTheorems.
From S2P Require Import KernelChecks.
From S2P Require Import Bytes.
From S2P Require Import Snapshot.

(** ** What a state must satisfy to survive *)

(** Fields within their machine types. *)
Definition rec_typed (r : Record_) : Prop :=
  in_u32 (rec_id r) /\ Forall in_i32 (rec_vector r) /\ in_u64 (rec_tag r)
  /\ in_u32 (rec_next_in_ns r) /\ in_u32 (rec_prev_in_ns r)
  /\ match rec_metadata r with Some m => len m <= MAX_METADATA_SIZE | None => True end.

Definition opt_typed (o : option Z) : Prop := match o with Some v => in_u32 v | None => True end.

Definition node_typed (n : GraphNode) : Prop :=
  in_u32 (nd_id n) /\ opt_typed (nd_record n) /\ opt_typed (nd_first_out_edge n)
  /\ opt_typed (nd_first_in_edge n) /\ in_u32 (nd_next_in_ns n) /\ in_u32 (nd_prev_in_ns n).

Definition edge_typed (e : GraphEdge) : Prop :=
  in_u32 (ed_id e) /\ in_u32 (ed_from e) /\ in_u32 (ed_to e)
  /\ opt_typed (ed_next_out e) /\ opt_typed (ed_next_in e).

Definition str_ok (b : list Z) : Prop := utf8_valid b = true /\ len b <= MAX_METADATA_SIZE.

(** No slot was ever freed. *)
Definition no_holes {A} (p : slab A) : Prop := Forall is_Some p.

(** Within the limits the decoder enforces, and without freed node or edge slots. *)
Record snapshotable (s : KernelState) : Prop := {
  sn_version : in_u64 (ks_version s);
  sn_dim : forall d, ks_dim s = Some d -> d <= MAX_DIM;
  sn_records : len (ks_records s) <= MAX_RECORDS;
  sn_typed : forall i r, slab_get (ks_records s) i = Some r -> rec_typed r;
  sn_nodes : no_holes (ks_nodes s) /\ len (ks_nodes s) <= MAX_NODES;
  sn_node_typed : forall i n, slab_get (ks_nodes s) i = Some n -> node_typed n;
  sn_edges : no_holes (ks_edges s) /\ len (ks_edges s) <= MAX_EDGES;
  sn_edge_typed : forall i e, slab_get (ks_edges s) i = Some e -> edge_typed e;
  sn_alive : records_alive s;
  sn_meta : len (ks_meta s) <= MAX_META_ENTRIES
            /\ Forall (fun kv => str_ok kv.1 /\ str_ok kv.2) (ks_meta s);
}.

(** What comes back: an empty metadata blob reads as none, a zero dimension as
    unset, the index as the default one, and the key registry as empty. *)
Definition norm_metadata (m : option (list Z)) : option (list Z) :=
  match m with Some [] => None | _ => m end.
Definition norm_record (r : Record_) : Record_ := rec_set_metadata (norm_metadata (rec_metadata r)) r.
Definition norm_dim (d : option Z) : option Z :=
  match d with Some d => if 0 <? d then Some d else None | None => None end.

Definition restored (s : KernelState) : KernelState :=
  mkKernel (norm_dim (ks_dim s)) (ks_version s) (option_map norm_record <$> (ks_records s : list (option Record_))) (ks_nodes s)
    (ks_edges s) BruteForce (ks_record_heads s) ∅ (ks_node_heads s) (ks_meta s).

(** ** Primitive fields *)
Lemma reads_u8 v : reads read_u8 (push_u8 v) v.
Proof. done. Qed.

Lemma reads_u16 v : in_u16 v -> reads read_u16 (push_u16 v) v.
Proof. intros. apply (reads_le _ 2). change (256 ^ Z.of_nat 2) with 65536. int_lia. Qed.

Lemma reads_u32 v : in_u32 v -> reads read_u32 (push_u32 v) v.
Proof. intros. apply (reads_le _ 4). change (256 ^ Z.of_nat 4) with 4294967296. int_lia. Qed.

Lemma reads_u64 v : in_u64 v -> reads read_u64 (push_u64 v) v.
Proof. intros. apply (reads_le _ 8). change (256 ^ Z.of_nat 8) with 18446744073709551616. int_lia. Qed.

(** Two's complement. *)
Lemma wrap_i32_mod v : in_i32 v -> wrap_i32 (v mod 256 ^ 4) = v.
Proof.
  intros Hv. change (256 ^ 4) with 4294967296. unfold wrap_i32. rewrite Zplus_mod_idemp_l.
  rewrite Z.mod_small; int_lia.
Qed.

Lemma reads_i32 v : in_i32 v -> reads read_i32 (push_i32 v) v.
Proof.
  intros Hv. unfold read_i32, push_i32. rewrite <- (app_nil_r (le_bytes 4 v)).
  eapply reads_bind.
  - unfold read_le. rewrite <- (app_nil_r (le_bytes 4 v)).
    eapply reads_bind; [apply reads_n; unfold len; by rewrite length_le_bytes|apply reads_ret].
  - rewrite le_val_bytes, wrap_i32_mod by done. apply reads_ret.
Qed.

Lemma reads_flag (b : bool) : reads read_flag (push_u8 (if b then 1 else 0)) b.
Proof. by destruct b. Qed.

Lemma reads_opt o : opt_typed o -> reads read_opt_edge (push_opt o) o.
Proof.
  intros Ho. unfold read_opt_edge. destruct o as [v|]; simpl.
  - eapply (reads_bind _ _ [1]); [apply (reads_flag true)|]. simpl.
    rewrite <- (app_nil_r (push_u32 v)). eapply reads_bind; [by apply reads_u32|apply reads_ret].
  - eapply (reads_bind _ _ [0] []); [apply (reads_flag false)|apply reads_ret].
Qed.

(** A bound on what remains passes when what is still to be read is long enough. *)
Lemma reads_remaining {A} n (k : unit -> R A) bs a :
  n <= len bs -> reads (k tt) bs a -> reads (sbind (check_remaining n) k) bs a.
Proof.
  intros Hn Hk rest. unfold sbind, check_remaining, sbind, sget, sguard.
  rewrite len_app, (proj2 (Z.ltb_ge _ _)) by (pose proof (len_nonneg rest); lia). apply Hk.
Qed.

Lemma reads_count {A} n max (k : Z -> R A) bs a :
  in_u32 n -> n <= max -> n <= len bs -> reads (k n) bs a ->
  reads (sbind (read_count max) k) (push_u32 n ++ bs) a.
Proof.
  intros Hn Hmax Hlen Hk rest. unfold sbind at 1, read_count. unfold sbind at 1.
  rewrite <- app_assoc, (reads_u32 n Hn). unfold sbind, sguard.
  rewrite (proj2 (Z.ltb_ge _ _) Hmax). unfold sret at 1.
  pose proof (reads_remaining n (fun _ => sret n) bs) as Hrem.
  unfold check_remaining, sbind, sget, sguard. rewrite len_app.
  rewrite (proj2 (Z.ltb_ge _ _)) by (pose proof (len_nonneg rest); lia). apply Hk.
Qed.

Lemma reads_blob {A} b max (k : list Z -> R A) bs a :
  len b <= max -> reads (k b) bs a -> reads (sbind (read_blob (len b) max) k) (b ++ bs) a.
Proof.
  intros Hmax Hk. eapply reads_bind; [|exact Hk]. unfold read_blob.
  eapply reads_bind_nil; [apply reads_guard; by apply Z.ltb_ge|]. by apply reads_n.
Qed.

Lemma len_u32 (b : list Z) : len b <= MAX_METADATA_SIZE -> in_u32 (len b).
Proof. pose proof (len_nonneg b). unfold MAX_METADATA_SIZE. int_lia. Qed.

Lemma reads_str b : str_ok b -> reads (read_str MAX_METADATA_SIZE) (push_blob b) b.
Proof.
  intros [Hu Hl]. unfold read_str, push_blob. rewrite wrap_u32_small by by apply len_u32.
  eapply reads_bind; [apply reads_u32; by apply len_u32|].
  rewrite <- (app_nil_r b) at 2. apply reads_blob; [done|].
  eapply reads_bind_nil; [apply reads_guard; by rewrite Hu|apply reads_ret].
Qed.

Lemma reads_ns ns next prev :
  0 <= ns < MAX_NAMESPACES -> in_u32 next -> in_u32 prev ->
  reads (read_ns 7) (push_u16 ns ++ push_u32 next ++ push_u32 prev) (ns, next, prev).
Proof.
  intros Hns Hn Hp. unfold read_ns. change (6 <=? 7) with true. cbv iota.
  eapply reads_bind; [apply reads_u16; unfold MAX_NAMESPACES in *; int_lia|].
  eapply reads_bind_nil; [apply reads_guard; apply Z.leb_gt; lia|].
  eapply reads_bind; [by apply reads_u32|]. rewrite <- (app_nil_r (push_u32 prev)).
  eapply reads_bind; [by apply reads_u32|apply reads_ret].
Qed.

Lemma reads_metadata m :
  match m with Some b => len b <= MAX_METADATA_SIZE | None => True end ->
  reads (read_metadata 7) (match m with Some b => push_blob b | None => push_u32 0 end) (norm_metadata m).
Proof.
  intros Hm. unfold read_metadata. change (2 <=? 7) with true. cbv iota. destruct m as [b|].
  - unfold push_blob. rewrite wrap_u32_small by by apply len_u32.
    eapply reads_bind; [apply reads_u32; by apply len_u32|]. destruct b as [|x b]; [apply reads_ret|].
    rewrite (proj2 (Z.ltb_lt 0 (len (x :: b)))) by len_lia.
    rewrite <- (app_nil_r (x :: b)) at 2. apply reads_blob; [done|apply reads_ret].
  - rewrite <- (app_nil_r (push_u32 0)). eapply reads_bind; [apply reads_u32; int_lia|apply reads_ret].
Qed.

Lemma len_concat_ge {A} (f : A -> list Z) (c : Z) xs :
  0 <= c -> (forall x, x ∈ xs -> c <= len (f x)) -> c * len xs <= len (concat (f <$> xs)).
Proof.
  intros Hc. induction xs as [|x xs IH]; intros Hf; [unfold len; simpl; lia|].
  rewrite fmap_cons. simpl concat. rewrite len_app, len_cons.
  specialize (Hf x ltac:(by left)) as Hx. specialize (IH (fun y Hy => Hf y (list_elem_of_further _ _ _ Hy))). lia.
Qed.

(** ** Records *)
Lemma reads_slot dim i o :
  (forall r, o = Some r -> rec_typed r /\ rec_id r = i /\ len (rec_vector r) = dim
                           /\ 0 <= rec_namespace_id r < MAX_NAMESPACES) ->
  reads (read_slot 7 dim i) (encode_slot o) (option_map norm_record o).
Proof.
  intros Ho. unfold read_slot. destruct o as [r|].
  2: { eapply (reads_bind _ _ [0] []); [apply (reads_flag false)|apply reads_ret]. }
  destruct (Ho r eq_refl) as ((Hid & Hv & Ht & Hn & Hp & Hm) & Hi & Hd & Hns). cbn [encode_slot option_map].
  eapply reads_bind; [apply (reads_flag true)|]. cbn [negb].
  eapply reads_bind; [by apply reads_u32|].
  eapply reads_bind_nil; [apply reads_guard; by rewrite Hi, Z.eqb_refl|].
  eapply reads_bind; [apply reads_u8|].
  eapply reads_bind; [by apply reads_u64|].
  assert (4 * len (rec_vector r) <= len (concat (push_i32 <$> rec_vector r))) as Hlen.
  { apply len_concat_ge; [lia|]. intros x _. unfold push_i32, len. rewrite length_le_bytes. lia. }
  apply reads_remaining.
  { rewrite len_app. pose proof (len_nonneg (match rec_metadata r with Some m => push_blob m | None => push_u32 0 end
      ++ push_u16 (rec_namespace_id r) ++ push_u32 (rec_next_in_ns r) ++ push_u32 (rec_prev_in_ns r))). lia. }
  eapply reads_bind.
  { rewrite <- Hd. unfold len. rewrite Nat2Z.id.
    apply (reads_loop (fun _ => read_i32) push_i32 (fun x => x)). intros k x Hx.
    apply reads_i32. by eapply Forall_lookup_1. }
  eapply reads_bind; [by apply reads_metadata|].
  rewrite <- (app_nil_r (push_u16 _ ++ _)). eapply reads_bind; [by apply reads_ns|].
  rewrite list_fmap_id. rewrite <- Hi, wrap_u32_small by done. unfold norm_record, rec_set_metadata. simpl.
  apply reads_ret.
Qed.

(** ** Nodes and edges *)
Lemma NodeKind_roundtrip k : NodeKind_from_u8 (NodeKind_as_u8 k) = Some k.
Proof. by destruct k. Qed.
Lemma EdgeKind_roundtrip k : EdgeKind_from_u8 (EdgeKind_as_u8 k) = Some k.
Proof. by destruct k. Qed.

Lemma reads_lift {A} (o : option A) e a : o = Some a -> reads (E := KernelError) (slift (ok_or o e)) [] a.
Proof. by intros -> rest. Qed.

Lemma reads_node cnt records pool n :
  node_typed n -> nd_id n < cnt -> 0 <= nd_namespace_id n < MAX_NAMESPACES ->
  (forall rid, nd_record n = Some rid -> is_Some (slab_get records rid)) ->
  reads (read_node 7 cnt records pool) (encode_node n) (vec_set pool (nd_id n) (Some n)).
Proof.
  intros (Hid & Hr & Ho & Hi & Hn & Hp) Hc Hns Hrec. unfold read_node, encode_node.
  eapply reads_bind; [by apply reads_u32|].
  eapply reads_bind_nil; [apply reads_guard; apply Z.leb_gt; lia|].
  eapply reads_bind; [apply reads_u8|].
  eapply reads_bind_nil; [apply reads_lift, NodeKind_roundtrip|].
  assert (forall B (k : option Z -> R B) bs b, reads (k (nd_record n)) bs b ->
    reads (let* has_record := read_flag in
           let* record := if has_record : bool then let* r := read_u32 in sret (Some r) else sret None in
           k record) (push_opt (nd_record n) ++ bs) b) as Hopt.
  { intros B k bs b Hk. destruct (nd_record n) as [rid|]; cbn [push_opt].
    - rewrite <- app_assoc. eapply reads_bind; [apply (reads_flag true)|].
      eapply reads_bind; [|exact Hk]. rewrite <- (app_nil_r (push_u32 rid)).
      eapply reads_bind; [by apply reads_u32|apply reads_ret].
    - eapply reads_bind; [apply (reads_flag false)|]. eapply reads_bind_nil; [apply reads_ret|exact Hk]. }
  apply Hopt. eapply reads_bind; [by apply reads_opt|]. eapply reads_bind; [by apply reads_opt|].
  rewrite <- (app_nil_r (push_u16 _ ++ _)). eapply reads_bind; [by apply reads_ns|].
  eapply reads_bind_nil.
  { destruct (nd_record n) as [rid|] eqn:E; [|apply reads_ret]. apply reads_guard.
    destruct (Hrec rid eq_refl) as [r Hr']. unfold is_allocated. by rewrite Hr'. }
  rewrite wrap_u32_small by done. simpl. destruct n. apply reads_ret.
Qed.

Lemma reads_edge cnt nodes pool e :
  edge_typed e -> ed_id e < cnt -> is_Some (slab_get nodes (ed_from e)) ->
  is_Some (slab_get nodes (ed_to e)) ->
  reads (read_edge 7 cnt nodes pool) (encode_edge e) (vec_set pool (ed_id e) (Some e)).
Proof.
  intros (Hid & Hf & Ht & Ho & Hi) Hc [nf Hnf] [nt Hnt]. unfold read_edge, encode_edge.
  eapply reads_bind; [by apply reads_u32|].
  eapply reads_bind_nil; [apply reads_guard; apply Z.leb_gt; lia|].
  eapply reads_bind; [apply reads_u8|].
  eapply reads_bind_nil; [apply reads_lift, EdgeKind_roundtrip|].
  eapply reads_bind; [by apply reads_u32|]. eapply reads_bind; [by apply reads_u32|].
  eapply reads_bind_nil; [apply reads_guard; unfold is_allocated; by rewrite Hnf|].
  eapply reads_bind_nil; [apply reads_guard; unfold is_allocated; by rewrite Hnt|].
  eapply reads_bind; [by apply reads_opt|]. rewrite <- (app_nil_r (push_opt (ed_next_in e))).
  eapply reads_bind; [by apply reads_opt|].
  rewrite wrap_u32_small by done. destruct e. apply reads_ret.
Qed.

(** A pool without holes is the list of its entries. *)
Lemma no_holes_live {A} (p : slab A) : no_holes p -> p = Some <$> live p.
Proof. unfold live. induction 1 as [|o p [x ->] Hp IH]; simpl; [done|]. f_equal. exact IH. Qed.

Lemma live_count_live {A} (p : slab A) : no_holes p -> live_count p = len p.
Proof.
  unfold live_count, len. intros Hp. f_equal. induction Hp as [|o p Ho Hp IH]; [done|].
  rewrite filter_cons_True by done. simpl. by rewrite IH.
Qed.

Lemma length_live {A} (p : slab A) : no_holes p -> length (live p) = length p.
Proof. intros Hp. rewrite (no_holes_live p Hp) at 2. by rewrite length_fmap. Qed.

Lemma live_get {A} (p : slab A) k x : no_holes p -> live p !! k = Some x -> slab_get p (Z.of_nat k) = Some x.
Proof.
  intros Hp Hx. apply slab_get_vec. rewrite vec_get_nat. rewrite (no_holes_live p Hp).
  by rewrite list_lookup_fmap, Hx.
Qed.

(** Filling an array of empty slots in index order. *)
Lemma fill_in_order {A} (xs : list A) (idx : A -> Z) :
  (forall k x, xs !! k = Some x -> idx x = Z.of_nat k) ->
  foldl (fun p x => vec_set p (idx x) (Some x)) (replicate (length xs) None) xs = Some <$> xs.
Proof.
  intros Hidx.
  assert (forall post pre, xs = pre ++ post ->
    foldl (fun p x => vec_set p (idx x) (Some x))
      ((Some <$> pre) ++ replicate (length post) None) post = Some <$> xs) as Hgen.
  { induction post as [|x post IH]; intros pre Hxs; simpl.
    - by rewrite app_nil_r, Hxs, app_nil_r.
    - rewrite (Hidx (length pre) x) by (rewrite Hxs; by apply list_lookup_middle).
      unfold vec_set. rewrite (proj2 (in_range_spec _ _)).
      + rewrite Nat2Z.id. rewrite insert_app_r_alt by (rewrite length_fmap; lia).
        rewrite length_fmap, Nat.sub_diag. simpl.
        rewrite <- (IH (pre ++ [x])) by by rewrite <- app_assoc.
        by rewrite fmap_app, <- app_assoc.
      + unfold len. rewrite length_app, length_fmap. simpl. lia. }
  by apply (Hgen xs []).
Qed.

Lemma heads_range {A} `{NsLinked A} (must : A -> bool) heads (s : slab A) h :
  ns_wf must heads s -> h ∈ heads -> h = NS_LIST_NIL \/ 0 <= h < len s.
Proof.
  intros W Hh. apply list_elem_of_lookup in Hh as [k Hk]. pose proof (lookup_lt_Some _ _ _ Hk) as Hlt.
  destruct (wf_lists _ _ _ W (Z.of_nat k)) as (l & (Hv & Hs & _) & _).
  { pose proof (wf_heads _ _ _ W) as Hl. unfold len in Hl. lia. }
  rewrite vec_get_nat, Hk in Hv. simplify_eq. destruct l as [|x l]; [by left|right].
  apply (seg_range _ _ _ _ _ _ Hs). by left.
Qed.

Lemma reads_heads {A} `{NsLinked A} (must : A -> bool) heads (s : slab A) :
  ns_wf must heads s ->
  reads (read_loop (Z.to_nat MAX_NAMESPACES) 0 (fun _ => read_head (len s)))
    (concat (push_u32 <$> take (Z.to_nat MAX_NAMESPACES) heads)) heads.
Proof.
  intros W. pose proof (wf_heads _ _ _ W) as Hl. unfold len in Hl.
  rewrite take_ge by (unfold MAX_NAMESPACES in *; lia).
  replace (Z.to_nat MAX_NAMESPACES) with (length heads) by lia.
  rewrite <- (list_fmap_id heads) at 3.
  apply (reads_loop (fun _ => read_head (len s)) push_u32 (fun h => h)). intros k h Hk.
  apply list_elem_of_lookup_2 in Hk. destruct (heads_range must heads s h W Hk) as [->|Hr].
  - rewrite <- (app_nil_r (push_u32 _)). eapply reads_bind; [apply reads_u32; unfold NS_LIST_NIL; int_lia|].
    eapply reads_bind_nil; [by apply reads_guard|apply reads_ret].
  - pose proof (wf_len _ _ _ W). rewrite <- (app_nil_r (push_u32 _)).
    eapply reads_bind; [apply reads_u32; unfold NS_LIST_NIL in *; int_lia|].
    eapply reads_bind_nil; [apply reads_guard; apply andb_false_iff; right; apply Z.leb_gt; lia|apply reads_ret].
Qed.

Lemma btree_insert_snoc m k v : meta_sorted (m ++ [(k, v)]) -> btree_insert k v m = m ++ [(k, v)].
Proof.
  induction m as [|[k' v'] m IH]; simpl; [done|]. intros Hs.
  apply StronglySorted_inv in Hs as [Hs Hf]. rewrite IH by done.
  apply Forall_app in Hf as [_ Hf]. inversion Hf as [|? ? Hc _]; subst. simpl in Hc.
  by rewrite bytes_cmp_antisym, Hc.
Qed.

Lemma btree_rebuild m : meta_sorted m -> foldl (fun acc kv => btree_insert kv.1 kv.2 acc) [] m = m.
Proof.
  induction m as [|[k v] m IH] using rev_ind; intros Hs; [done|]. rewrite foldl_app. simpl.
  assert (meta_sorted m) as Hm.
  { clear IH. induction m as [|x m IH]; [constructor|]. simpl in Hs.
    apply StronglySorted_inv in Hs as [Hs Hf]. constructor; [by apply IH|]. by apply Forall_app in Hf as [? _]. }
  rewrite IH by done. by apply btree_insert_snoc.
Qed.

Lemma reads_meta m :
  len m <= MAX_META_ENTRIES -> Forall (fun kv => str_ok kv.1 /\ str_ok kv.2) m -> meta_sorted m ->
  reads (read_meta 7) (push_u32 (wrap_u32 (len m)) ++ concat (encode_meta <$> m)) m.
Proof.
  intros Hl Hok Hs. unfold read_meta. change (7 <=? 7) with true. cbv iota.
  pose proof (len_nonneg m). assert (in_u32 (len m)) as Hu by (unfold MAX_META_ENTRIES in *; int_lia).
  rewrite wrap_u32_small by done. eapply reads_bind; [by apply reads_u32|].
  eapply reads_bind_nil; [apply reads_guard; by apply Z.ltb_ge|].
  unfold len. rewrite Nat2Z.id. rewrite <- (btree_rebuild m Hs) at 3.
  apply (reads_fold read_meta_entry encode_meta (fun acc kv => btree_insert kv.1 kv.2 acc)).
  intros pre [k v] post ->. apply Forall_app in Hok as [_ Hok]. inversion Hok as [|? ? [Hk Hv] _]; subst.
  unfold read_meta_entry, encode_meta. cbn [fst snd] in *. eapply reads_bind; [by apply reads_str|].
  rewrite <- (app_nil_r (push_blob v)). eapply reads_bind; [by apply reads_str|apply reads_ret].
Qed.

Lemma reads_header s :
  in_u64 (ks_version s) -> (forall d, ks_dim s = Some d -> 0 <= d <= MAX_DIM) ->
  reads read_header (encode_header s) (7, ks_version s, default 0 (ks_dim s)).
Proof.
  intros Hv Hd. unfold read_header, encode_header.
  assert (0 <= default 0 (ks_dim s) <= MAX_DIM) as Hdim.
  { destruct (ks_dim s) as [d|]; simpl; [by apply Hd|unfold MAX_DIM; lia]. }
  assert (forall z, in_u32 (wrap_u32 z)) as Hw
    by (intros z; unfold wrap_u32; pose proof (Z.mod_pos_bound z 4294967296); int_lia).
  rewrite (wrap_u32_small (default 0 (ks_dim s))) by (unfold MAX_DIM in *; int_lia).
  eapply reads_bind; [by apply reads_n|].
  eapply reads_bind_nil; [apply reads_guard; by rewrite bool_decide_eq_true_2|].
  eapply reads_bind; [by apply reads_u32|].
  eapply reads_bind_nil; [by apply reads_guard|].
  eapply reads_bind; [by apply reads_u64|].
  eapply reads_bind; [by apply reads_u32|].
  eapply reads_bind; [apply reads_u32; unfold MAX_DIM in *; int_lia|].
  eapply reads_bind; [by apply reads_u32|].
  eapply reads_bind; [by apply reads_u32|].
  rewrite <- (app_nil_r (push_u8 ACTIVE_FORMAT_ID)).
  eapply reads_bind.
  { change (5 <=? SCHEMA_VERSION) with true. cbv iota.
    rewrite <- (app_nil_r (push_u8 ACTIVE_FORMAT_ID)).
    eapply reads_bind; [apply reads_u8|]. apply reads_guard. by rewrite Z.eqb_refl. }
  eapply reads_bind_nil; [apply reads_guard; apply Z.ltb_ge; lia|]. apply reads_ret.
Qed.

(** Every entry takes at least one byte, so a count never exceeds what follows. *)
Lemma count_le {A} (f : A -> list Z) xs more :
  (forall x, (1 <= length (f x))%nat) -> len xs <= len (concat (f <$> xs) ++ more).
Proof.
  intros Hf. rewrite len_app. pose proof (len_nonneg more).
  assert (1 * len xs <= len (concat (f <$> xs))) as Hc; [|lia].
  apply len_concat_ge; [lia|]. intros x _. unfold len. specialize (Hf x). lia.
Qed.

Lemma no_holes_len {A} (p : slab A) : no_holes p -> len (live p) = len p.
Proof. intros. unfold len. by rewrite length_live. Qed.

(** The record section. *)
Lemma reads_records s :
  kernel_wf s -> snapshotable s ->
  reads (read_loop (length (ks_records s)) 0 (read_slot 7 (default 0 (ks_dim s))))
    (concat (encode_slot <$> ks_records s)) (ks_records (restored s)).
Proof.
  intros [W _ _] Hsn. apply (reads_loop _ encode_slot (option_map norm_record)).
  intros k o Hk. apply reads_slot. intros r ->.
  assert (slab_get (ks_records s) (Z.of_nat k) = Some r) as Hr
    by (apply slab_get_vec; by rewrite vec_get_nat).
  split; [by eapply sn_typed|]. split; [rewrite Z.add_0_l; by apply (rw_ids _ _ _ _ W)|].
  split; [by rewrite (rw_dim _ _ _ _ W _ _ Hr)|]. by apply (wf_ns _ _ _ (rw_list _ _ _ _ W) (Z.of_nat k)).
Qed.

(** A record slot of the restored state is live when it was. *)
Lemma restored_alive s i : is_Some (slab_get (ks_records s) i) -> is_Some (slab_get (ks_records (restored s)) i).
Proof.
  intros [r Hr]. apply slab_get_vec, vec_get_Some in Hr as [Hl Hr].
  exists (norm_record r). apply slab_get_vec, vec_get_Some. simpl.
  split; [unfold len in *; by rewrite length_fmap|]. by rewrite list_lookup_fmap, Hr.
Qed.

Lemma reads_nodes s records :
  kernel_wf s -> snapshotable s ->
  (forall i, is_Some (slab_get (ks_records s) i) -> is_Some (slab_get records i)) ->
  reads (read_fold (length (ks_nodes s)) (read_node 7 (len (ks_nodes s)) records)
           (replicate (length (ks_nodes s)) None))
    (concat (encode_node <$> live (ks_nodes s))) (ks_nodes s).
Proof.
  intros [_ W _] Hsn Hrec. destruct (sn_nodes _ Hsn) as [Hnh _]. pose proof (nw_graph _ _ _ W) as Wg.
  pose proof (length_live _ Hnh) as Hll.
  assert (forall k n, live (ks_nodes s) !! k = Some n -> nd_id n = Z.of_nat k) as Hidx.
  { intros k n Hn. by apply (gw_node _ Wg), live_get. }
  rewrite <- Hll. rewrite (no_holes_live _ Hnh) at 5. rewrite <- (fill_in_order _ nd_id Hidx).
  apply (reads_fold (read_node 7 (len (ks_nodes s)) records) encode_node (fun p x => vec_set p (nd_id x) (Some x))).
  intros pre n post Hxs.
  assert (live (ks_nodes s) !! length pre = Some n) as Hn by (rewrite Hxs; by apply list_lookup_middle).
  pose proof (live_get _ _ _ Hnh Hn) as Hget. pose proof (slab_get_lt _ _ _ Hget) as Hlt.
  apply reads_node.
  - by eapply sn_node_typed.
  - rewrite (Hidx _ _ Hn). lia.
  - by apply (wf_ns _ _ _ (nw_list _ _ _ W) (Z.of_nat (length pre))).
  - intros rid Hr. apply Hrec. by apply (sn_alive _ Hsn (Z.of_nat (length pre)) n).
Qed.

Lemma reads_edges s :
  kernel_wf s -> snapshotable s ->
  reads (read_fold (length (ks_edges s)) (read_edge 7 (len (ks_edges s)) (ks_nodes s))
           (replicate (length (ks_edges s)) None))
    (concat (encode_edge <$> live (ks_edges s))) (ks_edges s).
Proof.
  intros [_ W _] Hsn. destruct (sn_edges _ Hsn) as [Hnh _]. pose proof (nw_graph _ _ _ W) as Wg.
  pose proof (length_live _ Hnh) as Hll.
  assert (forall k e, live (ks_edges s) !! k = Some e -> ed_id e = Z.of_nat k) as Hidx.
  { intros k e He. by apply (gw_edge _ Wg), live_get. }
  rewrite <- Hll. rewrite (no_holes_live _ Hnh) at 5. rewrite <- (fill_in_order _ ed_id Hidx).
  apply (reads_fold (read_edge 7 (len (ks_edges s)) (ks_nodes s)) encode_edge (fun p x => vec_set p (ed_id x) (Some x))).
  intros pre e post Hxs.
  assert (live (ks_edges s) !! length pre = Some e) as He by (rewrite Hxs; by apply list_lookup_middle).
  pose proof (live_get _ _ _ Hnh He) as Hget. pose proof (slab_get_lt _ _ _ Hget) as Hlt.
  destruct (gw_edge _ Wg _ _ Hget) as [_ Hends].
  apply reads_edge.
  - by eapply sn_edge_typed.
  - rewrite (Hidx _ _ He). lia.
  - apply (Hends Out).
  - apply (Hends In).
Qed.

Lemma encode_slot_nonempty o : (1 <= length (encode_slot o))%nat.
Proof. destruct o; simpl; lia. Qed.
Lemma encode_node_nonempty n : (1 <= length (encode_node n))%nat.
Proof. simpl; lia. Qed.
Lemma encode_edge_nonempty e : (1 <= length (encode_edge e))%nat.
Proof. simpl; lia. Qed.

(** The whole snapshot. *)
Lemma reads_state s : kernel_wf s -> snapshotable s -> reads read_state (encode_state s) (restored s).
Proof.
  intros W Hsn. pose proof W as [W1 W2 W3]. pose proof Hsn as [H1 H2 H3 _ [Hn1 Hn2] _ [He1 He2] _ _ [Hm1 Hm2]].
  unfold read_state, encode_state.
  eapply reads_bind.
  { apply reads_header; [done|]. intros d Hd. split; [by apply (rw_pos _ _ _ _ W1)|by apply H2]. }
  cbv beta iota.
  rewrite wrap_len by (unfold MAX_RECORDS in *; int_lia).
  apply reads_count; [unfold MAX_RECORDS in *; pose proof (len_nonneg (ks_records s)); int_lia|done| |].
  { apply count_le, encode_slot_nonempty. }
  eapply reads_bind; [unfold len; rewrite Nat2Z.id; by apply reads_records|].
  rewrite (live_count_live _ Hn1), (live_count_live _ He1).
  rewrite !wrap_len by (unfold MAX_NODES, MAX_EDGES, MAX_META_ENTRIES in *; int_lia).
  apply reads_count; [unfold MAX_NODES in *; pose proof (len_nonneg (ks_nodes s)); int_lia|done| |].
  { rewrite <- (no_holes_len _ Hn1). apply count_le, encode_node_nonempty. }
  eapply reads_bind.
  { unfold len at 1 3. rewrite !Nat2Z.id. apply reads_nodes; [done|done|apply restored_alive]. }
  apply reads_count; [unfold MAX_EDGES in *; pose proof (len_nonneg (ks_edges s)); int_lia|done| |].
  { rewrite <- (no_holes_len _ He1). apply count_le, encode_edge_nonempty. }
  eapply reads_bind.
  { unfold len at 1 3. rewrite !Nat2Z.id. by apply reads_edges. }
  change (7 <? 4) with false. cbv iota zeta.
  rewrite app_assoc. eapply reads_bind.
  { unfold read_lists. change (6 <=? 7) with true. cbv iota.
    eapply reads_bind; [apply (reads_heads not_soft_deleted _ _ (rw_list _ _ _ _ W1))|].
    rewrite <- (app_nil_r (concat _)).
    eapply reads_bind; [apply (reads_heads (fun _ => true) _ _ (nw_list _ _ _ W2))|apply reads_ret]. }
  rewrite <- (app_nil_r (push_u32 _ ++ _)).
  eapply reads_bind; [rewrite <- (wrap_len (ks_meta s)) by (unfold MAX_META_ENTRIES in *; int_lia);
                      by apply reads_meta|].
  match goal with |- reads (sret ?x) _ ?y => replace y with x; [apply reads_ret|] end.
  unfold restored, norm_dim. cbn. f_equal. destruct (ks_dim s); done.
Qed.

(** C23: For every reachable state whose counts, dimension and blobs fit the
    decoder's caps, whose node and edge pools have no deleted slot and whose nodes
    point to allocated records, decode_state (encode_state s) returns Ok with the
    restored state: all records, nodes, edges, list heads, version and metadata
    equal, an empty metadata blob read back as absent, dimension 0 read back as
    unset, and the volatile fields (key registry, index) reset as the decoder
    does. *)
Theorem snapshot_roundtrip s :
  reachable s -> snapshotable s -> decode_state (encode_state s) = Ok (restored s).
Proof.
  intros Hr Hsn. unfold decode_state. rewrite <- (app_nil_r (encode_state s)).
  by rewrite (reads_state s (reachable_kernel_wf s Hr) Hsn []).
Qed.

Lemma slab_forall {A} (P : A -> Prop) (p : slab A) :
  Forall P (live p) -> forall i x, slab_get p i = Some x -> P x.
Proof.
  intros Hf i x Hx. apply slab_get_vec, vec_get_Some in Hx as [_ Hx].
  eapply Forall_forall in Hf; [exact Hf|]. apply list_elem_of_omap. exists (Some x).
  split; [by eapply list_elem_of_lookup_2|done].
Qed.

Lemma demo_snapshotable : snapshotable demo_state.
Proof.
  split.
  - change (ks_version demo_state) with 10. int_lia.
  - intros d Hd. change (ks_dim demo_state) with (Some 2) in Hd. injection Hd as <-. unfold MAX_DIM. lia.
  - change (len (ks_records demo_state)) with 4. unfold MAX_RECORDS. lia.
  - apply slab_forall. vm_compute live. repeat apply Forall_cons_2; [..|apply Forall_nil_2];
      (split_and!; simpl; try done; try (unfold len, MAX_METADATA_SIZE; simpl); try int_lia;
       repeat apply Forall_cons_2; try apply Forall_nil_2; int_lia).
  - split; [|change (len (ks_nodes demo_state)) with 3; unfold MAX_NODES; lia].
    vm_compute ks_nodes. repeat apply Forall_cons_2; [..|apply Forall_nil_2]; eexists; reflexivity.
  - apply slab_forall. vm_compute live. repeat apply Forall_cons_2; [..|apply Forall_nil_2];
      (split_and!; simpl; try done; int_lia).
  - split; [|change (len (ks_edges demo_state)) with 2; unfold MAX_EDGES; lia].
    vm_compute ks_edges. repeat apply Forall_cons_2; [..|apply Forall_nil_2]; eexists; reflexivity.
  - apply slab_forall. vm_compute live. repeat apply Forall_cons_2; [..|apply Forall_nil_2];
      (split_and!; simpl; try done; int_lia).
  - intros i n rid Hn Hrec. revert i n Hn rid Hrec.
    apply (slab_forall (fun n => forall rid, nd_record n = Some rid -> is_Some (get_record demo_state rid))).
    vm_compute live. repeat apply Forall_cons_2; [..|apply Forall_nil_2]; simpl; intros rid Hr;
      try discriminate; injection Hr as <-; vm_compute; eexists; reflexivity.
  - split; [change (len (ks_meta demo_state)) with 0; unfold MAX_META_ENTRIES; lia|].
    change (ks_meta demo_state) with (@nil (list Z * list Z)). constructor.
Qed.

Lemma snapshot_roundtrip_witness : decode_state (encode_state demo_state) = Ok (restored demo_state).
Proof. exact (snapshot_roundtrip demo_state demo_state_reachable demo_snapshotable). Defined.
