(* ===== verification/StateProof.v ===== *)
(** * State hashes, Merkle proofs and receipts

    Models [crates/valori-kernel/src/snapshot/blake3.rs], [proof.rs] and
    [verify.rs].  BLAKE3 is third-party code: the hash is a parameter
    [blake3], an incremental [Hasher] is the hash of the concatenation of its
    updates, and security statements are reductions: two inputs are equal, or two
    of the messages hashed on the way collide.  The messages are listed, so that
    the alternative says something of the inputs at hand: collisions of a hash
    into 32 bytes exist, what matters is that these inputs contain one. *)

From Equations Require Import Equations.
From S2P Require Import Prelude.
From S2P Require Import Core.
From S2P Require Import Fxp.
From S2P Require Import Slab.
From S2P Require Import Records.
From S2P Require Import Graph.
From S2P Require Import Index.
From S2P Require Import Event.
From S2P Require Import Kernel.
From S2P Require Import Bytes.
From S2P Require Import Snapshot.

(** ASCII labels. *)
Definition DOMAIN_LEAF : list Z := [86; 65; 76; 79; 82; 73; 95; 76; 69; 65; 70].
Definition DOMAIN_NODE : list Z := [86; 65; 76; 79; 82; 73; 95; 78; 79; 68; 69].
(** "valori-insert-receipt-v1" *)
Definition RECEIPT_LABEL : list Z :=
  [118; 97; 108; 111; 114; 105; 45; 105; 110; 115; 101; 114; 116; 45; 114; 101; 99; 101; 105; 112; 116;
   45; 118; 49].
(** "valori-state" *)
Definition STATE_LABEL : list Z := [118; 97; 108; 111; 114; 105; 45; 115; 116; 97; 116; 101].
Definition STATE_HASH_DOMAIN_VERSION : Z := 2.

(** ** The hash input of a state (blake3.rs) *)
Definition hash_metadata (m : option (list Z)) : list Z :=
  match m with
  | Some bs => le_bytes 4 (wrap_u32 (len bs)) ++ bs
  | None => le_bytes 4 u32_MAX
  end.

Definition hash_record (r : Record_) : list Z :=
  le_bytes 4 (rec_id r) ++ [rec_flags r] ++ concat (le_bytes 4 <$> rec_vector r)
  ++ le_bytes 8 (rec_tag r) ++ hash_metadata (rec_metadata r).

Definition hash_opt (o : option Z) : list Z := le_bytes 4 (default u32_MAX o).

Definition hash_node (n : GraphNode) : list Z :=
  le_bytes 4 (nd_id n) ++ [NodeKind_as_u8 (nd_kind n)] ++ hash_opt (nd_record n)
  ++ hash_opt (nd_first_out_edge n).

Definition hash_edge (e : GraphEdge) : list Z :=
  le_bytes 4 (ed_id e) ++ [EdgeKind_as_u8 (ed_kind e)] ++ le_bytes 4 (ed_from e)
  ++ le_bytes 4 (ed_to e) ++ hash_opt (ed_next_out e).

Definition hash_input (s : KernelState) : list Z :=
  STATE_LABEL ++ [STATE_HASH_DOMAIN_VERSION; ACTIVE_FORMAT_ID] ++ le_bytes 8 (ks_version s)
  ++ concat (hash_record <$> rp_iter (ks_records s))
  ++ concat (hash_node <$> live (ks_nodes s))
  ++ concat (hash_edge <$> live (ks_edges s)).

(** [leaves.chunks(2)], the odd leaf paired with itself. *)
Fixpoint chunk_pairs {A} (l : list A) : list (A * A) :=
  match l with
  | a :: b :: l' => (a, b) :: chunk_pairs l'
  | [a] => [(a, a)]
  | [] => []
  end.

Lemma length_chunk_pairs {A} (l : list A) : (2 * length (chunk_pairs l) <= length l + 1)%nat.
Proof.
  assert (forall n (l : list A), (length l <= n)%nat -> (2 * length (chunk_pairs l) <= length l + 1)%nat) as H;
    [|by apply (H (length l))].
  induction n as [|n IH]; intros [|a [|b l']] Hl; simpl in *; try lia. specialize (IH l'). lia.
Qed.

Section Blake3.
Context (blake3 : list Z -> list Z).

(** snapshot/blake3.rs and verify.rs *)
Definition hash_state_blake3 (s : KernelState) : list Z := blake3 (hash_input s).
Definition hash_bytes (data : list Z) : list Z := blake3 data.
Definition snapshot_hash (snapshot_bytes : list Z) : list Z := blake3 snapshot_bytes.
Definition wal_hash (wal_bytes : list Z) : list Z := blake3 wal_bytes.

(** ** Merkle trees (proof.rs) *)
Definition node_input (p : list Z * list Z) : list Z := DOMAIN_NODE ++ p.1 ++ p.2.

Definition next_level (leaves : list (list Z)) : list (list Z) :=
  (fun p => blake3 (node_input p)) <$> chunk_pairs leaves.

Equations? merkle_root (leaves : list (list Z)) : list Z by wf (length leaves) lt :=
  merkle_root [] := replicate 32 0;
  merkle_root [a] := a;
  merkle_root (a :: b :: l) := merkle_root (next_level (a :: b :: l)).
Proof.
  unfold next_level. rewrite length_fmap. pose proof (length_chunk_pairs (a :: b :: l)). simpl in *. lia.
Qed.

(** The messages hashed by [merkle_root]. *)
Equations? merkle_messages (leaves : list (list Z)) : list (list Z) by wf (length leaves) lt :=
  merkle_messages [] := [];
  merkle_messages [a] := [];
  merkle_messages (a :: b :: l) :=
    (node_input <$> chunk_pairs (a :: b :: l)) ++ merkle_messages (next_level (a :: b :: l)).
Proof.
  unfold next_level. rewrite length_fmap. pose proof (length_chunk_pairs (a :: b :: l)). simpl in *. lia.
Qed.

Definition leaf_input (pos : nat) (v : Z) : list Z :=
  DOMAIN_LEAF ++ le_bytes 4 (wrap_u32 (Z.of_nat pos)) ++ le_bytes 4 v.

Definition generate_proof_bytes (fixed_values : list Z) : list Z :=
  match fixed_values with
  | [] => replicate 32 0
  | _ => merkle_root (imap (fun pos v => blake3 (leaf_input pos v)) fixed_values)
  end.

(** ** Receipts *)
Record InsertReceipt : Type := mkReceipt {
  rc_record_id : Z;
  rc_old_root : list Z;
  rc_new_root : list Z;
  rc_proof : list Z;
  rc_sequence : Z;
  rc_timestamp : Z;
  rc_state_hash : list Z;
}.

Definition receipt_input (record_id : Z) (old_root new_root proof : list Z) (sequence timestamp : Z) : list Z :=
  RECEIPT_LABEL ++ le_bytes 4 record_id ++ old_root ++ new_root ++ proof
  ++ le_bytes 8 sequence ++ le_bytes 8 timestamp.

Definition compute_self_hash record_id old_root new_root proof sequence timestamp : list Z :=
  blake3 (receipt_input record_id old_root new_root proof sequence timestamp).

Definition receipt_build (record_id : Z) (old_root : list Z) (vector_fxp : list Z) (new_root : list Z)
    (sequence timestamp : Z) : InsertReceipt :=
  let proof_vec := generate_proof_bytes vector_fxp in
  let proof := if Nat.eqb (length proof_vec) 32 then proof_vec else replicate 32 0 in
  mkReceipt record_id old_root new_root proof sequence timestamp
    (compute_self_hash record_id old_root new_root proof sequence timestamp).

Definition receipt_verify (r : InsertReceipt) : bool :=
  bool_decide (rc_state_hash r
    = compute_self_hash (rc_record_id r) (rc_old_root r) (rc_new_root r) (rc_proof r)
        (rc_sequence r) (rc_timestamp r)).

(** ** Binding *)

(** Two of the messages [ms] collide. *)
Definition collision (ms : list (list Z)) : Prop :=
  exists m m', m ∈ ms /\ m' ∈ ms /\ m <> m' /\ blake3 m = blake3 m'.

#[export] Instance collision_mono : Proper ((⊆) ==> impl) collision.
Proof. intros ms ms' Hsub (m & m' & H1 & H2 & H). exists m, m'. split_and!; try apply H; by apply Hsub. Qed.

Lemma collision_incl ms ms' : ms ⊆ ms' -> collision ms -> collision ms'.
Proof. apply collision_mono. Qed.

Lemma blake3_inj m m' : blake3 m = blake3 m' -> m = m' \/ collision [m; m'].
Proof. intros H. destruct (decide (m = m')); [by left|]. right. exists m, m'. split_and!; set_solver. Qed.

Lemma map_blake3_inj {A} (f g : A -> list Z) (l l' : list A) :
  (fun x => blake3 (f x)) <$> l = (fun x => blake3 (g x)) <$> l' ->
  f <$> l = g <$> l' \/ collision ((f <$> l) ++ (g <$> l')).
Proof.
  revert l'. induction l as [|x l IH]; intros [|y l'] H; try done; [by left|]. 
  pose proof (f_equal (fun l => default [] (head l)) H) as H1. pose proof (f_equal tail H) as H2.
  cbn in H1, H2. rewrite !fmap_cons. destruct (IH l' H2) as [E|Hc].
  - destruct (blake3_inj _ _ H1) as [E1|Hc]; [left; by rewrite E, E1|right].
    apply (collision_incl [f x; g y]); [set_solver|done].
  - right. apply (collision_incl ((f <$> l) ++ (g <$> l'))); [set_solver|done].
Qed.

Lemma node_input_inj (p q : list Z * list Z) :
  length p.1 = length q.1 -> node_input p = node_input q -> p = q.
Proof.
  unfold node_input. intros Hl H. apply (inj (DOMAIN_NODE ++.)) in H.
  apply app_inj_1 in H as [H1 H2]; [|done]. destruct p, q. simpl in *. congruence.
Qed.

Lemma chunk_pairs_inj {A} (l l' : list A) : length l = length l' -> chunk_pairs l = chunk_pairs l' -> l = l'.
Proof.
  revert l'. assert (forall n (l l' : list A), (length l <= n)%nat -> length l = length l' ->
    chunk_pairs l = chunk_pairs l' -> l = l') as H; [|intros l'; by apply (H (length l))].
  induction n as [|n IH]; intros [|a [|b k]] [|a' [|b' k']] Hn Hl Hc; simpl in *; try done; try lia.
  - congruence.
  - injection Hc as -> -> Hc. do 2 f_equal. apply IH; [lia|lia|done].
Qed.

Lemma map_inj_pairs (l l' : list (list Z * list Z)) :
  Forall (fun p => length p.1 = 32%nat) l -> Forall (fun p => length p.1 = 32%nat) l' ->
  node_input <$> l = node_input <$> l' -> l = l'.
Proof.
  intros Hl. revert l'. induction Hl as [|p l Hp Hl IH]; intros l' Hl' H.
  - by destruct l'.
  - destruct Hl' as [|q l' Hq Hl']; [done|]. 
    pose proof (f_equal (fun l => default [] (head l)) H) as H1. pose proof (f_equal tail H) as H2.
    f_equal; [|by apply IH]. apply node_input_inj; [congruence|exact H1].
Qed.

Lemma chunk_pairs_forall {A} (P : A -> Prop) (l : list A) :
  Forall P l -> Forall (fun p => P p.1) (chunk_pairs l).
Proof.
  assert (forall n (l : list A), (length l <= n)%nat -> Forall P l -> Forall (fun p => P p.1) (chunk_pairs l)) as H;
    [|by apply (H (length l))].
  induction n as [|n IH]; intros [|a [|b k]] Hn Hf; simpl in *; try lia; try constructor.
  - by inversion Hf.
  - constructor.
  - by inversion Hf.
  - inversion Hf as [|? ? ? Hf']; subst. inversion Hf'; subst. apply IH; [lia|done].
Qed.

Hypothesis blake3_length : forall m, length (blake3 m) = 32%nat.

Lemma merkle_root_binding l1 l2 :
  length l1 = length l2 -> Forall (fun h => length h = 32%nat) l1 -> Forall (fun h => length h = 32%nat) l2 ->
  merkle_root l1 = merkle_root l2 -> l1 = l2 \/ collision (merkle_messages l1 ++ merkle_messages l2).
Proof.
  remember (length l1) as n eqn:Hn. revert l1 l2 Hn.
  induction (lt_wf n) as [n _ IH]. intros l1 l2 Hn Hl F1 F2 H.
  destruct l1 as [|a [|b l1]], l2 as [|a' [|b' l2]]; simpl in *; try lia; [by left| |].
  - left. rewrite !merkle_root_equation_2 in H. by subst.
  - rewrite !merkle_root_equation_3 in H.
    assert (length (next_level (a :: b :: l1)) = length (next_level (a' :: b' :: l2))) as Hlen.
    { unfold next_level. rewrite !length_fmap. assert (length l1 = length l2) as E by lia. clear -E.
      simpl. f_equal. revert l2 E.
      assert (forall n (l l' : list (list Z)), (length l <= n)%nat -> length l = length l' ->
        length (chunk_pairs l) = length (chunk_pairs l')) as Hg; [|intros; by apply (Hg (length l1))].
      induction n as [|n IH]; intros [|x [|y k]] [|x' [|y' k']] Hn Hl; simpl in *; try lia. f_equal. apply IH; lia. }
    destruct (IH (length (next_level (a :: b :: l1)))) with (l1 := next_level (a :: b :: l1))
      (l2 := next_level (a' :: b' :: l2)) as [E|Hc]; try done.
    + unfold next_level. rewrite length_fmap. pose proof (length_chunk_pairs (a :: b :: l1)). simpl in *. lia.
    + unfold next_level. apply Forall_fmap, Forall_forall. intros. apply blake3_length.
    + unfold next_level. apply Forall_fmap, Forall_forall. intros. apply blake3_length.
    + rewrite !merkle_messages_equation_3. unfold next_level in E.
      apply (map_blake3_inj node_input node_input) in E as [E|Hc].
      * left. apply chunk_pairs_inj; [simpl; lia|]. apply map_inj_pairs; [| |done];
          by apply (chunk_pairs_forall (fun h => length h = 32%nat)).
      * right. eapply collision_incl, Hc. set_solver.
    + right. rewrite !merkle_messages_equation_3. eapply collision_incl, Hc. set_solver.
Qed.
End Blake3.

(** ** Vector proofs and receipts *)
Section Claims.
Context (blake3 : list Z -> list Z).
Hypothesis blake3_length : forall m, length (blake3 m) = 32%nat.

Lemma le_bytes_inj (n : nat) v w :
  v mod 256 ^ Z.of_nat n = w mod 256 ^ Z.of_nat n <-> le_bytes n v = le_bytes n w.
Proof.
  split.
  - revert v w. induction n as [|n IH]; intros v w H; [done|]. simpl.
    replace (Z.of_nat (S n)) with (1 + Z.of_nat n) in H by lia.
    rewrite Z.pow_add_r, Z.pow_1_r in H by lia.
    rewrite !Z.rem_mul_r in H by (first [lia | apply Z.pow_nonzero; lia | apply Z.pow_pos_nonneg; lia]).
    pose proof (Z.mod_pos_bound v 256 ltac:(lia)). pose proof (Z.mod_pos_bound w 256 ltac:(lia)).
    assert (v mod 256 = w mod 256) as E by lia. f_equal; [done|]. apply IH. lia.
  - intros H. by rewrite <- !le_val_bytes, H.
Qed.

Lemma le_i32_inj v w : in_i32 v -> in_i32 w -> le_bytes 4 v = le_bytes 4 w -> v = w.
Proof.
  intros Hv Hw H. apply le_bytes_inj in H. change (256 ^ Z.of_nat 4) with 4294967296 in H.
  unfold_int. rewrite (Z.mod_eq v), (Z.mod_eq w) in H by lia.
  pose proof (Z.div_le_mono v 2147483647 4294967296 ltac:(lia) ltac:(lia)).
  pose proof (Z.div_le_mono (-2147483648) v 4294967296 ltac:(lia) ltac:(lia)).
  pose proof (Z.div_le_mono w 2147483647 4294967296 ltac:(lia) ltac:(lia)).
  pose proof (Z.div_le_mono (-2147483648) w 4294967296 ltac:(lia) ltac:(lia)).
  change (2147483647 / 4294967296) with 0 in *. change (-2147483648 / 4294967296) with (-1) in *. lia.
Qed.

Lemma le_small_inj (n : nat) v w :
  0 <= v < 256 ^ Z.of_nat n -> 0 <= w < 256 ^ Z.of_nat n -> le_bytes n v = le_bytes n w -> v = w.
Proof. intros Hv Hw H. apply le_bytes_inj in H. by rewrite !Z.mod_small in H. Qed.

Lemma leaves_inj v1 v2 k :
  Forall in_i32 v1 -> Forall in_i32 v2 -> length v1 = length v2 ->
  imap (fun pos v => blake3 (leaf_input (k + pos) v)) v1
  = imap (fun pos v => blake3 (leaf_input (k + pos) v)) v2 ->
  v1 = v2 \/ collision blake3 (imap (fun pos v => leaf_input (k + pos) v) v1 ++ imap (fun pos v => leaf_input (k + pos) v) v2).
Proof.
  intros F1. revert v2 k. induction F1 as [|x v1 Hx F1 IH]; intros [|y v2] k F2 Hl H; try done; [by left|].
  rewrite !imap_cons in H. apply Forall_cons in F2 as [Hy F2].
  pose proof (f_equal (fun l => default [] (head l)) H) as H1. pose proof (f_equal tail H) as H2.
  simpl in H1, H2. rewrite !imap_cons. cbn [app]. destruct (blake3_inj blake3 _ _ H1) as [E|Hc].
  2: { right. eapply collision_incl, Hc. set_solver. }
  assert (forall v : list Z, imap ((fun pos x => leaf_input (k + pos) x) ∘ S) v = imap (fun pos x => leaf_input (S k + pos) x) v) as Es
    by (intros v; apply imap_ext; intros; simpl; do 3 f_equal; lia).
  destruct (IH v2 (S k)) as [->|Hc]; [done|simpl in Hl; lia| |left|right].
  - etrans; [|etrans; [exact H2|]]; apply imap_ext; intros; simpl; do 3 f_equal; lia.
  - f_equal. unfold leaf_input in E. apply (inj (DOMAIN_LEAF ++.)) in E.
    apply app_inj_1 in E as [_ E]; [|by rewrite !length_le_bytes]. by apply le_i32_inj.
  - rewrite !Es. eapply collision_incl, Hc. set_solver.
Qed.

(** The messages hashed for the proof of a vector. *)
Definition proof_messages (v : list Z) : list (list Z) :=
  imap leaf_input v ++ merkle_messages blake3 (imap (fun pos x => blake3 (leaf_input pos x)) v).

(** Two vectors of the same length with the same Merkle proof root are equal,
    or two of the messages hashed for the two roots collide. *)
Theorem vector_proof_binding v1 v2 :
  Forall in_i32 v1 -> Forall in_i32 v2 -> length v1 = length v2 ->
  generate_proof_bytes blake3 v1 = generate_proof_bytes blake3 v2 ->
  v1 = v2 \/ collision blake3 (proof_messages v1 ++ proof_messages v2).
Proof.
  intros F1 F2 Hl H. destruct v1 as [|x v1], v2 as [|y v2]; try done; [by left|].
  unfold generate_proof_bytes in H. unfold proof_messages. set (w1 := x :: v1) in *. set (w2 := y :: v2) in *.
  apply merkle_root_binding in H as [H|Hc]; [| |done|..].
  - destruct (leaves_inj w1 w2 0 F1 F2 Hl H) as [|Hc]; [by left|right]. eapply collision_incl, Hc. set_solver.
  - right. eapply collision_incl, Hc. set_solver.
  - by rewrite !length_imap.
  - apply Forall_lookup. intros i h Hh. apply list_lookup_imap_Some in Hh as (? & _ & ->). apply blake3_length.
  - apply Forall_lookup. intros i h Hh. apply list_lookup_imap_Some in Hh as (? & _ & ->). apply blake3_length.
Qed.

(** A receipt whose fields have their Rust types. *)
Definition receipt_typed (r : InsertReceipt) : Prop :=
  in_u32 (rc_record_id r) /\ length (rc_old_root r) = 32%nat /\ length (rc_new_root r) = 32%nat
  /\ length (rc_proof r) = 32%nat /\ in_u64 (rc_sequence r) /\ in_u64 (rc_timestamp r).

Lemma receipt_input_inj r1 r2 :
  receipt_typed r1 -> receipt_typed r2 ->
  receipt_input (rc_record_id r1) (rc_old_root r1) (rc_new_root r1) (rc_proof r1)
    (rc_sequence r1) (rc_timestamp r1)
  = receipt_input (rc_record_id r2) (rc_old_root r2) (rc_new_root r2) (rc_proof r2)
    (rc_sequence r2) (rc_timestamp r2) ->
  rc_state_hash r1 = rc_state_hash r2 -> r1 = r2.
Proof.
  intros (A1 & A2 & A3 & A4 & A5 & A6) (B1 & B2 & B3 & B4 & B5 & B6) H Hh. unfold receipt_input in H.
  apply (inj (RECEIPT_LABEL ++.)) in H.
  apply app_inj_1 in H as [E1 H]; [|by rewrite !length_le_bytes].
  apply app_inj_1 in H as [E2 H]; [|congruence]. apply app_inj_1 in H as [E3 H]; [|congruence].
  apply app_inj_1 in H as [E4 H]; [|congruence]. apply app_inj_1 in H as [E5 E6]; [|by rewrite !length_le_bytes].
  apply le_small_inj in E1; [|change (256 ^ Z.of_nat 4) with 4294967296; int_lia..].
  apply le_small_inj in E5; [|change (256 ^ Z.of_nat 8) with 18446744073709551616; int_lia..].
  apply le_small_inj in E6; [|change (256 ^ Z.of_nat 8) with 18446744073709551616; int_lia..].
  destruct r1, r2. simpl in *. congruence.
Qed.

(** What a receipt's self hash is taken of. *)
Definition receipt_message (r : InsertReceipt) : list Z :=
  receipt_input (rc_record_id r) (rc_old_root r) (rc_new_root r) (rc_proof r) (rc_sequence r) (rc_timestamp r).

(** Two well-typed insert receipts that verify and carry the same self hash
    are the same receipt, or their two preimages collide: no field can be altered
    under the same hash. *)
Theorem receipt_tamper_evident r1 r2 :
  receipt_typed r1 -> receipt_typed r2 ->
  receipt_verify blake3 r1 = true -> receipt_verify blake3 r2 = true ->
  rc_state_hash r1 = rc_state_hash r2 -> r1 = r2 \/ collision blake3 [receipt_message r1; receipt_message r2].
Proof.
  intros T1 T2 V1 V2 Hh. unfold receipt_verify in *. apply bool_decide_eq_true in V1, V2.
  pose proof Hh as H. rewrite V1, V2 in H. apply blake3_inj in H as [H|?]; [|by right].
  left. by apply receipt_input_inj.
Qed.

Lemma receipt_build_verifies id old v new seq ts : receipt_verify blake3 (receipt_build blake3 id old v new seq ts) = true.
Proof. unfold receipt_verify. by apply bool_decide_eq_true. Qed.

(** An odd level repeats its last leaf: three leaves and the same three with
    the last one repeated have one root. *)
Theorem merkle_root_duplicates_odd_leaf a b c :
  merkle_root blake3 [a; b; c] = merkle_root blake3 [a; b; c; c].
Proof. by rewrite !merkle_root_equation_3. Qed.
End Claims.

(** A stand-in hash of the right length, to exercise the definitions. *)
Definition toy_hash (m : list Z) : list Z := take 32 (le_bytes 32 (le_val m)).

Lemma toy_hash_length m : length (toy_hash m) = 32%nat.
Proof. reflexivity. Qed.

Lemma vector_proof_binding_witness :
  [1; -2; 3] = [1; -2; 3] \/ collision toy_hash (proof_messages toy_hash [1; -2; 3] ++ proof_messages toy_hash [1; -2; 3]).
Proof.
  apply (vector_proof_binding toy_hash toy_hash_length [1; -2; 3] [1; -2; 3]);
    [concrete_forall|concrete_forall|reflexivity|reflexivity].
Defined.

Definition toy_receipt : InsertReceipt :=
  receipt_build toy_hash 7 (replicate 32 1) [65536] (replicate 32 2) 9 10.

Lemma receipt_tamper_evident_witness : toy_receipt = toy_receipt \/ collision toy_hash [receipt_message toy_receipt; receipt_message toy_receipt].
Proof.
  assert (receipt_typed toy_receipt) as Ht.
  { unfold toy_receipt, receipt_build. destruct (Nat.eqb _ _) eqn:E; cbn [rc_record_id].
    - apply Nat.eqb_eq in E. split_and!; cbn; try done; int_lia.
    - split_and!; cbn; try done; int_lia. }
  apply (receipt_tamper_evident toy_hash toy_receipt toy_receipt); try done;
    apply receipt_build_verifies.
Defined.
