(* ===== verification/SnapshotSafety.v ===== *)
(** * Snapshots as untrusted input

    The decoder returns on every byte string, accepts only states whose ids,
    counts and cross references are in range, and rejects every truncation of
    a snapshot the encoder wrote.  It does not validate the list pointers:
    the last section shows what follows. *)

From S2P Require Import Prelude.
From S2P Require Import Hoare.
From S2P Require Import Core.
From S2P Require Import Fxp.
From S2P Require Import TopK.
From S2P Require Import Slab.
From S2P Require Import Records.
From S2P Require Import Graph.
From S2P Require Import GraphProofs.
From S2P Require Import Index.
From S2P Require Import Event.
From S2P Require Import Kernel.
From S2P Require Import KernelWf.
From S2P Require Import KernelProofs.
From S2P Require Import KernelTheorems.
From S2P Require Import KernelChecks.
From S2P Require Import Bytes.
From S2P Require Import Snapshot.
From S2P Require Import SnapshotProofs.
From S2P Require Import StateProof.

(** ** Stability *)
Lemma stable_read_u8 : stable read_u8.
Proof. intros [|b l] rest a more; simpl; [done|]. by intros [= -> ->]. Qed.

Lemma stable_remaining n : stable (check_remaining n).
Proof.
  intros l rest a more. unfold check_remaining, sbind, sget, sguard. rewrite len_app.
  destruct (len l <? n) eqn:E1; [done|]. bool_prop. pose proof (len_nonneg more).
  rewrite (proj2 (Z.ltb_ge _ _)) by lia. intros [= <- <-]. done.
Qed.

Ltac stable :=
  repeat first
    [ apply stable_remaining | apply stable_bind; [|intros ?] | apply stable_ret | apply stable_throw | apply stable_guard
    | apply stable_lift | apply stable_read_le | apply stable_read_n | apply stable_read_u8
    | apply stable_loop; intros ? | apply stable_fold; intros ?
    | case_match ].

Lemma stable_opt : stable read_opt_edge.
Proof. unfold read_opt_edge, read_flag, read_u32. stable. Qed.
Lemma stable_ns v : stable (read_ns v).
Proof. unfold read_ns, read_u16, read_u32. stable. Qed.
Lemma stable_blob n m : stable (read_blob n m).
Proof. unfold read_blob, read_bytes. stable. Qed.
Lemma stable_str m : stable (read_str m).
Proof. unfold read_str, read_u32. stable. Qed.
Lemma stable_count m : stable (read_count m).
Proof. unfold read_count, read_u32. stable. Qed.

Lemma stable_slot v d i : stable (read_slot v d i).
Proof.
  unfold read_slot, read_flag, read_u32, read_u64, read_i32, read_metadata, read_u32. stable;
    first [apply stable_blob|apply stable_ns].
Qed.

Lemma stable_node v c rs p : stable (read_node v c rs p).
Proof. unfold read_node, read_flag, read_u32. stable; first [apply stable_opt|apply stable_ns]. Qed.

Lemma stable_edge v c ns p : stable (read_edge v c ns p).
Proof. unfold read_edge, read_u32. stable; apply stable_opt. Qed.

Lemma stable_head c : stable (read_head c).
Proof. unfold read_head, read_u32. stable. Qed.

Lemma stable_lists v t n s : stable (read_lists v t n s).
Proof.
  unfold read_lists. generalize (Z.to_nat MAX_NAMESPACES) as heads. intros heads.
  destruct (6 <=? v); [|destruct (rebuild_namespace_lists s); stable].
  do 2 (apply stable_bind; [apply stable_loop; intros; apply stable_head|intros ?]). apply stable_ret.
Qed.

Lemma stable_state : stable read_state.
Proof.
  unfold read_state. apply stable_bind.
  { unfold read_header, read_bytes, read_u32, read_u64. stable. }
  intros [[v vv] d]. apply stable_bind; [apply stable_count|]. intros t.
  apply stable_bind; [apply stable_loop; intros; apply stable_slot|]. intros rs.
  apply stable_bind; [apply stable_count|]. intros nc.
  apply stable_bind; [apply stable_fold; intros; apply stable_node|]. intros ns.
  apply stable_bind; [apply stable_count|]. intros ec.
  apply stable_bind; [apply stable_fold; intros; apply stable_edge|]. intros es.
  apply stable_bind; [apply stable_lists|]. intros s2. apply stable_bind; [|intros; apply stable_ret].
  unfold read_meta, read_meta_entry, read_u32. stable; apply stable_str.
Qed.

(** ** Total readers *)
Definition total {A} (r : R A) (Q : A -> Prop) : Prop :=
  forall l, bytes l -> wp r l (fun a l' => bytes l' /\ Q a) (fun _ _ => True).

Lemma total_mono {A} (r : R A) (Q Q' : A -> Prop) : total r Q -> (forall a, Q a -> Q' a) -> total r Q'.
Proof. intros Hr HQ l Hl. eapply wp_mono; [| |by apply Hr]; [|done]. intros a l' [? ?]. auto. Qed.

Lemma total_ret {A} (a : A) (Q : A -> Prop) : Q a -> total (sret a) Q.
Proof. intros HQ l Hl. apply wp_ret. done. Qed.

Lemma total_bind {A B} (r : R A) (k : A -> R B) P Q :
  total r P -> (forall a, P a -> total (k a) Q) -> total (sbind r k) Q.
Proof.
  intros Hr Hk l Hl. apply wp_bind. eapply wp_mono; [| |by apply Hr]; [|done].
  intros a l' [Hl' Ha]. by apply Hk.
Qed.

Lemma total_guard c e (Q : unit -> Prop) : (c = false -> Q tt) -> total (sguard c e) Q.
Proof. intros HQ l Hl. destruct c; [done|]. apply wp_ret. auto. Qed.

Lemma total_throw {A} e (Q : A -> Prop) : total (sthrow e) Q.
Proof. done. Qed.

Lemma total_ok_or {A} (o : option A) e (Q : A -> Prop) :
  (forall a, o = Some a -> Q a) -> total (slift (ok_or o e)) Q.
Proof. intros HQ l Hl. destruct o as [a|]; [|done]. apply (wp_lift_ok _ a); auto. Qed.

Lemma total_u8 : total read_u8 in_u8.
Proof.
  intros [|b l] Hl; [done|]. apply Forall_cons in Hl as [Hb Hl]. done.
Qed.

Lemma total_n n : total (read_n InvalidOperation n) (fun bs => bytes bs /\ (0 <= n -> len bs = n)).
Proof.
  intros l Hl. unfold wp, read_n. rewrite short_spec. destruct (len l <? n) eqn:E; [done|]. bool_prop.
  split; [by apply Forall_drop|]. split; [by apply Forall_take|]. intros Hn.
  unfold len in *. rewrite length_take. lia.
Qed.

Lemma total_le (n : nat) : total (read_le InvalidOperation (Z.of_nat n)) (fun v => 0 <= v < 256 ^ Z.of_nat n).
Proof.
  eapply total_bind; [apply total_n|]. intros bs [Hb Hl]. apply total_ret.
  pose proof (le_val_range bs Hb) as Hr. unfold len in Hl. by rewrite Hl in Hr by lia.
Qed.

Lemma total_u32 : total read_u32 in_u32.
Proof.
  eapply total_mono; [apply (total_le 4)|]. intros a. change (256 ^ Z.of_nat 4) with 4294967296. int_lia.
Qed.

Lemma total_u16 : total read_u16 (fun v => 0 <= v).
Proof. eapply total_mono; [apply (total_le 2)|]. by intros a [? _]. Qed.

Lemma total_u64 : total read_u64 (fun _ => True).
Proof. eapply total_mono; [apply (total_le 8)|]. done. Qed.

Lemma total_i32 : total read_i32 (fun _ => True).
Proof. eapply total_bind; [apply (total_le 4)|]. intros. by apply total_ret. Qed.

Lemma total_flag : total read_flag (fun _ => True).
Proof.
  eapply total_bind; [apply total_u8|]. intros b _.
  repeat case_match; first [by apply total_ret|apply total_throw].
Qed.

Lemma total_opt : total read_opt_edge (fun _ => True).
Proof.
  eapply total_bind; [apply total_flag|]. intros [] _; [|by apply total_ret].
  eapply total_bind; [apply total_u32|]. intros. by apply total_ret.
Qed.

Lemma total_blob n max : 0 <= n -> total (read_blob n max) (fun bs => len bs = n /\ len bs <= max).
Proof.
  intros Hn. eapply (total_bind _ _ (fun _ => n <= max)).
  { apply total_guard. intros H. by bool_prop. }
  intros _ Hmax. eapply total_mono; [apply total_n|]. intros bs [_ Hl]. specialize (Hl Hn). lia.
Qed.

Lemma total_str : total (read_str MAX_METADATA_SIZE) str_ok.
Proof.
  eapply total_bind; [apply total_u32|]. intros n Hn.
  eapply total_bind; [apply total_blob; int_lia|]. intros bs [_ Hl].
  eapply (total_bind _ _ (fun _ => utf8_valid bs = true)).
  { apply total_guard. intros H. by bool_prop. }
  intros _ Hu. by apply total_ret.
Qed.

Lemma total_remaining n : total (check_remaining n) (fun _ => True).
Proof. intros l Hl. unfold wp, check_remaining, sbind, sget, sguard. by destruct (len l <? n). Qed.

Lemma total_ns v : total (read_ns v) (fun t => 0 <= t.1.1 < MAX_NAMESPACES).
Proof.
  unfold read_ns. case_match; [|by apply total_ret].
  eapply total_bind; [apply total_u16|]. intros ns Hns.
  eapply (total_bind _ _ (fun _ => ns < MAX_NAMESPACES)).
  { apply total_guard. intros Hg. by bool_prop. }
  intros _ Hlt. eapply total_bind; [apply total_u32|]. intros next _.
  eapply total_bind; [apply total_u32|]. intros prev _. apply total_ret. by split.
Qed.

Lemma total_metadata v :
  total (read_metadata v) (fun m => match m with Some b => len b <= MAX_METADATA_SIZE | None => True end).
Proof.
  unfold read_metadata. case_match; [|by apply total_ret].
  eapply total_bind; [apply total_u32|]. intros n Hn. case_match; [|by apply total_ret].
  eapply total_bind; [apply total_blob; int_lia|]. intros bs [_ ?]. by apply total_ret.
Qed.

Lemma total_loop {A} (read : Z -> R A) (Q : Z -> A -> Prop) n i :
  (forall j, i <= j < i + Z.of_nat n -> total (read j) (Q j)) ->
  total (read_loop n i read)
    (fun xs => length xs = n /\ forall k x, xs !! k = Some x -> Q (i + Z.of_nat k) x).
Proof.
  revert i. induction n as [|n IH]; intros i Hr; [by apply total_ret|]. simpl.
  eapply total_bind; [apply Hr; lia|]. intros x Hx.
  eapply total_bind; [apply IH; intros j Hj; apply Hr; lia|]. intros xs [Hl Hxs].
  apply total_ret. split; [simpl; lia|]. intros [|k] y Hy; simpl in Hy.
  - simplify_eq. by rewrite Z.add_0_r.
  - replace (i + Z.of_nat (S k)) with (i + 1 + Z.of_nat k) by lia. by apply Hxs.
Qed.

Lemma total_fold {A} n (step : A -> R A) (I : A -> Prop) acc :
  (forall a, I a -> total (step a) I) -> I acc -> total (read_fold n step acc) I.
Proof.
  intros Hs. revert acc. induction n as [|n IH]; intros acc Hacc; [by apply total_ret|]. simpl.
  eapply total_bind; [by apply Hs|]. intros a Ha. by apply IH.
Qed.

Lemma total_count max : total (read_count max) (fun n => 0 <= n <= max).
Proof.
  eapply total_bind; [apply total_u32|]. intros n Hn.
  eapply (total_bind _ _ (fun _ => n <= max)).
  { apply total_guard. intros Hg. by bool_prop. }
  intros _ Hmax. eapply total_bind; [apply total_remaining|]. intros _ _. apply total_ret. int_lia.
Qed.

(** ** What the decoder validates *)
Definition slot_valid (dim : Z) (i : Z) (r : Record_) : Prop :=
  rec_id r = i /\ len (rec_vector r) = dim /\ 0 <= rec_namespace_id r < MAX_NAMESPACES
  /\ match rec_metadata r with Some m => len m <= MAX_METADATA_SIZE | None => True end.

Definition node_valid (records : RecordPool) (i : Z) (n : GraphNode) : Prop :=
  nd_id n = i /\ 0 <= nd_namespace_id n < MAX_NAMESPACES
  /\ forall rid, nd_record n = Some rid -> is_Some (slab_get records rid).

Definition edge_valid (nodes : NodePool) (i : Z) (e : GraphEdge) : Prop :=
  ed_id e = i /\ is_Some (slab_get nodes (ed_from e)) /\ is_Some (slab_get nodes (ed_to e)).

Definition head_valid {A} (p : slab A) (h : Z) : Prop := h = NS_LIST_NIL \/ 0 <= h < len p.

Record validated (s : KernelState) : Prop := {
  va_dim : 0 <= default 0 (ks_dim s) <= MAX_DIM;
  va_len : len (ks_records s) <= MAX_RECORDS /\ len (ks_nodes s) <= MAX_NODES
           /\ len (ks_edges s) <= MAX_EDGES;
  va_slot : forall i r, slab_get (ks_records s) i = Some r -> slot_valid (default 0 (ks_dim s)) i r;
  va_node : forall i n, slab_get (ks_nodes s) i = Some n -> node_valid (ks_records s) i n;
  va_edge : forall i e, slab_get (ks_edges s) i = Some e -> edge_valid (ks_nodes s) i e;
  va_heads : len (ks_record_heads s) = MAX_NAMESPACES /\ len (ks_node_heads s) = MAX_NAMESPACES
             /\ Forall (head_valid (ks_records s)) (ks_record_heads s)
             /\ Forall (head_valid (ks_nodes s)) (ks_node_heads s);
  va_meta : meta_sorted (ks_meta s) /\ Forall (fun kv => str_ok kv.1 /\ str_ok kv.2) (ks_meta s)
            /\ len (ks_meta s) <= MAX_META_ENTRIES;
}.

Lemma total_slot v dim i :
  0 <= dim -> in_u32 i ->
  total (read_slot v dim i) (fun o => forall r, o = Some r -> slot_valid dim i r).
Proof.
  intros Hdim Hi. unfold read_slot. eapply total_bind; [apply total_flag|].
  intros [] _; [|by apply total_ret]. cbn [negb].
  eapply total_bind; [apply total_u32|]. intros id Hid.
  eapply (total_bind _ _ (fun _ => id = i)).
  { apply total_guard. intros Hg. by bool_prop. }
  intros _ ->. eapply total_bind; [apply total_u8|]. intros flags _.
  eapply (total_bind _ _ (fun _ => True)).
  { case_match; [apply total_u64|by apply total_ret]. }
  intros tag _. eapply total_bind; [apply total_remaining|]. intros _ _.
  eapply total_bind; [apply (total_loop _ (fun _ _ => True)); intros; apply total_i32|].
  intros vec [Hlen _]. eapply total_bind; [apply total_metadata|]. intros m Hm.
  eapply total_bind; [apply total_ns|]. intros [[ns next] prev] Hns. apply total_ret.
  intros r [= <-]. split; [simpl; by apply wrap_u32_small|]. split; [unfold len; simpl; lia|]. done.
Qed.

Lemma slab_get_vec_set {A} (p : slab A) i o j x :
  slab_get (vec_set p i o) j = Some x -> (i = j /\ o = Some x) \/ slab_get p j = Some x.
Proof.
  unfold slab_get. destruct (decide (i = j)) as [->|Hne].
  - destruct (in_range p j) eqn:E; [|unfold vec_set; rewrite E; auto].
    apply in_range_spec in E. rewrite vec_get_set_eq by done. auto.
  - rewrite vec_get_set_ne by done. auto.
Qed.

Lemma is_allocated_Some {A} (p : slab A) i : negb (is_allocated p i) = false -> is_Some (slab_get p i).
Proof. unfold is_allocated. destruct (slab_get p i); [eauto|done]. Qed.

Definition nodes_inv (cnt : Z) (records : RecordPool) (pool : NodePool) : Prop :=
  len pool = cnt /\ forall i n, slab_get pool i = Some n -> node_valid records i n.

Lemma total_node v cnt records pool :
  nodes_inv cnt records pool -> total (read_node v cnt records pool) (nodes_inv cnt records).
Proof.
  intros [Hl Hp]. unfold read_node. eapply total_bind; [apply total_u32|]. intros id Hid.
  eapply (total_bind _ _ (fun _ => True)); [by apply total_guard|]. intros _ _.
  eapply total_bind; [apply total_u8|]. intros kv _.
  eapply (total_bind _ _ (fun _ => True)); [by apply total_ok_or|]. intros kind _.
  eapply total_bind; [apply total_flag|]. intros has _.
  eapply (total_bind _ _ (fun _ => True)).
  { destruct has; [|by apply total_ret]. eapply total_bind; [apply total_u32|]. intros. by apply total_ret. }
  intros record _. eapply total_bind; [apply total_opt|]. intros fo _.
  eapply (total_bind _ _ (fun _ => True)); [case_match; [apply total_opt|by apply total_ret]|]. intros fi _.
  eapply total_bind; [apply total_ns|]. intros [[ns next] prev] Hns.
  eapply (total_bind _ _ (fun _ => forall rid, record = Some rid -> is_Some (slab_get records rid))).
  { destruct record as [rid|]; [|by apply total_ret]. apply total_guard. intros Hg r [= <-].
    by apply is_allocated_Some. }
  intros _ Hrec. apply total_ret. split; [by rewrite len_vec_set|].
  intros i n [[-> [= <-]]|Hn]%slab_get_vec_set; [|by apply Hp].
  split; [simpl; by apply wrap_u32_small|]. done.
Qed.

Definition edges_inv (cnt : Z) (nodes : NodePool) (pool : EdgePool) : Prop :=
  len pool = cnt /\ forall i e, slab_get pool i = Some e -> edge_valid nodes i e.

Lemma total_edge v cnt nodes pool :
  edges_inv cnt nodes pool -> total (read_edge v cnt nodes pool) (edges_inv cnt nodes).
Proof.
  intros [Hl Hp]. unfold read_edge. eapply total_bind; [apply total_u32|]. intros id Hid.
  eapply (total_bind _ _ (fun _ => True)); [by apply total_guard|]. intros _ _.
  eapply total_bind; [apply total_u8|]. intros kv _.
  eapply (total_bind _ _ (fun _ => True)); [by apply total_ok_or|]. intros kind _.
  eapply total_bind; [apply total_u32|]. intros from _. eapply total_bind; [apply total_u32|]. intros to _.
  eapply (total_bind _ _ (fun _ => is_Some (slab_get nodes from))).
  { apply total_guard. apply is_allocated_Some. }
  intros _ Hf. eapply (total_bind _ _ (fun _ => is_Some (slab_get nodes to))).
  { apply total_guard. apply is_allocated_Some. }
  intros _ Ht. eapply total_bind; [apply total_opt|]. intros no _.
  eapply (total_bind _ _ (fun _ => True)); [case_match; [apply total_opt|by apply total_ret]|]. intros ni _.
  apply total_ret. split; [by rewrite len_vec_set|].
  intros i e [[-> [= <-]]|He]%slab_get_vec_set; [|by apply Hp].
  split; [simpl; by apply wrap_u32_small|]. done.
Qed.

Lemma empty_pool_get {A} n i (x : A) : slab_get (replicate n None) i = Some x -> False.
Proof.
  intros H%slab_get_vec%vec_get_Some. destruct H as [_ H]. by apply lookup_replicate in H as [? _].
Qed.

(** The V1-V3 reconstruction changes links only. *)
Lemma relink_incoming_stat nodes edges :
  let g := relink_incoming nodes edges in
  (forall i, nstat <$> slab_get g.1 i = nstat <$> slab_get nodes i) /\ len g.1 = len nodes
  /\ (forall i, estat <$> slab_get g.2 i = estat <$> slab_get edges i) /\ len g.2 = len edges.
Proof.
  unfold relink_incoming. generalize ((fun e => (ed_id e, ed_to e)) <$> live edges) as ts. intros ts.
  assert (forall (g0 : Graph),
    let g := foldl (fun (g : Graph) (t : Z * Z) =>
           let '(eid, to) := t in
           let head := match slab_get g.1 to with Some n => nd_first_in_edge n | None => None end in
           (slab_alter (set_first_edge In (Some eid)) g.1 to,
            slab_alter (set_next_edge In head) g.2 eid)) g0 ts in
    (forall i, nstat <$> slab_get g.1 i = nstat <$> slab_get g0.1 i) /\ len g.1 = len g0.1
    /\ (forall i, estat <$> slab_get g.2 i = estat <$> slab_get g0.2 i) /\ len g.2 = len g0.2) as Hgen;
    [|by apply (Hgen (nodes, edges))].
  induction ts as [|[eid to] ts IH]; intros g0; [done|]. cbn [foldl].
  match goal with |- context [foldl _ ?g1 ts] => destruct (IH g1) as (H1 & H2 & H3 & H4) end. cbn [fst snd] in *.
  split; [|split; [|split]].
  - intros i. rewrite H1. by apply fmap_slab_alter.
  - by rewrite H2, len_slab_alter.
  - intros i. rewrite H3. by apply fmap_slab_alter.
  - by rewrite H4, len_slab_alter.
Qed.

(** Transport of the validity of nodes and edges along link changes. *)
Lemma node_valid_stat records nodes nodes' :
  (forall i, nstat <$> slab_get nodes' i = nstat <$> slab_get nodes i) ->
  (forall i n, slab_get nodes i = Some n -> node_valid records i n) ->
  forall i n, slab_get nodes' i = Some n -> node_valid records i n.
Proof.
  intros Hs Hv i n Hn. destruct (fmap_get _ _ _ _ _ (Hs i) Hn) as (n0 & Hn0 & Hst).
  destruct (Hv i n0 Hn0) as (H1 & H2 & H3). unfold nstat in Hst. injection Hst as E1 _ E3 E4.
  split; [congruence|]. split; [congruence|]. by rewrite E3.
Qed.

Lemma edge_valid_stat nodes nodes' edges edges' :
  (forall i, nstat <$> slab_get nodes' i = nstat <$> slab_get nodes i) ->
  (forall i, estat <$> slab_get edges' i = estat <$> slab_get edges i) ->
  (forall i e, slab_get edges i = Some e -> edge_valid nodes i e) ->
  forall i e, slab_get edges' i = Some e -> edge_valid nodes' i e.
Proof.
  intros Hn Hs Hv i e He. destruct (fmap_get _ _ _ _ _ (Hs i) He) as (e0 & He0 & Hst).
  destruct (Hv i e0 He0) as (H1 & H2 & H3). unfold estat in Hst. injection Hst as E1 _ E3 E4.
  assert (forall j, is_Some (slab_get nodes j) -> is_Some (slab_get nodes' j)) as Hal.
  { intros j Hj. specialize (Hn j). destruct (slab_get nodes j), (slab_get nodes' j); naive_solver. }
  split; [congruence|]. rewrite E3, E4. auto.
Qed.

Lemma total_head n : total (read_head n) (fun h => h = NS_LIST_NIL \/ 0 <= h < n).
Proof.
  eapply total_bind; [apply total_u32|]. intros h Hh.
  eapply (total_bind _ _ (fun _ => h = NS_LIST_NIL \/ 0 <= h < n)).
  { apply total_guard. intros Hg. apply andb_false_iff in Hg as [Hg|Hg]; bool_prop; [by left|right; int_lia]. }
  intros _ ?. by apply total_ret.
Qed.

Lemma total_heads n :
  total (read_loop (Z.to_nat MAX_NAMESPACES) 0 (fun _ => read_head n))
    (fun hs => len hs = MAX_NAMESPACES /\ Forall (fun h => h = NS_LIST_NIL \/ 0 <= h < n) hs).
Proof.
  eapply total_mono; [apply (total_loop _ (fun _ h => h = NS_LIST_NIL \/ 0 <= h < n)); intros; apply total_head|].
  intros hs [Hl Hq]. split; [unfold len; unfold MAX_NAMESPACES in *; lia|].
  apply Forall_lookup. intros k h Hk. by eapply Hq.
Qed.

(** The state before its lists are known. *)
Record pre_validated (s : KernelState) : Prop := {
  pv_dim : 0 <= default 0 (ks_dim s) <= MAX_DIM;
  pv_len : len (ks_records s) <= MAX_RECORDS /\ len (ks_nodes s) <= MAX_NODES
           /\ len (ks_edges s) <= MAX_EDGES;
  pv_slot : forall i r, slab_get (ks_records s) i = Some r -> slot_valid (default 0 (ks_dim s)) i r;
  pv_node : forall i n, slab_get (ks_nodes s) i = Some n -> node_valid (ks_records s) i n;
  pv_edge : forall i e, slab_get (ks_edges s) i = Some e -> edge_valid (ks_nodes s) i e;
  pv_heads : len (ks_record_heads s) = MAX_NAMESPACES /\ len (ks_node_heads s) = MAX_NAMESPACES;
  pv_meta : ks_meta s = [];
}.

Lemma rebuild_validated s :
  pre_validated s ->
  exists s', rebuild_namespace_lists s = (s', Ok tt) /\ validated s'.
Proof.
  intros [P1 (P2a & P2b & P2c) P3 P4 P5 [P6a P6b] P7].
  assert (len (ks_records s) <= NS_LIST_NIL) as L1 by (unfold MAX_RECORDS, NS_LIST_NIL in *; int_lia).
  assert (len (ks_nodes s) <= NS_LIST_NIL) as L2 by (unfold MAX_NODES, NS_LIST_NIL in *; int_lia).
  destruct (relink_all (ks_record_heads s) (ks_records s) P6a L1) as (rh & recs & Hr1 & Hp1 & Hk1 & Hw1).
  { intros i r Hr. by destruct (P3 i r Hr) as (_ & _ & ? & _). }
  destruct (relink_all (ks_node_heads s) (ks_nodes s) P6b L2) as (nh & nodes & Hr2 & Hp2 & Hk2 & Hw2).
  { intros i n Hn. by destruct (P4 i n Hn) as (_ & ? & _). }
  exists (ks_set_node_list (nh, nodes) (ks_set_record_list (rh, recs) s)). split.
  { unfold rebuild_namespace_lists, sbind, smodify, as_linked, ks_record_list, ks_node_list. simpl.
    rewrite Hr1. simpl. rewrite Hr2. done. }
  assert (forall i, nstat <$> slab_get nodes i = nstat <$> slab_get (ks_nodes s) i) as Hst.
  { intros i. eapply fmap_weaken; [apply payload_nstat|apply Hp2]. }
  split; simpl.
  - done.
  - by rewrite (proj1 Hp1), (proj1 Hp2).
  - intros i r Hr. destruct (same_payload_record _ _ _ _ Hp1 Hr) as (r0 & Hr0 & Hpl).
    destruct (P3 i r0 Hr0) as (Q1 & Q2 & Q3 & Q4). apply payload_eq in Hpl as (E1 & E2 & E3 & _ & _ & E6).
    unfold slot_valid. rewrite E1, E2, E3, E6. done.
  - eapply node_valid_stat; [exact Hst|]. intros i n Hn. destruct (P4 i n Hn) as (Q1 & Q2 & Q3).
    split; [done|]. split; [done|]. intros rid Hrid. destruct (Q3 rid Hrid) as [r Hr].
    pose proof (proj2 Hp1 rid) as Hpl. rewrite Hr in Hpl. destruct (slab_get recs rid); [eauto|done].
  - eapply (edge_valid_stat _ _ (ks_edges s)); [exact Hst|done|exact P5].
  - specialize (Hw1 (fun _ => true) (fun _ _ _ => eq_refl)). specialize (Hw2 (fun _ => true) (fun _ _ _ => eq_refl)).
    split; [apply Hw1|]. split; [apply Hw2|].
    split; apply Forall_forall; intros h Hh; by eapply heads_range.
  - rewrite P7. split_and!; [constructor..|discriminate].
Qed.

Lemma total_lists v t nc s :
  pre_validated s -> t = len (ks_records s) -> nc = len (ks_nodes s) ->
  total (read_lists v t nc s) (fun s' => validated s' /\ ks_meta s' = []).
Proof.
  intros HP -> ->. unfold read_lists. case_match.
  - eapply total_bind; [apply total_heads|]. intros rh [Hl1 Hf1].
    eapply total_bind; [apply total_heads|]. intros nh [Hl2 Hf2]. apply total_ret.
    destruct HP as [P1 P2 P3 P4 P5 P6 P7]. split; [|done]. split; simpl; try done.
    rewrite P7. split_and!; [constructor..|discriminate].
  - destruct (rebuild_validated s HP) as (s' & Hrun & Hv). rewrite Hrun.
    intros l Hl. unfold wp, sbind, slift, sret. split; [done|]. split; [done|].
    unfold rebuild_namespace_lists, sbind, smodify in Hrun. unfold as_linked in Hrun.
    destruct (relink_from _ _) as [hs| | |] in Hrun; try done.
    destruct (relink_from _ _) as [hs2| | |] in Hrun; try done.
    injection Hrun as <-. apply HP.
Qed.

Lemma length_btree_insert k v m : (length (btree_insert k v m) <= S (length m))%nat.
Proof.
  induction m as [|[k' v'] m IH]; [done|]. cbn [btree_insert]. destruct (bytes_cmp k k'); cbn [length]; lia.
Qed.

Lemma total_fold_count {A} (n m : nat) (step : A -> R A) (I : nat -> A -> Prop) acc :
  (forall k a, I k a -> total (step a) (I (S k))) -> I m acc -> total (read_fold n step acc) (I (m + n)%nat).
Proof.
  intros Hs. revert m acc. induction n as [|n IH]; intros m acc Hacc.
  { apply total_ret. by rewrite Nat.add_0_r. }
  simpl. eapply total_bind; [by apply Hs|]. intros a Ha. rewrite <- Nat.add_succ_comm. by apply IH.
Qed.

Lemma total_meta v :
  total (read_meta v) (fun m => meta_sorted m /\ Forall (fun kv => str_ok kv.1 /\ str_ok kv.2) m
                                /\ len m <= MAX_META_ENTRIES).
Proof.
  unfold read_meta. case_match; [|apply total_ret; split_and!; [constructor..|discriminate]].
  eapply total_bind; [apply total_u32|]. intros n Hn.
  eapply (total_bind _ _ (fun _ => n <= MAX_META_ENTRIES)); [apply total_guard; intros Hg; by bool_prop|]. intros _ Hmax.
  eapply total_mono.
  - apply (total_fold_count _ 0 _ (fun k m => meta_sorted m /\ Forall (fun kv => str_ok kv.1 /\ str_ok kv.2) m
      /\ (length m <= k)%nat)); [|split_and!; [constructor..|simpl; lia]]. intros k m (Hs & Hf & Hl). unfold read_meta_entry.
    eapply total_bind; [apply total_str|]. intros key Hk. eapply total_bind; [apply total_str|]. intros w Hw.
    apply total_ret. split_and!; [by apply btree_insert_sorted| |pose proof (length_btree_insert key w m); lia].
    apply Forall_forall. intros x [->|Hx]%btree_insert_keys; [done|]. by eapply Forall_forall in Hf.
  - intros m (Hs & Hf & Hl). split_and!; [done|done|]. unfold len. int_lia.
Qed.

Lemma total_header : total read_header (fun h => 0 <= h.2 <= MAX_DIM).
Proof.
  unfold read_header. eapply total_bind; [apply total_n|]. intros magic _.
  eapply (total_bind _ _ (fun _ => True)); [by apply total_guard|]. intros _ _.
  eapply total_bind; [apply total_u32|]. intros v _.
  eapply (total_bind _ _ (fun _ => True)); [by apply total_guard|]. intros _ _.
  eapply total_bind; [apply total_u64|]. intros vv _. eapply total_bind; [apply total_u32|]. intros _ _.
  eapply total_bind; [apply total_u32|]. intros dim Hdim. eapply total_bind; [apply total_u32|]. intros _ _.
  eapply total_bind; [apply total_u32|]. intros _ _. eapply (total_bind _ _ (fun _ => True)).
  { case_match; [|by apply total_ret]. eapply total_bind; [apply total_u8|]. intros. by apply total_guard. }
  intros _ _. eapply (total_bind _ _ (fun _ => dim <= MAX_DIM)).
  { apply total_guard. intros Hg. by bool_prop. }
  intros _ Hle. apply total_ret. simpl. int_lia.
Qed.

Lemma total_state : total read_state validated.
Proof.
  unfold read_state. eapply total_bind; [apply total_header|]. intros [[v vv] dim] Hdim. simpl in Hdim.
  eapply total_bind; [apply total_count|]. intros t Ht. cbv beta in Ht.
  eapply total_bind.
  { apply (total_loop _ (fun i o => forall r, o = Some r -> slot_valid dim i r)). intros i Hi.
    apply total_slot; [lia|]. unfold MAX_RECORDS in *. int_lia. }
  intros records [Hlen Hslots]. eapply total_bind; [apply total_count|]. intros nc Hnc. cbv beta in Hnc.
  eapply total_bind.
  { apply (total_fold _ _ (nodes_inv nc records)); [intros; by apply total_node|].
    split; [unfold len; rewrite length_replicate; lia|]. intros i n Hn. by destruct (empty_pool_get _ _ _ Hn). }
  intros nodes [Hln Hnodes]. eapply total_bind; [apply total_count|]. intros ec Hec. cbv beta in Hec.
  eapply total_bind.
  { apply (total_fold _ _ (edges_inv ec nodes)); [intros; by apply total_edge|].
    split; [unfold len; rewrite length_replicate; lia|]. intros i e He. by destruct (empty_pool_get _ _ _ He). }
  intros edges [Hle Hedges]. cbv zeta.
  set (g := if v <? 4 then relink_incoming nodes edges else (nodes, edges)).
  assert ((forall i, nstat <$> slab_get g.1 i = nstat <$> slab_get nodes i) /\ len g.1 = len nodes
    /\ (forall i, estat <$> slab_get g.2 i = estat <$> slab_get edges i) /\ len g.2 = len edges)
    as (G1 & G2 & G3 & G4) by (unfold g; case_match; [apply relink_incoming_stat|done]).
  match goal with |- total (sbind (read_lists _ _ _ ?s1) _) _ => assert (pre_validated s1) as Hpre end.
  { assert (default 0 (if 0 <? dim then Some dim else None) = dim) as Hd by (case_match; bool_prop; simpl; lia).
    split; simpl; rewrite ?Hd.
    - done.
    - rewrite G2, G4, Hln, Hle. unfold len. rewrite Hlen. lia.
    - intros i r Hr. pose proof (slab_get_lt _ _ _ Hr) as Hi.
      apply slab_get_vec, vec_get_Some in Hr as [_ Hr]. specialize (Hslots _ _ Hr r eq_refl).
      by replace (0 + Z.of_nat (Z.to_nat i)) with i in Hslots by lia.
    - by eapply node_valid_stat.
    - by eapply edge_valid_stat.
    - done.
    - done. }
  assert (t = len records) as Hlt by (unfold len; lia).
  eapply total_bind; [apply total_lists; [exact Hpre|exact Hlt|simpl; congruence]|].
  intros s2 [Hv _]. eapply total_bind; [apply total_meta|]. intros m Hm. apply total_ret.
  destruct Hv as [V1 V2 V3 V4 V5 V6 V7]. by split.
Qed.

(** What the first bytes must be: the magic, a schema version the decoder knows
    and, from version 5 on, the id of the active number format. *)
Definition header_valid (buf : list Z) : Prop :=
  take 4 buf = MAGIC /\ 1 <= le_val (take 4 (drop 4 buf)) <= 7
  /\ (5 <= le_val (take 4 (drop 4 buf)) -> buf !! 32%nat = Some ACTIVE_FORMAT_ID).

Lemma read_n_ok (n : Z) (e : KernelError) l l' bs :
  read_n e n l = (l', Ok bs) -> bs = take (Z.to_nat n) l /\ l' = drop (Z.to_nat n) l.
Proof. unfold read_n. case_match; [done|]. by intros [= <- <-]. Qed.

Lemma read_le_ok (n : Z) (e : KernelError) l l' v :
  read_le e n l = (l', Ok v) -> v = le_val (take (Z.to_nat n) l) /\ l' = drop (Z.to_nat n) l.
Proof.
  unfold read_le, sbind. destruct (read_n _ _ _) as [l1 [bs|?| |]] eqn:E; try done.
  apply read_n_ok in E as [-> ->]. by intros [= <- <-].
Qed.

Lemma read_header_valid buf rest h : read_header buf = (rest, Ok h) -> header_valid buf.
Proof.
  unfold header_valid, read_header, sbind, sguard, read_bytes, read_u32, read_u64.
  destruct (read_n _ _ _) as [l1 [magic|?| |]] eqn:E1; try done.
  apply read_n_ok in E1 as [-> ->]. case_bool_decide as Em; [|done]. cbn [negb sret].
  destruct (read_le _ 4 _) as [l2 [v|?| |]] eqn:E2; try done. apply read_le_ok in E2 as [-> ->].
  destruct (_ || _) eqn:Ev; [done|]. apply orb_false_iff in Ev as [V1%Z.ltb_ge V2%Z.ltb_ge]. cbn [sret].
  change (Z.to_nat 4) with 4%nat in *. intros Hrest. split; [done|]. split; [lia|]. intros H5. rewrite (proj2 (Z.leb_le 5 _)) in Hrest by done.
  repeat match type of Hrest with
  | context [read_le ?e ?n ?l] =>
      destruct (read_le e n l) as [? [?|?| |]] eqn:?; try done;
      match goal with H : read_le e n l = _ |- _ => apply read_le_ok in H as [-> ->] end
  end.
  rewrite !drop_drop in Hrest. change (Z.to_nat 4) with 4%nat in *. change (Z.to_nat 8) with 8%nat in *.
  cbn [Nat.add] in Hrest. unfold read_u8 in Hrest.
  destruct (drop 32 buf) as [|b l] eqn:Ed; [done|]. destruct (b =? ACTIVE_FORMAT_ID) eqn:Eb; [|done].
  apply Z.eqb_eq in Eb as ->.
  pose proof (lookup_drop buf 32 0) as Hl. by rewrite Ed in Hl.
Qed.

Lemma decode_header_valid buf s : decode_state buf = Ok s -> header_valid buf.
Proof.
  unfold decode_state, read_state. unfold sbind at 1. destruct (read_header buf) as [rest [h|?| |]] eqn:E; try done.
  intros _. by eapply read_header_valid.
Qed.

(** C24: On every byte string, decode_state returns: it neither panics nor
    runs forever, and it fails with an error, or the input starts with the magic,
    a known schema version and (from version 5) the active number format, and the
    state it yields is one whose slots hold the record, node and edge of their own
    index with in-range namespaces, whose vectors have its dimension, whose nodes
    and edges refer to allocated records and nodes, whose list-head tables have
    MAX_NAMESPACES valid entries, whose metadata is sorted valid text, and whose
    dimension, counts (records, nodes, edges, metadata entries) and blob sizes are
    within the decoder's limits. *)
Theorem decode_validates_untrusted_input buf :
  bytes buf ->
  match decode_state buf with
  | Ok s => header_valid buf /\ validated s
  | Err _ => True
  | Panic | Hang => False
  end.
Proof.
  intros Hb. pose proof (total_state buf Hb) as Ht. destruct (decode_state buf) as [s|e| |] eqn:E.
  - split; [by eapply decode_header_valid|]. unfold wp, decode_state in *.
    destruct (read_state buf) as [rest [s'|e| |]]; simplify_eq/=. apply Ht.
  - done.
  - unfold wp, decode_state in *. destruct (read_state buf) as [rest [s'|e| |]]; simplify_eq/=; done.
  - unfold wp, decode_state in *. destruct (read_state buf) as [rest [s'|e| |]]; simplify_eq/=; done.
Qed.

(** The encoder writes bytes, when the blobs it copies are bytes. *)
Definition blobs_are_bytes (s : KernelState) : Prop :=
  (forall i r, slab_get (ks_records s) i = Some r ->
     in_u8 (rec_flags r) /\ match rec_metadata r with Some m => bytes m | None => True end)
  /\ Forall (fun kv => bytes kv.1 /\ bytes kv.2) (ks_meta s).

Lemma concat_bytes {A} (f : A -> list Z) xs : Forall (fun x => bytes (f x)) xs -> bytes (concat (f <$> xs)).
Proof. induction 1; simpl; [constructor|]. by apply Forall_app. Qed.

Lemma push_opt_bytes o : bytes (push_opt o).
Proof.
  destruct o; simpl.
  - apply Forall_cons. split; [int_lia|]. apply (le_bytes_bytes 4).
  - apply Forall_singleton. int_lia.
Qed.

Lemma push_blob_bytes b : bytes b -> bytes (push_blob b).
Proof. intros. apply Forall_app. split; [apply le_bytes_bytes|done]. Qed.

Ltac bytes_tac :=
  repeat first
    [ apply Forall_app; split
    | apply le_bytes_bytes | apply push_opt_bytes
    | match goal with |- bytes [_] => apply Forall_singleton; unfold ACTIVE_FORMAT_ID; simpl; int_lia end ].

Lemma encode_slot_bytes o :
  (forall r, o = Some r -> in_u8 (rec_flags r) /\ match rec_metadata r with Some m => bytes m | None => True end) ->
  bytes (encode_slot o).
Proof.
  intros Ho. destruct o as [r|]; [|apply Forall_singleton; int_lia].
  destruct (Ho r eq_refl) as [Hf Hm]. unfold encode_slot, push_u8.
  apply Forall_app. split; [apply Forall_singleton; int_lia|].
  apply Forall_app. split; [apply le_bytes_bytes|]. apply Forall_app. split; [by apply Forall_singleton|].
  apply Forall_app. split; [apply le_bytes_bytes|]. apply Forall_app. split.
  { apply concat_bytes, Forall_forall. intros x _. apply le_bytes_bytes. }
  apply Forall_app. split; [|bytes_tac]. destruct (rec_metadata r); [by apply push_blob_bytes|apply le_bytes_bytes].
Qed.

Lemma encode_state_bytes s : blobs_are_bytes s -> bytes (encode_state s).
Proof.
  intros [Hr Hm]. unfold encode_state, encode_header, push_u8.
  apply Forall_app. split; [repeat (apply Forall_app; split; [first [apply le_bytes_bytes|unfold MAGIC; concrete_forall]|]);
    apply Forall_singleton; unfold ACTIVE_FORMAT_ID; simpl; int_lia|].
  apply Forall_app. split; [apply le_bytes_bytes|]. apply Forall_app. split.
  { apply concat_bytes, Forall_lookup. intros k o Hk. apply encode_slot_bytes. intros r ->.
    apply (Hr (Z.of_nat k)). apply slab_get_vec. by rewrite vec_get_nat. }
  apply Forall_app. split; [apply le_bytes_bytes|]. apply Forall_app. split.
  { apply concat_bytes, Forall_forall. intros n _. unfold encode_node. bytes_tac.
    apply Forall_singleton. destruct (nd_kind n); simpl; int_lia. }
  apply Forall_app. split; [apply le_bytes_bytes|]. apply Forall_app. split.
  { apply concat_bytes, Forall_forall. intros e _. unfold encode_edge. bytes_tac.
    apply Forall_singleton. destruct (ed_kind e); simpl; int_lia. }
  apply Forall_app. split; [apply concat_bytes, Forall_forall; intros; apply le_bytes_bytes|].
  apply Forall_app. split; [apply concat_bytes, Forall_forall; intros; apply le_bytes_bytes|].
  apply Forall_app. split; [apply le_bytes_bytes|]. apply concat_bytes.
  eapply Forall_impl; [exact Hm|]. intros kv [Hk Hv]. apply Forall_app. split; by apply push_blob_bytes.
Qed.

(** Every strict prefix of a snapshot is rejected by decode_state with an
    error; no truncation is read as a smaller valid state. *)
Theorem truncated_snapshot_rejected s n :
  reachable s -> snapshotable s -> blobs_are_bytes s -> (n < length (encode_state s))%nat ->
  exists e, decode_state (take n (encode_state s)) = Err e.
Proof.
  intros Hr Hsn Hb Hn. unfold decode_state.
  apply (stable_truncated read_state (encode_state s) (restored s)); [apply stable_state| |done|].
  - rewrite <- (app_nil_r (encode_state s)) at 1. by apply reads_state; [apply reachable_kernel_wf|].
  - eapply wp_outcome, total_state. by apply Forall_take, encode_state_bytes.
Qed.

Lemma demo_bytes : blobs_are_bytes demo_state.
Proof.
  split.
  - apply (slab_forall (fun r => in_u8 (rec_flags r)
             /\ match rec_metadata r with Some m => bytes m | None => True end)).
    vm_compute live. repeat apply Forall_cons_2; [..|apply Forall_nil_2]; simpl;
      (split; [int_lia|]); first [done|concrete_forall].
  - change (ks_meta demo_state) with (@nil (list Z * list Z)). constructor.
Qed.

(** The snapshot of a store with records, nodes and edges is accepted and
    validated. *)
Lemma decode_validates_untrusted_input_witness :
  exists s, decode_state (encode_state demo_state) = Ok s /\ header_valid (encode_state demo_state) /\ validated s
    /\ record_count s = 3.
Proof.
  pose proof (decode_validates_untrusted_input (encode_state demo_state) (encode_state_bytes _ demo_bytes)) as H.
  assert (exists s, decode_state (encode_state demo_state) = Ok s /\ record_count s = 3) as (s & E & Hc)
    by (eexists; split; vm_compute; reflexivity).
  rewrite E in H. exists s. split; [exact E|]. split; [apply H|]. split; [apply H|exact Hc].
Defined.

Lemma truncated_snapshot_rejected_witness :
  exists e, decode_state (take 8490 (encode_state demo_state)) = Err e.
Proof.
  apply (truncated_snapshot_rejected demo_state 8490 demo_state_reachable demo_snapshotable demo_bytes).
  apply Nat.ltb_lt. vm_compute. reflexivity.
Defined.

(** ** What a snapshot does not survive *)

(** A state with two nodes of which the first was deleted. *)
Definition node_hole : KernelState :=
  run_events [(AutoCreateNode NAgent None, 0); (AutoCreateNode NAgent None, 0); (DeleteNode 0, 0)]
    KernelState_new.

(** A concrete reachable state (two nodes created, the first deleted) whose
    snapshot its own decoder rejects with InvalidOperation. *)
Theorem snapshot_of_deleted_node_unreadable :
  reachable node_hole /\ ks_version node_hole = 3
  /\ decode_state (encode_state node_hole) = Err InvalidOperation.
Proof.
  split; [apply history_reachable; [apply rtc_refl|vm_compute; reflexivity]|].
  split; vm_compute; reflexivity.
Qed.

(** Two nodes of which the last was deleted, before and after a restore. *)
Definition node_tail : KernelState :=
  run_events [(AutoCreateNode NAgent None, 0); (AutoCreateNode NAgent None, 0); (DeleteNode 1, 0)]
    KernelState_new.

(** After a restore the id of a deleted last node is handed out again, and the
    replica accepts different events than the original. *)
Theorem snapshot_restore_reuses_node_ids :
  reachable node_tail /\ next_node_id node_tail = 2
  /\ exists s, decode_state (encode_state node_tail) = Ok s /\ next_node_id s = 1
     /\ (exists s', apply_event_ns (AutoCreateNode NUser None) 0 s = (s', Ok tt)
                    /\ nd_kind <$> get_node s' 1 = Some NUser)
     /\ (apply_event_ns (CreateNode 2 NUser None) 0 node_tail).2 = Ok tt
     /\ (apply_event_ns (CreateNode 2 NUser None) 0 s).2 = Err InvalidOperation.
Proof.
  split; [apply history_reachable; [apply rtc_refl|vm_compute; reflexivity]|].
  split; [vm_compute; reflexivity|]. eexists. split; [vm_compute; reflexivity|].
  split; [vm_compute; reflexivity|]. split; [eexists; split; [vm_compute; reflexivity|vm_compute; reflexivity]|].
  split; vm_compute; reflexivity.
Qed.

(** An encrypted record, snapshotted, restored, and its key shredded. *)
Definition sealed : KernelState :=
  run_events [(AutoInsertRecord [1] None 0, 0); (InsertRecordEncrypted 1 (replicate 16 7) [42] None 0, 0)]
    KernelState_new.

(** A restore forgets which records a key encrypts: shredding the key then
    succeeds and erases nothing. *)
Theorem snapshot_restore_disables_shredding :
  reachable sealed
  /\ (exists r, get_record (apply_event_ns (ShredKey (replicate 16 7)) 0 sealed).1 1 = Some r
                /\ rec_metadata r = None)
  /\ exists s, decode_state (encode_state sealed) = Ok s
     /\ (apply_event_ns (ShredKey (replicate 16 7)) 0 s).2 = Ok tt
     /\ exists r, get_record (apply_event_ns (ShredKey (replicate 16 7)) 0 s).1 1 = Some r
                  /\ is_active r = true /\ rec_metadata r = Some [42].
Proof.
  split; [apply history_reachable; [apply rtc_refl|vm_compute; reflexivity]|].
  split; [eexists; split; [vm_compute; reflexivity|reflexivity]|].
  eexists. split; [vm_compute; reflexivity|]. split; [vm_compute; reflexivity|].
  eexists. split; [vm_compute; reflexivity|]. split; reflexivity.
Qed.

(** A one-record snapshot whose record points to itself. *)
Definition cyclic_state : KernelState :=
  mkKernel (Some 1) 1 [Some (mkRecord 0 [65536] None 0 0 0 0 NS_LIST_NIL)] [] [] BruteForce
    (0 :: replicate 1023 NS_LIST_NIL) ∅ (replicate 1024 NS_LIST_NIL) [].

(** No number of steps ends the walk over that list. *)
Lemma cyclic_walk fuel st : ns_walk Scalar (ks_records cyclic_state) [0] 1 fuel st 0 = Hang.
Proof. revert st. induction fuel as [|fuel IH]; intros st; [reflexivity|]. apply IH. Qed.

(** The decoder accepts a namespace list that points to itself, on which the
    search never ends. *)
Theorem decode_accepts_cyclic_list :
  exists s, decode_state (encode_state cyclic_state) = Ok s
    /\ check_invariants s = Ok tt
    /\ vec_get (ks_record_heads s) 0 = Some 0
    /\ forall fuel st, ns_walk Scalar (ks_records s) [0] 1 fuel st 0 = Hang.
Proof.
  exists cyclic_state. split; [vm_compute; reflexivity|]. split; [vm_compute; reflexivity|].
  split; [vm_compute; reflexivity|]. apply cyclic_walk.
Qed.

(** ** What the state hash covers

    The hash survives a snapshot; two blind spots of its input are shown on
    reachable states. *)

Lemma restored_records_id s :
  (forall i r, slab_get (ks_records s) i = Some r -> rec_metadata r <> Some []) ->
  ks_records (restored s) = ks_records s.
Proof.
  intros Hne. simpl. apply list_eq. intros k. rewrite list_lookup_fmap.
  destruct (ks_records s !! k) as [[r|]|] eqn:E; simpl; try done. do 2 f_equal.
  assert (slab_get (ks_records s) (Z.of_nat k) = Some r) as Hr by (apply slab_get_vec; by rewrite vec_get_nat).
  specialize (Hne _ _ Hr). destruct r as [? ? [[|x m]|] ? ? ? ? ?]; done.
Qed.

(** A state restored from its own snapshot has the state hash of the original,
    provided no record carries an empty metadata blob, for every hash function. *)
Theorem snapshot_preserves_state_hash blake3 s s' :
  reachable s -> snapshotable s ->
  (forall i r, get_record s i = Some r -> rec_metadata r <> Some []) ->
  decode_state (encode_state s) = Ok s' ->
  hash_state_blake3 blake3 s' = hash_state_blake3 blake3 s.
Proof.
  intros Hr Hsn Hne Hd. unfold decode_state in Hd. rewrite <- (app_nil_r (encode_state s)) in Hd.
  rewrite (reads_state s (reachable_kernel_wf s Hr) Hsn []) in Hd. simpl in Hd. injection Hd as <-.
  unfold hash_state_blake3, hash_input. rewrite restored_records_id by done. done.
Qed.

Lemma snapshot_preserves_state_hash_witness :
  hash_state_blake3 toy_hash (restored demo_state) = hash_state_blake3 toy_hash demo_state.
Proof.
  apply (snapshot_preserves_state_hash toy_hash demo_state (restored demo_state)
           demo_state_reachable demo_snapshotable).
  - apply (slab_forall (fun r => rec_metadata r <> Some [])). vm_compute live.
    repeat apply Forall_cons_2; [..|apply Forall_nil_2]; discriminate.
  - vm_compute. reflexivity.
Defined.

(** A record with an empty metadata blob. *)
Definition empty_blob : KernelState :=
  run_events [(AutoInsertRecord [1] (Some []) 0, 0)] KernelState_new.

(** A record with an empty metadata blob hashes differently after a snapshot
    round trip. *)
Theorem empty_metadata_changes_hash_input :
  reachable empty_blob
  /\ exists s', decode_state (encode_state empty_blob) = Ok s' /\ hash_input s' <> hash_input empty_blob.
Proof.
  split; [apply history_reachable; [apply rtc_refl|vm_compute; reflexivity]|].
  eexists. split; [vm_compute; reflexivity|]. vm_compute. discriminate.
Qed.

(** The same record inserted in two different namespaces, and different metadata
    entries committed. *)
Definition tenant_a : KernelState :=
  run_events [(AutoInsertRecord [65536] None 0, 1); (SetMeta [97] [49], 0)] KernelState_new.
Definition tenant_b : KernelState :=
  run_events [(AutoInsertRecord [65536] None 0, 2); (SetMeta [98] [50], 0)] KernelState_new.

(** Two states that differ in the namespace of a record and in their metadata
    map have the same hash input. *)
Theorem state_hash_blind_to_namespaces_and_meta :
  reachable tenant_a /\ reachable tenant_b
  /\ hash_input tenant_a = hash_input tenant_b
  /\ ks_meta tenant_a <> ks_meta tenant_b
  /\ len (iter_records_in_ns tenant_a 1) = 1 /\ len (iter_records_in_ns tenant_b 1) = 0.
Proof.
  split; [apply history_reachable; [apply rtc_refl|vm_compute; reflexivity]|].
  split; [apply history_reachable; [apply rtc_refl|vm_compute; reflexivity]|].
  split_and!; vm_compute; (reflexivity || discriminate).
Qed.
