(* ===== verification/EventCodec.v ===== *)
(** * Serialized events

    The hand-written serde of [crates/valori-kernel/src/event.rs] (the struct
    variants and their indices, [RawMetadata], the shadow enum
    [KernelEventHelper] and [raw_metadata_serde]) and the derived serde of the
    types it serializes ([RecordId], [FxpVector], [NodeKind], ...) over the
    primitives of bincode.

    bincode is not part of the repository: [Bincode] is the interface the code
    uses (primitive integers, enum discriminants, strings, options, vectors and
    [decode_from_slice]), [BincodeLaws] what its documentation promises of it.
    Tuples, structs and struct variants have no framing: their fields are
    written and read one after the other, so they are [++] on the writing side
    and [let*] on the reading side.  Newtype structs are their content. *)

From S2P Require Import Prelude.
From S2P Require Import Core.
From S2P Require Import Fxp.
From S2P Require Import Bytes.
From S2P Require Import Event.

(** The decode errors the callers tell apart. *)
Inductive DecodeError : Type := LimitExceeded | UnexpectedEnd | OtherError.

Abbreviation R A := (M DecodeError (list Z) A).

(** [decodes r bs a]: [r] reads exactly [bs] and yields [a], whatever follows;
    on a proper prefix of [bs] it runs out of input. *)
Definition decodes {A} (r : R A) (bs : list Z) (a : A) : Prop :=
  reads r bs a /\ forall n, (n < length bs)%nat -> (r (take n bs)).2 = Err UnexpectedEnd.

(** ** The interface to bincode *)
Class Bincode : Type := {
  put_u8 : Z -> list Z; get_u8 : R Z;
  put_u16 : Z -> list Z; get_u16 : R Z;
  put_u32 : Z -> list Z; get_u32 : R Z;
  put_u64 : Z -> list Z; get_u64 : R Z;
  put_i32 : Z -> list Z; get_i32 : R Z;
  put_variant : Z -> list Z; get_variant : R Z;
  put_str : list Z -> list Z; get_str : R (list Z);
  put_option : forall A, (A -> list Z) -> option A -> list Z;
  get_option : forall A, R A -> R (option A);
  put_vec : forall A, (A -> list Z) -> list A -> list Z;
  get_vec : forall A, R A -> R (list A);
  (** the encodings the configured [with_limit] admits *)
  admits : list Z -> bool;
  decode_from_slice : forall A, R A -> list Z -> outcome DecodeError (A * Z);
}.
Arguments put_option {_ A} _ _.
Arguments get_option {_ A} _.
Arguments put_vec {_ A} _ _.
Arguments get_vec {_ A} _.
Arguments decode_from_slice {_ A} _ _.

Class BincodeLaws `{Bincode} : Prop := {
  u8_ok v : in_u8 v -> decodes get_u8 (put_u8 v) v;
  u16_ok v : in_u16 v -> decodes get_u16 (put_u16 v) v;
  u32_ok v : in_u32 v -> decodes get_u32 (put_u32 v) v;
  u64_ok v : in_u64 v -> decodes get_u64 (put_u64 v) v;
  i32_ok v : in_i32 v -> decodes get_i32 (put_i32 v) v;
  variant_ok v : in_u32 v -> decodes get_variant (put_variant v) v;
  str_ok s : bytes s -> utf8_valid s = true -> len s <= u64_MAX -> decodes get_str (put_str s) s;
  none_ok {A} (p : A -> list Z) (g : R A) : decodes (get_option g) (put_option p None) None;
  some_ok {A} (p : A -> list Z) (g : R A) a :
    decodes g (p a) a -> decodes (get_option g) (put_option p (Some a)) (Some a);
  vec_ok {A} (p : A -> list Z) (g : R A) l :
    Forall (fun a => decodes g (p a) a /\ p a <> []) l -> len l <= u64_MAX ->
    decodes (get_vec g) (put_vec p l) l;
  u8_nonempty v : put_u8 v <> [];
  i32_nonempty v : put_i32 v <> [];
  u64_nonempty v : put_u64 v <> [];
  slice_ok {A} (g : R A) bs rest a :
    decodes g bs a -> admits bs = true -> decode_from_slice g (bs ++ rest) = Ok (a, len bs);
  slice_cut {A} (g : R A) bs n a :
    decodes g bs a -> admits bs = true -> (n < length bs)%nat ->
    decode_from_slice g (take n bs) = Err UnexpectedEnd;
}.

(** ** Serialization of events *)
Section Codec.
Context `{Bincode}.

(** [[u8; N]]: a tuple of [N] bytes. *)
Definition put_array (bs : list Z) : list Z := concat (put_u8 <$> bs).
Definition get_array (n : nat) : R (list Z) := read_loop n 0 (fun _ => get_u8).

Definition put_bytes (bs : list Z) : list Z := put_vec put_u8 bs.
Definition get_bytes : R (list Z) := get_vec get_u8.

Definition put_vector (v : FxpVector) : list Z := put_vec put_i32 v.
Definition get_vector : R FxpVector := get_vec get_i32.

Definition put_NodeKind (k : NodeKind) : list Z := put_variant (NodeKind_as_u8 k).
Definition get_NodeKind : R NodeKind :=
  let* i := get_variant in slift (ok_or (NodeKind_from_u8 i) OtherError).

Definition put_EdgeKind (k : EdgeKind) : list Z := put_variant (EdgeKind_as_u8 k).
Definition get_EdgeKind : R EdgeKind :=
  let* i := get_variant in slift (ok_or (EdgeKind_from_u8 i) OtherError).

(** [RawMetadata]: [(len, bytes)], or a lone zero length. *)
Definition put_metadata (m : option (list Z)) : list Z :=
  match m with
  | Some bs => put_u32 (wrap_u32 (len bs)) ++ put_bytes bs
  | None => put_u32 0
  end.

(** [raw_metadata_serde::deserialize]: the visitor of a 2-tuple that leaves
    the second element unread when the length is zero. *)
Definition get_metadata : R (option (list Z)) :=
  let* n := get_u32 in
  if n =? 0 then sret None
  else let* bs := get_bytes in sret (Some bs).

Definition put_KernelEvent (e : KernelEvent) : list Z :=
  match e with
  | InsertRecord id vector metadata tag =>
      put_variant 0 ++ put_u32 id ++ put_vector vector ++ put_metadata metadata ++ put_u64 tag
  | DeleteRecord id => put_variant 1 ++ put_u32 id
  | CreateNode id kind record =>
      put_variant 2 ++ put_u32 id ++ put_NodeKind kind ++ put_option put_u32 record
  | CreateEdge id from to kind =>
      put_variant 3 ++ put_u32 id ++ put_u32 from ++ put_u32 to ++ put_EdgeKind kind
  | DeleteEdge id => put_variant 4 ++ put_u32 id
  | SoftDeleteRecord id => put_variant 5 ++ put_u32 id
  | DeleteNode id => put_variant 6 ++ put_u32 id
  | InsertRecordEncrypted id key_id ciphertext metadata_ciphertext tag =>
      put_variant 7 ++ put_u32 id ++ put_array key_id ++ put_bytes ciphertext
      ++ put_option put_bytes metadata_ciphertext ++ put_u64 tag
  | ShredKey key_id => put_variant 8 ++ put_array key_id
  | AutoInsertRecord vector metadata tag =>
      put_variant 9 ++ put_vector vector ++ put_metadata metadata ++ put_u64 tag
  | AutoCreateNode kind record => put_variant 10 ++ put_NodeKind kind ++ put_option put_u32 record
  | AutoCreateEdge from to kind => put_variant 11 ++ put_u32 from ++ put_u32 to ++ put_EdgeKind kind
  | AutoInsertRecordEncrypted namespace_id key_id ciphertext tag =>
      put_variant 12 ++ put_u16 namespace_id ++ put_array key_id ++ put_bytes ciphertext ++ put_u64 tag
  | SetMeta key value => put_variant 13 ++ put_str key ++ put_str value
  | AutoCreateNamespace name => put_variant 14 ++ put_str name
  | DropNamespace name => put_variant 15 ++ put_str name
  | UpdateRecordMetadata id metadata => put_variant 16 ++ put_u32 id ++ put_metadata metadata
  end.

(** The derived visitor of [KernelEventHelper], by variant index, and the
    conversion of the helper to [KernelEvent]. *)
Definition get_helper (variant : Z) : R KernelEvent :=
  match variant with
  | 0 =>
      let* id := get_u32 in let* vector := get_vector in let* metadata := get_metadata in
      let* tag := get_u64 in sret (InsertRecord id vector metadata tag)
  | 1 => let* id := get_u32 in sret (DeleteRecord id)
  | 2 =>
      let* id := get_u32 in let* kind := get_NodeKind in let* record := get_option get_u32 in
      sret (CreateNode id kind record)
  | 3 =>
      let* id := get_u32 in let* from := get_u32 in let* to := get_u32 in
      let* kind := get_EdgeKind in sret (CreateEdge id from to kind)
  | 4 => let* id := get_u32 in sret (DeleteEdge id)
  | 5 => let* id := get_u32 in sret (SoftDeleteRecord id)
  | 6 => let* id := get_u32 in sret (DeleteNode id)
  | 7 =>
      let* id := get_u32 in let* key_id := get_array 16 in let* ciphertext := get_bytes in
      let* metadata_ciphertext := get_option get_bytes in let* tag := get_u64 in
      sret (InsertRecordEncrypted id key_id ciphertext metadata_ciphertext tag)
  | 8 => let* key_id := get_array 16 in sret (ShredKey key_id)
  | 9 =>
      let* vector := get_vector in let* metadata := get_metadata in let* tag := get_u64 in
      sret (AutoInsertRecord vector metadata tag)
  | 10 =>
      let* kind := get_NodeKind in let* record := get_option get_u32 in
      sret (AutoCreateNode kind record)
  | 11 =>
      let* from := get_u32 in let* to := get_u32 in let* kind := get_EdgeKind in
      sret (AutoCreateEdge from to kind)
  | 12 =>
      let* namespace_id := get_u16 in let* key_id := get_array 16 in
      let* ciphertext := get_bytes in let* tag := get_u64 in
      sret (AutoInsertRecordEncrypted namespace_id key_id ciphertext tag)
  | 13 => let* key := get_str in let* value := get_str in sret (SetMeta key value)
  | 14 => let* name := get_str in sret (AutoCreateNamespace name)
  | 15 => let* name := get_str in sret (DropNamespace name)
  | 16 =>
      let* id := get_u32 in let* metadata := get_metadata in
      sret (UpdateRecordMetadata id metadata)
  | _ => sthrow OtherError
  end.

Definition get_KernelEvent : R KernelEvent := let* variant := get_variant in get_helper variant.
End Codec.

(** ** Decoding what was encoded *)
Section Decodes.
Lemma decodes_ret {A} (a : A) : decodes (sret a) [] a.
Proof. split; [apply reads_ret|]. simpl. lia. Qed.

Lemma decodes_bind {A B} (r : R A) (k : A -> R B) bs1 bs2 a b :
  decodes r bs1 a -> decodes (k a) bs2 b -> decodes (sbind r k) (bs1 ++ bs2) b.
Proof.
  intros [H1 C1] [H2 C2]. split; [by eapply reads_bind|]. intros n Hn. unfold sbind.
  destruct (decide (n < length bs1)%nat) as [Hlt | Hge].
  - rewrite take_app_le by lia. specialize (C1 n Hlt).
    destruct (r (take n bs1)) as [l o]. simpl in C1. by subst o.
  - rewrite take_app_ge, H1 by lia. apply C2. rewrite length_app in Hn. lia.
Qed.

Lemma decodes_last {A B} (r : R A) (f : A -> B) bs a :
  decodes r bs a -> decodes (let* x := r in sret (f x)) bs (f a).
Proof. intros. rewrite <- (app_nil_r bs). by eapply decodes_bind; [|apply decodes_ret]. Qed.

Lemma decodes_bind_last {A B} (r : R A) (k : A -> R B) bs a b :
  decodes r bs a -> decodes (k a) [] b -> decodes (sbind r k) bs b.
Proof. intros. rewrite <- (app_nil_r bs). by eapply decodes_bind. Qed.

Lemma decodes_inj {A} (r : R A) bs1 bs2 a1 a2 rest1 rest2 :
  decodes r bs1 a1 -> decodes r bs2 a2 -> bs1 ++ rest1 = bs2 ++ rest2 -> a1 = a2 /\ rest1 = rest2.
Proof. intros [H1 _] [H2 _] E. specialize (H1 rest1). rewrite E, H2 in H1. by injection H1 as -> ->. Qed.

Lemma decodes_loop {A X} (read : R A) (enc : X -> list Z) (out : X -> A) xs i :
  Forall (fun x => decodes read (enc x) (out x)) xs ->
  decodes (read_loop (length xs) i (fun _ => read)) (concat (enc <$> xs)) (out <$> xs).
Proof.
  intros Hxs. revert i. induction Hxs as [|x xs Hx Hxs IH]; intros i; [apply decodes_ret|].
  cbn [length read_loop fmap list_fmap concat]. eapply decodes_bind; [done|].
  apply (decodes_last _ (fun rest => out x :: rest)), IH.
Qed.

Context `{BincodeLaws}.

Lemma array_ok bs : bytes bs -> decodes (get_array (length bs)) (put_array bs) bs.
Proof.
  intros Hbs. pose proof (decodes_loop get_u8 put_u8 id bs 0) as Hl. rewrite list_fmap_id in Hl.
  apply Hl. eapply Forall_impl; [exact Hbs|]. intros b. apply u8_ok.
Qed.

(** An [[u8; N]]. *)
Definition array_typed (n : nat) (bs : list Z) : Prop := bytes bs /\ length bs = n.

Lemma array_typed_ok n bs : array_typed n bs -> decodes (get_array n) (put_array bs) bs.
Proof. intros [? <-]. by apply array_ok. Qed.

Lemma bytes_ok bs : bytes bs -> len bs <= u64_MAX -> decodes get_bytes (put_bytes bs) bs.
Proof.
  intros Hbs Hl. apply vec_ok; [|done]. eapply Forall_impl; [exact Hbs|].
  intros b Hb. split; [by apply u8_ok|apply u8_nonempty].
Qed.

Lemma vector_ok (v : FxpVector) : Forall in_i32 v -> len v <= u64_MAX -> decodes get_vector (put_vector v) v.
Proof.
  intros Hv Hl. apply vec_ok; [|done]. eapply Forall_impl; [exact Hv|].
  intros b Hb. split; [by apply i32_ok|apply i32_nonempty].
Qed.

Lemma NodeKind_ok k : decodes get_NodeKind (put_NodeKind k) k.
Proof.
  rewrite <- (app_nil_r (put_NodeKind k)). eapply decodes_bind; [apply variant_ok; by destruct k|].
  destruct k; apply decodes_ret.
Qed.

Lemma EdgeKind_ok k : decodes get_EdgeKind (put_EdgeKind k) k.
Proof.
  rewrite <- (app_nil_r (put_EdgeKind k)). eapply decodes_bind; [apply variant_ok; by destruct k|].
  destruct k; apply decodes_ret.
Qed.

Lemma option_ok {A} (p : A -> list Z) (g : R A) o :
  (forall a, o = Some a -> decodes g (p a) a) -> decodes (get_option g) (put_option p o) o.
Proof. destruct o as [a|]; intros Ho; [by apply some_ok, Ho|apply none_ok]. Qed.

(** Metadata the serde can carry: not the empty blob. *)
Definition meta_ok (m : option (list Z)) : Prop :=
  match m with Some bs => bs <> [] /\ bytes bs /\ len bs <= u32_MAX | None => True end.

Lemma metadata_ok m : meta_ok m -> decodes get_metadata (put_metadata m) m.
Proof.
  destruct m as [bs|]; simpl.
  - intros (Hne & Hb & Hl). pose proof (len_nonneg bs).
    assert (len bs <> 0) by (destruct bs; [done|unfold len; simpl; lia]).
    assert (wrap_u32 (len bs) = len bs) as -> by (unfold wrap_u32; rewrite Z.mod_small; int_lia).
    eapply decodes_bind; [apply u32_ok; int_lia|]. rewrite (proj2 (Z.eqb_neq _ _)) by done.
    apply (decodes_last _ Some), bytes_ok; [done|int_lia].
  - intros _. rewrite <- (app_nil_r (put_u32 0)). eapply decodes_bind; [apply u32_ok; int_lia|].
    apply decodes_ret.
Qed.

Definition opt_u32 (o : option Z) : Prop := forall v, o = Some v -> in_u32 v.

Definition string_ok (s : list Z) : Prop := bytes s /\ utf8_valid s = true /\ len s <= u64_MAX.

(** The events a Rust value can be, less the empty metadata blob. *)
Definition event_typed (e : KernelEvent) : Prop :=
  match e with
  | InsertRecord id v m tag => in_u32 id /\ Forall in_i32 v /\ len v <= u64_MAX /\ meta_ok m /\ in_u64 tag
  | DeleteRecord id | DeleteEdge id | SoftDeleteRecord id | DeleteNode id => in_u32 id
  | CreateNode id _ r => in_u32 id /\ opt_u32 r
  | CreateEdge id from to _ => in_u32 id /\ in_u32 from /\ in_u32 to
  | InsertRecordEncrypted id key ct mct tag =>
      in_u32 id /\ array_typed 16 key /\ bytes ct /\ len ct <= u64_MAX
      /\ (forall b, mct = Some b -> bytes b /\ len b <= u64_MAX) /\ in_u64 tag
  | ShredKey key => array_typed 16 key
  | AutoInsertRecord v m tag => Forall in_i32 v /\ len v <= u64_MAX /\ meta_ok m /\ in_u64 tag
  | AutoCreateNode _ r => opt_u32 r
  | AutoCreateEdge from to _ => in_u32 from /\ in_u32 to
  | AutoInsertRecordEncrypted ns key ct tag =>
      in_u16 ns /\ array_typed 16 key /\ bytes ct /\ len ct <= u64_MAX /\ in_u64 tag
  | UpdateRecordMetadata id m => in_u32 id /\ meta_ok m
  | SetMeta k v => string_ok k /\ string_ok v
  | AutoCreateNamespace n | DropNamespace n => string_ok n
  end.

Lemma string_law s : string_ok s -> decodes get_str (put_str s) s.
Proof. intros (? & ? & ?). by apply str_ok. Qed.

End Decodes.

Create HintDb codec discriminated.
#[export] Hint Constants Opaque : codec.
#[export] Hint Resolve decodes_ret u8_ok u16_ok u32_ok u64_ok i32_ok vector_ok bytes_ok
  NodeKind_ok EdgeKind_ok metadata_ok string_law array_typed_ok : codec.

(** One field: the head of the writer's [++] against the head of the reader. *)
Ltac field :=
  match goal with
  | |- decodes (get_option _) _ _ => apply option_ok; intros
  | |- decodes (sret _) [] _ => apply decodes_ret
  | |- decodes (sbind _ _) (_ ++ _) _ => eapply decodes_bind
  | |- decodes (sbind _ _) _ _ => eapply decodes_bind_last
  end.
Ltac fields := repeat field; auto with codec.

Section Events.
Context `{BincodeLaws}.

Lemma KernelEvent_ok e : event_typed e -> decodes get_KernelEvent (put_KernelEvent e) e.
Proof.
  intros He. unfold get_KernelEvent.
  destruct e; cbn [event_typed] in He; unfold put_KernelEvent; destruct_and?;
    (eapply decodes_bind; [apply variant_ok; int_lia|]); cbn [get_helper]; fields; naive_solver eauto with codec.
Qed.
End Events.

(** ** A codec that satisfies the laws

    Little-endian fixed-width integers, used to evaluate the model on concrete
    inputs.  An input shorter than a claimed length is rejected before the
    elements are read. *)
Module FixedInt.
Definition get_le (n : Z) : R Z := read_le UnexpectedEnd n.

Definition put_option {A} (p : A -> list Z) (o : option A) : list Z :=
  match o with Some a => 1 :: p a | None => [0] end.
Definition get_option {A} (g : R A) : R (option A) :=
  let* t := get_le 1 in
  if t =? 0 then sret None
  else if t =? 1 then let* a := g in sret (Some a) else sthrow OtherError.

(** A claimed length beyond the rest of the input. *)
Definition check_len (n : Z) : R unit := fun l => (l, if len l <? n then Err UnexpectedEnd else Ok tt).

Definition put_vec {A} (p : A -> list Z) (l : list A) : list Z :=
  le_bytes 8 (len l) ++ concat (p <$> l).
Definition get_vec {A} (g : R A) : R (list A) :=
  let* n := get_le 8 in check_len n ;;; read_loop (Z.to_nat n) 0 (fun _ => g).

Definition put_str (s : list Z) : list Z := le_bytes 8 (len s) ++ s.
Definition get_str : R (list Z) :=
  let* n := get_le 8 in
  let* s := read_n UnexpectedEnd n in
  if utf8_valid s then sret s else sthrow OtherError.

Definition admits (bs : list Z) : bool := len bs <=? 1048576.
Definition decode_from_slice {A} (g : R A) (bs : list Z) : outcome DecodeError (A * Z) :=
  match g bs with
  | (rest, Ok a) =>
      if admits (take (length bs - length rest) bs) then Ok (a, len bs - len rest) else Err LimitExceeded
  | (_, Err e) => Err e
  | (_, Panic) => Panic
  | (_, Hang) => Hang
  end.

#[export] Instance bincode : Bincode := {|
  EventCodec.put_u8 := le_bytes 1; EventCodec.get_u8 := get_le 1;
  EventCodec.put_u16 := le_bytes 2; EventCodec.get_u16 := get_le 2;
  EventCodec.put_u32 := le_bytes 4; EventCodec.get_u32 := get_le 4;
  EventCodec.put_u64 := le_bytes 8; EventCodec.get_u64 := get_le 8;
  EventCodec.put_i32 v := le_bytes 4 (v mod 4294967296);
  EventCodec.get_i32 := let* v := get_le 4 in sret (wrap_i32 v);
  EventCodec.put_variant := le_bytes 4; EventCodec.get_variant := get_le 4;
  EventCodec.put_str := put_str; EventCodec.get_str := get_str;
  EventCodec.put_option := @put_option; EventCodec.get_option := @get_option;
  EventCodec.put_vec := @put_vec; EventCodec.get_vec := @get_vec;
  EventCodec.admits := admits; EventCodec.decode_from_slice := @decode_from_slice;
|}.

Lemma decodes_n n bs : len bs = n -> decodes (read_n UnexpectedEnd n) bs bs.
Proof.
  intros Hn. split; [by apply reads_n|]. intros m Hm. unfold read_n.
  rewrite short_spec, (proj2 (Z.ltb_lt _ _)); [done|]. subst n. unfold len. rewrite length_take. lia.
Qed.

Lemma decodes_le (n : nat) v :
  0 <= v < 256 ^ Z.of_nat n -> decodes (get_le (Z.of_nat n)) (le_bytes n v) v.
Proof.
  intros Hv. unfold get_le, read_le. eapply decodes_bind_last; [apply decodes_n; unfold len; by rewrite length_le_bytes|].
  rewrite le_val_small by done. apply decodes_ret.
Qed.

Lemma decodes_check_len {A} (k : unit -> R A) n bs a :
  n <= len bs -> decodes (k tt) bs a -> (forall m, (m < length bs)%nat -> (sbind (check_len n) k (take m bs)).2 = Err UnexpectedEnd) ->
  decodes (sbind (check_len n) k) bs a.
Proof.
  intros Hn [Hr _] Hc. split; [|done]. intros rest. unfold sbind, check_len.
  rewrite len_app, (proj2 (Z.ltb_ge _ _)) by (pose proof (len_nonneg rest); lia). apply Hr.
Qed.

Lemma length_concat_nonempty {A} (p : A -> list Z) l :
  Forall (fun a => p a <> []) l -> len l <= len (concat (p <$> l)).
Proof.
  induction 1 as [|a l Ha Hl IH]; [done|]. cbn [fmap list_fmap concat]. rewrite len_app.
  assert (1 <= len (p a)) by (destruct (p a); [done|unfold len; simpl; lia]).
  assert (len (a :: l) = 1 + len l) as -> by (unfold len; simpl; lia).
  change (list_fmap A (list Z) p l) with (p <$> l). lia.
Qed.

Lemma decodes_vec {A} (p : A -> list Z) (g : R A) l :
  Forall (fun a => decodes g (p a) a /\ p a <> []) l -> len l <= u64_MAX -> decodes (get_vec g) (put_vec p l) l.
Proof.
  intros Hl Hn. apply Forall_and in Hl as [Hd Hne]. pose proof (len_nonneg l).
  eapply decodes_bind; [apply (decodes_le 8); int_lia|].
  assert (decodes (read_loop (Z.to_nat (len l)) 0 (fun _ => g)) (concat (p <$> l)) l) as Hloop.
  { unfold len. rewrite Nat2Z.id. pose proof (decodes_loop g p id l 0) as Hl. rewrite list_fmap_id in Hl. by apply Hl. }
  apply decodes_check_len; [by apply length_concat_nonempty|done|].
  intros m Hm. unfold sbind, check_len. destruct (_ <? _); [done|]. by apply Hloop.
Qed.

#[export] Instance laws : BincodeLaws.
Proof.
  split; simpl.
  - intros v Hv. apply (decodes_le 1). int_lia.
  - intros v Hv. apply (decodes_le 2). int_lia.
  - intros v Hv. apply (decodes_le 4). int_lia.
  - intros v Hv. apply (decodes_le 8). int_lia.
  - intros v Hv. eapply decodes_bind_last; [apply (decodes_le 4); by apply Z.mod_pos_bound|].
    replace (wrap_i32 _) with v; [apply decodes_ret|].
    unfold wrap_i32. rewrite Z.add_mod_idemp_l by lia. rewrite Z.mod_small; int_lia.
  - intros v Hv. apply (decodes_le 4). int_lia.
  - intros s Hb Hu Hl. pose proof (len_nonneg s).
    eapply decodes_bind; [apply (decodes_le 8); int_lia|].
    eapply decodes_bind_last; [by apply decodes_n|]. rewrite Hu. apply decodes_ret.
  - intros A p g. apply (decodes_bind_last _ _ [0] 0); [by apply (decodes_le 1 0)|apply decodes_ret].
  - intros A p g a Ha. apply (decodes_bind _ _ [1] (p a) 1); [by apply (decodes_le 1 1)|].
    by apply (decodes_last _ Some).
  - intros A p g l. apply decodes_vec.
  - done.
  - done.
  - done.
  - intros A g bs rest a [Hr _] Hb. unfold decode_from_slice. rewrite Hr, length_app.
    replace (length bs + length rest - length rest)%nat with (length bs) by lia.
    rewrite take_app_length, Hb, len_app. do 2 f_equal. lia.
  - intros A g bs n a [_ Hc] _ Hn. unfold decode_from_slice. specialize (Hc n Hn).
    destruct (g (take n bs)) as [l o]. simpl in Hc. by subst o.
Qed.
End FixedInt.
