(* ===== verification/KernelTyped.v ===== *)
(** * Typing of the kernel state

    The fields of a state stay within the machine types of the Rust structs: a
    well-typed event applied to a well-typed state leaves a well-typed state,
    whatever it returns and whatever shape the state has.  No invariant of the
    lists is assumed, so the statement covers states read from damaged snapshots
    too; it is proved operation by operation, with a logic ([keeps]) for commands
    that preserve the typing of the state. *)

From stdpp Require Import gmap.
From S2P Require Import Prelude.
From S2P Require Import Core.
From S2P Require Import Fxp.
From S2P Require Import Slab.
From S2P Require Import Records.
From S2P Require Import Graph.
From S2P Require Import Index.
From S2P Require Import Event.
From S2P Require Import Kernel.
From S2P Require Import KernelTheorems.
From S2P Require Import Bytes.
From S2P Require Import EventCodec.

(** ** Well-typed states

    One predicate per struct, one conjunct per field of an integer type. *)
Definition all_slots {A} (P : A -> Prop) (p : slab A) : Prop := forall i x, slab_get p i = Some x -> P x.

(** [next_in_ns] and [prev_in_ns]: [u32]; [namespace_id]: [u16]. *)
Definition links_typed {A} `{NsLinked A} (x : A) : Prop := in_u16 (ns_of x) /\ in_u32 (next_of x) /\ in_u32 (prev_of x).

Definition record_data_typed (r : Record_) : Prop :=
  in_u32 (rec_id r) /\ Forall in_i32 (rec_vector r) /\ in_u64 (rec_tag r) /\ in_u8 (rec_flags r)
  /\ (forall m, rec_metadata r = Some m -> bytes m) /\ links_typed r.

Definition node_data_typed (n : GraphNode) : Prop :=
  in_u32 (nd_id n) /\ opt_u32 (nd_record n) /\ opt_u32 (nd_first_out_edge n) /\ opt_u32 (nd_first_in_edge n)
  /\ links_typed n.

Definition edge_data_typed (e : GraphEdge) : Prop :=
  in_u32 (ed_id e) /\ in_u32 (ed_from e) /\ in_u32 (ed_to e) /\ opt_u32 (ed_next_out e) /\ opt_u32 (ed_next_in e).

(** [[u32; MAX_NAMESPACES]] *)
Definition heads_typed (heads : list Z) : Prop := len heads = MAX_NAMESPACES /\ Forall in_u32 heads.

Definition index_typed (ix : ActiveIndex) : Prop :=
  match ix with
  | BruteForce => True
  | BinaryQuantization i => in_u64 (bq_dim i) /\ in_u64 (bq_words_per_vec i) /\ Forall in_u64 (bq_codes i)
  end.

(** A key of sixteen bytes and the ids of the records it encrypts. *)
Definition keys_typed (keys : gmap (list Z) (list Z)) : Prop :=
  map_Forall (fun k ids => array_typed 16 k /\ Forall in_u32 ids) keys.

Record state_typed (s : KernelState) : Prop := {
  ty_dim : forall d, ks_dim s = Some d -> in_u64 d;
  ty_version : in_u64 (ks_version s);
  ty_records : all_slots record_data_typed (ks_records s);
  ty_nodes : all_slots node_data_typed (ks_nodes s);
  ty_edges : all_slots edge_data_typed (ks_edges s);
  ty_index : index_typed (ks_index s);
  ty_record_heads : heads_typed (ks_record_heads s);
  ty_keys : keys_typed (ks_keys s);
  ty_node_heads : heads_typed (ks_node_heads s);
  ty_meta : Forall (fun kv => string_ok kv.1 /\ string_ok kv.2) (ks_meta s);
}.

(** ** Commands that keep a predicate

    [keeps P m Q]: from a state with [P], [m] ends in one with [P], whatever it
    returns, and what it returns satisfies [Q]. *)
Section Keeps.
Context {E S : Type} (P : S -> Prop).

Definition keeps {A} (m : M E S A) (Q : A -> Prop) : Prop :=
  forall s, P s -> P (m s).1 /\ forall a, (m s).2 = Ok a -> Q a.

Lemma keeps_ret {A} (a : A) (Q : A -> Prop) : Q a -> keeps (sret a) Q.
Proof. intros Ha s Hs. split; [done|]. by intros b [= <-]. Qed.

Lemma keeps_bind {A B} (m : M E S A) (k : A -> M E S B) (Q : A -> Prop) (R : B -> Prop) :
  keeps m Q -> (forall a, Q a -> keeps (k a) R) -> keeps (sbind m k) R.
Proof.
  intros Hm Hk s Hs. destruct (Hm s Hs) as [Hs' Ha]. unfold sbind. destruct (m s) as [s' [a|e| |]]; [|done..].
  by apply Hk; [apply Ha|].
Qed.

Lemma keeps_get : keeps sget P.
Proof. intros s Hs. split; [done|]. by intros a [= <-]. Qed.

Lemma keeps_lift {A} (o : outcome E A) (Q : A -> Prop) : (forall a, o = Ok a -> Q a) -> keeps (slift o) Q.
Proof. intros Ho s Hs. by split. Qed.

Lemma keeps_guard c e : keeps (sguard c e) (fun _ => c = false).
Proof. intros s Hs. unfold sguard. by destruct c. Qed.

Lemma keeps_modify f : (forall s, P s -> P (f s)) -> keeps (smodify f) (fun _ => True).
Proof. intros Hf s Hs. split; [by apply Hf|done]. Qed.

Lemma typed_keeps_mono {A} (m : M E S A) (Q R : A -> Prop) : (forall a, Q a -> R a) -> keeps m Q -> keeps m R.
Proof. intros HQ Hm s Hs. destruct (Hm s Hs) as [? Ha]. split; [done|]. eauto. Qed.

Lemma keeps_stop {A} (o : outcome E A) (Q : A -> Prop) : (forall a, o <> Ok a) -> keeps (fun s => (s, o)) Q.
Proof. intros Ho s Hs. split; [done|]. intros a Ha. by destruct (Ho a). Qed.

Lemma keeps_for {A} (xs : list A) (body : A -> M E S unit) :
  (forall x, x ∈ xs -> keeps (body x) (fun _ => True)) -> keeps (sfor xs body) (fun _ => True).
Proof.
  induction xs as [|x xs IH]; intros Hb; [by apply keeps_ret|]. simpl.
  eapply keeps_bind; [apply Hb; by left|]. intros _ _. apply IH. intros y Hy. apply Hb. by right.
Qed.
End Keeps.

Lemma keeps_zoom {E S T A} (P : S -> Prop) (P' : T -> Prop) (proj : S -> T) (upd : T -> S -> S) (m : M E T A) Q :
  (forall s, P s -> P' (proj s)) -> (forall s t, P s -> P' t -> P (upd t s)) -> keeps P' m Q -> keeps P (zoom proj upd m) Q.
Proof.
  intros Hp Hu Hm s Hs. destruct (Hm _ (Hp s Hs)) as [Ht Ha]. unfold zoom. destruct (m (proj s)) as [t o].
  split; [by apply Hu|exact Ha].
Qed.

(** ** Pools *)
Lemma all_slots_nil {A} (P : A -> Prop) : all_slots P [].
Proof.
  intros i x. unfold slab_get. destruct (vec_get [] i) eqn:E; [|done]. apply vec_get_lt in E.
  change (len (@nil (option A))) with 0 in E. lia.
Qed.

Lemma all_slots_alter {A} (P : A -> Prop) f (p : slab A) i :
  (forall x, P x -> P (f x)) -> all_slots P p -> all_slots P (slab_alter f p i).
Proof.
  intros Hf Hp j x. rewrite slab_get_alter. case_decide; [|apply Hp].
  intros (y & Hy & ->)%fmap_Some. apply Hf. by eapply Hp.
Qed.

Lemma all_slots_clear {A} (P : A -> Prop) (p : slab A) i : all_slots P p -> all_slots P (slab_clear p i).
Proof. intros Hp j x. rewrite slab_get_clear. case_decide; [done|apply Hp]. Qed.

Lemma all_slots_push {A} (P : A -> Prop) (p : slab A) x : all_slots P p -> P x -> all_slots P (p ++ [Some x]).
Proof.
  intros Hp Hx i y. rewrite slab_get_push. case_decide; [by intros [= <-]|apply Hp].
Qed.

Lemma keeps_pool_delete {A} (P : A -> Prop) id :
  keeps (all_slots P) (pool_delete (A := A) id) (fun _ => True).
Proof. intros p Hp. unfold pool_delete. destruct (slab_get p id); [|done]. split; [by apply all_slots_clear|done]. Qed.

Lemma wrap_u32_typed z : in_u32 (wrap_u32 z).
Proof. unfold wrap_u32. pose proof (Z.mod_pos_bound z 4294967296). int_lia. Qed.

Lemma opt_u32_some v : in_u32 v -> opt_u32 (Some v).
Proof. by intros Hv w [= <-]. Qed.

Lemma heads_typed_set heads ns v : heads_typed heads -> in_u32 v -> heads_typed (vec_set heads ns v).
Proof.
  intros [Hl Hf] Hv. split; [by rewrite len_vec_set|]. unfold vec_set. case_match; [|done].
  by apply Forall_insert.
Qed.

Lemma heads_typed_get heads ns v : heads_typed heads -> vec_get heads ns = Some v -> in_u32 v.
Proof. intros [_ Hf] (_ & Hv)%vec_get_Some. by eapply Forall_lookup in Hv. Qed.

(** ** Namespace lists *)
Section Links.
Context {A : Type} `{NsLinked A} (P : A -> Prop).
Hypothesis P_next : forall v x, in_u32 v -> P x -> P (set_next v x).
Hypothesis P_prev : forall v x, in_u32 v -> P x -> P (set_prev v x).

Definition list_typed (hs : linked A) : Prop := heads_typed hs.1 /\ all_slots P hs.2.

Lemma nil_typed : in_u32 NS_LIST_NIL.
Proof. unfold NS_LIST_NIL. int_lia. Qed.

Lemma push_front_typed {E} ns id hs hs' :
  in_u32 id -> list_typed hs -> push_front (E := E) ns id hs = Ok hs' -> list_typed hs'.
Proof using P_next P_prev.
  destruct hs as [heads s]. intros Hid [Hh Hs]. unfold push_front.
  destruct (vec_get heads ns) as [old|] eqn:Eh; [|done]. cbn [unwrap obind].
  pose proof (heads_typed_get _ _ _ Hh Eh) as Ho. destruct (slab_get s id); [|done]. cbn [unwrap obind].
  set (s1 := slab_alter _ s id).
  assert (all_slots P s1) as Hs1 by (apply all_slots_alter; [|done]; auto using nil_typed).
  destruct (old =? NS_LIST_NIL); cbn [obind].
  - intros [= <-]. split; [by apply heads_typed_set|done].
  - destruct (vec_get s1 old); [|done]. cbn [unwrap obind]. intros [= <-]. split; [by apply heads_typed_set|].
    apply all_slots_alter; [|done]. auto.
Qed.

Lemma unlink_typed {E} ns prev next hs hs' :
  in_u32 prev -> in_u32 next -> list_typed hs -> unlink (E := E) ns prev next hs = Ok hs' -> list_typed hs'.
Proof using P_next P_prev.
  destruct hs as [heads s]. intros Hp Hn [Hh Hs]. unfold unlink.
  assert (forall hs1 : linked A, list_typed hs1 ->
    list_typed (hs1.1, if next =? NS_LIST_NIL then hs1.2 else slab_alter (set_prev prev) hs1.2 next)) as Hlast.
  { intros [h1 s1] [H1 H2]. split; [done|]. simpl. case_match; [done|]. apply all_slots_alter; [|done]. auto. }
  destruct (prev =? NS_LIST_NIL).
  - destruct (vec_get heads ns); [|done]. cbn [unwrap obind]. intros [= <-].
    apply (Hlast (vec_set heads ns next, s)). split; [by apply heads_typed_set|done].
  - cbn [obind]. intros [= <-]. apply (Hlast (heads, slab_alter (set_next next) s prev)). split; [done|].
    apply all_slots_alter; [|done]. auto.
Qed.
End Links.

(** ** Records *)
Lemma record_set_next v (r : Record_) : in_u32 v -> record_data_typed r -> record_data_typed (set_next v r).
Proof. intros Hv (H1 & H2 & H3 & H4 & H5 & H6 & H7 & H8). by split_and!. Qed.
Lemma record_set_prev v (r : Record_) : in_u32 v -> record_data_typed r -> record_data_typed (set_prev v r).
Proof. intros Hv (H1 & H2 & H3 & H4 & H5 & H6 & H7 & H8). by split_and!. Qed.

Lemma lt_pow2_log2 a n : 0 <= a -> 0 < n -> a < 2 ^ n <-> Z.log2 a < n.
Proof.
  intros Ha Hn. destruct (decide (a = 0)) as [->|]; [|apply Z.log2_lt_pow2; lia].
  change (Z.log2 0) with 0. pose proof (Z.pow_pos_nonneg 2 n). lia.
Qed.

Lemma lor_below a b n : 0 <= a < 2 ^ n -> 0 <= b < 2 ^ n -> 0 < n -> 0 <= Z.lor a b < 2 ^ n.
Proof.
  intros Ha Hb Hn. assert (0 <= Z.lor a b) as Hp by (apply Z.lor_nonneg; lia). split; [done|].
  apply lt_pow2_log2; [done..|]. rewrite Z.log2_lor by lia. apply Z.max_lub_lt; apply lt_pow2_log2; lia.
Qed.

Lemma lor_u8 a b : in_u8 a -> in_u8 b -> in_u8 (Z.lor a b).
Proof. unfold in_u8, u8_MAX. intros Ha Hb. pose proof (lor_below a b 8). change (2 ^ 8) with 256 in *. lia. Qed.

Lemma record_set_flags fl (r : Record_) :
  in_u8 fl -> record_data_typed r -> record_data_typed (rec_set_flags (Z.lor (rec_flags r) fl) r).
Proof. intros Hf (H1 & H2 & H3 & H4 & H5 & H6). split_and!; try done; simpl. by apply lor_u8. Qed.
Lemma record_set_metadata m (r : Record_) :
  (forall b, m = Some b -> bytes b) -> record_data_typed r -> record_data_typed (rec_set_metadata m r).
Proof. intros Hm (H1 & H2 & H3 & H4 & H5 & H6). by split_and!. Qed.

Abbreviation pool_typed := (all_slots record_data_typed).

Lemma keeps_rp_insert v m t ns :
  Forall in_i32 v -> (forall b, m = Some b -> bytes b) -> in_u64 t -> in_u16 ns ->
  keeps pool_typed (rp_insert v m t ns) in_u32.
Proof.
  intros Hv Hm Ht Hns p Hp. split.
  - apply all_slots_push; [done|]. unfold record_data_typed, links_typed.
    split_and!; simpl; first [done|apply wrap_u32_typed|apply nil_typed|int_lia].
  - intros a [= <-]. apply wrap_u32_typed.
Qed.

Lemma keeps_rp_delete id : keeps pool_typed (rp_delete id) (fun _ => True).
Proof.
  intros p Hp. unfold rp_delete. case_match; [done|]. case_match; [|done]. split; [by apply all_slots_clear|done].
Qed.

Lemma keeps_rp_update f id :
  (forall r, record_data_typed r -> record_data_typed (f r)) -> keeps pool_typed (rp_update f id) (fun _ => True).
Proof.
  intros Hf p Hp. unfold rp_update. case_match; [|done]. split; [by apply all_slots_alter|done].
Qed.

(** ** Nodes and edges *)
Lemma node_set_next v (n : GraphNode) : in_u32 v -> node_data_typed n -> node_data_typed (set_next v n).
Proof. intros Hv (H1 & H2 & H3 & H4 & H5 & H6 & H7). by split_and!. Qed.
Lemma node_set_prev v (n : GraphNode) : in_u32 v -> node_data_typed n -> node_data_typed (set_prev v n).
Proof. intros Hv (H1 & H2 & H3 & H4 & H5 & H6 & H7). by split_and!. Qed.
Lemma node_set_first d o n : opt_u32 o -> node_data_typed n -> node_data_typed (set_first_edge d o n).
Proof. intros Ho (H1 & H2 & H3 & H4 & H5). by destruct d; split_and!. Qed.
Lemma edge_set_next d o e : opt_u32 o -> edge_data_typed e -> edge_data_typed (set_next_edge d o e).
Proof. intros Ho (H1 & H2 & H3 & H4 & H5). by destruct d; split_and!. Qed.
Lemma node_first d n : node_data_typed n -> opt_u32 (first_edge d n).
Proof. intros (_ & _ & H3 & H4 & _). by destruct d. Qed.
Lemma edge_next d e : edge_data_typed e -> opt_u32 (next_edge d e).
Proof. intros (_ & _ & _ & H4 & H5). by destruct d. Qed.

Definition graph_typed (g : Graph) : Prop := all_slots node_data_typed g.1 /\ all_slots edge_data_typed g.2.

Lemma keeps_np_insert n :
  (forall id, in_u32 id -> node_data_typed (nd_set_id id n)) ->
  keeps (all_slots node_data_typed) (np_insert n) in_u32.
Proof.
  intros Hn p Hp. split; [apply all_slots_push; [done|apply Hn, wrap_u32_typed]|]. intros a [= <-]. apply wrap_u32_typed.
Qed.

Lemma keeps_add_edge kind from to :
  in_u32 from -> in_u32 to -> keeps graph_typed (add_edge kind from to) (fun _ => True).
Proof.
  intros Hf Ht [nodes edges] Hg. pose proof Hg as [Hn He]. unfold add_edge.
  destruct (slab_get nodes from) as [nf|] eqn:Ef; [|done]. destruct (slab_get nodes to) as [nt|] eqn:Et; [|done].
  split; [|done]. cbn. assert (in_u32 (wrap_u32 (len edges))) as Hid by apply wrap_u32_typed. split.
  - do 2 (apply all_slots_alter; [intros x; by apply (node_set_first _ (Some _)), opt_u32_some|]). done.
  - apply all_slots_push; [done|]. pose proof (node_first Out nf (Hn _ _ Ef)). pose proof (node_first In nt (Hn _ _ Et)).
    by split_and!.
Qed.

Lemma keeps_unlink_edge d owner id : keeps graph_typed (unlink_edge d owner id) (fun _ => True).
Proof.
  intros [nodes edges] Hg. pose proof Hg as [Hn He]. unfold unlink_edge.
  assert (opt_u32 (match slab_get edges id with Some e => next_edge d e | None => None end)) as Hnext.
  { destruct (slab_get edges id) as [e|] eqn:E; [by eapply edge_next, He|done]. }
  destruct (locate_pred d edges id _) as [[[p|]|]|e| |]; [| |done..].
  - destruct (slab_get edges p); [|done]. split; [|done]. split; [done|]. apply all_slots_alter; [|done].
    intros x. by apply edge_set_next.
  - destruct (slab_get nodes owner); [|done]. split; [|done]. split; [|done]. apply all_slots_alter; [|done]. intros x. by apply node_set_first.
Qed.

Lemma keeps_delete_edge id : keeps graph_typed (delete_edge id) (fun _ => True).
Proof.
  unfold delete_edge. eapply keeps_bind; [apply keeps_get|]. intros g _.
  eapply (keeps_bind _ _ _ (fun _ => True)); [by apply keeps_lift|]. intros e _.
  eapply keeps_bind; [apply keeps_unlink_edge|]. intros _ _. eapply keeps_bind; [apply keeps_unlink_edge|]. intros _ _.
  eapply (keeps_zoom _ (all_slots edge_data_typed)); [by intros ? []|by intros ? ? []|apply keeps_pool_delete].
Qed.

Lemma keeps_delete_edges ids : keeps graph_typed (delete_edges ids) (fun _ => True).
Proof.
  apply keeps_for. intros x _. eapply keeps_bind; [apply keeps_get|]. intros g _.
  case_match; [apply keeps_delete_edge|by apply keeps_ret].
Qed.

(** ** The index *)
Lemma Forall_splice codes start code : Forall in_u64 codes -> Forall in_u64 code -> Forall in_u64 (splice codes start code).
Proof. intros H1 H2. unfold splice. apply Forall_app. split; [by apply Forall_take|]. apply Forall_app. split; [done|by apply Forall_drop]. Qed.

Lemma lor_bit_u64 w (k : nat) : in_u64 w -> (k < 64)%nat -> in_u64 (Z.lor w (Z.shiftl 1 (Z.of_nat k))).
Proof.
  unfold in_u64, u64_MAX. intros Hw Hk. rewrite Z.shiftl_1_l. pose proof (Z.pow_pos_nonneg 2 (Z.of_nat k)).
  pose proof (Z.pow_lt_mono_r 2 (Z.of_nat k) 64). pose proof (lor_below w (2 ^ Z.of_nat k) 64).
  change (2 ^ 64) with 18446744073709551616 in *. lia.
Qed.

Lemma encode_vector_typed v : Forall in_u64 (encode_vector v).
Proof.
  unfold encode_vector. assert (Forall in_u64 (replicate (Z.to_nat (words_for (len v))) 0)) as Hz
    by (apply Forall_replicate; int_lia).
  revert Hz. generalize (replicate (Z.to_nat (words_for (len v))) 0) as code. generalize (imap pair v) as l.
  induction l as [|x l IH]; intros code Hc; [done|]. cbn [foldl]. apply IH. unfold encode_step. case_match; [|done].
  apply Forall_alter; [done|]. intros w _ Hw. apply lor_bit_u64; [done|]. apply Nat.mod_upper_bound. lia.
Qed.

Lemma on_insert_typed id v ix : len v <= u64_MAX -> index_typed ix -> index_typed (on_insert id v ix).
Proof.
  intros Hv. destruct ix as [|[d w codes]]; [done|]. intros (H1 & H2 & H3). simpl in *.
  pose proof (len_nonneg v). unfold bq_on_insert. set (i1 := if _ && _ then _ else _).
  assert (index_typed (BinaryQuantization i1)) as (T1 & T2 & T3).
  { unfold i1. case_match; [|by split_and!]. split_and!; simpl; [int_lia| |done].
    unfold words_for, in_u64. Z.to_euclidean_division_equations. unfold u64_MAX in *. lia. }
  case_match; [by split_and!|]. split_and!; simpl; [done..|]. apply Forall_splice; [|apply encode_vector_typed].
  case_match; [|done]. apply Forall_app. split; [done|]. apply Forall_replicate. int_lia.
Qed.

Lemma on_delete_typed id ix : index_typed ix -> index_typed (on_delete id ix).
Proof.
  destruct ix as [|i]; [done|]. intros (H1 & H2 & H3). simpl. unfold bq_on_delete. repeat case_match; try by split_and!.
  split_and!; simpl; [done..|]. apply Forall_splice; [done|]. apply Forall_replicate. int_lia.
Qed.

(** ** The arms *)
Abbreviation keeps_typed m Q := (keeps (E := KernelError) state_typed m Q).

Lemma keeps_with_records {A} (m : M KernelError RecordPool A) Q : keeps pool_typed m Q -> keeps_typed (with_records m) Q.
Proof. apply keeps_zoom; [by intros s []|]. by intros s p [] Hp; split. Qed.

Lemma keeps_with_nodes {A} (m : M KernelError NodePool A) Q :
  keeps (all_slots node_data_typed) m Q -> keeps_typed (with_nodes m) Q.
Proof. apply keeps_zoom; [by intros s []|]. by intros s p [] Hp; split. Qed.

Lemma keeps_with_graph {A} (m : M KernelError Graph A) Q : keeps graph_typed m Q -> keeps_typed (with_graph m) Q.
Proof. apply keeps_zoom; [by intros s []|]. by intros s p [] []; split. Qed.

Lemma keeps_record_list (op : linked Record_ -> outcome KernelError (linked Record_)) :
  (forall hs hs', list_typed record_data_typed hs -> op hs = Ok hs' -> list_typed record_data_typed hs') ->
  keeps_typed (as_linked ks_record_list ks_set_record_list op) (fun _ => True).
Proof.
  intros Hop s T. unfold as_linked. destruct (op (ks_record_list s)) as [hs|e| |] eqn:E; [|done..]. split; [|done].
  destruct (Hop (ks_record_list s) hs (conj (ty_record_heads _ T) (ty_records _ T)) E). by destruct T; split.
Qed.

Lemma keeps_node_list (op : linked GraphNode -> outcome KernelError (linked GraphNode)) :
  (forall hs hs', list_typed node_data_typed hs -> op hs = Ok hs' -> list_typed node_data_typed hs') ->
  keeps_typed (as_linked ks_node_list ks_set_node_list op) (fun _ => True).
Proof.
  intros Hop s T. unfold as_linked. destruct (op (ks_node_list s)) as [hs|e| |] eqn:E; [|done..]. split; [|done].
  destruct (Hop (ks_node_list s) hs (conj (ty_node_heads _ T) (ty_nodes _ T)) E). by destruct T; split.
Qed.

Lemma keeps_link_record ns id : in_u32 id -> keeps_typed (link_record ns id) (fun _ => True).
Proof.
  intros Hid. apply keeps_record_list. intros hs hs'.
  by apply push_front_typed; [apply record_set_next|apply record_set_prev|].
Qed.

Lemma keeps_link_node ns id : in_u32 id -> keeps_typed (link_node ns id) (fun _ => True).
Proof.
  intros Hid. apply keeps_node_list. intros hs hs'.
  by apply push_front_typed; [apply node_set_next|apply node_set_prev|].
Qed.

Lemma keeps_index f : (forall ix, index_typed ix -> index_typed (f ix)) ->
  keeps_typed (smodify (fun s => ks_set_index (f (ks_index s)) s)) (fun _ => True).
Proof. intros Hf. apply keeps_modify. intros s []. split; try done. by apply Hf. Qed.

Lemma keeps_index_delete id : keeps_typed (index_delete id) (fun _ => True).
Proof. apply keeps_index. apply on_delete_typed. Qed.

Lemma keeps_check_dim d : in_u64 d -> keeps_typed (check_dim d) (fun _ => True).
Proof.
  intros Hd. eapply keeps_bind; [apply keeps_get|]. intros s T. case_match.
  - eapply typed_keeps_mono; [|apply keeps_guard]. done.
  - apply keeps_modify. intros s' []. split; try done. by intros d' [= <-].
Qed.

Lemma bytes_of_meta m : meta_ok m -> forall b, m = Some b -> bytes b.
Proof. intros Hm b ->. by destruct Hm as (_ & ? & _). Qed.

Lemma keeps_insert_checked v m t ns :
  Forall in_i32 v -> len v <= u64_MAX -> meta_ok m -> in_u64 t -> in_u16 ns ->
  keeps_typed (insert_checked v m t ns) (fun _ => True).
Proof.
  intros Hv Hl Hm Ht Hns. unfold insert_checked.
  eapply keeps_bind; [apply keeps_check_dim; pose proof (len_nonneg v); int_lia|]. intros _ _.
  eapply keeps_bind; [apply keeps_guard|]. intros _ _.
  eapply keeps_bind; [apply keeps_with_records, keeps_rp_insert; [done|by apply bytes_of_meta|done|done]|]. intros id Hid.
  eapply keeps_bind; [by apply keeps_link_record|]. intros _ _. apply keeps_index. intros ix. by apply on_insert_typed.
Qed.

Lemma keeps_unlink_record id : keeps_typed (unlink_record id) (fun _ => True).
Proof.
  unfold unlink_record. eapply keeps_bind; [apply keeps_get|]. intros s T.
  eapply (keeps_bind _ _ _ record_data_typed).
  { apply keeps_lift. intros r. unfold rp_get. destruct (slab_get (ks_records s) id) eqn:E; [|done].
    intros [= <-]. by eapply (ty_records _ T). }
  intros r (_ & _ & _ & _ & _ & _ & Hn & Hp). apply keeps_record_list. intros hs hs'.
  by apply unlink_typed; [apply record_set_next|apply record_set_prev| |].
Qed.

Lemma keeps_insert_node id kind record ns :
  opt_u32 record -> in_u16 ns -> keeps_typed (insert_node id kind record ns) (fun _ => True).
Proof.
  intros Hr Hns. unfold insert_node. eapply (keeps_bind _ _ _ (fun _ => True)).
  { unfold check_node_record. destruct record; [|by apply keeps_ret].
    eapply keeps_bind; [apply keeps_get|]. intros s _. eapply (keeps_bind _ _ _ (fun _ => True)); [by apply keeps_lift|].
    intros r _. eapply typed_keeps_mono; [|apply keeps_guard]. done. }
  intros _ _. eapply keeps_bind.
  { apply keeps_with_nodes, keeps_np_insert. intros i Hi. unfold node_data_typed, links_typed.
    split_and!; simpl; first [done|apply nil_typed]. }
  intros i Hi. by apply keeps_link_node.
Qed.

Lemma keeps_insert_edge from to kind : in_u32 from -> in_u32 to -> keeps_typed (insert_edge from to kind) (fun _ => True).
Proof.
  intros Hf Ht. unfold insert_edge. eapply keeps_bind; [apply keeps_get|]. intros s _.
  do 2 (eapply (keeps_bind _ _ _ (fun _ => True)); [by apply keeps_lift|]; intros ? _).
  eapply keeps_bind; [apply keeps_guard|]. intros _ _.
  eapply keeps_bind; [by apply keeps_with_graph, keeps_add_edge|]. intros _ _. by apply keeps_ret.
Qed.

Lemma keeps_delete_node id : keeps_typed (arm_delete_node id) (fun _ => True).
Proof.
  unfold arm_delete_node. eapply keeps_bind; [apply keeps_get|]. intros s T.
  eapply (keeps_bind _ _ _ node_data_typed).
  { apply keeps_lift. intros n. destruct (slab_get (ks_nodes s) id) eqn:E; [|done]. intros [= <-]. by eapply (ty_nodes _ T). }
  intros n (_ & _ & _ & _ & _ & Hn & Hp). eapply keeps_bind.
  { apply keeps_node_list. intros hs hs'. by apply unlink_typed; [apply node_set_next|apply node_set_prev| |]. }
  intros _ _. eapply keeps_bind; [apply keeps_get|]. intros s' _. cbn zeta.
  do 2 (eapply (keeps_bind _ _ _ (fun _ => True)); [by apply keeps_lift|]; intros ? _).
  eapply keeps_bind; [apply keeps_with_graph, keeps_delete_edges|]. intros _ _.
  apply keeps_with_nodes, keeps_pool_delete.
Qed.

Lemma keeps_insert_encrypted id key ct t ns :
  array_typed 16 key -> bytes ct -> in_u64 t -> in_u16 ns ->
  keeps_typed (arm_insert_record_encrypted id key ct t ns) (fun _ => True).
Proof.
  intros Hk Hct Ht Hns. unfold arm_insert_record_encrypted, check_ns.
  eapply keeps_bind; [apply keeps_guard|]. intros _ _. eapply keeps_bind; [apply keeps_get|]. intros s T.
  do 2 (eapply keeps_bind; [apply keeps_guard|]; intros _ _).
  eapply (keeps_bind _ _ _ (fun _ => True)); [by apply keeps_lift|]. intros dim _.
  eapply keeps_bind.
  { apply keeps_with_records, keeps_rp_insert; [|by intros b [= <-]|done..]. unfold new_zeros. apply Forall_replicate. int_lia. }
  intros rid Hid. eapply keeps_bind.
  { apply keeps_with_records, keeps_rp_update. intros r. apply record_set_flags. unfold FLAG_ENCRYPTED. int_lia. }
  intros _ _. eapply keeps_bind; [|intros _ _; by apply keeps_link_record].
  apply keeps_modify. intros s' T'. pose proof (ty_keys _ T') as Hkeys. destruct T'. split; try done. simpl.
  apply map_Forall_insert_2; [|done]. split; [done|]. apply Forall_app. split; [|by apply Forall_singleton].
  destruct (ks_keys s' !! key) as [ids|] eqn:E; [|constructor]. by apply (Hkeys key ids).
Qed.

Lemma keeps_ignore_err {A} (m : KM A) Q : keeps_typed m Q -> keeps_typed (ignore_err m) (fun _ => True).
Proof. intros Hm s T. destruct (Hm s T) as [T' _]. unfold ignore_err. by destruct (m s) as [s' []]. Qed.

Lemma keeps_shred_key key : keeps_typed (apply_shred_key key) (fun _ => True).
Proof.
  unfold apply_shred_key. eapply keeps_bind; [apply keeps_get|]. intros s T. cbn zeta. eapply keeps_bind.
  { apply keeps_modify. intros s' []. split; try done. simpl. by apply map_Forall_delete. }
  intros _ _. apply keeps_for. intros rid _. eapply keeps_ignore_err, keeps_with_records, keeps_rp_update.
  intros r Hr. apply record_set_metadata; [done|]. apply record_set_flags; [|done]. unfold FLAG_SHREDDED. int_lia.
Qed.

Lemma keeps_drop_records fuel cursor : keeps_typed (drop_records fuel cursor) (fun _ => True).
Proof.
  revert cursor. induction fuel as [|fuel IH]; intros cursor; cbn [drop_records].
  { case_match; [by apply keeps_ret|by apply keeps_stop]. }
  case_match; [by apply keeps_ret|]. eapply keeps_bind; [apply keeps_get|]. intros s _.
  eapply (keeps_bind _ _ _ (fun _ => True)).
  - case_match; [|by apply keeps_stop]. apply keeps_modify. intros s' []. split; try done. by apply all_slots_clear.
  - intros _ _. eapply keeps_bind; [apply keeps_index_delete|]. intros _ _. apply IH.
Qed.

Lemma keeps_drop_namespace ns : keeps_typed (arm_drop_namespace ns) (fun _ => True).
Proof.
  unfold arm_drop_namespace, check_ns. do 2 (eapply keeps_bind; [apply keeps_guard|]; intros _ _).
  eapply keeps_bind; [apply keeps_get|]. intros s _.
  eapply (keeps_bind _ _ _ (fun _ => True)); [by apply keeps_lift|]. intros cursor _.
  eapply keeps_bind; [apply keeps_drop_records|]. intros _ _. eapply keeps_bind.
  { apply keeps_modify. intros s' []. split; try done. by apply heads_typed_set, nil_typed. }
  intros _ _. eapply keeps_bind; [apply keeps_get|]. intros s1 _.
  do 2 (eapply (keeps_bind _ _ _ (fun _ => True)); [by apply keeps_lift|]; intros ? _).
  eapply keeps_bind.
  { apply keeps_for. intros x _. eapply keeps_bind; [apply keeps_get|]. intros s2 _.
    case_match; [eapply keeps_ignore_err, keeps_delete_node|by apply keeps_ret]. }
  intros _ _. apply keeps_modify. intros s' []. split; try done. by apply heads_typed_set, nil_typed.
Qed.

Lemma keeps_bump : keeps_typed bump_version (fun _ => True).
Proof.
  unfold bump_version. eapply keeps_bind; [apply keeps_get|]. intros s T. eapply (keeps_bind _ _ _ in_u64).
  - apply keeps_lift. intros v. unfold Version_next. case_match eqn:E; [|done]. intros [= <-]. apply Z.ltb_lt in E.
    pose proof (ty_version _ T). int_lia.
  - intros v Hv. apply keeps_modify. by intros s' []; split.
Qed.

Lemma btree_insert_all (P : list Z * list Z -> Prop) k v m :
  P (k, v) -> Forall P m -> Forall P (btree_insert k v m).
Proof.
  intros Hkv. induction 1 as [|[k' v'] m Hx Hm IH]; cbn [btree_insert]; [by repeat constructor|].
  case_match; by repeat constructor.
Qed.

Lemma keeps_next {A} (k : KernelState -> KM A) Q : (forall s, keeps_typed (k s) Q) -> keeps_typed (sbind sget k) Q.
Proof. intros Hk. eapply keeps_bind; [apply keeps_get|]. intros s _. apply Hk. Qed.

Lemma keeps_guarded {A} c e (k : unit -> KM A) Q : keeps_typed (k tt) Q -> keeps_typed (sbind (sguard c e) k) Q.
Proof. intros Hk. eapply keeps_bind; [apply keeps_guard|]. by intros [] _. Qed.

(** Any event, whatever it returns. *)
Lemma apply_event_typed evt ns : event_typed evt -> in_u16 ns -> keeps_typed (apply_event_ns evt ns) (fun _ => True).
Proof.
  intros He Hns. unfold apply_event_ns. eapply keeps_bind; [|intros _ _; apply keeps_bump].
  instantiate (1 := fun _ => True). destruct evt; simpl in He; destruct_and?.
  - apply keeps_guarded, keeps_next. intros s. by apply keeps_guarded, keeps_insert_checked.
  - eapply keeps_bind; [apply keeps_unlink_record|]. intros _ _.
    eapply keeps_bind; [apply keeps_with_records, keeps_rp_delete|]. intros _ _. apply keeps_index_delete.
  - apply keeps_guarded, keeps_next. intros s. by apply keeps_guarded, keeps_insert_node.
  - apply keeps_next. intros s. by apply keeps_guarded, keeps_insert_edge.
  - apply keeps_with_graph, keeps_delete_edge.
  - eapply keeps_bind; [apply keeps_unlink_record|]. intros _ _. eapply keeps_bind; [|intros _ _; apply keeps_index_delete].
    apply keeps_with_records, keeps_rp_update. intros r. apply record_set_flags. unfold FLAG_SOFT_DELETED. int_lia.
  - apply keeps_delete_node.
  - by apply keeps_insert_encrypted.
  - apply keeps_shred_key.
  - by apply keeps_guarded, keeps_insert_checked.
  - apply keeps_next. intros s. by apply keeps_guarded, keeps_insert_node.
  - by apply keeps_insert_edge.
  - apply keeps_next. intros s. by apply keeps_insert_encrypted.
  - apply keeps_with_records, keeps_rp_update. intros r. apply record_set_metadata. by apply bytes_of_meta.
  - apply keeps_modify. intros s []. split; try done. by apply btree_insert_all.
  - eapply typed_keeps_mono; [|apply keeps_guard]. done.
  - apply keeps_drop_namespace.
Qed.

(** ** Histories *)
Lemma state_typed_new : state_typed KernelState_new.
Proof.
  assert (heads_typed (replicate (Z.to_nat MAX_NAMESPACES) NS_LIST_NIL)) as Hh.
  { split; [vm_compute; reflexivity|]. apply Forall_replicate, nil_typed. }
  split; [discriminate|vm_compute; split; discriminate|apply all_slots_nil..|exact I|exact Hh|apply map_Forall_empty
         |exact Hh|constructor].
Qed.

Definition events_typed (evs : list (KernelEvent * Z)) : Prop := Forall (fun e => event_typed e.1 /\ in_u16 e.2) evs.


(** Two records in namespace 2, one of them tombstoned, an encrypted one, and a
    node. *)
Definition typed_events : list (KernelEvent * Z) :=
  [(AutoInsertRecord [65536; -65536] None 5, 2); (AutoInsertRecord [i32_MAX; i32_MIN] (Some [1; 255]) u64_MAX, 2);
   (SoftDeleteRecord 0, 2); (AutoInsertRecordEncrypted 2 (replicate 16 9) [7; 8] 1, 2); (AutoCreateNode NConcept (Some 1), 2)].

