(* ===== verification/Wire.v ===== *)
(** * The event-log wire format

    Models [crates/valori-wire/src/lib.rs]: segment headers, log entries of the
    segment versions 2, 3 and 4, the hash chain and the UTC formatter.  bincode
    (see [EventCodec]), BLAKE3 ([blake3]) and CRC-32 ([crc32]) are parameters.
    A hash ([[u8; 32]]) is the list of its bytes. *)

From S2P Require Import Prelude.
From S2P Require Import Core.
From S2P Require Import Fxp.
From S2P Require Import Bytes.
From S2P Require Import Event.
From S2P Require Import EventCodec.

(** ** Constants *)
Definition VERSION_V2 : Z := 2.
Definition VERSION_V3 : Z := 3.
Definition VERSION_V4 : Z := 4.
Definition HEADER_SIZE_V2 : Z := 16.
Definition HEADER_SIZE_V3 : Z := 48.
Definition CRC32_SUFFIX_LEN : Z := 4.
Definition METADATA_CAP : Z := 65536.
Definition FORMAT_Q16_16 : Z := 1.
Definition WIRE_MAX_DIM : Z := 32768.
Definition GENESIS : list Z := replicate 32 0.

Inductive WireError : Type :=
| TooShort (n : Z)
| UnsupportedVersion (v : Z)
| UnsupportedFormat (f : Z)
| Decode
| Encode
| InvalidDim (d : Z)
| DecodeLimitExceeded
| MetadataTooLarge (n : Z)
| Truncated.

(** ** Entries *)
Inductive AdminEvent : Type :=
| NodeJoined (node_id : Z) (raft_addr api_addr authorized_by : list Z)
| NodeLeft (node_id : Z) (authorized_by : list Z).

Inductive LogEntry : Type :=
| Event (e : KernelEvent)
| Checkpoint (event_count : Z) (snapshot_hash : list Z) (timestamp : Z)
| Admin (a : AdminEvent)
| EventNs (namespace_id : Z) (event : KernelEvent).

Record DecodedEntry : Type := mkEntry {
  prev_hash : list Z;
  wall_time_secs : Z;
  request_id : option (list Z);
  entry : LogEntry;
}.

Record SegmentHeader : Type := mkHeader {
  version : Z;
  dim : Z;
  format_id : Z;
  segment_seq : Z;
  prev_segment_chain_head : list Z;
  header_len : Z;
}.

(** ** Headers *)

(** [bytes[a..b]], within bounds. *)
Definition slice (bs : list Z) (a b : nat) : list Z := take (b - a) (drop a bs).

Definition parse_header (bs : list Z) : outcome WireError SegmentHeader :=
  if len bs <? HEADER_SIZE_V2 then Err (TooShort (len bs))
  else
    let version := le_val (slice bs 0 4) in
    let dim := le_val (slice bs 4 8) in
    if negb ((1 <=? dim) && (dim <=? WIRE_MAX_DIM)) then Err (InvalidDim dim)
    else if version =? VERSION_V2 then
      Ok (mkHeader version dim FORMAT_Q16_16 0 GENESIS HEADER_SIZE_V2)
    else if (version =? VERSION_V3) || (version =? VERSION_V4) then
      if len bs <? HEADER_SIZE_V3 then Err (TooShort (len bs))
      else
        let format_id := le_val (slice bs 8 9) in
        if negb (format_id =? FORMAT_Q16_16) then Err (UnsupportedFormat format_id)
        else
          Ok (mkHeader version dim format_id (le_val (slice bs 12 16)) (slice bs 16 48) HEADER_SIZE_V3)
    else Err (UnsupportedVersion version).

Definition encode_header_v3 (dim format_id segment_seq : Z) (prev_head : list Z) : list Z :=
  le_bytes 4 VERSION_V3 ++ le_bytes 4 dim ++ [format_id] ++ replicate 3 0
  ++ le_bytes 4 segment_seq ++ prev_head.

Definition encode_header_v4 (dim format_id segment_seq : Z) (prev_head : list Z) : list Z :=
  le_bytes 4 VERSION_V4 ++ le_bytes 4 dim ++ [format_id] ++ replicate 3 0
  ++ le_bytes 4 segment_seq ++ prev_head.

Definition encode_header_v2 (dim : Z) : list Z :=
  le_bytes 4 VERSION_V2 ++ le_bytes 4 dim ++ replicate 8 0.

(** ** The write-side metadata cap *)
Definition event_of (entry : LogEntry) : option KernelEvent :=
  match entry with
  | Event e => Some e
  | EventNs _ e => Some e
  | _ => None
  end.

Definition meta_len (event : KernelEvent) : option Z :=
  match event with
  | InsertRecord _ _ m _ | AutoInsertRecord _ m _ | UpdateRecordMetadata _ m => len <$> m
  | InsertRecordEncrypted _ _ _ m _ => len <$> m
  | _ => None
  end.

Definition check_metadata_cap (entry : LogEntry) : outcome WireError unit :=
  match event_of entry with
  | None => Ok tt
  | Some event =>
      match meta_len event with
      | Some n => if METADATA_CAP <? n then Err (MetadataTooLarge n) else Ok tt
      | None => Ok tt
      end
  end.

Definition map_decode_err (e : DecodeError) : WireError :=
  match e with
  | LimitExceeded => DecodeLimitExceeded
  | UnexpectedEnd => Truncated
  | OtherError => Decode
  end.

(** ** Serde of the entries *)
Section Serde.
Context `{Bincode}.

Definition put_AdminEvent (a : AdminEvent) : list Z :=
  match a with
  | NodeJoined node_id raft_addr api_addr authorized_by =>
      put_variant 0 ++ put_u64 node_id ++ put_str raft_addr ++ put_str api_addr ++ put_array authorized_by
  | NodeLeft node_id authorized_by => put_variant 1 ++ put_u64 node_id ++ put_array authorized_by
  end.

Definition get_AdminEvent : R AdminEvent :=
  let* variant := get_variant in
  match variant with
  | 0 =>
      let* node_id := get_u64 in let* raft_addr := get_str in let* api_addr := get_str in
      let* authorized_by := get_array 16 in sret (NodeJoined node_id raft_addr api_addr authorized_by)
  | 1 => let* node_id := get_u64 in let* authorized_by := get_array 16 in sret (NodeLeft node_id authorized_by)
  | _ => sthrow OtherError
  end.

Definition put_LogEntry (e : LogEntry) : list Z :=
  match e with
  | Event e => put_variant 0 ++ put_KernelEvent e
  | Checkpoint event_count snapshot_hash timestamp =>
      put_variant 1 ++ put_u64 event_count ++ put_array snapshot_hash ++ put_u64 timestamp
  | Admin a => put_variant 2 ++ put_AdminEvent a
  | EventNs namespace_id event => put_variant 3 ++ put_u16 namespace_id ++ put_KernelEvent event
  end.

Definition get_LogEntry : R LogEntry :=
  let* variant := get_variant in
  match variant with
  | 0 => let* e := get_KernelEvent in sret (Event e)
  | 1 =>
      let* event_count := get_u64 in let* snapshot_hash := get_array 32 in
      let* timestamp := get_u64 in sret (Checkpoint event_count snapshot_hash timestamp)
  | 2 => let* a := get_AdminEvent in sret (Admin a)
  | 3 => let* namespace_id := get_u16 in let* event := get_KernelEvent in sret (EventNs namespace_id event)
  | _ => sthrow OtherError
  end.

(** [EntryV2]; its normalized view has no request id. *)
Definition put_EntryV2 (e : DecodedEntry) : list Z :=
  put_array (prev_hash e) ++ put_u64 (wall_time_secs e) ++ put_LogEntry (entry e).
Definition get_EntryV2 : R DecodedEntry :=
  let* h := get_array 32 in let* t := get_u64 in let* e := get_LogEntry in sret (mkEntry h t None e).

(** [EntryV3], and [EntryV4] which is the same type. *)
Definition put_EntryV3 (e : DecodedEntry) : list Z :=
  put_array (prev_hash e) ++ put_u64 (wall_time_secs e) ++ put_option put_array (request_id e)
  ++ put_LogEntry (entry e).
Definition get_EntryV3 : R DecodedEntry :=
  let* h := get_array 32 in let* t := get_u64 in let* r := get_option (get_array 16) in
  let* e := get_LogEntry in sret (mkEntry h t r e).
End Serde.

(** ** Entries on disk *)
Section Entries.
Context `{Bincode} (blake3 : list Z -> list Z) (crc32 : list Z -> Z).

Definition decode_with (g : R DecodedEntry) (bs : list Z) : outcome WireError (DecodedEntry * Z) :=
  map_err map_decode_err (decode_from_slice g bs).

Definition decode_entry (version : Z) (bs : list Z) : outcome WireError (DecodedEntry * Z) :=
  if version =? VERSION_V2 then decode_with get_EntryV2 bs
  else if version =? VERSION_V3 then decode_with get_EntryV3 bs
  else if version =? VERSION_V4 then
    do* en := decode_with get_EntryV3 bs in
    let '(e, n) := en in
    if len bs <? n + CRC32_SUFFIX_LEN then Err Truncated
    else
      let stored_crc := le_val (slice bs (Z.to_nat n) (Z.to_nat (n + CRC32_SUFFIX_LEN))) in
      let computed_crc := crc32 (take (Z.to_nat n) bs) in
      if negb (computed_crc =? stored_crc) then Err Decode
      else Ok (e, n + CRC32_SUFFIX_LEN)
  else Err (UnsupportedVersion version).

Definition encode_entry (version : Z) (e : DecodedEntry) : outcome WireError (list Z) :=
  do* _ := check_metadata_cap (entry e) in
  if version =? VERSION_V2 then Ok (put_EntryV2 e)
  else if version =? VERSION_V3 then Ok (put_EntryV3 e)
  else if version =? VERSION_V4 then
    let payload := put_EntryV3 e in Ok (payload ++ le_bytes 4 (crc32 payload))
  else Err (UnsupportedVersion version).

(** ** Hash chain *)
Definition commit_v2 (t : Z) (e : LogEntry) : list Z := put_u64 t ++ put_LogEntry e.
Definition commit_v3 (t : Z) (r : option (list Z)) (e : LogEntry) : list Z :=
  put_u64 t ++ put_option put_array r ++ put_LogEntry e.

Definition chain_advance_v2 (head : list Z) (t : Z) (e : LogEntry) : list Z :=
  blake3 (head ++ commit_v2 t e).
Definition chain_advance_v3 (head : list Z) (t : Z) (r : option (list Z)) (e : LogEntry) : list Z :=
  blake3 (head ++ commit_v3 t r e).

Definition chain_advance (version : Z) (head : list Z) (e : DecodedEntry) : outcome WireError (list Z) :=
  if version =? VERSION_V2 then Ok (chain_advance_v2 head (wall_time_secs e) (entry e))
  else if (version =? VERSION_V3) || (version =? VERSION_V4) then
    Ok (chain_advance_v3 head (wall_time_secs e) (request_id e) (entry e))
  else Err (UnsupportedVersion version).
End Entries.

(** ** UTC formatting *)
Definition is_leap (year : Z) : bool :=
  (year mod 4 =? 0) && (negb (year mod 100 =? 0) || (year mod 400 =? 0)).

Definition days_in_year (year : Z) : Z := if is_leap year then 366 else 365.

Definition DAYS_BEFORE_MONTH : list Z := [0; 31; 59; 90; 120; 151; 181; 212; 243; 273; 304; 334; 365].

(** [DAYS_BEFORE_MONTH[mi] + if leap && guard > 2 { 1 } else { 0 }]. *)
Definition days_before (leap : bool) (mi guard : Z) : Z :=
  default 0 (vec_get DAYS_BEFORE_MONTH mi) + (if leap && (2 <? guard) then 1 else 0).

(** The year loop; every turn takes a year off [days]. *)
Fixpoint year_loop (fuel : nat) (days year : Z) : outcome WireError (Z * Z) :=
  match fuel with
  | O => Hang
  | S fuel =>
      if days <? days_in_year year then Ok (days, year)
      else year_loop fuel (days - days_in_year year) (wrap_u32 (year + 1))
  end.

(** [for mi in 1..=12 { if days < days_before { month = mi; break } }], from 12. *)
Fixpoint month_loop (n : nat) (mi : Z) (leap : bool) (days : Z) : Z :=
  match n with
  | O => 12
  | S n => if days <? days_before leap mi mi then mi else month_loop n (mi + 1) leap days
  end.

(** Year, month, day, hour, minute and second. *)
Definition utc_fields (unix_secs : Z) : outcome WireError (Z * Z * Z * (Z * Z * Z)) :=
  let secs_of_day := unix_secs mod 86400 in
  let days := wrap_u32 (unix_secs / 86400) in
  do* dy := year_loop (S (Z.to_nat (days / 365))) days 1970 in
  let '(days, year) := dy in
  let leap := is_leap year in
  let month := month_loop 12 1 leap days in
  let day := wrap_u32 (wrap_u32 (days - days_before leap (month - 1) month) + 1) in
  Ok (year, month, day, (secs_of_day / 3600, (secs_of_day mod 3600) / 60, secs_of_day mod 60)).

(** [{v:0w}]: decimal digits, padded with zeros to [w]. *)
Fixpoint dec_digits (fuel : nat) (v : Z) : list Z :=
  match fuel with
  | O => []
  | S fuel => (if v <? 10 then [] else dec_digits fuel (v / 10)) ++ [48 + v mod 10]
  end.
Definition dec_padded (w : nat) (v : Z) : list Z :=
  let ds := dec_digits 20 v in replicate (w - length ds) 48 ++ ds.

Definition format_utc (unix_secs : Z) : outcome WireError (list Z) :=
  do* f := utc_fields unix_secs in
  let '(year, month, day, (h, m, s)) := f in
  Ok (dec_padded 4 year ++ [45] ++ dec_padded 2 month ++ [45] ++ dec_padded 2 day ++ [84]
      ++ dec_padded 2 h ++ [58] ++ dec_padded 2 m ++ [58] ++ dec_padded 2 s ++ [90]).

(** [hex]: two lower-case digits per byte. *)
Definition hex (bs : list Z) : list Z := concat (hex_fixed 2 <$> bs).
