(* ===== verification/WireTheorems.v ===== *)
(** * Correctness of the wire format

    Entries and headers survive a round trip, a cut entry is recognized as
    truncated, the hash chain binds the history, and what [format_utc]
    prints. *)

From S2P Require Import Prelude.
From S2P Require Import Core.
From S2P Require Import Fxp.
From S2P Require Import Event.
From S2P Require Import Bytes.
From S2P Require Import StateProof.
From S2P Require Import EventCodec.
From S2P Require Import Wire.

(** ** Values the format can carry *)
Abbreviation hash_typed := (array_typed 32).
Abbreviation id_typed := (array_typed 16).

Definition admin_typed (a : AdminEvent) : Prop :=
  match a with
  | NodeJoined n ra aa by_ => in_u64 n /\ string_ok ra /\ string_ok aa /\ id_typed by_
  | NodeLeft n by_ => in_u64 n /\ id_typed by_
  end.

Definition log_typed (e : LogEntry) : Prop :=
  match e with
  | Event e => event_typed e
  | Checkpoint c h t => in_u64 c /\ hash_typed h /\ in_u64 t
  | Admin a => admin_typed a
  | EventNs ns e => in_u16 ns /\ event_typed e
  end.

Definition entry_typed (e : DecodedEntry) : Prop :=
  hash_typed (prev_hash e) /\ in_u64 (wall_time_secs e)
  /\ (forall r, request_id e = Some r -> id_typed r) /\ log_typed (entry e).

Definition wire_version (v : Z) : Prop := v = VERSION_V2 \/ v = VERSION_V3 \/ v = VERSION_V4.

Section Codecs.
Context `{BincodeLaws}.

#[local] Hint Resolve KernelEvent_ok : codec.

Lemma AdminEvent_ok a : admin_typed a -> decodes get_AdminEvent (put_AdminEvent a) a.
Proof.
  intros Ha. unfold get_AdminEvent. destruct a; simpl in *; destruct_and?;
    (eapply decodes_bind; [apply variant_ok; int_lia|]); cbv beta iota; fields.
Qed.

#[local] Hint Resolve AdminEvent_ok : codec.

Lemma LogEntry_ok e : log_typed e -> decodes get_LogEntry (put_LogEntry e) e.
Proof.
  intros He. unfold get_LogEntry. destruct e; cbn [log_typed] in He; unfold put_LogEntry; destruct_and?;
    (eapply decodes_bind; [apply variant_ok; int_lia|]); cbv beta iota; fields.
Qed.

#[local] Hint Resolve LogEntry_ok : codec.

Lemma EntryV2_ok e : entry_typed e -> request_id e = None -> decodes get_EntryV2 (put_EntryV2 e) e.
Proof.
  destruct e as [h t r e]. intros (Hh & Ht & _ & He) Hr. simpl in *. subst r.
  unfold get_EntryV2, put_EntryV2. simpl. fields.
Qed.

Lemma EntryV3_ok e : entry_typed e -> decodes get_EntryV3 (put_EntryV3 e) e.
Proof.
  destruct e as [h t r e]. intros (Hh & Ht & Hr & He). simpl in *.
  unfold get_EntryV3, put_EntryV3. simpl. fields.
Qed.

Lemma option_id_ok r :
  (forall i, r = Some i -> id_typed i) -> decodes (get_option (get_array 16)) (put_option put_array r) r.
Proof. intros. apply option_ok. intros. by apply array_typed_ok, H1. Qed.
End Codecs.

(** ** Round trip of one entry *)
Section RoundTrip.
Context `{BincodeLaws} (crc32 : list Z -> Z) (crc32_u32 : forall m, in_u32 (crc32 m)).

Definition payload (v : Z) (e : DecodedEntry) : list Z :=
  if v =? VERSION_V2 then put_EntryV2 e else put_EntryV3 e.

Definition suffix (v : Z) (e : DecodedEntry) : list Z :=
  if v =? VERSION_V4 then le_bytes 4 (crc32 (payload v e)) else [].

Definition on_disk (v : Z) (e : DecodedEntry) : list Z := payload v e ++ suffix v e.

(** The entries a segment of version [v] can hold. *)
Definition storable (v : Z) (e : DecodedEntry) : Prop :=
  wire_version v /\ entry_typed e /\ (v = VERSION_V2 -> request_id e = None)
  /\ check_metadata_cap (entry e) = Ok tt /\ admits (payload v e) = true.

Definition getter (v : Z) : R DecodedEntry := if v =? VERSION_V2 then get_EntryV2 else get_EntryV3.

Lemma payload_decodes v e : storable v e -> decodes (getter v) (payload v e) e.
Proof.
  intros (Hv & He & Hr & _). unfold getter, payload. destruct (Z.eqb_spec v VERSION_V2).
  - apply EntryV2_ok; auto.
  - by apply EntryV3_ok.
Qed.

Lemma encode_entry_on_disk v e : storable v e -> encode_entry crc32 v e = Ok (on_disk v e).
Proof.
  intros (Hv & He & Hr & Hc & Ha). unfold encode_entry, on_disk, payload, suffix, payload. rewrite Hc.
  destruct Hv as [-> | [-> | ->]]; simpl; by rewrite ?app_nil_r.
Qed.

Lemma decode_entry_versions v bs : wire_version v ->
  decode_entry crc32 v bs =
  (do* en := decode_with (getter v) bs in
   if v =? VERSION_V4 then
     let '(e, n) := en in
     if len bs <? n + CRC32_SUFFIX_LEN then Err Truncated
     else
       if negb (crc32 (take (Z.to_nat n) bs)
                =? le_val (slice bs (Z.to_nat n) (Z.to_nat (n + CRC32_SUFFIX_LEN)))) then Err Decode
       else Ok (e, n + CRC32_SUFFIX_LEN)
   else Ok en).
Proof.
  intros [-> | [-> | ->]]; unfold decode_entry, getter; simpl; try done;
    by destruct (decode_with _ bs) as [[]| | |].
Qed.

Lemma decode_entry_on_disk v e rest :
  storable v e -> decode_entry crc32 v (on_disk v e ++ rest) = Ok (e, len (on_disk v e)).
Proof.
  intros Hs. pose proof Hs as (Hv & He & Hr & Hc & Ha). rewrite decode_entry_versions by done.
  unfold decode_with, on_disk. rewrite <- app_assoc.
  rewrite (slice_ok _ _ _ _ (payload_decodes v e Hs) Ha). cbn [map_err obind].
  unfold suffix. destruct (Z.eqb_spec v VERSION_V4) as [-> | Hn4].
  - set (p := payload VERSION_V4 e). rewrite !len_app. pose proof (len_nonneg rest).
    assert (len (le_bytes 4 (crc32 p)) = 4) as Hl4 by (unfold len; by rewrite length_le_bytes).
    rewrite Hl4, (proj2 (Z.ltb_ge _ _)) by (unfold CRC32_SUFFIX_LEN; lia).
    assert (slice (p ++ le_bytes 4 (crc32 p) ++ rest) (Z.to_nat (len p)) (Z.to_nat (len p + CRC32_SUFFIX_LEN))
            = le_bytes 4 (crc32 p)) as ->.
    { unfold slice, len, CRC32_SUFFIX_LEN. rewrite Nat2Z.id, drop_app_length.
      replace (_ - _)%nat with (length (le_bytes 4 (crc32 p))) by (rewrite length_le_bytes; lia).
      by rewrite take_app_length. }
    assert (take (Z.to_nat (len p)) (p ++ le_bytes 4 (crc32 p) ++ rest) = p) as ->.
    { unfold len. by rewrite Nat2Z.id, take_app_length. }
    pose proof (crc32_u32 p). rewrite le_val_small, Z.eqb_refl by int_lia. simpl. done.
  - by rewrite app_nil_r.
Qed.

Lemma decode_entry_cut v e n :
  storable v e -> (n < length (on_disk v e))%nat ->
  decode_entry crc32 v (take n (on_disk v e)) = Err Truncated.
Proof.
  intros Hs Hn. pose proof Hs as (Hv & He & Hr & Hc & Ha). rewrite decode_entry_versions by done.
  unfold decode_with, on_disk in *. destruct (decide (n < length (payload v e))%nat) as [Hlt | Hge].
  - rewrite take_app_le by lia. by rewrite (slice_cut _ _ _ _ (payload_decodes v e Hs) Ha Hlt).
  - rewrite take_app_ge by lia. rewrite (slice_ok _ _ _ _ (payload_decodes v e Hs) Ha). cbn [map_err obind].
    unfold suffix in *. destruct (Z.eqb_spec v VERSION_V4) as [-> | Hn4].
    + rewrite (proj2 (Z.ltb_lt _ _)); [done|]. rewrite len_app, length_app, length_le_bytes in *.
      unfold len, CRC32_SUFFIX_LEN. rewrite length_take, length_le_bytes. lia.
    + rewrite app_nil_r in Hn. lia.
Qed.

Lemma on_disk_nonempty v e : storable v e -> on_disk v e <> [].
Proof.
  intros (Hv & (Hh & _) & _) E1. unfold on_disk, payload, put_EntryV2, put_EntryV3, put_array in E1.
  destruct Hh as [_ Hl]. destruct (prev_hash e) as [|b l]; [done|]. pose proof (u8_nonempty b).
  destruct (v =? VERSION_V2); cbn [fmap list_fmap concat] in E1; by destruct (put_u8 b).
Qed.
End RoundTrip.

(** ** Headers *)
Lemma parse_header_spliced v dim seq head rest :
  v = VERSION_V3 \/ v = VERSION_V4 -> 1 <= dim <= WIRE_MAX_DIM -> in_u32 seq -> length head = 32%nat ->
  parse_header (le_bytes 4 v ++ le_bytes 4 dim ++ [FORMAT_Q16_16] ++ replicate 3 0 ++ le_bytes 4 seq
                ++ head ++ rest)
  = Ok (mkHeader v dim FORMAT_Q16_16 seq head HEADER_SIZE_V3).
Proof.
  intros Hv Hd Hs Hh. unfold parse_header. set (bs := le_bytes 4 v ++ _).
  assert (len bs = 48 + len rest) as Hlen.
  { unfold bs. rewrite !len_app. unfold len. rewrite !length_le_bytes, Hh. simpl. lia. }
  pose proof (len_nonneg rest). rewrite Hlen.
  rewrite !(proj2 (Z.ltb_ge _ _)) by (unfold HEADER_SIZE_V2, HEADER_SIZE_V3; lia).
  change (slice bs 0 4) with (le_bytes 4 v). change (slice bs 4 8) with (le_bytes 4 dim).
  change (le_val (slice bs 8 9)) with FORMAT_Q16_16. change (slice bs 12 16) with (le_bytes 4 seq).
  change (slice bs 16 48) with (take 32 (head ++ rest)). rewrite <- Hh, take_app_length.
  unfold WIRE_MAX_DIM in *. rewrite (le_val_small 4 v), (le_val_small 4 dim), (le_val_small 4 seq)
    by (destruct Hv; subst; unfold VERSION_V3, VERSION_V4; int_lia).
  rewrite (proj2 (Z.leb_le _ _)), (proj2 (Z.leb_le _ _)) by lia. by destruct Hv; subst.
Qed.

Lemma parse_header_v4 dim seq head rest :
  1 <= dim <= WIRE_MAX_DIM -> in_u32 seq -> length head = 32%nat ->
  parse_header (encode_header_v4 dim FORMAT_Q16_16 seq head ++ rest)
  = Ok (mkHeader VERSION_V4 dim FORMAT_Q16_16 seq head HEADER_SIZE_V3).
Proof.
  intros. rewrite <- (parse_header_spliced VERSION_V4 dim seq head rest) by auto.
  unfold encode_header_v4. by rewrite <- !app_assoc.
Qed.

Lemma parse_header_v3 dim seq head rest :
  1 <= dim <= WIRE_MAX_DIM -> in_u32 seq -> length head = 32%nat ->
  parse_header (encode_header_v3 dim FORMAT_Q16_16 seq head ++ rest)
  = Ok (mkHeader VERSION_V3 dim FORMAT_Q16_16 seq head HEADER_SIZE_V3).
Proof.
  intros. rewrite <- (parse_header_spliced VERSION_V3 dim seq head rest) by auto.
  unfold encode_header_v3. by rewrite <- !app_assoc.
Qed.

Lemma parse_header_v2 dim rest :
  1 <= dim <= WIRE_MAX_DIM ->
  parse_header (encode_header_v2 dim ++ rest) = Ok (mkHeader VERSION_V2 dim FORMAT_Q16_16 0 GENESIS HEADER_SIZE_V2).
Proof.
  intros Hd. unfold parse_header, encode_header_v2. rewrite <- !app_assoc. set (bs := le_bytes 4 _ ++ _).
  assert (len bs = 16 + len rest) as Hlen.
  { unfold bs. rewrite !len_app. unfold len. rewrite !length_le_bytes. simpl. lia. }
  pose proof (len_nonneg rest). rewrite Hlen, (proj2 (Z.ltb_ge _ _)) by (unfold HEADER_SIZE_V2; lia).
  change (slice bs 0 4) with (le_bytes 4 VERSION_V2). change (slice bs 4 8) with (le_bytes 4 dim).
  unfold WIRE_MAX_DIM in *. rewrite (le_val_small 4 VERSION_V2), (le_val_small 4 dim) by (unfold VERSION_V2; int_lia).
  by rewrite (proj2 (Z.leb_le _ _)), (proj2 (Z.leb_le _ _)) by lia.
Qed.

(** ** The hash chain *)
Section Chain.
Context `{BincodeLaws} (blake3 : list Z -> list Z) (blake3_len : forall m, length (blake3 m) = 32%nat).

(** What an entry commits to the chain. *)
Definition content (v : Z) (e : DecodedEntry) : Z * option (list Z) * LogEntry :=
  (wall_time_secs e, if v =? VERSION_V2 then None else request_id e, entry e).

Definition commit (v : Z) (e : DecodedEntry) : list Z :=
  if v =? VERSION_V2 then commit_v2 (wall_time_secs e) (entry e)
  else commit_v3 (wall_time_secs e) (request_id e) (entry e).

Definition advance (v : Z) (head : list Z) (e : DecodedEntry) : list Z := blake3 (head ++ commit v e).

Lemma chain_advance_ok v head e : wire_version v -> chain_advance blake3 v head e = Ok (advance v head e).
Proof. by intros [-> | [-> | ->]]. Qed.

Lemma commit_inj v e1 e2 : entry_typed e1 -> entry_typed e2 -> commit v e1 = commit v e2 -> content v e1 = content v e2.
Proof.
  intros (_ & Ht1 & Hr1 & He1) (_ & Ht2 & Hr2 & He2) E1.
  apply (f_equal (fun l => l ++ [])) in E1. unfold commit, content in *. destruct (v =? VERSION_V2).
  - eapply (decodes_inj (let* t := get_u64 in let* e := get_LogEntry in sret (t, @None (list Z), e)))
      in E1 as [-> _]; [done| |]; unfold commit_v2; fields; by apply LogEntry_ok.
  - eapply (decodes_inj (let* t := get_u64 in let* r := get_option (get_array 16) in
                         let* e := get_LogEntry in sret (t, r, e)))
      in E1 as [-> _]; [done| |]; unfold commit_v3; repeat field; auto using u64_ok, LogEntry_ok, array_typed_ok.
Qed.

(** The messages hashed along a chain that starts at [head]. *)
Fixpoint chain_messages (v : Z) (head : list Z) (es : list DecodedEntry) : list (list Z) :=
  match es with
  | [] => []
  | e :: es => (head ++ commit v e) :: chain_messages v (advance v head e) es
  end.

(** The head of the chain binds all that went into it. *)
Lemma chain_binds v h1 h2 es1 es2 :
  length h1 = 32%nat -> length h2 = 32%nat -> length es1 = length es2 ->
  Forall entry_typed es1 -> Forall entry_typed es2 ->
  foldl (advance v) h1 es1 = foldl (advance v) h2 es2 ->
  h1 = h2 /\ (content v <$> es1) = (content v <$> es2)
  \/ collision blake3 (chain_messages v h1 es1 ++ chain_messages v h2 es2).
Proof.
  revert h1 h2 es2. induction es1 as [|e1 es1 IH]; intros h1 h2 [|e2 es2] L1 L2 Hl T1 T2 E1; try done.
  { by left. }
  inversion T1 as [|? ? Te1 Tes1]; inversion T2 as [|? ? Te2 Tes2]; subst.
  destruct (IH (advance v h1 e1) (advance v h2 e2) es2) as [[E2 E3] | Hc]; auto; try apply blake3_len.
  2: { right. eapply collision_incl, Hc. cbn [chain_messages]. set_solver. }
  unfold advance in E2. destruct (decide (h1 ++ commit v e1 = h2 ++ commit v e2)) as [E4 | Hne].
  - apply app_inj_1 in E4 as [-> E4]; [|congruence]. left. split; [done|].
    rewrite !fmap_cons, E3. f_equal. by apply commit_inj.
  - right. exists (h1 ++ commit v e1), (h2 ++ commit v e2). cbn [chain_messages]. split_and!; [set_solver..|done|done].
Qed.
End Chain.

(** ** Theorems about the wire format

    The claims on log entries, the empty-metadata case of the event serde and
    the UTC formatter. *)

(** ** Entries *)

(** For each of the three format versions and every entry within the caps,
    encode_entry succeeds; decoding its bytes followed by anything returns the
    entry and the number of bytes consumed; and decoding any strict prefix of them
    reports Truncated, the error the recovery scan takes as a torn tail. *)
Theorem wire_entry_roundtrip `{BincodeLaws} (crc32 : list Z -> Z) (v : Z) (e : DecodedEntry) :
  (forall m, in_u32 (crc32 m)) -> storable v e ->
  exists bs,
    encode_entry crc32 v e = Ok bs
    /\ (forall rest, decode_entry crc32 v (bs ++ rest) = Ok (e, len bs))
    /\ (forall n, (n < length bs)%nat -> decode_entry crc32 v (take n bs) = Err Truncated).
Proof.
  intros Hcrc Hs. exists (on_disk crc32 v e).
  split_and!; intros; [by apply encode_entry_on_disk|by apply decode_entry_on_disk|by apply decode_entry_cut].
Qed.

#[local] Existing Instance FixedInt.bincode.
#[local] Existing Instance FixedInt.laws.

(** A checksum for concrete runs: the sum of the bytes. *)
Definition toy_crc (m : list Z) : Z := foldr Z.add 0 m mod 4294967296.

Lemma toy_crc_u32 m : in_u32 (toy_crc m).
Proof. pose proof (Z.mod_pos_bound (foldr Z.add 0 m) 4294967296). unfold toy_crc. int_lia. Qed.

Definition demo_entry : DecodedEntry :=
  mkEntry GENESIS 1700000000 (Some (replicate 16 7))
    (EventNs 3 (InsertRecord 0 [65536; -65536] (Some [1; 2]) 9)).

Lemma demo_entry_storable : storable VERSION_V4 demo_entry.
Proof.
  unfold storable, wire_version, entry_typed, array_typed. simpl.
  split_and!; try done; try (by right; right); try int_lia; try (by repeat constructor; int_lia).
  intros r [= <-]. split; [|done]. by repeat constructor.
Qed.

Lemma wire_entry_roundtrip_witness :
  exists bs, encode_entry toy_crc VERSION_V4 demo_entry = Ok bs
    /\ (forall rest, decode_entry toy_crc VERSION_V4 (bs ++ rest) = Ok (demo_entry, len bs))
    /\ (forall n, (n < length bs)%nat -> decode_entry toy_crc VERSION_V4 (take n bs) = Err Truncated).
Proof. apply wire_entry_roundtrip; [exact toy_crc_u32|exact demo_entry_storable]. Defined.

(** ** The empty metadata blob *)

(** Reading back an UpdateRecordMetadata event with an empty metadata blob
    yields absent metadata and leaves the length prefix of the blob unread, so
    whatever follows it in the stream is read from the wrong offset. *)
Theorem empty_metadata_desyncs `{BincodeLaws} (id : Z) (rest : list Z) :
  in_u32 id ->
  get_KernelEvent (put_KernelEvent (UpdateRecordMetadata id (Some [])) ++ rest)
  = (put_bytes [] ++ rest, Ok (UpdateRecordMetadata id None)).
Proof.
  intros Hid. simpl. rewrite <- !app_assoc. unfold get_KernelEvent, sbind.
  rewrite (proj1 (variant_ok 16 ltac:(int_lia))). cbn [get_helper]. unfold sbind.
  rewrite (proj1 (u32_ok id Hid)). unfold get_metadata, sbind.
  change (wrap_u32 (len [])) with 0. by rewrite (proj1 (u32_ok 0 ltac:(int_lia))).
Qed.

Lemma empty_metadata_desyncs_witness :
  get_KernelEvent (put_KernelEvent (UpdateRecordMetadata 5 (Some [])) ++ [])
  = (put_bytes [] ++ [], Ok (UpdateRecordMetadata 5 None)).
Proof. apply empty_metadata_desyncs. int_lia. Defined.

(** ** Dates *)

(** The days of [k] years from [y]. *)
Fixpoint span (y : Z) (k : nat) : Z :=
  match k with
  | O => 0
  | S k => days_in_year y + span (y + 1) k
  end.

Lemma days_in_year_bounds y : 365 <= days_in_year y <= 366.
Proof. unfold days_in_year. destruct (is_leap y); lia. Qed.

Lemma year_loop_spec fuel days y :
  0 <= days -> 0 <= y -> days / 365 < Z.of_nat fuel -> y + Z.of_nat fuel <= u32_MAX ->
  exists k d, year_loop fuel days y = Ok (d, y + Z.of_nat k)
    /\ days = span y k + d /\ 0 <= d < days_in_year (y + Z.of_nat k).
Proof.
  revert days y. induction fuel as [|fuel IH]; intros days y Hd Hy Hf Hm.
  { pose proof (Z.div_pos days 365). lia. }
  cbn [year_loop]. pose proof (days_in_year_bounds y) as Hb.
  destruct (Z.ltb_spec days (days_in_year y)) as [Hlt | Hge].
  - exists 0%nat, days. cbn [span]. rewrite Z.add_0_r. split_and!; [done|lia|lia|lia].
  - assert (wrap_u32 (y + 1) = y + 1) as -> by (unfold wrap_u32; rewrite Z.mod_small; int_lia).
    destruct (IH (days - days_in_year y) (y + 1)) as (k & d & -> & E1 & Hd'); [lia|lia| |lia|].
    { assert ((days - days_in_year y) / 365 <= (days - 365) / 365) by (apply Z.div_le_mono; lia).
      replace (days - 365) with (days + -1 * 365) in * by lia. rewrite Z.div_add in * by lia. lia. }
    exists (S k), d. replace (y + Z.of_nat (S k)) with (y + 1 + Z.of_nat k) by lia.
    cbn [span]. split_and!; [done|lia|lia|lia].
Qed.

Definition month_len (leap : bool) (m : Z) : Z :=
  match m with
  | 2 => if leap then 29 else 28
  | 4 | 6 | 9 | 11 => 30
  | _ => 31
  end.

(** Days of the year before the first of month [m]. *)
Definition month_start (leap : bool) (m : Z) : Z :=
  foldr Z.add 0 ((fun k => month_len leap (Z.of_nat k)) <$> seq 1 (Z.to_nat (m - 1))).

(** The formatter's month and day of a day of the year. *)
Definition month_day (leap : bool) (doy : Z) : Z * Z :=
  let month := month_loop 12 1 leap doy in
  (month, wrap_u32 (wrap_u32 (doy - days_before leap (month - 1) month) + 1)).

(** The civil date of a day of the year, except that 29 February is [03-00]. *)
Definition doy_ok (leap : bool) (doy : Z) : bool :=
  let '(m, d) := month_day leap doy in
  if leap && (doy =? 59) then (m =? 3) && (d =? 0)
  else (1 <=? m) && (m <=? 12) && (1 <=? d) && (d <=? month_len leap m)
       && (doy =? month_start leap m + d - 1).

Lemma doy_all_ok (leap : bool) doy : 0 <= doy < (if leap then 366 else 365) -> doy_ok leap doy = true.
Proof.
  intros Hd. assert (forallb (fun k => doy_ok leap (Z.of_nat k)) (seq 0 (if leap then 366 else 365)) = true) as Hall
    by (destruct leap; vm_compute; reflexivity).
  rewrite forallb_forall in Hall. rewrite <- (Z2Nat.id doy) by lia. apply Hall, in_seq.
  destruct leap; lia.
Qed.

(** Hours, minutes and seconds of a timestamp. *)
Lemma clock_fields t : 0 <= t ->
  let r := t mod 86400 in
  t = t / 86400 * 86400 + r / 3600 * 3600 + (r mod 3600) / 60 * 60 + r mod 60
  /\ 0 <= r / 3600 < 24 /\ 0 <= (r mod 3600) / 60 < 60 /\ 0 <= r mod 60 < 60.
Proof.
  intros Ht r. pose proof (Z.mod_pos_bound t 86400 ltac:(lia)) as Hr. fold r in Hr.
  pose proof (Z.div_mod t 86400 ltac:(lia)) as E1. fold r in E1.
  pose proof (Z.div_mod r 3600 ltac:(lia)). pose proof (Z.div_mod (r mod 3600) 60 ltac:(lia)).
  pose proof (Z.mod_pos_bound r 3600 ltac:(lia)).
  assert (r mod 60 = (r mod 3600) mod 60) as ->
    by (rewrite (Z.div_mod r 3600) at 1 by lia; replace (3600 * (r / 3600) + r mod 3600) with (r mod 3600 + (r / 3600 * 60) * 60) by lia; apply Z.mod_add; lia).
  pose proof (Z.mod_pos_bound (r mod 3600) 60 ltac:(lia)). lia.
Qed.

(** For every timestamp of up to 2^32 days, the loops of format_utc terminate
    without panic and the fields are the civil UTC date and time of the timestamp,
    except on 29 February of a leap year, which it writes as day 0 of March. *)
Theorem format_utc_civil_date (t : Z) :
  0 <= t -> t / 86400 <= u32_MAX ->
  exists k doy m d h mi s,
    utc_fields t = Ok (1970 + Z.of_nat k, m, d, (h, mi, s))
    /\ t = (span 1970 k + doy) * 86400 + h * 3600 + mi * 60 + s
    /\ 0 <= h < 24 /\ 0 <= mi < 60 /\ 0 <= s < 60
    /\ let leap := is_leap (1970 + Z.of_nat k) in
       if leap && (doy =? 59) then m = 3 /\ d = 0
       else 1 <= m <= 12 /\ 1 <= d <= month_len leap m /\ doy = month_start leap m + d - 1.
Proof.
  intros Ht Hd. unfold utc_fields. pose proof (Z.div_pos t 86400 Ht ltac:(lia)).
  assert (wrap_u32 (t / 86400) = t / 86400) as -> by (unfold wrap_u32; rewrite Z.mod_small; int_lia).
  destruct (year_loop_spec (S (Z.to_nat (t / 86400 / 365))) (t / 86400) 1970) as (k & doy & -> & E1 & Hb);
    [lia|lia|pose proof (Z.div_pos (t / 86400) 365); lia| |].
  { assert (t / 86400 / 365 <= u32_MAX / 365) by (apply Z.div_le_mono; lia).
    change (u32_MAX / 365) with 11767033 in *. int_lia. }
  cbn [obind]. pose proof (doy_all_ok (is_leap (1970 + Z.of_nat k)) doy Hb) as Hok.
  unfold doy_ok, month_day in Hok. cbv beta zeta iota in Hok. exists k, doy. do 5 eexists. split; [reflexivity|].
  destruct (clock_fields t Ht) as (? & ? & ? & ?). split_and!; try lia.
  cbv zeta. destruct (is_leap _ && (doy =? 59)); bool_prop; lia.
Qed.

Lemma format_utc_civil_date_witness :
  exists k doy m d h mi s,
    utc_fields 1709164800 = Ok (1970 + Z.of_nat k, m, d, (h, mi, s))
    /\ 1709164800 = (span 1970 k + doy) * 86400 + h * 3600 + mi * 60 + s
    /\ 0 <= h < 24 /\ 0 <= mi < 60 /\ 0 <= s < 60
    /\ let leap := is_leap (1970 + Z.of_nat k) in
       if leap && (doy =? 59) then m = 3 /\ d = 0
       else 1 <= m <= 12 /\ 1 <= d <= month_len leap m /\ doy = month_start leap m + d - 1.
Proof. apply format_utc_civil_date; [lia|]. vm_compute. discriminate. Defined.
