(* ===== verification/EventLog.v ===== *)
(** * The event log writer

    Models [crates/valori-storage/src/events/event_log.rs] on the directory
    that holds the log: [Fs] maps file names to contents.  [BufWriter] keeps the
    bytes it has not handed to the file ([lw_buf]); a crash loses them.  I/O on
    existing files succeeds; opening a missing one fails.  The clock is an
    argument ([now]) of the operations that read it. *)

From stdpp Require Import gmap.
From S2P Require Import Prelude.
From S2P Require Import Core.
From S2P Require Import Fxp.
From S2P Require Import Bytes.
From S2P Require Import Event.
From S2P Require Import EventCodec.
From S2P Require Import Wire.

Abbreviation name := (list Z).
Abbreviation Fs := (gmap (list Z) (list Z)).

Definition wrap_u64 (z : Z) : Z := z mod 18446744073709551616.

Inductive EventLogError : Type :=
| LogIo
| InvalidHeader
| LogDimensionMismatch (expected found : Z)
| LogWire (e : WireError)
| LogChainBroken (offset : Z).

Inductive SegmentWalkError : Type :=
| WalkChainBroken (offset : Z)
| WalkWire (offset : Z) (source : WireError).

Record EventLogWriter : Type := mkWriter {
  lw_path : name;
  lw_file : name;         (** the file the handle refers to *)
  lw_buf : list Z;        (** [BufWriter]'s buffer *)
  lw_event_count : Z;
  lw_dim : Z;
  lw_version : Z;
  lw_segment_seq : Z;
  lw_chain_head : list Z;
  lw_bytes_written : Z;
}.

(** The directory and the writer. *)
Record Log : Type := mkLog { lg_fs : Fs; lg_writer : EventLogWriter }.

Definition lw_set_file (f : name) (w : EventLogWriter) : EventLogWriter :=
  mkWriter (lw_path w) f (lw_buf w) (lw_event_count w) (lw_dim w) (lw_version w) (lw_segment_seq w)
    (lw_chain_head w) (lw_bytes_written w).
Definition lw_set_buf (b : list Z) (w : EventLogWriter) : EventLogWriter :=
  mkWriter (lw_path w) (lw_file w) b (lw_event_count w) (lw_dim w) (lw_version w) (lw_segment_seq w)
    (lw_chain_head w) (lw_bytes_written w).
Definition lw_set_count (c : Z) (w : EventLogWriter) : EventLogWriter :=
  mkWriter (lw_path w) (lw_file w) (lw_buf w) c (lw_dim w) (lw_version w) (lw_segment_seq w)
    (lw_chain_head w) (lw_bytes_written w).
Definition lw_set_segment (v seq : Z) (w : EventLogWriter) : EventLogWriter :=
  mkWriter (lw_path w) (lw_file w) (lw_buf w) (lw_event_count w) (lw_dim w) v seq
    (lw_chain_head w) (lw_bytes_written w).
Definition lw_set_head (h : list Z) (w : EventLogWriter) : EventLogWriter :=
  mkWriter (lw_path w) (lw_file w) (lw_buf w) (lw_event_count w) (lw_dim w) (lw_version w)
    (lw_segment_seq w) h (lw_bytes_written w).
Definition lw_set_bytes (n : Z) (w : EventLogWriter) : EventLogWriter :=
  mkWriter (lw_path w) (lw_file w) (lw_buf w) (lw_event_count w) (lw_dim w) (lw_version w)
    (lw_segment_seq w) (lw_chain_head w) n.

Abbreviation LM A := (M EventLogError Log A).

(** ** Files *)
Definition fs_append (f : name) (data : list Z) (fs : Fs) : Fs :=
  <[f := default [] (fs !! f) ++ data]> fs.

Definition on_writer (f : EventLogWriter -> EventLogWriter) : LM unit :=
  smodify (fun l => mkLog (lg_fs l) (f (lg_writer l))).
Definition on_fs (f : Fs -> Fs) : LM unit := smodify (fun l => mkLog (f (lg_fs l)) (lg_writer l)).

(** ** [BufWriter] *)
Definition DEFAULT_BUF_SIZE : Z := 8192.

Definition bw_flush : LM unit :=
  smodify (fun l =>
    let w := lg_writer l in
    mkLog (fs_append (lw_file w) (lw_buf w) (lg_fs l)) (lw_set_buf [] w)).

Definition bw_write_all (data : list Z) : LM unit :=
  let* l := sget in
  let spare := DEFAULT_BUF_SIZE - len (lw_buf (lg_writer l)) in
  if len data <? spare then on_writer (fun w => lw_set_buf (lw_buf w ++ data) w)
  else
    (if spare <? len data then bw_flush else sret tt) ;;;
    if DEFAULT_BUF_SIZE <=? len data then
      smodify (fun l => mkLog (fs_append (lw_file (lg_writer l)) data (lg_fs l)) (lg_writer l))
    else on_writer (fun w => lw_set_buf (lw_buf w ++ data) w).

Section EventLog.
Context `{Bincode} (blake3 : list Z -> list Z) (crc32 : list Z -> Z).

(** ** Reading a segment

    [bs] is what is left of the buffer at [offset]; [fuel] bounds the turns. *)
Fixpoint walk_loop (fuel : nat) (version : Z) (bs : list Z) (offset : Z) (chain_head : list Z)
    (entries : list DecodedEntry) : outcome SegmentWalkError (list DecodedEntry * list Z) :=
  match bs with
  | [] => Ok (entries, chain_head)
  | _ =>
      match fuel with
      | O => Hang
      | S fuel =>
          match decode_entry crc32 version bs with
          | Ok (decoded, bytes_read) =>
              if negb (bool_decide (prev_hash decoded = chain_head)) then Err (WalkChainBroken offset)
              else
                do* head := map_err (WalkWire offset) (chain_advance blake3 version chain_head decoded) in
                walk_loop fuel version (drop (Z.to_nat bytes_read) bs) (offset + bytes_read) head
                  (entries ++ [decoded])
          | Err Truncated => Ok (entries, chain_head)
          | Err source => Err (WalkWire offset source)
          | Panic => Panic
          | Hang => Hang
          end
      end
  end.

Definition walk_segment_body (version : Z) (buf : list Z) (start_offset : Z) (initial_chain_head : list Z)
  : outcome SegmentWalkError (list DecodedEntry * list Z) :=
  walk_loop (S (length buf)) version (drop (Z.to_nat start_offset) buf) start_offset initial_chain_head [].

Definition of_walk_error (e : SegmentWalkError) : EventLogError :=
  match e with
  | WalkChainBroken offset => LogChainBroken offset
  | WalkWire _ source => LogWire source
  end.

(** The event count after the entries of a segment. *)
Definition count_entry (event_count : Z) (d : DecodedEntry) : Z :=
  match entry d with
  | Event _ => wrap_u64 (event_count + 1)
  | EventNs _ _ => wrap_u64 (event_count + 1)
  | Checkpoint c _ _ => c
  | Admin _ => event_count
  end.

(** ** [EventLogWriter::open] *)
Definition open_existing (path : name) (expected_dim : option Z) (buf : list Z)
  : outcome EventLogError EventLogWriter :=
  do* header := map_err (fun _ => InvalidHeader) (parse_header buf) in
  do* _ :=
    match expected_dim with
    | Some expected =>
        if negb (dim header =? expected) then Err (LogDimensionMismatch expected (dim header)) else Ok tt
    | None => Ok tt
    end in
  do* walked :=
    map_err of_walk_error
      (walk_segment_body (version header) buf (header_len header) (prev_segment_chain_head header)) in
  let '(entries, final_head) := walked in
  Ok (mkWriter path path [] (foldl count_entry 0 entries) (dim header) (version header)
        (segment_seq header) final_head 0).

Definition open_writer (path : name) (expected_dim : option Z) : M EventLogError Fs EventLogWriter :=
  let* fs := sget in
  match fs !! path with
  | Some buf => slift (open_existing path expected_dim buf)
  | None =>
      smodify (fs_append path []) ;;;
      match expected_dim with
      | None => sthrow InvalidHeader
      | Some d =>
          smodify (fs_append path (encode_header_v4 d FORMAT_Q16_16 0 GENESIS)) ;;;
          sret (mkWriter path path [] 0 d VERSION_V4 0 GENESIS 0)
      end
  end.

(** ** Appending *)

(** Encode one entry against the current chain head, write it and advance. *)
Definition write_entry (now : Z) (request_id : option (list Z)) (e : LogEntry) : LM Z :=
  let* l := sget in
  let w := lg_writer l in
  let d := mkEntry (lw_chain_head w) now request_id e in
  let* bs := slift (map_err LogWire (encode_entry crc32 (lw_version w) d)) in
  bw_write_all bs ;;;
  let* head := slift (map_err LogWire (chain_advance blake3 (lw_version w) (lw_chain_head w) d)) in
  on_writer (lw_set_head head) ;;;
  sret (len bs).

Definition add_bytes (n : Z) : LM unit :=
  on_writer (fun w => lw_set_bytes (wrap_u64 (lw_bytes_written w + n)) w).

Definition count_event (e : LogEntry) : LM unit :=
  match e with
  | Event _ => on_writer (fun w => lw_set_count (wrap_u64 (lw_event_count w + 1)) w)
  | _ => sret tt
  end.

Definition append_with_request_id (now : Z) (e : LogEntry) (request_id : option (list Z)) : LM unit :=
  let* l := sget in
  let w := lg_writer l in
  let request_id := if VERSION_V3 <=? lw_version w then request_id else None in
  let d := mkEntry (lw_chain_head w) now request_id e in
  let* bs := slift (map_err LogWire (encode_entry crc32 (lw_version w) d)) in
  bw_write_all bs ;;;
  bw_flush ;;;
  let* head := slift (map_err LogWire (chain_advance blake3 (lw_version w) (lw_chain_head w) d)) in
  on_writer (lw_set_head head) ;;;
  add_bytes (len bs) ;;;
  count_event e.

Definition append (now : Z) (e : LogEntry) : LM unit := append_with_request_id now e None.

Definition flush : LM unit := bw_flush.

Fixpoint batch_loop (now : Z) (entries : list LogEntry) (total_bytes : Z) : LM Z :=
  match entries with
  | [] => sret total_bytes
  | e :: entries =>
      let* n := write_entry now None e in batch_loop now entries (wrap_u64 (total_bytes + n))
  end.

Definition append_batch (now : Z) (entries : list LogEntry) : LM unit :=
  match entries with
  | [] => sret tt
  | _ =>
      let* total_bytes := batch_loop now entries 0 in
      bw_flush ;;;
      add_bytes total_bytes ;;;
      sfor entries count_event
  end.

(** ** Rotation *)

(** [std::fs::rename]: the open handle follows the file. *)
Definition rename (from to : name) : LM unit :=
  let* l := sget in
  match lg_fs l !! from with
  | None => sthrow LogIo
  | Some content =>
      on_fs (fun fs => <[to := content]> (delete from fs)) ;;;
      on_writer (fun w => if bool_decide (lw_file w = from) then lw_set_file to w else w)
  end.

Definition create_new (path : name) : LM unit :=
  let* l := sget in
  match lg_fs l !! path with
  | Some _ => sthrow LogIo
  | None => on_fs (<[path := []]>)
  end.

Definition write_file (f : name) (data : list Z) : LM unit := on_fs (fs_append f data).

(** The optional first entry of the new segment. *)
Definition write_checkpoint_entry (now : Z) (checkpoint_entry : option LogEntry) : LM unit :=
  match checkpoint_entry with
  | None => sret tt
  | Some e =>
      let* l := sget in
      let w := lg_writer l in
      let d := mkEntry (lw_chain_head w) now None e in
      let* bs := slift (map_err LogWire (encode_entry crc32 (lw_version w) d)) in
      write_file (lw_path w) bs ;;;
      let* head := slift (map_err LogWire (chain_advance blake3 (lw_version w) (lw_chain_head w) d)) in
      on_writer (lw_set_head head)
  end.

Definition rotate (now : Z) (archive_path : name) (checkpoint_entry : option LogEntry) : LM unit :=
  bw_flush ;;;
  let* l := sget in
  let path := lw_path (lg_writer l) in
  rename path archive_path ;;;
  create_new path ;;;
  on_writer (fun w => lw_set_segment VERSION_V4 (wrap_u32 (lw_segment_seq w + 1)) w) ;;;
  let* l := sget in
  let w := lg_writer l in
  write_file path (encode_header_v4 (lw_dim w) FORMAT_Q16_16 (lw_segment_seq w) (lw_chain_head w)) ;;;
  write_checkpoint_entry now checkpoint_entry ;;;
  on_writer (fun w => lw_set_bytes 0 (lw_set_buf [] (lw_set_file path w))).
End EventLog.
