(* ===== verification/EventLogTheorems.v ===== *)
(** * Correctness of the event log

    A segment that holds the entries [es] walks back to [es]; cut anywhere, it
    walks back to the entries that are whole; appending adds one entry. *)

From stdpp Require Import gmap.
From S2P Require Import Prelude.
From S2P Require Import Core.
From S2P Require Import Fxp.
From S2P Require Import Event.
From S2P Require Import Bytes.
From S2P Require Import StateProof.
From S2P Require Import EventCodec.
From S2P Require Import Wire.
From S2P Require Import WireTheorems.
From S2P Require Import EventLog.

Section Segments.
Context `{BincodeLaws} (blake3 : list Z -> list Z) (crc32 : list Z -> Z).
Context (blake3_hash : forall m, hash_typed (blake3 m)) (crc32_u32 : forall m, in_u32 (crc32 m)).

Local Abbreviation advance := (advance blake3).
Local Abbreviation on_disk := (on_disk crc32).

(** ** Chained entries *)
Fixpoint linked (v : Z) (head : list Z) (es : list DecodedEntry) : Prop :=
  match es with
  | [] => True
  | e :: es => prev_hash e = head /\ storable v e /\ linked v (advance v head e) es
  end.

Definition final (v : Z) (head : list Z) (es : list DecodedEntry) : list Z := foldl (advance v) head es.
Definition body (v : Z) (es : list DecodedEntry) : list Z := concat (on_disk v <$> es).

(** What a crash may leave behind the last whole entry. *)
Definition torn (v : Z) (tail : list Z) : Prop :=
  tail = [] \/ exists e n, storable v e /\ (n < length (on_disk v e))%nat /\ tail = take n (on_disk v e).

Lemma linked_app v head es1 es2 :
  linked v head (es1 ++ es2) <-> linked v head es1 /\ linked v (final v head es1) es2.
Proof.
  revert head. induction es1 as [|e es1 IH]; intros head; simpl; [tauto|]. rewrite IH. unfold final. simpl. tauto.
Qed.

Lemma linked_take v head es j : linked v head es -> linked v head (take j es).
Proof. rewrite <- (take_drop j es) at 1. rewrite linked_app. tauto. Qed.

Lemma linked_storable v head es : linked v head es -> Forall (storable v) es.
Proof.
  revert head. induction es as [|e es IH]; intros head; simpl; [by constructor|].
  intros (_ & He & Hes). constructor; eauto.
Qed.

Lemma linked_typed v head es : linked v head es -> Forall entry_typed es.
Proof.
  intros Hl. eapply Forall_impl; [by eapply linked_storable|]. by intros e (_ & He & _).
Qed.

Lemma body_app v es1 es2 : body v (es1 ++ es2) = body v es1 ++ body v es2.
Proof. unfold body. by rewrite fmap_app, concat_app. Qed.

Lemma body_cons v e es : body v (e :: es) = on_disk v e ++ body v es.
Proof. done. Qed.

Lemma final_app v head es1 es2 : final v head (es1 ++ es2) = final v (final v head es1) es2.
Proof. apply foldl_app. Qed.

Lemma final_typed v head es : hash_typed head -> hash_typed (final v head es).
Proof.
  revert head. induction es as [|e es IH]; intros head Hh; [done|]. apply IH, blake3_hash.
Qed.

(** ** Walking a segment *)
Lemma walk_torn fuel v tail off head acc :
  wire_version v -> torn v tail -> (length tail <= fuel)%nat ->
  walk_loop blake3 crc32 fuel v tail off head acc = Ok (acc, head).
Proof.
  intros Hv [-> | (e & n & He & Hn & ->)] Hf; [by destruct fuel|].
  destruct fuel as [|fuel].
  - destruct (take n (on_disk v e)); [done|]. simpl in Hf. lia.
  - cbn [walk_loop]. rewrite decode_entry_cut by done. by destruct (take n (on_disk v e)).
Qed.

Lemma walk_linked fuel v es tail off head acc :
  wire_version v -> linked v head es -> torn v tail -> (length (body v es ++ tail) <= fuel)%nat ->
  walk_loop blake3 crc32 fuel v (body v es ++ tail) off head acc = Ok (acc ++ es, final v head es).
Proof.
  intros Hv. revert fuel off head acc. induction es as [|e es IH]; intros fuel off head acc Hl Ht Hf.
  { rewrite app_nil_r. by apply walk_torn. }
  destruct Hl as (Hp & He & Hes). rewrite body_cons, <- app_assoc in *.
  pose proof (on_disk_nonempty crc32 v e He) as Hne.
  destruct fuel as [|fuel].
  { apply Nat.le_0_r, length_zero_iff_nil, app_eq_nil in Hf as [? _]. done. }
  cbn [walk_loop]. rewrite decode_entry_on_disk by done.
  rewrite bool_decide_true by done. cbn [negb]. rewrite chain_advance_ok by done. cbn [map_err obind].
  assert (drop (Z.to_nat (len (on_disk v e))) (on_disk v e ++ body v es ++ tail) = body v es ++ tail) as ->.
  { unfold len. rewrite Nat2Z.id. apply drop_app_length. }
  rewrite IH; [|done|done|].
  - rewrite <- app_assoc. by destruct (on_disk v e).
  - rewrite length_app in Hf. assert (length (on_disk v e) <> O) by (by destruct (on_disk v e)). lia.
Qed.

Lemma walk_segment v hdr es tail head :
  wire_version v -> linked v head es -> torn v tail ->
  walk_segment_body blake3 crc32 v (hdr ++ body v es ++ tail) (len hdr) head = Ok (es, final v head es).
Proof.
  intros Hv Hl Ht. unfold walk_segment_body, len. rewrite Nat2Z.id, drop_app_length.
  apply walk_linked; [done|done|done|]. rewrite (length_app hdr). lia.
Qed.

(** ** Cutting a segment *)
Lemma cut_body v head es n :
  linked v head es ->
  exists j tail, (j <= length es)%nat /\ take n (body v es) = body v (take j es) ++ tail /\ torn v tail
    /\ (length (body v (take j es)) <= n \/ j = O)%nat
    /\ (j = length es \/ n < length (body v (take (S j) es)))%nat.
Proof.
  revert head n. induction es as [|e es IH]; intros head n Hl.
  { exists O, []. unfold body. simpl. rewrite take_nil. split_and!; [done|done|by left|by right|by left]. }
  destruct Hl as (Hp & He & Hes).
  destruct (decide (n < length (on_disk v e))%nat) as [Hlt | Hge].
  - exists O, (take n (on_disk v e)). cbn [take]. rewrite body_cons, take_app_le by lia.
    split_and!; [lia|done|right; by exists e, n|by right|].
    right. rewrite body_cons, length_app. lia.
  - destruct (IH _ (n - length (on_disk v e))%nat Hes) as (j & tail & Hj & E1 & Ht & Hlo & Hhi).
    exists (S j), tail. rewrite body_cons, take_app_ge by lia. rewrite E1.
    change (take (S j) (e :: es)) with (e :: take j es). rewrite body_cons, app_assoc.
    split_and!; [simpl; lia|done|done| |].
    + left. rewrite length_app. destruct Hlo as [Hlo | ->]; [lia|]. cbn [take]. unfold body. simpl. lia.
    + destruct Hhi as [-> | Hhi]; [by left|right].
      change (take (S (S j)) (e :: es)) with (e :: take (S j) es). rewrite body_cons, length_app. lia.
Qed.

(** ** The writer's invariant *)
Record holds (l : Log) (hd : SegmentHeader) (hdr : list Z) (es : list DecodedEntry) : Prop := {
  h_file : lw_file (lg_writer l) = lw_path (lg_writer l);
  h_bytes : exists f, lg_fs l !! lw_path (lg_writer l) = Some f
            /\ f ++ lw_buf (lg_writer l) = hdr ++ body (version hd) es;
  h_parse : forall rest, parse_header (hdr ++ rest) = Ok hd;
  h_len : len hdr = header_len hd;
  h_prev : hash_typed (prev_segment_chain_head hd);
  h_wire : wire_version (version hd);
  h_linked : linked (version hd) (prev_segment_chain_head hd) es;
  h_head : lw_chain_head (lg_writer l) = final (version hd) (prev_segment_chain_head hd) es;
  h_version : lw_version (lg_writer l) = version hd;
  h_dim : lw_dim (lg_writer l) = dim hd;
  h_seq : lw_segment_seq (lg_writer l) = segment_seq hd;
}.

Lemma bw_write_all_ok data l f :
  lg_fs l !! lw_file (lg_writer l) = Some f ->
  exists f' b', bw_write_all data l
    = (mkLog (<[lw_file (lg_writer l) := f']> (lg_fs l)) (lw_set_buf b' (lg_writer l)), Ok tt)
    /\ f' ++ b' = f ++ lw_buf (lg_writer l) ++ data.
Proof.
  intros Hf. destruct l as [fs w]. cbn [lg_fs lg_writer] in *.
  assert (<[lw_file w := f]> fs = fs) as Hid by (by apply insert_id).
  unfold bw_write_all, bw_flush, on_writer, fs_append, sbind, sget, smodify, sret. cbn [lg_fs lg_writer].
  destruct (len data <? _) eqn:E1.
  { exists f, (lw_buf w ++ data). by rewrite Hid. }
  destruct (DEFAULT_BUF_SIZE - _ <? len data) eqn:E2, (DEFAULT_BUF_SIZE <=? len data) eqn:E3;
    cbn [lg_fs lg_writer lw_file lw_buf lw_set_buf]; rewrite ?lookup_insert_eq, ?Hf; simpl.
  - exists ((f ++ lw_buf w) ++ data), []. rewrite insert_insert_eq, app_nil_r, <- app_assoc. by destruct w.
  - exists (f ++ lw_buf w), data. by rewrite <- app_assoc.
  - bool_prop. pose proof (len_nonneg (lw_buf w)). pose proof (len_nonneg data).
    assert (lw_buf w = []) as Hb by (destruct (lw_buf w); [done|unfold len in *; simpl in *; lia]).
    exists (f ++ data), []. rewrite Hb, app_nil_r. split; [|done]. do 2 f_equal. destruct w; simpl in *. by subst.
  - exists f, (lw_buf w ++ data). by rewrite Hid.
Qed.

(** An operation that keeps the log's name and every other file. *)
Definition framed (l l' : Log) : Prop :=
  lw_path (lg_writer l') = lw_path (lg_writer l)
  /\ forall p, p <> lw_path (lg_writer l) -> lg_fs l' !! p = lg_fs l !! p.

#[export] Instance framed_preorder : PreOrder framed.
Proof.
  split; [done|]. intros l1 l2 l3 [P1 F1] [P2 F2]. split; [congruence|].
  intros p Hp. rewrite F2, F1 by congruence. done.
Qed.

Lemma holds_writer l hd hdr es w :
  holds l hd hdr es ->
  lw_path w = lw_path (lg_writer l) -> lw_file w = lw_file (lg_writer l) -> lw_buf w = lw_buf (lg_writer l) ->
  lw_chain_head w = lw_chain_head (lg_writer l) -> lw_version w = lw_version (lg_writer l) ->
  lw_dim w = lw_dim (lg_writer l) -> lw_segment_seq w = lw_segment_seq (lg_writer l) ->
  holds (mkLog (lg_fs l) w) hd hdr es.
Proof. intros [] Ep Ef Eb Eh Ev Ed Es. split; simpl; rewrite ?Ep, ?Ef, ?Eb, ?Eh, ?Ev, ?Ed, ?Es; done. Qed.

Lemma bw_flush_ok l hd hdr es :
  holds l hd hdr es ->
  exists l', bw_flush l = (l', Ok tt) /\ holds l' hd hdr es /\ lw_buf (lg_writer l') = [] /\ framed l l'
    /\ lw_bytes_written (lg_writer l') = lw_bytes_written (lg_writer l).
Proof.
  intros Hh. pose proof Hh as [Hf (f & Hl & Hb) ? ? ? ? ? ? ? ? ?].
  eexists. split; [reflexivity|]. split; [|split; [done|split; [split; [done|]|done]]].
  - split; simpl; try done. exists (f ++ lw_buf (lg_writer l)). unfold fs_append.
    by rewrite Hf, Hl, lookup_insert_eq, app_nil_r.
  - intros p Hp. simpl. unfold fs_append. rewrite Hf. by rewrite lookup_insert_ne.
Qed.

Lemma write_entry_ok l hd hdr es now rid e :
  holds l hd hdr es ->
  let d := mkEntry (lw_chain_head (lg_writer l)) now rid e in
  storable (version hd) d ->
  exists l' n, write_entry blake3 crc32 now rid e l = (l', Ok n) /\ holds l' hd hdr (es ++ [d]) /\ framed l l'.
Proof.
  intros Hh d Hd. pose proof Hh as [Hf (f & Hl & Hb) ? ? ? Hw Hlk Hhead Hv ? ?].
  unfold write_entry, sbind, sget, slift. fold d. rewrite Hv, encode_entry_on_disk by done. cbn [map_err].
  destruct (bw_write_all_ok (on_disk (version hd) d) l f) as (f' & b' & -> & Eb); [by rewrite Hf|].
  rewrite chain_advance_ok by done. cbn [map_err].
  unfold on_writer, smodify, sret. cbn [lg_fs lg_writer]. do 2 eexists. split; [reflexivity|]. split.
  - split; simpl; try done.
    + exists f'. rewrite Hf, lookup_insert_eq. split; [done|].
      by rewrite Eb, body_app, body_cons, !app_assoc, Hb, app_nil_r.
    + apply linked_app. split; [done|]. simpl. split_and!; [done|done|done].
    + by rewrite final_app, <- Hhead.
  - split; [done|]. intros p Hp. simpl. rewrite Hf. by rewrite lookup_insert_ne.
Qed.

Lemma wrap_u64_range z : in_u64 (wrap_u64 z).
Proof. unfold wrap_u64. pose proof (Z.mod_pos_bound z 18446744073709551616). int_lia. Qed.

Lemma append_with_request_id_ok l hd hdr es now rid e :
  holds l hd hdr es -> VERSION_V3 <= version hd ->
  let d := mkEntry (lw_chain_head (lg_writer l)) now rid e in
  storable (version hd) d ->
  exists l', append_with_request_id blake3 crc32 now e rid l = (l', Ok tt) /\ holds l' hd hdr (es ++ [d])
    /\ framed l l' /\ lw_buf (lg_writer l') = []
    /\ (in_u64 (lw_event_count (lg_writer l)) -> in_u64 (lw_event_count (lg_writer l'))).
Proof.
  intros Hh H3 d Hd. pose proof Hh as [Hf (f & Hl & Hb) ? ? ? Hw Hlk Hhead Hv ? ?].
  unfold append_with_request_id, sbind, sget, slift. rewrite Hv, (proj2 (Z.leb_le _ _) H3). fold d.
  rewrite encode_entry_on_disk by done. cbn [map_err].
  destruct (bw_write_all_ok (on_disk (version hd) d) l f) as (f' & b' & -> & Eb); [by rewrite Hf|].
  unfold bw_flush, smodify. rewrite chain_advance_ok by done. cbn [map_err].
  unfold add_bytes, count_event, on_writer, smodify, fs_append. cbn [lg_fs lg_writer lw_file lw_set_buf lw_buf].
  rewrite lookup_insert_eq, insert_insert_eq. change (default [] (Some f')) with f'. rewrite Eb.
  destruct e; eexists; (split; [reflexivity|]); (split_and!; [split; simpl; try done| |done|]).
  all: try (split; [done|]; intros p Hp; simpl; rewrite Hf; by rewrite lookup_insert_ne).
  all: try (eexists; rewrite Hf, lookup_insert_eq; split; [done|];
            by rewrite app_nil_r, body_app, body_cons, !app_assoc, Hb, app_nil_r).
  all: try (apply linked_app; split; [done|]; simpl; split_and!; done).
  all: try (by rewrite final_app, <- Hhead).
  all: simpl; try done. intros _. apply wrap_u64_range.
Qed.

(** ** Batches *)
Definition loggable (v : Z) (e : LogEntry) : Prop :=
  forall h t, hash_typed h -> in_u64 t -> storable v (mkEntry h t None e).

Fixpoint chained (v : Z) (head : list Z) (now : Z) (xs : list LogEntry) : list DecodedEntry :=
  match xs with
  | [] => []
  | x :: xs => let d := mkEntry head now None x in d :: chained v (advance v head d) now xs
  end.

Lemma chained_entries v head now xs : entry <$> chained v head now xs = xs.
Proof. revert head. induction xs as [|x xs IH]; intros head; [done|]. csimpl. by rewrite IH. Qed.

Lemma holds_head_typed l hd hdr es : holds l hd hdr es -> hash_typed (lw_chain_head (lg_writer l)).
Proof. intros []. rewrite h_head0. by apply final_typed. Qed.

Lemma batch_loop_ok l hd hdr es now xs total :
  holds l hd hdr es -> Forall (loggable (version hd)) xs -> in_u64 now ->
  exists l' n, batch_loop blake3 crc32 now xs total l = (l', Ok n)
    /\ holds l' hd hdr (es ++ chained (version hd) (lw_chain_head (lg_writer l)) now xs) /\ framed l l'.
Proof.
  intros Hh Hx Hn. revert l es total Hh. induction Hx as [|x xs Hx Hxs IH]; intros l es total Hh.
  { exists l, total. simpl. by rewrite app_nil_r. }
  cbn [batch_loop chained]. set (d := mkEntry _ _ _ _).
  destruct (write_entry_ok l hd hdr es now None x Hh) as (l1 & n1 & E1 & Hh1 & F1).
  { apply Hx; [by eapply holds_head_typed|done]. }
  unfold sbind. rewrite E1. fold d in Hh1. destruct (IH l1 _ (wrap_u64 (total + n1)) Hh1) as (l2 & n2 & -> & Hh2 & F2).
  exists l2, n2. split; [done|]. split; [|by transitivity l1].
  rewrite <- app_assoc in Hh2. assert (lw_chain_head (lg_writer l1) = advance (version hd) (lw_chain_head (lg_writer l)) d) as E2.
  { rewrite (h_head _ _ _ _ Hh1), final_app, (h_head _ _ _ _ Hh). done. }
  by rewrite E2 in Hh2.
Qed.

Lemma sfor_count_ok l hd hdr es xs :
  holds l hd hdr es ->
  exists l', sfor xs count_event l = (l', Ok tt) /\ holds l' hd hdr es /\ framed l l'
    /\ lw_buf (lg_writer l') = lw_buf (lg_writer l).
Proof.
  revert l. induction xs as [|x xs IH]; intros l Hh; [by exists l|]. cbn [sfor]. unfold sbind.
  assert (exists l1, count_event x l = (l1, Ok tt) /\ holds l1 hd hdr es /\ framed l l1
          /\ lw_buf (lg_writer l1) = lw_buf (lg_writer l)) as (l1 & -> & Hh1 & F1 & B1).
  { destruct x; simpl; eexists; (split; [reflexivity|]); (split; [|split; [split; done|done]]); try done.
    by apply holds_writer. }
  destruct (IH l1 Hh1) as (l2 & -> & Hh2 & F2 & B2). exists l2. split_and!; [done|done|by transitivity l1|congruence].
Qed.

Lemma append_batch_ok l hd hdr es now xs :
  holds l hd hdr es -> Forall (loggable (version hd)) xs -> in_u64 now ->
  exists l', append_batch blake3 crc32 now xs l = (l', Ok tt)
    /\ holds l' hd hdr (es ++ chained (version hd) (lw_chain_head (lg_writer l)) now xs)
    /\ framed l l' /\ (lw_buf (lg_writer l) = [] -> lw_buf (lg_writer l') = []).
Proof.
  intros Hh Hx Hn. destruct xs as [|x xs]; [exists l; simpl; by rewrite app_nil_r|].
  unfold append_batch, sbind.
  destruct (batch_loop_ok l hd hdr es now (x :: xs) 0 Hh Hx Hn) as (l1 & n & -> & Hh1 & F1).
  destruct (bw_flush_ok l1 hd hdr _ Hh1) as (l2 & -> & Hh2 & B2 & F2 & _).
  unfold add_bytes, on_writer, smodify.
  set (l3 := mkLog _ _). assert (holds l3 hd hdr (es ++ chained (version hd) (lw_chain_head (lg_writer l)) now (x :: xs)))
    as Hh3 by (by apply holds_writer).
  destruct (sfor_count_ok l3 hd hdr _ (x :: xs) Hh3) as (l4 & -> & Hh4 & F4 & B4).
  exists l4. split_and!; [done|done| |by rewrite B4].
  transitivity l1; [done|]. transitivity l2; [done|]. by transitivity l3.
Qed.
End Segments.

(** ** Theorems about the event log

    Crash recovery, tamper evidence, and what reopening after a crash does to
    later appends. *)

Section Recovery.
Context `{BincodeLaws} (blake3 : list Z -> list Z) (crc32 : list Z -> Z).

(** A segment file: header bytes and the entries chained from the header's splice point. *)
Definition segment (hd : SegmentHeader) (hdr : list Z) (es : list DecodedEntry) : Prop :=
  (forall rest, parse_header (hdr ++ rest) = Ok hd) /\ len hdr = header_len hd
  /\ wire_version (version hd) /\ linked blake3 (version hd) (prev_segment_chain_head hd) es.

Lemma open_segment path hd hdr es tail :
  (forall m, in_u32 (crc32 m)) -> segment hd hdr es -> torn crc32 (version hd) tail ->
  open_existing blake3 crc32 path (Some (dim hd)) (hdr ++ body crc32 (version hd) es ++ tail)
  = Ok (mkWriter path path [] (foldl count_entry 0 es) (dim hd) (version hd) (segment_seq hd)
          (final blake3 (version hd) (prev_segment_chain_head hd) es) 0).
Proof.
  intros Hc (Hp & Hl & Hv & Hlk) Ht. unfold open_existing. rewrite Hp. cbn [map_err obind].
  rewrite Z.eqb_refl. cbn [negb obind]. rewrite <- Hl, walk_segment by done. done.
Qed.

(** C25: Cut a log segment of any format version at any byte after its header:
    opening it succeeds, and the writer resumes after the longest prefix of
    entries that fits in the cut, with the event count and the chain head of
    exactly those entries. No whole entry is lost and no torn one is counted. *)
Theorem crash_recovers_whole_entries (path : name) (hd : SegmentHeader) (hdr : list Z)
    (es : list DecodedEntry) (n : nat) :
  (forall m, in_u32 (crc32 m)) -> segment hd hdr es -> (length hdr <= n)%nat ->
  exists j,
    (length (hdr ++ body crc32 (version hd) (take j es)) <= n)%nat
    /\ (j = length es \/ n < length (hdr ++ body crc32 (version hd) (take (S j) es)))%nat
    /\ open_existing blake3 crc32 path (Some (dim hd)) (take n (hdr ++ body crc32 (version hd) es))
       = Ok (mkWriter path path [] (foldl count_entry 0 (take j es)) (dim hd) (version hd)
               (segment_seq hd) (final blake3 (version hd) (prev_segment_chain_head hd) (take j es)) 0).
Proof.
  intros Hc Hs Hn. pose proof Hs as (Hp & Hl & Hv & Hlk).
  destruct (cut_body blake3 crc32 _ _ es (n - length hdr)%nat Hlk) as (j & tail & Hj & E1 & Ht & Hlo & Hhi).
  exists j. rewrite take_app_ge, E1 by lia. rewrite !length_app. split_and!.
  - destruct Hlo as [? | ->]; [lia|]. cbn [take]. unfold body. simpl. lia.
  - destruct Hhi; [by left|right; lia].
  - apply open_segment; [done| |done]. split_and!; try done. by apply linked_take.
Qed.

(** Two segments with the same header and the same number of entries, both
    accepted by the chain check, that end in the same chain head hold the same
    chained content entry by entry, or two of the messages chained for them
    collide. *)
Theorem log_tamper_evident (hd : SegmentHeader) (hdr1 hdr2 : list Z) (es1 es2 : list DecodedEntry) :
  (forall m, hash_typed (blake3 m)) -> hash_typed (prev_segment_chain_head hd) ->
  segment hd hdr1 es1 -> segment hd hdr2 es2 -> length es1 = length es2 ->
  final blake3 (version hd) (prev_segment_chain_head hd) es1
  = final blake3 (version hd) (prev_segment_chain_head hd) es2 ->
  content (version hd) <$> es1 = content (version hd) <$> es2
  \/ collision blake3 (chain_messages blake3 (version hd) (prev_segment_chain_head hd) es1
                       ++ chain_messages blake3 (version hd) (prev_segment_chain_head hd) es2).
Proof.
  intros Hb [_ Hp] (_ & _ & Hv & L1) (_ & _ & _ & L2) Hl E1.
  destruct (chain_binds blake3 (fun m => proj2 (Hb m)) (version hd) (prev_segment_chain_head hd)
              (prev_segment_chain_head hd) es1 es2) as [[_ ?] | ?]; auto; by eapply linked_typed.
Qed.
End Recovery.

(** ** Concrete runs *)
#[local] Existing Instance FixedInt.bincode.
#[local] Existing Instance FixedInt.laws.

(** A 32-byte digest for concrete runs. *)
Definition demo_hash (m : list Z) : list Z := le_bytes 32 (le_val m mod 115792089237316195423570985008687907853269984665640564039457584007913129639747).

Lemma demo_hash_typed m : hash_typed (demo_hash m).
Proof. split; [apply le_bytes_bytes|apply length_le_bytes]. Qed.

Definition demo_header : list Z := encode_header_v4 2 FORMAT_Q16_16 0 GENESIS.
Definition demo_hd : SegmentHeader := mkHeader VERSION_V4 2 FORMAT_Q16_16 0 GENESIS HEADER_SIZE_V3.

Definition ev_insert (id : Z) : KernelEvent := InsertRecord id [65536; 0] None 0.
Definition demo_e1 : DecodedEntry := mkEntry GENESIS 1700000000 None (Wire.Event (ev_insert 0)).
Definition demo_e2 : DecodedEntry :=
  mkEntry (advance demo_hash VERSION_V4 GENESIS demo_e1) 1700000001 None (EventNs 1 (ev_insert 1)).

Lemma demo_storable h t e :
  hash_typed h -> in_u64 t -> log_typed e -> check_metadata_cap e = Ok tt ->
  admits (payload VERSION_V4 (mkEntry h t None e)) = true -> storable VERSION_V4 (mkEntry h t None e).
Proof. intros. split; [by right; right|]. split; [|by split_and!]. by split_and!. Qed.

Lemma genesis_typed : hash_typed GENESIS.
Proof. split; [|done]. by repeat constructor. Qed.

Lemma ev_insert_typed id : in_u32 id -> event_typed (ev_insert id).
Proof. intros Hid. unfold ev_insert. simpl. split_and!; try done; try int_lia; repeat constructor; int_lia. Qed.

Lemma demo_segment : segment demo_hash demo_hd demo_header [demo_e1; demo_e2].
Proof.
  split_and!; [|done|by right; right|].
  - intros rest. apply parse_header_v4; [unfold WIRE_MAX_DIM; lia|int_lia|done].
  - split; [done|]. split; [|split; [done|split; [|done]]];
      (apply demo_storable;
       [first [apply genesis_typed | apply demo_hash_typed]|int_lia| |done|vm_compute; reflexivity]).
    + apply ev_insert_typed. int_lia.
    + split; [int_lia|]. apply ev_insert_typed. int_lia.
Qed.

Lemma crash_recovers_whole_entries_witness :
  exists j,
    (length (demo_header ++ body toy_crc VERSION_V4 (take j [demo_e1; demo_e2])) <= 170)%nat
    /\ (j = 2 \/ 170 < length (demo_header ++ body toy_crc VERSION_V4 (take (S j) [demo_e1; demo_e2])))%nat
    /\ open_existing demo_hash toy_crc [108] (Some 2)
         (take 170 (demo_header ++ body toy_crc VERSION_V4 [demo_e1; demo_e2]))
       = Ok (mkWriter [108] [108] [] (foldl count_entry 0 (take j [demo_e1; demo_e2])) 2 VERSION_V4 0
               (final demo_hash VERSION_V4 GENESIS (take j [demo_e1; demo_e2])) 0).
Proof.
  exact (crash_recovers_whole_entries demo_hash toy_crc [108] demo_hd demo_header [demo_e1; demo_e2] 170
           toy_crc_u32 demo_segment ltac:(vm_compute; lia)).
Defined.

Lemma log_tamper_evident_witness :
  content VERSION_V4 <$> [demo_e1; demo_e2] = content VERSION_V4 <$> [demo_e1; demo_e2]
  \/ collision demo_hash (chain_messages demo_hash VERSION_V4 GENESIS [demo_e1; demo_e2]
                          ++ chain_messages demo_hash VERSION_V4 GENESIS [demo_e1; demo_e2]).
Proof.
  exact (log_tamper_evident demo_hash demo_hd demo_header demo_header [demo_e1; demo_e2] [demo_e1; demo_e2]
           demo_hash_typed genesis_typed demo_segment demo_segment eq_refl eq_refl).
Defined.

(** ** Appending after a torn tail

    The first entry is whole, the second was cut by a crash: the log reopens,
    takes an append, and does not reopen again. *)
Definition torn_file : list Z := take 200 (demo_header ++ body toy_crc VERSION_V4 [demo_e1; demo_e2]).
Definition torn_fs : Fs := {[ [108] := torn_file ]}.

(** A concrete run: opening a log with a torn tail succeeds, an append then
    succeeds and writes after the torn bytes, and the next open of the file fails.
    *)
Theorem append_after_torn_tail_breaks_log :
  exists w l,
    open_writer demo_hash toy_crc [108] (Some 2) torn_fs = (torn_fs, Ok w)
    /\ append demo_hash toy_crc 1700000002 (EventNs 1 (ev_insert 1)) (mkLog torn_fs w) = (l, Ok tt)
    /\ exists e, (open_writer demo_hash toy_crc [108] (Some 2) (lg_fs l)).2 = Err e.
Proof.
  eexists _, _. split; [vm_compute; reflexivity|]. split; [vm_compute; reflexivity|].
  eexists. vm_compute. reflexivity.
Qed.
