(* ===== verification/EventCommit.v ===== *)
(** * Journal, commit barrier and recovery

    Models [crates/valori-storage/src/events/]: [event_journal.rs],
    [event_commit.rs], [event_replay.rs] and [event_proof.rs].  The broadcast
    channel of the journal is the list of what was sent.  Each clock reading of
    an operation is an argument ([Times]).  [read_dir] yields the names of the
    directory in an order the platform chooses: [listing]. *)

From stdpp Require Import gmap.
From S2P Require Import Prelude.
From S2P Require Import Core.
From S2P Require Import Fxp.
From S2P Require Import TopK.
From S2P Require Import Slab.
From S2P Require Import Records.
From S2P Require Import Graph.
From S2P Require Import Index.
From S2P Require Import Event.
From S2P Require Import Kernel.
From S2P Require Import Bytes.
From S2P Require Import StateProof.
From S2P Require Import EventCodec.
From S2P Require Import Wire.
From S2P Require Import EventLog.

(** ** The journal (event_journal.rs) *)
Record EventJournal : Type := mkJournal {
  j_committed : list KernelEvent;
  j_timestamps : list Z;
  j_buffer : list KernelEvent;
  j_committed_height : Z;
  j_sent : list LogEntry;
}.

Definition journal_new : EventJournal := mkJournal [] [] [] 0 [].
Definition new_at_height (height : Z) : EventJournal := mkJournal [] [] [] height [].
Definition from_committed (events : list KernelEvent) : EventJournal :=
  mkJournal events (replicate (length events) 0) [] (len events) [].

Definition set_height (height : Z) (j : EventJournal) : EventJournal :=
  mkJournal (j_committed j) (j_timestamps j) (j_buffer j) height (j_sent j).

Definition append_buffered (event : KernelEvent) (j : EventJournal) : EventJournal :=
  mkJournal (j_committed j) (j_timestamps j) (j_buffer j ++ [event]) (j_committed_height j) (j_sent j).

Definition commit_buffer (now : Z) (j : EventJournal) : EventJournal :=
  let committed := j_committed j ++ j_buffer j in
  mkJournal committed (j_timestamps j ++ replicate (length (j_buffer j)) now) [] (len committed)
    (j_sent j ++ (Wire.Event <$> j_buffer j)).

Definition rollback_buffer (j : EventJournal) : EventJournal :=
  mkJournal (j_committed j) (j_timestamps j) [] (j_committed_height j) (j_sent j).

Definition committed_with_timestamps (j : EventJournal) : list (KernelEvent * Z) :=
  zip (j_committed j) (j_timestamps j).

Definition event_timestamp (j : EventJournal) (log_index : nat) : option Z := j_timestamps j !! log_index.

Definition find_log_index_at_or_before (j : EventJournal) (unix_secs : Z) : option nat :=
  match partition_point (fun t => t <=? unix_secs) (j_timestamps j) with
  | O => None
  | S pos => Some pos
  end.

(** ** The commit barrier (event_commit.rs) *)
Inductive CommitError : Type :=
| CEventLog (e : EventLogError)
| ShadowApply (e : KernelError)
| LiveApply (e : KernelError)
| VerificationFailed.

Inductive CommitResult : Type := Committed | RolledBack.

Definition DEFAULT_LOG_ROTATION_BYTES : Z := 268435456.
Definition DEFAULT_WRITE_BUFFER_SIZE : Z := 64.

Record EventCommitter : Type := mkCommitter {
  c_log : Log;
  c_journal : EventJournal;
  c_live_state : KernelState;
  c_log_rotation_bytes : option Z;
  c_write_buf : list LogEntry;
  c_flush_every : Z;
}.

Definition c_set_log (l : Log) (c : EventCommitter) : EventCommitter :=
  mkCommitter l (c_journal c) (c_live_state c) (c_log_rotation_bytes c) (c_write_buf c) (c_flush_every c).
Definition c_set_journal (j : EventJournal) (c : EventCommitter) : EventCommitter :=
  mkCommitter (c_log c) j (c_live_state c) (c_log_rotation_bytes c) (c_write_buf c) (c_flush_every c).
Definition c_set_live (s : KernelState) (c : EventCommitter) : EventCommitter :=
  mkCommitter (c_log c) (c_journal c) s (c_log_rotation_bytes c) (c_write_buf c) (c_flush_every c).
Definition c_set_write_buf (b : list LogEntry) (c : EventCommitter) : EventCommitter :=
  mkCommitter (c_log c) (c_journal c) (c_live_state c) (c_log_rotation_bytes c) b (c_flush_every c).

Definition committer_new (l : Log) (j : EventJournal) (s : KernelState) : EventCommitter :=
  mkCommitter l j s (Some DEFAULT_LOG_ROTATION_BYTES) [] DEFAULT_WRITE_BUFFER_SIZE.
Definition with_rotation_bytes (limit : option Z) (c : EventCommitter) : EventCommitter :=
  mkCommitter (c_log c) (c_journal c) (c_live_state c) limit (c_write_buf c) (c_flush_every c).
Definition with_flush_every (n : Z) (c : EventCommitter) : EventCommitter :=
  mkCommitter (c_log c) (c_journal c) (c_live_state c) (c_log_rotation_bytes c) []
    (if n =? 0 then 1 else n).

Abbreviation CM A := (M CommitError EventCommitter A).

(** Clock readings of one commit: of the log append, the journal, the
    checkpoint entry and the rotation. *)
Record Times : Type := mkTimes { t_append : Z; t_journal : Z; t_checkpoint : Z; t_rotate : Z }.

(** Run an operation of the log and wrap its error. *)
Definition with_log {A} (m : M EventLogError Log A) : CM A :=
  fun c => let '(l, o) := m (c_log c) in (c_set_log l c, map_err CEventLog o).

(** Run an operation of the kernel and wrap its error. *)
Definition with_live {A} (wrap : outcome KernelError A -> outcome CommitError A)
    (m : M KernelError KernelState A) : CM A :=
  fun c => let '(s, o) := m (c_live_state c) in (c_set_live s c, wrap o).

(** [.expect(..)] *)
Definition expect {A} (o : outcome KernelError A) : outcome CommitError A :=
  match o with Ok a => Ok a | Err _ => Panic | Panic => Panic | Hang => Hang end.

Fixpoint rsplit_dot (n : name) : option name :=
  match n with
  | [] => None
  | b :: n =>
      match rsplit_dot n with
      | Some p => Some (b :: p)
      | None => if b =? 46 then Some [] else None
      end
  end.
Definition file_stem (n : name) : name := match rsplit_dot n with Some (b :: p) => b :: p | _ => n end.
Definition with_extension (n ext : name) : name := file_stem n ++ [46] ++ ext.

(** [format!("log.{:06}", seq)] *)
Definition archive_extension (seq : Z) : name := [108; 111; 103; 46] ++ dec_padded 6 seq.

Definition log_entry (namespace_id : Z) (event : KernelEvent) : LogEntry :=
  if namespace_id =? DEFAULT_NS then Wire.Event event else EventNs namespace_id event.

Section Commit.
Context `{Bincode} (blake3 : list Z -> list Z) (crc32 : list Z -> Z).

Definition flush_pending (now : Z) : CM unit :=
  let* c := sget in
  match c_write_buf c with
  | [] => sret tt
  | buf => with_log (append_batch blake3 crc32 now buf) ;;; smodify (c_set_write_buf [])
  end.

Definition maybe_rotate (t : Times) : CM unit :=
  let* c := sget in
  match c_log_rotation_bytes c with
  | None => sret tt
  | Some limit =>
      let w := lg_writer (c_log c) in
      if lw_bytes_written w <? limit then sret tt
      else
        let height := j_committed_height (c_journal c) in
        let state_hash := hash_state_blake3 blake3 (c_live_state c) in
        let archive_path := with_extension (lw_path w) (archive_extension (lw_segment_seq w)) in
        let checkpoint := Checkpoint height state_hash (t_checkpoint t) in
        fun c =>
          match rotate blake3 crc32 (t_rotate t) archive_path (Some checkpoint) (c_log c) with
          | (l, Ok _) | (l, Err _) => (c_set_log l c, Ok tt)
          | (l, Panic) => (c_set_log l c, Panic)
          | (l, Hang) => (c_set_log l c, Hang)
          end
  end.

(** Steps 3 and 4 of a commit. *)
Definition buffer_entry (now : Z) (e : LogEntry) : CM unit :=
  smodify (fun c => c_set_write_buf (c_write_buf c ++ [e]) c) ;;;
  let* c := sget in
  if c_flush_every c <=? len (c_write_buf c) then
    with_log (append_batch blake3 crc32 now (c_write_buf c)) ;;; smodify (c_set_write_buf [])
  else sret tt.

Definition commit_event_ns (t : Times) (event : KernelEvent) (namespace_id : Z) : CM CommitResult :=
  let* c := sget in
  let* _ := slift (map_err ShadowApply (apply_event_ns event namespace_id (c_live_state c)).2) in
  with_live expect (apply_event_ns event namespace_id) ;;;
  buffer_entry (t_append t) (log_entry namespace_id event) ;;;
  smodify (fun c => c_set_journal (commit_buffer (t_journal t) (append_buffered event (c_journal c))) c) ;;;
  maybe_rotate t ;;;
  sret Committed.

Definition commit_event (t : Times) (event : KernelEvent) : CM CommitResult :=
  commit_event_ns t event DEFAULT_NS.

Definition flush_log (now : Z) : CM unit := flush_pending now ;;; with_log flush.

(** The shadow run of a batch. *)
Fixpoint apply_all (namespace_id : Z) (events : list KernelEvent) : M KernelError KernelState unit :=
  match events with
  | [] => sret tt
  | e :: events => apply_event_ns e namespace_id ;;; apply_all namespace_id events
  end.

Definition commit_batch_ns (t : Times) (events : list KernelEvent) (namespace_id : Z) : CM CommitResult :=
  match events with
  | [] => sret Committed
  | _ =>
      let* c := sget in
      let* _ := slift (map_err ShadowApply (apply_all namespace_id events (c_live_state c)).2) in
      with_log (append_batch blake3 crc32 (t_append t) (log_entry namespace_id <$> events)) ;;;
      with_live expect (apply_all namespace_id events) ;;;
      smodify (fun c => c_set_journal
        (commit_buffer (t_journal t) (foldl (fun j e => append_buffered e j) (c_journal c) events)) c) ;;;
      maybe_rotate t ;;;
      sret Committed
  end.

Definition commit_batch (t : Times) (events : list KernelEvent) : CM CommitResult :=
  commit_batch_ns t events DEFAULT_NS.

Definition rotate_log (now_flush now : Z) (archive_path : name) (checkpoint_entry : option LogEntry) : CM unit :=
  flush_pending now_flush ;;;
  with_log (rotate blake3 crc32 now archive_path checkpoint_entry).

Definition write_checkpoint (now : Z) (e : LogEntry) : CM CommitResult :=
  with_log (append blake3 crc32 now e) ;;;
  match e with
  | Checkpoint event_count _ _ =>
      smodify (fun c => c_set_journal (set_height event_count (c_journal c)) c) ;;; sret Committed
  | _ => sret Committed
  end.

(** [Drop]: flush the pending entries, ignoring errors; [BufWriter] flushes as it goes. *)
Definition drop_committer (now : Z) (c : EventCommitter) : Fs :=
  let c := (flush_pending now c).1 in lg_fs (bw_flush (c_log c)).1.

Definition into_parts (now : Z) (c : EventCommitter) : Log * EventJournal * KernelState :=
  let c := (flush_pending now c).1 in (c_log c, c_journal c, c_live_state c).
End Commit.

(** ** Recovery (event_replay.rs) *)
Inductive ReplayError : Type :=
| RIo
| RInvalidHeader
| RDimensionMismatch (log_dim expected_dim : Z)
| REventApplication (e : KernelError)
| RCorrupted (offset : Z).

Fixpoint replay_from (events : list (Z * KernelEvent)) : M KernelError KernelState unit :=
  match events with
  | [] => sret tt
  | (ns, e) :: events => apply_event_ns e ns ;;; replay_from events
  end.

Definition replay_events (events : list (Z * KernelEvent)) : outcome ReplayError KernelState :=
  let '(s, o) := replay_from events KernelState_new in
  do* _ := map_err REventApplication o in Ok s.

Record SegmentReplay : Type := mkSegment {
  sg_seq : Z;
  sg_prev_head : list Z;
  sg_final_head : list Z;
  sg_events : list (Z * KernelEvent);
}.

Definition routed (d : DecodedEntry) : option (Z * KernelEvent) :=
  match entry d with
  | Wire.Event e => Some (DEFAULT_NS, e)
  | EventNs ns e => Some (ns, e)
  | _ => None
  end.

Definition sort_by_seq (l : list SegmentReplay) : list SegmentReplay := sort_by_key sg_seq l.

Fixpoint splice (prev_close : option (list Z)) (segments : list SegmentReplay)
  : outcome ReplayError (list (Z * KernelEvent)) :=
  match segments with
  | [] => Ok []
  | seg :: segments =>
      do* _ :=
        match prev_close with
        | Some prev => if negb (bool_decide (sg_prev_head seg = prev)) then Err (RCorrupted 0) else Ok tt
        | None => Ok tt
        end in
      do* rest := splice (Some (sg_final_head seg)) segments in
      Ok (sg_events seg ++ rest)
  end.

Fixpoint starts_with (prefix n : name) : bool :=
  match prefix, n with
  | [], _ => true
  | b :: prefix, b' :: n => (b =? b') && starts_with prefix n
  | _ :: _, [] => false
  end.

(** [collect::<Result<_>>]: the first error wins. *)
Fixpoint collect_results {E A B} (f : A -> outcome E B) (l : list A) : outcome E (list B) :=
  match l with
  | [] => Ok []
  | a :: l => do* b := f a in do* bs := collect_results f l in Ok (b :: bs)
  end.

Section Replay.
Context `{Bincode} (blake3 : list Z -> list Z) (crc32 : list Z -> Z).

Definition read_segment_full (fs : Fs) (expected_dim : option Z) (path : name)
  : outcome ReplayError SegmentReplay :=
  do* buffer := ok_or (fs !! path) RIo in
  do* header := map_err (fun _ => RInvalidHeader) (parse_header buffer) in
  do* _ :=
    match expected_dim with
    | Some expected =>
        if negb (dim header =? expected) then Err (RDimensionMismatch (dim header) expected) else Ok tt
    | None => Ok tt
    end in
  do* walked :=
    map_err (fun e => match e with WalkChainBroken o => RCorrupted o | WalkWire o _ => RCorrupted o end)
      (walk_segment_body blake3 crc32 (version header) buffer (header_len header)
         (prev_segment_chain_head header)) in
  let '(decoded_entries, chain_head) := walked in
  Ok (mkSegment (segment_seq header) (prev_segment_chain_head header) chain_head
        (omap routed decoded_entries)).

Definition read_all_segments (fs : Fs) (listing : list name) (live_path : name) (expected_dim : option Z)
  : outcome ReplayError (list (Z * KernelEvent)) :=
  let paths := live_path :: filter (fun n => starts_with (live_path ++ [46]) n = true) listing in
  do* segments := collect_results (read_segment_full fs expected_dim) paths in
  splice None (sort_by_seq segments).

Definition recover_from_event_log (fs : Fs) (listing : list name) (log_path : name)
  : outcome ReplayError (KernelState * EventJournal * Z) :=
  do* events := read_all_segments fs listing log_path None in
  do* state := replay_events events in
  Ok (state, from_committed (snd <$> events), len events).

Definition verify_snapshot_consistency (snapshot_state replayed_state : KernelState) : bool :=
  bool_decide (hash_state_blake3 blake3 snapshot_state = hash_state_blake3 blake3 replayed_state).

Definition compute_event_log_hash (fs : Fs) (path : name) : outcome ReplayError (list Z) :=
  do* bytes := ok_or (fs !! path) RIo in Ok (blake3 bytes).
End Replay.
