(* ===== verification/Rotation.v ===== *)
(** * Rotated logs

    A log that has been rotated is a live file and sealed segments beside it,
    named by their sequence number and spliced by the chain head the next header
    repeats.  [archived] is the invariant of the directory; rotation keeps it,
    and [read_all_segments] reads every event of it in order, in whatever order
    the directory is listed. *)

From stdpp Require Import gmap sorting.
From S2P Require Import Prelude.
From S2P Require Import Hoare.
From S2P Require Import Core.
From S2P Require Import Bytes.
From S2P Require Import Event.
From S2P Require Import StateProof.
From S2P Require Import EventCodec.
From S2P Require Import Wire.
From S2P Require Import WireTheorems.
From S2P Require Import EventLog.
From S2P Require Import EventLogTheorems.
From S2P Require Import EventCommit.

(** ** Names of archives *)

(** The number that decimal digits write. *)
Definition dec_value (ds : list Z) : Z := foldl (fun v d => v * 10 + (d - 48)) 0 ds.

Lemma dec_value_snoc ds d : dec_value (ds ++ [d]) = dec_value ds * 10 + (d - 48).
Proof. unfold dec_value. by rewrite foldl_snoc. Qed.

Lemma dec_value_digits fuel v : 0 <= v < 10 ^ Z.of_nat fuel -> dec_value (dec_digits fuel v) = v.
Proof.
  revert v. induction fuel as [|fuel IH]; intros v Hv; [change (10 ^ Z.of_nat 0) with 1 in Hv; cbn; lia|].
  rewrite Nat2Z.inj_succ, Z.pow_succ_r in Hv by lia. cbn [dec_digits].
  rewrite dec_value_snoc. destruct (v <? 10) eqn:E1; bool_prop.
  - rewrite Z.mod_small by lia. cbn. lia.
  - rewrite IH; [pose proof (Z_div_mod_eq_full v 10); lia|].
    split; [apply Z.div_pos; lia|]. apply Z.div_lt_upper_bound; lia.
Qed.

Lemma dec_value_padded w v : 0 <= v < 10 ^ 20 -> dec_value (dec_padded w v) = v.
Proof.
  intros Hv. unfold dec_padded. pose proof (dec_value_digits 20 v Hv) as E1. revert E1.
  generalize (dec_digits 20 v). intros ds <-. generalize (w - length ds)%nat. intros n. unfold dec_value.
  rewrite foldl_app. f_equal. induction n as [|n IH]; [done|]. exact IH.
Qed.

Definition archive_name (path : name) (i : nat) : name := with_extension path (archive_extension (Z.of_nat i)).

Lemma archive_name_inj path i j :
  Z.of_nat i <= u32_MAX -> Z.of_nat j <= u32_MAX -> archive_name path i = archive_name path j -> i = j.
Proof.
  unfold archive_name, with_extension, archive_extension. intros Hi Hj E1. repeat apply (inj (app _)) in E1.
  apply (f_equal dec_value) in E1. unfold u32_MAX in *. rewrite !dec_value_padded in E1 by lia. lia.
Qed.

(** The log is called [*.log], so that its archives are [*.log.NNNNNN]. *)
Definition log_extension : name := [46; 108; 111; 103].
Definition named_log (path : name) : Prop := path = file_stem path ++ log_extension.

Lemma archive_name_eq path i : named_log path -> archive_name path i = path ++ [46] ++ dec_padded 6 (Z.of_nat i).
Proof.
  unfold named_log. intros Hp. unfold archive_name, with_extension, archive_extension. rewrite Hp at 2. by rewrite <- !app_assoc.
Qed.

Lemma archive_name_ne path i : named_log path -> archive_name path i <> path.
Proof. intros Hp E1. rewrite archive_name_eq in E1 by done. apply (f_equal length) in E1. rewrite length_app in E1. simpl in E1. lia. Qed.

Lemma starts_with_app p n : starts_with p (p ++ n) = true.
Proof. induction p as [|b p IH]; [done|]. simpl. by rewrite Z.eqb_refl. Qed.

Lemma starts_with_longer p b n : starts_with (p ++ [b]) n = true -> n <> p.
Proof.
  intros Hs ->. revert Hs. induction p as [|x p IH]; [done|]. simpl. rewrite Z.eqb_refl. exact IH.
Qed.

(** A file that is neither the log nor named like one of its archives. *)
Definition outside (path p : name) : Prop := p <> path /\ starts_with (path ++ [46]) p = false.

Lemma collect_results_ok {E A B} (f : A -> outcome E B) (g : A -> B) l :
  (forall a, a ∈ l -> f a = Ok (g a)) -> collect_results f l = Ok (g <$> l).
Proof.
  induction l as [|a l IH]; intros Hf; [done|]. cbn [collect_results]. rewrite Hf by set_solver. cbn [obind].
  rewrite IH by (intros; apply Hf; set_solver). done.
Qed.

(** ** The directory of a rotated log *)
Record Sealed : Type := mkSealed { sl_hd : SegmentHeader; sl_hdr : list Z; sl_es : list DecodedEntry }.

(** The names of a directory, in any order. *)
Definition lists (fs : Fs) (listing : list name) : Prop :=
  NoDup listing /\ forall n, n ∈ listing <-> is_Some (fs !! n).

Section Archives.
Context `{BincodeLaws} (blake3 : list Z -> list Z) (crc32 : list Z -> Z).
Context (blake3_hash : forall m, hash_typed (blake3 m)) (crc32_u32 : forall m, in_u32 (crc32 m)).

Local Abbreviation holds := (holds blake3 crc32).
Local Abbreviation body := (body crc32).
Local Abbreviation final := (final blake3).

Definition close (a : Sealed) : list Z :=
  final (version (sl_hd a)) (prev_segment_chain_head (sl_hd a)) (sl_es a).

Definition opens_at (prev : option (list Z)) (hd : SegmentHeader) : Prop :=
  match prev with Some p => prev_segment_chain_head hd = p | None => True end.

(** Each segment opens where the one before it closed. *)
Fixpoint splices (prev : option (list Z)) (arch : list Sealed) (live : SegmentHeader) : Prop :=
  match arch with
  | [] => opens_at prev live
  | a :: arch => opens_at prev (sl_hd a) /\ splices (Some (close a)) arch live
  end.

Definition sealed_in (fs : Fs) (path : name) (i : nat) (a : Sealed) : Prop :=
  fs !! archive_name path i = Some (sl_hdr a ++ body (version (sl_hd a)) (sl_es a))
  /\ segment blake3 (sl_hd a) (sl_hdr a) (sl_es a) /\ segment_seq (sl_hd a) = Z.of_nat i.

Record archived (l : Log) (arch : list Sealed) (hd : SegmentHeader) : Prop := {
  ar_sealed : forall i a, arch !! i = Some a -> sealed_in (lg_fs l) (lw_path (lg_writer l)) i a;
  ar_splice : splices None arch hd;
  ar_seq : segment_seq hd = Z.of_nat (length arch);
  ar_only : forall n, starts_with (lw_path (lg_writer l) ++ [46]) n = true -> is_Some (lg_fs l !! n) ->
            exists i, (i < length arch)%nat /\ n = archive_name (lw_path (lg_writer l)) i;
  ar_path : named_log (lw_path (lg_writer l));
  ar_dim : 1 <= dim hd <= WIRE_MAX_DIM;
  ar_count : Z.of_nat (length arch) <= u32_MAX;
}.

Lemma archived_framed l l' arch hd : archived l arch hd -> framed l l' -> archived l' arch hd.
Proof.
  intros [Hs Hsp Hq Ho Hp Hd Hc] [Ep Hf]. split; rewrite ?Ep; try done.
  - intros i a Ha. destruct (Hs i a Ha) as (E1 & ? & ?). split; [|done]. by rewrite Hf by (by apply archive_name_ne).
  - intros n Hn. rewrite Hf by (by eapply starts_with_longer). by apply Ho.
Qed.

Lemma splices_snoc prev arch live a next :
  splices prev arch live -> sl_hd a = live -> prev_segment_chain_head next = close a ->
  splices prev (arch ++ [a]) next.
Proof. revert prev. induction arch as [|x arch IH]; simpl; intros prev; [by intros ? ->|]. intros [? ?] ? ?. auto. Qed.

(** ** Rotation *)
Lemma holds_segment l hd hdr es : holds l hd hdr es -> segment blake3 hd hdr es.
Proof. by intros []. Qed.

(** [rotate] with its steps named: the sealed file, the new header, the
    checkpoint. *)
Definition rotated_log (now : Z) (checkpoint : LogEntry) (archive : name) (f : list Z) (l : Log) : Log :=
  let w := lg_writer l in
  let path := lw_path w in
  let seq := wrap_u32 (lw_segment_seq w + 1) in
  let d := mkEntry (lw_chain_head w) now None checkpoint in
  mkLog (<[path := encode_header_v4 (lw_dim w) FORMAT_Q16_16 seq (lw_chain_head w) ++ on_disk crc32 VERSION_V4 d]>
           (<[archive := f]> (delete path (lg_fs l))))
    (mkWriter path path [] (lw_event_count w) (lw_dim w) VERSION_V4 seq (advance blake3 VERSION_V4 (lw_chain_head w) d) 0).

Lemma rotate_eq now checkpoint archive f l :
  lw_file (lg_writer l) = lw_path (lg_writer l) -> lw_buf (lg_writer l) = [] ->
  lg_fs l !! lw_path (lg_writer l) = Some f -> archive <> lw_path (lg_writer l) ->
  storable VERSION_V4 (mkEntry (lw_chain_head (lg_writer l)) now None checkpoint) ->
  rotate blake3 crc32 now archive (Some checkpoint) l = (rotated_log now checkpoint archive f l, Ok tt).
Proof.
  intros Ef Eb El Hne Hst. destruct l as [fs [path file buf count d v seq head bytes]]. simpl in *. subst file buf.
  unfold rotate, bw_flush, fs_append, sbind, sget, smodify, slift, rename, on_fs, on_writer. cbn -[encode_header_v4 encode_entry on_disk chain_advance].
  rewrite El, app_nil_r. cbn -[encode_header_v4 encode_entry on_disk chain_advance]. rewrite lookup_insert_eq.
  unfold create_new, write_file, write_checkpoint_entry, sbind, sget, smodify, slift, on_fs, on_writer.
  cbn -[encode_header_v4 encode_entry on_disk chain_advance]. rewrite bool_decide_true by done. cbn -[encode_header_v4 encode_entry].
  rewrite delete_insert_eq, lookup_insert_ne, lookup_delete_eq by done. cbn -[encode_header_v4 encode_entry on_disk chain_advance].
  rewrite encode_entry_on_disk by done. cbn -[encode_header_v4 encode_entry on_disk chain_advance].
  unfold rotated_log, fs_append. cbn -[encode_header_v4 on_disk].
  rewrite !lookup_insert_eq. rewrite !insert_insert_eq. done.
Qed.

Lemma rotate_ok l arch hd hdr es now checkpoint :
  holds l hd hdr es -> archived l arch hd -> loggable VERSION_V4 checkpoint -> in_u64 now ->
  Z.of_nat (S (length arch)) <= u32_MAX ->
  exists l' hd' hdr' d, rotate blake3 crc32 now (archive_name (lw_path (lg_writer l)) (length arch)) (Some checkpoint) l
      = (l', Ok tt)
    /\ holds l' hd' hdr' [d] /\ archived l' (arch ++ [mkSealed hd hdr es]) hd' /\ version hd' = VERSION_V4
    /\ entry d = checkpoint /\ lw_path (lg_writer l') = lw_path (lg_writer l) /\ lw_buf (lg_writer l') = []
    /\ lw_event_count (lg_writer l') = lw_event_count (lg_writer l)
    /\ dim hd' = dim hd /\ forall p, outside (lw_path (lg_writer l)) p -> lg_fs l' !! p = lg_fs l !! p.
Proof.
  intros Hh Ha Hx Hn Hc.
  destruct (bw_flush_ok blake3 crc32 l hd hdr es Hh) as (l1 & Ef & Hh1 & Hb1 & F1 & _).
  pose proof (archived_framed _ _ _ _ Ha F1) as Ha1. destruct F1 as [Ep Hfr].
  assert (forall a c, rotate blake3 crc32 now a c l = rotate blake3 crc32 now a c l1) as ->.
  { assert (bw_flush l1 = (l1, Ok tt)) as E1; [|intros a c; unfold rotate; by rewrite (bind_ok _ _ _ _ _ Ef), (bind_ok _ _ _ _ _ E1)].
    destruct Hh1 as [Hf (f & Hl & _)]. destruct l1 as [fs w]. unfold bw_flush, smodify, fs_append. cbn [lg_fs lg_writer] in *.
    rewrite Hb1, Hf, Hl, app_nil_r. simpl. rewrite insert_id by done. by destruct w; simpl in *; subst. }
  assert (lw_event_count (lg_writer l1) = lw_event_count (lg_writer l)) as Ec by (by injection Ef as <-).
  assert (forall p, outside (lw_path (lg_writer l1)) p -> lg_fs l1 !! p = lg_fs l !! p) as Hout
    by (intros p [Hp _]; apply Hfr; congruence).
  rewrite <- Ep, <- Ec. clear Hh Ha Ef Ep Ec Hfr.
  pose proof Hh1 as [Hf (f & Hl & Ef) Hps Hln Hpv Hwv Hlk Hhead Hv Hdim Hseq].
  pose proof Ha1 as [Hs Hsp Hq Ho Hp Hd Hcnt]. rewrite Hb1, app_nil_r in Ef.
  assert (Hht : hash_typed (lw_chain_head (lg_writer l1))) by (by eapply holds_head_typed).
  assert (Hst : storable VERSION_V4 (mkEntry (lw_chain_head (lg_writer l1)) now None checkpoint)) by (by apply Hx).
  rewrite (rotate_eq _ _ _ f) by (done || by apply archive_name_ne).
  assert (wrap_u32 (lw_segment_seq (lg_writer l1) + 1) = Z.of_nat (S (length arch))) as Eseq.
  { rewrite Hseq, Hq, wrap_u32_small by int_lia. lia. }
  set (path := lw_path (lg_writer l1)) in *.
  set (hd' := mkHeader VERSION_V4 (dim hd) FORMAT_Q16_16 (Z.of_nat (S (length arch))) (lw_chain_head (lg_writer l1)) HEADER_SIZE_V3).
  exists (rotated_log now checkpoint (archive_name path (length arch)) f l1), hd',
    (encode_header_v4 (dim hd) FORMAT_Q16_16 (Z.of_nat (S (length arch))) (lw_chain_head (lg_writer l1))),
    (mkEntry (lw_chain_head (lg_writer l1)) now None checkpoint). split; [reflexivity|].
  assert (Hps' : forall rest, parse_header (encode_header_v4 (dim hd) FORMAT_Q16_16 (Z.of_nat (S (length arch)))
                   (lw_chain_head (lg_writer l1)) ++ rest) = Ok hd').
  { intros rest. apply parse_header_v4; [done|unfold in_u32, u32_MAX in *; lia|by destruct Hht]. }
  split_and!; try done.
  - unfold rotated_log. rewrite Eseq, Hdim. split; simpl; try done.
    + eexists. rewrite lookup_insert_eq. split; [done|].
      rewrite body_cons. change (EventLogTheorems.body crc32 VERSION_V4 []) with (@nil Z). by rewrite !app_nil_r.
    + unfold encode_header_v4, HEADER_SIZE_V3. destruct Hht as [_ Hlen]. unfold len.
      by rewrite !length_app, !length_le_bytes, length_replicate, Hlen.
    + by right; right.
  - unfold rotated_log. rewrite Eseq. split; cbn [lg_fs lg_writer lw_path]; try done.
    + intros i a Hi. apply lookup_app_Some in Hi as [Hi | [Hge Hi]].
      * destruct (Hs i a Hi) as (E1 & E2 & E3). apply lookup_lt_Some in Hi. split; [|done].
        rewrite lookup_insert_ne by (intros E4; by apply (archive_name_ne path i Hp)).
        rewrite lookup_insert_ne by (intros E4%archive_name_inj; lia).
        by rewrite lookup_delete_ne by (intros E4; by apply (archive_name_ne path i Hp)).
      * apply list_lookup_singleton_Some in Hi as [E1 <-]. replace i with (length arch) by lia.
        split; [|split; [by eapply holds_segment|done]].
        rewrite lookup_insert_ne by (intros E4; by apply (archive_name_ne path (length arch) Hp)).
        rewrite lookup_insert_eq. by rewrite Ef.
    + by eapply splices_snoc.
    + simpl. rewrite length_app. simpl. lia.
    + intros n Hn' [bs Hbs]. rewrite length_app. simpl. pose proof (starts_with_longer _ _ _ Hn') as Hne.
      rewrite lookup_insert_ne in Hbs by done.
      destruct (decide (n = archive_name path (length arch))) as [-> | Hna]; [exists (length arch); split; [lia|done]|].
      rewrite lookup_insert_ne, lookup_delete_ne in Hbs by done.
      destruct (Ho n Hn') as (i & ? & ?); [by eexists|]. exists i. split; [lia|done].
    + rewrite length_app. simpl. lia.
  - intros p Hpo. rewrite <- Hout by done. destruct Hpo as [Hpo1 Hpo2]. unfold rotated_log. cbn [lg_fs]. fold path.
    rewrite lookup_insert_ne by done. rewrite lookup_insert_ne, lookup_delete_ne; [done|done|].
    intros <-. rewrite archive_name_eq, app_assoc, starts_with_app in Hpo2 by done. discriminate.
Qed.

(** ** Reading every segment *)
Definition segment_of (a : Sealed) : SegmentReplay :=
  mkSegment (segment_seq (sl_hd a)) (prev_segment_chain_head (sl_hd a)) (close a) (omap routed (sl_es a)).

Lemma read_segment_ok fs path a :
  fs !! path = Some (sl_hdr a ++ body (version (sl_hd a)) (sl_es a)) ->
  segment blake3 (sl_hd a) (sl_hdr a) (sl_es a) ->
  read_segment_full blake3 crc32 fs None path = Ok (segment_of a).
Proof.
  intros E1 (Hp & Hl & Hw & Hk). unfold read_segment_full. rewrite E1. cbn [ok_or obind]. rewrite Hp. cbn [map_err obind].
  rewrite <- Hl, <- (app_nil_r (body _ _)), walk_segment by (done || by left). done.
Qed.

Lemma splice_ok prev arch live :
  splices prev arch (sl_hd live) ->
  splice prev (segment_of <$> arch ++ [live]) = Ok (concat ((fun a => omap routed (sl_es a)) <$> arch ++ [live])).
Proof.
  revert prev. induction arch as [|a arch IH]; intros prev; csimpl.
  - unfold opens_at. destruct prev as [p|]; [|done]. intros ->. by rewrite bool_decide_true by done.
  - intros [Ho Hs]. rewrite (IH _ Hs). cbn [obind]. unfold opens_at in Ho.
    destruct prev as [p|]; [|done]. simpl. by rewrite Ho, bool_decide_true by done.
Qed.

(** The archives of the directory are the listed names that start like the
    log's. *)
Lemma archives_listed l arch hd listing :
  archived l arch hd -> lists (lg_fs l) listing ->
  filter (fun n => starts_with (lw_path (lg_writer l) ++ [46]) n = true) listing
  ≡ₚ archive_name (lw_path (lg_writer l)) <$> seq 0 (length arch).
Proof.
  intros [Hs Hsp Hq Ho Hp Hd Hc] [Hnd Hl]. apply NoDup_Permutation.
  - by apply NoDup_filter.
  - apply NoDup_fmap_2_strong; [|apply NoDup_seq].
    intros i j Hi%elem_of_seq Hj%elem_of_seq. apply archive_name_inj; lia.
  - intros n. rewrite list_elem_of_filter, list_elem_of_fmap, Hl. split.
    + intros [Hn Hf]. destruct (Ho n Hn Hf) as (i & Hi & ->). exists i. split; [done|]. apply elem_of_seq. lia.
    + intros (i & -> & Hi%elem_of_seq). split.
      * rewrite archive_name_eq, app_assoc by done. apply starts_with_app.
      * destruct (lookup_lt_is_Some_2 arch i) as [a Ha]; [lia|]. destruct (Hs i a Ha) as [E1 _]. by rewrite E1.
Qed.

Definition all_entries (arch : list Sealed) (es : list DecodedEntry) : list DecodedEntry :=
  concat (sl_es <$> arch) ++ es.

Lemma routed_entries arch live :
  concat ((fun a => omap routed (sl_es a)) <$> arch ++ [live]) = omap routed (all_entries arch (sl_es live)).
Proof.
  unfold all_entries. induction arch as [|a arch IH]; csimpl; [by rewrite app_nil_r|].
  by rewrite IH, <- app_assoc, (omap_app _ (sl_es a)).
Qed.

Lemma read_all_ok l arch hd hdr es listing :
  holds l hd hdr es -> archived l arch hd -> lw_buf (lg_writer l) = [] -> lists (lg_fs l) listing ->
  read_all_segments blake3 crc32 (lg_fs l) listing (lw_path (lg_writer l)) None
  = Ok (omap routed (all_entries arch es)).
Proof.
  intros Hh Ha Hb Hl. pose proof (archives_listed _ _ _ _ Ha Hl) as Hperm. pose proof Ha as [Hs Hsp Hq Ho Hp Hd Hc].
  set (live := mkSealed hd hdr es). set (path := lw_path (lg_writer l)) in *.
  assert (forall i, (i < length arch)%nat -> exists a, arch !! i = Some a
            /\ read_segment_full blake3 crc32 (lg_fs l) None (archive_name path i) = Ok (segment_of a)) as Hr.
  { intros i Hi. destruct (lookup_lt_is_Some_2 arch i Hi) as [a Ea]. exists a. split; [done|].
    destruct (Hs i a Ea) as (E1 & Hsg & _). by apply read_segment_ok. }
  assert (read_segment_full blake3 crc32 (lg_fs l) None path = Ok (segment_of live)) as Elive.
  { apply read_segment_ok; [|by eapply holds_segment]. destruct Hh as [_ (f & Ef & Eb)].
    rewrite Hb, app_nil_r in Eb. subst f. exact Ef. }
  set (read n := match read_segment_full blake3 crc32 (lg_fs l) None n with Ok s => s | _ => segment_of live end).
  unfold read_all_segments. fold path. rewrite (collect_results_ok _ read).
  - cbn [obind]. unfold sort_by_seq. rewrite (sort_by_key_unique _ _ (segment_of <$> arch ++ [live])).
    + rewrite splice_ok by done. by rewrite routed_entries.
    + csimpl. rewrite Hperm, fmap_app. csimpl.
      assert (read path = segment_of live) as -> by (unfold read; by rewrite Elive).
      rewrite <- Permutation_cons_append. apply Permutation_skip. rewrite <- list_fmap_compose.
      apply (reflexive_eq (R := Permutation)), list_eq. intros i. rewrite !list_lookup_fmap.
      destruct (decide (i < length arch)%nat) as [Hi | Hi].
      * destruct (Hr i Hi) as (a & Ea & E1). rewrite lookup_seq_lt, Ea by done. simpl. unfold read. by rewrite E1.
      * rewrite lookup_seq_ge, lookup_ge_None_2 by lia. done.
    + apply (sorted_by_position _ _ 0). intros i s Hi. rewrite list_lookup_fmap in Hi.
      destruct ((arch ++ [live]) !! i) as [a|] eqn:E1; [|done]. injection Hi as <-.
      apply lookup_app_Some in E1 as [Hi | [Hge Hi]].
      * by destruct (Hs i a Hi) as (_ & _ & E1).
      * apply list_lookup_singleton_Some in Hi as [E1 <-]. simpl. rewrite Hq. f_equal. lia.
  - intros n [-> | Hn]%elem_of_cons; [unfold read; by rewrite Elive|]. rewrite Hperm in Hn.
    apply list_elem_of_fmap in Hn as (i & -> & Hi%elem_of_seq). destruct (Hr i) as (a & _ & E1); [lia|].
    unfold read. by rewrite E1.
Qed.
End Archives.
