(* ===== verification/CommitProofs.v ===== *)
(** * The commit barrier refines the log

    The abstract view of a committer is the history of its events: what the
    log holds followed by what waits in the write buffer.  Replaying the
    history gives the live state, and every operation keeps it so. *)

From stdpp Require Import gmap.
From S2P Require Import Prelude.
From S2P Require Import Hoare.
From S2P Require Import Core.
From S2P Require Import Fxp.
From S2P Require Import TopK.
From S2P Require Import Slab.
From S2P Require Import Records.
From S2P Require Import Graph.
From S2P Require Import Index.
From S2P Require Import Event.
From S2P Require Import Kernel.
From S2P Require Import Bytes.
From S2P Require Import StateProof.
From S2P Require Import EventCodec.
From S2P Require Import Wire.
From S2P Require Import WireTheorems.
From S2P Require Import EventLog.
From S2P Require Import EventLogTheorems.
From S2P Require Import EventCommit.

(** ** Replay *)
Lemma replay_from_app a b s :
  replay_from (a ++ b) s
  = match replay_from a s with
    | (s', Ok _) => replay_from b s'
    | (s', o) => (s', o)
    end.
Proof.
  revert s. induction a as [|[ns e] a IH]; intros s; [done|]. cbn [app replay_from]. unfold sbind.
  destruct (apply_event_ns e ns s) as [s' [u|k| |]]; done.
Qed.

Lemma replay_apply_all ns (events : list KernelEvent) s : replay_from (pair ns <$> events) s = apply_all ns events s.
Proof.
  revert s. induction events as [|e events IH]; intros s; [done|]. csimpl. unfold sbind.
  destruct (apply_event_ns e ns s) as [s' [u|k| |]]; done.
Qed.

(** The event a log entry replays, by its namespace. *)
Definition route (x : LogEntry) : option (Z * KernelEvent) := routed (mkEntry [] 0 None x).

Lemma route_log_entry ns e : route (log_entry ns e) = Some (ns, e).
Proof. unfold log_entry. destruct (Z.eqb_spec ns DEFAULT_NS) as [-> | ?]; done. Qed.

Lemma omap_route_entries ns (events : list KernelEvent) : omap route (log_entry ns <$> events) = pair ns <$> events.
Proof. induction events as [|e events IH]; [done|]. csimpl. by rewrite route_log_entry, IH. Qed.

Section Refinement.
Context `{BincodeLaws} (blake3 : list Z -> list Z) (crc32 : list Z -> Z).
Context (blake3_hash : forall m, hash_typed (blake3 m)) (crc32_u32 : forall m, in_u32 (crc32 m)).

Lemma omap_routed_chained v head now xs : omap routed (chained blake3 v head now xs) = omap route xs.
Proof.
  revert head. induction xs as [|x xs IH]; intros head; [done|]. csimpl. rewrite IH. by destruct x.
Qed.

(** The history of a committer whose log holds [es]. *)
Definition history (c : EventCommitter) (es : list DecodedEntry) : list (Z * KernelEvent) :=
  omap routed es ++ omap route (c_write_buf c).

(** The log holds [es] and the buffer can be written. *)
Record stored (hd : SegmentHeader) (hdr : list Z) (c : EventCommitter) (es : list DecodedEntry) : Prop := {
  st_log : holds blake3 crc32 (c_log c) hd hdr es;
  st_flushed : lw_buf (lg_writer (c_log c)) = [];
  st_pending : Forall (loggable (version hd)) (c_write_buf c);
}.

(** Same state but for the log and the write buffer. *)
Definition same_memory (c c' : EventCommitter) : Prop :=
  c_live_state c' = c_live_state c /\ c_journal c' = c_journal c
  /\ c_log_rotation_bytes c' = c_log_rotation_bytes c /\ framed (c_log c) (c_log c').

(** Writing entries to the log, and clearing the buffer they came from. *)
Lemma append_batch_stored hd hdr c es xs now :
  stored hd hdr c es -> Forall (loggable (version hd)) xs -> in_u64 now ->
  exists l es', append_batch blake3 crc32 now xs (c_log c) = (l, Ok tt)
    /\ stored hd hdr (c_set_log l c) es' /\ omap routed es' = omap routed es ++ omap route xs
    /\ framed (c_log c) l.
Proof.
  intros [Hl Hb Hp] Hx Hn. destruct (append_batch_ok blake3 crc32 blake3_hash _ _ _ _ now xs Hl Hx Hn)
    as (l & -> & Hh & Hf & Hb'). do 2 eexists. split; [done|]. split; [split; [exact Hh|by apply Hb'|done]|].
  by rewrite omap_app, omap_routed_chained.
Qed.

Lemma drain_ok hd hdr c es now :
  stored hd hdr c es -> in_u64 now ->
  exists c' es',
    (with_log (append_batch blake3 crc32 now (c_write_buf c)) ;;; smodify (c_set_write_buf [])) c = (c', Ok tt)
    /\ stored hd hdr c' es' /\ c_write_buf c' = [] /\ history c' es' = history c es /\ same_memory c c'.
Proof.
  intros Hs Hn. destruct (append_batch_stored hd hdr c es _ now Hs (st_pending _ _ _ _ Hs) Hn)
    as (l & es' & E1 & [Hl Hb _] & Eh & Hf). unfold sbind, with_log. rewrite E1. cbn [map_err]. unfold smodify.
  do 2 eexists. split; [reflexivity|]. split; [split; [exact Hl|done|constructor]|]. split; [done|]. split; [|done].
  unfold history at 1. simpl. by rewrite app_nil_r, Eh.
Qed.

Lemma buffer_entry_ok hd hdr c es x ev now :
  stored hd hdr c es -> in_u64 now -> loggable (version hd) x -> route x = Some ev ->
  exists c' es', buffer_entry blake3 crc32 now x c = (c', Ok tt)
    /\ stored hd hdr c' es' /\ history c' es' = history c es ++ [ev] /\ same_memory c c'.
Proof.
  intros [Hl Hb Hp] Hn Hx Hr. unfold buffer_entry. unfold sbind at 1. unfold smodify at 1. unfold sbind at 1, sget.
  set (c1 := c_set_write_buf _ c).
  assert (stored hd hdr c1 es) as H1 by (split; [done|done|apply Forall_app; by auto]).
  assert (history c1 es = history c es ++ [ev]) as E1.
  { unfold history. simpl. rewrite omap_app. csimpl. by rewrite Hr, app_assoc. }
  destruct (_ <=? _).
  - destruct (drain_ok hd hdr c1 es now H1 Hn) as (c2 & es2 & E2 & H2 & _ & Eh & Hm). exists c2, es2.
    rewrite E2, Eh. by split_and!; try apply Hm.
  - by exists c1, es.
Qed.

(** ** The refinement

    [s0] is the state the committer started from, [past] what segments sealed
    earlier hold. *)
Record tracked (s0 : KernelState) (past : list (Z * KernelEvent)) (hd : SegmentHeader) (hdr : list Z) (c : EventCommitter)
    (es : list DecodedEntry) : Prop := {
  tr_stored : stored hd hdr c es;
  tr_replay : replay_from (past ++ history c es) s0 = (c_live_state c, Ok tt);
  tr_journal : j_committed (c_journal c) = snd <$> past ++ history c es;
  tr_buffer : j_buffer (c_journal c) = [];
}.

(** A committer that never rotates. *)
Record commit_inv (hd : SegmentHeader) (hdr : list Z) (c : EventCommitter) (es : list DecodedEntry) : Prop := {
  ci_stored : stored hd hdr c es;
  ci_replay : replay_from (history c es) KernelState_new = (c_live_state c, Ok tt);
  ci_journal : j_committed (c_journal c) = snd <$> history c es;
  ci_buffer : j_buffer (c_journal c) = [];
  ci_norotate : c_log_rotation_bytes c = None;
}.

Lemma commit_inv_tracked hd hdr c es :
  commit_inv hd hdr c es <-> tracked KernelState_new [] hd hdr c es /\ c_log_rotation_bytes c = None.
Proof. split; [intros [] | intros [[] ?]]; (split || split_and!); done. Qed.

Inductive commit_op : Type :=
| OpCommit (t : Times) (event : KernelEvent) (namespace_id : Z)
| OpBatch (t : Times) (events : list KernelEvent) (namespace_id : Z)
| OpFlush (now : Z).

Definition run_op (op : commit_op) (c : EventCommitter) : EventCommitter :=
  match op with
  | OpCommit t e ns => (commit_event_ns blake3 crc32 t e ns c).1
  | OpBatch t es ns => (commit_batch_ns blake3 crc32 t es ns c).1
  | OpFlush now => (flush_pending blake3 crc32 now c).1
  end.

(** The entries can be logged; a batch finds the write buffer empty. *)
Definition op_ok (v : Z) (op : commit_op) (c : EventCommitter) : Prop :=
  match op with
  | OpCommit t e ns => in_u64 (t_append t) /\ loggable v (log_entry ns e)
  | OpBatch t es ns => in_u64 (t_append t) /\ Forall (fun e => loggable v (log_entry ns e)) es /\ c_write_buf c = []
  | OpFlush now => in_u64 now
  end.

Lemma apply_unit {E S} (m : M E S unit) s s' u : m s = (s', Ok u) -> m s = (s', Ok tt).
Proof. by destruct u. Qed.

Lemma flush_pending_ok hd hdr c es now :
  stored hd hdr c es -> in_u64 now ->
  exists c' es', flush_pending blake3 crc32 now c = (c', Ok tt)
    /\ stored hd hdr c' es' /\ c_write_buf c' = [] /\ history c' es' = history c es /\ same_memory c c'.
Proof.
  intros Hs Hn. unfold flush_pending, sbind at 1, sget. destruct (c_write_buf c) as [|x xs] eqn:E1.
  - exists c, es. by rewrite E1.
  - rewrite <- E1. by apply drain_ok.
Qed.

Lemma maybe_rotate_off t c : c_log_rotation_bytes c = None -> maybe_rotate blake3 crc32 t c = (c, Ok tt).
Proof. intros E1. unfold maybe_rotate, sbind, sget. by rewrite E1. Qed.

Lemma commit_buffer_committed t j es :
  j_buffer j = [] -> j_committed (commit_buffer t (foldl (fun j e => append_buffered e j) j es)) = j_committed j ++ es
  /\ j_buffer (commit_buffer t (foldl (fun j e => append_buffered e j) j es)) = [].
Proof.
  intros Hj. split; [|done].
  assert (forall j, j_committed (foldl (fun j e => append_buffered e j) j es) = j_committed j
          /\ j_buffer (foldl (fun j e => append_buffered e j) j es) = j_buffer j ++ es) as Hf.
  { induction es as [|e es IH]; intros j'; simpl; [by rewrite app_nil_r|].
    destruct (IH (append_buffered e j')) as [-> ->]. simpl. by rewrite <- app_assoc. }
  simpl. destruct (Hf j) as [-> ->]. by rewrite Hj.
Qed.

(** A commit up to the point where the log may be rotated. *)
Lemma commit_event_step s0 past hd hdr c es t e ns :
  tracked s0 past hd hdr c es -> in_u64 (t_append t) -> loggable (version hd) (log_entry ns e) ->
  match (apply_event_ns e ns (c_live_state c)).2 with
  | Ok _ =>
      exists c' es', commit_event_ns blake3 crc32 t e ns c = (maybe_rotate blake3 crc32 t ;;; sret Committed) c'
        /\ tracked s0 past hd hdr c' es' /\ history c' es' = history c es ++ [(ns, e)]
        /\ framed (c_log c) (c_log c') /\ c_log_rotation_bytes c' = c_log_rotation_bytes c
        /\ j_committed_height (c_journal c') = len (j_committed (c_journal c'))
  | o => commit_event_ns blake3 crc32 t e ns c = (c, map_err ShadowApply (do* _ := o in Ok Committed))
  end.
Proof.
  intros [Hs Hr Hj Hb] Ht Hx. unfold commit_event_ns, slift.
  destruct (apply_event_ns e ns (c_live_state c)) as [s [[]|k| |]] eqn:Ea; simpl;
    unfold sbind at 1, sget; unfold sbind at 1; rewrite ?Ea; simpl; try done.
  unfold sbind at 1, with_live. rewrite Ea. cbn [expect]. unfold sbind at 1.
  assert (stored hd hdr (c_set_live s c) es) as Hs' by (by destruct Hs).
  destruct (buffer_entry_ok hd hdr (c_set_live s c) es _ (ns, e) (t_append t) Hs' Ht Hx (route_log_entry ns e))
    as (c2 & es2 & -> & Hs2 & Eh & El & Ej & Er & Hf). unfold sbind at 1, smodify.
  do 2 eexists. split; [reflexivity|]. split; [|split_and!; [exact Eh|exact Hf|exact Er|done]].
  destruct (commit_buffer_committed (t_journal t) (c_journal c) [e] Hb) as [Ec _].
  assert (history (c_set_journal (commit_buffer (t_journal t) (append_buffered e (c_journal c2))) c2) es2
          = history c es ++ [(ns, e)]) as Eh' by exact Eh.
  split; [by destruct Hs2| | |done].
  - rewrite Eh', app_assoc, replay_from_app, Hr. cbn [replay_from]. unfold sbind. rewrite Ea. simpl. by rewrite El.
  - rewrite Eh', app_assoc, fmap_app, <- Hj. simpl. rewrite Ej. exact Ec.
Qed.

Lemma commit_event_ok hd hdr c es t e ns :
  commit_inv hd hdr c es -> in_u64 (t_append t) -> loggable (version hd) (log_entry ns e) ->
  match commit_event_ns blake3 crc32 t e ns c with
  | (c', Ok _) =>
      (apply_event_ns e ns (c_live_state c)).2 = Ok tt
      /\ exists es', commit_inv hd hdr c' es' /\ history c' es' = history c es ++ [(ns, e)]
                     /\ framed (c_log c) (c_log c')
  | (c', o) => c' = c /\ o = map_err ShadowApply (do* _ := (apply_event_ns e ns (c_live_state c)).2 in Ok Committed)
  end.
Proof.
  intros [Hc Hn]%commit_inv_tracked Ht Hx. pose proof (commit_event_step KernelState_new [] hd hdr c es t e ns Hc Ht Hx) as Hstep.
  destruct (apply_event_ns e ns (c_live_state c)).2 as [[]|k| |]; [|by rewrite Hstep..].
  destruct Hstep as (c' & es' & -> & Hc' & Eh & Hf & Er & _).
  rewrite (bind_ok _ _ _ _ _ (maybe_rotate_off t c' (eq_trans Er Hn))). simpl. split; [done|]. exists es'.
  split; [|done]. apply commit_inv_tracked. by rewrite Er.
Qed.

Lemma commit_batch_step s0 past hd hdr c es t events ns :
  tracked s0 past hd hdr c es -> in_u64 (t_append t) ->
  Forall (fun e => loggable (version hd) (log_entry ns e)) events -> c_write_buf c = [] -> events <> [] ->
  match (apply_all ns events (c_live_state c)).2 with
  | Ok _ =>
      exists c' es', commit_batch_ns blake3 crc32 t events ns c = (maybe_rotate blake3 crc32 t ;;; sret Committed) c'
        /\ tracked s0 past hd hdr c' es' /\ history c' es' = history c es ++ (pair ns <$> events)
        /\ framed (c_log c) (c_log c') /\ c_log_rotation_bytes c' = c_log_rotation_bytes c
        /\ j_committed_height (c_journal c') = len (j_committed (c_journal c'))
  | o => commit_batch_ns blake3 crc32 t events ns c = (c, map_err ShadowApply (do* _ := o in Ok Committed))
  end.
Proof.
  intros [Hs Hr Hj Hb] Ht Hx Hw Hne. unfold commit_batch_ns.
  destruct events as [|e0 events0]; [done|]. cbv beta iota. clear Hne. revert Hx.
  generalize (e0 :: events0). intros events Hx. unfold slift.
  destruct (apply_all ns events (c_live_state c)) as [s [[]|k| |]] eqn:Ea; simpl;
    unfold sbind at 1, sget; unfold sbind at 1; rewrite ?Ea; simpl; try done.
  unfold sbind at 1, with_log. assert (Forall (loggable (version hd)) (log_entry ns <$> events)) as Hx'
    by (by apply Forall_fmap).
  destruct (append_batch_stored hd hdr c es _ (t_append t) Hs Hx' Ht) as (l & es' & -> & Hs' & Eh & Hf).
  cbn [map_err]. unfold sbind at 1, with_live. simpl. rewrite Ea. cbn [expect]. unfold sbind at 1, smodify.
  do 2 eexists. split; [reflexivity|]. rewrite omap_route_entries in Eh.
  destruct (commit_buffer_committed (t_journal t) (c_journal c) events Hb) as [Ec _].
  assert (forall c', c_write_buf c' = [] -> history c' es' = history c es ++ (pair ns <$> events)) as Eh'.
  { intros c' Hw'. unfold history. rewrite Hw, Hw', Eh. by rewrite !app_nil_r. }
  split; [|split_and!; [by apply Eh'|done|done|done]]. split; [by destruct Hs'| | |done].
  - rewrite Eh', app_assoc, replay_from_app, Hr by done. by rewrite replay_apply_all.
  - rewrite Eh', app_assoc, fmap_app, <- Hj, <- list_fmap_compose by done. simpl.
    assert (forall l : list KernelEvent, (snd ∘ pair ns <$> l) = l) as -> by (intros; apply list_fmap_id). exact Ec.
Qed.

Lemma commit_batch_ok hd hdr c es t events ns :
  commit_inv hd hdr c es -> in_u64 (t_append t) ->
  Forall (fun e => loggable (version hd) (log_entry ns e)) events -> c_write_buf c = [] ->
  match commit_batch_ns blake3 crc32 t events ns c with
  | (c', Ok _) =>
      exists es', commit_inv hd hdr c' es' /\ history c' es' = history c es ++ (pair ns <$> events)
                  /\ framed (c_log c) (c_log c')
  | (c', o) => c' = c
  end.
Proof.
  intros Hi Ht Hx Hw. pose proof Hi as [Hc Hn]%commit_inv_tracked.
  destruct (decide (events = [])) as [-> | Hne]; [exists es; by rewrite app_nil_r|].
  pose proof (commit_batch_step KernelState_new [] hd hdr c es t events ns Hc Ht Hx Hw Hne) as Hstep.
  destruct (apply_all ns events (c_live_state c)).2 as [[]|k| |]; [|by rewrite Hstep..].
  destruct Hstep as (c' & es' & -> & Hc' & Eh & Hf & Er & _).
  rewrite (bind_ok _ _ _ _ _ (maybe_rotate_off t c' (eq_trans Er Hn))). simpl. exists es'.
  split; [|done]. apply commit_inv_tracked. by rewrite Er.
Qed.

Lemma run_op_inv hd hdr c es op :
  commit_inv hd hdr c es -> op_ok (version hd) op c ->
  exists es', commit_inv hd hdr (run_op op c) es' /\ framed (c_log c) (c_log (run_op op c)).
Proof.
  intros Hc Hop. destruct op as [t e ns|t events ns|now]; simpl in *.
  - destruct Hop as [Ht Hx]. pose proof (commit_event_ok hd hdr c es t e ns Hc Ht Hx) as Hok.
    destruct (commit_event_ns _ _ _ _ _ _) as [c' [r|k| |]]; simpl in *.
    { destruct Hok as (_ & es' & ? & _ & ?). by exists es'. }
    all: destruct Hok as [-> _]; by exists es.
  - destruct Hop as (Ht & Hx & Hw). pose proof (commit_batch_ok hd hdr c es t events ns Hc Ht Hx Hw) as Hok.
    destruct (commit_batch_ns _ _ _ _ _ _) as [c' [r|k| |]]; simpl in *.
    { destruct Hok as (es' & ? & _ & ?). by exists es'. }
    all: subst c'; by exists es.
  - pose proof Hc as [Hs Hr Hj Hb Hn].
    destruct (flush_pending_ok hd hdr c es now Hs Hop) as (c' & es' & -> & Hs' & Hw & Eh & El & Ej & Er & Hf).
    exists es'. split; [|done]. split; simpl; try done; rewrite ?Eh, ?Ej, ?El, ?Er; done.
Qed.
End Refinement.
