(* ===== verification/CommitTheorems.v ===== *)
(** * Theorems about committing and recovering

    A process that commits, flushes, stops and recovers finds the state it had;
    an event the kernel rejects leaves no trace; and two sequences of
    operations that break recovery. *)

From stdpp Require Import gmap.
From S2P Require Import Prelude.
From S2P Require Import Core.
From S2P Require Import Fxp.
From S2P Require Import TopK.
From S2P Require Import Slab.
From S2P Require Import Records.
From S2P Require Import Graph.
From S2P Require Import Index.
From S2P Require Import Event.
From S2P Require Import Kernel.
From S2P Require Import Bytes.
From S2P Require Import StateProof.
From S2P Require Import EventCodec.
From S2P Require Import Wire.
From S2P Require Import WireTheorems.
From S2P Require Import EventLog.
From S2P Require Import EventLogTheorems.
From S2P Require Import EventCommit.
From S2P Require Import CommitProofs.

Section Recovery.
Context `{BincodeLaws} (blake3 : list Z -> list Z) (crc32 : list Z -> Z).

Definition run_ops (ops : list commit_op) (c : EventCommitter) : EventCommitter :=
  foldl (fun c op => run_op blake3 crc32 op c) c ops.

Fixpoint ops_ok (v : Z) (ops : list commit_op) (c : EventCommitter) : Prop :=
  match ops with
  | [] => True
  | op :: ops => op_ok v op c /\ ops_ok v ops (run_op blake3 crc32 op c)
  end.

(** No archived segment beside the log. *)
Definition no_archives (path : name) (listing : list name) : Prop :=
  Forall (fun n => starts_with (path ++ [46]) n = false) listing.

Lemma run_ops_inv hd hdr c es ops :
  (forall m, hash_typed (blake3 m)) ->
  commit_inv blake3 crc32 hd hdr c es -> ops_ok (version hd) ops c ->
  exists es', commit_inv blake3 crc32 hd hdr (run_ops ops c) es' /\ framed (c_log c) (c_log (run_ops ops c)).
Proof.
  intros Hb. revert c es. induction ops as [|op ops IH]; intros c es Hc Hops; [by exists es|].
  destruct Hops as [Hop Hops]. destruct (run_op_inv blake3 crc32 Hb hd hdr c es op Hc Hop) as (es1 & Hc1 & F1).
  destruct (IH _ _ Hc1 Hops) as (es2 & Hc2 & F2). exists es2. split; [done|]. by etransitivity.
Qed.

Lemma recover_ok hd hdr c es listing :
  (forall m, in_u32 (crc32 m)) ->
  commit_inv blake3 crc32 hd hdr c es -> c_write_buf c = [] -> no_archives (lw_path (lg_writer (c_log c))) listing ->
  recover_from_event_log blake3 crc32 (lg_fs (c_log c)) listing (lw_path (lg_writer (c_log c)))
  = Ok (c_live_state c, from_committed (j_committed (c_journal c)), len (j_committed (c_journal c))).
Proof.
  intros Hcrc [[Hl Hfl Hp] Hr Hj Hb Hn] Hw Hlist. unfold recover_from_event_log, read_all_segments.
  assert (filter (fun n => starts_with (lw_path (lg_writer (c_log c)) ++ [46]) n = true) listing = []) as ->.
  { induction Hlist as [|n ns Hne Hns IH]; [done|]. rewrite filter_cons_False; [done|]. by rewrite Hne. }
  cbn [collect_results]. unfold read_segment_full. destruct Hl as [Hf (f & -> & Ef) Hps Hln Hpv Hwv Hlk _ _ _ _].
  cbn [ok_or obind]. rewrite Hfl, app_nil_r in Ef. subst f. rewrite Hps. cbn [map_err obind].
  rewrite <- Hln, <- (app_nil_r (body _ _ _)), walk_segment by (first [done | by left]). cbn [map_err obind].
  unfold history in *. rewrite Hw in *. cbn [omap list_omap app] in *. rewrite app_nil_r in *.
  simpl. rewrite app_nil_r. unfold replay_events. rewrite Hr. simpl. rewrite Hj.
  do 2 f_equal. unfold len. by rewrite length_fmap.
Qed.

Lemma drop_tracked s0 past hd hdr c es now :
  (forall m, hash_typed (blake3 m)) ->
  tracked blake3 crc32 s0 past hd hdr c es -> in_u64 now ->
  exists c' es', drop_committer blake3 crc32 now c = lg_fs (c_log c')
    /\ tracked blake3 crc32 s0 past hd hdr c' es' /\ c_write_buf c' = [] /\ same_memory c c'.
Proof.
  intros Hb [Hs Hr Hj Hbf] Hnow.
  destruct (flush_pending_ok blake3 crc32 Hb hd hdr c es now Hs Hnow) as (c' & es' & E1 & Hs' & Hw & Eh & Hm).
  exists c', es'. unfold drop_committer. rewrite E1. cbn [fst]. pose proof Hm as (El & Ej & Er & _).
  split; [|split; [split; simpl; rewrite ?Eh, ?El, ?Ej, ?Er; done|done]].
  destruct Hs' as [[Hf (f & Hl & _) _ _ _ _ _ _ _ _ _] Hfl _]. unfold bw_flush, smodify, fs_append. cbn [fst lg_fs].
  rewrite Hfl, app_nil_r, Hf, Hl. simpl. by apply insert_id.
Qed.

Lemma drop_ok hd hdr c es now :
  (forall m, hash_typed (blake3 m)) ->
  commit_inv blake3 crc32 hd hdr c es -> in_u64 now ->
  exists c' es', drop_committer blake3 crc32 now c = lg_fs (c_log c')
    /\ commit_inv blake3 crc32 hd hdr c' es' /\ c_write_buf c' = [] /\ same_memory c c'.
Proof.
  intros Hb [Hc Hn]%commit_inv_tracked Hnow.
  destruct (drop_tracked KernelState_new [] hd hdr c es now Hb Hc Hnow) as (c' & es' & Ed & Hc' & Hw & Hm).
  exists c', es'. split_and!; [done| |done|done]. apply commit_inv_tracked. destruct Hm as (_ & _ & -> & _). done.
Qed.

(** A committer on a log that was just created. *)
Definition fresh (path : name) (d flush_every : Z) (fs : Fs) : EventCommitter :=
  with_rotation_bytes None (with_flush_every flush_every
    (committer_new
       (mkLog (fs_append path (encode_header_v4 d FORMAT_Q16_16 0 GENESIS) (fs_append path [] fs))
          (mkWriter path path [] 0 d VERSION_V4 0 GENESIS 0))
       journal_new KernelState_new)).

Definition fresh_hd (d : Z) : SegmentHeader := mkHeader VERSION_V4 d FORMAT_Q16_16 0 GENESIS HEADER_SIZE_V3.

Lemma fresh_inv path d k fs :
  fs !! path = None -> 1 <= d <= WIRE_MAX_DIM ->
  commit_inv blake3 crc32 (fresh_hd d) (encode_header_v4 d FORMAT_Q16_16 0 GENESIS) (fresh path d k fs) [].
Proof.
  intros Hfs Hd. split; [|done|done|done|done]. split; [|done|constructor].
  split; [done| | |done|apply genesis_typed|by right; right|done|done|done|done|done].
  - exists (encode_header_v4 d FORMAT_Q16_16 0 GENESIS).
    change (lg_fs _) with (fs_append path (encode_header_v4 d FORMAT_Q16_16 0 GENESIS) (fs_append path [] fs)).
    change (lw_path _) with path. unfold fs_append. rewrite Hfs, !lookup_insert_eq. done.
  - intros rest. apply parse_header_v4; [done|int_lia|done].
Qed.

(** C4: For every sequence of event commits, batch commits (made when no event
    commit waits in the write buffer) and flushes of events the log format admits,
    on a committer that starts from a missing log file (rotation off), dropping
    the committer and running recover_from_event_log on the directory it leaves
    returns Ok with exactly the live state, the committed journal and the number
    of events the process had. Whatever the framing functions (bincode under its
    round-trip laws, any 32-byte hash, any 32-bit checksum). *)
Theorem committed_history_recovers (path : name) (d flush_every now : Z) (fs : Fs) (listing : list name)
    (ops : list commit_op) :
  (forall m, hash_typed (blake3 m)) -> (forall m, in_u32 (crc32 m)) ->
  fs !! path = None -> 1 <= d <= WIRE_MAX_DIM -> no_archives path listing -> in_u64 now ->
  ops_ok VERSION_V4 ops (fresh path d flush_every fs) ->
  let c := run_ops ops (fresh path d flush_every fs) in
  recover_from_event_log blake3 crc32 (drop_committer blake3 crc32 now c) listing path
  = Ok (c_live_state c, from_committed (j_committed (c_journal c)), len (j_committed (c_journal c))).
Proof.
  intros Hb Hcrc Hfs Hd Hl Hn Hops c.
  destruct (run_ops_inv _ _ _ _ ops Hb (fresh_inv path d flush_every fs Hfs Hd) Hops) as (es & Hc & [Hp _]).
  destruct (drop_ok _ _ _ _ now Hb Hc Hn) as (c' & es' & Ed & Hc' & Hw & (El & Ej & _ & [Hp' _])). fold c in Hp, Ed.
  assert (lw_path (lg_writer (c_log c')) = path) as Epath by (rewrite Hp'; exact Hp).
  rewrite Ed, <- Epath. rewrite (recover_ok _ _ c' es') by (first [done | by rewrite Epath]).
  fold c in El, Ej. by rewrite El, Ej.
Qed.

(** commit_event_ns either succeeds, exactly when the kernel accepts the
    event, and then the history recoverable from log file, write buffer and
    pending buffer is the old one followed by this event in its namespace; or it
    fails with the kernel's error and the committer, live state, journal and log
    included, is exactly what it was. *)
Theorem commit_event_atomic (hd : SegmentHeader) (hdr : list Z) (c : EventCommitter) (es : list DecodedEntry)
    (t : Times) (e : KernelEvent) (ns : Z) :
  (forall m, hash_typed (blake3 m)) ->
  commit_inv blake3 crc32 hd hdr c es -> in_u64 (t_append t) -> loggable (version hd) (log_entry ns e) ->
  match commit_event_ns blake3 crc32 t e ns c with
  | (c', Ok _) =>
      (apply_event_ns e ns (c_live_state c)).2 = Ok tt
      /\ exists es', commit_inv blake3 crc32 hd hdr c' es' /\ history c' es' = history c es ++ [(ns, e)]
                     /\ framed (c_log c) (c_log c')
  | (c', o) => c' = c /\ o = map_err ShadowApply (do* _ := (apply_event_ns e ns (c_live_state c)).2 in Ok Committed)
  end.
Proof. intros Hb Hc Ht Hx. by apply commit_event_ok. Qed.
End Recovery.

(** ** Concrete runs *)
#[local] Existing Instance FixedInt.bincode.
#[local] Existing Instance FixedInt.laws.

Lemma len_put_array h : len (put_array h) = len h.
Proof.
  induction h as [|b h IH]; [done|]. change (put_array (b :: h)) with ([b mod 256] ++ put_array h).
  rewrite len_app, IH. unfold len. simpl. lia.
Qed.

Lemma small_loggable x :
  log_typed x -> check_metadata_cap x = Ok tt -> len (put_LogEntry x) <= 1000000 -> loggable VERSION_V4 x.
Proof.
  intros Hx Hc Hl h t Hh Ht. apply demo_storable; [done|done|done|done|]. apply Z.leb_le.
  unfold payload, put_EntryV3. cbn [prev_hash wall_time_secs request_id entry].
  change (VERSION_V4 =? VERSION_V2) with false. cbv iota. rewrite !len_app, len_put_array.
  destruct Hh as [_ Hh]. change (len (put_u64 t)) with 8. change (len (put_option put_array None)) with 1.
  unfold len at 1. rewrite Hh. lia.
Qed.

Definition log_name : name := [101; 118; 101; 110; 116; 115; 46; 108; 111; 103].
Definition at_time (t : Z) : Times := mkTimes t t t t.

(** Buffer two events, flush them with a third, then a batch. *)
Definition demo_ops : list commit_op :=
  [OpCommit (at_time 10) (ev_insert 0) 0; OpCommit (at_time 11) (ev_insert 1) 3;
   OpCommit (at_time 12) (ev_insert 7) 0; OpFlush 13; OpBatch (at_time 14) [ev_insert 2; ev_insert 3] 3;
   OpCommit (at_time 15) (SoftDeleteRecord 1) 3].

Ltac in_range := split; vm_compute; discriminate.
Ltac loggable := apply small_loggable; [simpl|reflexivity|vm_compute; discriminate].

Lemma demo_ops_ok : ops_ok demo_hash toy_crc VERSION_V4 demo_ops (fresh log_name 2 2 ∅).
Proof.
  unfold demo_ops. cbn [ops_ok op_ok].
  split; [split; [in_range|loggable; apply ev_insert_typed; in_range]|].
  split; [split; [in_range|loggable; split; [in_range|apply ev_insert_typed; in_range]]|].
  split; [split; [in_range|loggable; apply ev_insert_typed; in_range]|]. split; [in_range|].
  split; [split; [in_range|split; [|vm_compute; reflexivity]]|].
  { repeat apply Forall_cons_2; try apply Forall_nil_2; loggable; (split; [in_range|apply ev_insert_typed; in_range]). }
  split; [split; [in_range|loggable; split; in_range]|done].
Qed.

Lemma committed_history_recovers_witness :
  let c := run_ops demo_hash toy_crc demo_ops (fresh log_name 2 2 ∅) in
  recover_from_event_log demo_hash toy_crc (drop_committer demo_hash toy_crc 16 c) [log_name] log_name
  = Ok (c_live_state c, from_committed (j_committed (c_journal c)), len (j_committed (c_journal c))).
Proof.
  apply committed_history_recovers; [exact demo_hash_typed|exact toy_crc_u32|done|unfold WIRE_MAX_DIM; lia| |in_range|].
  - by repeat constructor.
  - exact demo_ops_ok.
Defined.

Lemma commit_event_atomic_witness :
  match commit_event_ns demo_hash toy_crc (at_time 10) (ev_insert 7) 0 (fresh log_name 2 2 ∅) with
  | (c', Ok _) =>
      (apply_event_ns (ev_insert 7) 0 (c_live_state (fresh log_name 2 2 ∅))).2 = Ok tt
      /\ exists es', commit_inv demo_hash toy_crc (fresh_hd 2) demo_header c' es'
           /\ history c' es' = history (fresh log_name 2 2 ∅) [] ++ [(0, ev_insert 7)]
           /\ framed (c_log (fresh log_name 2 2 ∅)) (c_log c')
  | (c', o) =>
      c' = fresh log_name 2 2 ∅
      /\ o = map_err ShadowApply
               (do* _ := (apply_event_ns (ev_insert 7) 0 (c_live_state (fresh log_name 2 2 ∅))).2 in Ok Committed)
  end.
Proof.
  apply (commit_event_atomic demo_hash toy_crc (fresh_hd 2) demo_header (fresh log_name 2 2 ∅) []);
    [exact demo_hash_typed| |in_range|].
  - apply fresh_inv; [done|unfold WIRE_MAX_DIM; lia].
  - loggable. apply ev_insert_typed. in_range.
Defined.

(** ** A batch overtakes buffered events

    One event waits in the write buffer when a batch is committed: the batch
    reaches the log first, and the log does not replay. *)
Definition overtaken : EventCommitter :=
  run_ops demo_hash toy_crc
    [OpCommit (at_time 10) (ev_insert 0) 0; OpBatch (at_time 11) [ev_insert 1] 0] (fresh log_name 2 64 ∅).

(** A concrete run in which every commit succeeds: an event commit left in the
    64-entry write buffer, then a batch commit, which writes to the log at once.
    The journal holds the two inserts in order, the log holds them swapped, and
    recovery fails with an event application error. *)
Theorem batch_overtakes_buffered_events :
  j_committed (c_journal overtaken) = [ev_insert 0; ev_insert 1]
  /\ recover_from_event_log demo_hash toy_crc (drop_committer demo_hash toy_crc 12 overtaken) [log_name] log_name
     = Err (REventApplication InvalidOperation).
Proof. split; vm_compute; reflexivity. Qed.

(** ** An entry the log refuses

    The kernel accepts a metadata update of any size, the log none above the
    cap: the update is live, and no later commit reaches the log. *)
Definition oversized : KernelEvent := UpdateRecordMetadata 0 (Some (replicate 65537 0)).
Definition blocked : EventCommitter :=
  run_ops demo_hash toy_crc
    [OpCommit (at_time 10) (ev_insert 0) 0; OpCommit (at_time 11) oversized 0;
     OpCommit (at_time 12) (ev_insert 1) 0] (fresh log_name 2 1 ∅).

(** A concrete run: a metadata update above the wire cap is accepted live but
    refused by the log encoder, so the write buffer never drains again; the live
    state has two records and recovery after a clean drop only finds the first. *)
Theorem oversized_metadata_blocks_log :
  record_count (c_live_state blocked) = 2
  /\ (exists s j, recover_from_event_log demo_hash toy_crc (drop_committer demo_hash toy_crc 13 blocked)
                    [log_name] log_name = Ok (s, j, 1) /\ record_count s = 1).
Proof.
  split; [vm_compute; reflexivity|]. eexists _, _. split; vm_compute; reflexivity.
Qed.
