(* ===== verification/RotationTheorems.v ===== *)
(** * Commits across rotations

    The committer with rotation on: whenever the live segment passes the limit,
    it is sealed and a new one is opened.  Recovery reads all segments and finds
    the whole history. *)

From stdpp Require Import gmap.
From S2P Require Import Prelude.
From S2P Require Import Hoare.
From S2P Require Import Core.
From S2P Require Import Records.
From S2P Require Import Event.
From S2P Require Import Kernel.
From S2P Require Import Bytes.
From S2P Require Import StateProof.
From S2P Require Import EventCodec.
From S2P Require Import Wire.
From S2P Require Import WireTheorems.
From S2P Require Import EventLog.
From S2P Require Import EventLogTheorems.
From S2P Require Import EventCommit.
From S2P Require Import Rotation.
From S2P Require Import CommitProofs.
From S2P Require Import CommitTheorems.

Section Rotating.
Context `{BincodeLaws} (blake3 : list Z -> list Z) (crc32 : list Z -> Z).

(** Checkpoint entries are within the size limit of the encoder. *)
Definition checkpoints_fit : Prop :=
  forall n h t, in_u64 n -> hash_typed h -> in_u64 t -> loggable VERSION_V4 (Checkpoint n h t).

(** What the sealed segments hold. *)
Definition sealed_history (arch : list Sealed) : list (Z * KernelEvent) := omap routed (concat (sl_es <$> arch)).

Record rotation_inv (s0 : KernelState) (c : EventCommitter) (arch : list Sealed) (hd : SegmentHeader) (hdr : list Z)
    (es : list DecodedEntry) : Prop := {
  ri_tracked : tracked blake3 crc32 s0 (sealed_history arch) hd hdr c es;
  ri_archived : archived blake3 crc32 (c_log c) arch hd;
  ri_version : version hd = VERSION_V4;
}.

Lemma sealed_history_snoc arch a : sealed_history (arch ++ [a]) = sealed_history arch ++ omap routed (sl_es a).
Proof. unfold sealed_history. rewrite fmap_app, concat_app, omap_app. csimpl. by rewrite app_nil_r. Qed.

Definition times_ok (t : Times) : Prop := in_u64 (t_checkpoint t) /\ in_u64 (t_rotate t).

Context (blake3_hash : forall m, hash_typed (blake3 m)).
Context (fit : checkpoints_fit).

(** Same memory, same history, in the same place. *)
Definition same_view (c c' : EventCommitter) : Prop :=
  c_live_state c' = c_live_state c /\ c_journal c' = c_journal c
  /\ lw_path (lg_writer (c_log c')) = lw_path (lg_writer (c_log c))
  /\ forall p, outside (lw_path (lg_writer (c_log c))) p -> lg_fs (c_log c') !! p = lg_fs (c_log c) !! p.

Lemma maybe_rotate_ok s0 t c arch hd hdr es :
  rotation_inv s0 c arch hd hdr es -> times_ok t -> in_u64 (j_committed_height (c_journal c)) ->
  Z.of_nat (S (length arch)) <= u32_MAX ->
  exists c' arch' hd' hdr' es', maybe_rotate blake3 crc32 t c = (c', Ok tt)
    /\ rotation_inv s0 c' arch' hd' hdr' es' /\ same_view c c' /\ (length arch' <= S (length arch))%nat /\ dim hd' = dim hd.
Proof.
  intros Hi [Ht Ht'] Hh Hc. unfold maybe_rotate, sbind at 1, sget.
  destruct (c_log_rotation_bytes c) as [limit|]; [|exists c, arch, hd, hdr, es; split_and!; (done || lia)].
  destruct (_ <? _); [exists c, arch, hd, hdr, es; split_and!; (done || lia)|].
  destruct Hi as [[[Hl Hb Hp] Hr Hj Hbf] Ha Hv].
  rewrite (h_seq _ _ _ _ _ _ Hl), (ar_seq _ _ _ _ _ Ha).
  set (cp := Checkpoint _ _ _).
  destruct (rotate_ok blake3 crc32 blake3_hash (c_log c) arch hd hdr es (t_rotate t) cp Hl Ha)
    as (l' & hd' & hdr' & d & Erot & Hl' & Ha' & Hv' & Ed & Epath & Hb' & _ & Hdim & Hout); [|done|done|].
  { apply fit; [done|apply blake3_hash|done]. }
  unfold archive_name in Erot. rewrite Erot. exists (c_set_log l' c), (arch ++ [mkSealed hd hdr es]), hd', hdr', [d].
  assert (sealed_history (arch ++ [mkSealed hd hdr es]) ++ history (c_set_log l' c) [d]
          = sealed_history arch ++ history c es) as Eh.
  { rewrite sealed_history_snoc, <- app_assoc. unfold history, routed. csimpl. by rewrite Ed. }
  split_and!; [done| |done|rewrite length_app; simpl; lia|done].
  split; [|done|done]. split; [|by rewrite Eh|by rewrite Eh|done].
  split; [done|done|]. simpl. by rewrite Hv', <- Hv.
Qed.

(** What an operation needs of its clock readings and of the journal's height. *)
Definition rotating_ok (op : commit_op) (c : EventCommitter) : Prop :=
  op_ok VERSION_V4 op c
  /\ match op with
     | OpCommit t _ _ | OpBatch t _ _ => times_ok t /\ in_u64 (len (j_committed (c_journal (run_op blake3 crc32 op c))))
     | OpFlush _ => True
     end.

Fixpoint all_rotating_ok (ops : list commit_op) (c : EventCommitter) : Prop :=
  match ops with
  | [] => True
  | op :: ops => rotating_ok op c /\ all_rotating_ok ops (run_op blake3 crc32 op c)
  end.

(** The end of a commit that the kernel accepted. *)
Lemma finish_ok s0 t c arch hd hdr es :
  rotation_inv s0 c arch hd hdr es -> times_ok t -> j_committed_height (c_journal c) = len (j_committed (c_journal c)) ->
  in_u64 (len (j_committed (c_journal ((maybe_rotate blake3 crc32 t ;;; sret Committed) c).1))) ->
  Z.of_nat (S (length arch)) <= u32_MAX ->
  exists arch' hd' hdr' es', rotation_inv s0 ((maybe_rotate blake3 crc32 t ;;; sret Committed) c).1 arch' hd' hdr' es'
    /\ (length arch' <= S (length arch))%nat
    /\ lw_path (lg_writer (c_log ((maybe_rotate blake3 crc32 t ;;; sret Committed) c).1)) = lw_path (lg_writer (c_log c)).
Proof.
  intros Hi Ht Hh Hu Hc.
  assert (in_u64 (j_committed_height (c_journal c))) as Hhu.
  { rewrite Hh. revert Hu. unfold maybe_rotate, sbind, sget, sret. repeat case_match; simplify_eq/=; done. }
  destruct (maybe_rotate_ok s0 t c arch hd hdr es Hi Ht Hhu Hc) as (c' & arch' & hd' & hdr' & es' & E1 & Hi' & (_ & _ & Ep & _) & Hlen & _).
  rewrite (bind_ok _ _ _ _ _ E1). by exists arch', hd', hdr', es'.
Qed.

Lemma rotating_step s0 op c arch hd hdr es :
  rotation_inv s0 c arch hd hdr es -> rotating_ok op c -> Z.of_nat (S (length arch)) <= u32_MAX ->
  exists arch' hd' hdr' es', rotation_inv s0 (run_op blake3 crc32 op c) arch' hd' hdr' es'
    /\ (length arch' <= S (length arch))%nat
    /\ lw_path (lg_writer (c_log (run_op blake3 crc32 op c))) = lw_path (lg_writer (c_log c)).
Proof.
  intros Hi [Hop Ht] Hc. pose proof Hi as [Htr Ha Hv].
  assert (exists arch' hd' hdr' es', rotation_inv s0 c arch' hd' hdr' es' /\ (length arch' <= S (length arch))%nat
          /\ lw_path (lg_writer (c_log c)) = lw_path (lg_writer (c_log c))) as Hsame.
  { exists arch, hd, hdr, es. split_and!; (done || lia). }
  rewrite <- Hv in Hop. destruct op as [t e ns|t events ns|now]; cbn [run_op op_ok] in *.
  - destruct Hop as [Hn Hx]. destruct Ht as [Ht Hu].
    pose proof (commit_event_step blake3 crc32 blake3_hash _ _ hd hdr c es t e ns Htr Hn Hx) as Hstep.
    destruct (apply_event_ns e ns (c_live_state c)).2 as [[]|k| |]; [|by rewrite Hstep..].
    destruct Hstep as (c' & es' & E1 & Hc' & _ & Hf & _ & Hh). rewrite E1 in *. destruct Hf as [Ep Hfr].
    rewrite <- Ep. apply (finish_ok s0 t c' arch hd hdr es'); try done. split; [done| |done]. by eapply archived_framed.
  - destruct Hop as (Hn & Hx & Hw). destruct Ht as [Ht Hu]. destruct (decide (events = [])) as [-> | Hne]; [done|].
    pose proof (commit_batch_step blake3 crc32 blake3_hash _ _ hd hdr c es t events ns Htr Hn Hx Hw Hne) as Hstep.
    destruct (apply_all ns events (c_live_state c)).2 as [[]|k| |]; [|by rewrite Hstep..].
    destruct Hstep as (c' & es' & E1 & Hc' & _ & Hf & _ & Hh). rewrite E1 in *. destruct Hf as [Ep Hfr].
    rewrite <- Ep. apply (finish_ok s0 t c' arch hd hdr es'); try done. split; [done| |done]. by eapply archived_framed.
  - destruct Htr as [Hs Hr Hj Hbf].
    destruct (flush_pending_ok blake3 crc32 blake3_hash hd hdr c es now Hs Hop) as (c' & es' & -> & Hs' & Hw & Eh & El & Ej & Er & Hf).
    exists arch, hd, hdr, es'. split; [|split; [lia|by destruct Hf]]. split; [|by eapply archived_framed|done].
    split; cbn [fst]; rewrite ?Eh, ?El, ?Ej; done.
Qed.

Lemma rotating_run s0 ops c arch hd hdr es :
  rotation_inv s0 c arch hd hdr es -> all_rotating_ok ops c -> Z.of_nat (length arch) + len ops <= u32_MAX ->
  exists arch' hd' hdr' es', rotation_inv s0 (run_ops blake3 crc32 ops c) arch' hd' hdr' es'
    /\ lw_path (lg_writer (c_log (run_ops blake3 crc32 ops c))) = lw_path (lg_writer (c_log c)).
Proof.
  revert c arch hd hdr es. induction ops as [|op ops IH]; intros c arch hd hdr es Hi Hops Hc.
  { by exists arch, hd, hdr, es. }
  destruct Hops as [Hop Hops]. rewrite len_cons in Hc. pose proof (len_nonneg ops).
  destruct (rotating_step s0 op c arch hd hdr es Hi Hop) as (arch1 & hd1 & hdr1 & es1 & Hi1 & Hl1 & Ep1); [lia|].
  destruct (IH _ _ _ _ _ Hi1 Hops) as (arch2 & hd2 & hdr2 & es2 & Hi2 & Ep2); [lia|].
  exists arch2, hd2, hdr2, es2. split; [exact Hi2|]. by rewrite <- Ep1.
Qed.

(** No file is named like the log or its archives. *)
Definition unused (fs : Fs) (path : name) : Prop :=
  fs !! path = None /\ forall n, starts_with (path ++ [46]) n = true -> fs !! n = None.

Lemma fresh_rotation_inv path d k limit fs :
  unused fs path -> named_log path -> 1 <= d <= WIRE_MAX_DIM ->
  rotation_inv KernelState_new (with_rotation_bytes limit (fresh path d k fs)) [] (fresh_hd d)
    (encode_header_v4 d FORMAT_Q16_16 0 GENESIS) [].
Proof.
  intros [Hfs Hno] Hp Hd. split; [|split; try done|done].
  - destruct (fresh_inv blake3 crc32 path d k fs Hfs Hd) as [[] Hr Hj Hb _]. split; [|exact Hr|exact Hj|exact Hb].
    split; done.
  - intros n Hn [bs Hbs]. exfalso. pose proof (starts_with_longer _ _ _ Hn) as Hne.
    change (lg_fs _) with (fs_append path (encode_header_v4 d FORMAT_Q16_16 0 GENESIS) (fs_append path [] fs)) in Hbs.
    change (lw_path _) with path in *. unfold fs_append in Hbs.
    rewrite !lookup_insert_ne in Hbs by done. by rewrite Hno in Hbs.
Qed.
End Rotating.

Section RotatedRecovery.
Context `{BincodeLaws} (blake3 : list Z -> list Z) (crc32 : list Z -> Z).

(** C5: The same with rotation on, at any size limit: whatever admissible
    sequence of event commits, batch commits (with an empty write buffer) and
    flushes is made on a fresh log named *.log and however often the log is
    rotated in between, dropping the committer and running recover_from_event_log
    on the directory (live segment and archives, listed in any order) returns Ok
    with exactly the live state, journal and event count. *)
Theorem rotated_history_recovers (path : name) (d flush_every now : Z) (limit : option Z) (fs : Fs)
    (listing : list name) (ops : list commit_op) :
  (forall m, hash_typed (blake3 m)) -> (forall m, in_u32 (crc32 m)) -> checkpoints_fit ->
  unused fs path -> named_log path -> 1 <= d <= WIRE_MAX_DIM -> in_u64 now -> len ops <= u32_MAX ->
  let c0 := with_rotation_bytes limit (fresh path d flush_every fs) in
  let c := run_ops blake3 crc32 ops c0 in
  all_rotating_ok blake3 crc32 ops c0 -> lists (drop_committer blake3 crc32 now c) listing ->
  recover_from_event_log blake3 crc32 (drop_committer blake3 crc32 now c) listing path
  = Ok (c_live_state c, from_committed (j_committed (c_journal c)), len (j_committed (c_journal c))).
Proof.
  intros Hb Hcrc Hfit Hfs Hp Hd Hn Hlen c0 c Hops Hlist.
  destruct (rotating_run blake3 crc32 Hb Hfit _ ops c0 [] _ _ [] (fresh_rotation_inv blake3 crc32 path d flush_every limit fs Hfs Hp Hd) Hops)
    as (arch & hd & hdr & es & [Htr Ha Hv] & Ep); [done|]. fold c in Htr, Ha, Ep. change (lw_path _) with path in Ep at 2.
  destruct (drop_tracked blake3 crc32 _ _ hd hdr c es now Hb Htr Hn) as (c' & es' & Ed & Hc' & Hw & (El & Ej & _ & Hf)).
  rewrite Ed in *. destruct Hc' as [[Hl Hfl _] Hr Hj _]. pose proof (archived_framed _ _ _ _ _ _ Ha Hf) as Ha'.
  assert (lw_path (lg_writer (c_log c')) = path) as Epath by (rewrite (proj1 Hf); exact Ep).
  unfold recover_from_event_log. rewrite <- Epath at 1.
  rewrite (read_all_ok blake3 crc32 Hcrc _ _ _ _ _ _ Hl Ha' Hfl Hlist). cbn [obind].
  unfold history in *. rewrite Hw in *. cbn [omap list_omap] in *. rewrite app_nil_r in *.
  unfold all_entries. rewrite omap_app. fold (sealed_history arch). unfold replay_events. rewrite Hr. cbn [obind map_err].
  rewrite <- Hj, El, Ej. do 2 f_equal. unfold len. by rewrite <- Ej, Hj, length_fmap.
Qed.
End RotatedRecovery.

(** ** Concrete runs *)
#[local] Existing Instance FixedInt.bincode.
#[local] Existing Instance FixedInt.laws.

Lemma fixed_checkpoints_fit : checkpoints_fit.
Proof.
  intros n h t Hn Hh Ht. apply small_loggable; [done|done|]. unfold put_LogEntry.
  rewrite !len_app, len_put_array. destruct Hh as [_ Hh]. change (len (put_u64 n)) with 8.
  change (len (put_u64 t)) with 8. change (len (put_variant 1)) with 4. unfold len. rewrite Hh. lia.
Qed.

(** Rotating after every commit. *)
Definition rotating_ops : list commit_op :=
  [OpCommit (at_time 10) (ev_insert 0) 0; OpCommit (at_time 11) (ev_insert 1) 3;
   OpFlush 13; OpBatch (at_time 14) [ev_insert 2; ev_insert 3] 3; OpCommit (at_time 15) (SoftDeleteRecord 1) 3].
Definition rotating_start : EventCommitter := with_rotation_bytes (Some 1) (fresh log_name 2 1 ∅).

Lemma rotating_ops_ok : all_rotating_ok demo_hash toy_crc rotating_ops rotating_start.
Proof.
  unfold rotating_ops. cbn [all_rotating_ok]. unfold rotating_ok. cbn [op_ok].
  split; [split; [split; [in_range|loggable; apply ev_insert_typed; in_range]|split; [split; in_range|in_range]]|].
  split; [split; [split; [in_range|loggable; split; [in_range|apply ev_insert_typed; in_range]]|split; [split; in_range|in_range]]|].
  split; [split; [in_range|done]|].
  split; [split; [split; [in_range|split; [|vm_compute; reflexivity]]|split; [split; in_range|in_range]]|].
  { repeat apply Forall_cons_2; try apply Forall_nil_2; loggable; (split; [in_range|apply ev_insert_typed; in_range]). }
  split; [split; [split; [in_range|loggable; split; in_range]|split; [split; in_range|in_range]]|done].
Qed.

Definition rotated_files : Fs := drop_committer demo_hash toy_crc 16 (run_ops demo_hash toy_crc rotating_ops rotating_start).
Definition rotated_listing : list name := reverse (fst <$> map_to_list rotated_files).

Lemma directory_lists (fs : Fs) : lists fs (reverse (fst <$> map_to_list fs)).
Proof.
  split.
  - rewrite reverse_Permutation. apply NoDup_fst_map_to_list.
  - intros n. rewrite elem_of_reverse, list_elem_of_fmap. split.
    + intros ([n' bs] & -> & Hin%elem_of_map_to_list). by exists bs.
    + intros [bs Hbs]. exists (n, bs). split; [done|]. by apply elem_of_map_to_list.
Qed.

Lemma rotated_history_recovers_witness :
  length rotated_listing = 5%nat
  /\ let c := run_ops demo_hash toy_crc rotating_ops rotating_start in
     recover_from_event_log demo_hash toy_crc rotated_files rotated_listing log_name
     = Ok (c_live_state c, from_committed (j_committed (c_journal c)), len (j_committed (c_journal c))).
Proof.
  split; [vm_compute; reflexivity|]. cbv zeta.
  apply (rotated_history_recovers demo_hash toy_crc log_name 2 1 16 (Some 1) ∅ rotated_listing rotating_ops);
    [exact demo_hash_typed|exact toy_crc_u32|exact fixed_checkpoints_fit|done|done|unfold WIRE_MAX_DIM; lia|in_range|
     vm_compute; discriminate|exact rotating_ops_ok|apply directory_lists].
Defined.

(** ** A log that is not called [*.log]

    Its archives are still called [*.log.NNNNNN], and recovery looks for names
    that start with the log's own. *)
Definition bin_name : name := [101; 118; 46; 98; 105; 110].
Definition bin_files : Fs :=
  drop_committer demo_hash toy_crc 16
    (run_ops demo_hash toy_crc [OpCommit (at_time 10) (ev_insert 0) 0; OpCommit (at_time 11) (ev_insert 1) 0]
       (with_rotation_bytes (Some 1) (fresh bin_name 2 1 ∅))).

(** A concrete run with a log named without the extension .log: the log is
    rotated once, and recovery from the directory finds only the live segment; the
    history before the rotation is gone without an error. *)
Theorem archives_of_other_extension_ignored :
  is_Some (bin_files !! archive_name bin_name 0) /\ is_Some (bin_files !! archive_name bin_name 1)
  /\ recover_from_event_log demo_hash toy_crc bin_files (fst <$> map_to_list bin_files) bin_name
     = Ok (KernelState_new, from_committed [], 0).
Proof. split_and!; [vm_compute; by eexists|vm_compute; by eexists|vm_compute; reflexivity]. Qed.
