(* ===== verification/Registry.v ===== *)
(** * Collections and shard routing

    Models [crates/valori-metadata/src/collection.rs]: [Collection::shard_id]
    and the [CollectionRegistry] that maps collection names to namespace ids,
    and [shard_for_namespace] of [crates/valori-node/src/cluster_server.rs].
    A name is the list of its UTF-8 bytes; the [HashMap] is a [gmap], and the
    unspecified order it iterates in is the one of [map_to_list]. *)

From S2P Require Import Prelude.
From S2P Require Import Core.

Definition MAX_COLLECTIONS : Z := 1024.

(** The bytes of ["default"]. *)
Definition default_name : list Z := [100; 101; 102; 97; 117; 108; 116].

Record Collection : Type := mkCollection {
  col_name : list Z;
  col_project : list Z;
  col_namespace_id : Z;
  col_created_at : Z;
}.

(** [(self.namespace_id % shard_count as u16) as u8]: the remainder by zero
    aborts. *)
Definition Collection_shard_id {E} (c : Collection) (shard_count : Z) : outcome E Z :=
  if shard_count =? 0 then Panic else Ok ((col_namespace_id c mod shard_count) mod 256).

Definition shard_for_namespace (namespace_id shard_count : Z) : Z :=
  namespace_id mod (Z.max shard_count 1).

Record CollectionRegistry : Type := mkRegistry {
  reg_map : gmap (list Z) Z;
  reg_next_id : Z;
}.

Definition registry_new : CollectionRegistry := mkRegistry ∅ 1.

Definition registry_resolve (r : CollectionRegistry) (name : option (list Z)) : option Z :=
  match name with
  | None => Some 0
  | Some n => if decide (n = default_name) then Some 0 else reg_map r !! n
  end.

Definition registry_create (name : list Z) (r : CollectionRegistry) : CollectionRegistry * option Z :=
  if decide (name = default_name) then (r, Some 0)
  else match reg_map r !! name with
       | Some id => (r, Some id)
       | None =>
           if MAX_COLLECTIONS <=? reg_next_id r then (r, None)
           else (mkRegistry (<[name := reg_next_id r]> (reg_map r)) (reg_next_id r + 1), Some (reg_next_id r))
       end.

(** [self.map.remove(name)], the removal that both [drop] and the Raft state
    machine perform. *)
Definition registry_remove (name : list Z) (r : CollectionRegistry) : CollectionRegistry :=
  mkRegistry (delete name (reg_map r)) (reg_next_id r).

Definition registry_drop (name : list Z) (r : CollectionRegistry) : CollectionRegistry * option Z :=
  (registry_remove name r, reg_map r !! name).

(** [sort_by_key] on the id, stable. *)
Fixpoint insert_by_id (x : list Z * Z) (l : list (list Z * Z)) : list (list Z * Z) :=
  match l with
  | [] => [x]
  | y :: l => if x.2 <? y.2 then x :: y :: l else y :: insert_by_id x l
  end.
Definition sort_by_id (l : list (list Z * Z)) : list (list Z * Z) :=
  foldl (fun acc x => insert_by_id x acc) [] l.

Definition registry_names (r : CollectionRegistry) : list (list Z) :=
  fst <$> sort_by_id (map_to_list (reg_map r)).
Definition registry_list (r : CollectionRegistry) : list (list Z * Z) :=
  (default_name, 0) :: sort_by_id (map_to_list (reg_map r)).

(** ** The registry invariant *)

(** Registered ids are distinct, positive and below the counter; ["default"]
    is never registered. *)
Record registry_wf (r : CollectionRegistry) : Prop := {
  rw_next : 1 <= reg_next_id r <= MAX_COLLECTIONS;
  rw_ids : forall n id, reg_map r !! n = Some id -> 1 <= id < reg_next_id r;
  rw_inj : forall n m id, reg_map r !! n = Some id -> reg_map r !! m = Some id -> n = m;
  rw_default : reg_map r !! default_name = None;
}.

Lemma registry_wf_new : registry_wf registry_new.
Proof.
  split; unfold registry_new, MAX_COLLECTIONS; simpl; [lia| | |done];
    intros *; rewrite lookup_empty; discriminate.
Qed.

Lemma registry_wf_remove n r : registry_wf r -> registry_wf (registry_remove n r).
Proof.
  intros [H1 H2 H3 H4]. split; simpl; [done| | |].
  - intros m id [_ Hm]%lookup_delete_Some. eauto.
  - intros m m' id [_ Hm]%lookup_delete_Some [_ Hm']%lookup_delete_Some. eauto.
  - by apply lookup_delete_None; right.
Qed.

(** What a call of [create] did. *)
Definition created (name : list Z) (r r' : CollectionRegistry) (id : Z) : Prop :=
  registry_resolve r' (Some name) = Some id
  /\ (forall m, m <> name -> reg_map r' !! m = reg_map r !! m)
  /\ (registry_resolve r (Some name) = Some id /\ r' = r
      \/ registry_resolve r (Some name) = None /\ id = reg_next_id r /\ reg_next_id r' = id + 1).

Lemma registry_create_ok name r r' o :
  registry_wf r -> registry_create name r = (r', o) ->
  registry_wf r' /\ reg_next_id r <= reg_next_id r'
  /\ match o with
     | Some id => created name r r' id /\ 0 <= id < MAX_COLLECTIONS
     | None => r' = r /\ registry_resolve r (Some name) = None /\ reg_next_id r = MAX_COLLECTIONS
     end.
Proof.
  intros W Hc. pose proof W as [H1 H2 H3 H4]. unfold registry_create, created, registry_resolve in *.
  destruct (decide (name = default_name)) as [->|Hn]; simplify_eq.
  { split_and!; try done; try (by left); unfold MAX_COLLECTIONS; lia. }
  destruct (reg_map r !! name) as [id|] eqn:El; simplify_eq.
  { specialize (H2 _ _ El). split_and!; try done; try (by left); unfold MAX_COLLECTIONS in *; lia. }
  destruct (MAX_COLLECTIONS <=? reg_next_id r) eqn:Em; bool_prop; simplify_eq; [by split_and!; try done; lia|].
  simpl. split_and!; simpl; try lia.
  - split; simpl; [lia| | |].
    + intros n id [[<- <-]|[_ Hl]]%lookup_insert_Some; [lia|]. specialize (H2 _ _ Hl). lia.
    + intros n m id [[<- <-]|[_ Hl]]%lookup_insert_Some [[<- E2]|[_ Hl2]]%lookup_insert_Some; try done.
      * specialize (H2 _ _ Hl2). lia.
      * specialize (H2 _ _ Hl). lia.
      * eauto.
    + by apply lookup_insert_None.
  - by rewrite lookup_insert_eq.
  - intros m Hm. by rewrite lookup_insert_ne.
  - by right.
Qed.

(** ** Listing *)
Lemma insert_by_id_perm x l : insert_by_id x l ≡ₚ x :: l.
Proof.
  induction l as [|y l IH]; [done|]. simpl. destruct (_ <? _); [done|].
  rewrite IH. constructor.
Qed.

Abbreviation id_sorted := (StronglySorted (fun a b : list Z * Z => a.2 <= b.2)).

Lemma insert_by_id_sorted x l : id_sorted l -> id_sorted (insert_by_id x l).
Proof.
  induction 1 as [|y l Hs IH Hf]; [repeat constructor|]. simpl.
  destruct (x.2 <? y.2) eqn:Eq; bool_prop.
  - constructor; [by constructor|]. constructor; [lia|]. eapply Forall_impl; [exact Hf|]. simpl. lia.
  - constructor; [done|]. rewrite insert_by_id_perm. by constructor.
Qed.

Lemma sort_by_id_spec l : sort_by_id l ≡ₚ l /\ id_sorted (sort_by_id l).
Proof.
  unfold sort_by_id.
  assert (forall acc, id_sorted acc -> foldl (fun acc x => insert_by_id x acc) acc l ≡ₚ l ++ acc
            /\ id_sorted (foldl (fun acc x => insert_by_id x acc) acc l)) as Hgen.
  { induction l as [|x l IH]; intros acc Hs; [done|]. simpl.
    destruct (IH _ (insert_by_id_sorted x acc Hs)) as [Hp Hs']. split; [|done].
    rewrite Hp, insert_by_id_perm. solve_Permutation. }
  destruct (Hgen [] (SSorted_nil _)) as [Hp Hs]. by rewrite app_nil_r in Hp.
Qed.

(** The listing holds every name the registry resolves, with its id, in the
    order of the ids. *)
Lemma registry_list_spec r :
  registry_wf r ->
  id_sorted (registry_list r)
  /\ forall n id, (n, id) ∈ registry_list r <-> registry_resolve r (Some n) = Some id.
Proof.
  intros [H1 H2 H3 H4]. destruct (sort_by_id_spec (map_to_list (reg_map r))) as [Hp Hs]. split.
  - constructor; [done|]. rewrite Hp. apply Forall_forall. intros [n id] Hin.
    apply elem_of_map_to_list in Hin. specialize (H2 _ _ Hin). simpl. lia.
  - intros n id. unfold registry_list, registry_resolve. rewrite elem_of_cons, Hp, elem_of_map_to_list.
    destruct (decide (n = default_name)) as [->|Hn].
    + rewrite H4. naive_solver.
    + naive_solver.
Qed.

(** The two routing functions agree on every shard count a [u8] can hold. *)
Lemma shard_id_routes {E} c n :
  0 < n <= u8_MAX -> 0 <= col_namespace_id c ->
  @Collection_shard_id E c n = Ok (shard_for_namespace (col_namespace_id c) n)
  /\ 0 <= shard_for_namespace (col_namespace_id c) n < n.
Proof.
  intros Hn Hc. unfold Collection_shard_id, shard_for_namespace.
  destruct (n =? 0) eqn:En; bool_prop; [lia|]. rewrite Z.max_l by lia.
  pose proof (Z.mod_pos_bound (col_namespace_id c) n ltac:(lia)). split; [|done].
  rewrite (Z.mod_small (_ mod _)) by (unfold u8_MAX in *; lia). done.
Qed.
