(* ===== verification/Consensus.v ===== *)
(** * The Raft state machine

    Models [crates/valori-consensus/src/state_machine.rs] and [types.rs]: the
    apply pipeline (version gate, dedup, kernel apply, audit, namespace
    registry), snapshots of the replicated state and the restart from the redb
    tables.

    openraft is not part of the repository: [Openraft] names the types and
    functions of it that the code uses, [RaftSerde] their bincode encodings.
    The redb database is the finite map of its [sm_meta] table; a transaction
    that commits is an update of it, and the calls into redb do not fail.  The
    audit sink is the class [AuditSink], over the state the sink keeps; its
    [record] can fail.  The clock is an argument, read at the log index of the
    entry being applied.  Error and rejection messages are the constructors of
    [StorageError] and [Rejection]. *)

From Stdlib Require String.
From S2P Require Import Prelude.
From S2P Require Import Core.
From S2P Require Import Fxp.
From S2P Require Import Records.
From S2P Require Import Event.
From S2P Require Import Kernel.
From S2P Require Import Bytes.
From S2P Require Import Snapshot.
From S2P Require Import StateProof.
From S2P Require Import EventCodec.
From S2P Require Import Wire.
From S2P Require Import Registry.

(** ** openraft *)
Class Openraft : Type := {
  LogId : Type;
  log_index : LogId -> Z;
  logid_ltb : LogId -> LogId -> bool;      (** [LogId]'s [PartialOrd] *)
  Membership : Type;
  StoredMembership : Type;
  stored_default : StoredMembership;
  stored_new : option LogId -> Membership -> StoredMembership;
  Vote : Type;
}.

Record ClientRequest : Type := mkRequest {
  rq_event : KernelEvent;
  rq_request_id : option (list Z);
  rq_schema_version : Z;
  rq_namespace_id : Z;
}.

(** The reasons the state machine gives in [ClientResponse::rejected]. *)
Inductive Rejection : Type :=
| SchemaTooNew (v : Z)
| NamespaceLimit
| NamespaceNotFound (name : list Z)
| KernelRejected (e : KernelError).

Record ClientResponse : Type := mkResponse {
  rs_log_index : Z;
  rs_state_hash : list Z;
  rs_deduplicated : bool;
  rs_rejected : option Rejection;
  rs_record_id : option Z;
  rs_node_id : option Z;
  rs_edge_id : option Z;
  rs_namespace_id : option Z;
}.

Definition CURRENT_SCHEMA_VERSION : Z := 0.
Definition MAX_DEDUP_ENTRIES : Z := 1048576.

Section Types.
Context `{Openraft}.

Inductive EntryPayload : Type :=
| Blank
| MembershipEntry (m : Membership)
| Normal (req : ClientRequest).

Record Entry : Type := mkRaftEntry { en_log_id : LogId; en_payload : EntryPayload }.

Record SnapshotMeta : Type := mkMeta {
  sm_last_log_id : option LogId;
  sm_last_membership : StoredMembership;
  sm_snapshot_id : list Z;
}.
End Types.

(** The bincode encodings of openraft's types. *)
Class RaftSerde `{Openraft} : Type := {
  put_LogId : LogId -> list Z; get_LogId : R LogId;
  put_StoredMembership : StoredMembership -> list Z; get_StoredMembership : R StoredMembership;
  put_SnapshotMeta : SnapshotMeta -> list Z; get_SnapshotMeta : R SnapshotMeta;
  put_Vote : Vote -> list Z; get_Vote : R Vote;
  put_Entry : Entry -> list Z; get_Entry : R Entry;
}.

(** Entries whose request has its Rust types, less the empty metadata blob. *)
Definition raft_entry_typed `{Openraft} (e : Entry) : Prop :=
  match en_payload e with
  | Normal req =>
      event_typed (rq_event req) /\ (forall id, rq_request_id req = Some id -> array_typed 16 id)
      /\ in_u8 (rq_schema_version req) /\ in_u16 (rq_namespace_id req)
  | _ => True
  end.

Class RaftSerdeLaws `{RaftSerde} : Prop := {
  LogId_ok l : decodes get_LogId (put_LogId l) l;
  StoredMembership_ok m : decodes get_StoredMembership (put_StoredMembership m) m;
  SnapshotMeta_ok m : decodes get_SnapshotMeta (put_SnapshotMeta m) m;
  Vote_ok v : decodes get_Vote (put_Vote v) v;
  Entry_ok e : raft_entry_typed e -> decodes get_Entry (put_Entry e) e;
}.

(** ** The audit sink *)
Class AuditSink (A : Type) : Type := {
  audit_record : KernelEvent -> option (list Z) -> M unit A unit;
}.

(** [NullAuditSink] discards events. *)
Inductive NullAuditSink : Type := mkNullSink.
#[export] Instance null_sink : AuditSink NullAuditSink := {| audit_record _ _ := sret tt |}.

(** [MemoryAuditSink] keeps the event's type and its request id. *)
Record MemoryAuditSink : Type := mkMemorySink { ms_records : list (String.string * option (list Z)) }.
#[export] Instance memory_sink : AuditSink MemoryAuditSink := {|
  audit_record event id :=
    smodify (fun s => mkMemorySink (ms_records s ++ [(event_type event, id)]))
|}.

(** ** Snapshot payload *)
Record SnapshotPayload : Type := mkPayload {
  sp_kernel : list Z;
  sp_dedup : list (list Z);
  sp_state_hash : list Z;
  sp_created_at : list (Z * Z);
  sp_text_corpus : list (Z * list Z);
  sp_registry : list (list Z * Z) * Z;
}.

Section Payload.
Context `{Bincode}.

Definition put_stamp (kv : Z * Z) : list Z := put_u32 kv.1 ++ put_u64 kv.2.
Definition get_stamp : R (Z * Z) := let* k := get_u32 in let* v := get_u64 in sret (k, v).
Definition put_text (kv : Z * list Z) : list Z := put_u64 kv.1 ++ put_str kv.2.
Definition get_text : R (Z * list Z) := let* k := get_u64 in let* v := get_str in sret (k, v).
Definition put_named (kv : list Z * Z) : list Z := put_str kv.1 ++ put_u16 kv.2.
Definition get_named : R (list Z * Z) := let* k := get_str in let* v := get_u16 in sret (k, v).

Definition put_SnapshotPayload (p : SnapshotPayload) : list Z :=
  put_bytes (sp_kernel p) ++ put_vec put_array (sp_dedup p) ++ put_array (sp_state_hash p)
  ++ put_vec put_stamp (sp_created_at p) ++ put_vec put_text (sp_text_corpus p)
  ++ put_vec put_named (sp_registry p).1 ++ put_u16 (sp_registry p).2.

Definition get_SnapshotPayload : R SnapshotPayload :=
  let* kernel := get_bytes in
  let* dedup := get_vec (get_array 16) in
  let* state_hash := get_array 32 in
  let* created_at := get_vec get_stamp in
  let* text_corpus := get_vec get_text in
  let* names := get_vec get_named in
  let* next_id := get_u16 in
  sret (mkPayload kernel dedup state_hash created_at text_corpus (names, next_id)).
End Payload.

(** ** The state machine *)
Inductive StorageError : Type :=
| SmDecode                      (** a table value does not decode *)
| PayloadDecode                 (** the snapshot frame does not decode *)
| KernelDecode (e : KernelError)
| StateHashMismatch
| AuditFailed.

(** The keys of the [sm_meta] table. *)
Inductive SmKey : Type := SmLastApplied | SmMembership | SmSnapshotMeta | SmSnapshotData.
#[export] Instance SmKey_eq_dec : EqDecision SmKey.
Proof. solve_decision. Defined.
#[export] Instance SmKey_countable : Countable SmKey.
Proof.
  refine (inj_countable'
    (fun k => match k with SmLastApplied => 0 | SmMembership => 1 | SmSnapshotMeta => 2 | SmSnapshotData => 3 end)
    (fun z => if z =? 0 then SmLastApplied else if z =? 1 then SmMembership
              else if z =? 2 then SmSnapshotMeta else SmSnapshotData) _).
  by intros [].
Defined.

Abbreviation SmTable := (gmap SmKey (list Z)).

Section StateMachine.
Context `{Bincode} `{RaftSerde} {A : Type} `{AuditSink A} (blake3 : list Z -> list Z).

Record StateMachineInner : Type := mkInner {
  i_state : KernelState;
  i_last_applied : option LogId;
  i_membership : StoredMembership;
  i_dedup_set : gset (list Z);
  i_dedup_order : list (list Z);
  i_current_snapshot : option (SnapshotMeta * list Z);
  i_audit : A;
  i_created_at : gmap Z Z;
  i_text_corpus : gmap Z (list Z);
  i_registry : CollectionRegistry;
  i_db : option SmTable;
  i_replay_until : option Z;
}.
Implicit Types i : StateMachineInner.

Definition i_set_state v i := mkInner v (i_last_applied i) (i_membership i) (i_dedup_set i)
  (i_dedup_order i) (i_current_snapshot i) (i_audit i) (i_created_at i) (i_text_corpus i)
  (i_registry i) (i_db i) (i_replay_until i).
Definition i_set_last_applied v i := mkInner (i_state i) v (i_membership i) (i_dedup_set i)
  (i_dedup_order i) (i_current_snapshot i) (i_audit i) (i_created_at i) (i_text_corpus i)
  (i_registry i) (i_db i) (i_replay_until i).
Definition i_set_membership v i := mkInner (i_state i) (i_last_applied i) v (i_dedup_set i)
  (i_dedup_order i) (i_current_snapshot i) (i_audit i) (i_created_at i) (i_text_corpus i)
  (i_registry i) (i_db i) (i_replay_until i).
Definition i_set_dedup (v : gset (list Z) * list (list Z)) i := mkInner (i_state i) (i_last_applied i)
  (i_membership i) v.1 v.2 (i_current_snapshot i) (i_audit i) (i_created_at i) (i_text_corpus i)
  (i_registry i) (i_db i) (i_replay_until i).
Definition i_set_snapshot v i := mkInner (i_state i) (i_last_applied i) (i_membership i) (i_dedup_set i)
  (i_dedup_order i) v (i_audit i) (i_created_at i) (i_text_corpus i)
  (i_registry i) (i_db i) (i_replay_until i).
Definition i_set_audit v i := mkInner (i_state i) (i_last_applied i) (i_membership i) (i_dedup_set i)
  (i_dedup_order i) (i_current_snapshot i) v (i_created_at i) (i_text_corpus i)
  (i_registry i) (i_db i) (i_replay_until i).
Definition i_set_texts (c : gmap Z Z) (t : gmap Z (list Z)) i := mkInner (i_state i) (i_last_applied i)
  (i_membership i) (i_dedup_set i) (i_dedup_order i) (i_current_snapshot i) (i_audit i) c t
  (i_registry i) (i_db i) (i_replay_until i).
Definition i_set_registry v i := mkInner (i_state i) (i_last_applied i) (i_membership i) (i_dedup_set i)
  (i_dedup_order i) (i_current_snapshot i) (i_audit i) (i_created_at i) (i_text_corpus i)
  v (i_db i) (i_replay_until i).
Definition i_set_db v i := mkInner (i_state i) (i_last_applied i) (i_membership i) (i_dedup_set i)
  (i_dedup_order i) (i_current_snapshot i) (i_audit i) (i_created_at i) (i_text_corpus i)
  (i_registry i) v (i_replay_until i).
Definition i_set_replay v i := mkInner (i_state i) (i_last_applied i) (i_membership i) (i_dedup_set i)
  (i_dedup_order i) (i_current_snapshot i) (i_audit i) (i_created_at i) (i_text_corpus i)
  (i_registry i) (i_db i) v.

Abbreviation SM X := (M StorageError StateMachineInner X).

(** ** Dedup memory *)

(** The eviction loop: it shortens the queue at every turn. *)
Fixpoint evict (set : gset (list Z)) (order : list (list Z)) : gset (list Z) * list (list Z) :=
  match order with
  | [] => (set, [])
  | old :: rest =>
      if MAX_DEDUP_ENTRIES <? len order then evict (set ∖ {[old]}) rest else (set, order)
  end.

Definition remember_request (id : list Z) i : StateMachineInner :=
  if bool_decide (id ∈ i_dedup_set i) then i
  else i_set_dedup (evict ({[id]} ∪ i_dedup_set i) (i_dedup_order i ++ [id])) i.

(** ** Persistence *)
Definition persist_applied : SM unit :=
  smodify (fun i =>
    match i_db i with
    | None => i
    | Some db =>
        i_set_db (Some (<[SmMembership := put_StoredMembership (i_membership i)]>
                          (<[SmLastApplied := put_option put_LogId (i_last_applied i)]> db))) i
    end).

Definition persist_snapshot : SM unit :=
  smodify (fun i =>
    match i_db i, i_current_snapshot i with
    | Some db, Some (meta, data) =>
        i_set_db (Some (<[SmSnapshotData := data]> (<[SmSnapshotMeta := put_SnapshotMeta meta]> db))) i
    | _, _ => i
    end).

(** [sm_decode]: bytes after the value are ignored. *)
Definition sm_decode {X} (g : R X) (bs : list Z) : outcome StorageError X :=
  map_err (fun _ => SmDecode) (g bs).2.

(** ** Construction *)
Definition sm_new (audit : A) (dim : Z) : StateMachineInner :=
  mkInner (KernelState_with_dim dim) None stored_default ∅ [] None audit ∅ ∅ registry_new None None.

(** The replicated state a snapshot payload stands for, once it passed the
    decoder and the hash check. *)
Definition open_payload (bs : list Z) : outcome StorageError (SnapshotPayload * KernelState) :=
  do* payload := map_err (fun _ => PayloadDecode) (get_SnapshotPayload bs).2 in
  do* state := map_err KernelDecode (decode_state (sp_kernel payload)) in
  if bool_decide (hash_state_blake3 blake3 state = sp_state_hash payload) then Ok (payload, state)
  else Err StateHashMismatch.

Definition payload_registry (p : SnapshotPayload) : CollectionRegistry :=
  mkRegistry (list_to_map (reverse (sp_registry p).1)) (sp_registry p).2.

(** [collect] into a map: a later pair overwrites an earlier one. *)
Definition collect_map {V} (kvs : list (Z * V)) : gmap Z V := list_to_map (reverse kvs).

Definition with_db (audit : A) (db : SmTable) (dim : Z) : outcome StorageError StateMachineInner :=
  do* persisted_last_applied :=
    match db !! SmLastApplied with
    | Some v => sm_decode (get_option get_LogId) v
    | None => Ok None
    end in
  do* membership :=
    match db !! SmMembership with
    | Some v => sm_decode get_StoredMembership v
    | None => Ok stored_default
    end in
  do* snapshot :=
    match db !! SmSnapshotMeta, db !! SmSnapshotData with
    | Some meta_v, Some data_v => do* meta := sm_decode get_SnapshotMeta meta_v in Ok (Some (meta, data_v))
    | _, _ => Ok None
    end in
  let replay_until := log_index <$> persisted_last_applied in
  match snapshot with
  | Some (meta, bs) =>
      do* ps := open_payload bs in
      let '(payload, state) := ps in
      Ok (mkInner state (sm_last_log_id meta) membership (list_to_set (sp_dedup payload)) (sp_dedup payload)
            (Some (meta, bs)) audit (collect_map (sp_created_at payload)) (collect_map (sp_text_corpus payload))
            (payload_registry payload) (Some db) replay_until)
  | None =>
      Ok (mkInner (KernelState_with_dim dim) None membership ∅ [] None audit ∅ ∅ registry_new (Some db)
            replay_until)
  end.

(** ** Reads *)
Definition sm_state_hash i : list Z := hash_state_blake3 blake3 (i_state i).
Definition locked_dim i : option Z := ks_dim (i_state i).
Definition record_created_at i (id : Z) : option Z := i_created_at i !! id.
Definition resolve_namespace i (name : option (list Z)) : option Z := registry_resolve (i_registry i) name.
Definition list_namespaces i : list (list Z * Z) := registry_list (i_registry i).
Definition applied_state i : option LogId * StoredMembership := (i_last_applied i, i_membership i).

(** ** apply *)
Definition plain_reply (index : Z) (deduplicated : bool) (rejected : option Rejection) i : ClientResponse :=
  mkResponse index (sm_state_hash i) deduplicated rejected None None None None.

(** The ids the kernel is about to allocate. *)
Definition pre_alloc_id (evt : KernelEvent) i : option Z :=
  match evt with
  | AutoInsertRecord _ _ _ | AutoInsertRecordEncrypted _ _ _ _ => Some (next_record_id (i_state i))
  | _ => None
  end.
Definition pre_alloc_node_id (evt : KernelEvent) i : option Z :=
  match evt with AutoCreateNode _ _ => Some (next_node_id (i_state i)) | _ => None end.
Definition pre_alloc_edge_id (evt : KernelEvent) i : option Z :=
  match evt with AutoCreateEdge _ _ _ => Some (next_edge_id (i_state i)) | _ => None end.

(** The namespace a collection event resolves to; [AutoCreateNamespace]
    registers the name speculatively. *)
Definition resolve_event (evt : KernelEvent) : SM (option Z) :=
  let* i := sget in
  match evt with
  | AutoCreateNamespace name =>
      let '(r, id) := registry_create name (i_registry i) in
      smodify (i_set_registry r) ;;; sret id
  | DropNamespace name => sret (registry_resolve (i_registry i) (Some name))
  | _ => sret None
  end.

Definition kernel_apply (evt : KernelEvent) (ns : Z) : SM (option Rejection) :=
  fun i =>
    match apply_event_ns evt ns (i_state i) with
    | (s, Ok _) => (i_set_state s i, Ok None)
    | (s, Err e) => (i_set_state s i, Ok (Some (KernelRejected e)))
    | (s, Panic) => (i_set_state s i, Panic)
    | (s, Hang) => (i_set_state s i, Hang)
    end.

Definition dispatch (evt : KernelEvent) (resolved : option Z) (namespace_id : Z) : SM (option Rejection) :=
  match evt with
  | AutoCreateNamespace _ =>
      match resolved with
      | Some id => kernel_apply evt id
      | None => sret (Some NamespaceLimit)
      end
  | DropNamespace name =>
      match resolved with
      | Some id => kernel_apply evt id
      | None => sret (Some (NamespaceNotFound name))
      end
  | _ => kernel_apply evt namespace_id
  end.

Definition sink_record (evt : KernelEvent) (request_id : option (list Z)) : SM unit :=
  fun i =>
    let '(a, o) := audit_record evt request_id (i_audit i) in
    (i_set_audit a i, map_err (fun _ => AuditFailed) o).

(** [replay_until.map(|t| log_index <= t).unwrap_or(false)] *)
Definition in_replay (log_index : Z) i : bool :=
  match i_replay_until i with Some t => log_index <=? t | None => false end.

(** Creation time, and the text of UTF-8 metadata. *)
Definition stamp (now : Z) (evt : KernelEvent) (rid : Z) i : StateMachineInner :=
  let texts :=
    match evt with
    | AutoInsertRecord _ (Some meta) _ =>
        if utf8_valid meta then <[rid := meta]> (i_text_corpus i) else i_text_corpus i
    | _ => i_text_corpus i
    end in
  i_set_texts (<[rid := now]> (i_created_at i)) texts i.

(** What an accepted request leaves behind. *)
Definition record_accepted (now : Z) (req : ClientRequest) (replaying : bool) (rid : option Z) : SM unit :=
  (match rq_request_id req with Some id => smodify (remember_request id) | None => sret tt end) ;;;
  (if replaying then sret tt else sink_record (rq_event req) (rq_request_id req)) ;;;
  match rid with Some r => smodify (stamp now (rq_event req) r) | None => sret tt end.

(** Undo the registration of a rejected create, forget a dropped name. *)
Definition finalize_registry (evt : KernelEvent) (resolved : option Z) (rejected : option Rejection)
    : SM (option Z) :=
  match evt with
  | AutoCreateNamespace name =>
      match rejected with
      | Some _ => smodify (fun i => i_set_registry (registry_remove name (i_registry i)) i) ;;; sret None
      | None => sret resolved
      end
  | DropNamespace name =>
      match rejected with
      | Some _ => sret None
      | None => smodify (fun i => i_set_registry (registry_remove name (i_registry i)) i) ;;; sret None
      end
  | _ => sret None
  end.

Definition is_duplicate (req : ClientRequest) i : bool :=
  match rq_request_id req with Some id => bool_decide (id ∈ i_dedup_set i) | None => false end.

(** The reply, once the registry is settled. *)
Definition settle (index : Z) (evt : KernelEvent) (resolved : option Z) (rejected : option Rejection)
    (rid nid eid : option Z) : SM ClientResponse :=
  let* ns := finalize_registry evt resolved rejected in
  let* i := sget in
  sret (match rejected with
        | None => mkResponse index (sm_state_hash i) false None rid nid eid ns
        | Some _ => mkResponse index (sm_state_hash i) false rejected None None None ns
        end).

(** The rest of an entry once the kernel has decided. *)
Definition conclude (now index : Z) (req : ClientRequest) (resolved : option Z) (rejected : option Rejection)
    (rid nid eid : option Z) : SM ClientResponse :=
  let* i := sget in
  let replaying := in_replay index i in
  (if replaying then sret tt else smodify (i_set_replay None)) ;;;
  (match rejected with
   | None => record_accepted now req replaying rid
   | Some _ => sret tt
   end) ;;;
  settle index (rq_event req) resolved rejected rid nid eid.

Definition apply_request (now index : Z) (req : ClientRequest) : SM ClientResponse :=
  let* i := sget in
  if CURRENT_SCHEMA_VERSION <? rq_schema_version req then
    sret (plain_reply index false (Some (SchemaTooNew (rq_schema_version req))) i)
  else if is_duplicate req i then sret (plain_reply index true None i)
  else
    let evt := rq_event req in
    let* resolved := resolve_event evt in
    let* rejected := dispatch evt resolved (rq_namespace_id req) in
    conclude now index req resolved rejected (pre_alloc_id evt i) (pre_alloc_node_id evt i)
      (pre_alloc_edge_id evt i).

Definition apply_entry (clock : Z -> Z) (e : Entry) : SM ClientResponse :=
  let index := log_index (en_log_id e) in
  smodify (i_set_last_applied (Some (en_log_id e))) ;;;
  match en_payload e with
  | Blank => let* i := sget in sret (plain_reply index false None i)
  | MembershipEntry m =>
      smodify (i_set_membership (stored_new (Some (en_log_id e)) m)) ;;;
      let* i := sget in sret (plain_reply index false None i)
  | Normal req => apply_request (clock index) index req
  end.

Fixpoint apply_loop (clock : Z -> Z) (entries : list Entry) : SM (list ClientResponse) :=
  match entries with
  | [] => sret []
  | e :: entries =>
      let* r := apply_entry clock e in
      let* rs := apply_loop clock entries in
      sret (r :: rs)
  end.

Definition apply (clock : Z -> Z) (entries : list Entry) : SM (list ClientResponse) :=
  let* replies := apply_loop clock entries in
  persist_applied ;;;
  sret replies.

(** ** Snapshots *)
Definition install_snapshot (meta : SnapshotMeta) (bs : list Z) : SM unit :=
  let* ps := slift (open_payload bs) in
  let '(payload, state) := ps in
  smodify (fun i =>
    mkInner state (sm_last_log_id meta) (sm_last_membership meta) (list_to_set (sp_dedup payload))
      (sp_dedup payload) (Some (meta, bs)) (i_audit i) (collect_map (sp_created_at payload))
      (collect_map (sp_text_corpus payload)) (payload_registry payload) (i_db i) (i_replay_until i)) ;;;
  persist_snapshot.

Definition payload_of i : SnapshotPayload :=
  mkPayload (encode_state (i_state i)) (i_dedup_order i) (sm_state_hash i)
    (map_to_list (i_created_at i)) (map_to_list (i_text_corpus i))
    (map_to_list (reg_map (i_registry i)), reg_next_id (i_registry i)).

(** [format!("{}-{}", index, &hex(state_hash)[..16])] *)
Definition meta_of i : SnapshotMeta :=
  mkMeta (i_last_applied i) (i_membership i)
    (dec_digits 20 (match i_last_applied i with Some l => log_index l | None => 0 end)
     ++ [45] ++ take 16 (hex (sm_state_hash i))).

Definition build_snapshot : SM (SnapshotMeta * list Z) :=
  let* i := sget in
  let meta := meta_of i in
  let bs := put_SnapshotPayload (payload_of i) in
  smodify (i_set_snapshot (Some (meta, bs))) ;;;
  persist_snapshot ;;;
  sret (meta, bs).

Definition get_current_snapshot i : option (SnapshotMeta * list Z) := i_current_snapshot i.

End StateMachine.
