(* ===== verification/ConsensusProofs.v ===== *)
(** * The replicated state machine, abstractly

    [Core] is what every replica must agree on: the kernel, the last applied
    log id, the membership, the window of request ids and the registry.
    [spec_entry] says what one log entry does to it, as a function of the core
    and the entry only.  [apply_entry_ok] shows that the state machine refines
    it: whatever its audit sink, clock, database and replay mark are, it answers
    what [spec_entry] answers and hands the sink exactly the accepted events. *)

From S2P Require Import Prelude.
From S2P Require Import Hoare.
From S2P Require Import Core.
From S2P Require Import Fxp.
From S2P Require Import Records.
From S2P Require Import Event.
From S2P Require Import Kernel.
From S2P Require Import Bytes.
From S2P Require Import Snapshot.
From S2P Require Import StateProof.
From S2P Require Import EventCodec.
From S2P Require Import Wire.
From S2P Require Import Registry.
From S2P Require Import Consensus.

(** ** The abstract machine *)
Section Spec.
Context `{Openraft} (blake3 : list Z -> list Z).

Record Core : Type := mkCore {
  k_state : KernelState;
  k_last : option LogId;
  k_membership : StoredMembership;
  k_seen : list (list Z);
  k_registry : CollectionRegistry;
}.
Implicit Types c : Core.

(** The newest [MAX_DEDUP_ENTRIES] of a queue. *)
Definition keep_last (l : list (list Z)) : list (list Z) := drop (length l - Z.to_nat MAX_DEDUP_ENTRIES) l.

Definition see (id : option (list Z)) (seen : list (list Z)) : list (list Z) :=
  match id with
  | Some id => if bool_decide (id ∈ seen) then seen else keep_last (seen ++ [id])
  | None => seen
  end.

(** Where an event goes: its namespace and the registry once it is applied. *)
Definition route_event (evt : KernelEvent) (ns : Z) (r : CollectionRegistry)
    : Rejection + Z * CollectionRegistry :=
  match evt with
  | AutoCreateNamespace name =>
      match registry_create name r with
      | (r', Some id) => inr (id, r')
      | (_, None) => inl NamespaceLimit
      end
  | DropNamespace name =>
      match registry_resolve r (Some name) with
      | Some id => inr (id, registry_remove name r)
      | None => inl (NamespaceNotFound name)
      end
  | _ => inr (ns, r)
  end.

Definition spec_reply (index : Z) (dup : bool) (rej : option Rejection) (s : KernelState) : ClientResponse :=
  mkResponse index (hash_state_blake3 blake3 s) dup rej None None None None.

Definition accepted_reply (index : Z) (evt : KernelEvent) (ns : Z) (s s' : KernelState) : ClientResponse :=
  mkResponse index (hash_state_blake3 blake3 s') false None
    (match evt with
     | AutoInsertRecord _ _ _ | AutoInsertRecordEncrypted _ _ _ _ => Some (next_record_id s)
     | _ => None
     end)
    (match evt with AutoCreateNode _ _ => Some (next_node_id s) | _ => None end)
    (match evt with AutoCreateEdge _ _ _ => Some (next_edge_id s) | _ => None end)
    (match evt with AutoCreateNamespace _ => Some ns | _ => None end).

(** The reply, and whether the event was applied. *)
Definition spec_request (index : Z) (req : ClientRequest) (c : Core)
    : outcome StorageError (Core * ClientResponse * bool) :=
  let refuse rej s := Ok (mkCore s (k_last c) (k_membership c) (k_seen c) (k_registry c),
                          spec_reply index false (Some rej) s, false) in
  let evt := rq_event req in
  if CURRENT_SCHEMA_VERSION <? rq_schema_version req then
    refuse (SchemaTooNew (rq_schema_version req)) (k_state c)
  else if match rq_request_id req with Some id => bool_decide (id ∈ k_seen c) | None => false end then
    Ok (c, spec_reply index true None (k_state c), false)
  else
    match route_event evt (rq_namespace_id req) (k_registry c) with
    | inl rej => refuse rej (k_state c)
    | inr (ns, r) =>
        match apply_event_ns evt ns (k_state c) with
        | (s, Ok _) => Ok (mkCore s (k_last c) (k_membership c) (see (rq_request_id req) (k_seen c)) r,
                           accepted_reply index evt ns (k_state c) s, true)
        | (s, Err e) => refuse (KernelRejected e) s
        | (_, Panic) => Panic
        | (_, Hang) => Hang
        end
    end.

Definition k_set_last (l : LogId) (c : Core) : Core :=
  mkCore (k_state c) (Some l) (k_membership c) (k_seen c) (k_registry c).
Definition k_set_membership (m : StoredMembership) (c : Core) : Core :=
  mkCore (k_state c) (k_last c) m (k_seen c) (k_registry c).

Definition spec_entry (e : Entry) (c : Core) : outcome StorageError (Core * ClientResponse * bool) :=
  let index := log_index (en_log_id e) in
  let c := k_set_last (en_log_id e) c in
  match en_payload e with
  | Blank => Ok (c, spec_reply index false None (k_state c), false)
  | MembershipEntry m =>
      Ok (k_set_membership (stored_new (Some (en_log_id e)) m) c, spec_reply index false None (k_state c), false)
  | Normal req => spec_request index req c
  end.

Fixpoint spec_run (es : list Entry) (c : Core) : outcome StorageError (Core * list ClientResponse) :=
  match es with
  | [] => Ok (c, [])
  | e :: es =>
      do* x := spec_entry e c in
      do* y := spec_run es x.1.1 in
      Ok (y.1, x.1.2 :: y.2)
  end.

Lemma spec_run_app es1 es2 c :
  spec_run (es1 ++ es2) c
  = (do* x := spec_run es1 c in do* y := spec_run es2 x.1 in Ok (y.1, x.2 ++ y.2)).
Proof.
  revert c. induction es1 as [|e es1 IH]; intros c.
  { simpl. by destruct (spec_run es2 c) as [[c' rs]| | |]. }
  simpl. destruct (spec_entry e c) as [[[c1 r] acc]| | |]; [|done..]. simpl. rewrite IH.
  destruct (spec_run es1 c1) as [[c2 rs]| | |]; [|done..]. simpl.
  by destruct (spec_run es2 c2) as [[c3 rs']| | |].
Qed.
End Spec.

(** ** Dedup windows *)
Lemma length_keep_last l : len (keep_last l) <= MAX_DEDUP_ENTRIES.
Proof. unfold len, keep_last, MAX_DEDUP_ENTRIES. rewrite length_drop. lia. Qed.

Lemma keep_last_short l : len l <= MAX_DEDUP_ENTRIES -> keep_last l = l.
Proof. unfold len, keep_last. intros. by replace (_ - _)%nat with 0%nat by lia. Qed.

Lemma evict_ok (l : list (list Z)) (s : gset (list Z)) :
  NoDup l -> s = list_to_set l -> evict s l = (list_to_set (keep_last l), keep_last l).
Proof.
  revert s. induction l as [|x l IH]; intros s Hnd ->; [done|].
  cbn [evict]. destruct (MAX_DEDUP_ENTRIES <? len (x :: l)) eqn:El; bool_prop.
  - apply NoDup_cons in Hnd as [Hx Hnd]. rewrite IH by (done || set_solver).
    replace (keep_last (x :: l)) with (keep_last l); [done|].
    unfold keep_last, len in *. cbn [length] in *.
    by replace (S (length l) - _)%nat with (S (length l - Z.to_nat MAX_DEDUP_ENTRIES)) by lia.
  - by rewrite keep_last_short by lia.
Qed.

Lemma NoDup_keep_last l : NoDup l -> NoDup (keep_last l).
Proof. intros. eapply sublist_NoDup; [done|apply sublist_drop]. Qed.

(** ** Refinement *)
Section Refine.
Context `{Bincode} `{RaftSerde} {A : Type} `{AuditSink A} (blake3 : list Z -> list Z).
Implicit Types i : StateMachineInner (A := A).

Definition core i : Core :=
  mkCore (i_state i) (i_last_applied i) (i_membership i) (i_dedup_order i) (i_registry i).

(** The two dedup structures agree, and the registry is well formed. *)
Record core_ok i : Prop := {
  co_set : i_dedup_set i = list_to_set (i_dedup_order i);
  co_nodup : NoDup (i_dedup_order i);
  co_len : len (i_dedup_order i) <= MAX_DEDUP_ENTRIES;
  co_registry : registry_wf (i_registry i);
}.

Lemma remember_request_ok id i :
  core_ok i ->
  let j := remember_request id i in
  core_ok j /\ core j = mkCore (i_state i) (i_last_applied i) (i_membership i)
                          (see (Some id) (i_dedup_order i)) (i_registry i)
  /\ i_audit j = i_audit i /\ i_replay_until j = i_replay_until i /\ i_db j = i_db i.
Proof.
  intros [Es En El Er]. unfold remember_request, see. cbv zeta.
  rewrite Es, (bool_decide_ext (id ∈ list_to_set (i_dedup_order i)) (id ∈ i_dedup_order i)) by set_solver.
  case_bool_decide as Hin; [done|].
  assert (NoDup (i_dedup_order i ++ [id])) as Hnd.
  { apply NoDup_app. split; [done|]. split; [set_solver|apply NoDup_singleton]. }
  rewrite evict_ok by (done || set_solver). split; [|done].
  split; simpl; [done|by apply NoDup_keep_last|apply length_keep_last|done].
Qed.

Lemma remember_step o i :
  core_ok i -> exists j,
    match o with Some id => smodify (remember_request id) | None => sret tt end i = (j, @Ok StorageError _ tt)
    /\ core_ok j /\ core j = mkCore (i_state i) (i_last_applied i) (i_membership i)
                            (see o (i_dedup_order i)) (i_registry i)
    /\ i_audit j = i_audit i /\ i_replay_until j = i_replay_until i /\ i_db j = i_db i.
Proof.
  intros Hok. destruct o as [id|]; [|by exists i].
  exists (remember_request id i). split; [done|]. by apply remember_request_ok.
Qed.

(** The sink's own failures. *)
Definition sink_fails (req : ClientRequest) i (o : outcome unit unit) : Prop :=
  exists a, audit_record (rq_event req) (rq_request_id req) (i_audit i) = (a, o).

(** What the sink saw of one entry: the event, when it was accepted and not
    replayed. *)
Definition audited (acc replaying : bool) (req : ClientRequest) (a a' : A) : Prop :=
  if acc && negb replaying then audit_record (rq_event req) (rq_request_id req) a = (a', Ok tt) else a' = a.

Lemma create_namespace_accepted name id s :
  0 <= id < MAX_NAMESPACES ->
  match apply_event_ns (AutoCreateNamespace name) id s with
  | (_, Err _) => False
  | _ => True
  end.
Proof.
  intros Hid. unfold apply_event_ns, check_ns, bump_version, sbind, sguard, sget, slift, smodify, sret, sthrow.
  rewrite (proj2 (Z.leb_gt _ _)) by lia. unfold Version_next. by repeat case_match; simplify_eq/=.
Qed.

Lemma record_accepted_ok now req replaying rid i :
  core_ok i ->
  match record_accepted now req replaying rid i with
  | (j, Ok _) =>
      core j = mkCore (i_state i) (i_last_applied i) (i_membership i)
                 (see (rq_request_id req) (i_dedup_order i)) (i_registry i)
      /\ core_ok j /\ audited true replaying req (i_audit i) (i_audit j)
      /\ i_replay_until j = i_replay_until i /\ i_db j = i_db i
  | (_, Err _) => replaying = false /\ sink_fails req i (Err tt)
  | (_, Panic) => replaying = false /\ sink_fails req i Panic
  | (_, Hang) => replaying = false /\ sink_fails req i Hang
  end.
Proof.
  intros Hok. unfold record_accepted.
  destruct (remember_step (rq_request_id req) i Hok) as (i1 & E1 & Hok1 & Hc1 & Ha1 & Hr1 & Hd1).
  rewrite (bind_ok _ _ _ _ _ E1). unfold audited, sbind, smodify, sret.
  destruct replaying; simpl.
  - destruct Hok1. destruct rid; simpl; split_and!; try done; by split.
  - unfold sink_record. rewrite Ha1.
    destruct (audit_record (rq_event req) (rq_request_id req) (i_audit i)) as [a [[]|[]| |]] eqn:Es; simpl;
      [|by split; [|exists a]..].
    destruct Hok1. destruct rid; simpl; split_and!; try done; by split.
Qed.

Definition is_accepted (rejected : option Rejection) : bool :=
  match rejected with None => true | Some _ => false end.

(** The registry once an entry is concluded. *)
Definition final_registry (evt : KernelEvent) (rejected : option Rejection) (r : CollectionRegistry)
    : CollectionRegistry :=
  match evt, rejected with
  | AutoCreateNamespace name, Some _ => registry_remove name r
  | DropNamespace name, None => registry_remove name r
  | _, _ => r
  end.

Definition final_reply (index : Z) (evt : KernelEvent) (resolved : option Z) (rejected : option Rejection)
    (rid nid eid : option Z) (s : KernelState) : ClientResponse :=
  match rejected with
  | None => mkResponse index (hash_state_blake3 blake3 s) false None rid nid eid
              (match evt with AutoCreateNamespace _ => resolved | _ => None end)
  | Some _ => mkResponse index (hash_state_blake3 blake3 s) false rejected None None None None
  end.

Lemma finalize_ok evt resolved rejected i :
  core_ok i -> exists j,
    finalize_registry evt resolved rejected i
    = (j, @Ok StorageError _ (match evt, rejected with AutoCreateNamespace _, None => resolved | _, _ => None end))
    /\ core j = mkCore (i_state i) (i_last_applied i) (i_membership i) (i_dedup_order i)
                 (final_registry evt rejected (i_registry i))
    /\ core_ok j /\ i_audit j = i_audit i /\ i_replay_until j = i_replay_until i /\ i_db j = i_db i.
Proof.
  intros [Es En El Er]. unfold finalize_registry, final_registry.
  assert (core_ok i) as Hok by by split.
  destruct evt; try (exists i; by split_and!); destruct rejected; try (exists i; by split_and!);
    (eexists; split; [reflexivity|]; split; [done|]; split; [|done]; split; simpl; [done..|by apply registry_wf_remove]).
Qed.

Lemma settle_ok index evt resolved rejected rid nid eid i :
  core_ok i -> exists j,
    settle blake3 index evt resolved rejected rid nid eid i
    = (j, @Ok StorageError _ (final_reply index evt resolved rejected rid nid eid (i_state i)))
    /\ core j = mkCore (i_state i) (i_last_applied i) (i_membership i) (i_dedup_order i)
                 (final_registry evt rejected (i_registry i))
    /\ core_ok j /\ i_audit j = i_audit i /\ i_replay_until j = i_replay_until i /\ i_db j = i_db i.
Proof.
  intros Hok. destruct (finalize_ok evt resolved rejected i Hok) as (j & Ej & Hj & Hrest).
  exists j. split; [|done]. unfold settle. rewrite (bind_ok _ _ _ _ _ Ej).
  unfold sbind, sget, sret, sm_state_hash, final_reply. replace (i_state j) with (k_state (core j)) by done.
  rewrite Hj. by destruct evt, rejected.
Qed.

(** The replay mark stays, or is cleared by an entry past it. *)
Definition replay_kept (b : bool) i (j : StateMachineInner (A := A)) : Prop :=
  i_replay_until j = i_replay_until i \/ b = false /\ i_replay_until j = None.

(** What [conclude] leaves. *)
Record concluded (index : Z) (req : ClientRequest) (resolved : option Z) (rejected : option Rejection)
    (rid nid eid : option Z) i (j : StateMachineInner (A := A)) (r : ClientResponse) : Prop := {
  cc_reply : r = final_reply index (rq_event req) resolved rejected rid nid eid (i_state i);
  cc_core : core j = mkCore (i_state i) (i_last_applied i) (i_membership i)
              (if is_accepted rejected then see (rq_request_id req) (i_dedup_order i) else i_dedup_order i)
              (final_registry (rq_event req) rejected (i_registry i));
  cc_ok : core_ok j;
  cc_audit : audited (is_accepted rejected) (in_replay index i) req (i_audit i) (i_audit j);
  cc_replay : replay_kept (in_replay index i) i j;
  cc_db : i_db j = i_db i;
}.

Lemma conclude_ok now index req resolved rejected rid nid eid i :
  core_ok i ->
  match conclude blake3 now index req resolved rejected rid nid eid i with
  | (j, Ok r) => concluded index req resolved rejected rid nid eid i j r
  | (_, Err _) => in_replay index i = false /\ sink_fails req i (Err tt)
  | (_, Panic) => in_replay index i = false /\ sink_fails req i Panic
  | (_, Hang) => in_replay index i = false /\ sink_fails req i Hang
  end.
Proof.
  intros Hok. unfold conclude. rewrite (bind_ok _ _ i i i) by done.
  set (b := in_replay index i). set (i1 := if b then i else i_set_replay None i).
  rewrite (bind_ok _ _ i i1 tt) by (unfold i1; by destruct b).
  assert (core_ok i1) as Hok1 by (unfold i1; destruct b, Hok; by split).
  assert (core i1 = core i) as Hc1 by (unfold i1; by destruct b). injection Hc1 as S1 S2 S3 S4 S5.
  assert (i_audit i1 = i_audit i /\ i_db i1 = i_db i
          /\ replay_kept b i i1) as (Ha1 & Hd1 & Hr1)
    by (unfold i1, replay_kept; destruct b; auto).
  destruct rejected as [rej|].
  - rewrite (bind_ok _ _ i1 i1 tt) by done.
    destruct (settle_ok index (rq_event req) resolved (Some rej) rid nid eid i1 Hok1)
      as (j & -> & Hj & Hokj & Haj & Hrj & Hdj).
    split; simpl; [by rewrite S1|by rewrite Hj, S1, S2, S3, S4, S5|done|unfold audited; simpl; congruence| |congruence].
    unfold replay_kept in *. by rewrite Hrj.
  - pose proof (record_accepted_ok now req b rid i1 Hok1) as Hrec. unfold sbind at 1.
    destruct (record_accepted now req b rid i1) as [i2 [[]|e| |]];
      [|unfold sink_fails in *; rewrite Ha1 in Hrec; done..].
    destruct Hrec as (Hc2 & Hok2 & Ha2 & Hr2 & Hd2). rewrite S1, S2, S3, S4, S5 in Hc2.
    injection Hc2 as T1 T2 T3 T4 T5.
    destruct (settle_ok index (rq_event req) resolved None rid nid eid i2 Hok2)
      as (j & -> & Hj & Hokj & Haj & Hrj & Hdj).
    split; simpl; [by rewrite T1|by rewrite Hj, T1, T2, T3, T4, T5|done|by rewrite Haj, <- Ha1| |congruence].
    unfold replay_kept in *. by rewrite Hrj, Hr2.
Qed.

(** Routing: the speculative registration, and its undoing on rejection. *)
Lemma routed_ok evt ns i :
  core_ok i -> exists r1 resolved,
    resolve_event evt i = (i_set_registry r1 i, Ok resolved) /\ registry_wf r1
    /\ match route_event evt ns (i_registry i) with
       | inl rej => (forall j : StateMachineInner (A := A), dispatch evt resolved ns j = (j, Ok (Some rej)))
                    /\ final_registry evt (Some rej) r1 = i_registry i
       | inr (id, r') =>
           (forall j : StateMachineInner (A := A), dispatch evt resolved ns j = kernel_apply evt id j)
           /\ final_registry evt None r1 = r'
           /\ match evt with AutoCreateNamespace _ => resolved = Some id | _ => True end
           /\ (forall s s' e, apply_event_ns evt id s = (s', Err e) ->
                 final_registry evt (Some (KernelRejected e)) r1 = i_registry i)
       end.
Proof.
  intros Hok. pose proof (co_registry _ Hok) as Wr.
  unfold resolve_event, dispatch, route_event, final_registry, sbind, sget, sret, smodify.
  destruct evt; try (exists (i_registry i), None; by destruct i).
  - destruct (registry_create name (i_registry i)) as [r o] eqn:Ec.
    pose proof (registry_create_ok _ _ _ _ Wr Ec) as (Wr' & _ & Ho).
    exists r, o. split; [done|]. split; [done|]. destruct o as [id|].
    + destruct Ho as (_ & Hid). split_and!; try done.
      intros s s' e He. pose proof (create_namespace_accepted name id s Hid) as Hn. by rewrite He in Hn.
    + destruct Ho as (-> & Hn & _). split; [done|]. unfold registry_remove. destruct (i_registry i) as [m n].
      f_equal. simpl. unfold registry_resolve in Hn. apply delete_id.
      by destruct (decide (name = default_name)).
  - exists (i_registry i), (registry_resolve (i_registry i) (Some name)).
    split; [by destruct i|]. split; [done|]. by destruct (registry_resolve _ _).
Qed.

(** [apply_request] against its specification. *)
Lemma apply_request_ok now index req i :
  core_ok i ->
  match apply_request blake3 now index req i with
  | (j, Ok r) =>
      exists acc, spec_request blake3 index req (core i) = Ok (core j, r, acc) /\ core_ok j
        /\ audited acc (in_replay index i) req (i_audit i) (i_audit j)
        /\ replay_kept (in_replay index i) i j /\ i_db j = i_db i
  | (_, Err _) => in_replay index i = false /\ sink_fails req i (Err tt)
  | (_, Panic) => spec_request blake3 index req (core i) = Panic
                  \/ in_replay index i = false /\ sink_fails req i Panic
  | (_, Hang) => spec_request blake3 index req (core i) = Hang
                 \/ in_replay index i = false /\ sink_fails req i Hang
  end.
Proof.
  intros Hok. unfold apply_request, spec_request.
  assert (is_duplicate req i = match rq_request_id req with Some id => bool_decide (id ∈ k_seen (core i)) | None => false end) as Hd.
  { unfold is_duplicate. destruct (rq_request_id req); [|done]. rewrite (co_set _ Hok). simpl.
    apply bool_decide_ext. set_solver. }
  rewrite <- Hd. clear Hd. rewrite (bind_ok _ _ i i i) by done.
  destruct (CURRENT_SCHEMA_VERSION <? rq_schema_version req); [by exists false; split_and!; try done; left|].
  destruct (is_duplicate req i); [by exists false; split_and!; try done; left|].
  destruct (routed_ok (rq_event req) (rq_namespace_id req) i Hok) as (r1 & resolved & Er & Wr & Hroute).
  rewrite (bind_ok _ _ _ _ _ Er). cbn [core k_registry k_state k_last k_membership k_seen].
  set (i1 := i_set_registry r1 i).
  assert (forall s, core_ok (i_set_state s i1)) as Hok1 by (intros s; destruct Hok; by split).
  assert (forall rejected s, core_ok (i_set_state s i1) ->
            let o := conclude blake3 now index req resolved rejected (pre_alloc_id (rq_event req) i)
                       (pre_alloc_node_id (rq_event req) i) (pre_alloc_edge_id (rq_event req) i) (i_set_state s i1) in
            match o with
            | (j, Ok r) => concluded index req resolved rejected (pre_alloc_id (rq_event req) i)
                             (pre_alloc_node_id (rq_event req) i) (pre_alloc_edge_id (rq_event req) i)
                             (i_set_state s i1) j r
            | (_, Err _) => in_replay index i = false /\ sink_fails req i (Err tt)
            | (_, Panic) => in_replay index i = false /\ sink_fails req i Panic
            | (_, Hang) => in_replay index i = false /\ sink_fails req i Hang
            end) as Hcon by (intros rejected s Hs; exact (conclude_ok now index req _ rejected _ _ _ _ Hs)).
  assert (i_set_state (i_state i) i1 = i1) as Hid by by destruct i.
  destruct (route_event _ _ _) as [rej|[id r']].
  - destruct Hroute as [Hd Hf]. rewrite (bind_ok _ _ _ _ _ (Hd i1)).
    specialize (Hcon (Some rej) (i_state i) (Hok1 _)). rewrite Hid in Hcon.
    destruct (conclude _ _ _ _ _ _ _ _ _ i1) as [j [r|e| |]]; [|done|by right..].
    destruct Hcon as [-> Hc Hokj Ha Hr Hdb]. exists false. split_and!; try done.
    rewrite Hc. simpl. by rewrite Hf.
  - destruct Hroute as (Hd & Hf & Hres & Hrej). unfold sbind at 1. rewrite Hd. unfold kernel_apply.
    change (i_state i1) with (i_state i).
    destruct (apply_event_ns (rq_event req) id (i_state i)) as [s' [[]|e| |]] eqn:Ea; [| |by left..].
    + specialize (Hcon None s' (Hok1 _)).
      destruct (conclude _ _ _ _ _ _ _ _ _ _) as [j [r|e| |]]; [|done|by right..].
      destruct Hcon as [-> Hc Hokj Ha Hr Hdb]. exists true. split_and!; try done.
      rewrite Hc. simpl. rewrite Hf. do 3 f_equal. unfold final_reply, accepted_reply.
      destruct (rq_event req); try done. by rewrite Hres.
    + specialize (Hcon (Some (KernelRejected e)) s' (Hok1 _)).
      destruct (conclude _ _ _ _ _ _ _ _ _ _) as [j [r|e'| |]]; [|done|by right..].
      destruct Hcon as [-> Hc Hokj Ha Hr Hdb]. exists false. split_and!; try done.
      rewrite Hc. simpl. by rewrite (Hrej _ _ _ Ea).
Qed.

(** ** Entries and batches *)
Definition replaying (e : Entry) i : bool := in_replay (log_index (en_log_id e)) i.

(** What one entry gives the sink. *)
Definition entry_audited (acc : bool) (e : Entry) i (a' : A) : Prop :=
  match en_payload e with
  | Normal req => audited acc (replaying e i) req (i_audit i) a'
  | _ => a' = i_audit i
  end.

Definition entry_sink_fails (e : Entry) i (o : outcome unit unit) : Prop :=
  replaying e i = false /\ exists req, en_payload e = Normal req /\ sink_fails req i o.

Lemma apply_entry_ok clock e i :
  core_ok i ->
  match apply_entry blake3 clock e i with
  | (j, Ok r) =>
      exists acc, spec_entry blake3 e (core i) = Ok (core j, r, acc) /\ core_ok j
        /\ entry_audited acc e i (i_audit j)
        /\ replay_kept (replaying e i) i j /\ i_db j = i_db i
  | (_, Err _) => entry_sink_fails e i (Err tt)
  | (_, Panic) => spec_entry blake3 e (core i) = Panic \/ entry_sink_fails e i Panic
  | (_, Hang) => spec_entry blake3 e (core i) = Hang \/ entry_sink_fails e i Hang
  end.
Proof.
  intros Hok. unfold apply_entry, spec_entry, entry_audited, entry_sink_fails.
  rewrite (bind_ok _ _ i (i_set_last_applied (Some (en_log_id e)) i) tt) by done.
  set (i1 := i_set_last_applied _ i). assert (core_ok i1) as Hok1 by (destruct Hok; by split).
  destruct (en_payload e) as [|m|req].
  - exists false. split_and!; try done. by left.
  - exists false. split_and!; try done; [destruct Hok1; by split|by left].
  - pose proof (apply_request_ok (clock (log_index (en_log_id e))) (log_index (en_log_id e)) req i1 Hok1) as Hr.
    destruct (apply_request _ _ _ _ i1) as [j [r|err| |]]; [exact Hr|destruct Hr; eauto|naive_solver..].
Qed.

Lemma apply_loop_ok clock es i j rs :
  core_ok i -> apply_loop blake3 clock es i = (j, Ok rs) ->
  spec_run blake3 es (core i) = Ok (core j, rs) /\ core_ok j /\ i_db j = i_db i.
Proof.
  revert i j rs. induction es as [|e es IH]; intros i j rs Hok Hrun; [by injection Hrun as <- <-|].
  cbn [apply_loop] in Hrun. unfold sbind at 1 in Hrun. pose proof (apply_entry_ok clock e i Hok) as He.
  destruct (apply_entry blake3 clock e i) as [i1 [r|err| |]]; try discriminate.
  destruct He as (acc & Es & Hok1 & _ & _ & Hd). unfold sbind, sret in Hrun.
  destruct (apply_loop blake3 clock es i1) as [i2 [rs2|err| |]] eqn:El; try discriminate.
  injection Hrun as <- <-. destruct (IH _ _ _ Hok1 El) as (Er & Hok2 & Hd2).
  cbn [spec_run]. rewrite Es. simpl. rewrite Er. split_and!; [done..|congruence].
Qed.

Lemma apply_ok clock es i j rs :
  core_ok i -> apply blake3 clock es i = (j, Ok rs) ->
  spec_run blake3 es (core i) = Ok (core j, rs) /\ core_ok j
  /\ i_db j = (fun db => <[SmMembership := put_StoredMembership (i_membership j)]>
                           (<[SmLastApplied := put_option put_LogId (i_last_applied j)]> db)) <$> i_db i.
Proof.
  intros Hok. unfold apply, sbind at 1. destruct (apply_loop blake3 clock es i) as [i1 [rs1|e| |]] eqn:El; try discriminate.
  destruct (apply_loop_ok _ _ _ _ _ Hok El) as (Er & Hok1 & Hd). unfold persist_applied, sbind, smodify, sret.
  rewrite Hd. destruct (i_db i) as [db|]; intros [= <- <-]; simpl; (split; [exact Er|]); (split; [|rewrite ?Hd; done]);
    destruct Hok1; by split.
Qed.

(** Entries at or below the replay mark: the sink is not called, so nothing can
    fail that the specification does not. *)
Lemma replay_loop_ok clock es i T c rs :
  core_ok i -> i_replay_until i = Some T -> Forall (fun e => log_index (en_log_id e) <= T) es ->
  spec_run blake3 es (core i) = Ok (c, rs) ->
  exists j, apply_loop blake3 clock es i = (j, Ok rs) /\ core j = c /\ core_ok j
    /\ i_audit j = i_audit i /\ i_db j = i_db i.
Proof.
  revert i rs. induction es as [|e es IH]; intros i rs Hok HT Hes Hs.
  { simplify_eq/=. by exists i. }
  apply Forall_cons in Hes as [He Hes]. cbn [spec_run] in Hs.
  assert (replaying e i = true) as Hrep by (unfold replaying, in_replay; rewrite HT; by apply Z.leb_le).
  pose proof (apply_entry_ok clock e i Hok) as Ha. cbn [apply_loop]. unfold sbind at 1.
  destruct (apply_entry blake3 clock e i) as [i1 [r|err| |]].
  - destruct Ha as (acc & Es & Hok1 & Haud & Hr & Hd). rewrite Es in Hs. simpl in Hs.
    destruct (spec_run blake3 es (core i1)) as [[c' rs']| | |] eqn:E2; simplify_eq/=.
    destruct Hr as [Hr|[? _]]; [|congruence].
    destruct (IH i1 rs' Hok1 ltac:(by rewrite Hr) Hes E2) as (j & Ej & Hcj & Hokj & Haj & Hdj).
    exists j. unfold sbind, sret. rewrite Ej. split_and!; try done; [|congruence]. rewrite Haj.
    unfold entry_audited, audited in Haud. rewrite Hrep, andb_false_r in Haud. by destruct (en_payload e).
  - destruct Ha. congruence.
  - destruct Ha as [Ha|[? _]]; [by rewrite Ha in Hs|congruence].
  - destruct Ha as [Ha|[? _]]; [by rewrite Ha in Hs|congruence].
Qed.

(** The calls of [apply] openraft makes, each with a batch of entries. *)
Fixpoint run_batches (clock : Z -> Z) (bs : list (list Entry)) : M StorageError StateMachineInner (list ClientResponse) :=
  match bs with
  | [] => sret []
  | b :: bs =>
      let* rs := apply blake3 clock b in
      let* rest := run_batches clock bs in
      sret (rs ++ rest)
  end.

Lemma run_batches_ok clock bs i j rs :
  core_ok i -> run_batches clock bs i = (j, Ok rs) ->
  spec_run blake3 (concat bs) (core i) = Ok (core j, rs) /\ core_ok j.
Proof.
  revert i j rs. induction bs as [|b bs IH]; intros i j rs Hok Hrun; [by injection Hrun as <- <-|].
  cbn [run_batches] in Hrun. unfold sbind, sret in Hrun.
  destruct (apply blake3 clock b i) as [i1 [r|err| |]] eqn:Ea; try discriminate.
  destruct (apply_ok _ _ _ _ _ Hok Ea) as (Er & Hok1 & _).
  destruct (run_batches clock bs i1) as [i2 [rs2|err| |]] eqn:El; try discriminate.
  injection Hrun as <- <-. destruct (IH _ _ _ Hok1 El) as (Er2 & Hok2).
  cbn [concat]. rewrite spec_run_app, Er. simpl. by rewrite Er2.
Qed.
End Refine.
