(* ===== verification/ConsensusRestart.v ===== *)
(** * Snapshots and restarts of the Raft state machine

    The payload of a snapshot survives its frame, a node restarted from its
    tables replays the log to the state it had, and the sink sees nothing twice.
    The lemmas here serve [ConsensusTheorems]. *)

From S2P Require Import Prelude.
From S2P Require Import Core.
From S2P Require Import Fxp.
From S2P Require Import Records.
From S2P Require Import Event.
From S2P Require Import Kernel.
From S2P Require Import KernelProofs.
From S2P Require Import Bytes.
From S2P Require Import Snapshot.
From S2P Require Import SnapshotProofs.
From S2P Require Import StateProof.
From S2P Require Import SnapshotSafety.
From S2P Require Import EventCodec.
From S2P Require Import Wire.
From S2P Require Import Registry.
From S2P Require Import Consensus.
From S2P Require Import ConsensusProofs.

(** ** The snapshot frame *)
Definition stamp_typed (kv : Z * Z) : Prop := in_u32 kv.1 /\ in_u64 kv.2.
Definition text_typed (kv : Z * list Z) : Prop := in_u64 kv.1 /\ string_ok kv.2.
Definition named_typed (kv : list Z * Z) : Prop := string_ok kv.1 /\ in_u16 kv.2.

(** A payload whose fields have their Rust types. *)
Record payload_typed (p : SnapshotPayload) : Prop := {
  pt_kernel : bytes (sp_kernel p) /\ len (sp_kernel p) <= u64_MAX;
  pt_dedup : Forall (array_typed 16) (sp_dedup p) /\ len (sp_dedup p) <= u64_MAX;
  pt_hash : array_typed 32 (sp_state_hash p);
  pt_stamps : Forall stamp_typed (sp_created_at p) /\ len (sp_created_at p) <= u64_MAX;
  pt_texts : Forall text_typed (sp_text_corpus p) /\ len (sp_text_corpus p) <= u64_MAX;
  pt_names : Forall named_typed (sp_registry p).1 /\ len (sp_registry p).1 <= u64_MAX;
  pt_next : in_u16 (sp_registry p).2;
}.

Section Frame.
Context `{BincodeLaws}.

(** An encoding shared by two values would read back as both. *)
Lemma decodes_nonempty {X} (g : R X) (p : X -> list Z) a b :
  decodes g (p a) a -> decodes g (p b) b -> a <> b -> p a <> [].
Proof.
  intros [Ha _] [Hb _] Hab E. specialize (Ha (p b)). rewrite E in Ha. simpl in Ha.
  specialize (Hb []). rewrite app_nil_r in Hb. rewrite Hb in Ha. by simplify_eq.
Qed.

Lemma u16_nonempty v : in_u16 v -> put_u16 v <> [].
Proof.
  intros Hv. destruct (decide (v = 0)) as [->|Hne].
  - eapply (decodes_nonempty _ _ _ 1); [by apply u16_ok|apply u16_ok; int_lia|done].
  - eapply (decodes_nonempty _ _ _ 0); [by apply u16_ok|apply u16_ok; int_lia|done].
Qed.

Lemma stamp_ok kv : stamp_typed kv -> decodes get_stamp (put_stamp kv) kv /\ put_stamp kv <> [].
Proof.
  destruct kv as [k v]. intros [? ?]. unfold put_stamp, get_stamp. split; [fields|].
  pose proof (u64_nonempty v). by intros [_ ?]%app_nil.
Qed.

Lemma text_ok kv : text_typed kv -> decodes get_text (put_text kv) kv /\ put_text kv <> [].
Proof.
  destruct kv as [k v]. intros [? ?]. unfold put_text, get_text. split; [fields|].
  pose proof (u64_nonempty k). by intros [? _]%app_nil.
Qed.

Lemma named_ok kv : named_typed kv -> decodes get_named (put_named kv) kv /\ put_named kv <> [].
Proof.
  destruct kv as [k v]. intros [? ?]. unfold put_named, get_named. split; [fields|].
  intros [_ E]%app_nil. by apply (u16_nonempty v).
Qed.

Lemma array_nonempty bs : array_typed 16 bs -> put_array bs <> [].
Proof.
  intros [_ Hl]. destruct bs as [|b bs]; [done|]. unfold put_array. simpl.
  pose proof (u8_nonempty b). by intros [? _]%app_nil.
Qed.

Lemma SnapshotPayload_ok p :
  payload_typed p -> decodes get_SnapshotPayload (put_SnapshotPayload p) p.
Proof.
  intros [[Hk Hkl] [Hd Hdl] Hh [Hs Hsl] [Ht Htl] [Hn Hnl] Hx].
  destruct p as [k d h s t [n x]]. simpl in *. unfold put_SnapshotPayload, get_SnapshotPayload. simpl.
  eapply decodes_bind; [by apply bytes_ok|].
  eapply decodes_bind; [apply vec_ok; [|done]; eapply Forall_impl; [exact Hd|];
    intros b Hb; split; [by apply array_typed_ok|by apply array_nonempty]|].
  eapply decodes_bind; [by apply array_typed_ok|].
  eapply decodes_bind; [apply vec_ok; [|done]; eapply Forall_impl; [exact Hs|apply stamp_ok]|].
  eapply decodes_bind; [apply vec_ok; [|done]; eapply Forall_impl; [exact Ht|apply text_ok]|].
  eapply decodes_bind; [apply vec_ok; [|done]; eapply Forall_impl; [exact Hn|apply named_ok]|].
  eapply decodes_bind_last; [by apply u16_ok|]. apply decodes_ret.
Qed.
End Frame.

(** Collecting the pairs of a map, in whatever order, gives the map back. *)
Lemma collect_pairs `{Countable K} {V} (m : gmap K V) : list_to_map (reverse (map_to_list m)) = m.
Proof.
  rewrite <- (list_to_map_to_list m) at 2. apply list_to_map_proper.
  - rewrite (reverse_Permutation (map_to_list m)). apply NoDup_fst_map_to_list.
  - apply reverse_Permutation.
Qed.

Lemma collect_to_list {V} (m : gmap Z V) : collect_map (map_to_list m) = m.
Proof. apply collect_pairs. Qed.

(** ** Kernels a snapshot can carry *)

(** The encoder's image decodes, to a state with the same hash. *)
Record portable (s : KernelState) : Prop := {
  po_wf : kernel_wf s;
  po_fits : snapshotable s;
  po_metadata : forall i r, get_record s i = Some r -> rec_metadata r <> Some [];
}.

Lemma decode_portable s : portable s -> decode_state (encode_state s) = Ok (restored s).
Proof.
  intros [Hw Hs _]. unfold decode_state. rewrite <- (app_nil_r (encode_state s)).
  by rewrite (reads_state s Hw Hs []).
Qed.

Lemma hash_portable blake3 s : portable s -> hash_state_blake3 blake3 (restored s) = hash_state_blake3 blake3 s.
Proof. intros [_ _ Hm]. unfold hash_state_blake3, hash_input. by rewrite restored_records_id. Qed.

(** ** What determines the membership and the last log id *)
Section Frame.
Context `{Openraft} (blake3 : list Z -> list Z).

Definition membership_after (es : list Entry) (m : StoredMembership) : StoredMembership :=
  foldl (fun m e => match en_payload e with
                    | MembershipEntry x => stored_new (Some (en_log_id e)) x
                    | _ => m
                    end) m es.
Definition last_after (es : list Entry) (l : option LogId) : option LogId :=
  foldl (fun _ e => Some (en_log_id e)) l es.


(** The last membership entry wins, and none leaves the membership alone. *)
Lemma membership_after_cases es :
  (forall m, membership_after es m = m) \/ (forall m m', membership_after es m = membership_after es m').
Proof.
  induction es as [|e es IH] using rev_ind; [by left|]. unfold membership_after in *.
  destruct (en_payload e) as [|mm|rq] eqn:Ep.
  2: { right. intros m m'. rewrite !foldl_snoc, Ep. done. }
  all: destruct IH as [IH|IH]; [left; intros; rewrite foldl_snoc, Ep; apply IH|].
  all: right; intros; rewrite !foldl_snoc, Ep; apply IH.
Qed.

Lemma membership_after_twice es m : membership_after es (membership_after es m) = membership_after es m.
Proof. destruct (membership_after_cases es) as [Hc|Hc]; [by rewrite !Hc|apply Hc]. Qed.

Definition with_admin (l : option LogId) (m : StoredMembership) (c : Core) : Core :=
  mkCore (k_state c) l m (k_seen c) (k_registry c).

Lemma spec_entry_frame e c c' r acc l m :
  spec_entry blake3 e c = Ok (c', r, acc) ->
  spec_entry blake3 e (with_admin l m c)
  = Ok (with_admin (last_after [e] l) (membership_after [e] m) c', r, acc)
  /\ k_last c' = last_after [e] (k_last c) /\ k_membership c' = membership_after [e] (k_membership c).
Proof.
  unfold spec_entry, last_after, membership_after. cbn [foldl].
  destruct (en_payload e) as [|mm|req]; [by intros [= <- <- <-]..|].
  unfold spec_request. cbn [k_state k_last k_membership k_seen k_registry k_set_last with_admin].
  repeat case_match; intros; by simplify_eq/=.
Qed.

Lemma spec_run_frame es c c' rs l m :
  spec_run blake3 es c = Ok (c', rs) ->
  spec_run blake3 es (with_admin l m c) = Ok (with_admin (last_after es l) (membership_after es m) c', rs)
  /\ k_last c' = last_after es (k_last c) /\ k_membership c' = membership_after es (k_membership c).
Proof.
  revert c rs l m. induction es as [|e es IH]; intros c rs l m Hs; [by simplify_eq/=|].
  cbn [spec_run] in *. destruct (spec_entry blake3 e c) as [[[c1 r] acc]| | |] eqn:Ee; try discriminate.
  simpl in Hs. destruct (spec_run blake3 es c1) as [[c2 rs2]| | |] eqn:Er; try discriminate.
  destruct (spec_entry_frame _ _ _ _ _ l m Ee) as (-> & El & Em). simplify_eq/=.
  destruct (IH _ _ (last_after [e] l) (membership_after [e] m) Er) as (Hr & Hl & Hm).
  simpl in *. rewrite Hr. simpl. rewrite Hl, Hm, El, Em. done.
Qed.

Lemma last_after_is_Some es l : is_Some l -> is_Some (last_after es l).
Proof. revert l. induction es as [|e es IH]; intros l Hl; [done|]. by apply IH. Qed.
End Frame.

(** ** Snapshots of a node *)
Section Node.
Context `{BincodeLaws} `{RaftSerdeLaws} {A : Type} `{AuditSink A} (blake3 : list Z -> list Z).
Implicit Types i j : StateMachineInner (A := A).

Lemma open_payload_ok i :
  portable (i_state i) -> payload_typed (payload_of blake3 i) ->
  open_payload blake3 (put_SnapshotPayload (payload_of blake3 i)) = Ok (payload_of blake3 i, restored (i_state i)).
Proof.
  intros Hp Ht. unfold open_payload. pose proof (proj1 (SnapshotPayload_ok _ Ht) []) as Hr.
  rewrite app_nil_r in Hr. rewrite Hr. cbn [snd map_err obind].
  change (sp_kernel (payload_of blake3 i)) with (encode_state (i_state i)).
  rewrite (decode_portable _ Hp). cbn [map_err obind].
  rewrite bool_decide_true; [done|]. apply (hash_portable blake3 _ Hp).
Qed.

Lemma payload_registry_ok i : payload_registry (payload_of blake3 i) = i_registry i.
Proof. unfold payload_registry. simpl. rewrite collect_pairs. by destruct (i_registry i). Qed.

(** The replicated state a snapshot of [i] restores. *)
Definition snapshot_core i : Core :=
  mkCore (restored (i_state i)) (i_last_applied i) (i_membership i) (i_dedup_order i) (i_registry i).

(** ** The tables *)

(** The tables hold the last applied log id and the membership of [i]. *)
Record db_holds i (db : SmTable) : Prop := {
  dh_db : i_db i = Some db;
  dh_last : db !! SmLastApplied = Some (put_option put_LogId (i_last_applied i));
  dh_membership : db !! SmMembership = Some (put_StoredMembership (i_membership i));
}.

Definition same_snapshot (db db' : SmTable) : Prop :=
  db' !! SmSnapshotMeta = db !! SmSnapshotMeta /\ db' !! SmSnapshotData = db !! SmSnapshotData.

Lemma apply_db clock es i j rs db :
  core_ok i -> i_db i = Some db -> apply blake3 clock es i = (j, Ok rs) ->
  exists db', db_holds j db' /\ same_snapshot db db'.
Proof.
  intros Hok Hd Ha. apply apply_ok in Ha as (_ & _ & Hdb); [|done]. rewrite Hd in Hdb. simpl in Hdb.
  eexists. split; [split; [exact Hdb|..]|split]; by simplify_map_eq.
Qed.

Lemma run_batches_db clock bs i j rs db :
  core_ok i -> db_holds i db -> run_batches blake3 clock bs i = (j, Ok rs) ->
  exists db', db_holds j db' /\ same_snapshot db db'.
Proof.
  revert i rs db. induction bs as [|b bs IH]; intros i rs db Hok Hd Hrun.
  { injection Hrun as <- <-. by exists db. }
  cbn [run_batches] in Hrun. unfold sbind, sret in Hrun.
  destruct (apply blake3 clock b i) as [i1 [r|err| |]] eqn:Ea; try discriminate.
  pose proof (apply_ok _ _ _ _ _ _ Hok Ea) as (_ & Hok1 & _).
  destruct (apply_db _ _ _ _ _ _ Hok (dh_db _ _ Hd) Ea) as (db1 & Hd1 & [S1 S2]).
  destruct (run_batches blake3 clock bs i1) as [i2 [rs2|err| |]] eqn:El; try discriminate.
  injection Hrun as <- <-. destruct (IH _ _ _ Hok1 Hd1 El) as (db2 & Hd2 & [S3 S4]).
  exists db2. split; [done|]. split; congruence.
Qed.

Lemma sm_decode_ok {X} (g : R X) (p : X -> list Z) x : decodes g (p x) x -> sm_decode g (p x) = Ok x.
Proof. intros [Hr _]. unfold sm_decode. rewrite <- (app_nil_r (p x)), Hr. done. Qed.

(** Restarting on tables without a snapshot. *)
Lemma with_db_log i db (a : A) dim :
  db_holds i db -> db !! SmSnapshotMeta = None ->
  with_db blake3 a db dim
  = Ok (mkInner (KernelState_with_dim dim) None (i_membership i) ∅ [] None a ∅ ∅ registry_new (Some db)
          (log_index <$> i_last_applied i)).
Proof.
  intros [Hd Hl Hm] Hs. unfold with_db. rewrite Hl, Hm, Hs.
  rewrite (sm_decode_ok (get_option get_LogId)) by (apply option_ok; intros; apply LogId_ok). cbn [obind].
  rewrite (sm_decode_ok get_StoredMembership) by apply StoredMembership_ok. done.
Qed.

(** Restarting on tables that hold a snapshot of [s]. *)
Lemma with_db_snapshot i db (a : A) dim s :
  core_ok s -> db_holds i db -> portable (i_state s) -> payload_typed (payload_of blake3 s) ->
  db !! SmSnapshotMeta = Some (put_SnapshotMeta (meta_of blake3 s)) ->
  db !! SmSnapshotData = Some (put_SnapshotPayload (payload_of blake3 s)) ->
  exists m, with_db blake3 a db dim = Ok m /\ core_ok m
    /\ core m = with_admin (i_last_applied s) (i_membership i) (snapshot_core s)
    /\ i_audit m = a /\ i_db m = Some db /\ i_replay_until m = log_index <$> i_last_applied i
    /\ i_created_at m = i_created_at s /\ i_text_corpus m = i_text_corpus s.
Proof.
  intros Hok [Hd Hl Hm] Hp Ht Hs1 Hs2. unfold with_db. rewrite Hl, Hm, Hs1, Hs2.
  rewrite (sm_decode_ok (get_option get_LogId)) by (apply option_ok; intros; apply LogId_ok). cbn [obind].
  rewrite (sm_decode_ok get_StoredMembership) by apply StoredMembership_ok. cbn [obind].
  rewrite (sm_decode_ok get_SnapshotMeta) by apply SnapshotMeta_ok. cbn [obind].
  rewrite open_payload_ok by done. cbn [obind]. rewrite payload_registry_ok.
  change (sp_created_at (payload_of blake3 s)) with (map_to_list (i_created_at s)).
  change (sp_text_corpus (payload_of blake3 s)) with (map_to_list (i_text_corpus s)). rewrite !collect_to_list.
  eexists. split; [reflexivity|]. split_and!; try done. destruct Hok. by split.
Qed.
End Node.

(** ** A concrete openraft interface

    An instance of [Openraft] and [RaftSerde] that satisfies the laws, to
    evaluate the state machine and the log stores on concrete inputs: log ids
    and memberships are numbers, encoded as the bits of their [Countable] code
    up to a final marker. *)

Fixpoint put_bits (p : positive) : list Z :=
  match p with
  | xH => [2]
  | xO p => 0 :: put_bits p
  | xI p => 1 :: put_bits p
  end.

Fixpoint bits_of (l : list Z) : list Z * outcome DecodeError positive :=
  match l with
  | [] => ([], Err UnexpectedEnd)
  | b :: l =>
      if b =? 2 then (l, Ok xH)
      else let '(rest, o) := bits_of l in
           (rest, do* p := o in Ok (if b =? 0 then xO p else xI p))
  end.

Lemma bits_ok p : decodes bits_of (put_bits p) p.
Proof.
  split.
  - intros rest. induction p as [p IH|p IH|]; [| |done]; cbn [put_bits app bits_of Z.eqb Pos.eqb]; by rewrite IH.
  - induction p as [p IH|p IH|]; intros n Hn; (destruct n as [|n]; [done|]); cbn [put_bits length] in Hn; [| |lia];
      cbn [put_bits take bits_of Z.eqb Pos.eqb]; specialize (IH n ltac:(lia));
      destruct (bits_of (take n (put_bits p))) as [rest o]; simpl in *; by subst.
Qed.

Section Coded.
Context {X : Type} `{Countable X}.
Definition put_coded (x : X) : list Z := put_bits (encode x).
Definition get_coded : R X :=
  let* p := bits_of in slift (ok_or (decode p) OtherError).

Lemma coded_ok x : decodes get_coded (put_coded x) x.
Proof.
  eapply decodes_bind_last; [apply bits_ok|]. rewrite decode_encode. apply decodes_ret.
Qed.
End Coded.

#[export] Instance demo_raft : Openraft := {|
  LogId := nat; log_index := Z.of_nat; logid_ltb := Nat.ltb;
  Membership := nat; StoredMembership := option nat; stored_default := None; stored_new _ m := Some m;
  Vote := nat;
|}.

Section Entries.
Context `{Bincode}.

Definition put_request (req : ClientRequest) : list Z :=
  put_KernelEvent (rq_event req) ++ put_option put_array (rq_request_id req)
  ++ put_u8 (rq_schema_version req) ++ put_u16 (rq_namespace_id req).
Definition get_request : R ClientRequest :=
  let* e := get_KernelEvent in
  let* id := get_option (get_array 16) in
  let* v := get_u8 in
  let* ns := get_u16 in
  sret (mkRequest e id v ns).

Definition put_demo_entry (e : Entry) : list Z :=
  put_coded (en_log_id e : nat)
  ++ match en_payload e with
     | Blank => put_u8 0
     | MembershipEntry m => put_u8 1 ++ put_coded (m : nat)
     | Normal req => put_u8 2 ++ put_request req
     end.
Definition get_demo_entry : R Entry :=
  let* l := get_coded (X := nat) in
  let* tag := get_u8 in
  if tag =? 0 then sret (mkRaftEntry l Blank)
  else if tag =? 1 then let* m := get_coded (X := nat) in sret (mkRaftEntry l (MembershipEntry m))
  else let* req := get_request in sret (mkRaftEntry l (Normal req)).

#[export] Instance demo_serde : RaftSerde := {|
  put_LogId := put_coded (X := nat); get_LogId := get_coded;
  put_StoredMembership := put_coded (X := option nat); get_StoredMembership := get_coded;
  put_SnapshotMeta m :=
    put_coded (sm_last_log_id m : option nat, sm_last_membership m : option nat, sm_snapshot_id m);
  get_SnapshotMeta :=
    let* x := get_coded (X := option nat * option nat * list Z) in sret (mkMeta x.1.1 x.1.2 x.2);
  put_Vote := put_coded (X := nat); get_Vote := get_coded;
  put_Entry := put_demo_entry; get_Entry := get_demo_entry;
|}.

Context `{!BincodeLaws}.

#[local] Hint Resolve KernelEvent_ok : codec.

#[export] Instance demo_laws : RaftSerdeLaws.
Proof.
  split; try (intros; apply coded_ok).
  - intros [l m id]. simpl. eapply decodes_bind_last; [apply coded_ok|]. apply decodes_ret.
  - intros [l p]. unfold raft_entry_typed. simpl. unfold put_demo_entry, get_demo_entry. simpl. intros Ht.
    eapply decodes_bind; [apply coded_ok|]. destruct p as [|m|req].
    + eapply decodes_bind_last; [apply u8_ok; int_lia|]. apply decodes_ret.
    + eapply decodes_bind; [apply u8_ok; int_lia|]. eapply decodes_bind_last; [apply coded_ok|]. apply decodes_ret.
    + eapply decodes_bind; [apply u8_ok; int_lia|]. destruct req as [e id v ns]. simpl in Ht.
      destruct Ht as (He & Hi & Hv & Hn). cbv beta iota. cbn [Z.eqb].
      eapply decodes_bind_last; [|apply decodes_ret]. unfold get_request, put_request. simpl. fields.
Qed.
End Entries.
