(* ===== verification/ConsensusTheorems.v ===== *)
(** * Theorems about the Raft state machine

    Replicas agree, requests are applied once, snapshots transfer the replicated
    state, a restarted node replays silently to where it was; and concrete runs
    in which a snapshot is refused or a membership is lost. *)

From S2P Require Import Prelude.
From S2P Require Import Hoare.
From S2P Require Import Core.
From S2P Require Import Fxp.
From S2P Require Import Slab.
From S2P Require Import Records.
From S2P Require Import Event.
From S2P Require Import Kernel.
From S2P Require Import KernelProofs.
From S2P Require Import KernelTheorems.
From S2P Require Import Bytes.
From S2P Require Import Snapshot.
From S2P Require Import SnapshotProofs.
From S2P Require Import SnapshotSafety.
From S2P Require Import StateProof.
From S2P Require Import EventCodec.
From S2P Require Import Wire.
From S2P Require Import Registry.
From S2P Require Import Consensus.
From S2P Require Import ConsensusProofs.
From S2P Require Import ConsensusRestart.
From S2P Require Import EventLogTheorems.

(** ** The dedup window *)

(** [id] is among the last [n + 1] ids of a queue. *)
Definition recent (n : Z) (id : list Z) (l : list (list Z)) : Prop :=
  exists pre post, l = pre ++ id :: post /\ len post <= n.

Lemma recent_elem n id l : recent n id l -> id ∈ l.
Proof. intros (pre & post & -> & _). set_solver. Qed.

Lemma recent_mono n n' id l : n <= n' -> recent n id l -> recent n' id l.
Proof. intros Hn (pre & post & -> & Hp). exists pre, post. split; [done|lia]. Qed.

Lemma recent_push n id l x :
  recent n id l -> n + 1 < MAX_DEDUP_ENTRIES -> recent (n + 1) id (keep_last (l ++ [x])).
Proof.
  intros (pre & post & -> & Hp) Hn. unfold keep_last.
  assert ((length ((pre ++ id :: post) ++ [x]) - Z.to_nat MAX_DEDUP_ENTRIES <= length pre)%nat) as Hk.
  { unfold len in Hp. rewrite !length_app. simpl. unfold MAX_DEDUP_ENTRIES in *. lia. }
  rewrite <- app_assoc, drop_app_le by (rewrite <- app_assoc in Hk; exact Hk).
  eexists _, (post ++ [x]). split; [done|]. len_lia.
Qed.

Lemma recent_new id l : recent 0 id (keep_last (l ++ [id])).
Proof.
  unfold keep_last. rewrite drop_app_le; [|rewrite length_app; simpl; unfold MAX_DEDUP_ENTRIES; lia].
  by exists (drop (length (l ++ [id]) - Z.to_nat MAX_DEDUP_ENTRIES) l), [].
Qed.

Lemma see_recent n id o l :
  recent n id l -> n + 1 < MAX_DEDUP_ENTRIES -> recent (n + 1) id (see o l).
Proof.
  intros Hr Hn. unfold see. destruct o as [x|]; [case_bool_decide; [|by apply recent_push]|];
    (eapply recent_mono; [|exact Hr]; lia).
Qed.

(** ** What an abstract step leaves *)
Section SpecSteps.
Context `{Openraft} (blake3 : list Z -> list Z).

(** Registered ids keep their names; new ids are above the old counter. *)
Definition registry_evolves (r r' : CollectionRegistry) : Prop :=
  reg_next_id r <= reg_next_id r'
  /\ forall n id, reg_map r' !! n = Some id -> id < reg_next_id r -> reg_map r !! n = Some id.

#[export] Instance registry_evolves_preorder : PreOrder registry_evolves.
Proof.
  split; [by split|]. intros r1 r2 r3 [N1 E1] [N2 E2]. split; [lia|].
  intros n id Hn Hid. apply E1; [|done]. apply E2; [done|lia].
Qed.

Lemma remove_evolves n r : registry_evolves r (registry_remove n r).
Proof. split; [done|]. simpl. by intros m id [_ ?]%lookup_delete_Some. Qed.

Lemma route_evolves evt ns r id r' :
  registry_wf r -> route_event evt ns r = inr (id, r') -> registry_evolves r r' /\ registry_wf r'.
Proof.
  intros Wr. unfold route_event. destruct evt; try (by intros [= <- <-]).
  - destruct (registry_create name r) as [r1 [id1|]] eqn:Ec; [|discriminate]. intros [= <- <-].
    destruct (registry_create_ok _ _ _ _ Wr Ec) as (Wr' & Hn & (_ & Ho & Hc) & _). split; [|done]. split; [done|].
    intros n i Hl Hi. destruct (decide (n = name)) as [->|Hne]; [|by rewrite <- Ho].
    destruct Hc as [[_ ->]|(Hr & -> & _)]; [done|]. exfalso.
    unfold registry_create in Ec. unfold registry_resolve in Hr.
    destruct (decide (name = default_name)); [discriminate|]. rewrite Hr in Ec.
    destruct (_ <=? _); [discriminate|]. injection Ec as <-. simpl in Hl. rewrite lookup_insert_eq in Hl.
    injection Hl as <-. lia.
  - destruct (registry_resolve r (Some name)) as [id1|]; [|discriminate]. intros [= <- <-].
    split; [apply remove_evolves|by apply registry_wf_remove].
Qed.

(** One step: the window gains at most the request's id, the registry evolves. *)
Lemma spec_entry_evolves e c c' r acc :
  registry_wf (k_registry c) -> spec_entry blake3 e c = Ok (c', r, acc) ->
  (exists o, k_seen c' = see o (k_seen c)) /\ registry_evolves (k_registry c) (k_registry c')
  /\ registry_wf (k_registry c').
Proof.
  intros Wr. unfold spec_entry. destruct (en_payload e) as [|m|req]; [intros [= <- <- <-]; by split; [exists None|]..|].
  unfold spec_request. cbn [k_state k_last k_membership k_seen k_registry k_set_last].
  destruct (CURRENT_SCHEMA_VERSION <? _); [intros [= <- <- <-]; by split; [exists None|]|].
  destruct (match rq_request_id req with Some id => _ | None => false end);
    [intros [= <- <- <-]; by split; [exists None|]|].
  destruct (route_event _ _ _) as [rej|[id r']] eqn:Er; [intros [= <- <- <-]; by split; [exists None|]|].
  destruct (route_evolves _ _ _ _ _ Wr Er) as [He Wr'].
  destruct (apply_event_ns _ _ _) as [s [[]|err| |]]; try discriminate; intros [= <- <- <-].
  - by split; [exists (rq_request_id req)|].
  - by split; [exists None|].
Qed.

Lemma spec_run_evolves es c c' rs n id :
  registry_wf (k_registry c) -> spec_run blake3 es c = Ok (c', rs) ->
  registry_evolves (k_registry c) (k_registry c') /\ registry_wf (k_registry c')
  /\ (recent n id (k_seen c) -> n + len es < MAX_DEDUP_ENTRIES -> recent (n + len es) id (k_seen c')).
Proof.
  revert c rs n. induction es as [|e es IH]; intros c rs n Wr Hs.
  { simplify_eq/=. split_and!; [done..|]. intros Hr _. eapply recent_mono; [|exact Hr]. len_lia. }
  cbn [spec_run] in Hs. destruct (spec_entry blake3 e c) as [[[c1 r] acc]| | |] eqn:Ee; try discriminate.
  simpl in Hs. destruct (spec_run blake3 es c1) as [[c2 rs2]| | |] eqn:Er; try discriminate. simplify_eq/=.
  destruct (spec_entry_evolves _ _ _ _ _ Wr Ee) as ([o Ho] & He & Wr1).
  destruct (IH _ _ (n + 1) Wr1 Er) as (He2 & Wr2 & Hrec). split; [by etrans|]. split; [done|].
  intros Hr Hn. pose proof (len_nonneg es). rewrite len_cons in Hn |- *.
  replace (n + (1 + len es)) with (n + 1 + len es) by lia. apply Hrec; [|lia].
  rewrite Ho. apply see_recent; [done|lia].
Qed.
End SpecSteps.

(** ** Replicas *)
Section Replicas.
Context `{Bincode} `{RaftSerde} {A B : Type} `{AuditSink A} `{AuditSink B} (blake3 : list Z -> list Z).

(** C14: Two replicas that start from the same replicated core (kernel state,
    last applied id, membership, dedup queue, namespace registry) and apply the
    same log, cut into any batches, with any clocks, any audit sinks and any
    replay marks, end in the same core, give the same replies entry by entry and
    have the same state hash. *)
Theorem replicas_agree (i : StateMachineInner (A := A)) (j : StateMachineInner (A := B)) clock1 clock2
    (batches1 batches2 : list (list Entry)) i' j' rs1 rs2 :
  core_ok i -> core_ok j -> core i = core j -> concat batches1 = concat batches2 ->
  run_batches blake3 clock1 batches1 i = (i', Ok rs1) ->
  run_batches blake3 clock2 batches2 j = (j', Ok rs2) ->
  core i' = core j' /\ rs1 = rs2 /\ sm_state_hash blake3 i' = sm_state_hash blake3 j'.
Proof.
  intros Hi Hj Hc Hb R1 R2. destruct (run_batches_ok _ _ _ _ _ _ Hi R1) as [S1 _].
  destruct (run_batches_ok _ _ _ _ _ _ Hj R2) as [S2 _]. rewrite Hb, Hc, S2 in S1.
  assert (core i' = core j' /\ rs1 = rs2) as [E1 E2] by (split; congruence).
  split; [done|]. split; [done|]. unfold sm_state_hash.
  change (i_state i') with (k_state (core i')). change (i_state j') with (k_state (core j')). by rewrite E1.
Qed.
End Replicas.

Section Node.
Context `{Bincode} `{RaftSerde} {A : Type} `{AuditSink A} (blake3 : list Z -> list Z).
Implicit Types i j : StateMachineInner (A := A).

(** The request of an entry. *)
Definition request_of (e : Entry) : option ClientRequest :=
  match en_payload e with Normal req => Some req | _ => None end.

Lemma accepted_seen e c c' r acc req id :
  spec_entry blake3 e c = Ok (c', r, acc) -> request_of e = Some req -> rq_request_id req = Some id ->
  rs_rejected r = None -> rs_deduplicated r = false -> recent 0 id (k_seen c').
Proof.
  unfold spec_entry, request_of. destruct (en_payload e) as [|m|rq]; try discriminate.
  unfold spec_request. intros Hs [= ->] Hid Hr Hd. rewrite Hid in Hs.
  cbn [k_state k_last k_membership k_seen k_registry k_set_last] in Hs.
  destruct (CURRENT_SCHEMA_VERSION <? _); [by simplify_eq/=|].
  case_bool_decide as Hin; [by simplify_eq/=|].
  destruct (route_event _ _ _) as [rej|[ns r']]; [by simplify_eq/=|].
  destruct (apply_event_ns _ _ _) as [s [[]|err| |]]; simplify_eq/=.
  rewrite bool_decide_false by done. apply recent_new.
Qed.

(** C16: Once a request with a token was accepted, and while fewer than
    MAX_DEDUP_ENTRIES entries follow it, a later entry with the same token (from a
    schema this node knows) is answered as a duplicate and changes neither kernel
    state, nor registry, nor audit sink. *)
Theorem request_applied_once clock1 clock2 clock3 i e req j r batches k rs e' req' id :
  core_ok i -> apply_entry blake3 clock1 e i = (j, Ok r) ->
  request_of e = Some req -> rq_request_id req = Some id ->
  rs_rejected r = None -> rs_deduplicated r = false ->
  run_batches blake3 clock2 batches j = (k, Ok rs) -> len (concat batches) < MAX_DEDUP_ENTRIES ->
  request_of e' = Some req' -> rq_request_id req' = Some id -> rq_schema_version req' <= CURRENT_SCHEMA_VERSION ->
  exists k' r', apply_entry blake3 clock3 e' k = (k', Ok r') /\ rs_deduplicated r' = true
    /\ i_state k' = i_state k /\ i_registry k' = i_registry k /\ i_audit k' = i_audit k.
Proof.
  intros Hi He Hq Hid Hr Hd Hb Hlen Hq' Hid' Hv.
  pose proof (apply_entry_ok blake3 clock1 e i Hi) as Ha. rewrite He in Ha.
  destruct Ha as (acc & Es & Hj & _). pose proof (accepted_seen _ _ _ _ _ _ _ Es Hq Hid Hr Hd) as Hrec.
  destruct (run_batches_ok _ _ _ _ _ _ Hj Hb) as [Er Hk].
  destruct (spec_run_evolves blake3 _ (core j) _ _ 0 id (co_registry _ Hj) Er) as (_ & _ & Hw).
  specialize (Hw Hrec ltac:(lia)). apply recent_elem in Hw.
  unfold apply_entry, request_of in *. destruct (en_payload e') as [|m|rq]; try discriminate. injection Hq' as ->.
  unfold apply_request, is_duplicate, sbind, smodify, sget, sret. simpl.
  rewrite (proj2 (Z.ltb_ge _ _)) by done. rewrite Hid', (co_set _ Hk).
  rewrite bool_decide_true by (apply elem_of_list_to_set; exact Hw). eexists _, _. by split_and!.
Qed.

(** A namespace id handed out for a collection name never denotes another name
    later, whatever is created, dropped or rejected in between. *)
Theorem namespace_id_names_one_collection clock1 clock2 i e req name j r id batches k rs name' :
  core_ok i -> apply_entry blake3 clock1 e i = (j, Ok r) ->
  request_of e = Some req -> rq_event req = AutoCreateNamespace name -> rs_namespace_id r = Some id ->
  run_batches blake3 clock2 batches j = (k, Ok rs) ->
  resolve_namespace k (Some name') = Some id -> name' = name.
Proof.
  intros Hi He Hq Hev Hns Hb Hres.
  pose proof (apply_entry_ok blake3 clock1 e i Hi) as Ha. rewrite He in Ha.
  destruct Ha as (acc & Es & Hj & _). destruct (run_batches_ok _ _ _ _ _ _ Hj Hb) as [Er Hk].
  destruct (spec_run_evolves blake3 _ (core j) _ _ 0 [] (co_registry _ Hj) Er) as ([_ Hev2] & Wk & _).
  assert (registry_resolve (i_registry j) (Some name) = Some id) as Hid.
  { clear - Es Hq Hev Hns Hi. unfold spec_entry, request_of in *.
    destruct (en_payload e) as [|m|rq]; try discriminate. injection Hq as ->.
    unfold spec_request in Es. cbn [k_state k_last k_membership k_seen k_registry k_set_last core] in Es.
    rewrite Hev in Es. cbn [route_event] in Es.
    destruct (CURRENT_SCHEMA_VERSION <? _); [by simplify_eq/=|].
    destruct (match rq_request_id req with Some id => _ | None => false end); [by simplify_eq/=|].
    destruct (registry_create name (i_registry i)) as [r1 [id1|]] eqn:Ec; [|by simplify_eq/=].
    destruct (registry_create_ok _ _ _ _ (co_registry _ Hi) Ec) as (_ & _ & (Hr & _) & _).
    destruct (apply_event_ns _ _ _) as [s [[]|err| |]]; simplify_eq/=; congruence. }
  unfold resolve_namespace, registry_resolve in *. destruct (co_registry _ Hj) as [N1 N2 N3 N4].
  destruct (decide (name' = default_name)) as [->|Hd'], (decide (name = default_name)) as [->|Hd]; try done.
  - injection Hres as <-. specialize (N2 _ _ Hid). lia.
  - injection Hid as <-. specialize (rw_ids _ (co_registry _ Hk) _ _ Hres). lia.
  - eapply N3; [|exact Hid]. apply Hev2; [exact Hres|]. specialize (N2 _ _ Hid). simpl. lia.
Qed.
End Node.

(** ** Snapshots and restarts *)
Section Durable.
Context `{BincodeLaws} `{RaftSerdeLaws} {A B : Type} `{AuditSink A} `{AuditSink B} (blake3 : list Z -> list Z).

(** C17: A snapshot built by one node and installed by another succeeds and
    gives the second node the first one's replicated core (as the snapshot decoder
    restores it), creation times, texts and state hash, leaving its own audit sink
    alone, for every state the snapshot format can carry. *)
Theorem snapshot_transfers_replica (i : StateMachineInner (A := A)) (k : StateMachineInner (A := B)) :
  core_ok i -> portable (i_state i) -> payload_typed (payload_of blake3 i) ->
  exists i' meta bs k',
    build_snapshot blake3 i = (i', Ok (meta, bs)) /\ core i' = core i
    /\ get_current_snapshot i' = Some (meta, bs)
    /\ install_snapshot blake3 meta bs k = (k', Ok tt) /\ core_ok k' /\ core k' = snapshot_core i
    /\ i_created_at k' = i_created_at i /\ i_text_corpus k' = i_text_corpus i
    /\ i_audit k' = i_audit k /\ sm_state_hash blake3 k' = sm_state_hash blake3 i.
Proof.
  intros Hok Hp Ht. pose proof (open_payload_ok blake3 i Hp Ht) as Ho.
  unfold build_snapshot, install_snapshot, persist_snapshot, sbind, sget, smodify, sret, slift.
  set (bs := put_SnapshotPayload (payload_of blake3 i)) in *. set (meta := meta_of blake3 i).
  eexists _, meta, bs, _. rewrite Ho, payload_registry_ok.
  change (sp_created_at (payload_of blake3 i)) with (map_to_list (i_created_at i)).
  change (sp_text_corpus (payload_of blake3 i)) with (map_to_list (i_text_corpus i)). rewrite !collect_to_list.
  destruct Hok as [Es En El Er]. pose proof (hash_portable blake3 _ Hp) as Hh.
  cbn [i_db i_current_snapshot i_set_snapshot].
  split; [reflexivity|]. split; [by destruct (i_db i)|]. split; [by destruct (i_db i)|].
  split; [reflexivity|]. destruct (i_db k); (split; [by split|]); by split_and!.
Qed.

(** install_snapshot either fails and leaves the node exactly as it was, or
    the bytes decode to a payload whose kernel part decodes to the new state with
    the hash the payload states, and log id and membership are those of the
    snapshot; the audit sink is never touched. *)
Theorem install_snapshot_atomic (meta : SnapshotMeta) (bs : list Z) (i i' : StateMachineInner (A := A)) o :
  install_snapshot blake3 meta bs i = (i', o) ->
  match o with
  | Ok _ => exists payload,
      (get_SnapshotPayload bs).2 = Ok payload /\ decode_state (sp_kernel payload) = Ok (i_state i')
      /\ sm_state_hash blake3 i' = sp_state_hash payload
      /\ applied_state i' = (sm_last_log_id meta, sm_last_membership meta)
      /\ i_audit i' = i_audit i
  | _ => i' = i
  end.
Proof.
  unfold install_snapshot, open_payload, sbind, slift, persist_snapshot, smodify.
  destruct (get_SnapshotPayload bs).2 as [payload|e| |]; simpl; [|by intros [= <- <-]..].
  destruct (decode_state (sp_kernel payload)) as [s|e| |] eqn:Ed; simpl; [|by intros [= <- <-]..].
  case_bool_decide as Hh; simpl; [|by intros [= <- <-]].
  destruct (i_db i); intros [= <- <-]; exists payload; by split_and!.
Qed.

(** Replaying entries at or below the mark. *)
Lemma replay_apply clock es (m : StateMachineInner (A := A)) c rs :
  core_ok m -> (forall T, last_after es None = Some T -> i_replay_until m = Some (log_index T)) ->
  (forall T, last_after es None = Some T -> Forall (fun e => log_index (en_log_id e) <= log_index T) es) ->
  spec_run blake3 es (core m) = Ok (c, rs) ->
  exists m', apply blake3 clock es m = (m', Ok rs) /\ core m' = c /\ i_audit m' = i_audit m.
Proof.
  intros Hok HT Hle Hs. destruct (last_after es None) as [T|] eqn:El.
  - destruct (replay_loop_ok blake3 clock es m (log_index T) c rs Hok (HT T eq_refl) (Hle T eq_refl) Hs)
      as (m' & Em & Hc & _ & Ha & _).
    unfold apply. rewrite (bind_ok _ _ _ _ _ Em). unfold persist_applied, sbind, smodify, sret.
    eexists. split; [reflexivity|]. destruct (i_db m'); by split.
  - destruct es as [|e es]; [|unfold last_after in El; simpl in El].
    + simplify_eq/=. unfold apply, persist_applied, sbind, smodify, sret. simpl.
      eexists. split; [reflexivity|]. destruct (i_db m); by split.
    + destruct (last_after_is_Some es (Some (en_log_id e)) ltac:(done)) as [T HT'].
      unfold last_after in HT'. congruence.
Qed.

(** A durable node without a snapshot that applied a log and stopped: with_db
    starts empty, and replaying the log rebuilds the same core with the same
    replies and nothing written to the audit sink a second time. *)
Theorem restart_from_log clock clock' (a : A) dim i batch batches j rs :
  with_db blake3 a ∅ dim = Ok i -> run_batches blake3 clock (batch :: batches) i = (j, Ok rs) ->
  (forall T, i_last_applied j = Some T ->
     Forall (fun e => log_index (en_log_id e) <= log_index T) (concat (batch :: batches))) ->
  exists db m m', i_db j = Some db /\ with_db blake3 (i_audit j) db dim = Ok m /\ i_last_applied m = None
    /\ apply blake3 clock' (concat (batch :: batches)) m = (m', Ok rs)
    /\ core m' = core j /\ i_audit m' = i_audit j.
Proof.
  intros Hi Hrun Hle. unfold with_db in Hi. rewrite !lookup_empty in Hi. simpl in Hi. injection Hi as <-.
  match type of Hrun with run_batches _ _ _ ?i = _ => set (i0 := i) in * end.
  assert (core_ok i0) as Hok0.
  { split; simpl; [done|constructor|unfold MAX_DEDUP_ENTRIES; len_lia|apply registry_wf_new]. }
  destruct (run_batches_ok _ _ _ _ _ _ Hok0 Hrun) as [Hs Hokj]. set (es := concat (batch :: batches)) in *.
  cbn [run_batches] in Hrun. unfold sbind, sret in Hrun.
  destruct (apply blake3 clock batch i0) as [i1 [r1|err| |]] eqn:Ea; try discriminate.
  destruct (apply_db blake3 _ _ _ _ _ ∅ Hok0 eq_refl Ea) as (db1 & Hd1 & Hsame1).
  pose proof (apply_ok _ _ _ _ _ _ Hok0 Ea) as (_ & Hok1 & _).
  destruct (run_batches blake3 clock batches i1) as [i2 [r2|err| |]] eqn:Eb; try discriminate.
  injection Hrun as <- <-. destruct (run_batches_db _ _ _ _ _ _ _ Hok1 Hd1 Eb) as (db & Hd & Hsame).
  assert (db !! SmSnapshotMeta = None) as Hnone by (rewrite (proj1 Hsame), (proj1 Hsame1); apply lookup_empty).
  destruct (spec_run_frame blake3 _ _ _ _ None (i_membership i2) Hs) as (Hf & Hl & Hm).
  simpl in Hl, Hm. exists db. rewrite (with_db_log blake3 i2 db (i_audit i2) dim Hd Hnone).
  eexists. set (m := mkInner _ _ _ _ _ _ _ _ _ _ _ _). assert (core_ok m) as Hokm by by destruct Hok0.
  destruct (fun P Q => replay_apply clock' _ m _ _ Hokm P Q Hf) as (m' & Em & Hcm & Ham).
  { intros T HT. simpl. by rewrite Hl, HT. }
  { intros T HT. apply Hle. by rewrite Hl. }
  exists m'. split_and!; try done; [apply Hd|]. rewrite Hcm. unfold with_admin, core. simpl.
  by rewrite Hm, membership_after_twice, <- Hm, <- Hl.
Qed.

Lemma last_after_any es l (T : LogId) : last_after es None = Some T -> last_after es l = Some T.
Proof. by destruct es. Qed.

(** C15: A durable node whose tables hold what it last persisted and whose
    kernel state a snapshot carries unchanged (well formed, no deleted node or
    edge slot, within the decoder's caps, no empty metadata blob, and equal to
    what the decoder restores: no key registry, the default index), with a payload
    of its types, builds a snapshot, applies further batches (log indices up to
    the last one it applied) and stops: with_db on the tables it leaves succeeds
    and reports the snapshot's log id, and replaying the entries after it gives
    the same replies and the same replicated core as the process had, without
    writing anything to the audit sink again. *)
Theorem restart_from_snapshot clock clock' dim (i i1 j : StateMachineInner (A := A)) db0 snap batches rs :
  core_ok i -> db_holds i db0 -> portable (i_state i) -> restored (i_state i) = i_state i ->
  payload_typed (payload_of blake3 i) ->
  build_snapshot blake3 i = (i1, Ok snap) -> run_batches blake3 clock batches i1 = (j, Ok rs) ->
  (forall T, i_last_applied j = Some T ->
     Forall (fun e => log_index (en_log_id e) <= log_index T) (concat batches)) ->
  exists db m m', i_db j = Some db /\ with_db blake3 (i_audit j) db dim = Ok m
    /\ i_last_applied m = i_last_applied i
    /\ apply blake3 clock' (concat batches) m = (m', Ok rs)
    /\ core m' = core j /\ i_audit m' = i_audit j.
Proof.
  intros Hok Hdb Hp Hres Ht Hbuild Hrun Hle.
  unfold build_snapshot, persist_snapshot, sbind, sget, smodify, sret in Hbuild.
  cbn [i_db i_current_snapshot i_set_snapshot] in Hbuild. rewrite (dh_db _ _ Hdb) in Hbuild.
  injection Hbuild as <- <-.
  match type of Hrun with run_batches _ _ _ ?x = _ => set (i1 := x) in * end.
  pose (db1 := default ∅ (i_db i1)).
  assert (core_ok i1) as Hok1 by (destruct Hok; by split).
  assert (db_holds i1 db1) as Hdb1 by (destruct Hdb as [? ? ?]; by split; unfold db1; simpl; simplify_map_eq).
  destruct (run_batches_ok _ _ _ _ _ _ Hok1 Hrun) as [Hs Hokj].
  destruct (run_batches_db _ _ _ _ _ _ _ Hok1 Hdb1 Hrun) as (db & Hd & [Hm1 Hm2]).
  destruct (with_db_snapshot blake3 j db (i_audit j) dim i Hok Hd Hp Ht) as (m & Em & Hokm & Hcm & Ham & _ & Hrep & _).
  { rewrite Hm1. unfold db1. simpl. by simplify_map_eq. }
  { rewrite Hm2. unfold db1. simpl. by simplify_map_eq. }
  assert (snapshot_core i = core i1) as Hsc by (unfold snapshot_core; by rewrite Hres). rewrite Hsc in Hcm.
  destruct (spec_run_frame blake3 _ _ _ _ (i_last_applied i) (i_membership j) Hs) as (Hf & Hl & Hmem).
  rewrite <- Hcm in Hf.
  destruct (fun P Q => replay_apply clock' _ m _ _ Hokm P Q Hf) as (m' & Em' & Hcm' & Ham').
  { intros T HT. rewrite Hrep. simpl in Hl. by rewrite Hl, (last_after_any _ _ _ HT). }
  { intros T HT. apply Hle. simpl in Hl. by rewrite Hl, (last_after_any _ _ _ HT). }
  exists db, m, m'. split_and!; try done; [apply Hd|by change (i_last_applied m) with (k_last (core m)); rewrite Hcm| |congruence].
  rewrite Hcm'. unfold with_admin, core. simpl in *. by rewrite Hmem, membership_after_twice, <- Hmem, <- Hl.
Qed.
End Durable.

(** ** The pipeline is total *)
Section Total.
Context `{Bincode} `{RaftSerde} {A : Type} `{AuditSink A} (blake3 : list Z -> list Z).

(** An entry of a schema version this node knows that meets the side conditions of
    the kernel's invariant at the namespace it is routed to. *)
Definition admissible (e : Entry) (c : Core) : Prop :=
  match request_of e with
  | None => True
  | Some req =>
      rq_schema_version req <= CURRENT_SCHEMA_VERSION
      /\ match route_event (rq_event req) (rq_namespace_id req) (k_registry c) with
         | inl _ => True
         | inr (ns, _) => room (k_state c) /\ evt_ok (k_state c) (rq_event req) ns
         end
  end.

Fixpoint all_admissible (es : list Entry) (c : Core) : Prop :=
  match es with
  | [] => True
  | e :: es => admissible e c /\ forall c' r acc, spec_entry blake3 e c = Ok (c', r, acc) -> all_admissible es c'
  end.

Lemma spec_entry_total e c :
  kernel_wf (k_state c) -> admissible e c ->
  exists c' r acc, spec_entry blake3 e c = Ok (c', r, acc) /\ kernel_wf (k_state c').
Proof.
  intros W. unfold admissible, request_of, spec_entry.
  destruct (en_payload e) as [|m|req]; [by eexists _, _, _..|].
  unfold spec_request. cbn [k_state k_last k_membership k_seen k_registry k_set_last].
  intros [Hv Hadm]. destruct (Z.ltb_spec CURRENT_SCHEMA_VERSION (rq_schema_version req)); [lia|].
  destruct (match rq_request_id req with Some id => _ | None => false end); [by eexists _, _, _|]. revert Hadm.
  destruct (route_event _ _ _) as [rej|[ns r']]; [by eexists _, _, _|]. intros [Hr He].
  pose proof (apply_event_spec (rq_event req) ns (k_state c) W Hr He) as Hs. unfold Hoare.wp in Hs.
  destruct (apply_event_ns _ _ _) as [s [[]|err| |]]; [|..|done|done]; (eexists _, _, _; split; [done|]); simpl.
  - by destruct Hs.
  - by eapply err_frame_wf.
Qed.

(** C18: From a well-formed node, a batch whose requests are of a schema
    version this node knows and whose events keep within the id ranges (and the
    kernel's guard on double deletion) is applied to the end: no panic, no endless
    loop, no storage error, one reply per entry, and the node is well formed
    again, provided the audit sink accepts records. *)
Theorem apply_never_fails clock es (i : StateMachineInner (A := A)) :
  core_ok i -> kernel_wf (i_state i) ->
  (forall evt id a, exists a', audit_record evt id a = (a', Ok tt)) -> all_admissible es (core i) ->
  exists j rs, apply blake3 clock es i = (j, Ok rs) /\ core_ok j /\ kernel_wf (i_state j)
    /\ length rs = length es.
Proof.
  intros Hok W Hsink Hes.
  assert (exists j rs, apply_loop blake3 clock es i = (j, Ok rs) /\ core_ok j /\ kernel_wf (i_state j)
            /\ length rs = length es) as (j & rs & Ej & Hj & Wj & Hl).
  { revert i Hok W Hes. induction es as [|e es IH]; intros i Hok W Hes; [by exists i, []|].
    destruct Hes as [Ha Hes]. destruct (spec_entry_total e (core i) W Ha) as (c' & r & acc & Es & Wc).
    pose proof (apply_entry_ok blake3 clock e i Hok) as He.
    assert (forall o, entry_sink_fails e i o -> o = Ok tt) as Hno.
    { intros o (_ & req & _ & a & Hf). destruct (Hsink (rq_event req) (rq_request_id req) (i_audit i)). congruence. }
    cbn [apply_loop]. unfold sbind at 1.
    destruct (apply_entry blake3 clock e i) as [i1 [r1|err| |]].
    - destruct He as (acc' & Es' & Hok1 & _). rewrite Es in Es'.
      assert (c' = core i1) as -> by congruence.
      destruct (IH i1 Hok1 Wc (Hes _ _ _ Es)) as (j & rs & Ej & Hj & Wj & Hl).
      exists j, (r1 :: rs). unfold sbind, sret. rewrite Ej. split_and!; simpl; auto.
    - by specialize (Hno _ He).
    - destruct He as [He|He]; [congruence|by specialize (Hno _ He)].
    - destruct He as [He|He]; [congruence|by specialize (Hno _ He)]. }
  unfold apply. rewrite (bind_ok _ _ _ _ _ Ej). unfold persist_applied, sbind, smodify, sret.
  eexists _, rs. split; [reflexivity|]. destruct Hj. destruct (i_db j); (split; [by split|done]).
Qed.
End Total.

(** ** Concrete nodes *)
#[local] Existing Instance FixedInt.bincode.
#[local] Existing Instance FixedInt.laws.

Abbreviation Node := (StateMachineInner (A := MemoryAuditSink)).

Definition request (e : KernelEvent) (id : option (list Z)) (ns : Z) : ClientRequest := mkRequest e id 0 ns.
Definition entry_at (index : nat) (req : ClientRequest) : Entry := mkRaftEntry (index : LogId) (Normal req).
Definition token (b : Z) : list Z := replicate 16 b.

Definition blank_node : Node := sm_new (mkMemorySink []) 0.

Lemma core_ok_new (a : MemoryAuditSink) dim : core_ok (sm_new a dim).
Proof. split; simpl; [done|constructor|unfold MAX_DEDUP_ENTRIES; len_lia|apply registry_wf_new]. Qed.

(** The batches of two replicas. *)
Definition demo_log : list Entry :=
  [entry_at 1 (request (AutoCreateNamespace [112]) None 0);
   entry_at 2 (request (AutoInsertRecord [65536; 0] (Some [104; 105]) 4) (Some (token 1)) 1);
   entry_at 3 (request (AutoInsertRecord [65536; 0] (Some [104; 105]) 4) (Some (token 1)) 1);
   mkRaftEntry (4%nat : LogId) (MembershipEntry 7%nat);
   entry_at 5 (request (DropNamespace [113]) None 0)].

Definition replies {X} (o : outcome StorageError (list X)) : list X :=
  match o with Ok rs => rs | _ => [] end.

Lemma run_result {X S} (m : S * outcome StorageError (list X)) :
  is_ok m.2 = true -> m = (m.1, Ok (replies m.2)).
Proof. destruct m as [s [r| | |]]; simpl; congruence. Qed.

Definition replica1 : Node * outcome StorageError (list ClientResponse) :=
  run_batches demo_hash (fun _ => 1700000000) [demo_log] blank_node.
Definition replica2 : StateMachineInner (A := NullAuditSink) * outcome StorageError (list ClientResponse) :=
  run_batches demo_hash (fun i => 1700000100 + i) [take 2 demo_log; []; drop 2 demo_log] (sm_new mkNullSink 0).

Lemma replicas_agree_witness :
  core replica1.1 = core replica2.1 /\ replies replica1.2 = replies replica2.2
  /\ sm_state_hash demo_hash replica1.1 = sm_state_hash demo_hash replica2.1.
Proof.
  apply (replicas_agree demo_hash blank_node (sm_new mkNullSink 0) (fun _ => 1700000000) (fun i => 1700000100 + i)
           [demo_log] [take 2 demo_log; []; drop 2 demo_log]).
  - apply core_ok_new.
  - split; simpl; [done|constructor|unfold MAX_DEDUP_ENTRIES; len_lia|apply registry_wf_new].
  - reflexivity.
  - reflexivity.
  - apply (run_result replica1). vm_compute. reflexivity.
  - apply (run_result replica2). vm_compute. reflexivity.
Defined.

Definition clock0 (_ : Z) : Z := 1700000000.
Definition insert_once : Entry :=
  entry_at 2 (request (AutoInsertRecord [65536; 0] (Some [104; 105]) 4) (Some (token 1)) 0).
Definition insert_again : Entry :=
  entry_at 9 (request (AutoInsertRecord [0; 0] None 0) (Some (token 1)) 3).
Definition after_insert : Node * outcome StorageError ClientResponse :=
  apply_entry demo_hash clock0 insert_once blank_node.
Definition after_more : Node * outcome StorageError (list ClientResponse) :=
  run_batches demo_hash clock0 [demo_log] after_insert.1.

Definition reply_of (o : outcome StorageError ClientResponse) : ClientResponse :=
  match o with Ok r => r | _ => mkResponse 0 [] false None None None None None end.

Lemma entry_result {S} (m : S * outcome StorageError ClientResponse) :
  is_ok m.2 = true -> m = (m.1, Ok (reply_of m.2)).
Proof. destruct m as [s [r| | |]]; simpl; congruence. Qed.

Lemma request_applied_once_witness :
  exists k' r', apply_entry demo_hash clock0 insert_again after_more.1 = (k', Ok r') /\ rs_deduplicated r' = true
    /\ i_state k' = i_state after_more.1 /\ i_registry k' = i_registry after_more.1
    /\ i_audit k' = i_audit after_more.1.
Proof.
  eapply (request_applied_once demo_hash clock0 clock0 clock0 blank_node insert_once _ after_insert.1
            (reply_of after_insert.2) [demo_log] after_more.1 (replies after_more.2) insert_again _ (token 1)).
  - apply core_ok_new.
  - apply (entry_result after_insert). vm_compute. reflexivity.
  - reflexivity.
  - reflexivity.
  - vm_compute. reflexivity.
  - vm_compute. reflexivity.
  - apply (run_result after_more). vm_compute. reflexivity.
  - vm_compute. reflexivity.
  - reflexivity.
  - reflexivity.
  - vm_compute. discriminate.
Defined.

Definition create_p : Entry := entry_at 1 (request (AutoCreateNamespace [112]) None 0).
Definition create_q : Entry := entry_at 2 (request (AutoCreateNamespace [113]) None 0).
Definition drop_q : Entry := entry_at 3 (request (DropNamespace [113]) None 0).
Definition after_create : Node * outcome StorageError ClientResponse :=
  apply_entry demo_hash clock0 create_p blank_node.
Definition after_drop : Node * outcome StorageError (list ClientResponse) :=
  run_batches demo_hash clock0 [[create_q; drop_q]] after_create.1.

Lemma namespace_id_names_one_collection_witness : rs_namespace_id (reply_of after_create.2) = Some 1 /\ [112] = [112].
Proof.
  split; [vm_compute; reflexivity|].
  apply (namespace_id_names_one_collection demo_hash clock0 clock0 blank_node create_p
           (request (AutoCreateNamespace [112]) None 0) [112] after_create.1 (reply_of after_create.2) 1
           [[create_q; drop_q]] after_drop.1 (replies after_drop.2)).
  - apply core_ok_new.
  - apply (entry_result after_create). vm_compute. reflexivity.
  - reflexivity.
  - reflexivity.
  - vm_compute. reflexivity.
  - apply (run_result after_drop). vm_compute. reflexivity.
  - vm_compute. reflexivity.
Defined.

(** ** A node worth a snapshot *)
Definition demo_table : SmTable :=
  <[SmMembership := put_StoredMembership (Some 7%nat : StoredMembership)]>
    (<[SmLastApplied := put_option put_LogId (Some 10%nat : option LogId)]> ∅).

Definition demo_node : Node :=
  mkInner demo_state (Some 10%nat : option LogId) (Some 7%nat : StoredMembership) (list_to_set [token 1; token 2])
    [token 1; token 2] None (mkMemorySink []) {[0 := 1700000000]} {[0 := [104; 105]]}
    (mkRegistry {[ [112] := 2 ]} 6) (Some demo_table) None.

Lemma demo_node_ok : core_ok demo_node.
Proof.
  split; cbn [demo_node i_dedup_set i_dedup_order i_registry].
  - reflexivity.
  - apply (bool_decide_unpack (NoDup [token 1; token 2])). vm_compute. exact I.
  - vm_compute. discriminate.
  - split; simpl; [unfold MAX_COLLECTIONS; lia| | |by vm_compute].
    + intros n id [<- <-]%lookup_singleton_Some. lia.
    + by intros n m id [<- <-]%lookup_singleton_Some [<- _]%lookup_singleton_Some.
Qed.

Lemma demo_portable : portable demo_state.
Proof.
  split; [apply demo_state_wf|apply demo_snapshotable|].
  apply (slab_forall (fun r => rec_metadata r <> Some [])). vm_compute live.
  repeat apply Forall_cons_2; [..|apply Forall_nil_2]; discriminate.
Qed.

Lemma demo_payload_typed : payload_typed (payload_of demo_hash demo_node).
Proof.
  split.
  - split; [apply encode_state_bytes, demo_bytes|]. vm_compute. discriminate.
  - split; [|vm_compute; discriminate]. repeat apply Forall_cons_2; [..|apply Forall_nil_2];
      (split; [|done]); apply Forall_replicate; int_lia.
  - apply demo_hash_typed.
  - split; [|vm_compute; discriminate].
    change (sp_created_at _) with (map_to_list (i_created_at demo_node)). vm_compute map_to_list. simpl.
    repeat constructor; simpl; int_lia.
  - split; [|vm_compute; discriminate].
    change (sp_text_corpus _) with (map_to_list (i_text_corpus demo_node)). vm_compute map_to_list.
    repeat constructor; simpl; try int_lia; done.
  - split; [|vm_compute; discriminate].
    change ((sp_registry _).1) with (map_to_list (reg_map (i_registry demo_node))). vm_compute map_to_list.
    repeat constructor; simpl; try int_lia; done.
  - simpl. int_lia.
Qed.

Lemma snapshot_transfers_replica_witness :
  exists i' meta bs k',
    build_snapshot demo_hash demo_node = (i', Ok (meta, bs)) /\ core i' = core demo_node
    /\ get_current_snapshot i' = Some (meta, bs)
    /\ install_snapshot demo_hash meta bs blank_node = (k', Ok tt) /\ core_ok k' /\ core k' = snapshot_core demo_node
    /\ i_created_at k' = i_created_at demo_node /\ i_text_corpus k' = i_text_corpus demo_node
    /\ i_audit k' = i_audit blank_node /\ sm_state_hash demo_hash k' = sm_state_hash demo_hash demo_node.
Proof.
  exact (snapshot_transfers_replica demo_hash demo_node blank_node demo_node_ok demo_portable demo_payload_typed).
Defined.

Definition demo_meta : SnapshotMeta := mkMeta (Some 3%nat : option LogId) (None : StoredMembership) [].

(** A frame that is too short is refused. *)
Lemma install_snapshot_atomic_witness : (install_snapshot demo_hash demo_meta [1; 2; 3] demo_node).1 = demo_node.
Proof.
  apply (install_snapshot_atomic demo_hash demo_meta [1; 2; 3] demo_node _ (Err PayloadDecode)).
  vm_compute. reflexivity.
Defined.

Definition durable_node : Node :=
  mkInner (KernelState_with_dim 0) None stored_default ∅ [] None (mkMemorySink []) ∅ ∅ registry_new (Some ∅) None.
Definition durable_run : Node * outcome StorageError (list ClientResponse) :=
  run_batches demo_hash clock0 [take 2 demo_log; drop 2 demo_log] durable_node.

Lemma restart_from_log_witness :
  exists db m m', i_db durable_run.1 = Some db /\ with_db demo_hash (i_audit durable_run.1) db 0 = Ok m
    /\ i_last_applied m = None
    /\ apply demo_hash (fun i => i) demo_log m = (m', Ok (replies durable_run.2))
    /\ core m' = core durable_run.1 /\ i_audit m' = i_audit durable_run.1.
Proof.
  apply (restart_from_log demo_hash clock0 (fun i => i) (mkMemorySink []) 0 durable_node
           (take 2 demo_log) [drop 2 demo_log] durable_run.1 (replies durable_run.2)).
  - reflexivity.
  - apply (run_result durable_run). vm_compute. reflexivity.
  - intros T HT. vm_compute in HT. injection HT as <-.
    repeat apply Forall_cons_2; [..|apply Forall_nil_2]; vm_compute; discriminate.
Defined.

Definition snapshot_run : Node * outcome StorageError (SnapshotMeta * list Z) := build_snapshot demo_hash demo_node.
Definition more_log : list Entry :=
  [entry_at 11 (request (AutoInsertRecord [65536; 0] None 4) (Some (token 2)) 1);
   entry_at 12 (request (AutoInsertRecord [65536; 0] None 4) (Some (token 3)) 1)].
Definition later_run : Node * outcome StorageError (list ClientResponse) :=
  run_batches demo_hash clock0 [more_log] snapshot_run.1.

Lemma restart_from_snapshot_witness :
  exists db m m', i_db later_run.1 = Some db /\ with_db demo_hash (i_audit later_run.1) db 0 = Ok m
    /\ i_last_applied m = i_last_applied demo_node
    /\ apply demo_hash (fun i => i) more_log m = (m', Ok (replies later_run.2))
    /\ core m' = core later_run.1 /\ i_audit m' = i_audit later_run.1.
Proof.
  eapply (restart_from_snapshot demo_hash clock0 (fun i => i) 0 demo_node snapshot_run.1 later_run.1 demo_table
            (meta_of demo_hash demo_node, put_SnapshotPayload (payload_of demo_hash demo_node)) [more_log]
            (replies later_run.2)).
  - apply demo_node_ok.
  - split; [reflexivity|vm_compute; reflexivity..].
  - apply demo_portable.
  - vm_compute. reflexivity.
  - apply demo_payload_typed.
  - vm_compute. reflexivity.
  - apply (run_result later_run). vm_compute. reflexivity.
  - intros T HT. vm_compute in HT. injection HT as <-.
    repeat apply Forall_cons_2; [..|apply Forall_nil_2]; vm_compute; discriminate.
Defined.

Lemma apply_never_fails_witness :
  exists j rs, apply demo_hash clock0 [create_p; insert_once] blank_node = (j, Ok rs) /\ core_ok j
    /\ kernel_wf (i_state j) /\ length rs = 2%nat.
Proof.
  apply (apply_never_fails demo_hash clock0 [create_p; insert_once] blank_node).
  - apply core_ok_new.
  - apply kernel_wf_new.
  - intros evt id a. eexists. reflexivity.
  - split; [by split; [vm_compute; discriminate|split; [apply roomb_ok; vm_compute|split; [vm_compute|]]]|].
    intros c' r acc Hc. vm_compute in Hc. injection Hc as <- <- <-.
    split; [|done]. split; [vm_compute; discriminate|]. split; [apply roomb_ok; vm_compute; reflexivity|]. split; [vm_compute; discriminate|exact I].
Defined.

(** ** Snapshots that cannot be read back *)
Definition empty_metadata_log : list Entry :=
  [entry_at 1 (request (AutoInsertRecord [65536] (Some []) 0) None 0)].
Definition deleted_node_log : list Entry :=
  [entry_at 1 (request (AutoCreateNode NAgent None) None 0);
   entry_at 2 (request (AutoCreateNode NAgent None) None 0);
   entry_at 3 (request (DeleteNode 0) None 0)].

(** The process stops and starts again on the same tables and the same sink. *)
Definition restart (i : Node) : outcome StorageError Node :=
  match i_db i with Some db => with_db demo_hash (i_audit i) db 0 | None => Panic end.

(** Apply a log on a fresh durable node, build a snapshot, restart. *)
Definition restarted (log : list Entry) : list ClientResponse * outcome StorageError Node :=
  let '(i, rs) := run_batches demo_hash clock0 [log] durable_node in
  let '(j, _) := build_snapshot demo_hash i in
  (replies rs, restart j).

(** Two concrete logs of accepted requests (an empty metadata blob; a deleted
    node that is not the last) after which the node builds a snapshot and its own
    restart refuses it. *)
Theorem restart_refuses_own_snapshot :
  let '(rs1, o1) := restarted empty_metadata_log in
  let '(rs2, o2) := restarted deleted_node_log in
  Forall (fun r => rs_rejected r = None) (rs1 ++ rs2) /\ o1 = Err StateHashMismatch
  /\ o2 = Err (KernelDecode InvalidOperation).
Proof. vm_compute. split_and!; [by repeat constructor|reflexivity..]. Qed.

(** ** A membership that is lost *)
Definition joined : Node :=
  (install_snapshot demo_hash (meta_of demo_hash demo_node) (put_SnapshotPayload (payload_of demo_hash demo_node))
     durable_node).1.
Definition rejoined : outcome StorageError Node := restart joined.

(** A concrete run: a node installs a snapshot, stops and restarts from its
    tables; it is at the snapshot's log id with the default membership, not the
    snapshot's. *)
Theorem restart_after_install_loses_membership :
  applied_state joined = (Some 10%nat : option LogId, Some 7%nat : StoredMembership)
  /\ exists m, rejoined = Ok m /\ applied_state m = (Some 10%nat : option LogId, stored_default).
Proof. split; [vm_compute; reflexivity|]. eexists. split; vm_compute; reflexivity. Qed.
