(* ===== verification/LogStoreTheorems.v ===== *)
(** * Theorems about the Raft log stores

    The persistent store answers as the in-memory one, and under openraft's
    contract both hold the contiguous suffix of the log above the purge floor. *)

From S2P Require Import Prelude.
From S2P Require Import Core.
From S2P Require Import Bytes.
From S2P Require Import Event.
From S2P Require Import EventCodec.
From S2P Require Import EventLog.
From S2P Require Import Consensus.
From S2P Require Import LogStore.
From S2P Require Import ConsensusRestart.

(** ** Ordered maps under a map of the values *)
Section Map.
Context {V W : Type} (f : V -> W).
Definition on_values (l : list (Z * V)) : list (Z * W) := (fun kv => (kv.1, f kv.2)) <$> l.

Lemma om_insert_map k v l : om_insert k (f v) (on_values l) = on_values (om_insert k v l).
Proof.
  induction l as [|[k' v'] l IH]; [done|]. simpl. destruct (k <? k'); [done|]. destruct (k =? k'); [done|].
  simpl. f_equal. exact IH.
Qed.

Lemma om_retain_map g l : om_retain g (on_values l) = on_values (om_retain g l).
Proof.
  unfold om_retain, on_values. induction l as [|[k v] l IH]; [done|]. simpl.
  rewrite !filter_cons. simpl. case_decide; [simpl; f_equal|]; exact IH.
Qed.

Lemma last_map l : last (on_values l) = (fun kv => (kv.1, f kv.2)) <$> last l.
Proof. apply fmap_last. Qed.
End Map.

Lemma om_insert_forall {V} (P : Z * V -> Prop) k v l : P (k, v) -> Forall P l -> Forall P (om_insert k v l).
Proof.
  intros Hp. induction 1 as [|[k' v'] l Hx Hl IH]; [by constructor|]. simpl.
  destruct (k <? k'); [by repeat constructor|]. destruct (k =? k'); by constructor.
Qed.

Lemma om_retain_forall {V} (P : Z * V -> Prop) g l : Forall P l -> Forall P (om_retain g l).
Proof. rewrite !Forall_forall. intros Hl x [_ Hx]%list_elem_of_filter. auto. Qed.

Section Equivalence.
Context `{BincodeLaws} `{RaftSerdeLaws}.

(** The tables hold the encodings of what the in-memory store holds. *)
Record mirrors (m : LogStoreInner) (r : RedbLogStore) : Prop := {
  mi_logs : rd_logs r = on_values put_Entry (ls_log m);
  mi_typed : Forall (fun kv => raft_entry_typed kv.2) (ls_log m);
  mi_purged : rd_meta r !! KeyLastPurged = put_LogId <$> ls_last_purged m;
  mi_vote : rd_meta r !! KeyVote = put_Vote <$> ls_vote m;
  mi_committed : rd_meta r !! KeyCommitted = Some (put_option put_LogId (ls_committed m))
                 \/ rd_meta r !! KeyCommitted = None /\ ls_committed m = None;
}.

Definition log_op_ok (op : LogOp) : Prop :=
  match op with
  | GetEntries range => range_ok range = true
  | Append es => Forall raft_entry_typed es
  | Purge log_id => 0 <= log_index log_id < u64_MAX
  | _ => True
  end.

Lemma redb_decode_ok {X} (g : R X) (p : X -> list Z) x : decodes g (p x) x -> redb_decode g (p x) = Ok x.
Proof. intros [Hr _]. unfold redb_decode. rewrite <- (app_nil_r (p x)), Hr. done. Qed.

Lemma decode_all_ok l :
  Forall (fun kv : Z * Entry => raft_entry_typed kv.2) l ->
  decode_all (snd <$> on_values put_Entry l) = Ok (snd <$> l).
Proof.
  induction 1 as [|[k e] l He Hl IH]; [done|].
  change (snd <$> on_values put_Entry ((k, e) :: l)) with (put_Entry e :: (snd <$> on_values put_Entry l)).
  cbn [decode_all]. rewrite (redb_decode_ok get_Entry put_Entry) by (apply Entry_ok, He). simpl. by rewrite IH.
Qed.

Lemma read_meta_ok {X} (g : R X) (p : X -> list Z) key r (o : option X) :
  (forall x, decodes g (p x) x) -> rd_meta r !! key = p <$> o -> read_meta_key g key r = Ok o.
Proof.
  intros Hg Ho. unfold read_meta_key. rewrite Ho. destruct o as [x|]; [|done]. simpl.
  by rewrite redb_decode_ok.
Qed.

Lemma log_step_ok op m r :
  mirrors m r -> log_op_ok op ->
  (mem_step op m).2 = (redb_step op r).2 /\ mirrors (mem_step op m).1 (redb_step op r).1.
Proof.
  intros Hm Hop. pose proof Hm as [Hl Ht Hp Hv Hc]. destruct op; simpl in *; try (split; [|done]).
  - unfold mem_get_entries, redb_get_entries. rewrite Hop, Hl, om_retain_map, decode_all_ok; [done|].
    by apply om_retain_forall.
  - unfold redb_log_state, mem_log_state. rewrite (read_meta_ok _ put_LogId _ _ _ LogId_ok Hp). simpl.
    rewrite Hl, last_map. destruct (last (ls_log m)) as [[k e]|] eqn:El; simpl; [|done].
    rewrite (redb_decode_ok get_Entry put_Entry); [done|]. apply Entry_ok.
    rewrite Forall_forall in Ht. apply last_Some_elem_of in El. exact (Ht _ El).
  - split; [done|]. split; simpl; [done..|by simplify_map_eq|by simplify_map_eq|]. by rewrite lookup_insert_ne.
  - by rewrite (read_meta_ok _ put_Vote _ _ _ Vote_ok Hv).
  - split; [done|]. split; simpl; [done..|by simplify_map_eq|by simplify_map_eq|]. left. by simplify_map_eq.
  - unfold redb_read_committed, read_meta_key. destruct Hc as [->|[-> ->]]; [|done].
    rewrite (redb_decode_ok (get_option get_LogId)) by (apply option_ok; intros; apply LogId_ok). done.
  - split; [done|]. split; simpl; [|..|done|done|done].
    + rewrite Hl. clear. generalize (ls_log m). induction entries as [|e es IH]; intros l; [done|].
      simpl. by rewrite om_insert_map, IH.
    + clear - Ht Hop. revert Ht. generalize (ls_log m). induction Hop as [|e es He Hes IH]; intros l Ht; [done|].
      simpl. apply IH. by apply om_insert_forall.
  - split; [done|]. split; simpl; [by rewrite Hl, om_retain_map|by apply om_retain_forall|done..].
  - unfold redb_purge. rewrite (read_meta_ok _ put_LogId _ _ _ LogId_ok Hp). simpl. split; [done|].
    split; simpl; [|by apply om_retain_forall| |by simplify_map_eq|by rewrite lookup_insert_ne].
    + rewrite Hl, om_retain_map. f_equal. apply list_filter_iff. intros [k e]. simpl.
      unfold wrap_u64. rewrite Z.mod_small by int_lia. rewrite Z.leb_le, Z.ltb_lt. lia.
    + rewrite lookup_insert_eq. unfold raises_floor. destruct (ls_last_purged m) as [p|]; [|done]. by destruct (logid_ltb p log_id).
Qed.

(** C22: The persistent log store answers every sequence of storage calls
    exactly as the in-memory one does (ranges that are not inverted, log ids below
    u64::MAX, entries with the event codec's types). *)
Theorem log_stores_equivalent (ops : list LogOp) :
  Forall log_op_ok ops -> (run_log redb_step ops redb_new).2 = (run_log mem_step ops log_store_new).2.
Proof.
  intros Hops. assert (mirrors log_store_new redb_new) as Hm.
  { split; simpl; [done|constructor|done|done|by right]. }
  revert Hm. generalize log_store_new, redb_new. induction Hops as [|op ops Hop Hops IH]; intros m r Hm; [done|].
  simpl. destruct (log_step_ok op m r Hm Hop) as [Ho Hm']. destruct (mem_step op m) as [m' o], (redb_step op r) as [r' o'].
  simpl in *. specialize (IH m' r' Hm'). destruct (run_log redb_step ops r'), (run_log mem_step ops m'). simpl in *.
  congruence.
Qed.
End Equivalence.

(** ** What the log holds under openraft's contract *)
Section Contiguous.
Context `{Openraft}.

(** Entries at consecutive indexes. *)
Fixpoint numbered (lo : Z) (es : list Entry) : list (Z * Entry) :=
  match es with
  | [] => []
  | e :: es => (lo, e) :: numbered (lo + 1) es
  end.
Fixpoint indexed (lo : Z) (es : list Entry) : Prop :=
  match es with
  | [] => True
  | e :: es => log_index (en_log_id e) = lo /\ indexed (lo + 1) es
  end.

Lemma indexed_app lo es1 es2 : indexed lo (es1 ++ es2) <-> indexed lo es1 /\ indexed (lo + len es1) es2.
Proof.
  revert lo. induction es1 as [|e es1 IH]; intros lo; simpl.
  { rewrite len_nil, Z.add_0_r. tauto. }
  rewrite IH, len_cons. replace (lo + 1 + len es1) with (lo + (1 + len es1)) by lia. tauto.
Qed.

Lemma indexed_take n lo es : indexed lo es -> indexed lo (take n es).
Proof. rewrite <- (take_drop n es) at 1. rewrite indexed_app. tauto. Qed.

Lemma indexed_drop n lo es : indexed lo es -> indexed (lo + Z.of_nat (n `min` length es)) (drop n es).
Proof.
  rewrite <- (take_drop n es) at 1. rewrite indexed_app. unfold len. rewrite length_take. tauto.
Qed.

Lemma numbered_insert lo es e : om_insert (lo + len es) e (numbered lo es) = numbered lo (es ++ [e]).
Proof.
  revert lo. induction es as [|x es IH]; intros lo; simpl.
  { by rewrite len_nil, Z.add_0_r. }
  rewrite len_cons. pose proof (len_nonneg es).
  rewrite (proj2 (Z.ltb_ge _ _)), (proj2 (Z.eqb_neq _ _)) by lia. f_equal. rewrite <- IH. f_equal. lia.
Qed.

Lemma numbered_append lo es new :
  indexed (lo + len es) new ->
  foldl (fun l e => om_insert (log_index (en_log_id e)) e l) (numbered lo es) new = numbered lo (es ++ new).
Proof.
  revert es. induction new as [|e new IH]; intros es Hi; [by rewrite app_nil_r|]. destruct Hi as [He Hi].
  simpl. rewrite He, numbered_insert, IH; [by rewrite <- app_assoc|].
  rewrite len_app, len_cons, len_nil. by replace (lo + (len es + (1 + 0))) with (lo + len es + 1) by lia.
Qed.

Lemma numbered_below lo es t :
  om_retain (fun k => k <? t) (numbered lo es) = numbered lo (take (Z.to_nat (t - lo)) es).
Proof.
  revert lo. induction es as [|e es IH]; intros lo; simpl; [by rewrite take_nil|].
  unfold om_retain in *. rewrite filter_cons. simpl. destruct (Z.ltb_spec lo t) as [Hlt|Hge].
  - rewrite decide_True by done. replace (Z.to_nat (t - lo)) with (S (Z.to_nat (t - (lo + 1)))) by lia.
    simpl. f_equal. apply IH.
  - rewrite decide_False by done. replace (Z.to_nat (t - lo)) with O by lia. rewrite IH.
    by replace (Z.to_nat (t - (lo + 1))) with O by lia.
Qed.

Lemma numbered_from lo es t :
  om_retain (fun k => t <=? k) (numbered lo es)
  = numbered (lo + Z.of_nat (Z.to_nat (t - lo) `min` length es)) (drop (Z.to_nat (t - lo)) es).
Proof.
  revert lo. induction es as [|e es IH]; intros lo; simpl; [by rewrite drop_nil|].
  unfold om_retain in *. rewrite filter_cons. simpl. destruct (Z.leb_spec t lo) as [Hle|Hgt].
  - rewrite decide_True by done. replace (Z.to_nat (t - lo)) with O by lia. simpl. rewrite Z.add_0_r.
    f_equal. rewrite IH. replace (Z.to_nat (t - (lo + 1))) with O by lia. simpl. by rewrite Z.add_0_r.
  - rewrite decide_False by done. replace (Z.to_nat (t - lo)) with (S (Z.to_nat (t - (lo + 1)))) by lia.
    rewrite IH. simpl. f_equal. lia.
Qed.

(** The index the next append starts at. *)
Definition floor_of (s : LogStoreInner) : Z :=
  match ls_last_purged s with Some p => log_index p + 1 | None => 0 end.

(** The log is the run of entries from the floor on. *)
Definition log_is (s : LogStoreInner) (es : list Entry) : Prop :=
  ls_log s = numbered (floor_of s) es /\ indexed (floor_of s) es.

(** openraft's contract: appends continue the log, purged entries are not
    truncated, purge order is index order. *)
Definition contract (op : LogOp) (s : LogStoreInner) : Prop :=
  match op with
  | Append new => exists es, log_is s es /\ indexed (floor_of s + len es) new
  | Truncate log_id => floor_of s <= log_index log_id
  | Purge log_id =>
      0 <= log_index log_id < u64_MAX
      /\ forall p, ls_last_purged s = Some p -> logid_ltb p log_id = (log_index p <? log_index log_id)
  | _ => True
  end.

Lemma numbered_inj lo es es' : numbered lo es = numbered lo es' -> es = es'.
Proof.
  revert lo es'. induction es as [|e es IH]; intros lo [|e' es'] E; simplify_eq/=; [done|]. f_equal. by eapply IH.
Qed.

Lemma purge_log_is s es log_id :
  log_is s es -> contract (Purge log_id) s ->
  log_is (mem_purge log_id s) (drop (Z.to_nat (log_index log_id + 1 - floor_of s)) es).
Proof.
  intros [El Ei] [Hr Ho]. unfold log_is, mem_purge. simpl. rewrite El.
  unfold wrap_u64. rewrite Z.mod_small by int_lia. rewrite numbered_from.
  set (n := Z.to_nat (log_index log_id + 1 - floor_of s)).
  assert (drop n es = [] \/ floor_of (mem_purge log_id s) = floor_of s + Z.of_nat (n `min` length es)) as Hf.
  { destruct (decide (length es <= n)%nat) as [Hle|Hgt]; [left; by apply drop_ge|right].
    unfold floor_of, mem_purge, raises_floor in *. simpl. subst n. destruct (ls_last_purged s) as [p|].
    - rewrite (Ho p) by done. destruct (Z.ltb_spec (log_index p) (log_index log_id)); lia.
    - lia. }
  destruct Hf as [->|Hf]; [by split|]. unfold floor_of, mem_purge in Hf |- *. simpl in Hf |- *. rewrite Hf.
  split; [done|]. by apply indexed_drop.
Qed.

Lemma mem_step_log_is op s es :
  log_is s es -> contract op s ->
  exists es', log_is (mem_step op s).1 es'
    /\ match op with
       | Append new => es' = es ++ new
       | Truncate log_id => es' = take (Z.to_nat (log_index log_id - floor_of s)) es
       | Purge log_id => es' = drop (Z.to_nat (log_index log_id + 1 - floor_of s)) es
       | _ => es' = es
       end.
Proof.
  intros Hl Hc. destruct op; simpl in *; try (by exists es).
  - exists (es ++ entries). split; [|done]. destruct Hl as [El Ei], Hc as (es' & [El' _] & Hi).
    rewrite El in El'. apply numbered_inj in El' as <-. split; simpl.
    + rewrite El. by apply numbered_append.
    + apply indexed_app. by split.
  - eexists. split; [|done]. destruct Hl as [El Ei]. split; simpl; [|by apply indexed_take].
    rewrite El. apply numbered_below.
  - eexists. split; [|done]. by apply purge_log_is.
Qed.

Lemma last_numbered lo es : snd <$> last (numbered lo es) = last es.
Proof.
  revert lo. induction es as [|e es IH]; intros lo; [done|]. destruct es as [|e' es]; [done|].
  cbn [numbered]. rewrite !last_cons_cons. apply (IH (lo + 1)).
Qed.

Lemma numbered_range lo es a b :
  lo <= a <= b -> b <= lo + len es ->
  snd <$> om_retain (in_bounds (Included a, Excluded b)) (numbered lo es)
  = take (Z.to_nat (b - a)) (drop (Z.to_nat (a - lo)) es).
Proof.
  intros Ha Hb.
  assert (om_retain (in_bounds (Included a, Excluded b)) (numbered lo es)
          = om_retain (fun k => a <=? k) (om_retain (fun k => k <? b) (numbered lo es))) as ->.
  { unfold om_retain. rewrite list_filter_filter. apply list_filter_iff. intros [k e].
    unfold in_bounds. simpl. rewrite andb_true_iff. tauto. }
  rewrite numbered_below, numbered_from, skipn_firstn_comm.
  replace (Z.to_nat (b - lo) - Z.to_nat (a - lo))%nat with (Z.to_nat (b - a)) by lia.
  generalize (lo + Z.of_nat (Z.to_nat (a - lo) `min` length (take (Z.to_nat (b - lo)) es))).
  generalize (take (Z.to_nat (b - a)) (drop (Z.to_nat (a - lo)) es)). clear.
  intros l. induction l as [|e l IH]; intros z; [done|]. simpl. f_equal. apply IH.
Qed.

(** One call that respects the contract. *)
Definition store_step (s s' : LogStoreInner) : Prop :=
  exists op, contract op s /\ (mem_step op s).1 = s'.

(** Under the calls Raft makes, the log store always holds one gap-free run of
    entries that starts right after the purge floor; the reported state and every
    range read inside it are exactly that run's. *)
Theorem log_store_holds_suffix (s : LogStoreInner) :
  rtc store_step log_store_new s ->
  exists es, log_is s es
    /\ mem_log_state s
       = LogState (ls_last_purged s)
           (match last es with Some e => Some (en_log_id e) | None => ls_last_purged s end)
    /\ forall a b, floor_of s <= a <= b -> b <= floor_of s + len es ->
         mem_get_entries (Included a, Excluded b) s
         = Ok (Entries (take (Z.to_nat (b - a)) (drop (Z.to_nat (a - floor_of s)) es))).
Proof.
  intros Hs. assert (exists es, log_is s es) as [es Hl].
  { assert (exists es, log_is log_store_new es) as Hnew by by exists [].
    revert Hnew. induction Hs as [s0|s0 s1 s2 (op & Hc & <-) _ IH]; [done|]. intros [es Hl]. apply IH.
    destruct (mem_step_log_is op s0 es Hl Hc) as (es' & Hl' & _). by exists es'. }
  exists es. split; [done|]. destruct Hl as [El _]. split.
  - unfold mem_log_state. rewrite El. pose proof (last_numbered (floor_of s) es) as Hlast.
    destruct (last (numbered (floor_of s) es)) as [[k e]|]; simpl in Hlast; by rewrite <- Hlast.
  - intros a b Ha Hb. unfold mem_get_entries. cbn [range_ok]. rewrite (proj2 (Z.leb_le _ _)) by lia.
    rewrite El. by rewrite numbered_range.
Qed.
End Contiguous.

(** ** Concrete runs *)
#[local] Existing Instance FixedInt.bincode.
#[local] Existing Instance FixedInt.laws.

Definition demo_ops : list LogOp :=
  [Append [mkRaftEntry (0%nat : LogId) Blank; mkRaftEntry (1%nat : LogId) (MembershipEntry 3%nat);
           mkRaftEntry (2%nat : LogId) (Normal (mkRequest (ShredKey (replicate 16 9)) None 0 0))];
   SaveVote (5%nat : Vote); ReadVote; ReadCommitted; SaveCommitted None; ReadCommitted;
   Truncate (2%nat : LogId); Purge (0%nat : LogId); GetLogState; GetEntries (Included 1, Unbounded)].

Lemma log_stores_equivalent_witness :
  (run_log redb_step demo_ops redb_new).2 = (run_log mem_step demo_ops log_store_new).2
  /\ last (run_log mem_step demo_ops log_store_new).2
     = Some (Ok (Entries [mkRaftEntry (1%nat : LogId) (MembershipEntry 3%nat)])).
Proof.
  split; [|vm_compute; reflexivity]. apply (log_stores_equivalent demo_ops).
  repeat apply Forall_cons_2; try apply Forall_nil_2; try exact I; try reflexivity.
  - repeat apply Forall_cons_2; try apply Forall_nil_2; try exact I. split; [|done].
    split; [apply Forall_replicate; int_lia|reflexivity].
  - simpl. int_lia.
Defined.

Definition first_append : LogOp :=
  Append [mkRaftEntry (0%nat : LogId) Blank; mkRaftEntry (1%nat : LogId) (MembershipEntry 3%nat)].
Definition first_purge : LogOp := Purge (0%nat : LogId).
Definition purged_store : LogStoreInner := (run_log mem_step [first_append; first_purge] log_store_new).1.

Lemma log_store_holds_suffix_witness :
  exists es, log_is purged_store es
    /\ mem_log_state purged_store
       = LogState (ls_last_purged purged_store)
           (match last es with Some e => Some (en_log_id e) | None => ls_last_purged purged_store end)
    /\ forall a b, floor_of purged_store <= a <= b -> b <= floor_of purged_store + len es ->
         mem_get_entries (Included a, Excluded b) purged_store
         = Ok (Entries (take (Z.to_nat (b - a)) (drop (Z.to_nat (a - floor_of purged_store)) es))).
Proof.
  apply (log_store_holds_suffix purged_store).
  eapply rtc_l; [|eapply rtc_l; [|apply rtc_refl]].
  - exists first_append.
    split; [|reflexivity]. exists []. split; [done|]. by vm_compute.
  - exists first_purge. split; [|reflexivity]. split; [simpl; int_lia|discriminate].
Defined.
