(* ===== verification/Verify.v ===== *)
(** * The offline verifier

    Models [crates/valori-verify/src/lib.rs]: [replay_log], the summary that
    anchors sign, and [verify_log_file], which replays a segment into a fresh
    kernel, checks the hash chain and reports the first thing that is wrong; and
    the signed anchors of [anchor.rs].

    A JSON report is the record [Report] of its fields.  The text of an entry in
    a report ([entry_summary], [{e:?}]) is the entry itself.  [usize] offsets
    and the [u64] counters are bounded by the size of the file and are plain
    integers. *)

From S2P Require Import Prelude.
From S2P Require Import Core.
From S2P Require Import Fxp.
From S2P Require Import Records.
From S2P Require Import Event.
From S2P Require Import Kernel.
From S2P Require Import Bytes.
From S2P Require Import StateProof.
From S2P Require Import EventCodec.
From S2P Require Import Wire.
From S2P Require Import EventLog.

Inductive VerifyError : Type :=
| CannotRead
| CannotParseHeader (e : WireError)
| ChainBreakAt (entry_no byte_offset : Z)
| RejectedByKernel (event_no : Z) (e : KernelError)
| BadExpectedHash.

Record LogSummary : Type := mkSummary {
  su_chain_head : list Z;
  su_event_count : Z;
  su_state_hash : list Z;
  su_trailing_bytes : Z;
}.

Inductive Failure : Type :=
| ChainBroken (breach_at byte_offset wall_time_secs : Z) (prior_entry : option LogEntry)
    (computed_chain_head stored_prev_hash : list Z)
| DecodeFailed (event_no byte_offset bytes_remaining : Z)
| ApplyFailed (event_no byte_offset : Z) (e : KernelError) (applying : LogEntry).

Record ReplayOutcome : Type := mkOutcome {
  ro_state : KernelState;
  ro_events_applied : Z;
  ro_checkpoints_seen : Z;
  ro_chain_head : list Z;
  ro_failure : option Failure;
}.

Inductive Verdict : Type :=
| Verified | TamperedChain | TamperedStructural | TamperedSemantic | TamperedContent.

(** The [finding] field of a report. *)
Inductive Finding : Type :=
| NoFinding
| ContentFinding (expected_state_hash computed_state_hash chain_head : list Z)
| ChainBreach (breach_entry_no breach_byte_offset : Z) (committed : list Z) (committed_unix : Z)
    (computed_chain_head stored_prev_hash : list Z) (events_clean_before_breach : Z)
    (likely_altered : option (Z * option LogEntry))
| Structural (failed_entry_no failed_byte_offset trailing_unreadable_bytes events_clean : Z)
| Semantic (rejected_entry_no rejected_byte_offset : Z) (e : KernelError) (applying : LogEntry) (events_clean : Z).

Record Report : Type := mkReport {
  rp_verdict : Verdict;
  rp_size_bytes : Z;
  rp_format_version : Z;
  rp_dim : Z;
  rp_events_replayed : Z;
  rp_checkpoints_seen : Z;
  rp_state_hash : list Z;
  rp_chain_head : list Z;
  rp_expected_hash : option (list Z);
  rp_generated_at : list Z;
  rp_generated_at_unix : Z;
  rp_finding : Finding;
}.

(** ** Applying one entry

    [Event] goes to the default namespace, [EventNs] to its own; checkpoints
    and admin entries do not touch the kernel. *)
Definition apply_logged (e : LogEntry) : M KernelError KernelState unit :=
  match e with
  | Wire.Event ev => apply_event ev
  | EventNs ns ev => apply_event_ns ev ns
  | Checkpoint _ _ _ | Admin _ => sret tt
  end.

(** What an entry adds to [events_applied] and to [checkpoints_seen]. *)
Definition counts_event (e : LogEntry) : Z :=
  match e with Wire.Event _ | EventNs _ _ => 1 | _ => 0 end.
Definition counts_checkpoint (e : LogEntry) : Z :=
  match e with Checkpoint _ _ _ => 1 | _ => 0 end.

Section Verifier.
Context `{Bincode} (blake3 : list Z -> list Z) (crc32 : list Z -> Z).

(** ** [replay_log]

    [bs] is [&body[offset..]]; [fuel] bounds the turns of the loop. *)
Fixpoint summary_loop (fuel : nat) (header : SegmentHeader) (bs : list Z) (offset : Z) (chain_head : list Z)
    (event_count : Z) (state : KernelState) : outcome VerifyError (list Z * Z * KernelState * Z) :=
  match bs with
  | [] => Ok (chain_head, event_count, state, 0)
  | _ =>
      match fuel with
      | O => Hang
      | S fuel =>
          match decode_entry crc32 (version header) bs with
          | Ok (chained, n) =>
              let offset := offset + n in
              if negb (bool_decide (prev_hash chained = chain_head)) then
                Err (ChainBreakAt (event_count + 1) (header_len header + offset))
              else
                match chain_advance blake3 (version header) chain_head chained with
                | Ok chain_head =>
                    match apply_logged (entry chained) state with
                    | (state, Ok _) =>
                        summary_loop fuel header (drop (Z.to_nat n) bs) offset chain_head
                          (event_count + counts_event (entry chained)) state
                    | (_, Err e) => Err (RejectedByKernel (event_count + 1) e)
                    | (_, Panic) => Panic
                    | (_, Hang) => Hang
                    end
                | _ => Panic
                end
          | Err _ => Ok (chain_head, event_count, state, len bs)
          | Panic => Panic
          | Hang => Hang
          end
      end
  end.

Definition replay_log (fs : Fs) (path : name) : outcome VerifyError LogSummary :=
  do* bytes := ok_or (fs !! path) CannotRead in
  do* header := map_err CannotParseHeader (parse_header bytes) in
  let body := drop (Z.to_nat (header_len header)) bytes in
  do* r := summary_loop (S (length body)) header body 0 (prev_segment_chain_head header) 0 KernelState_new in
  let '(chain_head, event_count, state, trailing) := r in
  Ok (mkSummary chain_head event_count (hash_state_blake3 blake3 state) trailing).

(** ** [replay] *)
Fixpoint replay_loop (fuel : nat) (header : SegmentHeader) (bs : list Z) (offset : Z) (chain_head : list Z)
    (last_entry : option LogEntry) (events checkpoints : Z) (state : KernelState)
    : outcome VerifyError ReplayOutcome :=
  match bs with
  | [] => Ok (mkOutcome state events checkpoints chain_head None)
  | _ =>
      match fuel with
      | O => Hang
      | S fuel =>
          match decode_entry crc32 (version header) bs with
          | Ok (chained, n) =>
              let offset := offset + n in
              if negb (bool_decide (prev_hash chained = chain_head)) then
                Ok (mkOutcome state events checkpoints chain_head
                      (Some (ChainBroken (events + 1) (header_len header + offset) (wall_time_secs chained)
                               last_entry chain_head (prev_hash chained))))
              else
                match chain_advance blake3 (version header) chain_head chained with
                | Ok new_chain_head =>
                    match apply_logged (entry chained) state with
                    | (state, Ok _) =>
                        replay_loop fuel header (drop (Z.to_nat n) bs) offset new_chain_head
                          (Some (entry chained)) (events + counts_event (entry chained))
                          (checkpoints + counts_checkpoint (entry chained)) state
                    | (state, Err e) =>
                        Ok (mkOutcome state events checkpoints chain_head
                              (Some (ApplyFailed (events + 1) (header_len header + offset) e (entry chained))))
                    | (_, Panic) => Panic
                    | (_, Hang) => Hang
                    end
                | _ => Panic
                end
          | Err _ =>
              Ok (mkOutcome state events checkpoints chain_head
                    (Some (DecodeFailed (events + 1) (header_len header + offset) (len bs))))
          | Panic => Panic
          | Hang => Hang
          end
      end
  end.

Definition replay (body : list Z) (header : SegmentHeader) : outcome VerifyError ReplayOutcome :=
  replay_loop (S (length body)) header body 0 (prev_segment_chain_head header) None 0 0 KernelState_new.

(** ** The report *)

(** [char::is_whitespace]. *)
Definition is_whitespace (c : Z) : bool :=
  (9 <=? c) && (c <=? 13) || (c =? 32) || (c =? 133) || (c =? 160) || (c =? 5760)
  || (8192 <=? c) && (c <=? 8202) || (c =? 8232) || (c =? 8233) || (c =? 8239) || (c =? 8287) || (c =? 12288).

Fixpoint trim_start (s : list Z) : list Z :=
  match s with
  | [] => []
  | c :: s' => if is_whitespace c then trim_start s' else s
  end.
Definition trim (s : list Z) : list Z := reverse (trim_start (reverse (trim_start s))).

(** ASCII letters; no other character has a lower case that is a hex digit. *)
Definition to_lower (c : Z) : Z := if (65 <=? c) && (c <=? 90) then c + 32 else c.
Definition is_ascii_hexdigit (c : Z) : bool :=
  (48 <=? c) && (c <=? 57) || (97 <=? c) && (c <=? 102) || (65 <=? c) && (c <=? 70).

(** The argument is a string of characters. *)
Definition parse_expected (h : list Z) : outcome VerifyError (list Z) :=
  let h := to_lower <$> trim h in
  if negb (len h =? 64) || negb (forallb is_ascii_hexdigit h) then Err BadExpectedHash else Ok h.

Definition finding_of (expected_hash : option (list Z)) (out : ReplayOutcome) (state_hash : list Z)
    : outcome WireError Finding :=
  match ro_failure out with
  | None =>
      match expected_hash with
      | Some h =>
          if bool_decide (h = state_hash) then Ok NoFinding
          else Ok (ContentFinding h state_hash (hex (ro_chain_head out)))
      | None => Ok NoFinding
      end
  | Some (ChainBroken breach_at byte_offset wall_time_secs prior computed stored) =>
      do* committed := format_utc wall_time_secs in
      Ok (ChainBreach breach_at byte_offset committed wall_time_secs (hex computed) (hex stored) (breach_at - 1)
            (if 1 <? breach_at then Some (breach_at - 1, prior) else None))
  | Some (DecodeFailed event_no byte_offset bytes_remaining) =>
      Ok (Structural event_no byte_offset bytes_remaining (ro_events_applied out))
  | Some (ApplyFailed event_no byte_offset e applying) =>
      Ok (Semantic event_no byte_offset e applying (ro_events_applied out))
  end.

Definition build_report (now_unix log_bytes format_version dim : Z) (expected_hash : option (list Z))
    (out : ReplayOutcome) (verdict : Verdict) : outcome WireError Report :=
  let state_hash := hex (hash_state_blake3 blake3 (ro_state out)) in
  do* finding := finding_of expected_hash out state_hash in
  do* generated_at := format_utc now_unix in
  Ok (mkReport verdict log_bytes format_version dim (ro_events_applied out) (ro_checkpoints_seen out)
        state_hash (hex (ro_chain_head out)) expected_hash generated_at now_unix finding).

Definition verdict_of (expected : option (list Z)) (out : ReplayOutcome) : Verdict :=
  match ro_failure out with
  | Some (ChainBroken _ _ _ _ _ _) => TamperedChain
  | Some (DecodeFailed _ _ _) => TamperedStructural
  | Some (ApplyFailed _ _ _ _) => TamperedSemantic
  | None =>
      match expected with
      | Some h => if bool_decide (h = hex (hash_state_blake3 blake3 (ro_state out))) then Verified
                  else TamperedContent
      | None => Verified
      end
  end.

Definition verify_log_file (now_unix : Z) (fs : Fs) (path : name) (expected_hash : option (list Z))
    : outcome VerifyError Report :=
  do* bytes := ok_or (fs !! path) CannotRead in
  do* header := map_err CannotParseHeader (parse_header bytes) in
  do* expected :=
    match expected_hash with
    | Some h => do* h := parse_expected h in Ok (Some h)
    | None => Ok None
    end in
  do* out := replay (drop (Z.to_nat (header_len header)) bytes) header in
  (** [format_utc] has no error to map *)
  map_err CannotParseHeader
    (build_report now_unix (len bytes) (version header) (dim header) expected out
       (verdict_of expected out)).
End Verifier.
