(* ===== verification/VerifyProofs.v ===== *)
(** * Facts about the verifier

    [clean] is the step relation of a replay that meets nothing wrong; both
    replay loops follow it and stop at the first bytes it cannot consume. *)

From S2P Require Import Prelude.
From S2P Require Import Core.
From S2P Require Import Fxp.
From S2P Require Import Records.
From S2P Require Import Event.
From S2P Require Import Kernel.
From S2P Require Import Bytes.
From S2P Require Import StateProof.
From S2P Require Import EventCodec.
From S2P Require Import Wire.
From S2P Require Import WireTheorems.
From S2P Require Import EventLog.
From S2P Require Import EventLogTheorems.
From S2P Require Import EventCommit.
From S2P Require Import CommitProofs.
From S2P Require Import Verify.

(** ** Readers only move forward *)

(** [r] returns, and a value costs at least [k] bytes. *)
Definition shrinks {E A} (k : Z) (r : M E (list Z) A) : Prop :=
  forall l, match r l with
            | (l', Ok _) => len l' + k <= len l
            | (_, Err _) => True
            | _ => False
            end.

Section Shrinks.
Context {E : Type}.
Abbreviation R A := (M E (list Z) A).

Lemma shrinks_weaken {A} k k' (r : R A) : k' <= k -> shrinks k r -> shrinks k' r.
Proof. intros Hk Hr l. specialize (Hr l). destruct (r l) as [l' [a|e| |]]; (done || lia). Qed.

Lemma shrinks_ret {A} (a : A) : @shrinks E A 0 (sret a).
Proof. intros l. simpl. lia. Qed.

Lemma shrinks_throw {A} (e : E) : @shrinks E A 0 (sthrow e).
Proof. done. Qed.

Lemma shrinks_ok_or {A} (o : option A) (e : E) : shrinks 0 (slift (ok_or o e)).
Proof. intros l. destruct o; simpl; (done || lia). Qed.

Lemma shrinks_seq {A B} k1 k2 (r : R A) (f : A -> R B) :
  shrinks k1 r -> (forall a, shrinks k2 (f a)) -> shrinks (k1 + k2) (sbind r f).
Proof.
  intros Hr Hf l. specialize (Hr l). unfold sbind. destruct (r l) as [l1 [a|e| |]]; try done.
  specialize (Hf a l1). destruct (f a l1) as [l2 [b|e| |]]; (done || lia).
Qed.

Lemma shrinks_bind {A B} (r : R A) (f : A -> R B) :
  shrinks 0 r -> (forall a, shrinks 0 (f a)) -> shrinks 0 (sbind r f).
Proof. apply (shrinks_seq 0 0). Qed.

Lemma shrinks_n (e : E) n : shrinks (Z.max 0 n) (read_n e n).
Proof.
  intros l. unfold read_n. rewrite short_spec. destruct (Z.ltb_spec (len l) n) as [|Hl]; [done|].
  unfold len in *. rewrite length_drop. lia.
Qed.

Lemma shrinks_le (e : E) n : shrinks (Z.max 0 n) (read_le e n).
Proof.
  unfold read_le. eapply (shrinks_weaken (_ + 0)); [|apply shrinks_seq; [apply shrinks_n|intros; apply shrinks_ret]].
  lia.
Qed.

Lemma shrinks_loop {A} k n i (read : Z -> R A) :
  0 <= k -> (forall i, shrinks k (read i)) -> shrinks (Z.of_nat n * k) (read_loop n i read).
Proof.
  intros Hk Hr. revert i. induction n as [|n IH]; intros i; [apply shrinks_ret|]. cbn [read_loop].
  apply (shrinks_weaken (k + (Z.of_nat n * k + 0))); [lia|]. apply shrinks_seq; [apply Hr|]. intros a.
  apply shrinks_seq; [apply IH|]. intros b. apply shrinks_ret.
Qed.

Lemma shrinks_loop_0 {A} n i (read : Z -> R A) : (forall i, shrinks 0 (read i)) -> shrinks 0 (read_loop n i read).
Proof. intros Hr. pose proof (shrinks_loop 0 n i read ltac:(lia) Hr) as Hs. by rewrite Z.mul_0_r in Hs. Qed.
End Shrinks.

Lemma shrinks_check_len n : shrinks 0 (FixedInt.check_len n).
Proof. intros l. unfold FixedInt.check_len. destruct (_ <? _); (done || lia). Qed.

Lemma shrinks_read_n {E} (e : E) n : shrinks 0 (read_n e n).
Proof. eapply shrinks_weaken; [|apply shrinks_n]. lia. Qed.

(** The concrete codec. *)
Section FixedIntShrinks.
#[local] Existing Instance FixedInt.bincode.

Ltac shrinks_with tac :=
  repeat first
    [ tac | apply shrinks_bind; [|intros ?] | apply shrinks_ret | apply shrinks_throw | apply shrinks_ok_or
    | apply shrinks_read_n | apply shrinks_check_len | apply shrinks_loop_0; intros ? | case_match ].
Ltac shrinks := shrinks_with fail.

Lemma shrinks_KernelEvent : shrinks 0 get_KernelEvent.
Proof.
  unfold get_KernelEvent, get_helper, get_vector, get_metadata, get_bytes, get_array, get_NodeKind, get_EdgeKind.
  shrinks.
Qed.

Lemma shrinks_LogEntry : shrinks 0 get_LogEntry.
Proof.
  unfold get_LogEntry, get_AdminEvent, get_array. shrinks_with ltac:(apply shrinks_KernelEvent).
Qed.

Lemma shrinks_hash : shrinks 32 (get_array 32).
Proof. apply (shrinks_loop 1 32 0 (fun _ => FixedInt.get_le 1)); [lia|]. intros _. apply shrinks_le. Qed.

Lemma shrinks_EntryV2 : shrinks 32 get_EntryV2.
Proof.
  unfold get_EntryV2. apply (shrinks_seq 32 0); [apply shrinks_hash|]. intros h.
  shrinks_with ltac:(apply shrinks_LogEntry).
Qed.

Lemma shrinks_EntryV3 : shrinks 32 get_EntryV3.
Proof.
  unfold get_EntryV3. apply (shrinks_seq 32 0); [apply shrinks_hash|]. intros h. unfold get_array.
  shrinks_with ltac:(apply shrinks_LogEntry).
Qed.

(** Decoding returns, and an entry it yields takes some of the bytes. *)
Definition consumes (r : list Z -> outcome WireError (DecodedEntry * Z)) : Prop :=
  forall bs, match r bs with Ok (_, n) => 0 < n <= len bs | Err _ => True | _ => False end.

Lemma decode_with_consumes g : shrinks 32 g -> consumes (decode_with g).
Proof.
  intros Hg bs. unfold decode_with, decode_from_slice. cbn [FixedInt.bincode]. unfold FixedInt.decode_from_slice.
  specialize (Hg bs). destruct (g bs) as [rest [a|e| |]]; try done.
  destruct (FixedInt.admits _); [|done]. simpl. pose proof (len_nonneg rest). lia.
Qed.

Lemma fixed_decode_consumes crc32 v : consumes (decode_entry crc32 v).
Proof.
  intros bs. unfold decode_entry. destruct (v =? VERSION_V2); [apply decode_with_consumes, shrinks_EntryV2|].
  destruct (v =? VERSION_V3); [apply decode_with_consumes, shrinks_EntryV3|].
  destruct (v =? VERSION_V4); [|done].
  pose proof (decode_with_consumes _ shrinks_EntryV3 bs) as Hd.
  destruct (decode_with get_EntryV3 bs) as [[e k]|err| |]; try done. simpl.
  destruct (Z.ltb_spec (len bs) (k + CRC32_SUFFIX_LEN)); [done|].
  destruct (negb _); [done|]. simpl. unfold CRC32_SUFFIX_LEN in *. lia.
Qed.
End FixedIntShrinks.

(** ** Clean replays *)
Section Clean.
Context `{Bincode} (blake3 : list Z -> list Z) (crc32 : list Z -> Z).

Local Abbreviation advance := (advance blake3).

(** [clean v bs h s es rest h' s']: from the chain head [h] and the state [s],
    the bytes [bs] yield the entries [es], each linked to the one before and
    accepted by the kernel, and leave [rest], [h'] and [s']. *)
Inductive clean (v : Z) : list Z -> list Z -> KernelState -> list DecodedEntry -> list Z -> list Z -> KernelState -> Prop :=
| clean_nil bs h s : clean v bs h s [] bs h s
| clean_cons bs h s d n s1 es rest h' s' :
    decode_entry crc32 v bs = Ok (d, n) -> 0 < n <= len bs ->
    prev_hash d = h -> apply_logged (entry d) s = (s1, Ok tt) ->
    clean v (drop (Z.to_nat n) bs) (advance v h d) s1 es rest h' s' ->
    clean v bs h s (d :: es) rest h' s'.

Lemma clean_app v bs h s es1 rest h1 s1 es2 rest2 h2 s2 :
  clean v bs h s es1 rest h1 s1 -> clean v rest h1 s1 es2 rest2 h2 s2 ->
  clean v bs h s (es1 ++ es2) rest2 h2 s2.
Proof. induction 1; intros Hc; [done|]. econstructor; eauto. Qed.

(** The counters after the entries [es]. *)
Definition events_in (es : list DecodedEntry) : Z := len (omap routed es).
Definition checkpoints_in (es : list DecodedEntry) : Z :=
  len (filter (fun d => counts_checkpoint (entry d) = 1) es).

Lemma events_in_cons d es : events_in (d :: es) = counts_event (entry d) + events_in es.
Proof. unfold events_in. csimpl. unfold routed at 1. destruct (entry d); simpl; len_lia. Qed.

Lemma checkpoints_in_cons d es : checkpoints_in (d :: es) = counts_checkpoint (entry d) + checkpoints_in es.
Proof. unfold checkpoints_in. rewrite filter_cons. destruct (entry d); simpl; len_lia. Qed.

Lemma apply_logged_unit e s s' u : apply_logged e s = (s', Ok u) -> apply_logged e s = (s', Ok tt).
Proof. by destruct u. Qed.

(** A clean replay is what recovery computes. *)
Lemma apply_logged_replay d s s' :
  apply_logged (entry d) s = (s', Ok tt) -> forall evs, replay_from (omap routed [d] ++ evs) s = replay_from evs s'.
Proof.
  intros Ha evs. csimpl. unfold routed. destruct (entry d) as [e|c h t|a|ns e]; cbn [apply_logged] in Ha.
  - unfold apply_event in Ha. simpl. unfold sbind. by rewrite Ha.
  - by injection Ha as ->.
  - by injection Ha as ->.
  - simpl. unfold sbind. by rewrite Ha.
Qed.

Lemma clean_replays v bs h s es rest h' s' :
  clean v bs h s es rest h' s' -> replay_from (omap routed es) s = (s', Ok tt).
Proof.
  induction 1 as [|bs h s d n s1 es rest h' s' _ _ _ Ha _ IH]; [done|].
  change (d :: es) with ([d] ++ es). by rewrite omap_app, (apply_logged_replay _ _ _ Ha).
Qed.

Lemma clean_walks v bs h s es h' s' :
  wire_version v -> clean v bs h s es [] h' s' ->
  forall fuel off acc, (length bs <= fuel)%nat ->
  walk_loop blake3 crc32 fuel v bs off h acc = Ok (acc ++ es, h').
Proof.
  intros Hv Hcl. remember [] as rest. revert Heqrest.
  induction Hcl as [bs h s|bs h s d n s1 es rest h' s' Hd Hn Hp Ha _ IH]; intros -> fuel off acc Hf.
  { rewrite app_nil_r. by destruct fuel. }
  destruct bs as [|b bs]; [unfold len in Hn; simpl in Hn; lia|].
  destruct fuel as [|fuel]; [simpl in Hf; lia|]. cbn [walk_loop]. rewrite Hd, bool_decide_true by done. cbn [negb].
  rewrite chain_advance_ok by done. cbn [map_err obind]. rewrite IH; [by rewrite <- app_assoc|done|].
  rewrite length_drop. simpl in *. lia.
Qed.

(** ** The two loops *)

(** The last entry before the point reached. *)
Definition last_entry (prior : option LogEntry) (es : list DecodedEntry) : option LogEntry :=
  match last es with Some d => Some (entry d) | None => prior end.

Lemma last_entry_cons prior d es : last_entry prior (d :: es) = last_entry (Some (entry d)) es.
Proof. unfold last_entry. rewrite last_cons. by destruct (last es). Qed.

(** Both loops run through a clean prefix. *)
Lemma replay_loop_clean hd bs h s es rest h' s' :
  wire_version (version hd) -> clean (version hd) bs h s es rest h' s' ->
  forall fuel off prior ev cp, (length bs <= fuel)%nat ->
  exists fuel', (length rest <= fuel')%nat
    /\ replay_loop blake3 crc32 fuel hd bs off h prior ev cp s
       = replay_loop blake3 crc32 fuel' hd rest (off + (len bs - len rest)) h' (last_entry prior es)
           (ev + events_in es) (cp + checkpoints_in es) s'.
Proof.
  intros Hv. induction 1 as [bs h s|bs h s d n s1 es rest h' s' Hd Hn Hp Ha _ IH]; intros fuel off prior ev cp Hf.
  { exists fuel. split; [done|]. change (events_in []) with 0. change (checkpoints_in []) with 0.
    by rewrite Z.sub_diag, !Z.add_0_r. }
  destruct bs as [|b bs]; [unfold len in Hn; simpl in Hn; lia|]. destruct fuel as [|fuel]; [simpl in Hf; lia|].
  cbn [replay_loop]. rewrite Hd, bool_decide_true by done. cbn [negb]. rewrite chain_advance_ok, Ha by done.
  edestruct IH as (fuel' & Hf' & Hr); [|exists fuel'; split; [done|]; etrans; [exact Hr|]].
  { rewrite length_drop. simpl in *. lia. }
  rewrite events_in_cons, checkpoints_in_cons, last_entry_cons, !Z.add_assoc.
  f_equal. unfold len in *. rewrite length_drop. lia.
Qed.

(** What [summary_loop] makes of the outcome of [replay_loop]. *)
Definition summarize (out : outcome VerifyError ReplayOutcome) : outcome VerifyError (list Z * Z * KernelState * Z) :=
  do* out := out in
  match ro_failure out with
  | None => Ok (ro_chain_head out, ro_events_applied out, ro_state out, 0)
  | Some (DecodeFailed _ _ remaining) => Ok (ro_chain_head out, ro_events_applied out, ro_state out, remaining)
  | Some (ChainBroken entry_no byte_offset _ _ _ _) => Err (ChainBreakAt entry_no byte_offset)
  | Some (ApplyFailed event_no _ e _) => Err (RejectedByKernel event_no e)
  end.

Lemma summary_loop_ok fuel hd bs off h prior ev cp s :
  summary_loop blake3 crc32 fuel hd bs off h ev s
  = summarize (replay_loop blake3 crc32 fuel hd bs off h prior ev cp s).
Proof.
  revert bs off h prior ev cp s. induction fuel as [|fuel IH]; intros bs off h prior ev cp s; [by destruct bs|].
  destruct bs as [|b bs]; [done|]. cbn [summary_loop replay_loop].
  destruct (decode_entry crc32 (version hd) (b :: bs)) as [[d n]|e| |]; try done.
  destruct (negb _); [done|]. destruct (chain_advance blake3 (version hd) h d); try done.
  destruct (apply_logged (entry d) s) as [s1 [u|e| |]]; first [done | apply IH].
Qed.

(** [out] tells what stands at [rest], where the chain head is [h] and the
    kernel state [s]: nothing, undecodable bytes, an entry that is not linked,
    or one that the kernel rejects. *)
Definition describes (hd : SegmentHeader) (offset : Z) (prior : option LogEntry) (events checkpoints : Z)
    (rest h : list Z) (s : KernelState) (out : ReplayOutcome) : Prop :=
  ro_chain_head out = h /\ ro_events_applied out = events /\ ro_checkpoints_seen out = checkpoints
  /\ match ro_failure out with
     | None => rest = [] /\ ro_state out = s
     | Some (DecodeFailed no at_ remaining) =>
         ro_state out = s /\ rest <> [] /\ (exists e, decode_entry crc32 (version hd) rest = Err e)
         /\ no = events + 1 /\ at_ = header_len hd + offset /\ remaining = len rest
     | Some (ChainBroken no at_ t before computed stored) =>
         ro_state out = s /\ before = prior /\ computed = h
         /\ exists d n, decode_entry crc32 (version hd) rest = Ok (d, n) /\ prev_hash d <> h
             /\ no = events + 1 /\ at_ = header_len hd + (offset + n) /\ t = wall_time_secs d /\ stored = prev_hash d
     | Some (ApplyFailed no at_ e applying) =>
         exists d n, decode_entry crc32 (version hd) rest = Ok (d, n) /\ prev_hash d = h
           /\ apply_logged (entry d) s = (ro_state out, Err e)
           /\ no = events + 1 /\ at_ = header_len hd + (offset + n) /\ applying = entry d
     end.

(** The kernel itself does not return on the next entry. *)
Definition kernel_stuck (hd : SegmentHeader) (rest h : list Z) (s : KernelState) (o : outcome KernelError unit) : Prop :=
  exists d n, decode_entry crc32 (version hd) rest = Ok (d, n) /\ prev_hash d = h /\ (apply_logged (entry d) s).2 = o.

Ltac here :=
  unfold describes, last_entry; cbn [last ro_chain_head ro_events_applied ro_checkpoints_seen ro_failure ro_state];
  change (events_in []) with 0; change (checkpoints_in []) with 0; rewrite ?Z.sub_diag, ?Z.add_0_r;
  repeat (split; [done|]).

Lemma verifier_loop_ok fuel hd bs off h prior ev cp s :
  wire_version (version hd) -> consumes (decode_entry crc32 (version hd)) -> (length bs <= fuel)%nat ->
  exists es rest h' s', clean (version hd) bs h s es rest h' s'
    /\ match replay_loop blake3 crc32 fuel hd bs off h prior ev cp s with
       | Ok out => describes hd (off + (len bs - len rest)) (last_entry prior es) (ev + events_in es)
                     (cp + checkpoints_in es) rest h' s' out
       | Err _ => False
       | Panic => kernel_stuck hd rest h' s' Panic
       | Hang => kernel_stuck hd rest h' s' Hang
       end.
Proof.
  intros Hv Hc. revert bs off h prior ev cp s. induction fuel as [|fuel IH]; intros bs off h prior ev cp s Hf.
  { exists [], bs, h, s. split; [constructor|]. destruct bs; [|simpl in Hf; lia]. by here. }
  destruct bs as [|b bs].
  { exists [], [], h, s. split; [constructor|]. by here. }
  cbn [replay_loop]. pose proof (Hc (b :: bs)) as Hn.
  destruct (decode_entry crc32 (version hd) (b :: bs)) as [[d n]|e| |] eqn:Ed; try done.
  2:{ exists [], (b :: bs), h, s. split; [constructor|]. here. split; [by exists e|done]. }
  case_bool_decide as Ep; cbn [negb].
  2:{ exists [], (b :: bs), h, s. split; [constructor|]. here.
      exists d, n. by split_and!. }
  rewrite chain_advance_ok by done.
  destruct (apply_logged (entry d) s) as [s1 [u|e| |]] eqn:Ea.
  - apply apply_logged_unit in Ea.
    destruct (IH (drop (Z.to_nat n) (b :: bs)) (off + n) (advance (version hd) h d) (Some (entry d))
                (ev + counts_event (entry d)) (cp + counts_checkpoint (entry d)) s1) as (es & rest & h' & s' & Hcl & Hr).
    { rewrite length_drop. simpl in *. lia. }
    exists (d :: es), rest, h', s'. split; [by econstructor|].
    rewrite events_in_cons, checkpoints_in_cons, last_entry_cons.
    replace (off + (len (b :: bs) - len rest)) with (off + n + (len (drop (Z.to_nat n) (b :: bs)) - len rest))
      by (unfold len in *; rewrite length_drop; lia).
    rewrite !Z.add_assoc. exact Hr.
  - exists [], (b :: bs), h, s. split; [constructor|]. here.
    exists d, n. by split_and!.
  - exists [], (b :: bs), h, s. split; [constructor|]. exists d, n. by rewrite Ea.
  - exists [], (b :: bs), h, s. split; [constructor|]. exists d, n. by rewrite Ea.
Qed.
End Clean.

(** ** Written segments *)
Section Written.
Context `{BincodeLaws} (blake3 : list Z -> list Z) (crc32 : list Z -> Z).
Context (crc32_u32 : forall m, in_u32 (crc32 m)).

Lemma replay_from_cons d es s s' :
  replay_from (omap routed (d :: es)) s = (s', Ok tt) ->
  exists s1, apply_logged (entry d) s = (s1, Ok tt) /\ replay_from (omap routed es) s1 = (s', Ok tt).
Proof.
  csimpl. unfold routed at 1. destruct (entry d) as [e|c h t|a|ns e]; cbn [apply_logged]; try (by exists s);
    cbn [replay_from]; unfold sbind, apply_event; destruct (apply_event_ns _ _ s) as [s1 [[]|k| |]]; try discriminate;
    by exists s1.
Qed.

Lemma clean_linked v h es s s' rest :
  wire_version v -> linked blake3 v h es -> replay_from (omap routed es) s = (s', Ok tt) ->
  clean blake3 crc32 v (body crc32 v es ++ rest) h s es rest (final blake3 v h es) s'.
Proof.
  intros Hv. revert h s. induction es as [|d es IH]; intros h s Hl Hr.
  { injection Hr as ->. constructor. }
  destruct Hl as (Hp & Hd & Hes). destruct (replay_from_cons _ _ _ _ Hr) as (s1 & Ha & Hr').
  rewrite body_cons, <- app_assoc. pose proof (on_disk_nonempty crc32 v d Hd) as Hne.
  econstructor; [by apply decode_entry_on_disk| |done|exact Ha|].
  - pose proof (len_nonneg (body crc32 v es ++ rest)). rewrite len_app.
    assert (0 < len (on_disk crc32 v d)) by (destruct (on_disk crc32 v d); [done|rewrite len_cons; pose proof (len_nonneg l); lia]).
    lia.
  - unfold len. rewrite Nat2Z.id, drop_app_length. by apply IH.
Qed.
End Written.
