(* ===== verification/VerifyTheorems.v ===== *)
(** * Theorems about the verifier

    The report of [verify_log_file] is exact on any file; a verified log is one
    that recovery replays to the reported state; the log a committer leaves
    verifies with the hash of the live state; an entry that is altered in place
    is reported at its position. *)

From S2P Require Import Prelude.
From S2P Require Import Core.
From S2P Require Import Fxp.
From S2P Require Import Records.
From S2P Require Import Event.
From S2P Require Import Kernel.
From S2P Require Import Bytes.
From S2P Require Import StateProof.
From S2P Require Import EventCodec.
From S2P Require Import Wire.
From S2P Require Import WireTheorems.
From S2P Require Import EventLog.
From S2P Require Import EventLogTheorems.
From S2P Require Import EventCommit.
From S2P Require Import CommitProofs.
From S2P Require Import CommitTheorems.
From S2P Require Import Verify.
From S2P Require Import VerifyProofs.

(** ** Texts *)
Lemma format_utc_returns t : 0 <= t -> exists text, format_utc t = Ok text.
Proof.
  intros Ht. unfold format_utc, utc_fields.
  assert (0 <= wrap_u32 (t / 86400) <= u32_MAX) as Hw.
  { unfold wrap_u32. pose proof (Z.mod_pos_bound (t / 86400) 4294967296). int_lia. }
  pose proof (Z.div_pos (wrap_u32 (t / 86400)) 365 ltac:(lia) ltac:(lia)).
  destruct (year_loop_spec (S (Z.to_nat (wrap_u32 (t / 86400) / 365))) (wrap_u32 (t / 86400)) 1970)
    as (k & doy & -> & _ & _); [lia|lia|lia| |by eexists].
  assert (wrap_u32 (t / 86400) / 365 <= u32_MAX / 365) by (apply Z.div_le_mono; lia).
  change (u32_MAX / 365) with 11767033 in *. int_lia.
Qed.

Lemma hex_digit_lower d : 0 <= d < 16 ->
  is_whitespace (hex_digit d) = false /\ to_lower (hex_digit d) = hex_digit d /\ is_ascii_hexdigit (hex_digit d) = true.
Proof.
  intros Hd. assert (d = 0 \/ d = 1 \/ d = 2 \/ d = 3 \/ d = 4 \/ d = 5 \/ d = 6 \/ d = 7 \/ d = 8 \/ d = 9 \/ d = 10
    \/ d = 11 \/ d = 12 \/ d = 13 \/ d = 14 \/ d = 15) as Hc by lia.
  repeat destruct Hc as [->|Hc]; try done. by subst d.
Qed.

(** A character of a hash in lower-case hex. *)
Definition hex_char (c : Z) : Prop :=
  is_whitespace c = false /\ to_lower c = c /\ is_ascii_hexdigit c = true.

Lemma hex_chars bs : Forall hex_char (hex bs).
Proof.
  induction bs as [|b bs IH]; [constructor|]. change (hex (b :: bs)) with (hex_fixed 2 b ++ hex bs).
  apply Forall_app. split; [|exact IH].
  repeat constructor; apply hex_digit_lower; apply Z.mod_pos_bound; lia.
Qed.

Lemma len_hex bs : len (hex bs) = 2 * len bs.
Proof.
  induction bs as [|b bs IH]; [done|]. change (hex (b :: bs)) with (hex_fixed 2 b ++ hex bs).
  rewrite len_app, IH, len_cons.
  change (len (hex_fixed 2 b)) with 2. lia.
Qed.

Lemma trim_start_hex s : Forall hex_char s -> trim_start s = s.
Proof. destruct 1 as [|c s [Hc _] _]; [done|]. simpl. by rewrite Hc. Qed.

(** [hex] writes what the argument parser accepts. *)
Lemma parse_expected_hex bs : len bs = 32 -> parse_expected (hex bs) = Ok (hex bs).
Proof.
  intros Hl. pose proof (hex_chars bs) as Hh. unfold parse_expected, trim.
  rewrite (trim_start_hex (hex bs)), trim_start_hex, reverse_involutive by (by rewrite ?Forall_reverse).
  assert (to_lower <$> hex bs = hex bs) as ->.
  { clear Hl. induction Hh as [|c s (_ & Hc & _) _ IH]; [done|]. csimpl. by rewrite Hc, IH. }
  rewrite len_hex, Hl. simpl. assert (forallb is_ascii_hexdigit (hex bs) = true) as ->; [|done].
  clear Hl. induction Hh as [|c s (_ & _ & Hc) _ IH]; [done|]. simpl. by rewrite Hc.
Qed.

(** ** Any file *)
Section AnyFile.
Context `{Bincode} (blake3 : list Z -> list Z) (crc32 : list Z -> Z).

Lemma parse_header_version bs hd : parse_header bs = Ok hd -> wire_version (version hd) /\ 0 <= header_len hd.
Proof.
  unfold parse_header. destruct (_ <? _); [discriminate|]. cbv zeta. destruct (negb _); [discriminate|].
  destruct (_ =? VERSION_V2) eqn:E2.
  { intros [= <-]. apply Z.eqb_eq in E2. split; [by left|done]. }
  destruct ((_ =? VERSION_V3) || _) eqn:E3; [|discriminate].
  destruct (_ <? _); [discriminate|]. destruct (negb _); [discriminate|]. intros [= <-]. split; [|done].
  apply orb_true_iff in E3 as [E3|E3]; apply Z.eqb_eq in E3; right; auto.
Qed.

(** C12: On every body of a known format version, with an entry decoder that
    consumes input, the verifier's replay returns exactly the outcome of the
    longest clean prefix of entries (each decodes, links to the chain and is
    accepted by the kernel): no failure when nothing is left, otherwise a decode
    failure, a broken link or a kernel rejection, whichever is true of the entry
    after that prefix, with the state, counters, chain head and byte offset
    reached there. It panics or loops only where the kernel does on the next
    entry, never by its own loop bound. *)
Theorem verifier_diagnosis_exact (header : SegmentHeader) (body : list Z) :
  wire_version (version header) -> consumes (decode_entry crc32 (version header)) ->
  exists es rest head s,
    clean blake3 crc32 (version header) body (prev_segment_chain_head header) KernelState_new es rest head s
    /\ match replay blake3 crc32 body header with
       | Ok out => describes crc32 header (len body - len rest) (last_entry None es) (events_in es)
                     (checkpoints_in es) rest head s out
       | Err _ => False
       | Panic => kernel_stuck crc32 header rest head s Panic
       | Hang => kernel_stuck crc32 header rest head s Hang
       end.
Proof.
  intros Hv Hc. unfold replay.
  destruct (verifier_loop_ok blake3 crc32 (S (length body)) header body 0 (prev_segment_chain_head header) None 0 0
              KernelState_new Hv Hc ltac:(lia)) as (es & rest & h & s & Hcl & Hr).
  by exists es, rest, h, s.
Qed.

(** The summary that anchors sign is computed by a second replay loop; on
    every file it is the function of the verifier's replay outcome: the same chain
    head, event count and state, a decode failure turned into the count of
    trailing bytes, the other failures into errors. *)
Theorem replay_log_agrees (fs : Fs) (path : name) :
  replay_log blake3 crc32 fs path
  = do* bytes := ok_or (fs !! path) CannotRead in
    do* header := map_err CannotParseHeader (parse_header bytes) in
    do* r := summarize (replay blake3 crc32 (drop (Z.to_nat (header_len header)) bytes) header) in
    let '(chain_head, event_count, state, trailing) := r in
    Ok (mkSummary chain_head event_count (hash_state_blake3 blake3 state) trailing).
Proof.
  unfold replay_log, replay. destruct (fs !! path) as [bytes|]; [|done]. cbn [ok_or obind].
  destruct (parse_header bytes) as [header|e| |]; try done. cbn [map_err obind].
  by rewrite (summary_loop_ok blake3 crc32 _ _ _ _ _ None 0 0).
Qed.

(** C11: Whatever the bytes of a file are, when verify_log_file reports
    verified, the recovery code accepts the file: read_segment_full reads it with
    the reported dimension, replaying its events succeeds, and hash, event count
    and chain head of the report (and the expected hash, when one was given) are
    those of the recovered state. The entry decoder is assumed to consume input.
    *)
Theorem verified_log_recovers (now : Z) (fs : Fs) (path : name) (expected : option (list Z)) (rp : Report) :
  (forall v, consumes (decode_entry crc32 v)) ->
  verify_log_file blake3 crc32 now fs path expected = Ok rp -> rp_verdict rp = Verified ->
  exists seg s,
    read_segment_full blake3 crc32 fs (Some (rp_dim rp)) path = Ok seg
    /\ replay_events (sg_events seg) = Ok s
    /\ rp_state_hash rp = hex (hash_state_blake3 blake3 s)
    /\ rp_events_replayed rp = len (sg_events seg)
    /\ rp_chain_head rp = hex (sg_final_head seg)
    /\ (forall h, expected = Some h -> parse_expected h = Ok (rp_state_hash rp)).
Proof.
  intros Hc. unfold verify_log_file, read_segment_full. destruct (fs !! path) as [bytes|]; [|discriminate].
  cbn [ok_or obind]. destruct (parse_header bytes) as [hd|e| |] eqn:Eh; try discriminate. cbn [map_err obind].
  destruct (parse_header_version _ _ Eh) as [Hv Hhl].
  destruct (match expected with Some h => _ | None => _ end) as [exp|e| |] eqn:Ee; try discriminate. cbn [obind].
  set (bd := drop (Z.to_nat (header_len hd)) bytes).
  destruct (verifier_loop_ok blake3 crc32 (S (length bd)) hd bd 0 (prev_segment_chain_head hd) None 0 0
              KernelState_new Hv (Hc _) ltac:(lia)) as (es & rest & h & s & Hcl & Hr).
  fold (replay blake3 crc32 bd hd) in Hr.
  destruct (replay blake3 crc32 bd hd) as [out|e| |]; try discriminate. cbn [obind].
  destruct Hr as (Eh' & Eev & _ & Hfail). unfold build_report.
  destruct (finding_of exp out _) as [fnd|e| |]; try discriminate. cbn [obind].
  destruct (format_utc now) as [text|e| |]; try discriminate. intros [= <-]. cbn [rp_verdict rp_dim rp_state_hash
    rp_events_replayed rp_chain_head]. unfold verdict_of. destruct (ro_failure out) as [[]|]; try discriminate.
  destruct Hfail as [-> Es]. intros Hver. rewrite Z.eqb_refl. cbn [negb obind].
  unfold walk_segment_body. fold bd. rewrite (clean_walks _ _ _ _ _ _ _ _ _ Hv Hcl)
    by (unfold bd; rewrite length_drop; lia). cbn [map_err obind app].
  eexists _, s. split; [reflexivity|]. cbn [sg_events sg_final_head]. split.
  { unfold replay_events. by rewrite (clean_replays _ _ _ _ _ _ _ _ _ _ Hcl). }
  rewrite Es, Eev, Eh'. split_and!; [done|done|done|]. intros x ->. destruct (parse_expected x) as [y|e| |]; try discriminate.
  simpl in Ee. injection Ee as <-. rewrite Es in Hver. case_bool_decide; [by subst y|discriminate].
Qed.
End AnyFile.

(** ** Logs that were written *)
Section Written.
Context `{BincodeLaws} (blake3 : list Z -> list Z) (crc32 : list Z -> Z).

Lemma drop_header hd (hdr rest : list Z) : len hdr = header_len hd -> drop (Z.to_nat (header_len hd)) (hdr ++ rest) = rest.
Proof. intros <-. unfold len. rewrite Nat2Z.id. apply drop_app_length. Qed.

Lemma replay_clean_all hd bs es h s :
  wire_version (version hd) ->
  clean blake3 crc32 (version hd) bs (prev_segment_chain_head hd) KernelState_new es [] h s ->
  replay blake3 crc32 bs hd = Ok (mkOutcome s (events_in es) (checkpoints_in es) h None).
Proof.
  intros Hv Hcl. unfold replay.
  edestruct (replay_loop_clean blake3 crc32 hd) as (fuel & _ & ->); [done|exact Hcl|lia|]. by destruct fuel.
Qed.

(** C10: The writer and the verifier fit together: for every sequence of event
    commits, batch commits (made when no event commit waits in the write buffer)
    and flushes of events the log format admits, on a fresh log with rotation off,
    the file left when the committer is dropped, checked against the state hash of
    the live process, gives the verdict verified with no finding, the dimension of
    the log, the live state's hash and the number of committed events. *)
Theorem written_log_verifies (path : name) (d flush_every now now' : Z) (fs : Fs) (ops : list commit_op) :
  (forall m, hash_typed (blake3 m)) -> (forall m, in_u32 (crc32 m)) ->
  fs !! path = None -> 1 <= d <= WIRE_MAX_DIM -> in_u64 now -> 0 <= now' ->
  ops_ok blake3 crc32 VERSION_V4 ops (fresh path d flush_every fs) ->
  let c := run_ops blake3 crc32 ops (fresh path d flush_every fs) in
  let state_hash := hash_state_blake3 blake3 (c_live_state c) in
  exists rp,
    verify_log_file blake3 crc32 now' (drop_committer blake3 crc32 now c) path (Some (hex state_hash)) = Ok rp
    /\ rp_verdict rp = Verified /\ rp_finding rp = NoFinding /\ rp_dim rp = d
    /\ rp_state_hash rp = hex state_hash /\ rp_events_replayed rp = len (j_committed (c_journal c)).
Proof.
  intros Hb Hcrc Hfs Hd Hn Hn' Hops c state_hash.
  destruct (run_ops_inv blake3 crc32 _ _ _ _ ops Hb (fresh_inv blake3 crc32 path d flush_every fs Hfs Hd) Hops)
    as (es & Hc & [Hp _]).
  destruct (drop_ok blake3 crc32 _ _ _ _ now Hb Hc Hn) as (c' & es' & Ed & Hc' & Hw & (El & Ej & _ & [Hp' _])).
  fold c in Hp, Ed, El, Ej, Hp'. rewrite Ed.
  destruct Hc' as [[Hl Hfl _] Hr Hj _ _]. destruct Hl as [_ (f & Hf & Ef) Hps Hln _ Hwv Hlk _ _ _ _].
  assert (lw_path (lg_writer (c_log c')) = path) as Epath by (rewrite Hp'; exact Hp).
  rewrite Epath in Hf. rewrite Hfl, app_nil_r in Ef. subst f.
  unfold history in *. rewrite Hw in *. cbn [omap list_omap] in *. rewrite app_nil_r in *.
  unfold verify_log_file. rewrite Hf. cbn [ok_or obind]. rewrite Hps. cbn [map_err obind].
  assert (len state_hash = 32) as Hlen by (unfold len, state_hash, hash_state_blake3; by rewrite (proj2 (Hb _))).
  rewrite parse_expected_hex by done. cbn [obind].
  rewrite drop_header by done. rewrite <- (app_nil_r (body _ _ _)).
  rewrite (replay_clean_all _ _ _ _ _ Hwv (clean_linked blake3 crc32 Hcrc _ _ _ _ _ [] Hwv Hlk Hr)). cbn [obind].
  unfold build_report, finding_of, verdict_of. cbn [ro_failure ro_state ro_events_applied ro_checkpoints_seen ro_chain_head].
  rewrite El. fold c state_hash. rewrite !bool_decide_true by done. cbn [obind].
  destruct (format_utc_returns now' Hn') as [text ->]. cbn [map_err obind]. eexists. split; [reflexivity|].
  split_and!; try done. simpl. rewrite <- Ej, Hj. unfold events_in, len. by rewrite length_fmap.
Qed.

(** The entry after a clean prefix. *)
Lemma replay_next hd bs es d rest h s :
  (forall m, in_u32 (crc32 m)) -> wire_version (version hd) -> storable (version hd) d ->
  clean blake3 crc32 (version hd) bs (prev_segment_chain_head hd) KernelState_new es
    (on_disk crc32 (version hd) d ++ rest) h s ->
  let at_ := header_len hd + (len bs - len rest) in
  if bool_decide (prev_hash d = h) then
    match apply_logged (entry d) s with
    | (_, Ok _) => True
    | (s', Err e) =>
        replay blake3 crc32 bs hd
        = Ok (mkOutcome s' (events_in es) (checkpoints_in es) h (Some (ApplyFailed (events_in es + 1) at_ e (entry d))))
    | (_, Panic) => replay blake3 crc32 bs hd = Panic
    | (_, Hang) => replay blake3 crc32 bs hd = Hang
    end
  else
    replay blake3 crc32 bs hd
    = Ok (mkOutcome s (events_in es) (checkpoints_in es) h
            (Some (ChainBroken (events_in es + 1) at_ (wall_time_secs d) (last_entry None es) h (prev_hash d)))).
Proof.
  intros Hcrc Hv Hst Hcl at_. unfold replay.
  edestruct (replay_loop_clean blake3 crc32 hd) as (fuel & Hf & ->); [done|exact Hcl|lia|].
  pose proof (on_disk_nonempty crc32 _ d Hst) as Hnn. set (x := on_disk crc32 (version hd) d) in *.
  assert (header_len hd + (0 + (len bs - len (x ++ rest)) + len x) = at_) as Eat by (unfold at_; rewrite len_app; lia).
  assert (decode_entry crc32 (version hd) (x ++ rest) = Ok (d, len x)) as Hdec by (by apply decode_entry_on_disk).
  destruct (x ++ rest) as [|b y] eqn:Ex; [by apply app_eq_nil in Ex as [-> _]|].
  destruct fuel as [|fuel]; [simpl in Hf; lia|]. cbn [replay_loop]. rewrite Hdec, Eat.
  case_bool_decide; cbn [negb]; [|done].
  rewrite chain_advance_ok by done. by destruct (apply_logged (entry d) s) as [s' [u|e| |]].
Qed.

(** C13: Replace one entry of a valid segment, not the last, whose earlier
    entries replay, by another with the same prev_hash field but different
    content: unless the two messages hashed at that place (the chain head with the
    original and with the altered entry) collide, the verifier stops at the
    altered entry, when the kernel rejects it, or reports a broken chain at
    exactly the next one, naming the altered entry as the prior one. Where the
    kernel panics or loops on the altered entry, so does the verifier. *)
Theorem altered_entry_is_located (hd : SegmentHeader) (hdr : list Z) (es1 es2 : list DecodedEntry)
    (d d' next : DecodedEntry) (s1 : KernelState) :
  (forall m, in_u32 (crc32 m)) -> segment blake3 hd hdr (es1 ++ d :: next :: es2) ->
  prev_hash d' = prev_hash d -> storable (version hd) d' -> content (version hd) d' <> content (version hd) d ->
  replay_from (omap routed es1) KernelState_new = (s1, Ok tt) ->
  let file := body crc32 (version hd) (es1 ++ d' :: next :: es2) in
  let head es := final blake3 (version hd) (prev_segment_chain_head hd) es in
  let end_of es := header_len hd + len (body crc32 (version hd) es) in
  collision blake3 [head es1 ++ commit (version hd) d; head es1 ++ commit (version hd) d']
  \/ match apply_logged (entry d') s1 with
     | (s, Ok _) =>
         replay blake3 crc32 file hd
         = Ok (mkOutcome s (events_in (es1 ++ [d'])) (checkpoints_in (es1 ++ [d'])) (head (es1 ++ [d']))
                 (Some (ChainBroken (events_in (es1 ++ [d']) + 1) (end_of (es1 ++ [d'; next])) (wall_time_secs next)
                          (Some (entry d')) (head (es1 ++ [d'])) (prev_hash next))))
     | (s, Err e) =>
         replay blake3 crc32 file hd
         = Ok (mkOutcome s (events_in es1) (checkpoints_in es1) (head es1)
                 (Some (ApplyFailed (events_in es1 + 1) (end_of (es1 ++ [d'])) e (entry d'))))
     | (_, Panic) => replay blake3 crc32 file hd = Panic
     | (_, Hang) => replay blake3 crc32 file hd = Hang
     end.
Proof.
  intros Hcrc (_ & _ & Hv & Hlk) Hprev Hst Hne Hr file head end_of.
  apply linked_app in Hlk as [Hl1 (Hd & Hsd & Hnx & Hsn & _)].
  fold (head es1) in Hd, Hnx. set (v := version hd) in *.
  destruct (decide (advance blake3 v (head es1) d' = advance blake3 v (head es1) d)) as [Eadv|Nadv].
  { left. exists (head es1 ++ commit v d'), (head es1 ++ commit v d). split; [set_solver|]. split; [set_solver|].
    split; [|exact Eadv]. intros E1. apply app_inv_head in E1. apply Hne, commit_inj; [by destruct Hst as (_ & ? & _)|by destruct Hsd as (_ & ? & _)|done]. }
  right. assert (linked blake3 v (head es1) [d']) as Hl' by (split_and!; [by rewrite Hprev|done|done]).
  assert (len file - len (body crc32 v es2) = len (body crc32 v (es1 ++ [d'; next]))
          /\ len file - len (body crc32 v (next :: es2)) = len (body crc32 v (es1 ++ [d']))) as [Hlen1 Hlen2].
  { unfold file. rewrite !body_app, !body_cons, !len_app. change (body crc32 v []) with (@nil Z).
    change (len (@nil Z)) with 0. lia. }
  pose proof (clean_linked blake3 crc32 Hcrc v _ es1 _ _ (body crc32 v (d' :: next :: es2)) Hv Hl1 Hr) as Hcl.
  rewrite <- body_app in Hcl. fold file in Hcl. rewrite body_cons in Hcl. fold (head es1) in Hcl.
  pose proof (replay_next _ _ _ _ _ _ _ Hcrc Hv Hst Hcl) as Hn1. cbv zeta in Hn1.
  rewrite bool_decide_true in Hn1 by (by rewrite Hprev). rewrite Hlen2 in Hn1.
  destruct (apply_logged (entry d') s1) as [s [[]|e| |]] eqn:Ea; [|exact Hn1..]. clear Hn1.
  assert (clean blake3 crc32 v file (prev_segment_chain_head hd) KernelState_new (es1 ++ [d'])
            (body crc32 v (next :: es2)) (head (es1 ++ [d'])) s) as Hc2.
  { unfold head, file. change (d' :: next :: es2) with ([d'] ++ next :: es2).
    rewrite app_assoc, body_app. apply clean_linked; [done|done|by apply linked_app|].
    rewrite omap_app, replay_from_app, Hr, <- (app_nil_r (omap routed [d'])). by rewrite (apply_logged_replay _ _ _ Ea []). }
  rewrite body_cons in Hc2. pose proof (replay_next _ _ _ _ _ _ _ Hcrc Hv Hsn Hc2) as Hn2. cbv zeta in Hn2.
  rewrite bool_decide_false in Hn2.
  - rewrite Hlen1 in Hn2. unfold last_entry in Hn2. rewrite last_snoc in Hn2. exact Hn2.
  - unfold head. rewrite final_app. fold (head es1). simpl. congruence.
Qed.
End Written.

(** ** Concrete runs *)
#[local] Existing Instance FixedInt.bincode.
#[local] Existing Instance FixedInt.laws.

Definition demo_body : list Z := body toy_crc VERSION_V4 [demo_e1; demo_e2].

(** The second entry is cut. *)
Lemma verifier_diagnosis_exact_witness :
  exists es rest head s,
    clean demo_hash toy_crc VERSION_V4 (take 150 demo_body) GENESIS KernelState_new es rest head s
    /\ match replay demo_hash toy_crc (take 150 demo_body) demo_hd with
       | Ok out => describes toy_crc demo_hd (len (take 150 demo_body) - len rest) (last_entry None es) (events_in es)
                     (checkpoints_in es) rest head s out
       | Err _ => False
       | Panic => kernel_stuck toy_crc demo_hd rest head s Panic
       | Hang => kernel_stuck toy_crc demo_hd rest head s Hang
       end.
Proof.
  apply (verifier_diagnosis_exact demo_hash toy_crc demo_hd (take 150 demo_body)).
  - by right; right.
  - apply fixed_decode_consumes.
Defined.

Definition demo_files : Fs := {[ log_name := demo_header ++ demo_body ]}.
Definition report_of (o : outcome VerifyError Report) : Report :=
  match o with
  | Ok rp => rp
  | _ => mkReport TamperedContent 0 0 0 0 0 [] [] None [] 0 NoFinding
  end.
Definition demo_report : Report := report_of (verify_log_file demo_hash toy_crc 0 demo_files log_name None).

Lemma verified_log_recovers_witness :
  rp_events_replayed demo_report = 2
  /\ exists seg s,
    read_segment_full demo_hash toy_crc demo_files (Some (rp_dim demo_report)) log_name = Ok seg
    /\ replay_events (sg_events seg) = Ok s
    /\ rp_state_hash demo_report = hex (hash_state_blake3 demo_hash s)
    /\ rp_events_replayed demo_report = len (sg_events seg)
    /\ rp_chain_head demo_report = hex (sg_final_head seg)
    /\ (forall h, None = Some h -> parse_expected h = Ok (rp_state_hash demo_report)).
Proof.
  split; [vm_compute; reflexivity|].
  apply (verified_log_recovers demo_hash toy_crc 0 demo_files log_name None demo_report).
  - intros v. apply fixed_decode_consumes.
  - vm_compute. reflexivity.
  - vm_compute. reflexivity.
Defined.

Lemma written_log_verifies_witness :
  let c := run_ops demo_hash toy_crc demo_ops (fresh log_name 2 2 ∅) in
  let state_hash := hash_state_blake3 demo_hash (c_live_state c) in
  exists rp,
    verify_log_file demo_hash toy_crc 0 (drop_committer demo_hash toy_crc 16 c) log_name (Some (hex state_hash)) = Ok rp
    /\ rp_verdict rp = Verified /\ rp_finding rp = NoFinding /\ rp_dim rp = 2
    /\ rp_state_hash rp = hex state_hash /\ rp_events_replayed rp = len (j_committed (c_journal c)).
Proof.
  apply (written_log_verifies demo_hash toy_crc log_name 2 2 16 0 ∅ demo_ops);
    [exact demo_hash_typed|exact toy_crc_u32|done|unfold WIRE_MAX_DIM; lia|in_range|lia|exact demo_ops_ok].
Defined.

(** The first entry of the demo log is rewritten to insert another vector. *)
Definition forged : DecodedEntry := mkEntry GENESIS 1700000000 None (Wire.Event (InsertRecord 0 [0; 65536] None 0)).

Lemma altered_entry_is_located_witness :
  collision demo_hash [GENESIS ++ commit VERSION_V4 demo_e1; GENESIS ++ commit VERSION_V4 forged]
  \/ match apply_logged (entry forged) KernelState_new with
     | (s, Ok _) =>
         replay demo_hash toy_crc (body toy_crc VERSION_V4 [forged; demo_e2]) demo_hd
         = Ok (mkOutcome s 1 0 (final demo_hash VERSION_V4 GENESIS [forged])
                 (Some (ChainBroken 2 (HEADER_SIZE_V3 + len (body toy_crc VERSION_V4 [forged; demo_e2])) 1700000001
                          (Some (entry forged)) (final demo_hash VERSION_V4 GENESIS [forged])
                          (advance demo_hash VERSION_V4 GENESIS demo_e1))))
     | (s, Err e) =>
         replay demo_hash toy_crc (body toy_crc VERSION_V4 [forged; demo_e2]) demo_hd
         = Ok (mkOutcome s 0 0 GENESIS
                 (Some (ApplyFailed 1 (HEADER_SIZE_V3 + len (body toy_crc VERSION_V4 [forged])) e (entry forged))))
     | (_, Panic) => replay demo_hash toy_crc (body toy_crc VERSION_V4 [forged; demo_e2]) demo_hd = Panic
     | (_, Hang) => replay demo_hash toy_crc (body toy_crc VERSION_V4 [forged; demo_e2]) demo_hd = Hang
     end.
Proof.
  apply (altered_entry_is_located demo_hash toy_crc demo_hd demo_header [] [] demo_e1 forged demo_e2 KernelState_new
           toy_crc_u32 demo_segment eq_refl); [|discriminate|reflexivity].
  apply demo_storable; [apply genesis_typed|int_lia| |done|vm_compute; reflexivity].
  simpl. split_and!; try done; try int_lia; repeat constructor; int_lia.
Defined.

(** ** A rotated log

    Two commits with a rotation in between: the live segment continues the
    chain and the ids, recovery reads both segments, and the verifier, which
    replays the live one into an empty kernel, calls it tampered. *)
Definition archive_name : name := log_name ++ [46; 48].
Definition rotated : Log * outcome EventLogError unit :=
  (append demo_hash toy_crc 10 (Wire.Event (ev_insert 0)) ;;;
   rotate demo_hash toy_crc 11 archive_name None ;;;
   append demo_hash toy_crc 12 (Wire.Event (ev_insert 1)))
    (c_log (fresh log_name 2 2 ∅)).

(** A concrete run: a log is rotated once, and the verifier, given the live
    segment, reports a semantic failure although nothing was altered, because it
    replays the segment into an empty kernel. *)
Theorem rotated_segment_reported_tampered :
  rotated.2 = Ok tt
  /\ (exists s j, recover_from_event_log demo_hash toy_crc (lg_fs rotated.1) [log_name; archive_name] log_name
                  = Ok (s, j, 2))
  /\ rp_verdict (report_of (verify_log_file demo_hash toy_crc 0 (lg_fs rotated.1) log_name None)) = TamperedSemantic.
Proof.
  split; [vm_compute; reflexivity|]. split; [|vm_compute; reflexivity]. eexists _, _. vm_compute. reflexivity.
Qed.
