(* ===== verification/Anchor.v ===== *)
(** * Signed anchors

    Models [crates/valori-verify/src/anchor.rs] and the [create] and [verify]
    commands of [bin/valori_anchor.rs].  An anchor signs the chain head, event
    count and state hash of a log, so that a log rewritten later no longer
    matches.

    Ed25519 is the class [Ed25519] with the laws [Ed25519Laws]; JSON text is the
    class [AnchorText].  A JSON object is the function from its fields to their
    values, [JNull] where a field is missing (what indexing a [Value] yields).
    Key files are read outside the model: the commands take the keys. *)

From S2P Require Import Prelude.
From S2P Require Import Core.
From S2P Require Import Bytes.
From S2P Require Import EventCodec.
From S2P Require Import Wire.
From S2P Require Import WireTheorems.
From S2P Require Import EventLog.
From S2P Require Import EventLogTheorems.
From S2P Require Import EventCommit.
From S2P Require Import CommitTheorems.
From S2P Require Import StateProof.
From S2P Require Import Verify.
From S2P Require Import VerifyTheorems.

(** ["valori-anchor-v1\0"] *)
Definition DOMAIN_SEP : list Z := [118; 97; 108; 111; 114; 105; 45; 97; 110; 99; 104; 111; 114; 45; 118; 49; 0].

Record AnchorPayload : Type := mkAnchor {
  an_chain_head : list Z;
  an_event_count : Z;
  an_state_hash : list Z;
  an_anchored_at_unix : Z;
}.

Definition message (p : AnchorPayload) : list Z :=
  DOMAIN_SEP ++ an_chain_head p ++ le_bytes 8 (an_event_count p) ++ an_state_hash p
  ++ le_bytes 8 (an_anchored_at_unix p).

(** ** JSON *)
Inductive JsonValue : Type := JNull | JString (s : list Z) | JNumber (n : Z).
Inductive AnchorField : Type :=
| FSchemaVersion | FChainHead | FEventCount | FStateHash | FAnchoredAt | FAnchoredAtUnix | FPublicKey | FSignature | FNote.
Definition AnchorJson : Type := AnchorField -> JsonValue.

Inductive AnchorError : Type :=
| FieldMissing (f : AnchorField)
| OddHex
| InvalidHexDigit
| WrongLength (f : AnchorField)
| InvalidPublicKey
| SignatureInvalid.

(** ** Hex *)

(** A byte at which a [str] may be cut: not a continuation byte. *)
Definition char_boundary (s : list Z) : bool :=
  match s with b :: _ => negb ((128 <=? b) && (b <=? 191)) | [] => true end.

(** [u8::from_str_radix(pair, 16)] on two bytes; a leading [+] is accepted. *)
Definition u8_from_pair (a b : Z) : option Z :=
  if a =? 43 then to_digit16 b
  else match to_digit16 a, to_digit16 b with
       | Some x, Some y => Some (x * 16 + y)
       | _, _ => None
       end.

(** The pairs of an even number of bytes; a slice that cuts a character
    aborts. *)
Fixpoint hex_pairs (s : list Z) : outcome AnchorError (list Z) :=
  match s with
  | a :: b :: rest =>
      if char_boundary s && char_boundary rest then
        do* v := ok_or (u8_from_pair a b) InvalidHexDigit in
        do* vs := hex_pairs rest in
        Ok (v :: vs)
      else Panic
  | _ => Ok []
  end.

Definition from_hex (s : list Z) : outcome AnchorError (list Z) :=
  if negb (len s mod 2 =? 0) then Err OddHex else hex_pairs s.

Definition json_hex (v : AnchorJson) (f : AnchorField) : outcome AnchorError (list Z) :=
  match v f with JString s => from_hex s | _ => Err (FieldMissing f) end.

(** [as_u64]: a number within [u64]. *)
Definition json_u64 (v : AnchorJson) (f : AnchorField) : outcome AnchorError Z :=
  match v f with
  | JNumber n => if (0 <=? n) && (n <=? u64_MAX) then Ok n else Err (FieldMissing f)
  | _ => Err (FieldMissing f)
  end.

(** [try_into] a fixed-size array. *)
Definition sized (f : AnchorField) (n : Z) (bs : list Z) : outcome AnchorError (list Z) :=
  if len bs =? n then Ok bs else Err (WrongLength f).

(** ** Ed25519 *)
Class Ed25519 : Type := {
  SigningKey : Type;
  verifying_key : SigningKey -> list Z;
  sign : SigningKey -> list Z -> list Z;
  valid_key : list Z -> bool;                        (** [VerifyingKey::from_bytes] succeeds *)
  ed_verify : list Z -> list Z -> list Z -> bool;     (** key, message, signature *)
}.

Class Ed25519Laws `{Ed25519} : Prop := {
  key_typed k : array_typed 32 (verifying_key k);
  sig_typed k m : array_typed 64 (sign k m);
  key_valid k : valid_key (verifying_key k) = true;
  sig_verifies k m : ed_verify (verifying_key k) m (sign k m) = true;
}.

(** [serde_json::to_string_pretty] and [from_str] on anchors. *)
Class AnchorText : Type := {
  to_text : AnchorJson -> list Z;
  from_text : list Z -> option AnchorJson;
}.
Class AnchorTextLaws `{AnchorText} : Prop := {
  text_roundtrip v : exists v', from_text (to_text v) = Some v' /\ forall f, v' f = v f;
}.

Section Anchors.
Context `{Ed25519}.

Definition sign_to_json (p : AnchorPayload) (key : SigningKey) (note : option (list Z))
    : outcome WireError AnchorJson :=
  do* anchored_at := format_utc (an_anchored_at_unix p) in
  Ok (fun f =>
        match f with
        | FSchemaVersion => JNumber 1
        | FChainHead => JString (hex (an_chain_head p))
        | FEventCount => JNumber (an_event_count p)
        | FStateHash => JString (hex (an_state_hash p))
        | FAnchoredAt => JString anchored_at
        | FAnchoredAtUnix => JNumber (an_anchored_at_unix p)
        | FPublicKey => JString (hex (verifying_key key))
        | FSignature => JString (hex (sign key (message p)))
        | FNote => match note with Some n => JString n | None => JNull end
        end).

Definition verify_json (v : AnchorJson) : outcome AnchorError (AnchorPayload * list Z) :=
  do* chain_head_vec := json_hex v FChainHead in
  do* state_hash_vec := json_hex v FStateHash in
  do* pk_vec := json_hex v FPublicKey in
  do* sig_vec := json_hex v FSignature in
  do* event_count := json_u64 v FEventCount in
  do* anchored_at_unix := json_u64 v FAnchoredAtUnix in
  do* chain_head := sized FChainHead 32 chain_head_vec in
  do* state_hash := sized FStateHash 32 state_hash_vec in
  do* pk_bytes := sized FPublicKey 32 pk_vec in
  do* sig_bytes := sized FSignature 64 sig_vec in
  let payload := mkAnchor chain_head event_count state_hash anchored_at_unix in
  do* _ := if valid_key pk_bytes then Ok tt else Err InvalidPublicKey in
  if ed_verify pk_bytes (message payload) sig_bytes then Ok (payload, pk_bytes) else Err SignatureInvalid.

(** ** The commands *)
Inductive ExitCode : Type := ExitSuccess | ExitFailure (code : Z).

Context `{Bincode} (blake3 : list Z -> list Z) (crc32 : list Z -> Z) `{AnchorText}.

(** ["anchor"] *)
Definition anchor_extension : name := [97; 110; 99; 104; 111; 114].

(** An error is printed and the exit code is 1; an abort is not an exit code. *)
Definition or_exit {E A} (o : outcome E A) (k : A -> outcome Empty_set ExitCode) : outcome Empty_set ExitCode :=
  match o with
  | Ok a => k a
  | Err _ => Ok (ExitFailure 1)
  | Panic => Panic
  | Hang => Hang
  end.

Definition cmd_create (now : Z) (fs : Fs) (log : name) (key : SigningKey) (note : option (list Z))
    : Fs * outcome Empty_set ExitCode :=
  match replay_log blake3 crc32 fs log with
  | Ok summary =>
      let payload := mkAnchor (su_chain_head summary) (su_event_count summary) (su_state_hash summary) now in
      match sign_to_json payload key note with
      | Ok json => (<[with_extension log anchor_extension := to_text json]> fs, Ok ExitSuccess)
      | o => (fs, or_exit o (fun _ => Ok ExitSuccess))
      end
  | o => (fs, or_exit o (fun _ => Ok ExitSuccess))
  end.

Definition cmd_verify (fs : Fs) (log anchor : name) (trusted_key : option (list Z)) (trust_embedded : bool)
    : outcome Empty_set ExitCode :=
  if negb (bool_decide (is_Some trusted_key)) && negb trust_embedded then Ok (ExitFailure 2)
  else
    or_exit (ok_or (fs !! anchor) tt) (fun text =>
    or_exit (ok_or (from_text text) tt) (fun json =>
    or_exit (verify_json json) (fun pk =>
    let '(payload, key) := pk in
    if (match trusted_key with Some t => negb (bool_decide (t = key)) | None => false end) then Ok (ExitFailure 1)
    else
      or_exit (replay_log blake3 crc32 fs log) (fun summary =>
      if bool_decide (su_chain_head summary = an_chain_head payload)
         && bool_decide (su_state_hash summary = an_state_hash payload)
         && (su_event_count summary =? an_event_count payload)
      then Ok ExitSuccess else Ok (ExitFailure 1))))).
End Anchors.

(** ** Lemmas *)

(** The fields have the types of the struct. *)
Definition anchor_typed (p : AnchorPayload) : Prop :=
  array_typed 32 (an_chain_head p) /\ in_u64 (an_event_count p) /\ array_typed 32 (an_state_hash p)
  /\ in_u64 (an_anchored_at_unix p).

Lemma u8_from_hex b : in_u8 b ->
  exists x y, hex_fixed 2 b = [x; y] /\ 48 <= x < 128 /\ 48 <= y < 128 /\ u8_from_pair x y = Some b.
Proof.
  intros Hb. exists (hex_digit ((b / 16) mod 16)), (hex_digit (b mod 16)). split; [done|].
  pose proof (Z.mod_pos_bound (b / 16) 16). pose proof (Z.mod_pos_bound b 16).
  pose proof (hex_digit_range ((b / 16) mod 16) ltac:(lia)) as Hx.
  pose proof (hex_digit_range (b mod 16) ltac:(lia)) as Hy. split; [done|]. split; [done|].
  unfold u8_from_pair. destruct (Z.eqb_spec (hex_digit ((b / 16) mod 16)) 43); [lia|].
  rewrite !to_digit16_hex by lia. f_equal. rewrite (Z.mod_small (b / 16)).
  - pose proof (Z.div_mod b 16). lia.
  - split; [apply Z.div_pos; int_lia|apply Z.div_lt_upper_bound; int_lia].
Qed.

(** [from_hex] inverts [to_hex]. *)
Lemma from_hex_hex bs : Forall in_u8 bs -> from_hex (hex bs) = Ok bs.
Proof.
  intros Hbs. unfold from_hex. rewrite len_hex, Z.mul_comm, Z.mod_mul by lia.
  change (negb (0 =? 0)) with false. cbv iota.
  induction Hbs as [|b bs Hb Hbs IH]; [done|]. change (hex (b :: bs)) with (hex_fixed 2 b ++ hex bs).
  destruct (u8_from_hex b Hb) as (x & y & -> & Hx & Hy & Hu). cbn [app hex_pairs].
  assert (char_boundary (x :: y :: hex bs) = true) as ->.
  { simpl. destruct (Z.leb_spec 128 x); [lia|done]. }
  assert (char_boundary (hex bs) = true) as ->.
  { destruct Hbs as [|c cs Hc _]; [done|]. change (hex (c :: cs)) with (hex_fixed 2 c ++ hex cs).
    destruct (u8_from_hex c Hc) as (x' & y' & -> & Hx' & _). simpl. destruct (Z.leb_spec 128 x'); [lia|done]. }
  cbn [andb]. rewrite Hu. cbn [ok_or obind]. by rewrite IH.
Qed.

Lemma json_hex_ok (v : AnchorJson) f bs : v f = JString (hex bs) -> Forall in_u8 bs -> json_hex v f = Ok bs.
Proof. intros Hf Hb. unfold json_hex. rewrite Hf. by apply from_hex_hex. Qed.

Lemma json_u64_ok (v : AnchorJson) f n : v f = JNumber n -> in_u64 n -> json_u64 v f = Ok n.
Proof.
  intros Hf Hn. unfold json_u64. rewrite Hf. rewrite (proj2 (Z.leb_le 0 n)), (proj2 (Z.leb_le n u64_MAX)); [done|..]; int_lia.
Qed.

Lemma sized_ok f (n : nat) bs : array_typed n bs -> sized f (Z.of_nat n) bs = Ok bs.
Proof. intros [_ Hl]. unfold sized, len. by rewrite Hl, Z.eqb_refl. Qed.

Lemma sized_inv f n bs bs' : sized f n bs = Ok bs' -> bs' = bs /\ len bs = n.
Proof. unfold sized. destruct (Z.eqb_spec (len bs) n); [|discriminate]. by intros [= ->]. Qed.

(** The signed message determines the payload. *)
Lemma message_inj p q :
  length (an_chain_head p) = 32%nat -> length (an_chain_head q) = 32%nat ->
  length (an_state_hash p) = 32%nat -> length (an_state_hash q) = 32%nat ->
  in_u64 (an_event_count p) -> in_u64 (an_event_count q) ->
  in_u64 (an_anchored_at_unix p) -> in_u64 (an_anchored_at_unix q) ->
  message p = message q -> p = q.
Proof.
  intros Lp Lq Sp Sq Cp Cq Tp Tq. unfold message. intros E1. apply app_inv_head in E1.
  apply app_inj_1 in E1 as [E2 E1]; [|congruence]. apply app_inj_1 in E1 as [E3 E1]; [|by rewrite !length_le_bytes].
  apply app_inj_1 in E1 as [E4 E5]; [|congruence].
  apply (f_equal le_val) in E3, E5. rewrite !le_val_small in E3, E5 by int_lia.
  destruct p, q; simpl in *. by subst.
Qed.

(** ** Theorems *)
Section Theorems.
Context `{Ed25519Laws}.

Lemma sign_then_verify p key note :
  anchor_typed p ->
  exists v, sign_to_json p key note = Ok v
    /\ forall v' : AnchorJson, (forall f, v' f = v f) -> verify_json v' = Ok (p, verifying_key key).
Proof.
  intros (Hc & He & Hs & Ht). unfold sign_to_json. destruct (format_utc_returns (an_anchored_at_unix p)) as [text ->]; [int_lia|].
  cbn [obind]. eexists. split; [reflexivity|]. intros v' Hv. unfold verify_json.
  rewrite (json_hex_ok v' FChainHead (an_chain_head p)) by (first [apply Hv|by destruct Hc]). cbn [obind].
  rewrite (json_hex_ok v' FStateHash (an_state_hash p)) by (first [apply Hv|by destruct Hs]). cbn [obind].
  pose proof (key_typed key) as Hk. rewrite (json_hex_ok v' FPublicKey (verifying_key key)) by (first [apply Hv|by destruct Hk]).
  cbn [obind]. pose proof (sig_typed key (message p)) as Hsg.
  rewrite (json_hex_ok v' FSignature (sign key (message p))) by (first [apply Hv|by destruct Hsg]). cbn [obind].
  rewrite (json_u64_ok v' FEventCount (an_event_count p)) by (first [apply Hv|done]). cbn [obind].
  rewrite (json_u64_ok v' FAnchoredAtUnix (an_anchored_at_unix p)) by (first [apply Hv|done]). cbn [obind].
  rewrite (sized_ok FChainHead 32), (sized_ok FStateHash 32), (sized_ok FPublicKey 32), (sized_ok FSignature 64) by done.
  cbn [obind]. rewrite key_valid. cbn [obind]. destruct p. cbn [an_chain_head an_event_count an_state_hash an_anchored_at_unix] in *.
  by rewrite sig_verifies.
Qed.

Context `{Bincode} (blake3 : list Z -> list Z) (crc32 : list Z -> Z) `{AnchorTextLaws}.

Definition anchor_of (summary : LogSummary) (now : Z) : AnchorPayload :=
  mkAnchor (su_chain_head summary) (su_event_count summary) (su_state_hash summary) now.

(** For every log that replays, the create command writes an anchor file next
    to it and changes no other file, and the verify command with the signer's
    public key then accepts log and anchor. *)
Theorem anchored_log_verifies (now : Z) (fs : Fs) (log : name) (key : SigningKey) (note : option (list Z))
    (summary : LogSummary) (trust_embedded : bool) :
  replay_log blake3 crc32 fs log = Ok summary -> anchor_typed (anchor_of summary now) ->
  with_extension log anchor_extension <> log ->
  exists fs',
    cmd_create blake3 crc32 now fs log key note = (fs', Ok ExitSuccess)
    /\ (forall n, n <> with_extension log anchor_extension -> fs' !! n = fs !! n)
    /\ cmd_verify blake3 crc32 fs' log (with_extension log anchor_extension) (Some (verifying_key key)) trust_embedded
       = Ok ExitSuccess.
Proof.
  intros Hr Ht Hne. unfold cmd_create. rewrite Hr. fold (anchor_of summary now).
  destruct (sign_then_verify (anchor_of summary now) key note Ht) as (v & -> & Hv).
  eexists. split; [reflexivity|]. split; [intros n Hn; by rewrite lookup_insert_ne|].
  unfold cmd_verify. rewrite bool_decide_true by done. cbn [negb andb]. rewrite lookup_insert_eq. cbn [ok_or or_exit].
  destruct (text_roundtrip v) as (v' & -> & Hv'). cbn [ok_or or_exit]. rewrite (Hv v' Hv'). cbn [or_exit].
  rewrite bool_decide_true by done. cbn [negb].
  assert (replay_log blake3 crc32 (<[with_extension log anchor_extension := to_text v]> fs) log
          = replay_log blake3 crc32 fs log) as -> by (unfold replay_log; by rewrite lookup_insert_ne).
  rewrite Hr. cbn [or_exit]. rewrite !bool_decide_true by done. by rewrite Z.eqb_refl.
Qed.
End Theorems.

Lemma or_exit_success {E A} (o : outcome E A) k :
  or_exit o k = Ok ExitSuccess -> exists a, o = Ok a /\ k a = Ok ExitSuccess.
Proof. destruct o; try discriminate. intros Hk. by eexists. Qed.

Section Pins.
Context `{Ed25519} `{Bincode} (blake3 : list Z -> list Z) (crc32 : list Z -> Z) `{AnchorText}.

Lemma verify_json_ok v p pk :
  verify_json v = Ok (p, pk) ->
  length (an_chain_head p) = 32%nat /\ length (an_state_hash p) = 32%nat
  /\ in_u64 (an_event_count p) /\ in_u64 (an_anchored_at_unix p) /\ exists sig, ed_verify pk (message p) sig = true.
Proof.
  unfold verify_json, json_u64. destruct (json_hex v FChainHead) as [ch|e| |]; try discriminate.
  destruct (json_hex v FStateHash) as [sh|e| |]; try discriminate.
  destruct (json_hex v FPublicKey) as [k|e| |]; try discriminate.
  destruct (json_hex v FSignature) as [sg|e| |]; try discriminate. cbn [obind].
  destruct (v FEventCount) as [| |c]; try discriminate.
  destruct ((0 <=? c) && (c <=? u64_MAX)) eqn:Ec; [|discriminate]. cbn [obind].
  destruct (v FAnchoredAtUnix) as [| |t]; try discriminate.
  destruct ((0 <=? t) && (t <=? u64_MAX)) eqn:Et; [|discriminate]. cbn [obind].
  destruct (sized FChainHead 32 ch) as [ch'|e| |] eqn:E1; try discriminate. apply sized_inv in E1 as [-> L1].
  destruct (sized FStateHash 32 sh) as [sh'|e| |] eqn:E2; try discriminate. apply sized_inv in E2 as [-> L2].
  destruct (sized FPublicKey 32 k) as [k'|e| |] eqn:E3; try discriminate. apply sized_inv in E3 as [-> L3].
  destruct (sized FSignature 64 sg) as [sg'|e| |] eqn:E4; try discriminate. apply sized_inv in E4 as [-> L4].
  cbn [obind]. destruct (valid_key k); [|discriminate]. cbn [obind].
  destruct (ed_verify k _ sg) eqn:Ev; [|discriminate]. intros [= <- <-]. unfold len in *. bool_prop. simpl.
  split_and!; try lia; try int_lia. by exists sg.
Qed.

(** If under the trusted key only the messages of a given set of payloads
    verify, then a log the verify command accepts replays to the chain head, event
    count and state hash of one of these payloads: the signed message determines
    its payload. *)
Theorem anchor_pins_log (fs : Fs) (log anchor : name) (trusted : list Z) (trust_embedded : bool)
    (signed : list AnchorPayload) :
  Forall anchor_typed signed ->
  (forall m sig, ed_verify trusted m sig = true -> exists p, p ∈ signed /\ m = message p) ->
  cmd_verify blake3 crc32 fs log anchor (Some trusted) trust_embedded = Ok ExitSuccess ->
  exists p, p ∈ signed
    /\ exists trailing, replay_log blake3 crc32 fs log
                        = Ok (mkSummary (an_chain_head p) (an_event_count p) (an_state_hash p) trailing).
Proof.
  intros Hs Hu. unfold cmd_verify. rewrite bool_decide_true by done. cbn [negb andb].
  intros (text & _ & Hv)%or_exit_success. apply or_exit_success in Hv as (json & _ & Hv).
  apply or_exit_success in Hv as ([p pk] & Ej & Hv). case_bool_decide as Ek; [|discriminate]. cbn [negb] in Hv. subst pk.
  apply or_exit_success in Hv as (summary & Er & Hv).
  destruct (bool_decide _ && bool_decide _ && _) eqn:Eq; [|discriminate].
  apply andb_true_iff in Eq as [[E1 E2]%andb_true_iff E3]. apply bool_decide_eq_true in E1, E2. apply Z.eqb_eq in E3.
  destruct (verify_json_ok _ _ _ Ej) as (L1 & L2 & C1 & T1 & sig & Hsig).
  destruct (Hu _ _ Hsig) as (q & Hq & Em). assert (p = q) as ->.
  { rewrite Forall_forall in Hs. destruct (Hs q Hq) as ([_ ?] & ? & [_ ?] & ?). by apply message_inj. }
  exists q. split; [done|]. exists (su_trailing_bytes summary). rewrite Er. destruct summary; simpl in *. by subst.
Qed.
End Pins.

(** ** Concrete runs *)
Section Demo.
#[local] Existing Instance FixedInt.bincode.
#[local] Existing Instance FixedInt.laws.

#[local] Instance JsonValue_eq_dec : EqDecision JsonValue.
Proof. solve_decision. Defined.
#[local] Instance JsonValue_countable : Countable JsonValue.
Proof.
  refine (inj_countable'
    (fun v => match v with JNull => None | JString s => Some (inl s) | JNumber n => Some (inr n) end : option (list Z + Z))
    (fun o => match o with None => JNull | Some (inl s) => JString s | Some (inr n) => JNumber n end) _).
  by intros [].
Defined.

Definition fields : list AnchorField :=
  [FSchemaVersion; FChainHead; FEventCount; FStateHash; FAnchoredAt; FAnchoredAtUnix; FPublicKey; FSignature; FNote].
Definition field_no (f : AnchorField) : nat :=
  match f with
  | FSchemaVersion => 0 | FChainHead => 1 | FEventCount => 2 | FStateHash => 3 | FAnchoredAt => 4
  | FAnchoredAtUnix => 5 | FPublicKey => 6 | FSignature => 7 | FNote => 8
  end.

(** A text is one number that codes the nine values. *)
#[local] Instance demo_text : AnchorText := {|
  to_text v := [Zpos (encode (v <$> fields))];
  from_text s :=
    match s with
    | [Zpos p] => (fun vs f => default JNull (vs !! field_no f)) <$> (decode p : option (list JsonValue))
    | _ => None
    end
|}.
#[local] Instance demo_text_laws : AnchorTextLaws.
Proof.
  split. intros v. cbn [to_text from_text demo_text]. rewrite decode_encode. eexists. split; [reflexivity|].
  by intros [].
Qed.

(** One key pair; a signature is a digest of the message, twice. *)
#[local] Instance demo_ed : Ed25519 := {|
  SigningKey := unit;
  verifying_key _ := replicate 32 7;
  sign _ m := demo_hash m ++ demo_hash m;
  valid_key pk := bool_decide (pk = replicate 32 7);
  ed_verify pk m s := bool_decide (pk = replicate 32 7 /\ s = demo_hash m ++ demo_hash m)
|}.
#[local] Instance demo_ed_laws : Ed25519Laws.
Proof.
  split.
  - intros k. split; [apply Forall_replicate; int_lia|done].
  - intros k m. split; [apply Forall_app; split; apply demo_hash_typed|]. cbn [sign demo_ed].
    rewrite length_app. by rewrite !(proj2 (demo_hash_typed m)).
  - intros k. by apply bool_decide_eq_true.
  - intros k m. by apply bool_decide_eq_true.
Qed.

Definition demo_summary : LogSummary :=
  match replay_log demo_hash toy_crc demo_files log_name with Ok s => s | _ => mkSummary [] 0 [] 0 end.

Lemma demo_anchor_typed : anchor_typed (anchor_of demo_summary 1700000009).
Proof.
  assert (forall bs, forallb (fun b => (0 <=? b) && (b <=? 255)) bs = true -> Forall in_u8 bs) as Hb.
  { intros bs. induction bs as [|b bs IH]; [constructor|]. cbn [forallb]. intros [Hb Hbs]%andb_true_iff.
    constructor; [|auto]. bool_prop. int_lia. }
  split; [split; [apply Hb|]; vm_compute; reflexivity|]. split; [vm_compute; split; discriminate|].
  split; [split; [apply Hb|]; vm_compute; reflexivity|]. simpl. int_lia.
Qed.

Lemma anchored_log_verifies_witness :
  exists fs',
    cmd_create demo_hash toy_crc 1700000009 demo_files log_name (tt : @SigningKey demo_ed) None = (fs', Ok ExitSuccess)
    /\ (forall n, n <> with_extension log_name anchor_extension -> fs' !! n = demo_files !! n)
    /\ cmd_verify demo_hash toy_crc fs' log_name (with_extension log_name anchor_extension)
         (Some (replicate 32 7)) false = Ok ExitSuccess.
Proof.
  apply (anchored_log_verifies demo_hash toy_crc 1700000009 demo_files log_name (tt : @SigningKey demo_ed) None demo_summary false).
  - vm_compute. reflexivity.
  - exact demo_anchor_typed.
  - vm_compute. discriminate.
Defined.

(** Under the key [replicate 32 7] only the anchor of the demo log was signed. *)
Definition demo_anchor : AnchorPayload := anchor_of demo_summary 1700000009.
Definition one_signature : Ed25519 := {|
  SigningKey := unit;
  verifying_key _ := replicate 32 7;
  sign _ m := replicate 64 1;
  valid_key _ := true;
  ed_verify _ m _ := bool_decide (m = message demo_anchor)
|}.
Definition demo_json : AnchorJson :=
  match sign_to_json demo_anchor (tt : @SigningKey demo_ed) None with Ok v => v | _ => fun _ => JNull end.
Definition one_text : AnchorText := {| to_text _ := [1]; from_text _ := Some demo_json |}.
Definition anchored_files : Fs := <[ [97] := [1] ]> demo_files.

Lemma anchor_pins_log_witness :
  exists p, p ∈ [demo_anchor]
    /\ exists trailing, replay_log demo_hash toy_crc anchored_files log_name
                        = Ok (mkSummary (an_chain_head p) (an_event_count p) (an_state_hash p) trailing).
Proof.
  apply (@anchor_pins_log one_signature _ demo_hash toy_crc one_text anchored_files log_name [97] (replicate 32 7) false
           [demo_anchor]).
  - apply Forall_singleton. exact demo_anchor_typed.
  - intros m sig Hm. apply bool_decide_eq_true in Hm. exists demo_anchor. split; [apply list_elem_of_singleton; reflexivity|exact Hm].
  - vm_compute. reflexivity.
Defined.
End Demo.
