(* ===== verification/Wal.v ===== *)
(** * The write-ahead log and bootstrap

    Models [crates/valori-storage/src/wal_writer.rs], [wal_reader.rs] and
    [wal_compat.rs] (the legacy command log: a 16-byte header, then a stream of
    bincode values with no framing) and [crates/valori-state/src/bootstrap.rs]
    (replay of the log onto a kernel, loading and validating snapshots).

    The directory is the map [Fs] of [EventLog]; every append flushes its
    buffer.  [decode_from_std_read] is the codec's reader run on what is left of
    the file; its end-of-input error is [UnexpectedEnd].  A hasher is the list of
    bytes it was fed. *)

From S2P Require Import Prelude.
From S2P Require Import Core.
From S2P Require Import Fxp.
From S2P Require Import Records.
From S2P Require Import Event.
From S2P Require Import Kernel.
From S2P Require Import Bytes.
From S2P Require Import Snapshot.
From S2P Require Import StateProof.
From S2P Require Import EventCodec.
From S2P Require Import Wire.
From S2P Require Import EventLog.
From S2P Require Import EventCommit.

(** ** Header *)
Definition WAL_VERSION : Z := 2.
Definition WAL_HEADER_SIZE : Z := 16.

Record WalHeader : Type := mkWalHeader {
  wh_version : Z;
  wh_encoding_version : Z;
  wh_dim : Z;
  wh_checksum_len : Z;
}.

Definition WalHeader_read (buf : list Z) : option (WalHeader * list Z) :=
  if len buf <? WAL_HEADER_SIZE then None
  else Some (mkWalHeader (le_val (slice buf 0 4)) (le_val (slice buf 4 8)) (le_val (slice buf 8 12))
               (le_val (slice buf 12 16)), drop 16 buf).

Definition wal_header (dim : Z) : list Z :=
  le_bytes 4 WAL_VERSION ++ le_bytes 4 0 ++ le_bytes 4 dim ++ le_bytes 4 0.

(** ** Legacy commands *)
Inductive LegacyWalCommand : Type :=
| LInsertRecord (namespace_id id : Z) (vector : FxpVector) (metadata : option (list Z)) (tag : Z)
| LDeleteRecord (id : Z)
| LCreateNode (namespace_id node_id : Z) (kind : NodeKind) (record : option Z)
| LCreateEdge (edge_id : Z) (kind : EdgeKind) (from to : Z)
| LDeleteNode (node_id : Z)
| LDeleteEdge (edge_id : Z)
| LSoftDeleteRecord (id : Z)
| LCreateNamespace (namespace_id : Z)
| LDropNamespace (namespace_id : Z)
| LInsertRecordEncrypted (namespace_id id : Z) (key_id ciphertext : list Z) (tag : Z)
| LShredKey (key_id : list Z).

Definition legacy_to_event (cmd : LegacyWalCommand) : KernelEvent * Z :=
  match cmd with
  | LInsertRecord namespace_id id vector metadata tag => (InsertRecord id vector metadata tag, namespace_id)
  | LDeleteRecord id => (DeleteRecord id, 0)
  | LSoftDeleteRecord id => (SoftDeleteRecord id, 0)
  | LCreateNode namespace_id node_id kind record => (CreateNode node_id kind record, namespace_id)
  | LCreateEdge edge_id kind from to => (CreateEdge edge_id from to kind, 0)
  | LDeleteNode node_id => (DeleteNode node_id, 0)
  | LDeleteEdge edge_id => (DeleteEdge edge_id, 0)
  | LCreateNamespace namespace_id => (AutoCreateNamespace [], namespace_id)
  | LDropNamespace namespace_id => (DropNamespace [], namespace_id)
  | LInsertRecordEncrypted namespace_id id key_id ciphertext tag =>
      (InsertRecordEncrypted id key_id ciphertext None tag, namespace_id)
  | LShredKey key_id => (ShredKey key_id, 0)
  end.

Section Codec.
Context `{Bincode}.

(** The derived serde of [LegacyWalCommand]. *)
Definition put_LegacyWalCommand (cmd : LegacyWalCommand) : list Z :=
  match cmd with
  | LInsertRecord ns id vector metadata tag =>
      put_variant 0 ++ put_u16 ns ++ put_u32 id ++ put_vector vector ++ put_option put_bytes metadata ++ put_u64 tag
  | LDeleteRecord id => put_variant 1 ++ put_u32 id
  | LCreateNode ns id kind record =>
      put_variant 2 ++ put_u16 ns ++ put_u32 id ++ put_NodeKind kind ++ put_option put_u32 record
  | LCreateEdge id kind from to => put_variant 3 ++ put_u32 id ++ put_EdgeKind kind ++ put_u32 from ++ put_u32 to
  | LDeleteNode id => put_variant 4 ++ put_u32 id
  | LDeleteEdge id => put_variant 5 ++ put_u32 id
  | LSoftDeleteRecord id => put_variant 6 ++ put_u32 id
  | LCreateNamespace ns => put_variant 7 ++ put_u16 ns
  | LDropNamespace ns => put_variant 8 ++ put_u16 ns
  | LInsertRecordEncrypted ns id key ct tag =>
      put_variant 9 ++ put_u16 ns ++ put_u32 id ++ put_array key ++ put_bytes ct ++ put_u64 tag
  | LShredKey key => put_variant 10 ++ put_array key
  end.

Definition get_LegacyWalCommand : R LegacyWalCommand :=
  let* variant := get_variant in
  match variant with
  | 0 =>
      let* ns := get_u16 in let* id := get_u32 in let* vector := get_vector in
      let* metadata := get_option get_bytes in let* tag := get_u64 in sret (LInsertRecord ns id vector metadata tag)
  | 1 => let* id := get_u32 in sret (LDeleteRecord id)
  | 2 =>
      let* ns := get_u16 in let* id := get_u32 in let* kind := get_NodeKind in
      let* record := get_option get_u32 in sret (LCreateNode ns id kind record)
  | 3 =>
      let* id := get_u32 in let* kind := get_EdgeKind in let* from := get_u32 in
      let* to := get_u32 in sret (LCreateEdge id kind from to)
  | 4 => let* id := get_u32 in sret (LDeleteNode id)
  | 5 => let* id := get_u32 in sret (LDeleteEdge id)
  | 6 => let* id := get_u32 in sret (LSoftDeleteRecord id)
  | 7 => let* ns := get_u16 in sret (LCreateNamespace ns)
  | 8 => let* ns := get_u16 in sret (LDropNamespace ns)
  | 9 =>
      let* ns := get_u16 in let* id := get_u32 in let* key := get_array 16 in
      let* ct := get_bytes in let* tag := get_u64 in sret (LInsertRecordEncrypted ns id key ct tag)
  | 10 => let* key := get_array 16 in sret (LShredKey key)
  | _ => sthrow OtherError
  end.

(** The pair [(KernelEvent, u16)]. *)
Definition put_pair (p : KernelEvent * Z) : list Z := put_KernelEvent p.1 ++ put_u16 p.2.
Definition get_pair : R (KernelEvent * Z) := let* e := get_KernelEvent in let* ns := get_u16 in sret (e, ns).
End Codec.

(** ** Writer *)
Inductive WalError : Type :=
| WalIo
| WrongWalVersion (v : Z)
| WalTooShort.

Record WalWriter : Type := mkWalWriter {
  ww_path : name;
  ww_bytes_written : Z;
  ww_dim : Z;
}.

(** [OpenOptions::create(true).append(true)] creates a missing file. *)
Definition WalWriter_open (path : name) (dim : Z) (fs : Fs) : Fs * outcome WalError WalWriter :=
  let content := default [] (fs !! path) in
  let fs := <[path := content]> fs in
  let file_len := len content in
  if WAL_HEADER_SIZE <=? file_len then
    let version := le_val (slice content 0 4) in
    if negb (version =? WAL_VERSION) then (fs, Err (WrongWalVersion version))
    else (fs, Ok (mkWalWriter path file_len dim))
  else if file_len =? 0 then
    (fs_append path (wal_header dim) fs, Ok (mkWalWriter path WAL_HEADER_SIZE dim))
  else (fs, Err WalTooShort).

Section Wal.
Context `{Bincode} (blake3 : list Z -> list Z) (crc32 : list Z -> Z).

Definition append_event (event : KernelEvent) (namespace_id : Z) (w : WalWriter) (fs : Fs) : Fs * WalWriter :=
  let bytes := put_pair (event, namespace_id) in
  (fs_append (ww_path w) bytes fs,
   mkWalWriter (ww_path w) (wrap_u64 (ww_bytes_written w + len bytes)) (ww_dim w)).

(** ** Reader *)
Inductive WalReaderError : Type :=
| WReadIo
| Deserialization (e : DecodeError)
| UnsupportedWalVersion (v : Z)
| WalDimMismatch (file expected : Z).

Record WalReader : Type := mkWalReader {
  wr_rest : list Z;
  wr_version : Z;
  wr_header_read : bool;
  wr_expected_dim : option Z;
}.

Definition WalReader_open (fs : Fs) (path : name) (expected_dim : option Z) : outcome WalReaderError WalReader :=
  do* content := ok_or (fs !! path) WReadIo in Ok (mkWalReader content 0 false expected_dim).

Abbreviation WM A := (M WalReaderError WalReader A).

(** [read_exact] on a short file consumes what there is. *)
Definition read_header : WM unit :=
  fun r =>
    if len (wr_rest r) <? WAL_HEADER_SIZE then
      (mkWalReader [] (wr_version r) (wr_header_read r) (wr_expected_dim r), Err WReadIo)
    else
      let r' := mkWalReader (drop 16 (wr_rest r)) (wr_version r) (wr_header_read r) (wr_expected_dim r) in
      match WalHeader_read (take 16 (wr_rest r)) with
      | None => (r', Err WReadIo)
      | Some (header, _) =>
          if negb (wh_version header =? 1) && negb (wh_version header =? 2) then
            (r', Err (UnsupportedWalVersion (wh_version header)))
          else if (match wr_expected_dim r with
                   | Some expected => negb (wh_dim header =? 0) && negb (wh_dim header =? expected)
                   | None => false
                   end)
          then (r', Err (WalDimMismatch (wh_dim header) (default 0 (wr_expected_dim r))))
          else (mkWalReader (drop 16 (wr_rest r)) (wh_version header) true (wr_expected_dim r), Ok tt)
      end.

(** [decode_from_std_read] of one value; end of input is a clean end. *)
Definition read_value {A} (g : R A) (f : A -> KernelEvent * Z) : WM (option (KernelEvent * Z)) :=
  fun r =>
    let '(rest, o) := g (wr_rest r) in
    let r' := mkWalReader rest (wr_version r) (wr_header_read r) (wr_expected_dim r) in
    match o with
    | Ok a => (r', Ok (Some (f a)))
    | Err UnexpectedEnd => (r', Ok None)
    | Err e => (r', Err (Deserialization e))
    | Panic => (r', Panic)
    | Hang => (r', Hang)
    end.

Definition read_entry : WM (option (KernelEvent * Z)) :=
  let* r := sget in
  (if wr_header_read r then sret tt else read_header) ;;;
  let* r := sget in
  if wr_version r =? 1 then read_value get_LegacyWalCommand legacy_to_event
  else if wr_version r =? 2 then read_value get_pair id
  else sthrow (UnsupportedWalVersion (wr_version r)).

(** [WalEntryIterator::next] *)
Definition wal_next : WM (option (KernelEvent * Z)) :=
  let* r := sget in
  match wr_rest r with
  | [] => sret None
  | _ => read_entry
  end.

(** ** Replay *)
Inductive StateError : Type :=
| StKernel (e : KernelError)
| WalOpenFailed (e : WalReaderError)
| WalReadFailed (e : WalReaderError)
| ReplayFailed (e : ReplayError)
| SnapshotDecodeFailed (e : KernelError)
| StIo.

(** The loop over the iterator.  [fuel] bounds its turns. *)
Fixpoint replay_wal_loop (fuel : nat) (r : WalReader) (count : Z) (hasher : list Z) (state : KernelState)
    : KernelState * outcome StateError (Z * list Z) :=
  match fuel with
  | O => (state, Hang)
  | S fuel =>
      match wal_next r with
      | (r, Ok (Some (evt, ns))) =>
          match apply_event_ns evt ns state with
          | (state, Ok _) => replay_wal_loop fuel r (count + 1) (hasher ++ put_pair (evt, ns)) state
          | (state, Err e) => (state, Err (StKernel e))
          | (state, Panic) => (state, Panic)
          | (state, Hang) => (state, Hang)
          end
      | (_, Ok None) => (state, Ok (count, hasher))
      | (_, Err e) => (state, Err (WalReadFailed e))
      | (_, Panic) => (state, Panic)
      | (_, Hang) => (state, Hang)
      end
  end.

(** [dim as u32] of the state's dimension. *)
Definition replay_wal (fs : Fs) (wal_path : name) (state : KernelState)
    : KernelState * outcome StateError (Z * list Z) :=
  let dim := wrap_u32 <$> ks_dim state in
  match WalReader_open fs wal_path dim with
  | Ok reader =>
      let hasher := le_bytes 4 1 ++ le_bytes 4 0 ++ le_bytes 4 (default 0 dim) ++ le_bytes 4 0 in
      replay_wal_loop (S (length (wr_rest reader))) reader 0 hasher state
  | Err e => (state, Err (WalOpenFailed e))
  | Panic => (state, Panic)
  | Hang => (state, Hang)
  end.

(** ** Bootstrap *)
Definition recover_from_events (fs : Fs) (listing : list name) (path : name)
    : outcome StateError (KernelState * EventJournal * Z) :=
  map_err ReplayFailed (recover_from_event_log blake3 crc32 fs listing path).

(** [exists() && metadata().len() >= 16], of a log or a WAL. *)
Definition has_event_log (fs : Fs) (path : name) : bool :=
  match fs !! path with Some content => 16 <=? len content | None => false end.
Definition has_wal (fs : Fs) (path : name) : bool :=
  match fs !! path with Some content => WAL_HEADER_SIZE <=? len content | None => false end.

Definition load_snapshot (fs : Fs) (path : name) : outcome StateError KernelState :=
  do* data := ok_or (fs !! path) StIo in
  map_err SnapshotDecodeFailed (decode_state data).

Definition validate_snapshot (fs : Fs) (path : name) (replayed_state : KernelState) : outcome StateError bool :=
  match fs !! path with
  | None => Ok true
  | Some data =>
      do* snapshot_state := map_err SnapshotDecodeFailed (decode_state data) in
      Ok (verify_snapshot_consistency blake3 snapshot_state replayed_state)
  end.
End Wal.
