(* ===== verification/WalTheorems.v ===== *)
(** * Theorems about the write-ahead log

    A WAL written in any number of sessions and cut at any byte after its
    header replays the longest prefix of whole entries, in order; legacy files
    replay the events their commands translate to. *)

From S2P Require Import Prelude.
From S2P Require Import Core.
From S2P Require Import Fxp.
From S2P Require Import Records.
From S2P Require Import Event.
From S2P Require Import Kernel.
From S2P Require Import Bytes.
From S2P Require Import StateProof.
From S2P Require Import EventCodec.
From S2P Require Import Wire.
From S2P Require Import EventLog.
From S2P Require Import EventLogTheorems.
From S2P Require Import EventCommit.
From S2P Require Import CommitProofs.
From S2P Require Import CommitTheorems.
From S2P Require Import Wal.

(** Two values that a reader tells apart have non-empty encodings. *)
Lemma pair_decodes_nonempty {A} (r : R A) a b bs bs' :
  decodes r bs a -> decodes r bs' b -> a <> b -> bs <> [].
Proof.
  intros [Ha _] [Hb _] Hne ->. specialize (Ha bs'). specialize (Hb []). rewrite app_nil_r in Hb.
  simpl in Ha. rewrite Hb in Ha. by injection Ha.
Qed.

(** ** Streams

    [enc] writes values that [g] reads back; [f] is what an entry stands for. *)
Section Streams.
Context `{BincodeLaws} {A : Type} (g : R A) (enc : A -> list Z) (f : A -> KernelEvent * Z).

Definition readable (x : A) : Prop := decodes g (enc x) x /\ enc x <> [].
Definition stream (xs : list A) : list Z := concat (enc <$> xs).

(** What a crash may leave behind the last whole entry. *)
Definition cut_off (tail : list Z) : Prop :=
  tail = [] \/ exists x n, readable x /\ (n < length (enc x))%nat /\ tail = take n (enc x).

Lemma stream_cut xs n :
  Forall readable xs ->
  exists j tail, (j <= length xs)%nat /\ take n (stream xs) = stream (take j xs) ++ tail /\ cut_off tail
    /\ (length (stream (take j xs)) <= n)%nat
    /\ (j = length xs \/ n < length (stream (take (S j) xs)))%nat.
Proof.
  intros Hxs. revert n. induction Hxs as [|x xs Hx Hxs IH]; intros n.
  { exists O, []. unfold stream. simpl. rewrite take_nil. split_and!; try done; [by left|lia|by left]. }
  change (stream (x :: xs)) with (enc x ++ stream xs).
  destruct (decide (n < length (enc x))%nat) as [Hlt|Hge].
  - exists O, (take n (enc x)). cbn [take]. rewrite take_app_le by lia.
    split_and!; [lia|done|right; by exists x, n|unfold stream; simpl; lia|right].
    unfold stream. cbn. rewrite take_0, app_nil_r. lia.
  - destruct (IH (n - length (enc x))%nat) as (j & tail & Hj & E1 & Ht & Hlo & Hhi).
    exists (S j), tail. rewrite take_app_ge, E1 by lia. cbn [take].
    change (stream (x :: take j xs)) with (enc x ++ stream (take j xs)). rewrite app_assoc, length_app.
    split_and!; [simpl; lia|done|done|lia|]. destruct Hhi as [-> |Hhi]; [by left|right].
    destruct xs as [|y xs]; [simpl in Hj; replace j with O in * by lia; simpl in Hhi; lia|].
    change (stream (x :: take (S j) (y :: xs))) with (enc x ++ stream (take (S j) (y :: xs))). rewrite length_app. lia.
Qed.

(** The replay of entries on a state. *)
Definition replayed (hasher : list Z) (count : Z) (ps : list (KernelEvent * Z)) (s : KernelState)
    : KernelState * outcome StateError (Z * list Z) :=
  match replay_from (prod_swap <$> ps) s with
  | (s', Ok _) => (s', Ok (count + len ps, hasher ++ concat (put_pair <$> ps)))
  | (s', Err e) => (s', Err (StKernel e))
  | (s', Panic) => (s', Panic)
  | (s', Hang) => (s', Hang)
  end.

(** A reader past its header reads values with [g]. *)
Definition reads_with (version : Z) : Prop :=
  forall rest exp, read_entry (mkWalReader rest version true exp) = read_value g f (mkWalReader rest version true exp).

Lemma replay_stream v exp : reads_with v ->
  forall xs tail fuel count hasher s,
  Forall readable xs -> cut_off tail -> (length xs < fuel)%nat ->
  replay_wal_loop fuel (mkWalReader (stream xs ++ tail) v true exp) count hasher s
  = replayed hasher count (f <$> xs) s.
Proof.
  intros Hv xs tail fuel count hasher s Hxs Ht. revert fuel count hasher s.
  induction Hxs as [|x xs [Hd Hne] Hxs IH]; intros fuel count hasher s Hf; (destruct fuel as [|fuel]; [simpl in Hf; lia|]).
  - cbn [replay_wal_loop]. change (stream [] ++ tail) with tail. unfold replayed. cbn [fmap list_fmap replay_from sret].
    rewrite app_nil_r. change (len (@nil (KernelEvent * Z))) with 0. rewrite Z.add_0_r.
    unfold wal_next, sbind, sget. cbn [wr_rest]. destruct Ht as [-> |(y & n & [[_ Hc] _] & Hn & ->)]; [done|].
    specialize (Hc n Hn). destruct (take n (enc y)) as [|b t]; [done|]. rewrite Hv.
    unfold read_value. cbn [wr_rest]. destruct (g (b :: t)) as [rest o]. simpl in Hc. by subst o.
  - cbn [replay_wal_loop]. change (stream (x :: xs)) with (enc x ++ stream xs).
    rewrite <- app_assoc. unfold wal_next. unfold sbind at 1, sget. cbn [wr_rest].
    destruct (enc x ++ stream xs ++ tail) as [|b t] eqn:Eb; [by apply app_eq_nil in Eb as [? _]|]. rewrite <- Eb, Hv.
    unfold read_value. cbn [wr_rest wr_version wr_header_read wr_expected_dim]. destruct Hd as [Hr _]. rewrite Hr.
    unfold replayed. rewrite fmap_cons. destruct (f x) as [evt ns]. rewrite (fmap_cons prod_swap).
    cbn [prod_swap fst snd replay_from]. unfold sbind. destruct (apply_event_ns evt ns s) as [s1 [u|e| |]]; try done.
    rewrite IH by (simpl in Hf; lia). unfold replayed.
    destruct (replay_from _ s1) as [s2 [u2|e| |]]; try done.
    rewrite len_cons, Z.add_assoc, (fmap_cons put_pair). cbn [concat]. by rewrite app_assoc.
Qed.
End Streams.

(** ** Entries *)
Section Entries.
Context `{BincodeLaws}.

Definition pair_typed (p : KernelEvent * Z) : Prop := event_typed p.1 /\ in_u16 p.2.

Lemma pair_readable p : pair_typed p -> readable get_pair put_pair p.
Proof.
  intros [He Hn]. destruct p as [e ns]. cbn [fst snd] in *. unfold readable, put_pair, get_pair. cbn [fst snd]. split.
  - eapply decodes_bind; [by apply KernelEvent_ok|]. by apply (decodes_last get_u16 (pair e)), u16_ok.
  - intros [_ E1]%app_eq_nil. revert E1.
    destruct (decide (ns = 0)) as [->|]; [apply (pair_decodes_nonempty get_u16 0 1 _ (put_u16 1))|
      apply (pair_decodes_nonempty get_u16 ns 0 _ (put_u16 0))]; try apply u16_ok; try done; int_lia.
Qed.

(** The legacy commands a Rust value can be. *)
Definition legacy_typed (c : LegacyWalCommand) : Prop :=
  match c with
  | LInsertRecord ns id v m tag =>
      in_u16 ns /\ in_u32 id /\ Forall in_i32 v /\ len v <= u64_MAX
      /\ (forall b, m = Some b -> bytes b /\ len b <= u64_MAX) /\ in_u64 tag
  | LDeleteRecord id | LDeleteNode id | LDeleteEdge id | LSoftDeleteRecord id => in_u32 id
  | LCreateNode ns id _ r => in_u16 ns /\ in_u32 id /\ opt_u32 r
  | LCreateEdge id _ from to => in_u32 id /\ in_u32 from /\ in_u32 to
  | LCreateNamespace ns | LDropNamespace ns => in_u16 ns
  | LInsertRecordEncrypted ns id key ct tag =>
      in_u16 ns /\ in_u32 id /\ array_typed 16 key /\ bytes ct /\ len ct <= u64_MAX /\ in_u64 tag
  | LShredKey key => array_typed 16 key
  end.

Lemma variant_nonempty v : in_u32 v -> put_variant v <> [].
Proof.
  intros Hv. destruct (decide (v = 0)) as [->|]; [apply (pair_decodes_nonempty get_variant 0 1 _ (put_variant 1))|
      apply (pair_decodes_nonempty get_variant v 0 _ (put_variant 0))]; try apply variant_ok; try done; int_lia.
Qed.

Lemma legacy_readable c : legacy_typed c -> readable get_LegacyWalCommand put_LegacyWalCommand c.
Proof.
  intros Hc. split.
  - unfold get_LegacyWalCommand. destruct c; cbn [legacy_typed] in Hc; unfold put_LegacyWalCommand; destruct_and?;
      (eapply decodes_bind; [apply variant_ok; int_lia|]); cbv beta iota; fields; naive_solver eauto with codec.
  - destruct c; unfold put_LegacyWalCommand; intros [E1 _]%app_eq_nil; revert E1; apply variant_nonempty; int_lia.
Qed.

(** ** Files *)
Definition legacy_header (dim : Z) : list Z := le_bytes 4 1 ++ le_bytes 4 0 ++ le_bytes 4 dim ++ le_bytes 4 0.

Lemma reads_with_v2 : reads_with get_pair id 2.
Proof. intros rest exp. reflexivity. Qed.
Lemma reads_with_v1 : reads_with get_LegacyWalCommand legacy_to_event 1.
Proof. intros rest exp. reflexivity. Qed.

(** The first call reads the header, then goes on as if it had been read. *)
Lemma read_entry_fresh v dim rest :
  v = 1 \/ v = 2 ->
  read_entry (mkWalReader ((le_bytes 4 v ++ le_bytes 4 0 ++ le_bytes 4 dim ++ le_bytes 4 0) ++ rest) 0 false None)
  = read_entry (mkWalReader rest v true None).
Proof.
  intros Hv. set (hdr := le_bytes 4 v ++ _). assert (length hdr = 16%nat) as Hl by done.
  assert (read_header (mkWalReader (hdr ++ rest) 0 false None) = (mkWalReader rest v true None, Ok tt)) as Hh.
  { unfold read_header. cbn [wr_rest wr_expected_dim wr_version wr_header_read].
    assert (len (hdr ++ rest) <? WAL_HEADER_SIZE = false) as ->.
    { apply Z.ltb_ge. rewrite len_app. pose proof (len_nonneg rest). unfold len at 1. rewrite Hl. unfold WAL_HEADER_SIZE. lia. }
    assert (take 16 (hdr ++ rest) = hdr) as -> by (by apply take_app_length').
    assert (drop 16 (hdr ++ rest) = rest) as -> by (by apply drop_app_length').
    unfold WalHeader_read. assert (len hdr <? WAL_HEADER_SIZE = false) as -> by (unfold len; by rewrite Hl).
    cbn [wh_version wh_dim]. change (slice hdr 0 4) with (le_bytes 4 v).
    rewrite le_val_small by (destruct Hv as [->| ->]; simpl; lia). by destruct Hv as [->| ->]. }
  unfold read_entry at 1. unfold sbind at 1, sget. cbn [wr_header_read]. unfold sbind at 1. rewrite Hh. reflexivity.
Qed.

Lemma replay_file {A} (g : R A) enc f v dim xs tail fs path :
  (v = 1 \/ v = 2) -> reads_with g f v -> (g []).2 = Err UnexpectedEnd ->
  Forall (readable g enc) xs -> cut_off g enc tail ->
  fs !! path = Some ((le_bytes 4 v ++ le_bytes 4 0 ++ le_bytes 4 dim ++ le_bytes 4 0) ++ stream enc xs ++ tail) ->
  replay_wal fs path KernelState_new
  = replayed (le_bytes 4 1 ++ le_bytes 4 0 ++ le_bytes 4 0 ++ le_bytes 4 0) 0 (f <$> xs) KernelState_new.
Proof.
  intros Hv Hrw Hg Hxs Ht Hf. unfold replay_wal, WalReader_open. rewrite Hf. cbn [ok_or obind wr_rest].
  set (hdr := le_bytes 4 v ++ _) in *. cbn [ks_dim KernelState_new fmap option_fmap option_map default].
  set (hs := le_bytes 4 1 ++ _).
  assert (wal_next (mkWalReader (hdr ++ stream enc xs ++ tail) 0 false None)
          = read_value g f (mkWalReader (stream enc xs ++ tail) v true None)) as Hn.
  { unfold wal_next. unfold sbind at 1, sget. cbn [wr_rest]. unfold hdr at 1.
    rewrite <- Hrw, <- (read_entry_fresh v dim _ Hv). reflexivity. }
  destruct (stream enc xs ++ tail) as [|b t] eqn:Es.
  - apply app_eq_nil in Es as [Es ->]. destruct xs as [|x xs].
    2:{ inversion Hxs as [|? ? [_ Hx] _]; subst. by apply app_eq_nil in Es as [? _]. }
    cbn [replay_wal_loop]. rewrite Hn. unfold read_value. cbn [wr_rest]. destruct (g []) as [r o]. simpl in Hg. subst o.
    unfold replayed. cbn [fmap list_fmap replay_from sret concat]. by rewrite app_nil_r.
  - assert (wal_next (mkWalReader (b :: t) v true None) = read_value g f (mkWalReader (b :: t) v true None)) as Hn'.
    { unfold wal_next. unfold sbind at 1, sget. cbn [wr_rest]. apply Hrw. }
    transitivity (replay_wal_loop (S (length (hdr ++ b :: t))) (mkWalReader (b :: t) v true None) 0 hs KernelState_new).
    { cbn [replay_wal_loop]. by rewrite Hn, Hn'. }
    rewrite <- Es. apply (replay_stream g enc f); [done|done|done|].
    assert (length xs <= length (stream enc xs))%nat as Hl.
    { clear - Hxs. induction Hxs as [|x xs [_ Hx] _ IH]; [done|]. change (stream enc (x :: xs)) with (enc x ++ stream enc xs).
      rewrite length_app. destruct (enc x); [done|simpl; lia]. }
    rewrite !length_app. lia.
Qed.
End Entries.

(** ** Sessions

    A process opens the WAL and appends; the next one opens it again. *)
Section Sessions.
Context `{BincodeLaws}.

Definition wal_append (st : Fs * WalWriter) (p : KernelEvent * Z) : Fs * WalWriter := append_event p.1 p.2 st.2 st.1.
Definition wal_session (path : name) (dim : Z) (fs : Fs) (ps : list (KernelEvent * Z)) : Fs :=
  match WalWriter_open path dim fs with
  | (fs, Ok w) => (foldl wal_append (fs, w) ps).1
  | (fs, _) => fs
  end.
Definition wal_sessions (path : name) (dim : Z) (sessions : list (list (KernelEvent * Z))) (fs : Fs) : Fs :=
  foldl (wal_session path dim) fs sessions.

Lemma wal_append_content ps fs w content :
  fs !! ww_path w = Some content ->
  (foldl wal_append (fs, w) ps).1 !! ww_path w = Some (content ++ stream put_pair ps)
  /\ forall p, p <> ww_path w -> (foldl wal_append (fs, w) ps).1 !! p = fs !! p.
Proof.
  revert fs w content. induction ps as [|p ps IH]; intros fs w content Hf.
  { unfold stream. simpl. by rewrite app_nil_r. }
  cbn [foldl]. change (stream put_pair (p :: ps)) with (put_pair p ++ stream put_pair ps).
  unfold wal_append at 2 4, append_event. cbn [fst snd]. rewrite <- surjective_pairing.
  match goal with |- context [foldl wal_append (?f, ?w') ps] => destruct (IH f w' (content ++ put_pair p)) as [E1 E2] end.
  { cbn [ww_path]. unfold fs_append. rewrite lookup_insert_eq, Hf. done. }
  cbn [ww_path] in E1, E2. split; [by rewrite E1, <- app_assoc|]. intros q Hq. rewrite E2 by done.
  unfold fs_append. by rewrite lookup_insert_ne.
Qed.

(** A file that a session can continue. *)
Definition wal_file (dim : Z) (ps : list (KernelEvent * Z)) : list Z := wal_header dim ++ stream put_pair ps.

Lemma wal_session_content path dim fs ps0 ps :
  fs !! path = None /\ ps0 = [] \/ fs !! path = Some (wal_file dim ps0) ->
  wal_session path dim fs ps !! path = Some (wal_file dim (ps0 ++ ps)).
Proof.
  intros Hf. unfold wal_session, WalWriter_open.
  assert (stream put_pair (ps0 ++ ps) = stream put_pair ps0 ++ stream put_pair ps) as Es
    by (unfold stream; by rewrite fmap_app, concat_app).
  destruct Hf as [[Hf ->]|Hf]; rewrite Hf; cbn [default].
  - change (WAL_HEADER_SIZE <=? len []) with false. change (len [] =? 0) with true. cbv iota.
    set (fs1 := fs_append _ _ _). assert (fs1 !! path = Some (wal_header dim)) as H1.
    { unfold fs1, fs_append. by rewrite !lookup_insert_eq. }
    apply (wal_append_content ps fs1 (mkWalWriter path WAL_HEADER_SIZE dim)) in H1 as [H1 _]. exact H1.
  - unfold default, id. assert (WAL_HEADER_SIZE <=? len (wal_file dim ps0) = true) as ->.
    { apply Z.leb_le. unfold wal_file. rewrite len_app. pose proof (len_nonneg (stream put_pair ps0)).
      change (len (wal_header dim)) with 16. unfold WAL_HEADER_SIZE. lia. }
    change (slice (wal_file dim ps0) 0 4) with (le_bytes 4 WAL_VERSION).
    change (negb (le_val (le_bytes 4 WAL_VERSION) =? WAL_VERSION)) with false. cbv iota.
    destruct (wal_append_content ps (<[path := wal_file dim ps0]> fs) (mkWalWriter path (len (wal_file dim ps0)) dim)
                (wal_file dim ps0)) as [H1 _]; [apply lookup_insert_eq|].
    cbn [ww_path] in H1. rewrite H1. unfold wal_file. by rewrite Es, app_assoc.
Qed.

Lemma wal_sessions_content path dim sessions fs ps0 :
  fs !! path = Some (wal_file dim ps0) ->
  wal_sessions path dim sessions fs !! path = Some (wal_file dim (ps0 ++ concat sessions)).
Proof.
  revert fs ps0. induction sessions as [|ps sessions IH]; intros fs ps0 Hf; [by rewrite app_nil_r|].
  cbn [concat]. rewrite app_assoc. apply IH, wal_session_content. by right.
Qed.

(** Write a WAL in any number of sessions (open, append, close), cut the file
    at any byte after its header: replay_wal reads exactly the longest prefix of
    the appended events that fits in the cut, applies them in order, each in its
    namespace, and ends with the count and hash of those applied (or the kernel's
    error for the first it rejects). *)
Theorem wal_crash_replays_prefix (path : name) (dim : Z) (fs fs' : Fs) (ps : list (KernelEvent * Z))
    (sessions : list (list (KernelEvent * Z))) (n : nat) (content : list Z) :
  fs !! path = None -> Forall pair_typed (concat (ps :: sessions)) ->
  wal_sessions path dim (ps :: sessions) fs !! path = Some content -> (16 <= n)%nat ->
  fs' !! path = Some (take n content) ->
  exists j,
    (length (wal_file dim (take j (concat (ps :: sessions)))) <= n)%nat
    /\ (j = length (concat (ps :: sessions)) \/ n < length (wal_file dim (take (S j) (concat (ps :: sessions)))))%nat
    /\ replay_wal fs' path KernelState_new
       = replayed (le_bytes 4 1 ++ le_bytes 4 0 ++ le_bytes 4 0 ++ le_bytes 4 0) 0
           (take j (concat (ps :: sessions))) KernelState_new.
Proof.
  intros Hf Hty Hc Hn Hf'. set (all := concat (ps :: sessions)) in *.
  assert (content = wal_file dim all) as ->.
  { unfold wal_sessions in Hc. cbn [foldl] in Hc.
    pose proof (wal_session_content path dim fs [] ps (or_introl (conj Hf eq_refl))) as H1.
    apply (wal_sessions_content path dim sessions) in H1. unfold wal_sessions in H1. rewrite Hc in H1.
    injection H1 as ->. done. }
  assert (Forall (readable get_pair put_pair) all) as Hr by (eapply Forall_impl; [exact Hty|apply pair_readable]).
  destruct (stream_cut get_pair put_pair all (n - 16) Hr) as (j & tail & Hj & E1 & Ht & Hlo & Hhi).
  exists j. unfold wal_file in *. rewrite !length_app. change (length (wal_header dim)) with 16%nat.
  split; [lia|]. split; [destruct Hhi; [by left|right; lia]|].
  assert (take n (wal_header dim ++ stream put_pair all) = wal_header dim ++ stream put_pair (take j all) ++ tail) as E2.
  { rewrite take_app_ge by (change (length (wal_header dim)) with 16%nat; lia).
    change (length (wal_header dim)) with 16%nat. by rewrite E1. }
  rewrite E2 in Hf'.
  rewrite (replay_file get_pair put_pair id 2 dim (take j all) tail fs' path); [by rewrite list_fmap_id|by right|apply reads_with_v2| | |done|exact Hf'].
  - destruct (pair_readable (DeleteRecord 0, 0)) as [[_ Hcut] Hne]; [split; simpl; int_lia|].
    specialize (Hcut O). rewrite take_0 in Hcut. apply Hcut.
    destruct (put_pair (DeleteRecord 0, 0)); [done|simpl; lia].
  - by apply Forall_take.
Qed.

(** A version 1 file with any list of legacy commands replays as the list of
    their translations by legacy_to_event. *)
Theorem legacy_wal_replays (path : name) (dim : Z) (fs : Fs) (cmds : list LegacyWalCommand) :
  Forall legacy_typed cmds ->
  fs !! path = Some (legacy_header dim ++ stream put_LegacyWalCommand cmds) ->
  replay_wal fs path KernelState_new
  = replayed (le_bytes 4 1 ++ le_bytes 4 0 ++ le_bytes 4 0 ++ le_bytes 4 0) 0
      (legacy_to_event <$> cmds) KernelState_new.
Proof.
  intros Hty Hf. apply (replay_file get_LegacyWalCommand put_LegacyWalCommand legacy_to_event 1 dim cmds [] fs path);
    [by left|apply reads_with_v1| | |by left|by rewrite app_nil_r].
  - destruct (legacy_readable (LDeleteRecord 0)) as [[_ Hcut] Hne]; [simpl; int_lia|].
    specialize (Hcut O). rewrite take_0 in Hcut. apply Hcut.
    destruct (put_LegacyWalCommand (LDeleteRecord 0)); [done|simpl; lia].
  - eapply Forall_impl; [exact Hty|apply legacy_readable].
Qed.
End Sessions.

(** ** Concrete runs *)
#[local] Existing Instance FixedInt.bincode.
#[local] Existing Instance FixedInt.laws.

Definition wal_name : name := [119].
Definition first_session : list (KernelEvent * Z) := [(ev_insert 0, 0); (ev_insert 1, 3)].
Definition second_session : list (KernelEvent * Z) := [(SoftDeleteRecord 0, 0)].
Definition demo_wal : Fs := wal_sessions wal_name 2 [first_session; second_session] ∅.
Definition demo_wal_bytes : list Z := default [] (demo_wal !! wal_name).

Lemma demo_wal_typed : Forall pair_typed (concat [first_session; second_session]).
Proof.
  repeat apply Forall_cons_2; try apply Forall_nil_2; (split; [|simpl; int_lia]); try (apply ev_insert_typed; int_lia).
Qed.

(** The last entry is cut: both inserts are back. *)
Lemma wal_crash_replays_prefix_witness :
  exists j,
    (length (wal_file 2 (take j (concat [first_session; second_session]))) <= length demo_wal_bytes - 1)%nat
    /\ (j = 3 \/ length demo_wal_bytes - 1 < length (wal_file 2 (take (S j) (concat [first_session; second_session]))))%nat
    /\ replay_wal (<[wal_name := take (length demo_wal_bytes - 1) demo_wal_bytes]> ∅) wal_name KernelState_new
       = replayed (le_bytes 4 1 ++ le_bytes 4 0 ++ le_bytes 4 0 ++ le_bytes 4 0) 0
           (take j (concat [first_session; second_session])) KernelState_new.
Proof.
  apply (wal_crash_replays_prefix wal_name 2 ∅ _ first_session [second_session] (length demo_wal_bytes - 1)
           demo_wal_bytes).
  - reflexivity.
  - exact demo_wal_typed.
  - vm_compute. reflexivity.
  - vm_compute. lia.
  - apply lookup_insert_eq.
Defined.

Definition demo_commands : list LegacyWalCommand :=
  [LInsertRecord 0 0 [65536; 0] None 7; LCreateNode 0 0 NAgent (Some 0); LDropNamespace 5; LDeleteRecord 0].
Definition legacy_fs : Fs := {[ wal_name := legacy_header 2 ++ stream put_LegacyWalCommand demo_commands ]}.

Lemma legacy_wal_replays_witness :
  replay_wal legacy_fs wal_name KernelState_new
  = replayed (le_bytes 4 1 ++ le_bytes 4 0 ++ le_bytes 4 0 ++ le_bytes 4 0) 0
      (legacy_to_event <$> demo_commands) KernelState_new.
Proof.
  apply (legacy_wal_replays wal_name 2 legacy_fs demo_commands); [|apply lookup_singleton_eq].
  repeat apply Forall_cons_2; try apply Forall_nil_2; simpl; split_and?; try int_lia; try done.
  - repeat constructor; int_lia.
  - intros v [= <-]. int_lia.
Defined.

(** ** Appending after a torn tail

    The second entry is cut by a crash.  The file still opens and takes two more
    entries, and both are lost: the reader takes their first bytes for the rest
    of the torn entry. *)
Definition torn_wal : Fs :=
  <[wal_name := take 70 (default [] (wal_session wal_name 2 ∅ first_session !! wal_name))]> ∅.
Definition resumed_wal : Fs := wal_session wal_name 2 torn_wal [(ev_insert 1, 0); (ev_insert 2, 0)].

(** A concrete run: a torn append, then a reopened writer appends one more
    event; the replay returns Ok without that event. *)
Theorem wal_append_after_torn_tail_loses_entries :
  len (default [] (resumed_wal !! wal_name)) = 70 + 2 * len (put_pair (ev_insert 1, 0))
  /\ replay_wal resumed_wal wal_name KernelState_new = replay_wal torn_wal wal_name KernelState_new
  /\ exists s h, replay_wal torn_wal wal_name KernelState_new = (s, Ok (1, h)).
Proof. vm_compute. split; [done|]. split; [done|]. by eexists _, _. Qed.
