(* ===== verification/AuditLog.v ===== *)
(** * The audit log of a cluster node

    Models [crates/valori-node/src/commit/audit.rs]: the audit sink that writes
    every event the replicated state machine accepts to a chained event log, and
    the composition of the two.  The handle is shared under a mutex; the sink is
    its only writer here.  The clock is a sequence of readings with a position. *)

From stdpp Require Import gmap.
From S2P Require Import Prelude.
From S2P Require Import Hoare.
From S2P Require Import Core.
From S2P Require Import Records.
From S2P Require Import Event.
From S2P Require Import Kernel.
From S2P Require Import Bytes.
From S2P Require Import StateProof.
From S2P Require Import EventCodec.
From S2P Require Import Wire.
From S2P Require Import WireTheorems.
From S2P Require Import EventLog.
From S2P Require Import EventLogTheorems.
From S2P Require Import EventCommit.
From S2P Require Import Rotation.
From S2P Require Import CommitProofs.
From S2P Require Import CommitTheorems.
From S2P Require Import RotationTheorems.
From S2P Require Import Registry.
From S2P Require Import Consensus.
From S2P Require Import ConsensusProofs.
From S2P Require Import ConsensusRestart.

Record EventLogAuditSink : Type := mkAuditSink {
  as_writer : Log;
  as_rotation_bytes : option Z;
  as_clock : nat -> Z;
  as_tick : nat;
}.

Definition audit_sink_new (l : Log) (clock : nat -> Z) : EventLogAuditSink :=
  mkAuditSink l (Some DEFAULT_LOG_ROTATION_BYTES) clock 0.
Definition sink_with_rotation_bytes (limit : option Z) (a : EventLogAuditSink) : EventLogAuditSink :=
  mkAuditSink (as_writer a) limit (as_clock a) (as_tick a).

Section Sink.
Context `{Bincode} (blake3 : list Z -> list Z) (crc32 : list Z -> Z).

Abbreviation AM A := (M unit EventLogAuditSink A).

Definition read_clock : AM Z :=
  fun a => (mkAuditSink (as_writer a) (as_rotation_bytes a) (as_clock a) (S (as_tick a)), Ok (as_clock a (as_tick a))).

(** Run an operation of the writer; its errors become one I/O error. *)
Definition with_writer {A} (m : M EventLogError Log A) : AM A :=
  fun a => let '(l, o) := m (as_writer a) in
           (mkAuditSink l (as_rotation_bytes a) (as_clock a) (as_tick a), map_err (fun _ => tt) o).

(** Errors are logged. *)
Definition ignore_error (m : AM unit) : AM unit :=
  fun a => match m a with (a', Err _) => (a', Ok tt) | r => r end.

Definition audit_maybe_rotate : AM unit :=
  let* a := sget in
  match as_rotation_bytes a with
  | None => sret tt
  | Some limit =>
      let w := lg_writer (as_writer a) in
      if lw_bytes_written w <? limit then sret tt
      else
        let* now := read_clock in
        let archive_path := with_extension (lw_path w) (archive_extension (lw_segment_seq w)) in
        let checkpoint := Checkpoint (lw_event_count w) (lw_chain_head w) now in
        let* now' := read_clock in
        ignore_error (with_writer (rotate blake3 crc32 now' archive_path (Some checkpoint)))
  end.

Definition record_event (event : KernelEvent) (request_id : option (list Z)) : AM unit :=
  let* now := read_clock in
  with_writer (append_with_request_id blake3 crc32 now (Wire.Event event) request_id) ;;;
  audit_maybe_rotate.

Definition event_log_sink : AuditSink EventLogAuditSink := {| audit_record := record_event |}.
End Sink.

(** ** What the log holds *)

(** The audited events of a list of entries, with their tokens. *)
Definition audit_entry (d : DecodedEntry) : option (KernelEvent * option (list Z)) :=
  match entry d with Wire.Event e => Some (e, request_id d) | _ => None end.

Section SinkProofs.
Context `{BincodeLaws} (blake3 : list Z -> list Z) (crc32 : list Z -> Z).

(** The sink's directory holds exactly the events of [hist], in order, over all
    segments; [n] segments are sealed. *)
Definition audits (path : name) (a : EventLogAuditSink) (n : nat) (hist : list (KernelEvent * option (list Z))) : Prop :=
  exists arch hd hdr es,
    holds blake3 crc32 (as_writer a) hd hdr es /\ archived blake3 crc32 (as_writer a) arch hd
    /\ version hd = VERSION_V4 /\ lw_buf (lg_writer (as_writer a)) = []
    /\ in_u64 (lw_event_count (lg_writer (as_writer a))) /\ (forall k, in_u64 (as_clock a k))
    /\ lw_path (lg_writer (as_writer a)) = path /\ length arch = n
    /\ omap audit_entry (all_entries arch es) = hist
    /\ omap routed (all_entries arch es) = (fun p => (DEFAULT_NS, p.1)) <$> hist.

(** The encoder takes the event with its token. *)
Definition recordable (e : KernelEvent) (rid : option (list Z)) : Prop :=
  forall h t, hash_typed h -> in_u64 t -> storable VERSION_V4 (mkEntry h t rid (Wire.Event e)).

Context (blake3_hash : forall m, hash_typed (blake3 m)) (fit : checkpoints_fit).

Lemma all_entries_snoc arch es d : all_entries arch (es ++ [d]) = all_entries arch es ++ [d].
Proof. unfold all_entries. by rewrite app_assoc. Qed.

Lemma all_entries_seal arch hd hdr es d :
  all_entries (arch ++ [mkSealed hd hdr es]) [d] = all_entries arch es ++ [d].
Proof. unfold all_entries. rewrite fmap_app, concat_app. csimpl. by rewrite app_nil_r, <- app_assoc. Qed.

Lemma audit_maybe_rotate_ok path a n hist :
  audits path a n hist -> Z.of_nat (S n) <= u32_MAX ->
  exists a' n', audit_maybe_rotate blake3 crc32 a = (a', Ok tt) /\ audits path a' n' hist /\ (n' <= S n)%nat.
Proof.
  intros Ha Hn. unfold audit_maybe_rotate, sbind at 1, sget.
  destruct (as_rotation_bytes a) as [limit|] eqn:Er; [|exists a, n; split_and!; (done || lia)].
  destruct (_ <? _); [exists a, n; split_and!; (done || lia)|].
  destruct Ha as (arch & hd & hdr & es & Hl & Har & Hv & Hb & Hc & Hk & Hp & <- & Hh & Hr).
  unfold sbind, read_clock, ignore_error, with_writer. cbn [as_writer as_clock as_tick].
  rewrite (h_seq _ _ _ _ _ _ Hl), (ar_seq _ _ _ _ _ Har). set (cp := Checkpoint _ _ _).
  destruct (rotate_ok blake3 crc32 blake3_hash (as_writer a) arch hd hdr es (as_clock a (S (as_tick a))) cp Hl Har)
    as (l' & hd' & hdr' & d & Erot & Hl' & Ha' & Hv' & Ed & Epath & Hb' & Ec & _); [|done|done|].
  { apply fit; [done|by eapply holds_head_typed|done]. }
  unfold archive_name in Erot. rewrite Erot. cbn [map_err]. do 2 eexists. split; [reflexivity|]. split.
  - exists (arch ++ [mkSealed hd hdr es]), hd', hdr', [d]. cbn [as_writer as_clock].
    rewrite all_entries_seal, !omap_app. unfold audit_entry at 2, routed at 2. csimpl. rewrite Ed. cbn [cp].
    rewrite !app_nil_r. split_and!; try done; congruence.
  - rewrite length_app. simpl. lia.
Qed.

Lemma record_event_ok path a n hist e rid :
  audits path a n hist -> recordable e rid -> Z.of_nat (S n) <= u32_MAX ->
  exists a' n', record_event blake3 crc32 e rid a = (a', Ok tt) /\ audits path a' n' (hist ++ [(e, rid)]) /\ (n' <= S n)%nat.
Proof.
  intros (arch & hd & hdr & es & Hl & Har & Hv & Hb & Hc & Hk & Hp & <- & Hh & Hr) Hx Hn.
  destruct (append_with_request_id_ok blake3 crc32 (as_writer a) hd hdr es (as_clock a (as_tick a)) rid (Wire.Event e) Hl)
    as (l' & Eapp & Hl' & Hf & Hb' & Hc'); [by rewrite Hv|rewrite Hv; apply Hx; [by eapply holds_head_typed|done]|].
  unfold record_event, sbind at 1, read_clock. unfold sbind, with_writer. cbn [as_writer]. rewrite Eapp. cbn [map_err].
  eapply audit_maybe_rotate_ok; [|done]. eexists arch, hd, hdr, _. cbn [as_writer as_clock].
  split; [exact Hl'|]. split; [by eapply archived_framed|]. split_and!; try done; [by apply Hc'|by rewrite (proj1 Hf)| |].
  - by rewrite all_entries_snoc, omap_app, Hh.
  - by rewrite all_entries_snoc, omap_app, Hr, fmap_app.
Qed.

(** Reading the audit log back. *)
Lemma audits_read path a n hist listing :
  (forall m, in_u32 (crc32 m)) -> audits path a n hist -> lists (lg_fs (as_writer a)) listing ->
  read_all_segments blake3 crc32 (lg_fs (as_writer a)) listing path None
  = Ok ((fun p => (DEFAULT_NS, p.1)) <$> hist).
Proof.
  intros Hcrc (arch & hd & hdr & es & Hl & Har & Hv & Hb & Hc & Hk & <- & Hn & Hh & Hr) Hlist.
  by rewrite (read_all_ok blake3 crc32 Hcrc _ _ _ _ _ _ Hl Har Hb Hlist), Hr.
Qed.
End SinkProofs.

(** ** The node and its audit log *)

(** A request the reply says was applied. *)
Definition accepted_of `{Openraft} (e : Entry) (r : ClientResponse) : option (KernelEvent * option (list Z)) :=
  match en_payload e with
  | Normal req =>
      match rs_deduplicated r, rs_rejected r with
      | false, None => Some (rq_event req, rq_request_id req)
      | _, _ => None
      end
  | _ => None
  end.
Definition accepted_events `{Openraft} (es : list Entry) (rs : list ClientResponse)
    : list (KernelEvent * option (list Z)) :=
  omap (fun p => accepted_of p.1 p.2) (zip es rs).

Lemma spec_entry_accepts `{Openraft} blake3 e c c' r acc req :
  en_payload e = Normal req -> spec_entry blake3 e c = Ok (c', r, acc) ->
  accepted_of e r = if acc then Some (rq_event req, rq_request_id req) else None.
Proof.
  unfold spec_entry, accepted_of, spec_request. intros ->.
  destruct (_ <? _); [by intros [= _ <- <-]|].
  destruct (match rq_request_id req with Some id => _ | None => false end); [by intros [= _ <- <-]|].
  destruct (route_event _ _ _) as [rej|[ns r']]; [by intros [= _ <- <-]|].
  destruct (apply_event_ns _ _ _) as [s [[]|err| |]]; try done; by intros [= _ <- <-].
Qed.

Section Composition.
Context `{BincodeLaws} `{RaftSerde} (blake3 : list Z -> list Z) (crc32 : list Z -> Z).
#[local] Instance cluster_sink : AuditSink EventLogAuditSink := event_log_sink blake3 crc32.

(** Requests whose events fit the log. *)
Definition audit_ready (e : Entry) : Prop :=
  match en_payload e with Normal req => recordable (rq_event req) (rq_request_id req) | _ => True end.

Lemma audited_loop clock es (i : StateMachineInner (A := EventLogAuditSink)) c rs path n hist :
  (forall m, hash_typed (blake3 m)) -> checkpoints_fit ->
  core_ok i -> i_replay_until i = None -> audits blake3 crc32 path (i_audit i) n hist ->
  Forall audit_ready es -> spec_run blake3 es (core i) = Ok (c, rs) -> Z.of_nat n + len es <= u32_MAX ->
  exists j n', apply_loop blake3 clock es i = (j, Ok rs) /\ core j = c /\ core_ok j
    /\ audits blake3 crc32 path (i_audit j) n' (hist ++ accepted_events es rs).
Proof.
  intros Hb Hfit. revert i n hist rs. induction es as [|e es IH]; intros i n hist rs Hok Hr Ha Hes Hs Hn.
  { simplify_eq/=. exists i, n. by rewrite app_nil_r. }
  apply Forall_cons in Hes as [He Hes]. rewrite len_cons in Hn. pose proof (len_nonneg es).
  cbn [spec_run] in Hs. cbn [apply_loop]. unfold sbind at 1.
  pose proof (apply_entry_ok blake3 clock e i Hok) as Hstep.
  assert (replaying e i = false) as Hrep by (unfold replaying, in_replay; by rewrite Hr).
  assert (forall req, en_payload e = Normal req ->
            exists a' n', record_event blake3 crc32 (rq_event req) (rq_request_id req) (i_audit i) = (a', Ok tt)
              /\ audits blake3 crc32 path a' n' (hist ++ [(rq_event req, rq_request_id req)]) /\ (n' <= S n)%nat) as Hrec.
  { intros req E1. unfold audit_ready in He. rewrite E1 in He. apply record_event_ok; (done || lia). }
  assert (forall o, entry_sink_fails e i o -> o = Ok tt) as Hno.
  { intros o (_ & req & E1 & a & Ef). destruct (Hrec req E1) as (a' & n' & E2 & _).
    unfold audit_record, cluster_sink, event_log_sink in Ef. congruence. }
  destruct (apply_entry blake3 clock e i) as [i1 [r|err| |]];
    [|by specialize (Hno _ Hstep)|destruct Hstep as [E1|E1]; [by rewrite E1 in Hs|by specialize (Hno _ E1)]..].
  destruct Hstep as (acc & Es & Hok1 & Haud & Hkept & _). rewrite Es in Hs. cbn [obind fst snd] in Hs.
  assert (i_replay_until i1 = None) as Hr1 by (destruct Hkept as [E1|[_ E1]]; congruence).
  destruct (spec_run blake3 es (core i1)) as [[c' rs']| | |] eqn:E2; simplify_eq/=.
  assert (exists n1, audits blake3 crc32 path (i_audit i1) n1 (hist ++ option_list (accepted_of e r)) /\ (n1 <= S n)%nat)
    as (n1 & Ha1 & Hn1).
  { unfold entry_audited in Haud. destruct (en_payload e) as [|m|req] eqn:Ep.
    1,2: exists n; unfold accepted_of; rewrite Ep, Haud, app_nil_r; split; [done|lia].
    rewrite (spec_entry_accepts blake3 e _ _ _ _ req Ep Es). unfold audited in Haud. rewrite Hrep in Haud.
    destruct acc; simpl in *; [|exists n; rewrite Haud, app_nil_r; split; [done|lia]].
    destruct (Hrec req eq_refl) as (a' & n' & E3 & Ha' & Hn'). exists n'. split; [|lia].
    unfold audit_record, cluster_sink, event_log_sink in Haud. rewrite E3 in Haud. by injection Haud as <-. }
  destruct (IH i1 n1 _ rs' Hok1 Hr1 Ha1 Hes E2) as (j & n2 & Ej & Hcj & Hokj & Haj); [lia|].
  exists j, n2. unfold sbind, sret. rewrite Ej. split_and!; try done.
  rewrite <- app_assoc in Haj. unfold accepted_events in *. cbn [zip omap list_omap] in *.
  destruct (accepted_of e r) eqn:E4; csimpl; by rewrite ?E4.
Qed.

(** C6: The audit log of a cluster node: a node outside replay with the
    file-backed audit sink (rotation at any limit) that applies a batch as the
    specification does leaves a log directory whose entries are, after the earlier
    ones, exactly the events the state machine accepted, in order and with their
    request tokens, over however many rotated segments; read_all_segments reads
    these events back, all under the default namespace. *)
Theorem audit_log_records_accepted clock (es : list Entry) (i : StateMachineInner (A := EventLogAuditSink)) c rs path n hist :
  (forall m, hash_typed (blake3 m)) -> (forall m, in_u32 (crc32 m)) -> checkpoints_fit ->
  core_ok i -> i_replay_until i = None -> audits blake3 crc32 path (i_audit i) n hist ->
  Forall audit_ready es -> spec_run blake3 es (core i) = Ok (c, rs) -> Z.of_nat n + len es <= u32_MAX ->
  exists j n', apply blake3 clock es i = (j, Ok rs) /\ core j = c
    /\ audits blake3 crc32 path (i_audit j) n' (hist ++ accepted_events es rs)
    /\ forall listing, lists (lg_fs (as_writer (i_audit j))) listing ->
         read_all_segments blake3 crc32 (lg_fs (as_writer (i_audit j))) listing path None
         = Ok ((fun p => (DEFAULT_NS, p.1)) <$> hist ++ accepted_events es rs).
Proof.
  intros Hb Hcrc Hfit Hok Hr Ha Hes Hs Hn.
  destruct (audited_loop clock es i c rs path n hist Hb Hfit Hok Hr Ha Hes Hs Hn) as (j & n' & Ej & Hc & Hokj & Haj).
  unfold apply. rewrite (bind_ok _ _ _ _ _ Ej). unfold persist_applied, sbind, smodify, sret.
  eexists _, n'. split; [reflexivity|].
  assert (i_audit (match i_db j with
                   | Some db => i_set_db (Some (<[SmMembership := put_StoredMembership (i_membership j)]>
                                 (<[SmLastApplied := put_option put_LogId (i_last_applied j)]> db))) j
                   | None => j end) = i_audit j) as Ea by (by destruct (i_db j)). rewrite Ea.
  split_and!; [by destruct (i_db j)|done|]. intros listing Hl. by apply (audits_read blake3 crc32 path _ n').
Qed.
End Composition.

(** ** Concrete nodes *)
#[local] Existing Instance FixedInt.bincode.
#[local] Existing Instance FixedInt.laws.
#[local] Instance demo_sink : AuditSink EventLogAuditSink := event_log_sink demo_hash toy_crc.

Definition fresh_sink (limit : option Z) : EventLogAuditSink :=
  sink_with_rotation_bytes limit (audit_sink_new (c_log (fresh log_name 2 1 ∅)) (fun k => 1700000000 + Z.of_nat (Nat.min k 100))).

Lemma fresh_sink_audits limit : audits demo_hash toy_crc log_name (fresh_sink limit) 0 [].
Proof.
  destruct (fresh_rotation_inv demo_hash toy_crc log_name 2 1 None ∅) as [[[Hl Hb _] _ _ _] Ha Hv];
    [done|done|unfold WIRE_MAX_DIM; lia|].
  eexists [], _, _, []. split; [exact Hl|]. split; [exact Ha|]. split_and!; try done.
  intros k. simpl. unfold in_u64, u64_MAX. lia.
Qed.

Definition audit_log : list Entry :=
  [mkRaftEntry (1%nat : LogId) (Normal (mkRequest (AutoInsertRecord [65536; 0] None 7) (Some (replicate 16 1)) 0 3));
   mkRaftEntry (2%nat : LogId) (Normal (mkRequest (AutoInsertRecord [65536; 0] None 7) (Some (replicate 16 1)) 0 3));
   mkRaftEntry (3%nat : LogId) (Normal (mkRequest (SoftDeleteRecord 9) None 0 0));
   mkRaftEntry (4%nat : LogId) (Normal (mkRequest (AutoInsertRecord [0; 65536] None 8) None 0 0))].

Definition audit_node : StateMachineInner (A := EventLogAuditSink) := sm_new (fresh_sink (Some 1)) 2.

Lemma small_recordable e rid :
  event_typed e -> (forall r, rid = Some r -> id_typed r) -> check_metadata_cap (Wire.Event e) = Ok tt ->
  len (put_LogEntry (Wire.Event e)) <= 1000000 -> recordable e rid.
Proof.
  intros He Hr Hc Hl h t Hh Ht. split_and!; [by right; right|by split_and!|done|done|].
  apply Z.leb_le. unfold payload, put_EntryV3. cbn [prev_hash wall_time_secs request_id entry].
  change (VERSION_V4 =? VERSION_V2) with false. cbv iota. rewrite !len_app, len_put_array.
  destruct Hh as [_ Hh]. change (len (put_u64 t)) with 8. unfold len at 1. rewrite Hh.
  assert (len (put_option put_array rid) <= 17); [|lia].
  destruct rid as [r|]; [|done]. destruct (Hr r eq_refl) as [_ Hlr].
  change (put_option put_array (Some r)) with ([1] ++ put_array r). rewrite len_app, len_put_array. unfold len. rewrite Hlr. done.
Qed.

Definition audit_outcome : outcome StorageError (Core * list ClientResponse) :=
  Eval vm_compute in spec_run demo_hash audit_log (core audit_node).

Lemma audit_log_records_accepted_witness :
  match audit_outcome with
  | Ok (c, rs) =>
      accepted_events audit_log rs
      = [(AutoInsertRecord [65536; 0] None 7, Some (replicate 16 1)); (AutoInsertRecord [0; 65536] None 8, None)]
      /\ exists j n', apply demo_hash (fun _ => 0) audit_log audit_node = (j, Ok rs) /\ core j = c
           /\ audits demo_hash toy_crc log_name (i_audit j) n' ([] ++ accepted_events audit_log rs)
           /\ forall listing, lists (lg_fs (as_writer (i_audit j))) listing ->
                read_all_segments demo_hash toy_crc (lg_fs (as_writer (i_audit j))) listing log_name None
                = Ok ((fun p => (DEFAULT_NS, p.1)) <$> [] ++ accepted_events audit_log rs)
  | _ => False
  end.
Proof.
  split; [vm_compute; reflexivity|].
  apply (audit_log_records_accepted demo_hash toy_crc (fun _ => 0) audit_log audit_node _ _ log_name 0 []);
    [exact demo_hash_typed|exact toy_crc_u32|exact fixed_checkpoints_fit| |done|apply fresh_sink_audits| |vm_compute; reflexivity|
     vm_compute; discriminate].
  - split; simpl; [done|constructor|unfold MAX_DEDUP_ENTRIES; len_lia|apply registry_wf_new].
  - unfold audit_log. repeat apply Forall_cons_2; try apply Forall_nil_2;
      (apply small_recordable; [simpl; split_and!; repeat first [done | int_lia | apply Forall_nil_2 | apply Forall_cons_2]
        |first [by intros r [=] | intros r [= <-]; split; [repeat first [int_lia | apply Forall_nil_2 | apply Forall_cons_2]|done]]|reflexivity|vm_compute; discriminate]).
Defined.

(** A concrete run: a cluster node accepts an insert in a namespace other than
    the default one; replaying the audit log it wrote puts the record into the
    default namespace. *)
Theorem audit_log_loses_namespace :
  let j := (apply demo_hash (fun _ => 0) (take 1 audit_log) audit_node).1 in
  rec_namespace_id <$> get_record (i_state j) 0 = Some 3
  /\ exists s jn, recover_from_event_log demo_hash toy_crc (lg_fs (as_writer (i_audit j)))
                 (fst <$> map_to_list (lg_fs (as_writer (i_audit j)))) log_name = Ok (s, jn, 1)
     /\ rec_namespace_id <$> get_record s 0 = Some 0.
Proof. split; [vm_compute; reflexivity|]. do 2 eexists. split; vm_compute; reflexivity. Qed.
