(* ===== verification/Planner.v ===== *)
(** * The planner

    Models [crates/valori-planner/src]: operations and their content hash
    ([operation.rs]), fingerprints and contexts ([context.rs]), execution graphs
    with Kahn's ordering ([graph.rs]), the in-process cache and the handle
    registry ([registry.rs]), [plan_with_cache] and the two planners
    ([planner.rs]), with the durable cache table of [valori-metadata]
    ([planner_cache.rs] and the cache calls of [db.rs]).

    Random ids, the clock and the order in which a [HashMap] yields its keys are
    arguments.  JSON is the class [PlannerJson].  A [usize] index is a [nat]. *)

From stdpp Require Import gmap strings.
From S2P Require Import Prelude.
From S2P Require Import Core.
From S2P Require Import Bytes.
From S2P Require Import EventCodec.
From S2P Require Import Wire.

(** ** Operations (operation.rs) *)
Inductive OperationKind : Type :=
| KIngest | KSearch | KMemoryUpsert | KConsolidate | KContradict | KHealthCheck | KDelete | KBatchInsert
| KGraphRag | KMemorySearch | KCommunityDetect | KCommunitySearch | KTreeBuild | KTreeQuery | KTreeHybrid | KSnapshot.

Inductive ConsistencyLevel : Type := Local_ | Linearizable.

Inductive OperationInputs : Type :=
| Ingest (strategy collection : list Z) (shard_id : Z) (embed_enabled : bool)
| Search (k : Z) (collection : list Z) (shard_id : Z) (rerank decay metadata_filter : bool) (consistency : ConsistencyLevel)
| MemoryUpsert (collection : list Z) (shard_id : Z)
| Consolidate (shard_id : Z)
| Contradict (shard_id : Z)
| HealthCheck
| Delete (collection : list Z) (shard_id : Z) (mode : list Z)
| BatchInsert (count : Z) (collection : list Z) (shard_id : Z)
| GraphRag (k depth : Z) (collection : list Z) (shard_id : Z)
| MemorySearch (k : Z) (collection : list Z) (shard_id : Z) (decay : bool)
| CommunityDetect (collection : list Z) (shard_id max_iter : Z)
| CommunitySearch (k depth : Z) (drill_in : bool) (collection : list Z) (shard_id : Z)
| TreeBuild (shard_id : Z)
| TreeQuery (k shard_id : Z)
| TreeHybrid (k shard_id : Z) (embed_enabled : bool)
| Snapshot (shard_id : Z).

Record ResourceBudget : Type := mkBudget { max_kernel_writes : Z; max_embed_calls : Z; max_llm_tokens : Z }.
Record ExecutionPolicy : Type := mkPolicy { timeout_secs : Z; retry_limit : Z; resource_budget : ResourceBudget }.
Definition ResourceBudget_default : ResourceBudget := mkBudget 10000 100 0.
Definition ExecutionPolicy_default : ExecutionPolicy := mkPolicy 30 2 ResourceBudget_default.

Record Operation : Type := mkOperation {
  op_id : ExecutionId;
  op_kind : OperationKind;
  op_inputs : OperationInputs;
  op_policy : ExecutionPolicy;
  op_hash : list Z;
  op_created_at : Z;
}.

Definition kind_discriminant (k : OperationKind) : Z :=
  match k with
  | KIngest => 0 | KSearch => 1 | KMemoryUpsert => 2 | KConsolidate => 3 | KContradict => 4 | KHealthCheck => 5
  | KDelete => 6 | KBatchInsert => 7 | KGraphRag => 8 | KMemorySearch => 9 | KCommunityDetect => 10
  | KCommunitySearch => 11 | KTreeBuild => 12 | KTreeQuery => 13 | KTreeHybrid => 14 | KSnapshot => 15
  end.

(** The bytes of an ASCII literal. *)
Definition ascii_bytes (s : String.string) : list Z :=
  (fun a => Z.of_nat (Ascii.nat_of_ascii a)) <$> String.list_ascii_of_string s.

(** The [kind] tag of [OperationInputs], in snake case. *)
Definition inputs_tag (i : OperationInputs) : list Z :=
  ascii_bytes
    (match i with
     | Ingest _ _ _ _ => "ingest"
     | Search _ _ _ _ _ _ _ => "search"
     | MemoryUpsert _ _ => "memory_upsert"
     | Consolidate _ => "consolidate"
     | Contradict _ => "contradict"
     | HealthCheck => "health_check"
     | Delete _ _ _ => "delete"
     | BatchInsert _ _ _ => "batch_insert"
     | GraphRag _ _ _ _ => "graph_rag"
     | MemorySearch _ _ _ _ => "memory_search"
     | CommunityDetect _ _ _ => "community_detect"
     | CommunitySearch _ _ _ _ _ => "community_search"
     | TreeBuild _ => "tree_build"
     | TreeQuery _ _ => "tree_query"
     | TreeHybrid _ _ _ => "tree_hybrid"
     | Snapshot _ => "snapshot"
     end)%string.

(** ** Fingerprints and contexts (context.rs) *)
Record PlannerFingerprint : Type := mkFingerprint {
  fp_version : list Z;
  fp_routing_config_hash : list Z;
  fp_feature_flags_hash : list Z;
  fp_metadata_schema_version : Z;
  fp_hash : list Z;
}.

Record CapabilitySet : Type := mkCapabilities {
  cs_embed : bool; cs_llm : bool; cs_object_store : bool; cs_cluster : bool; cs_shard_count : Z;
}.
Record PlanningContext : Type := mkContext {
  pc_capability_set : CapabilitySet;
  pc_schema_version : Z;
  pc_shard_count : Z;
  pc_cluster_epoch : Z;
  pc_cluster_mode : bool;
}.

Section Hashes.
Context `{Bincode} (blake3 : list Z -> list Z).

Definition put_bool (b : bool) : list Z := put_u8 (if b then 1 else 0).

Definition put_ConsistencyLevel (c : ConsistencyLevel) : list Z :=
  put_variant (match c with Local_ => 0 | Linearizable => 1 end).

(** An internally tagged enum: a struct whose first field is the tag. *)
Definition put_OperationInputs (i : OperationInputs) : list Z :=
  put_str (inputs_tag i)
  ++ match i with
     | Ingest strategy collection shard_id embed_enabled =>
         put_str strategy ++ put_str collection ++ put_u8 shard_id ++ put_bool embed_enabled
     | Search k collection shard_id rerank decay metadata_filter consistency =>
         put_u32 k ++ put_str collection ++ put_u8 shard_id ++ put_bool rerank ++ put_bool decay
         ++ put_bool metadata_filter ++ put_ConsistencyLevel consistency
     | MemoryUpsert collection shard_id => put_str collection ++ put_u8 shard_id
     | Consolidate shard_id => put_u8 shard_id
     | Contradict shard_id => put_u8 shard_id
     | HealthCheck => []
     | Delete collection shard_id mode => put_str collection ++ put_u8 shard_id ++ put_str mode
     | BatchInsert count collection shard_id => put_u32 count ++ put_str collection ++ put_u8 shard_id
     | GraphRag k depth collection shard_id =>
         put_u32 k ++ put_u32 depth ++ put_str collection ++ put_u8 shard_id
     | MemorySearch k collection shard_id decay =>
         put_u32 k ++ put_str collection ++ put_u8 shard_id ++ put_bool decay
     | CommunityDetect collection shard_id max_iter => put_str collection ++ put_u8 shard_id ++ put_u32 max_iter
     | CommunitySearch k depth drill_in collection shard_id =>
         put_u32 k ++ put_u32 depth ++ put_bool drill_in ++ put_str collection ++ put_u8 shard_id
     | TreeBuild shard_id => put_u8 shard_id
     | TreeQuery k shard_id => put_u32 k ++ put_u8 shard_id
     | TreeHybrid k shard_id embed_enabled => put_u32 k ++ put_u8 shard_id ++ put_bool embed_enabled
     | Snapshot shard_id => put_u8 shard_id
     end.

Definition put_ExecutionPolicy (p : ExecutionPolicy) : list Z :=
  put_u32 (timeout_secs p) ++ put_u8 (retry_limit p)
  ++ put_u32 (max_kernel_writes (resource_budget p)) ++ put_u32 (max_embed_calls (resource_budget p))
  ++ put_u32 (max_llm_tokens (resource_budget p)).

(** The bytes [compute_operation_hash] feeds the hasher; encoding succeeds. *)
Definition operation_input (k : OperationKind) (i : OperationInputs) (p : ExecutionPolicy) : list Z :=
  [kind_discriminant k] ++ put_OperationInputs i ++ put_ExecutionPolicy p.
Definition compute_operation_hash (k : OperationKind) (i : OperationInputs) (p : ExecutionPolicy) : list Z :=
  blake3 (operation_input k i p).

Definition Operation_new (id : ExecutionId) (now : Z) (k : OperationKind) (i : OperationInputs) (p : ExecutionPolicy)
    : Operation :=
  mkOperation id k i p (compute_operation_hash k i p) now.

Definition fingerprint_input (version routing flags : list Z) (schema : Z) : list Z :=
  version ++ routing ++ flags ++ le_bytes 4 schema.
Definition PlannerFingerprint_compute (version routing flags : list Z) (schema : Z) : PlannerFingerprint :=
  mkFingerprint version routing flags schema (blake3 (fingerprint_input version routing flags schema)).

Definition put_PlanningContext (c : PlanningContext) : list Z :=
  let s := pc_capability_set c in
  put_bool (cs_embed s) ++ put_bool (cs_llm s) ++ put_bool (cs_object_store s) ++ put_bool (cs_cluster s)
  ++ put_u8 (cs_shard_count s)
  ++ put_u32 (pc_schema_version c) ++ put_u8 (pc_shard_count c) ++ put_u64 (pc_cluster_epoch c)
  ++ put_bool (pc_cluster_mode c).
Definition PlanningContextHash_compute (c : PlanningContext) : list Z := blake3 (put_PlanningContext c).
End Hashes.

(** ** Execution graphs (graph.rs) *)
Definition RETENTION_DEFAULT : Z := 30 * 24 * 3600.

Inductive TaskKind : Type :=
| TEmbed | TInsertRecord | TInsertNode | TInsertEdge | TSoftDeleteRecord | TSearch | TGraphRag | TMemorySearch
| TCommunityDetect | TCommunitySearch | TTreeBuild | TTreeQuery | TTreeHybrid | TLlmComplete | THttpFetch
| TReadIndex | TSnapshotArtifact | TProofFragment.

Record TaskSpec : Type := mkTask {
  ts_id : Z;
  ts_kind : TaskKind;
  ts_inputs_json : list Z;
  ts_shard_id : option Z;
  ts_topological_index : Z;
}.
Record TaskEdge : Type := mkTaskEdge { te_from : Z; te_to : Z }.

Record ExecutionGraph : Type := mkGraph {
  g_id : ExecutionId;
  g_operation_hash : list Z;
  g_planner_fingerprint : PlannerFingerprint;
  g_planning_context_hash : list Z;
  g_graph_hash : list Z;
  g_tasks : list TaskSpec;
  g_edges : list TaskEdge;
  g_retention : Z;
}.

Definition set_topological_index (i : Z) (t : TaskSpec) : TaskSpec :=
  mkTask (ts_id t) (ts_kind t) (ts_inputs_json t) (ts_shard_id t) i.

(** An edge between existing tasks; others are ignored. *)
Definition edge_indices (n : nat) (e : TaskEdge) : option (nat * nat) :=
  let from := Z.to_nat (te_from e) in
  let to := Z.to_nat (te_to e) in
  if bool_decide (from < n)%nat && bool_decide (to < n)%nat then Some (from, to) else None.

(** The tables of in-degrees and successors. *)
Definition note_edge (n : nat) (st : list Z * list (list nat)) (e : TaskEdge) : list Z * list (list nat) :=
  match edge_indices n e with
  | Some (from, to) => (alter (fun d => wrap_u32 (d + 1)) to st.1, alter (fun l => l ++ [to]) from st.2)
  | None => st
  end.

(** The inner loop: [in_degree[next] -= 1], pushing what reaches zero. *)
Fixpoint relax (succs : list nat) (in_degree : list Z) (queue : list nat) : outcome Empty_set (list Z * list nat) :=
  match succs with
  | [] => Ok (in_degree, queue)
  | next :: succs =>
      match in_degree !! next with
      | None => Panic
      | Some d =>
          let d := wrap_u32 (d - 1) in
          relax succs (<[next := d]> in_degree) (if d =? 0 then queue ++ [next] else queue)
      end
  end.

(** The loop over the queue; [fuel] bounds its turns. *)
Fixpoint kahn (fuel : nat) (adj : list (list nat)) (in_degree : list Z) (queue order : list nat)
    : outcome Empty_set (list nat) :=
  match queue with
  | [] => Ok order
  | node :: queue =>
      match fuel with
      | O => Hang
      | S fuel =>
          match adj !! node with
          | None => Panic
          | Some succs =>
              do* st := relax succs in_degree queue in
              kahn fuel adj st.1 st.2 (order ++ [node])
          end
      end
  end.

(** [debug_assertions] tells a build with debug assertions, where a cycle trips
    [debug_assert_eq!(order.len(), n)], from a release build, where the tasks that
    are left are appended. *)
Definition topological_order_with (debug_assertions : bool) (n : nat) (edges : list TaskEdge) : outcome Empty_set (list nat) :=
  let '(in_degree, adj) := foldl (note_edge n) (replicate n 0, replicate n []) edges in
  let queue := filter (fun i => in_degree !! i = Some 0) (seq 0 n) in
  do* order := kahn (S n) adj in_degree queue [] in
  if debug_assertions && negb (length order =? n)%nat then Panic
  else if bool_decide (length order < n)%nat
  then Ok (order ++ filter (fun i => i ∉ order) (seq 0 n))
  else Ok order.

(** The release build. *)
Definition topological_order : nat -> list TaskEdge -> outcome Empty_set (list nat) := topological_order_with false.

Section Graphs.
Context (blake3 : list Z -> list Z).

Definition graph_input (op fp ctx : list Z) (topo : list nat) : list Z :=
  op ++ fp ++ ctx ++ concat ((fun i => le_bytes 4 (Z.of_nat i)) <$> topo).
Definition compute_graph_hash (op : list Z) (fp : PlannerFingerprint) (ctx : list Z) (topo : list nat) : list Z :=
  blake3 (graph_input op (fp_hash fp) ctx topo).

Definition assign_indices (topo : list nat) (tasks : list TaskSpec) : list TaskSpec :=
  foldl (fun tasks p => alter (set_topological_index (Z.of_nat p.1)) p.2 tasks) tasks (zip (seq 0 (length topo)) topo).

(** [id] is the random id. *)
Definition ExecutionGraph_build_with (debug_assertions : bool) (id : ExecutionId) (op : list Z) (fp : PlannerFingerprint)
    (ctx : list Z) (tasks : list TaskSpec) (edges : list TaskEdge) (retention : Z) : outcome Empty_set ExecutionGraph :=
  do* topo := topological_order_with debug_assertions (length tasks) edges in
  Ok (mkGraph id op fp ctx (compute_graph_hash op fp ctx topo) (assign_indices topo tasks) edges retention).
Definition ExecutionGraph_build : ExecutionId -> list Z -> PlannerFingerprint -> list Z -> list TaskSpec -> list TaskEdge -> Z ->
    outcome Empty_set ExecutionGraph := ExecutionGraph_build_with false.
End Graphs.

Definition tasks_in_topo_order (g : ExecutionGraph) : list TaskSpec := sort_by_key ts_topological_index (g_tasks g).

Definition task (g : ExecutionGraph) (id : Z) : option TaskSpec := g_tasks g !! Z.to_nat id.
Definition predecessors (g : ExecutionGraph) (id : Z) : list Z :=
  te_from <$> filter (fun e => te_to e = id) (g_edges g).

(** ** The in-process cache (registry.rs) *)
Record CacheKey : Type := mkKey { ck_op_hash : list Z; ck_fp_hash : list Z; ck_ctx_hash : list Z }.
#[export] Instance CacheKey_eq_dec : EqDecision CacheKey.
Proof. solve_decision. Defined.
#[export] Instance CacheKey_countable : Countable CacheKey.
Proof.
  refine (inj_countable' (fun k => (ck_op_hash k, ck_fp_hash k, ck_ctx_hash k))
            (fun p => let '(a, b, c) := p in mkKey a b c) _). by intros [].
Defined.

Definition CacheKey_new (op_hash : list Z) (fp : PlannerFingerprint) (ctx_hash : list Z) : CacheKey :=
  mkKey op_hash (fp_hash fp) ctx_hash.

Abbreviation GraphMap := (gmap CacheKey ExecutionGraph).
Record ExecutionCache : Type := mkCache { ec_capacity : nat; ec_inner : GraphMap }.

Definition ExecutionCache_new (capacity : nat) : ExecutionCache := mkCache capacity ∅.
Definition cache_get (key : CacheKey) (c : ExecutionCache) : option ExecutionGraph := ec_inner c !! key.

(** [first] is the key that [keys().next()] yields. *)
Definition cache_insert (first : GraphMap -> option CacheKey) (key : CacheKey) (graph : ExecutionGraph)
    (c : ExecutionCache) : ExecutionCache :=
  let map := ec_inner c in
  let map :=
    if bool_decide (ec_capacity c <= size map)%nat && negb (bool_decide (is_Some (map !! key))) then
      match first map with Some evict_key => delete evict_key map | None => map end
    else map in
  mkCache (ec_capacity c) (<[key := graph]> map).

Definition cache_invalidate (key : CacheKey) (c : ExecutionCache) : ExecutionCache * bool :=
  (mkCache (ec_capacity c) (delete key (ec_inner c)), bool_decide (is_Some (ec_inner c !! key))).
Definition cache_len (c : ExecutionCache) : nat := size (ec_inner c).

(** ** The durable cache (planner_cache.rs, db.rs) *)
Definition colon : Z := 58.
Definition to_db_key (k : CacheKey) : list Z :=
  hex (ck_op_hash k) ++ [colon] ++ hex (ck_fp_hash k) ++ [colon] ++ hex (ck_ctx_hash k).

Record PlannerCacheEntry : Type := mkCacheEntry { pe_graph_json : list Z; pe_cached_at : Z; pe_expires_at : Z }.
Definition is_expired (e : PlannerCacheEntry) (now_secs : Z) : bool :=
  negb (pe_expires_at e =? 0) && (pe_expires_at e <=? now_secs).

(** [serde_json] on entries and graphs. *)
Class PlannerJson : Type := {
  entry_to_json : PlannerCacheEntry -> list Z;
  entry_of_json : list Z -> option PlannerCacheEntry;
  graph_to_json : ExecutionGraph -> list Z;
  graph_of_json : list Z -> option ExecutionGraph;
}.
Class PlannerJsonLaws `{PlannerJson} : Prop := {
  entry_json_ok e : entry_of_json (entry_to_json e) = Some e;
  graph_json_ok g : graph_of_json (graph_to_json g) = Some g;
}.

Abbreviation CacheTable := (gmap (list Z) (list Z)).
Definition db_cache_put `{PlannerJson} (key : CacheKey) (e : PlannerCacheEntry) (db : CacheTable) : CacheTable :=
  <[to_db_key key := entry_to_json e]> db.
(** [Err] when the stored row is not an entry. *)
Definition db_cache_get `{PlannerJson} (key : CacheKey) (db : CacheTable) : outcome unit (option PlannerCacheEntry) :=
  match db !! to_db_key key with
  | None => Ok None
  | Some v => match entry_of_json v with Some e => Ok (Some e) | None => Err tt end
  end.
Definition db_cache_invalidate (key : CacheKey) (db : CacheTable) : CacheTable * bool :=
  (delete (to_db_key key) db, bool_decide (is_Some (db !! to_db_key key))).

(** ** Planners (planner.rs) *)

(** The errors of the metadata database and of [serde_json] carry their text. *)
Inductive PlannerError : Type :=
| CapabilityUnavailable (what : list Z)
| InvalidPlannerOperation (what : list Z)
| PlanningFailed (what : list Z)
| MetadataFailed (what : list Z)
| SerdeFailed (what : list Z).

(** The trait; the first argument is the random id of the new graph. *)
Class Planner : Type := {
  plan : ExecutionId -> Operation -> PlanningContext -> PlannerFingerprint -> outcome PlannerError ExecutionGraph;
}.

(** [?] on a call that has no error. *)
Definition no_error {E A} (o : outcome Empty_set A) : outcome E A :=
  match o with Ok a => Ok a | Err e => match e with end | Panic => Panic | Hang => Hang end.

(** [{:?}] of the kind. *)
Definition kind_name (k : OperationKind) : String.string :=
  match k with
  | KIngest => "Ingest" | KSearch => "Search" | KMemoryUpsert => "MemoryUpsert" | KConsolidate => "Consolidate"
  | KContradict => "Contradict" | KHealthCheck => "HealthCheck" | KDelete => "Delete" | KBatchInsert => "BatchInsert"
  | KGraphRag => "GraphRag" | KMemorySearch => "MemorySearch" | KCommunityDetect => "CommunityDetect"
  | KCommunitySearch => "CommunitySearch" | KTreeBuild => "TreeBuild" | KTreeQuery => "TreeQuery"
  | KTreeHybrid => "TreeHybrid" | KSnapshot => "Snapshot"
  end%string.

(** The quotes of the two JSON literals, [{"probe":true}] and [{"kind":"..."}]. *)
Definition quote : list Z := [34].
Definition probe_json : list Z := [123] ++ quote ++ ascii_bytes "probe" ++ quote ++ ascii_bytes ":true" ++ [125].
Definition kind_json (k : OperationKind) : list Z :=
  [123] ++ quote ++ ascii_bytes "kind" ++ quote ++ [58] ++ quote ++ ascii_bytes (kind_name k) ++ quote ++ [125].
Definition empty_json : list Z := [123; 125].

Section Planners.
Context `{Bincode} (blake3 : list Z -> list Z).

Definition noop_plan (id : ExecutionId) (op : Operation) (ctx : PlanningContext) (fp : PlannerFingerprint)
    : outcome PlannerError ExecutionGraph :=
  let ctx_hash := PlanningContextHash_compute blake3 ctx in
  let '(kind, inputs_json) :=
    match op_kind op with KHealthCheck => (TProofFragment, probe_json) | k => (TReadIndex, kind_json k) end in
  no_error (ExecutionGraph_build blake3 id (op_hash op) fp ctx_hash [mkTask 0 kind inputs_json None 0] [] RETENTION_DEFAULT).

Definition NoOpPlanner : Planner := {| plan := noop_plan |}.

Definition ingest_plan (id : ExecutionId) (op : Operation) (ctx : PlanningContext) (fp : PlannerFingerprint)
    : outcome PlannerError ExecutionGraph :=
  let ctx_hash := PlanningContextHash_compute blake3 ctx in
  match op_inputs op with
  | Ingest _ _ shard_id embed_enabled =>
      let '(tasks, edges) :=
        if embed_enabled then
          ([mkTask 0 TEmbed empty_json None 0; mkTask 1 TInsertRecord empty_json (Some shard_id) 0;
            mkTask 2 TInsertNode empty_json (Some shard_id) 0; mkTask 3 TInsertEdge empty_json (Some shard_id) 0],
           [mkTaskEdge 0 1; mkTaskEdge 1 2; mkTaskEdge 2 3])
        else
          ([mkTask 0 TInsertRecord empty_json (Some shard_id) 0; mkTask 1 TInsertNode empty_json (Some shard_id) 0],
           [mkTaskEdge 0 1]) in
      no_error (ExecutionGraph_build blake3 id (op_hash op) fp ctx_hash tasks edges RETENTION_DEFAULT)
  | _ => Err (InvalidPlannerOperation (ascii_bytes "IngestPlanner received non-Ingest operation"))
  end.

Definition IngestPlanner : Planner := {| plan := ingest_plan |}.

(** The in-process cache and the durable one. *)
Record Caches : Type := mkCaches { cc_memory : ExecutionCache; cc_db : option CacheTable }.

Definition key_of (op : Operation) (ctx : PlanningContext) (fp : PlannerFingerprint) : CacheKey :=
  CacheKey_new (op_hash op) fp (PlanningContextHash_compute blake3 ctx).

Context `{PlannerJson} `{Planner} (first : GraphMap -> option CacheKey).

(** Step 2: a row that is present, parses and has not expired. *)
Definition db_hit (key : CacheKey) (now : Z) (db : option CacheTable) : option ExecutionGraph :=
  match db with
  | Some db =>
      match db_cache_get key db with
      | Ok (Some e) => if is_expired e now then None else graph_of_json (pe_graph_json e)
      | _ => None
      end
  | None => None
  end.

(** [now] and [now'] are the two clock readings. *)
Definition plan_with_cache (id : ExecutionId) (now now' : Z) (op : Operation) (ctx : PlanningContext)
    (fp : PlannerFingerprint) : M PlannerError Caches ExecutionGraph :=
  let key := key_of op ctx fp in
  let* c := sget in
  match cache_get key (cc_memory c) with
  | Some graph => sret graph
  | None =>
      match db_hit key now (cc_db c) with
      | Some graph =>
          smodify (fun c => mkCaches (cache_insert first key graph (cc_memory c)) (cc_db c)) ;;; sret graph
      | None =>
          let* graph := slift (plan id op ctx fp) in
          smodify (fun c =>
            mkCaches (cache_insert first key graph (cc_memory c))
              (db_cache_put key (mkCacheEntry (graph_to_json graph) now' 0) <$> cc_db c)) ;;;
          sret graph
      end
  end.
End Planners.

(** ** Executions (registry.rs) *)
Inductive ExecutionStatus : Type :=
| Pending
| Running (completed_tasks total_tasks : Z)
| Succeeded
| ExecutionFailed (reason : list Z)
| Cancelled.
Definition is_terminal (s : ExecutionStatus) : bool :=
  match s with Succeeded | ExecutionFailed _ | Cancelled => true | _ => false end.

Inductive TaskState : Type := Waiting | TaskRunning | Done | TaskFailed (reason : list Z) | Skipped.
#[export] Instance TaskState_eq_dec : EqDecision TaskState.
Proof. solve_decision. Defined.
Definition task_done (s : TaskState) : bool :=
  match s with Done | TaskFailed _ | Skipped => true | _ => false end.

Record ExecutionContext : Type := mkExecution { xc_graph : ExecutionGraph; xc_task_states : list TaskState }.
Definition ExecutionContext_new (g : ExecutionGraph) : ExecutionContext :=
  mkExecution g (replicate (length (g_tasks g)) Waiting).
Definition completed_count (x : ExecutionContext) : Z := len (filter (fun s => s = Done) (xc_task_states x)).
Definition total_count (x : ExecutionContext) : Z := len (xc_task_states x).
Definition is_complete (x : ExecutionContext) : bool := forallb task_done (xc_task_states x).

(** A handle names a watch channel; clones share it.  The store holds the last
    value sent on every channel. *)
Record ExecutionHandle : Type := mkHandle { hd_id : Z * Z; hd_channel : nat }.
Record ExecutionRegistry : Type := mkExecutions {
  er_channels : list ExecutionStatus;
  er_active : gmap (Z * Z) ExecutionHandle;
}.
Definition handle_new (id : Z * Z) (r : ExecutionRegistry) : ExecutionRegistry * ExecutionHandle :=
  (mkExecutions (er_channels r ++ [Pending]) (er_active r), mkHandle id (length (er_channels r))).
Definition handle_update (h : ExecutionHandle) (s : ExecutionStatus) (r : ExecutionRegistry) : ExecutionRegistry :=
  mkExecutions (<[hd_channel h := s]> (er_channels r)) (er_active r).
Definition current_status (h : ExecutionHandle) (r : ExecutionRegistry) : option ExecutionStatus :=
  er_channels r !! hd_channel h.
Definition register (h : ExecutionHandle) (r : ExecutionRegistry) : ExecutionRegistry :=
  mkExecutions (er_channels r) (<[hd_id h := h]> (er_active r)).
Definition get_handle (id : Z * Z) (r : ExecutionRegistry) : option ExecutionHandle := er_active r !! id.
Definition terminal_handle (r : ExecutionRegistry) (h : ExecutionHandle) : bool :=
  match current_status h r with Some s => is_terminal s | None => false end.
Definition retire (id : Z * Z) (r : ExecutionRegistry) : ExecutionRegistry * bool :=
  match er_active r !! id with
  | Some h =>
      if terminal_handle r h then (mkExecutions (er_channels r) (delete id (er_active r)), true) else (r, false)
  | None => (r, false)
  end.
Definition active_count (r : ExecutionRegistry) : nat :=
  size (filter (fun p => terminal_handle r p.2 = false) (er_active r)).
