(* ===== verification/PlannerProofs.v ===== *)
(** * Kahn's algorithm

    The invariant of the queue loop: the in-degree of a task counts its edges
    from tasks that are not in the order yet, a task is in the order or the
    queue exactly when that count is zero, and every task of the order comes
    after its predecessors. *)

From stdpp Require Import list relations.
From S2P Require Import Prelude.
From S2P Require Import Planner.

(** Occurrences in a list. *)
Definition occ (v : nat) (l : list nat) : nat := length (filter (fun x => x = v) l).

Lemma occ_cons v x l : occ v (x :: l) = ((if decide (x = v) then 1 else 0) + occ v l)%nat.
Proof. unfold occ. rewrite filter_cons. by destruct (decide (x = v)). Qed.

Lemma occ_pos v l : (0 < occ v l)%nat <-> v ∈ l.
Proof.
  induction l as [|x l IH]; [unfold occ; simpl; set_solver by lia|].
  rewrite occ_cons, elem_of_cons, <- IH. destruct (decide (x = v)); naive_solver lia.
Qed.

(** A table of counters. *)
Definition table (n : nat) (deg : list Z) (f : nat -> nat) : Prop :=
  length deg = n /\ forall v, (v < n)%nat -> deg !! v = Some (Z.of_nat (f v)).

Lemma table_ext n deg f g : table n deg f -> (forall v, (v < n)%nat -> f v = g v) -> table n deg g.
Proof. intros [Hl Hd] Hfg. split; [done|]. intros v Hv. by rewrite <- Hfg, Hd. Qed.

(** The inner loop subtracts occurrences and queues what reaches zero. *)
Lemma relax_ok n succs deg f queue :
  table n deg f -> Forall (fun v => v < n)%nat succs -> (forall v, (v < n)%nat -> (occ v succs <= f v)%nat) ->
  (forall v, (v < n)%nat -> Z.of_nat (f v) <= u32_MAX) ->
  exists deg' fresh, relax succs deg queue = Ok (deg', queue ++ fresh)
    /\ table n deg' (fun v => f v - occ v succs)%nat
    /\ NoDup fresh /\ forall v, v ∈ fresh <-> v ∈ succs /\ f v = occ v succs.
Proof.
  revert deg f queue. induction succs as [|x succs IH]; intros deg f queue Ht Hs Hle Hmax.
  { exists deg, []. rewrite app_nil_r. split_and!; [done| |constructor|set_solver].
    eapply table_ext; [exact Ht|]. intros v _. unfold occ. simpl. lia. }
  apply Forall_cons in Hs as [Hx Hs]. pose proof Ht as [Hl Hd]. cbn [relax]. rewrite Hd by done.
  assert (1 <= f x)%nat as Hfx.
  { specialize (Hle x Hx). rewrite occ_cons in Hle. destruct (decide (x = x)); [lia|done]. }
  assert (wrap_u32 (Z.of_nat (f x) - 1) = Z.of_nat (f x - 1)) as ->.
  { specialize (Hmax x Hx). rewrite wrap_u32_small by int_lia. lia. }
  set (g v := if decide (v = x) then (f v - 1)%nat else f v).
  assert (table n (<[x := Z.of_nat (f x - 1)]> deg) g) as Htg.
  { split; [by rewrite length_insert|]. intros v Hv. unfold g. destruct (decide (v = x)) as [-> | Hne].
    - by rewrite list_lookup_insert_eq by lia.
    - by rewrite list_lookup_insert_ne, Hd by done. }
  assert (forall v, f v = ((if decide (x = v) then 1 else 0) + g v)%nat) as Hfg.
  { intros v. unfold g. destruct (decide (x = v)) as [<- | ?]; [destruct (decide (x = x)); [lia|done]|].
    destruct (decide (v = x)); [congruence|lia]. }
  destruct (IH _ g (if Z.of_nat (f x - 1) =? 0 then queue ++ [x] else queue) Htg Hs) as (deg' & fresh & Er & Ht' & Hnd & Hf).
  { intros v Hv. specialize (Hle v Hv). rewrite occ_cons, Hfg in Hle. lia. }
  { intros v Hv. specialize (Hmax v Hv). rewrite Hfg in Hmax. lia. }
  exists deg', ((if Z.of_nat (f x - 1) =? 0 then [x] else []) ++ fresh). rewrite Er.
  assert (g x = f x - 1)%nat as Egx by (unfold g; by destruct (decide (x = x))).
  split_and!.
  - f_equal. f_equal. destruct (_ =? _); [by rewrite <- app_assoc|done].
  - eapply table_ext; [exact Ht'|]. intros v _. simpl. rewrite occ_cons, (Hfg v). lia.
  - destruct (Z.of_nat (f x - 1) =? 0) eqn:E1; bool_prop; [|done]. simpl. apply NoDup_cons. split; [|done].
    rewrite Hf. intros [Hin _]. apply occ_pos in Hin. specialize (Hle x Hx). rewrite occ_cons in Hle.
    destruct (decide (x = x)); [lia|done].
  - intros v. rewrite elem_of_app, Hf, elem_of_cons, occ_cons, (Hfg v).
    assert (v ∈ (if Z.of_nat (f x - 1) =? 0 then [x] else []) <-> v = x /\ f x = 1%nat) as ->.
    { destruct (Z.of_nat (f x - 1) =? 0) eqn:E1; bool_prop; [rewrite list_elem_of_singleton|rewrite elem_of_nil];
        (split; [|lia]); [intros ->; split; [done|lia]|done]. }
    destruct (decide (x = v)) as [<- | Hne].
    + rewrite <- occ_pos. specialize (Hle x Hx). rewrite occ_cons in Hle. destruct (decide (x = x)); [|done].
      split; [intros [[_ ?]|[? ?]]; lia|]. intros [_ ?].
      destruct (decide (occ x succs = 0)%nat); [left|right]; lia.
    + simpl. split; [intros [[-> _]|[? ?]]; [done|by auto]|]. intros [[-> | ?] ?]; [done|by right].
Qed.

(** ** The tables built from the edges *)
Abbreviation Pairs := (list (nat * nat)).
Definition in_pairs (n : nat) (E : Pairs) : Prop := Forall (fun e => e.1 < n /\ e.2 < n)%nat E.
Definition succs_of (E : Pairs) (u : nat) : list nat := snd <$> filter (fun e => e.1 = u) E.

(** Edges into [v] from tasks outside [order]. *)
Definition pending (E : Pairs) (order : list nat) (v : nat) : nat :=
  length (filter (fun e => e.2 = v /\ e.1 ∉ order) E).

Lemma pending_cons e E order v :
  pending (e :: E) order v = ((if decide (e.2 = v /\ e.1 ∉ order) then 1 else 0) + pending E order v)%nat.
Proof. unfold pending. rewrite filter_cons. by destruct (decide _). Qed.

Lemma pending_snoc E order node v :
  node ∉ order -> pending E order v = (occ v (succs_of E node) + pending E (order ++ [node]) v)%nat.
Proof.
  intros Hn. induction E as [|e E IH]; [done|]. rewrite !pending_cons, IH. unfold succs_of. rewrite filter_cons.
  destruct (decide (e.1 = node)) as [E1 | E1]; csimpl; rewrite ?occ_cons;
    repeat destruct (decide _); set_solver by lia.
Qed.

Lemma pending_zero E order v : pending E order v = O <-> forall u, (u, v) ∈ E -> u ∈ order.
Proof.
  unfold pending. rewrite length_zero_iff_nil. split.
  - intros Hf u Hin. destruct (decide (u ∈ order)) as [? | Hu]; [done|exfalso].
    assert ((u, v) ∈ filter (fun e => e.2 = v /\ e.1 ∉ order) E) as Hc by (by apply list_elem_of_filter).
    rewrite Hf in Hc. by apply elem_of_nil in Hc.
  - intros Hall. apply elem_of_nil_inv. intros [u w] [[Hw Hu] Hin]%list_elem_of_filter. simpl in *. subst w. by apply Hu, Hall.
Qed.

Lemma pending_le E order v : (pending E order v <= length E)%nat.
Proof. unfold pending. apply length_filter. Qed.

Lemma occ_succs_le E order node v : node ∉ order -> (occ v (succs_of E node) <= pending E order v)%nat.
Proof. intros Hn. rewrite (pending_snoc E order node v Hn). lia. Qed.

Definition adjacency (n : nat) (adj : list (list nat)) (E : Pairs) : Prop :=
  length adj = n /\ forall u, (u < n)%nat -> adj !! u = Some (succs_of E u).

Lemma tables_ok n edges deg adj E :
  table n deg (pending E []) -> adjacency n adj E -> len E + len edges <= u32_MAX ->
  let E' := E ++ omap (edge_indices n) edges in
  let st := foldl (note_edge n) (deg, adj) edges in
  table n st.1 (pending E' []) /\ adjacency n st.2 E' /\ (in_pairs n E -> in_pairs n E').
Proof.
  revert deg adj E. induction edges as [|e edges IH]; intros deg adj E Ht Ha Hb; csimpl.
  { by rewrite app_nil_r. }
  rewrite len_cons in Hb. unfold note_edge at 2 4. destruct (edge_indices n e) as [[from to]|] eqn:Ee; [|apply IH; (done || lia)].
  unfold edge_indices in Ee. destruct (_ && _) eqn:Eb; [|done]. injection Ee as <- <-.
  apply andb_true_iff in Eb as [Hf%bool_decide_eq_true Hto%bool_decide_eq_true].
  set (from := Z.to_nat (te_from e)) in *. set (to := Z.to_nat (te_to e)) in *.
  rewrite (cons_middle _ E), app_assoc. cbn [fst snd].
  assert (forall v, pending (E ++ [(from, to)]) [] v = ((if decide (to = v) then 1 else 0) + pending E [] v)%nat) as Hp.
  { intros v. unfold pending. rewrite filter_app, length_app, filter_cons, filter_nil. csimpl.
    destruct (decide (to = v /\ from ∉ [])) as [[? ?] | Hn], (decide (to = v)); simpl; try lia; set_solver. }
  destruct (IH (alter (fun d => wrap_u32 (d + 1)) to deg) (alter (fun l => l ++ [to]) from adj) (E ++ [(from, to)])) as (H1 & H2 & H3).
  - destruct Ht as [Hl Hd]. split; [by rewrite length_alter|]. intros v Hv. rewrite Hp.
    destruct (decide (to = v)) as [<- | Hne].
    + rewrite list_lookup_alter_eq, Hd by done. simpl. f_equal. pose proof (pending_le E [] to). unfold len in *.
      pose proof (Nat2Z.is_nonneg (length edges)). rewrite wrap_u32_small by int_lia. lia.
    + by rewrite list_lookup_alter_ne, Hd by done.
  - destruct Ha as [Hl Hs]. split; [by rewrite length_alter|]. intros u Hu. unfold succs_of.
    rewrite filter_app, filter_cons, filter_nil, fmap_app. cbn [fst snd]. destruct (decide (from = u)) as [<- | Hne].
    + by rewrite list_lookup_alter_eq, Hs by done.
    + rewrite list_lookup_alter_ne, Hs by done. csimpl. by rewrite app_nil_r.
  - unfold len in *. rewrite length_app. simpl. lia.
  - split_and!; [exact H1|exact H2|]. intros Hin. apply H3, Forall_app. split; [done|]. by constructor.
Qed.

(** ** The queue loop *)
Definition ordered (E : Pairs) (order : list nat) : Prop :=
  forall i v, order !! i = Some v -> forall u, (u, v) ∈ E -> u ∈ take i order.

(** Ready tasks are those with no pending edge. *)
Definition ready (n : nat) (E : Pairs) (order : list nat) (l : list nat) : Prop :=
  forall v, v ∈ l <-> (v < n)%nat /\ pending E order v = O.

Lemma below_length n (l : list nat) : NoDup l -> (forall v, v ∈ l -> (v < n)%nat) -> (length l <= n)%nat.
Proof.
  intros Hnd Hl. rewrite <- (length_seq n 0). apply submseteq_length, NoDup_submseteq; [done|].
  intros v Hv. apply elem_of_seq. specialize (Hl v Hv). lia.
Qed.

Lemma ordered_snoc E order node :
  ordered E order -> pending E order node = O -> ordered E (order ++ [node]).
Proof.
  intros Ho Hp i v Hi u Hu. apply lookup_app_Some in Hi as [Hi | [Hge Hi]].
  - rewrite take_app_le by (apply lookup_lt_Some in Hi; lia). by eapply Ho.
  - apply list_lookup_singleton_Some in Hi as [E1 <-]. rewrite take_app_le, take_ge by lia.
    by apply (pending_zero E order node).
Qed.

Lemma succs_below n E node v : in_pairs n E -> v ∈ succs_of E node -> (v < n)%nat.
Proof.
  unfold in_pairs, succs_of. rewrite Forall_forall. intros HE.
  intros (e & -> & [_ He]%list_elem_of_filter)%list_elem_of_fmap. by apply HE.
Qed.

Lemma kahn_ok n E adj deg queue order fuel :
  adjacency n adj E -> in_pairs n E -> len E <= u32_MAX ->
  table n deg (pending E order) -> NoDup (order ++ queue) -> ready n E order (order ++ queue) -> ordered E order ->
  (n < length order + fuel)%nat ->
  exists order', kahn fuel adj deg queue order = Ok order' /\ NoDup order' /\ ready n E order' order' /\ ordered E order'.
Proof.
  intros [Hal Ha] HE Hmax. revert deg queue order. induction fuel as [|fuel IH]; intros deg queue order Ht Hnd Hr Ho Hf.
  { assert (length (order ++ queue) <= n)%nat as Hle by (apply below_length; [done|]; intros v Hv; by apply Hr in Hv as [? _]).
    rewrite length_app in Hle. lia. }
  destruct queue as [|node queue]; [exists order; by rewrite app_nil_r in *|].
  destruct (proj1 (Hr node)) as [Hn Hp]; [set_solver|].
  assert (node ∉ order) as Hnew.
  { intros Hin. apply NoDup_app in Hnd as (_ & Hd & _). apply (Hd node Hin). set_solver. }
  cbn [kahn]. rewrite Ha by done.
  destruct (relax_ok n (succs_of E node) deg (pending E order) queue Ht) as (deg' & fresh & -> & Ht' & Hndf & Hfresh).
  { apply Forall_forall. intros v. by apply succs_below. }
  { intros v _. by apply occ_succs_le. }
  { intros v _. pose proof (pending_le E order v). unfold len in Hmax. lia. }
  assert ((order ++ [node]) ++ queue ++ fresh = (order ++ node :: queue) ++ fresh) as Eq by (by rewrite <- !app_assoc).
  cbn [obind fst snd]. apply IH.
  - eapply table_ext; [exact Ht'|]. intros v _. simpl. rewrite (pending_snoc E order node v Hnew). lia.
  - rewrite Eq. apply NoDup_app. split; [exact Hnd|]. split; [|done].
    intros v Hv Hfr. apply Hfresh in Hfr as [Hs E1]. apply Hr in Hv as [_ E2]. apply occ_pos in Hs. lia.
  - intros v. rewrite Eq, elem_of_app, (Hr v), Hfresh.
    rewrite (pending_snoc E order node v Hnew). split.
    + intros [[? ?]|[Hs ?]]; [lia|]. split; [|lia]. by apply (succs_below n E node).
    + intros [? E1]. rewrite <- occ_pos. destruct (decide (occ v (succs_of E node) = 0)%nat); [left|right]; lia.
  - by apply ordered_snoc.
  - rewrite length_app. simpl. lia.
Qed.

(** ** Acyclic graphs *)
Definition precedes (E : Pairs) (u v : nat) : Prop := (u, v) ∈ E.
Definition acyclic (E : Pairs) : Prop := forall v, ~ tc (precedes E) v v.

(** On an acyclic graph, induction on predecessors: a task that may have its
    ancestors in [l] only. *)
Lemma acyclic_ind E (P : nat -> Prop) :
  acyclic E -> (forall v, (forall u, precedes E u v -> P u) -> P v) -> forall v, P v.
Proof.
  intros Ha Hstep.
  assert (forall k (l : list nat) v, (length l <= k)%nat -> (forall u, tc (precedes E) u v -> u ∈ l) -> P v) as Hk.
  { induction k as [|k IH]; intros l v Hl Hanc; apply Hstep; intros u Hu.
    - destruct l; [|simpl in Hl; lia]. specialize (Hanc u (tc_once _ _ _ Hu)). by apply elem_of_nil in Hanc.
    - assert (u ∈ l) as Hin by (by apply Hanc, tc_once). apply (IH (filter (fun x => x <> u) l)).
      + enough (length (filter (fun x => x <> u) l) < length l)%nat by lia.
        apply list_elem_of_split in Hin as (l1 & l2 & ->). rewrite filter_app, filter_cons_False by (by intros H).
        rewrite !length_app. simpl. pose proof (length_filter (fun x => x <> u) l1).
        pose proof (length_filter (fun x => x <> u) l2). lia.
      + intros w Hw. apply list_elem_of_filter. split.
        * intros ->. by apply (Ha u).
        * apply Hanc. by eapply tc_r. }
  intros v. apply (Hk (length (fst <$> E)) (fst <$> E) v); [done|]. intros u Hu.
  assert (exists w, (u, w) ∈ E) as [w Hw] by (destruct Hu as [x y Hxy|x y z Hxy _]; by eexists).
  apply list_elem_of_fmap. by exists (u, w).
Qed.

Lemma length_omap_le {A B} (f : A -> option B) l : (length (omap f l) <= length l)%nat.
Proof. induction l as [|x l IH]; csimpl; [done|]. destruct (f x); simpl; lia. Qed.

(** The whole routine. *)
Lemma topological_order_ok n edges :
  len edges <= u32_MAX ->
  let E := omap (edge_indices n) edges in
  exists order, topological_order n edges = Ok order /\ order ≡ₚ seq 0 n
    /\ (acyclic E -> ordered E order /\ topological_order_with true n edges = Ok order).
Proof.
  intros Hb E. unfold topological_order, topological_order_with.
  destruct (tables_ok n edges (replicate n 0) (replicate n []) []) as (Ht & Ha & Hin).
  { split; [apply length_replicate|]. intros v Hv. by rewrite lookup_replicate_2. }
  { split; [apply length_replicate|]. intros v Hv. by rewrite lookup_replicate_2. }
  { change (len (@nil (nat * nat))) with 0. lia. }
  cbn [app] in Ht, Ha, Hin. fold E in Ht, Ha, Hin. specialize (Hin (Forall_nil_2 _)).
  destruct (foldl (note_edge n) _ edges) as [deg adj]. cbn [fst snd] in Ht, Ha.
  assert (len E <= u32_MAX) as HbE by (unfold E, len in *; pose proof (length_omap_le (edge_indices n) edges); lia).
  set (queue := filter (fun i => deg !! i = Some 0) (seq 0 n)).
  assert (ready n E [] ([] ++ queue)) as Hr.
  { intros v. cbn [app]. unfold queue. rewrite list_elem_of_filter, elem_of_seq. destruct Ht as [_ Hd]. split.
    - intros [E1 Hv]. split; [lia|]. rewrite Hd in E1 by lia. injection E1. lia.
    - intros [Hv E1]. split; [|lia]. rewrite Hd, E1 by done. done. }
  destruct (kahn_ok n E adj deg queue [] (S n) Ha Hin HbE Ht) as (order & Ek & Hnd & Hro & Hor); [|done|done|simpl; lia|].
  { apply NoDup_filter, NoDup_seq. }
  rewrite Ek. cbn [obind andb].
  assert (forall v, v ∈ order -> (v < n)%nat) as Hlt by (intros v Hv; by apply Hro in Hv as [? _]).
  case_bool_decide as Hl.
  - eexists. split; [done|]. split.
    + apply NoDup_Permutation; [|apply NoDup_seq|].
      * apply NoDup_app. split; [done|]. split; [|apply NoDup_filter, NoDup_seq].
        intros v Hv. by intros [? _]%list_elem_of_filter.
      * intros v. rewrite elem_of_app, list_elem_of_filter, elem_of_seq. split.
        -- intros [Hv | [_ ?]]; [specialize (Hlt v Hv)|]; lia.
        -- intros Hv. destruct (decide (v ∈ order)); [by left|right; split; [done|lia]].
    + intros Hac. exfalso.
      assert (forall v, (v < n)%nat -> v ∈ order) as Hall.
      { apply (acyclic_ind E (fun v => (v < n)%nat -> v ∈ order) Hac). intros v IH Hv. apply Hro. split; [done|].
        apply pending_zero. intros u Hu. apply IH; [done|]. unfold in_pairs in Hin. rewrite Forall_forall in Hin. by apply (Hin (u, v)). }
      assert (length (seq 0 n) <= length order)%nat; [|rewrite length_seq in *; lia].
      apply submseteq_length, NoDup_submseteq; [apply NoDup_seq|]. intros v Hv%elem_of_seq. apply Hall. lia.
  - assert (order ≡ₚ seq 0 n) as Hperm.
    { apply submseteq_length_Permutation.
      - apply NoDup_submseteq; [done|]. intros v Hv. apply elem_of_seq. specialize (Hlt v Hv). lia.
      - rewrite length_seq. lia. }
    exists order. split; [done|]. split; [done|]. intros _. split; [done|].
    apply Permutation_length in Hperm. rewrite length_seq in Hperm. by rewrite Hperm, Nat.eqb_refl.
Qed.
