(* ===== verification/PlannerTheorems.v ===== *)
(** * Theorems about the planner

    Execution graphs run dependencies first; content hashes bind what they hash;
    the caches return what the planner would have built. *)

From stdpp Require Import gmap relations.
From S2P Require Import Prelude.
From S2P Require Import Hoare.
From S2P Require Import Core.
From S2P Require Import Bytes.
From S2P Require Import StateProof.
From S2P Require Import EventCodec.
From S2P Require Import Wire.
From S2P Require Import WireTheorems.
From S2P Require Import Planner.
From S2P Require Import PlannerProofs.
From S2P Require Import EventLog.
From S2P Require Import EventLogTheorems.
From S2P Require Import ConsensusRestart.

(** ** Execution order *)
Definition assign_from (s : nat) (topo : list nat) (tasks : list TaskSpec) : list TaskSpec :=
  foldl (fun tasks p => alter (set_topological_index (Z.of_nat p.1)) p.2 tasks) tasks (zip (seq s (length topo)) topo).

Lemma assign_from_cons s x topo tasks :
  assign_from s (x :: topo) tasks = assign_from (S s) topo (alter (set_topological_index (Z.of_nat s)) x tasks).
Proof. done. Qed.

Lemma assign_from_out topo s tasks i : i ∉ topo -> assign_from s topo tasks !! i = tasks !! i.
Proof.
  revert s tasks. induction topo as [|x topo IH]; intros s tasks Hi; [done|].
  rewrite assign_from_cons.
  rewrite IH by set_solver. apply list_lookup_alter_ne. set_solver.
Qed.

Lemma assign_from_ok topo s tasks k i :
  NoDup topo -> topo !! k = Some i ->
  assign_from s topo tasks !! i = set_topological_index (Z.of_nat (s + k)) <$> tasks !! i.
Proof.
  intros Hnd. revert s tasks k. induction Hnd as [|x topo Hx Hnd IH]; intros s tasks k Hk; [done|].
  rewrite assign_from_cons.
  destruct k as [|k]; simplify_eq/=.
  - rewrite assign_from_out, list_lookup_alter_eq by done. by rewrite Nat.add_0_r.
  - rewrite (IH (S s) _ k Hk), list_lookup_alter_ne by (apply list_elem_of_lookup_2 in Hk; set_solver).
    by rewrite Nat.add_succ_comm.
Qed.

Lemma length_assign s topo tasks : length (assign_from s topo tasks) = length tasks.
Proof.
  unfold assign_from. generalize (zip (seq s (length topo)) topo). intros ps. revert tasks.
  induction ps as [|p ps IH]; intros tasks; [done|]. simpl. by rewrite IH, length_alter.
Qed.

Section Ordering.
Context (blake3 : list Z -> list Z).

(** Sorting by the assigned indices gives back the order. *)
Lemma topo_sorted topo tasks :
  topo ≡ₚ seq 0 (length tasks) ->
  let sorted := sort_by_key ts_topological_index (assign_from 0 topo tasks) in
  length sorted = length tasks
  /\ forall k i, topo !! k = Some i -> sorted !! k = set_topological_index (Z.of_nat k) <$> tasks !! i.
Proof.
  intros Hp sorted. assert (NoDup topo) as Hnd by (rewrite Hp; apply NoDup_seq).
  assert (Forall (fun i => is_Some (assign_from 0 topo tasks !! i)) topo) as Hall.
  { apply Forall_forall. intros i Hi. rewrite Hp in Hi. apply elem_of_seq in Hi.
    apply lookup_lt_is_Some_2. rewrite length_assign. lia. }
  assert (sorted = omap (fun i => assign_from 0 topo tasks !! i) topo) as ->.
  { apply sort_by_key_unique.
    - rewrite <- (omap_lookup_seq (assign_from 0 topo tasks)) at 1. by rewrite length_assign, Hp.
    - apply (sorted_by_position _ _ 0). intros k t. rewrite omap_lookup_all by done.
      intros (i & Hi & Ht)%bind_Some. rewrite (assign_from_ok _ _ _ k) in Ht by done.
      apply fmap_Some in Ht as (t' & _ & ->). done. }
  split.
  - assert (length topo = length tasks) as <- by (by rewrite Hp, length_seq).
    clear -Hall. revert Hall. generalize (assign_from 0 topo tasks). intros l Hall.
    induction Hall as [|i rest [t Hi] _ IH]; [done|]. csimpl. rewrite Hi. simpl. by rewrite IH.
  - intros k i Hi. rewrite omap_lookup_all, Hi by done. simpl. by rewrite (assign_from_ok _ _ _ k) by done.
Qed.

(** Between the tasks of a graph. *)
Definition task_pairs (tasks : list TaskSpec) (edges : list TaskEdge) : list (nat * nat) :=
  omap (edge_indices (length tasks)) edges.

(** C31: For every list of tasks and of at most 2^32-1 edges without a cycle
    between existing tasks, building an execution graph terminates without a
    panic, in a release build and in one with debug assertions alike (the check
    that every task was ordered never fires); the order it assigns is a
    permutation of the tasks, the one the graph hash is taken over and the one
    tasks_in_topo_order returns; and every task comes after all tasks it depends
    on. *)
Theorem execution_order_respects_edges debug id op fp ctx (tasks : list TaskSpec) (edges : list TaskEdge) retention :
  len edges <= u32_MAX -> acyclic (task_pairs tasks edges) ->
  exists g topo,
    ExecutionGraph_build_with blake3 debug id op fp ctx tasks edges retention = Ok g
    /\ topo ≡ₚ seq 0 (length tasks)
    /\ g_graph_hash g = compute_graph_hash blake3 op fp ctx topo
    /\ length (tasks_in_topo_order g) = length tasks
    /\ (forall k i, topo !! k = Some i ->
          tasks_in_topo_order g !! k = set_topological_index (Z.of_nat k) <$> tasks !! i)
    /\ forall from to, (from, to) ∈ task_pairs tasks edges ->
        exists j k, topo !! j = Some from /\ topo !! k = Some to /\ (j < k)%nat.
Proof.
  intros Hb Hac. destruct (topological_order_ok (length tasks) edges Hb) as (topo & Et & Hp & Ho).
  destruct (Ho Hac) as [Hord Edbg]. destruct (topo_sorted topo tasks Hp) as [Hl Hs].
  assert (topological_order_with debug (length tasks) edges = Ok topo) as E by by destruct debug.
  unfold ExecutionGraph_build_with. rewrite E. cbn [obind]. do 2 eexists. split; [reflexivity|].
  split_and!; [exact Hp|done|exact Hl|exact Hs|].
  intros from to Hin. assert (to ∈ topo) as [k Hk]%list_elem_of_lookup_1.
  { rewrite Hp. apply list_elem_of_omap in Hin as (e & _ & He). unfold edge_indices in He.
    destruct (_ && _) eqn:E1; [|done]. injection He as <- <-. apply andb_true_iff in E1 as [_ E1%bool_decide_eq_true].
    apply elem_of_seq. lia. }
  pose proof (Hord k to Hk from Hin) as Hf. apply list_elem_of_lookup_1 in Hf as [j Hj].
  apply lookup_take_Some in Hj as [Hj Hlt]. by exists j, k.
Qed.
End Ordering.

(** ** Content hashes *)
Section Bindings.
Context `{BincodeLaws} (blake3 : list Z -> list Z).

Definition text (s : list Z) : Prop := bytes s /\ utf8_valid s = true /\ len s <= u64_MAX.

Lemma str_inj a b r1 r2 : text a -> text b -> put_str a ++ r1 = put_str b ++ r2 -> a = b /\ r1 = r2.
Proof. intros (? & ? & ?) (? & ? & ?). by apply decodes_inj with (r := get_str); apply str_ok. Qed.
Lemma u8_inj a b r1 r2 : in_u8 a -> in_u8 b -> put_u8 a ++ r1 = put_u8 b ++ r2 -> a = b /\ r1 = r2.
Proof. intros ? ?. by apply decodes_inj with (r := get_u8); apply u8_ok. Qed.
Lemma u32_inj a b r1 r2 : in_u32 a -> in_u32 b -> put_u32 a ++ r1 = put_u32 b ++ r2 -> a = b /\ r1 = r2.
Proof. intros ? ?. by apply decodes_inj with (r := get_u32); apply u32_ok. Qed.
Lemma u64_inj a b r1 r2 : in_u64 a -> in_u64 b -> put_u64 a ++ r1 = put_u64 b ++ r2 -> a = b /\ r1 = r2.
Proof. intros ? ?. by apply decodes_inj with (r := get_u64); apply u64_ok. Qed.
Lemma bool_inj a b r1 r2 : put_bool a ++ r1 = put_bool b ++ r2 -> a = b /\ r1 = r2.
Proof. unfold put_bool. intros [E1 ->]%u8_inj; [|destruct a; int_lia|destruct b; int_lia]. by destruct a, b. Qed.
Lemma consistency_inj a b r1 r2 : put_ConsistencyLevel a ++ r1 = put_ConsistencyLevel b ++ r2 -> a = b /\ r1 = r2.
Proof.
  unfold put_ConsistencyLevel. intros E1.
  apply (decodes_inj get_variant _ _ (match a with Local_ => 0 | Linearizable => 1 end)
           (match b with Local_ => 0 | Linearizable => 1 end)) in E1 as [E1 ->];
    [|apply variant_ok; destruct a; int_lia|apply variant_ok; destruct b; int_lia]. by destruct a, b.
Qed.

Definition inputs_typed (i : OperationInputs) : Prop :=
  match i with
  | Ingest strategy collection shard _ => text strategy /\ text collection /\ in_u8 shard
  | Search k collection shard _ _ _ _ => in_u32 k /\ text collection /\ in_u8 shard
  | MemoryUpsert collection shard => text collection /\ in_u8 shard
  | Consolidate shard | Contradict shard | TreeBuild shard | Snapshot shard => in_u8 shard
  | HealthCheck => True
  | Delete collection shard mode => text collection /\ in_u8 shard /\ text mode
  | BatchInsert count collection shard => in_u32 count /\ text collection /\ in_u8 shard
  | GraphRag k depth collection shard => in_u32 k /\ in_u32 depth /\ text collection /\ in_u8 shard
  | MemorySearch k collection shard _ => in_u32 k /\ text collection /\ in_u8 shard
  | CommunityDetect collection shard max_iter => text collection /\ in_u8 shard /\ in_u32 max_iter
  | CommunitySearch k depth _ collection shard => in_u32 k /\ in_u32 depth /\ text collection /\ in_u8 shard
  | TreeQuery k shard | TreeHybrid k shard _ => in_u32 k /\ in_u8 shard
  end.

Definition policy_typed (p : ExecutionPolicy) : Prop :=
  in_u32 (timeout_secs p) /\ in_u8 (retry_limit p) /\ in_u32 (max_kernel_writes (resource_budget p))
  /\ in_u32 (max_embed_calls (resource_budget p)) /\ in_u32 (max_llm_tokens (resource_budget p)).

(** The position of a variant. *)
Definition inputs_code (i : OperationInputs) : nat :=
  match i with
  | Ingest _ _ _ _ => 0 | Search _ _ _ _ _ _ _ => 1 | MemoryUpsert _ _ => 2 | Consolidate _ => 3 | Contradict _ => 4
  | HealthCheck => 5 | Delete _ _ _ => 6 | BatchInsert _ _ _ => 7 | GraphRag _ _ _ _ => 8 | MemorySearch _ _ _ _ => 9
  | CommunityDetect _ _ _ => 10 | CommunitySearch _ _ _ _ _ => 11 | TreeBuild _ => 12 | TreeQuery _ _ => 13
  | TreeHybrid _ _ _ => 14 | Snapshot _ => 15
  end.
Definition all_tags : list (list Z) :=
  inputs_tag <$>
    [Ingest [] [] 0 false; Search 0 [] 0 false false false Local_; MemoryUpsert [] 0; Consolidate 0; Contradict 0;
     HealthCheck; Delete [] 0 []; BatchInsert 0 [] 0; GraphRag 0 0 [] 0; MemorySearch 0 [] 0 false;
     CommunityDetect [] 0 0; CommunitySearch 0 0 false [] 0; TreeBuild 0; TreeQuery 0 0; TreeHybrid 0 0 false; Snapshot 0].

Lemma tag_code i : all_tags !! inputs_code i = Some (inputs_tag i).
Proof. by destruct i. Qed.

Lemma tag_inj i j : inputs_tag i = inputs_tag j -> inputs_code i = inputs_code j.
Proof.
  intros E1. apply (NoDup_lookup all_tags _ _ (inputs_tag i)); [|apply tag_code|rewrite E1; apply tag_code].
  apply (bool_decide_unpack _). vm_compute. done.
Qed.

Lemma tag_text i : text (inputs_tag i).
Proof.
  assert (Forall text all_tags) as Ht.
  { repeat apply Forall_cons_2; try apply Forall_nil_2; (split_and!; [|vm_compute; done|vm_compute; discriminate]);
      apply Forall_forall; apply (proj1 (Forall_forall _ _)); apply (bool_decide_unpack _); vm_compute; done. }
  rewrite Forall_lookup in Ht. eapply Ht, tag_code.
Qed.

Lemma inputs_inj i j r1 r2 :
  inputs_typed i -> inputs_typed j -> put_OperationInputs i ++ r1 = put_OperationInputs j ++ r2 -> i = j /\ r1 = r2.
Proof.
  intros Hi Hj. unfold put_OperationInputs. rewrite <- !app_assoc.
  intros [Et E1]%str_inj; [|apply tag_text..]. apply tag_inj in Et.
  destruct i, j; try discriminate Et; clear Et; cbn [inputs_typed] in *; destruct_and?; rewrite <- ?app_assoc in E1;
    repeat match goal with
      | Hx : put_str _ ++ _ = put_str _ ++ _ |- _ => apply str_inj in Hx as [-> Hx]; [|done|done]
      | Hx : put_u8 _ ++ _ = put_u8 _ ++ _ |- _ => apply u8_inj in Hx as [-> Hx]; [|done|done]
      | Hx : put_u32 _ ++ _ = put_u32 _ ++ _ |- _ => apply u32_inj in Hx as [-> Hx]; [|done|done]
      | Hx : put_bool _ ++ _ = put_bool _ ++ _ |- _ => apply bool_inj in Hx as [-> Hx]
      | Hx : put_ConsistencyLevel _ ++ _ = put_ConsistencyLevel _ ++ _ |- _ => apply consistency_inj in Hx as [-> Hx]
      end; done.
Qed.

Lemma policy_inj p q r1 r2 :
  policy_typed p -> policy_typed q -> put_ExecutionPolicy p ++ r1 = put_ExecutionPolicy q ++ r2 -> p = q /\ r1 = r2.
Proof.
  destruct p as [? ? []], q as [? ? []]. unfold policy_typed, put_ExecutionPolicy. simpl. intros; destruct_and?.
  rewrite <- !app_assoc in *. 
  repeat match goal with
    | Hx : put_u8 _ ++ _ = put_u8 _ ++ _ |- _ => apply u8_inj in Hx as [-> Hx]; [|done|done]
    | Hx : put_u32 _ ++ _ = put_u32 _ ++ _ |- _ => apply u32_inj in Hx as [-> Hx]; [|done|done]
    end. done.
Qed.

Definition context_typed (c : PlanningContext) : Prop :=
  in_u8 (cs_shard_count (pc_capability_set c)) /\ in_u32 (pc_schema_version c) /\ in_u8 (pc_shard_count c)
  /\ in_u64 (pc_cluster_epoch c).

Lemma context_inj c d : context_typed c -> context_typed d -> put_PlanningContext c = put_PlanningContext d -> c = d.
Proof.
  destruct c as [[] ? ? ? ?], d as [[] ? ? ? ?]. unfold context_typed, put_PlanningContext. simpl. intros. destruct_and?.
  repeat match goal with
    | Hx : put_u8 _ ++ _ = put_u8 _ ++ _ |- _ => apply u8_inj in Hx as [-> Hx]; [|done|done]
    | Hx : put_u32 _ ++ _ = put_u32 _ ++ _ |- _ => apply u32_inj in Hx as [-> Hx]; [|done|done]
    | Hx : put_u64 _ ++ _ = put_u64 _ ++ _ |- _ => apply u64_inj in Hx as [-> Hx]; [|done|done]
    | Hx : put_bool _ ++ _ = put_bool _ ++ _ |- _ => apply bool_inj in Hx as [-> Hx]
    end.
  match goal with Hx : put_bool _ = put_bool _ |- _ =>
    assert (Hy : put_bool pc_cluster_mode ++ [] = put_bool pc_cluster_mode0 ++ []) by (by rewrite Hx);
    apply bool_inj in Hy as [-> _] end. done.
Qed.

(** What [compute] and [new] produce. *)
Definition wf_operation (op : Operation) : Prop :=
  inputs_typed (op_inputs op) /\ policy_typed (op_policy op)
  /\ op_hash op = compute_operation_hash blake3 (op_kind op) (op_inputs op) (op_policy op).
Definition wf_fingerprint (fp : PlannerFingerprint) : Prop :=
  length (fp_routing_config_hash fp) = 32%nat /\ length (fp_feature_flags_hash fp) = 32%nat
  /\ in_u32 (fp_metadata_schema_version fp)
  /\ fp = PlannerFingerprint_compute blake3 (fp_version fp) (fp_routing_config_hash fp) (fp_feature_flags_hash fp)
             (fp_metadata_schema_version fp).

Definition same_request (op op' : Operation) : Prop :=
  op_kind op = op_kind op' /\ op_inputs op = op_inputs op' /\ op_policy op = op_policy op' /\ op_hash op = op_hash op'.

(** What the three hashes of a request are taken of. *)
Definition op_message (op : Operation) : list Z := operation_input (op_kind op) (op_inputs op) (op_policy op).
Definition fp_message (fp : PlannerFingerprint) : list Z :=
  fingerprint_input (fp_version fp) (fp_routing_config_hash fp) (fp_feature_flags_hash fp) (fp_metadata_schema_version fp).

Lemma kind_inj k k' : kind_discriminant k = kind_discriminant k' -> k = k'.
Proof. by destruct k, k'. Qed.

Lemma operation_hash_binds op op' :
  wf_operation op -> wf_operation op' -> op_hash op = op_hash op' ->
  same_request op op' \/ collision blake3 [op_message op; op_message op'].
Proof.
  intros (Hi & Hp & E1) (Hi' & Hp' & E2) E3. rewrite E1, E2 in E3.
  apply blake3_inj in E3 as [E3 | ?]; [|by right]. left. unfold operation_input in E3. injection E3 as Ek Er.
  apply inputs_inj in Er as [Ei Er]; [|done..].
  assert (put_ExecutionPolicy (op_policy op) ++ [] = put_ExecutionPolicy (op_policy op') ++ []) as Er' by (by rewrite Er).
  apply policy_inj in Er' as [Ep _]; [|done..]. apply kind_inj in Ek.
  split_and!; [done..|]. by rewrite E1, E2, Ek, Ei, Ep.
Qed.

Lemma context_hash_binds c c' :
  context_typed c -> context_typed c' ->
  PlanningContextHash_compute blake3 c = PlanningContextHash_compute blake3 c' ->
  c = c' \/ collision blake3 [put_PlanningContext c; put_PlanningContext c'].
Proof. intros Hc Hc' [E1 | ?]%blake3_inj; [left; by apply context_inj|by right]. Qed.

Lemma fingerprint_hash_binds fp fp' :
  wf_fingerprint fp -> wf_fingerprint fp' -> fp_hash fp = fp_hash fp' ->
  fp = fp' \/ collision blake3 [fp_message fp; fp_message fp'].
Proof.
  intros (L1 & L2 & Hs & ->) (L1' & L2' & Hs' & ->). simpl. intros [E1 | ?]%blake3_inj; [|by right]. left.
  unfold fingerprint_input in E1.
  apply app_inj_2 in E1 as [-> E1]; [|rewrite !length_app, !length_le_bytes; lia].
  apply app_inj_1 in E1 as [-> E1]; [|lia]. apply app_inj_1 in E1 as [-> E1]; [|lia].
  apply (f_equal le_val) in E1. rewrite !le_val_small in E1 by int_lia. by rewrite E1.
Qed.
End Bindings.

(** ** Planners *)

(** Equal but for the random id. *)
Definition same_plan (g g' : ExecutionGraph) : Prop :=
  g = mkGraph (g_id g) (g_operation_hash g') (g_planner_fingerprint g') (g_planning_context_hash g') (g_graph_hash g')
        (g_tasks g') (g_edges g') (g_retention g').

(** What the trait asks for: equal inputs give equal graphs. *)
Class PlannerLaws `{Planner} : Prop := {
  plan_deterministic id id' op op' ctx fp :
    same_request op op' ->
    match plan id op ctx fp, plan id' op' ctx fp with
    | Ok g, Ok g' => same_plan g g'
    | Err e, Err e' => e = e'
    | Panic, Panic | Hang, Hang => True
    | _, _ => False
    end;
}.

Lemma build_deterministic blake3 id id' op fp ctx tasks edges retention :
  match no_error (E := PlannerError) (ExecutionGraph_build blake3 id op fp ctx tasks edges retention),
        no_error (E := PlannerError) (ExecutionGraph_build blake3 id' op fp ctx tasks edges retention) with
  | Ok g, Ok g' => same_plan g g'
  | Err e, Err e' => e = e'
  | Panic, Panic | Hang, Hang => True
  | _, _ => False
  end.
Proof. unfold ExecutionGraph_build, ExecutionGraph_build_with. by destruct (topological_order_with _ _ _) as [|[]| |]. Qed.

#[export] Instance noop_laws `{Bincode} blake3 : PlannerLaws (H := NoOpPlanner blake3).
Proof.
  split. intros id id' op op' ctx fp (Ek & Ei & Ep & Eh). simpl. unfold noop_plan. rewrite Ek, Eh.
  destruct (op_kind op'); apply build_deterministic.
Qed.

#[export] Instance ingest_laws `{Bincode} blake3 : PlannerLaws (H := IngestPlanner blake3).
Proof.
  split. intros id id' op op' ctx fp (Ek & Ei & Ep & Eh). simpl. unfold ingest_plan. rewrite Ei, Eh.
  destruct (op_inputs op') as [? ? ? []| | | | | | | | | | | | | | |]; try done; apply build_deterministic.
Qed.

(** ** Keys *)
Lemma hex_byte_inj a b : in_u8 a -> in_u8 b -> hex_fixed 2 a = hex_fixed 2 b -> a = b.
Proof.
  intros Ha Hb E1. apply (f_equal (radix16_digits 0)) in E1. rewrite !radix16_hex_fixed in E1 by int_lia.
  injection E1. lia.
Qed.

Lemma hex_app_inj bs bs' r r' :
  Forall in_u8 bs -> Forall in_u8 bs' -> length bs = length bs' -> hex bs ++ r = hex bs' ++ r' -> bs = bs' /\ r = r'.
Proof.
  intros Hb. revert bs'. induction Hb as [|b bs Hb _ IH]; intros [|b' bs'] Hb' Hl; try done.
  apply Forall_cons in Hb' as [Hb' Hbs']. change (hex (b :: bs)) with (hex_fixed 2 b ++ hex bs).
  change (hex (b' :: bs')) with (hex_fixed 2 b' ++ hex bs'). rewrite <- !app_assoc. intros E1.
  apply app_inj_1 in E1 as [E1 E2]; [|by rewrite !length_hex_fixed].
  apply hex_byte_inj in E1 as ->; [|done..]. apply IH in E2 as [-> ->]; [done|done|]. by injection Hl.
Qed.

Definition key_typed (k : CacheKey) : Prop :=
  hash_typed (ck_op_hash k) /\ hash_typed (ck_fp_hash k) /\ hash_typed (ck_ctx_hash k).

Lemma db_key_inj k k' : key_typed k -> key_typed k' -> to_db_key k = to_db_key k' -> k = k'.
Proof.
  destruct k as [a b c], k' as [a' b' c']. intros ([Ha La] & [Hb Lb] & [Hc Lc]) ([Ha' La'] & [Hb' Lb'] & [Hc' Lc']).
  unfold to_db_key. simpl in *. intros E1.
  apply hex_app_inj in E1 as [-> E1]; [|done|done|congruence]. injection E1 as E1.
  apply hex_app_inj in E1 as [-> E1]; [|done|done|congruence]. injection E1 as E1.
  assert (hex c ++ [] = hex c' ++ []) as E2 by (by rewrite E1).
  apply hex_app_inj in E2 as [-> _]; [done|done|done|congruence].
Qed.

(** ** Caches *)
Section Caching.
Context `{BincodeLaws} `{PlannerJsonLaws} `{PlannerLaws} (blake3 : list Z -> list Z).
Context (first : GraphMap -> option CacheKey).

(** A request: an operation, a context and a fingerprint; and the messages its key
    is made of. *)
Abbreviation Request := (Operation * PlanningContext * PlannerFingerprint)%type.
Definition request_messages (r : Request) : list (list Z) :=
  [op_message r.1.1; put_PlanningContext r.1.2; fp_message r.2].

(** [g] was planned for one of the requests [reqs], with key [k]. *)
Definition planned (reqs : list Request) (k : CacheKey) (g : ExecutionGraph) : Prop :=
  exists id op ctx fp, (op, ctx, fp) ∈ reqs /\ wf_operation blake3 op /\ context_typed ctx /\ wf_fingerprint blake3 fp
    /\ key_of blake3 op ctx fp = k /\ plan id op ctx fp = Ok g.

(** The caches hold plans made for [reqs]. *)
Record caches_sound (reqs : list Request) (c : Caches) : Prop := {
  cs_memory k g : ec_inner (cc_memory c) !! k = Some g -> planned reqs k g;
  cs_size : (cache_len (cc_memory c) <= Nat.max 1 (ec_capacity (cc_memory c)))%nat;
  cs_db db k v : cc_db c = Some db -> key_typed k -> db !! to_db_key k = Some v ->
    exists e g, v = entry_to_json e /\ pe_graph_json e = graph_to_json g /\ planned reqs k g;
}.

Lemma planned_mono reqs reqs' k g : reqs ⊆ reqs' -> planned reqs k g -> planned reqs' k g.
Proof. intros Hsub (id & op & ctx & fp & Hin & H'). exists id, op, ctx, fp. split; [by apply Hsub|done]. Qed.

Lemma caches_sound_mono reqs reqs' c : reqs ⊆ reqs' -> caches_sound reqs c -> caches_sound reqs' c.
Proof.
  intros Hsub [Hm Hs Hd]. split; [|done|].
  - intros k g Hg. by eapply planned_mono, Hm.
  - intros db k v Edb Hk Hv. destruct (Hd db k v Edb Hk Hv) as (e & g & ? & ? & Hp). exists e, g. split_and!; [done..|].
    by eapply planned_mono.
Qed.

(** [keys().next()] is a key of the map, if it has one. *)
Definition picks_key : Prop := forall m : GraphMap, m <> ∅ -> exists k, first m = Some k /\ is_Some (m !! k).

Lemma key_of_typed op ctx fp :
  (forall m, hash_typed (blake3 m)) -> wf_operation blake3 op -> wf_fingerprint blake3 fp -> key_typed (key_of blake3 op ctx fp).
Proof.
  intros Hb (_ & _ & Eo) (_ & _ & _ & Ef). unfold key_of, CacheKey_new, key_typed. simpl. rewrite Eo, Ef. split_and!; apply Hb.
Qed.

(** Equal keys stand for equal requests. *)
Lemma planned_same reqs id op ctx fp g :
  wf_operation blake3 op -> context_typed ctx -> wf_fingerprint blake3 fp -> planned reqs (key_of blake3 op ctx fp) g ->
  collision blake3 (((op, ctx, fp) :: reqs) ≫= request_messages) \/ exists g', plan id op ctx fp = Ok g' /\ same_plan g g'.
Proof.
  intros Ho Hc Hf (id' & op' & ctx' & fp' & Hin & Ho' & Hc' & Hf' & Ek & Ep). injection Ek as Eo Efp Ec.
  assert (forall m m', m ∈ request_messages (op', ctx', fp') -> m' ∈ request_messages (op, ctx, fp) ->
    collision blake3 [m; m'] -> collision blake3 (((op, ctx, fp) :: reqs) ≫= request_messages)) as Hincl.
  { intros m m' Hm Hm' Hcol. eapply collision_incl, Hcol. intros x Hx. apply list_elem_of_bind.
    repeat (apply elem_of_cons in Hx as [-> | Hx]); [exists (op', ctx', fp')|exists (op, ctx, fp)|by apply elem_of_nil in Hx];
      (split; [done|]); [by right|by left]. }
  destruct (operation_hash_binds blake3 op' op Ho' Ho Eo) as [Hs | Hcol];
    [|left; eapply Hincl, Hcol; unfold request_messages; set_solver].
  destruct (context_hash_binds blake3 ctx' ctx Hc' Hc Ec) as [-> | Hcol];
    [|left; eapply Hincl, Hcol; unfold request_messages; set_solver].
  destruct (fingerprint_hash_binds blake3 fp' fp Hf' Hf Efp) as [-> | Hcol];
    [|left; eapply Hincl, Hcol; unfold request_messages; set_solver]. right.
  pose proof (plan_deterministic id' id op' op ctx fp Hs) as Hd. rewrite Ep in Hd.
  destruct (plan id op ctx fp) as [g'| | |]; try done. by exists g'.
Qed.

Lemma cache_insert_sound reqs k g c :
  picks_key -> (forall k g, ec_inner c !! k = Some g -> planned reqs k g) -> planned reqs k g ->
  (cache_len c <= Nat.max 1 (ec_capacity c))%nat ->
  (forall k' g', ec_inner (cache_insert first k g c) !! k' = Some g' -> planned reqs k' g')
  /\ (cache_len (cache_insert first k g c) <= Nat.max 1 (ec_capacity c))%nat
  /\ cache_get k (cache_insert first k g c) = Some g.
Proof.
  intros Hpick Hm Hg Hs. unfold cache_insert, cache_len, cache_get in *. cbn [ec_inner ec_capacity].
  split_and!; [| |apply lookup_insert_eq].
  - intros k' g'. destruct (decide (k = k')) as [<- | Hne]; [rewrite lookup_insert_eq; by intros [= <-]|].
    rewrite lookup_insert_ne by done. destruct (_ && _); [|by apply Hm].
    destruct (first (ec_inner c)) as [x|]; [|by apply Hm]. intros [_ Hx]%lookup_delete_Some. by apply Hm.
  - destruct (bool_decide (is_Some (ec_inner c !! k))) eqn:Ek.
    + rewrite andb_false_r. apply bool_decide_eq_true in Ek. by rewrite (map_size_insert_Some _ _ _ Ek).
    + rewrite andb_true_r. apply bool_decide_eq_false, eq_None_not_Some in Ek.
      case_bool_decide as Hcap; [|rewrite map_size_insert_None by done; lia].
      destruct (decide (ec_inner c = ∅)) as [E0 | Hne].
      * rewrite E0. destruct (first ∅); rewrite ?delete_empty, insert_empty, map_size_singleton; lia.
      * destruct (Hpick _ Hne) as (x & -> & Hx).
        rewrite map_size_insert_None, (map_size_delete_Some _ _ Hx) by (by apply lookup_delete_None; right).
        assert (0 < size (ec_inner c))%nat; [|lia].
        assert (size (ec_inner c) <> 0)%nat; [|lia]. by intros Es%map_size_empty_inv.
Qed.

(** For any planner that gives equal requests equal graphs (both planners of
    the crate do), plan_with_cache on sound caches returns what the planner would:
    the same graph but for its random id, or the same error with the caches
    untouched, unless two of the messages hashed for this request and those the
    caches were filled for collide; the graph is then in the in-process cache,
    both caches stay sound and the in-process one within its capacity. *)
Theorem plan_with_cache_faithful reqs id now now' op ctx fp c :
  (forall m, hash_typed (blake3 m)) -> picks_key -> caches_sound reqs c ->
  wf_operation blake3 op -> context_typed ctx -> wf_fingerprint blake3 fp ->
  match plan_with_cache blake3 first id now now' op ctx fp c with
  | (c', Ok g) =>
      caches_sound ((op, ctx, fp) :: reqs) c' /\ cache_get (key_of blake3 op ctx fp) (cc_memory c') = Some g
      /\ (collision blake3 (((op, ctx, fp) :: reqs) ≫= request_messages) \/ exists g', plan id op ctx fp = Ok g' /\ same_plan g g')
  | (c', Err e) => c' = c /\ plan id op ctx fp = Err e
  | (c', Panic) => c' = c /\ plan id op ctx fp = Panic
  | (c', Hang) => c' = c /\ plan id op ctx fp = Hang
  end.
Proof.
  intros Hb Hpick Hsound0 Ho Hc Hf. set (reqs' := (op, ctx, fp) :: reqs) in *.
  assert (caches_sound reqs' c) as Hsound by (eapply caches_sound_mono, Hsound0; set_solver).
  pose proof Hsound as [Hm Hs Hd].
  assert (forall k g, planned reqs' k g -> key_of blake3 op ctx fp = k ->
    collision blake3 (reqs' ≫= request_messages) \/ exists g', plan id op ctx fp = Ok g' /\ same_plan g g') as Hsame.
  { intros k g Hg <-. destruct (planned_same reqs' id op ctx fp g Ho Hc Hf Hg) as [Hcol | ?]; [left|by right].
    eapply collision_incl, Hcol. intros x (r & Hx & Hr)%list_elem_of_bind. apply list_elem_of_bind. exists r. split; [done|].
    apply elem_of_cons in Hr as [-> | Hr]; [by left|done]. }
  pose proof (key_of_typed op ctx fp Hb Ho Hf) as Hkt. unfold plan_with_cache, sbind, sget.
  set (k := key_of blake3 op ctx fp) in *.
  destruct (cache_get k (cc_memory c)) as [g|] eqn:Eg.
  { split; [done|]. split; [done|]. by eapply Hsame; [apply Hm|]. }
  destruct (db_hit k now (cc_db c)) as [g|] eqn:Eh.
  - assert (planned reqs' k g) as Hg.
    { unfold db_hit, db_cache_get in Eh. destruct (cc_db c) as [db|] eqn:Edb; [|done].
      destruct (db !! to_db_key k) as [v|] eqn:Ev; [|done].
      destruct (Hd db k v eq_refl Hkt Ev) as (e & g0 & -> & Ej & Hp). rewrite entry_json_ok in Eh.
      destruct (is_expired e now); [done|]. rewrite Ej, graph_json_ok in Eh. by injection Eh as <-. }
    destruct (cache_insert_sound reqs' k g (cc_memory c) Hpick Hm Hg Hs) as (Hm' & Hs' & Hget).
    split; [split; [exact Hm'|exact Hs'|exact Hd]|]. split; [exact Hget|]. by apply (Hsame k).
  - unfold slift. destruct (plan id op ctx fp) as [g|e| |] eqn:Ep; [|done..].
    assert (planned reqs' k g) as Hg by (exists id, op, ctx, fp; split; [by left|done]).
    destruct (cache_insert_sound reqs' k g (cc_memory c) Hpick Hm Hg Hs) as (Hm' & Hs' & Hget).
    split; [split; [exact Hm'|exact Hs'|]|split; [exact Hget|right; exists g; split; [done|by destruct g]]].
    cbn [cc_db smodify]. intros db k' v Edb Hk' Hv. destruct (cc_db c) as [db0|]; [|done]. injection Edb as <-.
    unfold db_cache_put in Hv. destruct (decide (k = k')) as [<- | Hne].
    + rewrite lookup_insert_eq in Hv. injection Hv as <-. by eexists _, g.
    + rewrite lookup_insert_ne in Hv by (intros E1%db_key_inj; done). by eapply Hd.
Qed.
End Caching.

(** ** Concrete graphs *)

(** Two graphs with different dependencies and the same hash: the order is
    hashed, not the edges. *)
Definition three_tasks : list TaskSpec := [mkTask 0 TEmbed [] None 0; mkTask 1 TSearch [] None 0; mkTask 2 TProofFragment [] None 0].

(** Two graphs over the same tasks, one a chain and one without dependencies,
    with the same graph hash, whatever the hash function. *)
Theorem graph_hash_ignores_edges blake3 id op fp ctx :
  exists g g',
    ExecutionGraph_build blake3 id op fp ctx three_tasks [mkTaskEdge 0 1; mkTaskEdge 1 2] 0 = Ok g
    /\ ExecutionGraph_build blake3 id op fp ctx three_tasks [] 0 = Ok g'
    /\ g_graph_hash g = g_graph_hash g' /\ predecessors g 2 = [1] /\ predecessors g' 2 = [].
Proof. do 2 eexists. split; [reflexivity|]. split; [reflexivity|]. done. Qed.

Definition diamond : list TaskEdge := [mkTaskEdge 3 1; mkTaskEdge 3 2; mkTaskEdge 1 0; mkTaskEdge 2 0; mkTaskEdge 9 0].
Definition four_tasks : list TaskSpec := mkTask 3 TReadIndex [] None 0 :: three_tasks.

Lemma descending_acyclic E : Forall (fun e => e.2 < e.1)%nat E -> acyclic E.
Proof.
  rewrite Forall_forall. intros Hd v Hv.
  assert (forall a b, tc (precedes E) a b -> (b < a)%nat) as Hlt; [|specialize (Hlt v v Hv); lia].
  induction 1 as [a b Hab|a b c Hab _ IH]; [exact (Hd (a, b) Hab)|specialize (Hd (a, b) Hab); simpl in Hd; lia].
Qed.

Lemma execution_order_respects_edges_witness :
  exists (g : ExecutionGraph) (topo : list nat),
    ExecutionGraph_build_with (fun m => m) true (mkExecutionId 0 0) [] (mkFingerprint [] [] [] 0 []) [] four_tasks diamond 0 = Ok g
    /\ length (tasks_in_topo_order g) = 4%nat
    /\ (forall from to, (from, to) ∈ task_pairs four_tasks diamond ->
        exists j k, topo !! j = Some from /\ topo !! k = Some to /\ (j < k)%nat).
Proof.
  destruct (execution_order_respects_edges (fun m => m) true (mkExecutionId 0 0) [] (mkFingerprint [] [] [] 0 []) [] four_tasks diamond 0)
    as (g & topo & Eg & _ & _ & Hl & _ & Hord).
  - vm_compute. discriminate.
  - apply descending_acyclic. vm_compute. repeat apply Forall_cons_2; try apply Forall_nil_2; simpl; lia.
  - exists g, topo. split_and!; [exact Eg|exact Hl|exact Hord].
Defined.

(** ** A concrete JSON: codes of [Countable] types *)
Definition kind_code (k : TaskKind) : nat :=
  match k with
  | TEmbed => 0 | TInsertRecord => 1 | TInsertNode => 2 | TInsertEdge => 3 | TSoftDeleteRecord => 4 | TSearch => 5
  | TGraphRag => 6 | TMemorySearch => 7 | TCommunityDetect => 8 | TCommunitySearch => 9 | TTreeBuild => 10
  | TTreeQuery => 11 | TTreeHybrid => 12 | TLlmComplete => 13 | THttpFetch => 14 | TReadIndex => 15
  | TSnapshotArtifact => 16 | TProofFragment => 17
  end.
Definition kind_decode (n : nat) : TaskKind :=
  nth n [TEmbed; TInsertRecord; TInsertNode; TInsertEdge; TSoftDeleteRecord; TSearch; TGraphRag; TMemorySearch;
         TCommunityDetect; TCommunitySearch; TTreeBuild; TTreeQuery; TTreeHybrid; TLlmComplete; THttpFetch;
         TReadIndex; TSnapshotArtifact; TProofFragment] TEmbed.

Definition task_code (t : TaskSpec) : Z * nat * list Z * option Z * Z :=
  (ts_id t, kind_code (ts_kind t), ts_inputs_json t, ts_shard_id t, ts_topological_index t).
Definition task_decode (p : Z * nat * list Z * option Z * Z) : TaskSpec :=
  let '(id, k, j, s, i) := p in mkTask id (kind_decode k) j s i.
Definition graph_code (g : ExecutionGraph) : (Z * Z) * list Z * (list Z * list Z * list Z * Z * list Z) * list Z * list Z
    * list (Z * nat * list Z * option Z * Z) * list (Z * Z) * Z :=
  let fp := g_planner_fingerprint g in
  ((hi (g_id g), lo (g_id g)), g_operation_hash g,
   (fp_version fp, fp_routing_config_hash fp, fp_feature_flags_hash fp, fp_metadata_schema_version fp, fp_hash fp),
   g_planning_context_hash g, g_graph_hash g, task_code <$> g_tasks g, (fun e => (te_from e, te_to e)) <$> g_edges g,
   g_retention g).
Definition graph_decode (p : (Z * Z) * list Z * (list Z * list Z * list Z * Z * list Z) * list Z * list Z
    * list (Z * nat * list Z * option Z * Z) * list (Z * Z) * Z) : ExecutionGraph :=
  let '(id, op, (v, r, f, s, h), ctx, gh, ts, es, ret) := p in
  mkGraph (mkExecutionId id.1 id.2) op (mkFingerprint v r f s h) ctx gh (task_decode <$> ts)
    ((fun e => mkTaskEdge e.1 e.2) <$> es) ret.

Lemma graph_decode_code g : graph_decode (graph_code g) = g.
Proof.
  destruct g as [[? ?] ? [] ? ? ts es ?]. unfold graph_code, graph_decode. simpl. f_equal.
  - rewrite <- list_fmap_compose. rewrite <- (list_fmap_id ts) at 2. apply list_fmap_ext. intros _ [? [] ? ? ?] _; done.
  - rewrite <- list_fmap_compose. rewrite <- (list_fmap_id es) at 2. apply list_fmap_ext. by intros _ [? ?] _.
Qed.

Definition of_coded {X} `{Countable X} (bs : list Z) : option X :=
  match (get_coded bs).2 with Ok x => Some x | _ => None end.
Lemma of_coded_put {X} `{Countable X} (x : X) : of_coded (put_coded x) = Some x.
Proof. unfold of_coded. destruct (coded_ok x) as [Hr _]. specialize (Hr []). rewrite app_nil_r in Hr. by rewrite Hr. Qed.

#[local] Instance coded_json : PlannerJson := {|
  entry_to_json e := put_coded (pe_graph_json e, pe_cached_at e, pe_expires_at e);
  entry_of_json bs := (fun p : list Z * Z * Z => mkCacheEntry p.1.1 p.1.2 p.2) <$> of_coded bs;
  graph_to_json g := put_coded (graph_code g);
  graph_of_json bs := graph_decode <$> of_coded bs;
|}.
#[local] Instance coded_json_laws : PlannerJsonLaws.
Proof.
  split; intros x; cbn [entry_of_json entry_to_json graph_of_json graph_to_json coded_json]; rewrite of_coded_put.
  - by destruct x.
  - cbn [fmap option_fmap option_map]. by rewrite graph_decode_code.
Qed.

#[local] Existing Instance FixedInt.bincode.
#[local] Existing Instance FixedInt.laws.

Definition demo_fp : PlannerFingerprint := PlannerFingerprint_compute demo_hash [49] (replicate 32 1) (replicate 32 2) 1.
Definition demo_context : PlanningContext := mkContext (mkCapabilities true false false false 1) 1 1 0 false.
Definition demo_operation : Operation :=
  Operation_new demo_hash (mkExecutionId 1 2) 0 KIngest (Ingest [102] [99] 0 true) ExecutionPolicy_default.
Definition first_key (m : GraphMap) : option CacheKey := fst <$> head (map_to_list m).

Lemma first_key_picks : picks_key first_key.
Proof.
  intros m Hm. unfold first_key. destruct (map_to_list m) as [|[k g] l] eqn:El; [by apply map_to_list_empty_iff in El|].
  exists k. split; [done|]. exists g. apply elem_of_map_to_list. rewrite El. by left.
Qed.

#[local] Instance demo_planner : Planner := IngestPlanner demo_hash.
#[local] Instance demo_planner_laws : PlannerLaws := ingest_laws demo_hash.

Definition no_caches : Caches := mkCaches (ExecutionCache_new 0) (Some ∅).

Lemma no_caches_sound : caches_sound demo_hash [] no_caches.
Proof. split; simpl; [by intros|unfold cache_len; simpl; rewrite map_size_empty; lia|by intros ? ? ? [= <-]]. Qed.

Lemma plan_with_cache_faithful_witness :
  match plan_with_cache demo_hash first_key (mkExecutionId 3 4) 5 6 demo_operation demo_context demo_fp no_caches with
  | (c', Ok g) => cache_get (key_of demo_hash demo_operation demo_context demo_fp) (cc_memory c') = Some g
  | _ => False
  end.
Proof.
  pose proof (plan_with_cache_faithful demo_hash first_key [] (mkExecutionId 3 4) 5 6 demo_operation demo_context demo_fp
    no_caches demo_hash_typed first_key_picks no_caches_sound) as Hp.
  assert (wf_operation demo_hash demo_operation) as Ho 
    by (split_and!; try done; cbn; repeat split; repeat constructor; vm_compute; discriminate).
  assert (context_typed demo_context) as Hc by (vm_compute; intuition discriminate).
  assert (wf_fingerprint demo_hash demo_fp) as Hf by (split_and!; [done|done|vm_compute; intuition discriminate|done]).
  specialize (Hp Ho Hc Hf).
  destruct (plan_with_cache _ _ _ _ _ _ _ _ _) as [c' [g|e| |]]; [by destruct Hp as (_ & ? & _)|..];
    destruct Hp as [_ Hp]; revert Hp; vm_compute; discriminate.
Defined.
