(* ===== verification/F32.v ===== *)
(** * Floating point at the boundary

    The engine takes [f32] vectors, converts them to Q16.16 and hands [f32]
    vectors to the host-side indexes.  An [f32] is IEEE 754 binary32 as the
    Standard Library specifies it ([SpecFloat], 24 bits of precision, exponents
    up to 128), so every operation of the code is executable here.

    Models the conversions of [crates/valori-engine/src/engine.rs] and
    [from_f32], [to_f32] of [crates/valori-kernel/src/fxp/ops.rs].  The canonical
    conversion [from_f32] rounds to the nearest fixed-point number and clamps; the
    engine's own conversion agrees with it on multiples of [2 ^ -16]. *)

From Stdlib Require Import SpecFloat.
From stdpp Require Import prelude.
From S2P Require Import Prelude.
From S2P Require Import Fxp.

Definition f32 : Type := spec_float.

Definition f32_mul : f32 -> f32 -> f32 := SFmul 24 128.
Definition f32_div : f32 -> f32 -> f32 := SFdiv 24 128.
Definition f32_add : f32 -> f32 -> f32 := SFadd 24 128.
Definition f32_sub : f32 -> f32 -> f32 := SFsub 24 128.
Definition f32_lt (a b : f32) : bool := SFltb a b.
Definition f32_valid (x : f32) : bool := valid_binary 24 128 x.

(** [z as f32] of an integer, to nearest, ties to even. *)
Definition f32_of_Z (z : Z) : f32 := binary_normalize 24 128 z 0 false.

(** A positive decimal literal [num / den], correctly rounded. *)
Definition f32_literal (num den : Z) : f32 :=
  let '(m, e, l) := SFdiv_core_binary 24 128 num 0 den 0 in binary_round_aux 24 128 false m e l.

(** [m * 2 ^ e], towards zero. *)
Definition trunc_shift (m e : Z) : Z := if 0 <=? e then m * 2 ^ e else m / 2 ^ (- e).

(** [x as i32]: truncates, saturates, and maps NaN to 0. *)
Definition f32_as_i32 (x : f32) : Z :=
  match x with
  | S754_zero _ | S754_nan => 0
  | S754_infinity s => if s then i32_MIN else i32_MAX
  | S754_finite s m e => clamp i32_MIN i32_MAX (cond_Zopp s (trunc_shift (Zpos m) e))
  end.

(** ** The engine's conversion (engine.rs) *)
Definition SCALE_f32 : f32 := f32_of_Z SCALE.
Definition f32_upper : f32 := f32_literal 3276799 100.
Definition f32_lower : f32 := f32_of_Z (-32768).

(** [v > 32767.99 || v < -32768.0] *)
Definition f32_out_of_range (v : f32) : bool := f32_lt f32_upper v || f32_lt v f32_lower.

(** [FxpScalar((v * SCALE as f32) as i32)] *)
Definition fxp_of_f32 (v : f32) : Z := f32_as_i32 (f32_mul v SCALE_f32).

(** [fxp.0 as f32 / SCALE as f32], which is also [to_f32]. *)
Definition to_f32 (z : Z) : f32 := f32_div (f32_of_Z z) SCALE_f32.

(** [r.score as f32 / (SCALE as f32 * SCALE as f32)] *)
Definition f32_of_score (z : Z) : f32 := f32_div (f32_of_Z z) (f32_mul SCALE_f32 SCALE_f32).

(** ** The kernel's conversion (fxp/ops.rs) *)

(** [f32::round]: to the nearest integer, halves away from zero. *)
Definition f32_round (x : f32) : f32 :=
  match x with
  | S754_finite s m e =>
      if 0 <=? e then x
      else binary_normalize 24 128 (cond_Zopp s ((Zpos m + 2 ^ (- e - 1)) / 2 ^ (- e))) 0 s
  | _ => x
  end.

Definition f32_clamp (x lo hi : f32) : f32 := if f32_lt x lo then lo else if f32_lt hi x then hi else x.

Definition f32_is_finite (x : f32) : bool :=
  match x with S754_nan | S754_infinity _ => false | _ => true end.

(** [2_147_483_520.0_f32], the largest [f32] below [2 ^ 31]. *)
Definition CLAMP_MAX : Z := 2147483520.

Definition from_f32 (f : f32) : Z :=
  if negb (f32_is_finite f) then (if f32_lt (S754_zero false) f then i32_MAX else i32_MIN)
  else
    let scaled := f32_round (f32_mul f SCALE_f32) in
    f32_as_i32 (f32_clamp scaled (f32_of_Z i32_MIN) (f32_of_Z CLAMP_MAX)).

(** ** Exact scaling *)
Lemma iter_pos_comm {A} (f : A -> A) p x : SpecFloat.iter_pos f p (f x) = f (SpecFloat.iter_pos f p x).
Proof. revert x. induction p as [p IH|p IH|]; intros x; simpl; by rewrite ?IH. Qed.

Lemma iter_pos_succ {A} (f : A -> A) p x : SpecFloat.iter_pos f (Pos.succ p) x = SpecFloat.iter_pos f p (f x).
Proof. revert x. induction p as [p IH|p IH|]; intros x; simpl; [|done|done]. by rewrite !IH, !iter_pos_comm. Qed.

Lemma shr_exact m p :
  0 <= m ->
  SpecFloat.iter_pos shr_1 p {| shr_m := m * 2 ^ Zpos p; shr_r := false; shr_s := false |}
  = {| shr_m := m; shr_r := false; shr_s := false |}.
Proof.
  intros Hm. revert p.
  assert (forall k, 0 <= k -> shr_1 {| shr_m := 2 * k; shr_r := false; shr_s := false |}
                    = {| shr_m := k; shr_r := false; shr_s := false |}) as H1 by (by intros []).
  induction p as [|p IH] using Pos.peano_ind.
  - change (2 ^ 1) with 2. rewrite Z.mul_comm. by apply H1.
  - rewrite iter_pos_succ, Pos2Z.inj_succ, Z.pow_succ_r, Z.mul_assoc, (Z.mul_comm m), <- Z.mul_assoc by lia.
    rewrite H1 by nia. exact IH.
Qed.

Lemma digits_log2 p : Zpos (digits2_pos p) = Z.log2 (Zpos p) + 1.
Proof. induction p as [p IH|p IH|]; simpl; [destruct p|destruct p|]; simpl in *; lia. Qed.

Lemma digits_bound p n : Zpos (digits2_pos p) <= n -> Zpos p < 2 ^ n.
Proof.
  rewrite digits_log2. intros Hn. pose proof (Z.log2_nonneg (Zpos p)). apply Z.log2_lt_pow2; lia.
Qed.

(** A shift by [n] bits that are all zero. *)
Lemma shr_fexp_exact m e n :
  0 <= m -> 0 <= n -> fexp 24 128 (Zdigits2 (m * 2 ^ n) + e) = e + n ->
  shr_fexp 24 128 (m * 2 ^ n) e loc_Exact = ({| shr_m := m; shr_r := false; shr_s := false |}, e + n).
Proof.
  intros Hm Hn E1. unfold shr_fexp. rewrite E1. replace (e + n - e) with n by lia.
  cbn [shr_record_of_loc]. destruct n as [|p|p]; cbn [shr]; [|by rewrite shr_exact|lia].
  by rewrite Z.mul_1_r, Z.add_0_r.
Qed.

(** Rounding is the identity on [m * 2 ^ e] once [m] has the right size, unless
    the exponent is too large. *)
Lemma round_exact_or_inf s p e n :
  0 <= n -> fexp 24 128 (Zpos (digits2_pos p) + n + e) = e + n ->
  fexp 24 128 (Zpos (digits2_pos p) + (e + n)) = e + n ->
  binary_round_aux 24 128 s (Zpos p * 2 ^ n) e loc_Exact
  = if e + n <=? 104 then S754_finite s p (e + n) else S754_infinity s.
Proof.
  intros Hn E1 E2. unfold binary_round_aux.
  assert (Zdigits2 (Zpos p * 2 ^ n) = Zpos (digits2_pos p) + n) as Ed.
  { rewrite <- Z.shiftl_mul_pow2 by lia. destruct (Z.shiftl (Zpos p) n) as [|q|q] eqn:Eq.
    - apply Z.shiftl_eq_0_iff in Eq; lia.
    - simpl. rewrite !digits_log2, <- Eq, Z.log2_shiftl by lia. lia.
    - pose proof (proj2 (Z.shiftl_nonneg (Zpos p) n)). lia. }
  rewrite shr_fexp_exact by (rewrite ?Ed; lia). cbn [shr_m loc_of_shr_record round_nearest_even].
  replace (Zpos p) with (Zpos p * 2 ^ 0) by lia.
  rewrite shr_fexp_exact by (rewrite ?Z.mul_1_r; simpl Zdigits2; lia).
  cbn [shr_m]. by rewrite Z.add_0_r.
Qed.

Lemma round_exact s p e n :
  0 <= n -> fexp 24 128 (Zpos (digits2_pos p) + n + e) = e + n ->
  fexp 24 128 (Zpos (digits2_pos p) + (e + n)) = e + n -> e + n <= 104 ->
  binary_round_aux 24 128 s (Zpos p * 2 ^ n) e loc_Exact = S754_finite s p (e + n).
Proof. intros Hn E1 E2 He. rewrite round_exact_or_inf by done. by rewrite (proj2 (Z.leb_le (e + n) 104)) by lia. Qed.

Lemma trunc_shift_pow m e k : 0 <= k -> trunc_shift (m * 2 ^ k) e = trunc_shift m (e + k).
Proof.
  intros Hk. unfold trunc_shift.
  destruct (Z.leb_spec 0 e), (Z.leb_spec 0 (e + k)); [|lia| |].
  - by rewrite <- Z.mul_assoc, <- Z.pow_add_r, (Z.add_comm k) by lia.
  - replace k with (e + k + - e) at 1 by lia. rewrite Z.pow_add_r, Z.mul_assoc by lia. apply Z.div_mul. lia.
  - replace (- e) with (- (e + k) + k) by lia. rewrite Z.pow_add_r by lia. apply Z.div_mul_cancel_r; lia.
Qed.

Lemma SCALE_f32_eq : SCALE_f32 = S754_finite false 8388608 (-7).
Proof. reflexivity. Qed.

(** Scaling by [2 ^ 16] loses nothing below the overflow threshold: the exponent
    grows by 16, less [t] for a mantissa that is normalized. *)
Lemma scale_f32 s m e :
  bounded 24 128 m e = true ->
  exists m' t, 0 <= t /\ Zpos m' = Zpos m * 2 ^ t /\ Zpos m' < 2 ^ 24 /\ (-126 <= e -> t = 0 /\ 2 ^ 23 <= Zpos m)
    /\ f32_mul (S754_finite s m e) SCALE_f32
       = if e + 16 - t <=? 104 then S754_finite s m' (e + 16 - t) else S754_infinity s.
Proof.
  unfold bounded, canonical_mantissa. rewrite andb_true_iff, Z.eqb_eq, Z.leb_le. intros [Hc _].
  rewrite SCALE_f32_eq. unfold f32_mul, SFmul. rewrite xorb_false_r, Pos2Z.inj_mul.
  unfold fexp, emin in Hc.
  assert (1 <= Zpos (digits2_pos m)) as Hd by lia. set (d := Zpos (digits2_pos m)) in *.
  (* the mantissa keeps [j] of the 23 zero bits of the product *)
  set (j := Z.max (d + e - 8) (-149) - (e - 7)).
  assert (0 <= j <= 23) as Hj by lia.
  assert (Zpos m * 8388608 = Zpos m * 2 ^ (23 - j) * 2 ^ j) as Ep.
  { rewrite <- Z.mul_assoc, <- Z.pow_add_r by lia. by replace (23 - j + j) with 23 by lia. }
  destruct (Zpos m * 2 ^ (23 - j)) as [|q|q] eqn:Eq; [nia| |nia].
  assert (Zpos (digits2_pos q) = d + (23 - j)) as Eq'.
  { unfold d. rewrite !digits_log2, <- Eq, Z.log2_mul_pow2 by lia. lia. }
  rewrite Ep. replace (e + -7) with (e - 7) by lia.
  rewrite round_exact_or_inf by (rewrite ?Eq'; unfold fexp, emin; lia).
  exists q, (23 - j). split_and!; [lia|done|apply digits_bound; lia| |by replace (e - 7 + j) with (e + 16 - (23 - j)) by lia].
  intros He. split; [lia|]. pose proof (Z.log2_spec (Zpos m) ltac:(lia)). pose proof (digits_log2 m).
  replace (Z.log2 (Zpos m)) with 23 in * by lia. lia.
Qed.

Lemma scale_exact s m e :
  bounded 24 128 m e = true -> e <= 88 ->
  exists m' e', f32_mul (S754_finite s m e) SCALE_f32 = S754_finite s m' e'
    /\ trunc_shift (Zpos m') e' = trunc_shift (Zpos m) (e + 16).
Proof.
  intros Hb He. destruct (scale_f32 s m e Hb) as (m' & t & Ht & Em & _ & _ & ->).
  rewrite (proj2 (Z.leb_le _ _)) by lia. do 2 eexists. split; [done|]. rewrite Em, trunc_shift_pow by lia. f_equal. lia.
Qed.

(** ** What the engine stores *)

Lemma not_lt_pos m1 e1 m2 e2 :
  SFltb (S754_finite false m1 e1) (S754_finite false m2 e2) = false -> e2 < e1 \/ e1 = e2 /\ Zpos m2 <= Zpos m1.
Proof.
  unfold SFltb, SFcompare. destruct (Z.compare_spec e1 e2) as [-> | ? | ?]; [|done|lia].
  change (Pos.compare_cont Eq m1 m2) with (Pos.compare m1 m2). destruct (Pos.compare_spec m1 m2); (done || lia).
Qed.

Lemma not_lt_neg m1 e1 m2 e2 :
  SFltb (S754_finite true m1 e1) (S754_finite true m2 e2) = false -> e1 < e2 \/ e1 = e2 /\ Zpos m1 <= Zpos m2.
Proof.
  unfold SFltb, SFcompare. destruct (Z.compare_spec e1 e2) as [-> | ? | ?]; [|lia|done].
  change (Pos.compare_cont Eq m1 m2) with (Pos.compare m1 m2). destruct (Pos.compare_spec m1 m2); simpl; (done || lia).
Qed.

Lemma trunc_shift_bound m e k : 0 <= m -> e <= k -> 0 <= k -> 0 <= trunc_shift m e <= m * 2 ^ k.
Proof.
  intros Hm Hk Hk0. assert (1 <= 2 ^ k) by (apply (Z.pow_le_mono_r 2 0); lia).
  unfold trunc_shift. destruct (Z.leb_spec 0 e).
  - assert (2 ^ e <= 2 ^ k) by (apply Z.pow_le_mono_r; lia). nia.
  - assert (0 < 2 ^ (- e)) by (apply Z.pow_pos_nonneg; lia).
    split; [apply Z.div_pos; lia|]. transitivity m; [apply Z.div_le_upper_bound; nia|nia].
Qed.

(** A component that passes the range check is NaN, or fits after scaling. *)
Lemma in_range_bounds s m e :
  f32_valid (S754_finite s m e) = true -> f32_out_of_range (S754_finite s m e) = false ->
  e <= -8 /\ i32_MIN <= cond_Zopp s (trunc_shift (Zpos m) (e + 16)) <= CLAMP_MAX.
Proof.
  unfold f32_valid, valid_binary, bounded, canonical_mantissa. rewrite andb_true_iff, Z.eqb_eq. intros [Hc _] Hr.
  assert (Zpos m < 2 ^ 24) as Hm by (apply digits_bound; unfold fexp, emin in Hc; lia).
  assert (f32_upper = S754_finite false 16777211 (-9)) as Eu by reflexivity.
  assert (f32_lower = S754_finite true 8388608 (-8)) as El by reflexivity.
  unfold f32_out_of_range, f32_lt in Hr. rewrite Eu, El in Hr. clear Eu El. apply orb_false_iff in Hr as [Hu Hl].
  unfold i32_MIN, CLAMP_MAX. destruct s; unfold cond_Zopp.
  - apply not_lt_neg in Hl. pose proof (trunc_shift_bound (Zpos m) (e + 16) 8). pose proof (trunc_shift_bound (Zpos m) (e + 16) 7).
    destruct Hl as [? | [-> ?]]; lia.
  - apply not_lt_pos in Hu. pose proof (trunc_shift_bound (Zpos m) (e + 16) 7). lia.
Qed.

(** The exact value of [v * 2 ^ 16], towards zero, of a finite [v]. *)
Definition f32_scaled (v : f32) : Z :=
  match v with S754_finite s m e => cond_Zopp s (trunc_shift (Zpos m) (e + 16)) | _ => 0 end.

(** The engine's conversion of a component that passes its range check: the
    multiplication is exact and the cast truncates without saturating; NaN
    becomes 0. *)
Lemma fxp_of_f32_truncates (v : f32) :
  f32_valid v = true -> f32_out_of_range v = false -> fxp_of_f32 v = f32_scaled v /\ in_i32 (fxp_of_f32 v).
Proof.
  intros Hv Hr. destruct v as [s|s| |s m e]; [by destruct s|by destruct s|done|].
  destruct (in_range_bounds s m e Hv Hr) as [He Hb].
  destruct (scale_exact s m e Hv) as (m' & e' & Em & Et); [lia|].
  unfold fxp_of_f32. rewrite Em. unfold f32_as_i32, f32_scaled. rewrite Et.
  assert (clamp i32_MIN i32_MAX (cond_Zopp s (trunc_shift (Zpos m) (e + 16))) = cond_Zopp s (trunc_shift (Zpos m) (e + 16))) as ->
    by (unfold clamp, CLAMP_MAX, i32_MAX in *; lia).
  unfold in_i32, CLAMP_MAX, i32_MAX in *. split; [done|lia].
Qed.

(** ** What the indexes see *)
Lemma iter_xO m p : Zpos (Pos.iter xO m p) = Zpos m * 2 ^ Zpos p.
Proof.
  induction p as [|p IH] using Pos.peano_ind; [simpl; lia|].
  rewrite Pos.iter_succ, Pos2Z.inj_succ, Z.pow_succ_r by lia. lia.
Qed.

Lemma shl_align_ok m e e' :
  e' <= e -> exists mz, shl_align m e e' = (mz, e') /\ Zpos mz = Zpos m * 2 ^ (e - e').
Proof.
  intros He. unfold shl_align. destruct (e' - e) as [|p|p] eqn:Ed; [|lia|].
  - assert (e = e') as <- by lia. exists m. by rewrite Z.sub_diag, Z.mul_1_r.
  - exists (Pos.iter xO m p). rewrite iter_xO. by replace (e - e') with (Zpos p) by lia.
Qed.

(** A fixed-point number of at most 24 bits as a float: exact, normalized. *)
Lemma f32_of_small p :
  Zpos p < 2 ^ 24 ->
  exists m k, 0 <= k <= 23 /\ Zpos m = Zpos p * 2 ^ k /\ Zpos (digits2_pos m) = 24
    /\ forall s, f32_of_Z (cond_Zopp s (Zpos p)) = S754_finite s m (- k).
Proof.
  intros Hp. pose proof (digits_log2 p) as Hd. pose proof (Z.log2_nonneg (Zpos p)) as Hl.
  assert (Z.log2 (Zpos p) < 24) as Hl' by (apply Z.log2_lt_pow2; lia).
  set (k := 23 - Z.log2 (Zpos p)). assert (fexp 24 128 (Zpos (digits2_pos p) + 0) = - k) as Ef by (unfold fexp, emin; lia).
  destruct (shl_align_ok p 0 (- k)) as (m & Em & Hm); [lia|]. replace (0 - - k) with k in Hm by lia.
  assert (Zpos (digits2_pos m) = 24) as Dm by (rewrite digits_log2, Hm, Z.log2_mul_pow2; lia).
  exists m, k. split_and!; [lia|lia|done|done|]. intros s.
  assert (f32_of_Z (cond_Zopp s (Zpos p)) = binary_round 24 128 s p 0) as -> by (by destruct s).
  unfold binary_round. rewrite Ef, Em. rewrite <- (Z.mul_1_r (Zpos m)). change 1 with (2 ^ 0).
  rewrite round_exact by (rewrite ?Dm; unfold fexp, emin; lia). by rewrite Z.add_0_r.
Qed.

Lemma unscale_exact s m k :
  Zpos (digits2_pos m) = 24 -> 0 <= k <= 23 -> f32_div (S754_finite s m (- k)) SCALE_f32 = S754_finite s m (- k - 16).
Proof.
  intros Dm Hk. rewrite SCALE_f32_eq. unfold f32_div, SFdiv, SFdiv_core_binary. simpl Zdigits2. rewrite Dm, xorb_false_r.
  change (Zpos (digits2_pos 8388608)) with 24. unfold fexp, emin.
  replace (Z.min _ _) with (- k - 17) by lia. replace (- k - -7 - (- k - 17)) with 24 by lia.
  rewrite Z.shiftl_mul_pow2 by lia.
  assert (Z.div_eucl (Zpos m * 2 ^ 24) 8388608 = (Zpos m * 2, 0)) as ->.
  { pose proof (Z_div_mod (Zpos m * 2 ^ 24) 8388608 ltac:(lia)) as Hq. destruct (Z.div_eucl _ _) as [q r].
    f_equal; change (2 ^ 24) with (8388608 * 2) in Hq; nia. }
  change (new_location 8388608 0) with loc_Exact. change (Zpos m * 2) with (Zpos m * 2 ^ 1).
  rewrite round_exact by (rewrite ?Dm; unfold fexp, emin; lia). f_equal. lia.
Qed.

(** The host indexes see the stored vector exactly as long as a component has at
    most 24 significant bits: converting it back gives the stored number. *)
Lemma to_f32_roundtrip z :
  Z.abs z < 2 ^ 24 ->
  f32_valid (to_f32 z) = true /\ f32_out_of_range (to_f32 z) = false /\ fxp_of_f32 (to_f32 z) = z.
Proof.
  intros Hz. destruct (decide (z = 0)) as [-> | Hn]; [done|].
  assert (exists s p, z = cond_Zopp s (Zpos p) /\ Zpos p < 2 ^ 24) as (s & p & -> & Hp).
  { destruct z as [|p|p]; [done|exists false, p|exists true, p]; simpl; split; (done || lia). }
  destruct (f32_of_small p Hp) as (m & k & Hk & Em & Dm & Ef).
  unfold to_f32. rewrite Ef, unscale_exact by done.
  assert (f32_valid (S754_finite s m (- k - 16)) = true) as Hv.
  { unfold f32_valid, valid_binary, bounded, canonical_mantissa, fexp, emin. rewrite Dm, andb_true_iff, Z.eqb_eq, Z.leb_le. lia. }
  assert (f32_out_of_range (S754_finite s m (- k - 16)) = false) as Hr.
  { unfold f32_out_of_range, f32_lt, SFltb. change f32_upper with (S754_finite false 16777211 (-9)).
    change f32_lower with (S754_finite true 8388608 (-8)). unfold SFcompare.
    destruct s; [rewrite (proj2 (Z.compare_lt_iff _ (-8))) by lia|rewrite (proj2 (Z.compare_gt_iff (-9) _)) by lia]; done. }
  split_and!; [done|done|].
  destruct (scale_exact s m (- k - 16) Hv) as (m' & e' & Emul & Et); [lia|].
  unfold fxp_of_f32. rewrite Emul. unfold f32_as_i32. rewrite Et, Em. replace (- k - 16 + 16) with (- k) by lia.
  rewrite trunc_shift_pow by lia. replace (- k + k) with 0 by lia.
  change (trunc_shift (Zpos p) 0) with (Zpos p * 1). rewrite Z.mul_1_r. unfold clamp, i32_MIN, i32_MAX. destruct s; simpl; lia.
Qed.

(** ** The canonical conversion *)

(** [z] is [v * 2 ^ 16] rounded to the nearest integer, halves away from zero: with
    [v = c * 2 ^ e], both sides of the comparison are multiplied by [2 ^ k], where
    [k] is the number of fractional bits of [v * 2 ^ 16]. *)
Definition nearest (z : Z) (v : f32) : Prop :=
  match v with
  | S754_zero _ => z = 0
  | S754_finite s m e =>
      let k := Z.max 0 (- (e + 16)) in
      let exact := cond_Zopp s (Zpos m * 2 ^ Z.max 0 (e + 16)) in
      2 * Z.abs (z * 2 ^ k - exact) <= 2 ^ k
      /\ (2 * Z.abs (z * 2 ^ k - exact) = 2 ^ k -> Z.abs exact < Z.abs z * 2 ^ k)
  | _ => False
  end.

(** [z] is exactly [v * 2 ^ 16]. *)
Definition exactly (z : Z) (v : f32) : Prop :=
  match v with
  | S754_zero _ => z = 0
  | S754_finite s m e => z * 2 ^ Z.max 0 (- (e + 16)) = cond_Zopp s (Zpos m * 2 ^ Z.max 0 (e + 16))
  | _ => False
  end.

Lemma clamp_max_eq : f32_of_Z CLAMP_MAX = S754_finite false 16777215 7.
Proof. reflexivity. Qed.

Lemma clamp_min_eq : f32_of_Z i32_MIN = S754_finite true 8388608 8.
Proof. reflexivity. Qed.

Lemma clamp_inf s :
  f32_as_i32 (f32_clamp (S754_infinity s) (f32_of_Z i32_MIN) (f32_of_Z CLAMP_MAX))
  = if s then i32_MIN else CLAMP_MAX.
Proof. by destruct s. Qed.

(** The clamp to the range of [i32], of an integer with at most 24 significant
    bits that is normalized when its exponent is positive. *)
Lemma clamp_finite s m e :
  0 <= e -> 2 ^ 23 <= Zpos m < 2 ^ 24 ->
  f32_as_i32 (f32_clamp (S754_finite s m e) (f32_of_Z i32_MIN) (f32_of_Z CLAMP_MAX))
  = clamp i32_MIN CLAMP_MAX (cond_Zopp s (Zpos m * 2 ^ e)).
Proof.
  intros He Hm. rewrite clamp_max_eq, clamp_min_eq. unfold f32_clamp, f32_lt.
  assert (e <= 7 -> Zpos m * 2 ^ e <= CLAMP_MAX) as Hlo.
  { intros H'. assert (2 ^ e <= 2 ^ 7) by (apply Z.pow_le_mono_r; lia). unfold CLAMP_MAX. nia. }
  assert (8 <= e -> 2 ^ 31 <= Zpos m * 2 ^ e) as Hhi.
  { intros H'. assert (2 ^ 8 <= 2 ^ e) by (apply Z.pow_le_mono_r; lia). nia. }
  destruct s.
  - destruct (SFltb (S754_finite true m e) (S754_finite true 8388608 8)) eqn:El.
    + assert (8 <= e) as H8.
      { revert El. unfold SFltb, SFcompare. destruct (Z.compare_spec e 8); [lia|done|lia]. }
      specialize (Hhi H8). change (f32_as_i32 (S754_finite true 8388608 8)) with i32_MIN. simpl cond_Zopp.
      unfold clamp, i32_MIN, CLAMP_MAX. lia.
    + apply not_lt_neg in El. change (SFltb (S754_finite false 16777215 7) (S754_finite true m e)) with false. cbn iota.
      unfold f32_as_i32, trunc_shift. rewrite (proj2 (Z.leb_le 0 e)) by lia. simpl cond_Zopp.
      destruct El as [H' | [-> H']]; [specialize (Hlo ltac:(lia))|]; unfold clamp, i32_MIN, i32_MAX, CLAMP_MAX in *; lia.
  - change (SFltb (S754_finite false m e) (S754_finite true 8388608 8)) with false. cbn iota.
    destruct (SFltb (S754_finite false 16777215 7) (S754_finite false m e)) eqn:El.
    + assert (8 <= e) as H8.
      { revert El. unfold SFltb, SFcompare. destruct (Z.compare_spec 7 e); [|lia|done].
        change (Pos.compare_cont Eq 16777215 m) with (Pos.compare 16777215 m).
        destruct (Pos.compare_spec 16777215 m); [done|lia|done]. }
      specialize (Hhi H8). change (f32_as_i32 (S754_finite false 16777215 7)) with CLAMP_MAX. simpl cond_Zopp.
      unfold clamp, i32_MIN, CLAMP_MAX. lia.
    + apply not_lt_pos in El. unfold f32_as_i32, trunc_shift. rewrite (proj2 (Z.leb_le 0 e)) by lia. simpl cond_Zopp.
      destruct El as [H' | [<- H']]; specialize (Hlo ltac:(lia)); unfold clamp, i32_MIN, i32_MAX, CLAMP_MAX in *; lia.
Qed.

(** The clamp leaves an integer of at most 24 bits alone. *)
Lemma clamp_small s n :
  0 <= n < 2 ^ 24 ->
  f32_as_i32 (f32_clamp (binary_normalize 24 128 (cond_Zopp s n) 0 s) (f32_of_Z i32_MIN) (f32_of_Z CLAMP_MAX))
  = cond_Zopp s n.
Proof.
  intros Hn. destruct n as [|p|p]; [by destruct s| |lia].
  destruct (f32_of_small p ltac:(lia)) as (m & k & Hk & Em & Dm & Ef). specialize (Ef s).
  assert (binary_normalize 24 128 (cond_Zopp s (Zpos p)) 0 s = S754_finite s m (- k)) as ->
    by (rewrite <- Ef; by destruct s).
  rewrite clamp_max_eq, clamp_min_eq.
  assert (f32_clamp (S754_finite s m (- k)) (S754_finite true 8388608 8) (S754_finite false 16777215 7)
          = S754_finite s m (- k)) as ->.
  { unfold f32_clamp, f32_lt, SFltb, SFcompare. destruct s; cbn beta iota.
    - destruct (Z.compare_spec (- k) 8); (done || lia).
    - destruct (Z.compare_spec 7 (- k)); (done || lia). }
  unfold f32_as_i32. rewrite Em, trunc_shift_pow by lia. replace (- k + k) with 0 by lia.
  change (trunc_shift (Zpos p) 0) with (Zpos p * 1). rewrite Z.mul_1_r. unfold clamp, i32_MIN, i32_MAX. destruct s; simpl; lia.
Qed.

(** Rounding [m / 2 ^ k] half up is rounding to the nearest, halves up. *)
Lemma round_half_up m k :
  0 < k -> let z := (m + 2 ^ (k - 1)) / 2 ^ k in
  2 * Z.abs (z * 2 ^ k - m) <= 2 ^ k /\ (2 * Z.abs (z * 2 ^ k - m) = 2 ^ k -> m < z * 2 ^ k).
Proof.
  intros Hk z. subst z. assert (0 < 2 ^ (k - 1)) as Hp by (apply Z.pow_pos_nonneg; lia).
  assert (2 ^ k = 2 * 2 ^ (k - 1)) as E by (rewrite <- Z.pow_succ_r by lia; f_equal; lia). rewrite E.
  set (h := 2 ^ (k - 1)) in *. pose proof (Z.div_mod (m + h) (2 * h) ltac:(lia)). pose proof (Z.mod_pos_bound (m + h) (2 * h) ltac:(lia)).
  nia.
Qed.

Lemma nearest_half_up s m e :
  e + 16 < 0 -> nearest (cond_Zopp s ((Zpos m + 2 ^ (- (e + 16) - 1)) / 2 ^ (- (e + 16)))) (S754_finite s m e).
Proof.
  intros He. unfold nearest. rewrite (Z.max_l 0 (e + 16)), (Z.max_r 0) by lia. rewrite Z.pow_0_r, Z.mul_1_r.
  set (k := - (e + 16)) in *. pose proof (round_half_up (Zpos m) k ltac:(lia)) as [H1 H2]. cbn zeta in *.
  set (z := (Zpos m + _) / _) in *. assert (0 <= z) as Hz by (apply Z.div_pos; [|apply Z.pow_pos_nonneg]; lia).
  assert (0 < 2 ^ k) by (apply Z.pow_pos_nonneg; lia). destruct s; unfold cond_Zopp; nia.
Qed.

(** [from_f32] of a finite number: the nearest fixed-point number, clamped. *)
Lemma from_f32_rounds v :
  f32_valid v = true -> f32_is_finite v = true -> exists z, nearest z v /\ from_f32 v = clamp i32_MIN CLAMP_MAX z.
Proof.
  intros Hv Hf. destruct v as [s|s| |s m e]; [by exists 0; destruct s|done|done|]. clear Hf.
  destruct (scale_f32 s m e Hv) as (m' & t & Ht & Em & Hm' & Hnorm & Emul).
  unfold from_f32. cbn [f32_is_finite negb]. rewrite Emul. clear Emul.
  destruct (Z.le_gt_cases 0 (e + 16)) as [He|He].
  - destruct Hnorm as [-> Hm]; [lia|]. rewrite Z.pow_0_r, Z.mul_1_r in Em. injection Em as ->. rewrite Z.sub_0_r.
    exists (cond_Zopp s (Zpos m * 2 ^ (e + 16))). split.
    { unfold nearest. rewrite (Z.max_r 0 (e + 16)), (Z.max_l 0) by lia. rewrite Z.pow_0_r, Z.mul_1_r, Z.sub_diag. simpl. lia. }
    destruct (Z.leb_spec (e + 16) 104).
    + unfold f32_round. rewrite (proj2 (Z.leb_le 0 (e + 16))) by lia. apply clamp_finite; lia.
    + cbn [f32_round]. rewrite clamp_inf. assert (2 ^ 31 <= 2 ^ (e + 16)) by (apply Z.pow_le_mono_r; lia).
      unfold clamp, i32_MIN, CLAMP_MAX. destruct s; simpl cond_Zopp; nia.
  - eexists. split; [by apply nearest_half_up|]. rewrite (proj2 (Z.leb_le _ 104)) by lia.
    unfold f32_round. destruct (Z.leb_spec 0 (e + 16 - t)); [lia|].
    assert (((Zpos m' + 2 ^ (- (e + 16 - t) - 1)) / 2 ^ (- (e + 16 - t)))
            = (Zpos m + 2 ^ (- (e + 16) - 1)) / 2 ^ (- (e + 16))) as ->.
    { replace (- (e + 16 - t) - 1) with (- (e + 16) - 1 + t) by lia. replace (- (e + 16 - t)) with (- (e + 16) + t) by lia.
      rewrite Em, !Z.pow_add_r, <- Z.mul_add_distr_r by lia. apply Z.div_mul_cancel_r; [|apply Z.pow_nonzero]; lia. }
    set (n := (Zpos m + _) / _). assert (0 <= n < 2 ^ 24) as Hn.
    { assert (Zpos m < 2 ^ 24) by (assert (1 <= 2 ^ t) by (apply (Z.pow_le_mono_r 2 0); lia); nia).
      set (k := - (e + 16)) in *. assert (0 < 2 ^ (k - 1)) as Hp by (apply Z.pow_pos_nonneg; lia).
      assert (2 ^ k = 2 * 2 ^ (k - 1)) as E by (rewrite <- Z.pow_succ_r by lia; f_equal; lia). unfold n. rewrite E.
      split; [apply Z.div_pos; lia|apply Z.div_lt_upper_bound; nia]. }
    rewrite clamp_small by done. unfold clamp, i32_MIN, CLAMP_MAX. destruct s; simpl cond_Zopp; lia.
Qed.

(** A number that is a multiple of [2 ^ -16] is its own nearest. *)
Lemma exactly_nearest z z' v : exactly z v -> nearest z' v -> z' = z.
Proof.
  destruct v as [s|s| |s m e]; unfold exactly, nearest; [lia|done|done|]. intros <-.
  set (k := Z.max 0 _). assert (0 < 2 ^ k) by (apply Z.pow_pos_nonneg; lia). intros [H' _].
  rewrite <- Z.mul_sub_distr_r, Z.abs_mul in H'. nia.
Qed.

Lemma exactly_scaled z v : exactly z v -> f32_scaled v = z.
Proof.
  destruct v as [s|s| |s m e]; unfold exactly, f32_scaled; [done..|]. unfold trunc_shift.
  destruct (Z.leb_spec 0 (e + 16)).
  - rewrite (Z.max_r 0 (e + 16)), (Z.max_l 0) by lia. by rewrite Z.pow_0_r, Z.mul_1_r.
  - rewrite (Z.max_l 0 (e + 16)), (Z.max_r 0) by lia. rewrite Z.pow_0_r, Z.mul_1_r. intros E.
    assert (0 < 2 ^ (- (e + 16))) by (apply Z.pow_pos_nonneg; lia).
    destruct s; simpl in *; [replace (Zpos m) with (- z * 2 ^ (- (e + 16))) by lia|rewrite <- E]; rewrite Z.div_mul; lia.
Qed.

Lemma exactly_in_range z v :
  f32_valid v = true -> f32_out_of_range v = false -> exactly z v -> i32_MIN <= z <= CLAMP_MAX.
Proof.
  intros Hv Hr Hz. rewrite <- (exactly_scaled z v Hz). destruct v as [s|s| |s m e]; [by unfold f32_scaled|done|done|].
  by apply in_range_bounds.
Qed.

Lemma to_f32_exactly z : Z.abs z < 2 ^ 24 -> exactly z (to_f32 z).
Proof.
  intros Hz. destruct (decide (z = 0)) as [-> | Hn]; [done|].
  assert (exists s p, z = cond_Zopp s (Zpos p) /\ Zpos p < 2 ^ 24) as (s & p & -> & Hp).
  { destruct z as [|p|p]; [done|exists false, p|exists true, p]; simpl; split; (done || lia). }
  destruct (f32_of_small p Hp) as (m & k & Hk & Em & Dm & Ef).
  unfold to_f32. rewrite Ef, unscale_exact by done. unfold exactly.
  rewrite (Z.max_l 0 (- k - 16 + 16)), (Z.max_r 0) by lia. replace (- (- k - 16 + 16)) with k by lia. rewrite Em. destruct s; simpl cond_Zopp; lia.
Qed.

(** C26: The canonical conversion from_f32 of every finite f32 is the value
    times 65536 rounded to the nearest integer, halves away from zero, clamped to
    i32::MIN and 2147483520 (the largest f32 below 2^31), however large the value
    or small its fraction (the scaling by 65536 is exact or overflows into the
    clamp). On a value that passes the engine's range check and is a multiple of
    2^-16, from_f32 and the engine's own conversion both give it exactly; and
    from_f32 (to_f32 n) is n for every fixed-point n of at most 24 bits. *)
Theorem from_f32_nearest (v : f32) :
  f32_valid v = true -> f32_is_finite v = true ->
  exists z, nearest z v /\ from_f32 v = clamp i32_MIN CLAMP_MAX z
    /\ (f32_out_of_range v = false -> exactly z v -> from_f32 v = z /\ fxp_of_f32 v = z)
    /\ forall n, Z.abs n < 2 ^ 24 -> v = to_f32 n -> from_f32 v = n.
Proof.
  intros Hv Hf. destruct (from_f32_rounds v Hv Hf) as (z & Hz & E).
  assert (forall n, f32_out_of_range v = false -> exactly n v -> from_f32 v = n) as Hex.
  { intros n Hr Hn. pose proof (exactly_nearest n z v Hn Hz) as ->. rewrite E.
    pose proof (exactly_in_range n v Hv Hr Hn). unfold clamp. lia. }
  exists z. split_and!; [done|done| |].
  - intros Hr He. split; [by apply Hex|]. destruct (fxp_of_f32_truncates v Hv Hr) as [-> _]. by apply exactly_scaled.
  - intros n Hn ->. apply Hex; [by apply to_f32_roundtrip|by apply to_f32_exactly].
Qed.

(** ** Departures *)

(** NaN passes the engine's range check and is stored as 0. *)
Theorem nan_stored_as_zero : f32_out_of_range S754_nan = false /\ fxp_of_f32 S754_nan = 0 /\ from_f32 S754_nan = i32_MIN.
Proof. done. Qed.

(** 1.5 steps: the engine truncates, the kernel's conversion rounds. *)
Theorem conversions_differ :
  let v := f32_div (f32_of_Z 3) (f32_mul SCALE_f32 (f32_of_Z 2)) in
  f32_out_of_range v = false /\ fxp_of_f32 v = 1 /\ from_f32 v = 2.
Proof. vm_compute. done. Qed.

Lemma from_f32_nearest_witness :
  exists z, nearest z (f32_literal 1 10) /\ from_f32 (f32_literal 1 10) = clamp i32_MIN CLAMP_MAX z
    /\ from_f32 (f32_literal 1 10) = 6554.
Proof.
  destruct (from_f32_nearest (f32_literal 1 10) ltac:(reflexivity) ltac:(reflexivity)) as (z & Hz & E & _).
  exists z. split; [exact Hz|]. split; [exact E|reflexivity].
Defined.
