(* ===== verification/HostIndex.v ===== *)
(** * Host-side indexes

    Models [crates/valori-index/src]: the [VectorIndex] trait ([traits.rs]) as a
    class with what the engine relies on as its laws, the brute-force index
    ([brute_force.rs]) and the binary-quantization index ([bq.rs]).

    The order in which a [HashMap] is iterated is the one of [map_to_list]; both
    searches sort what they collect.  [sort_by] with a total order returns the
    one sorted permutation, here by insertion; comparing NaN scores is not a
    total order, and vectors converted from Q16.16 contain none. *)

From Stdlib Require Import SpecFloat.
From stdpp Require Import gmap.
From S2P Require Import Prelude.
From S2P Require Import F32.

(** ** The trait (traits.rs) *)
Class VectorIndex (I : Type) : Type := {
  ix_build : list (Z * list f32) -> I -> I;
  ix_search : I -> list f32 -> nat -> list (Z * f32);
  ix_insert : Z -> list f32 -> I -> I;
  ix_delete : Z -> I -> I;
  ix_snapshot : I -> option (list Z);
  ix_restore : list Z -> I -> option I;
}.

(** What an index holds, and how the operations change it. *)
Class VectorIndexLaws (I : Type) `{VectorIndex I} : Type := {
  ix_contents : I -> gmap Z (list f32);
  ix_build_contents rs i : ix_contents (ix_build rs i) = list_to_map (reverse rs);
  ix_insert_contents id v i : ix_contents (ix_insert id v i) = <[id := v]> (ix_contents i);
  ix_delete_contents id i : ix_contents (ix_delete id i) = delete id (ix_contents i);
}.

(** [sum] is a left fold from zero ([-0.0], the neutral element). *)
Definition f32_sum (l : list f32) : f32 := foldl f32_add (S754_zero true) l.
Definition l2_distance_sq (a b : list f32) : f32 :=
  f32_sum (zip_with (fun x y => f32_mul (f32_sub x y) (f32_sub x y)) a b).

(** [a.1.partial_cmp(&b.1).unwrap_or(Equal).then_with(|| a.0.cmp(&b.0))] *)
Definition score_le (a b : Z * f32) : bool :=
  match SFcompare a.2 b.2 with
  | Some Lt => true
  | Some Gt => false
  | _ => a.1 <=? b.1
  end.

Fixpoint insert_scored {A} (le : A -> A -> bool) (x : A) (l : list A) : list A :=
  match l with
  | [] => [x]
  | y :: l => if le x y then x :: y :: l else y :: insert_scored le x l
  end.
Definition sort_scored {A} (le : A -> A -> bool) (l : list A) : list A := foldr (insert_scored le) [] l.

Definition insert_all {V} (rs : list (Z * V)) (m : gmap Z V) : gmap Z V :=
  foldl (fun m r => <[r.1 := r.2]> m) m rs.

(** ** Brute force (brute_force.rs) *)
Record BruteForceIndex : Type := mkBf { hbf_vectors : gmap Z (list f32) }.
Definition hbf_new : BruteForceIndex := mkBf ∅.
Definition hbf_len (i : BruteForceIndex) : nat := size (hbf_vectors i).

Definition hbf_build (records : list (Z * list f32)) (_ : BruteForceIndex) : BruteForceIndex :=
  mkBf (insert_all records ∅).
Definition hbf_insert (id : Z) (vec : list f32) (i : BruteForceIndex) : BruteForceIndex :=
  mkBf (<[id := vec]> (hbf_vectors i)).
Definition hbf_delete (id : Z) (i : BruteForceIndex) : BruteForceIndex := mkBf (delete id (hbf_vectors i)).
Definition hbf_search (i : BruteForceIndex) (query : list f32) (k : nat) : list (Z * f32) :=
  take k (sort_scored score_le ((fun p => (p.1, l2_distance_sq query p.2)) <$> map_to_list (hbf_vectors i))).

#[export] Instance BruteForce_index : VectorIndex BruteForceIndex := {|
  ix_build := hbf_build; ix_search := hbf_search; ix_insert := hbf_insert; ix_delete := hbf_delete;
  ix_snapshot _ := Some []; ix_restore _ i := Some i;
|}.

(** ** Binary quantization (bq.rs) *)
Definition BQ_POOL_FACTOR : nat := 10.
Definition BQ_MIN_CANDIDATES : nat := 200.

Record BqIndex : Type := mkBq {
  hbq_dim : nat;
  hbq_words_per_vec : nat;
  hbq_codes : gmap Z (list Z);
  hbq_vectors : gmap Z (list f32);
}.
Definition hbq_new : BqIndex := mkBq 0 0 ∅ ∅.

(** Component [i] sets bit [i mod 64] of word [i / 64]. *)
Definition set_bit (code : list Z) (p : nat * f32) : list Z :=
  if f32_lt (S754_zero false) p.2
  then alter (fun w => Z.lor w (Z.shiftl 1 (Z.of_nat (p.1 mod 64)%nat))) (p.1 / 64)%nat code
  else code.
Definition words (n : nat) : nat := ((n + 63) / 64)%nat.
Definition binarize (vec : list f32) : list Z :=
  foldl set_bit (replicate (words (length vec)) 0) (zip (seq 0 (length vec)) vec).

Fixpoint pos_ones (p : positive) : Z :=
  match p with xH => 1 | xO p => pos_ones p | xI p => 1 + pos_ones p end.
Definition ones (z : Z) : Z := match z with Zpos p => pos_ones p | _ => 0 end.
Definition hbq_hamming (a b : list Z) : Z := foldl Z.add 0 (zip_with (fun x y => ones (Z.lxor x y)) a b).

Definition hbq_build (records : list (Z * list f32)) (i : BqIndex) : BqIndex :=
  let '(dim, wpv) :=
    match records with
    | (_, first) :: _ => (length first, words (length first))
    | [] => (hbq_dim i, hbq_words_per_vec i)
    end in
  mkBq dim wpv (insert_all ((fun r => (r.1, binarize r.2)) <$> records) ∅) (insert_all records ∅).

Definition hbq_insert (id : Z) (vec : list f32) (i : BqIndex) : BqIndex :=
  let '(dim, wpv) :=
    if bool_decide (hbq_dim i = 0%nat) && negb (bool_decide (vec = []))
    then (length vec, words (length vec)) else (hbq_dim i, hbq_words_per_vec i) in
  mkBq dim wpv (<[id := binarize vec]> (hbq_codes i)) (<[id := vec]> (hbq_vectors i)).

Definition hbq_delete (id : Z) (i : BqIndex) : BqIndex :=
  mkBq (hbq_dim i) (hbq_words_per_vec i) (delete id (hbq_codes i)) (delete id (hbq_vectors i)).

Definition hamming_le (a b : Z * Z) : bool :=
  match a.1 ?= b.1 with Lt => true | Gt => false | Eq => a.2 <=? b.2 end.

Definition hbq_search (i : BqIndex) (query : list f32) (k : nat) : list (Z * f32) :=
  if bool_decide (k = 0%nat) || bool_decide (hbq_codes i = ∅) then []
  else
    let query_code := binarize query in
    let cap := Nat.max (BQ_POOL_FACTOR * k)%nat BQ_MIN_CANDIDATES in
    let candidates :=
      take cap (sort_scored hamming_le ((fun p => (hbq_hamming query_code p.2, p.1)) <$> map_to_list (hbq_codes i))) in
    take k (sort_scored score_le
      (omap (fun c => (fun v => (c.2, l2_distance_sq query v)) <$> hbq_vectors i !! c.2) candidates)).

#[export] Instance Bq_index : VectorIndex BqIndex := {|
  ix_build := hbq_build; ix_search := hbq_search; ix_insert := hbq_insert; ix_delete := hbq_delete;
  ix_snapshot _ := Some []; ix_restore _ i := Some i;
|}.

(** ** The laws *)
Lemma insert_all_map {V} (rs : list (Z * V)) m : insert_all rs m = list_to_map (reverse rs) ∪ m.
Proof.
  revert m. induction rs as [|[id v] rs IH]; intros m.
  { rewrite reverse_nil, list_to_map_nil. by rewrite (left_id_L ∅ (∪)). }
  unfold insert_all in *. cbn [foldl fst snd]. rewrite IH, reverse_cons, list_to_map_app. simpl.
  rewrite insert_empty, <- (assoc_L (∪)). by rewrite <- insert_union_singleton_l.
Qed.

Lemma insert_all_empty {V} (rs : list (Z * V)) : insert_all rs ∅ = list_to_map (reverse rs).
Proof. by rewrite insert_all_map, (right_id_L ∅ (∪)). Qed.

#[export] Instance BruteForce_laws : VectorIndexLaws BruteForceIndex := {|
  ix_contents := hbf_vectors;
  ix_build_contents rs _ := insert_all_empty rs;
  ix_insert_contents _ _ _ := eq_refl;
  ix_delete_contents _ _ := eq_refl;
|}.

#[export] Instance Bq_laws : VectorIndexLaws BqIndex.
Proof.
  refine {| ix_contents := hbq_vectors |}.
  - intros [|[id v] rs] i; [done|exact (insert_all_empty _)].
  - intros id v i. simpl. unfold hbq_insert. by destruct (_ && _).
  - done.
Defined.

Lemma insert_scored_perm {A} (le : A -> A -> bool) x l : insert_scored le x l ≡ₚ x :: l.
Proof. induction l as [|y l IH]; [done|]. simpl. destruct (le x y); [done|]. rewrite IH. constructor. Qed.

Lemma sort_scored_perm {A} (le : A -> A -> bool) l : sort_scored le l ≡ₚ l.
Proof. induction l as [|x l IH]; [done|]. simpl. by rewrite insert_scored_perm, IH. Qed.
