(* ===== verification/Reranker.v ===== *)
(** * The BM25 reranker

    Models [crates/valori-search/src/reranker.rs]: the corpus, the inverted index
    of document frequencies kept next to it, and the hybrid reranking.  The
    tokenizer (Unicode classes and case folding) and the natural logarithm are
    arguments; a word is the list of its UTF-8 bytes. *)

From Stdlib Require Import SpecFloat.
From stdpp Require Import gmap fin_maps fin_map_dom.
From S2P Require Import Prelude.
From S2P Require Import F32.
From S2P Require Import HostIndex.

Abbreviation word := (list Z).

Record ValoriReranker : Type := mkReranker {
  rk_corpus : gmap Z (list word);
  rk_doc_freq : gmap word Z;
  rk_total_tokens : Z;
}.

Definition reranker_new : ValoriReranker := mkReranker ∅ ∅ 0.

(** The distinct words of a document, in the order a [HashSet] yields them. *)
Definition unique_terms (tokens : list word) : list word := elements (list_to_set tokens : gset word).

(** [*doc_freq.entry(term).or_insert(0) += 1] *)
Definition add_term (df : gmap word Z) (t : word) : gmap word Z := <[t := default 0 (df !! t) + 1]> df.

Definition drop_term (df : gmap word Z) (t : word) : gmap word Z :=
  match df !! t with
  | Some count => if count <=? 1 then delete t df else <[t := count - 1]> df
  | None => df
  end.

Definition reranker_remove (record_id : Z) (r : ValoriReranker) : ValoriReranker :=
  match rk_corpus r !! record_id with
  | Some tokens =>
      mkReranker (delete record_id (rk_corpus r)) (foldl drop_term (rk_doc_freq r) (unique_terms tokens))
        (Z.max 0 (rk_total_tokens r - len tokens))
  | None => r
  end.

Definition reranker_remove_batch (ids : list Z) (r : ValoriReranker) : ValoriReranker :=
  foldl (fun r id => reranker_remove id r) r ids.

(** Add a tokenized document. *)
Definition add_document (record_id : Z) (tokens : list word) (r : ValoriReranker) : ValoriReranker :=
  mkReranker (<[record_id := tokens]> (rk_corpus r)) (foldl add_term (rk_doc_freq r) (unique_terms tokens))
    (rk_total_tokens r + len tokens).

Definition snapshot_corpus (r : ValoriReranker) : gmap Z (list word) * Z := (rk_corpus r, rk_total_tokens r).

(** The count of the snapshot is ignored. *)
Definition restore_corpus (corpus : gmap Z (list word)) (_ : Z) (_ : ValoriReranker) : ValoriReranker :=
  foldl (fun r p => add_document p.1 p.2 r) reranker_new (map_to_list corpus).

Definition f32_min (a b : f32) : f32 :=
  match SFcompare a b with Some Gt => b | Some _ => a | None => match a with S754_nan => b | _ => a end end.
Definition f32_max (a b : f32) : f32 :=
  match SFcompare a b with Some Lt => b | Some _ => a | None => match a with S754_nan => b | _ => a end end.

Definition f32_one : f32 := f32_of_Z 1.
Definition f32_half : f32 := f32_literal 1 2.
Definition f32_nano : f32 := f32_literal 1 1000000000.

Definition normalise (values : list f32) : list f32 :=
  let min := foldl f32_min (S754_infinity false) values in
  let max := foldl f32_max (S754_infinity true) values in
  let range := f32_sub max min in
  if f32_lt range f32_nano then replicate (length values) (S754_zero false)
  else (fun v => f32_div (f32_sub v min) range) <$> values.

Section Rerank.
Context (tokenise : word -> list word) (ln : f32 -> f32).

Definition reranker_insert (record_id : Z) (text : word) (r : ValoriReranker) : ValoriReranker :=
  add_document record_id (tokenise text) (reranker_remove record_id r).

Definition K1 : f32 := f32_literal 3 2.
Definition B : f32 := f32_literal 3 4.

Definition idf (r : ValoriReranker) (t : word) : f32 :=
  let n_docs := f32_of_Z (Z.of_nat (size (rk_corpus r))) in
  let df := f32_of_Z (default 0 (rk_doc_freq r !! t)) in
  f32_max (ln (f32_add (f32_div (f32_add (f32_sub n_docs df) f32_half) (f32_add df f32_half)) f32_one)) (S754_zero false).

(** [*tf_map.entry(tok).or_insert(0.0) += 1.0] *)
Definition term_count (doc : list word) (t : word) : f32 :=
  foldl (fun acc _ => f32_add acc f32_one) (S754_zero false) (filter (eq t) doc).

Definition bm25 (r : ValoriReranker) (q_terms : list word) (record_id : Z) : f32 :=
  match rk_corpus r !! record_id with
  | None => S754_zero false
  | Some doc =>
      let n_docs := f32_of_Z (Z.of_nat (size (rk_corpus r))) in
      let avgdl := if f32_lt (S754_zero false) n_docs then f32_div (f32_of_Z (rk_total_tokens r)) n_docs else f32_one in
      let doc_len := f32_of_Z (len doc) in
      foldl (fun acc t =>
        let tf := term_count doc t in
        let num := f32_mul tf (f32_add K1 f32_one) in
        let den := f32_add tf (f32_mul K1 (f32_add (f32_sub f32_one B) (f32_div (f32_mul B doc_len) avgdl))) in
        f32_add acc (f32_div (f32_mul (idf r t) num) (f32_max den f32_nano))) (S754_zero false) q_terms
  end.

(** Descending; equal and incomparable scores keep their order. *)
Definition score_ge (a b : Z * f32) : bool :=
  match SFcompare b.2 a.2 with Some Gt => false | _ => true end.

Definition hybrid (v b : f32) : f32 :=
  f32_add (f32_mul f32_half v) (f32_mul (f32_sub f32_one f32_half) b).

Definition rerank (r : ValoriReranker) (query : word) (candidates : list (Z * f32)) : list (Z * f32) :=
  let q_terms := tokenise query in
  match candidates, q_terms with
  | [], _ | _, [] => candidates
  | _, _ =>
      let bm25_raw := (fun c => bm25 r q_terms c.1) <$> candidates in
      let v_norm := f32_sub f32_one <$> normalise (snd <$> candidates) in
      let b_norm := normalise bm25_raw in
      sort_scored score_ge (zip (fst <$> candidates) (zip_with hybrid v_norm b_norm))
  end.
End Rerank.

(** ** The inverted index is exact *)

(** The number of documents that contain a word, and of all words. *)
Definition documents_with (t : word) (corpus : gmap Z (list word)) : nat := size (filter (fun p => t ∈ p.2) corpus).
Definition token_sum (corpus : gmap Z (list word)) : Z := map_fold (fun _ doc n => len doc + n) 0 corpus.

Record reranker_ok (r : ValoriReranker) : Prop := {
  ro_df t : default 0 (rk_doc_freq r !! t) = Z.of_nat (documents_with t (rk_corpus r));
  ro_pos t n : rk_doc_freq r !! t = Some n -> 0 < n;
  ro_total : rk_total_tokens r = token_sum (rk_corpus r);
}.

Lemma lookup_add_terms (ts : list word) df t :
  NoDup ts ->
  foldl add_term df ts !! t = if decide (t ∈ ts) then Some (default 0 (df !! t) + 1) else df !! t.
Proof.
  intros Hnd. revert df. induction Hnd as [|x ts Hx Hnd IH]; intros df; [done|]. cbn [foldl]. rewrite IH. unfold add_term.
  destruct (decide (x = t)) as [<- | Hne].
  - rewrite lookup_insert_eq. rewrite decide_False by done. by rewrite decide_True by (by left).
  - rewrite lookup_insert_ne by done. destruct (decide (t ∈ ts)) as [Hi | Hi].
    + by rewrite decide_True by (by right).
    + rewrite decide_False by (rewrite elem_of_cons; intros [-> | ?]; done). done.
Qed.

Lemma lookup_drop_terms (ts : list word) df t :
  NoDup ts -> (forall t n, df !! t = Some n -> 0 < n) ->
  foldl drop_term df ts !! t
  = if decide (t ∈ ts) then (match df !! t with Some n => if n <=? 1 then None else Some (n - 1) | None => None end) else df !! t.
Proof.
  intros Hnd. revert df. induction Hnd as [|x ts Hx Hnd IH]; intros df Hp; [done|]. cbn [foldl].
  assert (forall t n, drop_term df x !! t = Some n -> 0 < n) as Hp'.
  { intros t' n. unfold drop_term. destruct (df !! x) as [c|] eqn:Ex; [|by apply Hp].
    destruct (Z.leb_spec c 1); [intros [_ ?]%lookup_delete_Some; by eapply Hp|].
    destruct (decide (x = t')) as [<- | Hne]; [rewrite lookup_insert_eq; intros [= <-]; lia|].
    rewrite lookup_insert_ne by done. by apply Hp. }
  rewrite IH by done. unfold drop_term. destruct (decide (x = t)) as [<- | Hne].
  - rewrite decide_False by done. rewrite decide_True by (by left). destruct (df !! x) as [c|] eqn:Ex; [|done].
    destruct (c <=? 1); [apply lookup_delete_eq|apply lookup_insert_eq].
  - assert (match df !! x with Some c => if c <=? 1 then delete x df else <[x:=c - 1]> df | None => df end !! t = df !! t) as ->.
    { destruct (df !! x); [|done]. destruct (_ <=? 1); [by rewrite lookup_delete_ne|by rewrite lookup_insert_ne]. }
    destruct (decide (t ∈ ts)) as [Hi | Hi]; [by rewrite decide_True by (by right)|].
    by rewrite decide_False by (rewrite elem_of_cons; intros [-> | ?]; done).
Qed.

Lemma elem_of_unique t tokens : t ∈ unique_terms tokens <-> t ∈ tokens.
Proof. unfold unique_terms. by rewrite elem_of_elements, elem_of_list_to_set. Qed.
Lemma NoDup_unique tokens : NoDup (unique_terms tokens).
Proof. unfold unique_terms. apply NoDup_elements. Qed.

Lemma token_sum_insert id doc (m : gmap Z (list word)) :
  m !! id = None -> token_sum (<[id := doc]> m) = len doc + token_sum m.
Proof. intros Hm. unfold token_sum. rewrite map_fold_insert_L; [done|intros; lia|done]. Qed.

Lemma documents_with_insert t id doc (m : gmap Z (list word)) :
  m !! id = None -> documents_with t (<[id := doc]> m) = ((if decide (t ∈ doc) then 1 else 0) + documents_with t m)%nat.
Proof.
  intros Hm. unfold documents_with. destruct (decide (t ∈ doc)) as [Hi | Hi].
  - rewrite map_filter_insert_True by done. rewrite map_size_insert_None; [done|].
    apply map_lookup_filter_None. by left.
  - rewrite map_filter_insert_False by done. by rewrite delete_id.
Qed.

Lemma add_document_ok id tokens r : reranker_ok r -> rk_corpus r !! id = None -> reranker_ok (add_document id tokens r).
Proof.
  intros [Hd Hp Ht] Hid. split; unfold add_document; simpl.
  - intros t. rewrite lookup_add_terms by apply NoDup_unique. rewrite documents_with_insert by done.
    destruct (decide (t ∈ tokens)) as [Hi | Hi].
    + rewrite decide_True by (by apply elem_of_unique). simpl. rewrite Hd. lia.
    + rewrite decide_False by (by rewrite elem_of_unique). by rewrite Hd.
  - intros t n. rewrite lookup_add_terms by apply NoDup_unique. destruct (decide _); [|by apply Hp].
    intros [= <-]. rewrite Hd. lia.
  - rewrite token_sum_insert by done. lia.
Qed.

Lemma reranker_remove_ok id r : reranker_ok r -> reranker_ok (reranker_remove id r) /\ rk_corpus (reranker_remove id r) = delete id (rk_corpus r).
Proof.
  intros Hr. unfold reranker_remove. destruct (rk_corpus r !! id) as [tokens|] eqn:Eid; [|by rewrite delete_id].
  split; [|done]. destruct Hr as [Hd Hp Ht]. rewrite <- (insert_delete_id _ _ _ Eid) in Hd, Ht.
  assert (delete id (rk_corpus r) !! id = None) as Hn by apply lookup_delete_eq.
  setoid_rewrite documents_with_insert in Hd; [|done]. rewrite token_sum_insert in Ht by done.
  split; simpl.
  - intros t. specialize (Hd t). rewrite lookup_drop_terms by (done || apply NoDup_unique).
    destruct (decide (t ∈ tokens)) as [Hi | Hi].
    + rewrite decide_True by (by apply elem_of_unique). destruct (rk_doc_freq r !! t) as [n|] eqn:Et; simpl in *; [|lia].
      destruct (Z.leb_spec n 1); simpl; lia.
    + by rewrite decide_False by (by rewrite elem_of_unique).
  - intros t n. rewrite lookup_drop_terms by (done || apply NoDup_unique). destruct (decide _); [|by apply Hp].
    destruct (rk_doc_freq r !! t) as [c|] eqn:Et; [|done]. destruct (Z.leb_spec c 1); [done|]. intros [= <-]. lia.
  - rewrite Ht. assert (0 <= token_sum (delete id (rk_corpus r))); [|lia].
    unfold token_sum. apply (map_fold_weak_ind (fun n _ => 0 <= n)); [lia|]. intros. pose proof (len_nonneg x). lia.
Qed.

Lemma reranker_new_ok : reranker_ok reranker_new.
Proof. split; [by intros|by intros|done]. Qed.

(** The corpus determines the rest. *)
Lemma reranker_determined r r' : reranker_ok r -> reranker_ok r' -> rk_corpus r = rk_corpus r' -> r = r'.
Proof.
  destruct r as [c df n], r' as [c' df' n']. intros [Hd Hp Ht] [Hd' Hp' Ht'] E1. simpl in *. subst c'. f_equal; [|lia].
  apply map_eq. intros t. specialize (Hd t). rewrite <- Hd' in Hd.
  destruct (df !! t) as [a|] eqn:Ea, (df' !! t) as [b|] eqn:Eb; simpl in Hd; [by f_equal|apply Hp in Ea; lia|apply Hp' in Eb; lia|done].
Qed.

Lemma add_documents_ok (l : list (Z * list word)) r :
  reranker_ok r -> NoDup l.*1 -> (forall id, id ∈ l.*1 -> rk_corpus r !! id = None) ->
  let r' := foldl (fun r p => add_document p.1 p.2 r) r l in
  reranker_ok r' /\ rk_corpus r' = list_to_map l ∪ rk_corpus r.
Proof.
  revert r. induction l as [|[id doc] l IH]; intros r Hr Hnd Hf; simpl in *.
  { by rewrite (left_id_L ∅ (∪)). }
  apply NoDup_cons in Hnd as [Hid Hnd]. destruct (IH (add_document id doc r)) as [H1 H2].
  - apply add_document_ok; [done|apply Hf; by left].
  - done.
  - intros id' Hi. simpl. rewrite lookup_insert_ne by (by intros ->). apply Hf. by right.
  - split; [done|]. rewrite H2. simpl. rewrite <- insert_union_l. symmetry. apply insert_union_r.
    by apply not_elem_of_list_to_map_1.
Qed.

Lemma restore_corpus_ok corpus n r :
  reranker_ok (restore_corpus corpus n r) /\ rk_corpus (restore_corpus corpus n r) = corpus.
Proof.
  destruct (add_documents_ok (map_to_list corpus) reranker_new) as [H1 H2].
  - apply reranker_new_ok.
  - apply NoDup_fst_map_to_list.
  - intros. apply lookup_empty.
  - split; [done|]. unfold restore_corpus. rewrite H2. simpl. by rewrite (right_id_L ∅ (∪)), list_to_map_to_list.
Qed.

Section Histories.
Context (tokenise : word -> list word).

(** A history of calls, with any interleaved snapshot restores. *)
Inductive reranker_op : Type :=
| RInsert (record_id : Z) (text : word)
| RRemove (record_id : Z)
| RRemoveBatch (record_ids : list Z)
| RRestore (corpus : gmap Z (list word)) (total_tokens : Z).

Definition reranker_step (r : ValoriReranker) (op : reranker_op) : ValoriReranker :=
  match op with
  | RInsert id text => reranker_insert tokenise id text r
  | RRemove id => reranker_remove id r
  | RRemoveBatch ids => reranker_remove_batch ids r
  | RRestore corpus n => restore_corpus corpus n r
  end.

Lemma reranker_step_ok r op : reranker_ok r -> reranker_ok (reranker_step r op).
Proof.
  intros Hr. destruct op as [id text|id|ids|corpus n]; simpl.
  - destruct (reranker_remove_ok id r Hr) as [H1 H2]. apply add_document_ok; [done|]. rewrite H2. apply lookup_delete_eq.
  - by apply reranker_remove_ok.
  - unfold reranker_remove_batch. revert r Hr. induction ids as [|id ids IH]; intros r Hr; [done|].
    apply IH. by apply reranker_remove_ok.
  - by apply restore_corpus_ok.
Qed.

(** C27: After any history of inserts, removals, batch removals and restores,
    the inverted index of the reranker is exact: the document frequency of every
    term is the number of documents of the corpus that contain it, the token total
    is the sum of their lengths, and restoring the corpus of a snapshot into any
    reranker gives this reranker. *)
Theorem reranker_index_exact (ops : list reranker_op) (r' : ValoriReranker) :
  let r := foldl reranker_step reranker_new ops in
  (forall t, default 0 (rk_doc_freq r !! t) = Z.of_nat (documents_with t (rk_corpus r)))
  /\ rk_total_tokens r = token_sum (rk_corpus r)
  /\ restore_corpus (snapshot_corpus r).1 (snapshot_corpus r).2 r' = r.
Proof.
  intros r. assert (reranker_ok r) as Hr.
  { unfold r. generalize reranker_new_ok. generalize reranker_new. induction ops as [|op ops IH]; intros r0 H0; [done|].
    apply IH. by apply reranker_step_ok. }
  destruct (restore_corpus_ok (rk_corpus r) (rk_total_tokens r) r') as [H1 H2].
  split_and!; [apply Hr|apply Hr|by apply reranker_determined].
Qed.
End Histories.

Lemma length_normalise values : length (normalise values) = length values.
Proof. unfold normalise. destruct (f32_lt _ _); [by rewrite length_replicate|by rewrite length_fmap]. Qed.

(** Reranking reorders the candidates: none is lost, none is invented. *)
Theorem rerank_permutes tokenise ln r query candidates :
  (rerank tokenise ln r query candidates).*1 ≡ₚ candidates.*1.
Proof.
  unfold rerank. destruct candidates as [|c cs]; [done|]. destruct (tokenise query) as [|q qs]; [done|].
  rewrite sort_scored_perm, fst_zip; [done|]. rewrite length_zip_with, !length_fmap, !length_normalise, !length_fmap. lia.
Qed.
