(* ===== verification/Vault.v ===== *)
(** * Key vaults

    Models [crates/valori-kernel/src/crypto/mod.rs] (the [KeyVault] trait, the
    null vault) and [crates/valori-node/src/crypto_vault.rs] (the AES-GCM vault
    with its shred log).  AES-256-GCM is the class [Aead]; a random key and a
    random nonce are arguments.  The locks are never poisoned (a panic aborts). *)

From stdpp Require Import gmap.
From S2P Require Import Prelude.
From S2P Require Import Core.
From S2P Require Import Bytes.
From S2P Require Import Wire.
From S2P Require Import EventLog.

(** A key id is 16 bytes. *)
Abbreviation KeyId := (list Z).
Definition key_id_typed (k : KeyId) : Prop := Forall in_u8 k /\ length k = 16%nat.

Inductive CryptoError : Type :=
| KeyNotFound (k : KeyId)
| EncryptionFailed
| DecryptionFailed
| BackendError.

(** ** The trait (crypto/mod.rs)

    [V] is the vault with the file system it may write to; [R] the randomness of
    an encryption. *)
Class KeyVault (V R : Type) : Type := {
  vault_encrypt : R -> KeyId -> list Z -> V -> V * outcome CryptoError (list Z);
  vault_decrypt : KeyId -> list Z -> V -> outcome CryptoError (list Z);
  vault_shred : KeyId -> V -> V * outcome CryptoError unit;
  vault_key_exists : KeyId -> V -> bool;
}.

Definition NullVault : KeyVault unit unit := {|
  vault_encrypt _ _ _ v := (v, Err BackendError);
  vault_decrypt _ _ _ := Err BackendError;
  vault_shred _ v := (v, Err BackendError);
  vault_key_exists _ _ := false;
|}.

(** ** AES-GCM (crypto_vault.rs) *)
Class Aead : Type := {
  aead_encrypt : list Z -> list Z -> list Z -> option (list Z);
  aead_decrypt : list Z -> list Z -> list Z -> option (list Z);
}.
Class AeadLaws `{Aead} : Prop := {
  aead_roundtrip k n p c : aead_encrypt k n p = Some c -> aead_decrypt k n c = Some p;
  aead_tag k n p c : aead_encrypt k n p = Some c -> 16 <= len c;
}.

Record VaultInner : Type := mkInner { vi_keys : gmap KeyId (list Z); vi_shredded : gset KeyId }.
Record AesGcmVault : Type := mkVault { av_inner : VaultInner; av_shred_log_path : option name; av_fs : Fs }.

Definition in_memory (fs : Fs) : AesGcmVault := mkVault (mkInner ∅ ∅) None fs.

(** [str::trim] on UTF-8: the encodings of the [White_Space] characters. *)
Definition ascii_space (b : Z) : bool := (9 <=? b) && (b <=? 13) || (b =? 32).
Definition wide_space (a b c : Z) : bool :=
  (a =? 225) && (b =? 154) && (c =? 128)
  || (a =? 226) && (b =? 128) && ((128 <=? c) && (c <=? 138) || (c =? 168) || (c =? 169) || (c =? 175))
  || (a =? 226) && (b =? 129) && (c =? 159)
  || (a =? 227) && (b =? 128) && (c =? 128).
Definition latin_space (a b : Z) : bool := (a =? 194) && ((b =? 133) || (b =? 160)).

Fixpoint trim_start (s : list Z) : list Z :=
  match s with
  | a :: s1 =>
      if ascii_space a then trim_start s1
      else match s1 with
           | b :: s2 =>
               if latin_space a b then trim_start s2
               else match s2 with
                    | c :: s3 => if wide_space a b c then trim_start s3 else s
                    | [] => s
                    end
           | [] => s
           end
  | [] => s
  end.
(** The same from the end, on the reversed bytes. *)
Fixpoint trim_end_rev (s : list Z) : list Z :=
  match s with
  | c :: s1 =>
      if ascii_space c then trim_end_rev s1
      else match s1 with
           | b :: s2 =>
               if latin_space b c then trim_end_rev s2
               else match s2 with
                    | a :: s3 => if wide_space a b c then trim_end_rev s3 else s
                    | [] => s
                    end
           | [] => s
           end
  | [] => s
  end.
Definition trim (s : list Z) : list Z := reverse (trim_end_rev (reverse (trim_start s))).

(** [BufRead::lines]: split at newlines, without a final empty piece; a carriage
    return before the newline goes too. *)
Definition strip_cr (l : list Z) : list Z :=
  match last l with Some 13 => take (length l - 1) l | _ => l end.
Fixpoint lines_from (s acc : list Z) : list (list Z) :=
  match s with
  | [] => match acc with [] => [] | _ => [reverse acc] end
  | b :: s => if b =? 10 then strip_cr (reverse acc) :: lines_from s [] else lines_from s (b :: acc)
  end.
Definition lines (s : list Z) : list (list Z) := lines_from s [].

Definition hex_nibble (b : Z) : option Z :=
  if (48 <=? b) && (b <=? 57) then Some (b - 48)
  else if (97 <=? b) && (b <=? 102) then Some (b - 97 + 10)
  else if (65 <=? b) && (b <=? 70) then Some (b - 65 + 10)
  else None.

Fixpoint hex_chunks (s : list Z) : option (list Z) :=
  match s with
  | [] => Some []
  | a :: b :: s =>
      match hex_nibble a, hex_nibble b with
      | Some hi, Some lo => cons (Z.lor (Z.shiftl hi 4) lo) <$> hex_chunks s
      | _, _ => None
      end
  | [_] => None
  end.
Definition hex_decode (s : list Z) : option KeyId := if len s =? 32 then hex_chunks s else None.

(** A line of the shred log. *)
Definition shred_line (line : list Z) : option KeyId := hex_decode (trim line).

(** [None] is the I/O error of a line that is not UTF-8. *)
Definition with_shred_log (path : name) (fs : Fs) : option AesGcmVault :=
  match fs !! path with
  | Some content =>
      if forallb utf8_valid (lines content)
      then Some (mkVault (mkInner ∅ (list_to_set (omap shred_line (lines content)))) (Some path) fs)
      else None
  | None => Some (mkVault (mkInner ∅ ∅) (Some path) fs)
  end.

Definition append_shred_log (key_id : KeyId) (v : AesGcmVault) : AesGcmVault :=
  match av_shred_log_path v with
  | Some path => mkVault (av_inner v) (Some path) (fs_append path (hex key_id ++ [10]) (av_fs v))
  | None => v
  end.

Definition NONCE_LEN : Z := 12.

Section Vault.
Context `{Aead}.

(** The randomness of a call: the key, if one is made, and the nonce. *)
Definition aes_encrypt (rnd : list Z * list Z) (key_id : KeyId) (plaintext : list Z) (v : AesGcmVault)
    : AesGcmVault * outcome CryptoError (list Z) :=
  let inner := av_inner v in
  if bool_decide (key_id ∈ vi_shredded inner) then (v, Err (KeyNotFound key_id))
  else
    let aes_key := default rnd.1 (vi_keys inner !! key_id) in
    let v := mkVault (mkInner (<[key_id := aes_key]> (vi_keys inner)) (vi_shredded inner)) (av_shred_log_path v) (av_fs v) in
    match aead_encrypt aes_key rnd.2 plaintext with
    | Some ciphertext => (v, Ok (rnd.2 ++ ciphertext))
    | None => (v, Err EncryptionFailed)
    end.

Definition aes_decrypt (key_id : KeyId) (data : list Z) (v : AesGcmVault) : outcome CryptoError (list Z) :=
  if len data <? NONCE_LEN + 16 then Err DecryptionFailed
  else if bool_decide (key_id ∈ vi_shredded (av_inner v)) then Err (KeyNotFound key_id)
  else match vi_keys (av_inner v) !! key_id with
       | None => Err (KeyNotFound key_id)
       | Some aes_key =>
           match aead_decrypt aes_key (take 12 data) (drop 12 data) with
           | Some p => Ok p
           | None => Err DecryptionFailed
           end
       end.

Definition aes_shred (key_id : KeyId) (v : AesGcmVault) : AesGcmVault * outcome CryptoError unit :=
  let inner := mkInner (delete key_id (vi_keys (av_inner v))) ({[key_id]} ∪ vi_shredded (av_inner v)) in
  (append_shred_log key_id (mkVault inner (av_shred_log_path v) (av_fs v)), Ok tt).

Definition aes_key_exists (key_id : KeyId) (v : AesGcmVault) : bool :=
  negb (bool_decide (key_id ∈ vi_shredded (av_inner v))) && bool_decide (is_Some (vi_keys (av_inner v) !! key_id)).

#[export] Instance AesGcm_vault : KeyVault AesGcmVault (list Z * list Z) := {|
  vault_encrypt := aes_encrypt; vault_decrypt := aes_decrypt; vault_shred := aes_shred; vault_key_exists := aes_key_exists;
|}.
End Vault.

(** ** The shred log reads back *)
Definition plain (b : Z) : Prop := 48 <= b < 128.

Lemma plain_not_space b : plain b -> ascii_space b = false.
Proof.
  unfold plain, ascii_space. intros Hb. rewrite !orb_false_iff, andb_false_iff, !Z.leb_gt, Z.eqb_neq. lia.
Qed.
Lemma plain_not_latin a b : plain a -> plain b -> latin_space a b = false.
Proof. unfold plain, latin_space. intros Ha Hb. rewrite andb_false_iff, Z.eqb_neq. lia. Qed.
Lemma plain_not_wide a b c : plain a -> wide_space a b c = false.
Proof.
  unfold plain, wide_space. intros Ha.
  destruct (Z.eqb_spec a 225), (Z.eqb_spec a 226), (Z.eqb_spec a 227); (done || lia).
Qed.

Lemma trim_start_plain s : Forall plain s -> trim_start s = s.
Proof.
  intros Hs. destruct Hs as [|a s Ha Hs]; [done|]. simpl. rewrite plain_not_space by done.
  destruct Hs as [|b s Hb Hs]; [done|]. rewrite plain_not_latin by done. destruct s as [|c s]; [done|].
  by rewrite plain_not_wide.
Qed.
Lemma trim_end_plain s : Forall plain s -> trim_end_rev s = s.
Proof.
  intros Hs. destruct Hs as [|a s Ha Hs]; [done|]. simpl. rewrite plain_not_space by done.
  destruct Hs as [|b s Hb Hs]; [done|]. rewrite plain_not_latin by done. destruct Hs as [|c s Hc Hs]; [done|].
  by rewrite plain_not_wide.
Qed.
Lemma trim_plain s : Forall plain s -> trim s = s.
Proof.
  intros Hs. unfold trim. rewrite trim_start_plain by done. rewrite trim_end_plain; [apply reverse_involutive|].
  by apply Forall_reverse.
Qed.

Lemma utf8_plain s : Forall plain s -> utf8_valid s = true.
Proof.
  induction 1 as [|b s Hb _ IH]; [done|]. simpl. unfold in_byte_range, plain in *.
  rewrite (proj2 (Z.leb_le 0 b)), (proj2 (Z.leb_le b 127)) by lia. done.
Qed.

Lemma hex_plain k : Forall in_u8 k -> Forall plain (hex k).
Proof.
  intros Hk. unfold hex. apply Forall_concat, Forall_fmap. eapply Forall_impl; [exact Hk|]. intros b _. exact (hex_fixed_ascii 2 b).
Qed.

Lemma hex_nibble_digit d : 0 <= d < 16 -> hex_nibble (hex_digit d) = Some d.
Proof.
  intros Hd. unfold hex_digit, hex_nibble. destruct (Z.ltb_spec d 10).
  - rewrite (proj2 (Z.leb_le 48 (48 + d))), (proj2 (Z.leb_le (48 + d) 57)) by lia. simpl. f_equal. lia.
  - destruct (Z.leb_spec 48 (87 + d)), (Z.leb_spec (87 + d) 57); try lia. simpl.
    rewrite (proj2 (Z.leb_le 97 (87 + d))), (proj2 (Z.leb_le (87 + d) 102)) by lia. simpl. f_equal. lia.
Qed.

Lemma nibbles_join hi lo : 0 <= lo < 16 -> Z.lor (Z.shiftl hi 4) lo = hi * 16 + lo.
Proof.
  intros Hlo. rewrite <- Z.add_lor_land, Z.shiftl_mul_pow2 by lia. change (2 ^ 4) with 16.
  assert (Z.land (hi * 16) lo = 0) as ->; [|lia].
  change 16 with (2 ^ 4). rewrite <- Z.shiftl_mul_pow2 by lia. apply Z.bits_inj'. intros n Hn.
  rewrite Z.land_spec, Z.shiftl_spec, Z.bits_0 by lia. apply andb_false_iff.
  destruct (Z.ltb_spec n 4) as [Hlt | Hge]; [left; apply Z.testbit_neg_r; lia|right].
  destruct (decide (lo = 0)) as [-> | Hz]; [apply Z.bits_0|]. apply Z.bits_above_log2; [lia|].
  apply Z.lt_le_trans with 4; [apply Z.log2_lt_pow2; lia|done].
Qed.

Lemma hex_chunks_hex k : Forall in_u8 k -> hex_chunks (hex k) = Some k.
Proof.
  induction 1 as [|b k Hb _ IH]; [done|]. change (hex (b :: k)) with (hex_fixed 2 b ++ hex k).
  cbn [hex_fixed app hex_chunks]. unfold in_u8, u8_MAX in Hb.
  rewrite !hex_nibble_digit by (apply Z.mod_pos_bound; lia). rewrite IH. simpl. f_equal. f_equal.
  rewrite nibbles_join by (apply Z.mod_pos_bound; lia). rewrite (Z.mod_small (b / 16)) by (split; [apply Z.div_pos|apply Z.div_lt_upper_bound]; lia).
  pose proof (Z.div_mod b 16). lia.
Qed.

Lemma length_hex k : length (hex k) = (2 * length k)%nat.
Proof. induction k as [|b k IH]; [done|]. change (hex (b :: k)) with (hex_fixed 2 b ++ hex k). rewrite length_app, length_hex_fixed, IH. simpl. lia. Qed.

Lemma shred_line_hex k : key_id_typed k -> shred_line (hex k) = Some k.
Proof.
  intros [Hk Hl]. unfold shred_line, hex_decode. rewrite trim_plain by (by apply hex_plain).
  unfold len. rewrite length_hex, Hl. by apply hex_chunks_hex.
Qed.

(** The bytes the log holds after shredding [ks]. *)
Definition log_of (ks : list KeyId) : list Z := concat ((fun k => hex k ++ [10]) <$> ks).

Lemma lines_plain s rest acc : Forall plain s -> lines_from (s ++ 10 :: rest) acc = strip_cr (reverse acc ++ s) :: lines_from rest [].
Proof.
  intros Hs. revert acc. induction Hs as [|b s Hb _ IH]; intros acc; simpl; [by rewrite app_nil_r|].
  unfold plain in Hb. destruct (Z.eqb_spec b 10); [lia|]. rewrite IH, reverse_cons, <- app_assoc. done.
Qed.

Lemma strip_cr_plain s : Forall plain s -> strip_cr s = s.
Proof.
  intros Hs. unfold strip_cr. destruct (last s) as [z|] eqn:El; [|done]. apply last_Some in El as [s' ->].
  apply Forall_app in Hs as [_ Hz]. apply Forall_cons in Hz as [Hz _]. unfold plain in Hz.
  destruct (decide (z = 13)) as [-> | Hne]; [lia|]. repeat (case_match; try done; try lia).
Qed.

Lemma lines_log ks : Forall key_id_typed ks -> lines (log_of ks) = hex <$> ks.
Proof.
  unfold lines. induction 1 as [|k ks [Hk _] _ IH]; [done|]. unfold log_of. csimpl. rewrite <- app_assoc. cbn [app].
  pose proof (hex_plain k Hk) as Hp. rewrite lines_plain by done. rewrite reverse_nil, app_nil_l, strip_cr_plain by done.
  by f_equal.
Qed.

Lemma shred_log_reads ks :
  Forall key_id_typed ks -> omap shred_line (lines (log_of ks)) = ks /\ forallb utf8_valid (lines (log_of ks)) = true.
Proof.
  intros Hks. rewrite lines_log by done. induction Hks as [|k ks Hk Hks [IH1 IH2]]; [done|]. csimpl.
  rewrite shred_line_hex, IH1, IH2 by done. split; [done|]. rewrite utf8_plain; [done|]. by apply hex_plain, Hk.
Qed.

(** ** Histories with restarts *)
Section Histories.
Context `{AeadLaws} (path : name).

Inductive vault_op : Type :=
| VEncrypt (rnd : list Z * list Z) (key_id : KeyId) (plaintext : list Z)
| VShred (key_id : KeyId)
| VRestart.

Definition vault_step (v : AesGcmVault) (op : vault_op) : AesGcmVault :=
  match op with
  | VEncrypt rnd k p => (aes_encrypt rnd k p v).1
  | VShred k => (aes_shred k v).1
  | VRestart => default v (with_shred_log path (av_fs v))
  end.

Definition op_typed (op : vault_op) : Prop :=
  match op with VShred k => key_id_typed k | _ => True end.

(** The file lists the shredded keys; no key of them is kept. *)
Record vault_inv (v : AesGcmVault) (ks : list KeyId) : Prop := {
  vl_path : av_shred_log_path v = Some path;
  vl_file : default [] (av_fs v !! path) = log_of ks;
  vl_typed : Forall key_id_typed ks;
  vl_shredded : vi_shredded (av_inner v) = list_to_set ks;
  vl_keys k : k ∈ ks -> vi_keys (av_inner v) !! k = None;
}.

Lemma log_of_snoc ks k : log_of (ks ++ [k]) = log_of ks ++ hex k ++ [10].
Proof. unfold log_of. rewrite fmap_app, concat_app. csimpl. by rewrite app_nil_r. Qed.

Lemma vault_step_inv v ks op :
  vault_inv v ks -> op_typed op ->
  exists ks', vault_inv (vault_step v op) ks' /\ (forall k, k ∈ ks -> k ∈ ks') /\ (forall k, op = VShred k -> k ∈ ks').
Proof.
  intros [Hp Hf Ht Hs Hk] Hop. destruct op as [rnd k p|k|]; simpl in *.
  - exists ks. split; [|done]. unfold aes_encrypt. case_bool_decide as Hin; [by split|].
    assert (k ∉ ks) as Hks by (intros Hi; apply Hin; rewrite Hs; by apply elem_of_list_to_set).
    destruct (aead_encrypt _ _ _); (split; simpl; [done|done|done|done|]);
      intros k' Hi; (rewrite lookup_insert_ne by (by intros <-)); by apply Hk.
  - exists (ks ++ [k]). split; [|split; [intros; apply elem_of_app; by left|intros ? [= <-]; apply elem_of_app; right; by left]].
    unfold append_shred_log. rewrite Hp. split; simpl; [done| | | |].
    + unfold fs_append. rewrite lookup_insert_eq. simpl. by rewrite Hf, log_of_snoc.
    + apply Forall_app. by split; [|constructor].
    + rewrite Hs. rewrite list_to_set_app_L. simpl. set_solver.
    + intros k' [Hi | ->%list_elem_of_singleton]%elem_of_app; [|apply lookup_delete_eq].
      apply lookup_delete_None. right. by apply Hk.
  - exists ks. split; [|done]. unfold with_shred_log. destruct (av_fs v !! path) as [content|] eqn:Ec; simpl in Hf.
    + subst content. destruct (shred_log_reads ks Ht) as [-> ->]. by split; simpl; rewrite ?Ec.
    + destruct ks as [|k ks]; [by split; simpl; rewrite ?Ec|].
      exfalso. revert Hf. unfold log_of. csimpl. rewrite <- app_assoc. by destruct (hex k).
Qed.

Lemma vault_run_inv ops v ks :
  vault_inv v ks -> Forall op_typed ops ->
  exists ks', vault_inv (foldl vault_step v ops) ks' /\ (forall k, k ∈ ks -> k ∈ ks')
    /\ (forall k, VShred k ∈ ops -> k ∈ ks').
Proof.
  revert v ks. induction ops as [|op ops IH]; intros v ks Hv Hops.
  { exists ks. split_and!; [done|done|]. intros k Hk. by apply elem_of_nil in Hk. }
  apply Forall_cons in Hops as [Hop Hops]. destruct (vault_step_inv v ks op Hv Hop) as (ks1 & H1 & Hsub & Hnew).
  destruct (IH _ _ H1 Hops) as (ks2 & H2 & Hsub2 & Hnew2). exists ks2. split_and!; [done|by auto|].
  intros k [<- | Hi]%elem_of_cons; [|by apply Hnew2]. apply Hsub2. by apply Hnew.
Qed.

(** C30: Once shred has been called for a key, then after any further history
    of encryptions, decryptions, shreds and restarts from the shred log, the key
    decrypts nothing, encrypts nothing and does not exist, whatever the cipher. *)
Theorem shredded_key_stays_dead (fs : Fs) (ops : list vault_op) (k : KeyId) v0 :
  fs !! path = None -> with_shred_log path fs = Some v0 -> Forall op_typed ops -> VShred k ∈ ops ->
  let v := foldl vault_step v0 ops in
  (forall data, aes_decrypt k data v = Err (KeyNotFound k) \/ len data < 28 /\ aes_decrypt k data v = Err DecryptionFailed)
  /\ (forall rnd p, aes_encrypt rnd k p v = (v, Err (KeyNotFound k)))
  /\ aes_key_exists k v = false.
Proof.
  intros Hfs E0 Hops Hk v. unfold with_shred_log in E0. rewrite Hfs in E0. injection E0 as <-.
  destruct (vault_run_inv ops (mkVault (mkInner ∅ ∅) (Some path) fs) []) as (ks & Hv & _ & Hnew); [|done|].
  { split; simpl; [done|by rewrite Hfs|done|done|by intros]. }
  fold v in Hv. specialize (Hnew k Hk). assert (k ∈ vi_shredded (av_inner v)) as Hin.
  { rewrite (vl_shredded _ _ Hv). by apply elem_of_list_to_set. }
  split_and!.
  - intros data. unfold aes_decrypt, NONCE_LEN. destruct (Z.ltb_spec (len data) (12 + 16)); [right; split; [lia|done]|left].
    by rewrite bool_decide_eq_true_2.
  - intros rnd p. unfold aes_encrypt. by rewrite bool_decide_eq_true_2.
  - unfold aes_key_exists. by rewrite bool_decide_eq_true_2.
Qed.

(** Until a key is shredded or the process restarts, what it encrypted can be
    read. *)
Theorem encrypted_data_reads_back v rnd k p c v1 ops :
  length rnd.2 = 12%nat -> aes_encrypt rnd k p v = (v1, Ok c) ->
  Forall (fun op => op <> VRestart /\ op <> VShred k) ops ->
  aes_decrypt k c (foldl vault_step v1 ops) = Ok p.
Proof.
  intros Hn He Hops. unfold aes_encrypt in He. case_bool_decide as Hs; [done|]. set (key := default rnd.1 _) in He.
  destruct (aead_encrypt key rnd.2 p) as [ct|] eqn:Ee; [|done]. injection He as <- <-.
  set (v1 := mkVault _ _ _).
  assert (vi_keys (av_inner v1) !! k = Some key /\ k ∉ vi_shredded (av_inner v1)) as H1.
  { split; [apply lookup_insert_eq|done]. }
  clearbody v1. revert v1 H1. induction Hops as [|op ops [Hr Hsh] _ IH]; intros v1 [Hk1 Hs1]; cbn [foldl].
  - unfold aes_decrypt. pose proof (aead_tag _ _ _ _ Ee). unfold len, NONCE_LEN in *.
    rewrite length_app, Hn. destruct (Z.ltb_spec (Z.of_nat (12 + length ct)) (12 + 16)); [lia|].
    rewrite bool_decide_eq_false_2 by done. rewrite Hk1, take_app_length', drop_app_length' by done.
    by rewrite (aead_roundtrip _ _ _ _ Ee).
  - apply IH. destruct op as [rnd' k' p'|k'|]; [| |done]; simpl.
    + unfold aes_encrypt. case_bool_decide; [by split|]. destruct (aead_encrypt _ rnd'.2 p'); simpl; (split; [|exact Hs1]);
        (destruct (decide (k' = k)) as [-> | Hne]; [rewrite lookup_insert_eq, Hk1; done|by rewrite lookup_insert_ne]).
    + unfold append_shred_log. assert (k' <> k) by (intros ->; done).
      destruct (av_shred_log_path v1); simpl; (split; [by rewrite lookup_delete_ne|set_solver]).
Qed.
End Histories.

(** ** A concrete vault *)
#[local] Instance toy_aead : Aead := {|
  aead_encrypt _ _ p := Some (p ++ replicate 16 0);
  aead_decrypt _ _ c := Some (take (length c - 16) c);
|}.

#[local] Instance toy_aead_laws : AeadLaws.
Proof.
  split; intros k n p c [= <-].
  - change (Some (take (length (p ++ replicate 16 0) - 16) (p ++ replicate 16 0)) = Some p).
    rewrite length_app, length_replicate. replace (length p + 16 - 16)%nat with (length p) by lia. by rewrite take_app_length.
  - unfold len. rewrite length_app. simpl. lia.
Qed.

Definition demo_key : KeyId := replicate 16 171.
Definition shred_path : name := [115; 104; 114; 101; 100].
Definition vault_history : list vault_op :=
  [VEncrypt (replicate 32 1, replicate 12 2) demo_key [104; 105]; VShred demo_key; VRestart;
   VEncrypt (replicate 32 3, replicate 12 4) demo_key [104; 105]].

Lemma shredded_key_stays_dead_witness :
  (aes_encrypt (replicate 32 1, replicate 12 2) demo_key [104; 105] (mkVault (mkInner ∅ ∅) (Some shred_path) ∅)).2
  = Ok (replicate 12 2 ++ [104; 105] ++ replicate 16 0)
  /\ aes_key_exists demo_key (foldl (vault_step shred_path) (mkVault (mkInner ∅ ∅) (Some shred_path) ∅) vault_history) = false.
Proof.
  split; [by vm_compute|].
  destruct (shredded_key_stays_dead shred_path ∅ vault_history demo_key (mkVault (mkInner ∅ ∅) (Some shred_path) ∅))
    as (_ & _ & Hk); [apply lookup_empty|reflexivity| |right; left|exact Hk].
  repeat constructor; vm_compute; discriminate.
Defined.
