(* ===== verification/Engine.v ===== *)
(** * The engine

    Models [crates/valori-engine/src]: the engine of a standalone node
    ([engine.rs]), its durability backends ([persistence.rs]), the metadata
    sidecar ([metadata.rs]), configuration and errors ([config.rs], [error.rs]).

    The engine keeps its own kernel state next to the committer's; every
    mutation is logged first and then applied.  It is generic in the host-side
    index ([VectorIndex], with the constructor for each kind as the argument
    [new_index]), in the key vault ([KeyVault]) and in the JSON and map codecs
    ([EngineCodec]).  Clock readings and directory listings are arguments.  File
    operations succeed; health and metrics are not modelled. *)

From stdpp Require Import gmap strings.
From S2P Require Import Prelude.
From S2P Require Import Core.
From S2P Require Import Fxp.
From S2P Require Import TopK.
From S2P Require Import Slab.
From S2P Require Import Records.
From S2P Require Import Graph.
From S2P Require Import Index.
From S2P Require Import Event.
From S2P Require Import Kernel.
From S2P Require Import Bytes.
From S2P Require Import Snapshot.
From S2P Require Import StateProof.
From S2P Require Import EventCodec.
From S2P Require Import Wire.
From S2P Require Import EventLog.
From S2P Require Import EventCommit.
From S2P Require Import Registry.
From S2P Require Import Wal.
From S2P Require Import F32.
From S2P Require Import HostIndex.
From S2P Require Import Reranker.
From S2P Require Import Vault.

(** The bytes of an ASCII literal. *)
Definition text (s : String.string) : list Z :=
  (fun a => Z.of_nat (Ascii.nat_of_ascii a)) <$> String.list_ascii_of_string s.

(** ** Configuration (config.rs) *)
Inductive IndexKind : Type := KBruteForce | KHnsw | KIvf | KBq | KAuto.
#[export] Instance IndexKind_eq_dec : EqDecision IndexKind.
Proof. solve_decision. Defined.

Record EngineConfig : Type := mkConfig {
  cfg_dim : Z;
  cfg_max_records : Z;
  cfg_max_nodes : Z;
  cfg_max_edges : Z;
  cfg_index_kind : IndexKind;
  cfg_snapshot_path : option name;
  cfg_wal_path : option name;
  cfg_event_log_path : option name;
  cfg_event_log_rotation_bytes : option Z;
  cfg_shard_count : Z;
}.

(** ** Errors (error.rs) *)
Inductive PersistError : Type :=
| PCapacity
| PApply (e : KernelError)
| PIo
| PEmptyBatch
| PRejected (reason : list Z)
| PNotLeader.

(** What [InvalidInput] complains about. *)
Inductive InputError : Type :=
| ValueOutOfRange | NoDimension | VaultFailed (e : CryptoError) | UnknownCollection (n : option name)
| NamespaceLimit | DefaultCollection | CollectionNotFound (n : name) | NoSnapshotPath | BufferTooSmall
| BadMagic | TruncatedSnapshot | BadSidecar | IndexFailed | EmptyBatchInput | RejectedInput (reason : list Z).

Inductive EngineError : Type :=
| EKernel (e : KernelError)
| EInvalidInput (why : InputError)
| EInternal
| ENetwork
| EUnknown.

Definition engine_error_of (e : PersistError) : EngineError :=
  match e with
  | PApply k => EKernel k
  | PCapacity => EKernel CapacityExceeded
  | PIo => EInternal
  | PEmptyBatch => EInvalidInput EmptyBatchInput
  | PRejected s => EInvalidInput (RejectedInput s)
  | PNotLeader => EInternal
  end.

(** The HTTP status of an error. *)
Definition status_of (e : EngineError) : Z :=
  match e with
  | EKernel k =>
      match k with
      | NotFound => 404
      | CapacityExceeded => 507
      | DimensionMismatch _ _ | InvalidOperation | InvalidInputK | Records.MetadataTooLarge | QueryOutOfRange _
      | InvalidPayloadLength _ _ | InvalidCommand _ => 400
      | Overflow | DistanceOverflow | IoError => 500
      | NotImplemented => 501
      end
  | EInvalidInput _ => 400
  | EInternal | EUnknown => 500
  | ENetwork => 502
  end.

(** ** Durability (persistence.rs) *)
Definition translate (e : CommitError) : PersistError :=
  match e with
  | LiveApply ke | ShadowApply ke => PApply ke
  | CEventLog _ | VerificationFailed => PIo
  end.

Inductive Persistence : Type := PEventLog (c : EventCommitter) | PWal (w : WalWriter) | PEphemeral.

Definition event_committer (p : Persistence) : option EventCommitter :=
  match p with PEventLog c => Some c | _ => None end.

(** The file system is the committer's where there is one. *)
Section Persistence.
Context `{Bincode} (blake3 : list Z -> list Z) (crc32 : list Z -> Z).

Definition log_event_ns (t : Times) (event : KernelEvent) (namespace_id : Z) (p : Persistence) (fs : Fs)
    : Persistence * Fs * outcome PersistError unit :=
  match p with
  | PEventLog c =>
      let '(c, o) := commit_event_ns blake3 crc32 t event namespace_id c in
      (PEventLog c, fs, do* _ := map_err translate o in Ok tt)
  | PWal w => let '(fs, w) := append_event event namespace_id w fs in (PWal w, fs, Ok tt)
  | PEphemeral => (p, fs, Ok tt)
  end.

Definition log_batch_ns (t : Times) (events : list KernelEvent) (namespace_id : Z) (p : Persistence) (fs : Fs)
    : Persistence * Fs * outcome PersistError unit :=
  match p with
  | PEventLog c =>
      let '(c, o) := commit_batch_ns blake3 crc32 t events namespace_id c in
      (PEventLog c, fs, do* _ := map_err translate o in Ok tt)
  | PWal w =>
      let '(w, fs) := foldl (fun st e => let '(fs, w) := append_event e namespace_id st.1 st.2 in (w, fs)) (w, fs) events in
      (PWal w, fs, Ok tt)
  | PEphemeral => (p, fs, Ok tt)
  end.
End Persistence.

(** ** JSON and maps *)
Class EngineCodec : Type := {
  Json : Type;
  json_to_string : Json -> list Z;
  json_of_string : list Z -> option Json;
  metadata_to_json : gmap (list Z) Json -> list Z;
  metadata_of_json : list Z -> option (gmap (list Z) Json);
  registry_to_json : CollectionRegistry -> list Z;
  registry_of_json : list Z -> option CollectionRegistry;
  put_created : gmap Z Z -> list Z;
  get_created : list Z -> option (gmap Z Z);
  put_corpus : gmap Z (list word) * Z -> list Z;
  get_corpus : list Z -> option (gmap Z (list word) * Z);
}.
Class EngineCodecLaws `{EngineCodec} : Prop := {
  json_string_ok j : json_of_string (json_to_string j) = Some j;
  metadata_json_ok m : metadata_of_json (metadata_to_json m) = Some m;
  metadata_json_nonempty m : metadata_to_json m <> [];
  registry_json_ok r : registry_of_json (registry_to_json r) = Some r;
  created_ok m : get_created (put_created m) = Some m;
  corpus_ok c : get_corpus (put_corpus c) = Some c;
}.

(** ** The engine (engine.rs) *)
Inductive RecoveryMode : Type := REventLog (n : Z) | RSnapshot | RWal (n : Z) | RFresh.

Definition AUTO_TIER_BQ_MIN : Z := 10000.
Definition AUTO_TIER_HNSW_MIN : Z := 2000000.
Definition BATCH_SEEN_MAX : nat := Z.to_nat 65536.

Definition metadata_path (cfg : EngineConfig) : option name :=
  (fun p => with_extension p (text "metadata.json")) <$> cfg_event_log_path cfg.
Definition namespaces_path (cfg : EngineConfig) : option name :=
  (fun p => with_extension p (text "namespaces.json"))
    <$> match cfg_event_log_path cfg with Some p => Some p | None => cfg_snapshot_path cfg end.

Section Engine.
Context `{Bincode} (blake3 : list Z -> list Z) (crc32 : list Z -> Z) (simd : SimdPath).
Context `{EngineCodec} {I : Type} `{VectorIndex I} (new_index : IndexKind -> Z -> I).
Context {V R : Type} `{KeyVault V R}.

Record Engine : Type := mkEngine {
  e_cfg : EngineConfig;
  e_state : KernelState;
  e_metadata : gmap (list Z) Json;
  e_index : I;
  e_current_kind : IndexKind;
  e_persistence : Persistence;
  e_record_to_node : gmap Z Z;
  e_created_at : gmap Z Z;
  e_namespaces : CollectionRegistry;
  e_vault : V;
  e_batch_seen : gmap (list Z) Z;
  e_reranker : ValoriReranker;
  e_fs : Fs;
}.

Definition e_set_state s e := mkEngine (e_cfg e) s (e_metadata e) (e_index e) (e_current_kind e) (e_persistence e)
  (e_record_to_node e) (e_created_at e) (e_namespaces e) (e_vault e) (e_batch_seen e) (e_reranker e) (e_fs e).
Definition e_set_metadata m e := mkEngine (e_cfg e) (e_state e) m (e_index e) (e_current_kind e) (e_persistence e)
  (e_record_to_node e) (e_created_at e) (e_namespaces e) (e_vault e) (e_batch_seen e) (e_reranker e) (e_fs e).
Definition e_set_index k i e := mkEngine (e_cfg e) (e_state e) (e_metadata e) i k (e_persistence e)
  (e_record_to_node e) (e_created_at e) (e_namespaces e) (e_vault e) (e_batch_seen e) (e_reranker e) (e_fs e).
Definition e_set_persistence p fs e := mkEngine (e_cfg e) (e_state e) (e_metadata e) (e_index e) (e_current_kind e) p
  (e_record_to_node e) (e_created_at e) (e_namespaces e) (e_vault e) (e_batch_seen e) (e_reranker e) fs.
Definition e_set_record_to_node m e := mkEngine (e_cfg e) (e_state e) (e_metadata e) (e_index e) (e_current_kind e) (e_persistence e)
  m (e_created_at e) (e_namespaces e) (e_vault e) (e_batch_seen e) (e_reranker e) (e_fs e).
Definition e_set_created_at m e := mkEngine (e_cfg e) (e_state e) (e_metadata e) (e_index e) (e_current_kind e) (e_persistence e)
  (e_record_to_node e) m (e_namespaces e) (e_vault e) (e_batch_seen e) (e_reranker e) (e_fs e).
Definition e_set_namespaces r e := mkEngine (e_cfg e) (e_state e) (e_metadata e) (e_index e) (e_current_kind e) (e_persistence e)
  (e_record_to_node e) (e_created_at e) r (e_vault e) (e_batch_seen e) (e_reranker e) (e_fs e).
Definition e_set_vault v e := mkEngine (e_cfg e) (e_state e) (e_metadata e) (e_index e) (e_current_kind e) (e_persistence e)
  (e_record_to_node e) (e_created_at e) (e_namespaces e) v (e_batch_seen e) (e_reranker e) (e_fs e).
Definition e_set_batch_seen m e := mkEngine (e_cfg e) (e_state e) (e_metadata e) (e_index e) (e_current_kind e) (e_persistence e)
  (e_record_to_node e) (e_created_at e) (e_namespaces e) (e_vault e) m (e_reranker e) (e_fs e).
Definition e_set_reranker r e := mkEngine (e_cfg e) (e_state e) (e_metadata e) (e_index e) (e_current_kind e) (e_persistence e)
  (e_record_to_node e) (e_created_at e) (e_namespaces e) (e_vault e) (e_batch_seen e) r (e_fs e).

Definition eng_fs (e : Engine) : Fs :=
  match e_persistence e with PEventLog c => lg_fs (c_log c) | _ => e_fs e end.
Definition eng_set_fs (fs : Fs) (e : Engine) : Engine :=
  match e_persistence e with
  | PEventLog c => e_set_persistence (PEventLog (c_set_log (mkLog fs (lg_writer (c_log c))) c)) (e_fs e) e
  | p => e_set_persistence p fs e
  end.

Abbreviation EM A := (M EngineError Engine A).

(** [?] on a kernel call. *)
Definition with_state (m : M KernelError KernelState unit) : EM unit :=
  fun e => let '(s, o) := m (e_state e) in (e_set_state s e, map_err EKernel o).

(** Log, then apply. *)
Definition log_event (t : Times) (event : KernelEvent) (namespace_id : Z) : EM unit :=
  fun e => let '(p, fs, o) := log_event_ns blake3 crc32 t event namespace_id (e_persistence e) (e_fs e) in
           (e_set_persistence p fs e, map_err engine_error_of o).
Definition log_batch (t : Times) (events : list KernelEvent) (namespace_id : Z) : EM unit :=
  fun e => let '(p, fs, o) := log_batch_ns blake3 crc32 t events namespace_id (e_persistence e) (e_fs e) in
           (e_set_persistence p fs e, map_err engine_error_of o).

(** ** Applying an event *)
Definition forget_node (id : Z) (e : Engine) : Engine :=
  match get_node (e_state e) id with
  | Some node =>
      match nd_record node with
      | Some rid => e_set_record_to_node (delete rid (e_record_to_node e)) e
      | None => e
      end
  | None => e
  end.

Definition host_vector (v : FxpVector) : list f32 := to_f32 <$> v.

Definition post_apply_derived (event : KernelEvent) (e : Engine) : Engine :=
  match event with
  | InsertRecord id vector _ _ => e_set_index (e_current_kind e) (ix_insert id (host_vector vector) (e_index e)) e
  | DeleteRecord id | SoftDeleteRecord id => e_set_index (e_current_kind e) (ix_delete id (e_index e)) e
  | CreateNode id _ (Some rid) => e_set_record_to_node (<[rid := id]> (e_record_to_node e)) e
  | _ => e
  end.

Definition apply_committed_event_ns (event : KernelEvent) (namespace_id : Z) : EM unit :=
  (match event with DeleteNode id => smodify (forget_node id) | _ => sret tt end) ;;;
  with_state (apply_event_ns event namespace_id) ;;;
  smodify (post_apply_derived event).

Definition apply_committed_event (event : KernelEvent) : EM unit := apply_committed_event_ns event DEFAULT_NS.

Definition commit_and_apply_ns (t : Times) (event : KernelEvent) (namespace_id : Z) : EM unit :=
  log_event t event namespace_id ;;; apply_committed_event_ns event namespace_id.

(** ** Index management *)
Definition effective_index_kind (e : Engine) : IndexKind :=
  match cfg_index_kind (e_cfg e) with
  | KAuto =>
      let n := record_count (e_state e) in
      if AUTO_TIER_HNSW_MIN <=? n then KHnsw else if AUTO_TIER_BQ_MIN <=? n then KBq else KBruteForce
  | other => other
  end.

(** The searchable records, with their vectors, in slot order. *)
Definition index_records (s : KernelState) : list (Z * list f32) :=
  omap (fun i => match get_record s (wrap_u32 i) with
                 | Some r => if is_searchable r then Some (wrap_u32 i, host_vector (rec_vector r)) else None
                 | None => None
                 end) (seqZ 0 (total_record_slots s)).

Definition build_index (e : Engine) : Engine :=
  e_set_index (e_current_kind e) (ix_build (index_records (e_state e)) (e_index e)) e.

Definition rebuild_index (e : Engine) : Engine :=
  build_index (e_set_index (e_current_kind e)
    (new_index (effective_index_kind e) (default 0 (ks_dim (e_state e)))) e).

Definition auto_tier_check (e : Engine) : Engine :=
  if negb (bool_decide (cfg_index_kind (e_cfg e) = KAuto)) then e
  else
    let target := effective_index_kind e in
    if bool_decide (target = e_current_kind e) then e
    else rebuild_index (e_set_index target (e_index e) e).

Definition rebuild_record_to_node (e : Engine) : Engine :=
  e_set_record_to_node
    (foldl (fun m n => match nd_record n with Some rid => <[rid := nd_id n]> m | None => m end) ∅
       (iter_nodes (e_state e))) e.

(** ** Construction *)
Definition initial_kind (cfg : EngineConfig) : IndexKind :=
  match cfg_index_kind cfg with KAuto => KBruteForce | other => other end.

Definition with_rotation (limit : option Z) (c : EventCommitter) : EventCommitter :=
  match limit with
  | Some l => with_rotation_bytes (if l =? 0 then None else Some l) c
  | None => c
  end.

Definition open_persistence (cfg : EngineConfig) (fs : Fs) : Fs * outcome EngineError Persistence :=
  match cfg_event_log_path cfg with
  | Some path =>
      match open_writer blake3 crc32 path (Some (wrap_u32 (cfg_dim cfg))) fs with
      | (fs, Ok w) =>
          (fs, Ok (PEventLog (with_rotation (cfg_event_log_rotation_bytes cfg)
                     (committer_new (mkLog fs w) journal_new (KernelState_with_dim (cfg_dim cfg))))))
      | (fs, Err _) => (fs, Ok PEphemeral)
      | (fs, Panic) => (fs, Panic)
      | (fs, Hang) => (fs, Hang)
      end
  | None =>
      match cfg_wal_path cfg with
      | Some path =>
          match WalWriter_open path (wrap_u32 (cfg_dim cfg)) fs with
          | (fs, Ok w) => (fs, Ok (PWal w))
          | (fs, Err _) => (fs, Ok PEphemeral)
          | (fs, Panic) => (fs, Panic)
          | (fs, Hang) => (fs, Hang)
          end
      | None => (fs, Ok PEphemeral)
      end
  end.

Definition with_config (cfg : EngineConfig) (vault : V) (fs : Fs) : outcome EngineError Engine :=
  let kind := initial_kind cfg in
  let '(fs, o) := open_persistence cfg fs in
  do* persistence := o in
  let kernel_state := KernelState_with_dim (cfg_dim cfg) in
  let kernel_state :=
    match kind with KBq => set_index_kind VBinaryQuantization kernel_state | _ => kernel_state end in
  Ok (mkEngine cfg kernel_state ∅ (new_index kind (cfg_dim cfg)) kind persistence ∅ ∅ registry_new vault ∅
        reranker_new fs).

Definition shard_for_ns (e : Engine) (namespace_id : Z) : Z :=
  if cfg_shard_count (e_cfg e) <=? 1 then 0 else namespace_id mod cfg_shard_count (e_cfg e).

(** ** Inserts *)

(** The range check and conversion of one vector. *)
Fixpoint to_fxp (values : list f32) : outcome EngineError FxpVector :=
  match values with
  | [] => Ok []
  | v :: values =>
      if f32_out_of_range v then Err (EInvalidInput ValueOutOfRange)
      else do* rest := to_fxp values in Ok (fxp_of_f32 v :: rest)
  end.

Definition check_capacity : EM unit :=
  let* e := sget in
  sguard (cfg_max_records (e_cfg e) <=? record_count (e_state e)) (EKernel CapacityExceeded).

Definition stamp_created (id now : Z) (e : Engine) : Engine := e_set_created_at (<[id := now]> (e_created_at e)) e.

Definition insert_record_from_f32_ns (t : Times) (now : Z) (values : list f32) (namespace_id : Z) : EM Z :=
  check_capacity ;;;
  let* vector := slift (to_fxp values) in
  let* e := sget in
  let rid := next_record_id (e_state e) in
  commit_and_apply_ns t (InsertRecord rid vector None 0) namespace_id ;;;
  smodify auto_tier_check ;;;
  smodify (stamp_created rid now) ;;;
  sret rid.

Definition insert_record_fxp (t : Times) (now : Z) (fxp_vec : FxpVector) (metadata : option (list Z))
    (tag namespace_id : Z) : EM Z :=
  check_capacity ;;;
  let* e := sget in
  let rid := next_record_id (e_state e) in
  commit_and_apply_ns t (InsertRecord rid fxp_vec metadata tag) namespace_id ;;;
  smodify (stamp_created rid now) ;;;
  sret rid.

Definition apply_meta_event (t : Times) (key value : list Z) : EM unit :=
  commit_and_apply_ns t (SetMeta key value) DEFAULT_NS.

(** ** Crypto-shredding *)
Definition with_vault {A} (m : V -> V * outcome CryptoError A) : EM A :=
  fun e => let '(v, o) := m (e_vault e) in (e_set_vault v e, map_err (fun c => EInvalidInput (VaultFailed c)) o).

Definition insert_encrypted_ns (t : Times) (rnd : R) (plaintext : list Z) (tag namespace_id : Z) (key_id : KeyId) : EM Z :=
  check_capacity ;;;
  let* e := sget in
  sguard (negb (bool_decide (is_Some (ks_dim (e_state e))))) (EInvalidInput NoDimension) ;;;
  let* ciphertext := with_vault (vault_encrypt rnd key_id plaintext) in
  let* e := sget in
  let rid := next_record_id (e_state e) in
  commit_and_apply_ns t (InsertRecordEncrypted rid key_id ciphertext None tag) namespace_id ;;;
  sret rid.

Definition shred_key (t : Times) (key_id : KeyId) : EM unit :=
  with_vault (vault_shred key_id) ;;;
  commit_and_apply_ns t (ShredKey key_id) DEFAULT_NS.

(** ** Batch insert *)

(** The token of the [i]-th element. *)
Definition request_id_at (request_ids : option (list (option (list Z)))) (i : nat) : option (list Z) :=
  match request_ids with Some l => match l !! i with Some o => o | None => None end | None => None end.

(** The elements seen in an earlier batch, with their ids, and the others. *)
Definition split_batch (seen : gmap (list Z) Z) (request_ids : option (list (option (list Z)))) (n : nat)
    : list (nat * Z) * list nat :=
  foldl (fun st i =>
    match request_id_at request_ids i with
    | Some rid => match seen !! rid with
                  | Some existing => (st.1 ++ [(i, existing)], st.2)
                  | None => (st.1, st.2 ++ [i])
                  end
    | None => (st.1, st.2 ++ [i])
    end) ([], []) (seq 0 n).

(** The loop that makes the events; [slot] counts the new ones. *)
Fixpoint batch_events (start_id : Z) (batch : list (list f32)) (metadata : option (list (option (list Z))))
    (slot : nat) (indices : list nat) (id_map : list Z) : outcome EngineError (list KernelEvent * list Z) :=
  match indices with
  | [] => Ok ([], id_map)
  | i :: indices =>
      do* values := unwrap (batch !! i) in
      do* vector := to_fxp values in
      let id := wrap_u32 (start_id + Z.of_nat slot) in
      let meta := match metadata with Some m => match m !! i with Some o => o | None => None end | None => None end in
      do* rest := batch_events start_id batch metadata (S slot) indices (<[i := id]> id_map) in
      Ok (InsertRecord id vector meta 0 :: rest.1, rest.2)
  end.

(** [if self.batch_seen.len() >= 65536 { clear }] before every insertion. *)
Definition remember_token (request_ids : option (list (option (list Z)))) (id_map : list Z)
    (seen : gmap (list Z) Z) (i : nat) : gmap (list Z) Z :=
  match request_id_at request_ids i with
  | Some rid =>
      let seen := if bool_decide (BATCH_SEEN_MAX <= size seen)%nat then ∅ else seen in
      <[rid := default 0 (id_map !! i)]> seen
  | None => seen
  end.

Definition insert_batch_ns (t : Times) (now : Z) (batch : list (list f32)) (metadata : option (list (option (list Z))))
    (namespace_id : Z) (request_ids : option (list (option (list Z)))) : EM (list Z) :=
  let* e := sget in
  let '(deduped, insert_indices) := split_batch (e_batch_seen e) request_ids (length batch) in
  sguard (cfg_max_records (e_cfg e) <? record_count (e_state e) + len insert_indices) (EKernel CapacityExceeded) ;;;
  let id_map := foldl (fun m p => <[p.1 := p.2]> m) (replicate (length batch) 0) deduped in
  let* made := slift (batch_events (next_record_id (e_state e)) batch metadata 0 insert_indices id_map) in
  let '(events, id_map) := made in
  log_batch t events namespace_id ;;;
  sfor events (fun event => apply_committed_event_ns event namespace_id) ;;;
  smodify auto_tier_check ;;;
  smodify (fun e => e_set_batch_seen (foldl (remember_token request_ids id_map) (e_batch_seen e) insert_indices) e) ;;;
  smodify (fun e => e_set_created_at (foldl (fun m i => <[default 0 (id_map !! i) := now]> m) (e_created_at e) insert_indices) e) ;;;
  sret id_map.

(** ** Search *)
Definition check_query (query : list f32) (e : Engine) : outcome EngineError unit :=
  do* _ := match ks_dim (e_state e) with
           | Some dim => if negb (len query =? dim) then Err (EKernel (DimensionMismatch dim (len query))) else Ok tt
           | None => Ok tt
           end in
  if existsb f32_out_of_range query then Err (EInvalidInput ValueOutOfRange) else Ok tt.

Definition result_pairs (found : list SearchResult * Z) : list (Z * f32) :=
  (fun r => (sr_id r, f32_of_score (sr_score r))) <$> take (Z.to_nat found.2) found.1.

Definition engine_search_l2_ns (e : Engine) (query : list f32) (k : nat) (namespace_id : Z)
    : outcome EngineError (list (Z * f32)) :=
  do* _ := check_query query e in
  if negb (bool_decide (effective_index_kind e = KBruteForce)) then
    Ok (take k (filter (fun h => rec_namespace_id <$> get_record (e_state e) h.1 = Some namespace_id)
                  (ix_search (e_index e) query k)))
  else
    do* found := map_err EKernel
      (search_l2_ns simd (e_state e) (fxp_of_f32 <$> query) (replicate k (mkResult 0 0)) namespace_id) in
    Ok (result_pairs found).

Definition search_l2_filtered (e : Engine) (query : list f32) (k : nat) (tag : option Z)
    : outcome EngineError (list (Z * f32)) :=
  do* _ := check_query query e in
  Ok (result_pairs (search_l2 simd (e_state e) (fxp_of_f32 <$> query) (replicate k (mkResult 0 0)) tag)).

(** ** Sidecar files *)
Definition fs_write (n : name) (data : list Z) (fs : Fs) : Fs := <[n := data]> fs.
Definition fs_rename (from to : name) (fs : Fs) : Fs :=
  match fs !! from with Some data => <[to := data]> (delete from fs) | None => fs end.

(** Write a temporary file, rename it over the target. *)
Definition replace_file (tmp path : name) (data : list Z) (e : Engine) : Engine :=
  eng_set_fs (fs_rename tmp path (fs_write tmp data (eng_fs e))) e.

Definition flush_metadata : EM unit :=
  let* e := sget in
  match metadata_path (e_cfg e) with
  | Some path =>
      smodify (replace_file (with_extension path (text "metadata.json.tmp")) path (metadata_to_json (e_metadata e)))
  | None => sret tt
  end.

Definition restore_metadata (data : list Z) (e : Engine) : Engine :=
  match metadata_of_json data with Some m => e_set_metadata m e | None => e end.

Definition load_metadata (e : Engine) : Engine :=
  match metadata_path (e_cfg e) with
  | Some path => match eng_fs e !! path with Some data => restore_metadata data e | None => e end
  | None => e
  end.

Definition sync_metadata_from_state (e : Engine) : Engine :=
  e_set_metadata
    (foldl (fun m kv => match json_of_string kv.2 with Some v => <[kv.1 := v]> m | None => m end)
       (e_metadata e) (ks_meta (e_state e))) e.

Definition set_meta_audited (t : Times) (key : list Z) (value : Json) : EM unit :=
  commit_and_apply_ns t (SetMeta key (json_to_string value)) 0 ;;;
  smodify (fun e => e_set_metadata (<[key := value]> (e_metadata e)) e) ;;;
  flush_metadata.

Definition flush_namespaces : EM unit :=
  let* e := sget in
  match namespaces_path (e_cfg e) with
  | Some path => smodify (replace_file (path ++ text ".tmp") path (registry_to_json (e_namespaces e)))
  | None => sret tt
  end.

Definition load_namespaces : EM unit :=
  let* e := sget in
  match namespaces_path (e_cfg e) with
  | Some path =>
      match eng_fs e !! path with
      | Some bytes =>
          match registry_of_json bytes with
          | Some reg => smodify (e_set_namespaces reg)
          | None => sthrow (EInvalidInput BadSidecar)
          end
      | None => sret tt
      end
  | None => sret tt
  end.

(** [.ok()] *)
Definition ignored (m : EM unit) (e : Engine) : Engine := (m e).1.

(** ** Collections *)
Definition state_hash_hex (e : Engine) : list Z := hex (hash_state_blake3 blake3 (e_state e)).

Definition resolve_collection (e : Engine) (n : option name) : outcome EngineError Z :=
  ok_or (registry_resolve (e_namespaces e) n) (EInvalidInput (UnknownCollection n)).

Definition create_collection (n : name) : EM Z :=
  let* e := sget in
  let '(reg, id) := registry_create n (e_namespaces e) in
  smodify (e_set_namespaces reg) ;;;
  let* id := slift (ok_or id (EInvalidInput NamespaceLimit)) in
  with_state (apply_event_ns (AutoCreateNamespace []) id) ;;;
  flush_namespaces ;;;
  sret id.

Definition drop_collection (n : name) : EM unit :=
  sguard (bool_decide (n = default_name)) (EInvalidInput DefaultCollection) ;;;
  let* e := sget in
  let '(reg, id) := registry_drop n (e_namespaces e) in
  smodify (e_set_namespaces reg) ;;;
  let* id := slift (ok_or id (EInvalidInput (CollectionNotFound n))) in
  let ns_record_ids := rec_id <$> iter_records_in_ns (e_state e) id in
  with_state (apply_event_ns (DropNamespace []) id) ;;;
  smodify (fun e => e_set_index (e_current_kind e) (foldl (fun i rid => ix_delete rid i) (e_index e) ns_record_ids) e) ;;;
  smodify (fun e => e_set_reranker (reranker_remove_batch ns_record_ids (e_reranker e)) e) ;;;
  flush_namespaces.

Definition list_collections (e : Engine) : list (name * Z) := registry_list (e_namespaces e).

(** ** Mutations *)
Definition delete_node (t : Times) (id : Z) : EM unit := commit_and_apply_ns t (DeleteNode id) DEFAULT_NS.
Definition engine_delete_edge (t : Times) (id : Z) : EM unit := commit_and_apply_ns t (DeleteEdge id) DEFAULT_NS.

(** The node of a record goes first; [t1] and [t2] are the two commits. *)
Definition delete_node_of (t : Times) (id : Z) : EM unit :=
  let* e := sget in
  match e_record_to_node e !! id with Some node_id => delete_node t node_id | None => sret tt end.

Definition soft_delete_record (t1 t2 : Times) (id : Z) : EM unit :=
  delete_node_of t1 id ;;;
  commit_and_apply_ns t2 (SoftDeleteRecord id) DEFAULT_NS ;;;
  smodify (fun e => e_set_reranker (reranker_remove id (e_reranker e)) e) ;;;
  smodify (fun e => e_set_created_at (delete id (e_created_at e)) e).

Definition delete_record (t1 t2 : Times) (id : Z) : EM unit :=
  delete_node_of t1 id ;;;
  commit_and_apply_ns t2 (DeleteRecord id) DEFAULT_NS ;;;
  smodify (fun e => e_set_created_at (delete id (e_created_at e)) e).

Definition update_record_metadata (t : Times) (id : Z) (metadata : option (list Z)) (namespace_id : Z) : EM unit :=
  commit_and_apply_ns t (UpdateRecordMetadata id metadata) namespace_id.

Definition create_node_for_record (t : Times) (record_id : option Z) (kind namespace_id : Z) : EM Z :=
  let* e := sget in
  sguard (cfg_max_nodes (e_cfg e) <=? node_count (e_state e)) (EKernel CapacityExceeded) ;;;
  let node_id := next_node_id (e_state e) in
  commit_and_apply_ns t (CreateNode node_id (default NRecord (NodeKind_from_u8 kind)) record_id) namespace_id ;;;
  sret node_id.

Definition nodes_in_ns (e : Engine) (namespace_id : Z) : list (Z * Z * option Z) :=
  (fun n => (nd_id n, NodeKind_as_u8 (nd_kind n), nd_record n))
    <$> filter (fun n => nd_namespace_id n = namespace_id) (iter_nodes (e_state e)).

(** The id is the number of live edges. *)
Definition engine_create_edge (t : Times) (from to kind : Z) : EM Z :=
  let* e := sget in
  sguard (cfg_max_edges (e_cfg e) <=? edge_count (e_state e)) (EKernel CapacityExceeded) ;;;
  let edge_id := wrap_u32 (edge_count (e_state e)) in
  commit_and_apply_ns t (CreateEdge edge_id from to (default ERelation (EdgeKind_from_u8 kind))) DEFAULT_NS ;;;
  sret edge_id.

(** ** Snapshots *)
Definition with_len (data : list Z) : list Z := le_bytes 4 (len data) ++ data.

Definition engine_snapshot (e : Engine) : outcome EngineError (list Z) :=
  do* i_buf := ok_or (ix_snapshot (e_index e)) (EInvalidInput IndexFailed) in
  Ok (text "VAL1"
      ++ with_len (encode_state (e_state e))
      ++ with_len (metadata_to_json (e_metadata e))
      ++ with_len i_buf
      ++ text "NSRG" ++ with_len (registry_to_json (e_namespaces e))
      ++ text "CRTS" ++ with_len (put_created (e_created_at e))
      ++ text "BCRP" ++ with_len (put_corpus (snapshot_corpus (e_reranker e)))).

Definition save_snapshot (path : option name) : EM name :=
  let* e := sget in
  let* target := slift (ok_or (match path with Some p => Some p | None => cfg_snapshot_path (e_cfg e) end)
                          (EInvalidInput NoSnapshotPath)) in
  let* data := slift (engine_snapshot e) in
  smodify (fun e => eng_set_fs (fs_write target data (eng_fs e)) e) ;;;
  sret target.

(** [&data[offset..offset + n]] *)
Definition window (data : list Z) (offset n : Z) : list Z := take (Z.to_nat n) (drop (Z.to_nat offset) data).

Definition at_u32 (data : list Z) (offset : Z) : outcome EngineError (Z * Z) :=
  if len data <? offset + 4 then Err (EInvalidInput TruncatedSnapshot)
  else Ok (le_val (window data offset 4), offset + 4).
Definition slice_at (data : list Z) (offset n : Z) : outcome EngineError (list Z * Z) :=
  if len data <? offset + n then Err (EInvalidInput TruncatedSnapshot)
  else Ok (window data offset n, offset + n).

Definition restore_from_components (k_data m_data : list Z) (i_data : option (list Z))
    (ns_registry : option CollectionRegistry) : EM unit :=
  let* state := slift (map_err EKernel (decode_state k_data)) in
  smodify (e_set_state state) ;;;
  (match m_data with [] => sret tt | _ => smodify (restore_metadata m_data) end) ;;;
  (match i_data with
   | Some (b :: blob) =>
       let* e := sget in
       let* i := slift (ok_or (ix_restore (b :: blob) (e_index e)) (EInvalidInput IndexFailed)) in
       smodify (fun e => e_set_index (e_current_kind e) i e)
   | _ => smodify rebuild_index
   end) ;;;
  smodify auto_tier_check ;;;
  smodify rebuild_record_to_node ;;;
  match ns_registry with Some reg => smodify (e_set_namespaces reg) | None => sret tt end.

(** One section; an unknown tag or an undecodable section is skipped. *)
Definition restore_section (tag section : list Z) (e : Engine) : Engine :=
  if bool_decide (tag = text "CRTS") then
    match get_created section with Some m => e_set_created_at m e | None => e end
  else if bool_decide (tag = text "BCRP") then
    match get_corpus section with
    | Some (corpus, total) => e_set_reranker (restore_corpus corpus total (e_reranker e)) e
    | None => e
    end
  else e.

(** [fuel] bounds the turns of the loop. *)
Fixpoint restore_trailing_sections (fuel : nat) (data : list Z) (offset : Z) : EM unit :=
  if len data <? offset + 8 then sret tt
  else
    match fuel with
    | O => fun e => (e, Hang)
    | S fuel =>
        let tag := window data offset 4 in
        let section_len := le_val (window data (offset + 4) 4) in
        let offset := offset + 8 in
        if len data <? offset + section_len then sret tt
        else
          smodify (restore_section tag (window data offset section_len)) ;;;
          restore_trailing_sections fuel data (offset + section_len)
    end.

(** The optional registry section. *)
Definition restore_registry (data : list Z) (offset : Z) : outcome EngineError (option CollectionRegistry * Z) :=
  if (offset + 4 <=? len data) && bool_decide (window data offset 4 = text "NSRG") then
    do* l := at_u32 data (offset + 4) in
    do* j := slice_at data l.2 l.1 in
    do* reg := ok_or (registry_of_json j.1) (EInvalidInput BadSidecar) in
    Ok (Some reg, j.2)
  else Ok (None, offset).

Definition restore (data : list Z) : EM unit :=
  sguard (len data <? 16) (EInvalidInput BufferTooSmall) ;;;
  sguard (negb (bool_decide (window data 0 4 = text "VAL1"))) (EInvalidInput BadMagic) ;;;
  let* k_len := slift (at_u32 data 4) in
  let* k_data := slift (slice_at data k_len.2 k_len.1) in
  let* m_len := slift (at_u32 data k_data.2) in
  let* m_data := slift (slice_at data m_len.2 m_len.1) in
  let* i_len := slift (at_u32 data m_data.2) in
  let i_data := if i_len.2 + i_len.1 <=? len data then Some (window data i_len.2 i_len.1) else None in
  let* ns := slift (restore_registry data (i_len.2 + i_len.1)) in
  restore_from_components k_data.1 m_data.1 i_data ns.1 ;;;
  restore_trailing_sections (S (length data)) data ns.2.

(** ** Recovery *)
Definition reload (e : Engine) : Engine := ignored load_namespaces (sync_metadata_from_state (load_metadata e)).
Definition reindex (e : Engine) : Engine := rebuild_record_to_node (auto_tier_check (rebuild_index e)).

(** Step 1: the event log.  [None] goes on to the snapshot. *)
Definition recover_log (listing : list name) (now : Z) : EM (option RecoveryMode) := fun e =>
  match event_committer (e_persistence e) with
  | None => (e, Ok None)
  | Some c =>
      let log_path := lw_path (lg_writer (c_log c)) in
      let dim := lw_dim (lg_writer (c_log c)) in
      if negb (bool_decide (is_Some (eng_fs e !! log_path))) then (e, Ok None)
      else
        match recover_from_events blake3 crc32 (eng_fs e) listing log_path with
        | Ok (recovered_state, recovered_journal, count) =>
            if count =? 0 then (e, Ok None)
            else
              let e := e_set_persistence PEphemeral (drop_committer blake3 crc32 now c) e in
              match open_writer blake3 crc32 log_path (Some dim) (e_fs e) with
              | (fs, Ok w) =>
                  let e := e_set_persistence (PEventLog (committer_new (mkLog fs w) recovered_journal recovered_state)) fs
                             (e_set_state recovered_state e) in
                  (reload (reindex e), Ok (Some (REventLog count)))
              | (fs, Err _) => (e_set_persistence PEphemeral fs e, Ok None)
              | (fs, Panic) => (e_set_persistence PEphemeral fs e, Panic)
              | (fs, Hang) => (e_set_persistence PEphemeral fs e, Hang)
              end
        | Err _ => (e, Ok None)
        | Panic => (e, Panic)
        | Hang => (e, Hang)
        end
  end.

(** Step 2: the snapshot; whether it was restored. *)
Definition recover_snapshot : EM bool := fun e =>
  match cfg_snapshot_path (e_cfg e) with
  | Some path =>
      match eng_fs e !! path with
      | Some data =>
          match restore data e with
          | (e, Ok _) => (e, Ok true)
          | (e, Err _) => (e, Ok false)
          | (e, Panic) => (e, Panic)
          | (e, Hang) => (e, Hang)
          end
      | None => (e, Ok false)
      end
  | None => (e, Ok false)
  end.

(** Step 3: the WAL. *)
Definition recover_wal : EM (option RecoveryMode) := fun e =>
  match cfg_wal_path (e_cfg e) with
  | Some path =>
      if negb (bool_decide (is_Some (eng_fs e !! path))) then (e, Ok None)
      else
        let '(state, o) := replay_wal (eng_fs e) path (e_state e) in
        let e := e_set_state state e in
        match o with
        | Ok (count, _) => if 0 <? count then (reload (reindex e), Ok (Some (RWal count))) else (e, Ok None)
        | Err _ => (e, Ok None)
        | Panic => (e, Panic)
        | Hang => (e, Hang)
        end
  | None => (e, Ok None)
  end.

Definition try_recover (listing : list name) (now : Z) : EM RecoveryMode :=
  let* from_log := recover_log listing now in
  match from_log with
  | Some mode => sret mode
  | None =>
      let* snapshot_recovered := recover_snapshot in
      if snapshot_recovered then smodify reload ;;; sret RSnapshot
      else
        let* from_wal := recover_wal in
        match from_wal with
        | Some mode => sret mode
        | None => smodify (ignored load_namespaces) ;;; sret RFresh
        end
  end.

(** ** Calls on the default collection, and reads *)
Definition insert_record_from_f32 (t : Times) (now : Z) (values : list f32) : EM Z :=
  insert_record_from_f32_ns t now values DEFAULT_NS.
Definition insert_batch (t : Times) (now : Z) (batch : list (list f32)) : EM (list Z) :=
  insert_batch_ns t now batch None DEFAULT_NS None.
Definition engine_search_l2 (e : Engine) (query : list f32) (k : nat) : outcome EngineError (list (Z * f32)) :=
  engine_search_l2_ns e query k DEFAULT_NS.
Definition created_at_of (e : Engine) (id : Z) : option Z := e_created_at e !! id.

Definition engine_reranker_insert (tokenise : word -> list word) (record_id : Z) (text : word) : EM unit :=
  smodify (fun e => e_set_reranker (reranker_insert tokenise record_id text (e_reranker e)) e).
Definition reranker_rerank (tokenise : word -> list word) (ln : f32 -> f32) (e : Engine) (query_text : word)
    (candidates : list (Z * f32)) : list (Z * f32) :=
  (fun p => (wrap_u32 p.1, p.2)) <$> rerank tokenise ln (e_reranker e) query_text candidates.

(** [Drop]: what is left of the files. *)
Definition drop_engine (now : Z) (e : Engine) : Fs :=
  match e_persistence e with
  | PEventLog c => drop_committer blake3 crc32 now (flush_pending blake3 crc32 now c).1
  | _ => e_fs e
  end.
End Engine.
