(* ===== verification/EngineProofs.v ===== *)
(** * The engine mirrors its committer

    With the event log as backend the engine holds the kernel twice: its own
    state and the committer's.  Every handler keeps the two in step, keeps the
    log readable and keeps the sidecar of the collection registry up to date. *)

From stdpp Require Import gmap strings.
From S2P Require Import Prelude.
From S2P Require Import Hoare.
From S2P Require Import Core.
From S2P Require Import Fxp.
From S2P Require Import TopK.
From S2P Require Import Records.
From S2P Require Import Graph.
From S2P Require Import Index.
From S2P Require Import Event.
From S2P Require Import Kernel.
From S2P Require Import KernelRel.
From S2P Require Import Bytes.
From S2P Require Import Snapshot.
From S2P Require Import StateProof.
From S2P Require Import EventCodec.
From S2P Require Import Wire.
From S2P Require Import WireTheorems.
From S2P Require Import EventLog.
From S2P Require Import EventLogTheorems.
From S2P Require Import EventCommit.
From S2P Require Import Rotation.
From S2P Require Import CommitProofs.
From S2P Require Import CommitTheorems.
From S2P Require Import RotationTheorems.
From S2P Require Import Registry.
From S2P Require Import Wal.
From S2P Require Import F32.
From S2P Require Import HostIndex.
From S2P Require Import Reranker.
From S2P Require Import Vault.
From S2P Require Import Engine.

(** ** Files next to the log *)
Lemma outside_app stem b rest : b <> 108 -> outside (stem ++ log_extension) (stem ++ [46; b] ++ rest).
Proof.
  intros Hb. split.
  - intros E1. apply (inj (app stem)) in E1. injection E1. intros. lia.
  - induction stem as [|x stem IH]; cbn -[Z.eqb]; rewrite ?Z.eqb_refl; [|done].
    by rewrite (proj2 (Z.eqb_neq 108 b)) by lia.
Qed.

Lemma outside_extension path b rest : named_log path -> b <> 108 -> outside path (with_extension path (b :: rest)).
Proof. unfold named_log, with_extension. intros Hp Hb. rewrite Hp at 1. by apply outside_app. Qed.

(** ** One commit of a rotating log *)
Section Commit.
Context `{BincodeLaws} (blake3 : list Z -> list Z) (crc32 : list Z -> Z).
Context (blake3_hash : forall m, hash_typed (blake3 m)) (fit : checkpoints_fit).

(** The log of a committer, with the room it has used: archives, events and
    kernel versions. *)
Record log_inv (s0 : KernelState) (path : name) (d n : Z) (c : EventCommitter) : Prop := {
  li_rotation : exists arch hd hdr es, rotation_inv blake3 crc32 s0 c arch hd hdr es
                /\ Z.of_nat (length arch) <= n /\ dim hd = d;
  li_path : lw_path (lg_writer (c_log c)) = path;
  li_journal : len (j_committed (c_journal c)) <= n;
  li_version : ks_version (c_live_state c) <= n;
}.

Lemma log_inv_mono s0 path d n n' c : log_inv s0 path d n c -> n <= n' -> log_inv s0 path d n' c.
Proof. intros [(arch & hd & hdr & es & ? & ? & ?)] ?. split; try lia; [|done]. exists arch, hd, hdr, es. split_and!; (done || lia). Qed.

(** What a commit does to files outside the log, and to the events committed. *)
Definition extends (c c' : EventCommitter) (s : KernelState) (events : list KernelEvent) : Prop :=
  c_live_state c' = s /\ j_committed (c_journal c') = j_committed (c_journal c) ++ events
  /\ forall p, outside (lw_path (lg_writer (c_log c))) p -> lg_fs (c_log c') !! p = lg_fs (c_log c) !! p.

(** The end of a commit. *)
Lemma finish_log_inv s0 path d n k t c c' s events arch hd hdr es :
  rotation_inv blake3 crc32 s0 c' arch hd hdr es -> times_ok t -> Z.of_nat (length arch) <= n -> dim hd = d ->
  lw_path (lg_writer (c_log c')) = path -> j_committed_height (c_journal c') = len (j_committed (c_journal c')) ->
  extends c c' s events -> lw_path (lg_writer (c_log c)) = path ->
  len (j_committed (c_journal c')) <= n + k -> ks_version s <= n + k -> 1 <= k -> n + k <= u32_MAX ->
  exists c'', (maybe_rotate blake3 crc32 t ;;; sret Committed) c' = (c'', Ok Committed)
    /\ log_inv s0 path d (n + k) c'' /\ extends c c'' s events.
Proof.
  intros Hi Ht Ha Hd Hp Hh (El & Ej & Hfr) Hpc Hlen Hv Hk Hm.
  destruct (maybe_rotate_ok blake3 crc32 blake3_hash fit s0 t c' arch hd hdr es Hi Ht)
    as (c2 & arch2 & hd2 & hdr2 & es2 & E1 & Hi2 & (El2 & Ej2 & Ep2 & Hfr2) & Hlen2 & Hd2).
  { rewrite Hh. pose proof (len_nonneg (j_committed (c_journal c'))). int_lia. }
  { unfold u32_MAX in *. lia. }
  exists c2. rewrite (bind_ok _ _ _ _ _ E1). split; [done|]. split.
  - split; [exists arch2, hd2, hdr2, es2; split_and!; [done|lia|congruence]|congruence|by rewrite Ej2|by rewrite El2, El].
  - split_and!; [congruence|congruence|]. intros p Hpo. rewrite <- Hfr by done. apply Hfr2. by rewrite Hp, <- Hpc.
Qed.

(** What an event needs to be committed. *)
Definition good (t : Times) (ns : Z) (events : list KernelEvent) : Prop :=
  in_u64 (t_append t) /\ times_ok t /\ Forall (fun e => loggable VERSION_V4 (log_entry ns e)) events.

Lemma commit_log_inv s0 path d n c t e ns :
  log_inv s0 path d n c -> good t ns [e] -> n + 1 <= u32_MAX ->
  match apply_event_ns e ns (c_live_state c) with
  | (s, Ok _) => exists c', commit_event_ns blake3 crc32 t e ns c = (c', Ok Committed)
                   /\ log_inv s0 path d (n + 1) c' /\ extends c c' s [e]
  | (_, o) => commit_event_ns blake3 crc32 t e ns c = (c, map_err ShadowApply (do* _ := o in Ok Committed))
  end.
Proof.
  intros Hi (Ht & Htt & [Hx _]%Forall_cons) Hm. pose proof Hi as [(arch & hd & hdr & es & Hr & Ha & Hd) Hp Hj Hv].
  destruct Hr as [Htr Har Hver].
  pose proof (apply_counts e ns (c_live_state c)) as Hcnt.
  pose proof (commit_event_step blake3 crc32 blake3_hash s0 _ hd hdr c es t e ns Htr Ht) as Hstep. rewrite Hver in Hstep.
  specialize (Hstep Hx). specialize (Hcnt ltac:(unfold u32_MAX, u64_MAX in *; lia)).
  destruct (apply_event_ns e ns (c_live_state c)) as [s [[]|k| |]] eqn:Ea; simpl in *; try done.
  destruct Hstep as (c' & es' & E1 & Htr' & Eh & [Ep Hfr] & _ & Hh). rewrite E1.
  assert (j_committed (c_journal c') = j_committed (c_journal c) ++ [e]) as Ej.
  { rewrite (tr_journal _ _ _ _ _ _ _ _ Htr'), (tr_journal _ _ _ _ _ _ _ _ Htr), Eh, app_assoc, fmap_app. done. }
  assert (c_live_state c' = s) as El.
  { pose proof (tr_replay _ _ _ _ _ _ _ _ Htr') as Hr'. rewrite Eh, app_assoc, replay_from_app, (tr_replay _ _ _ _ _ _ _ _ Htr) in Hr'.
    cbn [replay_from] in Hr'. unfold sbind in Hr'. rewrite Ea in Hr'. by injection Hr'. }
  eapply (finish_log_inv s0 path d n 1 t c c' s [e] arch hd hdr es'); try done; try lia; try congruence.
  - split; [done|by eapply archived_framed|done].
  - split_and!; [done|done|]. intros p [Hpo _]. by apply Hfr.
  - rewrite Ej, len_app. change (len [e]) with 1. lia.
Qed.

Lemma apply_all_counts ns events s :
  ks_version s + len events <= u64_MAX - 1 -> (apply_all ns events s).2 = Ok tt ->
  ks_version (apply_all ns events s).1 = ks_version s + len events.
Proof.
  revert s. induction events as [|e events IH]; intros s Hs Hok; [unfold len; simpl; lia|].
  rewrite len_cons in *. pose proof (len_nonneg events).
  pose proof (apply_counts e ns s ltac:(lia)) as Hc. cbn [apply_all] in *. unfold sbind in *.
  destruct (apply_event_ns e ns s) as [s1 [[]|k| |]]; try done. simpl in Hc. rewrite IH by (done || lia). lia.
Qed.

Lemma batch_log_inv s0 path d n c t events ns :
  log_inv s0 path d n c -> good t ns events -> c_write_buf c = [] -> events <> [] -> n + len events <= u32_MAX ->
  match apply_all ns events (c_live_state c) with
  | (s, Ok _) => exists c', commit_batch_ns blake3 crc32 t events ns c = (c', Ok Committed)
                   /\ log_inv s0 path d (n + len events) c' /\ extends c c' s events
  | (_, o) => commit_batch_ns blake3 crc32 t events ns c = (c, map_err ShadowApply (do* _ := o in Ok Committed))
  end.
Proof.
  intros Hi (Ht & Htt & Hx) Hw Hne Hm. pose proof Hi as [(arch & hd & hdr & es & Hr & Ha & Hd) Hp Hj Hv].
  destruct Hr as [Htr Har Hver].
  pose proof (apply_all_counts ns events (c_live_state c)) as Hcnt.
  pose proof (commit_batch_step blake3 crc32 blake3_hash s0 _ hd hdr c es t events ns Htr Ht) as Hstep. rewrite Hver in Hstep.
  specialize (Hstep Hx Hw Hne). specialize (Hcnt ltac:(unfold u32_MAX, u64_MAX in *; lia)).
  destruct (apply_all ns events (c_live_state c)) as [s [[]|k| |]] eqn:Ea; simpl in *; try done. specialize (Hcnt eq_refl).
  destruct Hstep as (c' & es' & E1 & Htr' & Eh & [Ep Hfr] & _ & Hh). rewrite E1.
  assert (j_committed (c_journal c') = j_committed (c_journal c) ++ events) as Ej.
  { rewrite (tr_journal _ _ _ _ _ _ _ _ Htr'), (tr_journal _ _ _ _ _ _ _ _ Htr), Eh, app_assoc, (fmap_app _ (_ ++ _)).
    f_equal. rewrite <- list_fmap_compose. apply list_fmap_id. }
  assert (c_live_state c' = s) as El.
  { pose proof (tr_replay _ _ _ _ _ _ _ _ Htr') as Hr'. rewrite Eh, app_assoc, replay_from_app, (tr_replay _ _ _ _ _ _ _ _ Htr) in Hr'.
    rewrite replay_apply_all, Ea in Hr'. by injection Hr'. }
  assert (1 <= len events) by (destruct events; [done|rewrite len_cons; pose proof (len_nonneg events); lia]).
  eapply (finish_log_inv s0 path d n (len events) t c c' s events arch hd hdr es'); try done; try lia; try congruence.
  - split; [done|by eapply archived_framed|done].
  - split_and!; [done|done|]. intros p [Hpo _]. by apply Hfr.
  - rewrite Ej, len_app. lia.
Qed.
End Commit.

(** ** Writing a file next to the log *)
Section Sidecar.
Context `{BincodeLaws} (blake3 : list Z -> list Z) (crc32 : list Z -> Z).

Lemma log_inv_files s0 path d n c fs :
  log_inv blake3 crc32 s0 path d n c -> (forall p, p = path \/ starts_with (path ++ [46]) p = true -> fs !! p = lg_fs (c_log c) !! p) ->
  log_inv blake3 crc32 s0 path d n (c_set_log (mkLog fs (lg_writer (c_log c))) c).
Proof.
  intros [(arch & hd & hdr & es & [[[Hl Hfl Hpd] Hr Hj Hb] Ha Hv] & Hn & Hd) Hp Hlen Hver] Hfs. split; try done.
  exists arch, hd, hdr, es. split_and!; try done. split; [|destruct Ha as [Hs Hsp Hq Ho Hnm Hdm Hcnt]|done].
  - split; [|done|done|done]. split; [|done|done]. destruct Hl as [Hf (f & Hlk & Hfb) ? ? ? ? ? ? ? ? ?].
    split; try done. exists f. split; [|done]. cbn [lg_fs lg_writer c_log c_set_log]. rewrite Hfs; [done|by left].
  - split; try done; cbn [lg_fs lg_writer c_log c_set_log].
    + intros i a Hi. destruct (Hs i a Hi) as (E1 & ? & ?). split; [|done]. rewrite Hfs; [done|right].
      rewrite <- Hp, archive_name_eq, app_assoc by done. apply starts_with_app.
    + intros p Hsw. rewrite Hfs by (right; by rewrite <- Hp). by apply Ho.
Qed.

Lemma log_inv_named s0 path d n c : log_inv blake3 crc32 s0 path d n c -> named_log path.
Proof. by intros [(arch & hd & hdr & es & [_ [] _] & _) <- _ _]. Qed.
End Sidecar.

Lemma outside_ne path p p' : outside path p -> p' = path \/ starts_with (path ++ [46]) p' = true -> p' <> p.
Proof. intros [H1 H2] [-> | H3] ->; [done|congruence]. Qed.

(** Write [tmp], rename it to [target]. *)
Lemma replaced_lookup (tmp target p : name) (data : list Z) (fs : Fs) :
  p <> tmp -> p <> target -> fs_rename tmp target (fs_write tmp data fs) !! p = fs !! p.
Proof.
  intros H1 H2. unfold fs_rename, fs_write. rewrite lookup_insert_eq.
  by rewrite lookup_insert_ne, lookup_delete_ne, lookup_insert_ne by done.
Qed.
Lemma replaced_target (tmp target : name) (data : list Z) (fs : Fs) :
  fs_rename tmp target (fs_write tmp data fs) !! target = Some data.
Proof. unfold fs_rename, fs_write. by rewrite !lookup_insert_eq. Qed.

(** ** The invariant *)
Section Mirror.
Context `{BincodeLaws} (blake3 : list Z -> list Z) (crc32 : list Z -> Z) (simd : SimdPath).
Context `{EngineCodecLaws} {I : Type} `{VectorIndex I} (new_index : IndexKind -> Z -> I).
Context {V R : Type} `{KeyVault V R}.
Context (blake3_hash : forall m, hash_typed (blake3 m)) (fit : checkpoints_fit).

Local Abbreviation Engine := (Engine (I := I) (V := V)).
Local Abbreviation EM A := (M EngineError Engine A).

Definition registry_file (path : name) : name := with_extension path (text "namespaces.json").

(** The sidecar holds the registry; before the first flush there is none. *)
Definition sidecar_ok (path : name) (fs : Fs) (reg : CollectionRegistry) : Prop :=
  match fs !! registry_file path with
  | Some bs => registry_of_json bs = Some reg
  | None => reg = registry_new
  end.

Record mirrors (s0 : KernelState) (path : name) (d n : Z) (c : EventCommitter) (e : Engine) : Prop := {
  mi_committer : e_persistence e = PEventLog c;
  mi_log : log_inv blake3 crc32 s0 path d n c;
  mi_same : same_data (e_state e) (c_live_state c);
  mi_version : ks_version (e_state e) <= n;
  mi_path : cfg_event_log_path (e_cfg e) = Some path;
  mi_registry : registry_wf (e_namespaces e);
  mi_sidecar : sidecar_ok path (lg_fs (c_log c)) (e_namespaces e);
}.

Lemma mirrors_mono s0 path d n n' c e : mirrors s0 path d n c e -> n <= n' -> mirrors s0 path d n' c e.
Proof. intros [] ?. split; try done; [|lia]. by eapply log_inv_mono. Qed.

(** An update of the parts the log knows nothing of. *)
Definition silent (e e' : Engine) : Prop :=
  e_cfg e' = e_cfg e /\ e_state e' = e_state e /\ e_persistence e' = e_persistence e /\ e_namespaces e' = e_namespaces e.

#[local] Instance silent_preorder : PreOrder silent.
Proof. split; [done|]. intros e1 e2 e3 (?&?&?&?) (?&?&?&?). split_and!; congruence. Qed.

Lemma mirrors_silent s0 path d n c e e' : mirrors s0 path d n c e -> silent e e' -> mirrors s0 path d n c e'.
Proof. intros [] (E1 & E2 & E3 & E4). split; try congruence; by rewrite ?E2, ?E4. Qed.

Lemma silent_forget id e : silent e (forget_node id e).
Proof. unfold forget_node. repeat case_match; done. Qed.
Lemma silent_derived ev e : silent e (post_apply_derived ev e).
Proof. destruct ev; simpl; try done. by case_match. Qed.
Lemma silent_auto_tier e : silent e (auto_tier_check new_index e).
Proof. unfold auto_tier_check. repeat case_match; done. Qed.

Lemma e_set_persistence_id (e : Engine) p : e_persistence e = p -> e_set_persistence p (e_fs e) e = e.
Proof. intros <-. by destruct e. Qed.

(** ** One event, applied *)
Lemma apply_committed_ok ev ns (e : Engine) s :
  same_data (e_state e) s -> ks_version (e_state e) < u64_MAX -> ks_version s < u64_MAX ->
  (apply_event_ns ev ns s).2 = Ok tt ->
  exists e', apply_committed_event_ns ev ns e = (e', Ok tt)
    /\ silent (e_set_state (apply_event_ns ev ns (e_state e)).1 e) e'
    /\ (apply_event_ns ev ns (e_state e)).2 = Ok tt
    /\ same_data (e_state e') (apply_event_ns ev ns s).1 /\ ks_version (e_state e') = ks_version (e_state e) + 1.
Proof.
  intros Hs Hv Hv' Hok. destruct (apply_same_data ev ns _ _ Hs Hv Hv') as [E1 Hr1].
  pose proof (apply_counts ev ns (e_state e) Hv) as Hc. rewrite Hok in E1. rewrite E1 in Hc.
  assert (exists e0, (match ev with DeleteNode id => smodify (forget_node id) | _ => sret tt end : EM unit) e = (e0, Ok tt)
            /\ silent e e0) as (e0 & E0 & Hs0).
  { destruct ev; try (by exists e). eexists. split; [done|apply silent_forget]. }
  exists (post_apply_derived ev (e_set_state (apply_event_ns ev ns (e_state e)).1 e0)).
  assert (silent (e_set_state (apply_event_ns ev ns (e_state e)).1 e)
            (post_apply_derived ev (e_set_state (apply_event_ns ev ns (e_state e)).1 e0))) as Hsil.
  { etrans; [|apply silent_derived]. destruct Hs0 as (?&?&?&?). split_and!; simpl; congruence. }
  split.
  - unfold apply_committed_event_ns. rewrite (bind_ok _ _ _ _ _ E0). unfold sbind, with_state, smodify.
    destruct Hs0 as (_ & -> & _). destruct (apply_event_ns ev ns (e_state e)) as [s1 o]. simpl in E1. by subst o.
  - split; [done|]. split; [done|]. destruct Hsil as (_ & -> & _). simpl. split; [done|lia].
Qed.

(** ** Log, then apply *)
Definition events_of (e : Engine) : list KernelEvent :=
  match e_persistence e with PEventLog c => j_committed (c_journal c) | _ => [] end.

Lemma commit_exact s0 path d n c e t ev ns :
  mirrors s0 path d n c e -> good t ns [ev] -> n + 1 <= u32_MAX ->
  match apply_event_ns ev ns (e_state e) with
  | (s, Ok _) => exists e' c', commit_and_apply_ns blake3 crc32 t ev ns e = (e', Ok tt)
                   /\ mirrors s0 path d (n + 1) c' e' /\ e_state e' = s /\ events_of e' = events_of e ++ [ev]
                   /\ e_namespaces e' = e_namespaces e
  | (_, o) => commit_and_apply_ns blake3 crc32 t ev ns e = (e, map_err EKernel o)
  end.
Proof.
  intros Hi Hg Hn. pose proof Hi as [Hp Hl Hs Hv Hpath Hreg Hside]. pose proof (li_version _ _ _ _ _ _ _ Hl) as Hlv.
  assert (ks_version (e_state e) < u64_MAX) as Hv1 by (unfold u32_MAX, u64_MAX in *; lia).
  assert (ks_version (c_live_state c) < u64_MAX) as Hv2 by (unfold u32_MAX, u64_MAX in *; lia).
  destruct (apply_same_data ev ns _ _ Hs Hv1 Hv2) as [E1 _].
  pose proof (commit_log_inv blake3 crc32 blake3_hash fit s0 path d n c t ev ns Hl Hg Hn) as Hstep.
  pose proof (apply_committed_ok ev ns) as Happly.
  destruct (apply_event_ns ev ns (c_live_state c)) as [sl [[]|k| |]] eqn:Ea;
    destruct (apply_event_ns ev ns (e_state e)) as [se o] eqn:Ee; simpl in E1; subst o; cbn [fst snd] in *;
    unfold commit_and_apply_ns, log_event, log_event_ns, sbind at 1; rewrite Hp;
    try (rewrite Hstep; cbn; rewrite e_set_persistence_id by done; done).
  destruct Hstep as (c' & -> & Hl' & (El & Ej & Hout)). cbn [map_err obind].
  set (e1 := e_set_persistence _ _ e).
  destruct (Happly e1 (c_live_state c)) as (e' & -> & (F1 & F2 & F3 & F4) & _ & Hs' & Hv'); try done; [by rewrite Ea|].
  simpl in F1, F2, F3, F4, Hv'. rewrite Ee in F2. rewrite Ea in Hs'. simpl in Hs', F2.
  exists e', c'. split; [done|]. split; [|split; [done|split; [|done]]].
  - split; [done|done|by rewrite El|lia|congruence|by rewrite F4|].
    unfold sidecar_ok. rewrite Hout, F4; [done|]. rewrite (li_path _ _ _ _ _ _ _ Hl).
    by apply outside_extension; [eapply log_inv_named|].
  - unfold events_of. by rewrite F3, Hp.
Qed.

(** ** A batch *)
Lemma apply_all_same ns events s t :
  same_data s t -> ks_version s + len events <= u64_MAX - 1 -> ks_version t + len events <= u64_MAX - 1 ->
  (apply_all ns events s).2 = (apply_all ns events t).2.
Proof.
  revert s t. induction events as [|ev events IH]; intros s t Hs Hv Hv'; [done|]. rewrite len_cons in *.
  pose proof (len_nonneg events) as Hl. destruct (apply_same_data ev ns s t Hs ltac:(lia) ltac:(lia)) as [E1 Hs1].
  pose proof (apply_counts ev ns s ltac:(lia)) as Hc. pose proof (apply_counts ev ns t ltac:(lia)) as Hc'.
  cbn [apply_all]. unfold sbind. destruct (apply_event_ns ev ns s) as [s1 o], (apply_event_ns ev ns t) as [t1 o'].
  simpl in *. subst o'. destruct o; try done. apply IH; (done || lia).
Qed.

Lemma committed_loop_ok ns events (e : Engine) s :
  same_data (e_state e) s -> ks_version (e_state e) + len events <= u64_MAX - 1 -> ks_version s + len events <= u64_MAX - 1 ->
  (apply_all ns events s).2 = Ok tt ->
  exists e', sfor events (fun ev => apply_committed_event_ns ev ns) e = (e', Ok tt)
    /\ silent (e_set_state (apply_all ns events (e_state e)).1 e) e'
    /\ same_data (e_state e') (apply_all ns events s).1 /\ ks_version (e_state e') = ks_version (e_state e) + len events.
Proof.
  revert e s. induction events as [|ev events IH]; intros e s Hs Hv Hv' Hok.
  { exists e. unfold len. simpl. split; [done|]. split; [by destruct e|]. split; [done|lia]. }
  rewrite len_cons in *. pose proof (len_nonneg events) as Hl. cbn [apply_all sfor] in *. unfold sbind in Hok.
  pose proof (apply_counts ev ns s ltac:(lia)) as Hc.
  destruct (apply_event_ns ev ns s) as [s1 [[]|k| |]] eqn:Ea; try done. simpl in Hc.
  destruct (apply_committed_ok ev ns e s Hs ltac:(lia) ltac:(lia)) as (e1 & E1 & Hsil & Ho & Hs1 & Hv1); [by rewrite Ea|].
  rewrite Ea in Hs1. simpl in Hs1.
  destruct (IH e1 s1 Hs1 ltac:(lia) ltac:(lia) Hok) as (e2 & E2 & Hsil2 & Hs2 & Hv2).
  exists e2. rewrite (bind_ok _ _ _ _ _ E1). split; [done|]. split; [|split; [|lia]].
  - destruct Hsil as (F1 & F2 & F3 & F4), Hsil2 as (G1 & G2 & G3 & G4). simpl in *. unfold sbind.
    destruct (apply_event_ns ev ns (e_state e)) as [se o]. simpl in *. subst o. split_and!; simpl; congruence.
  - unfold sbind. by rewrite Ea.
Qed.

Lemma batch_exact s0 path d n c e t events ns :
  mirrors s0 path d n c e -> good t ns events -> c_write_buf c = [] -> events <> [] -> n + len events <= u32_MAX ->
  match apply_all ns events (e_state e) with
  | (s, Ok _) => exists e1 e' c', log_batch blake3 crc32 t events ns e = (e1, Ok tt)
                   /\ sfor events (fun ev => apply_committed_event_ns ev ns) e1 = (e', Ok tt)
                   /\ mirrors s0 path d (n + len events) c' e' /\ e_state e' = s /\ events_of e' = events_of e ++ events
                   /\ e_namespaces e' = e_namespaces e
  | (_, o) => log_batch blake3 crc32 t events ns e = (e, map_err EKernel o)
  end.
Proof.
  intros Hi Hg Hw Hne Hn. pose proof Hi as [Hp Hl Hs Hv Hpath Hreg Hside]. pose proof (li_version _ _ _ _ _ _ _ Hl) as Hlv.
  assert (ks_version (e_state e) + len events <= u64_MAX - 1) as Hv1 by (unfold u32_MAX, u64_MAX in *; lia).
  assert (ks_version (c_live_state c) + len events <= u64_MAX - 1) as Hv2 by (unfold u32_MAX, u64_MAX in *; lia).
  pose proof (apply_all_same ns events _ _ Hs Hv1 Hv2) as E1.
  pose proof (batch_log_inv blake3 crc32 blake3_hash fit s0 path d n c t events ns Hl Hg Hw Hne Hn) as Hstep.
  pose proof (committed_loop_ok ns events) as Happly.
  destruct (apply_all ns events (c_live_state c)) as [sl [[]|k| |]] eqn:Ea;
    destruct (apply_all ns events (e_state e)) as [se o] eqn:Ee; simpl in E1; subst o; cbn [fst snd] in *;
    unfold log_batch, log_batch_ns; rewrite Hp;
    try (rewrite Hstep; cbn; rewrite e_set_persistence_id by done; done).
  destruct Hstep as (c' & -> & Hl' & (El & Ej & Hout)). cbn [map_err obind].
  set (e1 := e_set_persistence _ _ e). exists e1.
  destruct (Happly e1 (c_live_state c)) as (e' & E2 & (F1 & F2 & F3 & F4) & Hs' & Hv'); try done; [by rewrite Ea|].
  simpl in F1, F2, F3, F4, Hv'. rewrite Ee in F2. rewrite Ea in Hs'. simpl in Hs', F2.
  exists e', c'. split; [done|]. split; [done|]. split; [|split; [done|split; [|done]]].
  - split; [done|done|by rewrite El|lia|congruence|by rewrite F4|].
    unfold sidecar_ok. rewrite Hout, F4; [done|]. rewrite (li_path _ _ _ _ _ _ _ Hl).
    by apply outside_extension; [eapply log_inv_named|].
  - unfold events_of. by rewrite F3, Hp.
Qed.

(** ** Files of the engine *)
Lemma mirrors_write s0 path d n c e fs :
  mirrors s0 path d n c e ->
  (forall p, p = path \/ starts_with (path ++ [46]) p = true -> fs !! p = lg_fs (c_log c) !! p) ->
  sidecar_ok path fs (e_namespaces e) ->
  exists c', mirrors s0 path d n c' (eng_set_fs fs e) /\ events_of (eng_set_fs fs e) = events_of e.
Proof.
  intros [Hp Hl Hs Hv Hpath Hreg Hside] Hfs Hok. unfold eng_set_fs, events_of. rewrite Hp. eexists. split; [|done].
  split; [done| |done|done|done|done|done]. by apply log_inv_files.
Qed.
End Mirror.
