(* ===== verification/EngineRuns.v ===== *)
(** * The handlers of the engine

    Every handler that changes state, as an operation, and that each keeps the
    engine and its committer in step. *)

From stdpp Require Import gmap strings.
From S2P Require Import Prelude.
From S2P Require Import Hoare.
From S2P Require Import Core.
From S2P Require Import Fxp.
From S2P Require Import TopK.
From S2P Require Import Records.
From S2P Require Import Graph.
From S2P Require Import Index.
From S2P Require Import Event.
From S2P Require Import Kernel.
From S2P Require Import KernelRel.
From S2P Require Import Bytes.
From S2P Require Import Snapshot.
From S2P Require Import StateProof.
From S2P Require Import EventCodec.
From S2P Require Import Wire.
From S2P Require Import WireTheorems.
From S2P Require Import EventLog.
From S2P Require Import EventLogTheorems.
From S2P Require Import EventCommit.
From S2P Require Import Rotation.
From S2P Require Import CommitProofs.
From S2P Require Import CommitTheorems.
From S2P Require Import RotationTheorems.
From S2P Require Import Registry.
From S2P Require Import Wal.
From S2P Require Import F32.
From S2P Require Import HostIndex.
From S2P Require Import Reranker.
From S2P Require Import Vault.
From S2P Require Import Engine.
From S2P Require Import EngineProofs.

(** ** Names of the sidecar files *)
Lemma rsplit_dot_last s t : Forall (fun b => b <> 46) t -> rsplit_dot (s ++ 46 :: t) = Some s.
Proof.
  intros Ht. assert (rsplit_dot t = None) as E1.
  { induction Ht as [|b t Hb _ IH]; [done|]. simpl. rewrite IH. by rewrite (proj2 (Z.eqb_neq b 46)). }
  induction s as [|x s IH]; simpl; [by rewrite E1|by rewrite IH].
Qed.

Lemma file_stem_last x s t : Forall (fun b => b <> 46) t -> file_stem ((x :: s) ++ 46 :: t) = x :: s.
Proof. intros Ht. unfold file_stem. by rewrite rsplit_dot_last. Qed.

(** The temporary name of the metadata sidecar. *)
Lemma metadata_tmp_name path :
  exists rest, with_extension (with_extension path (text "metadata.json")) (text "metadata.json.tmp")
               = with_extension path (109 :: rest).
Proof.
  unfold with_extension at 1. set (stem := file_stem path).
  assert (with_extension path (text "metadata.json") = (stem ++ 46 :: text "metadata") ++ 46 :: text "json") as ->.
  { unfold with_extension. fold stem. by rewrite <- app_assoc. }
  assert (exists x s, stem ++ 46 :: text "metadata" = x :: s) as (x & s & Exs) by (destruct stem; by eauto).
  rewrite Exs, file_stem_last by (by repeat constructor). rewrite <- Exs. unfold with_extension. fold stem.
  eexists. by rewrite <- app_assoc.
Qed.

Lemma with_extension_ne path b rest b' rest' : b <> b' -> with_extension path (b :: rest) <> with_extension path (b' :: rest').
Proof. unfold with_extension. intros Hb E1. apply (inj (app _)) in E1. by injection E1. Qed.

Section Runs.
Context `{BincodeLaws} (blake3 : list Z -> list Z) (crc32 : list Z -> Z) (simd : SimdPath).
Context `{EngineCodecLaws} {I : Type} `{VectorIndex I} (new_index : IndexKind -> Z -> I).
Context {V R : Type} `{KeyVault V R}.
Context (blake3_hash : forall m, hash_typed (blake3 m)) (fit : checkpoints_fit).

Local Abbreviation Engine := (Engine (I := I) (V := V)).
Local Abbreviation EM A := (M EngineError Engine A).

Inductive engine_op : Type :=
| OInsert (t : Times) (now : Z) (values : list f32) (ns : Z)
| OInsertFxp (t : Times) (now : Z) (v : FxpVector) (metadata : option (list Z)) (tag ns : Z)
| OBatch (t : Times) (now : Z) (batch : list (list f32)) (metadata : option (list (option (list Z)))) (ns : Z)
    (request_ids : option (list (option (list Z))))
| OEncrypted (t : Times) (rnd : R) (plaintext : list Z) (tag ns : Z) (key : KeyId)
| OShred (t : Times) (key : KeyId)
| OSetMeta (t : Times) (key : list Z) (value : Json)
| ODeleteNode (t : Times) (id : Z)
| ODeleteEdge (t : Times) (id : Z)
| ODelete (t1 t2 : Times) (id : Z)
| OSoftDelete (t1 t2 : Times) (id : Z)
| OUpdateMetadata (t : Times) (id : Z) (metadata : option (list Z)) (ns : Z)
| OCreateNode (t : Times) (record : option Z) (kind ns : Z)
| OCreateEdge (t : Times) (from to kind : Z)
| OCreateCollection (n : name)
| OSnapshot (target : option name).

Definition run_engine_op (op : engine_op) (e : Engine) : Engine :=
  match op with
  | OInsert t now values ns => (insert_record_from_f32_ns blake3 crc32 new_index t now values ns e).1
  | OInsertFxp t now v metadata tag ns => (insert_record_fxp blake3 crc32 t now v metadata tag ns e).1
  | OBatch t now batch metadata ns request_ids =>
      (insert_batch_ns blake3 crc32 new_index t now batch metadata ns request_ids e).1
  | OEncrypted t rnd plaintext tag ns key => (insert_encrypted_ns blake3 crc32 t rnd plaintext tag ns key e).1
  | OShred t key => (shred_key blake3 crc32 t key e).1
  | OSetMeta t key value => (set_meta_audited blake3 crc32 t key value e).1
  | ODeleteNode t id => (delete_node blake3 crc32 t id e).1
  | ODeleteEdge t id => (engine_delete_edge blake3 crc32 t id e).1
  | ODelete t1 t2 id => (delete_record blake3 crc32 t1 t2 id e).1
  | OSoftDelete t1 t2 id => (soft_delete_record blake3 crc32 t1 t2 id e).1
  | OUpdateMetadata t id metadata ns => (update_record_metadata blake3 crc32 t id metadata ns e).1
  | OCreateNode t record kind ns => (create_node_for_record blake3 crc32 t record kind ns e).1
  | OCreateEdge t from to kind => (engine_create_edge blake3 crc32 t from to kind e).1
  | OCreateCollection n => (create_collection n e).1
  | OSnapshot target => (save_snapshot target e).1
  end.

(** The events it makes can be logged.  A batch finds no single event waiting;
    a snapshot is not written over the log or its sidecar. *)
Definition admissible (path : name) (op : engine_op) (e : Engine) : Prop :=
  let rid := next_record_id (e_state e) in
  match op with
  | OInsert t _ values ns => forall v, to_fxp values = Ok v -> good t ns [InsertRecord rid v None 0]
  | OInsertFxp t _ v metadata tag ns => good t ns [InsertRecord rid v metadata tag]
  | OBatch t _ batch metadata ns request_ids =>
      (forall c, e_persistence e = PEventLog c -> c_write_buf c = [])
      /\ forall ids made, batch_events rid batch metadata 0 (split_batch (e_batch_seen e) request_ids (length batch)).2 ids
                          = Ok made -> good t ns made.1
  | OEncrypted t rnd plaintext tag ns key =>
      forall v ct, vault_encrypt rnd key plaintext (e_vault e) = (v, Ok ct) ->
        good t ns [InsertRecordEncrypted rid key ct None tag]
  | OShred t key => good t DEFAULT_NS [ShredKey key]
  | OSetMeta t key value => good t 0 [SetMeta key (json_to_string value)]
  | ODeleteNode t id => good t DEFAULT_NS [DeleteNode id]
  | ODeleteEdge t id => good t DEFAULT_NS [DeleteEdge id]
  | ODelete t1 t2 id =>
      (forall node, e_record_to_node e !! id = Some node -> good t1 DEFAULT_NS [DeleteNode node])
      /\ good t2 DEFAULT_NS [DeleteRecord id]
  | OSoftDelete t1 t2 id =>
      (forall node, e_record_to_node e !! id = Some node -> good t1 DEFAULT_NS [DeleteNode node])
      /\ good t2 DEFAULT_NS [SoftDeleteRecord id]
  | OUpdateMetadata t id metadata ns => good t ns [UpdateRecordMetadata id metadata]
  | OCreateNode t record kind ns =>
      good t ns [CreateNode (next_node_id (e_state e)) (default NRecord (NodeKind_from_u8 kind)) record]
  | OCreateEdge t from to kind =>
      good t DEFAULT_NS [CreateEdge (wrap_u32 (edge_count (e_state e))) from to (default ERelation (EdgeKind_from_u8 kind))]
  | OCreateCollection _ => True
  | OSnapshot target =>
      forall p, match target with Some p => Some p | None => cfg_snapshot_path (e_cfg e) end = Some p ->
        outside path p /\ p <> registry_file path
  end.

(** How many events it commits at most. *)
Definition weight (op : engine_op) : Z :=
  match op with
  | OBatch _ _ batch _ _ _ => len batch
  | ODelete _ _ _ | OSoftDelete _ _ _ => 2
  | OSnapshot _ => 0
  | _ => 1
  end.

Section Keeps.
Context (s0 : KernelState) (path : name) (d : Z).
Local Abbreviation mirrors := (mirrors blake3 crc32 s0 path d).

(** From [e], the operation leaves the two kernels in step. *)
Definition keeps (w : Z) {A} (m : EM A) (e : Engine) : Prop :=
  forall n c, mirrors n c e -> n + w <= u32_MAX -> exists c', mirrors (n + w) c' (m e).1.

Lemma keeps_mono w w' {A} (m : EM A) e : keeps w m e -> w <= w' -> keeps w' m e.
Proof.
  intros Hk Hw n c Hi Hn. destruct (Hk n c Hi) as [c' Hc']; [lia|]. exists c'. by apply (mirrors_mono _ _ _ _ _ (n + w)); [|lia].
Qed.

Lemma keeps_still {A} (m : EM A) e : (m e).1 = e -> keeps 0 m e.
Proof. intros Hm n c Hi Hn. exists c. by rewrite Hm, Z.add_0_r. Qed.

Lemma keeps_read w {A B} (m : EM A) (k : A -> EM B) e :
  (m e).1 = e -> 0 <= w -> (forall a, (m e).2 = Ok a -> keeps w (k a) e) -> keeps w (sbind m k) e.
Proof.
  intros Hm Hw Hk n c Hi Hn. unfold sbind. destruct (m e) as [e1 o]. simpl in Hm. subst e1.
  destruct o as [a|x| |]; [by apply (Hk a eq_refl n c)|..]; (exists c; by apply (mirrors_mono _ _ _ _ _ n); [|lia]).
Qed.

Lemma keeps_seq w1 w2 {A B} (m : EM A) (k : A -> EM B) e :
  keeps w1 m e -> 0 <= w1 -> 0 <= w2 -> (forall a e', m e = (e', Ok a) -> keeps w2 (k a) e') -> keeps (w1 + w2) (sbind m k) e.
Proof.
  intros Hm Hw1 Hw2 Hk n c Hi Hn. destruct (Hm n c Hi) as [c1 Hi1]; [lia|]. unfold sbind.
  destruct (m e) as [e1 [a|x| |]]; simpl in Hi1;
    [|exists c1; apply (mirrors_mono _ _ _ _ _ (n + w1)); [done|lia]..].
  destruct (Hk a e1 eq_refl (n + w1) c1 Hi1) as [c2 Hi2]; [lia|]. exists c2. by rewrite Z.add_assoc.
Qed.

Lemma keeps_then w {A B} (m : EM A) (k : A -> EM B) e :
  keeps w m e -> 0 <= w -> (forall a e', m e = (e', Ok a) -> keeps 0 (k a) e') -> keeps w (sbind m k) e.
Proof. intros. rewrite <- (Z.add_0_r w). by apply keeps_seq. Qed.

Lemma keeps_silent (f : Engine -> Engine) e : silent e (f e) -> keeps 0 (smodify f) e.
Proof. intros Hf n c Hi Hn. exists c. rewrite Z.add_0_r. by eapply mirrors_silent. Qed.

Lemma keeps_commit t ev ns e : good t ns [ev] -> keeps 1 (commit_and_apply_ns blake3 crc32 t ev ns) e.
Proof.
  intros Hg n c Hi Hn. pose proof (commit_exact blake3 crc32 blake3_hash fit s0 path d n c e t ev ns Hi Hg Hn) as Hc.
  destruct (apply_event_ns ev ns (e_state e)) as [s [[]|k| |]];
    [|rewrite Hc; exists c; apply (mirrors_mono _ _ _ _ _ n); [done|lia]..].
  destruct Hc as (e' & c' & -> & Hi' & _). by exists c'.
Qed.

Ltac keep := first
  [ apply keeps_still; reflexivity
  | apply keeps_silent; first [apply silent_auto_tier | by repeat split]
  | apply keeps_commit; by eauto ].

Lemma check_capacity_still (e : Engine) : (check_capacity e).1 = e.
Proof. unfold check_capacity, sbind, sget, sguard. by case_match. Qed.
Lemma guard_still b err (e : Engine) : ((sguard b err : EM unit) e).1 = e.
Proof. by destruct b. Qed.

Lemma keeps_insert t now values ns e :
  (forall v, to_fxp values = Ok v -> good t ns [InsertRecord (next_record_id (e_state e)) v None 0]) ->
  keeps 1 (insert_record_from_f32_ns blake3 crc32 new_index t now values ns) e.
Proof.
  intros Hg. apply keeps_read; [apply check_capacity_still|lia|intros _ _]. apply keeps_read; [done|lia|intros v Hv].
  apply keeps_read; [done|lia|intros e1 [= <-]]. apply keeps_then; [apply keeps_commit; exact (Hg v Hv)|lia|intros _ e2 _].
  apply keeps_then; [keep|lia|intros _ e3 _]. apply keeps_then; [keep|lia|intros _ e4 _]. keep.
Qed.

Lemma keeps_insert_fxp t now v metadata tag ns e :
  good t ns [InsertRecord (next_record_id (e_state e)) v metadata tag] ->
  keeps 1 (insert_record_fxp blake3 crc32 t now v metadata tag ns) e.
Proof.
  intros Hg. apply keeps_read; [apply check_capacity_still|lia|intros _ _].
  apply keeps_read; [done|lia|intros e1 [= <-]]. apply keeps_then; [keep|lia|intros _ e2 _].
  apply keeps_then; [keep|lia|intros _ e3 _]. keep.
Qed.

Lemma keeps_encrypted t rnd plaintext tag ns key e :
  (forall v ct, vault_encrypt rnd key plaintext (e_vault e) = (v, Ok ct) ->
     good t ns [InsertRecordEncrypted (next_record_id (e_state e)) key ct None tag]) ->
  keeps 1 (insert_encrypted_ns blake3 crc32 t rnd plaintext tag ns key) e.
Proof.
  intros Hg. apply keeps_read; [apply check_capacity_still|lia|intros _ _].
  apply keeps_read; [done|lia|intros e1 [= <-]]. apply keeps_read; [apply guard_still|lia|intros _ _].
  apply (keeps_seq 0 1); [|lia|lia|].
  { intros n c Hi Hn. exists c. rewrite Z.add_0_r. eapply mirrors_silent; [done|]. unfold with_vault. by destruct (vault_encrypt _ _ _ _). }
  intros ct e2 E2. apply keeps_read; [done|lia|intros e3 [= <-]]. apply keeps_then; [|lia|intros _ e4 _; keep].
  apply keeps_commit. unfold with_vault in E2. destruct (vault_encrypt rnd key plaintext (e_vault e)) as [v [ct'|x| |]] eqn:E3; simplify_eq/=. by eapply Hg.
Qed.

Lemma keeps_shred t key e : good t DEFAULT_NS [ShredKey key] -> keeps 1 (shred_key blake3 crc32 t key) e.
Proof.
  intros Hg. apply (keeps_seq 0 1); [|lia|lia|intros _ e1 _; keep].
  intros n c Hi Hn. exists c. rewrite Z.add_0_r. eapply mirrors_silent; [done|]. unfold with_vault. by destruct (vault_shred _ _).
Qed.

Lemma keeps_delete_node_of t id e :
  (forall node, e_record_to_node e !! id = Some node -> good t DEFAULT_NS [DeleteNode node]) ->
  keeps 1 (delete_node_of blake3 crc32 t id) e.
Proof.
  intros Hg. apply keeps_read; [done|lia|intros e1 [= <-]].
  destruct (e_record_to_node e !! id); [keep|]. apply (keeps_mono 0); [keep|lia].
Qed.

Lemma keeps_delete t1 t2 id e :
  (forall node, e_record_to_node e !! id = Some node -> good t1 DEFAULT_NS [DeleteNode node]) ->
  good t2 DEFAULT_NS [DeleteRecord id] -> keeps 2 (delete_record blake3 crc32 t1 t2 id) e.
Proof.
  intros Hg1 Hg2. apply (keeps_seq 1 1); [by apply keeps_delete_node_of|lia|lia|intros _ e1 _].
  apply keeps_then; [keep|lia|intros _ e2 _]. keep.
Qed.

Lemma keeps_soft_delete t1 t2 id e :
  (forall node, e_record_to_node e !! id = Some node -> good t1 DEFAULT_NS [DeleteNode node]) ->
  good t2 DEFAULT_NS [SoftDeleteRecord id] -> keeps 2 (soft_delete_record blake3 crc32 t1 t2 id) e.
Proof.
  intros Hg1 Hg2. apply (keeps_seq 1 1); [by apply keeps_delete_node_of|lia|lia|intros _ e1 _].
  apply keeps_then; [keep|lia|intros _ e2 _]. apply keeps_then; [keep|lia|intros _ e3 _]. keep.
Qed.

Lemma keeps_create_node t record kind ns e :
  good t ns [CreateNode (next_node_id (e_state e)) (default NRecord (NodeKind_from_u8 kind)) record] ->
  keeps 1 (create_node_for_record blake3 crc32 t record kind ns) e.
Proof.
  intros Hg. apply keeps_read; [done|lia|intros e1 [= <-]]. apply keeps_read; [apply guard_still|lia|intros _ _].
  apply keeps_then; [keep|lia|intros _ e2 _]. keep.
Qed.

Lemma keeps_create_edge t from to kind e :
  good t DEFAULT_NS [CreateEdge (wrap_u32 (edge_count (e_state e))) from to (default ERelation (EdgeKind_from_u8 kind))] ->
  keeps 1 (engine_create_edge blake3 crc32 t from to kind) e.
Proof.
  intros Hg. apply keeps_read; [done|lia|intros e1 [= <-]]. apply keeps_read; [apply guard_still|lia|intros _ _].
  apply keeps_then; [keep|lia|intros _ e2 _]. keep.
Qed.

(** ** Files *)
Lemma eng_fs_log n c (e : Engine) : mirrors n c e -> eng_fs e = lg_fs (c_log c).
Proof. intros Hi. unfold eng_fs. by rewrite (mi_committer _ _ _ _ _ _ _ _ Hi). Qed.

Lemma mirrors_replace n c (e : Engine) tmp target data :
  mirrors n c e -> outside path tmp -> outside path target -> tmp <> registry_file path -> target <> registry_file path ->
  exists c', mirrors n c' (replace_file tmp target data e).
Proof.
  intros Hi Ht Hp Ht' Hp'. unfold replace_file. rewrite (eng_fs_log n c e Hi).
  destruct (mirrors_write blake3 crc32 s0 path d n c e (fs_rename tmp target (fs_write tmp data (lg_fs (c_log c)))) Hi) as (c' & Hc' & _).
  - intros p Hin. by rewrite replaced_lookup by (by eapply outside_ne).
  - unfold sidecar_ok. rewrite replaced_lookup by done. apply Hi.
  - by exists c'.
Qed.

Lemma keeps_flush_metadata e : keeps 0 flush_metadata e.
Proof.
  intros n c Hi Hn. rewrite Z.add_0_r. unfold flush_metadata, sbind, sget, metadata_path.
  rewrite (mi_path _ _ _ _ _ _ _ _ Hi). cbn [fmap option_fmap option_map].
  pose proof (log_inv_named _ _ _ _ _ _ _ (mi_log _ _ _ _ _ _ _ _ Hi)) as Hnm.
  destruct (metadata_tmp_name path) as [rest Erest]. rewrite Erest.
  apply (mirrors_replace n c); [done|by apply outside_extension..|by apply with_extension_ne|by apply with_extension_ne].
Qed.

Lemma keeps_set_meta t key value e :
  good t 0 [SetMeta key (json_to_string value)] -> keeps 1 (set_meta_audited blake3 crc32 t key value) e.
Proof.
  intros Hg. apply keeps_then; [keep|lia|intros _ e1 _]. apply keeps_then; [keep|lia|intros _ e2 _].
  apply keeps_flush_metadata.
Qed.

Lemma keeps_snapshot target (e : Engine) :
  (forall p, match target with Some p => Some p | None => cfg_snapshot_path (e_cfg e) end = Some p ->
     outside path p /\ p <> registry_file path) ->
  keeps 0 (save_snapshot target) e.
Proof.
  intros Hg. apply keeps_read; [done|lia|intros e1 [= <-]].
  apply keeps_read; [done|lia|intros p Hp]. apply keeps_read; [done|lia|intros data _].
  apply keeps_then; [|lia|intros _ e2 _; keep]. intros n c Hi Hn. rewrite Z.add_0_r.
  destruct (Hg p) as [Hout Hne].
  { simpl in Hp. unfold ok_or in Hp. case_match; by simplify_eq. }
  unfold smodify. cbn [fst]. rewrite (eng_fs_log n c e Hi). unfold fs_write.
  destruct (mirrors_write blake3 crc32 s0 path d n c e (<[p := data]> (lg_fs (c_log c))) Hi) as (c' & Hc' & _); [| |by exists c'].
  - intros p' Hin. by rewrite lookup_insert_ne by (by apply not_eq_sym; eapply outside_ne).
  - unfold sidecar_ok. rewrite lookup_insert_ne by done. apply Hi.
Qed.

(** ** Collections *)
Lemma keeps_create_collection nm e : keeps 1 (create_collection nm) e.
Proof.
  intros n c Hi Hn. pose proof Hi as [Hp Hl Hs Hv Hpath Hreg Hside]. unfold create_collection, sbind at 1, sget.
  destruct (registry_create nm (e_namespaces e)) as [reg o] eqn:Er.
  destruct (registry_create_ok _ _ _ _ Hreg Er) as (Hwf & _ & Ho). unfold sbind at 1, smodify at 1.
  destruct o as [id|]; simpl.
  2:{ destruct Ho as [-> _]. exists c. apply (mirrors_mono _ _ _ _ _ n); [|lia]. by apply (mirrors_silent _ _ _ _ _ _ _ e). }
  unfold sbind at 1. simpl. unfold sbind at 1, with_state.
  assert (ks_version (e_state e) < u64_MAX) as Hv1 by (unfold u32_MAX, u64_MAX in *; lia).
  cbn [e_state e_set_namespaces]. rewrite apply_version by done. cbn [arm_body]. unfold check_ns.
  destruct Ho as [_ Hid]. unfold sguard. rewrite (proj2 (Z.leb_gt _ _)) by (unfold MAX_NAMESPACES, MAX_COLLECTIONS in *; lia).
  simpl. unfold sbind at 1, flush_namespaces, sbind, sget, namespaces_path. cbn [e_cfg e_set_state e_set_namespaces].
  rewrite Hpath. cbn [fmap option_fmap option_map smodify fst e_namespaces sret].
  fold (registry_file path). set (e1 := e_set_state _ _). unfold replace_file.
  assert (eng_fs e1 = lg_fs (c_log c)) as -> by (unfold eng_fs; simpl; by rewrite Hp).
  set (fs := fs_rename _ _ _). unfold eng_set_fs. simpl. rewrite Hp.
  pose proof (log_inv_named _ _ _ _ _ _ _ Hl) as Hnm.
  assert (outside path (registry_file path)) as Hout by (by apply outside_extension).
  eexists. split; [done| |exact Hs|simpl; lia|done|done|]; simpl.
  - apply log_inv_files; [apply (log_inv_mono _ _ _ _ _ n); [done|lia]|]. intros p Hin. apply replaced_lookup; [|by eapply outside_ne].
    eapply outside_ne; [|done]. unfold registry_file, with_extension. rewrite <- !app_assoc. unfold named_log in Hnm. rewrite Hnm at 1. by apply outside_app.
  - unfold sidecar_ok, fs. rewrite replaced_target. apply registry_json_ok.
Qed.

(** ** Batches *)
Lemma batch_events_length start batch metadata slot indices ids made :
  batch_events start batch metadata slot indices ids = Ok made -> len made.1 = len indices.
Proof.
  revert slot ids made. induction indices as [|i indices IH]; intros slot ids made; cbn [batch_events]; [by intros [= <-]|].
  destruct (unwrap (batch !! i)) as [values|x| |]; try done. cbn [obind].
  destruct (to_fxp values) as [v|x| |]; try done. cbn [obind].
  destruct (batch_events start batch metadata (S slot) indices _) as [rest|x| |] eqn:E1; try done.
  intros [= <-]. simpl. rewrite !len_cons. f_equal. by eapply IH.
Qed.

Lemma split_batch_length seen request_ids n : len (split_batch seen request_ids n).2 <= Z.of_nat n.
Proof.
  unfold split_batch. set (step := fun st i => _).
  assert (forall l (st : list (nat * Z) * list nat), len (foldl step st l).2 <= len st.2 + len l) as Hf.
  { induction l as [|i l IH]; intros st; simpl; [unfold len; simpl; lia|]. rewrite len_cons. etrans; [apply IH|].
    assert (len (step st i).2 <= len st.2 + 1) as Hs; [|lia].
    unfold step. repeat case_match; simpl; rewrite ?len_app; change (len [i]) with 1; lia. }
  specialize (Hf (seq 0 n) ([], [])). unfold len in *. rewrite length_seq in Hf. simpl in Hf. exact Hf.
Qed.

Lemma keeps_log_apply t events ns e :
  (forall c, e_persistence e = PEventLog c -> c_write_buf c = []) -> good t ns events ->
  keeps (len events) (log_batch blake3 crc32 t events ns ;;; sfor events (fun ev => apply_committed_event_ns ev ns)) e.
Proof.
  intros Hw Hg n c Hi Hn. pose proof (mi_committer _ _ _ _ _ _ _ _ Hi) as Hp.
  destruct (decide (events = [])) as [-> | Hne].
  { exists c. unfold sbind, log_batch, log_batch_ns. rewrite Hp. simpl. change (len []) with 0. rewrite Z.add_0_r.
    by rewrite e_set_persistence_id. }
  pose proof (batch_exact blake3 crc32 blake3_hash fit s0 path d n c e t events ns Hi Hg (Hw c Hp) Hne Hn) as Hb.
  pose proof (len_nonneg events) as Hl.
  destruct (apply_all ns events (e_state e)) as [s [[]|k| |]]; unfold sbind;
    [|rewrite Hb; exists c; apply (mirrors_mono _ _ _ _ _ n); [done|lia]..].
  destruct Hb as (e1 & e' & c' & -> & -> & Hi' & _). by exists c'.
Qed.

Lemma sbind_seq {A B} (m1 : EM unit) (m2 : EM A) (k : EM B) e : (m1 ;;; (m2 ;;; k)) e = ((m1 ;;; m2) ;;; k) e.
Proof. unfold sbind. destruct (m1 e) as [e1 [[]|x| |]]; try done. Qed.

Lemma keeps_ext w {A} (m m' : EM A) e : m e = m' e -> keeps w m' e -> keeps w m e.
Proof. unfold keeps. by intros ->. Qed.

Lemma keeps_batch t now batch metadata ns request_ids e :
  (forall c, e_persistence e = PEventLog c -> c_write_buf c = []) ->
  (forall ids made, batch_events (next_record_id (e_state e)) batch metadata 0
       (split_batch (e_batch_seen e) request_ids (length batch)).2 ids = Ok made -> good t ns made.1) ->
  keeps (len batch) (insert_batch_ns blake3 crc32 new_index t now batch metadata ns request_ids) e.
Proof.
  intros Hw Hg. pose proof (len_nonneg batch) as Hlb. unfold insert_batch_ns.
  apply keeps_read; [done|lia|intros e1 [= <-]].
  pose proof (split_batch_length (e_batch_seen e) request_ids (length batch)) as Hl.
  destruct (split_batch (e_batch_seen e) request_ids (length batch)) as [deduped indices]. simpl in Hg, Hl.
  apply keeps_read; [apply guard_still|lia|intros _ _]. apply keeps_read; [done|lia|intros made Hm].
  specialize (Hg _ _ Hm). apply batch_events_length in Hm. destruct made as [events id_map]. simpl in Hg, Hm.
  eapply keeps_ext; [apply sbind_seq|]. apply keeps_then; [|lia|intros _ e2 _].
  { apply (keeps_mono (len events)); [by apply keeps_log_apply|unfold len in *; lia]. }
  apply keeps_then; [keep|lia|intros _ e3 _]. apply keeps_then; [keep|lia|intros _ e4 _].
  apply keeps_then; [keep|lia|intros _ e5 _]. keep.
Qed.

(** ** Every handler *)
Lemma keeps_op op e n c :
  mirrors n c e -> admissible path op e -> n + weight op <= u32_MAX ->
  exists c', mirrors (n + weight op) c' (run_engine_op op e).
Proof.
  intros Hi Hop. destruct op; cbn [weight admissible run_engine_op] in *; revert n c Hi.
  - by apply keeps_insert.
  - by apply keeps_insert_fxp.
  - destruct Hop. by apply keeps_batch.
  - by apply keeps_encrypted.
  - by apply keeps_shred.
  - by apply keeps_set_meta.
  - by apply keeps_commit.
  - by apply keeps_commit.
  - destruct Hop. by apply keeps_delete.
  - destruct Hop. by apply keeps_soft_delete.
  - by apply keeps_commit.
  - by apply keeps_create_node.
  - by apply keeps_create_edge.
  - by apply keeps_create_collection.
  - by apply keeps_snapshot.
Qed.
End Keeps.

Definition run_engine (ops : list engine_op) (e : Engine) : Engine := foldl (fun e op => run_engine_op op e) e ops.

Fixpoint all_admissible (path : name) (ops : list engine_op) (e : Engine) : Prop :=
  match ops with
  | [] => True
  | op :: ops => admissible path op e /\ all_admissible path ops (run_engine_op op e)
  end.

Definition total_weight (ops : list engine_op) : Z := foldr (fun op w => weight op + w) 0 ops.

Lemma weight_nonneg op : 0 <= weight op.
Proof. destruct op; simpl; try lia. apply len_nonneg. Qed.
Lemma total_weight_nonneg ops : 0 <= total_weight ops.
Proof. induction ops as [|op ops IH]; simpl; [lia|]. pose proof (weight_nonneg op). lia. Qed.

Lemma run_mirrors s0 path d n c e ops :
  mirrors blake3 crc32 s0 path d n c e -> all_admissible path ops e -> n + total_weight ops <= u32_MAX ->
  exists c', mirrors blake3 crc32 s0 path d (n + total_weight ops) c' (run_engine ops e).
Proof.
  revert n c e. induction ops as [|op ops IH]; intros n c e Hi Hops Hn; simpl in *.
  { exists c. by rewrite Z.add_0_r. }
  destruct Hops as [Hop Hops]. pose proof (total_weight_nonneg ops).
  destruct (keeps_op s0 path d op e n c Hi Hop) as [c1 Hi1]; [lia|].
  destruct (IH (n + weight op) c1 _ Hi1 Hops) as [c2 Hi2]; [lia|]. exists c2. by rewrite Z.add_assoc.
Qed.
End Runs.

(** ** A concrete node

    Instances of the engine's parameters that run: a codec, a vault that keeps
    the plaintext, the brute-force index; a configuration and calls on it. *)

(** ** A codec: the bits of stdpp's encoding *)
Fixpoint put_bits (p : positive) : list Z :=
  match p with xH => [] | xO p => 0 :: put_bits p | xI p => 1 :: put_bits p end.
Fixpoint get_bits (bs : list Z) : positive :=
  match bs with [] => xH | b :: bs => if b =? 0 then xO (get_bits bs) else xI (get_bits bs) end.

Lemma get_put_bits p : get_bits (put_bits p) = p.
Proof. induction p as [p IH|p IH|]; simpl; by rewrite ?IH. Qed.

Definition put_any {A} `{Countable A} (a : A) : list Z := put_bits (encode a).
Definition get_any {A} `{Countable A} (bs : list Z) : option A := decode (get_bits bs).
Lemma get_put_any {A} `{Countable A} (a : A) : get_any (put_any a) = Some a.
Proof. unfold get_any, put_any. by rewrite get_put_bits, decode_encode. Qed.

(** A map travels as its list of bindings. *)
#[export] Instance toy_codec : EngineCodec := {|
  Json := list Z;
  json_to_string j := j;
  json_of_string s := Some s;
  metadata_to_json m := 123 :: put_any m;
  metadata_of_json bs := get_any (drop 1 bs);
  registry_to_json r := put_any (reg_map r, reg_next_id r);
  registry_of_json bs := (fun p => mkRegistry p.1 p.2) <$> get_any bs;
  put_created m := put_any m;
  get_created bs := get_any bs;
  put_corpus c := put_any c;
  get_corpus bs := get_any bs;
|}.
#[export] Instance toy_codec_laws : EngineCodecLaws.
Proof.
  split; [done|intros m; apply get_put_any|done| |intros m; apply get_put_any|intros c; apply get_put_any].
  intros r. change ((fun p => mkRegistry p.1 p.2) <$> get_any (put_any (reg_map r, reg_next_id r)) = Some r).
  rewrite get_put_any. by destruct r.
Qed.

Definition PlainVault : KeyVault unit unit := {|
  vault_encrypt _ _ plaintext v := (v, Ok plaintext);
  vault_decrypt _ ciphertext _ := Ok ciphertext;
  vault_shred _ v := (v, Ok tt);
  vault_key_exists _ _ := true;
|}.
#[local] Existing Instance PlainVault.
#[local] Existing Instance FixedInt.bincode.
#[local] Existing Instance FixedInt.laws.

Definition demo_index (_ : IndexKind) (_ : Z) : BruteForceIndex := hbf_new.

Definition demo_cfg : EngineConfig :=
  mkConfig 2 100 100 100 KBruteForce None None (Some log_name) (Some 300) 1.

Abbreviation DemoEngine := (Engine (I := BruteForceIndex) (V := unit)).
Abbreviation demo_op := (engine_op (R := unit)).

Abbreviation open_node cfg fs := (with_config demo_hash toy_crc demo_index cfg tt fs : outcome EngineError DemoEngine).

(** The engine a start gives; an engine without files where it fails. *)
Definition started (cfg : EngineConfig) (fs : Fs) : DemoEngine :=
  match open_node cfg fs with
  | Ok e => e
  | _ => mkEngine cfg KernelState_new ∅ hbf_new KBruteForce PEphemeral ∅ ∅ registry_new tt ∅ reranker_new ∅
  end.

Abbreviation run_node := (run_engine demo_hash toy_crc demo_index).

(** 1.0 and 2.5 *)
Definition f_one : f32 := f32_of_Z 1.
Definition f_two_half : f32 := f32_div (f32_of_Z 5) (f32_of_Z 2).

(** A collection, two vectors, a node for one of them, metadata, a rejected edge, a deletion. *)
Definition node_ops : list demo_op :=
  [OCreateCollection [97];
   OInsert (at_time 10) 10 [f_one; f_two_half] 1;
   OInsertFxp (at_time 11) 11 [65536; 0] (Some [7]) 5 0;
   OCreateNode (at_time 12) (Some 1) 1 0;
   OCreateEdge (at_time 13) 0 9 0;
   OSetMeta (at_time 14) [107] [118];
   OSoftDelete (at_time 15) (at_time 16) 1].

Example node_ops_run :
  let e := run_node node_ops (started demo_cfg ∅) in
  length (events_of e) = 6%nat /\ registry_resolve (e_namespaces e) (Some [97]) = Some 1
  /\ record_count (e_state e) = 1 /\ node_count (e_state e) = 0.
Proof. vm_compute. done. Qed.

(** ** The calls are admissible *)
Lemma good_one t ns ev : in_u64 t -> loggable VERSION_V4 (log_entry ns ev) -> good (at_time t) ns [ev].
Proof. intros Ht Hx. split; [done|]. split; [done|]. by apply Forall_cons_2. Qed.

(** The number a run gives. *)
Ltac evaluated n := let v := eval vm_compute in n in replace n with v by (vm_compute; reflexivity).
Ltac typed :=
  unfold string_ok;
  repeat match goal with |- _ /\ _ => split | |- Forall _ [] => apply Forall_nil_2 | |- Forall _ (_ :: _) => apply Forall_cons_2 end;
  match goal with
  | |- True => exact I
  | |- opt_u32 _ => intros ? [= <-]; in_range
  | |- _ <> _ => discriminate
  | |- _ = _ => reflexivity
  | |- _ => first [in_range | vm_compute; discriminate]
  end.
Ltac good_event := apply good_one; [in_range|loggable; typed].

Lemma node_ops_admissible : all_admissible demo_hash toy_crc demo_index log_name node_ops (started demo_cfg ∅).
Proof.
  unfold node_ops. cbn [all_admissible admissible].
  split; [done|]. split.
  { intros v Hv. vm_compute in Hv. injection Hv as <-.
    match goal with |- good _ _ [InsertRecord ?n _ _ _] => evaluated n end. good_event. }
  split; [match goal with |- good _ _ [InsertRecord ?n _ _ _] => evaluated n end; good_event|].
  split; [match goal with |- good _ _ [CreateNode ?n _ _] => evaluated n end; good_event|].
  split; [match goal with |- good _ _ [CreateEdge ?n _ _ _] => evaluated n end; good_event|].
  split; [good_event|]. split; [|done]. split; [|good_event].
  intros node Hn. vm_compute in Hn. injection Hn as <-. good_event.
Qed.
