(* ===== verification/EngineSnapshot.v ===== *)
(** * Snapshots of the engine

    The snapshot file of [engine.rs] is a sequence of length-prefixed sections.
    Restoring one is total on arbitrary bytes, and reads back what was saved. *)

From stdpp Require Import gmap strings.
From S2P Require Import Prelude.
From S2P Require Import Hoare.
From S2P Require Import Core.
From S2P Require Import Fxp.
From S2P Require Import TopK.
From S2P Require Import Records.
From S2P Require Import Graph.
From S2P Require Import Index.
From S2P Require Import Event.
From S2P Require Import Kernel.
From S2P Require Import Bytes.
From S2P Require Import KernelWf.
From S2P Require Import KernelProofs.
From S2P Require Import KernelTheorems.
From S2P Require Import Snapshot.
From S2P Require Import SnapshotProofs.
From S2P Require Import SnapshotSafety.
From S2P Require Import StateProof.
From S2P Require Import EventCodec.
From S2P Require Import Wire.
From S2P Require Import EventLog.
From S2P Require Import EventCommit.
From S2P Require Import Registry.
From S2P Require Import Wal.
From S2P Require Import F32.
From S2P Require Import HostIndex.
From S2P Require Import Reranker.
From S2P Require Import Vault.
From S2P Require Import Engine.
From S2P Require Import WireTheorems.
From S2P Require Import EventLogTheorems.
From S2P Require Import CommitTheorems.
From S2P Require Import EngineRuns.

(** [rest] is what [data] holds from [offset] on. *)
Definition from_offset (data : list Z) (offset : Z) (rest : list Z) : Prop :=
  exists pre, data = pre ++ rest /\ len pre = offset.

Lemma from_offset_skip data offset x rest : from_offset data offset (x ++ rest) -> from_offset data (offset + len x) rest.
Proof. intros (pre & -> & <-). exists (pre ++ x). by rewrite <- app_assoc, len_app. Qed.

Lemma window_here data offset x rest : from_offset data offset (x ++ rest) -> window data offset (len x) = x.
Proof.
  intros (pre & -> & <-). unfold window, len. rewrite !Nat2Z.id. by rewrite drop_app_length, take_app_length.
Qed.

Lemma from_offset_fits data offset x rest : from_offset data offset (x ++ rest) -> offset + len x <= len data.
Proof. intros (pre & -> & <-). rewrite !len_app. pose proof (len_nonneg rest). lia. Qed.

Lemma at_u32_here data offset v rest :
  from_offset data offset (le_bytes 4 v ++ rest) -> in_u32 v ->
  at_u32 data offset = Ok (v, offset + 4) /\ from_offset data (offset + 4) rest.
Proof.
  intros Hd Hv. assert (len (le_bytes 4 v) = 4) as E4 by (unfold len; by rewrite length_le_bytes).
  pose proof (from_offset_fits _ _ _ _ Hd) as Hf. pose proof (window_here _ _ _ _ Hd) as Hw.
  apply from_offset_skip in Hd. rewrite E4 in *. split; [|done]. unfold at_u32.
  rewrite (proj2 (Z.ltb_ge _ _)), Hw, le_val_small by (done || int_lia). done.
Qed.

Lemma slice_here data offset x rest :
  from_offset data offset (x ++ rest) ->
  slice_at data offset (len x) = Ok (x, offset + len x) /\ from_offset data (offset + len x) rest.
Proof.
  intros Hd. split; [|by apply from_offset_skip]. unfold slice_at.
  pose proof (from_offset_fits _ _ _ _ Hd) as Hf. rewrite (proj2 (Z.ltb_ge _ _)), (window_here _ _ _ rest) by done. done.
Qed.

Lemma with_len_here data offset x rest :
  from_offset data offset (with_len x ++ rest) -> in_u32 (len x) ->
  at_u32 data offset = Ok (len x, offset + 4) /\ slice_at data (offset + 4) (len x) = Ok (x, offset + 4 + len x)
  /\ from_offset data (offset + 4) (x ++ rest) /\ from_offset data (offset + 4 + len x) rest.
Proof.
  unfold with_len. rewrite <- app_assoc. intros Hd Hx. destruct (at_u32_here _ _ _ _ Hd Hx) as [E1 H1].
  destruct (slice_here _ _ _ _ H1) as [E2 H2]. done.
Qed.

Lemma window_bytes data offset n : bytes data -> bytes (window data offset n).
Proof. intros Hb. unfold window. by apply Forall_take, Forall_drop. Qed.

Section EngineSnapshot.
Context (blake3 : list Z -> list Z) (crc32 : list Z -> Z) (simd : SimdPath).
Context `{EngineCodec} {I : Type} `{VectorIndex I} (new_index : IndexKind -> Z -> I).
Context {V R : Type} `{KeyVault V R}.

Local Abbreviation Engine := (Engine (I := I) (V := V)).
Local Abbreviation EM A := (M EngineError Engine A).

(** ** Totality *)
Definition returns {A} (m : EM A) : Prop := forall e, match (m e).2 with Ok _ | Err _ => True | Panic | Hang => False end.

Lemma returns_bind {A B} (m : EM A) (k : A -> EM B) :
  returns m -> (forall a e e', m e = (e', Ok a) -> returns (k a)) -> returns (sbind m k).
Proof.
  intros Hm Hk e. unfold sbind. specialize (Hm e). destruct (m e) as [e' [a|x| |]] eqn:E1; try done. by eapply Hk.
Qed.
Lemma returns_modify (f : Engine -> Engine) : returns (smodify f).
Proof. done. Qed.
Lemma returns_get : returns (sget : EM Engine).
Proof. done. Qed.
Lemma returns_guard b err : returns (sguard b err : EM unit).
Proof. intros e. by destruct b. Qed.
Lemma returns_ret {A} (a : A) : returns (sret a : EM A).
Proof. done. Qed.
Lemma returns_lift {A} (o : outcome EngineError A) :
  match o with Ok _ | Err _ => True | Panic | Hang => False end -> returns (slift o : EM A).
Proof. intros Ho e. exact Ho. Qed.
Lemma returns_ok_or {A} (o : option A) err : returns (slift (ok_or o err) : EM A).
Proof. by destruct o. Qed.

Lemma at_u32_returns data offset : returns (slift (at_u32 data offset) : EM _).
Proof. unfold at_u32. by destruct (_ <? _). Qed.
Lemma slice_returns data offset n : returns (slift (slice_at data offset n) : EM _).
Proof. unfold slice_at. by destruct (_ <? _). Qed.

Lemma registry_returns data offset : returns (slift (restore_registry data offset) : EM _).
Proof.
  apply returns_lift. unfold restore_registry. destruct (_ && _); [|done]. unfold at_u32. destruct (_ <? _); [done|].
  cbn [obind]. unfold slice_at. destruct (_ <? _); [done|]. cbn [obind]. by destruct (registry_of_json _).
Qed.

Lemma components_return k_data m_data i_data ns :
  bytes k_data -> returns (restore_from_components new_index k_data m_data i_data ns).
Proof.
  intros Hk. unfold restore_from_components. apply returns_bind.
  { apply returns_lift. pose proof (total_state k_data Hk) as Ht. unfold wp, decode_state in *.
    destruct (read_state k_data) as [rest [s|x| |]]; simpl in *; (done || by destruct Ht). }
  intros s _ _ _. apply returns_bind; [done|intros _ _ _ _]. apply returns_bind; [by destruct m_data|intros _ _ _ _].
  apply returns_bind.
  { destruct i_data as [[|b blob]|]; try apply returns_modify. apply returns_bind; [apply returns_get|intros e0 _ _ _].
    apply returns_bind; [apply returns_ok_or|intros i _ _ _; apply returns_modify]. }
  intros _ _ _ _. apply returns_bind; [done|intros _ _ _ _]. apply returns_bind; [done|intros _ _ _ _]. by destruct ns.
Qed.

(** Every turn of the loop moves at least eight bytes on. *)
Lemma trailing_returns fuel data offset :
  bytes data -> 0 <= offset -> len data - offset < Z.of_nat fuel -> returns (restore_trailing_sections fuel data offset).
Proof.
  intros Hb. revert offset. induction fuel as [|fuel IH]; intros offset Ho Hf; cbn [restore_trailing_sections];
    destruct (Z.ltb_spec (len data) (offset + 8)) as [Hl | Hl]; try apply returns_ret; [lia|].
  destruct (_ <? _) eqn:E1; [apply returns_ret|]. apply returns_bind; [done|intros _ _ _ _].
  pose proof (le_val_range (window data (offset + 4) 4) (window_bytes _ _ _ Hb)) as Hv.
  apply IH; bool_prop; lia.
Qed.

Lemma at_u32_next data offset r : at_u32 data offset = Ok r -> bytes data -> 0 <= r.1 /\ r.2 = offset + 4.
Proof.
  unfold at_u32. destruct (_ <? _); [done|]. intros [= <-] Hb. simpl. split; [|done].
  by apply le_val_range, window_bytes.
Qed.
Lemma slice_next data offset n r : slice_at data offset n = Ok r -> bytes data -> bytes r.1 /\ r.2 = offset + n.
Proof. unfold slice_at. destruct (_ <? _); [done|]. intros [= <-] Hb. simpl. split; [by apply window_bytes|done]. Qed.

Lemma registry_next data offset r :
  restore_registry data offset = Ok r -> bytes data -> 0 <= offset -> 0 <= r.2.
Proof.
  unfold restore_registry. intros Hr Hb Ho. destruct (_ && _); [|by injection Hr as <-].
  destruct (at_u32 data (offset + 4)) as [l|x| |] eqn:E1; try done. cbn [obind] in Hr.
  destruct (slice_at data l.2 l.1) as [j|x| |] eqn:E2; try done. cbn [obind] in Hr.
  destruct (registry_of_json j.1); [|done]. injection Hr as <-. simpl.
  apply at_u32_next in E1 as [? E1]; [|done]. apply slice_next in E2 as [_ E2]; [|done]. lia.
Qed.

(** Restoring a snapshot from any byte string and into any engine ends with a
    result or an error: no panic, and the loop over the trailing sections stops.
    *)
Theorem restore_total (data : list Z) (e : Engine) :
  bytes data ->
  match (restore new_index data e).2 with Ok _ | Err _ => True | Panic | Hang => False end.
Proof.
  intros Hb. revert e. change (returns (restore new_index data)). unfold restore.
  apply returns_bind; [apply returns_guard|intros _ _ _ _]. apply returns_bind; [apply returns_guard|intros _ _ _ _].
  apply returns_bind; [apply at_u32_returns|intros k_len e1 e2 [= _ E1]]. apply at_u32_next in E1 as [Hk E1]; [|done].
  apply returns_bind; [apply slice_returns|intros k_data e3 e4 [= _ E2]]. apply slice_next in E2 as [Hkb E2]; [|done].
  apply returns_bind; [apply at_u32_returns|intros m_len e5 e6 [= _ E3]]. apply at_u32_next in E3 as [Hm E3]; [|done].
  apply returns_bind; [apply slice_returns|intros m_data e7 e8 [= _ E4]]. apply slice_next in E4 as [_ E4]; [|done].
  apply returns_bind; [apply at_u32_returns|intros i_len e9 e10 [= _ E5]]. apply at_u32_next in E5 as [Hi E5]; [|done].
  apply returns_bind; [apply registry_returns|intros ns e11 e12 [= _ E6]]. apply registry_next in E6; [|done|lia].
  apply returns_bind; [by apply components_return|intros _ _ _ _].
  apply trailing_returns; [done|done|]. unfold len in *. lia.
Qed.
End EngineSnapshot.

(** ** Reading a snapshot back *)
Section RoundTrip.
Context (blake3 : list Z -> list Z) (crc32 : list Z -> Z).
Context `{EngineCodecLaws} {I : Type} `{VectorIndex I} (new_index : IndexKind -> Z -> I).
Context {V R : Type} `{KeyVault V R}.

Local Abbreviation Engine := (Engine (I := I) (V := V)).

Lemma ok_inj {E A} (x y : A) : Ok (E := E) x = Ok y -> x = y.
Proof. by intros [= ->]. Qed.

Lemma trailing_step fuel data offset tag x rest (e : Engine) :
  from_offset data offset (tag ++ with_len x ++ rest) -> len tag = 4 -> in_u32 (len x) ->
  restore_trailing_sections (S fuel) data offset e
  = restore_trailing_sections fuel data (offset + 8 + len x) (restore_section tag x e)
  /\ from_offset data (offset + 8 + len x) rest.
Proof.
  intros Hd Ht Hx. pose proof (window_here _ _ _ _ Hd) as Hw. pose proof (from_offset_skip _ _ _ _ Hd) as Hd1. rewrite Ht in *.
  destruct (with_len_here _ _ _ _ Hd1 Hx) as (E1 & E2 & Hd2 & Hd3).
  pose proof (from_offset_fits _ _ _ _ Hd2) as Hfit. pose proof (len_nonneg x) as Hxl.
  replace (offset + 4 + 4) with (offset + 8) in * by lia. split; [|done]. cbn [restore_trailing_sections].
  rewrite (proj2 (Z.ltb_ge _ _)) by lia.
  assert (le_val (window data (offset + 4) 4) = len x) as ->.
  { revert E1. unfold at_u32. destruct (_ <? _); [done|]. by intros [= ->]. }
  rewrite (proj2 (Z.ltb_ge _ _)), Hw, (window_here _ _ _ _ Hd2) by lia. done.
Qed.

Lemma trailing_end fuel data offset (e : Engine) : from_offset data offset [] -> restore_trailing_sections fuel data offset e = (e, Ok tt).
Proof.
  intros (pre & -> & <-). rewrite app_nil_r. destruct fuel; cbn [restore_trailing_sections];
    by rewrite (proj2 (Z.ltb_lt _ _)) by lia.
Qed.

(** The index blob, if there is one, can be read by the index that is there. *)
Definition index_reads (blob : list Z) (e : Engine) : Prop := blob <> [] -> exists i, ix_restore blob (e_index e) = Some i.

Lemma components_ok k_data s meta blob reg (e : Engine) :
  decode_state k_data = Ok s -> index_reads blob e ->
  exists e', restore_from_components new_index k_data (metadata_to_json meta) (Some blob) (Some reg) e = (e', Ok tt)
    /\ e_state e' = s /\ e_metadata e' = meta /\ e_namespaces e' = reg /\ e_persistence e' = e_persistence e /\ e_cfg e' = e_cfg e.
Proof.
  intros Hk Hi. unfold restore_from_components, sbind at 1, slift at 1. rewrite Hk. cbn [map_err].
  unfold sbind at 1, smodify at 1.
  assert ((match metadata_to_json meta with [] => sret tt | _ => smodify (restore_metadata (metadata_to_json meta)) end
           : M EngineError Engine unit) (e_set_state s e)
          = (e_set_metadata meta (e_set_state s e), Ok tt)) as E1.
  { pose proof (metadata_json_nonempty meta) as Hne. destruct (metadata_to_json meta) eqn:E2; [done|]. rewrite <- E2.
    unfold smodify, restore_metadata. by rewrite metadata_json_ok. }
  rewrite (bind_ok _ _ _ _ _ E1). set (e1 := e_set_metadata meta (e_set_state s e)).
  assert (exists e2, (match Some blob with
      | Some (b :: blob) => let* e := sget in let* i := slift (ok_or (ix_restore (b :: blob) (e_index e)) (EInvalidInput IndexFailed)) in
                            smodify (fun e => e_set_index (e_current_kind e) i e)
      | _ => smodify (rebuild_index new_index) end : M EngineError Engine unit) e1 = (e2, Ok tt)
    /\ e_state e2 = s /\ e_metadata e2 = meta /\ e_persistence e2 = e_persistence e /\ e_cfg e2 = e_cfg e) as (e2 & E2 & F1 & F2 & F3 & F4).
  { destruct blob as [|b blob]; [by eexists|]. destruct Hi as [i Ei]; [done|]. unfold sbind, sget, slift.
    change (e_index e1) with (e_index e). rewrite Ei. by eexists. }
  rewrite (bind_ok _ _ _ _ _ E2). unfold sbind, smodify. eexists. split; [reflexivity|].
  unfold auto_tier_check. repeat case_match; done.
Qed.

Lemma fits_inside data offset x rest : from_offset data offset (with_len x ++ rest) -> in_u32 (len data) -> in_u32 (len x).
Proof.
  unfold with_len. intros (pre & -> & _). rewrite !len_app. pose proof (len_nonneg pre). pose proof (len_nonneg x).
  pose proof (len_nonneg rest). pose proof (len_nonneg (le_bytes 4 (len x))). int_lia.
Qed.

(** The fixed sections, in order; [tail] is what follows them. *)
Lemma restore_head K MD blob reg tail data (e : Engine) :
  data = text "VAL1" ++ with_len K ++ with_len MD ++ with_len blob ++ text "NSRG" ++ with_len (registry_to_json reg) ++ tail ->
  in_u32 (len data) ->
  exists offset, from_offset data offset tail
    /\ restore new_index data e
       = (restore_from_components new_index K MD (Some blob) (Some reg) ;;; restore_trailing_sections (S (length data)) data offset) e.
Proof.
  intros Hdata Hlen. assert (from_offset data 0 data) as D0 by (by exists []). rewrite Hdata in D0 at 2.
  assert (window data 0 4 = text "VAL1") as Hmagic by (by apply (window_here _ _ (text "VAL1") _ D0)).
  pose proof (from_offset_skip _ _ _ _ D0) as D1. change (0 + len (text "VAL1")) with 4 in D1.
  destruct (with_len_here _ _ _ _ D1 (fits_inside _ _ _ _ D1 Hlen)) as (K1 & K2 & _ & D2).
  destruct (with_len_here _ _ _ _ D2 (fits_inside _ _ _ _ D2 Hlen)) as (M1 & M2 & _ & D3).
  destruct (with_len_here _ _ _ _ D3 (fits_inside _ _ _ _ D3 Hlen)) as (I1 & _ & I2 & D4).
  pose proof (from_offset_fits _ _ _ _ I2) as I3. apply window_here in I2.
  pose proof (window_here _ _ (text "NSRG") _ D4) as N0. pose proof (from_offset_fits _ _ (text "NSRG") _ D4) as N1.
  pose proof (from_offset_skip _ _ (text "NSRG") _ D4) as D5. change (len (text "NSRG")) with 4 in *.
  destruct (with_len_here _ _ _ _ D5 (fits_inside _ _ _ _ D5 Hlen)) as (N2 & N3 & _ & D6).
  eexists. split; [exact D6|]. unfold restore.
  assert (16 <= len data) as H16.
  { rewrite Hdata, !len_app. unfold with_len. rewrite !len_app. unfold len in *. rewrite !length_le_bytes. simpl. lia. }
  rewrite (proj2 (Z.ltb_ge _ _)) by done. rewrite Hmagic, bool_decide_true by done.
  unfold sbind at 1, sguard at 1, sret at 1. unfold sbind at 1, sguard at 1, sret at 1. cbn [negb].
  unfold slift. unfold sbind at 1. rewrite K1. unfold sbind at 1. cbn [fst snd]. rewrite K2.
  unfold sbind at 1. cbn [fst snd]. rewrite M1. unfold sbind at 1. cbn [fst snd]. rewrite M2.
  unfold sbind at 1. cbn [fst snd]. rewrite I1. cbn [fst snd]. rewrite (proj2 (Z.leb_le _ _)), I2 by done.
  unfold sbind at 1, restore_registry. rewrite (proj2 (Z.leb_le _ _)), N0, bool_decide_true by done. cbn [andb].
  rewrite N2. cbn [obind fst snd]. rewrite N3. cbn [obind fst snd]. rewrite registry_json_ok. done.
Qed.

(** The two trailing sections. *)
Lemma restore_tail fuel data offset created r (e : Engine) :
  from_offset data offset (text "CRTS" ++ with_len (put_created created) ++ text "BCRP" ++ with_len (put_corpus (snapshot_corpus r))) ->
  in_u32 (len data) -> reranker_ok r ->
  restore_trailing_sections (S (S fuel)) data offset e = (e_set_reranker r (e_set_created_at created e), Ok tt).
Proof.
  intros D6 Hlen Hr. destruct (trailing_step (S fuel) data _ (text "CRTS") (put_created created) _ e D6) as [-> D7];
    [done|by eapply fits_inside, Hlen; eapply (from_offset_skip _ _ (text "CRTS")), D6|].
  rewrite <- (app_nil_r (with_len (put_corpus _))) in D7.
  destruct (trailing_step fuel data _ (text "BCRP") (put_corpus (snapshot_corpus r)) []
              (restore_section (text "CRTS") (put_created created) e) D7) as [-> D8];
    [done|by eapply fits_inside, Hlen; eapply (from_offset_skip _ _ (text "BCRP")), D7|].
  rewrite (trailing_end _ _ _ _ D8). f_equal. unfold restore_section at 2. rewrite bool_decide_true, created_ok by done.
  unfold restore_section. rewrite bool_decide_false, bool_decide_true, corpus_ok by done. unfold snapshot_corpus.
  f_equal. apply reranker_determined; [apply restore_corpus_ok|done|by apply restore_corpus_ok].
Qed.

(** C9: Let an engine have a well-formed kernel state that fits the snapshot
    format (no deleted node or edge slot, nodes that point to allocated records,
    counts, dimension and blobs within the decoder's caps) and a consistent
    reranker, and let it write a snapshot of less than 4 GiB. Then any engine
    whose index reads the index section restores it: state (up to what a kernel
    snapshot keeps), metadata, collection registry, creation times and keyword
    corpus come back exactly, and the event log of the restoring engine is left
    alone. *)
Theorem engine_snapshot_roundtrip (e e' : Engine) (data : list Z) :
  kernel_wf (e_state e) -> snapshotable (e_state e) -> reranker_ok (e_reranker e) ->
  engine_snapshot e = Ok data -> in_u32 (len data) ->
  (forall blob, ix_snapshot (e_index e) = Some blob -> index_reads blob e') ->
  exists e2, restore new_index data e' = (e2, Ok tt)
    /\ e_state e2 = restored (e_state e) /\ e_metadata e2 = e_metadata e /\ e_namespaces e2 = e_namespaces e
    /\ e_created_at e2 = e_created_at e /\ e_reranker e2 = e_reranker e /\ e_persistence e2 = e_persistence e'.
Proof.
  intros Hwf Hsn Hrk Hs Hlen Hix. unfold engine_snapshot in Hs.
  destruct (ix_snapshot (e_index e)) as [blob|]; [|done]. cbn [ok_or obind] in Hs. apply ok_inj in Hs as Hdata.
  assert (decode_state (encode_state (e_state e)) = Ok (restored (e_state e))) as Hk.
  { unfold decode_state. rewrite <- (app_nil_r (encode_state _)). by rewrite (reads_state _ Hwf Hsn []). }
  destruct (restore_head _ _ blob _ _ data e' (eq_sym Hdata) Hlen) as (offset & Htail & ->).
  destruct (components_ok _ _ (e_metadata e) blob (e_namespaces e) e' Hk (Hix blob eq_refl)) as (e1 & E1 & F1 & F2 & F3 & F4 & _).
  rewrite (bind_ok _ _ _ _ _ E1). assert (exists fuel, S (length data) = S (S fuel)) as [fuel ->].
  { exists (pred (length data)). rewrite <- Hdata, length_app. simpl. lia. }
  rewrite (restore_tail fuel data offset _ _ e1 Htail Hlen Hrk). eexists. split; [reflexivity|]. done.
Qed.
End RoundTrip.

(** ** Concrete runs *)
#[local] Existing Instance FixedInt.bincode.
#[local] Existing Instance PlainVault.

(** A node with the demo kernel, a collection, a document and a creation time. *)
Definition saved_node : DemoEngine :=
  e_set_reranker (reranker_insert (fun w => [w]) 0 [104; 105] reranker_new)
    (e_set_created_at {[0 := 99]} (e_set_namespaces (registry_create [97] registry_new).1
       (e_set_metadata {[ [107] := [118] ]} (e_set_state demo_state (started demo_cfg ∅))))).
Definition saved_bytes : list Z := match engine_snapshot saved_node with Ok data => data | _ => [] end.

Lemma engine_snapshot_roundtrip_witness :
  exists e2, restore demo_index saved_bytes (started demo_cfg ∅) = (e2, Ok tt)
    /\ e_state e2 = restored (e_state saved_node) /\ e_metadata e2 = e_metadata saved_node
    /\ e_namespaces e2 = e_namespaces saved_node /\ e_created_at e2 = e_created_at saved_node
    /\ e_reranker e2 = e_reranker saved_node /\ e_persistence e2 = e_persistence (started demo_cfg ∅).
Proof.
  assert (kernel_wf (e_state saved_node)) as Hwf by apply (reachable_kernel_wf demo_state demo_state_reachable).
  assert (reranker_ok (e_reranker saved_node)) as Hrk.
  { apply (reranker_step_ok (fun w => [w]) reranker_new (RInsert 0 [104; 105])), reranker_new_ok. }
  assert (engine_snapshot saved_node = Ok saved_bytes) as Hs by (vm_compute; reflexivity).
  assert (in_u32 (len saved_bytes)) as Hl by in_range.
  assert (forall blob, ix_snapshot (e_index saved_node) = Some blob -> index_reads blob (started demo_cfg ∅)) as Hi
    by (intros blob _ _; eexists; reflexivity).
  exact (engine_snapshot_roundtrip demo_index saved_node (started demo_cfg ∅) saved_bytes Hwf demo_snapshotable Hrk Hs Hl Hi).
Defined.

Lemma restore_total_witness :
  match (restore demo_index (text "VAL1" ++ replicate 20 7) (started demo_cfg ∅)).2 with
  | Ok _ | Err _ => True | Panic | Hang => False
  end.
Proof.
  assert (bytes (text "VAL1" ++ replicate 20 7)) as Hb by (vm_compute; repeat constructor; discriminate).
  exact (restore_total demo_index _ (started demo_cfg ∅) Hb).
Defined.
