(* ===== verification/EngineTheorems.v ===== *)
(** * Restarting the engine

    What is left of the files when an engine goes away, what the next one finds,
    and what it does with them. *)

From stdpp Require Import gmap strings.
From S2P Require Import Prelude.
From S2P Require Import Hoare.
From S2P Require Import Core.
From S2P Require Import Fxp.
From S2P Require Import TopK.
From S2P Require Import Records.
From S2P Require Import Graph.
From S2P Require Import Index.
From S2P Require Import Event.
From S2P Require Import Kernel.
From S2P Require Import KernelRel.
From S2P Require Import Bytes.
From S2P Require Import Snapshot.
From S2P Require Import StateProof.
From S2P Require Import EventCodec.
From S2P Require Import Wire.
From S2P Require Import WireTheorems.
From S2P Require Import EventLog.
From S2P Require Import EventLogTheorems.
From S2P Require Import EventCommit.
From S2P Require Import Rotation.
From S2P Require Import CommitProofs.
From S2P Require Import CommitTheorems.
From S2P Require Import RotationTheorems.
From S2P Require Import Registry.
From S2P Require Import Wal.
From S2P Require Import F32.
From S2P Require Import HostIndex.
From S2P Require Import Reranker.
From S2P Require Import Vault.
From S2P Require Import Engine.
From S2P Require Import EngineProofs.
From S2P Require Import EngineRuns.

(** ** Replay from a kernel that has not learnt its dimension *)

(** No encrypted insert comes before the first plain one. *)
Fixpoint plain_first (events : list KernelEvent) : bool :=
  match events with
  | [] => true
  | e :: events => inserts_plain e || (negb (inserts_encrypted e) && plain_first events)
  end.

Lemma replay_behind d hist s t s' :
  behind d s t -> replay_from hist s = (s', Ok tt) -> ks_version s + len hist <= u64_MAX - 1 ->
  t = s \/ plain_first (snd <$> hist) = true ->
  exists t', replay_from hist t = (t', Ok tt) /\ behind d s' t'
    /\ (t = s \/ existsb inserts_plain (snd <$> hist) = true -> t' = s').
Proof.
  revert s t. induction hist as [|[ns e] hist IH]; intros s t Hb Hr Hv Hp; cbn [replay_from] in *.
  { injection Hr as <-. exists t. split; [done|]. split; [done|]. by intros [? | ?]. }
  rewrite len_cons in Hv. pose proof (len_nonneg hist) as Hl. unfold sbind in *.
  pose proof (apply_counts e ns s ltac:(lia)) as Hc. pose proof (apply_behind d e ns s t Hb ltac:(lia)) as Hab.
  destruct (apply_event_ns e ns s) as [s1 [[]|k| |]] eqn:Ea; try done. simpl in Hab, Hc. specialize (Hab eq_refl).
  pose proof Hb as [Hd [-> | Et]].
  { rewrite Ea in *. destruct Hab as (_ & Hb1 & _); [done|].
    destruct (IH s1 s1 Hb1 Hr) as (t' & E1 & Hb' & Hs'); [lia|by left|]. exists t'. split; [done|]. split; [done|].
    intros _. apply Hs'. by left. }
  assert (t <> s) as Hne by (intros ->; apply (f_equal ks_dim) in Et; simpl in Et; congruence).
  destruct Hp as [Hp | Hp]; [done|]. csimpl in Hp. destruct Hab as (Eo & Hb1 & Hpl); [intros He; exfalso; by destruct e|].
  destruct (apply_event_ns e ns t) as [t1 o]. simpl in *. subst o.
  assert (t1 = s1 \/ plain_first (snd <$> hist) = true) as Hor.
  { destruct (inserts_plain e); [left; by apply Hpl|right]. by apply andb_prop in Hp as [_ ?]. }
  destruct (IH s1 t1 Hb1 Hr ltac:(lia) Hor) as (t' & E1 & Hb' & Hs'). exists t'. split; [done|]. split; [done|].
  intros [? | Hex]; [done|]. apply Hs'. csimpl in Hex. apply orb_prop in Hex as [Hex | Hex]; [left; by apply Hpl|by right].
Qed.

Section Restart.
Context `{BincodeLaws} (blake3 : list Z -> list Z) (crc32 : list Z -> Z) (simd : SimdPath).
Context `{EngineCodecLaws} {I : Type} `{VectorIndex I} (new_index : IndexKind -> Z -> I).
Context {V R : Type} `{KeyVault V R}.
Context (blake3_hash : forall m, hash_typed (blake3 m)) (crc32_u32 : forall m, in_u32 (crc32 m)) (fit : checkpoints_fit).

Local Abbreviation Engine := (Engine (I := I) (V := V)).
Local Abbreviation EM A := (M EngineError Engine A).
Local Abbreviation mirrors := (mirrors blake3 crc32).
Local Abbreviation log_inv := (log_inv blake3 crc32).

(** ** A new engine *)
Lemma with_rotation_fields limit c :
  c_log (with_rotation limit c) = c_log c /\ c_journal (with_rotation limit c) = c_journal c
  /\ c_live_state (with_rotation limit c) = c_live_state c /\ c_write_buf (with_rotation limit c) = c_write_buf c.
Proof. unfold with_rotation. by destruct limit. Qed.

(** The invariant looks at these four fields only. *)
Lemma log_inv_fields s0 path d n c c' :
  log_inv s0 path d n c -> c_log c' = c_log c -> c_journal c' = c_journal c -> c_live_state c' = c_live_state c ->
  c_write_buf c' = c_write_buf c -> log_inv s0 path d n c'.
Proof.
  intros [(arch & hd & hdr & es & [[[Hl Hfl Hpd] Hr Hj Hb] Ha Hv] & Hn & Hd) Hp Hlen Hver] E1 E2 E3 E4.
  split; rewrite ?E1, ?E2, ?E3; try done. exists arch, hd, hdr, es. split_and!; try done.
  split; [|by rewrite E1|done]. split; unfold history; rewrite ?E2, ?E3, ?E4; try done. split; by rewrite ?E1, ?E4.
Qed.

Lemma with_dim_eq d : 1 <= d -> KernelState_with_dim d = ks_set_dim (Some d) KernelState_new.
Proof. intros Hd. unfold KernelState_with_dim. by rewrite (proj2 (Z.ltb_lt 0 d)) by lia. Qed.

Lemma start_mirrors cfg (vault : V) fs path :
  cfg_event_log_path cfg = Some path -> unused fs path -> named_log path -> 1 <= cfg_dim cfg <= WIRE_MAX_DIM ->
  fs !! registry_file path = None ->
  exists e0 c0, with_config blake3 crc32 new_index cfg vault fs = Ok e0
    /\ mirrors (KernelState_with_dim (cfg_dim cfg)) path (cfg_dim cfg) 0 c0 e0.
Proof.
  intros Hpath Hun Hnm Hd Hreg. unfold with_config, open_persistence. rewrite Hpath.
  assert (wrap_u32 (cfg_dim cfg) = cfg_dim cfg) as -> by (apply wrap_u32_small; unfold WIRE_MAX_DIM in *; int_lia).
  pose proof (fresh_rotation_inv blake3 crc32 path (cfg_dim cfg) 1 None fs Hun Hnm Hd) as [[[Hl Hfl Hpd] _ _ _] Har Hv].
  rewrite with_dim_eq by lia. unfold open_writer, sbind, sget, smodify, sret. rewrite (proj1 Hun). cbn [obind].
  set (log := mkLog _ _). set (c0 := committer_new log journal_new _).
  destruct (with_rotation_fields (cfg_event_log_rotation_bytes cfg) c0) as (E1 & E2 & E3 & E4).
  eexists _, _. split; [reflexivity|]. split.
  - done.
  - apply (log_inv_fields _ _ _ _ c0); try done. split; [|done|exact (Z.le_refl 0)..].
    eexists [], _, _, []. split; [split; [|exact Har|done]|split; [exact (Z.le_refl 0)|done]]. split; [|done|done|done]. by split.
  - rewrite E3. by destruct (initial_kind cfg).
  - destruct (initial_kind cfg); exact (Z.le_refl 0).
  - done.
  - apply registry_wf_new.
  - unfold sidecar_ok. rewrite E1. assert (registry_file path <> path) as Hne by (by apply (outside_extension path 110)).
    subst log. cbn [c_log c0 committer_new lg_fs]. unfold fs_append. by rewrite !lookup_insert_ne, Hreg by done.
Qed.

(** ** The files an engine leaves *)
Record left_by (s0 : KernelState) (path : name) (d n : Z) (s : KernelState) (events : list KernelEvent) (fs : Fs) : Prop := {
  lb_log : exists c, log_inv s0 path d n c /\ lg_fs (c_log c) = fs /\ c_write_buf c = [] /\ c_live_state c = s
           /\ j_committed (c_journal c) = events;
}.

Lemma log_inv_memory s0 path d n c c' arch hd hdr es :
  log_inv s0 path d n c -> tracked blake3 crc32 s0 (sealed_history arch) hd hdr c' es -> archived blake3 crc32 (c_log c) arch hd ->
  version hd = VERSION_V4 -> dim hd = d -> Z.of_nat (length arch) <= n -> same_memory c c' -> log_inv s0 path d n c'.
Proof.
  intros [_ Hp Hlen Hver] Htr Har Hv Hd Hn (El & Ej & _ & Hf).
  split; [exists arch, hd, hdr, es; split_and!; try done; split; [done|by eapply archived_framed|done]| | |].
  - by rewrite (proj1 Hf).
  - by rewrite Ej.
  - by rewrite El.
Qed.

Lemma drop_leaves s0 path d n c (e : Engine) now :
  mirrors s0 path d n c e -> in_u64 now ->
  left_by s0 path d n (c_live_state c) (events_of e) (drop_engine blake3 crc32 now e)
  /\ sidecar_ok path (drop_engine blake3 crc32 now e) (e_namespaces e).
Proof.
  intros [Hp Hl Hs Hv Hpath Hreg Hside] Hnow. unfold drop_engine, events_of. rewrite Hp.
  pose proof Hl as [(arch & hd & hdr & es & [[Hst Hr Hj Hb] Har Hver] & Hn & Hd) Hpth _ _].
  destruct (flush_pending_ok blake3 crc32 blake3_hash hd hdr c es now Hst Hnow) as (c1 & es1 & -> & Hst1 & Hw1 & Eh1 & Hm1).
  cbn [fst]. pose proof Hm1 as (El1 & Ej1 & Er1 & Hf1).
  assert (tracked blake3 crc32 s0 (sealed_history arch) hd hdr c1 es1) as Htr1 by (split; rewrite ?Eh1, ?El1, ?Ej1; done).
  destruct (drop_tracked blake3 crc32 s0 _ hd hdr c1 es1 now blake3_hash Htr1 Hnow) as (c2 & es2 & -> & Htr2 & Hw2 & Hm2).
  assert (same_memory c c2) as Hm.
  { destruct Hm2 as (El2 & Ej2 & Er2 & Hf2). split_and!; try congruence. by etrans. }
  split; [split; exists c2|].
  - split; [by eapply (log_inv_memory s0 path d n c c2 arch)|]. destruct Hm as (-> & -> & _). done.
  - unfold sidecar_ok. destruct Hm as (_ & _ & _ & _ & Hfr). rewrite Hfr; [done|]. rewrite Hpth.
    apply (outside_extension path 110); [by eapply log_inv_named|done].
Qed.

(** What recovery makes of a history that led from [s0] to [s]. *)
Definition replays_to (s0 s : KernelState) (events : list KernelEvent) (n : Z) (P : KernelState -> Prop) : Prop :=
  forall hist, replay_from hist s0 = (s, Ok tt) -> snd <$> hist = events ->
    exists s', replay_from hist KernelState_new = (s', Ok tt) /\ ks_version s' <= n /\ P s'.

(** The log is read back, and opened again where it ended. *)
Lemma left_reads s0 path d n s events fs listing (P : KernelState -> Prop) :
  left_by s0 path d n s events fs -> lists fs listing -> replays_to s0 s events n P ->
  exists s', P s' /\ recover_from_events blake3 crc32 fs listing path = Ok (s', from_committed events, len events)
  /\ exists w, open_writer blake3 crc32 path (Some d) fs = (fs, Ok w) /\ lw_path w = path /\ lw_dim w = d
       /\ lw_buf w = [] /\ lw_file w = path /\ is_Some (fs !! path)
       /\ log_inv KernelState_new path d n (committer_new (mkLog fs w) (from_committed events) s').
Proof.
  intros [(c & [(arch & hd & hdr & es & [[[Hl Hfl Hpd] Hr Hj Hb] Har Hver] & Hn & Hd) Hp Hlen Hv] & <- & Hw & <- & <-)] Hlist Hrep.
  assert (forall c', c_write_buf c' = [] -> history c' es = omap routed es) as Eh
    by (intros c' Hc'; unfold history; rewrite Hc'; by rewrite app_nil_r).
  rewrite Eh in Hr, Hj by done. destruct (Hrep _ Hr (eq_sym Hj)) as (s' & Es & Hv' & HP). exists s'. split; [done|].
  pose proof Hl as [Hf (f & Hlk & Efb) Hps Hln Hpv Hwv Hlkd Hhead Hvv Hdm Hsq]. rewrite Hfl, app_nil_r in Efb. rewrite Hp in *.
  split.
  - unfold recover_from_events, recover_from_event_log. rewrite <- Hp.
    rewrite (read_all_ok blake3 crc32 crc32_u32 _ _ _ _ _ _ Hl Har Hfl Hlist). cbn [obind].
    unfold all_entries. rewrite omap_app. fold (sealed_history arch). unfold replay_events. rewrite Es. cbn [obind map_err].
    rewrite <- Hj. do 2 f_equal. unfold len. by rewrite Hj, length_fmap.
  - eexists. split.
    { unfold open_writer, sbind, sget. rewrite Hlk, Efb, <- (app_nil_r (body _ _ _)), <- Hd.
      unfold slift. rewrite open_segment; [reflexivity|done|by eapply holds_segment|by left]. }
    split_and!; try done. split; [|done|done|done]. exists arch, hd, hdr, es. split_and!; try done. split; [| |done].
    + split; [|by rewrite Eh by done|by rewrite Eh by done|done]. split; [|done|constructor].
      split; try done. exists f. simpl. by rewrite app_nil_r, Efb, Hlk, Efb.
    + destruct Har as [Hs' Hsp Hq Ho Hnm Hdm' Hcnt]. rewrite Hp in *. by split.
Qed.

(** ** The next engine *)
Lemma silent_trans (e1 e2 e3 : Engine) : silent e1 e2 -> silent e2 e3 -> silent e1 e3.
Proof. intros (?&?&?&?) (?&?&?&?). split_and!; congruence. Qed.

Lemma silent_reindex (e : Engine) : silent e (reindex new_index e).
Proof. unfold reindex. eapply silent_trans; [|by split_and!]. eapply silent_trans; [|apply silent_auto_tier]. done. Qed.

Lemma silent_load_metadata (e : Engine) : silent e (load_metadata e).
Proof. unfold load_metadata, restore_metadata. repeat case_match; done. Qed.

(** Loading the sidecars: the registry is the one that was flushed. *)
Lemma reload_registry path c (e : Engine) reg :
  cfg_event_log_path (e_cfg e) = Some path -> e_persistence e = PEventLog c -> sidecar_ok path (lg_fs (c_log c)) reg ->
  e_namespaces e = registry_new ->
  e_cfg (reload e) = e_cfg e /\ e_state (reload e) = e_state e /\ e_persistence (reload e) = e_persistence e
  /\ e_namespaces (reload e) = reg.
Proof.
  intros Hpath Hp Hside Hreg. unfold reload, ignored. set (e1 := sync_metadata_from_state (load_metadata e)).
  assert (silent e e1) as (F1 & F2 & F3 & F4) by (eapply silent_trans; [apply silent_load_metadata|done]).
  clearbody e1.
  unfold load_namespaces, sbind, sget, namespaces_path. rewrite F1, Hpath. cbn [fmap option_fmap option_map].
  fold (registry_file path). unfold eng_fs. rewrite F3, Hp. unfold sidecar_ok in Hside.
  destruct (lg_fs (c_log c) !! registry_file path) as [bs|]; [rewrite Hside|]; simpl; split_and!; congruence.
Qed.

Lemma restart_ok s0 path d n s events fs reg listing now cfg (vault : V) (P : KernelState -> Prop) :
  left_by s0 path d n s events fs -> sidecar_ok path fs reg -> registry_wf reg -> lists fs listing ->
  cfg_event_log_path cfg = Some path -> wrap_u32 (cfg_dim cfg) = d -> events <> [] -> replays_to s0 s events n P ->
  exists e1 e2 c2, with_config blake3 crc32 new_index cfg vault fs = Ok e1
    /\ try_recover blake3 crc32 new_index listing now e1 = (e2, Ok (REventLog (len events)))
    /\ mirrors KernelState_new path d n c2 e2 /\ P (e_state e2) /\ e_namespaces e2 = reg /\ events_of e2 = events.
Proof.
  intros Hleft Hside Hwf Hlist Hpath Hd Hne Hrep.
  destruct (left_reads s0 path d n s events fs listing P Hleft Hlist Hrep) as (s' & HP & Erec & w & Eop & Ewp & Ewd & Ewb & Ewf & [f Hf] & Hl).
  unfold with_config, open_persistence. rewrite Hpath, Hd, Eop. cbn [obind].
  set (c1 := with_rotation _ _). destruct (with_rotation_fields (cfg_event_log_rotation_bytes cfg)
    (committer_new (mkLog fs w) journal_new (KernelState_with_dim (cfg_dim cfg)))) as (E1 & _ & _ & E4). fold c1 in E1, E4.
  set (e1 := mkEngine _ _ _ _ _ _ _ _ _ _ _ _ _). exists e1.
  set (e2 := e_set_persistence (PEventLog (committer_new (mkLog fs w) (from_committed events) s')) fs
               (e_set_state s' (e_set_persistence PEphemeral fs e1))).
  exists (reload (reindex new_index e2)), (committer_new (mkLog fs w) (from_committed events) s'). split; [done|].
  assert (drop_committer blake3 crc32 now c1 = fs) as Edrop.
  { unfold drop_committer, flush_pending, sbind at 1, sget. rewrite E4. cbn [committer_new c_write_buf sret fst]. rewrite E1.
    unfold bw_flush, smodify, fs_append. cbn [fst lg_fs lg_writer c_log committer_new]. rewrite Ewb, app_nil_r, Ewf, Hf.
    by apply insert_id. }
  assert (recover_log blake3 crc32 new_index listing now e1
          = (reload (reindex new_index e2), Ok (Some (REventLog (len events))))) as Elog.
  { unfold recover_log. cbn [e_persistence e1 event_committer]. unfold eng_fs. cbn [e_persistence e1]. rewrite E1.
    cbn [c_log committer_new lg_fs lg_writer]. rewrite Ewp, Hf. cbn [negb].
    rewrite bool_decide_true by (by eexists). cbn [negb]. rewrite Erec.
    rewrite (proj2 (Z.eqb_neq _ 0)); [|destruct events; [done|rewrite len_cons; pose proof (len_nonneg events); lia]].
    rewrite Edrop. cbn [e_fs e_set_persistence]. by rewrite Ewd, Eop. }
  split; [unfold try_recover; by rewrite (bind_ok _ _ _ _ _ Elog)|].
  destruct (silent_reindex e2) as (F1 & F2 & F3 & F4).
  destruct (reload_registry path (committer_new (mkLog fs w) (from_committed events) s') (reindex new_index e2) reg)
    as (G1 & G2 & G3 & G4); [by rewrite F1|by rewrite F3|done|by rewrite F4|].
  split; [|split_and!; [by rewrite G2, F2|done|unfold events_of; by rewrite G3, F3]].
  split; [by rewrite G3, F3|done|by rewrite G2, F2|rewrite G2, F2; apply Hl|by rewrite G1, F1|by rewrite G4|by rewrite G4].
Qed.

(** ** What the replay finds *)
Lemma replay_version hist s s' :
  replay_from hist s = (s', Ok tt) -> ks_version s + len hist <= u64_MAX - 1 -> ks_version s' = ks_version s + len hist.
Proof.
  revert s. induction hist as [|[ns e] hist IH]; intros s Hr Hv; cbn [replay_from] in *; [injection Hr as <-; unfold len; simpl; lia|].
  rewrite len_cons in *. pose proof (len_nonneg hist). pose proof (apply_counts e ns s ltac:(lia)) as Hc. unfold sbind in Hr.
  destruct (apply_event_ns e ns s) as [s1 [[]|k| |]]; try done. simpl in Hc. rewrite (IH s1 Hr) by lia. lia.
Qed.

(** The same contents, and the dimension once a vector was inserted. *)
Definition recovered (s : KernelState) (events : list KernelEvent) (s' : KernelState) : Prop :=
  contents s' = contents s /\ (existsb inserts_plain events = true -> ks_dim s' = ks_dim s).

Lemma replays_fresh d n s (events : list KernelEvent) :
  1 <= d -> plain_first events = true -> len events <= n -> n <= u32_MAX ->
  replays_to (KernelState_with_dim d) s events n (recovered s events).
Proof.
  intros Hd Hp Hl Hn hist Hr <-. rewrite with_dim_eq in Hr by done.
  assert (len (snd <$> hist) = len hist) as El by (unfold len; by rewrite length_fmap). rewrite El in Hl.
  pose proof (len_nonneg hist) as Hnn.
  destruct (replay_behind d hist (ks_set_dim (Some d) KernelState_new) KernelState_new s) as (s' & E1 & Hb & Hs).
  - split; [done|by right].
  - done.
  - change (0 + len hist <= u64_MAX - 1). unfold u32_MAX, u64_MAX in *. lia.
  - by right.
  - exists s'. split; [done|]. split.
    + apply replay_version in E1; change (ks_version KernelState_new) with 0 in *; unfold u32_MAX, u64_MAX in *; lia.
    + split; [by destruct Hb as [_ [-> | ->]]|]. intros He. rewrite Hs; [done|by right].
Qed.

Lemma replays_again n s events : ks_version s <= n -> replays_to KernelState_new s events n (fun s' => s' = s).
Proof. intros Hv hist Hr _. by exists s. Qed.
End Restart.

Section EngineTheorems.
Context `{BincodeLaws} (blake3 : list Z -> list Z) (crc32 : list Z -> Z).
Context `{EngineCodecLaws} {I : Type} `{VectorIndex I} (new_index : IndexKind -> Z -> I).
Context {V R : Type} `{KeyVault V R}.

(** A configuration and a directory that a node starts from. *)
Record fresh_node (cfg : EngineConfig) (path : name) (fs : Fs) : Prop := {
  fn_path : cfg_event_log_path cfg = Some path;
  fn_named : named_log path;
  fn_unused : unused fs path;
  fn_registry : fs !! registry_file path = None;
  fn_dim : 1 <= cfg_dim cfg <= WIRE_MAX_DIM;
}.

(** C7: Start a node on an unused log, run any admissible sequence of handler
    calls (inserts, batches made with an empty write buffer, encrypted inserts,
    shreds, metadata, nodes, edges, deletions, collections, snapshots; failing
    calls included; at any rotation limit), drop it and start it again: recovery
    reads the event log to the end and finds the records, graph, lists, keys and
    metadata the node had, its collection registry and its committed events, and
    the dimension as soon as one vector was inserted. Condition: the first insert
    is not an encrypted one. *)
Theorem engine_restart_recovers (cfg : EngineConfig) (vault vault' : V) (fs : Fs) (path : name)
    (listing : list name) (now now' : Z) (ops : list (engine_op (R := R))) e0 :
  (forall m, hash_typed (blake3 m)) -> (forall m, in_u32 (crc32 m)) -> checkpoints_fit ->
  fresh_node cfg path fs -> in_u64 now ->
  with_config blake3 crc32 new_index cfg vault fs = Ok e0 ->
  all_admissible blake3 crc32 new_index path ops e0 -> total_weight ops <= u32_MAX ->
  let e := run_engine blake3 crc32 new_index ops e0 in
  let files := drop_engine blake3 crc32 now e in
  events_of e <> [] -> plain_first (events_of e) = true -> lists files listing ->
  exists e1 e2, with_config blake3 crc32 new_index cfg vault' files = Ok e1
    /\ try_recover blake3 crc32 new_index listing now' e1 = (e2, Ok (REventLog (len (events_of e))))
    /\ recovered (e_state e) (events_of e) (e_state e2)
    /\ e_namespaces e2 = e_namespaces e /\ events_of e2 = events_of e.
Proof.
  intros Hb Hc Hfit [Hpath Hnm Hun Hreg Hd] Hnow Estart Hops Hw e files Hne Hpl Hlist.
  destruct (start_mirrors blake3 crc32 new_index cfg vault fs path Hpath Hun Hnm Hd Hreg) as (e0' & c0 & E0 & Hi0).
  assert (e0' = e0) as -> by congruence.
  destruct (run_mirrors blake3 crc32 new_index Hb Hfit _ path _ 0 c0 e0 ops Hi0 Hops) as (c & Hi); [lia|]. fold e in Hi.
  destruct (drop_leaves blake3 crc32 Hb _ path _ _ c e now Hi Hnow) as [Hleft Hside].
  assert (len (events_of e) <= 0 + total_weight ops) as Hlen.
  { unfold events_of. rewrite (mi_committer _ _ _ _ _ _ _ _ Hi). apply Hi. }
  destruct (restart_ok blake3 crc32 new_index Hc _ path (cfg_dim cfg) _ _ (events_of e) files (e_namespaces e) listing now' cfg vault'
              (recovered (c_live_state c) (events_of e)) Hleft Hside) as (e1 & e2 & c2 & E1 & E2 & _ & [HP1 HP2] & Hns & Hev);
    [apply Hi|done|done|apply wrap_u32_small; unfold WIRE_MAX_DIM in *; int_lia|done|apply replays_fresh; (done || lia)|].
  exists e1, e2. split; [done|]. split; [done|]. split; [|done]. pose proof (mi_same _ _ _ _ _ _ _ _ Hi) as [Hs1 Hs2].
  split; [by rewrite Hs1|by rewrite Hs2].
Qed.

(** C8: Whatever admissible calls went before, one more commit_and_apply_ns
    does exactly what the kernel's verdict on the engine's own state says: if the
    kernel accepts the event, the call succeeds, the engine's state is the
    kernel's next state, the committer's live state holds the same data and the
    event is the next committed one; if it rejects it, the caller gets the
    kernel's error and nothing of the engine has changed, log and files included.
    *)
Theorem engine_commit_atomic (cfg : EngineConfig) (vault : V) (fs : Fs) (path : name)
    (ops : list (engine_op (R := R))) e0 (t : Times) (ev : KernelEvent) (ns : Z) :
  (forall m, hash_typed (blake3 m)) -> checkpoints_fit -> fresh_node cfg path fs ->
  with_config blake3 crc32 new_index cfg vault fs = Ok e0 ->
  all_admissible blake3 crc32 new_index path ops e0 -> good t ns [ev] -> total_weight ops + 1 <= u32_MAX ->
  let e := run_engine blake3 crc32 new_index ops e0 in
  match apply_event_ns ev ns (e_state e) with
  | (s, Ok _) =>
      exists e' c, commit_and_apply_ns blake3 crc32 t ev ns e = (e', Ok tt) /\ e_state e' = s
        /\ events_of e' = events_of e ++ [ev] /\ e_persistence e' = PEventLog c /\ same_data s (c_live_state c)
  | (_, o) => commit_and_apply_ns blake3 crc32 t ev ns e = (e, map_err EKernel o)
  end.
Proof.
  intros Hb Hfit [Hpath Hnm Hun Hreg Hd] Estart Hops Hg Hw e.
  destruct (start_mirrors blake3 crc32 new_index cfg vault fs path Hpath Hun Hnm Hd Hreg) as (e0' & c0 & E0 & Hi0).
  assert (e0' = e0) as -> by congruence.
  destruct (run_mirrors blake3 crc32 new_index Hb Hfit _ path _ 0 c0 e0 ops Hi0 Hops) as (c & Hi); [lia|]. fold e in Hi.
  pose proof (commit_exact blake3 crc32 Hb Hfit _ path _ _ c e t ev ns Hi Hg) as Hstep. specialize (Hstep ltac:(lia)).
  destruct (apply_event_ns ev ns (e_state e)) as [s [[]|k| |]]; try done.
  destruct Hstep as (e' & c' & E1 & [Hp _ Hs _ _ _ _] & <- & Hev & _). by exists e', c'.
Qed.
End EngineTheorems.

(** ** Concrete runs *)
#[local] Existing Instance FixedInt.bincode.
#[local] Existing Instance FixedInt.laws.
#[local] Existing Instance PlainVault.

Lemma demo_node_fresh : fresh_node demo_cfg log_name ∅.
Proof. by split. Qed.

Local Abbreviation demo_node := (run_node node_ops (started demo_cfg ∅)).
Local Abbreviation demo_files := (drop_engine demo_hash toy_crc 17 demo_node).

Lemma engine_restart_recovers_witness :
  len (events_of demo_node) = 6
  /\ exists e1 e2, open_node demo_cfg demo_files = Ok e1
     /\ try_recover demo_hash toy_crc demo_index (reverse (fst <$> map_to_list demo_files)) 18 e1
        = (e2, Ok (REventLog (len (events_of demo_node))))
     /\ recovered (e_state demo_node) (events_of demo_node) (e_state e2)
     /\ e_namespaces e2 = e_namespaces demo_node /\ events_of e2 = events_of demo_node.
Proof.
  split; [vm_compute; reflexivity|].
  assert (open_node demo_cfg ∅ = Ok (started demo_cfg ∅)) as Hs by (vm_compute; reflexivity).
  assert (total_weight node_ops <= u32_MAX) as Hw by (vm_compute; discriminate).
  assert (in_u64 17) as Hnow by in_range.
  assert (events_of demo_node <> []) as Hne by (vm_compute; discriminate).
  assert (plain_first (events_of demo_node) = true) as Hp by (vm_compute; reflexivity).
  exact (engine_restart_recovers demo_hash toy_crc demo_index demo_cfg tt tt ∅ log_name
           (reverse (fst <$> map_to_list demo_files)) 17 18 node_ops (started demo_cfg ∅)
           demo_hash_typed toy_crc_u32 fixed_checkpoints_fit demo_node_fresh Hnow Hs node_ops_admissible Hw
           Hne Hp (directory_lists demo_files)).
Defined.

Lemma engine_commit_atomic_witness :
  commit_and_apply_ns demo_hash toy_crc (at_time 20) (DeleteRecord 9) 0 demo_node = (demo_node, Err (EKernel NotFound)).
Proof.
  assert (good (at_time 20) 0 [DeleteRecord 9]) as Hg by good_event.
  assert (open_node demo_cfg ∅ = Ok (started demo_cfg ∅)) as Hs by (vm_compute; reflexivity).
  assert (total_weight node_ops + 1 <= u32_MAX) as Hw by (vm_compute; discriminate).
  assert (apply_event_ns (DeleteRecord 9) 0 (e_state demo_node)
          = ((apply_event_ns (DeleteRecord 9) 0 (e_state demo_node)).1, Err NotFound)) as E1 by (vm_compute; reflexivity).
  pose proof (engine_commit_atomic demo_hash toy_crc demo_index demo_cfg tt ∅ log_name node_ops (started demo_cfg ∅)
                (at_time 20) (DeleteRecord 9) 0 demo_hash_typed fixed_checkpoints_fit demo_node_fresh Hs
                node_ops_admissible Hg Hw) as Hc.
  cbv zeta in Hc.
  rewrite E1 in Hc. exact Hc.
Defined.

(** ** Concrete runs of the engine that surprise

    Each theorem is a short run of the handlers on a node, evaluated. *)

#[local] Existing Instance FixedInt.bincode.
#[local] Existing Instance PlainVault.

(** Stop the node and start it again on the files it left. *)
Definition restarted (cfg : EngineConfig) (e : DemoEngine) : DemoEngine * outcome EngineError RecoveryMode :=
  let files := drop_engine demo_hash toy_crc 90 e in
  try_recover demo_hash toy_crc demo_index (fst <$> map_to_list files) 91 (started cfg files).

Definition ins (t : Z) : demo_op := OInsert (at_time t) t [f_one; f_two_half] 0.
Definition key7 : KeyId := replicate 16 7.

(** A concrete run: the first insert is an encrypted one, which the configured
    dimension allows; on restart the log is replayed from a kernel without a
    dimension, the replay fails, and the node starts empty. *)
Theorem encrypted_first_insert_lost :
  let e := run_node [OEncrypted (at_time 10) tt [1; 2; 3] 0 0 key7; ins 11] (started demo_cfg ∅) in
  record_count (e_state e) = 2 /\ len (events_of e) = 2
  /\ (restarted demo_cfg e).2 = Ok RFresh /\ record_count (e_state (restarted demo_cfg e).1) = 0.
Proof. vm_compute. done. Qed.

(** A concrete run: an insert, then a batch while the insert still waits in the
    write buffer.  The log holds them in the wrong order; on restart the replay
    fails and the node starts empty. *)
Theorem batch_after_insert_lost :
  let e := run_node [ins 10; OBatch (at_time 11) 11 [[f_one; f_one]] None 0 None] (started demo_cfg ∅) in
  record_count (e_state e) = 2 /\ len (events_of e) = 2
  /\ (restarted demo_cfg e).2 = Ok RFresh /\ record_count (e_state (restarted demo_cfg e).1) = 0.
Proof. vm_compute. done. Qed.

(** A concrete run: the id of a new edge is the number of live edges, the kernel
    wants the next slot; after one edge was deleted no edge can be created. *)
Theorem no_edge_after_deletion :
  let e := run_node [OCreateNode (at_time 10) None 0 0; OCreateNode (at_time 11) None 0 0; OCreateEdge (at_time 12) 0 1 0;
                     OCreateEdge (at_time 13) 1 0 0; ODeleteEdge (at_time 14) 0] (started demo_cfg ∅) in
  edge_count (e_state e) = 1
  /\ (engine_create_edge demo_hash toy_crc (at_time 15) 0 1 0 e).2 = Err (EKernel InvalidOperation).
Proof. vm_compute. done. Qed.

(** A concrete run: dropping a collection is applied to the engine's state and not
    logged; the record is back after a restart. *)
Theorem dropped_collection_returns :
  let e := run_node [OCreateCollection [97]; OInsert (at_time 10) 10 [f_one; f_one] 1] (started demo_cfg ∅) in
  (drop_collection [97] e).2 = Ok tt /\ record_count (e_state (drop_collection [97] e).1) = 0
  /\ record_count (e_state (restarted demo_cfg (drop_collection [97] e).1).1) = 1.
Proof. vm_compute. done. Qed.

(** A concrete run: creating a collection counts a version in the engine's state
    and is not logged; after a restart the state hash is another one. *)
Theorem restart_changes_state_hash :
  let e := run_node [OCreateCollection [97]; ins 10] (started demo_cfg ∅) in
  ks_version (e_state e) = 2 /\ ks_version (e_state (restarted demo_cfg e).1) = 1
  /\ state_hash_hex demo_hash (restarted demo_cfg e).1 <> state_hash_hex demo_hash e.
Proof. vm_compute. done. Qed.

(** A concrete run: recovery opens a new committer and forgets the configured
    rotation limit. *)
Theorem restart_forgets_rotation_limit :
  let e := run_node [ins 10] (started demo_cfg ∅) in
  (c_log_rotation_bytes <$> event_committer (e_persistence e)) = Some (Some 300)
  /\ (c_log_rotation_bytes <$> event_committer (e_persistence (restarted demo_cfg e).1)) = Some (Some DEFAULT_LOG_ROTATION_BYTES).
Proof. vm_compute. done. Qed.

(** A concrete run: two nodes of one record; deleting the first forgets the second,
    so that deleting the record leaves a node that points at it. *)
Theorem second_node_left_dangling :
  let e := run_node [ins 10; OCreateNode (at_time 11) (Some 0) 0 0; OCreateNode (at_time 12) (Some 0) 0 0;
                     ODeleteNode (at_time 13) 0] (started demo_cfg ∅) in
  let e' := (delete_record demo_hash toy_crc (at_time 14) (at_time 15) 0 e).1 in
  get_record (e_state e') 0 = None /\ (nd_record <$> get_node (e_state e') 1) = Some (Some 0).
Proof. vm_compute. done. Qed.

Definition hnsw_cfg : EngineConfig := mkConfig 2 100 100 100 KHnsw None None (Some log_name) None 1.

(** A concrete run: with an index other than brute force, a search in a collection
    filters the k best hits of all collections: even an exact index finds nothing
    although the collection has a record. *)
Theorem indexed_search_misses_collection :
  let ops := [OInsert (at_time 10) 10 [f_one; f_one] 0; OCreateCollection [97]; OInsert (at_time 11) 11 [f_one; f_two_half] 1] in
  engine_search_l2_ns Scalar (run_node ops (started hnsw_cfg ∅)) [f_one; f_one] 1 1 = Ok []
  /\ exists score, engine_search_l2_ns Scalar (run_node ops (started demo_cfg ∅)) [f_one; f_one] 1 1 = Ok [(1, score)].
Proof. split; [vm_compute; reflexivity|]. eexists. vm_compute. reflexivity. Qed.

(** A concrete run: a token that occurs twice in one batch is inserted twice. *)
Theorem token_twice_in_batch :
  let r := insert_batch_ns demo_hash toy_crc demo_index (at_time 10) 10 [[f_one; f_one]; [f_one; f_one]] None 0
             (Some [Some [1]; Some [1]]) (started demo_cfg ∅) in
  r.2 = Ok [0; 1] /\ record_count (e_state r.1) = 2.
Proof. vm_compute. done. Qed.

Definition wal_cfg : EngineConfig := mkConfig 2 100 100 100 KBruteForce None (Some [119]) None None 1.

(** A concrete run: the WAL backend writes an event before the kernel has seen it;
    a vector of the wrong dimension stays in the WAL, replay stops there, and the
    node reports a fresh start with half of its records. *)
Theorem rejected_insert_poisons_wal :
  let e := run_node [ins 10; OInsert (at_time 11) 11 [f_one] 0; ins 12] (started wal_cfg ∅) in
  record_count (e_state e) = 2
  /\ (restarted wal_cfg e).2 = Ok RFresh /\ record_count (e_state (restarted wal_cfg e).1) = 1.
Proof. vm_compute. done. Qed.

Definition snap_cfg : EngineConfig := mkConfig 2 100 100 100 KBruteForce (Some [115]) None (Some log_name) None 1.

(** A concrete run: a node that comes back from a snapshot, its log gone, has its
    records but an empty committer, which rejects every insert. *)
Theorem snapshot_recovery_blocks_inserts :
  let e := run_node [ins 10; OSnapshot None] (started snap_cfg ∅) in
  let files := delete log_name (drop_engine demo_hash toy_crc 90 e) in
  let r := try_recover demo_hash toy_crc demo_index (fst <$> map_to_list files) 91 (started snap_cfg files) in
  r.2 = Ok RSnapshot /\ record_count (e_state r.1) = 1
  /\ (insert_record_from_f32_ns demo_hash toy_crc demo_index (at_time 92) 92 [f_one; f_one] 0 r.1).2
     = Err (EKernel InvalidOperation).
Proof. vm_compute. done. Qed.
