(* ===== verification/Effects.v ===== *)
(** * Effects: the bus, capabilities and receipts

    Models [crates/valori-effect/src]: effect ids and effects ([effect.rs]), the
    capability traits and their registry ([capability.rs]), the deduplicating bus
    ([bus.rs]), tasks ([task.rs]), and the receipts assembled from the fragments
    that tasks emit, their offline verification and the store of the last ones
    ([receipt.rs]).

    The subsystems behind the capabilities are a state of type [W] that the
    operations of the capability records read and change; a trait is a record of
    its operations.  JSON values are a parameter with the class [EffectJson].  A
    mutex is taken and released within one call, so a method is one step. *)

From stdpp Require Import gmap strings.
From S2P Require Import Prelude.
From S2P Require Import Core.
From S2P Require Import Bytes.
From S2P Require Import StateProof.
From S2P Require Import Wire.
From S2P Require Import Planner.
From S2P Require Import F32.

(** ** Errors (error.rs) *)
Inductive EffectError : Type :=
| CapabilityUnavailable (what : list Z)
| Dispatch (msg : list Z)
| TaskFailed (msg : list Z)
| BudgetExceeded (what : list Z)
| Serde (msg : list Z)
| Duplicate (id : list Z)
| Capacity (msg : list Z).

(** ** Effects (effect.rs) *)

(** [EffectId] and [ReceiptHash] are 32 bytes; [to_hex] prints them. *)
Definition EffectId : Type := list Z.

Definition id_to_hex (id : list Z) : list Z := hex id.

Inductive EffectDurability : Type := Durable | Ephemeral.

#[global] Instance EffectDurability_eq_dec : EqDecision EffectDurability.
Proof. solve_decision. Defined.

Record ReceiptFragment : Type := mkFragment {
  task_index : Z;
  frag_before : list Z;
  frag_after : list Z;
  mutated : bool;
  fragment_hash : list Z;
}.

(** What the code uses of [serde_json]: the null value, the object that the no-op
    kernel answers with, and the text of a fragment. *)
Class EffectJson (Value : Type) := {
  json_null : Value;
  json_record_and_hash : Z -> list Z -> Value;
  fragment_to_string : ReceiptFragment -> outcome (list Z) (list Z);
}.

Section Effect.
Context {Value : Type}.

Inductive KernelCommandBody : Type :=
| BodyInsertRecord (values : list f32) (text : option (list Z)) (metadata : option Value) (tag : Z)
| BodySoftDeleteRecord (record_id : Z)
| BodyHardDeleteRecord (record_id : Z)
| BodyCreateNode (kind : Z) (record_id : option Z)
| BodyCreateEdge (from to kind : Z).

Record KernelCommand : Type := mkKernelCommand {
  cmd_shard_id : Z;
  cmd_namespace_id : Z;
  cmd_body : KernelCommandBody;
  cmd_request_id : list Z;
}.

(** A metric is an [f64]. *)
Inductive EffectPayload : Type :=
| KernelWrite (cmd : KernelCommand)
| ReceiptPayload (frag : ReceiptFragment)
| Counter (name : list Z) (value : SpecFloat.spec_float)
| Gauge (name : list Z) (value : SpecFloat.spec_float)
| AuditEntry (entry_json : list Z) (shard_id : Z).

Record Effect : Type := mkEffect { eff_id : EffectId; eff_durability : EffectDurability; eff_payload : EffectPayload }.

Definition Effect_durable (id : EffectId) (p : EffectPayload) : Effect := mkEffect id Durable p.
Definition Effect_ephemeral (id : EffectId) (p : EffectPayload) : Effect := mkEffect id Ephemeral p.
End Effect.
Arguments KernelCommandBody : clear implicits.
Arguments KernelCommand : clear implicits.
Arguments EffectPayload : clear implicits.
Arguments Effect : clear implicits.

Section Hashed.
Context (blake3 : list Z -> list Z).

Definition effect_id_input (e : ExecutionId) (task_index effect_index : Z) : list Z :=
  le_bytes 8 (hi e) ++ le_bytes 8 (lo e) ++ le_bytes 4 task_index ++ le_bytes 4 effect_index.

Definition EffectId_new (e : ExecutionId) (task_index effect_index : Z) : EffectId :=
  blake3 (effect_id_input e task_index effect_index).

Definition ReceiptFragment_read_only (task_index : Z) (state_hash : list Z) : ReceiptFragment :=
  mkFragment task_index state_hash state_hash false
    (id_to_hex (blake3 (state_hash ++ le_bytes 4 task_index))).
End Hashed.

(** ** Capabilities (capability.rs) *)
Section Capabilities.
Context {W Value : Type}.

Record KernelCapability : Type := mkKernelCapability {
  kernel_name : list Z;
  kernel_is_available : W -> bool;
  shard_count : Z;
  apply_command : Z -> Z -> KernelCommandBody Value -> list Z -> M EffectError W Value;
  state_hash : W -> Z -> list Z;
  save_snapshot : Z -> option (list Z) -> M EffectError W (list Z);
}.

Record EmbedCapability : Type := mkEmbedCapability {
  embed_model_name : list Z;
  embed_dim : Z;
  embed_texts : list (list Z) -> M EffectError W (list (list f32));
}.

Record LlmCapability : Type := mkLlmCapability {
  default_model : list Z;
  complete : list Z -> list Z -> M EffectError W (list Z);
}.

Record StorageCapability : Type := mkStorageCapability {
  write_object : list Z -> list Z -> M EffectError W unit;
  read_object : list Z -> M EffectError W (list Z);
  list_objects : list Z -> M EffectError W (list (list Z));
  delete_object : list Z -> M EffectError W unit;
}.

Record HttpCapability : Type := mkHttpCapability { http_get : list Z -> M EffectError W (list Z) }.

Record ProofCapability : Type := mkProofCapability {
  append_fragment : Z -> list Z -> M EffectError W unit;
  event_log_proof : Z -> M EffectError W (list Z);
}.

Record SchedulerCapability : Type := mkSchedulerCapability {
  schedule_once : Z -> list Z -> M EffectError W (list Z);
}.

Record CapabilityRegistry : Type := mkCapabilities {
  reg_kernel : KernelCapability;
  reg_embed : option EmbedCapability;
  reg_llm : option LlmCapability;
  reg_storage : option StorageCapability;
  reg_http : option HttpCapability;
  reg_proof : option ProofCapability;
  reg_scheduler : option SchedulerCapability;
}.

Definition registry_embed (r : CapabilityRegistry) : outcome EffectError EmbedCapability :=
  ok_or (reg_embed r) (CapabilityUnavailable (ascii_bytes "embed")).
Definition registry_llm (r : CapabilityRegistry) : outcome EffectError LlmCapability :=
  ok_or (reg_llm r) (CapabilityUnavailable (ascii_bytes "llm")).
Definition registry_storage (r : CapabilityRegistry) : outcome EffectError StorageCapability :=
  ok_or (reg_storage r) (CapabilityUnavailable (ascii_bytes "storage")).
Definition registry_http (r : CapabilityRegistry) : outcome EffectError HttpCapability :=
  ok_or (reg_http r) (CapabilityUnavailable (ascii_bytes "http")).
Definition registry_proof (r : CapabilityRegistry) : outcome EffectError ProofCapability :=
  ok_or (reg_proof r) (CapabilityUnavailable (ascii_bytes "proof")).
Definition registry_scheduler (r : CapabilityRegistry) : outcome EffectError SchedulerCapability :=
  ok_or (reg_scheduler r) (CapabilityUnavailable (ascii_bytes "scheduler")).

Definition zero_hash_text : list Z := replicate 64 48.

(** The trait's default [save_snapshot]. *)
Definition save_snapshot_default : M EffectError W (list Z) :=
  sthrow (CapabilityUnavailable (ascii_bytes "save_snapshot")).

Definition NoOpKernelCapability `{EffectJson Value} (shards : Z) : KernelCapability :=
  mkKernelCapability (ascii_bytes "kernel_noop") (fun _ => true) shards
    (fun _ _ _ _ => sret (json_record_and_hash 0 zero_hash_text))
    (fun _ _ => zero_hash_text) (fun _ _ => save_snapshot_default).
End Capabilities.
Arguments KernelCapability : clear implicits.
Arguments EmbedCapability : clear implicits.
Arguments LlmCapability : clear implicits.
Arguments StorageCapability : clear implicits.
Arguments HttpCapability : clear implicits.
Arguments ProofCapability : clear implicits.
Arguments SchedulerCapability : clear implicits.
Arguments CapabilityRegistry : clear implicits.

(** ** The bus (bus.rs) *)
Section Bus.
Context {W Value : Type} `{!EffectJson Value} (caps : CapabilityRegistry W Value).

(** The set of ids behind the bus's mutex, and the subsystems. *)
Record BusState : Type := mkBus { dispatched : gset EffectId; world : W }.

Definition set_dispatched (d : gset EffectId) (b : BusState) : BusState := mkBus d (world b).
Definition set_world (w : W) (b : BusState) : BusState := mkBus (dispatched b) w.

Definition EffectBus_new (w : W) : BusState := mkBus ∅ w.

(** [EffectBus::route]: what an effect does to the subsystems. *)
Definition append_if_proof (shard : Z) (entry : list Z) : M EffectError W Value :=
  match registry_proof caps with
  | Ok proof => append_fragment proof shard entry ;;; sret json_null
  | _ => sret json_null
  end.

Definition route_effect (e : Effect Value) : M EffectError W Value :=
  match eff_payload e with
  | KernelWrite cmd =>
      apply_command (reg_kernel caps) (cmd_shard_id cmd) (cmd_namespace_id cmd) (cmd_body cmd) (cmd_request_id cmd)
  | ReceiptPayload frag =>
      match registry_proof caps with
      | Ok proof =>
          let* json := slift (map_err Dispatch (fragment_to_string frag)) in
          append_fragment proof 0 json ;;; sret json_null
      | _ => sret json_null
      end
  | AuditEntry entry_json shard => append_if_proof shard entry_json
  | Counter _ _ | Gauge _ _ => sret json_null
  end.

Definition is_durable (e : Effect Value) : bool := bool_decide (eff_durability e = Durable).

(** [EffectBus::dispatch] *)
Definition bus_dispatch (e : Effect Value) : M EffectError BusState Value := fun b =>
  if is_durable e && bool_decide (eff_id e ∈ dispatched b) then (b, Err (Duplicate (id_to_hex (eff_id e))))
  else
    let b1 := if is_durable e then set_dispatched ({[ eff_id e ]} ∪ dispatched b) b else b in
    zoom world set_world (route_effect e) b1.

(** [EffectBus::dispatch_all] *)
Fixpoint dispatch_all (effects : list (Effect Value)) : M EffectError BusState unit := fun b =>
  match effects with
  | [] => (b, Ok tt)
  | e :: effects =>
      match bus_dispatch e b with
      | (b', Ok _) => dispatch_all effects b'
      | (b', Err (Duplicate _)) => dispatch_all effects b'
      | (b', Err err) => if is_durable e then (b', Err err) else dispatch_all effects b'
      | (b', Panic) => (b', Panic)
      | (b', Hang) => (b', Hang)
      end
  end.

Definition durable_count (b : BusState) : Z := Z.of_nat (size (dispatched b)).
End Bus.
Arguments BusState : clear implicits.

(** ** Tasks (task.rs) *)
Record TaskOutput (Value : Type) : Type := mkTaskOutput { out_json : Value; state_hash_after : list Z }.
Arguments mkTaskOutput {Value}.
Arguments out_json {Value}.
Arguments state_hash_after {Value}.

Section Tasks.
Context {W Value : Type} `{!EffectJson Value} (blake3 : list Z -> list Z).

Definition TaskOutput_empty (state_hash : list Z) : TaskOutput Value := mkTaskOutput json_null state_hash.
Definition TaskOutput_with_value (json : Value) (state_hash : list Z) : TaskOutput Value :=
  mkTaskOutput json state_hash.

Record TaskContext : Type := mkTaskContext {
  ctx_task_id : Z;
  ctx_execution_id : ExecutionId;
  topological_index : Z;
  capabilities : CapabilityRegistry W Value;
  budget : ResourceBudget;
}.

(** [NoOpTask::run]: the counter's result is dropped. *)
Definition NoOpTask_run (ctx : TaskContext) : M EffectError (BusState W) (TaskOutput Value) := fun b =>
  let id := EffectId_new blake3 (ctx_execution_id ctx) (topological_index ctx) 0 in
  let '(b', _) :=
    bus_dispatch (capabilities ctx)
      (Effect_ephemeral id (Counter (ascii_bytes "noop_runs") (SpecFloat.binary_normalize 53 1024 1 0 false))) b in
  (b', Ok (TaskOutput_empty (state_hash (reg_kernel (capabilities ctx)) (world b') 0))).
End Tasks.

(** ** Receipts (receipt.rs) *)
Definition ReceiptHash : Type := list Z.

Definition ReceiptHash_zero : ReceiptHash := replicate 32 0.
Definition StateHash_zero : list Z := replicate 64 48.

Record Receipt : Type := mkReceipt {
  receipt_id : list Z;
  receipt_hash : ReceiptHash;
  operation_hash : list Z;
  graph_hash : list Z;
  kernel_abi_version : Z;
  planner_fingerprint_hash : list Z;
  embed_enabled : bool;
  cluster_mode : bool;
  r_shard_count : Z;
  r_before : list Z;
  r_after : list Z;
  parent_receipts : list ReceiptHash;
  r_shard_id : Z;
  committed_height : Z;
  produced_at : Z;
  fragments : list ReceiptFragment;
}.

Record ReceiptEnvelope : Type := mkEnvelope { env_version : Z; env_payload : Receipt }.
Definition ReceiptEnvelope_v1 (r : Receipt) : ReceiptEnvelope := mkEnvelope 1 r.

Definition is_read_only (r : Receipt) : bool := bool_decide (r_before r = r_after r).

Record ReceiptAssembler : Type := mkAssembler {
  a_execution_id : ExecutionId;
  a_fragments : list ReceiptFragment;
  a_operation_hash : list Z;
  a_graph_hash : list Z;
  a_fingerprint_hash : list Z;
  a_kernel_abi_version : Z;
  a_embed_enabled : bool;
  a_cluster_mode : bool;
  a_shard_count : Z;
  a_shard_id : Z;
  a_committed_height : Z;
  a_parent_receipts : list ReceiptHash;
}.

Definition ReceiptAssembler_new (id : ExecutionId) (op graph fp : list Z) (abi : Z) (embed cluster : bool)
    (shards shard height : Z) (parents : list ReceiptHash) : ReceiptAssembler :=
  mkAssembler id [] op graph fp abi embed cluster shards shard height parents.

Definition set_a_fragments (fs : list ReceiptFragment) (a : ReceiptAssembler) : ReceiptAssembler :=
  mkAssembler (a_execution_id a) fs (a_operation_hash a) (a_graph_hash a) (a_fingerprint_hash a)
    (a_kernel_abi_version a) (a_embed_enabled a) (a_cluster_mode a) (a_shard_count a) (a_shard_id a)
    (a_committed_height a) (a_parent_receipts a).

Definition push (f : ReceiptFragment) (a : ReceiptAssembler) : ReceiptAssembler :=
  set_a_fragments (a_fragments a ++ [f]) a.

(** The order of two arrays of bytes of one length is that of the numbers they
    spell. *)
Definition sorted_parents (parents : list ReceiptHash) : list ReceiptHash := sort_by_key be_combine parents.

Definition receipt_preimage (op graph before after : list Z) (parents : list ReceiptHash) (shard height : Z) : list Z :=
  op ++ graph ++ before ++ after ++ concat (sorted_parents parents) ++ [shard] ++ le_bytes 8 height.

Definition sort_fragments (fs : list ReceiptFragment) : list ReceiptFragment := sort_by_key task_index fs.

(** The state hashes of a receipt, from its sorted fragments. *)
Definition hash_before (fs : list ReceiptFragment) : list Z := default StateHash_zero (frag_before <$> head fs).
Definition hash_after (fs : list ReceiptFragment) : list Z :=
  default (hash_before fs) (frag_after <$> last (filter (fun f => mutated f = true) fs)).

(** The three messages of [verify_receipt], by their arguments. *)
Inductive ReceiptError : Type :=
| HashMismatch (computed stored : list Z)
| ChainBreak (task : Z) (expected got : list Z)
| BeforeMismatch (receipt first_fragment : list Z).

(** Step 2 of [verify_receipt]; [prev] is [prev_after]. *)
Fixpoint check_chain (prev : option (list Z)) (fs : list ReceiptFragment) : outcome ReceiptError unit :=
  match fs with
  | [] => Ok tt
  | f :: fs =>
      match prev with
      | Some p =>
          if mutated f && negb (bool_decide (frag_before f = p)) then
            Err (ChainBreak (task_index f) p (frag_before f))
          else check_chain (if mutated f then Some (frag_after f) else prev) fs
      | None => check_chain (if mutated f then Some (frag_after f) else prev) fs
      end
  end.

Section Receipts.
Context (blake3 : list Z -> list Z).

Definition compute_receipt_hash (op graph before after : list Z) (parents : list ReceiptHash) (shard height : Z) :
    ReceiptHash :=
  blake3 (receipt_preimage op graph before after parents shard height).

(** [ReceiptAssembler::assemble] sorts the fragments it keeps; [now] is the clock. *)
Definition assemble (now : Z) (a : ReceiptAssembler) : ReceiptAssembler * Receipt :=
  let frags := sort_fragments (a_fragments a) in
  let before := hash_before frags in
  let after := hash_after frags in
  (set_a_fragments frags a,
   mkReceipt (ExecutionId_display (a_execution_id a))
     (compute_receipt_hash (a_operation_hash a) (a_graph_hash a) before after (a_parent_receipts a) (a_shard_id a)
        (a_committed_height a))
     (a_operation_hash a) (a_graph_hash a) (a_kernel_abi_version a) (a_fingerprint_hash a) (a_embed_enabled a)
     (a_cluster_mode a) (a_shard_count a) before after (a_parent_receipts a) (a_shard_id a) (a_committed_height a)
     now frags).

Definition expected_receipt_hash (r : Receipt) : ReceiptHash :=
  compute_receipt_hash (operation_hash r) (graph_hash r) (r_before r) (r_after r) (parent_receipts r) (r_shard_id r)
    (committed_height r).

Definition verify_receipt (r : Receipt) : outcome ReceiptError unit :=
  let expected := expected_receipt_hash r in
  if negb (bool_decide (expected = receipt_hash r)) then
    Err (HashMismatch (id_to_hex expected) (id_to_hex (receipt_hash r)))
  else
    let sorted := sort_fragments (fragments r) in
    do* _ := check_chain None sorted in
    match frag_before <$> head sorted with
    | Some fb => if negb (bool_decide (r_before r = fb)) then Err (BeforeMismatch (r_before r) fb) else Ok tt
    | None => Ok tt
    end.
End Receipts.

(** ** The store of the last receipts *)
Record ReceiptStore : Type := mkReceiptStore {
  st_capacity : Z;
  receipts : gmap (list Z) Receipt;
  order : list (list Z);
}.

Definition ReceiptStore_new (capacity : Z) : ReceiptStore := mkReceiptStore capacity ∅ [].

Definition ReceiptStore_insert (r : Receipt) (s : ReceiptStore) : ReceiptStore :=
  let id := receipt_id r in
  let recs := <[id := r]> (receipts s) in
  let ord := order s ++ [id] in
  if st_capacity s <? len ord then
    match ord with
    | evict :: ord' => mkReceiptStore (st_capacity s) (delete evict recs) ord'
    | [] => mkReceiptStore (st_capacity s) recs ord
    end
  else mkReceiptStore (st_capacity s) recs ord.

Definition ReceiptStore_get (id : list Z) (s : ReceiptStore) : option Receipt := receipts s !! id.
Definition ReceiptStore_latest (s : ReceiptStore) : option Receipt :=
  match last (order s) with Some id => receipts s !! id | None => None end.
Definition list_ids (s : ReceiptStore) : list (list Z) := order s.
