(* ===== verification/EffectTheorems.v ===== *)
(** * What the bus and the receipts promise

    The bus routes a durable effect at most once, whatever is dispatched; a batch
    that succeeded can be dispatched again without effect, one that failed resumes
    after the effect that failed.  An assembled receipt verifies exactly when its
    mutating fragments chain; a receipt hash binds the fields it covers; the store
    keeps the last receipts. *)

From stdpp Require Import gmap strings.
From S2P Require Import Prelude.
From S2P Require Import Core.
From S2P Require Import Bytes.
From S2P Require Import StateProof.
From S2P Require Import Wire.
From S2P Require Import Planner.
From S2P Require Import F32.
From S2P Require Import Effects.

(** ** The bus *)
Section BusTheorems.
Context {W Value : Type} `{!EffectJson Value} (caps : CapabilityRegistry W Value).
Implicit Types (e : Effect Value) (es : list (Effect Value)) (b : BusState W) (w : W) (d : gset EffectId).

(** The effects a bus lets through: durable ones at their first occurrence. *)
Fixpoint first_only d es : list (Effect Value) :=
  match es with
  | [] => []
  | e :: es =>
      if is_durable e then
        if bool_decide (eff_id e ∈ d) then first_only d es else e :: first_only ({[ eff_id e ]} ∪ d) es
      else e :: first_only d es
  end.

(** A client that dispatches effects one by one, whatever each returns, until the
    process stops. *)
Fixpoint dispatch_each es b : BusState W * list (outcome EffectError Value) :=
  match es with
  | [] => (b, [])
  | e :: es =>
      match bus_dispatch caps e b with
      | (b', (Ok _ | Err _) as o) => let '(b2, os) := dispatch_each es b' in (b2, o :: os)
      | (b', o) => (b', [o])
      end
  end.

(** The same without a bus. *)
Fixpoint route_each es w : W * list (outcome EffectError Value) :=
  match es with
  | [] => (w, [])
  | e :: es =>
      match route_effect caps e w with
      | (w', (Ok _ | Err _) as o) => let '(w2, os) := route_each es w' in (w2, o :: os)
      | (w', o) => (w', [o])
      end
  end.

(** The answers of the bus, from those of the subsystems. *)
Fixpoint answers d es (os : list (outcome EffectError Value)) : list (outcome EffectError Value) :=
  match es with
  | [] => []
  | e :: es =>
      if is_durable e && bool_decide (eff_id e ∈ d) then Err (Duplicate (id_to_hex (eff_id e))) :: answers d es os
      else
        match os with
        | ((Ok _ | Err _) as o) :: os => o :: answers (if is_durable e then {[ eff_id e ]} ∪ d else d) es os
        | o :: _ => [o]
        | [] => []
        end
  end.

Lemma dispatch_duplicate e b :
  is_durable e = true -> eff_id e ∈ dispatched b ->
  bus_dispatch caps e b = (b, Err (Duplicate (id_to_hex (eff_id e)))).
Proof. intros He Hd. unfold bus_dispatch. by rewrite He, bool_decide_eq_true_2. Qed.

Lemma dispatch_fresh e b :
  is_durable e && bool_decide (eff_id e ∈ dispatched b) = false ->
  bus_dispatch caps e b =
    (mkBus (if is_durable e then {[ eff_id e ]} ∪ dispatched b else dispatched b) (route_effect caps e (world b)).1,
     (route_effect caps e (world b)).2).
Proof.
  intros He. unfold bus_dispatch. rewrite He. unfold zoom. destruct b as [d w], (is_durable e); simpl;
    by destruct (route_effect caps e w).
Qed.

Lemma dispatch_each_spec es d w :
  dispatch_each es (mkBus d w) =
    (mkBus (dispatched (dispatch_each es (mkBus d w)).1) (route_each (first_only d es) w).1,
     answers d es (route_each (first_only d es) w).2).
Proof.
  revert d w. induction es as [|e es IH]; intros d w; [done|]. cbn [dispatch_each first_only answers].
  destruct (is_durable e && bool_decide (eff_id e ∈ d)) eqn:E.
  - apply andb_true_iff in E as [He Hd]. rewrite He, Hd. apply bool_decide_eq_true_1 in Hd.
    rewrite dispatch_duplicate by done. rewrite (IH d w). simpl. done.
  - rewrite dispatch_fresh by done. cbn [world dispatched].
    assert (first_only d (e :: es) = e :: first_only (if is_durable e then {[ eff_id e ]} ∪ d else d) es) as Hf.
    { cbn [first_only]. destruct (is_durable e); [simpl in E; by rewrite E|done]. }
    cbn [first_only] in Hf. rewrite Hf. cbn [route_each].
    destruct (route_effect caps e w) as [w' [v|err| |]]; simpl; [| |done..];
      rewrite IH; simpl; by destruct (route_each _ w').
Qed.

Lemma elem_of_durable_ids i es :
  i ∈ eff_id <$> filter (fun e => is_durable e = true) es <-> exists e, e ∈ es /\ is_durable e = true /\ eff_id e = i.
Proof. rewrite list_elem_of_fmap. setoid_rewrite list_elem_of_filter. naive_solver. Qed.

Lemma first_only_ids d es :
  NoDup (eff_id <$> filter (fun e => is_durable e = true) (first_only d es)) /\
  (forall e, e ∈ first_only d es -> e ∈ es /\ (is_durable e = true -> eff_id e ∉ d)).
Proof.
  revert d. induction es as [|e es IH]; intros d; [split; [constructor|set_solver]|]. cbn [first_only].
  destruct (is_durable e) eqn:He; [case_bool_decide as Hd|].
  - destruct (IH d) as [? Hin]. split; [done|]. intros e' He'. destruct (Hin e' He'). set_solver.
  - destruct (IH ({[ eff_id e ]} ∪ d)) as [Hnd Hin]. split.
    + rewrite filter_cons_True by done. csimpl. constructor; [|done].
      rewrite elem_of_durable_ids. intros (e' & He' & Hd' & Heq). destruct (Hin e' He') as [_ Hn].
      specialize (Hn Hd'). set_solver.
    + intros e' [-> | He']%elem_of_cons; [set_solver|]. destruct (Hin e' He') as [? Hn]. split; [set_solver|].
      intros Hd'. specialize (Hn Hd'). set_solver.
  - destruct (IH d) as [Hnd Hin]. split; [by rewrite filter_cons_False by (by rewrite He)|].
    intros e' [-> | He']%elem_of_cons; [rewrite He; set_solver|]. destruct (Hin e' He'). set_solver.
Qed.

(** No durable effect is forgotten: the first of each id is let through. *)
Lemma first_only_complete d es e :
  e ∈ es -> is_durable e = true -> eff_id e ∉ d ->
  exists e', e' ∈ first_only d es /\ is_durable e' = true /\ eff_id e' = eff_id e.
Proof.
  revert d. induction es as [|e0 es IH]; intros d Hin He Hd; [set_solver|]. cbn [first_only].
  apply elem_of_cons in Hin as [<- | Hin].
  - rewrite He, bool_decide_eq_false_2 by done. exists e. set_solver.
  - destruct (is_durable e0) eqn:He0; [case_bool_decide as Hd0|].
    + by apply IH.
    + destruct (decide (eff_id e = eff_id e0)) as [Heq|Hne].
      * exists e0. set_solver.
      * destruct (IH ({[ eff_id e0 ]} ∪ d)) as (e' & ? & ?); [done..|set_solver|]. exists e'. set_solver.
    + destruct (IH d) as (e' & ? & ?); [done..|]. exists e'. set_solver.
Qed.

(** C21: Dispatching any list of effects one by one on a new bus hands to the
    capabilities exactly the list without the repeated durable effects, in order:
    the world is the one these calls leave, the answers are theirs with a
    duplicate error for each repetition, no durable effect id is routed twice, and
    every durable effect is routed at least once. Whatever the capabilities do. *)
Theorem bus_routes_once es w :
  let routed := first_only ∅ es in
  (world (dispatch_each es (EffectBus_new w)).1 = (route_each routed w).1
   /\ (dispatch_each es (EffectBus_new w)).2 = answers ∅ es (route_each routed w).2)
  /\ NoDup (eff_id <$> filter (fun e => is_durable e = true) routed)
  /\ forall e, e ∈ es -> is_durable e = true ->
       exists e', e' ∈ routed /\ is_durable e' = true /\ eff_id e' = eff_id e.
Proof.
  cbn zeta. split_and!; [by unfold EffectBus_new; rewrite dispatch_each_spec ..|apply first_only_ids|].
  intros e Hin He. by apply first_only_complete.
Qed.

(** ** Batches *)
Lemma dispatch_marks e b b' o :
  is_durable e = true -> bus_dispatch caps e b = (b', o) -> eff_id e ∈ dispatched b' /\ dispatched b ⊆ dispatched b'.
Proof.
  intros He H. destruct (decide (eff_id e ∈ dispatched b)) as [Hd|Hd].
  - rewrite dispatch_duplicate in H by done. by simplify_eq.
  - rewrite dispatch_fresh in H by (by rewrite bool_decide_eq_false_2, andb_false_r).
    rewrite He in H. simplify_eq/=. set_solver.
Qed.

(** Durable effects that were all dispatched before: nothing happens. *)
Lemma dispatch_all_skips es es' b :
  Forall (fun e => is_durable e = true /\ eff_id e ∈ dispatched b) es ->
  dispatch_all caps (es ++ es') b = dispatch_all caps es' b.
Proof.
  induction es as [|e es IH]; [done|]. intros [[He Hd] Hes]%Forall_cons. cbn [app dispatch_all].
  rewrite dispatch_duplicate by done. by apply IH.
Qed.

(** How a batch of durable effects ends: in full, or at the first effect that
    fails; every effect up to there is in the set. *)
Lemma dispatch_all_durable es b b' o :
  Forall (fun e => is_durable e = true) es -> dispatch_all caps es b = (b', o) ->
  dispatched b ⊆ dispatched b' /\
  match o with
  | Ok _ => Forall (fun e => is_durable e = true /\ eff_id e ∈ dispatched b') es
  | Err err =>
      exists pre e post b1, es = pre ++ e :: post
        /\ dispatch_all caps pre b = (b1, Ok tt) /\ bus_dispatch caps e b1 = (b', Err err)
        /\ Forall (fun e => is_durable e = true /\ eff_id e ∈ dispatched b') (pre ++ [e])
  | _ => True
  end.
Proof.
  intros Hes. revert b. induction Hes as [|e es He Hes IH]; intros b H; [by simplify_eq/=|].
  cbn [dispatch_all] in H. destruct (bus_dispatch caps e b) as [b2 o2] eqn:Ed.
  destruct (dispatch_marks _ _ _ _ He Ed) as [Hin Hsub].
  assert (forall v, dispatch_all caps es b2 = (b', o) ->
    (forall pre b1, dispatch_all caps pre b2 = (b1, v) -> dispatch_all caps (e :: pre) b = (b1, v)) ->
    v = Ok tt -> dispatched b ⊆ dispatched b' /\
    match o with
    | Ok _ => Forall (fun e => is_durable e = true /\ eff_id e ∈ dispatched b') (e :: es)
    | Err err =>
        exists pre e0 post b1, e :: es = pre ++ e0 :: post
          /\ dispatch_all caps pre b = (b1, Ok tt) /\ bus_dispatch caps e0 b1 = (b', Err err)
          /\ Forall (fun e => is_durable e = true /\ eff_id e ∈ dispatched b') (pre ++ [e0])
    | _ => True
    end) as Hstep.
  { intros v Hrest Hpre ->. destruct (IH _ Hrest) as [Hsub2 Ho]. split; [set_solver|]. destruct o; try done.
    - constructor; [set_solver|done].
    - destruct Ho as (pre & ef & post & b1 & -> & Hp & Hd & Hall).
      exists (e :: pre), ef, post, b1. split_and!; [done|by apply Hpre|done|].
      constructor; [set_solver|done]. }
  destruct o2 as [v|err| |].
  - apply (Hstep (Ok tt)); [done| |done]. intros pre b1 Hp. cbn [dispatch_all]. by rewrite Ed.
  - destruct err; try (apply (Hstep (Ok tt)); [done| |done]; intros pre b1 Hp; cbn [dispatch_all]; by rewrite Ed).
    all: rewrite He in H; simplify_eq; split; [done|]; exists [], e, es, b; split_and!; [done..|]; by repeat constructor.
  - by simplify_eq.
  - by simplify_eq.
Qed.

(** What retrying a batch of durable effects does: after a success the retry
    changes nothing and succeeds; after a failure at some effect (all before it
    done) the retry runs exactly the effects after it, and never the failed one
    again. *)
Theorem batch_retry_exact es b b1 o :
  Forall (fun e => is_durable e = true) es ->
  dispatch_all caps es b = (b1, o) ->
  match o with
  | Ok _ => dispatch_all caps es b1 = (b1, Ok tt)
  | Err err =>
      exists pre e post, es = pre ++ e :: post
        /\ (exists b0, dispatch_all caps pre b = (b0, Ok tt) /\ bus_dispatch caps e b0 = (b1, Err err))
        /\ dispatch_all caps es b1 = dispatch_all caps post b1
  | _ => True
  end.
Proof.
  intros Hes H. apply dispatch_all_durable in H as [_ H]; [|done]. destruct o; try done.
  - by rewrite <- (app_nil_r es), dispatch_all_skips.
  - destruct H as (pre & ef & post & b0 & -> & Hp & Hd & Hall). exists pre, ef, post. split; [done|].
    split; [by exists b0|]. rewrite (cons_middle ef pre post), app_assoc. by rewrite dispatch_all_skips.
Qed.
End BusTheorems.

(** ** A concrete node: a log of accepted commands that rejects one deletion *)
Module EffectDemo.
#[global] Instance toy_json : EffectJson Z := {
  json_null := 0;
  json_record_and_hash n _ := n;
  fragment_to_string f := Ok (frag_before f ++ frag_after f);
}.

Definition toy_apply (shard ns : Z) (body : KernelCommandBody Z) (req : list Z) : M EffectError (list Z) Z := fun w =>
  match body with
  | BodyInsertRecord _ _ _ tag => (w ++ [tag], Ok (len w))
  | _ => (w, Err (TaskFailed req))
  end.

Definition toy_caps : CapabilityRegistry (list Z) Z :=
  mkCapabilities
    (mkKernelCapability (ascii_bytes "kernel") (fun _ => true) 1 toy_apply (fun _ _ => zero_hash_text)
       (fun _ _ => save_snapshot_default))
    None None None None None None.

Definition insert (id tag : Z) : Effect Z :=
  Effect_durable [id] (KernelWrite (mkKernelCommand 0 0 (BodyInsertRecord [] None None tag) [id])).
Definition remove (id : Z) : Effect Z :=
  Effect_durable [id] (KernelWrite (mkKernelCommand 0 0 (BodySoftDeleteRecord 7) [id])).

Definition batch : list (Effect Z) := [insert 1 10; remove 2; insert 3 30].
End EffectDemo.

Lemma batch_retry_exact_witness :
  Forall (fun e => is_durable e = true) EffectDemo.batch
  /\ exists b1 err,
    dispatch_all EffectDemo.toy_caps EffectDemo.batch (EffectBus_new []) = (b1, Err err)
    /\ world b1 = [10]
    /\ exists pre e post, EffectDemo.batch = pre ++ e :: post
        /\ (exists b0, dispatch_all EffectDemo.toy_caps pre (EffectBus_new []) = (b0, Ok tt)
              /\ bus_dispatch EffectDemo.toy_caps e b0 = (b1, Err err))
        /\ dispatch_all EffectDemo.toy_caps EffectDemo.batch b1 = dispatch_all EffectDemo.toy_caps post b1.
Proof.
  assert (Forall (fun e => is_durable e = true) EffectDemo.batch) as Hd.
  { apply Forall_cons_2; [reflexivity|]. apply Forall_cons_2; [reflexivity|].
    apply Forall_cons_2; [reflexivity|]. apply Forall_nil_2. }
  assert (dispatch_all EffectDemo.toy_caps EffectDemo.batch (EffectBus_new []) =
            (mkBus {[ [2]; [1] ]} [10], Err (TaskFailed [2]))) as Hr.
  { vm_compute. reflexivity. }
  split; [exact Hd|]. exists (mkBus {[ [2]; [1] ]} [10]), (TaskFailed [2]).
  split; [exact Hr|]. split; [reflexivity|].
  exact (batch_retry_exact EffectDemo.toy_caps EffectDemo.batch (EffectBus_new []) _ _ Hd Hr).
Defined.

(** The batch above, retried, reports success; the deletion was never done. *)
Theorem retry_skips_failed_effect :
  let '(b1, o1) := dispatch_all EffectDemo.toy_caps EffectDemo.batch (EffectBus_new []) in
  let '(b2, o2) := dispatch_all EffectDemo.toy_caps EffectDemo.batch b1 in
  o1 = Err (TaskFailed [2]) /\ o2 = Ok tt /\ world b2 = [10; 30].
Proof. vm_compute. done. Qed.

(** ** Effect ids *)
Section Receipts.
Context (blake3 : list Z -> list Z).
Implicit Types (r : Receipt) (a : ReceiptAssembler) (fs : list ReceiptFragment) (f : ReceiptFragment).

(** Effects of different executions, tasks or positions have different ids, unless
    their hash inputs collide; so the bus does not take one for another. *)
Theorem effect_id_unique e e' t t' i i' :
  in_u64 (hi e) -> in_u64 (lo e) -> in_u64 (hi e') -> in_u64 (lo e') ->
  in_u32 t -> in_u32 t' -> in_u32 i -> in_u32 i' ->
  EffectId_new blake3 e t i = EffectId_new blake3 e' t' i' -> (e, t, i) = (e', t', i') \/ collision blake3 [effect_id_input e t i; effect_id_input e' t' i'].
Proof.
  intros H1 H2 H3 H4 H5 H6 H7 H8 H. apply blake3_inj in H as [H|H]; [left|by right]. unfold effect_id_input in H.
  repeat (apply app_inj_1 in H as [? H]; [|by rewrite !length_le_bytes]).
  destruct e, e'; cbn [Core.hi Core.lo] in *.
  repeat match goal with H : le_bytes ?n ?v = le_bytes ?n ?v' |- _ =>
    apply (f_equal le_val) in H; rewrite !le_val_small in H by (simpl; int_lia) end.
  congruence.
Qed.

(** ** Sorting sorted lists *)
Lemma insert_by_last {A} (key : A -> Z) x l :
  Forall (fun y => key y <= key x) l -> insert_by key x l = l ++ [x].
Proof.
  induction 1 as [|y l Hy Hl IH]; [done|]. cbn [insert_by]. destruct (Z.ltb_spec (key x) (key y)); [lia|].
  by rewrite IH.
Qed.

Lemma sort_by_key_id {A} (key : A -> Z) l : StronglySorted (key_le key) l -> sort_by_key key l = l.
Proof.
  intros Hs. unfold sort_by_key.
  assert (forall acc, StronglySorted (key_le key) (acc ++ l) ->
    foldl (fun acc x => insert_by key x acc) acc l = acc ++ l) as Hg; [|by apply (Hg [])].
  clear Hs. induction l as [|x l IH]; intros acc Hs; [by rewrite app_nil_r|]. simpl.
  rewrite insert_by_last.
  - rewrite IH; by rewrite <- app_assoc.
  - apply Forall_forall. intros y Hy. by apply (StronglySorted_app_1_elem_of (key_le key) acc (x :: l)); [..|left].
Qed.

Lemma sort_fragments_idem fs : sort_fragments (sort_fragments fs) = sort_fragments fs.
Proof. apply sort_by_key_id, sort_by_key_ok. Qed.

(** ** The fragment chain *)

(** Each element's state is the one the element before it left. *)
Definition chained fs : Prop :=
  forall i f g, fs !! i = Some f -> fs !! S i = Some g -> frag_after f = frag_before g.

Definition mutating fs : list ReceiptFragment := filter (fun f => mutated f = true) fs.

Lemma linked_cons f g fs : chained (f :: g :: fs) <-> frag_after f = frag_before g /\ chained (g :: fs).
Proof.
  split.
  - intros H. split; [by apply (H 0%nat)|]. intros i. apply (H (S i)).
  - intros [Hfg H] [|i] x y; simpl; [naive_solver|]. apply (H i).
Qed.

Lemma linked_single f : chained [f].
Proof. intros [|i] x y; by simpl. Qed.

Lemma check_chain_linked prev fs :
  check_chain (frag_after <$> prev) fs = Ok tt <-> chained (option_list prev ++ mutating fs).
Proof.
  revert prev. induction fs as [|f fs IH]; intros prev.
  { simpl. rewrite app_nil_r. split; [|done]. intros _. destruct prev; [apply linked_single|done]. }
  unfold mutating in *. rewrite filter_cons. destruct (mutated f) eqn:E.
  - rewrite decide_True by done. specialize (IH (Some f)). simpl in IH.
    destruct prev as [p|]; simpl; rewrite E; simpl.
    + rewrite linked_cons. simpl. case_bool_decide as Hb; simpl; [rewrite IH; naive_solver|].
      split; [done|]. intros [Hc _]. by destruct Hb.
    + by rewrite IH.
  - rewrite decide_False by congruence. rewrite <- IH.
    destruct prev; cbn [check_chain fmap option_fmap option_map]; by rewrite E.
Qed.

(** A receipt assembled from fragments verifies exactly when the mutating ones
    among them, sorted by task, form a chain of state hashes; its first and last
    state hashes are those of the chain, and without a mutating fragment it is
    read-only. *)
Theorem assembled_receipt_verifies now a :
  let r := (assemble blake3 now a).2 in
  (verify_receipt blake3 r = Ok tt <-> chained (mutating (sort_fragments (a_fragments a))))
  /\ r_before r = hash_before (sort_fragments (a_fragments a))
  /\ (forall f, last (mutating (sort_fragments (a_fragments a))) = Some f -> r_after r = frag_after f)
  /\ (Forall (fun f => mutated f = false) (a_fragments a) -> is_read_only r = true).
Proof.
  cbn zeta. split_and!.
  - unfold verify_receipt, expected_receipt_hash. cbn -[check_chain sort_fragments hash_before hash_after].
    rewrite bool_decide_eq_true_2 by done. cbn [negb]. rewrite sort_fragments_idem.
    pose proof (check_chain_linked None (sort_fragments (a_fragments a))) as Hc. simpl in Hc. rewrite <- Hc.
    destruct (check_chain None (sort_fragments (a_fragments a))) as [[]|?| |]; cbn [obind]; [|done..].
    unfold hash_before. destruct (head (sort_fragments (a_fragments a))); simpl; [|done].
    by rewrite bool_decide_eq_true_2.
  - done.
  - intros f Hf. cbn -[hash_after sort_fragments]. unfold hash_after. unfold mutating in Hf. by rewrite Hf.
  - intros Hall. unfold is_read_only. cbn -[hash_before hash_after sort_fragments]. unfold hash_after.
    assert (filter (fun f => mutated f = true) (sort_fragments (a_fragments a)) = []) as ->.
    { apply Permutation_nil_r. destruct (sort_by_key_ok task_index (a_fragments a)) as [Hp _].
      unfold sort_fragments. rewrite Hp. clear -Hall. induction Hall as [|f fs Hf Hfs IH]; [done|].
      by rewrite filter_cons_False by congruence. }
    simpl. by rewrite bool_decide_eq_true.
Qed.

(** ** What a receipt hash binds *)

(** The widths of the hashed fields: hexadecimal texts of 64 bytes, parents of 32
    bytes, a [u8] and a [u64]. *)
Definition receipt_wf r : Prop :=
  length (operation_hash r) = 64%nat /\ length (graph_hash r) = 64%nat /\ length (r_before r) = 64%nat
  /\ length (r_after r) = 64%nat /\ Forall (fun p => length p = 32%nat) (parent_receipts r)
  /\ in_u8 (r_shard_id r) /\ in_u64 (committed_height r).

Lemma concat_inj_width (n : nat) (l l' : list (list Z)) :
  (0 < n)%nat -> Forall (fun p => length p = n) l -> Forall (fun p => length p = n) l' ->
  concat l = concat l' -> l = l'.
Proof.
  intros Hn Hl. revert l'. induction Hl as [|p l Hp Hl IH]; intros l' Hl' H.
  - destruct Hl' as [|p' l' Hp' _]; [done|]. destruct p'; simpl in *; [lia|done].
  - destruct Hl' as [|p' l' Hp' Hl']; [destruct p; simpl in *; [lia|done]|]. cbn [concat] in H.
    apply app_inj_1 in H as [-> H]; [|congruence]. f_equal. by apply IH.
Qed.

Lemma sorted_parents_width l (n : nat) :
  Forall (fun p : ReceiptHash => length p = n) l -> Forall (fun p : ReceiptHash => length p = n) (sorted_parents l).
Proof. intros H. unfold sorted_parents. by rewrite (proj1 (sort_by_key_ok be_combine l)). Qed.

Lemma receipt_preimage_inj r r' :
  receipt_wf r -> receipt_wf r' ->
  receipt_preimage (operation_hash r) (graph_hash r) (r_before r) (r_after r) (parent_receipts r) (r_shard_id r)
    (committed_height r)
  = receipt_preimage (operation_hash r') (graph_hash r') (r_before r') (r_after r') (parent_receipts r') (r_shard_id r')
      (committed_height r') ->
  operation_hash r = operation_hash r' /\ graph_hash r = graph_hash r' /\ r_before r = r_before r'
  /\ r_after r = r_after r' /\ parent_receipts r ≡ₚ parent_receipts r' /\ r_shard_id r = r_shard_id r'
  /\ committed_height r = committed_height r'.
Proof.
  intros (L1 & L2 & L3 & L4 & Lp & Ls & Lh) (L1' & L2' & L3' & L4' & Lp' & Ls' & Lh') H. unfold receipt_preimage in H.
  repeat (apply app_inj_1 in H as [? H]; [|congruence]).
  apply app_inj_2 in H as [Hc H]; [|by rewrite !length_app, !length_le_bytes].
  apply app_inj_1 in H as [Hs Hh]; [|done].
  apply concat_inj_width with (n := 32%nat) in Hc; [|lia|by apply sorted_parents_width..].
  apply (f_equal le_val) in Hh. rewrite !le_val_small in Hh by (simpl; int_lia).
  split_and!; try done; [|by simplify_eq].
  rewrite <- (proj1 (sort_by_key_ok be_combine (parent_receipts r))),
    <- (proj1 (sort_by_key_ok be_combine (parent_receipts r'))). fold (sorted_parents (parent_receipts r)).
  by rewrite Hc.
Qed.

Lemma verify_receipt_hash r : verify_receipt blake3 r = Ok tt -> receipt_hash r = expected_receipt_hash blake3 r.
Proof. unfold verify_receipt. by case_bool_decide. Qed.

(** What the hash of a receipt is taken of. *)
Definition preimage_of (r : Receipt) : list Z :=
  receipt_preimage (operation_hash r) (graph_hash r) (r_before r) (r_after r) (parent_receipts r) (r_shard_id r) (committed_height r).

(** Two receipts that verify and have the same receipt hash agree on operation
    hash, graph hash, state hashes before and after, shard, committed height and,
    up to order, on their parent receipts, unless their two preimages collide. *)
Theorem receipt_hash_binds r r' :
  receipt_wf r -> receipt_wf r' -> verify_receipt blake3 r = Ok tt -> verify_receipt blake3 r' = Ok tt ->
  receipt_hash r = receipt_hash r' ->
  (operation_hash r = operation_hash r' /\ graph_hash r = graph_hash r' /\ r_before r = r_before r'
   /\ r_after r = r_after r' /\ parent_receipts r ≡ₚ parent_receipts r' /\ r_shard_id r = r_shard_id r'
   /\ committed_height r = committed_height r')
  \/ collision blake3 [preimage_of r; preimage_of r'].
Proof.
  intros Hr Hr' Hv%verify_receipt_hash Hv'%verify_receipt_hash H. rewrite Hv, Hv' in H.
  apply blake3_inj in H as [H|H]; [left|by right]. by apply receipt_preimage_inj.
Qed.

(** A receipt with another final state, rehashed. *)
Definition with_after (h : list Z) r : Receipt :=
  mkReceipt (receipt_id r)
    (compute_receipt_hash blake3 (operation_hash r) (graph_hash r) (r_before r) h (parent_receipts r) (r_shard_id r)
       (committed_height r))
    (operation_hash r) (graph_hash r) (kernel_abi_version r) (planner_fingerprint_hash r) (embed_enabled r)
    (cluster_mode r) (r_shard_count r) (r_before r) h (parent_receipts r) (r_shard_id r) (committed_height r)
    (produced_at r) (fragments r).

(** A receipt with other unhashed fields: fingerprint, flags, and no fragments. *)
Definition stripped (fp : list Z) (abi : Z) r : Receipt :=
  mkReceipt (receipt_id r) (receipt_hash r) (operation_hash r) (graph_hash r) abi fp (negb (embed_enabled r))
    (negb (cluster_mode r)) (r_shard_count r) (r_before r) (r_after r) (parent_receipts r) (r_shard_id r)
    (committed_height r) (produced_at r) [].

(** The verifier does not compare the final state of a receipt with its fragments,
    nor does it look at the fields the hash leaves out. *)
Theorem verifier_ignores_fields r h fp abi :
  verify_receipt blake3 r = Ok tt ->
  verify_receipt blake3 (with_after h r) = Ok tt /\ verify_receipt blake3 (stripped fp abi r) = Ok tt.
Proof.
  intros H. split.
  - revert H. unfold verify_receipt, expected_receipt_hash. cbn -[check_chain sort_fragments].
    rewrite (bool_decide_eq_true_2 (compute_receipt_hash _ _ _ _ h _ _ _ = _)) by done. by case_bool_decide.
  - apply verify_receipt_hash in H. unfold verify_receipt, expected_receipt_hash in *. simpl in *.
    by rewrite bool_decide_eq_true_2.
Qed.
End Receipts.

Lemma receipt_hash_binds_witness :
  exists r, receipt_wf r /\ verify_receipt (fun m => m) r = Ok tt /\
  ((operation_hash r = operation_hash r /\ graph_hash r = graph_hash r /\ r_before r = r_before r
    /\ r_after r = r_after r /\ parent_receipts r ≡ₚ parent_receipts r /\ r_shard_id r = r_shard_id r
    /\ committed_height r = committed_height r)
   \/ collision (fun m : list Z => m) [preimage_of r; preimage_of r]).
Proof.
  set (a := push (mkFragment 0 (replicate 64 97) (replicate 64 98) true [])
              (ReceiptAssembler_new (mkExecutionId 1 2) (replicate 64 99) (replicate 64 100) [] 1 false false 1 0 42
                 [replicate 32 7])).
  assert (receipt_wf (assemble (fun m => m) 0 a).2) as Hw.
  { unfold receipt_wf. split_and!; try (vm_compute; reflexivity); [|vm_compute; split; discriminate ..].
    apply Forall_cons_2; [reflexivity|]. apply Forall_nil_2. }
  assert (verify_receipt (fun m => m) (assemble (fun m => m) 0 a).2 = Ok tt) as Hv by (vm_compute; reflexivity).
  exists (assemble (fun m => m) 0 a).2. split; [exact Hw|]. split; [exact Hv|].
  exact (receipt_hash_binds (fun m => m) _ _ Hw Hw Hv Hv eq_refl).
Defined.

(** ** The receipt store *)
Definition store_run (capacity : Z) (rs : list Receipt) : ReceiptStore :=
  foldl (fun s r => ReceiptStore_insert r s) (ReceiptStore_new capacity) rs.

(** The last [capacity] of a list. *)
Definition lastn {A} (capacity : Z) (l : list A) : list A := drop (length l - Z.to_nat capacity) l.

Definition by_id (rs : list Receipt) : gmap (list Z) Receipt := list_to_map ((fun r => (receipt_id r, r)) <$> rs).

Lemma by_id_fst rs : ((fun r => (receipt_id r, r)) <$> rs).*1 = receipt_id <$> rs.
Proof. rewrite <- list_fmap_compose. done. Qed.

Lemma by_id_snoc rs r : receipt_id r ∉ receipt_id <$> rs -> by_id (rs ++ [r]) = <[receipt_id r := r]> (by_id rs).
Proof. intros H. unfold by_id. rewrite fmap_app. apply list_to_map_snoc. by rewrite by_id_fst. Qed.

Lemma by_id_evict r rs : receipt_id r ∉ receipt_id <$> rs -> delete (receipt_id r) (by_id (r :: rs)) = by_id rs.
Proof.
  intros H. unfold by_id. csimpl. apply delete_insert_id. apply not_elem_of_list_to_map_1. by rewrite by_id_fst.
Qed.

Lemma lastn_snoc {A} c (l : list A) x :
  0 <= c ->
  lastn c (l ++ [x]) = if c <? len (lastn c l ++ [x]) then drop 1 (lastn c l ++ [x]) else lastn c l ++ [x].
Proof.
  intros Hc. unfold lastn, len. rewrite !length_app, length_drop. simpl.
  destruct (Z.ltb_spec c (Z.of_nat (length l - (length l - Z.to_nat c) + 1))).
  - rewrite <- drop_app_le, drop_drop by lia. f_equal. lia.
  - replace (length l + 1 - Z.to_nat c)%nat with 0%nat by lia.
    by replace (length l - Z.to_nat c)%nat with 0%nat by lia.
Qed.

Lemma store_run_state c rs :
  0 <= c -> NoDup (receipt_id <$> rs) ->
  store_run c rs = mkReceiptStore c (by_id (lastn c rs)) (receipt_id <$> lastn c rs).
Proof.
  intros Hc. induction rs as [|r rs IH] using rev_ind; [by unfold lastn|].
  rewrite fmap_app. intros (Hnd & Hd & _)%NoDup_app. unfold store_run in *. rewrite foldl_snoc, IH by done.
  assert (receipt_id r ∉ receipt_id <$> lastn c rs) as Hr.
  { intros Hin. apply (Hd (receipt_id r)); [|by left]. unfold lastn in Hin. rewrite fmap_drop in Hin.
    by eapply subseteq_drop. }
  assert (NoDup (receipt_id <$> lastn c rs ++ [r])) as Hnd'.
  { rewrite fmap_app. apply NoDup_app. split_and!; [|set_solver|apply NoDup_singleton].
    unfold lastn. rewrite fmap_drop. by eapply sublist_NoDup, sublist_drop. }
  rewrite lastn_snoc by done. unfold ReceiptStore_insert. cbn [receipts order st_capacity].
  change [receipt_id r] with (receipt_id <$> [r]). rewrite <- fmap_app, <- by_id_snoc by done.
  unfold len. rewrite length_fmap. destruct (_ <? _) eqn:E; [|done].
  destruct (lastn c rs ++ [r]) as [|r0 rest] eqn:El; [done|]. csimpl in *. apply NoDup_cons in Hnd' as [Hr0 _].
  by rewrite by_id_evict, drop_0.
Qed.

(** A store of capacity c that was given receipts with distinct ids holds
    exactly the last c of them, in order, and finds each by its id. *)
Theorem receipt_store_keeps_last c rs :
  0 <= c -> NoDup (receipt_id <$> rs) ->
  list_ids (store_run c rs) = receipt_id <$> lastn c rs
  /\ (forall id r, ReceiptStore_get id (store_run c rs) = Some r <-> r ∈ lastn c rs /\ receipt_id r = id)
  /\ (0 < c -> ReceiptStore_latest (store_run c rs) = last rs).
Proof.
  intros Hc Hnd. rewrite store_run_state by done.
  assert (NoDup (receipt_id <$> lastn c rs)) as Hl by (unfold lastn; rewrite fmap_drop; by eapply sublist_NoDup, sublist_drop).
  assert (forall id r, by_id (lastn c rs) !! id = Some r <-> r ∈ lastn c rs /\ receipt_id r = id) as Hg.
  { intros id r. unfold by_id. rewrite <- elem_of_list_to_map by (by rewrite by_id_fst). rewrite list_elem_of_fmap.
    naive_solver. }
  split_and!; [done|exact Hg|]. intros Hc'. unfold ReceiptStore_latest. cbn [order receipts].
  rewrite fmap_last. destruct rs as [|r rs _] using rev_ind; [done|].
  assert (last (lastn c (rs ++ [r])) = Some r) as Hlast.
  { unfold lastn. rewrite drop_app_le by (rewrite length_app; simpl; lia). by rewrite last_snoc. }
  rewrite Hlast, last_snoc. simpl. apply Hg. split; [|done]. by apply last_Some_elem_of.
Qed.

(** Receipts with ids 1 and 2. *)
Definition demo_receipt (id : Z) : Receipt :=
  mkReceipt [id] [] [] [] 1 [] false false 1 [] [] [] 0 0 0 [].

Lemma receipt_store_keeps_last_witness :
  0 <= 2 /\ NoDup (receipt_id <$> [demo_receipt 1; demo_receipt 2; demo_receipt 3])
  /\ list_ids (store_run 2 [demo_receipt 1; demo_receipt 2; demo_receipt 3]) = [[2]; [3]]
  /\ (forall id r, ReceiptStore_get id (store_run 2 [demo_receipt 1; demo_receipt 2; demo_receipt 3]) = Some r
        <-> r ∈ [demo_receipt 2; demo_receipt 3] /\ receipt_id r = id)
  /\ (0 < 2 -> ReceiptStore_latest (store_run 2 [demo_receipt 1; demo_receipt 2; demo_receipt 3])
                 = Some (demo_receipt 3)).
Proof.
  assert (0 <= 2) as Hc by lia.
  assert (NoDup (receipt_id <$> [demo_receipt 1; demo_receipt 2; demo_receipt 3])) as Hn.
  { apply (bool_decide_unpack _). vm_compute. exact I. }
  split; [exact Hc|]. split; [exact Hn|].
  exact (receipt_store_keeps_last 2 [demo_receipt 1; demo_receipt 2; demo_receipt 3] Hc Hn).
Defined.

(** The same receipt id stored three times, as a test of the crate does it: the
    store lists it twice and holds it no more. *)
Theorem repeated_receipt_is_lost :
  let s := store_run 2 [demo_receipt 1; demo_receipt 1; demo_receipt 1] in
  list_ids s = [[1]; [1]] /\ ReceiptStore_latest s = None /\ ReceiptStore_get [1] s = None.
Proof. vm_compute. done. Qed.
