(* ===== verification/Runner.v ===== *)
(** * The task runner

    Models [crates/valori-node/src/runner.rs], which walks an execution graph of
    the planner and runs a task per node over a fresh effect bus, and the writing
    tasks of [crates/valori-effect/src/tasks]: [insert_record.rs],
    [insert_graph.rs], [embed.rs], [snapshot.rs].

    A task is a state transformer of the bus; the runner's state adds the watch
    channels of the execution handles.  Parsing the inputs of a task and building
    its output are the class [TaskJson].  The tasks that only read (search, graph,
    community and tree queries) are arguments of [default_registry]. *)

From stdpp Require Import gmap strings.
From S2P Require Import Prelude.
From S2P Require Import Core.
From S2P Require Import Planner.
From S2P Require Import F32.
From S2P Require Import Effects.

(** ** Inputs of the tasks *)
Record InsertInputs (Value : Type) : Type := mkInsertInputs {
  ii_namespace_id : Z;
  ii_shard_id : Z;
  ii_values : list f32;
  ii_text : option (list Z);
  ii_metadata : option Value;
  ii_tag : Z;
  ii_request_id : option (list Z);
}.
Arguments mkInsertInputs {Value}.
Arguments ii_namespace_id {Value}.
Arguments ii_shard_id {Value}.
Arguments ii_values {Value}.
Arguments ii_text {Value}.
Arguments ii_metadata {Value}.
Arguments ii_tag {Value}.
Arguments ii_request_id {Value}.

Record InsertNodeInputs : Type := mkInsertNodeInputs {
  in_namespace_id : Z;
  in_shard_id : Z;
  in_kind : Z;
  in_record_id : option Z;
  in_request_id : option (list Z);
}.

Record InsertEdgeInputs : Type := mkInsertEdgeInputs {
  ie_namespace_id : Z;
  ie_shard_id : Z;
  ie_from : Z;
  ie_to : Z;
  ie_kind : Z;
  ie_request_id : option (list Z);
}.

Record SnapshotInputs : Type := mkSnapshotInputs { si_shard_id : Z; si_path : option (list Z) }.

(** What the tasks use of [serde_json]: deserializing the inputs, [get] followed by
    [as_u64] or [as_str], and serializing the outputs. *)
Class TaskJson (Value : Type) := {
  parse_insert_record : list Z -> outcome (list Z) (InsertInputs Value);
  parse_insert_node : list Z -> outcome (list Z) InsertNodeInputs;
  parse_insert_edge : list Z -> outcome (list Z) InsertEdgeInputs;
  parse_embed : list Z -> outcome (list Z) (list (list Z));
  parse_snapshot : list Z -> outcome (list Z) SnapshotInputs;
  get_u64_field : list Z -> Value -> option Z;
  get_str_field : list Z -> Value -> option (list Z);
  id_and_hash_value : list Z -> Z -> list Z -> outcome (list Z) Value;
  embed_value : list (list f32) -> list Z -> outcome (list Z) Value;
  hash_value : list Z -> Value;
}.

Section Tasks.
Context {W Value : Type} `{!EffectJson Value, !TaskJson Value} (blake3 : list Z -> list Z).

Definition Task : Type :=
  list Z -> list (option (TaskOutput Value)) -> @TaskContext W Value -> M EffectError (BusState W) (TaskOutput Value).

Definition f64_of_Z (z : Z) : SpecFloat.spec_float := SpecFloat.binary_normalize 53 1024 z 0 false.

(** [let _ = ctx.bus.dispatch(Effect::ephemeral(.., Counter { .. })).await] *)
Definition count_metric (ctx : @TaskContext W Value) (effect_index : Z) (name : list Z) (value : Z) :
    M EffectError (BusState W) unit := fun b =>
  let id := EffectId_new blake3 (ctx_execution_id ctx) (topological_index ctx) effect_index in
  ((bus_dispatch (capabilities ctx) (Effect_ephemeral id (Counter name (f64_of_Z value))) b).1, Ok tt).

Definition bad_inputs {A} (task : list Z) (o : outcome (list Z) A) : outcome EffectError A :=
  map_err (fun e => TaskFailed (task ++ ascii_bytes " bad inputs: " ++ e)) o.

Definition write_id (ctx : @TaskContext W Value) : EffectId :=
  EffectId_new blake3 (ctx_execution_id ctx) (topological_index ctx) 0.

Definition request_id_or (ctx : @TaskContext W Value) (r : option (list Z)) : list Z :=
  default (id_to_hex (EffectId_new blake3 (ctx_execution_id ctx) (topological_index ctx) 99)) r.

(** What the three writing tasks do once their command is built. *)
Definition write_command (ctx : @TaskContext W Value) (id_field counter : list Z) (cmd : KernelCommand Value) :
    M EffectError (BusState W) (TaskOutput Value) :=
  let* result := bus_dispatch (capabilities ctx) (Effect_durable (write_id ctx) (KernelWrite cmd)) in
  let record := wrap_u32 (default 0 (get_u64_field id_field result)) in
  let hash := default [] (get_str_field (ascii_bytes "state_hash") result) in
  count_metric ctx 1 counter 1 ;;;
  let* json := slift (map_err Serde (id_and_hash_value id_field record hash)) in
  sret (TaskOutput_with_value json hash).

(** [InsertRecordTask::run] *)
Definition insert_command (ctx : @TaskContext W Value) (i : InsertInputs Value) : KernelCommand Value :=
  mkKernelCommand (ii_shard_id i) (ii_namespace_id i)
    (BodyInsertRecord (ii_values i) (ii_text i) (ii_metadata i) (ii_tag i)) (request_id_or ctx (ii_request_id i)).

Definition InsertRecordTask : Task := fun inputs_json _ ctx =>
  let* i := slift (bad_inputs (ascii_bytes "InsertRecordTask") (parse_insert_record inputs_json)) in
  write_command ctx (ascii_bytes "record_id") (ascii_bytes "records_inserted") (insert_command ctx i).

(** [InsertNodeTask::run] *)
Definition InsertNodeTask : Task := fun inputs_json _ ctx =>
  let* i := slift (bad_inputs (ascii_bytes "InsertNodeTask") (parse_insert_node inputs_json)) in
  write_command ctx (ascii_bytes "node_id") (ascii_bytes "nodes_created")
    (mkKernelCommand (in_shard_id i) (in_namespace_id i) (BodyCreateNode (in_kind i) (in_record_id i))
       (request_id_or ctx (in_request_id i))).

(** [InsertEdgeTask::run] *)
Definition InsertEdgeTask : Task := fun inputs_json _ ctx =>
  let* i := slift (bad_inputs (ascii_bytes "InsertEdgeTask") (parse_insert_edge inputs_json)) in
  write_command ctx (ascii_bytes "edge_id") (ascii_bytes "edges_created")
    (mkKernelCommand (ie_shard_id i) (ie_namespace_id i) (BodyCreateEdge (ie_from i) (ie_to i) (ie_kind i))
       (request_id_or ctx (ie_request_id i))).

(** [EmbedTask::run] *)
Definition EmbedTask : Task := fun inputs_json _ ctx =>
  let* texts := slift (bad_inputs (ascii_bytes "EmbedTask") (parse_embed inputs_json)) in
  let* embed_cap := slift (registry_embed (capabilities ctx)) in
  let current := fun b : BusState W => state_hash (reg_kernel (capabilities ctx)) (world b) 0 in
  match texts with
  | [] => let* b := sget in sret (TaskOutput_empty (current b))
  | _ =>
      sguard ((0 <? max_embed_calls (budget ctx)) && (max_embed_calls (budget ctx) <? wrap_u32 (len texts)))
        (BudgetExceeded (ascii_bytes "max_embed_calls")) ;;;
      let* embeddings := zoom world set_world (embed_texts embed_cap texts) in
      count_metric ctx 0 (ascii_bytes "embed_calls") (len embeddings) ;;;
      let* json := slift (map_err Serde (embed_value embeddings (embed_model_name embed_cap))) in
      let* b := sget in
      sret (TaskOutput_with_value json (current b))
  end.

(** [SnapshotArtifactTask::run] *)
Definition SnapshotArtifactTask : Task := fun inputs_json _ ctx =>
  let* i := slift (bad_inputs (ascii_bytes "SnapshotArtifactTask") (parse_snapshot inputs_json)) in
  let* hash := zoom world set_world (save_snapshot (reg_kernel (capabilities ctx)) (si_shard_id i) (si_path i)) in
  count_metric ctx 0 (ascii_bytes "snapshots_saved") 1 ;;;
  sret (TaskOutput_with_value (hash_value hash) hash).

Definition NoOpTask : Task := fun _ _ ctx => NoOpTask_run blake3 ctx.
End Tasks.
Arguments Task : clear implicits.

(** ** The registry (runner.rs) *)
Definition kind_to_key (k : TaskKind) : list Z :=
  ascii_bytes
    (match k with
     | TEmbed => "embed"
     | TInsertRecord => "insert_record"
     | TInsertNode => "insert_node"
     | TInsertEdge => "insert_edge"
     | TSoftDeleteRecord => "soft_delete_record"
     | TSearch => "search"
     | TGraphRag => "graph_rag"
     | TMemorySearch => "memory_search"
     | TCommunityDetect => "community_detect"
     | TCommunitySearch => "community_search"
     | TTreeBuild => "tree_build"
     | TTreeQuery => "tree_query"
     | TTreeHybrid => "tree_hybrid"
     | TLlmComplete => "llm_complete"
     | THttpFetch => "http_fetch"
     | TReadIndex => "read_index"
     | TSnapshotArtifact => "snapshot_artifact"
     | TProofFragment => "proof_fragment"
     end).

(** The derived [Debug] name of a kind. *)
Definition kind_debug (k : TaskKind) : list Z :=
  ascii_bytes
    (match k with
     | TEmbed => "Embed"
     | TInsertRecord => "InsertRecord"
     | TInsertNode => "InsertNode"
     | TInsertEdge => "InsertEdge"
     | TSoftDeleteRecord => "SoftDeleteRecord"
     | TSearch => "Search"
     | TGraphRag => "GraphRag"
     | TMemorySearch => "MemorySearch"
     | TCommunityDetect => "CommunityDetect"
     | TCommunitySearch => "CommunitySearch"
     | TTreeBuild => "TreeBuild"
     | TTreeQuery => "TreeQuery"
     | TTreeHybrid => "TreeHybrid"
     | TLlmComplete => "LlmComplete"
     | THttpFetch => "HttpFetch"
     | TReadIndex => "ReadIndex"
     | TSnapshotArtifact => "SnapshotArtifact"
     | TProofFragment => "ProofFragment"
     end).

(** The [Display] of an error. *)
Definition EffectError_display (e : EffectError) : list Z :=
  match e with
  | CapabilityUnavailable s => ascii_bytes "Capability unavailable: " ++ s
  | Dispatch s => ascii_bytes "Effect dispatch failed: " ++ s
  | TaskFailed s => ascii_bytes "Task execution failed: " ++ s
  | BudgetExceeded s => ascii_bytes "Resource budget exceeded: " ++ s
  | Serde s => ascii_bytes "Serialization error: " ++ s
  | Duplicate s => ascii_bytes "Effect already dispatched (dedup): " ++ s
  | Capacity s => ascii_bytes "Capacity limit reached: " ++ s
  end.

Section Runner.
Context {W Value : Type} `{!EffectJson Value, !TaskJson Value}.

Definition TaskRegistry : Type := gmap (list Z) (Task W Value).

Definition get_by_key (reg : TaskRegistry) (k : TaskKind) : option (Task W Value) := reg !! kind_to_key k.

(** [TaskRegistry::default_registry]; [readers] are the tasks that only read. *)
Definition default_registry (blake3 : list Z -> list Z) (readers : TaskRegistry) : TaskRegistry :=
  <[ascii_bytes "embed" := EmbedTask blake3]>
  (<[ascii_bytes "insert_record" := InsertRecordTask blake3]>
  (<[ascii_bytes "insert_node" := InsertNodeTask blake3]>
  (<[ascii_bytes "insert_edge" := InsertEdgeTask blake3]>
  (<[ascii_bytes "snapshot_artifact" := SnapshotArtifactTask blake3]>
  (<[ascii_bytes "noop" := NoOpTask blake3]>
  (<[ascii_bytes "soft_delete_record" := NoOpTask blake3]>
  (<[ascii_bytes "llm_complete" := NoOpTask blake3]>
  (<[ascii_bytes "http_fetch" := NoOpTask blake3]>
  (<[ascii_bytes "read_index" := NoOpTask blake3]>
  (<[ascii_bytes "proof_fragment" := NoOpTask blake3]> readers)))))))))).

(** ** The runner *)
Record TaskRunner : Type := mkRunner {
  tr_graph : ExecutionGraph;
  tr_capabilities : CapabilityRegistry W Value;
  tr_registry : TaskRegistry;
  tr_policy : ExecutionPolicy;
}.

(** [run_with_retry]; [retries] is [retry_limit - attempts]. *)
Fixpoint retry_loop (retries : nat) (task : Task W Value) (inputs_json : list Z)
    (preds : list (option (TaskOutput Value))) (ctx : @TaskContext W Value) :
    M EffectError (BusState W) (TaskOutput Value) := fun b =>
  match task inputs_json preds ctx b with
  | (b', Err (TaskFailed m)) =>
      match retries with
      | S retries => retry_loop retries task inputs_json preds ctx b'
      | O => (b', Err (TaskFailed m))
      end
  | r => r
  end.

Definition run_with_retry (r : TaskRunner) : Task W Value -> list Z -> list (option (TaskOutput Value)) ->
    @TaskContext W Value -> M EffectError (BusState W) (TaskOutput Value) :=
  retry_loop (Z.to_nat (retry_limit (tr_policy r))).

(** The runner's state: its bus and the channels of the handles. *)
Record RunState : Type := mkRunState { rn_bus : BusState W; rn_handles : ExecutionRegistry }.
Definition set_bus (b : BusState W) (s : RunState) : RunState := mkRunState b (rn_handles s).
Definition set_status (h : ExecutionHandle) (st : ExecutionStatus) (s : RunState) : RunState :=
  mkRunState (rn_bus s) (handle_update h st (rn_handles s)).

Abbreviation Outputs := (list (option (TaskOutput Value))).

Definition completed (outputs : Outputs) : Z := wrap_u32 (len (filter (fun o => is_Some o) outputs)).

(** One turn of the loop of [run]. *)
Definition run_task (r : TaskRunner) (h : ExecutionHandle) (task_id : Z) (outputs : Outputs) :
    M EffectError RunState Outputs :=
  let g := tr_graph r in
  match task g task_id with
  | None => sret outputs
  | Some spec =>
      let* task_impl :=
        slift (ok_or (get_by_key (tr_registry r) (ts_kind spec))
                 (TaskFailed (ascii_bytes "no impl for " ++ kind_debug (ts_kind spec)))) in
      let preds := (fun p => mjoin (vec_get outputs p)) <$> predecessors g (ts_id spec) in
      let ctx :=
        mkTaskContext (ts_id spec) (g_id g) (ts_topological_index spec) (tr_capabilities r)
          (resource_budget (tr_policy r)) in
      let* output := zoom rn_bus set_bus (run_with_retry r task_impl (ts_inputs_json spec) preds ctx) in
      let outputs := vec_set outputs (ts_id spec) (Some output) in
      smodify (set_status h (Running (completed outputs) (wrap_u32 (len (g_tasks g))))) ;;;
      sret outputs
  end.

Fixpoint run_tasks (r : TaskRunner) (h : ExecutionHandle) (ids : list Z) (outputs : Outputs) :
    M EffectError RunState Outputs :=
  match ids with
  | [] => sret outputs
  | id :: ids => let* outputs := run_task r h id outputs in run_tasks r h ids outputs
  end.

(** [TaskRunner::run], over the subsystems' state and the handles. *)
Definition runner_run (r : TaskRunner) (h : ExecutionHandle) : M EffectError RunState Outputs :=
  let g := tr_graph r in
  smodify (set_status h (Running 0 (wrap_u32 (len (g_tasks g))))) ;;;
  smodify (fun s => set_bus (EffectBus_new (world (rn_bus s))) s) ;;;
  let* outputs := run_tasks r h (ts_id <$> tasks_in_topo_order g) (replicate (length (g_tasks g)) None) in
  smodify (set_status h Succeeded) ;;;
  sret outputs.

(** [run_graph], with its background task run to the end. *)
Definition run_graph (r : TaskRunner) (id : Z * Z) (s : RunState) : RunState * ExecutionHandle :=
  let '(handles, h) := handle_new id (rn_handles s) in
  match runner_run r h (mkRunState (rn_bus s) handles) with
  | (s', Err e) => (set_status h (ExecutionFailed (EffectError_display e)) s', h)
  | (s', _) => (s', h)
  end.

(** [run_graph_inline] *)
Definition run_graph_inline (r : TaskRunner) (id : Z * Z) : M EffectError RunState Outputs := fun s =>
  let '(handles, h) := handle_new id (rn_handles s) in runner_run r h (mkRunState (rn_bus s) handles).
End Runner.
