(* ===== verification/RunnerTheorems.v ===== *)
(** * What the task runner promises

    A writing task that the kernel answers for good reaches it exactly once, whatever
    the retry limit; a run of a planned graph gives every task the outputs of all its predecessors and, if
    it succeeds, has an output for every task. *)

From stdpp Require Import gmap strings relations.
From S2P Require Import Prelude.
From S2P Require Import Core.
From S2P Require Import Planner.
From S2P Require Import PlannerProofs.
From S2P Require Import PlannerTheorems.
From S2P Require Import F32.
From S2P Require Import Effects.
From S2P Require Import EffectTheorems.
From S2P Require Import Runner.

(** ** Writing tasks *)
Section Writes.
Context {W Value : Type} `{!EffectJson Value, !TaskJson Value} (blake3 : list Z -> list Z).
Implicit Types (ctx : @TaskContext W Value) (b : BusState W).

(** The writing tasks, with the command they build from their inputs and the field
    of the kernel's answer that they report. *)
Inductive writes ctx (json : list Z) : Task W Value -> list Z -> KernelCommand Value -> Prop :=
| writes_record i :
    parse_insert_record json = Ok i ->
    writes ctx json (InsertRecordTask blake3) (ascii_bytes "record_id") (insert_command blake3 ctx i)
| writes_node i :
    parse_insert_node json = Ok i ->
    writes ctx json (InsertNodeTask blake3) (ascii_bytes "node_id")
      (mkKernelCommand (in_shard_id i) (in_namespace_id i) (BodyCreateNode (in_kind i) (in_record_id i))
         (request_id_or blake3 ctx (in_request_id i)))
| writes_edge i :
    parse_insert_edge json = Ok i ->
    writes ctx json (InsertEdgeTask blake3) (ascii_bytes "edge_id")
      (mkKernelCommand (ie_shard_id i) (ie_namespace_id i) (BodyCreateEdge (ie_from i) (ie_to i) (ie_kind i))
         (request_id_or blake3 ctx (ie_request_id i))).

Lemma writes_run ctx json task field cmd :
  writes ctx json task field cmd ->
  exists counter, forall preds b, task json preds ctx b = write_command blake3 ctx field counter cmd b.
Proof.
  destruct 1 as [i Hi|i Hi|i Hi]; eexists; intros preds b;
    unfold InsertRecordTask, InsertNodeTask, InsertEdgeTask, sbind, slift, bad_inputs; by rewrite Hi.
Qed.

Lemma count_metric_frame ctx n name v b : count_metric blake3 ctx n name v b = (b, Ok tt).
Proof. unfold count_metric. rewrite dispatch_fresh by done. by destruct b. Qed.

(** The kernel's answer to a command. *)
Definition kernel_answer (caps : CapabilityRegistry W Value) (cmd : KernelCommand Value) (w : W) :
    W * outcome EffectError Value :=
  apply_command (reg_kernel caps) (cmd_shard_id cmd) (cmd_namespace_id cmd) (cmd_body cmd) (cmd_request_id cmd) w.

(** The output of a task that was answered with [v]. *)
Definition write_output (field : list Z) (v : Value) : outcome EffectError (TaskOutput Value) :=
  let hash := default [] (get_str_field (ascii_bytes "state_hash") v) in
  do* json := map_err Serde (id_and_hash_value field (wrap_u32 (default 0 (get_u64_field field v))) hash) in
  Ok (TaskOutput_with_value json hash).

Lemma write_command_fresh ctx field counter cmd b :
  write_id blake3 ctx ∉ dispatched b ->
  let '(w, o) := kernel_answer (capabilities ctx) cmd (world b) in
  let '(b', r) := write_command blake3 ctx field counter cmd b in
  world b' = w /\ write_id blake3 ctx ∈ dispatched b' /\ r = (do* v := o in write_output field v).
Proof.
  intros Hf. unfold write_command, sbind.
  rewrite dispatch_fresh by (by rewrite bool_decide_eq_false_2, andb_false_r). cbn [is_durable Effect_durable eff_id].
  change (route_effect (capabilities ctx) _ (world b)) with (kernel_answer (capabilities ctx) cmd (world b)).
  destruct (kernel_answer (capabilities ctx) cmd (world b)) as [w o]. cbn [fst snd].
  assert (is_durable (Effect_durable (write_id blake3 ctx) (KernelWrite cmd)) = true) as -> by done.
  destruct o as [v|e| |]; cbn [obind]; [|split_and!; [done|simpl; set_solver|done]..].
  rewrite count_metric_frame.
  unfold slift, write_output. cbn zeta.
  destruct (map_err Serde _) as [json|e| |]; cbn [obind sret]; (split_and!; [done|simpl; rewrite ?Hd; set_solver|done]).
Qed.

Lemma write_command_again ctx field counter cmd b :
  write_id blake3 ctx ∈ dispatched b ->
  write_command blake3 ctx field counter cmd b = (b, Err (Duplicate (id_to_hex (write_id blake3 ctx)))).
Proof. intros Hd. unfold write_command, sbind. by rewrite dispatch_duplicate. Qed.

(** An attempt whose result is not a retryable failure is the last one. *)
Lemma retry_loop_final n (task : Task W Value) json preds ctx b b1 out :
  task json preds ctx b = (b1, out) -> (forall m, out <> Err (TaskFailed m)) ->
  retry_loop n task json preds ctx b = (b1, out).
Proof.
  intros E Hout. destruct n; cbn [retry_loop]; rewrite E; destruct out as [v|[]| |]; try done; by destruct (Hout _ eq_refl).
Qed.

(** C19: A task that writes (insert of a record, a node or an edge), whose
    effect was not dispatched before and which the kernel does not answer with a
    retryable failure, reaches the kernel exactly once, whatever the retry policy:
    the world the run leaves is that of one kernel call, the result is the
    kernel's answer (accepted or refused), and running the same task again, under
    any policy, leaves the world as it is: no second write. *)
Theorem write_reaches_kernel_once (r r' : @TaskRunner W Value) ctx json preds preds' task field cmd b :
  writes ctx json task field cmd -> write_id blake3 ctx ∉ dispatched b ->
  let '(w, o) := kernel_answer (capabilities ctx) cmd (world b) in
  (forall m, o <> Err (TaskFailed m)) ->
  let '(b', out) := run_with_retry r task json preds ctx b in
  world b' = w /\ out = (do* v := o in write_output field v)
  /\ world (run_with_retry r' task json preds' ctx b').1 = w.
Proof.
  intros (counter & Htask)%writes_run Hf.
  pose proof (write_command_fresh ctx field counter cmd b Hf) as Hw.
  destruct (kernel_answer _ cmd (world b)) as [w o]. intros Hfail.
  destruct (write_command blake3 ctx field counter cmd b) as [b1 r1] eqn:E1. destruct Hw as (Hw & Hd & ->).
  unfold run_with_retry. rewrite (retry_loop_final _ task json preds ctx b b1 (do* v := o in write_output field v)).
  - split; [done|]. split; [done|].
    by rewrite (retry_loop_final _ task json preds' ctx b1 b1 _ (eq_trans (Htask _ _) (write_command_again _ _ _ _ _ Hd))).
  - by rewrite Htask.
  - intros m Hm. destruct o as [v|e| |]; [|simpl in Hm; injection Hm as ->; by apply (Hfail m)|done..]. simpl in Hm. revert Hm.
    unfold write_output. cbn zeta. by destruct (id_and_hash_value _ _ _).
Qed.
End Writes.

(** ** Runs of planned graphs *)
Section Runs.
Context {W Value : Type} `{!EffectJson Value, !TaskJson Value}.
Implicit Types (r : @TaskRunner W Value) (s : @RunState W) (outputs : list (option (TaskOutput Value))).

(** A task that stops the process unless all its predecessors have an output. *)
Definition guarded (t : Task W Value) : Task W Value := fun json preds ctx =>
  if forallb (fun o => bool_decide (is_Some o)) preds then t json preds ctx else fun b => (b, Panic).

Definition guard_registry (reg : @TaskRegistry W Value) : @TaskRegistry W Value :=
  fmap (M := gmap (list Z)) guarded reg.

Definition guarded_runner r : @TaskRunner W Value :=
  mkRunner (tr_graph r) (tr_capabilities r) (guard_registry (tr_registry r)) (tr_policy r).

Lemma retry_loop_guarded k t json preds ctx b :
  Forall is_Some preds -> retry_loop k (guarded t) json preds ctx b = retry_loop k t json preds ctx b.
Proof.
  intros Hp. assert (guarded t json preds ctx = t json preds ctx) as Hg.
  { unfold guarded. assert (forallb (fun o => bool_decide (is_Some o)) preds = true) as ->; [|done].
    induction Hp as [|o preds Ho _ IH]; [done|]. simpl. by rewrite bool_decide_eq_true_2. }
  revert b. induction k as [|k IH]; intros b; cbn [retry_loop]; rewrite Hg; [done|].
  destruct (t json preds ctx b) as [b' [|[]| |]]; try done; apply IH.
Qed.

(** The outputs of the predecessors of a task. *)
Definition pred_outputs r outputs (id : Z) : list (option (TaskOutput Value)) :=
  (fun p => mjoin (vec_get outputs p)) <$> predecessors (tr_graph r) id.

Lemma get_by_key_guarded (reg : @TaskRegistry W Value) k :
  get_by_key (guard_registry reg) k = guarded <$> get_by_key reg k.
Proof. unfold get_by_key, guard_registry, TaskRegistry. apply lookup_fmap. Qed.

Lemma run_task_guarded r h i outputs s spec :
  task (tr_graph r) i = Some spec -> Forall is_Some (pred_outputs r outputs (ts_id spec)) ->
  run_task (guarded_runner r) h i outputs s = run_task r h i outputs s.
Proof.
  intros Ht Hp. unfold run_task. cbn [tr_graph guarded_runner]. rewrite Ht. unfold sbind, slift.
  cbn [tr_registry guarded_runner]. rewrite get_by_key_guarded.
  destruct (get_by_key (tr_registry r) (ts_kind spec)) as [t|]; cbn [fmap option_fmap option_map ok_or]; [|done].
  unfold zoom, run_with_retry. cbn [tr_policy tr_capabilities guarded_runner].
  fold (pred_outputs r outputs (ts_id spec)). by rewrite retry_loop_guarded.
Qed.

Lemma run_task_ok r h i outputs s s' outs spec :
  task (tr_graph r) i = Some spec -> run_task r h i outputs s = (s', Ok outs) ->
  exists o, outs = vec_set outputs (ts_id spec) (Some o).
Proof.
  intros Ht. unfold run_task. rewrite Ht. unfold sbind, slift, sret, smodify.
  destruct (ok_or _ _); [|done..]. destruct (zoom _ _ _ _) as [s1 [o| | |]]; [|done..].
  intros [= _ <-]. by exists o.
Qed.

(** What the loop knows: the tasks of [pre] have their outputs. *)
Definition done_before (pre : list nat) outputs : Prop :=
  forall i, i ∈ pre -> exists o, outputs !! i = Some (Some o).

Lemma done_snoc pre outputs i o :
  done_before pre outputs -> (i < length outputs)%nat ->
  done_before (pre ++ [i]) (vec_set outputs (Z.of_nat i) (Some o)).
Proof.
  intros Hd Hi j Hj. destruct (decide (j = i)) as [->|Hne].
  - exists o. rewrite <- vec_get_nat. apply vec_get_set_eq. unfold len. lia.
  - destruct (Hd j) as [o' Ho']; [set_solver|]. exists o'. rewrite <- vec_get_nat, vec_get_set_ne by lia.
    by rewrite vec_get_nat.
Qed.

Section Loop.
Context (r : @TaskRunner W Value) (h : ExecutionHandle) (n : nat) (topo : list nat).
Hypothesis all_tasks : forall i, i ∈ topo -> (i < n)%nat /\ exists spec, task (tr_graph r) (Z.of_nat i) = Some spec
  /\ ts_id spec = Z.of_nat i.
Hypothesis preds_first : forall k i, topo !! k = Some i ->
  Forall (fun p => exists j, p = Z.of_nat j /\ j ∈ take k topo) (predecessors (tr_graph r) (Z.of_nat i)).

Lemma preds_ready pre i rest outputs :
  topo = pre ++ i :: rest -> done_before pre outputs -> Forall is_Some (pred_outputs r outputs (Z.of_nat i)).
Proof.
  intros Ht Hd. unfold pred_outputs. apply Forall_fmap.
  pose proof (preds_first (length pre) i) as Hp. rewrite Ht, list_lookup_middle, take_app_length in Hp by done.
  eapply Forall_impl; [by apply Hp|]. intros p (j & -> & Hj). simpl. rewrite vec_get_nat.
  destruct (Hd j Hj) as [o ->]. by exists o.
Qed.

Lemma run_tasks_guarded pre rest outputs s :
  topo = pre ++ rest -> length outputs = n -> done_before pre outputs ->
  run_tasks (guarded_runner r) h (Z.of_nat <$> rest) outputs s = run_tasks r h (Z.of_nat <$> rest) outputs s
  /\ forall s' outs, run_tasks r h (Z.of_nat <$> rest) outputs s = (s', Ok outs) ->
       length outs = n /\ done_before topo outs.
Proof.
  revert pre outputs s. induction rest as [|i rest IH]; intros pre outputs s Ht Hl Hd.
  { split; [done|]. cbn. intros s' outs [= <- <-]. rewrite Ht, app_nil_r. done. }
  destruct (all_tasks i) as (Hi & spec & Hs & Hid); [rewrite Ht; set_solver|].
  pose proof (preds_ready pre i rest outputs Ht Hd) as Hp. rewrite <- Hid in Hp.
  csimpl. cbn [run_tasks]. unfold sbind. rewrite (run_task_guarded _ _ _ _ _ _ Hs Hp).
  destruct (run_task r h (Z.of_nat i) outputs s) as [s1 [outs1|e| |]] eqn:E1; [|done..].
  destruct (run_task_ok _ _ _ _ _ _ _ _ Hs E1) as [o ->]. rewrite Hid.
  apply (IH (pre ++ [i])).
  - by rewrite <- app_assoc.
  - rewrite <- Hl. apply Nat2Z.inj. apply len_vec_set.
  - apply done_snoc; [done|lia].
Qed.
End Loop.

(** The edges of a graph, and its tasks, numbered as the runner indexes them. *)
Definition well_numbered (tasks : list TaskSpec) (edges : list TaskEdge) : Prop :=
  (forall i t, tasks !! i = Some t -> ts_id t = Z.of_nat i)
  /\ Forall (fun e => 0 <= te_from e < len tasks /\ 0 <= te_to e < len tasks) edges.

Lemma predecessors_pairs tasks edges (g : ExecutionGraph) i p :
  well_numbered tasks edges -> g_edges g = edges ->
  p ∈ predecessors g (Z.of_nat i) -> exists j, p = Z.of_nat j /\ (j, i) ∈ task_pairs tasks edges.
Proof.
  intros [_ Hr] He. unfold predecessors. rewrite He.
  intros (e & -> & [Hto Hin]%list_elem_of_filter)%list_elem_of_fmap.
  rewrite Forall_forall in Hr. destruct (Hr e Hin) as [Hf Ht]. exists (Z.to_nat (te_from e)). split; [lia|].
  apply list_elem_of_omap. exists e. split; [done|]. unfold edge_indices, len in *.
  rewrite !bool_decide_eq_true_2 by lia. simpl. by rewrite Hto, Nat2Z.id.
Qed.

Lemma built_graph_ordered blake3 id op fp ctx tasks edges retention g :
  len edges <= u32_MAX -> well_numbered tasks edges -> acyclic (task_pairs tasks edges) ->
  ExecutionGraph_build blake3 id op fp ctx tasks edges retention = Ok g ->
  exists topo, topo ≡ₚ seq 0 (length tasks)
    /\ ts_id <$> tasks_in_topo_order g = Z.of_nat <$> topo
    /\ length (g_tasks g) = length tasks
    /\ (forall i, i ∈ topo -> exists spec, task g (Z.of_nat i) = Some spec /\ ts_id spec = Z.of_nat i)
    /\ forall k i, topo !! k = Some i ->
         Forall (fun p => exists j, p = Z.of_nat j /\ j ∈ take k topo) (predecessors g (Z.of_nat i)).
Proof.
  intros Hb Hn Hac Hg. destruct (topological_order_ok (length tasks) edges Hb) as (topo & Et & Hp & Ho).
  unfold ExecutionGraph_build, ExecutionGraph_build_with in Hg. unfold topological_order in Et. rewrite Et in Hg.
  cbn [obind] in Hg. injection Hg as <-. destruct (Ho Hac) as [Hord _]. clear Ho. rename Hord into Ho. destruct (topo_sorted topo tasks Hp) as [Hl Hs]. fold (assign_from 0 topo tasks).
  assert (NoDup topo) as Hnd by (rewrite Hp; apply NoDup_seq).
  assert (forall i, i ∈ topo -> exists t, tasks !! i = Some t /\ ts_id t = Z.of_nat i) as Hin.
  { intros i Hi. rewrite Hp in Hi. apply elem_of_seq in Hi. destruct (lookup_lt_is_Some_2 tasks i) as [t Ht]; [lia|].
    exists t. split; [done|]. by apply Hn. }
  exists topo. split_and!; [done| | | |].
  - apply list_eq. intros k. rewrite !list_lookup_fmap. unfold tasks_in_topo_order. cbn [g_tasks].
    destruct (topo !! k) as [i|] eqn:Ek.
    + assert (i ∈ topo) as Hi by by eapply list_elem_of_lookup_2. destruct (Hin i Hi) as (t & Ht & Hid).
      unfold assign_indices. fold (assign_from 0 topo tasks). rewrite (Hs k i Ek), Ht. simpl. by rewrite <- Hid.
    + unfold assign_indices. fold (assign_from 0 topo tasks).
      rewrite (lookup_ge_None_2 (sort_by_key _ _)); [done|]. apply lookup_ge_None in Ek.
      rewrite Hl. apply Permutation_length in Hp. rewrite length_seq in Hp. lia.
  - cbn [g_tasks]. apply length_assign.
  - intros i Hi. destruct (Hin i Hi) as (t & Ht & Hid). apply list_elem_of_lookup_1 in Hi as [k Hk].
    unfold task. cbn [g_tasks]. unfold assign_indices. fold (assign_from 0 topo tasks).
    rewrite Nat2Z.id, (assign_from_ok topo 0 tasks k i Hnd Hk), Ht. by eexists.
  - intros k i Hk. apply Forall_forall. intros p Hpi.
    apply (predecessors_pairs tasks edges) in Hpi as (j & -> & Hj); [|done..]. exists j. split; [done|].
    by apply (Ho k i Hk).
Qed.

(** C20: Planner and runner fit together: on a graph built from well-numbered
    tasks with acyclic edges, the runner does exactly what a runner does that
    refuses to start a task before the outputs of all its predecessors are there;
    and a run that succeeds has one output for every task and leaves the execution
    marked as succeeded. *)
Theorem run_feeds_predecessors blake3 id op fp ctx tasks edges retention r h s :
  len edges <= u32_MAX -> well_numbered tasks edges -> acyclic (task_pairs tasks edges) ->
  ExecutionGraph_build blake3 id op fp ctx tasks edges retention = Ok (tr_graph r) ->
  runner_run (guarded_runner r) h s = runner_run r h s
  /\ forall s' outs, runner_run r h s = (s', Ok outs) ->
       length outs = length tasks /\ Forall is_Some outs
       /\ ((hd_channel h < length (er_channels (rn_handles s')))%nat ->
           current_status h (rn_handles s') = Some Succeeded).
Proof.
  intros Hb Hn Hac Hg. destruct (built_graph_ordered _ _ _ _ _ _ _ _ _ Hb Hn Hac Hg)
    as (topo & Hp & Hids & Hlen & Hall & Hpreds).
  assert (forall i, i ∈ topo -> (i < length tasks)%nat /\ exists spec, task (tr_graph r) (Z.of_nat i) = Some spec
    /\ ts_id spec = Z.of_nat i) as Hall'.
  { intros i Hi. split; [|by apply Hall]. rewrite Hp in Hi. apply elem_of_seq in Hi. lia. }
  pose proof (run_tasks_guarded r h (length tasks) topo Hall' Hpreds [] topo
    (replicate (length (g_tasks (tr_graph r))) None)) as Hloop.
  unfold runner_run, sbind, smodify. cbn [tr_graph guarded_runner]. rewrite Hids.
  edestruct Hloop as [-> Hok]; [done|by rewrite length_replicate|intros i Hi; set_solver|].
  split; [done|]. intros s' outs. destruct (run_tasks r h _ _ _) as [s1 [outs1|e| |]] eqn:E1; [|done..].
  intros [= <- <-]. destruct (Hok _ _ eq_refl) as [Hl Hd]. split_and!; [done| |].
  - apply Forall_lookup. intros i o Ho. destruct (Hd i) as [o' Ho'].
    + rewrite Hp. apply elem_of_seq. apply lookup_lt_Some in Ho. lia.
    + rewrite Ho in Ho'. simplify_eq. by eexists.
  - unfold current_status, handle_update, set_status. cbn. rewrite length_insert.
    intros Hc. by apply list_lookup_insert_eq.
Qed.
End Runs.

(** ** Concrete runs *)
Module RunnerDemo.
#[global] Instance toy_task_json : TaskJson Z := {
  parse_insert_record j := Ok (mkInsertInputs 0 0 [] None None (len j) None);
  parse_insert_node j := Ok (mkInsertNodeInputs 0 0 0 None None);
  parse_insert_edge j := Ok (mkInsertEdgeInputs 0 0 0 0 0 None);
  parse_embed j := Ok [j];
  parse_snapshot j := Ok (mkSnapshotInputs 0 None);
  get_u64_field _ v := Some v;
  get_str_field _ _ := Some zero_hash_text;
  id_and_hash_value _ n _ := Ok n;
  embed_value _ _ := Ok 0;
  hash_value _ := 0;
}.

(** A kernel that logs every command it is given; the first one fails. *)
Definition flaky_apply (shard ns : Z) (body : KernelCommandBody Z) (req : list Z) : M EffectError (list Z) Z := fun w =>
  (w ++ [len w], if len w =? 0 then Err (TaskFailed (ascii_bytes "busy")) else Ok (len w)).

Definition caps_of (apply : Z -> Z -> KernelCommandBody Z -> list Z -> M EffectError (list Z) Z) :
    CapabilityRegistry (list Z) Z :=
  mkCapabilities
    (mkKernelCapability (ascii_bytes "kernel") (fun _ => true) 1 apply (fun _ _ => zero_hash_text)
       (fun _ _ => save_snapshot_default))
    None None None None None None.

Definition toy_hash (m : list Z) : list Z := m.

(** The second task inserts a record, the first one a node after it. *)
Definition tasks : list TaskSpec := [mkTask 0 TInsertNode [] None 0; mkTask 1 TInsertRecord [] None 0].
Definition edges : list TaskEdge := [mkTaskEdge 1 0].
Definition fingerprint : PlannerFingerprint := mkFingerprint [] [] [] 1 [].
Definition graph : ExecutionGraph :=
  mkGraph (mkExecutionId 1 2) [] fingerprint [] [1; 0; 0; 0; 0; 0; 0; 0]
    [mkTask 0 TInsertNode [] None 1; mkTask 1 TInsertRecord [] None 0] edges 0.

Definition runner apply : @TaskRunner (list Z) Z :=
  mkRunner graph (caps_of apply) (default_registry toy_hash ∅) ExecutionPolicy_default.

Definition handle : ExecutionHandle := mkHandle (1, 2) 0.
Definition start (w : list Z) : @RunState (list Z) := mkRunState (EffectBus_new w) (mkExecutions [Pending] ∅).

Definition ctx apply : @TaskContext (list Z) Z :=
  mkTaskContext 1 (mkExecutionId 1 2) 0 (caps_of apply) ResourceBudget_default.
End RunnerDemo.

Lemma write_reaches_kernel_once_witness :
  let ctx := RunnerDemo.ctx EffectDemo.toy_apply in
  let run := run_with_retry (RunnerDemo.runner EffectDemo.toy_apply) (InsertRecordTask RunnerDemo.toy_hash) [] [] ctx in
  let '(b', out) := run (EffectBus_new []) in
  world b' = [0] /\ out <> Panic /\ world (run b').1 = [0].
Proof.
  assert (writes RunnerDemo.toy_hash (RunnerDemo.ctx EffectDemo.toy_apply) [] (InsertRecordTask RunnerDemo.toy_hash)
    (ascii_bytes "record_id")
    (insert_command RunnerDemo.toy_hash (RunnerDemo.ctx EffectDemo.toy_apply)
       (mkInsertInputs 0 0 [] None None 0 None))) as Hw by (apply writes_record; reflexivity).
  assert (write_id RunnerDemo.toy_hash (RunnerDemo.ctx EffectDemo.toy_apply) ∉ dispatched (EffectBus_new (@nil Z)))
    as Hf by (apply not_elem_of_empty).
  pose proof (write_reaches_kernel_once RunnerDemo.toy_hash (RunnerDemo.runner EffectDemo.toy_apply)
    (RunnerDemo.runner EffectDemo.toy_apply) (RunnerDemo.ctx EffectDemo.toy_apply) [] [] [] _ _ _ (EffectBus_new []) Hw Hf) as H.
  destruct (kernel_answer _ _ _) as [w o] eqn:Ek. vm_compute in Ek. injection Ek as <- <-.
  specialize (H ltac:(discriminate)). cbn zeta.
  destruct (run_with_retry _ _ _ _ _ _) as [b' out]. destruct H as (H1 & -> & H3). split; [exact H1|]. split; [vm_compute; discriminate|exact H3].
Defined.

Lemma run_feeds_predecessors_witness :
  len RunnerDemo.edges <= u32_MAX /\ well_numbered RunnerDemo.tasks RunnerDemo.edges
  /\ acyclic (task_pairs RunnerDemo.tasks RunnerDemo.edges)
  /\ ExecutionGraph_build RunnerDemo.toy_hash (mkExecutionId 1 2) [] RunnerDemo.fingerprint [] RunnerDemo.tasks
       RunnerDemo.edges 0 = Ok RunnerDemo.graph
  /\ runner_run (guarded_runner (RunnerDemo.runner EffectDemo.toy_apply)) RunnerDemo.handle (RunnerDemo.start [])
     = runner_run (RunnerDemo.runner EffectDemo.toy_apply) RunnerDemo.handle (RunnerDemo.start []).
Proof.
  assert (len RunnerDemo.edges <= u32_MAX) as H1 by (vm_compute; discriminate).
  assert (well_numbered RunnerDemo.tasks RunnerDemo.edges) as H2.
  { split.
    - intros [|[|i]] t Ht; simpl in Ht; [injection Ht as <-; reflexivity ..|discriminate].
    - apply Forall_cons_2; [vm_compute; repeat split; discriminate|apply Forall_nil_2]. }
  assert (acyclic (task_pairs RunnerDemo.tasks RunnerDemo.edges)) as H3.
  { apply descending_acyclic. apply Forall_cons_2; [simpl; lia|apply Forall_nil_2]. }
  assert (ExecutionGraph_build RunnerDemo.toy_hash (mkExecutionId 1 2) [] RunnerDemo.fingerprint [] RunnerDemo.tasks
       RunnerDemo.edges 0 = Ok RunnerDemo.graph) as H4 by (vm_compute; reflexivity).
  split; [exact H1|]. split; [exact H2|]. split; [exact H3|]. split; [exact H4|].
  exact (proj1 (run_feeds_predecessors _ _ _ _ _ _ _ _ (RunnerDemo.runner EffectDemo.toy_apply) RunnerDemo.handle
                  (RunnerDemo.start []) H1 H2 H3 H4)).
Defined.

(** A kernel that is busy once: the policy allows two retries, the second attempt
    would succeed, and the run fails with a deduplication error. *)
Theorem write_is_never_retried :
  let '(s, o) := run_graph_inline (RunnerDemo.runner RunnerDemo.flaky_apply) (1, 2) (RunnerDemo.start []) in
  (match o with Err (Duplicate _) => True | _ => False end) /\ world (rn_bus s) = [0]
  /\ retry_limit ExecutionPolicy_default = 2.
Proof. vm_compute. done. Qed.
