(* ===== verification/Chunker.v ===== *)
(** * Splitting documents into chunks

    Models [crates/valori-ingest/src/chunker.rs]: the four strategies, their
    detection, and [DefaultChunker].

    A [&str] is the list of its characters (Unicode scalar values); [len] of the
    code counts UTF-8 bytes and is [str_len] here.  [char::is_whitespace] is the
    [White_Space] property, written out; the larger table [char::is_uppercase] is
    an argument.  Slicing [chars[start..end]] aborts when [start > end], so the
    strategies return an [outcome]. *)

From stdpp Require Import list strings.
From S2P Require Import Prelude.
From S2P Require Import Planner.

(** ** Characters and strings *)
Definition text_str : Type := list Z.

Definition NL : Z := 10.
Definition CR : Z := 13.

Definition utf8_width (c : Z) : Z :=
  if c <? 128 then 1 else if c <? 2048 then 2 else if c <? 65536 then 3 else 4.
Definition str_len (s : text_str) : Z := foldr (fun c n => utf8_width c + n) 0 s.

(** The UTF-8 form of a character and of a string. *)
Definition utf8_char (c : Z) : list Z :=
  if c <? 128 then [c]
  else if c <? 2048 then [192 + c / 64; 128 + c mod 64]
  else if c <? 65536 then [224 + c / 4096; 128 + c / 64 mod 64; 128 + c mod 64]
  else [240 + c / 262144; 128 + c / 4096 mod 64; 128 + c / 64 mod 64; 128 + c mod 64].
Definition utf8 (s : text_str) : list Z := s ≫= utf8_char.

(** [char::is_whitespace] *)
Definition char_is_whitespace (c : Z) : bool :=
  ((9 <=? c) && (c <=? 13)) || (c =? 32) || (c =? 133) || (c =? 160) || (c =? 5760)
  || ((8192 <=? c) && (c <=? 8202)) || (c =? 8232) || (c =? 8233) || (c =? 8239) || (c =? 8287) || (c =? 12288).

Definition is_ascii_digit (c : Z) : bool := (48 <=? c) && (c <=? 57).

(** [str::trim_start_matches], [trim_start], [trim_end], [trim]. *)
Fixpoint drop_prefix (p : Z -> bool) (s : text_str) : text_str :=
  match s with
  | [] => []
  | c :: s' => if p c then drop_prefix p s' else s
  end.
Definition str_trim_start (s : text_str) : text_str := drop_prefix char_is_whitespace s.
Definition str_trim_end (s : text_str) : text_str := reverse (drop_prefix char_is_whitespace (reverse s)).
Definition str_trim (s : text_str) : text_str := str_trim_end (str_trim_start s).

Fixpoint take_prefix (p : Z -> bool) (s : text_str) : text_str :=
  match s with
  | [] => []
  | c :: s' => if p c then c :: take_prefix p s' else []
  end.

Definition ends_with (c : Z) (s : text_str) : bool := bool_decide (last s = Some c).
Definition str_starts_with (p s : text_str) : bool := bool_decide (take (length p) s = p).

(** [str::split] at one character. *)
Fixpoint split_at (sep : Z) (s : text_str) : list text_str :=
  match s with
  | [] => [[]]
  | c :: s =>
      if c =? sep then [] :: split_at sep s
      else match split_at sep s with
           | w :: ws => (c :: w) :: ws
           | [] => [[c]]
           end
  end.

(** [strip_suffix] of a carriage return. *)
Definition strip_trailing_cr (s : text_str) : text_str := if ends_with CR s then take (length s - 1) s else s.

(** [str::lines]: the pieces that a newline ends lose a carriage return before it;
    the rest of the text is a line unless it is empty. *)
Fixpoint finish_lines (pieces : list text_str) : list text_str :=
  match pieces with
  | [] => []
  | [rest] => match rest with [] => [] | _ => [rest] end
  | p :: pieces => strip_trailing_cr p :: finish_lines pieces
  end.
Definition str_lines (s : text_str) : list text_str := finish_lines (split_at NL s).

(** [replace] of CR LF by LF. *)
Fixpoint replace_crlf (s : text_str) : text_str :=
  match s with
  | [] => []
  | c :: s1 =>
      match s1 with
      | c' :: s2 => if (c =? CR) && (c' =? NL) then NL :: replace_crlf s2 else c :: replace_crlf s1
      | [] => [c]
      end
  end.

(** [slice::join] *)
Fixpoint join (sep : text_str) (parts : list text_str) : text_str :=
  match parts with
  | [] => []
  | [p] => p
  | p :: parts => p ++ sep ++ join sep parts
  end.

(** The number of [split_whitespace]'s words; [inside]: the last character was not
    white space. *)
Fixpoint count_words (inside : bool) (s : text_str) : Z :=
  match s with
  | [] => 0
  | c :: s =>
      if char_is_whitespace c then count_words false s
      else (if inside then 0 else 1) + count_words true s
  end.

(** ** Chunks *)
Definition MAX_INGEST_TEXT_BYTES : Z := 10 * 1024 * 1024.

Record IngestChunk : Type := mkChunk { chunk_index : Z; chunk_title : text_str; chunk_text : text_str }.

Definition chunk_content_hash (blake3 : list Z -> list Z) (s : text_str) : list Z := blake3 (utf8 s).

(** [chunks.push(IngestChunk { index: chunks.len(), .. })] *)
Definition push_chunk (title text : text_str) (chunks : list IngestChunk) : list IngestChunk :=
  chunks ++ [mkChunk (len chunks) title text].

Definition normalize (s : text_str) : text_str :=
  join [NL] (str_trim_end <$> split_at NL (replace_crlf s)).

(** ** Fixed-size windows *)

(** [matches!(c, '.' | '!' | '?' | '\n')] *)
Definition is_boundary_char (c : Z) : bool := (c =? 46) || (c =? 33) || (c =? 63) || (c =? NL).

(** The two loops of [snap_boundary]: the first index of [pos..hi], and the last
    of [lo..pos], whose character ends a sentence. *)
Definition boundary_at (chars : text_str) (i : Z) : bool :=
  match vec_get chars i with Some c => is_boundary_char c | None => false end.

Fixpoint snap_forward (chars : text_str) (i : Z) (n : nat) : option Z :=
  match n with
  | O => None
  | S n => if boundary_at chars i then Some (i + 1) else snap_forward chars (i + 1) n
  end.
Fixpoint snap_backward (chars : text_str) (i : Z) (n : nat) : option Z :=
  match n with
  | O => None
  | S n => if boundary_at chars (i - 1) then Some i else snap_backward chars (i - 1) n
  end.

Definition snap_boundary (chars : text_str) (pos window : Z) : Z :=
  if len chars <=? pos then len chars
  else
    let lo := Z.max 0 (pos - window) in
    let hi := Z.min (pos + window) (len chars) in
    match snap_forward chars pos (Z.to_nat (hi - pos)) with
    | Some e => e
    | None =>
        match snap_backward chars pos (Z.to_nat (pos - lo)) with
        | Some e => e
        | None => pos
        end
    end.

(** [&chars[start..end]] *)
Definition chars_slice (chars : text_str) (start end_ : Z) : outcome Empty_set text_str :=
  if (start <=? end_) && (end_ <=? len chars) then
    Ok (take (Z.to_nat (end_ - start)) (drop (Z.to_nat start) chars))
  else Panic.

Fixpoint fixed_loop (fuel : nat) (chars : text_str) (size step start : Z) (chunks : list IngestChunk) :
    outcome Empty_set (list IngestChunk) :=
  if start <? len chars then
    match fuel with
    | O => Hang
    | S fuel =>
        let end_ := snap_boundary chars (Z.min (start + size) (len chars)) 80 in
        do* raw := chars_slice chars start end_ in
        let text := str_trim raw in
        let chunks' := if 30 <=? str_len text then push_chunk [] text chunks else chunks in
        if len chars <=? end_ then Ok chunks' else fixed_loop fuel chars size step (start + step) chunks'
    end
  else Ok chunks.

Definition fixed_size (size : Z) : Z := Z.max size 50.
Definition fixed_overlap (size overlap : Z) : Z := Z.min overlap (fixed_size size / 2).
Definition fixed_step (size overlap : Z) : Z := fixed_size size - fixed_overlap size overlap.

Definition chunk_fixed_str (s : text_str) (size overlap : Z) : outcome Empty_set (list IngestChunk) :=
  fixed_loop (S (length s)) s (fixed_size size) (fixed_step size overlap) 0 [].

Definition chunk_fixed (s : text_str) (size overlap : Z) : outcome Empty_set (list IngestChunk) :=
  chunk_fixed_str (normalize s) size overlap.

(** ** Conversations *)
Definition strip_timestamp (line : text_str) : text_str :=
  let s := str_trim line in
  if (str_len s <=? 8) && forallb (fun c => is_ascii_digit c || (c =? 58)) s then [] else s.

Definition is_empty (s : text_str) : bool := match s with [] => true | _ => false end.

(** The positions of the elements that satisfy a test, from [i]. *)
Fixpoint positions (p : text_str -> bool) (i : nat) (l : list text_str) : list nat :=
  match l with
  | [] => []
  | x :: l => if p x then i :: positions p (S i) l else positions p (S i) l
  end.

(** Consecutive positions as ranges; the last ends at [stop]. *)
Fixpoint ranges (ps : list nat) (stop : nat) : list (nat * nat) :=
  match ps with
  | [] => []
  | p :: ps => (p, match ps with q :: _ => q | [] => stop end) :: ranges ps stop
  end.

Definition range_of {A} (l : list A) (r : nat * nat) : list A := take (r.2 - r.1) (drop r.1 l).

Definition is_question (l : text_str) : bool := ends_with 63 (str_trim l).

Definition question_chunk (clean : list text_str) (chunks : list IngestChunk) (r : nat * nat) : list IngestChunk :=
  let text_block := str_trim (join [32] (range_of clean r)) in
  if str_len text_block <? 20 then chunks
  else push_chunk (take 80 (default [] (clean !! r.1))) text_block chunks.

Fixpoint reindex_chunks (i : Z) (chunks : list IngestChunk) : list IngestChunk :=
  match chunks with
  | [] => []
  | c :: chunks => mkChunk i (chunk_title c) (chunk_text c) :: reindex_chunks (i + 1) chunks
  end.

Definition chunk_conversation (s : text_str) : outcome Empty_set (list IngestChunk) :=
  let clean := filter (fun l => is_empty l = false) (strip_timestamp <$> str_lines (normalize s)) in
  match clean with
  | [] => Ok []
  | _ =>
      let q_indices := positions is_question 0 clean in
      if len q_indices <? 2 then chunk_fixed_str (join [NL] clean) 800 100
      else
        let chunks := foldl (question_chunk clean) [] (ranges q_indices (length clean)) in
        match q_indices with
        | S k :: _ =>
            let intro := str_trim (join [32] (take (S k) clean)) in
            if 30 <=? str_len intro then
              Ok (mkChunk 0 (ascii_bytes "Introduction") intro :: reindex_chunks 1 chunks)
            else Ok chunks
        | _ => Ok chunks
        end
  end.

Section Unicode.
Context (is_uppercase : Z -> bool).

(** ** Sections *)
Definition is_section_header (line : text_str) : bool :=
  let s := str_trim line in
  match s with
  | [] => false
  | first :: _ =>
      if first =? 35 then 3 <=? str_len (str_trim (drop_prefix (fun c => c =? 35) s))
      else if is_ascii_digit first then
        let head := take_prefix (fun c => is_ascii_digit c || (c =? 46)) s in
        let rest := str_trim (drop (length head) s) in
        (2 <=? str_len rest)
        && match rest with c :: _ => is_uppercase c | [] => false end
        && (str_len rest <=? 80) && negb (ends_with 46 rest)
      else false
  end.

(** The header positions outside fenced code. *)
Fixpoint header_positions (in_code : bool) (i : nat) (ls : list text_str) : list nat :=
  match ls with
  | [] => []
  | l :: ls =>
      let s := str_trim l in
      if str_starts_with [96; 96; 96] s then header_positions (negb in_code) (S i) ls
      else if in_code then header_positions in_code (S i) ls
      else if is_section_header s then i :: header_positions in_code (S i) ls
      else header_positions in_code (S i) ls
  end.

(** The loop over the sections: a section ends at the next header, the last one at
    the end of the text; short bodies are skipped, except the last. *)
Fixpoint section_loop (ls : list text_str) (hs : list nat) (chunks : list IngestChunk) : list IngestChunk :=
  match hs with
  | [] => chunks
  | start :: hs =>
      let end_ := match hs with next :: _ => next | [] => length ls end in
      let title := str_trim (default [] (ls !! start)) in
      let body := str_trim (join [NL] (range_of ls (S start, end_))) in
      if (str_len body <? 30) && negb (bool_decide (hs = [])) then section_loop ls hs chunks
      else section_loop ls hs (push_chunk title (title ++ [NL] ++ body) chunks)
  end.

Definition chunk_tree (s : text_str) : list IngestChunk :=
  let ls := str_lines (normalize s) in
  let hs := header_positions false 0 ls in
  if len hs <? 2 then [] else section_loop ls hs [].

(** ** Sentences *)
Definition is_sentence_end (c : Z) : bool := (c =? 46) || (c =? 33) || (c =? 63).

(** The first character after white space decides whether a sentence ends. *)
Definition ends_sentence (rest : text_str) : bool :=
  match drop_prefix (fun c => (c =? 32) || (c =? NL)) rest with
  | [] => true
  | c :: _ => is_uppercase c || (c =? 34) || (c =? 39) || (c =? 40)
  end.

Fixpoint split_loop (rest current : text_str) (sentences : list text_str) : text_str * list text_str :=
  match rest with
  | [] => (current, sentences)
  | c :: rest =>
      let current := current ++ [c] in
      if is_sentence_end c && ends_sentence rest && (4 <=? count_words false (str_trim current)) then
        split_loop rest [] (sentences ++ [str_trim current])
      else split_loop rest current sentences
  end.

Definition split_sentences (s : text_str) : list text_str :=
  let '(current, sentences) := split_loop s [] [] in
  if is_empty (str_trim current) then sentences else sentences ++ [str_trim current].

Definition WINDOW : nat := 2.

Definition sentence_window (sentences : list text_str) (i : nat) : IngestChunk :=
  let lo := (i - WINDOW)%nat in
  let hi := Nat.min (i + WINDOW + 1) (length sentences) in
  mkChunk (Z.of_nat i) [] (join [32] (range_of sentences (lo, hi))).

Definition chunk_sentence_window (s : text_str) : list IngestChunk :=
  let sentences := split_sentences (normalize s) in
  sentence_window sentences <$> seq 0 (length sentences).

(** ** Strategies *)
Inductive Strategy : Type := StTree | StConversation | StSentence | StFixed.

(** [s.contains(':')] *)
Definition contains (c : Z) (s : text_str) : bool := existsb (Z.eqb c) s.

Definition is_timestamp_line (l : text_str) : bool :=
  let s := str_trim l in
  (4 <=? str_len s) && match s with c :: _ => is_ascii_digit c | [] => false end && contains 58 s
  && (str_len s <=? 8).

Definition count (p : text_str -> bool) (ls : list text_str) : Z := len (filter (fun l => p l = true) ls).

Definition detect_strategy (s : text_str) : Strategy :=
  let ls := str_lines s in
  let total := Z.max (len ls) 1 in
  let header_lines := count is_section_header ls in
  let ts_lines := count is_timestamp_line ls in
  let question_lines := count is_question ls in
  if total <? header_lines * 10 then StTree
  else if (total <? ts_lines * 5) || ((3 <? question_lines) && (3 <? ts_lines)) then StConversation
  else StFixed.

Definition parse_strategy (strategy : text_str) : option Strategy :=
  if decide (strategy = ascii_bytes "tree") then Some StTree
  else if decide (strategy = ascii_bytes "conversation") then Some StConversation
  else if decide (strategy = ascii_bytes "sentence") then Some StSentence
  else if decide (strategy = ascii_bytes "fixed") then Some StFixed
  else None.

Definition chunk_with (st : Strategy) (s : text_str) (size overlap : Z) :
    outcome Empty_set (list IngestChunk * text_str) :=
  match st with
  | StTree =>
      let nodes := chunk_tree s in
      if 2 <=? len nodes then Ok (nodes, ascii_bytes "tree")
      else do* c := chunk_fixed s size overlap in Ok (c, ascii_bytes "tree->fixed")
  | StConversation =>
      do* nodes := chunk_conversation s in
      if 2 <=? len nodes then Ok (nodes, ascii_bytes "conversation")
      else do* c := chunk_fixed s size overlap in Ok (c, ascii_bytes "conversation->fixed")
  | StSentence => Ok (chunk_sentence_window s, ascii_bytes "sentence")
  | StFixed => do* c := chunk_fixed s size overlap in Ok (c, ascii_bytes "fixed")
  end.

(** [chunk_document]: any other name means detection. *)
Definition chunk_document (s strategy : text_str) (size overlap : Z) :
    outcome Empty_set (list IngestChunk * text_str) :=
  match parse_strategy strategy with
  | Some st => chunk_with st s size overlap
  | None => chunk_with (detect_strategy s) s size overlap
  end.
End Unicode.
