(* ===== verification/ChunkerTheorems.v ===== *)
(** * What the chunker promises

    Fixed-size chunking returns, its windows start and are cut where they should
    and leave no gap when the overlap is at least 79 characters; every strategy returns when the
    chunk size is at least 80; sentence splitting loses only white space.  Concrete
    runs show what happens below those bounds. *)

From stdpp Require Import list strings.
From S2P Require Import Prelude.
From S2P Require Import Planner.
From S2P Require Import Chunker.

Implicit Types (s chars : text_str) (cs : list IngestChunk).

(** ** Boundaries *)
Lemma snap_forward_range chars i n e : snap_forward chars i n = Some e -> i < e <= i + Z.of_nat n.
Proof.
  revert i. induction n as [|n IH]; intros i; cbn [snap_forward]; [done|].
  destruct (boundary_at chars i); [intros [= <-]; lia|]. intros H%IH. lia.
Qed.

Lemma snap_backward_range chars i n e : snap_backward chars i n = Some e -> i - Z.of_nat n < e <= i.
Proof.
  revert i. induction n as [|n IH]; intros i; cbn [snap_backward]; [done|].
  destruct (boundary_at chars (i - 1)); [intros [= <-]; lia|]. intros H%IH. lia.
Qed.

Lemma snap_boundary_range chars pos window :
  0 < pos <= len chars -> 0 < window ->
  let e := snap_boundary chars pos window in
  Z.max 0 (pos - window) < e <= Z.min (pos + window) (len chars) /\ (pos = len chars -> e = len chars).
Proof.
  intros Hp Hw. cbn zeta. unfold snap_boundary. destruct (Z.leb_spec (len chars) pos); [lia|].
  destruct (snap_forward _ _ _) eqn:Ef; [apply snap_forward_range in Ef; lia|].
  destruct (snap_backward _ _ _) eqn:Eb; [apply snap_backward_range in Eb; lia|]. lia.
Qed.

(** The character at [i] ends a sentence. *)
Definition ends_sentence chars (i : Z) : Prop := exists c, vec_get chars i = Some c /\ c ∈ [46; 33; 63; NL].

(** [e] is where a window that should end at [pos] is cut: behind the first end of
    a sentence at most [window] characters ahead, else behind the last one at most
    [window] characters back, else at [pos]; at the end of the text if [pos] is
    there. *)
Definition is_cut chars (pos window e : Z) : Prop :=
  let lo := Z.max 0 (pos - window) in
  let hi := Z.min (pos + window) (len chars) in
  if len chars <=? pos then e = len chars
  else
    (pos < e <= hi /\ ends_sentence chars (e - 1) /\ forall i, pos <= i < e - 1 -> ~ ends_sentence chars i)
    \/ (lo < e <= pos /\ ends_sentence chars (e - 1) /\ forall i, e <= i < hi -> ~ ends_sentence chars i)
    \/ (e = pos /\ forall i, lo <= i < hi -> ~ ends_sentence chars i).

Lemma boundary_at_iff chars i : boundary_at chars i = true <-> ends_sentence chars i.
Proof.
  unfold boundary_at, ends_sentence. destruct (vec_get chars i) as [c|]; [|split; [done|by intros (? & ? & _)]].
  unfold is_boundary_char. rewrite !orb_true_iff, !Z.eqb_eq. split.
  - intros E. exists c. split; [done|]. rewrite !elem_of_cons. tauto.
  - intros (? & [= <-] & E). rewrite !elem_of_cons, elem_of_nil in E. tauto.
Qed.

Lemma snap_forward_spec chars i n :
  0 <= i ->
  match snap_forward chars i n with
  | Some e => i < e <= i + Z.of_nat n /\ ends_sentence chars (e - 1) /\ forall k, i <= k < e - 1 -> ~ ends_sentence chars k
  | None => forall k, i <= k < i + Z.of_nat n -> ~ ends_sentence chars k
  end.
Proof.
  revert i. induction n as [|n IH]; intros i Hi; cbn [snap_forward]; [lia|].
  destruct (boundary_at chars i) eqn:E.
  { apply boundary_at_iff in E. replace (i + 1 - 1) with i by lia. split_and!; [lia|lia|done|lia]. }
  assert (~ ends_sentence chars i) as Hn by (rewrite <- boundary_at_iff; by rewrite E).
  specialize (IH (i + 1) ltac:(lia)). destruct (snap_forward chars (i + 1) n) as [e|].
  - destruct IH as (He & Hs & IH). split_and!; [lia|lia|done|]. intros k Hk. destruct (decide (k = i)) as [-> | ?]; [done|apply IH; lia].
  - intros k Hk. destruct (decide (k = i)) as [-> | ?]; [done|apply IH; lia].
Qed.

Lemma snap_backward_spec chars i n :
  0 <= i - Z.of_nat n ->
  match snap_backward chars i n with
  | Some e => i - Z.of_nat n < e <= i /\ ends_sentence chars (e - 1) /\ forall k, e <= k < i -> ~ ends_sentence chars k
  | None => forall k, i - Z.of_nat n <= k < i -> ~ ends_sentence chars k
  end.
Proof.
  revert i. induction n as [|n IH]; intros i Hi; cbn [snap_backward]; [lia|].
  destruct (boundary_at chars (i - 1)) eqn:E.
  { apply boundary_at_iff in E. split_and!; [lia|lia|done|lia]. }
  assert (~ ends_sentence chars (i - 1)) as Hn by (rewrite <- boundary_at_iff; by rewrite E).
  specialize (IH (i - 1) ltac:(lia)). destruct (snap_backward chars (i - 1) n) as [e|].
  - destruct IH as (He & Hs & IH). split_and!; [lia|lia|done|]. intros k Hk. destruct (decide (k = i - 1)) as [-> | ?]; [done|apply IH; lia].
  - intros k Hk. destruct (decide (k = i - 1)) as [-> | ?]; [done|apply IH; lia].
Qed.

Lemma snap_boundary_cut chars pos window :
  0 <= pos -> 0 <= window -> is_cut chars pos window (snap_boundary chars pos window).
Proof.
  intros Hp Hw. unfold is_cut, snap_boundary. destruct (Z.leb_spec (len chars) pos); [done|]. cbn zeta.
  set (lo := Z.max 0 (pos - window)). set (hi := Z.min (pos + window) (len chars)).
  pose proof (snap_forward_spec chars pos (Z.to_nat (hi - pos)) Hp) as Hf.
  destruct (snap_forward _ _ _) as [e|]; [left; split_and!; [lia|lia|apply Hf..]|].
  pose proof (snap_backward_spec chars pos (Z.to_nat (pos - lo)) ltac:(lia)) as Hb. right.
  assert (forall e, (forall k, e <= k < pos -> ~ ends_sentence chars k) -> forall k, e <= k < hi -> ~ ends_sentence chars k) as Hboth.
  { intros e He k Hk. destruct (Z.lt_ge_cases k pos); [apply He|apply Hf]; lia. }
  destruct (snap_backward _ _ _) as [e|]; [left|right].
  - destruct Hb as (He & Hs & Hb). split_and!; [lia|lia|done|]. by apply Hboth.
  - split; [done|]. apply Hboth. intros k Hk. apply Hb. lia.
Qed.

(** ** The windows of the fixed-size loop *)
Definition window_end chars (size start : Z) : Z := snap_boundary chars (Z.min (start + size) (len chars)) 80.

Fixpoint windows (fuel : nat) chars (size step start : Z) : list (Z * Z) :=
  match fuel with
  | O => []
  | S fuel =>
      if start <? len chars then
        let e := window_end chars size start in
        (start, e) :: if len chars <=? e then [] else windows fuel chars size step (start + step)
      else []
  end.

Definition window_text chars (w : Z * Z) : text_str :=
  str_trim (take (Z.to_nat (w.2 - w.1)) (drop (Z.to_nat w.1) chars)).

Definition push_window chars cs (w : Z * Z) : list IngestChunk :=
  if 30 <=? str_len (window_text chars w) then push_chunk [] (window_text chars w) cs else cs.

Lemma window_end_range chars size start :
  0 <= start < len chars -> 80 <= size ->
  start < window_end chars size start <= len chars
  /\ window_end chars size start <= start + size + 80
  /\ (window_end chars size start < len chars -> start + size - 80 < window_end chars size start).
Proof.
  intros Hs Hz. unfold window_end.
  pose proof (snap_boundary_range chars (Z.min (start + size) (len chars)) 80) as H. cbn zeta in H. lia.
Qed.

Lemma fixed_loop_windows fuel chars size step start cs :
  80 <= size -> 0 < step -> 0 <= start -> len chars - start < Z.of_nat fuel ->
  fixed_loop fuel chars size step start cs = Ok (foldl (push_window chars) cs (windows fuel chars size step start)).
Proof.
  intros Hz Hst. revert start cs. induction fuel as [|fuel IH]; intros start cs Hs Hf; cbn [fixed_loop windows].
  { destruct (Z.ltb_spec start (len chars)); [lia|done]. }
  destruct (Z.ltb_spec start (len chars)) as [Hlt|]; [|done].
  destruct (window_end_range chars size start) as (He & _); [lia..|]. fold (window_end chars size start).
  unfold chars_slice. rewrite (proj2 (Z.leb_le start _)), (proj2 (Z.leb_le _ (len chars))) by lia. cbn [andb obind].
  destruct (Z.leb_spec (len chars) (window_end chars size start)); [done|]. cbn [foldl].
  rewrite IH by lia. done.
Qed.

(** The windows are where they should be, and leave no gap when a step is short
    enough to reach back to the end of the window before it. *)
Lemma windows_in_range fuel chars size step start :
  80 <= size -> 0 < step -> 0 <= start ->
  Forall (fun w => 0 <= w.1 < w.2 /\ w.2 <= len chars /\ w.2 - w.1 <= size + 80) (windows fuel chars size step start).
Proof.
  intros Hz Hst. revert start. induction fuel as [|fuel IH]; intros start Hs; cbn [windows]; [constructor|].
  destruct (Z.ltb_spec start (len chars)) as [Hlt|]; [|constructor].
  destruct (window_end_range chars size start) as (He & Hw & _); [lia..|].
  constructor; [simpl; lia|]. destruct (_ <=? _); [constructor|apply IH; lia].
Qed.

Lemma windows_cover fuel chars size step start p :
  80 <= size -> 0 < step <= size - 79 -> 0 <= start -> len chars - start < Z.of_nat fuel ->
  start <= p < len chars -> exists w, w ∈ windows fuel chars size step start /\ w.1 <= p < w.2.
Proof.
  intros Hz Hst. revert start. induction fuel as [|fuel IH]; intros start Hs Hf Hp; [lia|]. cbn [windows].
  destruct (Z.ltb_spec start (len chars)) as [Hlt|]; [|lia].
  destruct (window_end_range chars size start) as (He & _ & Hb); [lia..|].
  destruct (Z.lt_ge_cases p (window_end chars size start)) as [Hin|Hout].
  - exists (start, window_end chars size start). split; [by left|simpl; lia].
  - destruct (Z.leb_spec (len chars) (window_end chars size start)); [lia|].
    destruct (IH (start + step)) as (w & Hw & ?); [lia..|]. exists w. split; [by right|done].
Qed.

(** Where the windows start and end, and that the last one is the one that reaches
    the end of the text. *)
Lemma windows_lookup fuel chars size step start i w :
  80 <= size -> 0 < step -> 0 <= start -> windows fuel chars size step start !! i = Some w ->
  w.1 = start + Z.of_nat i * step /\ w.1 < len chars /\ is_cut chars (Z.min (w.1 + size) (len chars)) 80 w.2
  /\ ((S i < length (windows fuel chars size step start))%nat -> w.2 < len chars).
Proof.
  intros Hz Hst. revert start i. induction fuel as [|fuel IH]; intros start i Hs; cbn [windows]; [done|].
  destruct (Z.ltb_spec start (len chars)) as [Hlt|]; [|done]. cbn zeta.
  destruct i as [|i]; cbn [lookup list_lookup].
  - intros [= <-]. cbn [fst snd]. split_and!; [lia|done|apply snap_boundary_cut; lia|].
    destruct (Z.leb_spec (len chars) (window_end chars size start)); cbn [length]; lia.
  - destruct (Z.leb_spec (len chars) (window_end chars size start)); [done|]. intros Hi.
    destruct (IH (start + step) i ltac:(lia) Hi) as (E1 & E2 & E3 & E4). split_and!; [lia|done|done|].
    cbn [length]. intros. apply E4. lia.
Qed.

(** ** Numbering *)
Definition in_sequence cs : Prop := chunk_index <$> cs = seqZ 0 (len cs).

Lemma numbered_push title text cs : in_sequence cs -> in_sequence (push_chunk title text cs).
Proof.
  unfold in_sequence, push_chunk. intros H. rewrite fmap_app, H, len_app. change (len [_]) with 1.
  rewrite seqZ_app by (pose proof (len_nonneg cs); lia). done.
Qed.

Lemma numbered_foldl {A} (f : list IngestChunk -> A -> list IngestChunk) (l : list A) cs :
  (forall cs x, in_sequence cs -> in_sequence (f cs x)) -> in_sequence cs -> in_sequence (foldl f cs l).
Proof. intros Hf. revert cs. induction l; intros cs H; simpl; auto. Qed.

Lemma numbered_reindex i cs : chunk_index <$> reindex_chunks i cs = seqZ i (len cs).
Proof.
  revert i. induction cs as [|c cs IH]; intros i; [done|]. cbn [reindex_chunks fmap list_fmap].
  rewrite len_cons, seqZ_cons by (pose proof (len_nonneg cs); lia). cbn [chunk_index]. f_equal.
  rewrite (IH (i + 1)). f_equal; lia.
Qed.

Lemma len_reindex i cs : len (reindex_chunks i cs) = len cs.
Proof. revert i. induction cs as [|c cs IH]; intros i; [done|]. cbn [reindex_chunks]. by rewrite !len_cons, IH. Qed.

Lemma numbered_push_window chars cs w : in_sequence cs -> in_sequence (push_window chars cs w).
Proof. unfold push_window. intros. case_match; [by apply numbered_push|done]. Qed.

Lemma texts_push_windows chars ws cs :
  chunk_text <$> foldl (push_window chars) cs ws =
  (chunk_text <$> cs) ++ filter (fun t => 30 <= str_len t) (window_text chars <$> ws).
Proof.
  revert cs. induction ws as [|w ws IH]; intros cs; csimpl; [by rewrite app_nil_r|]. rewrite IH, filter_cons.
  unfold push_window. destruct (Z.leb_spec 30 (str_len (window_text chars w))).
  - rewrite decide_True by done. unfold push_chunk. rewrite fmap_app, <- app_assoc. done.
  - rewrite decide_False by lia. done.
Qed.

(** ** Fixed-size chunking *)
Lemma fixed_step_pos size overlap : 0 <= overlap -> 0 < fixed_step size overlap.
Proof. intros. unfold fixed_step, fixed_overlap, fixed_size. Z.to_euclidean_division_equations. lia. Qed.

Lemma chunk_fixed_str_windows s size overlap :
  80 <= size -> 0 <= overlap ->
  chunk_fixed_str s size overlap
  = Ok (foldl (push_window s) [] (windows (S (length s)) s (fixed_size size) (fixed_step size overlap) 0)).
Proof.
  intros Hz Ho. unfold chunk_fixed_str. apply fixed_loop_windows; [unfold fixed_size; lia|by apply fixed_step_pos|lia|].
  unfold len. lia.
Qed.

(** C28: With a chunk size of at least 158 characters and an overlap of at
    least 79, fixed-size chunking returns without a panic. Its i-th window starts
    at i times (size - min(overlap, size / 2)) and is cut behind the first end of
    a sentence at most 80 characters past its nominal end, else behind the last
    one at most 80 before it, else there; only the last window reaches the end of
    the text; each is at most the chunk size plus 80 long. These windows cover
    every character of the text, and the chunks are, in order and numbered from 0,
    the trimmed texts of the windows that have at least 30 bytes. *)
Theorem chunk_fixed_covers s size overlap :
  158 <= size -> 79 <= overlap ->
  exists cs ws, chunk_fixed_str s size overlap = Ok cs
    /\ chunk_text <$> cs = filter (fun t => 30 <= str_len t) (window_text s <$> ws)
    /\ chunk_index <$> cs = seqZ 0 (len cs)
    /\ (forall i w, ws !! i = Some w ->
          w.1 = Z.of_nat i * (size - Z.min overlap (size / 2)) /\ w.1 < len s
          /\ is_cut s (Z.min (w.1 + size) (len s)) 80 w.2
          /\ w.1 < w.2 <= len s /\ w.2 - w.1 <= size + 80
          /\ ((S i < length ws)%nat -> w.2 < len s))
    /\ forall p, 0 <= p < len s -> exists w, w ∈ ws /\ w.1 <= p < w.2.
Proof.
  intros Hz Ho. rewrite chunk_fixed_str_windows by lia. eexists _, _. split; [done|].
  assert (fixed_size size = size) as E by (unfold fixed_size; lia).
  assert (fixed_step size overlap = size - Z.min overlap (size / 2)) as Es by (unfold fixed_step, fixed_overlap; by rewrite E).
  pose proof (fixed_step_pos size overlap ltac:(lia)) as Hst. rewrite E. rewrite Es in *. split_and!.
  - by rewrite texts_push_windows.
  - by apply numbered_foldl; [intros; apply numbered_push_window|].
  - intros i w Hw. assert (80 <= size) as Hz' by lia.
    destruct (windows_lookup _ _ _ _ _ _ _ Hz' Hst (Z.le_refl 0) Hw) as (E1 & E2 & E3 & E4).
    pose proof (windows_in_range (S (length s)) s size _ 0 Hz' Hst ltac:(lia)) as Hr.
    rewrite Forall_lookup in Hr. specialize (Hr _ _ Hw). simpl in Hr. split_and!; (done || lia).
  - intros p Hp. apply windows_cover; [lia| |lia|unfold len; lia|lia]. split; [done|].
    Z.to_euclidean_division_equations. lia.
Qed.

(** A text of 400 letters with one full stop: three windows. *)
Definition stop_text : text_str := replicate 150 97 ++ [46] ++ replicate 249 98.

Lemma chunk_fixed_covers_witness :
  158 <= 200 /\ 79 <= 100 /\
  exists cs ws, chunk_fixed_str stop_text 200 100 = Ok cs
    /\ chunk_text <$> cs = filter (fun t => 30 <= str_len t) (window_text stop_text <$> ws)
    /\ (forall i w, ws !! i = Some w -> w.1 = Z.of_nat i * 100)
    /\ forall p, 0 <= p < 400 -> exists w, w ∈ ws /\ w.1 <= p < w.2.
Proof.
  split; [lia|]. split; [lia|].
  destruct (chunk_fixed_covers stop_text 200 100 ltac:(lia) ltac:(lia)) as (cs & ws & E & Ht & _ & Hw & Hc).
  exists cs, ws. split_and!; [exact E|exact Ht|intros i w Hi; exact (proj1 (Hw i w Hi))|exact Hc].
Defined.

(** ** Every strategy *)
Section Strategies.
Context (is_uppercase : Z -> bool).

Lemma chunk_fixed_ok s size overlap :
  80 <= size -> 0 <= overlap -> exists cs, chunk_fixed s size overlap = Ok cs /\ in_sequence cs.
Proof.
  intros Hz Ho. unfold chunk_fixed. rewrite chunk_fixed_str_windows by done. eexists. split; [done|].
  by apply numbered_foldl; [intros; apply numbered_push_window|].
Qed.

Lemma numbered_question_chunk clean cs r : in_sequence cs -> in_sequence (question_chunk clean cs r).
Proof. intros. unfold question_chunk. case_match; [done|by apply numbered_push]. Qed.

Lemma chunk_conversation_ok s : exists cs, chunk_conversation s = Ok cs /\ in_sequence cs.
Proof.
  unfold chunk_conversation. destruct (filter _ _) as [|l clean']; [by exists []|].
  set (clean := l :: clean'). cbn zeta. destruct (_ <? 2) eqn:E.
  { rewrite chunk_fixed_str_windows by lia. eexists. split; [done|].
    by apply numbered_foldl; [intros; apply numbered_push_window|]. }
  set (cs := foldl (question_chunk clean) [] _).
  assert (in_sequence cs) as Hn by (by apply numbered_foldl; [intros; apply numbered_question_chunk|]).
  destruct (positions is_question 0 clean) as [|[|k] qs]; [by exists cs..|].
  destruct (30 <=? _); [|by exists cs]. eexists. split; [done|]. unfold in_sequence. csimpl.
  rewrite len_cons, len_reindex, numbered_reindex, (seqZ_cons 0) by (pose proof (len_nonneg cs); lia).
  f_equal. f_equal; lia.
Qed.

Lemma numbered_section_loop ls hs cs : in_sequence cs -> in_sequence (section_loop ls hs cs).
Proof.
  revert cs. induction hs as [|h hs IH]; intros cs H; [done|]. cbn [section_loop]. cbn zeta.
  case_match; [by apply IH|]. by apply IH, numbered_push.
Qed.

Lemma chunk_tree_numbered s : in_sequence (chunk_tree is_uppercase s).
Proof. unfold chunk_tree. case_match; [done|]. by apply numbered_section_loop. Qed.

Lemma chunk_sentence_window_numbered s : in_sequence (chunk_sentence_window is_uppercase s).
Proof.
  unfold in_sequence, chunk_sentence_window. generalize (split_sentences is_uppercase (normalize s)) as l. intros l.
  unfold len. rewrite length_fmap, length_seq, <- list_fmap_compose. unfold seqZ. rewrite Nat2Z.id.
  apply list_fmap_ext. intros i x Hx. simpl. lia.
Qed.

Lemma chunk_with_ok st s size overlap :
  80 <= size -> 0 <= overlap ->
  exists cs name, chunk_with is_uppercase st s size overlap = Ok (cs, name) /\ in_sequence cs.
Proof.
  intros Hz Ho. destruct (chunk_fixed_ok s size overlap) as (cf & Hf & Hnf); [done..|].
  destruct st; unfold chunk_with; rewrite ?Hf; cbn [obind].
  - destruct (2 <=? _); eexists _, _; (split; [done|]); [apply chunk_tree_numbered|done].
  - destruct (chunk_conversation_ok s) as (cc & -> & Hnc). cbn [obind].
    destruct (2 <=? _); by eexists _, _.
  - eexists _, _. split; [done|]. apply chunk_sentence_window_numbered.
  - by eexists _, _.
Qed.

(** With a chunk size of at least 80, every strategy chunks every text without
    a panic, and the chunks are numbered from 0. *)
Theorem chunk_document_total s strategy size overlap :
  80 <= size -> 0 <= overlap ->
  exists cs name, chunk_document is_uppercase s strategy size overlap = Ok (cs, name)
    /\ chunk_index <$> cs = seqZ 0 (len cs).
Proof. intros Hz Ho. unfold chunk_document. destruct (parse_strategy strategy); by apply chunk_with_ok. Qed.

(** ** Sentences *)

(** The characters of a text that are not white space. *)
Definition ink s : text_str := filter (fun c => char_is_whitespace c = false) s.

Lemma ink_app s s' : ink (s ++ s') = ink s ++ ink s'.
Proof. apply filter_app. Qed.

Lemma ink_drop_prefix s : ink (drop_prefix char_is_whitespace s) = ink s.
Proof.
  induction s as [|c s IH]; [done|]. cbn [drop_prefix]. destruct (char_is_whitespace c) eqn:E; [|done].
  rewrite IH. symmetry. apply filter_cons_False. congruence.
Qed.

Lemma ink_reverse s : ink (reverse s) = reverse (ink s).
Proof. apply filter_reverse. Qed.

Lemma ink_trim s : ink (str_trim s) = ink s.
Proof.
  unfold str_trim, str_trim_end, str_trim_start. rewrite ink_reverse, ink_drop_prefix, ink_reverse, reverse_involutive.
  apply ink_drop_prefix.
Qed.

Lemma split_loop_ink rest current sentences :
  let '(c, ss) := split_loop is_uppercase rest current sentences in
  ink (concat ss) ++ ink c = ink (concat sentences) ++ ink current ++ ink rest.
Proof.
  revert current sentences. induction rest as [|c rest IH]; intros current sentences; cbn [split_loop].
  { by rewrite app_nil_r. }
  assert (ink (c :: rest) = ink [c] ++ ink rest) as -> by apply (ink_app [c] rest). cbn zeta. destruct (_ && _).
  - specialize (IH [] (sentences ++ [str_trim (current ++ [c])])). destruct (split_loop _ rest _ _).
    rewrite IH, concat_app, ink_app. cbn [concat]. rewrite app_nil_r, ink_trim, ink_app, <- !app_assoc. done.
  - specialize (IH (current ++ [c]) sentences). destruct (split_loop _ rest _ _).
    by rewrite IH, ink_app, <- !app_assoc.
Qed.

(** Splitting a text into sentences loses nothing but white space: every other
    character appears, once and in order. *)
Theorem sentences_lose_only_space s : ink (concat (split_sentences is_uppercase s)) = ink s.
Proof.
  unfold split_sentences. pose proof (split_loop_ink s [] []) as H. destruct (split_loop _ _ _ _) as [c ss].
  simpl in H. rewrite <- H. destruct (is_empty (str_trim c)) eqn:E.
  - rewrite <- (ink_trim c). destruct (str_trim c); [by rewrite app_nil_r|done].
  - rewrite concat_app, ink_app. cbn [concat]. by rewrite app_nil_r, ink_trim.
Qed.
End Strategies.

Definition ascii_uppercase (c : Z) : bool := (65 <=? c) && (c <=? 90).

Lemma chunk_document_total_witness :
  80 <= 200 /\ 0 <= 0 /\
  exists cs name, chunk_document ascii_uppercase stop_text (ascii_bytes "auto") 200 0 = Ok (cs, name)
    /\ chunk_index <$> cs = seqZ 0 (len cs).
Proof. split; [lia|]. split; [lia|]. apply (chunk_document_total ascii_uppercase); lia. Defined.

(** ** Below the bounds *)

(** A chunk size of 50 aborts the process on a text of 346 characters: the end of
    the second window is moved back before its start. *)
Theorem small_chunk_size_aborts :
  chunk_document ascii_uppercase (replicate 45 97 ++ [46] ++ replicate 300 97) (ascii_bytes "fixed") 50 0 = Panic.
Proof. vm_compute. done. Qed.

(** Without overlap the text between a moved end and the next start is in no chunk:
    here 49 letters. *)
Theorem no_overlap_loses_text :
  exists c1 c2,
    chunk_fixed_str (replicate 150 97 ++ [46] ++ replicate 49 98 ++ replicate 81 99) 200 0 = Ok [c1; c2]
    /\ Forall (fun c => 98 ∉ chunk_text c) [c1; c2].
Proof.
  eexists _, _. split; [vm_compute; reflexivity|]. repeat apply Forall_cons_2; [..|apply Forall_nil_2];
    by apply (bool_decide_unpack _); vm_compute.
Qed.

(** A section whose body has fewer than 30 bytes is dropped: the second section of
    this document is in no chunk. *)
Definition three_sections : text_str :=
  ascii_bytes "# Introduction" ++ [NL] ++ ascii_bytes "Some intro text that is long enough." ++ [NL]
  ++ ascii_bytes "## Section One" ++ [NL] ++ ascii_bytes "Content for section one here." ++ [NL]
  ++ ascii_bytes "## Section Two" ++ [NL] ++ ascii_bytes "Content for section two here too.".

Theorem short_section_dropped :
  exists c1 c2,
    chunk_document ascii_uppercase three_sections (ascii_bytes "tree") 1000 200 = Ok ([c1; c2], ascii_bytes "tree")
    /\ chunk_title c1 = ascii_bytes "# Introduction" /\ chunk_title c2 = ascii_bytes "## Section Two".
Proof. eexists _, _. split_and!; vm_compute; reflexivity. Qed.
