(* ===== verification/Pipeline.v ===== *)
(** * The ingestion pipeline

    Models [crates/valori-ingest/src]: documents and errors ([document.rs],
    [metadata.rs]), validation ([validator.rs]), retries ([retry.rs]), cancellation
    ([cancel.rs]), configuration ([config.rs]), progress events ([progress.rs]),
    hooks ([hooks.rs]), the embedder over a model provider ([embedder.rs]), and the
    orchestration of the five stages ([pipeline.rs], [execution.rs]).

    The stages are trait objects: functions over a state of type [W] that holds
    what is outside (the model provider, the store, what hooks observe, and the flag
    of the cancellation token).  The state of a run adds the progress events offered
    to the channel and the delays slept.  Wall-clock times and durations are left
    out of the results. *)

From stdpp Require Import list strings.
From S2P Require Import Prelude.
From S2P Require Import Bytes.
From S2P Require Import Wire.
From S2P Require Import Planner.
From S2P Require Import F32.
From S2P Require Import Chunker.

(** ** Documents (document.rs, metadata.rs) *)
Record DocumentMetadata : Type := mkMetadata {
  md_title : option text_str;
  md_author : option text_str;
  md_language : option text_str;
  md_created_at : option text_str;
  md_modified_at : option text_str;
  page_count : option Z;
}.
Definition DocumentMetadata_default : DocumentMetadata := mkMetadata None None None None None None.
Definition with_title (t : text_str) (m : DocumentMetadata) : DocumentMetadata :=
  mkMetadata (Some t) (md_author m) (md_language m) (md_created_at m) (md_modified_at m) (page_count m).
Definition with_author (a : text_str) (m : DocumentMetadata) : DocumentMetadata :=
  mkMetadata (md_title m) (Some a) (md_language m) (md_created_at m) (md_modified_at m) (page_count m).
Definition with_page_count (n : Z) (m : DocumentMetadata) : DocumentMetadata :=
  mkMetadata (md_title m) (md_author m) (md_language m) (md_created_at m) (md_modified_at m) (Some n).

Record Document : Type := mkDocument {
  doc_id : list Z;
  doc_source : text_str;
  doc_mime : text_str;
  doc_metadata : DocumentMetadata;
  doc_content : text_str;
}.

Record Embedding : Type := mkEmbedding {
  emb_chunk_id : list Z;
  emb_model_id : text_str;
  emb_dimensions : Z;
  emb_values : list f32;
}.

Record WriteResult : Type := mkWriteResult { wr_record_id : text_str; chunk_node_id : option Z }.

Inductive IngestError : Type :=
| EReader (s : text_str)
| EChunk (s : text_str)
| EEmbed (s : text_str)
| EWriter (s : text_str)
| EValidation (s : text_str)
| ECancelled.

Definition IngestError_display (e : IngestError) : text_str :=
  match e with
  | EReader s => ascii_bytes "reader error: " ++ s
  | EChunk s => ascii_bytes "chunk error: " ++ s
  | EEmbed s => ascii_bytes "embed error: " ++ s
  | EWriter s => ascii_bytes "writer error: " ++ s
  | EValidation s => ascii_bytes "validation error: " ++ s
  | ECancelled => ascii_bytes "pipeline cancelled"
  end.

(** The metadata of a chunk is always the empty JSON object. *)
Record Chunk : Type := mkDocChunk { ch_id : list Z; ch_index : Z; ch_title : text_str; ch_text : text_str }.

Section Ids.
Context (blake3 : list Z -> list Z).

Definition blake3_hex (s : text_str) : list Z := hex (blake3 (utf8 s)).

Definition Document_from_text (content : text_str) (source : option text_str) : Document :=
  mkDocument (blake3_hex content) (default (ascii_bytes "text") source) (ascii_bytes "text/plain")
    DocumentMetadata_default content.

Definition Chunk_new (index : Z) (title text : text_str) : Chunk := mkDocChunk (blake3_hex text) index title text.

(** [DefaultChunker::chunk] (chunker.rs) *)
Record DefaultChunker : Type := mkDefaultChunker { dc_strategy : text_str; dc_size : Z; dc_overlap : Z }.
Definition DefaultChunker_default : DefaultChunker := mkDefaultChunker (ascii_bytes "auto") 1000 200.

Definition DefaultChunker_chunk (is_uppercase : Z -> bool) (c : DefaultChunker) (doc : Document) :
    outcome Empty_set (list Chunk) :=
  do* r := chunk_document is_uppercase (doc_content doc) (dc_strategy c) (dc_size c) (dc_overlap c) in
  Ok ((fun ic => Chunk_new (chunk_index ic) (chunk_title ic) (chunk_text ic)) <$> r.1).
End Ids.

(** ** Validation (validator.rs) *)
Inductive ValidationError : Type :=
| VEmpty
| VTooLarge (size limit : Z)
| VTooManyPages (count limit : Z)
| VMalformedUtf8
| VProtectedDocument.

Definition decimal (n : Z) : text_str := dec_digits 20 n.

Definition ValidationError_display (e : ValidationError) : text_str :=
  match e with
  | VEmpty => ascii_bytes "document is empty"
  | VTooLarge size limit =>
      ascii_bytes "document is " ++ decimal size ++ ascii_bytes " bytes, exceeds limit of " ++ decimal limit
  | VTooManyPages count limit =>
      ascii_bytes "document has " ++ decimal count ++ ascii_bytes " pages, exceeds limit of " ++ decimal limit
  | VMalformedUtf8 => ascii_bytes "document contains invalid UTF-8"
  | VProtectedDocument => ascii_bytes "document is password-protected"
  end.

Record DocumentValidator : Type := mkValidator { max_bytes : Z; max_pages : option Z }.
Definition DocumentValidator_default : DocumentValidator := mkValidator (50 * 1024 * 1024) None.
Definition with_max_bytes (n : Z) (v : DocumentValidator) : DocumentValidator := mkValidator n (max_pages v).
Definition with_max_pages (n : Z) (v : DocumentValidator) : DocumentValidator := mkValidator (max_bytes v) (Some n).

Definition validate (v : DocumentValidator) (doc : Document) : outcome ValidationError unit :=
  if is_empty (str_trim (doc_content doc)) then Err VEmpty
  else if max_bytes v <? str_len (doc_content doc) then Err (VTooLarge (str_len (doc_content doc)) (max_bytes v))
  else if negb (utf8_valid (utf8 (doc_content doc))) then Err VMalformedUtf8
  else
    let protected :=
      if bool_decide (doc_mime doc = ascii_bytes "application/pdf+protected") then Err VProtectedDocument else Ok tt in
    match max_pages v, page_count (doc_metadata doc) with
    | Some limit, Some count => if limit <? count then Err (VTooManyPages count limit) else protected
    | _, _ => protected
    end.

Definition validate_utf8 (bytes : list Z) : outcome ValidationError unit :=
  if utf8_valid bytes then Ok tt else Err VMalformedUtf8.

(** ** Retries (retry.rs) *)
Inductive RetryPolicy : Type :=
| Never
| Fixed (attempts delay_ms : Z)
| Exponential (max_attempts base_delay_ms max_delay_ms : Z).

Definition wrap_delay (z : Z) : Z := z mod 18446744073709551616.

(** The delay after a delay. *)
Definition next_delay (p : RetryPolicy) (delay : Z) : Z :=
  match p with
  | Exponential _ _ max_delay_ms => Z.min (wrap_delay (delay * 2)) max_delay_ms
  | _ => delay
  end.

Definition retries_of (p : RetryPolicy) : nat :=
  match p with Never => 0 | Fixed n _ | Exponential n _ _ => Z.to_nat n end.
Definition first_delay (p : RetryPolicy) : Z := match p with Never => 0 | Fixed _ d | Exponential _ d _ => d end.

(** The loop of [execute]: [n] retries are left; a failed attempt sleeps before the
    next one, the last error is returned. *)
Fixpoint attempt_loop {S E T} (p : RetryPolicy) (sleep : Z -> S -> S) (f : M E S T) (n : nat) (delay : Z) : M E S T :=
  fun s =>
    match f s, n with
    | (s', Err _), S n => attempt_loop p sleep f n (next_delay p delay) (sleep delay s')
    | r, _ => r
    end.

Definition execute {S E T} (p : RetryPolicy) (sleep : Z -> S -> S) (f : M E S T) : M E S T :=
  attempt_loop p sleep f (retries_of p) (first_delay p).

(** ** Configuration (config.rs) *)
Record PipelineConfig : Type := mkConfig { batch_size : Z; retry : RetryPolicy; timeout_secs : option Z }.
Definition PipelineConfig_default : PipelineConfig := mkConfig u64_MAX Never None.
Definition with_batch_size (n : Z) (c : PipelineConfig) : PipelineConfig :=
  mkConfig (Z.max n 1) (retry c) (timeout_secs c).
Definition with_retry (r : RetryPolicy) (c : PipelineConfig) : PipelineConfig :=
  mkConfig (batch_size c) r (timeout_secs c).
Definition with_timeout_secs (n : Z) (c : PipelineConfig) : PipelineConfig := mkConfig (batch_size c) (retry c) (Some n).

(** ** Stages, results and progress (execution.rs, progress.rs) *)
Inductive StageName : Type := StageReader | StageValidator | StageChunker | StageEmbedder | StageWriter.
#[global] Instance StageName_eq_dec : EqDecision StageName.
Proof. solve_decision. Defined.

Inductive StageMetrics : Type :=
| MReader (bytes_read : Z) (mime : text_str)
| MValidator (checks_run : Z) (warnings : list text_str)
| MChunker (chunks_created avg_chunk_bytes max_chunk_bytes : Z)
| MEmbedder (batch_count dimensions : Z) (provider model : text_str)
| MWriter (records_written graph_nodes_created graph_edges_created : Z).

Record StageResult : Type := mkStageResult {
  sr_stage : StageName;
  sr_success : bool;
  sr_warnings : list text_str;
  sr_metrics : StageMetrics;
  sr_error : option text_str;
}.

Record PipelineResult : Type := mkPipelineResult {
  pr_document_id : list Z;
  pr_source : text_str;
  pr_mime : text_str;
  pr_stages : list StageResult;
  pr_writes : list WriteResult;
  chunks_produced : Z;
  records_written : Z;
  pr_success : bool;
  pr_error : option text_str;
}.

Definition stage (r : PipelineResult) (n : StageName) : option StageResult :=
  head (filter (fun s => sr_stage s = n) (pr_stages r)).
Definition all_warnings (r : PipelineResult) : list text_str := pr_stages r ≫= sr_warnings.

Inductive ProgressEvent : Type :=
| StageStarted (s : StageName)
| ChunkProgress (completed total : Z)
| StageCompleted (s : StageName)
| PDone (records_written chunks_produced : Z)
| PFailed (s : StageName) (error : text_str).

(** ** The pipeline (pipeline.rs, embedder.rs, hooks.rs, cancel.rs) *)

(** [s.split_once('/')], with the pipeline's fallback. *)
Fixpoint split_once (c : Z) (s : text_str) : option (text_str * text_str) :=
  match s with
  | [] => None
  | x :: s => if x =? c then Some ([], s) else '(a, b) ← split_once c s; Some (x :: a, b)
  end.
Definition provider_and_model (model_id : text_str) : text_str * text_str :=
  match split_once 47 model_id with Some (p, m) => (p, m) | None => ([], model_id) end.

(** [slice::chunks]; each turn takes at least one element. *)
Fixpoint chunks_of {A} (fuel : nat) (n : Z) (l : list A) : list (list A) :=
  match fuel, l with
  | S fuel, _ :: _ =>
      let k := if len l <=? n then length l else Z.to_nat n in
      take k l :: chunks_of fuel n (drop k l)
  | _, _ => []
  end.

Section Pipeline.
Context {W : Type}.

(** [PipelineHook]: what an observer does at each boundary. *)
Record PipelineHook : Type := mkHook {
  after_read : Document -> W -> W;
  before_chunk : Document -> W -> W;
  after_chunk : list Chunk -> W -> W;
  before_embed : list Chunk -> W -> W;
  after_embed : list Embedding -> W -> W;
  after_write : text_str -> W -> W;
}.

(** [ModelProviderEmbedder::embed] over a provider. *)
Record ModelProvider : Type := mkProvider {
  provider_kind : text_str;
  model_name : text_str;
  provider_embed : list text_str -> M text_str W (list (list f32));
}.

Definition ModelProviderEmbedder_embed (p : ModelProvider) (chunks : list Chunk) : M IngestError W (list Embedding) :=
  fun w =>
    let '(w', o) := provider_embed p (ch_text <$> chunks) w in
    (w',
     do* vecs := map_err EEmbed o in
     let model_id := provider_kind p ++ [47] ++ model_name p in
     Ok ((fun '(c, values) => mkEmbedding (ch_id c) model_id (len values) values) <$> zip chunks vecs)).

Record IngestPipeline : Type := mkPipeline {
  reader : text_str -> option text_str -> M IngestError W Document;
  chunker : Document -> outcome Empty_set (list Chunk);
  embedder : list Chunk -> M IngestError W (list Embedding);
  writer : Chunk -> Embedding -> Document -> M IngestError W WriteResult;
  config : PipelineConfig;
  hooks : list PipelineHook;
  validator : option DocumentValidator;
}.

(** The state of a run: what is outside, the events offered to the progress channel
    ([None] when there is none), the delays slept. *)
Record PipeState : Type := mkPipeState { ps_world : W; ps_events : option (list ProgressEvent); ps_slept : list Z }.
Definition set_ps_world (w : W) (s : PipeState) : PipeState := mkPipeState w (ps_events s) (ps_slept s).
Definition ps_sleep (d : Z) (s : PipeState) : PipeState := mkPipeState (ps_world s) (ps_events s) (ps_slept s ++ [d]).
Definition on_world {A} (m : M IngestError W A) : M IngestError PipeState A := zoom ps_world set_ps_world m.

Definition send (e : ProgressEvent) : M IngestError PipeState unit :=
  smodify (fun s => mkPipeState (ps_world s) ((fun es => es ++ [e]) <$> ps_events s) (ps_slept s)).

Definition call_hooks (hs : list PipelineHook) (f : PipelineHook -> W -> W) : M IngestError PipeState unit :=
  smodify (fun s => set_ps_world (foldl (fun w h => f h w) (ps_world s) hs) s).

(** [check_cancel!]; [cancelled] reads the token's flag. *)
Definition check_cancel (cancelled : option (W -> bool)) : M IngestError PipeState unit := fun s =>
  match cancelled with
  | Some flag => if flag (ps_world s) then (s, Err ECancelled) else (s, Ok tt)
  | None => (s, Ok tt)
  end.

(** [Err(e) => { send(Failed); return Err(e) }] *)
Definition or_failed {A} (st : StageName) (m : M IngestError PipeState A) : M IngestError PipeState A := fun s =>
  match m s with
  | (s', Err e) => ((send (PFailed st (IngestError_display e)) s').1, Err e)
  | r => r
  end.

(** The pipeline's [map_err]s around the embedder and the writer. *)
Definition m_map_err {A} (f : IngestError -> IngestError) (m : M IngestError PipeState A) : M IngestError PipeState A :=
  fun s => let '(s', o) := m s in (s', map_err f o).

Section Run.
Context (p : IngestPipeline) (cancelled : option (W -> bool)).

Definition read_stage (input : text_str) (source : option text_str) : M IngestError PipeState (Document * StageResult) :=
  send (StageStarted StageReader) ;;;
  let* doc := or_failed StageReader (on_world (reader p input source)) in
  send (StageCompleted StageReader) ;;;
  call_hooks (hooks p) (fun h => after_read h doc) ;;;
  check_cancel cancelled ;;;
  sret (doc, mkStageResult StageReader true [] (MReader (str_len (doc_content doc)) (doc_mime doc)) None).

Definition validate_stage (doc : Document) : M IngestError PipeState (list StageResult) :=
  match validator p with
  | None => sret []
  | Some v =>
      send (StageStarted StageValidator) ;;;
      match validate v doc with
      | Err e =>
          let msg := ValidationError_display e in
          send (PFailed StageValidator msg) ;;; sthrow (EValidation msg)
      | Panic => spanic
      | Hang => slift Hang
      | Ok _ =>
          send (StageCompleted StageValidator) ;;;
          check_cancel cancelled ;;;
          sret [mkStageResult StageValidator true [] (MValidator 5 []) None]
      end
  end.

Definition total_bytes (chunks : list Chunk) : Z := foldr (fun c n => str_len (ch_text c) + n) 0 chunks.
Definition most_bytes (chunks : list Chunk) : Z := foldr (fun c n => Z.max (str_len (ch_text c)) n) 0 chunks.

Definition chunk_stage (doc : Document) : M IngestError PipeState (list Chunk * StageResult) :=
  call_hooks (hooks p) (fun h => before_chunk h doc) ;;;
  send (StageStarted StageChunker) ;;;
  let* chunks := slift (no_error (chunker p doc)) in
  let avg := match chunks with [] => 0 | _ => total_bytes chunks / len chunks end in
  let warnings := match chunks with [] => [ascii_bytes "no chunks produced"] | _ => [] end in
  send (StageCompleted StageChunker) ;;;
  call_hooks (hooks p) (fun h => after_chunk h chunks) ;;;
  check_cancel cancelled ;;;
  sret (chunks, mkStageResult StageChunker true warnings (MChunker (len chunks) avg (most_bytes chunks)) None).

(** The inner loop over one batch and its embeddings. *)
Fixpoint write_batch (doc : Document) (total : Z) (pairs : list (Chunk * Embedding)) (writes : list WriteResult) :
    M IngestError PipeState (list WriteResult) :=
  match pairs with
  | [] => sret writes
  | (c, e) :: pairs =>
      let* result := m_map_err (fun e => EWriter (IngestError_display e)) (on_world (writer p c e doc)) in
      call_hooks (hooks p) (fun h => after_write h (wr_record_id result)) ;;;
      send (ChunkProgress (len writes + 1) total) ;;;
      write_batch doc total pairs (writes ++ [result])
  end.

(** What the embedder's stage result is made from. *)
Record EmbedStats : Type := mkStats { es_batches : Z; es_dims : Z; es_model : text_str }.
Definition note_batch (es : list Embedding) (st : EmbedStats) : EmbedStats :=
  match es with
  | [] => mkStats (es_batches st + 1) (es_dims st) (es_model st)
  | first :: _ =>
      mkStats (es_batches st + 1) (emb_dimensions first)
        (if is_empty (es_model st) then emb_model_id first else es_model st)
  end.

(** One turn of the loop over the batches. *)
Definition embed_batch (doc : Document) (total : Z) (batch : list Chunk) (writes : list WriteResult) (st : EmbedStats) :
    M IngestError PipeState (list WriteResult * EmbedStats) :=
  check_cancel cancelled ;;;
  call_hooks (hooks p) (fun h => before_embed h batch) ;;;
  let* embeddings :=
    m_map_err (fun e => EEmbed (IngestError_display e))
      (execute (retry (config p)) ps_sleep (on_world (embedder p batch))) in
  call_hooks (hooks p) (fun h => after_embed h embeddings) ;;;
  let* writes := write_batch doc total (zip batch embeddings) writes in
  sret (writes, note_batch embeddings st).

Fixpoint embed_loop (doc : Document) (total : Z) (batches : list (list Chunk)) (writes : list WriteResult)
    (st : EmbedStats) : M IngestError PipeState (list WriteResult * EmbedStats) :=
  match batches with
  | [] => sret (writes, st)
  | b :: batches =>
      let* r := embed_batch doc total b writes st in
      embed_loop doc total batches r.1 r.2
  end.

Definition batches_of (chunks : list Chunk) : list (list Chunk) :=
  chunks_of (length chunks) (Z.max (batch_size (config p)) 1) chunks.

(** [IngestPipeline::run_observed] *)
Definition run_observed (input : text_str) (source : option text_str) : M IngestError PipeState PipelineResult :=
  let* rd := read_stage input source in
  let doc := rd.1 in
  let* vs := validate_stage doc in
  let* ck := chunk_stage doc in
  let chunks := ck.1 in
  let stages := [rd.2] ++ vs ++ [ck.2] in
  match chunks with
  | [] => sret (mkPipelineResult (doc_id doc) (doc_source doc) (doc_mime doc) stages [] 0 0 true None)
  | _ =>
      send (StageStarted StageEmbedder) ;;;
      let* r := embed_loop doc (len chunks) (batches_of chunks) [] (mkStats 0 0 []) in
      let writes := r.1 in
      let st := r.2 in
      let pm := provider_and_model (es_model st) in
      let nodes := len (filter (fun w => is_Some (chunk_node_id w)) writes) in
      send (StageCompleted StageEmbedder) ;;;
      send (StageCompleted StageWriter) ;;;
      send (PDone (len writes) (len chunks)) ;;;
      sret (mkPipelineResult (doc_id doc) (doc_source doc) (doc_mime doc)
              (stages
               ++ [mkStageResult StageEmbedder true [] (MEmbedder (es_batches st) (es_dims st) pm.1 pm.2) None;
                   mkStageResult StageWriter true [] (MWriter (len writes) nodes nodes) None])
              writes (len chunks) (len writes) true None)
  end.
End Run.

(** [IngestPipeline::run] *)
Definition pipeline_run (p : IngestPipeline) (input : text_str) (source : option text_str) :
    M IngestError PipeState (list WriteResult) :=
  let* r := run_observed p None input source in sret (pr_writes r).

(** The builder *)
Record IngestPipelineBuilder : Type := mkBuilder {
  b_reader : option (text_str -> option text_str -> M IngestError W Document);
  b_chunker : option (Document -> outcome Empty_set (list Chunk));
  b_embedder : option (list Chunk -> M IngestError W (list Embedding));
  b_writer : option (Chunk -> Embedding -> Document -> M IngestError W WriteResult);
  b_config : option PipelineConfig;
  b_hooks : list PipelineHook;
  b_validator : option DocumentValidator;
}.

Definition build (b : IngestPipelineBuilder) : outcome Empty_set IngestPipeline :=
  do* r := unwrap (b_reader b) in
  do* c := unwrap (b_chunker b) in
  do* e := unwrap (b_embedder b) in
  do* w := unwrap (b_writer b) in
  Ok (mkPipeline r c e w (default PipelineConfig_default (b_config b)) (b_hooks b) (b_validator b)).
End Pipeline.
Arguments IngestPipeline : clear implicits.
Arguments PipeState : clear implicits.
Arguments PipelineHook : clear implicits.
