(* ===== verification/PipelineTheorems.v ===== *)
(** * What the ingestion pipeline promises

    A retried call returns its first success or its last failure; a run that
    succeeds over an embedder that answers for every chunk has written every chunk;
    the batch size changes neither what is written nor the events.  Concrete runs
    show what the progress channel and a short answer of the embedder do. *)

From stdpp Require Import list strings.
From S2P Require Import Prelude.
From S2P Require Import Planner.
From S2P Require Import F32.
From S2P Require Import Chunker.
From S2P Require Import ChunkerTheorems.
From S2P Require Import Pipeline.

(** ** Retries *)
Section Retry.
Context {S E T : Type} (p : RetryPolicy) (sleep : Z -> S -> S) (f : M E S T).

(** The attempt after [k] attempts, sleeping in between. *)
Fixpoint attempt (k : nat) (delay : Z) (s : S) : S * outcome E T :=
  match k with
  | O => f s
  | Datatypes.S k => attempt k (next_delay p delay) (sleep delay (f s).1)
  end.

Lemma attempt_loop_spec n delay s :
  exists k, (k <= n)%nat /\ attempt_loop p sleep f n delay s = attempt k delay s
    /\ (forall j, (j < k)%nat -> exists e, (attempt j delay s).2 = Err e)
    /\ ((exists e, (attempt k delay s).2 = Err e) -> k = n).
Proof.
  revert delay s. induction n as [|n IH]; intros delay s.
  - exists 0%nat. split_and!; [lia| |lia|done]. cbn. by destruct (f s) as [s' [| | |]].
  - cbn [attempt_loop]. destruct (f s) as [s' o] eqn:Ef.
    assert (forall o, o = (f s).2 -> (forall e, o <> Err e) -> exists k, (k <= Datatypes.S n)%nat
      /\ (s', o) = attempt k delay s /\ (forall j, (j < k)%nat -> exists e, (attempt j delay s).2 = Err e)
      /\ ((exists e, (attempt k delay s).2 = Err e) -> k = Datatypes.S n)) as Hstop.
    { intros o' Ho' Hne. exists 0%nat. cbn [attempt]. rewrite Ef in *. simpl in Ho'. subst o'.
      split_and!; [lia|done|lia|]. intros [e He]. by destruct (Hne e). }
    rewrite Ef in Hstop. destruct o as [v|e| |]; try (by apply Hstop).
    destruct (IH (next_delay p delay) (sleep delay s')) as (k & Hk & Hr & Hb & Hl).
    exists (Datatypes.S k). cbn [attempt]. rewrite Ef. cbn [fst]. split_and!; [lia|done| |].
    + intros [|j] Hj; cbn [attempt]; rewrite Ef; [by exists e|]. apply Hb. lia.
    + intros He. by rewrite Hl.
Qed.

(** A retry policy makes attempts, each after its delay, until the first one
    that does not fail, at most as many retries as it allows; the result and the
    state are those of the last attempt made. *)
Theorem retry_first_success s :
  exists k, (k <= retries_of p)%nat
    /\ execute p sleep f s = attempt k (first_delay p) s
    /\ (forall j, (j < k)%nat -> exists e, (attempt j (first_delay p) s).2 = Err e)
    /\ ((exists e, (execute p sleep f s).2 = Err e) -> k = retries_of p).
Proof.
  destruct (attempt_loop_spec (retries_of p) (first_delay p) s) as (k & Hk & Hr & Hb & Hl).
  exists k. unfold execute. rewrite Hr. done.
Qed.

(** A call that succeeds is not repeated. *)
Lemma execute_ok s s' v : f s = (s', Ok v) -> execute p sleep f s = (s', Ok v).
Proof. intros H. unfold execute. destruct (retries_of p); cbn [attempt_loop]; by rewrite H. Qed.
End Retry.

(** An exponential policy caps every delay but the first. *)
Theorem first_delay_not_capped :
  (execute (E := unit) (T := unit) (Exponential 2 60000 1000) (fun d (l : list Z) => l ++ [d]) (fun l => (l, Err tt)) []).1
  = [60000; 1000].
Proof. vm_compute. done. Qed.

(** ** Batches *)
Lemma concat_chunks_of {A} fuel n (l : list A) : 1 <= n -> (length l <= fuel)%nat -> concat (chunks_of fuel n l) = l.
Proof.
  intros Hn. revert l. induction fuel as [|fuel IH]; intros l Hl; [destruct l; [done|simpl in Hl; lia]|].
  destruct l as [|x l]; [done|]. cbn [chunks_of]. set (k := if len (x :: l) <=? n then _ else _). cbn [concat].
  assert (1 <= k)%nat as Hk by (unfold k; destruct (_ <=? _); simpl; lia).
  rewrite IH; [apply take_drop|]. rewrite length_drop. simpl in *. lia.
Qed.

Section Runs.
Context {W : Type}.
Implicit Types (p : IngestPipeline W) (s : PipeState W).

Lemma write_batch_app p doc total ps1 ps2 writes s :
  write_batch p doc total (ps1 ++ ps2) writes s =
  sbind (write_batch p doc total ps1 writes) (fun ws => write_batch p doc total ps2 ws) s.
Proof.
  revert writes s. induction ps1 as [|[c e] ps1 IH]; intros writes s; [done|]. cbn [app write_batch].
  unfold sbind at 1 2 3 4 5. destruct (m_map_err _ _ s) as [s1 [r| | |]]; [|done..].
  cbn [call_hooks send smodify]. unfold call_hooks, send, smodify. apply IH.
Qed.

Lemma write_batch_length p doc total pairs writes s s' ws :
  write_batch p doc total pairs writes s = (s', Ok ws) -> len ws = len writes + len pairs.
Proof.
  revert writes s. induction pairs as [|[c e] pairs IH]; intros writes s; cbn [write_batch].
  { intros [= _ <-]. rewrite len_nil. lia. }
  unfold sbind. destruct (m_map_err _ _ s) as [s1 [r| | |]]; [|done..].
  unfold call_hooks, send, smodify. intros H%IH. rewrite H, len_app, !len_cons, len_nil. lia.
Qed.

(** ** Every chunk is written *)

(** The embedder answers for every chunk, or fails. *)
Definition answers_all p : Prop := forall cs w w' es, embedder p cs w = (w', Ok es) -> length es = length cs.

Lemma outside_ok {A} (m : M IngestError W A) s s' a :
  on_world m s = (s', Ok a) -> m (ps_world s) = (ps_world s', Ok a).
Proof. unfold on_world, zoom. destruct (m (ps_world s)) as [w o]. intros [= <- ->]. done. Qed.

Lemma execute_embedder_length p batch s s' es :
  answers_all p -> execute (retry (config p)) ps_sleep (on_world (embedder p batch)) s = (s', Ok es) ->
  length es = length batch.
Proof.
  intros Ha. destruct (attempt_loop_spec (retry (config p)) ps_sleep (on_world (embedder p batch))
    (retries_of (retry (config p))) (first_delay (retry (config p))) s) as (k & _ & Hr & _).
  unfold execute. rewrite Hr. clear Hr. generalize (first_delay (retry (config p))). revert s.
  induction k as [|k IH]; intros s d; cbn [attempt]; [|apply IH].
  intros H%outside_ok. by eapply Ha.
Qed.

Lemma embed_batch_length p cancelled doc total batch writes st s s' ws st' :
  answers_all p -> embed_batch p cancelled doc total batch writes st s = (s', Ok (ws, st')) ->
  len ws = len writes + len batch.
Proof.
  intros Ha. unfold embed_batch, sbind. destruct (check_cancel cancelled s) as [s1 [[]| | |]]; [|done..].
  unfold call_hooks, smodify. unfold m_map_err.
  destruct (execute _ _ _ _) as [s2 [es| | |]] eqn:Ee; cbn [map_err]; [|done..].
  destruct (write_batch _ _ _ _ _ _) as [s3 [ws'| | |]] eqn:Ew; [|done..]. intros [= <- <- <-].
  apply write_batch_length in Ew. rewrite Ew. f_equal. apply execute_embedder_length in Ee; [|done].
  unfold len. rewrite length_zip_with. lia.
Qed.

Lemma embed_loop_length p cancelled doc total batches writes st s s' r :
  answers_all p -> embed_loop p cancelled doc total batches writes st s = (s', Ok r) ->
  len r.1 = len writes + len (concat batches).
Proof.
  intros Ha. revert writes st s. induction batches as [|b batches IH]; intros writes st s; cbn [embed_loop].
  { intros [= _ <-]. simpl. rewrite len_nil. lia. }
  unfold sbind. destruct (embed_batch _ _ _ _ _ _ _ _) as [s1 [[ws st']| | |]] eqn:Eb; [|done..].
  apply embed_batch_length in Eb; [|done]. intros H%IH. cbn [fst] in H. cbn [concat]. rewrite H, Eb, len_app. lia.
Qed.

(** When embedder and store answer for every text, a run that succeeds has
    written as many records as it produced chunks. *)
Theorem pipeline_writes_all p cancelled input source s s' r :
  answers_all p -> run_observed p cancelled input source s = (s', Ok r) ->
  records_written r = chunks_produced r /\ len (pr_writes r) = chunks_produced r /\ pr_success r = true.
Proof.
  intros Ha. unfold run_observed, sbind.
  destruct (read_stage _ _ _ _ s) as [s1 [[doc sr]| | |]]; [|done..]. cbn [fst snd].
  destruct (validate_stage _ _ _ s1) as [s2 [vs| | |]]; [|done..].
  destruct (chunk_stage _ _ _ s2) as [s3 [[chunks cr]| | |]]; [|done..]. cbn [fst snd].
  destruct chunks as [|c cs]; [by intros [= _ <-]|]. set (chunks := c :: cs).
  unfold send at 1, smodify at 1. destruct (embed_loop _ _ _ _ _ _ _ _) as [s4 [[ws st]| | |]] eqn:El; [|done..].
  apply embed_loop_length in El; [|done]. cbn [fst snd] in *. unfold batches_of in El.
  rewrite concat_chunks_of, len_nil in El by lia. unfold send, smodify. intros [= _ <-]. cbn. rewrite El.
  rewrite Z.add_0_l. done.
Qed.

(** ** The batch size *)
Definition set_batch_size (n : Z) p : IngestPipeline W :=
  mkPipeline (reader p) (chunker p) (embedder p) (writer p)
    (mkConfig n (retry (config p)) (timeout_secs (config p))) (hooks p) (validator p).

(** The embedder answers chunk by chunk and touches nothing. *)
Definition embeds_pointwise p (g : Chunk -> Embedding) : Prop :=
  forall cs w, embedder p cs w = (w, Ok (g <$> cs)).

Lemma embed_loop_pointwise p g doc total batches writes st s :
  embeds_pointwise p g -> hooks p = [] ->
  let '(s1, o1) := embed_loop p None doc total batches writes st s in
  (s1, do* r := o1 in Ok r.1) = write_batch p doc total (zip (concat batches) (g <$> concat batches)) writes s.
Proof.
  intros Hg Hh. revert writes st s. induction batches as [|b batches IH]; intros writes st s; [done|].
  cbn [embed_loop concat]. rewrite fmap_app, zip_with_app by (by rewrite length_fmap). rewrite write_batch_app.
  unfold sbind at 1. unfold embed_batch. unfold sbind at 1. cbn [check_cancel].
  assert (forall f s0, call_hooks (hooks p) f s0 = (s0, Ok tt)) as Hc by (intros f [? ? ?]; by rewrite Hh).
  unfold sbind at 1. rewrite Hc. unfold sbind at 1. unfold m_map_err at 1.
  erewrite (execute_ok _ ps_sleep); [|unfold on_world, zoom; by rewrite Hg].
  cbn [map_err]. unfold sbind at 1. rewrite Hc. unfold sbind at 1 2.
  destruct s as [w es sl]. cbn [set_ps_world ps_world ps_events ps_slept].
  destruct (write_batch _ _ _ _ writes _) as [s1 [ws| | |]]; [|done..]. cbn [sret fst snd]. apply IH.
Qed.

(** C29: With an embedder that succeeds on every text, embeds each on its own
    and leaves the world alone, without hooks and without cancellation, the batch
    size changes nothing an observer sees: for any two batch sizes an ingestion
    run leaves the same world and the same progress events, and either succeeds
    with the same writes and counts or fails with the same error of the reader,
    the validators, the chunker or the writer. *)
Theorem batch_size_irrelevant p g n m input source s :
  embeds_pointwise p g -> hooks p = [] ->
  let '(s1, o1) := run_observed (set_batch_size n p) None input source s in
  let '(s2, o2) := run_observed (set_batch_size m p) None input source s in
  s1 = s2
  /\ (do* r := o1 in Ok (pr_writes r, chunks_produced r, records_written r))
     = (do* r := o2 in Ok (pr_writes r, chunks_produced r, records_written r)).
Proof.
  intros Hg Hh. unfold run_observed, sbind.
  change (read_stage (set_batch_size m p)) with (read_stage (set_batch_size n p)).
  change (validate_stage (set_batch_size m p)) with (validate_stage (set_batch_size n p)).
  change (chunk_stage (set_batch_size m p)) with (chunk_stage (set_batch_size n p)).
  destruct (read_stage _ _ _ _ s) as [s1 [[doc sr]| | |]]; [|done..]. cbn [fst snd].
  destruct (validate_stage _ _ _ s1) as [s2 [vs| | |]]; [|done..].
  destruct (chunk_stage _ _ _ s2) as [s3 [[chunks cr]| | |]]; [|done..]. cbn [fst snd].
  destruct chunks as [|c cs]; [done|]. set (chunks := c :: cs). unfold send, smodify.
  set (s4 := mkPipeState _ _ _).
  assert (forall k, let '(s5, o5) := embed_loop (set_batch_size k p) None doc (len chunks)
    (batches_of (set_batch_size k p) chunks) [] (mkStats 0 0 []) s4 in
    (s5, do* r := o5 in Ok r.1) = write_batch p doc (len chunks) (zip chunks (g <$> chunks)) [] s4) as Hk.
  { intros k. pose proof (embed_loop_pointwise (set_batch_size k p) g doc (len chunks)
      (batches_of (set_batch_size k p) chunks) [] (mkStats 0 0 []) s4 Hg Hh) as H.
    unfold batches_of in H at 2 3. rewrite concat_chunks_of in H by lia. exact H. }
  pose proof (Hk n) as Hn. pose proof (Hk m) as Hm.
  destruct (embed_loop (set_batch_size n p) _ _ _ _ _ _ _) as [s5 o5].
  destruct (embed_loop (set_batch_size m p) _ _ _ _ _ _ _) as [s6 o6].
  rewrite <- Hm in Hn. injection Hn as -> Ho.
  destruct o5 as [[ws st]| | |], o6 as [[ws' st']| | |]; cbn [obind] in Ho; simplify_eq/=; by split.
Qed.
End Runs.

(** ** Concrete pipelines *)
Module PipelineDemo.
Definition toy_hash (m : list Z) : list Z := [len m].

(** Readers take text as it is, writers log the positions of the chunks. *)
Definition toy_reader (input : text_str) (source : option text_str) : M IngestError (list Z) Document :=
  sret (Document_from_text toy_hash input source).
Definition toy_chunker : Document -> outcome Empty_set (list Chunk) :=
  DefaultChunker_chunk toy_hash ascii_uppercase (mkDefaultChunker (ascii_bytes "fixed") 160 80).
Definition toy_writer (c : Chunk) (e : Embedding) (doc : Document) : M IngestError (list Z) WriteResult := fun w =>
  (w ++ [ch_index c], Ok (mkWriteResult (decimal (ch_index c)) None)).
Definition toy_embedding (c : Chunk) : Embedding := mkEmbedding (ch_id c) (ascii_bytes "toy/one") 1 [f32_of_Z 1].
Definition toy_embedder (cs : list Chunk) : M IngestError (list Z) (list Embedding) := sret (toy_embedding <$> cs).

(** A provider that answers for the first text only, and one that is down. *)
Definition short_provider : @ModelProvider (list Z) :=
  mkProvider (ascii_bytes "toy") (ascii_bytes "short") (fun ts => sret ((fun _ => [f32_of_Z 1]) <$> take 1 ts)).
Definition down_provider : @ModelProvider (list Z) :=
  mkProvider (ascii_bytes "toy") (ascii_bytes "down") (fun _ => sthrow (ascii_bytes "connection refused")).

Definition pipeline (e : list Chunk -> M IngestError (list Z) (list Embedding)) : IngestPipeline (list Z) :=
  mkPipeline toy_reader toy_chunker e toy_writer PipelineConfig_default [] None.

Definition start : PipeState (list Z) := mkPipeState [] (Some []) [].
End PipelineDemo.

Lemma batch_size_irrelevant_witness :
  embeds_pointwise (PipelineDemo.pipeline PipelineDemo.toy_embedder) PipelineDemo.toy_embedding
  /\ hooks (PipelineDemo.pipeline PipelineDemo.toy_embedder) = []
  /\ let '(s1, o1) := run_observed (set_batch_size 1 (PipelineDemo.pipeline PipelineDemo.toy_embedder)) None stop_text
       None PipelineDemo.start in
     let '(s2, o2) := run_observed (set_batch_size 2 (PipelineDemo.pipeline PipelineDemo.toy_embedder)) None stop_text
       None PipelineDemo.start in
     s1 = s2
     /\ (do* r := o1 in Ok (pr_writes r, chunks_produced r, records_written r))
        = (do* r := o2 in Ok (pr_writes r, chunks_produced r, records_written r)).
Proof.
  assert (embeds_pointwise (PipelineDemo.pipeline PipelineDemo.toy_embedder) PipelineDemo.toy_embedding) as He
    by (intros cs w; reflexivity).
  assert (hooks (PipelineDemo.pipeline PipelineDemo.toy_embedder) = []) as Hh by reflexivity.
  split; [exact He|]. split; [exact Hh|].
  exact (batch_size_irrelevant _ PipelineDemo.toy_embedding 1 2 stop_text None PipelineDemo.start He Hh).
Defined.

Lemma pipeline_writes_all_witness :
  answers_all (PipelineDemo.pipeline PipelineDemo.toy_embedder)
  /\ exists s' r,
    run_observed (PipelineDemo.pipeline PipelineDemo.toy_embedder) None stop_text None PipelineDemo.start = (s', Ok r)
    /\ ps_world s' = [0; 1; 2; 3]
    /\ records_written r = chunks_produced r /\ len (pr_writes r) = chunks_produced r /\ pr_success r = true.
Proof.
  assert (answers_all (PipelineDemo.pipeline PipelineDemo.toy_embedder)) as Ha.
  { intros cs w w' es H. simpl in H. unfold PipelineDemo.toy_embedder, sret in H. injection H as _ <-.
    apply length_fmap. }
  destruct (run_observed (PipelineDemo.pipeline PipelineDemo.toy_embedder) None stop_text None PipelineDemo.start)
    as [s' o] eqn:E.
  pose proof E as E2. vm_compute in E2. injection E2 as Hs Ho. destruct o as [r| | |]; try discriminate Ho.
  split; [exact Ha|]. exists s', r. split; [reflexivity|].
  split; [rewrite <- Hs; reflexivity|].
  exact (pipeline_writes_all _ None stop_text None PipelineDemo.start s' r Ha E).
Defined.

(** The provider answers for one of four texts: the run succeeds, three chunks are
    not written. *)
Theorem short_answer_loses_chunks :
  exists s r,
    run_observed (PipelineDemo.pipeline (ModelProviderEmbedder_embed PipelineDemo.short_provider)) None stop_text None
      PipelineDemo.start = (s, Ok r)
    /\ pr_success r = true /\ chunks_produced r = 4 /\ records_written r = 1 /\ all_warnings r = [].
Proof. eexists _, _. split; [vm_compute; reflexivity|]. vm_compute. done. Qed.

(** The provider is down: the run fails, and the last event is that the embedder
    started. *)
Theorem failed_embedding_sends_no_failure :
  let '(s, o) :=
    run_observed (PipelineDemo.pipeline (ModelProviderEmbedder_embed PipelineDemo.down_provider)) None stop_text None
      PipelineDemo.start in
  o = Err (EEmbed (ascii_bytes "embed error: connection refused"))
  /\ (ps_events s ≫= last) = Some (StageStarted StageEmbedder).
Proof. vm_compute. done. Qed.
