(* ===== verification/Search.v ===== *)
(** * Metadata filters and time decay

    Models [crates/valori-search/src/filter.rs] and [decay.rs].  A JSON value is a
    parameter with the class [SearchJson] (its object view, its number as [f64], its
    equality).  An [f64] is binary64 of the Standard Library's [SpecFloat]; the
    platform's [powf] is an argument. *)

From Stdlib Require Import SpecFloat.
From stdpp Require Import list strings.
From S2P Require Import Prelude.
From S2P Require Import Planner.
From S2P Require Import F32.

(** ** binary64 *)
Definition f64 : Type := spec_float.
Definition f64_of_int (z : Z) : f64 := binary_normalize 53 1024 z 0 false.
Definition f64_div : f64 -> f64 -> f64 := SFdiv 53 1024.
Definition f64_literal (num den : Z) : f64 :=
  let '(m, e, l) := SFdiv_core_binary 53 1024 num 0 den 0 in binary_round_aux 53 1024 false m e l.

(** [x as f64] of an [f32], and [x as f32] of an [f64]. *)
Definition convert (prec emax : Z) (x : spec_float) : spec_float :=
  match x with
  | S754_finite s m e => binary_normalize prec emax (cond_Zopp s (Zpos m)) e s
  | _ => x
  end.
Definition f64_of_f32 (x : f32) : f64 := convert 53 1024 x.
Definition f32_of_f64 (x : f64) : f32 := convert 24 128 x.

(** [f64::max]: a NaN loses. *)
Definition f64_max (a b : f64) : f64 :=
  match SFcompare a b with
  | Some Lt => b
  | Some _ => a
  | None => match a with S754_nan => b | _ => a end
  end.

(** ** Filters (filter.rs) *)
Class SearchJson (Value : Type) := {
  as_object : Value -> option (list (list Z * Value));
  as_f64 : Value -> option f64;
  value_eqb : Value -> Value -> bool;
}.

Section Filter.
Context {Value : Type} `{!SearchJson Value}.

Definition MetadataFilter : Type := list (list Z * Value).

(** [Map::get] and [contains_key] *)
Fixpoint map_get (k : list Z) (m : MetadataFilter) : option Value :=
  match m with
  | [] => None
  | (k', v) :: m => if decide (k = k') then Some v else map_get k m
  end.
Definition contains_key (k : list Z) (m : MetadataFilter) : bool :=
  match map_get k m with Some _ => true | None => false end.

Definition is_range_predicate (ops : MetadataFilter) : bool :=
  contains_key (ascii_bytes "eq") ops || contains_key (ascii_bytes "gt") ops || contains_key (ascii_bytes "gte") ops
  || contains_key (ascii_bytes "lt") ops || contains_key (ascii_bytes "lte") ops.

(** [if let Some(v) = ops.get(op).and_then(as_f64) { if !(test v) { return false } }] *)
Definition check_op (ops : MetadataFilter) (op : list Z) (test : f64 -> bool) : bool :=
  match map_get op ops ≫= as_f64 with Some v => test v | None => true end.

Definition apply_range (actual : Value) (ops : MetadataFilter) : bool :=
  match as_f64 actual with
  | None => false
  | Some num =>
      match map_get (ascii_bytes "eq") ops with Some v => value_eqb actual v | None => true end
      && check_op ops (ascii_bytes "gt") (fun v => SFltb v num)
      && check_op ops (ascii_bytes "gte") (fun v => SFleb v num)
      && check_op ops (ascii_bytes "lt") (fun v => SFltb num v)
      && check_op ops (ascii_bytes "lte") (fun v => SFleb num v)
  end.

Definition value_matches (actual expected : Value) : bool :=
  match as_object expected with
  | Some ops => if is_range_predicate ops then apply_range actual ops else value_eqb actual expected
  | None => value_eqb actual expected
  end.

Definition matches_metadata_filter (meta : Value) (filter : MetadataFilter) : bool :=
  match as_object meta with
  | None => false
  | Some obj =>
      forallb (fun kv => match map_get kv.1 obj with Some actual => value_matches actual kv.2 | None => false end) filter
  end.
End Filter.
Arguments MetadataFilter : clear implicits.

(** ** Decay (decay.rs) *)
Definition FACTOR_FLOOR : f64 := f64_literal 1 1000000000.

Record DecayHit : Type := mkDecayHit { dh_id : Z; dh_distance : f32; dh_created_at : option Z }.
Record DecayedHit : Type := mkDecayedHit {
  dd_id : Z;
  dd_distance : f32;
  dd_factor : f32;
  dd_age_secs : option Z;
  dd_adjusted : f64;
}.

(** [a.partial_cmp(b).unwrap_or(Equal).then(id)] *)
Definition compare_hits (a b : DecayedHit) : comparison :=
  match SFcompare (dd_adjusted a) (dd_adjusted b) with
  | Some Lt => Lt
  | Some Gt => Gt
  | _ => dd_id a ?= dd_id b
  end.

(** A stable sort by a comparison, as insertion from the left. *)
Fixpoint insert_cmp {A} (cmp : A -> A -> comparison) (x : A) (l : list A) : list A :=
  match l with
  | [] => [x]
  | y :: l => match cmp x y with Lt => x :: y :: l | _ => y :: insert_cmp cmp x l end
  end.
Definition sort_cmp {A} (cmp : A -> A -> comparison) (l : list A) : list A :=
  foldl (fun acc x => insert_cmp cmp x acc) [] l.

Section Decay.
Context (powf : f64 -> f64 -> f64).

Definition decay_factor (age_secs half_life_secs : Z) : f64 :=
  if half_life_secs =? 0 then f64_of_int 1
  else powf (f64_literal 1 2) (f64_div (f64_of_int age_secs) (f64_of_int half_life_secs)).

Definition hit_age (now : Z) (h : DecayHit) : Z :=
  match dh_created_at h with Some ts => if ts <=? now then now - ts else 0 | None => 0 end.

Definition decay_hit (now half_life_secs : Z) (h : DecayHit) : DecayedHit :=
  let age := hit_age now h in
  let factor := decay_factor age half_life_secs in
  let adjusted := f64_div (f64_of_f32 (dh_distance h)) (f64_max factor FACTOR_FLOOR) in
  mkDecayedHit (dh_id h) (dh_distance h) (f32_of_f64 factor) ((fun _ => age) <$> dh_created_at h) adjusted.

Definition decay_rerank (hits : list DecayHit) (now half_life_secs : Z) (k : nat) : list DecayedHit :=
  take k (sort_cmp compare_hits (decay_hit now half_life_secs <$> hits)).
End Decay.

(** ** The order of hits *)

(** A float that is a number, as a triple that orders the same way. *)
Definition rank (x : f64) : Z * Z * Z :=
  match x with
  | S754_zero _ | S754_nan => (0, 0, 0)
  | S754_infinity s => if s then (-2, 0, 0) else (2, 0, 0)
  | S754_finite s m e => if s then (-1, - e, - Zpos m) else (1, e, Zpos m)
  end.

Definition triple_compare (a b : Z * Z * Z) : comparison :=
  match a.1.1 ?= b.1.1 with
  | Eq => match a.1.2 ?= b.1.2 with Eq => a.2 ?= b.2 | c => c end
  | c => c
  end.

Lemma SFcompare_rank x y :
  x <> S754_nan -> y <> S754_nan -> SFcompare x y = Some (triple_compare (rank x) (rank y)).
Proof.
  intros Hx Hy. destruct x as [sx|sx| |sx mx ex], y as [sy|sy| |sy my ey]; try done;
    try (by destruct sx); try (by destruct sy); try (by destruct sx, sy).
  destruct sx, sy; try done; unfold triple_compare; cbn [rank fst snd SFcompare].
  change (-1 ?= -1) with Eq. cbv iota. rewrite !Z.compare_opp, (Z.compare_antisym ex ey).
  destruct (ex ?= ey); simpl; [|done..]. f_equal. change (Pos.compare_cont Eq mx my) with (mx ?= my)%positive.
  symmetry. apply Pos.compare_antisym.
Qed.

Definition is_number (h : DecayedHit) : Prop := dd_adjusted h <> S754_nan.

(** The key a hit is ordered by: adjusted distance, then id. *)
Definition hit_key (h : DecayedHit) : Z * Z * Z * Z := (rank (dd_adjusted h), dd_id h).
Definition key_compare (a b : Z * Z * Z * Z) : comparison :=
  match triple_compare a.1 b.1 with Eq => a.2 ?= b.2 | c => c end.
Definition key_before (a b : Z * Z * Z * Z) : Prop := key_compare a b <> Gt.

(** Hits in order. *)
Definition hit_before (a b : DecayedHit) : Prop := key_before (hit_key a) (hit_key b).

Lemma compare_hits_key a b : is_number a -> is_number b -> compare_hits a b = key_compare (hit_key a) (hit_key b).
Proof.
  intros Ha Hb. unfold compare_hits, key_compare. rewrite SFcompare_rank by done. simpl.
  by destruct (triple_compare _ _).
Qed.

Lemma key_compare_antisym a b : key_compare b a = CompOpp (key_compare a b).
Proof.
  destruct a as [[[a1 a2] a3] a4], b as [[[b1 b2] b3] b4]. unfold key_compare, triple_compare. simpl.
  rewrite (Z.compare_antisym a1 b1), (Z.compare_antisym a2 b2), (Z.compare_antisym a3 b3), (Z.compare_antisym a4 b4).
  by destruct (a1 ?= b1), (a2 ?= b2), (a3 ?= b3), (a4 ?= b4).
Qed.

Lemma key_before_trans a b c : key_before a b -> key_before b c -> key_before a c.
Proof.
  destruct a as [[[a1 a2] a3] a4], b as [[[b1 b2] b3] b4], c as [[[c1 c2] c3] c4].
  unfold key_before, key_compare, triple_compare. simpl.
  destruct (Z.compare_spec a1 b1), (Z.compare_spec b1 c1), (Z.compare_spec a1 c1); try done; try lia;
    destruct (Z.compare_spec a2 b2), (Z.compare_spec b2 c2), (Z.compare_spec a2 c2); try done; try lia;
    destruct (Z.compare_spec a3 b3), (Z.compare_spec b3 c3), (Z.compare_spec a3 c3); try done; try lia;
    destruct (Z.compare_spec a4 b4), (Z.compare_spec b4 c4), (Z.compare_spec a4 c4); try done; lia.
Qed.

(** ** Sorting *)
Lemma insert_cmp_perm {A} (cmp : A -> A -> comparison) x l : insert_cmp cmp x l ≡ₚ x :: l.
Proof.
  induction l as [|y l IH]; [done|]. cbn [insert_cmp]. destruct (cmp x y); [|done|];
    rewrite IH; apply Permutation_swap.
Qed.

Lemma insert_hit_sorted x l :
  is_number x -> Forall is_number l -> StronglySorted hit_before l ->
  StronglySorted hit_before (insert_cmp compare_hits x l).
Proof.
  intros Hx Hl Hs. induction Hs as [|y l Hs IH Hy]; cbn [insert_cmp]; [by repeat constructor|].
  apply Forall_cons in Hl as [Hny Hnl]. rewrite compare_hits_key by done.
  destruct (key_compare (hit_key x) (hit_key y)) eqn:E.
  1, 3: constructor; [by apply IH|]; rewrite insert_cmp_perm; constructor; [|done];
    unfold hit_before, key_before; by rewrite key_compare_antisym, E.
  assert (hit_before x y) as Hxy by (unfold hit_before, key_before; by rewrite E).
  constructor; [by constructor|]. constructor; [done|]. eapply Forall_impl; [exact Hy|].
  intros z Hz. by eapply key_before_trans.
Qed.

Lemma sort_hits_ok l :
  Forall is_number l -> sort_cmp compare_hits l ≡ₚ l /\ StronglySorted hit_before (sort_cmp compare_hits l).
Proof.
  intros Hl. unfold sort_cmp. assert (forall acc, Forall is_number acc -> StronglySorted hit_before acc ->
    foldl (fun acc x => insert_cmp compare_hits x acc) acc l ≡ₚ acc ++ l
    /\ StronglySorted hit_before (foldl (fun acc x => insert_cmp compare_hits x acc) acc l)) as H; [|apply H; constructor].
  induction Hl as [|x l Hx Hl IH]; intros acc Ha Hs; simpl; [by rewrite app_nil_r|].
  destruct (IH (insert_cmp compare_hits x acc)) as [Hp Hs'].
  - rewrite insert_cmp_perm. by constructor.
  - by apply insert_hit_sorted.
  - split; [|done]. rewrite Hp, insert_cmp_perm. apply Permutation_middle.
Qed.

(** When no adjusted distance is NaN, reranking with decay returns the k first
    of the decayed hits in the order of (distance, id), sorted. *)
Theorem decay_rerank_top_k powf hits now half_life k :
  Forall is_number (decay_hit powf now half_life <$> hits) ->
  exists rest,
    decay_rerank powf hits now half_life k ++ rest ≡ₚ (decay_hit powf now half_life <$> hits)
    /\ StronglySorted hit_before (decay_rerank powf hits now half_life k ++ rest)
    /\ length (decay_rerank powf hits now half_life k) = Nat.min k (length hits).
Proof.
  intros Hn. destruct (sort_hits_ok _ Hn) as [Hp Hs]. unfold decay_rerank.
  exists (drop k (sort_cmp compare_hits (decay_hit powf now half_life <$> hits))). rewrite take_drop.
  split_and!; [done|done|]. rewrite length_take, Hp, length_fmap. done.
Qed.

(** An old close hit and a fresh one; the stand-in for [powf] halves once. *)
Definition half_once (_ _ : f64) : f64 := f64_literal 1 2.
Definition two_hits : list DecayHit :=
  [mkDecayHit 1 (f32_of_Z 1) (Some 900); mkDecayHit 2 (f32_of_Z 3) None].

Lemma decay_rerank_top_k_witness :
  Forall is_number (decay_hit half_once 1000 100 <$> two_hits)
  /\ exists rest,
    decay_rerank half_once two_hits 1000 100 1 ++ rest ≡ₚ (decay_hit half_once 1000 100 <$> two_hits)
    /\ StronglySorted hit_before (decay_rerank half_once two_hits 1000 100 1 ++ rest)
    /\ length (decay_rerank half_once two_hits 1000 100 1) = 1%nat.
Proof.
  assert (Forall is_number (decay_hit half_once 1000 100 <$> two_hits)) as Hn.
  { apply Forall_cons_2; [vm_compute; discriminate|]. apply Forall_cons_2; [vm_compute; discriminate|].
    apply Forall_nil_2. }
  split; [exact Hn|]. exact (decay_rerank_top_k half_once two_hits 1000 100 1 Hn).
Defined.

(** ** Filters *)
Section FilterTheorems.
Context {Value : Type} `{!SearchJson Value}.

(** A filter is the conjunction of its entries: a record passes when its metadata is
    an object that has every key with a matching value, so adding entries never
    lets more records through. *)
Theorem filter_is_conjunction (meta : Value) (filter : MetadataFilter Value) :
  matches_metadata_filter meta filter = true
  <-> exists obj, as_object meta = Some obj
        /\ Forall (fun kv => exists actual, map_get kv.1 obj = Some actual /\ value_matches actual kv.2 = true) filter.
Proof.
  unfold matches_metadata_filter. destruct (as_object meta) as [obj|]; [|naive_solver].
  rewrite forallb_forall. setoid_rewrite <- list_elem_of_In. split.
  - intros H. exists obj. split; [done|]. apply Forall_forall. intros kv Hkv. specialize (H kv Hkv).
    destruct (map_get kv.1 obj) as [actual|]; [by exists actual|done].
  - intros (obj' & [= <-] & H) kv Hkv. rewrite Forall_forall in H. destruct (H kv Hkv) as (actual & -> & Hm). done.
Qed.
End FilterTheorems.

(** Numbers, texts and flat objects. *)
Inductive DemoJson : Type := JNumber (z : Z) | JText (s : list Z) | JObject (fields : list (list Z * DemoJson)).

#[global] Instance search_json : SearchJson DemoJson := {
  as_object v := match v with JObject fs => Some fs | _ => None end;
  as_f64 v := match v with JNumber z => Some (f64_of_int z) | _ => None end;
  value_eqb a b :=
    match a, b with
    | JNumber x, JNumber y => x =? y
    | JText s, JText t => bool_decide (s = t)
    | _, _ => false
    end;
}.

(** A bound that is not a number is ignored: a year of 1990 passes "at least the
    text 2020". *)
Theorem non_numeric_bound_ignored :
  matches_metadata_filter (JObject [(ascii_bytes "year", JNumber 1990)])
    [(ascii_bytes "year", JObject [(ascii_bytes "gte", JText (ascii_bytes "2020"))])] = true
  /\ matches_metadata_filter (JObject [(ascii_bytes "year", JNumber 1990)])
       [(ascii_bytes "year", JObject [(ascii_bytes "gte", JNumber 2020)])] = false.
Proof. vm_compute. done. Qed.
