(* ===== verification/Ivf.v ===== *)
(** * Inverted lists, k-means and product quantization

    Models [crates/valori-index/src]: [deterministic/kmeans.rs] (k-means over
    Q16.16 vectors), [ivf.rs] (the inverted-file index) and [quant/] (the scalar
    and the product quantizer).

    [select_nth_unstable_by] followed by [truncate] and [sort_unstable_by] keeps
    the [k] least elements in order, which is [topk]; the probes are a set whose
    order does not reach the result.  [path] is the code path of the distance
    kernel, as in [Fxp]; bincode is the class [IvfCodec]. *)

From Stdlib Require Import SpecFloat.
From stdpp Require Import base list.
From S2P Require Import Prelude.
From S2P Require Import Bytes.
From S2P Require Import Fxp.
From S2P Require Import TopK.
From S2P Require Import F32.
From S2P Require Import HostIndex.
From S2P Require Import Search.

(** ** Conversions (kmeans.rs) *)
Definition f32_to_q16 (val : f32) : Z :=
  let scaled := f32_round (f32_mul val SCALE_f32) in
  match scaled with
  | S754_nan => 0
  | _ => f32_as_i32 (f32_clamp scaled (f32_of_Z i32_MIN) (f32_of_Z i32_MAX))
  end.

Definition q_vec (v : list f32) : list Z := f32_to_q16 <$> v.
Definition q_record (r : Z * list f32) : Z * list Z := (r.1, q_vec r.2).

(** ** FNV-1a over the bytes of the components and of the id *)
Definition FNV_OFFSET : Z := 0xcbf29ce484222325.
Definition FNV_PRIME : Z := 0x100000001b3.
Definition fnv_byte (hash byte : Z) : Z := (Z.lxor hash byte * FNV_PRIME) mod 18446744073709551616.
Definition fnv_bytes : Z -> list Z -> Z := foldl fnv_byte.
Definition hash_vec_id (id : Z) (vec : list Z) : Z :=
  fnv_bytes (foldl (fun h v => fnv_bytes h (le_bytes 4 (wrap_u32 v))) FNV_OFFSET vec) (le_bytes 4 id).

(** ** The nearest centroid: the loop of [deterministic_kmeans],
    [find_nearest_centroid] and [quantize] *)
Fixpoint nearest_from (dist : list Z -> Z) (i : Z) (cs : list (list Z)) (best : Z * Z) : Z * Z :=
  match cs with
  | [] => best
  | c :: cs =>
      let d := dist c in
      nearest_from dist (i + 1) cs
        (if (d <? best.2) || ((d =? best.2) && (i <? best.1)) then (i, d) else best)
  end.
Definition nearest (dist : list Z -> Z) (cs : list (list Z)) : Z * Z := nearest_from dist 0 cs (0, i64_MAX).

(** ** K-means (kmeans.rs) *)
Section Kmeans.
Context (path : SimdPath).

Definition l2_sq_q16 (a b : list Z) : Z := l2_sq_i32 path a b.

Definition saturating_add_i128 (a b : Z) : Z := clamp (- 2 ^ 127) (2 ^ 127 - 1) (a + b).

(** [sums[c][d]] and [counts[c]] of one iteration. *)
Definition add_vec (sum vec : list Z) : list Z := zip_with saturating_add_i128 sum vec.
Definition tally (centroids : list (list Z)) (st : list (list Z) * list Z) (vec : list Z) :
    list (list Z) * list Z :=
  let c := Z.to_nat (nearest (l2_sq_q16 vec) centroids).1 in
  (alter (fun s => add_vec s vec) c st.1, alter (Z.add 1) c st.2).

Definition average (count s : Z) : Z := clamp i32_MIN i32_MAX (Z.quot s count).
Definition recenter (centroid : list Z) (p : list Z * Z) : list Z :=
  if 0 <? p.2 then average p.2 <$> p.1 else centroid.

Definition kmeans_step (dim k : nat) (vecs : list (list Z)) (centroids : list (list Z)) : list (list Z) :=
  let '(sums, counts) := foldl (tally centroids) (replicate k (replicate dim 0), replicate k 0) vecs in
  zip_with recenter centroids (zip sums counts).

Definition scored_le (a b : Z * Z * list Z) : bool :=
  match a.1.1 ?= b.1.1 with Lt => true | Gt => false | Eq => a.1.2 <=? b.1.2 end.
Definition seeds (k : nat) (q_records : list (Z * list Z)) : list (list Z) :=
  snd <$> take k (sort_scored scored_le ((fun r => (hash_vec_id r.1 r.2, r.1, r.2)) <$> q_records)).

Definition deterministic_kmeans (records : list (Z * list f32)) (k iterations : Z) :
    outcome Empty_set (list (list Z)) :=
  match records with
  | [] => Ok []
  | (_, first) :: _ =>
      if k =? 0 then Ok []
      else
        let dim := length first in
        if negb (forallb (fun r => Nat.eqb (length r.2) dim) records) then Panic
        else
          let q_records := q_record <$> records in
          if len q_records <=? k then Ok (snd <$> sort_by_key fst q_records)
          else Ok (Nat.iter (Z.to_nat iterations) (kmeans_step dim (Z.to_nat k) (snd <$> q_records))
                     (seeds (Z.to_nat k) q_records))
  end.
End Kmeans.

(** ** The inverted-file index (ivf.rs) *)
Record IvfConfig : Type := mkIvfConfig { n_list : Z; n_probe : Z; auto_scale : bool }.
Definition IvfConfig_default : IvfConfig := mkIvfConfig 100 10 true.

Record IvfIndex : Type := mkIvf {
  iv_config : IvfConfig;
  iv_dim : Z;
  iv_centroids : list (list Z);
  inverted_lists : list (list (Z * list Z));
  n_at_last_build : Z;
}.
Definition IvfIndex_new (config : IvfConfig) (dim : Z) : IvfIndex := mkIvf config dim [] [] 0.

Definition needs_rebuild (current_count : Z) (i : IvfIndex) : bool :=
  (0 <? n_at_last_build i) && (n_at_last_build i * 2 <? current_count).

(** [x as usize]: truncates, saturates. *)
Definition f64_as_usize (x : f64) : Z :=
  match x with
  | S754_infinity false => u64_MAX
  | S754_finite false m e => Z.min u64_MAX (trunc_shift (Zpos m) e)
  | _ => 0
  end.
Definition sqrt_usize (n : Z) : Z := f64_as_usize (SFsqrt 53 1024 (f64_of_int n)).

Definition effective_params (config : IvfConfig) (n : Z) : Z * Z :=
  if negb (auto_scale config) then (n_list config, n_probe config)
  else
    let nl := Z.max (sqrt_usize n) 16 in
    (nl, Z.max (sqrt_usize nl) 1).

Section Ivf.
Context (path : SimdPath).

(** [l2_sq]: on aarch64 a reduction of its own, eight elements a step into four
    pairs of lanes, elsewhere the kernel's. *)
Fixpoint ivf_neon_reduce (acc0 acc1 acc2 acc3 : Z * Z) (ps : list (Z * Z)) : Z :=
  match ps with
  | p0 :: p1 :: p2 :: p3 :: p4 :: p5 :: p6 :: p7 :: rest =>
      ivf_neon_reduce
        (wrap_i64 (acc0.1 + lane_sq p0), wrap_i64 (acc0.2 + lane_sq p1))
        (wrap_i64 (acc1.1 + lane_sq p2), wrap_i64 (acc1.2 + lane_sq p3))
        (wrap_i64 (acc2.1 + lane_sq p4), wrap_i64 (acc2.2 + lane_sq p5))
        (wrap_i64 (acc3.1 + lane_sq p6), wrap_i64 (acc3.2 + lane_sq p7)) rest
  | rest =>
      let lane a0 a1 a2 a3 := wrap_i64 (wrap_i64 (a0 + a1) + wrap_i64 (a2 + a3)) in
      l2_tail (wrap_i64 (lane acc0.1 acc1.1 acc2.1 acc3.1 + lane acc0.2 acc1.2 acc2.2 acc3.2)) rest
  end.
Definition ivf_l2_sq (a b : list Z) : Z :=
  match path with
  | Neon => ivf_neon_reduce (0, 0) (0, 0) (0, 0) (0, 0) (zip a b)
  | _ => l2_sq_q16 path a b
  end.

Definition find_nearest_centroid (q : list Z) (i : IvfIndex) : Z * Z :=
  match iv_centroids i with
  | [] => (0, i64_MAX)
  | cs => nearest (ivf_l2_sq q) cs
  end.

(** [self.inverted_lists[c].push(r)] *)
Definition list_push (c : Z) (r : Z * list Z) : M Empty_set IvfIndex unit := fun i =>
  match vec_get (inverted_lists i) c with
  | Some l =>
      (mkIvf (iv_config i) (iv_dim i) (iv_centroids i) (vec_set (inverted_lists i) c (l ++ [r])) (n_at_last_build i),
       Ok tt)
  | None => (i, Panic)
  end.

Definition place (r : Z * list f32) : M Empty_set IvfIndex unit := fun i =>
  list_push (find_nearest_centroid (q_vec r.2) i).1 (q_record r) i.

Definition ivf_build (records : list (Z * list f32)) : M Empty_set IvfIndex unit := fun i =>
  match records with
  | [] => (i, Ok tt)
  | _ =>
      let '(nl, np) := effective_params (iv_config i) (len records) in
      let config := mkIvfConfig nl np (auto_scale (iv_config i)) in
      let i1 := mkIvf config (iv_dim i) (iv_centroids i) (inverted_lists i) (n_at_last_build i) in
      match deterministic_kmeans path records nl 20 with
      | Ok cs =>
          (sfor records place ;;;
           smodify (fun i => mkIvf (iv_config i) (iv_dim i) (iv_centroids i) (inverted_lists i) (len records)))
            (mkIvf config (iv_dim i) cs (replicate (length cs) []) (n_at_last_build i))
      | _ => (i1, Panic)
      end
  end.

Definition ivf_insert (id : Z) (vec : list f32) : M Empty_set IvfIndex unit := fun i =>
  match iv_centroids i with
  | [] =>
      let lists := match inverted_lists i with [] => [[]] | ls => ls end in
      list_push 0 (id, q_vec vec) (mkIvf (iv_config i) (iv_dim i) [] lists (n_at_last_build i))
  | _ => place (id, vec) i
  end.

Definition ivf_delete (id : Z) (i : IvfIndex) : IvfIndex :=
  mkIvf (iv_config i) (iv_dim i) (iv_centroids i)
    ((fun l => base.filter (fun r => r.1 <> id) l) <$> inverted_lists i) (n_at_last_build i).

(** [a.1.cmp(&b.1).then_with(|| a.0.cmp(&b.0))] *)
Definition hit_ltb (a b : Z * Z) : bool := (a.2 <? b.2) || ((a.2 =? b.2) && (a.1 <? b.1)).
#[export] Instance hit_ord : TotalOrd (Z * Z).
Proof.
  refine {| ltb := hit_ltb |}; unfold hit_ltb.
  - intros [a b]. simpl. lia.
  - intros [a1 a2] [b1 b2] [c1 c2]. simpl. lia.
  - intros [a1 a2] [b1 b2]. simpl. intros. f_equal; lia.
Defined.

(** The [k] best of the candidates; [k - 1] of a [k] of 0 is out of range. *)
Definition select_best (k : Z) (candidates : list (Z * Z)) : outcome Empty_set (list (Z * Z)) :=
  if (k <? len candidates) && (k =? 0) then Panic else Ok (topk (Z.to_nat k) candidates).

Definition scan (q : list Z) (l : list (Z * list Z)) : list (Z * Z) :=
  (fun r => (r.1, ivf_l2_sq q r.2)) <$> l.

(** The lists of the [probes] nearest centroids. *)
Definition probe (probes : Z) (q : list Z) (cs : list (list Z)) : outcome Empty_set (list Z) :=
  if (probes <? len cs) && (probes =? 0) then Panic
  else Ok (fst <$> topk (Z.to_nat probes) (imap (fun n c => (Z.of_nat n, ivf_l2_sq q c)) cs)).

Definition ivf_search (query : list f32) (k : Z) (i : IvfIndex) : outcome Empty_set (list (Z * f32)) :=
  let q := q_vec query in
  let answer candidates := do* best := select_best k candidates in Ok ((fun h => (h.1, f32_of_Z h.2)) <$> best) in
  match iv_centroids i with
  | [] =>
      match inverted_lists i with
      | [] => Ok []
      | l :: _ => answer (scan q l)
      end
  | cs =>
      let probes := Z.min (n_probe (iv_config i)) (len cs) in
      do* ids := probe probes q cs in
      do* lists := foldr (fun c acc => do* l := unwrap (vec_get (inverted_lists i) c) in
                                       do* ls := acc in Ok (l :: ls)) (Ok []) ids in
      answer (scan q (concat lists))
  end.
End Ivf.

(** ** Snapshots (ivf.rs); bincode is a parameter *)
Record IvfDump : Type := mkIvfDump {
  dump_config : IvfConfig;
  dump_centroids : list (list Z);
  dump_lists : list (list (Z * list Z));
}.
Class IvfCodec : Type := {
  encode_ivf : IvfDump -> list Z;
  decode_ivf : list Z -> option IvfDump;
}.
Class IvfCodecLaws `{IvfCodec} : Prop := decode_encode_ivf d : decode_ivf (encode_ivf d) = Some d.

Definition ivf_snapshot `{IvfCodec} (i : IvfIndex) : list Z :=
  encode_ivf (mkIvfDump (iv_config i) (iv_centroids i) (sort_by_key fst <$> inverted_lists i)).
Definition ivf_restore `{IvfCodec} (data : list Z) (i : IvfIndex) : IvfIndex * outcome unit unit :=
  match decode_ivf data with
  | None => (i, Err tt)
  | Some d =>
      (mkIvf (dump_config d) (match dump_centroids d with [] => 0 | c :: _ => len c end)
         (dump_centroids d) (dump_lists d) (foldl Z.add 0 (len <$> dump_lists d)), Ok tt)
  end.

(** ** Quantizers (quant/) *)
Class Quantizer (Q : Type) : Type := {
  quantize : Q -> list f32 -> outcome Empty_set (list Z);
  reconstruct : Q -> list Z -> list f32;
}.

(** [x as u8] of a float. *)
Definition f32_as_u8 (x : f32) : Z :=
  match x with
  | S754_infinity false => u8_MAX
  | S754_finite false m e => Z.min u8_MAX (trunc_shift (Zpos m) e)
  | _ => 0
  end.
(** [v.max(-1.0)], [v.min(1.0)]: the other operand when [v] is NaN. *)
Definition scalar_max (a b : f32) : f32 :=
  match a with S754_nan => b | _ => if f32_lt a b then b else a end.
Definition scalar_min (a b : f32) : f32 :=
  match a with S754_nan => b | _ => if f32_lt b a then b else a end.

Definition f32_127_5 : f32 := f32_literal 1275 10.
Definition scalar_code (v : f32) : Z :=
  f32_as_u8 (f32_mul (f32_add (scalar_min (scalar_max v (f32_of_Z (-1))) (f32_of_Z 1)) (f32_of_Z 1)) f32_127_5).
Definition scalar_value (b : Z) : f32 := f32_sub (f32_div (f32_of_Z b) f32_127_5) (f32_of_Z 1).

Inductive ScalarQuantizer : Type := mkScalarQuantizer.
#[export] Instance scalar_quantizer : Quantizer ScalarQuantizer := {|
  quantize _ vec := Ok (scalar_code <$> vec);
  reconstruct _ data := scalar_value <$> data;
|}.

(** Product quantization (pq.rs) *)
Record PqConfig : Type := mkPqConfig { n_subvectors : Z; n_centroids : Z }.
Definition PqConfig_default : PqConfig := mkPqConfig 4 256.
Record ProductQuantizer : Type := mkPq {
  pq_config : PqConfig;
  pq_dim : Z;
  sub_dim : Z;
  codebooks : list (list (list Z));
}.

(** [dim / n_subvectors], 0 for dimension 0. *)
Definition sub_dim_of (dim n : Z) : outcome Empty_set Z :=
  if dim =? 0 then Ok 0 else if n =? 0 then Panic else Ok (dim / n).
Definition ProductQuantizer_new (config : PqConfig) (dim : Z) : outcome Empty_set ProductQuantizer :=
  do* sd := sub_dim_of dim (n_subvectors config) in Ok (mkPq config dim sd []).

(** [vec[start..end]] *)
Definition f32_slice (vec : list f32) (start stop : Z) : outcome Empty_set (list f32) :=
  if len vec <? stop then Panic else Ok (take (Z.to_nat (stop - start)) (drop (Z.to_nat start) vec)).

Fixpoint try_map {A B} (f : A -> outcome Empty_set B) (l : list A) : outcome Empty_set (list B) :=
  match l with
  | [] => Ok []
  | x :: l => do* y := f x in do* ys := try_map f l in Ok (y :: ys)
  end.

Section Pq.
Context (path : SimdPath).

Definition codebook (pq : ProductQuantizer) (records : list (Z * list f32)) (m : Z) :
    outcome Empty_set (list (list Z)) :=
  let start := m * sub_dim pq in
  do* sub := try_map (fun r => do* v := f32_slice r.2 start (start + sub_dim pq) in Ok (r.1, v)) records in
  deterministic_kmeans path (sort_by_key fst sub) (n_centroids (pq_config pq)) 15.

Definition pq_build (records : list (Z * list f32)) (pq : ProductQuantizer) : outcome Empty_set ProductQuantizer :=
  match records with
  | [] => Ok pq
  | _ =>
      do* books := try_map (codebook pq records) (seqZ 0 (n_subvectors (pq_config pq))) in
      Ok (mkPq (pq_config pq) (pq_dim pq) (sub_dim pq) books)
  end.

Definition pq_code (pq : ProductQuantizer) (vec : list f32) (m : Z) : outcome Empty_set Z :=
  let start := m * sub_dim pq in
  do* sub := f32_slice vec start (start + sub_dim pq) in
  let best := match vec_get (codebooks pq) m with
              | Some book => (nearest (l2_sq_q16 path (q_vec sub)) book).1
              | None => 0
              end in
  Ok (best mod 256).
Definition pq_quantize (pq : ProductQuantizer) (vec : list f32) : outcome Empty_set (list Z) :=
  try_map (pq_code pq vec) (seqZ 0 (n_subvectors (pq_config pq))).

Definition pq_piece (pq : ProductQuantizer) (m : nat) (code : Z) : list f32 :=
  match codebooks pq !! m with
  | None => []
  | Some book =>
      match vec_get book code with
      | Some c => to_f32 <$> c
      | None => replicate (Z.to_nat (sub_dim pq)) (S754_zero false)
      end
  end.
Definition pq_reconstruct (pq : ProductQuantizer) (data : list Z) : list f32 :=
  concat (imap (pq_piece pq) data).

#[export] Instance product_quantizer : Quantizer ProductQuantizer := {|
  quantize := pq_quantize; reconstruct := pq_reconstruct;
|}.
End Pq.

(** Snapshots of a product quantizer; bincode is a parameter *)
Record PqDump : Type := mkPqDump { pd_config : PqConfig; pd_dim : Z; pd_codebooks : list (list (list Z)) }.
Class PqCodec : Type := {
  encode_pq : PqDump -> list Z;
  decode_pq : list Z -> option PqDump;
}.
Class PqCodecLaws `{PqCodec} : Prop := decode_encode_pq d : decode_pq (encode_pq d) = Some d.

Definition pq_snapshot `{PqCodec} (pq : ProductQuantizer) : list Z :=
  encode_pq (mkPqDump (pq_config pq) (pq_dim pq) (codebooks pq)).
Definition pq_restore `{PqCodec} (data : list Z) (pq : ProductQuantizer) : ProductQuantizer * outcome unit unit :=
  match decode_pq data with
  | None => (pq, Err tt)
  | Some d =>
      match sub_dim_of (pd_dim d) (n_subvectors (pd_config d)) with
      | Ok sd => (mkPq (pd_config d) (pd_dim d) sd (pd_codebooks d), Ok tt)
      | _ => (mkPq (pd_config d) (pd_dim d) (sub_dim pq) (codebooks pq), Panic)
      end
  end.
