(* ===== verification/IvfTheorems.v ===== *)
(** * What the inverted-file index promises

    K-means and the index built from it do not depend on the order of the
    records; an index holds exactly what was put in, each record in the list of
    its nearest centroid; a search returns the best records of the probed lists,
    of all records when every list is probed, and always finds a stored vector;
    a snapshot searches like the index it was taken of; product quantization
    keeps the nearest codebook entries. *)

From Stdlib Require Import SpecFloat.
From stdpp Require Import base list sorting.
From S2P Require Import Prelude.
From S2P Require Import Bytes.
From S2P Require Import Fxp.
From S2P Require Import TopK.
From S2P Require Import F32.
From S2P Require Import HostIndex.
From S2P Require Import Search.
From S2P Require Import Ivf.

(** ** Distances stay within i64 *)
Lemma l2_tail_range t ps : in_i64 t -> in_i64 (l2_tail t ps).
Proof.
  unfold l2_tail. revert t. induction ps as [|p ps IH]; intros t Ht; [done|].
  simpl. apply IH, wrap_i64_range.
Qed.

Lemma scalar_range t ps : in_i64 t -> in_i64 (l2_sq_scalar_from t ps).
Proof.
  unfold l2_sq_scalar_from. revert t. induction ps as [|p ps IH]; intros t Ht; [done|].
  simpl. apply IH. unfold saturating_add_i64, clamp. int_lia.
Qed.

(** Case analysis on the elements a SIMD step consumes. *)
Ltac reduce_range IH :=
  unfold ltof in IH; intros;
  repeat match goal with |- context [match ?l with [] => _ | _ => _ end] => is_var l; destruct l; simpl end;
  first [apply wrap_i64_range | apply l2_tail_range, wrap_i64_range | apply IH; simpl; lia].

Lemma neon_range ps acc0 acc1 : in_i64 (neon_reduce lane_sq l2_tail acc0 acc1 ps).
Proof.
  revert acc0 acc1. induction ps as [ps IH] using (induction_ltof1 _ (@length _)).
  destruct ps; simpl; reduce_range IH.
Qed.

Lemma avx2_range ps a0 a1 a2 a3 : in_i64 (avx2_reduce lane_sq l2_tail a0 a1 a2 a3 ps).
Proof.
  revert a0 a1 a2 a3. induction ps as [ps IH] using (induction_ltof1 _ (@length _)).
  destruct ps; simpl; reduce_range IH.
Qed.

Lemma sse41_range ps a0 a1 : in_i64 (sse41_reduce lane_sq l2_tail a0 a1 ps).
Proof.
  revert a0 a1. induction ps as [ps IH] using (induction_ltof1 _ (@length _)).
  destruct ps; simpl; reduce_range IH.
Qed.

Lemma ivf_neon_range ps a0 a1 a2 a3 : in_i64 (ivf_neon_reduce a0 a1 a2 a3 ps).
Proof.
  revert a0 a1 a2 a3. induction ps as [ps IH] using (induction_ltof1 _ (@length _)).
  destruct ps; simpl; reduce_range IH.
Qed.

Lemma l2_q16_range path a b : in_i64 (l2_sq_q16 path a b).
Proof.
  unfold l2_sq_q16, l2_sq_i32, l2_sq_neon, l2_sq_avx2, l2_sq_sse41.
  destruct path; [apply scalar_range; int_lia|apply neon_range|apply avx2_range|apply sse41_range].
Qed.

Lemma ivf_l2_range path a b : in_i64 (ivf_l2_sq path a b).
Proof. unfold ivf_l2_sq. destruct path; [apply l2_q16_range|apply ivf_neon_range|apply l2_q16_range..]. Qed.

(** On safe inputs the index's own NEON reduction is exact too. *)
Lemma ivf_neon_sum ps a0 a1 a2 a3 :
  Forall (fun p => lane_sq p = sq_diff p) ps ->
  ivf_neon_reduce a0 a1 a2 a3 ps
  = wrap_i64 (a0.1 + a0.2 + a1.1 + a1.2 + a2.1 + a2.2 + a3.1 + a3.2 + zsum sq_diff ps).
Proof.
  revert a0 a1 a2 a3. induction ps as [ps IH] using (induction_ltof1 _ (@length _)).
  unfold ltof in IH. intros a0 a1 a2 a3 Hl.
  destruct ps as [|p0 [|p1 [|p2 [|p3 [|p4 [|p5 [|p6 [|p7 rest]]]]]]]]; cbn [ivf_neon_reduce];
    try (rewrite l2_tail_adds; simpl; wrap_ring).
  repeat (apply Forall_cons in Hl as [?He Hl]). rewrite IH; [|simpl; lia|done]. simpl.
  repeat match goal with E : lane_sq _ = sq_diff _ |- _ => rewrite E; clear E end. wrap_ring.
Qed.

Lemma ivf_l2_exact path a b : l2_safe a b -> ivf_l2_sq path a b = zsum sq_diff (zip a b).
Proof.
  intros Hs. unfold ivf_l2_sq.
  destruct path; [exact (l2_exact Scalar a b Hs)| |exact (l2_exact Avx2 a b Hs)|exact (l2_exact Sse41 a b Hs)].
  destruct Hs as [Hf Hm]. pose proof (zsum_nonneg sq_diff (zip a b) sq_diff_nonneg).
  rewrite ivf_neon_sum by (by apply lane_sq_exact). simpl. apply wrap_i64_small. int_lia.
Qed.

Lemma ivf_l2_self path v : ivf_l2_sq path v v = 0.
Proof.
  assert (Forall diff_fits (zip v v) /\ zsum sq_diff (zip v v) = 0) as [Hf H0].
  { induction v as [|x v [IH1 IH2]]; [split; [constructor|done]|]. simpl. split.
    - constructor; [|done]. unfold diff_fits. simpl. int_lia.
    - unfold sq_diff at 1. simpl. lia. }
  rewrite ivf_l2_exact; [done|]. split; [done|]. int_lia.
Qed.

(** ** The nearest centroid *)
Lemma nearest_from_spec dist cs : forall i best,
  best.1 <= i ->
  (nearest_from dist i cs best = best /\ Forall (fun c => best.2 <= dist c) cs)
  \/ exists n c, cs !! n = Some c /\ nearest_from dist i cs best = (i + Z.of_nat n, dist c) /\ dist c < best.2
       /\ forall m c', cs !! m = Some c' -> dist c <= dist c' /\ ((m < n)%nat -> dist c < dist c').
Proof.
  induction cs as [|c cs IH]; intros i best Hi; [left; split; [done|constructor]|]. simpl.
  destruct (dist c <? best.2) eqn:E; simpl.
  - right. destruct (IH (i + 1) (i, dist c)) as [[-> Hf]|(n & c' & Hn & -> & Hlt & Hmin)]; [simpl; lia| |].
    + exists 0%nat, c. split; [done|]. split; [f_equal; lia|]. split; [lia|].
      intros [|m] c' Hm; [simplify_eq/=; lia|]. simpl in *. rewrite Forall_lookup in Hf.
      specialize (Hf _ _ Hm). simpl in Hf. split; [done|lia].
    + exists (S n), c'. split; [done|]. split; [f_equal; lia|]. simpl in Hlt. split; [lia|].
      intros [|m] c0 Hm; [simplify_eq/=; lia|]. specialize (Hmin _ _ Hm). split; [lia|]. intros. apply Hmin. lia.
  - replace ((dist c =? best.2) && (i <? best.1)) with false by lia.
    destruct (IH (i + 1) best) as [[-> Hf]|(n & c' & Hn & -> & Hlt & Hmin)]; [lia| |].
    + left. split; [done|]. constructor; [lia|done].
    + right. exists (S n), c'. split; [done|]. split; [f_equal; lia|]. split; [lia|].
      intros [|m] c0 Hm; [simplify_eq/=; lia|]. specialize (Hmin _ _ Hm). split; [lia|]. intros. apply Hmin. lia.
Qed.

(** The first of the nearest. *)
Definition is_nearest (dist : list Z -> Z) (cs : list (list Z)) (n : nat) : Prop :=
  exists c, cs !! n = Some c
    /\ forall m c', cs !! m = Some c' -> dist c <= dist c' /\ ((m < n)%nat -> dist c < dist c').

Lemma nearest_spec dist cs :
  cs <> [] -> (forall c, dist c <= i64_MAX) ->
  exists n, (nearest dist cs).1 = Z.of_nat n /\ is_nearest dist cs n.
Proof.
  intros Hne Hb. unfold nearest.
  destruct (nearest_from_spec dist cs 0 (0, i64_MAX)) as [[-> Hf]|(n & c & Hn & -> & Hlt & Hmin)]; [simpl; lia| |].
  - exists 0%nat. split; [done|]. destruct cs as [|c cs]; [done|]. exists c. split; [done|].
    intros m c' Hm. rewrite Forall_lookup in Hf. pose proof (Hf _ _ Hm). pose proof (Hb c). simpl in *. split; lia.
  - exists n. split; [simpl; lia|]. exists c. done.
Qed.

Lemma is_nearest_unique dist cs n n' : is_nearest dist cs n -> is_nearest dist cs n' -> n = n'.
Proof.
  intros (c & Hn & H) (c' & Hn' & H'). pose proof (H _ _ Hn') as [? ?]. pose proof (H' _ _ Hn) as [? ?].
  destruct (Nat.lt_trichotomy n n') as [|[|]]; [|done|]; exfalso; intuition lia.
Qed.

(** ** K-means does not depend on the order of the records *)
Lemma f32_to_q16_range v : in_i32 (f32_to_q16 v).
Proof.
  unfold f32_to_q16. destruct (f32_round _) as [s|s| |s m e]; [| |int_lia|];
    destruct (f32_clamp _ _ _) as [s'|[]| |s' m' e']; simpl; unfold clamp; int_lia.
Qed.

Lemma q_vec_range v : Forall in_i32 (q_vec v).
Proof. apply Forall_fmap, Forall_true. intros x. apply f32_to_q16_range. Qed.

Lemma foldl_perm {A B} (f : B -> A -> B) l l' s :
  (forall s x y, f (f s x) y = f (f s y) x) -> l ≡ₚ l' -> foldl f s l = foldl f s l'.
Proof.
  intros Hf Hp. revert s. induction Hp as [|x l l' _ IH|x y l|l1 l2 l3 _ IH1 _ IH2]; intros s; simpl; [done..| |].
  - by rewrite Hf.
  - by rewrite IH1.
Qed.

Section Order.
Context (path : SimdPath).
Implicit Types (cs sums : list (list Z)) (vec : list Z).

(** The sums without their saturation at 2^127. *)
Definition tally_exact cs (st : list (list Z) * list Z) vec : list (list Z) * list Z :=
  let c := Z.to_nat (nearest (l2_sq_q16 path vec) cs).1 in
  (alter (fun s => zip_with Z.add s vec) c st.1, alter (Z.add 1) c st.2).

Definition sums_within (B : Z) sums : Prop := Forall (Forall (fun z => - B <= z <= B)) sums.

Lemma add_vec_exact B (s vec : list Z) :
  Forall (fun z => - B <= z <= B) s -> Forall in_i32 vec -> B + 2 ^ 31 <= 2 ^ 127 - 1 ->
  add_vec s vec = zip_with Z.add s vec /\ Forall (fun z => - (B + 2 ^ 31) <= z <= B + 2 ^ 31) (zip_with Z.add s vec).
Proof.
  intros Hs Hv HB. revert vec Hv. induction Hs as [|z s Hz Hs IH]; intros [|v vec] Hv; try by split; [|constructor].
  apply Forall_cons in Hv as [Hv Hvs]. destruct (IH _ Hvs) as [E F]. unfold add_vec in *. simpl. split.
  - rewrite E. f_equal. unfold saturating_add_i128, clamp. int_lia.
  - constructor; [int_lia|done].
Qed.

Lemma alter_sums_within B B' sums c f :
  B <= B' -> sums_within B sums ->
  (forall s, Forall (fun z => - B <= z <= B) s -> Forall (fun z => - B' <= z <= B') (f s)) ->
  sums_within B' (alter f c sums).
Proof.
  intros HB Hs Hf. unfold sums_within in *. rewrite Forall_lookup in *. intros n s Hn.
  destruct (decide (n = c)) as [->|Hne].
  - rewrite list_lookup_alter_eq in Hn. destruct (sums !! c) eqn:E; simplify_eq/=. by apply Hf, (Hs c).
  - rewrite list_lookup_alter_ne in Hn by done. eapply Forall_impl; [by apply (Hs n)|]. simpl. lia.
Qed.

Lemma tally_fold_exact cs vecs : forall st B,
  0 <= B -> sums_within B st.1 -> Forall (Forall in_i32) vecs -> B + len vecs * 2 ^ 31 <= 2 ^ 127 - 1 ->
  foldl (tally path cs) st vecs = foldl (tally_exact cs) st vecs.
Proof.
  induction vecs as [|v vecs IH]; intros st B H0 Hs Hv HB; [done|]. cbn [foldl].
  rewrite len_cons in HB. pose proof (len_nonneg vecs). apply Forall_cons in Hv as [Hv Hvs].
  assert (tally path cs st v = tally_exact cs st v) as ->.
  { unfold tally, tally_exact. apply f_equal2; [|done]. apply list_eq. intros n.
    set (c := Z.to_nat _).
    destruct (decide (n = c)) as [->|Hne]; [|by rewrite !list_lookup_alter_ne by done].
    rewrite !list_lookup_alter_eq. destruct (st.1 !! c) as [s|] eqn:E; [|done]. simpl. f_equal.
    unfold sums_within in Hs. rewrite Forall_lookup in Hs. eapply add_vec_exact; [by apply (Hs c)|done|lia]. }
  apply (IH _ (B + 2 ^ 31)); [lia| |done|lia].
  apply (alter_sums_within B); [lia|done|]. intros s Hb. by eapply add_vec_exact; [|done|lia].
Qed.

Lemma zip_add_comm (s v w : list Z) :
  zip_with Z.add (zip_with Z.add s v) w = zip_with Z.add (zip_with Z.add s w) v.
Proof.
  revert v w. induction s as [|x s IH]; intros [|y v] [|z w]; simpl; try done. f_equal; [lia|apply IH].
Qed.

Lemma alter_comm {A} (f g : A -> A) (i j : nat) (l : list A) :
  (forall x, f (g x) = g (f x)) -> alter f i (alter g j l) = alter g j (alter f i l).
Proof.
  intros Hfg. apply list_eq. intros n.
  destruct (decide (n = i)) as [Hi|Hi], (decide (n = j)) as [Hj|Hj]; try subst i; try subst j;
    repeat first [rewrite list_lookup_alter_eq | rewrite list_lookup_alter_ne by done]; try done.
  destruct (l !! n); simpl; [by rewrite Hfg|done].
Qed.

Lemma tally_exact_comm cs st v w : tally_exact cs (tally_exact cs st v) w = tally_exact cs (tally_exact cs st w) v.
Proof.
  unfold tally_exact. simpl. f_equal; apply alter_comm; intros x; [apply zip_add_comm|lia].
Qed.

Lemma kmeans_step_perm dim k vecs vecs' cs :
  vecs ≡ₚ vecs' -> Forall (Forall in_i32) vecs -> len vecs <= u64_MAX ->
  kmeans_step path dim k vecs cs = kmeans_step path dim k vecs' cs.
Proof.
  intros Hp Hr Hl. unfold kmeans_step.
  assert (sums_within 0 (replicate k (replicate dim 0))) as H0.
  { apply Forall_replicate, Forall_replicate. lia. }
  assert (len vecs' = len vecs) as Hl' by (unfold len; by rewrite Hp).
  rewrite !(tally_fold_exact cs _ _ 0); try done; [|by rewrite <- Hp|unfold u64_MAX in *; lia..].
  by rewrite (foldl_perm (tally_exact cs) _ _ _ (tally_exact_comm cs) Hp).
Qed.

(** The seeds: the records with the least (hash, id). *)
Definition scored_le_prop (a b : Z * Z * list Z) : Prop := scored_le a b = true.

Lemma scored_le_spec a b : scored_le a b = true <-> a.1.1 < b.1.1 \/ (a.1.1 = b.1.1 /\ a.1.2 <= b.1.2).
Proof. unfold scored_le. destruct (Z.compare_spec a.1.1 b.1.1); lia. Qed.

Lemma insert_scored_sorted x l :
  StronglySorted scored_le_prop l -> StronglySorted scored_le_prop (insert_scored scored_le x l).
Proof.
  induction 1 as [|y l Hs IH Hf]; simpl; [by repeat constructor|].
  destruct (scored_le x y) eqn:E.
  - constructor; [by constructor|]. constructor; [done|].
    eapply Forall_impl; [exact Hf|]. intros z Hz. unfold scored_le_prop in *. rewrite scored_le_spec in *. lia.
  - constructor; [done|]. apply Forall_forall. intros z Hz.
    rewrite insert_scored_perm in Hz. apply elem_of_cons in Hz as [->|Hz]; [|by eapply Forall_forall in Hf].
    apply not_true_iff_false in E. unfold scored_le_prop in *. rewrite scored_le_spec in *. lia.
Qed.

Lemma seeds_perm k rs rs' : rs ≡ₚ rs' -> NoDup rs.*1 -> seeds k rs = seeds k rs'.
Proof.
  intros Hp Hn. unfold seeds. do 2 f_equal.
  assert (forall l, StronglySorted scored_le_prop (sort_scored scored_le l)) as Hs.
  { induction l as [|x l IH]; [constructor|]. by apply insert_scored_sorted. }
  apply (StronglySorted_unique_strong scored_le_prop); [|apply Hs..|by rewrite !sort_scored_perm, Hp].
  intros a b Ha Hb. rewrite sort_scored_perm in Ha, Hb.
  apply list_elem_of_fmap in Ha as ([ia va] & -> & Ha). apply list_elem_of_fmap in Hb as ([ib vb] & -> & Hb).
  rewrite <- Hp in Hb. unfold scored_le_prop. rewrite !scored_le_spec. simpl. intros H1 H2.
  assert (ia = ib) as <- by lia.
  assert ((ia, va) = (ia, vb)) as [= ->]; [|done].
  apply list_elem_of_lookup in Ha as [n Ha], Hb as [m Hb].
  assert (n = m) as ->; [|congruence].
  eapply (NoDup_lookup _ _ _ ia Hn); rewrite list_lookup_fmap; [by rewrite Ha|by rewrite Hb].
Qed.
End Order.

Lemma sort_by_key_perm {A} (key : A -> Z) l l' :
  l ≡ₚ l' -> NoDup (key <$> l) -> sort_by_key key l = sort_by_key key l'.
Proof.
  intros Hp Hn. destruct (sort_by_key_ok key l) as [Hp1 Hs1], (sort_by_key_ok key l') as [Hp2 Hs2].
  apply (StronglySorted_unique_strong (key_le key)); [|done|done|by rewrite Hp1, Hp2].
  intros x y Hx Hy H1 H2. rewrite Hp1 in Hx. rewrite Hp2, <- Hp in Hy.
  apply list_elem_of_lookup in Hx as [n Hx], Hy as [m Hy].
  assert (n = m) as ->; [|congruence]. unfold key_le in *.
  eapply (NoDup_lookup _ _ _ (key x) Hn); rewrite list_lookup_fmap; [by rewrite Hx|rewrite Hy; simpl; f_equal; lia].
Qed.

Lemma forallb_perm {A} (f : A -> bool) l l' : l ≡ₚ l' -> forallb f l = forallb f l'.
Proof. induction 1 as [|x l l' _ IH|x y l|l1 l2 l3 _ IH1 _ IH2]; simpl; [done|by rewrite IH|destruct (f x), (f y); done|congruence]. Qed.

(** K-means over records with distinct ids does not depend on their order: the
    same codebook, or the same abort, for every permutation. *)
Theorem kmeans_order_irrelevant path rs rs' k iterations :
  rs ≡ₚ rs' -> NoDup rs.*1 -> len rs <= u64_MAX ->
  deterministic_kmeans path rs k iterations = deterministic_kmeans path rs' k iterations.
Proof.
  intros Hp Hn Hl. unfold deterministic_kmeans.
  destruct rs as [|[id1 v1] rs1]; [by apply Permutation_nil_l in Hp as <-|].
  destruct rs' as [|[id2 v2] rs2]; [by symmetry in Hp; apply Permutation_nil_l in Hp|].
  remember ((id1, v1) :: rs1) as rs eqn:E1. remember ((id2, v2) :: rs2) as rs' eqn:E2.
  destruct (k =? 0); [done|].
  destruct (decide (length v1 = length v2)) as [Hd|Hd].
  2:{ assert (forall d v, v ∈ rs.*2 -> length v <> d -> forallb (fun r => Nat.eqb (length r.2) d) rs = false) as Hbad.
      { intros d v Hv Hne. apply list_elem_of_fmap in Hv as (r & -> & Hr).
        apply not_true_is_false. rewrite forallb_forall. intros Hall.
        apply list_elem_of_In in Hr. specialize (Hall _ Hr). by apply Nat.eqb_eq in Hall. }
      rewrite (Hbad (length v1) v2), <- (forallb_perm _ _ _ Hp), (Hbad (length v2) v1); [done| |done| |congruence].
      - subst rs. by left.
      - apply list_elem_of_fmap. exists (id2, v2). split; [done|]. rewrite Hp, E2. by left. }
  rewrite <- Hd, (forallb_perm _ _ _ Hp). destruct (forallb _ _); [|done]. simpl.
  assert (q_record <$> rs ≡ₚ q_record <$> rs') as Hq by by rewrite Hp.
  assert ((q_record <$> rs).*1 = rs.*1) as Hids by (rewrite <- list_fmap_compose; done).
  assert (len (q_record <$> rs') = len (q_record <$> rs)) as -> by (unfold len; by rewrite Hq).
  destruct (len (q_record <$> rs) <=? k).
  - do 2 f_equal. apply sort_by_key_perm; [done|]. by rewrite Hids.
  - f_equal. rewrite <- (seeds_perm _ _ _ Hq) by by rewrite Hids.
    generalize (seeds (Z.to_nat k) (q_record <$> rs)). intros cs.
    induction (Z.to_nat iterations) as [|n IH]; [done|]. simpl. rewrite IH. apply kmeans_step_perm; [by rewrite Hq| |].
    + rewrite <- list_fmap_compose. apply Forall_fmap, Forall_true. intros r. apply q_vec_range.
    + unfold len in *. by rewrite !length_fmap.
Qed.

(** ** The shape of the result *)
Section Shape.
Context (path : SimdPath) (d : nat).
Implicit Types (cs : list (list Z)).

Definition book_shape (n : nat) cs : Prop :=
  length cs = n /\ Forall (fun c => length c = d /\ Forall in_i32 c) cs.

Lemma tally_fold_shape cs n vecs st :
  Forall (fun v => length v = d) vecs ->
  length st.1 = n /\ Forall (fun s => length s = d) st.1 /\ length st.2 = n ->
  let st' := foldl (tally path cs) st vecs in
  length st'.1 = n /\ Forall (fun s => length s = d) st'.1 /\ length st'.2 = n.
Proof.
  intros Hv. revert st. induction Hv as [|v vecs Hv Hvs IH]; intros st (H1 & H2 & H3); [done|]. cbn [foldl].
  apply IH. unfold tally. simpl. rewrite !length_alter. split; [done|]. split; [|done].
  rewrite Forall_lookup in *. intros m s. set (c := Z.to_nat _).
  destruct (decide (m = c)) as [->|Hne]; [rewrite list_lookup_alter_eq|rewrite list_lookup_alter_ne by done; apply H2].
  destruct (st.1 !! c) as [s'|] eqn:E; [|done]. intros [= <-].
  unfold add_vec. rewrite length_zip_with, (H2 _ _ E). lia.
Qed.

Lemma kmeans_step_shape n vecs cs :
  Forall (fun v => length v = d) vecs -> book_shape n cs -> book_shape n (kmeans_step path d n vecs cs).
Proof.
  intros Hv [Hl Hc]. unfold kmeans_step.
  pose proof (tally_fold_shape cs n vecs (replicate n (replicate d 0), replicate n 0) Hv) as Ht.
  destruct (foldl _ _ vecs) as [sums counts] eqn:E. cbn zeta in Ht.
  destruct Ht as (H1 & H2 & H3).
  { simpl. rewrite !length_replicate. split; [done|]. split; [|done].
    apply Forall_replicate, length_replicate. }
  simpl in *. split.
  - rewrite length_zip_with, length_zip_with. lia.
  - rewrite Forall_lookup in *. intros m c. rewrite lookup_zip_with_Some.
    intros (c0 & [s k] & -> & Hc0 & Hz). apply lookup_zip_with_Some in Hz as (s' & k' & [= <- <-] & Hs & Hk).
    unfold recenter. simpl. destruct (0 <? k); [|by apply (Hc m)].
    rewrite length_fmap. split; [by eapply H2|]. apply Forall_fmap, Forall_true. intros z.
    unfold compose, average, clamp. int_lia.
Qed.
End Shape.

Lemma q_record_shape d rs :
  Forall (fun r => length r.2 = d) rs ->
  Forall (fun v => length v = d /\ Forall in_i32 v) (q_record <$> rs).*2.
Proof.
  intros H. rewrite <- list_fmap_compose. apply Forall_fmap. eapply Forall_impl; [exact H|].
  intros r Hr. split; [|apply q_vec_range]. change (length (f32_to_q16 <$> r.2) = d). by rewrite length_fmap.
Qed.

Lemma kmeans_shape path rs k iterations d :
  rs <> [] -> Forall (fun r => length r.2 = d) rs -> 1 <= k ->
  exists cs, deterministic_kmeans path rs k iterations = Ok cs
    /\ book_shape d (Z.to_nat (Z.min k (len rs))) cs.
Proof.
  intros Hne Hd Hk. unfold deterministic_kmeans. destruct rs as [|[id v] rs1]; [done|].
  remember ((id, v) :: rs1) as rs eqn:E. replace (k =? 0) with false by lia.
  assert (length v = d) as -> by (subst rs; by apply Forall_cons in Hd as [? _]).
  assert (forallb (fun r => Nat.eqb (length r.2) d) rs = true) as ->.
  { apply forallb_forall. intros r Hr%list_elem_of_In. apply Nat.eqb_eq. by eapply Forall_forall in Hd. }
  simpl. pose proof (q_record_shape d rs Hd) as Hq.
  assert (len (q_record <$> rs) = len rs) as Hlen by (unfold len; by rewrite length_fmap).
  rewrite Hlen. destruct (len rs <=? k) eqn:Ek.
  - eexists. split; [done|]. destruct (sort_by_key_ok fst (q_record <$> rs)) as [Hp _]. split.
    + rewrite length_fmap, Hp, length_fmap. unfold len in *. lia.
    + by rewrite Hp.
  - eexists. split; [done|]. replace (Z.min k (len rs)) with k by lia.
    assert (book_shape d (Z.to_nat k) (seeds (Z.to_nat k) (q_record <$> rs))) as H0.
    { unfold seeds. split.
      - rewrite length_fmap, length_take, sort_scored_perm, !length_fmap. unfold len in *. lia.
      - rewrite fmap_take. apply Forall_take.
        rewrite sort_scored_perm, <- list_fmap_compose. apply Forall_fmap in Hq. by apply Forall_fmap. }
    induction (Z.to_nat iterations) as [|n IH]; [done|]. simpl. apply kmeans_step_shape; [|done].
    eapply Forall_impl; [exact Hq|]. by intros c [? _].
Qed.

(** ** What an index holds *)
Section Contents.
Context (path : SimdPath).
Implicit Types (i : IvfIndex) (cs : list (list Z)) (r : Z * list Z) (ls : list (list (Z * list Z))).

(** The list a vector belongs to. *)
Definition cell cs (v : list Z) : Z := (nearest (ivf_l2_sq path v) cs).1.
Definition assigned cs (m : nat) (rs : list (Z * list Z)) : list (Z * list Z) :=
  base.filter (fun r => cell cs r.2 = Z.of_nat m) rs.

Definition ivf_contents i : list (Z * list Z) := concat (inverted_lists i).

Definition ivf_wf i : Prop :=
  match iv_centroids i with
  | [] => (length (inverted_lists i) <= 1)%nat
  | cs => length (inverted_lists i) = length cs
          /\ forall n l r, inverted_lists i !! n = Some l -> r ∈ l -> cell cs r.2 = Z.of_nat n
  end.

Definition set_lists ls i : IvfIndex :=
  mkIvf (iv_config i) (iv_dim i) (iv_centroids i) ls (n_at_last_build i).

Lemma concat_push ls n l r : ls !! n = Some l -> concat (<[n := l ++ [r]]> ls) ≡ₚ concat ls ++ [r].
Proof.
  revert n. induction ls as [|l0 ls IH]; intros [|n] Hn; simplify_eq/=.
  - by rewrite <- !(assoc_L (++)), (Permutation_app_comm (concat ls)).
  - rewrite IH by done. by rewrite (assoc_L (++)).
Qed.

Lemma vec_set_nat {A} (l : list A) n x : (n < length l)%nat -> vec_set l (Z.of_nat n) x = <[n := x]> l.
Proof.
  intros Hn. unfold vec_set. replace (in_range l (Z.of_nat n)) with true by (unfold in_range, len; lia).
  by rewrite Nat2Z.id.
Qed.

Lemma list_push_ok n l r i :
  inverted_lists i !! n = Some l ->
  list_push (Z.of_nat n) r i = (set_lists (<[n := l ++ [r]]> (inverted_lists i)) i, Ok tt).
Proof.
  intros Hn. unfold list_push. rewrite vec_get_nat, Hn. rewrite vec_set_nat; [done|by eapply lookup_lt_Some].
Qed.

Lemma cell_spec cs v : cs <> [] -> exists n, cell cs v = Z.of_nat n /\ is_nearest (ivf_l2_sq path v) cs n.
Proof. intros Hne. apply nearest_spec; [done|]. intros c. apply ivf_l2_range. Qed.

Lemma cell_lookup {A} cs v (ls : list A) :
  cs <> [] -> length ls = length cs -> exists n l, cell cs v = Z.of_nat n /\ ls !! n = Some l.
Proof.
  intros Hne Hl. destruct (cell_spec cs v Hne) as (n & Hc & c & Hn & _).
  destruct (lookup_lt_is_Some_2 ls n) as [l Hl']; [rewrite Hl; by eapply lookup_lt_Some|]. by exists n, l.
Qed.

(** Placing records appends to each list those that belong to it. *)
Lemma place_all cs rs : forall i,
  iv_centroids i = cs -> cs <> [] -> length (inverted_lists i) = length cs ->
  exists ls, sfor rs (place path) i = (set_lists ls i, Ok tt)
    /\ length ls = length cs
    /\ (forall m l, inverted_lists i !! m = Some l -> ls !! m = Some (l ++ assigned cs m (q_record <$> rs)))
    /\ concat ls ≡ₚ ivf_contents i ++ (q_record <$> rs).
Proof.
  induction rs as [|r rs IH]; intros i Hcs Hne Hl.
  { exists (inverted_lists i). split; [by destruct i|]. split; [done|]. split; [|by rewrite app_nil_r].
    intros m l Hm. unfold assigned. by rewrite app_nil_r. }
  destruct (cell_lookup cs (q_vec r.2) (inverted_lists i) Hne Hl) as (n & l & Hc & Hn).
  set (i1 := set_lists (<[n := l ++ [q_record r]]> (inverted_lists i)) i).
  assert (place path r i = (i1, Ok tt)) as Hp.
  { unfold place, find_nearest_centroid. rewrite Hcs. destruct cs as [|c cs]; [done|].
    fold (cell (c :: cs) (q_vec r.2)). rewrite Hc. by apply list_push_ok. }
  destruct (IH i1 Hcs Hne) as (ls & Hs & Hl' & Hls & Hperm); [simpl; by rewrite length_insert|].
  exists ls. split; [simpl; unfold sbind; by rewrite Hp|]. split; [done|]. split.
  - intros m lm Hm. unfold assigned. rewrite fmap_cons.
    destruct (decide (m = n)) as [->|Hmn].
    + rewrite filter_cons_True by done. rewrite (Hls n (l ++ [q_record r])).
      * simplify_eq. by rewrite <- (assoc_L (++)).
      * simpl. apply list_lookup_insert_eq. by eapply lookup_lt_Some.
    + rewrite filter_cons_False by (simpl; unfold q_record; simpl; lia).
      apply Hls. simpl. by rewrite list_lookup_insert_ne.
  - rewrite Hperm. unfold ivf_contents, i1. simpl. rewrite (concat_push _ _ l) by done.
    by rewrite <- (assoc_L (++)).
Qed.

Lemma place_all_wf i ls rs cs :
  iv_centroids i = cs -> cs <> [] -> ivf_wf i -> length ls = length cs ->
  (forall m l, inverted_lists i !! m = Some l -> ls !! m = Some (l ++ assigned cs m rs)) ->
  ivf_wf (set_lists ls i).
Proof.
  intros Hcs Hne Hwf Hl Hls. unfold ivf_wf in *. simpl. rewrite Hcs in *. destruct cs as [|c cs]; [done|].
  destruct Hwf as [Hl0 Hw]. split; [done|]. intros n l r Hn Hr.
  destruct (lookup_lt_is_Some_2 (inverted_lists i) n) as [l0 H0];
    [rewrite Hl0, <- Hl; by eapply lookup_lt_Some|].
  rewrite (Hls _ _ H0) in Hn. simplify_eq. apply elem_of_app in Hr as [Hr|Hr]; [by eapply Hw|].
  unfold assigned in Hr. by apply list_elem_of_filter in Hr as [? _].
Qed.

(** ** The operations and the bag they stand for *)
Inductive IvfOp : Type :=
| OpBuild (records : list (Z * list f32))
| OpInsert (id : Z) (vec : list f32)
| OpDelete (id : Z).

Definition ivf_do (op : IvfOp) : M Empty_set IvfIndex unit :=
  match op with
  | OpBuild rs => ivf_build path rs
  | OpInsert id v => ivf_insert path id v
  | OpDelete id => smodify (ivf_delete id)
  end.

(** A build replaces the contents, unless it is given nothing. *)
Definition bag_do (bag : list (Z * list Z)) (op : IvfOp) : list (Z * list Z) :=
  match op with
  | OpBuild [] => bag
  | OpBuild rs => q_record <$> rs
  | OpInsert id v => bag ++ [(id, q_vec v)]
  | OpDelete id => base.filter (fun r => r.1 <> id) bag
  end.

(** The vectors of a build have one dimension. *)
Definition ivf_op_ok (op : IvfOp) : Prop :=
  match op with
  | OpBuild rs => exists d, Forall (fun r : Z * list f32 => length r.2 = d) rs
  | _ => True
  end.
Definition config_ok (c : IvfConfig) : Prop := auto_scale c = true \/ 1 <= n_list c.

Lemma effective_ok c n : config_ok c ->
  1 <= (effective_params c n).1
  /\ config_ok (mkIvfConfig (effective_params c n).1 (effective_params c n).2 (auto_scale c)).
Proof.
  unfold config_ok, effective_params. intros H. destruct (auto_scale c); simpl; [split; [lia|by left]|].
  destruct H; [done|]. split; [done|by right].
Qed.

Lemma filter_concat (P : Z * list Z -> Prop) `{!forall r, Decision (P r)} ls :
  concat ((fun l => base.filter P l) <$> ls) = base.filter P (concat ls).
Proof. induction ls as [|l ls IH]; [done|]. rewrite fmap_cons. cbn [concat]. by rewrite IH, filter_app. Qed.

Lemma build_spec rs i :
  rs <> [] -> ivf_op_ok (OpBuild rs) -> config_ok (iv_config i) ->
  exists cs ls nl np,
    effective_params (iv_config i) (len rs) = (nl, np)
    /\ deterministic_kmeans path rs nl 20 = Ok cs /\ cs <> []
    /\ ivf_build path rs i
       = (mkIvf (mkIvfConfig nl np (auto_scale (iv_config i))) (iv_dim i) cs ls (len rs), Ok tt)
    /\ length ls = length cs
    /\ (forall m, (m < length cs)%nat -> ls !! m = Some (assigned cs m (q_record <$> rs)))
    /\ concat ls ≡ₚ q_record <$> rs.
Proof.
  intros Hne [d Hd] Hc. destruct (effective_ok _ (len rs) Hc) as [H1 _].
  destruct (effective_params (iv_config i) (len rs)) as [nl np] eqn:E. simpl in H1.
  destruct (kmeans_shape path rs nl 20 d Hne Hd H1) as (cs & Hk & Hl & _).
  assert (cs <> []) as Hcs.
  { intros ->. simpl in Hl. destruct rs; [done|]. rewrite len_cons in Hl. pose proof (len_nonneg rs). lia. }
  destruct (place_all cs rs (mkIvf (mkIvfConfig nl np (auto_scale (iv_config i))) (iv_dim i) cs
              (replicate (length cs) []) (n_at_last_build i))) as (ls & Hs & Hl' & Hls & Hp);
    [done|done|apply length_replicate|].
  exists cs, ls, nl, np. split; [done|]. split; [done|]. split; [done|]. split.
  { unfold ivf_build. destruct rs as [|r0 rs0]; [done|]. rewrite E, Hk. unfold sbind. by rewrite Hs. }
  split; [done|]. split.
  - intros m Hm. rewrite (Hls m []); [done|]. simpl. by apply lookup_replicate_2.
  - rewrite Hp. unfold ivf_contents. simpl.
    assert (forall n, concat (replicate n ([] : list (Z * list Z))) = []) as -> by (induction n; done). done.
Qed.

Lemma ivf_do_spec op i :
  ivf_op_ok op -> config_ok (iv_config i) -> ivf_wf i ->
  exists i', ivf_do op i = (i', Ok tt) /\ ivf_wf i' /\ config_ok (iv_config i')
    /\ ivf_contents i' ≡ₚ bag_do (ivf_contents i) op.
Proof.
  intros Ho Hc Hw. destruct op as [rs|id v|id]; simpl.
  - destruct rs as [|r0 rs0]; [by exists i|]. set (rs := r0 :: rs0) in *.
    destruct (build_spec rs i) as (cs & ls & nl & np & He & _ & Hcs & Hb & Hl & Hls & Hp); [done..|].
    eexists. split; [exact Hb|]. pose proof (effective_ok _ (len rs) Hc) as [_ Hc']. rewrite He in Hc'.
    split; [|split; [done|exact Hp]]. unfold ivf_wf. simpl. destruct cs as [|c cs]; [done|]. split; [done|].
    intros n l r Hn Hr. rewrite Hls in Hn by (rewrite <- Hl; by eapply lookup_lt_Some). simplify_eq.
    unfold assigned in Hr. by apply list_elem_of_filter in Hr as [? _].
  - unfold ivf_insert. destruct (iv_centroids i) as [|c cs] eqn:Ecs.
    + unfold ivf_wf in Hw. rewrite Ecs in Hw.
      destruct (inverted_lists i) as [|l [|l2 ls]] eqn:El; [| |simpl in Hw; lia].
      * rewrite (list_push_ok 0 []) by done. eexists. split; [done|]. simpl.
        split; [by unfold ivf_wf; simpl; lia|]. split; [done|]. unfold ivf_contents. by rewrite El.
      * rewrite (list_push_ok 0 l) by done. eexists. split; [done|]. simpl.
        split; [by unfold ivf_wf; simpl; lia|]. split; [done|]. unfold ivf_contents. rewrite El. simpl. by rewrite !app_nil_r.
    + pose proof Hw as Hw0. unfold ivf_wf in Hw0. rewrite Ecs in Hw0. destruct Hw0 as [Hl _].
      destruct (place_all (c :: cs) [(id, v)] i) as (ls & Hs & Hl' & Hls & Hp); [done..|].
      simpl in Hs. unfold sbind in Hs. destruct (place path (id, v) i) as [i1 [u|[]| |]] eqn:Ep; simplify_eq/=.
      eexists. split; [by destruct u|]. split; [by eapply place_all_wf|]. split; [done|]. exact Hp.
  - eexists. split; [done|]. unfold ivf_wf in *. simpl. split; [|split; [done|]].
    + destruct (iv_centroids i) as [|c cs]; [by rewrite length_fmap|]. rewrite length_fmap.
      destruct Hw as [Hl Hw]. split; [done|]. intros n l r Hn Hr.
      apply list_lookup_fmap_Some in Hn as (l0 & -> & Hn). apply list_elem_of_filter in Hr as [_ Hr].
      by eapply Hw.
    + unfold ivf_contents. simpl. by rewrite filter_concat.
Qed.

Lemma bag_do_perm op bag bag' : bag ≡ₚ bag' -> bag_do bag op ≡ₚ bag_do bag' op.
Proof. intros Hp. destruct op as [[|]| |]; simpl; [done|done|by rewrite Hp|by rewrite Hp]. Qed.

Lemma ivf_run_spec ops : forall i,
  Forall ivf_op_ok ops -> config_ok (iv_config i) -> ivf_wf i ->
  exists i', sfor ops ivf_do i = (i', Ok tt) /\ ivf_wf i' /\ config_ok (iv_config i')
    /\ ivf_contents i' ≡ₚ foldl bag_do (ivf_contents i) ops.
Proof.
  induction ops as [|op ops IH]; intros i Ho Hc Hw; [by exists i|].
  apply Forall_cons in Ho as [Ho Hos]. destruct (ivf_do_spec op i Ho Hc Hw) as (i1 & H1 & Hw1 & Hc1 & Hp1).
  destruct (IH i1 Hos Hc1 Hw1) as (i2 & H2 & Hw2 & Hc2 & Hp2). exists i2. split.
  - simpl. unfold sbind. by rewrite H1.
  - split; [done|]. split; [done|]. simpl. rewrite Hp2. clear -Hp1.
    revert Hp1. generalize (ivf_contents i1), (bag_do (ivf_contents i) op).
    induction ops as [|o ops IH]; intros b b' Hb; [done|]. simpl. by apply IH, bag_do_perm.
Qed.

(** Any history of builds, inserts and deletes of an inverted-file index (one
    dimension per build, at least one list configured) succeeds, keeps the index
    well formed and leaves exactly the records a bag with the same operations
    holds, in Q16.16. *)
Theorem ivf_history_exact cfg dim ops :
  config_ok cfg -> Forall ivf_op_ok ops ->
  exists i, sfor ops ivf_do (IvfIndex_new cfg dim) = (i, Ok tt)
    /\ ivf_wf i /\ ivf_contents i ≡ₚ foldl bag_do [] ops.
Proof.
  intros Hc Ho. destruct (ivf_run_spec ops (IvfIndex_new cfg dim)) as (i & H1 & H2 & _ & H3); [done..| |].
  - unfold ivf_wf. simpl. lia.
  - by exists i.
Qed.
End Contents.

(** ** Search *)
Section IvfSearch.
Context (path : SimdPath).
Implicit Types (i : IvfIndex) (q : list Z) (cs : list (list Z)).

Definition centroid_dists q cs : list (Z * Z) := imap (fun n c => (Z.of_nat n, ivf_l2_sq path q c)) cs.

Lemma topk_head (l : list (Z * Z)) k x :
  (0 < k)%nat -> x ∈ l -> (forall y, y ∈ l -> le_ord x y) -> head (topk k l) = Some x.
Proof.
  intros Hk Hx Hmin. unfold topk. destruct (isort l) as [|y s] eqn:E.
  { rewrite <- (isort_perm l), E in Hx. by apply elem_of_nil in Hx. }
  destruct k as [|k]; [lia|]. simpl. f_equal.
  pose proof (isort_sorted l) as Hs. rewrite E in Hs. inversion_clear Hs as [|? ? _ Hf].
  assert (y ∈ l) as Hy by (rewrite <- (isort_perm l), E; by left).
  assert (x ∈ y :: s) as Hx' by by rewrite <- E, (isort_perm l).
  apply elem_of_cons in Hx' as [->|Hx']; [done|].
  apply ltb_total; [exact (Hmin _ Hy)|]. rewrite Forall_forall in Hf. exact (Hf _ Hx').
Qed.

Lemma le_ord_hit (a b : Z * Z) : le_ord a b <-> a.2 < b.2 \/ (a.2 = b.2 /\ a.1 <= b.1).
Proof. unfold le_ord. simpl. unfold hit_ltb. lia. Qed.

Lemma dists_lookup q cs n h :
  centroid_dists q cs !! n = Some h <-> exists c, cs !! n = Some c /\ h = (Z.of_nat n, ivf_l2_sq path q c).
Proof.
  unfold centroid_dists. rewrite list_lookup_imap. destruct (cs !! n); simpl; naive_solver.
Qed.

(** The first cell probed is the one of the query. *)
Lemma own_cell_first q cs k n :
  (0 < k)%nat -> is_nearest (ivf_l2_sq path q) cs n ->
  exists h, head (topk k (centroid_dists q cs)) = Some h /\ h.1 = Z.of_nat n.
Proof.
  intros Hk (c & Hn & Hmin). exists (Z.of_nat n, ivf_l2_sq path q c). split; [|done].
  apply topk_head; [done| |].
  - apply list_elem_of_lookup. exists n. apply dists_lookup. by exists c.
  - intros y Hy. apply list_elem_of_lookup in Hy as [m Hm]. apply dists_lookup in Hm as (c' & Hm & ->).
    apply le_ord_hit. simpl. destruct (Hmin _ _ Hm) as [? Hlt].
    destruct (decide (m < n)%nat); [left; by apply Hlt|lia].
Qed.

Lemma collect_lists {A} (ls : list A) ids out :
  Forall2 (fun c l => vec_get ls c = Some l) ids out ->
  foldr (fun c acc => do* l := unwrap (vec_get ls c) in do* ls := acc in Ok (l :: ls)) (Ok []) ids
  = (Ok out : outcome Empty_set (list A)).
Proof. induction 1 as [|c l ids out Hc _ IH]; [done|]. simpl. rewrite Hc, IH. done. Qed.

(** The lists of the cells, and of those that are left. *)
Lemma probed_split q cs k (ls : list (list (Z * list Z))) :
  length ls = length cs ->
  exists probed others,
    Forall2 (fun h l => vec_get ls h.1 = Some l) (topk k (centroid_dists q cs)) probed
    /\ ls ≡ₚ probed ++ others /\ ((length cs <= k)%nat -> others = []).
Proof.
  intros Hl. set (F := fun h : Z * Z => default [] (vec_get ls h.1)). set (ds := centroid_dists q cs).
  assert (F <$> ds = ls) as HF.
  { apply list_eq. intros n. rewrite list_lookup_fmap.
    destruct (ls !! n) as [l|] eqn:E.
    - destruct (lookup_lt_is_Some_2 cs n) as [c Hc]; [rewrite <- Hl; by eapply lookup_lt_Some|].
      assert (ds !! n = Some (Z.of_nat n, ivf_l2_sq path q c)) as -> by (apply dists_lookup; by exists c).
      unfold F. simpl. by rewrite vec_get_nat, E.
    - destruct (ds !! n) as [h|] eqn:E'; [|done]. apply dists_lookup in E' as (c & Hc & _).
      apply lookup_ge_None in E. apply lookup_lt_Some in Hc. lia. }
  exists (F <$> topk k ds), (F <$> drop k (isort ds)). split; [|split].
  - apply Forall2_fmap_r, Forall_Forall2_diag, Forall_forall. intros h Hh.
    apply topk_elem, list_elem_of_lookup in Hh as [n Hn]. apply dists_lookup in Hn as (c & Hc & ->).
    unfold F. simpl. rewrite vec_get_nat.
    destruct (lookup_lt_is_Some_2 ls n) as [l ->]; [rewrite Hl; by eapply lookup_lt_Some|done].
  - rewrite <- fmap_app. unfold topk. rewrite take_drop, isort_perm. by rewrite HF.
  - intros Hk. rewrite drop_ge; [done|]. rewrite isort_perm. unfold ds, centroid_dists. by rewrite length_imap.
Qed.

Definition answer (h : Z * Z) : Z * f32 := (h.1, f32_of_Z h.2).

Lemma select_best_ok k cands : 1 <= k -> select_best k cands = Ok (topk (Z.to_nat k) cands).
Proof. intros Hk. unfold select_best. by replace ((k <? len cands) && (k =? 0)) with false by lia. Qed.

Lemma scan_head k q (rs : list (Z * list Z)) r :
  1 <= k -> r ∈ rs -> r.2 = q -> exists h, head (topk (Z.to_nat k) (scan path q rs)) = Some h /\ h.2 <= 0.
Proof.
  intros Hk Hr Hq. assert ((r.1, 0) ∈ scan path q rs) as Hin.
  { apply list_elem_of_fmap. exists r. split; [|done]. by rewrite Hq, ivf_l2_self. }
  unfold topk. destruct (isort (scan path q rs)) as [|y s] eqn:E.
  { rewrite <- (isort_perm (scan path q rs)), E in Hin. by apply elem_of_nil in Hin. }
  destruct (Z.to_nat k) as [|n] eqn:Ek; [lia|]. exists y. split; [done|].
  rewrite <- (isort_perm (scan path q rs)), E in Hin. apply elem_of_cons in Hin as [<-|Hin]; [done|].
  pose proof (isort_sorted (scan path q rs)) as Hs. rewrite E in Hs. inversion_clear Hs as [|? ? _ Hf].
  rewrite Forall_forall in Hf. specialize (Hf _ Hin). apply le_ord_hit in Hf. simpl in Hf. lia.
Qed.

Lemma trained_search query k i :
  iv_centroids i <> [] -> length (inverted_lists i) = length (iv_centroids i) ->
  1 <= k -> 1 <= n_probe (iv_config i) ->
  let np := Z.to_nat (Z.min (n_probe (iv_config i)) (len (iv_centroids i))) in
  exists probed others,
    Forall2 (fun h l => vec_get (inverted_lists i) h.1 = Some l)
      (topk np (centroid_dists (q_vec query) (iv_centroids i))) probed
    /\ inverted_lists i ≡ₚ probed ++ others /\ (len (iv_centroids i) <= n_probe (iv_config i) -> others = [])
    /\ ivf_search path query k i
       = Ok (answer <$> topk (Z.to_nat k) (scan path (q_vec query) (concat probed))).
Proof.
  intros Hne Hl Hk Hp np. destruct (probed_split (q_vec query) (iv_centroids i) np _ Hl) as (probed & others & Hf & Hperm & Ho).
  exists probed, others. split; [done|]. split; [done|]. split.
  { intros Hle. apply Ho. unfold np, len in *. lia. }
  unfold ivf_search. destruct (iv_centroids i) as [|c cs] eqn:Ecs; [done|].
  assert (1 <= len (c :: cs)) by (rewrite len_cons; pose proof (len_nonneg cs); lia).
  unfold probe. replace (_ && _) with false by lia. cbn [obind].
  fold (centroid_dists (q_vec query) (c :: cs)).
  rewrite (collect_lists (inverted_lists i) _ probed) by by apply Forall2_fmap_l.
  cbn [obind]. by rewrite select_best_ok.
Qed.

End IvfSearch.

(** ** Concrete indexes *)
Definition whole (l : list Z) : list f32 := f32_of_Z <$> l.
Definition two_groups : list (Z * list f32) :=
  [(0, whole [0; 0]); (1, whole [1; 0]); (2, whole [9; 9]); (3, whole [8; 9]); (4, whole [0; 1])].
Definition two_lists : IvfConfig := mkIvfConfig 2 1 false.

Lemma two_groups_dim : ivf_op_ok (OpBuild two_groups).
Proof. exists 2%nat. repeat constructor. Defined.

Lemma ivf_history_exact_witness :
  exists i, sfor [OpInsert 7 (whole [3; 3]); OpBuild two_groups; OpInsert 5 (whole [2; 2]); OpDelete 1]
              (ivf_do Avx2) (IvfIndex_new two_lists 2) = (i, Ok tt)
    /\ ivf_wf Avx2 i
    /\ ivf_contents i ≡ₚ foldl bag_do [] [OpInsert 7 (whole [3; 3]); OpBuild two_groups; OpInsert 5 (whole [2; 2]); OpDelete 1].
Proof.
  apply ivf_history_exact; [right; simpl; lia|].
  repeat constructor. exact two_groups_dim.
Defined.

