(* ===== verification/IvfEquivalence.v ===== *)
(** * Indexes that search alike, and product quantization

    Building from the same records in another order, or restoring a snapshot,
    gives an index that answers every search like the original; a trained
    product quantizer codes every vector by its nearest codebook entries.
    Concrete runs show where the index aborts or keeps what it should drop. *)

From Stdlib Require Import SpecFloat.
From stdpp Require Import base list sorting.
From S2P Require Import Prelude.
From S2P Require Import Fxp.
From S2P Require Import TopK.
From S2P Require Import F32.
From S2P Require Import HostIndex.
From S2P Require Import Search.
From S2P Require Import Ivf.
From S2P Require Import IvfTheorems.

(** ** Lists in another order *)
Section Alike.
Context (path : SimdPath).
Implicit Types (i : IvfIndex) (ls : list (list (Z * list Z))).

Definition alike i i' : Prop :=
  iv_config i = iv_config i' /\ iv_centroids i = iv_centroids i'
  /\ Forall2 (≡ₚ) (inverted_lists i) (inverted_lists i').

Lemma select_best_perm k l l' : l ≡ₚ l' -> select_best k l = select_best k l'.
Proof.
  intros Hp. unfold select_best. assert (len l = len l') as -> by (unfold len; by rewrite Hp).
  by rewrite (topk_perm _ _ _ Hp).
Qed.

Lemma scan_perm q (l l' : list (Z * list Z)) : l ≡ₚ l' -> scan path q l ≡ₚ scan path q l'.
Proof. intros Hp. unfold scan. by rewrite Hp. Qed.

Lemma vec_get_Forall2 {A} (R : A -> A -> Prop) (l l' : list A) c :
  Forall2 R l l' ->
  match vec_get l c, vec_get l' c with
  | Some x, Some y => R x y
  | None, None => True
  | _, _ => False
  end.
Proof.
  intros Hf. pose proof (Forall2_length _ _ _ Hf) as Hl. unfold vec_get.
  assert (in_range l' c = in_range l c) as -> by (unfold in_range, len; by rewrite Hl).
  destruct (in_range l c); [|done].
  destruct (l !! Z.to_nat c) eqn:E1, (l' !! Z.to_nat c) eqn:E2; [by eapply (Forall2_lookup_lr R)| | |done].
  - apply lookup_lt_Some in E1. apply lookup_ge_None in E2. lia.
  - apply lookup_ge_None in E1. apply lookup_lt_Some in E2. lia.
Qed.

Lemma collect_alike ls ls' ids :
  Forall2 (≡ₚ) ls ls' ->
  let collect ls := foldr (fun c acc => do* l := unwrap (vec_get ls c) in do* ls := acc in Ok (l :: ls)) (Ok []) ids
                    : outcome Empty_set (list (list (Z * list Z))) in
  match collect ls, collect ls' with
  | Ok a, Ok b => concat a ≡ₚ concat b
  | Panic, Panic => True
  | _, _ => False
  end.
Proof.
  intros Hf. cbn zeta. induction ids as [|c ids IH]; [by simpl; constructor|]. cbn [foldr].
  pose proof (vec_get_Forall2 _ _ _ c Hf) as Hc.
  destruct (vec_get ls c) as [l|], (vec_get ls' c) as [l'|]; simpl; try done.
  destruct (foldr _ _ ids) as [a|[]| |], (foldr _ _ ids) as [b|[]| |]; simpl; try done.
  by rewrite Hc, IH.
Qed.

Lemma alike_search i i' query k : alike i i' -> ivf_search path query k i = ivf_search path query k i'.
Proof.
  intros (Hc & Hcs & Hf). unfold ivf_search. rewrite Hc, Hcs. destruct (iv_centroids i') as [|c cs].
  - destruct Hf as [|l l' ls ls' Hl _]; [done|]. by rewrite (select_best_perm k _ _ (scan_perm _ _ _ Hl)).
  - destruct (probe _ _ _ _) as [ids|[]| |]; [|done..]. cbn [obind].
    pose proof (collect_alike _ _ ids Hf) as Hcol. cbn beta zeta in Hcol.
    destruct (foldr _ _ ids) as [a|[]| |], (foldr _ _ ids) as [b|[]| |]; try done. cbn [obind].
    by rewrite (select_best_perm k _ _ (scan_perm _ _ _ Hcol)).
Qed.


(** An index restored from a snapshot, into whatever index, has the
    configuration and the records of the saved one and answers every query alike.
    *)
Theorem ivf_snapshot_searches_alike `{IvfCodecLaws} i j :
  exists i', ivf_restore (ivf_snapshot i) j = (i', Ok tt)
    /\ iv_config i' = iv_config i /\ ivf_contents i' ≡ₚ ivf_contents i
    /\ n_at_last_build i' = len (ivf_contents i)
    /\ forall query k, ivf_search path query k i' = ivf_search path query k i.
Proof.
  unfold ivf_restore, ivf_snapshot. rewrite decode_encode_ivf. eexists. split; [done|]. split; [done|]. simpl.
  assert (forall ls : list (list (Z * list Z)), Forall2 (≡ₚ) (sort_by_key fst <$> ls) ls) as Hf.
  { intros ls. apply Forall2_fmap_l, Forall_Forall2_diag, Forall_true. intros l.
    exact (proj1 (sort_by_key_ok fst l)). }
  assert (forall ls ls' : list (list (Z * list Z)), Forall2 (≡ₚ) ls ls' -> concat ls ≡ₚ concat ls') as Hcat.
  { induction 1 as [|l l' ls ls' Hl _ IH]; [done|]. simpl. by rewrite Hl, IH. }
  split; [apply Hcat, Hf|]. split.
  - unfold ivf_contents.
    assert (forall (ls : list (list (Z * list Z))) a, foldl Z.add a (len <$> ls) = a + len (concat ls)) as Hsum.
    { induction ls as [|l ls IH]; intros a; simpl; [unfold len; simpl; lia|]. rewrite IH, len_app. lia. }
    rewrite Hsum. unfold len. by rewrite (Hcat _ _ (Hf (inverted_lists i))).
  - intros query k. apply alike_search. split; [done|]. split; [done|]. apply Hf.
Qed.
End Alike.

(** ** Product quantization *)
Section PqTheorems.
Context (path : SimdPath).

Lemma try_map_ok {A B} (f : A -> outcome Empty_set B) l ys :
  Forall2 (fun x y => f x = Ok y) l ys -> try_map f l = Ok ys.
Proof. induction 1 as [|x y l ys Hx _ IH]; [done|]. simpl. by rewrite Hx, IH. Qed.

(** The part of a vector that codebook [m] codes. *)
Definition sub_vector (pq : ProductQuantizer) (vec : list f32) (m : nat) : list f32 :=
  take (Z.to_nat (sub_dim pq)) (drop (Z.to_nat (Z.of_nat m * sub_dim pq)) vec).

Lemma f32_slice_ok pq vec m :
  0 <= sub_dim pq -> n_subvectors (pq_config pq) * sub_dim pq <= len vec -> Z.of_nat m < n_subvectors (pq_config pq) ->
  let start := Z.of_nat m * sub_dim pq in
  f32_slice vec start (start + sub_dim pq) = Ok (sub_vector pq vec m)
  /\ length (sub_vector pq vec m) = Z.to_nat (sub_dim pq).
Proof.
  intros H0 Hl Hm start. assert (start + sub_dim pq <= len vec) by (unfold start in *; nia).
  unfold f32_slice. replace (len vec <? start + sub_dim pq) with false by lia.
  assert (0 <= start) by (unfold start; nia). split.
  - unfold sub_vector. do 2 f_equal. lia.
  - unfold sub_vector. rewrite length_take, length_drop. fold start. unfold len in *. lia.
Qed.

Lemma seqZ_Forall2 {B} (P : Z -> B -> Prop) n :
  (forall m, (m < n)%nat -> exists b, P (Z.of_nat m) b) ->
  exists bs, Forall2 P (seqZ 0 (Z.of_nat n)) bs.
Proof.
  intros H. assert (forall l, Forall (fun z => exists m, z = Z.of_nat m /\ (m < n)%nat) l -> exists bs, Forall2 P l bs) as Hl.
  { induction 1 as [|z l (m & -> & Hm) _ [bs IH]]; [by exists []|].
    destruct (H m Hm) as [b Hb]. exists (b :: bs). by constructor. }
  apply Hl, Forall_forall. intros z Hz. apply elem_of_seqZ in Hz. exists (Z.to_nat z). lia.
Qed.

Lemma seqZ_Forall2_lookup {B} (P : Z -> B -> Prop) n bs :
  Forall2 P (seqZ 0 (Z.of_nat n)) bs ->
  length bs = n /\ forall m b, bs !! m = Some b -> P (Z.of_nat m) b.
Proof.
  intros Hf. pose proof (Forall2_length _ _ _ Hf) as Hl. rewrite length_seqZ, Nat2Z.id in Hl. split; [done|].
  intros m b Hm. destruct (Forall2_lookup_r _ _ _ _ _ Hf Hm) as (z & Hz & HP).
  apply lookup_seqZ in Hz as [-> _]. by rewrite Z.add_0_l in HP.
Qed.

(** A quantizer whose codebooks can be addressed by one byte. *)
Definition trained (pq : ProductQuantizer) : Prop :=
  0 <= sub_dim pq /\ len (codebooks pq) = n_subvectors (pq_config pq)
  /\ Forall (fun book => book <> [] /\ (length book <= 256)%nat) (codebooks pq).

Lemma pq_quantize_spec pq vec :
  trained pq -> n_subvectors (pq_config pq) * sub_dim pq <= len vec ->
  exists codes, pq_quantize path pq vec = Ok codes /\ length codes = length (codebooks pq)
    /\ forall m book, codebooks pq !! m = Some book ->
         exists n, codes !! m = Some (Z.of_nat n) /\ is_nearest (l2_sq_q16 path (q_vec (sub_vector pq vec m))) book n.
Proof.
  intros (H0 & Hl & Hb) Hv.
  set (P := fun z code => pq_code path pq vec z = Ok code
              /\ forall m book, z = Z.of_nat m -> codebooks pq !! m = Some book ->
                   exists n, code = Z.of_nat n /\ is_nearest (l2_sq_q16 path (q_vec (sub_vector pq vec m))) book n).
  destruct (seqZ_Forall2 P (length (codebooks pq))) as [codes Hc].
  { intros m Hm. unfold P, pq_code.
    destruct (f32_slice_ok pq vec m H0 Hv) as [-> _]; [unfold len in Hl; lia|]. cbn [obind].
    destruct (lookup_lt_is_Some_2 _ _ Hm) as [book Hbook]. rewrite vec_get_nat, Hbook.
    rewrite Forall_lookup in Hb. destruct (Hb _ _ Hbook) as [Hne H256].
    destruct (nearest_spec (l2_sq_q16 path (q_vec (sub_vector pq vec m))) book Hne) as (n & -> & Hn);
      [intros c; apply l2_q16_range|].
    eexists. split; [done|]. intros m' book' Hmm Hb'. apply Nat2Z.inj in Hmm as <-. simplify_eq.
    exists n. split; [|done]. destruct Hn as (c & Hn & _). apply lookup_lt_Some in Hn. apply Z.mod_small. lia. }
  exists codes. unfold pq_quantize. rewrite <- Hl. unfold len in Hl |- *. split.
  - apply try_map_ok. eapply Forall2_impl; [exact Hc|]. by intros z code [? _].
  - destruct (seqZ_Forall2_lookup _ _ _ Hc) as [Hlen Hat]. split; [done|].
    intros m book Hm. destruct (lookup_lt_is_Some_2 codes m) as [code Hcode];
      [rewrite Hlen; by eapply lookup_lt_Some|].
    destruct (Hat _ _ Hcode) as [_ Hw]. destruct (Hw m book eq_refl Hm) as (n & -> & Hn). by exists n.
Qed.

Lemma concat_lookup_ext {A} (ls ls' : list (list A)) : (forall m, ls !! m = ls' !! m) -> concat ls = concat ls'.
Proof. intros H. by rewrite (list_eq _ _ H). Qed.

Lemma pq_build_trained cfg dim rs :
  1 <= n_subvectors cfg -> 1 <= n_centroids cfg <= 256 -> rs <> [] -> 0 <= dim ->
  Forall (fun r : Z * list f32 => len r.2 = dim) rs ->
  exists pq0 pq, ProductQuantizer_new cfg dim = Ok pq0 /\ pq_build path rs pq0 = Ok pq
    /\ trained pq /\ pq_config pq = cfg /\ n_subvectors cfg * sub_dim pq <= dim.
Proof.
  intros Hn Hc Hne H0 Hd. set (sd := if dim =? 0 then 0 else dim / n_subvectors cfg).
  exists (mkPq cfg dim sd []).
  assert (0 <= sd /\ n_subvectors cfg * sd <= dim) as [Hsd Hfit].
  { unfold sd. destruct (dim =? 0) eqn:E; [lia|].
    pose proof (Z.div_pos dim (n_subvectors cfg)). pose proof (Z.mul_div_le dim (n_subvectors cfg)). lia. }
  set (P := fun m book => codebook path (mkPq cfg dim sd []) rs m = Ok book /\ book <> [] /\ (length book <= 256)%nat).
  destruct (seqZ_Forall2 P (Z.to_nat (n_subvectors cfg))) as [books Hb].
  { intros m Hm. unfold P, codebook. simpl.
    rewrite (try_map_ok _ rs ((fun r => (r.1, sub_vector (mkPq cfg dim sd []) r.2 m)) <$> rs)).
    2:{ apply Forall2_fmap_r, Forall_Forall2_diag. eapply Forall_impl; [exact Hd|]. intros r Hr. simpl in *.
        pose proof (f32_slice_ok (mkPq cfg dim sd []) r.2 m) as Hs. simpl in Hs.
        destruct Hs as [-> _]; [done|lia|lia|done]. }
    cbn [obind]. set (sub := _ <$> rs). destruct (sort_by_key_ok fst sub) as [Hp _].
    destruct (kmeans_shape path (sort_by_key fst sub) (n_centroids cfg) 15 (Z.to_nat sd)) as (cs & -> & Hl & _).
    - intros E. rewrite E in Hp. apply Permutation_nil_l in Hp. unfold sub in Hp. by destruct rs.
    - rewrite Hp. apply Forall_fmap. eapply Forall_impl; [exact Hd|]. intros r Hr. simpl in *.
      pose proof (f32_slice_ok (mkPq cfg dim sd []) r.2 m) as Hs. simpl in Hs.
      destruct Hs as [_ ?]; [done|lia|lia|done].
    - lia.
    - eexists. split; [done|].
      assert (1 <= len (sort_by_key fst sub)).
      { unfold len. rewrite Hp. unfold sub. rewrite length_fmap. destruct rs; [done|simpl; lia]. }
      split; [intros ->; simpl in Hl; lia|lia]. }
  exists (mkPq cfg dim sd books). split; [|split; [|split; [|done]]].
  - unfold ProductQuantizer_new, sub_dim_of, sd. destruct (dim =? 0); [done|].
    by replace (n_subvectors cfg =? 0) with false by lia.
  - unfold pq_build. destruct rs as [|r0 rs0]; [done|]. simpl pq_config.
    rewrite Z2Nat.id in Hb by lia.
    rewrite (try_map_ok _ _ books); [done|]. eapply Forall2_impl; [exact Hb|]. by intros m b [? _].
  - destruct (seqZ_Forall2_lookup _ _ _ Hb) as [Hl Hat]. split; [done|]. simpl. split; [unfold len; lia|].
    apply Forall_lookup. intros m book Hm. by destruct (Hat _ _ Hm) as [_ ?].
Qed.

(** A product quantizer trained on any records (at least one subvector, 1 to
    256 centroids) encodes a vector as one byte per subvector and decodes it to
    the codebook entries nearest to its subvectors, the first of them on a tie. *)
Theorem pq_codes_nearest cfg dim rs vec :
  1 <= n_subvectors cfg -> 1 <= n_centroids cfg <= 256 -> rs <> [] -> 0 <= dim ->
  Forall (fun r : Z * list f32 => len r.2 = dim) rs -> len vec = dim ->
  exists pq0 pq codes (entries : list (list Z)),
    ProductQuantizer_new cfg dim = Ok pq0 /\ pq_build path rs pq0 = Ok pq
    /\ pq_quantize path pq vec = Ok codes /\ Forall in_u8 codes
    /\ pq_reconstruct pq codes = concat ((fun c : list Z => to_f32 <$> c) <$> entries)
    /\ length entries = Z.to_nat (n_subvectors cfg)
    /\ forall m c, entries !! m = Some c ->
         exists book n, codebooks pq !! m = Some book /\ book !! n = Some c
           /\ is_nearest (l2_sq_q16 path (q_vec (sub_vector pq vec m))) book n.
Proof.
  intros Hn Hc Hne H0 Hd Hv.
  destruct (pq_build_trained cfg dim rs) as (pq0 & pq & Hnew & Hb & Ht & Hcfg & Hfit); [done..|].
  destruct (pq_quantize_spec pq vec Ht) as (codes & Hq & Hl & Hat); [rewrite Hcfg; lia|].
  destruct Ht as (_ & Hlen & Hbooks). rewrite Hcfg in Hlen.
  set (pick := fun m (code : Z) => book ← codebooks pq !! m; vec_get book code : option (list Z)).
  set (entries := imap (fun m code => default [] (pick m code)) codes).
  assert (forall m code, codes !! m = Some code ->
            exists book n c, codebooks pq !! m = Some book /\ (length book <= 256)%nat /\ code = Z.of_nat n
              /\ book !! n = Some c /\ pick m code = Some c
              /\ is_nearest (l2_sq_q16 path (q_vec (sub_vector pq vec m))) book n) as Hpick.
  { intros m code Hm. destruct (lookup_lt_is_Some_2 (codebooks pq) m) as [book Hbook];
      [rewrite <- Hl; by eapply lookup_lt_Some|].
    destruct (Hat _ _ Hbook) as (n & Hcode & Hnear). simplify_eq. pose proof Hnear as (c & Hc' & _).
    rewrite Forall_lookup in Hbooks. destruct (Hbooks _ _ Hbook) as [_ H256].
    exists book, n, c. do 4 (split; [done|]). split; [|done]. unfold pick. rewrite Hbook. simpl. by rewrite vec_get_nat. }
  exists pq0, pq, codes, entries. do 3 (split; [done|]). split; [|split; [|split]].
  - apply Forall_lookup. intros m code Hm. destruct (Hpick _ _ Hm) as (book & n & c & _ & H256 & -> & Hn' & _).
    apply lookup_lt_Some in Hn'. int_lia.
  - unfold pq_reconstruct, entries. apply concat_lookup_ext. intros m.
    rewrite list_lookup_fmap, !list_lookup_imap. destruct (codes !! m) as [code|] eqn:Hm; [|done]. simpl. f_equal.
    destruct (Hpick _ _ Hm) as (book & n & c & Hbook & _ & -> & Hn' & -> & _).
    unfold pq_piece. rewrite Hbook, vec_get_nat, Hn'. done.
  - unfold entries. rewrite length_imap, Hl. unfold len in Hlen. lia.
  - intros m c Hm. unfold entries in Hm. rewrite list_lookup_imap in Hm.
    destruct (codes !! m) as [code|] eqn:Hcode; [|done].
    destruct (Hpick _ _ Hcode) as (book & n & c' & Hbook & _ & -> & Hn' & E & Hnear). simpl in Hm. rewrite E in Hm.
    simplify_eq/=. by exists book, n.
Qed.
End PqTheorems.


(** A codec for small dumps: numbers as they are, lists with their length. *)
Definition put_list {A} (put : A -> list Z) (l : list A) : list Z := len l :: concat (put <$> l).
Fixpoint get_n {A} (get : list Z -> option (A * list Z)) (n : nat) (bs : list Z) : option (list A * list Z) :=
  match n with
  | O => Some ([], bs)
  | S n => '(x, bs) ← get bs; '(xs, bs) ← get_n get n bs; Some (x :: xs, bs)
  end.
Definition get_list {A} (get : list Z -> option (A * list Z)) (bs : list Z) : option (list A * list Z) :=
  match bs with [] => None | n :: bs => get_n get (Z.to_nat n) bs end.
Definition get_Z (bs : list Z) : option (Z * list Z) := match bs with [] => None | z :: bs => Some (z, bs) end.
Definition put_entry (r : Z * list Z) : list Z := r.1 :: put_list (fun z => [z]) r.2.
Definition get_entry (bs : list Z) : option (Z * list Z * list Z) :=
  '(id, bs) ← get_Z bs; '(v, bs) ← get_list get_Z bs; Some ((id, v), bs).

Definition reads_back {A} (put : A -> list Z) (get : list Z -> option (A * list Z)) : Prop :=
  forall x bs, get (put x ++ bs) = Some (x, bs).

Lemma reads_back_list {A} (put : A -> list Z) get : reads_back put get -> reads_back (put_list put) (get_list get).
Proof.
  intros H l bs. unfold put_list, get_list. simpl. unfold len. rewrite Nat2Z.id.
  induction l as [|x l IH]; [done|]. cbn [length get_n fmap list_fmap concat]. rewrite <- (assoc_L (++)), H. simpl.
  by rewrite IH.
Qed.
Lemma reads_back_Z : reads_back (fun z => [z]) get_Z.
Proof. done. Qed.
Lemma reads_back_entry : reads_back put_entry get_entry.
Proof.
  intros [id v] bs. change (put_entry (id, v) ++ bs) with (id :: put_list (fun z => [z]) v ++ bs).
  unfold get_entry. cbn [get_Z mbind option_bind]. by rewrite (reads_back_list _ _ reads_back_Z v bs).
Qed.

Definition put_dump (d : IvfDump) : list Z :=
  n_list (dump_config d) :: n_probe (dump_config d) :: Z.b2z (auto_scale (dump_config d))
  :: put_list (put_list (fun z => [z])) (dump_centroids d) ++ put_list (put_list put_entry) (dump_lists d).
Definition get_dump (bs : list Z) : option IvfDump :=
  match bs with
  | nl :: np :: a :: bs =>
      '(cs, bs) ← get_list (get_list get_Z) bs; '(ls, _) ← get_list (get_list get_entry) bs;
      Some (mkIvfDump (mkIvfConfig nl np (a =? 1)) cs ls)
  | _ => None
  end.

#[local] Instance number_codec : IvfCodec := {| encode_ivf := put_dump; decode_ivf := get_dump |}.
#[local] Instance number_codec_laws : IvfCodecLaws.
Proof.
  intros [[nl np a] cs ls]. unfold decode_ivf, encode_ivf, number_codec, put_dump, get_dump. cbn [dump_config dump_centroids dump_lists n_list n_probe auto_scale].
  rewrite (reads_back_list _ _ (reads_back_list _ _ reads_back_Z) cs). cbn [mbind option_bind].
  pose proof (reads_back_list _ _ (reads_back_list _ _ reads_back_entry) ls []) as H. rewrite app_nil_r in H.
  rewrite H. simpl. by destruct a.
Qed.

Lemma ivf_snapshot_searches_alike_witness :
  exists i', ivf_restore (ivf_snapshot (IvfIndex_new two_lists 2)) (IvfIndex_new IvfConfig_default 7) = (i', Ok tt)
    /\ iv_config i' = two_lists /\ ivf_contents i' ≡ₚ [] /\ n_at_last_build i' = 0
    /\ forall query k, ivf_search Avx2 query k i' = ivf_search Avx2 query k (IvfIndex_new two_lists 2).
Proof. exact (ivf_snapshot_searches_alike Avx2 (IvfIndex_new two_lists 2) (IvfIndex_new IvfConfig_default 7)). Defined.

Lemma pq_codes_nearest_witness :
  exists pq0 pq codes (entries : list (list Z)),
    ProductQuantizer_new (mkPqConfig 2 3) 2 = Ok pq0 /\ pq_build Scalar two_groups pq0 = Ok pq
    /\ pq_quantize Scalar pq (whole [5; 6]) = Ok codes /\ Forall in_u8 codes
    /\ pq_reconstruct pq codes = concat ((fun c : list Z => to_f32 <$> c) <$> entries)
    /\ length entries = 2%nat
    /\ forall m c, entries !! m = Some c ->
         exists book n, codebooks pq !! m = Some book /\ book !! n = Some c
           /\ is_nearest (l2_sq_q16 Scalar (q_vec (sub_vector pq (whole [5; 6]) m))) book n.
Proof.
  apply (pq_codes_nearest Scalar (mkPqConfig 2 3) 2 two_groups (whole [5; 6])); simpl; [lia|lia|discriminate|lia| |done].
  repeat constructor.
Defined.

(** A search for zero results aborts as soon as the index holds a record. *)
Theorem search_for_nothing_aborts :
  let '(i, _) := ivf_insert Scalar 1 (whole [5]) (IvfIndex_new IvfConfig_default 1) in
  ivf_search Scalar (whole [5]) 0 i = Panic.
Proof. vm_compute. reflexivity. Qed.

(** A configured number of lists of 0 makes the first build abort, a number of
    probes of 0 the first search. *)
Theorem zero_lists_or_probes_abort :
  (ivf_build Scalar two_groups (IvfIndex_new (mkIvfConfig 0 1 false) 2)).2 = Panic
  /\ let '(i, o) := ivf_build Scalar two_groups (IvfIndex_new (mkIvfConfig 2 0 false) 2) in
     o = Ok tt /\ ivf_search Scalar (whole [0; 0]) 1 i = Panic.
Proof. vm_compute. repeat split; reflexivity. Qed.

(** Inserting a record again keeps its old vector: the index returns the id
    twice. *)
Theorem update_keeps_old_vector :
  let '(i, o) := (ivf_insert Scalar 1 (whole [5]) ;;; ivf_insert Scalar 1 (whole [7])) (IvfIndex_new IvfConfig_default 1) in
  o = Ok tt /\ exists d1 d2, ivf_search Scalar (whole [5]) 2 i = Ok [(1, d1); (1, d2)].
Proof. vm_compute. split; [reflexivity|]. eexists _, _. reflexivity. Qed.

(** Rebuilding from no records keeps the old ones. *)
Theorem empty_build_keeps_records :
  let '(i, o) := (ivf_build Scalar two_groups ;;; ivf_build Scalar []) (IvfIndex_new two_lists 2) in
  o = Ok tt /\ exists d, ivf_search Scalar (whole [9; 9]) 1 i = Ok [(2, d)].
Proof. vm_compute. split; [reflexivity|]. eexists. reflexivity. Qed.

(** With more than 256 entries a code no longer names the nearest one: entry 256
    gets the code of entry 0. *)
Definition large_book : ProductQuantizer := mkPq (mkPqConfig 1 300) 1 1 [(fun z => [z * 65536]) <$> seqZ 0 300].
Theorem large_codebook_aliases :
  pq_quantize Scalar large_book (whole [256]) = Ok [0] /\ pq_reconstruct large_book [0] = whole [0].
Proof. vm_compute. split; reflexivity. Qed.

(** A trained quantizer comes back from its snapshot, whatever quantizer loads
    it. *)
Lemma pq_snapshot_restores `{PqCodecLaws} path cfg dim rs pq0 pq other :
  ProductQuantizer_new cfg dim = Ok pq0 -> pq_build path rs pq0 = Ok pq ->
  pq_restore (pq_snapshot pq) other = (pq, Ok tt).
Proof.
  unfold ProductQuantizer_new. destruct (sub_dim_of dim (n_subvectors cfg)) as [sd| | |] eqn:Esd; try done.
  intros [= <-]. assert (forall books, pq_restore (pq_snapshot (mkPq cfg dim sd books)) other = (mkPq cfg dim sd books, Ok tt)) as Hr.
  { intros books. unfold pq_restore, pq_snapshot. rewrite decode_encode_pq. simpl. by rewrite Esd. }
  unfold pq_build. destruct rs as [|r rs]; [intros [= <-]; apply Hr|].
  destruct (try_map _ _) as [books| | |]; try done. intros [= <-]. apply Hr.
Qed.
