(* ===== verification/Hnsw.v ===== *)
(** * The HNSW index

    Models [crates/valori-index/src/hnsw.rs].  [nodes] is the vector of slots;
    a [BinaryHeap] is a bag with access to its extreme element by the order of
    [Candidate].  That order compares NaN distances as equal and is then not
    transitive; what is stated of the order of results therefore asks for
    distances that are numbers, the rest holds for all.

    [dist] is the distance of the target: [dist_scalar], or on aarch64 a
    reduction with fused multiply-add.  [ln] is the natural logarithm of the
    platform.  The loops take the number of slots plus one as fuel: the greedy
    descent moves to strictly closer nodes, the layer search expands a node
    once. *)

From Stdlib Require Import SpecFloat.
From stdpp Require Import gmap.
From S2P Require Import Prelude.
From S2P Require Import Bytes.
From S2P Require Import F32.
From S2P Require Import HostIndex.
From S2P Require Import Search.
From S2P Require Import Ivf.

Record HnswConfig : Type := mkHnswConfig {
  hc_m : Z;
  hc_m_max0 : Z;
  hc_ef_construction : Z;
  hc_ef_search : Z;
  hc_lambda : f64;
}.

Record HNode : Type := mkHNode { hn_vector : list f32; hn_neighbors : list (list Z) }.

Record Candidate : Type := mkCandidate { c_id : Z; c_dist : f32 }.

Definition cand_cmp (a b : Candidate) : comparison :=
  match SFcompare (c_dist a) (c_dist b) with
  | Some Lt => Lt
  | Some Gt => Gt
  | _ => c_id a ?= c_id b
  end.
Definition cand_le (a b : Candidate) : bool := match cand_cmp a b with Gt => false | _ => true end.
Definition cand_lt (a b : Candidate) : bool := match cand_cmp a b with Lt => true | _ => false end.

Definition dist_scalar (v1 v2 : list f32) : f32 :=
  foldl (fun sum p => let d := f32_sub p.1 p.2 in f32_add sum (f32_mul d d)) (S754_zero false) (zip v1 v2).

Record HnswIndex : Type := mkHnsw {
  hx_config : HnswConfig;
  hx_nodes : list (option HNode);
  hx_entry : option Z;
  hx_max_level : Z;
}.

(** ** Slots *)
Definition node_at (nodes : list (option HNode)) (id : Z) : option HNode :=
  match vec_get nodes id with Some (Some n) => Some n | _ => None end.

Definition ensure_node_slot (nodes : list (option HNode)) (idx : Z) : list (option HNode) :=
  if len nodes <=? idx then nodes ++ replicate (Z.to_nat (idx + 1 - len nodes)) None else nodes.

Definition put_node (id : Z) (n : HNode) (nodes : list (option HNode)) : list (option HNode) :=
  vec_set (ensure_node_slot nodes id) id (Some n).

(** [if let Some(Some(node)) = nodes.get_mut(id) { ... }] *)
Definition alter_node (f : HNode -> HNode) (id : Z) (nodes : list (option HNode)) : list (option HNode) :=
  match node_at nodes id with Some n => vec_set nodes id (Some (f n)) | None => nodes end.

Definition set_level (l : Z) (edges : list Z) (n : HNode) : HNode :=
  mkHNode (hn_vector n) (vec_set (hn_neighbors n) l edges).
Definition edges_at (l : Z) (n : HNode) : list Z := default [] (vec_get (hn_neighbors n) l).

(** ** Heaps *)
Fixpoint best_of (better : Candidate -> Candidate -> bool) (h : list Candidate) : option (Candidate * list Candidate) :=
  match h with
  | [] => None
  | x :: h =>
      match best_of better h with
      | None => Some (x, [])
      | Some (y, rest) => if better y x then Some (y, x :: rest) else Some (x, y :: rest)
      end
  end.
Definition pop_min : list Candidate -> option (Candidate * list Candidate) := best_of cand_lt.
Definition pop_max : list Candidate -> option (Candidate * list Candidate) := best_of (fun a b => cand_lt b a).
Definition peek_max (h : list Candidate) : option Candidate := fst <$> pop_max h.
Definition into_sorted_vec : list Candidate -> list Candidate := sort_scored cand_le.

Section Hnsw.
Context (dist : list f32 -> list f32 -> f32) (ln : f64 -> f64).

(** ** Levels *)
Definition hash_id (id : Z) : Z := fnv_bytes FNV_OFFSET (le_bytes 4 id).
Definition f64_mul : f64 -> f64 -> f64 := SFmul 53 1024.
Definition f64_floor (x : f64) : f64 :=
  match x with
  | S754_finite s m e => if 0 <=? e then x else f64_of_int (cond_Zopp s (Zpos m) / 2 ^ (- e))
  | _ => x
  end.
Definition deterministic_level (lambda : f64) (id : Z) : Z :=
  let u := f64_div (f64_of_int (hash_id id)) (f64_of_int u64_MAX) in
  let u := if SFltb u (f64_literal 1 1000000000) then f64_literal 1 1000000000 else u in
  f64_as_usize (f64_floor (f64_mul (SFopp (ln u)) lambda)).

(** ** Search in one layer *)
Record Layer : Type := mkLayer { visited : gset Z; frontier : list Candidate; found : list Candidate }.

Definition visit_neighbor (query : list f32) (ef : Z) (nodes : list (option HNode)) (st : Layer) (neighbor_id : Z) : Layer :=
  if bool_decide (neighbor_id ∈ visited st) then st
  else
    let vis := {[ neighbor_id ]} ∪ visited st in
    match node_at nodes neighbor_id with
    | None => mkLayer vis (frontier st) (found st)
    | Some n =>
        let d := dist query (hn_vector n) in
        let cand := mkCandidate neighbor_id d in
        if len (found st) <? ef then mkLayer vis (cand :: frontier st) (cand :: found st)
        else
          match pop_max (found st) with
          | Some (worst, rest) =>
              if f32_lt d (c_dist worst) || (SFeqb d (c_dist worst) && (neighbor_id <? c_id worst))
              then mkLayer vis (cand :: frontier st) (cand :: rest)
              else mkLayer vis (frontier st) (found st)
          | None => mkLayer vis (frontier st) (found st)
          end
    end.

Fixpoint layer_loop (fuel : nat) (query : list f32) (ef level : Z) (nodes : list (option HNode)) (st : Layer) :
    outcome Empty_set (list Candidate) :=
  match fuel with
  | O => Hang
  | S fuel =>
      match pop_min (frontier st) with
      | None => Ok (into_sorted_vec (found st))
      | Some (curr, rest) =>
          let st := mkLayer (visited st) rest (found st) in
          let stop := match peek_max (found st) with
                      | Some worst => f32_lt (c_dist worst) (c_dist curr)
                      | None => false
                      end in
          if stop then Ok (into_sorted_vec (found st))
          else
            match node_at nodes (c_id curr) with
            | None => layer_loop fuel query ef level nodes st
            | Some n => layer_loop fuel query ef level nodes (foldl (visit_neighbor query ef nodes) st (edges_at level n))
            end
      end
  end.

Definition search_layer (entry : Z) (query : list f32) (ef level : Z) (nodes : list (option HNode)) :
    outcome Empty_set (list Candidate) :=
  match node_at nodes entry with
  | None => Ok []
  | Some n =>
      let c := mkCandidate entry (dist query (hn_vector n)) in
      layer_loop (S (length nodes)) query ef level nodes (mkLayer {[ entry ]} [c] [c])
  end.

(** ** Choice of neighbours *)

(** Is the candidate at least as close to a chosen one as to the query? *)
Fixpoint covered (nodes : list (option HNode)) (e_vec : list f32) (e_dist : f32) (result : list Candidate) :
    outcome Empty_set bool :=
  match result with
  | [] => Ok false
  | r :: result =>
      do* n := unwrap (node_at nodes (c_id r)) in
      if SFleb (dist (hn_vector n) e_vec) e_dist then Ok true else covered nodes e_vec e_dist result
  end.

Fixpoint select_loop (nodes : list (option HNode)) (m : Z) (cands result discarded : list Candidate) :
    outcome Empty_set (list Candidate * list Candidate) :=
  match cands with
  | [] => Ok (result, discarded)
  | e :: cands =>
      if m <=? len result then Ok (result, discarded)
      else
        match node_at nodes (c_id e) with
        | None => select_loop nodes m cands result discarded
        | Some n =>
            do* c := covered nodes (hn_vector n) (c_dist e) result in
            if (c : bool) then select_loop nodes m cands result (discarded ++ [e])
            else select_loop nodes m cands (result ++ [e]) discarded
        end
  end.

Definition select_neighbors_heuristic (candidates : list Candidate) (m : Z) (nodes : list (option HNode))
    (keep_pruned : bool) : outcome Empty_set (list Z) :=
  do* rd := select_loop nodes m candidates [] [] in
  let '(result, discarded) := rd in
  let result := if keep_pruned then result ++ take (Z.to_nat (m - len result)) discarded else result in
  Ok (c_id <$> result).

(** ** Greedy descent, the loop [insert] and [search] share *)
Definition closer (query : list f32) (nodes : list (option HNode)) (best : Z * f32) (nb : Z) : Z * f32 :=
  match node_at nodes nb with
  | Some n => let d := dist query (hn_vector n) in if f32_lt d best.2 then (nb, d) else best
  | None => best
  end.

Fixpoint greedy (fuel : nat) (query : list f32) (l : Z) (nodes : list (option HNode)) (curr : Z) :
    outcome Empty_set Z :=
  match fuel with
  | O => Hang
  | S fuel =>
      match node_at nodes curr with
      | None => Ok curr
      | Some n =>
          let best := foldl (closer query nodes) (curr, dist query (hn_vector n)) (edges_at l n) in
          if best.1 =? curr then Ok curr else greedy fuel query l nodes best.1
      end
  end.

(** [for l in (lo..=hi).rev()] *)
Definition levels_down (lo hi : Z) : list Z := reverse (seqZ lo (hi - lo + 1)).

Fixpoint descend (query : list f32) (nodes : list (option HNode)) (ls : list Z) (curr : Z) : outcome Empty_set Z :=
  match ls with
  | [] => Ok curr
  | l :: ls => do* c := greedy (S (length nodes)) query l nodes curr in descend query nodes ls c
  end.

(** ** Insertion *)
Definition hnsw_new (config : HnswConfig) : HnswIndex := mkHnsw config [] None 0.

(** [candidates] of the pruned list: the edges that still exist, ranked. *)
Definition ranked (nodes : list (option HNode)) (v : list f32) (edge_ids : list Z) : list Candidate :=
  sort_scored cand_le
    (omap (fun nid => (fun n => mkCandidate nid (dist v (hn_vector n))) <$> node_at nodes nid) edge_ids).

Definition connect (id l m : Z) (nodes : list (option HNode)) (nb_id : Z) : outcome Empty_set (list (option HNode)) :=
  match node_at nodes nb_id with
  | None => Ok nodes
  | Some nb =>
      match vec_get (hn_neighbors nb) l with
      | None => Ok nodes
      | Some edges =>
          let edges := edges ++ [id] in
          let nodes := alter_node (set_level l edges) nb_id nodes in
          if m <? len edges then
            do* pruned := select_neighbors_heuristic (ranked nodes (hn_vector nb) edges) m nodes true in
            Ok (alter_node (set_level l pruned) nb_id nodes)
          else Ok nodes
      end
  end.

Fixpoint connect_all (id l m : Z) (nbs : list Z) (nodes : list (option HNode)) : outcome Empty_set (list (option HNode)) :=
  match nbs with
  | [] => Ok nodes
  | nb :: nbs => do* nodes := connect id l m nodes nb in connect_all id l m nbs nodes
  end.

Definition level_cap (cfg : HnswConfig) (l : Z) : Z := if l =? 0 then hc_m_max0 cfg else hc_m cfg.

Definition link_level (cfg : HnswConfig) (id : Z) (vector : list f32) (l : Z) (st : list (option HNode) * Z) :
    outcome Empty_set (list (option HNode) * Z) :=
  let '(nodes, curr) := st in
  let m := level_cap cfg l in
  do* candidates := search_layer curr vector (hc_ef_construction cfg) l nodes in
  do* neighbors := select_neighbors_heuristic candidates m nodes true in
  let nodes := alter_node (set_level l neighbors) id nodes in
  do* nodes := connect_all id l m neighbors nodes in
  Ok (nodes, match candidates with [] => curr | c :: _ => c_id c end).

Fixpoint link_levels (cfg : HnswConfig) (id : Z) (vector : list f32) (ls : list Z) (st : list (option HNode) * Z) :
    outcome Empty_set (list (option HNode) * Z) :=
  match ls with
  | [] => Ok st
  | l :: ls => do* st := link_level cfg id vector l st in link_levels cfg id vector ls st
  end.

Definition hnsw_insert (id : Z) (vector : list f32) (ix : HnswIndex) : outcome Empty_set HnswIndex :=
  let cfg := hx_config ix in
  let level := deterministic_level (hc_lambda cfg) id in
  let node := mkHNode vector (replicate (Z.to_nat (level + 1)) []) in
  let nodes := put_node id node (hx_nodes ix) in
  match hx_entry ix with
  | None => Ok (mkHnsw cfg nodes (Some id) level)
  | Some curr_entry =>
      let max_l := if hx_max_level ix <? level then level else hx_max_level ix in
      let entry := if hx_max_level ix <? level then Some id else hx_entry ix in
      do* curr := descend vector nodes (levels_down (level + 1) max_l) curr_entry in
      do* st := link_levels cfg id vector (levels_down 0 level) (nodes, curr) in
      Ok (mkHnsw cfg st.1 entry max_l)
  end.

Fixpoint hnsw_build (records : list (Z * list f32)) (ix : HnswIndex) : outcome Empty_set HnswIndex :=
  match records with
  | [] => Ok ix
  | (id, v) :: records => do* ix := hnsw_insert id v ix in hnsw_build records ix
  end.

(** ** Deletion *)
Definition forget_edges (id : Z) (n : HNode) : HNode :=
  mkHNode (hn_vector n) ((fun es => base.filter (fun e => e <> id) es) <$> hn_neighbors n).

(** The first live slot. *)
Fixpoint first_live (i : Z) (nodes : list (option HNode)) : option Z :=
  match nodes with
  | [] => None
  | Some _ :: _ => Some i
  | None :: nodes => first_live (i + 1) nodes
  end.

Definition hnsw_delete (id : Z) (ix : HnswIndex) : HnswIndex :=
  let nodes := (fun s : option HNode => forget_edges id <$> s) <$> vec_set (hx_nodes ix) id None in
  let entry := if bool_decide (hx_entry ix = Some id) then first_live 0 nodes else hx_entry ix in
  mkHnsw (hx_config ix) nodes entry (hx_max_level ix).

(** ** Search *)
Definition hnsw_search (query : list f32) (k : Z) (ix : HnswIndex) : outcome Empty_set (list (Z * f32)) :=
  match hx_entry ix with
  | None => Ok []
  | Some entry =>
      let nodes := hx_nodes ix in
      do* curr := descend query nodes (levels_down 1 (hx_max_level ix)) entry in
      let ef := Z.max k (hc_ef_search (hx_config ix)) in
      do* results := search_layer curr query ef 0 nodes in
      Ok ((fun c => (c_id c, c_dist c)) <$> take (Z.to_nat k) results)
  end.
End Hnsw.

(** [HnswConfig::default()] *)
Definition HnswConfig_default (ln : f64 -> f64) : HnswConfig :=
  mkHnswConfig 16 32 100 50 (f64_div (f64_of_int 1) (ln (f64_of_int 16))).

(** ** Snapshots; bincode is a parameter *)
Record NodeDump : Type := mkNodeDump { dn_id : Z; dn_vector : list f32; dn_neighbors : list (list Z) }.
Record HnswDump : Type := mkHnswDump {
  hd_config : HnswConfig;
  hd_entry : option Z;
  hd_max_level : Z;
  hd_nodes : list NodeDump;
}.
Class HnswCodec : Type := {
  encode_hnsw : HnswDump -> list Z;
  decode_hnsw : list Z -> option HnswDump;
}.
Class HnswCodecLaws `{HnswCodec} : Prop := decode_encode_hnsw d : decode_hnsw (encode_hnsw d) = Some d.

Definition node_dumps (nodes : list (option HNode)) : list NodeDump :=
  omap (fun p : Z * option HNode =>
          (fun n => mkNodeDump (wrap_u32 p.1) (hn_vector n) (hn_neighbors n)) <$> p.2)
       (imap (fun i s => (Z.of_nat i, s)) nodes).

Definition hnsw_snapshot `{HnswCodec} (ix : HnswIndex) : list Z :=
  encode_hnsw (mkHnswDump (hx_config ix) (hx_entry ix) (hx_max_level ix)
                 (sort_by_key dn_id (node_dumps (hx_nodes ix)))).

Definition load_node (nodes : list (option HNode)) (n : NodeDump) : list (option HNode) :=
  put_node (dn_id n) (mkHNode (dn_vector n) (dn_neighbors n)) nodes.
Definition hnsw_restore `{HnswCodec} (data : list Z) (ix : HnswIndex) : HnswIndex * outcome unit unit :=
  match decode_hnsw data with
  | None => (ix, Err tt)
  | Some d => (mkHnsw (hd_config d) (foldl load_node [] (hd_nodes d)) (hd_entry d) (hd_max_level d), Ok tt)
  end.
