(* ===== verification/HnswTheorems.v ===== *)
(** * The HNSW index over a history

    First the loops: lemmas on slots and heaps; the greedy descent and the layer search return,
    with candidates that are live nodes at their true distance.  Then the
    invariant that every history of insertions and deletions keeps. *)

From Stdlib Require Import SpecFloat.
From stdpp Require Import gmap sorting relations.
From S2P Require Import Prelude.
From S2P Require Import F32.
From S2P Require Import HostIndex.
From S2P Require Import Search.
From S2P Require Import Ivf.
From S2P Require Import IvfTheorems.
From S2P Require Import Hnsw.

(** ** Slots *)
Implicit Types (nodes : list (option HNode)) (n : HNode).

Lemma node_at_range nodes a n : node_at nodes a = Some n -> 0 <= a < len nodes.
Proof. unfold node_at. destruct (vec_get nodes a) eqn:E; [|done]. intros _. by eapply vec_get_lt. Qed.

Lemma node_at_vec_set nodes id s a :
  0 <= id < len nodes -> node_at (vec_set nodes id s) a = if decide (a = id) then s else node_at nodes a.
Proof.
  intros Hid. unfold node_at. destruct (decide (a = id)) as [->|Hne].
  - rewrite vec_get_set_eq by done. by destruct s.
  - by rewrite vec_get_set_ne.
Qed.

Lemma node_at_alter f id nodes a :
  node_at (alter_node f id nodes) a = if decide (a = id) then f <$> node_at nodes id else node_at nodes a.
Proof.
  unfold alter_node. destruct (node_at nodes id) as [n|] eqn:E.
  - rewrite node_at_vec_set by by eapply node_at_range. done.
  - destruct (decide (a = id)) as [->|]; [by rewrite E|done].
Qed.

Lemma ensure_slot nodes id :
  0 <= id -> id < len (ensure_node_slot nodes id) /\ forall a, node_at (ensure_node_slot nodes id) a = node_at nodes a.
Proof.
  intros Hid. unfold ensure_node_slot. destruct (len nodes <=? id) eqn:E; [|split; [lia|done]].
  split; [rewrite len_app; unfold len at 2; rewrite length_replicate; lia|]. intros a. unfold node_at.
  destruct (decide (a < len nodes)) as [Ha|Ha]; [by rewrite vec_get_app_l|].
  replace (vec_get nodes a) with (None : option (option HNode)) by (symmetry; apply vec_get_None; lia).
  unfold vec_get. destruct (in_range _ a) eqn:Hr; [|done].
  destruct (_ !! Z.to_nat a) as [s|] eqn:Es; [|done].
  rewrite lookup_app_r in Es by (unfold len in *; lia). apply lookup_replicate in Es as [-> _]. done.
Qed.

Lemma node_at_put id n nodes a :
  0 <= id -> node_at (put_node id n nodes) a = if decide (a = id) then Some n else node_at nodes a.
Proof.
  intros Hid. destruct (ensure_slot nodes id Hid) as [Hl Ha]. unfold put_node.
  rewrite node_at_vec_set by lia. by rewrite Ha.
Qed.

(** ** Heaps *)
Lemma best_of_None better h : best_of better h = None -> h = [].
Proof. destruct h as [|x h]; [done|]. simpl. destruct (best_of better h) as [[y r]|]; [by destruct (better y x)|done]. Qed.

Lemma best_of_perm better h x rest : best_of better h = Some (x, rest) -> h ≡ₚ x :: rest.
Proof.
  revert x rest. induction h as [|y h IH]; intros x rest; [done|]. simpl.
  destruct (best_of better h) as [[z r]|] eqn:E.
  - specialize (IH _ _ eq_refl). destruct (better z y); intros [= <- <-]; rewrite IH; [constructor|done].
  - intros [= <- <-]. by rewrite (best_of_None _ _ E).
Qed.

Lemma peek_max_In h w : peek_max h = Some w -> w ∈ h.
Proof.
  unfold peek_max, pop_max. destruct (best_of _ h) as [[x r]|] eqn:E; [|done]. intros [= <-].
  rewrite (best_of_perm _ _ _ _ E). by left.
Qed.

(** ** Counting *)
Lemma filter_shrink {A} (P Q : A -> Prop) `{!forall x, Decision (P x), !forall x, Decision (Q x)} (l : list A) y :
  (forall x, Q x -> P x) -> y ∈ l -> P y -> ~ Q y -> (length (base.filter Q l) < length (base.filter P l))%nat.
Proof.
  intros HQP Hy HP HQ. assert (forall k, length (base.filter Q k) <= length (base.filter P k))%nat as Hle.
  { induction k as [|x k IH]; [done|]. rewrite !filter_cons.
    destruct (decide (Q x)); [rewrite decide_True by auto; simpl; lia|]. destruct (decide (P x)); simpl; lia. }
  induction l as [|x l IH]; [by apply elem_of_nil in Hy|]. rewrite !filter_cons. specialize (Hle l).
  apply elem_of_cons in Hy as [<-|Hy].
  - rewrite decide_False, decide_True by done. simpl. lia.
  - specialize (IH Hy). destruct (decide (Q x)); [rewrite decide_True by auto; simpl; lia|].
    destruct (decide (P x)); simpl; lia.
Qed.

Definition ids nodes : list Z := seqZ 0 (len nodes).
Lemma ids_spec nodes a : is_Some (node_at nodes a) -> a ∈ ids nodes.
Proof. intros [n Hn]. apply node_at_range in Hn. apply elem_of_seqZ. lia. Qed.

(** ** f32 comparison *)
Lemma f32_lt_key a b :
  f32_lt a b = true <-> a <> S754_nan /\ b <> S754_nan /\ triple_compare (rank a) (rank b) = Lt.
Proof.
  unfold f32_lt, SFltb. split.
  - intros H. assert (a <> S754_nan /\ b <> S754_nan) as [Ha Hb].
    { destruct a, b; try done; by destruct s. }
    rewrite SFcompare_rank in H by done. split; [done|]. split; [done|]. by destruct (triple_compare _ _).
  - intros (Ha & Hb & E). by rewrite SFcompare_rank, E by done.
Qed.

Lemma triple_lt_trans a b c : triple_compare a b = Lt -> triple_compare b c = Lt -> triple_compare a c = Lt.
Proof.
  destruct a as [[a1 a2] a3], b as [[b1 b2] b3], c as [[c1 c2] c3]. unfold triple_compare. simpl.
  destruct (Z.compare_spec a1 b1), (Z.compare_spec b1 c1), (Z.compare_spec a1 c1); try done; try lia;
    destruct (Z.compare_spec a2 b2), (Z.compare_spec b2 c2), (Z.compare_spec a2 c2); try done; try lia;
    destruct (Z.compare_spec a3 b3), (Z.compare_spec b3 c3), (Z.compare_spec a3 c3); try done; lia.
Qed.

Lemma f32_lt_trans a b c : f32_lt a b = true -> f32_lt b c = true -> f32_lt a c = true.
Proof. rewrite !f32_lt_key. intros (? & ? & ?) (? & ? & ?). do 2 (split; [done|]). by eapply triple_lt_trans. Qed.

Lemma f32_lt_irrefl a : f32_lt a a = false.
Proof.
  apply not_true_iff_false. rewrite f32_lt_key. intros (_ & _ & E). unfold triple_compare in E.
  by rewrite !Z.compare_refl in E.
Qed.

Section Loops.
Context (dist : list f32 -> list f32 -> f32).
Implicit Types (query : list f32) (c : Candidate).

(** ** Greedy descent *)
Definition node_dist query n : f32 := dist query (hn_vector n).

(** The nodes that are closer than [d]. *)
Definition is_closer query nodes (d : f32) (a : Z) : bool :=
  match node_at nodes a with Some n => f32_lt (node_dist query n) d | None => false end.
Definition closer_ids query nodes (d : f32) : list Z :=
  base.filter (fun a => is_closer query nodes d a = true) (ids nodes).

Lemma closer_fold query nodes es : forall best,
  let r := foldl (closer dist query nodes) best es in
  r = best \/ exists n, node_at nodes r.1 = Some n /\ r.2 = node_dist query n /\ f32_lt r.2 best.2 = true.
Proof.
  induction es as [|e es IH]; intros best; [by left|]. cbn [foldl]. cbn zeta in *.
  assert (closer dist query nodes best e = best
          \/ exists n, node_at nodes e = Some n /\ closer dist query nodes best e = (e, node_dist query n)
               /\ f32_lt (node_dist query n) best.2 = true) as [->|(n & Hn & -> & Hlt)].
  { unfold closer. destruct (node_at nodes e) as [n|] eqn:E; [|by left].
    destruct (f32_lt (dist query (hn_vector n)) best.2) eqn:El; [right; by exists n|by left]. }
  - apply IH.
  - right. destruct (IH (e, node_dist query n)) as [->|(n' & Hn' & H2 & Hlt')]; [by exists n|].
    exists n'. do 2 (split; [done|]). by eapply f32_lt_trans.
Qed.

Lemma greedy_spec query l nodes : forall fuel curr n,
  node_at nodes curr = Some n -> (length (closer_ids query nodes (node_dist query n)) < fuel)%nat ->
  exists b : Z, greedy dist fuel query l nodes curr = Ok b /\ is_Some (node_at nodes b).
Proof.
  induction fuel as [|fuel IH]; intros curr n Hn Hf; [lia|]. cbn [greedy]. rewrite Hn.
  fold (node_dist query n).
  destruct (closer_fold query nodes (edges_at l n) (curr, node_dist query n)) as [->|(n' & Hn' & Hd & Hlt)].
  { simpl. rewrite Z.eqb_refl. by exists curr. }
  set (r := foldl _ _ _) in *. destruct (r.1 =? curr); [by exists curr|].
  apply (IH r.1 n' Hn'). simpl in Hlt. rewrite Hd in Hlt.
  enough (length (closer_ids query nodes (node_dist query n'))
          < length (closer_ids query nodes (node_dist query n)))%nat by lia.
  apply (filter_shrink _ _ _ r.1); unfold is_closer.
  - intros a. destruct (node_at nodes a); [|done]. intros Ha. by eapply f32_lt_trans.
  - apply ids_spec. by rewrite Hn'.
  - by rewrite Hn'.
  - by rewrite Hn', f32_lt_irrefl.
Qed.

Lemma closer_ids_length query nodes d : (length (closer_ids query nodes d) <= length nodes)%nat.
Proof.
  unfold closer_ids. etransitivity; [apply length_filter|].
  unfold ids. rewrite length_seqZ. unfold len. lia.
Qed.

Lemma descend_spec query nodes ls : forall curr,
  is_Some (node_at nodes curr) ->
  exists b : Z, descend dist query nodes ls curr = Ok b /\ is_Some (node_at nodes b).
Proof.
  induction ls as [|l ls IH]; intros curr Hc; [by exists curr|]. destruct Hc as [n Hn]. cbn [descend].
  destruct (greedy_spec query l nodes (S (length nodes)) curr n Hn) as (c & Hg & Hc).
  { pose proof (closer_ids_length query nodes (node_dist query n)). lia. }
  unfold obind. rewrite Hg. by apply IH.
Qed.

(** ** Layer search *)
Definition true_cand query nodes c : Prop :=
  exists n, node_at nodes (c_id c) = Some n /\ c_dist c = node_dist query n.

Definition layer_inv query nodes (ef : Z) (st : Layer) : Prop :=
  Forall (true_cand query nodes) (found st)
  /\ Forall (true_cand query nodes) (frontier st)
  /\ Forall (fun c => c_id c ∈ visited st) (found st)
  /\ NoDup (c_id <$> found st) /\ found st <> [] /\ len (found st) <= Z.max ef 1.

Definition unvisited nodes (vis : gset Z) : nat :=
  length (base.filter (fun a => a ∉ vis /\ is_Some (node_at nodes a)) (ids nodes)).
Definition work nodes (st : Layer) : nat := (length (frontier st) + unvisited nodes (visited st))%nat.

Lemma unvisited_mono nodes vis vis' : vis ⊆ vis' -> (unvisited nodes vis' <= unvisited nodes vis)%nat.
Proof.
  intros Hs. unfold unvisited. generalize (ids nodes). induction l as [|x l IH]; [done|]. rewrite !filter_cons.
  destruct (decide (x ∉ vis' /\ _)) as [[? ?]|].
  - rewrite decide_True; [simpl; lia|]. split; [set_solver|done].
  - destruct (decide _); simpl; lia.
Qed.

Lemma unvisited_step nodes vis a :
  a ∉ vis -> is_Some (node_at nodes a) -> (unvisited nodes ({[ a ]} ∪ vis) < unvisited nodes vis)%nat.
Proof.
  intros Ha Hn. apply (filter_shrink _ _ _ a).
  - intros x [? ?]. split; [set_solver|done].
  - by apply ids_spec.
  - done.
  - intros [? _]. set_solver.
Qed.

Lemma true_cand_at query nodes a n : node_at nodes a = Some n -> true_cand query nodes (mkCandidate a (node_dist query n)).
Proof. intros Hn. by exists n. Qed.

Lemma visit_spec query ef nodes st a :
  layer_inv query nodes ef st ->
  layer_inv query nodes ef (visit_neighbor dist query ef nodes st a)
  /\ (work nodes (visit_neighbor dist query ef nodes st a) <= work nodes st)%nat.
Proof.
  intros (Hf & Hfr & Hv & Hn & Hne & Hl). unfold visit_neighbor.
  destruct (bool_decide _) eqn:Eb; [done|]. apply bool_decide_eq_false in Eb.
  assert (Forall (fun c => c_id c ∈ {[ a ]} ∪ visited st) (found st)) as Hv'.
  { eapply Forall_impl; [exact Hv|]. simpl. set_solver. }
  pose proof (unvisited_mono nodes (visited st) ({[ a ]} ∪ visited st)) as Hmono.
  assert (visited st ⊆ {[ a ]} ∪ visited st) as Hsub by set_solver. specialize (Hmono Hsub).
  assert (a ∉ c_id <$> found st) as Hfresh.
  { intros Hin. apply list_elem_of_fmap in Hin as (c & -> & Hc). apply Eb.
    rewrite Forall_forall in Hv. by apply Hv. }
  destruct (node_at nodes a) as [n|] eqn:Ea.
  2:{ split; [by repeat split|]. unfold work. simpl. lia. }
  fold (node_dist query n). pose proof (true_cand_at query nodes a n Ea) as Hgood.
  assert (S (unvisited nodes ({[ a ]} ∪ visited st)) <= unvisited nodes (visited st))%nat as Hstep.
  { apply unvisited_step; [done|by rewrite Ea]. }
  destruct (len (found st) <? ef) eqn:El.
  { split; [|unfold work; simpl; lia]. split; [by constructor|]. split; [by constructor|]. simpl.
    split; [constructor; [simpl; set_solver|done]|]. split; [by constructor|]. split; [done|].
    rewrite len_cons. lia. }
  destruct (pop_max (found st)) as [[worst rest]|] eqn:Ep.
  2:{ split; [by repeat split|]. unfold work. simpl. lia. }
  destruct (_ || _); [|split; [by repeat split|]; unfold work; simpl; lia].
  pose proof (best_of_perm _ _ _ _ Ep) as Hp. split; [|unfold work; simpl; lia].
  unfold layer_inv. simpl. rewrite Hp in Hf, Hv', Hfresh, Hn. apply Forall_cons in Hf as [_ Hf], Hv' as [_ Hv'].
  rewrite fmap_cons in Hn, Hfresh. apply NoDup_cons in Hn as [_ Hn]. apply not_elem_of_cons in Hfresh as [_ Hfresh].
  split; [by constructor|]. split; [by constructor|]. split; [constructor; [simpl; set_solver|done]|].
  split; [by constructor|]. split; [done|]. assert (len (found st) = 1 + len rest) as El'.
  { unfold len. rewrite Hp. simpl. lia. }
  rewrite len_cons. lia.
Qed.

Lemma visits_spec query ef nodes es : forall st,
  layer_inv query nodes ef st ->
  layer_inv query nodes ef (foldl (visit_neighbor dist query ef nodes) st es)
  /\ (work nodes (foldl (visit_neighbor dist query ef nodes) st es) <= work nodes st)%nat.
Proof.
  induction es as [|e es IH]; intros st Hi; [done|]. cbn [foldl].
  destruct (visit_spec query ef nodes st e Hi) as [Hi' Hw]. destruct (IH _ Hi') as [Hi'' Hw'].
  split; [done|]. lia.
Qed.

Definition layer_result query nodes ef (res : list Candidate) : Prop :=
  Forall (true_cand query nodes) res /\ NoDup (c_id <$> res) /\ res <> [] /\ len res <= Z.max ef 1
  /\ exists l, res = into_sorted_vec l.

Lemma layer_inv_result query nodes ef st :
  layer_inv query nodes ef st -> layer_result query nodes ef (into_sorted_vec (found st)).
Proof.
  intros (Hf & _ & _ & Hn & Hne & Hl). pose proof (sort_scored_perm cand_le (found st)) as Hp.
  unfold layer_result, into_sorted_vec. split; [by rewrite Hp|]. split; [by rewrite Hp|].
  split; [intros E; rewrite E in Hp; by apply Permutation_nil_l in Hp|].
  split; [unfold len in *; by rewrite Hp|]. by exists (found st).
Qed.

Lemma layer_loop_spec query ef level nodes : forall fuel st,
  layer_inv query nodes ef st -> (work nodes st < fuel)%nat ->
  exists res, layer_loop dist fuel query ef level nodes st = Ok res /\ layer_result query nodes ef res.
Proof.
  induction fuel as [|fuel IH]; intros st Hi Hw; [lia|]. cbn [layer_loop].
  destruct (pop_min (frontier st)) as [[curr rest]|] eqn:Ep.
  2:{ eexists. split; [done|]. by apply layer_inv_result. }
  pose proof (best_of_perm _ _ _ _ Ep) as Hp. cbn zeta. cbn [found visited].
  set (st1 := mkLayer (visited st) rest (found st)).
  assert (layer_inv query nodes ef st1) as Hi1.
  { destruct Hi as (Hf & Hfr & Hrest). split; [done|]. rewrite Hp in Hfr. by apply Forall_cons in Hfr as [_ Hfr]. }
  assert (S (work nodes st1) = work nodes st) as Hw1.
  { unfold work. simpl. by rewrite Hp. }
  destruct (match peek_max _ with Some _ => _ | None => _ end).
  { eexists. split; [done|]. by apply (layer_inv_result _ _ _ st). }
  destruct (node_at nodes (c_id curr)) as [n|]; [|apply IH; [done|lia]].
  destruct (visits_spec query ef nodes (edges_at level n) st1 Hi1) as [Hi2 Hw2]. apply IH; [done|lia].
Qed.

Lemma start_inv query nodes ef a n :
  node_at nodes a = Some n ->
  layer_inv query nodes ef (mkLayer {[ a ]} [mkCandidate a (node_dist query n)] [mkCandidate a (node_dist query n)]).
Proof.
  intros Hn. pose proof (true_cand_at query nodes a n Hn). split; [by repeat constructor|]. split; [by repeat constructor|].
  simpl. split; [constructor; [simpl; set_solver|constructor]|].
  split; [constructor; [set_solver|constructor]|]. split; [done|]. unfold len. simpl. lia.
Qed.

Lemma start_work nodes a n c : node_at nodes a = Some n -> (work nodes (mkLayer {[ a ]} [c] [c]) <= length nodes)%nat.
Proof.
  intros Hn. unfold work. simpl.
  pose proof (unvisited_step nodes ∅ a) as Hs. rewrite (right_id_L ∅ (∪)) in Hs.
  assert (unvisited nodes ∅ <= length nodes)%nat.
  { unfold unvisited. etransitivity; [apply length_filter|]. unfold ids. rewrite length_seqZ. unfold len. lia. }
  assert (unvisited nodes {[ a ]} < unvisited nodes ∅)%nat by (apply Hs; [set_solver|by rewrite Hn]). lia.
Qed.

Lemma search_layer_spec query ef level nodes a :
  is_Some (node_at nodes a) ->
  exists res, search_layer dist a query ef level nodes = Ok res /\ layer_result query nodes ef res.
Proof.
  intros [n Hn]. unfold search_layer. rewrite Hn. fold (node_dist query n).
  apply layer_loop_spec; [by apply start_inv|]. pose proof (start_work nodes a n (mkCandidate a (node_dist query n)) Hn). lia.
Qed.
End Loops.

(** ** What the HNSW index promises

    After any history of insertions and deletions the graph is sound: edges join
    live nodes, lists respect their capacity, every node has the levels its id
    determines, the entry point is live, and the vectors are exactly those
    inserted and not deleted.  Searches return live records at their distance;
    a search as wide as the index returns the best of all records the bottom
    layer connects to its starting point. *)

Implicit Types (cfg : HnswConfig) (ix : HnswIndex).

Section Invariant.
Context (dist : list f32 -> list f32 -> f32) (ln : f64 -> f64).

(** ** Choice of neighbours *)
Definition is_live nodes (a : Z) : Prop := is_Some (node_at nodes a).

Lemma covered_ok nodes v d (result : list Candidate) :
  Forall (fun c => is_live nodes (c_id c)) result -> exists b, covered dist nodes v d result = Ok b.
Proof.
  induction 1 as [|r result [n Hn] _ [b IH]]; [by exists false|]. cbn [covered]. rewrite Hn. cbn [unwrap obind].
  destruct (SFleb _ _); [by exists true|]. by exists b.
Qed.

Lemma select_loop_spec nodes m cands : forall result discarded,
  Forall (fun c => is_live nodes (c_id c)) result -> Forall (fun c => is_live nodes (c_id c)) discarded ->
  len result <= m ->
  exists r d, select_loop dist nodes m cands result discarded = Ok (r, d)
    /\ Forall (fun c => is_live nodes (c_id c)) r /\ Forall (fun c => is_live nodes (c_id c)) d /\ len r <= m.
Proof.
  induction cands as [|e cands IH]; intros result discarded Hr Hd Hl; cbn [select_loop]; [by exists result, discarded|].
  destruct (m <=? len result) eqn:E; [by exists result, discarded|].
  destruct (node_at nodes (c_id e)) as [n|] eqn:En; [|by apply IH].
  destruct (covered_ok nodes (hn_vector n) (c_dist e) result Hr) as [[] ->]; cbn [obind]; apply IH; try done.
  - apply Forall_app. split; [done|]. constructor; [|constructor]. by exists n.
  - apply Forall_app. split; [done|]. constructor; [|constructor]. by exists n.
  - rewrite len_app. unfold len at 2. simpl. lia.
Qed.

Lemma select_spec cands m nodes :
  0 <= m -> exists es, select_neighbors_heuristic dist cands m nodes true = Ok es
    /\ len es <= m /\ Forall (is_live nodes) es.
Proof.
  intros Hm. unfold select_neighbors_heuristic.
  destruct (select_loop_spec nodes m cands [] []) as (r & d & -> & Hr & Hd & Hl); [constructor|constructor|done|].
  cbn [obind]. eexists. split; [done|]. split.
  - unfold len in *. rewrite length_fmap, length_app, length_take. lia.
  - apply Forall_fmap, Forall_app. split; [done|]. by apply Forall_take.
Qed.

(** ** The invariant *)
Definition level cfg (a : Z) : Z := deterministic_level ln (hc_lambda cfg) a.

Lemma level_nonneg cfg a : 0 <= level cfg a.
Proof.
  unfold level, deterministic_level, f64_as_usize. destruct (f64_floor _) as [|[]| |[] m e]; try (unfold u64_MAX; lia).
  apply Z.min_glb; [unfold u64_MAX; lia|]. unfold trunc_shift. destruct (0 <=? e) eqn:E.
  - apply Z.mul_nonneg_nonneg; [lia|]. apply Z.pow_nonneg. lia.
  - apply Z.div_pos; [lia|]. apply Z.pow_pos_nonneg; lia.
Qed.

Definition edges_ok cfg nodes n : Prop :=
  forall l es, vec_get (hn_neighbors n) l = Some es -> len es <= level_cap cfg l /\ Forall (is_live nodes) es.
Definition nodes_wf cfg nodes : Prop :=
  forall a n, node_at nodes a = Some n -> len (hn_neighbors n) = level cfg a + 1 /\ edges_ok cfg nodes n.

Definition cfg_ok cfg : Prop := 0 <= hc_m cfg /\ 0 <= hc_m_max0 cfg.

Definition index_wf ix : Prop :=
  nodes_wf (hx_config ix) (hx_nodes ix)
  /\ (forall a, is_live (hx_nodes ix) a -> level (hx_config ix) a <= hx_max_level ix)
  /\ match hx_entry ix with
     | Some e => is_live (hx_nodes ix) e
     | None => forall a, ~ is_live (hx_nodes ix) a
     end.

(** Two stages of an insertion hold the same vectors. *)
Definition vector_at nodes (a : Z) : option (list f32) := hn_vector <$> node_at nodes a.
Definition same_vectors nodes nodes' : Prop := forall a, vector_at nodes' a = vector_at nodes a.

#[export] Instance same_vectors_equiv : Equivalence same_vectors.
Proof. split; [done| |]; unfold same_vectors; intros; congruence. Qed.

Lemma live_vector nodes a : is_live nodes a <-> is_Some (vector_at nodes a).
Proof. unfold is_live, vector_at. by rewrite fmap_is_Some. Qed.

Lemma same_vectors_live nodes nodes' a : same_vectors nodes nodes' -> is_live nodes' a <-> is_live nodes a.
Proof. intros H. by rewrite !live_vector, H. Qed.

Lemma same_vectors_Forall nodes nodes' es : same_vectors nodes nodes' -> Forall (is_live nodes) es -> Forall (is_live nodes') es.
Proof. intros Hs Hf. eapply Forall_impl; [exact Hf|]. intros a. by rewrite (same_vectors_live _ _ a Hs). Qed.

(** Replacing one list of one node. *)
Lemma alter_same_vectors l es b nodes : same_vectors nodes (alter_node (set_level l es) b nodes).
Proof.
  intros a. unfold vector_at. rewrite node_at_alter. destruct (decide (a = b)) as [->|]; [|done].
  by destruct (node_at nodes b).
Qed.

Lemma alter_wf cfg l es b nodes :
  nodes_wf cfg nodes -> len es <= level_cap cfg l -> Forall (is_live nodes) es ->
  nodes_wf cfg (alter_node (set_level l es) b nodes).
Proof.
  intros Hw Hl Hf a n Hn. pose proof (alter_same_vectors l es b nodes) as Hs.
  assert (exists n0, node_at nodes a = Some n0 /\ (n = n0 \/ n = set_level l es n0)) as (n0 & H0 & Hcase).
  { rewrite node_at_alter in Hn. destruct (decide (a = b)) as [->|].
    - destruct (node_at nodes b) as [n0|]; simplify_eq/=. exists n0. by auto.
    - exists n. by auto. }
  destruct (Hw _ _ H0) as [Hlen He].
  assert (edges_ok cfg (alter_node (set_level l es) b nodes) n0) as He0.
  { intros l' es' Hes. destruct (He _ _ Hes). split; [done|]. by eapply same_vectors_Forall. }
  destruct Hcase as [->| ->]; [done|]. split; [simpl; by rewrite len_vec_set|].
  intros l' es' Hes. simpl in Hes. destruct (decide (l' = l)) as [->|Hne].
  - assert (0 <= l < len (hn_neighbors n0)) as Hr by (apply vec_get_lt in Hes; by rewrite len_vec_set in Hes).
    rewrite vec_get_set_eq in Hes by done. simplify_eq. split; [done|]. by eapply same_vectors_Forall.
  - rewrite vec_get_set_ne in Hes by done. by apply He0.
Qed.

(** Two replacements of the same list are the second one. *)
Lemma alter_alter_at l es es' b nodes a :
  node_at (alter_node (set_level l es') b (alter_node (set_level l es) b nodes)) a
  = node_at (alter_node (set_level l es') b nodes) a.
Proof.
  rewrite !node_at_alter. destruct (decide (a = b)); [|done]. rewrite decide_True by done.
  destruct (node_at nodes b) as [n|]; [|done]. simpl. f_equal. unfold set_level. simpl. f_equal.
  unfold vec_set. destruct (in_range (hn_neighbors n) l) eqn:E.
  - assert (in_range (<[Z.to_nat l:=es]> (hn_neighbors n)) l = true) as ->
      by (unfold in_range, len in *; by rewrite length_insert).
    by rewrite list_insert_insert_eq.
  - by rewrite E.
Qed.

Lemma nodes_wf_ext cfg nodes nodes' :
  (forall a, node_at nodes' a = node_at nodes a) -> nodes_wf cfg nodes -> nodes_wf cfg nodes'.
Proof.
  intros He Hw a n Hn. rewrite He in Hn. destruct (Hw _ _ Hn) as [Hl H]. split; [done|].
  intros l es Hes. destruct (H _ _ Hes) as [? Hf]. split; [done|]. eapply Forall_impl; [exact Hf|].
  intros b. unfold is_live. by rewrite He.
Qed.

Lemma connect_spec cfg id l nodes b :
  0 <= level_cap cfg l -> nodes_wf cfg nodes -> is_live nodes id ->
  exists nodes', connect dist id l (level_cap cfg l) nodes b = Ok nodes'
    /\ nodes_wf cfg nodes' /\ same_vectors nodes nodes'.
Proof.
  intros Hm Hw Hid. unfold connect. destruct (node_at nodes b) as [nb|] eqn:Eb; [|by exists nodes].
  destruct (vec_get (hn_neighbors nb) l) as [es|] eqn:Es; [|by exists nodes].
  destruct (Hw _ _ Eb) as [_ He]. destruct (He _ _ Es) as [Hl Hf].
  assert (Forall (is_live nodes) (es ++ [id])) as Hf' by (apply Forall_app; by repeat constructor).
  pose proof (alter_same_vectors l (es ++ [id]) b nodes) as Hs.
  destruct (level_cap cfg l <? len (es ++ [id])) eqn:E.
  - set (nodes1 := alter_node _ b nodes) in *.
    destruct (select_spec (ranked dist nodes1 (hn_vector nb) (es ++ [id])) (level_cap cfg l) nodes1 Hm)
      as (pruned & -> & Hpl & Hpf). cbn [obind]. eexists. split; [done|].
    assert (Forall (is_live nodes) pruned) as Hpf'.
    { eapply Forall_impl; [exact Hpf|]. intros x. by rewrite (same_vectors_live _ _ x Hs). }
    split.
    + eapply nodes_wf_ext; [intros a; apply alter_alter_at|]. by apply alter_wf.
    + etransitivity; [exact Hs|]. apply alter_same_vectors.
  - eexists. split; [done|]. split; [|exact Hs]. apply alter_wf; [done|lia|done].
Qed.

Lemma connect_all_spec cfg id l nbs : forall nodes,
  0 <= level_cap cfg l -> nodes_wf cfg nodes -> is_live nodes id ->
  exists nodes', connect_all dist id l (level_cap cfg l) nbs nodes = Ok nodes'
    /\ nodes_wf cfg nodes' /\ same_vectors nodes nodes'.
Proof.
  induction nbs as [|b nbs IH]; intros nodes Hm Hw Hid; [by exists nodes|]. cbn [connect_all].
  destruct (connect_spec cfg id l nodes b Hm Hw Hid) as (n1 & -> & Hw1 & Hs1). cbn [obind].
  destruct (IH n1 Hm Hw1) as (n2 & -> & Hw2 & Hs2); [by rewrite (same_vectors_live _ _ _ Hs1)|].
  exists n2. split; [done|]. split; [done|]. by etransitivity.
Qed.

Lemma level_cap_nonneg cfg l : cfg_ok cfg -> 0 <= level_cap cfg l.
Proof. intros [? ?]. unfold level_cap. by destruct (l =? 0). Qed.

Lemma link_level_spec cfg id v l nodes curr :
  cfg_ok cfg -> nodes_wf cfg nodes -> is_live nodes id -> is_live nodes curr ->
  exists nodes' curr', link_level dist cfg id v l (nodes, curr) = Ok (nodes', curr')
    /\ nodes_wf cfg nodes' /\ same_vectors nodes nodes' /\ is_live nodes' curr'.
Proof.
  intros Hc Hw Hid Hcurr. pose proof (level_cap_nonneg cfg l Hc) as Hm. unfold link_level.
  destruct (search_layer_spec dist v (hc_ef_construction cfg) l nodes curr Hcurr) as (cands & -> & Hg & _ & Hne & _).
  cbn [obind]. destruct (select_spec cands (level_cap cfg l) nodes Hm) as (es & -> & Hl & Hf). cbn [obind].
  pose proof (alter_same_vectors l es id nodes) as Hs.
  destruct (connect_all_spec cfg id l es (alter_node (set_level l es) id nodes) Hm) as (n1 & -> & Hw1 & Hs1).
  { by apply alter_wf. }
  { by rewrite (same_vectors_live _ _ _ Hs). }
  cbn [obind]. eexists n1, _. split; [done|]. split; [done|]. split; [by etransitivity|].
  destruct cands as [|c cands]; [done|]. apply Forall_cons in Hg as [(n & Hn & _) _].
  rewrite (same_vectors_live _ _ _ Hs1), (same_vectors_live _ _ _ Hs). by exists n.
Qed.

Lemma link_levels_spec cfg id v ls : forall nodes curr,
  cfg_ok cfg -> nodes_wf cfg nodes -> is_live nodes id -> is_live nodes curr ->
  exists nodes' curr', link_levels dist cfg id v ls (nodes, curr) = Ok (nodes', curr')
    /\ nodes_wf cfg nodes' /\ same_vectors nodes nodes'.
Proof.
  induction ls as [|l ls IH]; intros nodes curr Hc Hw Hid Hcurr; [by exists nodes, curr|]. cbn [link_levels].
  destruct (link_level_spec cfg id v l nodes curr Hc Hw Hid Hcurr) as (n1 & c1 & -> & Hw1 & Hs1 & Hc1). cbn [obind].
  destruct (IH n1 c1 Hc Hw1) as (n2 & c2 & -> & Hw2 & Hs2); [by rewrite (same_vectors_live _ _ _ Hs1)|done|].
  exists n2, c2. split; [done|]. split; [done|]. by etransitivity.
Qed.

(** ** Insertion *)
Lemma put_wf cfg id v nodes :
  0 <= id -> cfg_ok cfg -> nodes_wf cfg nodes ->
  nodes_wf cfg (put_node id (mkHNode v (replicate (Z.to_nat (level cfg id + 1)) [])) nodes).
Proof.
  intros Hid Hc Hw a n Hn. pose proof (level_nonneg cfg id).
  set (nodes' := put_node id _ nodes) in *.
  assert (forall b, is_live nodes b -> is_live nodes' b) as Hlive.
  { intros b Hb. unfold is_live, nodes'. rewrite node_at_put by done. destruct (decide (b = id)); [done|exact Hb]. }
  unfold nodes' in Hn. rewrite node_at_put in Hn by done. destruct (decide (a = id)) as [->|].
  - simplify_eq. simpl. split; [unfold len; rewrite length_replicate; lia|].
    intros l es Hes. simpl in Hes. apply vec_get_Some in Hes as [_ Hes]. apply lookup_replicate in Hes as [-> _].
    split; [|constructor]. exact (level_cap_nonneg cfg l Hc).
  - destruct (Hw _ _ Hn) as [Hl He]. split; [done|]. intros l es Hes. destruct (He _ _ Hes) as [? Hf].
    split; [done|]. by eapply Forall_impl.
Qed.

Lemma put_keeps_vector id v ns nodes a :
  0 <= id -> vector_at (put_node id (mkHNode v ns) nodes) a = if decide (a = id) then Some v else vector_at nodes a.
Proof. intros Hid. unfold vector_at. rewrite node_at_put by done. by destruct (decide (a = id)). Qed.

Lemma insert_spec id v ix :
  0 <= id -> cfg_ok (hx_config ix) -> index_wf ix ->
  exists ix', hnsw_insert dist ln id v ix = Ok ix' /\ index_wf ix' /\ hx_config ix' = hx_config ix
    /\ forall a, vector_at (hx_nodes ix') a = if decide (a = id) then Some v else vector_at (hx_nodes ix) a.
Proof.
  intros Hid Hc (Hw & Hmax & Hentry). unfold hnsw_insert. fold (level (hx_config ix) id).
  set (cfg := hx_config ix) in *. set (node := mkHNode v _). set (nodes := put_node id node (hx_nodes ix)).
  assert (nodes_wf cfg nodes) as Hw1 by by apply put_wf.
  assert (forall a, vector_at nodes a = if decide (a = id) then Some v else vector_at (hx_nodes ix) a) as Hv
    by (intros a; by apply put_keeps_vector).
  assert (is_live nodes id) as Hlid by (apply live_vector; rewrite Hv; by rewrite decide_True).
  destruct (hx_entry ix) as [e|] eqn:Ee.
  - assert (is_live nodes e) as He.
    { apply live_vector. rewrite Hv. destruct (decide (e = id)); [done|]. by apply live_vector. }
    destruct (descend_spec dist v nodes (levels_down (level cfg id + 1)
                (if hx_max_level ix <? level cfg id then level cfg id else hx_max_level ix)) e He) as (c & -> & Hlc).
    cbn [obind].
    destruct (link_levels_spec cfg id v (levels_down 0 (level cfg id)) nodes c Hc Hw1 Hlid Hlc)
      as (n1 & c1 & -> & Hw2 & Hs). cbn [obind].
    eexists. split; [done|]. split; [|split; [done|intros a; simpl; by rewrite Hs, Hv]].
    split; [done|]. simpl. split.
    + intros a. rewrite (same_vectors_live _ _ _ Hs), live_vector, Hv. destruct (decide (a = id)) as [->|].
      * intros _. destruct (_ <? _) eqn:E; lia.
      * rewrite <- live_vector. intros Ha. specialize (Hmax a Ha). destruct (_ <? _) eqn:E; lia.
    + destruct (_ <? _); by rewrite (same_vectors_live _ _ _ Hs).
  - eexists. split; [done|]. split; [|split; [done|exact Hv]]. split; [done|]. simpl. split; [|done].
    intros a. rewrite live_vector, Hv. destruct (decide (a = id)) as [->|]; [done|].
    rewrite <- live_vector. intros Ha. by destruct (Hentry a).
Qed.

(** ** Deletion *)
Lemma first_live_spec nodes : forall i,
  match first_live i nodes with
  | Some e => exists k n, nodes !! k = Some (Some n) /\ e = i + Z.of_nat k
  | None => forall k n, nodes !! k <> Some (Some n)
  end.
Proof.
  induction nodes as [|[n|] nodes IH]; intros i; simpl; [by intros [|k] n|by exists 0%nat, n; split; [|lia]|].
  specialize (IH (i + 1)). destruct (first_live (i + 1) nodes) as [e|].
  - destruct IH as (k & n & Hk & ->). exists (S k), n. split; [done|lia].
  - intros [|k] n; [done|apply IH].
Qed.

Lemma node_at_delete id nodes a :
  node_at ((fun s : option HNode => forget_edges id <$> s) <$> vec_set nodes id None) a
  = if decide (a = id) then None else forget_edges id <$> node_at nodes a.
Proof.
  assert (forall nodes a, node_at ((fun s : option HNode => forget_edges id <$> s) <$> nodes) a
            = forget_edges id <$> node_at nodes a) as Hf.
  { clear. intros nodes a. unfold node_at, vec_get, in_range, len. rewrite length_fmap.
    destruct (_ && _); [|done]. rewrite list_lookup_fmap. by destruct (nodes !! Z.to_nat a) as [[n|]|]. }
  rewrite Hf. destruct (decide (0 <= id < len nodes)) as [Hr|Hr].
  - rewrite node_at_vec_set by done. by destruct (decide (a = id)).
  - assert (vec_set nodes id None = nodes) as ->.
    { unfold vec_set. by replace (in_range nodes id) with false by (symmetry; by apply in_range_false). }
    destruct (decide (a = id)) as [->|]; [|done].
    destruct (node_at nodes id) eqn:E; [|done]. by apply node_at_range in E.
Qed.

Lemma delete_vector id ix a :
  vector_at (hx_nodes (hnsw_delete id ix)) a = if decide (a = id) then None else vector_at (hx_nodes ix) a.
Proof.
  unfold vector_at. simpl. rewrite node_at_delete. destruct (decide (a = id)); [done|].
  by destruct (node_at (hx_nodes ix) a).
Qed.

Lemma delete_wf id ix : index_wf ix -> index_wf (hnsw_delete id ix).
Proof.
  intros (Hw & Hmax & He). pose proof (delete_vector id ix) as Hv.
  assert (forall a, is_live (hx_nodes (hnsw_delete id ix)) a <-> a <> id /\ is_live (hx_nodes ix) a) as Hlive.
  { intros a. rewrite !live_vector, Hv. destruct (decide (a = id)) as [->|]; [|tauto].
    split; [by intros []|by intros [? _]]. }
  split; [|split].
  - intros a n Hn. simpl in Hn. rewrite node_at_delete in Hn. destruct (decide (a = id)); [done|].
    destruct (node_at (hx_nodes ix) a) as [nn|] eqn:E; simplify_eq/=. destruct (Hw _ _ E) as [Hl Hes].
    split; [unfold len in *; by rewrite length_fmap|]. intros l es. simpl.
    intros Hg. apply vec_get_Some in Hg as [Hr Hg]. apply list_lookup_fmap_Some in Hg as (es0 & -> & Hg).
    destruct (Hes l es0) as [Hcap Hf].
    { apply vec_get_Some. unfold len in *. rewrite length_fmap in Hr. done. }
    split.
    + etransitivity; [|exact Hcap]. unfold len. apply Nat2Z.inj_le, length_filter.
    + apply Forall_forall. intros x Hx. apply list_elem_of_filter in Hx as [Hne Hx].
      apply Hlive. split; [done|]. rewrite Forall_forall in Hf. by apply Hf.
  - intros a Ha. apply Hlive in Ha as [_ Ha]. by apply Hmax.
  - simpl. case_bool_decide as Ee.
    + pose proof (first_live_spec ((fun s : option HNode => forget_edges id <$> s) <$> vec_set (hx_nodes ix) id None) 0) as Hfl.
      destruct (first_live 0 _) as [e|].
      * destruct Hfl as (k & n & Hk & ->). exists n. unfold node_at. by rewrite Z.add_0_l, vec_get_nat, Hk.
      * intros a [n Hn]. pose proof (node_at_range _ _ _ Hn) as Hr. unfold node_at in Hn.
        destruct (vec_get _ a) as [[n'|]|] eqn:E; [|done..]. apply vec_get_Some in E as [_ E]. by apply Hfl in E.
    + destruct (hx_entry ix) as [e|].
      * apply Hlive. split; [congruence|done].
      * intros a Ha. apply Hlive in Ha as [_ Ha]. by apply (He a).
Qed.

(** ** Histories *)
Inductive HnswOp : Type :=
| HInsert (id : Z) (vec : list f32)
| HDelete (id : Z).

Definition hnsw_do (op : HnswOp) ix : outcome Empty_set HnswIndex :=
  match op with
  | HInsert id v => hnsw_insert dist ln id v ix
  | HDelete id => Ok (hnsw_delete id ix)
  end.
Fixpoint hnsw_run (ops : list HnswOp) ix : outcome Empty_set HnswIndex :=
  match ops with
  | [] => Ok ix
  | op :: ops => do* ix := hnsw_do op ix in hnsw_run ops ix
  end.

(** What the index should hold. *)
Definition map_do (m : gmap Z (list f32)) (op : HnswOp) : gmap Z (list f32) :=
  match op with
  | HInsert id v => <[id := v]> m
  | HDelete id => delete id m
  end.
Definition id_ok (op : HnswOp) : Prop := match op with HInsert id _ => in_u32 id | HDelete id => in_u32 id end.

Lemma hnsw_do_spec op ix m :
  id_ok op -> cfg_ok (hx_config ix) -> index_wf ix -> (forall a, vector_at (hx_nodes ix) a = m !! a) ->
  exists ix', hnsw_do op ix = Ok ix' /\ index_wf ix' /\ hx_config ix' = hx_config ix
    /\ forall a, vector_at (hx_nodes ix') a = map_do m op !! a.
Proof.
  intros Ho Hc Hw Hm. destruct op as [id v|id]; simpl in *.
  - destruct (insert_spec id v ix) as (ix' & H1 & H2 & H3 & H4); [int_lia|done|done|].
    exists ix'. do 3 (split; [done|]). intros a. rewrite H4, Hm.
    destruct (decide (a = id)) as [->|]; [by rewrite lookup_insert_eq|by rewrite lookup_insert_ne].
  - eexists. split; [done|]. split; [by apply delete_wf|]. split; [done|]. intros a. rewrite delete_vector, Hm.
    destruct (decide (a = id)) as [->|]; [by rewrite lookup_delete_eq|by rewrite lookup_delete_ne].
Qed.

Lemma hnsw_run_spec ops : forall ix m,
  Forall id_ok ops -> cfg_ok (hx_config ix) -> index_wf ix -> (forall a, vector_at (hx_nodes ix) a = m !! a) ->
  exists ix', hnsw_run ops ix = Ok ix' /\ index_wf ix' /\ hx_config ix' = hx_config ix
    /\ forall a, vector_at (hx_nodes ix') a = foldl map_do m ops !! a.
Proof.
  induction ops as [|op ops IH]; intros ix m Ho Hc Hw Hm; [by exists ix|].
  apply Forall_cons in Ho as [Ho Hos]. cbn [hnsw_run foldl].
  destruct (hnsw_do_spec op ix m Ho Hc Hw Hm) as (ix1 & -> & Hw1 & Hc1 & Hm1). cbn [obind].
  destruct (IH ix1 (map_do m op) Hos) as (ix2 & H2 & Hw2 & Hc2 & Hm2); [by rewrite Hc1|done|done|].
  exists ix2. do 2 (split; [done|]). split; [congruence|done].
Qed.

Lemma new_wf cfg : index_wf (hnsw_new cfg).
Proof.
  assert (forall a, node_at [] a = None) as H by (intros a; unfold node_at, vec_get, in_range; by destruct (_ && _)).
  split; [intros a n; simpl; by rewrite H|]. split; [intros a [n Hn]|intros a [n Hn]]; simpl in Hn; by rewrite H in Hn.
Qed.

(** C32: Any history of HNSW inserts and deletes (capacities not negative, ids
    of type u32) runs to its end, whatever the distance and the logarithm are: no
    panic, and greedy descent and layer search stop within their bounds. The index
    is well formed: every node has the levels its id determines, none above the
    maximum level, every neighbour list respects its capacity and names live nodes
    only, the entry point is live, or absent when nothing is stored. The vectors
    stored are exactly those inserted last and not deleted since. *)
Theorem hnsw_history_sound cfg ops :
  cfg_ok cfg -> Forall id_ok ops ->
  exists ix, hnsw_run ops (hnsw_new cfg) = Ok ix /\ index_wf ix
    /\ forall a, vector_at (hx_nodes ix) a = foldl map_do ∅ ops !! a.
Proof.
  intros Hc Ho. destruct (hnsw_run_spec ops (hnsw_new cfg) ∅) as (ix & H1 & H2 & _ & H4); [done|done|apply new_wf| |].
  - intros a. rewrite lookup_empty. unfold vector_at. simpl.
    unfold node_at, vec_get, in_range. by destruct (_ && _).
  - by exists ix.
Qed.
End Invariant.

(** ** Concrete indexes: a logarithm that puts half of the ids one level up *)
Definition coarse_ln (x : f64) : f64 := if SFltb x (f64_literal 1 2) then f64_of_int (-1) else f64_of_int 0.
Definition small_cfg : HnswConfig := mkHnswConfig 2 3 8 4 (f64_of_int 1).
Definition four_points : list HnswOp :=
  [HInsert 0 (whole [0; 0]); HInsert 1 (whole [3; 0]); HInsert 2 (whole [0; 4]); HInsert 3 (whole [9; 9])].

Lemma small_cfg_ok : cfg_ok small_cfg.
Proof. split; vm_compute; discriminate. Defined.
Lemma four_points_ok : Forall id_ok four_points.
Proof. repeat constructor; vm_compute; discriminate. Defined.

Lemma hnsw_history_sound_witness :
  exists ix, hnsw_run dist_scalar coarse_ln (four_points ++ [HDelete 0]) (hnsw_new small_cfg) = Ok ix
    /\ index_wf coarse_ln ix
    /\ forall a, vector_at (hx_nodes ix) a = foldl map_do ∅ (four_points ++ [HDelete 0]) !! a.
Proof.
  apply (hnsw_history_sound dist_scalar coarse_ln small_cfg (four_points ++ [HDelete 0])); [exact small_cfg_ok|].
  apply Forall_app. split; [exact four_points_ok|]. repeat constructor; vm_compute; discriminate.
Defined.
