(* ===== verification/HnswSearch.v ===== *)
(** * Searches of the HNSW index

    After any history a search returns live records at their distances, in
    order; when the search is at least as wide as the index, it returns the best
    of all records that the bottom layer connects to the node it starts from.
    A snapshot searches like the index it was taken of. *)

From Stdlib Require Import SpecFloat.
From stdpp Require Import gmap sorting relations.
From S2P Require Import Prelude.
From S2P Require Import F32.
From S2P Require Import HostIndex.
From S2P Require Import Search.
From S2P Require Import Ivf.
From S2P Require Import IvfTheorems.
From S2P Require Import IvfEquivalence.
From S2P Require Import Hnsw.
From S2P Require Import HnswTheorems.

Implicit Types (nodes : list (option HNode)) (n : HNode) (cfg : HnswConfig) (ix : HnswIndex) (c : Candidate).

(** ** The order of candidates whose distances are numbers *)
Definition cand_number c : Prop := c_dist c <> S754_nan.
Definition cand_key c : Z * Z * Z * Z := (rank (c_dist c), c_id c).
Definition cand_before (a b : Candidate) : Prop := key_before (cand_key a) (cand_key b).

Lemma cand_cmp_key a b : cand_number a -> cand_number b -> cand_cmp a b = key_compare (cand_key a) (cand_key b).
Proof.
  intros Ha Hb. unfold cand_cmp, key_compare. rewrite SFcompare_rank by done. simpl. by destruct (triple_compare _ _).
Qed.

Lemma key_before_total a b : key_compare a b = Gt -> key_before b a.
Proof. intros E. unfold key_before. by rewrite key_compare_antisym, E. Qed.

Lemma key_before_refl a : key_before a a.
Proof. unfold key_before. pose proof (key_compare_antisym a a). by destruct (key_compare a a). Qed.

Lemma insert_cand_sorted x l :
  cand_number x -> Forall cand_number l -> StronglySorted cand_before l ->
  StronglySorted cand_before (insert_scored cand_le x l).
Proof.
  intros Hx Hl Hs. induction Hs as [|y l Hs IH Hy]; cbn [insert_scored]; [by repeat constructor|].
  apply Forall_cons in Hl as [Hny Hnl]. unfold cand_le. rewrite cand_cmp_key by done.
  assert (key_compare (cand_key x) (cand_key y) <> Gt ->
          StronglySorted cand_before (x :: y :: l)) as Hfront.
  { intros E. constructor; [by constructor|]. constructor; [exact E|].
    eapply Forall_impl; [exact Hy|]. intros z Hz. by eapply key_before_trans. }
  destruct (key_compare (cand_key x) (cand_key y)) eqn:E; [by apply Hfront|by apply Hfront|].
  constructor; [by apply IH|]. fold cand_le. rewrite insert_scored_perm. constructor; [|done]. by apply key_before_total.
Qed.

Lemma sorted_vec_sorted l : Forall cand_number l -> StronglySorted cand_before (into_sorted_vec l).
Proof.
  unfold into_sorted_vec. induction 1 as [|x l Hx Hl IH]; [constructor|]. simpl.
  apply insert_cand_sorted; [done| |done]. by rewrite sort_scored_perm.
Qed.

Lemma pop_max_spec h x rest :
  Forall cand_number h -> pop_max h = Some (x, rest) -> Forall (fun y => cand_before y x) h.
Proof.
  unfold pop_max. intros Hn. revert x rest. induction Hn as [|y h Hy Hn IH]; intros x rest; [done|]. cbn [best_of].
  destruct (best_of _ h) as [[z r]|] eqn:E.
  - specialize (IH _ _ eq_refl). pose proof (best_of_perm _ _ _ _ E) as Hp.
    assert (cand_number z) as Hz by (rewrite Hp in Hn; by apply Forall_cons in Hn as [? _]).
    unfold cand_lt. rewrite cand_cmp_key by done.
    destruct (key_compare (cand_key y) (cand_key z)) eqn:Ec; intros [= <- <-].
    + assert (cand_before z y) as Hzy by (unfold cand_before, key_before; by rewrite key_compare_antisym, Ec).
      constructor; [apply key_before_refl|].
      eapply Forall_impl; [exact IH|]. intros w Hw. eapply key_before_trans; [exact Hw|exact Hzy].
    + constructor; [|done]. unfold cand_before, key_before. by rewrite Ec.
    + assert (cand_before z y) as Hzy by by apply key_before_total.
      constructor; [apply key_before_refl|].
      eapply Forall_impl; [exact IH|]. intros w Hw. eapply key_before_trans; [exact Hw|exact Hzy].
  - intros [= <- <-]. rewrite (best_of_None _ _ E). constructor; [apply key_before_refl|constructor].
Qed.

(** The search of a layer does not stop at a candidate it has found. *)
Lemma peek_max_not_closer h w c :
  Forall cand_number h -> peek_max h = Some w -> c ∈ h -> f32_lt (c_dist w) (c_dist c) = false.
Proof.
  intros Hn Hp Hc. unfold peek_max in Hp. destruct (pop_max h) as [[x rest]|] eqn:E; simplify_eq/=.
  pose proof (pop_max_spec _ _ _ Hn E) as Hf. rewrite Forall_forall in Hf. specialize (Hf _ Hc).
  apply not_true_iff_false. rewrite f32_lt_key. intros (_ & _ & Hlt). apply Hf.
  rewrite key_compare_antisym. unfold key_compare. simpl. by rewrite Hlt.
Qed.

Section Search.
Context (dist : list f32 -> list f32 -> f32) (ln : f64 -> f64).
Implicit Types (query : list f32).

Definition as_hit c : Z * f32 := (c_id c, c_dist c).
Definition hit_order (a b : Z * f32) : Prop := key_before (rank a.2, a.1) (rank b.2, b.1).

(** Every live vector has a distance that is a number. *)
Definition all_numbers query nodes : Prop := forall a v, vector_at nodes a = Some v -> dist query v <> S754_nan.

Lemma true_cand_vector query nodes c :
  true_cand dist query nodes c -> exists v, vector_at nodes (c_id c) = Some v /\ c_dist c = dist query v.
Proof. intros (n & Hn & Hd). exists (hn_vector n). unfold vector_at. by rewrite Hn. Qed.

Lemma true_cand_numbers query nodes l :
  all_numbers query nodes -> Forall (true_cand dist query nodes) l -> Forall cand_number l.
Proof.
  intros Hn Hf. eapply Forall_impl; [exact Hf|]. intros c Hc.
  destruct (true_cand_vector _ _ _ Hc) as (v & Hv & Hd). unfold cand_number. rewrite Hd. by eapply Hn.
Qed.

Lemma search_spec query k ix :
  index_wf ln ix -> 0 <= k ->
  exists hits, hnsw_search dist query k ix = Ok hits
    /\ len hits <= k /\ NoDup hits.*1
    /\ (forall id d, (id, d) ∈ hits -> exists v, vector_at (hx_nodes ix) id = Some v /\ d = dist query v)
    /\ (1 <= k -> (exists a, is_live (hx_nodes ix) a) -> hits <> [])
    /\ (all_numbers query (hx_nodes ix) -> StronglySorted hit_order hits).
Proof.
  intros (Hw & Hmax & He) Hk. unfold hnsw_search. destruct (hx_entry ix) as [e|].
  2:{ exists []. split; [done|]. split; [done|]. split; [constructor|]. split; [by intros ? ? ?%elem_of_nil|].
      split; [intros _ [a Ha]; by destruct (He a)|constructor]. }
  destruct (descend_spec dist query (hx_nodes ix) (levels_down 1 (hx_max_level ix)) e He) as (b & -> & Hb). cbn [obind].
  destruct (search_layer_spec dist query (Z.max k (hc_ef_search (hx_config ix))) 0 (hx_nodes ix) b Hb)
    as (res & -> & Hf & Hn & Hne & _ & l & Hres). cbn [obind].
  eexists. split; [done|]. fold as_hit.
  assert ((as_hit <$> take (Z.to_nat k) res).*1 = take (Z.to_nat k) (c_id <$> res)) as Hids.
  { rewrite <- list_fmap_compose, <- fmap_take. done. }
  split; [unfold len; rewrite length_fmap, length_take; lia|]. split.
  { rewrite Hids. eapply sublist_NoDup; [exact Hn|apply sublist_take]. }
  split.
  { intros id d Hin. apply list_elem_of_fmap in Hin as (c & [= -> ->] & Hc).
    apply true_cand_vector. apply (Forall_take _ (Z.to_nat k)) in Hf. rewrite Forall_forall in Hf. by apply Hf. }
  split.
  - intros H1 _. destruct res as [|c res]; [done|]. destruct (Z.to_nat k) eqn:E; [lia|done].
  - intros Hnum. rewrite Hres in *.
    pose proof (true_cand_numbers _ _ _ Hnum Hf) as Hcn. unfold into_sorted_vec in Hcn. rewrite sort_scored_perm in Hcn.
    pose proof (sorted_vec_sorted l Hcn) as Hs. revert Hs. generalize (into_sorted_vec l) (Z.to_nat k). clear.
    intros s k Hs. revert k. induction Hs as [|x s Hs IH Hx]; intros [|k]; simpl; try constructor; [apply IH|].
    apply Forall_fmap, Forall_take. exact Hx.
Qed.

(** C33: After any history of inserts and deletes, every HNSW search returns:
    at most k hits with distinct ids, each a stored record with the distance of
    its present vector to the query, at least one when k is at least 1 and
    something is stored, and sorted by (distance, id) when no distance is NaN. A
    deleted record is never returned. *)
Theorem hnsw_search_sound cfg ops :
  cfg_ok cfg -> Forall id_ok ops ->
  let held := foldl map_do ∅ ops in
  exists ix, hnsw_run dist ln ops (hnsw_new cfg) = Ok ix
    /\ forall query k, 0 <= k ->
       exists hits, hnsw_search dist query k ix = Ok hits
         /\ len hits <= k /\ NoDup hits.*1
         /\ (forall id d, (id, d) ∈ hits -> exists v, held !! id = Some v /\ d = dist query v)
         /\ (1 <= k -> held <> ∅ -> hits <> [])
         /\ ((forall id v, held !! id = Some v -> dist query v <> S754_nan) -> StronglySorted hit_order hits).
Proof.
  intros Hc Ho held.
  destruct (hnsw_run_spec dist ln ops (hnsw_new cfg) ∅) as (ix & H1 & H2 & _ & H4); [done|done|apply new_wf| |].
  { intros a. rewrite lookup_empty. unfold vector_at. simpl. unfold node_at, vec_get, in_range. by destruct (_ && _). }
  exists ix. split; [done|]. intros query k Hk. destruct (search_spec query k ix H2 Hk) as (hits & Hs & Hl & Hn & Hv & Hne & Hso).
  exists hits. do 3 (split; [done|]). split; [|split].
  - intros id d Hin. destruct (Hv _ _ Hin) as (v & Hat & ->). exists v. by rewrite <- H4.
  - intros Hk1 Hh. apply Hne; [done|]. apply map_choose in Hh as (a & v & Ha). exists a. apply live_vector.
    rewrite H4. fold held. by rewrite Ha.
  - intros Hnum. apply Hso. intros a v Ha. rewrite H4 in Ha. by eapply Hnum.
Qed.
End Search.

(** ** A search as wide as the index *)
Section Wide.
Context (dist : list f32 -> list f32 -> f32) (query : list f32) (ef lvl : Z) (nodes : list (option HNode)).

Definition edge (a b : Z) : Prop := exists n, node_at nodes a = Some n /\ b ∈ edges_at lvl n /\ is_live nodes b.
Definition live_ids : list Z := base.filter (fun a => is_Some (node_at nodes a)) (ids nodes).

Hypothesis numbers : all_numbers dist query nodes.
Hypothesis wide : len live_ids <= ef.

(** What the loop maintains; [todo] are the nodes whose edges are being visited. *)
Definition wide_inv (entry : Z) (todo : list Z) (st : Layer) : Prop :=
  layer_inv dist query nodes ef st
  /\ (forall a, a ∈ visited st -> is_live nodes a -> a ∈ c_id <$> found st)
  /\ (forall c, c ∈ frontier st -> c ∈ found st)
  /\ (forall c, c ∈ found st -> rtc edge entry (c_id c))
  /\ (forall c, c ∈ found st -> c ∈ frontier st \/ c_id c ∈ todo \/ forall b, edge (c_id c) b -> b ∈ visited st).

Lemma found_room st a :
  layer_inv dist query nodes ef st -> is_live nodes a -> a ∉ visited st -> len (found st) < ef.
Proof using wide.
  intros (Hf & _ & Hv & Hn & _) Ha Hna.
  assert (NoDup (a :: (c_id <$> found st))) as Hnd.
  { constructor; [|done]. intros Hin. apply list_elem_of_fmap in Hin as (c & -> & Hc).
    rewrite Forall_forall in Hv. by apply Hna, Hv. }
  assert (forall x, x ∈ a :: (c_id <$> found st) -> x ∈ live_ids) as Hsub.
  { intros x Hx. apply list_elem_of_filter. assert (is_live nodes x) as Hx'.
    { apply elem_of_cons in Hx as [->|Hx]; [done|]. apply list_elem_of_fmap in Hx as (c & -> & Hc).
      rewrite Forall_forall in Hf. destruct (Hf _ Hc) as (n & Hn' & _). by exists n. }
    split; [done|]. by apply ids_spec. }
  apply NoDup_submseteq in Hsub; [|done]. apply submseteq_length in Hsub.
  simpl in Hsub. rewrite length_fmap in Hsub. unfold len in *. lia.
Qed.

Lemma wide_visit entry curr todo st a :
  wide_inv entry (curr :: todo) st -> rtc edge entry curr -> (is_live nodes a -> edge curr a) ->
  wide_inv entry (curr :: todo) (visit_neighbor dist query ef nodes st a)
  /\ visited st ⊆ visited (visit_neighbor dist query ef nodes st a)
  /\ a ∈ visited (visit_neighbor dist query ef nodes st a).
Proof using numbers wide.
  intros Hw Hreach Hedge. pose proof Hw as (Hi & H1 & H2 & H3 & H4).
  pose proof (proj1 (visit_spec dist query ef nodes st a Hi)) as Hi'. revert Hi'.
  unfold visit_neighbor. case_bool_decide as Ea; [done|].
  destruct (node_at nodes a) as [n|] eqn:En.
  - assert (is_live nodes a) as Hl by by exists n.
    pose proof (found_room st a Hi Hl Ea) as Hroom. replace (len (found st) <? ef) with true by lia.
    intros Hi'. split; [|simpl; set_solver]. split; [done|]. simpl. split; [|split; [|split]].
    + intros x Hx Hxl. apply elem_of_union in Hx as [Hx|Hx]; [apply elem_of_singleton in Hx as ->; by left|].
      right. by apply H1.
    + intros c Hc. apply elem_of_cons in Hc as [->|Hc]; [by left|]. right. by apply H2.
    + intros c Hc. apply elem_of_cons in Hc as [->|Hc]; [|by apply H3]. simpl. eapply rtc_r; [exact Hreach|]. by apply Hedge.
    + intros c Hc. apply elem_of_cons in Hc as [->|Hc]; [left; by left|].
      destruct (H4 _ Hc) as [?|[?|Hb]]; [left; by right|by right; left|].
      right. right. intros b Hcb. apply elem_of_union. right. by apply Hb.
  - intros Hi'. split; [|simpl; set_solver]. split; [done|]. simpl. split; [|split; [done|split; [done|]]].
    + intros x Hx [m Hm]. apply elem_of_union in Hx as [Hx|Hx]; [apply elem_of_singleton in Hx as ->; congruence|].
      apply H1; [done|by exists m].
    + intros c Hc. destruct (H4 _ Hc) as [?|[?|Hb]]; [by left|by right; left|].
      right. right. intros b Hcb. apply elem_of_union. right. by apply Hb.
Qed.

Lemma wide_visits entry curr todo es : forall st,
  wide_inv entry (curr :: todo) st -> rtc edge entry curr -> (forall a, a ∈ es -> is_live nodes a -> edge curr a) ->
  let st' := foldl (visit_neighbor dist query ef nodes) st es in
  wide_inv entry (curr :: todo) st' /\ visited st ⊆ visited st' /\ forall a, a ∈ es -> a ∈ visited st'.
Proof using numbers wide.
  induction es as [|e es IH]; intros st Hi Hr He; cbn [foldl]; cbn zeta.
  { split; [done|]. split; [done|]. by intros a Ha%elem_of_nil. }
  destruct (wide_visit entry curr todo st e Hi Hr) as (Hi1 & Hs1 & Ha1); [apply He; by left|].
  destruct (IH _ Hi1 Hr) as (Hi2 & Hs2 & Ha2); [intros a Ha; apply He; by right|].
  split; [done|]. split; [set_solver|]. intros a Ha. apply elem_of_cons in Ha as [->|Ha]; [set_solver|by apply Ha2].
Qed.

Lemma wide_result entry st :
  wide_inv entry [] st -> frontier st = [] -> (exists c, c ∈ found st /\ c_id c = entry) ->
  forall a, a ∈ c_id <$> found st <-> rtc edge entry a.
Proof.
  intros (Hi & H1 & H2 & H3 & H4) Hfr (c0 & Hc0 & He) a. split.
  - intros Ha. apply list_elem_of_fmap in Ha as (c & -> & Hc). by apply H3.
  - revert a. apply (rtc_ind_r (fun a => a ∈ c_id <$> found st)).
    + apply list_elem_of_fmap. by exists c0.
    + intros y z _ Hyz Hy. apply list_elem_of_fmap in Hy as (c & -> & Hc).
      destruct (H4 _ Hc) as [Hin|[Hin|Hb]]; [rewrite Hfr in Hin; by apply elem_of_nil in Hin|by apply elem_of_nil in Hin|].
      apply H1; [by apply Hb|]. by destruct Hyz as (n & _ & _ & ?).
Qed.

Lemma wide_loop entry : forall fuel st,
  wide_inv entry [] st -> (exists c, c ∈ found st /\ c_id c = entry) -> (work nodes st < fuel)%nat ->
  exists res, layer_loop dist fuel query ef lvl nodes st = Ok res
    /\ layer_result dist query nodes ef res /\ forall a, a ∈ c_id <$> res <-> rtc edge entry a.
Proof using numbers wide.
  induction fuel as [|fuel IH]; intros st Hw Hent Hfuel; [lia|]. cbn [layer_loop].
  pose proof Hw as (Hi & H1 & H2 & H3 & H4).
  destruct (pop_min (frontier st)) as [[curr rest]|] eqn:Ep.
  2:{ eexists. split; [done|]. split; [by apply layer_inv_result|]. intros a.
      rewrite <- (wide_result entry st Hw (best_of_None _ _ Ep) Hent a). unfold into_sorted_vec. by rewrite sort_scored_perm. }
  pose proof (best_of_perm _ _ _ _ Ep) as Hp. cbn zeta. cbn [found visited].
  set (st1 := mkLayer (visited st) rest (found st)).
  assert (curr ∈ found st) as Hcurr by (apply H2; rewrite Hp; by left).
  assert (Forall cand_number (found st)) as Hnum by (eapply true_cand_numbers; [exact numbers|by destruct Hi]).
  assert ((match peek_max (found st) with Some worst => f32_lt (c_dist worst) (c_dist curr) | None => false end) = false) as ->.
  { destruct (peek_max (found st)) as [w|] eqn:Ew; [|done]. by eapply peek_max_not_closer. }
  assert (Forall (true_cand dist query nodes) (found st)) as Htrue by by destruct Hi.
  rewrite Forall_forall in Htrue. destruct (Htrue _ Hcurr) as (n & Hn & _). rewrite Hn.
  assert (wide_inv entry [c_id curr] st1) as Hw1.
  { destruct Hi as (Hf & Hfr & Hrest). split; [split; [done|split; [|done]]|].
    - rewrite Hp in Hfr. by apply Forall_cons in Hfr as [_ Hfr].
    - split; [done|]. split; [intros c Hc; apply H2; rewrite Hp; by right|]. split; [done|].
      intros c Hc. simpl. destruct (H4 _ Hc) as [Hin|[Hin|?]]; [|by apply elem_of_nil in Hin|by right; right].
      rewrite Hp in Hin. apply elem_of_cons in Hin as [->|Hin]; [right; left; by left|by left]. }
  assert (forall a, a ∈ edges_at lvl n -> is_live nodes a -> edge (c_id curr) a) as Hedges by (intros a ? ?; by exists n).
  destruct (wide_visits entry (c_id curr) [] (edges_at lvl n) st1 Hw1 (H3 _ Hcurr) Hedges) as (Hw2 & Hsub & Hall).
  set (st2 := foldl _ st1 _) in *.
  pose proof (proj2 (visits_spec dist query ef nodes (edges_at lvl n) st1 (proj1 Hw1))) as Hwork. fold st2 in Hwork.
  assert (S (work nodes st1) = work nodes st) as Hpop by (unfold work; simpl; by rewrite Hp).
  apply IH; [| |lia].
  - destruct Hw2 as (Hi2 & H1' & H2' & H3' & H4'). do 4 (split; [done|]). intros c Hc.
    destruct (H4' _ Hc) as [?|[Hin|?]]; [by left| |by right; right].
    apply list_elem_of_singleton in Hin. right. right. intros b Hb. apply Hall.
    rewrite Hin in Hb. destruct Hb as (n' & Hn' & Hb & _). rewrite Hn in Hn'. by simplify_eq.
  - destruct Hent as (c0 & Hc0 & He0).
    assert (entry ∈ c_id <$> found st2) as Hin.
    { destruct Hw2 as (Hi2 & H1' & _). apply H1'.
      - apply Hsub. simpl. destruct Hi as (_ & _ & Hv & _). rewrite Forall_forall in Hv. rewrite <- He0. by apply Hv.
      - rewrite <- He0. destruct (Htrue _ Hc0) as (m & Hm & _). by exists m. }
    apply list_elem_of_fmap in Hin as (c & -> & Hc). by exists c.
Qed.

Lemma wide_search_layer entry :
  is_live nodes entry ->
  exists res, search_layer dist entry query ef lvl nodes = Ok res
    /\ layer_result dist query nodes ef res /\ forall a, a ∈ c_id <$> res <-> rtc edge entry a.
Proof using numbers wide.
  intros [n Hn]. unfold search_layer. rewrite Hn. set (c := mkCandidate _ _).
  apply wide_loop; [| |pose proof (start_work nodes entry n c Hn); lia].
  - split; [by apply start_inv|]. simpl. split; [|split; [done|split]].
    + intros a Ha _. apply elem_of_singleton in Ha as ->. by left.
    + intros c' Hc'. apply list_elem_of_singleton in Hc' as ->. apply rtc_refl.
    + intros c' Hc'. by left.
  - exists c. split; [by left|done].
Qed.
End Wide.

(** C34: When the search width (the larger of k and ef_search) is at least the
    number of stored records and no distance is NaN, an HNSW search is exact on
    what its start reaches: there is a stored start such that the answer is the
    first k of the sorted list of exactly the records reachable from it over
    level-0 edges, at their distances. *)
Theorem hnsw_wide_search_exact dist ln cfg ops query k :
  cfg_ok cfg -> Forall id_ok ops -> 0 <= k ->
  let held := foldl map_do ∅ ops in
  held <> ∅ -> (forall id v, held !! id = Some v -> dist query v <> S754_nan) ->
  Z.of_nat (size held) <= Z.max k (hc_ef_search cfg) ->
  exists ix start ranked,
    hnsw_run dist ln ops (hnsw_new cfg) = Ok ix /\ is_Some (held !! start)
    /\ hnsw_search dist query k ix = Ok (take (Z.to_nat k) ranked)
    /\ StronglySorted hit_order ranked /\ NoDup ranked.*1
    /\ forall id d, (id, d) ∈ ranked
         <-> rtc (edge 0 (hx_nodes ix)) start id /\ exists v, held !! id = Some v /\ d = dist query v.
Proof.
  intros Hc Ho Hk held Hne Hnum Hsize.
  destruct (hnsw_run_spec dist ln ops (hnsw_new cfg) ∅) as (ix & Hrun & (Hw & _ & He) & Hcfg & Hv); [done|done|apply new_wf| |].
  { intros a. rewrite lookup_empty. unfold vector_at. simpl. unfold node_at, vec_get, in_range. by destruct (_ && _). }
  fold held in Hv. set (nodes := hx_nodes ix) in *.
  assert (all_numbers dist query nodes) as Hn by (intros a v Ha; rewrite Hv in Ha; by eapply Hnum).
  assert (len (live_ids nodes) <= Z.max k (hc_ef_search (hx_config ix))) as Hwide.
  { rewrite Hcfg. etransitivity; [|exact Hsize]. unfold len. apply Nat2Z.inj_le. rewrite <- size_dom, <- (size_list_to_set (C := gset Z)).
    - apply subseteq_size. intros a Ha. apply elem_of_list_to_set in Ha. unfold live_ids in Ha.
      apply list_elem_of_filter in Ha as [Ha _]. apply elem_of_dom. rewrite <- Hv. by apply live_vector.
    - apply NoDup_filter, NoDup_seqZ. }
  destruct (hx_entry ix) as [e|] eqn:Ee.
  2:{ exfalso. apply map_choose in Hne as (a & v & Ha). apply (He a), live_vector. by rewrite Hv, Ha. }
  destruct (descend_spec dist query nodes (levels_down 1 (hx_max_level ix)) e He) as (b & Hd & Hb).
  destruct (wide_search_layer dist query _ 0 nodes Hn Hwide b Hb) as (res & Hs & (Hf & Hnd & _ & _ & l & Hres) & Hreach).
  exists ix, b, (as_hit <$> res). split; [done|]. split; [by rewrite <- Hv; apply live_vector|]. split; [|split; [|split]].
  - unfold hnsw_search. rewrite Ee. fold nodes. rewrite Hd. cbn [obind]. rewrite Hs. cbn [obind]. by rewrite fmap_take.
  - assert (StronglySorted cand_before res) as Hso.
    { rewrite Hres. apply sorted_vec_sorted. pose proof (true_cand_numbers dist _ _ _ Hn Hf) as H. rewrite Hres in H.
      unfold into_sorted_vec in H. by rewrite sort_scored_perm in H. }
    clear -Hso. induction Hso as [|x s Hs IH Hx]; constructor; [done|]. by apply Forall_fmap.
  - by rewrite <- list_fmap_compose.
  - intros id d. fold nodes. rewrite <- Hreach. split.
    + intros Hin. apply list_elem_of_fmap in Hin as (c & [= -> ->] & Hin). split.
      * apply list_elem_of_fmap. by exists c.
      * rewrite Forall_forall in Hf. destruct (true_cand_vector _ _ _ _ (Hf _ Hin)) as (v & Hv' & Hd').
        exists v. by rewrite <- Hv.
    + intros [Hin (v & Hv' & ->)]. apply list_elem_of_fmap in Hin as (c & -> & Hin). apply list_elem_of_fmap. exists c.
      split; [|done]. unfold as_hit. f_equal. rewrite Forall_forall in Hf.
      destruct (true_cand_vector _ _ _ _ (Hf _ Hin)) as (v' & Hv'' & ->). rewrite Hv in Hv''. by simplify_eq.
Qed.

(** ** A concrete index *)
Lemma hnsw_search_sound_witness :
  let held := foldl map_do ∅ four_points in
  exists ix, hnsw_run dist_scalar coarse_ln four_points (hnsw_new small_cfg) = Ok ix
    /\ forall query k, 0 <= k ->
       exists hits, hnsw_search dist_scalar query k ix = Ok hits
         /\ len hits <= k /\ NoDup hits.*1
         /\ (forall id d, (id, d) ∈ hits -> exists v, held !! id = Some v /\ d = dist_scalar query v)
         /\ (1 <= k -> held <> ∅ -> hits <> [])
         /\ ((forall id v, held !! id = Some v -> dist_scalar query v <> S754_nan) -> StronglySorted hit_order hits).
Proof.
  apply (hnsw_search_sound dist_scalar coarse_ln small_cfg four_points); [exact small_cfg_ok|exact four_points_ok].
Defined.

Definition is_nan (x : f32) : bool := match x with S754_nan => true | _ => false end.

Lemma hnsw_wide_search_exact_witness :
  let held := foldl map_do ∅ four_points in
  exists ix start ranked,
    hnsw_run dist_scalar coarse_ln four_points (hnsw_new small_cfg) = Ok ix /\ is_Some (held !! start)
    /\ hnsw_search dist_scalar (whole [3; 1]) 2 ix = Ok (take 2 ranked)
    /\ StronglySorted hit_order ranked /\ NoDup ranked.*1
    /\ forall id d, (id, d) ∈ ranked
         <-> rtc (edge 0 (hx_nodes ix)) start id /\ exists v, held !! id = Some v /\ d = dist_scalar (whole [3; 1]) v.
Proof.
  apply (hnsw_wide_search_exact dist_scalar coarse_ln small_cfg four_points (whole [3; 1]) 2);
    [exact small_cfg_ok|exact four_points_ok|lia| | |].
  - vm_compute. discriminate.
  - assert (map_Forall (fun _ v => is_nan (dist_scalar (whole [3; 1]) v) = false) (foldl map_do ∅ four_points)) as Hm
      by (apply (bool_decide_unpack _); vm_compute; exact I).
    intros id v Hv E. specialize (Hm id v Hv). cbn beta in Hm. rewrite E in Hm. discriminate.
  - vm_compute. discriminate.
Defined.

(** ** Snapshots of the HNSW index, and concrete runs

    A restored index has the nodes of the one it was taken of and answers every
    search alike, although its slot vector may be shorter.  Concrete runs show
    what updating and rebuilding do. *)


(** ** Searches look at nodes only through their slots *)
Section Slots.
Context (dist : list f32 -> list f32 -> f32) (nodes nodes' : list (option HNode)).
Hypothesis same : forall a, node_at nodes' a = node_at nodes a.

Lemma visit_ext query ef st a : visit_neighbor dist query ef nodes' st a = visit_neighbor dist query ef nodes st a.
Proof using same. unfold visit_neighbor. by rewrite same. Qed.

Lemma visits_ext query ef es : forall st,
  foldl (visit_neighbor dist query ef nodes') st es = foldl (visit_neighbor dist query ef nodes) st es.
Proof using same. induction es as [|e es IH]; intros st; [done|]. simpl. by rewrite visit_ext, IH. Qed.

(** A result does not depend on the fuel that was enough for it. *)
Lemma layer_loop_ext query ef lvl : forall fuel fuel' st res,
  layer_loop dist fuel query ef lvl nodes st = Ok res -> (fuel <= fuel')%nat ->
  layer_loop dist fuel' query ef lvl nodes' st = Ok res.
Proof using same.
  induction fuel as [|fuel IH]; intros fuel' st res Hr Hle; [done|]. destruct fuel' as [|fuel']; [lia|].
  cbn [layer_loop] in *. destruct (pop_min (frontier st)) as [[curr rest]|]; [|done]. cbn zeta in *.
  destruct (match peek_max _ with Some _ => _ | None => _ end); [done|].
  rewrite same. destruct (node_at nodes (c_id curr)); [rewrite visits_ext|]; (eapply IH; [exact Hr|lia]).
Qed.

Lemma closer_ext query best a : closer dist query nodes' best a = closer dist query nodes best a.
Proof using same. unfold closer. by rewrite same. Qed.

Lemma closers_ext query es : forall best,
  foldl (closer dist query nodes') best es = foldl (closer dist query nodes) best es.
Proof using same. induction es as [|e es IH]; intros best; [done|]. simpl. by rewrite closer_ext, IH. Qed.

Lemma greedy_ext query l : forall fuel fuel' curr r,
  greedy dist fuel query l nodes curr = Ok r -> (fuel <= fuel')%nat -> greedy dist fuel' query l nodes' curr = Ok r.
Proof using same.
  induction fuel as [|fuel IH]; intros fuel' curr r Hr Hle; [done|]. destruct fuel' as [|fuel']; [lia|].
  cbn [greedy] in *. rewrite same. destruct (node_at nodes curr); [|done]. rewrite closers_ext.
  cbn zeta in *. destruct (_ =? curr); [done|]. eapply IH; [exact Hr|lia].
Qed.

Lemma descend_ext query ls : forall curr r,
  (length nodes <= length nodes')%nat ->
  descend dist query nodes ls curr = Ok r -> descend dist query nodes' ls curr = Ok r.
Proof using same.
  induction ls as [|l ls IH]; intros curr r Hl Hr; [done|]. cbn [descend] in *.
  destruct (greedy dist (S (length nodes)) query l nodes curr) as [b|[]| |] eqn:E; [|done..]. cbn [obind] in *.
  rewrite (greedy_ext _ _ _ (S (length nodes')) _ _ E) by lia. by apply IH.
Qed.

Lemma search_layer_ext query ef lvl a res :
  (length nodes <= length nodes')%nat ->
  search_layer dist a query ef lvl nodes = Ok res -> search_layer dist a query ef lvl nodes' = Ok res.
Proof using same.
  intros Hl. unfold search_layer. rewrite same. destruct (node_at nodes a); [|done]. intros Hr.
  eapply layer_loop_ext; [exact Hr|lia].
Qed.
End Slots.

Lemma search_ext dist ln query k ix ix' :
  index_wf ln ix -> 0 <= k -> hx_config ix' = hx_config ix -> hx_entry ix' = hx_entry ix ->
  hx_max_level ix' = hx_max_level ix -> (forall a, node_at (hx_nodes ix') a = node_at (hx_nodes ix) a) ->
  (length (hx_nodes ix) <= length (hx_nodes ix'))%nat ->
  hnsw_search dist query k ix' = hnsw_search dist query k ix.
Proof.
  intros (Hw & _ & He) Hk Hc Hen Hm Hs Hl. unfold hnsw_search. rewrite Hc, Hen, Hm.
  destruct (hx_entry ix) as [e|]; [|done].
  destruct (descend_spec dist query (hx_nodes ix) (levels_down 1 (hx_max_level ix)) e He) as (b & Hd & Hb).
  rewrite (descend_ext dist _ _ Hs _ _ _ _ Hl Hd), Hd. cbn [obind].
  destruct (search_layer_spec dist query (Z.max k (hc_ef_search (hx_config ix))) 0 (hx_nodes ix) b Hb) as (res & Hr & _).
  by rewrite (search_layer_ext dist _ _ Hs _ _ _ _ _ Hl Hr), Hr.
Qed.

(** ** Loading what was dumped *)
Definition dump_of (a : Z) n : NodeDump := mkNodeDump a (hn_vector n) (hn_neighbors n).
Definition dump_slot (p : Z * option HNode) : option NodeDump :=
  (fun n => mkNodeDump (wrap_u32 p.1) (hn_vector n) (hn_neighbors n)) <$> p.2.

Lemma dumps_from nodes : forall s,
  Z.of_nat (s + length nodes) <= 2 ^ 32 ->
  let ds := omap dump_slot (imap (fun i x => (Z.of_nat (s + i), x)) nodes) in
  NoDup (dn_id <$> ds)
  /\ Forall (fun d => Z.of_nat s <= dn_id d) ds
  /\ forall d, d ∈ ds <-> exists i n, nodes !! i = Some (Some n) /\ d = dump_of (Z.of_nat (s + i)) n.
Proof.
  induction nodes as [|x nodes IH]; intros s Hs ds.
  { split; [constructor|]. split; [constructor|]. intros d. split; [by intros ?%elem_of_nil|by intros ([|i] & n & Hi & _)]. }
  assert (omap dump_slot (imap (fun i x => (Z.of_nat (s + i), x)) (x :: nodes))
          = match x with Some n => [dump_of (Z.of_nat s) n] | None => [] end
            ++ omap dump_slot (imap (fun i x => (Z.of_nat (S s + i), x)) nodes)) as E.
  { rewrite imap_cons. rewrite (imap_ext _ (fun i x => (Z.of_nat (S s + i), x))) by (intros i y _; unfold compose; do 2 f_equal; lia).
    rewrite Nat.add_0_r. destruct x as [n|]; [|done]. unfold omap, dump_slot at 1. simpl. f_equal.
    unfold dump_of. f_equal. apply wrap_u32_small. simpl in Hs. int_lia. }
  unfold ds. rewrite E. destruct (IH (S s)) as (Hn & Hf & Hd); [simpl in Hs; lia|].
  set (ds' := omap dump_slot (imap (fun i x => (Z.of_nat (S s + i), x)) nodes)) in *.
  assert (forall d, d ∈ ds' <-> exists i n, (x :: nodes) !! S i = Some (Some n) /\ d = dump_of (Z.of_nat (s + S i)) n) as Hd'.
  { intros d. rewrite Hd. split; intros (i & n & Hi & ->); exists i, n; split; try done; do 2 f_equal; lia. }
  split; [|split].
  - destruct x as [n|]; [|done]. simpl. constructor; [|done]. intros Hin.
    apply list_elem_of_fmap in Hin as (d & Heq & Hin). rewrite Forall_forall in Hf. specialize (Hf _ Hin). simpl in Heq. lia.
  - apply Forall_app. split.
    + destruct x as [n|]; constructor; [simpl; lia|constructor].
    + eapply Forall_impl; [exact Hf|]. intros d. simpl. lia.
  - intros d. rewrite elem_of_app, Hd'. split.
    + intros [Hin|(i & n & Hi & ->)]; [|by exists (S i), n]. destruct x as [n|]; [|by apply elem_of_nil in Hin].
      apply list_elem_of_singleton in Hin as ->. exists 0%nat, n. by rewrite Nat.add_0_r.
    + intros ([|i] & n & Hi & ->); [|right; by exists i, n]. simpl in Hi. simplify_eq. left.
      rewrite Nat.add_0_r. by left.
Qed.

Lemma load_spec ds : forall nodes,
  NoDup (dn_id <$> ds) -> Forall (fun d => 0 <= dn_id d) ds ->
  (forall d, d ∈ ds -> node_at (foldl load_node nodes ds) (dn_id d) = Some (mkHNode (dn_vector d) (dn_neighbors d)))
  /\ (forall a, a ∉ dn_id <$> ds -> node_at (foldl load_node nodes ds) a = node_at nodes a).
Proof.
  induction ds as [|d ds IH]; intros nodes Hn Hf; [split; [by intros ? ?%elem_of_nil|done]|].
  rewrite fmap_cons in Hn. apply NoDup_cons in Hn as [Hd Hn]. apply Forall_cons in Hf as [H0 Hf]. cbn [foldl].
  destruct (IH (load_node nodes d) Hn Hf) as [H1 H2]. split.
  - intros d' Hin. apply elem_of_cons in Hin as [->|Hin]; [|by apply H1].
    rewrite H2 by done. unfold load_node. rewrite node_at_put by done. by rewrite decide_True.
  - intros a Ha. rewrite fmap_cons in Ha. apply not_elem_of_cons in Ha as [Hne Ha]. rewrite H2 by done.
    unfold load_node. rewrite node_at_put by done. by rewrite decide_False.
Qed.

Lemma node_dumps_load nodes a :
  len nodes <= 2 ^ 32 ->
  node_at (foldl load_node [] (sort_by_key dn_id (node_dumps nodes))) a = node_at nodes a.
Proof.
  intros Hl. destruct (dumps_from nodes 0) as (Hn & Hf & Hd); [unfold len in Hl; simpl; lia|].
  change (omap dump_slot (imap (fun i x => (Z.of_nat (0 + i), x)) nodes)) with (node_dumps nodes) in *.
  destruct (sort_by_key_ok dn_id (node_dumps nodes)) as [Hp _].
  destruct (load_spec (sort_by_key dn_id (node_dumps nodes)) []) as [H1 H2]; [by rewrite Hp|by rewrite Hp|].
  destruct (node_at nodes a) as [n|] eqn:E.
  - pose proof (node_at_range _ _ _ E) as Hr. specialize (H1 (dump_of a n)). simpl in H1. rewrite H1; [by destruct n|].
    rewrite Hp. apply Hd. exists (Z.to_nat a), n. simpl. split; [|by rewrite Z2Nat.id by lia].
    unfold node_at in E. destruct (vec_get nodes a) as [[n'|]|] eqn:Ev; simplify_eq. by apply vec_get_Some in Ev as [_ ?].
  - rewrite H2.
    + unfold node_at, vec_get, in_range. by destruct (_ && _).
    + rewrite Hp. intros Hin. apply list_elem_of_fmap in Hin as (d & -> & Hin). apply Hd in Hin as (i & n & Hi & ->).
      unfold node_at in E. simpl in E. rewrite vec_get_nat, Hi in E. done.
Qed.

(** A well-formed HNSW index restored from a snapshot, into whatever index, is
    well formed, has the same nodes with the same neighbours and answers every
    query alike. *)
Theorem hnsw_snapshot_searches_alike `{HnswCodecLaws} dist ln ix j :
  index_wf ln ix -> len (hx_nodes ix) <= 2 ^ 32 ->
  exists ix', hnsw_restore (hnsw_snapshot ix) j = (ix', Ok tt) /\ index_wf ln ix'
    /\ (forall a, node_at (hx_nodes ix') a = node_at (hx_nodes ix) a)
    /\ forall query k, 0 <= k -> hnsw_search dist query k ix' = hnsw_search dist query k ix.
Proof.
  intros Hw Hl. unfold hnsw_restore, hnsw_snapshot. rewrite decode_encode_hnsw. eexists. split; [done|]. simpl.
  set (nodes' := foldl load_node [] _).
  assert (forall a, node_at nodes' a = node_at (hx_nodes ix) a) as Hs by (intros a; by apply node_dumps_load).
  assert (index_wf ln (mkHnsw (hx_config ix) nodes' (hx_entry ix) (hx_max_level ix))) as Hw'.
  { destruct Hw as (H1 & H2 & H3). split; [by eapply nodes_wf_ext|]. simpl. split.
    - intros a Ha. apply H2. unfold is_live in *. by rewrite <- Hs.
    - destruct (hx_entry ix); [unfold is_live in *; by rewrite Hs|]. intros a Ha. apply (H3 a). unfold is_live in *. by rewrite <- Hs. }
  split; [done|]. split; [done|]. intros query k Hk.
  destruct (Nat.le_ge_cases (length (hx_nodes ix)) (length nodes')) as [Hle|Hle].
  - by eapply search_ext.
  - symmetry. by eapply (search_ext dist ln query k (mkHnsw (hx_config ix) nodes' (hx_entry ix) (hx_max_level ix)) ix).
Qed.

(** ** A concrete codec *)
Definition put_f32 (x : spec_float) : list Z :=
  match x with
  | S754_zero s => [0; Z.b2z s]
  | S754_infinity s => [1; Z.b2z s]
  | S754_nan => [2]
  | S754_finite s m e => [3; Z.b2z s; Zpos m; e]
  end.
Definition get_f32 (bs : list Z) : option (spec_float * list Z) :=
  match bs with
  | 0 :: s :: bs => Some (S754_zero (s =? 1), bs)
  | 1 :: s :: bs => Some (S754_infinity (s =? 1), bs)
  | 2 :: bs => Some (S754_nan, bs)
  | 3 :: s :: m :: e :: bs => Some (S754_finite (s =? 1) (Z.to_pos m) e, bs)
  | _ => None
  end.
Definition put_node_dump (d : NodeDump) : list Z :=
  dn_id d :: put_list put_f32 (dn_vector d) ++ put_list (put_list (fun z => [z])) (dn_neighbors d).
Definition get_node_dump (bs : list Z) : option (NodeDump * list Z) :=
  '(id, bs) ← get_Z bs; '(v, bs) ← get_list get_f32 bs; '(ns, bs) ← get_list (get_list get_Z) bs;
  Some (mkNodeDump id v ns, bs).
Definition put_hnsw (d : HnswDump) : list Z :=
  let c := hd_config d in
  hc_m c :: hc_m_max0 c :: hc_ef_construction c :: hc_ef_search c :: put_f32 (hc_lambda c)
  ++ put_list (fun z => [z]) (option_list (hd_entry d)) ++ hd_max_level d :: put_list put_node_dump (hd_nodes d).
Definition get_hnsw (bs : list Z) : option HnswDump :=
  match bs with
  | m :: m0 :: efc :: efs :: bs =>
      '(lambda, bs) ← get_f32 bs; '(entry, bs) ← get_list get_Z bs; '(lvl, bs) ← get_Z bs;
      '(ns, _) ← get_list get_node_dump bs;
      Some (mkHnswDump (mkHnswConfig m m0 efc efs lambda) (head entry) lvl ns)
  | _ => None
  end.

Lemma reads_back_f32 : reads_back put_f32 get_f32.
Proof. intros [[]|[]| |[] m e] bs; done. Qed.
Lemma reads_back_node_dump : reads_back put_node_dump get_node_dump.
Proof.
  intros [id v ns] bs. unfold put_node_dump, get_node_dump. cbn [dn_id dn_vector dn_neighbors app get_Z mbind option_bind].
  rewrite <- (assoc_L (++)), (reads_back_list _ _ reads_back_f32 v). cbn [mbind option_bind].
  by rewrite (reads_back_list _ _ (reads_back_list _ _ reads_back_Z) ns).
Qed.

#[local] Instance hnsw_codec : HnswCodec := {| encode_hnsw := put_hnsw; decode_hnsw := get_hnsw |}.
#[local] Instance hnsw_codec_laws : HnswCodecLaws.
Proof.
  intros [[m m0 efc efs lambda] entry lvl ns]. unfold decode_hnsw, encode_hnsw, hnsw_codec, put_hnsw, get_hnsw.
  cbn [hd_config hd_entry hd_max_level hd_nodes hc_m hc_m_max0 hc_ef_construction hc_ef_search hc_lambda].
  rewrite (reads_back_f32 lambda). cbn [mbind option_bind].
  rewrite (reads_back_list _ _ reads_back_Z (option_list entry)). cbn [mbind option_bind get_Z].
  pose proof (reads_back_list _ _ reads_back_node_dump ns []) as H. rewrite app_nil_r in H. rewrite H.
  cbn [mbind option_bind]. by destruct entry.
Qed.

(** ** Concrete runs *)
Lemma hnsw_snapshot_searches_alike_witness :
  exists ix', hnsw_restore (hnsw_snapshot (hnsw_new small_cfg)) (hnsw_new (HnswConfig_default coarse_ln)) = (ix', Ok tt)
    /\ index_wf coarse_ln ix'
    /\ (forall a, node_at (hx_nodes ix') a = node_at [] a)
    /\ forall query k, 0 <= k -> hnsw_search dist_scalar query k ix' = hnsw_search dist_scalar query k (hnsw_new small_cfg).
Proof.
  apply (hnsw_snapshot_searches_alike dist_scalar coarse_ln (hnsw_new small_cfg) (hnsw_new (HnswConfig_default coarse_ln))).
  - apply new_wf.
  - vm_compute. discriminate.
Defined.

Definition ids_found (o : outcome Empty_set (list (Z * f32))) : option (list Z) :=
  match o with Ok hits => Some hits.*1 | _ => None end.
Definition found_after (ix : outcome Empty_set HnswIndex) (query : list f32) (k : Z) : option (list Z) :=
  match ix with Ok ix => ids_found (hnsw_search dist_scalar query k ix) | _ => None end.

(** Inserting the entry point again empties its lists, and the new ones are chosen
    from what it still reaches, itself: a search then finds no other record. *)
Theorem updated_entry_point_hides_the_rest :
  let before := hnsw_run dist_scalar coarse_ln four_points (hnsw_new small_cfg) in
  (do* ix := before in Ok (hx_entry ix)) = Ok (Some 0)
  /\ found_after before (whole [3; 1]) 4 = Some [1; 0; 2; 3]
  /\ found_after (do* ix := before in hnsw_insert dist_scalar coarse_ln 0 (whole [5; 5]) ix) (whole [3; 1]) 4 = Some [0].
Proof. vm_compute. repeat split; reflexivity. Qed.

(** Rebuilding keeps the records that were there before. *)
Theorem rebuild_keeps_old_records :
  let before := hnsw_run dist_scalar coarse_ln [HInsert 5 (whole [1])] (hnsw_new small_cfg) in
  found_after (do* ix := before in hnsw_build dist_scalar coarse_ln [(1, whole [2])] ix) (whole [2]) 9 = Some [1; 5].
Proof. vm_compute. reflexivity. Qed.

(** With one neighbour per node the configured factor is infinite, and so is the
    level of a node: the first insertion asks for 2^64 lists. *)
Theorem one_neighbour_needs_every_level :
  let lambda := f64_div (f64_of_int 1) (coarse_ln (f64_of_int 1)) in
  deterministic_level coarse_ln lambda 0 = u64_MAX.
Proof. vm_compute. reflexivity. Qed.
