(* ===== verification/GraphRag.v ===== *)
(** * Subgraph expansion and communities

    Models [crates/valori-rag/src]: [graph.rs] (seeds of records, breadth-first
    expansion of a subgraph) and [community.rs] (label propagation, the
    community store with its receipt, ranking), over the kernel of [Kernel].

    The JSON objects of the subgraph are records of their fields.  The queue loop
    takes one more than the seeds plus, for every node slot, the longest edge
    walk as fuel: a node is expanded once.  The order in which a hash map is
    iterated matters only to ranking, where it is an argument. *)

From Stdlib Require Import SpecFloat.
From stdpp Require Import gmap.
From S2P Require Import Prelude.
From S2P Require Import Core.
From S2P Require Import Bytes.
From S2P Require Import Fxp.
From S2P Require Import Records.
From S2P Require Import Slab.
From S2P Require Import Graph.
From S2P Require Import Kernel.
From S2P Require Import Wire.
From S2P Require Import F32.
From S2P Require Import HostIndex.
From S2P Require Import Search.
From S2P Require Import Hnsw.

(** ** Subgraphs (graph.rs) *)
Definition MAX_DEPTH : Z := 4.

Definition note_seed (want : gset Z) (map : gmap Z Z) (node : GraphNode) : gmap Z Z :=
  match nd_record node with
  | Some rid =>
      if bool_decide (rid ∈ want) then match map !! rid with Some _ => map | None => <[rid := nd_id node]> map end
      else map
  | None => map
  end.
Definition resolve_seed_nodes (s : KernelState) (record_ids : list Z) : gmap Z Z :=
  let want : gset Z := list_to_set record_ids in
  if bool_decide (want = ∅) then ∅ else foldl (note_seed want) ∅ (iter_nodes s).

Record NodeView : Type := mkNodeView { nv_id : Z; nv_kind : Z; nv_record : option Z }.
Record EdgeView : Type := mkEdgeView { ev_id : Z; ev_from : Z; ev_to : Z; ev_kind : Z }.
Definition node_view (n : GraphNode) : NodeView := mkNodeView (nd_id n) (NodeKind_as_u8 (nd_kind n)) (nd_record n).
Definition edge_view (e : GraphEdge) : EdgeView :=
  mkEdgeView (ed_id e) (ed_from e) (ed_to e) (EdgeKind_as_u8 (ed_kind e)).

Record Bfs : Type := mkBfs {
  visited_nodes : gset Z;
  visited_edges : gset Z;
  nodes_out : list NodeView;
  edges_out : list EdgeView;
  bfs_queue : list (Z * Z);
}.

(** One edge of the node being expanded. *)
Definition take_edge (rem : Z) (st : Bfs) (e : GraphEdge) : Bfs :=
  let '(ve, eo) := if bool_decide (ed_id e ∈ visited_edges st) then (visited_edges st, edges_out st)
                   else ({[ ed_id e ]} ∪ visited_edges st, edges_out st ++ [edge_view e]) in
  mkBfs (visited_nodes st) ve (nodes_out st) eo
    (if bool_decide (ed_to e ∈ visited_nodes st) then bfs_queue st else bfs_queue st ++ [(ed_to e, rem - 1)]).

Fixpoint bfs_loop (fuel : nat) (s : KernelState) (st : Bfs) : outcome KernelError (list NodeView * list EdgeView) :=
  match fuel with
  | O => Hang
  | S fuel =>
      match bfs_queue st with
      | [] => Ok (nodes_out st, edges_out st)
      | (nid, rem) :: queue =>
          if bool_decide (nid ∈ visited_nodes st)
          then bfs_loop fuel s (mkBfs (visited_nodes st) (visited_edges st) (nodes_out st) (edges_out st) queue)
          else
            let vn := {[ nid ]} ∪ visited_nodes st in
            match get_node s nid with
            | None => bfs_loop fuel s (mkBfs vn (visited_edges st) (nodes_out st) (edges_out st) queue)
            | Some node =>
                let st := mkBfs vn (visited_edges st) (nodes_out st ++ [node_view node]) (edges_out st) queue in
                if 0 <? rem then
                  match outgoing_edges s nid with
                  | Some edges => do* es := edges in bfs_loop fuel s (foldl (take_edge rem) st es)
                  | None => bfs_loop fuel s st
                  end
                else bfs_loop fuel s st
            end
      end
  end.

Definition expand_subgraph (s : KernelState) (seeds : list Z) (depth : Z) :
    outcome KernelError (list NodeView * list EdgeView) :=
  let depth := Z.min depth MAX_DEPTH in
  bfs_loop (S (length seeds + length (ks_nodes s) * S (length (ks_edges s)))) s
    (mkBfs ∅ ∅ [] [] ((fun seed => (seed, depth)) <$> seeds)).

(** ** Label propagation (community.rs) *)
Definition DEFAULT_MAX_ITER : Z := 20.

Definition in_filter (ns : option Z) (n : GraphNode) : bool :=
  match ns with Some ns => nd_namespace_id n =? ns | None => true end.
Definition community_nodes (s : KernelState) (ns : option Z) : list Z :=
  nd_id <$> base.filter (fun n => in_filter ns n = true) (iter_nodes s).

(** [*freq.entry(lbl).or_insert(0) += 1] *)
Definition count_label (labels : gmap Z Z) (freq : gmap Z Z) (nbr : Z) : gmap Z Z :=
  match labels !! nbr with
  | Some lbl => <[lbl := wrap_u32 (default 0 (freq !! lbl) + 1)]> freq
  | None => freq
  end.

Definition neighbours (s : KernelState) (nid : Z) : outcome KernelError (list Z) :=
  do* out := match outgoing_edges s nid with Some es => es | None => Ok [] end in
  do* inc := match incoming_edges s nid with Some es => es | None => Ok [] end in
  Ok ((ed_to <$> out) ++ (ed_from <$> inc)).

(** The most frequent label, the least of them on a tie. *)
Definition list_max (l : list Z) : option Z :=
  foldl (fun acc x => Some (match acc with Some m => Z.max m x | None => x end)) None l.
Definition list_min (l : list Z) : option Z :=
  foldl (fun acc x => Some (match acc with Some m => Z.min m x | None => x end)) None l.
Definition best_label (freq : gmap Z Z) : option Z :=
  m ← list_max (map_to_list freq).*2;
  list_min (base.filter (fun p => p.2 = m) (map_to_list freq)).*1.

Definition relabel (s : KernelState) (st : gmap Z Z * bool) (nid : Z) : outcome KernelError (gmap Z Z * bool) :=
  let '(labels, changed) := st in
  do* nbrs := neighbours s nid in
  match best_label (foldl (count_label labels) ∅ nbrs) with
  | None => Ok (labels, changed)
  | Some best =>
      do* old := unwrap (labels !! nid) in
      if old =? best then Ok (labels, changed) else Ok (<[nid := best]> labels, true)
  end.

Fixpoint relabel_all (s : KernelState) (ids : list Z) (st : gmap Z Z * bool) : outcome KernelError (gmap Z Z * bool) :=
  match ids with
  | [] => Ok st
  | nid :: ids => do* st := relabel s st nid in relabel_all s ids st
  end.

Fixpoint propagate (iter : nat) (s : KernelState) (ids : list Z) (labels : gmap Z Z) : outcome KernelError (gmap Z Z) :=
  match iter with
  | O => Ok labels
  | S iter =>
      do* st := relabel_all s (sort_by_key id ids) (labels, false) in
      if (st.2 : bool) then propagate iter s ids st.1 else Ok st.1
  end.

Definition label_propagation (s : KernelState) (namespace_filter : option Z) (max_iter : Z) :
    outcome KernelError (gmap Z Z) :=
  let ids := community_nodes s namespace_filter in
  match ids with
  | [] => Ok ∅
  | _ => propagate (Z.to_nat max_iter) s ids (list_to_map ((fun id => (id, id)) <$> ids))
  end.

(** ** The community store *)
Record CommunityStore : Type := mkStore {
  assignments : gmap Z Z;
  community_centroids : gmap Z (list f32);
  members : gmap Z (list Z);
  community_receipt : list Z;
  community_count : Z;
  community_node_count : Z;
}.

Definition members_of (a : gmap Z Z) (cid : Z) : list Z :=
  sort_by_key id (base.filter (fun p => p.2 = cid) (map_to_list a)).*1.
Definition community_ids (a : gmap Z Z) : gset Z := list_to_set (map_to_list a).*2.
Definition members_map (a : gmap Z Z) : gmap Z (list Z) := set_to_map (fun cid => (cid, members_of a cid)) (community_ids a).

(** Sums in f64; the record of a member counts when it is searchable and has the
    dimension. *)
Definition f64_add : f64 -> f64 -> f64 := SFadd 53 1024.
Definition member_vector (s : KernelState) (dim nid : Z) : option (list Z) :=
  node ← get_node s nid; rid ← nd_record node; rec ← get_record s rid;
  if is_searchable rec && (len (rec_vector rec) =? dim) then Some (rec_vector rec) else None.
Definition add_member (st : list f64 * Z) (v : list Z) : list f64 * Z :=
  (zip_with (fun sum c => f64_add sum (f64_div (f64_of_int c) (f64_of_int SCALE))) st.1 v, st.2 + 1).
Definition centroid_of (s : KernelState) (dim : Z) (nids : list Z) : option (list f32) :=
  let '(sum, count) := foldl add_member (replicate (Z.to_nat dim) (S754_zero false), 0) (omap (member_vector s dim) nids) in
  if 0 <? count then Some ((fun x => f32_of_f64 (f64_div x (f64_of_int count))) <$> sum) else None.

Definition sorted_assignments (a : gmap Z Z) : list (Z * Z) := sort_by_key fst (map_to_list a).
Definition community_input (a : gmap Z Z) : list Z :=
  concat ((fun p => le_bytes 4 p.1 ++ le_bytes 4 p.2) <$> sorted_assignments a).

Definition build_community_store (blake3 : list Z -> list Z) (s : KernelState) (a : gmap Z Z) : CommunityStore :=
  let ms := members_map a in
  let dim := default 0 (ks_dim s) in
  mkStore a (if 0 <? dim then omap (centroid_of s dim) ms else ∅) ms
    (hex (blake3 (community_input a))) (Z.of_nat (size ms)) (Z.of_nat (size a)).

(** ** Ranking communities by cosine similarity; [entries] are the centroids in
    the order of the hash map *)
Definition f32_sqrt : f32 -> f32 := SFsqrt 24 128.
Definition norm_floor : f32 := f32_literal 1 1000000000.
Definition at_least (x floor : f32) : f32 := match x with S754_nan => floor | _ => if f32_lt x floor then floor else x end.
Definition norm (v : list f32) : f32 := at_least (f32_sqrt (f32_sum ((fun a => f32_mul a a) <$> v))) norm_floor.
Definition community_score (query centroid : list f32) : f32 :=
  f32_div (f32_sum (zip_with f32_mul query centroid)) (f32_mul (norm query) (norm centroid)).
(** [b.1.partial_cmp(&a.1).unwrap_or(Equal)]: stable, best first *)
Definition community_ge (a b : Z * f32) : bool :=
  match SFcompare (snd b) (snd a) with Some Gt => false | _ => true end.
Definition rank_communities (entries : list (Z * list f32)) (query : list f32) (k : nat) : list (Z * f32) :=
  take k (sort_scored community_ge
    ((fun p => (p.1, community_score query p.2)) <$>
       base.filter (fun p : Z * list f32 => length p.2 = length query) entries)).
