(* ===== verification/GraphRagTheorems.v ===== *)
(** * What subgraphs and communities are

    A subgraph holds exactly the nodes within the depth of a seed, each once, and
    exactly the edges that leave nodes one step closer; label propagation ends,
    gives a label to exactly the nodes of the namespace and never lets a
    community leave a connected component; a receipt binds the assignment. *)

From stdpp Require Import gmap relations sorting.
From S2P Require Import Prelude.
From S2P Require Import Core.
From S2P Require Import Bytes.
From S2P Require Import Records.
From S2P Require Import Slab.
From S2P Require Import Graph.
From S2P Require Import GraphProofs.
From S2P Require Import Kernel.
From S2P Require Import KernelWf.
From S2P Require Import KernelProofs.
From S2P Require Import KernelTheorems.
From S2P Require Import StateProof.
From S2P Require Import Wire.
From S2P Require Import WireTheorems.
From S2P Require Import EventLogTheorems.
From S2P Require Import EffectTheorems.
From S2P Require Import PlannerTheorems.
From S2P Require Import HnswTheorems.
From S2P Require Import GraphRag.

(** ** Edges of a reachable state *)
Definition live_edge (s : KernelState) (e : GraphEdge) : Prop := get_edge s (ed_id e) = Some e.
Definition leads_to (s : KernelState) (a b : Z) : Prop := exists e, live_edge s e /\ ed_from e = a /\ ed_to e = b.

Lemma edge_walk_length d edges : forall fuel c es,
  edge_walk d edges fuel c = Ok es -> (length es <= fuel)%nat.
Proof.
  induction fuel as [|fuel IH]; intros [c|] es; simpl; try (by intros [= <-]).
  - destruct (slab_get edges c); [done|]. by intros [= <-].
  - destruct (slab_get edges c) as [e|]; [|intros [= <-]; simpl; lia].
    destruct (edge_walk d edges fuel (next_edge d e)) as [rest| | |] eqn:E; try done.
    intros [= <-]. simpl. specialize (IH _ _ E). lia.
  - intros [= <-]. simpl. lia.
Qed.

Section State.
Context (s : KernelState) (Hs : reachable s).

Lemma side_edges d n nd :
  get_node s n = Some nd ->
  exists es, iter_edges d (ks_edges s) (first_edge d nd) = Ok es
    /\ (forall e, e ∈ es <-> live_edge s e /\ endpoint d e = n)
    /\ (length es <= S (length (ks_edges s)))%nat.
Proof using Hs.
  intros Hnd. pose proof (nw_graph _ _ _ (kw_net _ (reachable_kernel_wf s Hs))) as Wg.
  destruct (iter_edges_ok d (ks_graph s) n nd Wg Hnd) as (es & Hes & Hin). exists es. split; [done|]. split.
  - intros e. rewrite Hin. split; [|unfold live_edge; naive_solver].
    intros (i & Hi & Hep). unfold live_edge. by rewrite (proj1 (gw_edge _ Wg i e Hi)).
  - by apply edge_walk_length in Hes.
Qed.

Lemma out_edges n :
  is_Some (get_node s n) ->
  exists es, outgoing_edges s n = Some (Ok es)
    /\ (forall e, e ∈ es <-> live_edge s e /\ ed_from e = n) /\ (length es <= S (length (ks_edges s)))%nat.
Proof using Hs.
  intros [nd Hnd]. destruct (side_edges Out n nd Hnd) as (es & He & Hin & Hl). exists es.
  split; [|done]. unfold outgoing_edges. rewrite Hnd. simpl. f_equal. exact He.
Qed.

Lemma in_edges n :
  is_Some (get_node s n) ->
  exists es, incoming_edges s n = Some (Ok es) /\ forall e, e ∈ es <-> live_edge s e /\ ed_to e = n.
Proof using Hs.
  intros [nd Hnd]. destruct (side_edges In n nd Hnd) as (es & He & Hin & Hl). exists es.
  split; [|done]. unfold incoming_edges. rewrite Hnd. simpl. f_equal. exact He.
Qed.

Lemma edge_ends e : live_edge s e -> is_Some (get_node s (ed_from e)) /\ is_Some (get_node s (ed_to e)).
Proof using Hs.
  intros He. pose proof (nw_graph _ _ _ (kw_net _ (reachable_kernel_wf s Hs))) as Wg.
  destruct (gw_edge _ Wg _ _ He) as [_ Hends]. split; [exact (Hends Out)|exact (Hends In)].
Qed.

Lemma edge_namespaces e nf nt :
  live_edge s e -> get_node s (ed_from e) = Some nf -> get_node s (ed_to e) = Some nt ->
  nd_namespace_id nf = nd_namespace_id nt.
Proof using Hs. intros He Hf Ht. by eapply (nw_edge_ns _ _ _ (kw_net _ (reachable_kernel_wf s Hs))). Qed.

Lemma node_id n nd : get_node s n = Some nd -> nd_id nd = n.
Proof using Hs. apply (gw_node _ (nw_graph _ _ _ (kw_net _ (reachable_kernel_wf s Hs)))). Qed.

Lemma node_in_range n : is_Some (get_node s n) -> n ∈ seqZ 0 (len (ks_nodes s)).
Proof.
  intros [nd Hn]. apply elem_of_seqZ. unfold get_node, slab_get in Hn.
  destruct (vec_get (ks_nodes s) n) eqn:E; [|done]. apply vec_get_lt in E. lia.
Qed.

(** ** Breadth-first expansion *)
Section Bfs.
Context (seeds : list Z) (D : Z) (HD : 0 <= D).

Definition edges_seen_inv (st : Bfs) : Prop :=
  visited_edges st = list_to_set (ev_id <$> edges_out st)
  /\ NoDup (ev_id <$> edges_out st)
  /\ forall ev, ev ∈ edges_out st -> exists e, live_edge s e /\ ev = edge_view e.

(** [g]: the nodes visited, with the depth that was left; [cur]: the least of them. *)
Record bfs_inv (g : gmap Z Z) (cur : Z) (st : Bfs) : Prop := {
  bi_dom : visited_nodes st = dom g;
  bi_seen : forall v r, g !! v = Some r ->
    (0 <= r /\ cur <= r <= D) /\ exists seed, seed ∈ seeds /\ bsteps (leads_to s) (Z.to_nat (D - r)) seed v;
  bi_queue : forall w r, (w, r) ∈ bfs_queue st ->
    cur - 1 <= r <= cur /\ 0 <= r <= D /\ exists seed, seed ∈ seeds /\ bsteps (leads_to s) (Z.to_nat (D - r)) seed w;
  bi_sorted : StronglySorted Z.ge (bfs_queue st).*2;
  bi_seeds : forall seed, seed ∈ seeds -> g !! seed = Some D \/ (seed, D) ∈ bfs_queue st;
  bi_next : forall v r w, g !! v = Some r -> 0 < r -> leads_to s v w ->
    (exists r', g !! w = Some r' /\ r - 1 <= r') \/ (w, r - 1) ∈ bfs_queue st;
  bi_nodes : NoDup (nv_id <$> nodes_out st)
    /\ forall nv, nv ∈ nodes_out st <-> exists n, get_node s (nd_id n) = Some n /\ nv = node_view n /\ is_Some (g !! nd_id n);
  bi_edges : edges_seen_inv st
    /\ forall e, live_edge s e -> edge_view e ∈ edges_out st <-> exists r, g !! ed_from e = Some r /\ 0 < r;
}.

Lemma live_edge_unique e e' : live_edge s e -> live_edge s e' -> ed_id e = ed_id e' -> e = e'.
Proof. unfold live_edge. intros H1 H2 E. rewrite E in H1. congruence. Qed.

Lemma take_edges_spec rem es : forall st,
  Forall (live_edge s) es -> edges_seen_inv st ->
  let st' := foldl (take_edge rem) st es in
  visited_nodes st' = visited_nodes st /\ nodes_out st' = nodes_out st
  /\ bfs_queue st' = bfs_queue st ++ ((fun e => (ed_to e, rem - 1)) <$> base.filter (fun e => ed_to e ∉ visited_nodes st) es)
  /\ edges_seen_inv st'
  /\ forall ev, ev ∈ edges_out st' <-> ev ∈ edges_out st \/ exists e, e ∈ es /\ ev = edge_view e.
Proof.
  induction es as [|e es IH]; intros st Hl Hi; cbn [foldl]; cbn zeta.
  { split; [done|]. split; [done|]. split; [by rewrite app_nil_r|]. split; [done|]. intros ev. split; [by left|].
    intros [?|(e & He & _)]; [done|by apply elem_of_nil in He]. }
  apply Forall_cons in Hl as [He Hl]. pose proof Hi as (Hv & Hn & Hev).
  assert (edges_seen_inv (take_edge rem st e)
          /\ forall ev, ev ∈ edges_out (take_edge rem st e) <-> ev ∈ edges_out st \/ ev = edge_view e) as [Hi1 Hmem].
  { unfold take_edge. case_bool_decide as Hin.
    - split; [done|]. simpl. intros ev. split; [by left|]. intros [?| ->]; [done|].
      rewrite Hv, elem_of_list_to_set in Hin. apply list_elem_of_fmap in Hin as (ev & Heq & Hin).
      destruct (Hev _ Hin) as (e' & He' & ->). simpl in Heq. by rewrite (live_edge_unique e e').
    - split.
      + split; [|split]; simpl.
        * rewrite Hv, fmap_app, list_to_set_app_L. simpl. set_solver.
        * rewrite fmap_app. apply NoDup_app. split; [done|]. split; [|apply NoDup_singleton].
          intros x Hx Hx'. apply list_elem_of_singleton in Hx' as ->. apply Hin. by rewrite Hv, elem_of_list_to_set.
        * intros ev Hx. apply elem_of_app in Hx as [Hx|Hx]; [by apply Hev|].
          apply list_elem_of_singleton in Hx as ->. by exists e.
      + intros ev. simpl. rewrite elem_of_app, list_elem_of_singleton. done. }
  assert (visited_nodes (take_edge rem st e) = visited_nodes st
          /\ nodes_out (take_edge rem st e) = nodes_out st
          /\ bfs_queue (take_edge rem st e)
             = bfs_queue st ++ if decide (ed_to e ∉ visited_nodes st) then [(ed_to e, rem - 1)] else []) as (E1 & E2 & E3).
  { unfold take_edge. destruct (if bool_decide (ed_id e ∈ visited_edges st) then _ else _) as [ve eo]. simpl.
    do 2 (split; [done|]). destruct (decide (ed_to e ∉ visited_nodes st)) as [Hd|Hd].
    - by rewrite bool_decide_false.
    - rewrite bool_decide_true by (destruct (decide (ed_to e ∈ visited_nodes st)); tauto). by rewrite app_nil_r. }
  destruct (IH _ Hl Hi1) as (F1 & F2 & F3 & F4 & F5).
  split; [congruence|]. split; [congruence|]. split.
  { rewrite F3, E1, E3, <- (assoc_L (++)), filter_cons. f_equal. by destruct (decide _). }
  split; [done|]. intros ev. rewrite F5, Hmem. setoid_rewrite elem_of_cons. naive_solver.
Qed.

(** The pool slots that were not visited yet. *)
Definition unseen (vis : gset Z) : nat := length (base.filter (fun a => a ∉ vis) (seqZ 0 (len (ks_nodes s)))).
Definition bfs_work (st : Bfs) : nat :=
  (length (bfs_queue st) + unseen (visited_nodes st) * S (length (ks_edges s)))%nat.

Lemma unseen_step vis n : n ∉ vis -> is_Some (get_node s n) -> (S (unseen ({[ n ]} ∪ vis)) <= unseen vis)%nat.
Proof.
  intros Hn Hl. apply (filter_shrink _ _ _ n); [set_solver|by apply node_in_range|done|set_solver].
Qed.
Lemma unseen_mono vis n : (unseen ({[ n ]} ∪ vis) <= unseen vis)%nat.
Proof.
  unfold unseen. induction (seqZ 0 (len (ks_nodes s))) as [|x l IH]; [done|]. rewrite !filter_cons.
  destruct (decide (x ∉ {[n]} ∪ vis)); [rewrite decide_True by set_solver; simpl; lia|].
  destruct (decide (x ∉ vis)); simpl; lia.
Qed.
Lemma unseen_le vis : (unseen vis <= length (ks_nodes s))%nat.
Proof.
  unfold unseen. etransitivity; [apply length_filter|]. rewrite length_seqZ. unfold len. lia.
Qed.

Definition drop_head (q : list (Z * Z)) (st : Bfs) : Bfs :=
  mkBfs (visited_nodes st) (visited_edges st) (nodes_out st) (edges_out st) q.

Lemma queue_head g cur st n r q :
  bfs_inv g cur st -> bfs_queue st = (n, r) :: q ->
  (cur - 1 <= r <= cur /\ 0 <= r <= D /\ exists seed, seed ∈ seeds /\ bsteps (leads_to s) (Z.to_nat (D - r)) seed n)
  /\ StronglySorted Z.ge q.*2
  /\ forall w r', (w, r') ∈ q -> r - 1 <= r' <= r /\ 0 <= r' <= D
       /\ exists seed, seed ∈ seeds /\ bsteps (leads_to s) (Z.to_nat (D - r')) seed w.
Proof.
  intros Hi Eq. pose proof (bi_queue _ _ _ Hi n r) as Hh. rewrite Eq in Hh.
  specialize (Hh ltac:(by left)). pose proof (bi_sorted _ _ _ Hi) as Hso. rewrite Eq in Hso.
  inversion_clear Hso as [|? ? Hso' Hf]. split; [done|]. split; [done|]. intros w r' Hw.
  destruct (bi_queue _ _ _ Hi w r') as (H1 & H2 & H3); [rewrite Eq; by right|]. split; [|done].
  rewrite Forall_forall in Hf. assert (r' ∈ q.*2) as Hin by (apply list_elem_of_fmap; by exists (w, r')).
  specialize (Hf _ Hin). simpl in Hf. lia.
Qed.

Lemma pop_seen g cur st n r q :
  bfs_inv g cur st -> bfs_queue st = (n, r) :: q -> n ∈ visited_nodes st -> bfs_inv g r (drop_head q st).
Proof.
  intros Hi Eq Hn. destruct (queue_head g cur st n r q Hi Eq) as ((Hr & Hr0 & _) & Hso & Hq).
  rewrite (bi_dom _ _ _ Hi) in Hn. apply elem_of_dom in Hn as [rn Hn].
  pose proof (proj1 (bi_seen _ _ _ Hi n rn Hn)) as Hrn.
  constructor; try apply Hi; simpl; [|exact Hq|exact Hso| |].
  - intros v rv Hv. destruct (bi_seen _ _ _ Hi v rv Hv) as [? ?]. split; [lia|done].
  - intros seed Hs'. destruct (bi_seeds _ _ _ Hi seed Hs') as [?|Hin]; [by left|].
    rewrite Eq in Hin. apply elem_of_cons in Hin as [[= -> ->]|?]; [|by right]. left. rewrite Hn. f_equal. lia.
  - intros v rv w Hv H0 Hvw. destruct (bi_next _ _ _ Hi v rv w Hv H0 Hvw) as [?|Hin]; [by left|].
    rewrite Eq in Hin. apply elem_of_cons in Hin as [[= -> ->]|?]; [|by right]. left. exists rn. split; [done|lia].
Qed.

Lemma sorted_append (l : list Z) r k :
  StronglySorted Z.ge l -> Forall (fun x => r - 1 <= x) l -> StronglySorted Z.ge (l ++ replicate k (r - 1)).
Proof.
  intros Hs' Hf. induction Hs' as [|x l Hs' IH Hx]; simpl.
  - induction k; simpl; constructor; [done|]. apply Forall_replicate. lia.
  - apply Forall_cons in Hf as [Hf1 Hf2]. constructor; [by apply IH|]. apply Forall_app. split; [done|].
    apply Forall_replicate. lia.
Qed.

Lemma visit_new g cur st st' n r q pushes :
  bfs_inv g cur st -> bfs_queue st = (n, r) :: q -> n ∉ visited_nodes st ->
  visited_nodes st' = {[ n ]} ∪ visited_nodes st ->
  nodes_out st' = nodes_out st ++ match get_node s n with Some nd => [node_view nd] | None => [] end ->
  bfs_queue st' = q ++ ((fun w => (w, r - 1)) <$> pushes) ->
  (forall w, w ∈ pushes -> 0 < r /\ leads_to s n w) ->
  (forall w, 0 < r -> leads_to s n w -> w ∈ visited_nodes st' \/ w ∈ pushes) ->
  edges_seen_inv st' ->
  (forall e, live_edge s e -> edge_view e ∈ edges_out st' <-> edge_view e ∈ edges_out st \/ (ed_from e = n /\ 0 < r)) ->
  bfs_inv (<[n := r]> g) r st'.
Proof using Hs HD.
  intros Hi Eq Hn Ev En Equ Hp1 Hp2 He1 He2.
  destruct (queue_head g cur st n r q Hi Eq) as ((Hr & Hr0 & Hreach) & Hso & Hq).
  rewrite (bi_dom _ _ _ Hi) in Hn, Ev. assert (g !! n = None) as Hgn by by apply not_elem_of_dom.
  assert (forall v rv, <[n := r]> g !! v = Some rv -> (v = n /\ rv = r) \/ (v <> n /\ g !! v = Some rv)) as Hcase.
  { intros v rv Hv. destruct (decide (v = n)) as [->|Hne]; [rewrite lookup_insert_eq in Hv; left; by simplify_eq|].
    rewrite lookup_insert_ne in Hv by done. by right. }
  assert (forall v rv, g !! v = Some rv -> <[n := r]> g !! v = Some rv) as Hkeep.
  { intros v rv Hv. rewrite lookup_insert_ne; [done|]. intros ->. congruence. }
  constructor.
  - by rewrite Ev, dom_insert_L.
  - intros v rv Hv. destruct (Hcase v rv Hv) as [[-> ->]|[_ Hv']]; [split; [lia|done]|].
    destruct (bi_seen _ _ _ Hi v rv Hv') as [? ?]. split; [lia|done].
  - intros w rw Hw. rewrite Equ in Hw. apply elem_of_app in Hw as [Hw|Hw]; [by apply Hq|].
    apply list_elem_of_fmap in Hw as (w' & [= -> ->] & Hw). destruct (Hp1 w' Hw) as [H0 Hl].
    split; [lia|]. split; [lia|]. destruct Hreach as (seed & Hseed & Hb). exists seed. split; [done|].
    replace (Z.to_nat (D - (r - 1))) with (S (Z.to_nat (D - r))) by lia. by eapply bsteps_r.
  - rewrite Equ, fmap_app, <- list_fmap_compose.
    assert (((snd ∘ (fun w : Z => (w, r - 1))) <$> pushes) = replicate (length pushes) (r - 1)) as ->.
    { clear. induction pushes as [|p ps IH]; [done|]. simpl. by rewrite <- IH. }
    apply sorted_append; [done|]. apply Forall_forall. intros x Hx.
    apply list_elem_of_fmap in Hx as ([w rw] & -> & Hx). simpl. apply Hq in Hx. lia.
  - intros seed Hseed. destruct (bi_seeds _ _ _ Hi seed Hseed) as [Hg|Hin]; [left; by apply Hkeep|].
    rewrite Eq in Hin. apply elem_of_cons in Hin as [[= -> ->]|Hin]; [left; by rewrite lookup_insert_eq|].
    right. rewrite Equ. apply elem_of_app. by left.
  - intros v rv w Hv H0 Hvw. destruct (Hcase v rv Hv) as [[-> ->]|[_ Hv']].
    + destruct (Hp2 w H0 Hvw) as [Hin|Hin].
      * left. rewrite Ev in Hin. destruct (decide (w = n)) as [->|Hne].
        { exists r. split; [by rewrite lookup_insert_eq|lia]. }
        apply elem_of_union in Hin as [Hin|Hin]; [by apply elem_of_singleton in Hin|].
        apply elem_of_dom in Hin as [rw Hw]. exists rw. split; [by apply Hkeep|].
        pose proof (proj1 (bi_seen _ _ _ Hi w rw Hw)). lia.
      * right. rewrite Equ. apply elem_of_app. right. apply list_elem_of_fmap. by exists w.
    + destruct (bi_next _ _ _ Hi v rv w Hv' H0 Hvw) as [(r' & Hw & Hle)|Hin]; [left; exists r'; by auto|].
      rewrite Eq in Hin. apply elem_of_cons in Hin as [[= -> <-]|Hin].
      * left. exists (rv - 1). split; [by rewrite lookup_insert_eq|lia].
      * right. rewrite Equ. apply elem_of_app. by left.
  - destruct (bi_nodes _ _ _ Hi) as [Hnd Hmem].
    assert (forall nd, get_node s n = Some nd -> node_view nd ∉ nodes_out st /\ nv_id (node_view nd) = n) as Hfresh.
    { intros nd Hnd'. split; [|by apply (node_id n nd)]. intros Hin. apply Hmem in Hin as (nd2 & H2 & Heq & Hg2).
      assert (nd_id nd2 = n) as E by (pose proof (node_id n nd Hnd') as E1; unfold node_view in Heq; congruence).
      rewrite E, Hgn in Hg2. by destruct Hg2. }
    split.
    + rewrite En. destruct (get_node s n) as [nd|] eqn:Eg; [|by rewrite app_nil_r].
      destruct (Hfresh nd eq_refl) as [_ Hid]. rewrite fmap_app. apply NoDup_app. split; [done|].
      split; [|apply NoDup_singleton]. intros x Hx Hx'. apply list_elem_of_singleton in Hx' as ->.
      rewrite Hid in Hx. apply list_elem_of_fmap in Hx as (nv & Hnv & Hin). apply Hmem in Hin as (nd2 & _ & -> & Hg2).
      simpl in Hnv. rewrite <- Hnv, Hgn in Hg2. by destruct Hg2.
    + intros nv. rewrite En, elem_of_app, Hmem. split.
      * intros [(nd & H1 & H2 & [rv H3])|Hin]; [exists nd; split; [done|split; [done|rewrite (Hkeep _ _ H3); done]]|].
        destruct (get_node s n) as [nd|] eqn:Eg; [|by apply elem_of_nil in Hin].
        apply list_elem_of_singleton in Hin as ->. exists nd. pose proof (node_id n nd Eg) as E. rewrite E.
        split; [done|]. split; [done|]. by rewrite lookup_insert_eq.
      * intros (nd & H1 & -> & H3). destruct (decide (nd_id nd = n)) as [E|Hne].
        -- right. rewrite <- E, H1. by left.
        -- left. exists nd. rewrite lookup_insert_ne in H3 by done. done.
  - split; [done|]. intros e He. rewrite He2 by done. rewrite (proj2 (bi_edges _ _ _ Hi) e He). split.
    + intros [(rv & Hv & H0)|[<- H0]]; [exists rv; by auto|]. exists r. by rewrite lookup_insert_eq.
    + intros (rv & Hv & H0). destruct (Hcase _ _ Hv) as [[-> ->]|[_ Hv']]; [by right|left; by exists rv].
Qed.

Lemma bfs_loop_spec : forall fuel st g cur,
  bfs_inv g cur st -> (bfs_work st < fuel)%nat ->
  exists st' g' cur', bfs_loop fuel s st = Ok (nodes_out st', edges_out st') /\ bfs_inv g' cur' st' /\ bfs_queue st' = [].
Proof using Hs HD.
  induction fuel as [|fuel IH]; intros st g cur Hi Hw; [lia|]. cbn [bfs_loop].
  destruct (bfs_queue st) as [|[n r] q] eqn:Eq; [by exists st, g, cur|].
  case_bool_decide as Hn.
  { apply (IH (drop_head q st) g r); [by eapply pop_seen|]. unfold bfs_work in *. simpl. rewrite Eq in Hw. simpl in Hw. lia. }
  destruct (bi_edges _ _ _ Hi) as [Hei Hem].
  destruct (get_node s n) as [nd|] eqn:En.
  2:{ eapply IH; [eapply (visit_new g cur st _ n r q []); try done; simpl|].
      - by rewrite En, app_nil_r.
      - by rewrite app_nil_r.
      - by intros w Hw'%elem_of_nil.
      - intros w _ (e & He & <- & _). destruct (edge_ends e He) as [[x Hx] _]. congruence.
      - intros e He. split; [by left|]. intros [?|[<- _]]; [done|]. destruct (edge_ends e He) as [[x Hx] _]. congruence.
      - unfold bfs_work in *. simpl. rewrite Eq in Hw. simpl in Hw. pose proof (unseen_mono (visited_nodes st) n). nia. }
  assert (is_Some (get_node s n)) as Hlive by by rewrite En.
  pose proof (unseen_step (visited_nodes st) n Hn Hlive) as Hdec.
  set (st1 := mkBfs _ _ _ _ q). destruct (0 <? r) eqn:Er.
  - destruct (out_edges n Hlive) as (es & -> & Hes & Hlen). cbn [obind].
    assert (Forall (live_edge s) es) as Hf by (apply Forall_forall; intros e He; by apply Hes in He as [? _]).
    destruct (take_edges_spec r es st1 Hf Hei) as (F1 & F2 & F3 & F4 & F5). set (st2 := foldl _ st1 es) in *.
    eapply (IH st2 (<[n := r]> g) r).
    + apply (visit_new g cur st st2 n r q (ed_to <$> base.filter (fun e => ed_to e ∉ visited_nodes st1) es)); try done.
      * by rewrite F2, En.
      * rewrite F3, <- list_fmap_compose. done.
      * intros w Hw'. split; [lia|]. apply list_elem_of_fmap in Hw' as (e & -> & Hin).
        apply list_elem_of_filter in Hin as [_ Hin]. apply Hes in Hin as [He Hfrom]. by exists e.
      * intros w _ (e & He & Hfrom & Hto). rewrite F1.
        destruct (decide (w ∈ visited_nodes st1)) as [?|Hnw]; [by left|]. right.
        apply list_elem_of_fmap. exists e. split; [done|]. apply list_elem_of_filter. split; [by rewrite Hto|].
        by apply Hes.
      * intros e He. rewrite F5. split.
        -- intros [?|(e' & He' & Heq)]; [by left|]. right. split; [|lia].
           apply Hes in He' as [Hl' Hfrom]. assert (e = e') as ->; [|done].
           apply live_edge_unique; [done|done|]. unfold edge_view in Heq. congruence.
        -- intros [?|[Hfrom _]]; [by left|]. right. exists e. split; [by apply Hes|done].
    + unfold bfs_work in *. rewrite F1, F3. rewrite Eq in Hw. simpl in *. rewrite length_app, length_fmap.
      pose proof (length_filter (fun e => ed_to e ∉ {[n]} ∪ visited_nodes st) es). nia.
  - eapply (IH st1 (<[n := r]> g) r).
    + apply (visit_new g cur st st1 n r q []); try done.
      * by rewrite En.
      * simpl. by rewrite app_nil_r.
      * by intros w Hw'%elem_of_nil.
      * lia.
      * intros e He. split; [by left|]. intros [?|[_ ?]]; [done|lia].
    + unfold bfs_work in *. rewrite Eq in Hw. simpl in *. nia.
Qed.

Lemma start_bfs_inv : bfs_inv ∅ D (mkBfs ∅ ∅ [] [] ((fun seed => (seed, D)) <$> seeds)).
Proof using HD.
  constructor; simpl; try done.
  - intros w r Hw. apply list_elem_of_fmap in Hw as (seed & [= -> ->] & Hin). split; [lia|]. split; [lia|].
    exists seed. split; [done|]. rewrite Z.sub_diag. apply bsteps_refl.
  - rewrite <- list_fmap_compose. induction seeds as [|x l IH]; simpl; constructor; [done|].
    apply Forall_forall. intros y Hy. apply list_elem_of_fmap in Hy as (? & -> & _). simpl. lia.
  - intros seed Hin. right. apply list_elem_of_fmap. by exists seed.
  - split; [constructor|]. intros nv. split; [by intros ?%elem_of_nil|]. intros (n & _ & _ & Hg).
    rewrite lookup_empty in Hg. by destruct Hg.
  - split; [split; [done|split; [constructor|by intros ev ?%elem_of_nil]]|]. intros e He.
    split; [by intros ?%elem_of_nil|]. intros (r & Hr & _). by rewrite lookup_empty in Hr.
Qed.

(** When the queue is empty, the depth left at a node is what is left after a
    shortest path. *)
Lemma bfs_complete g cur st seed k v :
  bfs_inv g cur st -> bfs_queue st = [] -> seed ∈ seeds -> bsteps (leads_to s) k seed v -> Z.of_nat k <= D ->
  exists r, g !! v = Some r /\ D - Z.of_nat k <= r.
Proof.
  intros Hi Hq Hseed Hb. revert k v Hb.
  apply (bsteps_ind_r (fun k v => Z.of_nat k <= D -> exists r, g !! v = Some r /\ D - Z.of_nat k <= r) seed).
  - intros n Hn. destruct (bi_seeds _ _ _ Hi seed Hseed) as [Hg|Hin]; [exists D; split; [done|lia]|].
    rewrite Hq in Hin. by apply elem_of_nil in Hin.
  - intros n y z _ Hyz IH Hn. destruct IH as (r & Hr & Hle); [lia|].
    destruct (bi_next _ _ _ Hi y r z Hr) as [(r' & Hr' & Hle')|Hin]; [lia|done| |].
    + exists r'. split; [done|lia].
    + rewrite Hq in Hin. by apply elem_of_nil in Hin.
Qed.
End Bfs.
End State.

(** C37: In every reachable kernel state, expanding a subgraph from any seeds
    ends and returns, each once, exactly the live nodes that some seed reaches
    over at most min(depth, 4) edges, and exactly the live edges whose source some
    seed reaches over one edge less (none for depth 0). *)
Theorem expand_subgraph_exact s seeds depth :
  reachable s -> 0 <= depth ->
  let D := Z.min depth MAX_DEPTH in
  exists ns es, expand_subgraph s seeds depth = Ok (ns, es)
    /\ NoDup (nv_id <$> ns) /\ NoDup (ev_id <$> es)
    /\ (forall nv, nv ∈ ns <-> exists n seed, get_node s (nd_id n) = Some n /\ nv = node_view n
           /\ seed ∈ seeds /\ bsteps (leads_to s) (Z.to_nat D) seed (nd_id n))
    /\ (forall ev, ev ∈ es <-> 1 <= D /\ exists e seed, live_edge s e /\ ev = edge_view e
           /\ seed ∈ seeds /\ bsteps (leads_to s) (Z.to_nat (D - 1)) seed (ed_from e)).
Proof.
  intros Hs Hd D. assert (0 <= D) as HD by (unfold D, MAX_DEPTH; lia).
  destruct (bfs_loop_spec s Hs seeds D HD (S (length seeds + length (ks_nodes s) * S (length (ks_edges s))))
              _ ∅ D (start_bfs_inv s seeds D HD)) as (st & g & cur & Hrun & Hi & Hq).
  { unfold bfs_work. cbn [bfs_queue visited_nodes]. rewrite length_fmap.
    apply Nat.lt_succ_r, Nat.add_le_mono_l, Nat.mul_le_mono_r, unseen_le. }
  exists (nodes_out st), (edges_out st). split; [exact Hrun|].
  destruct (bi_nodes _ _ _ _ _ _ Hi) as [Hn1 Hn2], (bi_edges _ _ _ _ _ _ Hi) as [(He1 & He2 & He3) He4].
  split; [done|]. split; [done|].
  assert (forall v k, (k <= Z.to_nat D)%nat ->
    (exists r, g !! v = Some r /\ D - Z.of_nat k <= r) <-> exists seed, seed ∈ seeds /\ bsteps (leads_to s) k seed v) as Hin.
  { intros v k Hk. split.
    - intros (r & Hr & Hrk). destruct (bi_seen _ _ _ _ _ _ Hi v r Hr) as [Hb (seed & Hseed & Hst)].
      exists seed. split; [done|]. eapply bsteps_weaken; [|exact Hst]. lia.
    - intros (seed & Hseed & Hst). apply (bfs_complete s seeds D g cur st seed k v Hi Hq Hseed Hst). lia. }
  split.
  - intros nv. rewrite Hn2. split.
    + intros (n & H1 & H2 & [r Hr]). destruct (proj1 (Hin (nd_id n) (Z.to_nat D) ltac:(lia))) as (seed & ? & ?); [|by exists n, seed].
      exists r. split; [done|]. pose proof (proj1 (bi_seen _ _ _ _ _ _ Hi _ r Hr)). lia.
    + intros (n & seed & H1 & H2 & Hseed & Hst). exists n. split; [done|]. split; [done|].
      destruct (proj2 (Hin (nd_id n) (Z.to_nat D) ltac:(lia))) as (r & -> & _); [by exists seed|done].
  - intros ev. split.
    + intros Hev. destruct (He3 ev Hev) as (e & He & ->). apply He4 in Hev as (r & Hr & H0); [|done].
      pose proof (proj1 (bi_seen _ _ _ _ _ _ Hi _ r Hr)) as Hb. split; [lia|].
      destruct (proj1 (Hin (ed_from e) (Z.to_nat (D - 1)) ltac:(lia))) as (seed & ? & ?); [|by exists e, seed].
      exists r. split; [done|lia].
    + intros (H1 & e & seed & He & -> & Hseed & Hst). apply (He4 e He).
      destruct (proj2 (Hin (ed_from e) (Z.to_nat (D - 1)) ltac:(lia))) as (r & Hr & Hle); [by exists seed|].
      exists r. split; [done|lia].
Qed.

Lemma expand_subgraph_exact_witness :
  exists ns es, expand_subgraph demo_state [0] 3 = Ok (ns, es)
    /\ (forall nv, nv ∈ ns <-> exists n seed, get_node demo_state (nd_id n) = Some n /\ nv = node_view n
           /\ seed ∈ [0] /\ bsteps (leads_to demo_state) 3 seed (nd_id n)).
Proof.
  destruct (expand_subgraph_exact demo_state [0] 3 demo_state_reachable) as (ns & es & H1 & _ & _ & H2 & _); [lia|].
  exists ns, es. split; [exact H1|exact H2].
Defined.

(** ** Label propagation *)
Section Labels.
Context (s : KernelState) (Hs : reachable s) (ns : option Z).

(** Joined by edges, in either direction. *)
Definition connected : relation Z := rtsc (leads_to s).

Definition labels_inv (labels : gmap Z Z) : Prop :=
  dom labels = list_to_set (community_nodes s ns)
  /\ forall v c, labels !! v = Some c -> c ∈ dom labels /\ connected v c.

Lemma community_node v :
  v ∈ community_nodes s ns <-> exists n, get_node s v = Some n /\ in_filter ns n = true.
Proof using Hs.
  unfold community_nodes, iter_nodes. rewrite list_elem_of_fmap. setoid_rewrite list_elem_of_filter.
  setoid_rewrite list_elem_of_omap. split.
  - intros (n & -> & Hf & o & Ho & Hid). unfold id in Hid. subst o. apply list_elem_of_lookup in Ho as [i Hi].
    assert (get_node s (Z.of_nat i) = Some n) as Hg by (apply slab_get_vec; by rewrite vec_get_nat).
    exists n. by rewrite (node_id s Hs _ _ Hg).
  - intros (n & Hn & Hf). exists n. split; [by rewrite (node_id s Hs _ _ Hn)|]. split; [done|].
    exists (Some n). split; [|done]. apply slab_get_vec, vec_get_Some in Hn as [_ Hn]. by eapply list_elem_of_lookup_2.
Qed.

Lemma neighbours_joined v :
  is_Some (get_node s v) -> exists l, neighbours s v = Ok l /\ forall w, w ∈ l -> connected v w.
Proof using Hs.
  intros Hv. destruct (out_edges s Hs v Hv) as (out & Ho & Hout & _), (in_edges s Hs v Hv) as (inc & Hi & Hinc).
  unfold neighbours. rewrite Ho, Hi. simpl. eexists. split; [done|]. intros w Hw.
  apply elem_of_app in Hw as [Hw|Hw]; apply list_elem_of_fmap in Hw as (e & -> & He).
  - apply Hout in He as [He <-]. apply rtc_once. left. by exists e.
  - apply Hinc in He as [He <-]. apply rtc_once. right. by exists e.
Qed.

Lemma list_min_elem l m : list_min l = Some m -> m ∈ l.
Proof.
  unfold list_min. assert (forall acc, foldl (fun acc x => Some (match acc with Some m => Z.min m x | None => x end)) acc l = Some m ->
    m ∈ l \/ acc = Some m) as Hg; [|intros H; destruct (Hg None H) as [?|?]; done].
  induction l as [|x l IH]; intros acc H; [by right|]. simpl in H. apply IH in H as [H|[= H]]; [left; by right|].
  destruct acc as [a|]; [|left; rewrite H; by left].
  destruct (Z.min_spec a x) as [[_ E]|[_ E]]; rewrite E in H; subst; [by right|left; by left].
Qed.

Lemma best_label_counted freq b : best_label freq = Some b -> b ∈ dom freq.
Proof.
  unfold best_label. intros (m & _ & Hb)%bind_Some. apply list_min_elem, list_elem_of_fmap in Hb as ([k c] & -> & Hin).
  apply list_elem_of_filter in Hin as [_ Hin]. apply elem_of_map_to_list in Hin. simpl. by eapply elem_of_dom_2.
Qed.

Lemma counted_labels labels nbrs : forall freq b,
  b ∈ dom (foldl (count_label labels) freq nbrs) -> b ∈ dom freq \/ exists w, w ∈ nbrs /\ labels !! w = Some b.
Proof.
  induction nbrs as [|w nbrs IH]; intros freq b Hb; [by left|]. simpl in Hb. apply IH in Hb as [Hb|(w' & Hw & Hl)].
  - unfold count_label in Hb. destruct (labels !! w) as [lbl|] eqn:E; [|by left].
    rewrite dom_insert, elem_of_union, elem_of_singleton in Hb. destruct Hb as [-> | Hb]; [|by left].
    right. exists w. split; [by left|done].
  - right. exists w'. split; [by right|done].
Qed.

Lemma relabel_ok labels changed v :
  labels_inv labels -> v ∈ community_nodes s ns ->
  exists labels' changed', relabel s (labels, changed) v = Ok (labels', changed') /\ labels_inv labels'.
Proof using Hs.
  intros [Hd Hl] Hv. pose proof (proj1 (community_node v) Hv) as (n & Hn & _).
  destruct (neighbours_joined v) as (nbrs & Hnb & Hj); [by rewrite Hn|]. unfold relabel. rewrite Hnb. cbn [obind].
  destruct (best_label _) as [b|] eqn:Eb; [|by eexists _, _].
  apply best_label_counted, counted_labels in Eb as [Eb|(w & Hw & Hwb)]; [by rewrite dom_empty in Eb|].
  assert (v ∈ dom labels) as Hvd by by rewrite Hd, elem_of_list_to_set.
  apply elem_of_dom in Hvd as [old Hold]. rewrite Hold. cbn [unwrap obind].
  destruct (old =? b); [by eexists _, _|]. eexists _, _. split; [done|].
  assert (dom (<[v := b]> labels) = dom labels) as Ed.
  { rewrite dom_insert_L. apply elem_of_dom_2 in Hold. set_solver. }
  split; [by rewrite Ed|]. rewrite Ed. destruct (Hl w b Hwb) as [Hbd Hwj]. intros u c Hu.
  apply lookup_insert_Some in Hu as [[<- <-]|[_ Hu]]; [|by apply Hl].
  split; [done|]. etransitivity; [by apply Hj|done].
Qed.

Lemma relabel_all_ok ids : forall st,
  labels_inv st.1 -> Forall (fun v => v ∈ community_nodes s ns) ids ->
  exists st', relabel_all s ids st = Ok st' /\ labels_inv st'.1.
Proof using Hs.
  induction ids as [|v ids IH]; intros [labels changed] Hi Hf; [by eexists|]. apply Forall_cons in Hf as [Hv Hf].
  destruct (relabel_ok labels changed v Hi Hv) as (l' & c' & Hr & Hi'). cbn [relabel_all]. rewrite Hr. cbn [obind].
  by apply IH.
Qed.

Lemma propagate_ok iter : forall labels,
  labels_inv labels -> exists labels', propagate iter s (community_nodes s ns) labels = Ok labels' /\ labels_inv labels'.
Proof using Hs.
  induction iter as [|iter IH]; intros labels Hi; [by eexists|]. cbn [propagate].
  destruct (relabel_all_ok (sort_by_key id (community_nodes s ns)) (labels, false) Hi) as ([l' c'] & Hr & Hi').
  { rewrite (proj1 (sort_by_key_ok id _)). by apply Forall_forall. }
  rewrite Hr. cbn [obind fst snd]. destruct c'; [by apply IH|by eexists].
Qed.

Lemma own_labels : labels_inv (list_to_map ((fun v => (v, v)) <$> community_nodes s ns)).
Proof.
  split.
  - rewrite dom_list_to_map_L, <- list_fmap_compose. f_equal. apply list_fmap_id.
  - intros v c Hv. pose proof Hv as Hc. apply elem_of_list_to_map_2, list_elem_of_fmap in Hv as (x & [= -> ->] & _).
    split; [by eapply elem_of_dom_2|reflexivity].
Qed.
End Labels.

(** In every reachable state label propagation returns, labels exactly the
    nodes of the filter, and gives a node the label of a node of the filter that
    edges, in either direction, connect it to: communities never leave a connected
    component. *)
Theorem label_propagation_sound s ns max_iter :
  reachable s ->
  exists labels, label_propagation s ns max_iter = Ok labels
    /\ (forall v, is_Some (labels !! v) <-> exists n, get_node s v = Some n /\ in_filter ns n = true)
    /\ forall v c, labels !! v = Some c -> is_Some (labels !! c) /\ connected s v c.
Proof.
  intros Hs. assert (exists labels, label_propagation s ns max_iter = Ok labels /\ labels_inv s ns labels) as (labels & Hr & Hd & Hl).
  { pose proof (propagate_ok s Hs ns (Z.to_nat max_iter) _ (own_labels s ns)) as Hp. unfold label_propagation.
    destruct (community_nodes s ns) eqn:E; [|exact Hp]. exists ∅. split; [done|].
    split; [by rewrite E, dom_empty_L|]. intros v c Hv. by rewrite lookup_empty in Hv. }
  exists labels. split; [done|]. setoid_rewrite <- elem_of_dom. split; [|done]. intros v.
  by rewrite Hd, elem_of_list_to_set, community_node.
Qed.

Lemma label_propagation_sound_witness :
  exists labels, label_propagation demo_state (Some 2) DEFAULT_MAX_ITER = Ok labels
    /\ (forall v, is_Some (labels !! v) <-> exists n, get_node demo_state v = Some n /\ in_filter (Some 2) n = true)
    /\ forall v c, labels !! v = Some c -> is_Some (labels !! c) /\ connected demo_state v c.
Proof. apply (label_propagation_sound demo_state (Some 2) DEFAULT_MAX_ITER demo_state_reachable). Defined.

(** ** Receipts of assignments *)
Definition assignment_typed (a : gmap Z Z) : Prop := map_Forall (fun v c => in_u32 v /\ in_u32 c) a.

Lemma u32_bytes_inj v w : in_u32 v -> in_u32 w -> le_bytes 4 v = le_bytes 4 w -> v = w.
Proof. intros Hv Hw E. apply le_bytes_inj in E. change (256 ^ Z.of_nat 4) with (2 ^ 32) in E. rewrite !Z.mod_small in E; int_lia. Qed.

Lemma pair_bytes_inj (p q : Z * Z) :
  in_u32 p.1 /\ in_u32 p.2 -> in_u32 q.1 /\ in_u32 q.2 ->
  le_bytes 4 p.1 ++ le_bytes 4 p.2 = le_bytes 4 q.1 ++ le_bytes 4 q.2 -> p = q.
Proof.
  destruct p, q. cbn [fst snd]. intros [? ?] [? ?] E. apply app_inj_1 in E as [E1 E2]; [|by rewrite !length_le_bytes].
  f_equal; by apply u32_bytes_inj.
Qed.

Lemma map_inj_typed {A B} (P : A -> Prop) (f : A -> B) l l' :
  (forall x y, P x -> P y -> f x = f y -> x = y) -> Forall P l -> Forall P l' -> f <$> l = f <$> l' -> l = l'.
Proof.
  intros Hf Hl. revert l'. induction Hl as [|x l Hx _ IH]; intros [|y l'] Hl' E; try done.
  apply Forall_cons in Hl' as [Hy Hl']. injection E as E1 E2. f_equal; by auto.
Qed.

Lemma sorted_assignments_perm a : sorted_assignments a ≡ₚ map_to_list a.
Proof. apply sort_by_key_ok. Qed.

Lemma community_input_inj a a' : assignment_typed a -> assignment_typed a' -> community_input a = community_input a' -> a = a'.
Proof.
  intros Ha Ha' E. apply map_to_list_inj. rewrite <- !sorted_assignments_perm.
  assert (forall b, assignment_typed b -> Forall (fun p => in_u32 p.1 /\ in_u32 p.2) (sorted_assignments b)) as Ht.
  { intros b Hb. rewrite sorted_assignments_perm. apply map_Forall_to_list in Hb.
    eapply Forall_impl; [exact Hb|]. by intros []. }
  apply concat_inj_width with (n := 8%nat) in E;
    [|lia|apply Forall_fmap, Forall_forall; intros p _; reflexivity..].
  by rewrite (map_inj_typed _ _ _ _ pair_bytes_inj (Ht a Ha) (Ht a' Ha') E).
Qed.

(** Two community stores with the same receipt hold the same assignments, or
    two of the messages hashed for them collide, whatever states they were built
    from. *)
Theorem community_receipt_binds blake3 s s' a a' :
  (forall m, hash_typed (blake3 m)) -> assignment_typed a -> assignment_typed a' ->
  community_receipt (build_community_store blake3 s a) = community_receipt (build_community_store blake3 s' a') ->
  a = a' \/ collision blake3 [community_input a; community_input a'].
Proof.
  intros Hb Ha Ha' E. simpl in E. destruct (Hb (community_input a)) as [H1 L1], (Hb (community_input a')) as [H2 L2].
  assert (hex (blake3 (community_input a)) ++ [] = hex (blake3 (community_input a')) ++ []) as E' by by rewrite E.
  apply hex_app_inj in E' as [E' _]; [|done|done|congruence].
  destruct (blake3_inj blake3 _ _ E') as [Ei|]; [left; by apply community_input_inj|by right].
Qed.

Lemma community_receipt_binds_witness :
  let a : gmap Z Z := {[ 0 := 0; 1 := 0; 2 := 2 ]} in a = a \/ collision demo_hash [community_input a; community_input a].
Proof.
  intros a. assert (assignment_typed a) as Ha by (repeat (apply map_Forall_insert_2; [int_lia|]); apply map_Forall_empty).
  exact (community_receipt_binds demo_hash demo_state KernelState_new a a demo_hash_typed Ha Ha eq_refl).
Defined.
