(* ===== verification/Metadata.v ===== *)
(** * Projects and collections of the metadata database

    Models, of [crates/valori-metadata/src], [project.rs] and the project and
    collection tables of [db.rs] (the planner cache is in [Planner]).  A redb
    table is a finite map iterated in the order of its keys, its transactions
    commit; the JSON of the rows is the class [MetadataJson].  Paths are lists of
    bytes. *)

From Stdlib Require Import String.
From stdpp Require Import gmap.
From S2P Require Import Prelude.
From S2P Require Import Core.
From S2P Require Import Registry.
From S2P Require Import HostIndex.
From S2P Require Import Planner.
From S2P Require Import Chunker.
From S2P Require Import Pipeline.

(** ** Projects (project.rs) *)
Inductive ProjectIndex : Type := IBrute | IHnsw | IIvf | IBq | IAuto.
Definition index_text (k : ProjectIndex) : list Z :=
  ascii_bytes (match k with IBrute => "brute" | IHnsw => "hnsw" | IIvf => "ivf" | IBq => "bq" | IAuto => "auto" end).
Definition index_from_str (s : list Z) : outcome (list Z) ProjectIndex :=
  let equals p := bool_decide (s = ascii_bytes p) in
  if equals "brute"%string || equals "bruteforce"%string then Ok IBrute
  else if equals "hnsw"%string then Ok IHnsw
  else if equals "ivf"%string then Ok IIvf
  else if equals "bq"%string then Ok IBq
  else if equals "auto"%string || equals "mstg"%string then Ok IAuto
  else Err (ascii_bytes "Unknown index kind: " ++ s).

Inductive ProjectMode : Type := Standalone | Cluster.
Record ClusterNodeConfig : Type := mkNodeConfig { cn_node_id : Z; cn_http_port : Z; cn_raft_port : Z }.
Record Project : Type := mkProject {
  pj_name : list Z;
  pj_dir : list Z;
  pj_port : Z;
  pj_dim : Z;
  pj_index : ProjectIndex;
  pj_shard_count : Z;
  pj_node_count : Z;
  pj_mode : ProjectMode;
  pj_created_at : Z;
  pj_last_opened_at : option Z;
  pj_record_count : option Z;
  pj_nodes : list ClusterNodeConfig;
}.

(** [dir.join(file)] of a relative file name. *)
Definition join_path (dir file : list Z) : list Z :=
  if bool_decide (dir = []) || bool_decide (last dir = Some 47) then dir ++ file else dir ++ [47] ++ file.
Definition event_log_path (p : Project) (shard_id : Z) : list Z :=
  if pj_shard_count p <=? 1 then join_path (pj_dir p) (ascii_bytes "events.log")
  else join_path (pj_dir p) (ascii_bytes "events-shard" ++ decimal shard_id ++ ascii_bytes ".log").
Definition snapshot_path (p : Project) : list Z := join_path (pj_dir p) (ascii_bytes "current.snap").

(** ** The tables (db.rs) *)
Class MetadataJson : Type := {
  project_to_json : Project -> list Z;
  project_of_json : list Z -> option Project;
  collection_to_json : Collection -> list Z;
  collection_of_json : list Z -> option Collection;
}.
Class MetadataJsonLaws `{MetadataJson} : Prop := {
  project_json_ok p : project_of_json (project_to_json p) = Some p;
  collection_json_ok c : collection_of_json (collection_to_json c) = Some c;
}.

Abbreviation Table := (gmap (list Z) (list Z)).
Record MetadataDb : Type := mkDb { db_projects : Table; db_collections : Table }.

(** The order of keys. *)
Fixpoint key_leb (a b : list Z) : bool :=
  match a, b with
  | [], _ => true
  | _ :: _, [] => false
  | x :: a, y :: b => (x <? y) || ((x =? y) && key_leb a b)
  end.
Definition rows (t : Table) : list (list Z * list Z) := sort_scored (fun a b => key_leb a.1 b.1) (map_to_list t).

(** [serde_json::from_slice(v)?] of every row, in order. *)
Fixpoint parse_rows {A} (parse : list Z -> option A) (l : list (list Z)) : outcome unit (list A) :=
  match l with
  | [] => Ok []
  | v :: l =>
      match parse v with
      | None => Err tt
      | Some x => do* xs := parse_rows parse l in Ok (x :: xs)
      end
  end.
Definition get_row {A} (parse : list Z -> option A) (key : list Z) (t : Table) : outcome unit (option A) :=
  match t !! key with
  | None => Ok None
  | Some v => match parse v with Some x => Ok (Some x) | None => Err tt end
  end.

Section Db.
Context `{MetadataJson}.

Definition upsert_project (p : Project) (db : MetadataDb) : MetadataDb :=
  mkDb (<[pj_name p := project_to_json p]> (db_projects db)) (db_collections db).
Definition get_project (name : list Z) (db : MetadataDb) : outcome unit (option Project) :=
  get_row project_of_json name (db_projects db).
Definition list_projects (db : MetadataDb) : outcome unit (list Project) :=
  parse_rows project_of_json (rows (db_projects db)).*2.
Definition delete_project (name : list Z) (db : MetadataDb) : MetadataDb * bool :=
  (mkDb (delete name (db_projects db)) (db_collections db), bool_decide (is_Some (db_projects db !! name))).

Definition collection_key (project collection : list Z) : list Z := project ++ [47] ++ collection.
Definition upsert_collection (c : Collection) (db : MetadataDb) : MetadataDb :=
  mkDb (db_projects db)
    (<[collection_key (col_project c) (col_name c) := collection_to_json c]> (db_collections db)).
Definition get_collection (project name : list Z) (db : MetadataDb) : outcome unit (option Collection) :=
  get_row collection_of_json (collection_key project name) (db_collections db).
Definition list_project_collections (project : list Z) (db : MetadataDb) : outcome unit (list Collection) :=
  let prefix := project ++ [47] in
  parse_rows collection_of_json
    (base.filter (fun r : list Z * list Z => prefix `prefix_of` r.1) (rows (db_collections db))).*2.
Definition delete_collection (project name : list Z) (db : MetadataDb) : MetadataDb * bool :=
  let key := collection_key project name in
  (mkDb (db_projects db) (delete key (db_collections db)), bool_decide (is_Some (db_collections db !! key))).

(** [next_id] is a [u16]. *)
Definition register_collection (reg : CollectionRegistry) (c : Collection) : CollectionRegistry :=
  mkRegistry (<[col_name c := col_namespace_id c]> (reg_map reg))
    (if reg_next_id reg <=? col_namespace_id c then (col_namespace_id c + 1) mod 65536 else reg_next_id reg).
Definition load_collection_registry (project : list Z) (db : MetadataDb) : outcome unit CollectionRegistry :=
  do* cols := list_project_collections project db in Ok (foldl register_collection registry_new cols).
End Db.

(** ** Theorems *)
Lemma index_text_parses k : index_from_str (index_text k) = Ok k.
Proof. by destruct k. Qed.

(** Keys of projects without a slash name their project and collection. *)
Lemma slash_inj p q a b : (47 : Z) ∉ p -> (47 : Z) ∉ q -> p ++ 47 :: a = q ++ 47 :: b -> p = q /\ a = b.
Proof.
  revert q. induction p as [|x p IH]; intros [|y q] Hp Hq E; simpl in E.
  - by injection E.
  - injection E as <- _. destruct Hq. by left.
  - injection E as -> _. destruct Hp. by left.
  - apply not_elem_of_cons in Hp as [_ Hp], Hq as [_ Hq]. injection E as -> E. destruct (IH q Hp Hq E) as [-> ->]. done.
Qed.

Lemma key_prefix p q n : (47 : Z) ∉ p -> (47 : Z) ∉ q -> (p ++ [47]) `prefix_of` collection_key q n <-> q = p.
Proof.
  intros Hp Hq. unfold collection_key. split; [|intros ->; exists n; by rewrite <- app_assoc].
  intros [k E]. rewrite <- app_assoc in E. simpl in E. by destruct (slash_inj q p n k Hq Hp E).
Qed.

Lemma parse_rows_ok {A} (parse : list Z -> option A) (put : A -> list Z) (xs : list A) :
  (forall x, parse (put x) = Some x) -> parse_rows parse (put <$> xs) = Ok xs.
Proof. intros Hp. induction xs as [|x xs IH]; [done|]. cbn [fmap list_fmap parse_rows]. by rewrite Hp, IH. Qed.

(** Rows that are a permutation of encoded values parse to a permutation of them. *)
Lemma parse_rows_perm {A B} (parse : list Z -> option A) (put : A -> list Z) (g : B -> list Z * list Z) (f : B -> A)
    (l : list (list Z * list Z)) (bs : list B) :
  (forall x, parse (put x) = Some x) -> (forall b, (g b).2 = put (f b)) -> l ≡ₚ g <$> bs ->
  exists xs, parse_rows parse l.*2 = Ok xs /\ xs ≡ₚ f <$> bs.
Proof.
  intros Hp Hg Hl. destruct (Permutation_map_inv g bs Hl) as (bs' & -> & Hb).
  exists (f <$> bs'). split; [|by rewrite Hb].
  rewrite <- (parse_rows_ok parse put (f <$> bs') Hp). f_equal. rewrite <- !list_fmap_compose. apply list_fmap_ext.
  intros i b _. apply Hg.
Qed.

Section MetadataTheorems.
Context `{MetadataJsonLaws}.

Inductive DbOp : Type :=
| UpsertProject (p : Project)
| DeleteProject (name : list Z)
| UpsertCollection (c : Collection)
| DeleteCollection (project name : list Z).

Definition db_do (db : MetadataDb) (op : DbOp) : MetadataDb :=
  match op with
  | UpsertProject p => upsert_project p db
  | DeleteProject n => (delete_project n db).1
  | UpsertCollection c => upsert_collection c db
  | DeleteCollection p n => (delete_collection p n db).1
  end.

(** The specification: two maps. *)
Definition Catalog : Type := gmap (list Z) Project * gmap (list Z * list Z) Collection.
Definition catalog_do (s : Catalog) (op : DbOp) : Catalog :=
  match op with
  | UpsertProject p => (<[pj_name p := p]> s.1, s.2)
  | DeleteProject n => (delete n s.1, s.2)
  | UpsertCollection c => (s.1, <[(col_project c, col_name c) := c]> s.2)
  | DeleteCollection p n => (s.1, delete (p, n) s.2)
  end.
Definition write_ok (op : DbOp) : Prop :=
  match op with
  | UpsertCollection c => (47 : Z) ∉ col_project c
  | DeleteCollection p _ => (47 : Z) ∉ p
  | _ => True
  end.

Definition row_of (x : (list Z * list Z) * Collection) : list Z * list Z :=
  (collection_key x.1.1 x.1.2, collection_to_json x.2).

Record db_inv (db : MetadataDb) (s : Catalog) : Prop := {
  di_projects : db_projects db = project_to_json <$> s.1;
  di_slash p n c : s.2 !! (p, n) = Some c -> (47 : Z) ∉ p /\ col_name c = n;
  di_rows p n : (47 : Z) ∉ p -> db_collections db !! collection_key p n = collection_to_json <$> s.2 !! (p, n);
  di_only k v : db_collections db !! k = Some v -> exists x, s.2 !! x.1 = Some x.2 /\ (k, v) = row_of x;
}.

Lemma key_eq p n q m : (47 : Z) ∉ p -> (47 : Z) ∉ q -> collection_key p n = collection_key q m -> (p, n) = (q, m).
Proof. intros Hp Hq E. destruct (slash_inj p q n m Hp Hq E) as [-> ->]. done. Qed.

Lemma db_step db s op : db_inv db s -> write_ok op -> db_inv (db_do db op) (catalog_do s op).
Proof.
  intros [Hp Hs Hr Ho] Hok. destruct op as [p|name|c|p name]; cbn [db_do catalog_do write_ok] in *; split; simpl; try done.
  - by rewrite Hp, fmap_insert.
  - by rewrite Hp, fmap_delete.
  - intros p n c' Hc. apply lookup_insert_Some in Hc as [[[= <- <-] <-]|[_ Hc]]; [done|by apply Hs].
  - intros p n Hp'. destruct (decide ((col_project c, col_name c) = (p, n))) as [[= <- <-]|Hne].
    + by rewrite !lookup_insert_eq.
    + rewrite !lookup_insert_ne; [by apply Hr|done|]. intros E. apply Hne. by apply key_eq.
  - intros k v Hk. apply lookup_insert_Some in Hk as [[<- <-]|[Hne Hk]].
    + exists ((col_project c, col_name c), c). by rewrite lookup_insert_eq.
    + destruct (Ho k v Hk) as ([[q m] c'] & Hx & Hrow). exists ((q, m), c'). split; [|done].
      rewrite lookup_insert_ne; [done|]. intros [= <- <-]. injection Hrow as -> _. done.
  - intros q n c' Hc. apply lookup_delete_Some in Hc as [_ Hc]. by apply Hs.
  - intros q n Hq. destruct (decide ((p, name) = (q, n))) as [[= <- <-]|Hne].
    + by rewrite !lookup_delete_eq.
    + rewrite !lookup_delete_ne; [by apply Hr|done|]. intros E. apply Hne. by apply key_eq.
  - intros k v Hk. apply lookup_delete_Some in Hk as [Hne Hk].
    destruct (Ho k v Hk) as ([[q m] c'] & Hx & Hrow). exists ((q, m), c'). split; [|done].
    rewrite lookup_delete_ne; [done|]. intros [= <- <-]. injection Hrow as -> _. done.
Qed.

Lemma db_history ops : forall db s, db_inv db s -> Forall write_ok ops -> db_inv (foldl db_do db ops) (foldl catalog_do s ops).
Proof. induction ops as [|op ops IH]; intros db s Hi Ho; [done|]. inversion_clear Ho. apply IH; [by apply db_step|done]. Qed.

Lemma empty_db_inv : db_inv (mkDb ∅ ∅) (∅, ∅).
Proof. split; simpl; try done; intros; by rewrite ?lookup_empty in *. Qed.

Lemma collection_rows db s : db_inv db s -> map_to_list (db_collections db) ≡ₚ row_of <$> map_to_list s.2.
Proof.
  intros [_ Hs Hr Ho]. apply NoDup_Permutation; [apply NoDup_map_to_list| |].
  - apply NoDup_fmap_2_strong; [|apply NoDup_map_to_list].
    intros [[p n] c] [[q m] c'] H1 H2 E. apply elem_of_map_to_list in H1, H2. injection E as E _.
    destruct (Hs _ _ _ H1) as [Hp _], (Hs _ _ _ H2) as [Hq _]. pose proof (key_eq _ _ _ _ Hp Hq E) as [= -> ->]. congruence.
  - intros [k v]. rewrite elem_of_map_to_list, list_elem_of_fmap. split.
    + intros Hk. destruct (Ho k v Hk) as (x & Hx & Hrow). exists x. split; [done|]. destruct x as [x c]. by apply elem_of_map_to_list.
    + intros ([[p n] c] & [= -> ->] & Hin). apply elem_of_map_to_list in Hin. destruct (Hs _ _ _ Hin) as [Hp _].
      simpl. by rewrite Hr, Hin.
Qed.

Definition of_project (p : list Z) (x : (list Z * list Z) * Collection) : Prop := x.1.1 = p.
#[local] Instance of_project_dec p x : Decision (of_project p x).
Proof. unfold of_project. apply _. Defined.
Definition catalog_collections (p : list Z) (s : Catalog) : list Collection :=
  (base.filter (of_project p) (map_to_list s.2)).*2.

Lemma filter_rows p (l : list ((list Z * list Z) * Collection)) :
  (47 : Z) ∉ p -> (forall x, x ∈ l -> (47 : Z) ∉ x.1.1) ->
  base.filter (fun r : list Z * list Z => (p ++ [47]) `prefix_of` r.1) (row_of <$> l) = row_of <$> base.filter (of_project p) l.
Proof using.
  intros Hp. induction l as [|[[q n] c] l IH]; intros Hl; [done|]. rewrite fmap_cons, !filter_cons, IH by (intros x Hx; apply Hl; by right).
  assert ((47 : Z) ∉ q) as Hq by (apply (Hl ((q, n), c)); by left).
  destruct (decide (of_project p ((q, n), c))) as [E|E]; unfold of_project in E; simpl in E.
  - rewrite decide_True; [done|]. by apply key_prefix.
  - rewrite decide_False; [done|]. intros Hx. apply key_prefix in Hx; done.
Qed.

Lemma list_project_collections_spec db s p :
  db_inv db s -> (47 : Z) ∉ p -> exists l, list_project_collections p db = Ok l /\ l ≡ₚ catalog_collections p s.
Proof.
  intros Hi Hp. unfold list_project_collections, catalog_collections.
  apply (parse_rows_perm collection_of_json collection_to_json row_of snd); [apply collection_json_ok|done|].
  rewrite <- (filter_rows p) by (done || (intros [[q n] c] Hin; apply elem_of_map_to_list in Hin; by apply (di_slash _ _ Hi) in Hin as [? _])).
  unfold rows. by rewrite sort_scored_perm, (collection_rows db s Hi).
Qed.

(** Registering collections with distinct names. *)
Lemma register_all cols : forall reg,
  NoDup (col_name <$> cols) -> (forall c, c ∈ cols -> reg_map reg !! col_name c = None) ->
  Forall (fun c => 0 <= col_namespace_id c < 65535) cols -> map_Forall (fun _ id => id < reg_next_id reg) (reg_map reg) ->
  let reg' := foldl register_collection reg cols in
  (forall n id, reg_map reg' !! n = Some id
     <-> reg_map reg !! n = Some id \/ exists c, c ∈ cols /\ col_name c = n /\ col_namespace_id c = id)
  /\ map_Forall (fun _ id => id < reg_next_id reg') (reg_map reg').
Proof using.
  induction cols as [|c cols IH]; intros reg Hn Hnew Hid Hb; cbn [foldl]; cbn zeta.
  { split; [|done]. intros n id. split; [by left|]. intros [?|(c & ?%elem_of_nil & _)]; done. }
  rewrite fmap_cons in Hn. apply NoDup_cons in Hn as [Hc Hn]. apply Forall_cons in Hid as [Hid0 Hid].
  destruct (IH (register_collection reg c)) as [H1 H2]; [done| |done| |].
  - intros c' Hc'. simpl. rewrite lookup_insert_ne; [apply Hnew; by right|]. intros E. apply Hc, list_elem_of_fmap. by exists c'.
  - intros n id Hl. simpl in *. apply lookup_insert_Some in Hl as [[_ <-]|[_ Hl]].
    + destruct (reg_next_id reg <=? col_namespace_id c) eqn:E; [rewrite Z.mod_small by lia|]; lia.
    + specialize (Hb n id Hl). simpl in Hb. destruct (reg_next_id reg <=? col_namespace_id c) eqn:E; [rewrite Z.mod_small by lia|]; lia.
  - split; [|done]. intros n id. rewrite H1. simpl. setoid_rewrite elem_of_cons. split.
    + intros [Hl|(c' & ? & ? & ?)]; [|right; exists c'; by auto].
      apply lookup_insert_Some in Hl as [[<- <-]|[_ Hl]]; [right; exists c; by auto|by left].
    + intros [Hl|(c' & [-> |Hin] & <- & <-)].
      * left. rewrite lookup_insert_ne; [done|]. intros <-. rewrite Hnew in Hl; [done|by left].
      * left. by rewrite lookup_insert_eq.
      * right. by exists c'.
Qed.

(** After any history of writes to the project and collection tables, with
    project names free of slashes, lookups and lists return exactly what was
    written last and not deleted, and the registry of a project maps its
    collections to their namespaces with a next id above all of them (ids below
    65535). *)
Theorem catalog_history_exact ops :
  Forall write_ok ops ->
  let db := foldl db_do (mkDb ∅ ∅) ops in
  let s := foldl catalog_do (∅, ∅) ops in
  (forall name, get_project name db = Ok (s.1 !! name))
  /\ (exists l, list_projects db = Ok l /\ l ≡ₚ (map_to_list s.1).*2)
  /\ forall p, (47 : Z) ∉ p ->
       (forall n, get_collection p n db = Ok (s.2 !! (p, n)))
       /\ (exists l, list_project_collections p db = Ok l /\ l ≡ₚ catalog_collections p s)
       /\ ((forall n c, s.2 !! (p, n) = Some c -> 0 <= col_namespace_id c < 65535) ->
           exists reg, load_collection_registry p db = Ok reg
             /\ (forall n id, reg_map reg !! n = Some id <-> exists c, s.2 !! (p, n) = Some c /\ col_namespace_id c = id)
             /\ forall n id, reg_map reg !! n = Some id -> id < reg_next_id reg).
Proof.
  intros Ho db s. assert (db_inv db s) as Hi by (apply db_history; [apply empty_db_inv|done]).
  split; [|split].
  - intros name. unfold get_project, get_row. rewrite (di_projects _ _ Hi), lookup_fmap.
    destruct (s.1 !! name) as [p|]; [|done]. simpl. by rewrite project_json_ok.
  - apply (parse_rows_perm project_of_json project_to_json (fun x => (x.1, project_to_json x.2)) snd); [apply project_json_ok|done|].
    unfold rows. rewrite sort_scored_perm, (di_projects _ _ Hi), map_to_list_fmap. apply reflexive_eq, list_fmap_ext. by intros i [] ?.
  - intros p Hp. destruct (list_project_collections_spec db s p Hi Hp) as (l & Hl & Hperm). split; [|split].
    + intros n. unfold get_collection, get_row. rewrite (di_rows _ _ Hi) by done.
      destruct (s.2 !! (p, n)) as [c|]; [|done]. simpl. by rewrite collection_json_ok.
    + by exists l.
    + intros Hid. unfold load_collection_registry. rewrite Hl. cbn [obind]. eexists. split; [done|].
      assert (forall c, c ∈ l <-> s.2 !! (p, col_name c) = Some c) as Hmem.
      { intros c. rewrite Hperm. unfold catalog_collections. rewrite list_elem_of_fmap. split.
        - intros ([[q n] c'] & -> & Hin). apply list_elem_of_filter in Hin as [E Hin]. unfold of_project in E. simpl in E. subst q.
          apply elem_of_map_to_list in Hin. destruct (di_slash _ _ Hi _ _ _ Hin) as [_ E]. simpl. by rewrite E.
        - intros Hc. exists ((p, col_name c), c). split; [done|]. apply list_elem_of_filter. split; [done|]. by apply elem_of_map_to_list. }
      destruct (register_all l registry_new) as [H1 H2]; [| |apply Forall_forall|apply map_Forall_empty|].
      * rewrite Hperm. unfold catalog_collections. rewrite <- list_fmap_compose. apply NoDup_fmap_2_strong; [|apply NoDup_filter, NoDup_map_to_list].
        intros [[q n] c] [[q' n'] c'] Hx Hy E. apply list_elem_of_filter in Hx as [E1 Hx], Hy as [E2 Hy].
        unfold of_project in *. simpl in E, E1, E2. subst q q'. apply elem_of_map_to_list in Hx, Hy.
        destruct (di_slash _ _ Hi _ _ _ Hx) as [_ Ex], (di_slash _ _ Hi _ _ _ Hy) as [_ Ey]. simplify_eq. congruence.
      * intros c _. apply lookup_empty.
      * intros c Hc. apply Hmem in Hc. by eapply Hid.
      * split; [|exact H2]. intros n id. rewrite H1. setoid_rewrite Hmem. split.
        -- intros [Hl0|(c & Hc & <- & <-)]; [cbn in Hl0; by rewrite lookup_empty in Hl0|]. by exists c.
        -- intros (c & Hc & <-). right. exists c. destruct (di_slash _ _ Hi _ _ _ Hc) as [_ <-]. done.
Qed.
End MetadataTheorems.

(** ** A concrete database: JSON replaced by an injective numbering *)
Definition project_parts (p : Project) :=
  ((pj_name p, pj_dir p, pj_port p, pj_dim p, index_text (pj_index p), pj_shard_count p),
   (pj_node_count p, match pj_mode p with Standalone => true | Cluster => false end, pj_created_at p, pj_last_opened_at p,
    pj_record_count p, (fun n => (cn_node_id n, cn_http_port n, cn_raft_port n)) <$> pj_nodes p)).
Definition project_of_parts (x : (list Z * list Z * Z * Z * list Z * Z)
                                 * (Z * bool * Z * option Z * option Z * list (Z * Z * Z))) : option Project :=
  let '((name, dir, port, dim, index, shards), (nodes, mode, created, opened, count, configs)) := x in
  match index_from_str index with
  | Ok k => Some (mkProject name dir port dim k shards nodes (if mode then Standalone else Cluster) created opened count
                    ((fun '(a, b, c) => mkNodeConfig a b c) <$> configs))
  | _ => None
  end.
#[local] Instance demo_metadata_json : MetadataJson := {|
  project_to_json p := [Zpos (encode (project_parts p))];
  project_of_json v := match v with [Zpos n] => decode n ≫= project_of_parts | _ => None end;
  collection_to_json c := [Zpos (encode (col_name c, col_project c, col_namespace_id c, col_created_at c))];
  collection_of_json v :=
    match v with
    | [Zpos n] => x ← decode n; let '(a, b, c, d) := x in Some (mkCollection a b c d)
    | _ => None
    end;
|}.
#[local] Instance demo_metadata_laws : MetadataJsonLaws.
Proof.
  split.
  - intros [name dir port dim k shards nodes mode created opened count configs]. cbn [project_of_json project_to_json demo_metadata_json].
    rewrite decode_encode. simpl. rewrite index_text_parses, <- list_fmap_compose.
    assert (((fun '(a, b, c) => mkNodeConfig a b c) ∘ (fun n => (cn_node_id n, cn_http_port n, cn_raft_port n))) <$> configs = configs) as ->.
    { induction configs as [|[] configs IH]; [done|]. simpl. f_equal. exact IH. }
    by destruct mode.
  - intros []. cbn [collection_of_json collection_to_json demo_metadata_json]. by rewrite decode_encode.
Qed.

Definition demo_collection (project name : list Z) (id : Z) : Collection := mkCollection name project id 0.
Definition two_projects : list DbOp :=
  [UpsertCollection (demo_collection [97] [98; 47; 99] 1); UpsertCollection (demo_collection [98] [99] 7)].

Lemma catalog_history_exact_witness :
  forall n, get_collection [97] n (foldl db_do (mkDb ∅ ∅) two_projects)
    = Ok ((foldl catalog_do (∅, ∅) two_projects).2 !! ([97], n)).
Proof.
  refine (proj1 (proj2 (proj2 (catalog_history_exact two_projects _)) [97] _)).
  - repeat constructor; simpl; by rewrite list_elem_of_singleton.
  - by rewrite list_elem_of_singleton.
Defined.

(** Collection "b/c" of project "a" and collection "c" of project "a/b" share a
    row. *)
Theorem slash_merges_projects :
  let db := foldl db_do (mkDb ∅ ∅) [UpsertCollection (demo_collection [97] [98; 47; 99] 1);
                                   UpsertCollection (demo_collection [97; 47; 98] [99] 2)] in
  get_collection [97] [98; 47; 99] db = Ok (Some (demo_collection [97; 47; 98] [99] 2)).
Proof. vm_compute. reflexivity. Qed.

(** The collections of project "a/b" are listed and registered as those of "a". *)
Theorem slash_lists_other_project :
  list_project_collections [97] (upsert_collection (demo_collection [97; 47; 98] [99] 2) (mkDb ∅ ∅))
  = Ok [demo_collection [97; 47; 98] [99] 2].
Proof. vm_compute. reflexivity. Qed.

(** A collection with the last namespace id makes the next id wrap to 0, the id
    of the default namespace. *)
Theorem last_namespace_wraps :
  (do* reg := load_collection_registry [97] (upsert_collection (demo_collection [97] [98] 65535) (mkDb ∅ ∅)) in
   Ok (reg_next_id reg)) = Ok 0.
Proof. vm_compute. reflexivity. Qed.
