(* ===== verification/ApiKeys.v ===== *)
(** * API keys and the authentication guard

    Models [crates/valori-node/src/api_keys.rs] (scopes, the key store with its
    file, the scope a request needs) and, of [server.rs] and [cluster_server.rs],
    the guard in front of every protected route and the key handlers.

    Texts are lists of bytes.  What the system's random source and clock return
    are arguments; the JSON of the key file is the class [KeyJson]; [values] is
    the order in which the hash map yields its records.  File writes succeed. *)

From Stdlib Require Import String.
From stdpp Require Import gmap.
From S2P Require Import Prelude.
From S2P Require Import Core.
From S2P Require Import Bytes.
From S2P Require Import StateProof.
From S2P Require Import Wire.
From S2P Require Import WireTheorems.
From S2P Require Import EventLog.
From S2P Require Import EventLogTheorems.
From S2P Require Import EventCommit.
From S2P Require Import Planner.
From S2P Require Import PlannerTheorems.

(** ** Scopes *)
Inductive ApiScope : Type := ReadOnly | ReadWrite | Admin.
#[export] Instance ApiScope_eq_dec : EqDecision ApiScope.
Proof. solve_decision. Defined.

Definition satisfies (self required : ApiScope) : bool :=
  match required with
  | ReadOnly => true
  | ReadWrite => match self with ReadWrite | Admin => true | ReadOnly => false end
  | Admin => match self with Admin => true | _ => false end
  end.

Definition scope_text (s : ApiScope) : list Z :=
  ascii_bytes (match s with ReadOnly => "read_only" | ReadWrite => "read_write" | Admin => "admin" end).

(** ** Records *)
Record ApiKeyRecord : Type := mkKeyRecord {
  ak_id : list Z;
  ak_scope : ApiScope;
  ak_collection : option (list Z);
  ak_description : option (list Z);
  ak_created_at : Z;
  ak_token_hash : list Z;
  ak_prefix : list Z;
}.
Record ApiKeyCreated : Type := mkKeyCreated {
  kc_id : list Z;
  kc_token : list Z;
  kc_scope : ApiScope;
  kc_collection : option (list Z);
  kc_description : option (list Z);
  kc_created_at : Z;
}.
Record ApiKeyMasked : Type := mkKeyMasked {
  km_id : list Z;
  km_scope : ApiScope;
  km_collection : option (list Z);
  km_description : option (list Z);
  km_created_at : Z;
  km_prefix : list Z;
}.
Definition masked (r : ApiKeyRecord) : ApiKeyMasked :=
  mkKeyMasked (ak_id r) (ak_scope r) (ak_collection r) (ak_description r) (ak_created_at r) (ak_prefix r).

(** ** The store; [ks_file] is the directory it lives in *)
Record KeyStore : Type := mkKeyStore {
  by_hash : gmap (list Z) ApiKeyRecord;
  id_to_hash : gmap (list Z) (list Z);
  key_path : option name;
  key_fs : Fs;
}.

Class KeyJson : Type := {
  encode_keys : list ApiKeyRecord -> list Z;
  decode_keys : list Z -> option (list ApiKeyRecord);
}.
Class KeyJsonLaws `{KeyJson} : Prop := decode_encode_keys l : decode_keys (encode_keys l) = Some l.

(** What the system hands to one creation: two random blocks, the nanoseconds
    within the second and the seconds of the clock. *)
Record KeyEntropy : Type := mkEntropy {
  token_random : list Z;
  id_random : list Z;
  subsec_nanos : Z;
  unix_secs : Z;
}.

Section Keys.
Context (blake3 : list Z -> list Z) `{KeyJson} (values : gmap (list Z) ApiKeyRecord -> list ApiKeyRecord).

Definition hash_token (token : list Z) : list Z := blake3 token.
Definition generate_token (raw : list Z) : list Z := ascii_bytes "vk_" ++ hex raw.
Definition simple_id (seed : list Z) (t : Z) : list Z :=
  ascii_bytes "key_" ++ take 16 (hex (blake3 (seed ++ le_bytes 4 t))).

Definition load_record (ks : KeyStore) (r : ApiKeyRecord) : KeyStore :=
  mkKeyStore (<[ak_token_hash r := r]> (by_hash ks)) (<[ak_id r := ak_token_hash r]> (id_to_hash ks))
    (key_path ks) (key_fs ks).
Definition keys_load (ks : KeyStore) : KeyStore :=
  match key_path ks with
  | None => ks
  | Some path =>
      match key_fs ks !! path with
      | None => ks
      | Some data =>
          match decode_keys data with
          | None => ks
          | Some records => foldl load_record ks records
          end
      end
  end.
Definition KeyStore_new (path : option name) (fs : Fs) : KeyStore := keys_load (mkKeyStore ∅ ∅ path fs).

(** Write to [path.with_extension("tmp")], then rename. *)
Definition keys_save (ks : KeyStore) : KeyStore :=
  match key_path ks with
  | None => ks
  | Some path =>
      let json := encode_keys (values (by_hash ks)) in
      let tmp := with_extension path (ascii_bytes "tmp") in
      mkKeyStore (by_hash ks) (id_to_hash ks) (key_path ks)
        (<[path := json]> (delete tmp (<[tmp := json]> (key_fs ks))))
  end.

Definition store_is_empty (ks : KeyStore) : bool := bool_decide (by_hash ks = ∅).
Definition key_lookup (raw_token : list Z) (ks : KeyStore) : option ApiKeyRecord :=
  by_hash ks !! hash_token raw_token.

Definition new_record (scope : ApiScope) (collection description : option (list Z)) (e : KeyEntropy) : ApiKeyRecord :=
  let raw := generate_token (token_random e) in
  mkKeyRecord (simple_id (id_random e) (subsec_nanos e)) scope collection description (unix_secs e)
    (hash_token raw) (take 8 raw).
Definition key_create (scope : ApiScope) (collection description : option (list Z)) (e : KeyEntropy)
    (ks : KeyStore) : KeyStore * ApiKeyCreated :=
  let r := new_record scope collection description e in
  let ks := mkKeyStore (<[ak_token_hash r := r]> (by_hash ks)) (<[ak_id r := ak_token_hash r]> (id_to_hash ks))
              (key_path ks) (key_fs ks) in
  (keys_save ks, mkKeyCreated (ak_id r) (generate_token (token_random e)) scope collection description (unix_secs e)).

Definition key_revoke (id : list Z) (ks : KeyStore) : KeyStore * bool :=
  match id_to_hash ks !! id with
  | Some hash =>
      (keys_save (mkKeyStore (delete hash (by_hash ks)) (delete id (id_to_hash ks)) (key_path ks) (key_fs ks)), true)
  | None => (ks, false)
  end.

Definition key_list (ks : KeyStore) : list ApiKeyMasked := sort_by_key km_created_at (masked <$> values (by_hash ks)).

(** ** The scope of a request *)
Definition text_ends_with (suffix s : list Z) : bool := starts_with (reverse suffix) (reverse s).
Definition GET : list Z := ascii_bytes "GET".

Definition required_scope (method path : list Z) : ApiScope :=
  let equals p := bool_decide (path = ascii_bytes p) in
  let begins p := starts_with (ascii_bytes p) path in
  if begins "/v1/keys"%string || begins "/v1/snapshot"%string || begins "/v1/storage"%string
     || begins "/v1/replication"%string
  then Admin
  else if equals "/search"%string || text_ends_with (ascii_bytes "/search") path || begins "/v1/memory/search"%string
          || begins "/v1/proof"%string || equals "/timeline"%string || equals "/v1/timeline"%string || equals "/health"%string
          || equals "/metrics"%string || equals "/version"%string
  then ReadOnly
  else if bool_decide (method = GET) then ReadOnly
  else ReadWrite.

(** ** The guard *)
Record AuthState : Type := mkAuth { key_store : KeyStore; legacy_token : option (list Z) }.
Definition has_any_auth (a : AuthState) : bool :=
  match legacy_token a with Some _ => true | None => negb (store_is_empty (key_store a)) end.

(** [HeaderValue::to_str] accepts visible ASCII and tabs. *)
Definition header_str (v : list Z) : option (list Z) :=
  if forallb (fun b => (32 <=? b) && (b <? 127) || (b =? 9)) v then Some v else None.
Definition text_strip_prefix (p s : list Z) : option (list Z) :=
  if starts_with p s then Some (drop (length p) s) else None.
Definition bearer (header : option (list Z)) : option (list Z) :=
  v ← header; s ← header_str v; text_strip_prefix (ascii_bytes "Bearer ") s.

Inductive Guard : Type := Pass | UNAUTHORIZED | FORBIDDEN.
Definition auth_guard_v2 (a : AuthState) (method path : list Z) (header : option (list Z)) : Guard :=
  if negb (has_any_auth a) then Pass
  else
    match bearer header with
    | None => UNAUTHORIZED
    | Some token =>
        match key_lookup token (key_store a) with
        | Some record => if satisfies (ak_scope record) (required_scope method path) then Pass else FORBIDDEN
        | None =>
            match legacy_token a with
            | Some legacy => if bool_decide (token = legacy) then Pass else UNAUTHORIZED
            | None => UNAUTHORIZED
            end
        end
    end.

(** ** The key routes behind the guard *)
Inductive KeyRequest : Type :=
| CreateKey (scope : ApiScope) (collection description : option (list Z)) (e : KeyEntropy)
| ListKeys
| RevokeKey (id : list Z).
Inductive KeyResponse : Type :=
| Created (c : ApiKeyCreated)
| Listed (keys : list ApiKeyMasked)
| NoContent
| NotFoundStatus
| Denied (g : Guard).

Definition request_method (r : KeyRequest) : list Z :=
  match r with
  | CreateKey _ _ _ _ => ascii_bytes "POST"
  | ListKeys => GET
  | RevokeKey _ => ascii_bytes "DELETE"
  end.
Definition request_path (r : KeyRequest) : list Z :=
  match r with
  | RevokeKey id => ascii_bytes "/v1/keys/" ++ id
  | _ => ascii_bytes "/v1/keys"
  end.

Definition create_key_handler scope collection description e (a : AuthState) : AuthState * KeyResponse :=
  let '(ks, created) := key_create scope collection description e (key_store a) in
  (mkAuth ks (legacy_token a), Created created).
Definition list_keys_handler (a : AuthState) : AuthState * KeyResponse := (a, Listed (key_list (key_store a))).
Definition revoke_key_handler (id : list Z) (a : AuthState) : AuthState * KeyResponse :=
  let '(ks, found) := key_revoke id (key_store a) in
  (mkAuth ks (legacy_token a), if found then NoContent else NotFoundStatus).

Definition serve_key_request (header : option (list Z)) (r : KeyRequest) (a : AuthState) : AuthState * KeyResponse :=
  match auth_guard_v2 a (request_method r) (request_path r) header with
  | Pass =>
      match r with
      | CreateKey scope collection description e => create_key_handler scope collection description e a
      | ListKeys => list_keys_handler a
      | RevokeKey id => revoke_key_handler id a
      end
  | g => (a, Denied g)
  end.
End Keys.

(** ** Theorems *)
Section KeyTheorems.
Context (blake3 : list Z -> list Z) `{KeyJsonLaws} (values : gmap (list Z) ApiKeyRecord -> list ApiKeyRecord).
Hypothesis values_perm : forall m, values m ≡ₚ (map_to_list m).*2.

Lemma key_routes_admin r : required_scope (request_method r) (request_path r) = Admin.
Proof.
  unfold required_scope. replace (starts_with (ascii_bytes "/v1/keys") (request_path r)) with true; [done|].
  destruct r as [| |id]; try done.
Qed.

(** Who may use the key routes: the bearer of an admin key or of the static
    token. *)
Definition privileged (a : AuthState) (header : option (list Z)) : Prop :=
  exists token, bearer header = Some token
    /\ ((exists r, key_lookup blake3 token (key_store a) = Some r /\ ak_scope r = Admin)
        \/ (key_lookup blake3 token (key_store a) = None /\ legacy_token a = Some token)).

(** C39: While any authentication is configured, a request to create, list or
    revoke keys passes the guard if and only if it carries the bearer token of an
    admin key, or the static token where that is not also the token of an issued
    key; every other request is refused and leaves the key store, its file and the
    static token as they were. *)
Theorem key_routes_guarded header r a :
  has_any_auth a = true ->
  (privileged a header /\ auth_guard_v2 blake3 a (request_method r) (request_path r) header = Pass)
  \/ (~ privileged a header /\ exists g, g <> Pass /\ serve_key_request blake3 values header r a = (a, Denied g)).
Proof using.
  intros Ha. unfold serve_key_request, auth_guard_v2. rewrite Ha, key_routes_admin. cbn [negb].
  destruct (bearer header) as [token|] eqn:Eb.
  2:{ right. split; [by intros (t & Ht & _); congruence|]. by exists UNAUTHORIZED. }
  destruct (key_lookup blake3 token (key_store a)) as [rec|] eqn:El.
  - destruct (ak_scope rec) eqn:Es; cbn [satisfies].
    1,2: right; split; [|by exists FORBIDDEN]; intros (t & Ht & [(r' & Hr & Hs)|[Hn _]]); rewrite Eb in Ht; simplify_eq; congruence.
    left. split; [|done]. exists token. split; [done|]. left. by exists rec.
  - destruct (legacy_token a) as [legacy|] eqn:Eg.
    + case_bool_decide as Hl.
      * left. split; [|done]. exists token. split; [done|]. right. by subst legacy.
      * right. split; [|by exists UNAUTHORIZED]. intros (t & Ht & [(r' & Hr & Hs)|[Hn Hg]]); rewrite Eb in Ht; simplify_eq; congruence.
    + right. split; [|by exists UNAUTHORIZED]. intros (t & Ht & [(r' & Hr & Hs)|[Hn Hg]]); rewrite Eb in Ht; simplify_eq; congruence.
Qed.

(** *** Histories of a key store with restarts *)
Inductive KeyOp : Type :=
| KCreate (scope : ApiScope) (collection description : option (list Z)) (e : KeyEntropy)
| KRevoke (id : list Z)
| KRestart.

Definition key_do (ks : KeyStore) (op : KeyOp) : KeyStore :=
  match op with
  | KCreate scope c d e => (key_create blake3 values scope c d e ks).1
  | KRevoke id => (key_revoke values id ks).1
  | KRestart => KeyStore_new (key_path ks) (key_fs ks)
  end.

(** The specification: the keys by id. *)
Definition valid_do (m : gmap (list Z) ApiKeyRecord) (op : KeyOp) : gmap (list Z) ApiKeyRecord :=
  match op with
  | KCreate scope c d e => let r := new_record blake3 scope c d e in <[ak_id r := r]> m
  | KRevoke id => delete id m
  | KRestart => m
  end.
Definition issued (op : KeyOp) : list ApiKeyRecord :=
  match op with KCreate scope c d e => [new_record blake3 scope c d e] | _ => [] end.
Definition distinct_keys (rs : list ApiKeyRecord) : Prop := NoDup (ak_id <$> rs) /\ NoDup (ak_token_hash <$> rs).

Record store_holds (ks : KeyStore) (rs : list ApiKeyRecord) : Prop := {
  sh_hash h r : by_hash ks !! h = Some r <-> r ∈ rs /\ ak_token_hash r = h;
  sh_id id h : id_to_hash ks !! id = Some h <-> exists r, r ∈ rs /\ ak_id r = id /\ ak_token_hash r = h;
}.

Lemma distinct_perm rs rs' : rs ≡ₚ rs' -> distinct_keys rs -> distinct_keys rs'.
Proof. intros Hp [H1 H2]. split; by rewrite <- Hp. Qed.

Lemma distinct_cons r rs :
  distinct_keys (r :: rs) <-> distinct_keys rs /\ forall r', r' ∈ rs -> ak_id r' <> ak_id r /\ ak_token_hash r' <> ak_token_hash r.
Proof.
  unfold distinct_keys. rewrite !fmap_cons, !NoDup_cons, !list_elem_of_fmap. split.
  - intros [[H1 H2] [H3 H4]]. split; [done|]. intros r' Hr. split; intros E; [apply H1|apply H3]; by exists r'.
  - intros [[H2 H4] Hr]. repeat split; try done; intros (r' & E & Hin); destruct (Hr r' Hin); congruence.
Qed.

(** Adding a record to a store, in memory. *)
Lemma load_holds ks rs r :
  store_holds ks rs -> distinct_keys (r :: rs) -> store_holds (load_record ks r) (r :: rs).
Proof.
  intros [Hh Hi] [_ Hd]%distinct_cons. split; simpl.
  - intros h r'. rewrite lookup_insert_Some, Hh, elem_of_cons. split.
    + intros [[<- <-]|[Hne [Hin Eh]]]; [by auto|]. by auto.
    + intros [[-> |Hin] Eh]; [by left|]. right. split; [|done]. destruct (Hd _ Hin). congruence.
  - intros id h. rewrite lookup_insert_Some, Hi. setoid_rewrite elem_of_cons. split.
    + intros [[<- <-]|[Hne (r' & Hin & E1 & E2)]]; [exists r; by auto|]. exists r'. by auto.
    + intros (r' & [-> |Hin] & E1 & E2); [by left|]. right. destruct (Hd _ Hin). split; [congruence|]. by exists r'.
Qed.

Lemma loads_hold l : forall ks rs,
  store_holds ks rs -> distinct_keys (l ++ rs) -> store_holds (foldl load_record ks l) (l ++ rs).
Proof.
  induction l as [|r l IH]; intros ks rs Hs Hd; [done|]. cbn [foldl].
  assert ((r :: l) ++ rs ≡ₚ l ++ r :: rs) as Hp by (simpl; by rewrite Permutation_middle).
  assert (store_holds (foldl load_record (load_record ks r) l) (l ++ r :: rs)) as [Hh Hi].
  { apply IH; [|by eapply distinct_perm]. apply load_holds; [done|].
    change ((r :: l) ++ rs) with (r :: (l ++ rs)) in Hd. apply distinct_cons in Hd as [Hd Hr].
    apply distinct_cons. split.
    - destruct Hd as [H1 H2]. rewrite fmap_app in H1, H2. apply NoDup_app in H1 as (_ & _ & ?), H2 as (_ & _ & ?). by split.
    - intros r' Hin. apply Hr. apply elem_of_app. by right. }
  split; [setoid_rewrite Hp; exact Hh|setoid_rewrite Hp; exact Hi].
Qed.

Lemma load_path l ks : key_path (foldl load_record ks l) = key_path ks /\ key_fs (foldl load_record ks l) = key_fs ks.
Proof. revert ks. induction l as [|r l IH]; intros ks; [done|]. simpl. apply (IH (load_record ks r)). Qed.

(** The order of the hash map yields each record once. *)
Lemma values_holds ks rs : store_holds ks rs -> distinct_keys rs -> values (by_hash ks) ≡ₚ rs.
Proof using values_perm.
  intros [Hh _] [_ Hd]. rewrite values_perm. apply NoDup_Permutation.
  - apply NoDup_fmap_2_strong; [|apply NoDup_map_to_list].
    intros [h r] [h' r'] H1 H2 E. simpl in E. subst r'. apply elem_of_map_to_list, Hh in H1 as [_ <-], H2 as [_ <-]. done.
  - by eapply NoDup_fmap_1.
  - intros r. rewrite list_elem_of_fmap. split.
    + intros ([h r'] & -> & Hin). by apply elem_of_map_to_list, Hh in Hin as [? _].
    + intros Hin. exists (ak_token_hash r, r). split; [done|]. apply elem_of_map_to_list, Hh. done.
Qed.

Definition file_holds (path : name) (ks : KeyStore) (rs : list ApiKeyRecord) : Prop :=
  key_path ks = Some path
  /\ match key_fs ks !! path with
     | None => rs = []
     | Some data => exists l, data = encode_keys l /\ l ≡ₚ rs
     end.

Lemma save_holds path ks rs :
  key_path ks = Some path -> store_holds ks rs -> distinct_keys rs ->
  store_holds (keys_save values ks) rs /\ file_holds path (keys_save values ks) rs.
Proof using values_perm.
  intros Hp Hs Hd. unfold keys_save, file_holds. rewrite Hp. simpl. split; [destruct Hs; by split|]. split; [done|].
  rewrite lookup_insert_eq. eexists. split; [done|]. by apply values_holds.
Qed.

Lemma restart_holds path ks rs :
  file_holds path ks rs -> distinct_keys rs ->
  let ks' := KeyStore_new (key_path ks) (key_fs ks) in store_holds ks' rs /\ file_holds path ks' rs.
Proof using H0.
  intros [Hp Hf] Hd. cbn zeta. unfold KeyStore_new, keys_load. rewrite Hp. cbn [key_path key_fs].
  assert (forall p fs, store_holds (mkKeyStore ∅ ∅ p fs) []) as He.
  { intros p fs. split; simpl; intros; rewrite lookup_empty; (split; [done|]).
    - by intros [?%elem_of_nil _].
    - by intros (? & ?%elem_of_nil & _). }
  unfold file_holds. destruct (key_fs ks !! path) as [data|] eqn:Ef.
  - destruct Hf as (l & -> & Hl). rewrite decode_encode_keys.
    pose proof (loads_hold l _ [] (He (Some path) (key_fs ks))) as Hh. rewrite app_nil_r in Hh.
    destruct Hh as [Hh Hi]; [eapply distinct_perm; [|exact Hd]; by rewrite Hl|].
    split; [split; setoid_rewrite <- Hl; done|].
    destruct (load_path l (mkKeyStore ∅ ∅ (Some path) (key_fs ks))) as [-> ->]. simpl. rewrite Ef. split; [done|]. by exists l.
  - subst rs. split; [apply He|]. simpl. by rewrite Ef.
Qed.

(** The live records, by id, are what store and file hold. *)
Definition live_keys (m : gmap (list Z) ApiKeyRecord) : list ApiKeyRecord := (map_to_list m).*2.
Definition ids_match (m : gmap (list Z) ApiKeyRecord) : Prop := map_Forall (fun id r => ak_id r = id) m.

Lemma live_key m r : ids_match m -> r ∈ live_keys m <-> m !! ak_id r = Some r.
Proof.
  intros Hm. unfold live_keys. rewrite list_elem_of_fmap. split.
  - intros ([id r'] & -> & Hin). apply elem_of_map_to_list in Hin. simpl. by rewrite (Hm id r' Hin).
  - intros Hr. exists (ak_id r, r). split; [done|]. by apply elem_of_map_to_list.
Qed.

Lemma live_keys_distinct m (rs : list ApiKeyRecord) :
  ids_match m -> (forall r, r ∈ live_keys m -> r ∈ rs) -> distinct_keys rs -> distinct_keys (live_keys m).
Proof.
  intros Hm Hsub [_ Hd].
  assert (NoDup (ak_id <$> live_keys m)) as Hid.
  { unfold live_keys. rewrite <- list_fmap_compose.
    replace ((ak_id ∘ snd) <$> map_to_list m) with ((map_to_list m).*1); [apply NoDup_fst_map_to_list|].
    apply list_fmap_ext. intros i [id r] Hin. simpl. symmetry. apply Hm, elem_of_map_to_list. by eapply list_elem_of_lookup_2. }
  split; [done|]. apply NoDup_fmap_2_strong; [|by eapply NoDup_fmap_1].
  intros r r' Hr%Hsub Hr'%Hsub E. apply list_elem_of_lookup in Hr as [i Hi], Hr' as [j Hj].
  assert (i = j) as ->; [|congruence].
  eapply (NoDup_lookup (ak_token_hash <$> rs)); [done|by rewrite list_lookup_fmap, Hi|rewrite list_lookup_fmap, Hj; simpl; by rewrite E].
Qed.

Definition keys_inv (path : name) (ks : KeyStore) (m : gmap (list Z) ApiKeyRecord) (rs : list ApiKeyRecord) : Prop :=
  ids_match m /\ (forall r, r ∈ live_keys m -> r ∈ rs) /\ store_holds ks (live_keys m) /\ file_holds path ks (live_keys m).

Lemma store_holds_perm ks rs rs' : rs ≡ₚ rs' -> store_holds ks rs -> store_holds ks rs'.
Proof. intros Hp [Hh Hi]. split; setoid_rewrite <- Hp; done. Qed.

Lemma create_inv path ks m rs scope c d e :
  keys_inv path ks m rs -> distinct_keys (rs ++ [new_record blake3 scope c d e]) ->
  keys_inv path (key_do ks (KCreate scope c d e)) (valid_do m (KCreate scope c d e)) (rs ++ [new_record blake3 scope c d e]).
Proof using values_perm.
  intros (Hm & Hsub & Hs & [Hp Hf]) Hd. cbn [key_do valid_do]. set (r := new_record blake3 scope c d e) in *.
  assert (distinct_keys (r :: rs)) as Hd' by (eapply distinct_perm; [|exact Hd]; by rewrite Permutation_app_comm).
  apply distinct_cons in Hd' as [Hd' Hr].
  assert (m !! ak_id r = None) as Hnew.
  { destruct (m !! ak_id r) as [r'|] eqn:E; [|done]. exfalso. pose proof (Hm _ _ E) as Eid.
    destruct (Hr r') as [Hne _]; [|done]. apply Hsub, live_key; [done|]. by rewrite Eid. }
  assert (live_keys (<[ak_id r := r]> m) ≡ₚ r :: live_keys m) as Hl.
  { unfold live_keys. by rewrite map_to_list_insert. }
  assert (distinct_keys (r :: live_keys m)) as Hdl.
  { apply distinct_cons. split; [by eapply live_keys_distinct|]. intros r' Hin. by apply Hr, Hsub. }
  split; [by apply map_Forall_insert_2|]. split.
  { intros r' Hin. rewrite Hl in Hin. apply elem_of_app. apply elem_of_cons in Hin as [-> |Hin]; [right; by left|left; by apply Hsub]. }
  destruct (save_holds path (load_record ks r) (live_keys (<[ak_id r := r]> m))) as [H1 H2]; [done| | |by split].
  - eapply store_holds_perm; [by symmetry|]. by apply load_holds.
  - eapply distinct_perm; [by symmetry|done].
Qed.

Lemma revoke_inv path ks m rs id :
  keys_inv path ks m rs -> distinct_keys rs ->
  keys_inv path (key_do ks (KRevoke id)) (valid_do m (KRevoke id)) rs
  /\ (key_revoke values id ks).2 = bool_decide (is_Some (m !! id)).
Proof using values_perm.
  intros (Hm & Hsub & Hs & [Hp Hf]) Hd. cbn [key_do valid_do]. unfold key_revoke.
  destruct (id_to_hash ks !! id) as [h|] eqn:Eh.
  2:{ assert (m !! id = None) as Hn.
      { destruct (m !! id) as [r|] eqn:E; [|done]. exfalso. assert (id_to_hash ks !! id = Some (ak_token_hash r)); [|congruence].
        apply (sh_id _ _ Hs). exists r. pose proof (Hm _ _ E) as Eid. split; [|done]. apply live_key; [done|]. by rewrite Eid. }
      rewrite Hn. split; [|done]. rewrite delete_id by done. done. }
  apply (sh_id _ _ Hs) in Eh as (r & Hr & <- & <-). apply live_key in Hr; [|done]. rewrite Hr. split; [|done]. cbn [fst].
  assert (live_keys m ≡ₚ r :: live_keys (delete (ak_id r) m)) as Hl.
  { unfold live_keys. rewrite <- (insert_delete_id m _ _ Hr) at 1. by rewrite map_to_list_insert by apply lookup_delete_eq. }
  pose proof (live_keys_distinct m rs Hm Hsub Hd) as Hdl. eapply distinct_perm in Hdl; [|exact Hl].
  apply distinct_cons in Hdl as [Hdl Hne].
  split; [by apply map_Forall_delete|]. split; [intros r' Hin; apply Hsub; rewrite Hl; by right|].
  apply save_holds; [done| |done]. apply (store_holds_perm _ _ _ Hl) in Hs as [Hh Hi]. split; simpl.
  - intros h r'. rewrite lookup_delete_Some, Hh, elem_of_cons. split; [by intros (? & [-> |?] & ?)|].
    intros [Hin Eh]. split; [|by auto]. destruct (Hne r' Hin). congruence.
  - intros i h. rewrite lookup_delete_Some, Hi. setoid_rewrite elem_of_cons. split.
    + intros (Hi1 & r' & [-> |?] & ? & ?); [done|]. by exists r'.
    + intros (r' & Hin & E1 & E2). destruct (Hne r' Hin). split; [congruence|]. exists r'. by auto.
Qed.

Lemma history_inv path fs ops :
  fs !! path = None -> distinct_keys (ops ≫= issued) ->
  keys_inv path (foldl key_do (KeyStore_new (Some path) fs) ops) (foldl valid_do ∅ ops) (ops ≫= issued).
Proof using values_perm H0.
  intros Hfs. induction ops as [|op ops IH] using rev_ind; intros Hd.
  - assert (file_holds path (mkKeyStore ∅ ∅ (Some path) fs) []) as Hf by (split; [done|]; simpl; by rewrite Hfs).
    destruct (restart_holds path _ [] Hf) as [H1 H2]; [split; constructor|].
    split; [apply map_Forall_empty|]. split; [by intros r ?%elem_of_nil|]. by split.
  - rewrite !foldl_snoc, bind_app in *. cbn [mbind list_bind] in *. rewrite app_nil_r in *.
    assert (distinct_keys (ops ≫= issued)) as Hd0.
    { destruct Hd as [H1 H2]. rewrite fmap_app in H1, H2. apply NoDup_app in H1 as (? & _ & _), H2 as (? & _ & _). by split. }
    specialize (IH Hd0). destruct op as [scope c d e|id|]; cbn [issued] in *.
    + by apply create_inv.
    + rewrite app_nil_r. by apply revoke_inv.
    + rewrite app_nil_r. destruct IH as (H1 & H2 & H3 & H4).
      destruct (restart_holds path _ _ H4) as [H5 H6]; [by eapply live_keys_distinct|]. cbn [key_do valid_do]. by split.
Qed.

(** C38: A key store on a file, after any history of creations, revocations
    and restarts from the file (ids and token hashes issued are distinct, the file
    did not exist at first, writes succeed), holds exactly the keys created and
    not revoked: a presented token is found if and only if it hashes to the hash
    of such a key, revoking an id succeeds if and only if it is one, the list
    shows exactly these keys, and the store is empty if and only if there are
    none. A revoked key stays dead across restarts. *)
Theorem key_history_exact path fs ops :
  fs !! path = None -> distinct_keys (ops ≫= issued) ->
  let ks := foldl key_do (KeyStore_new (Some path) fs) ops in
  let m := foldl valid_do ∅ ops in
  (forall token r, key_lookup blake3 token ks = Some r <-> m !! ak_id r = Some r /\ ak_token_hash r = hash_token blake3 token)
  /\ (forall id, (key_revoke values id ks).2 = bool_decide (is_Some (m !! id)))
  /\ key_list values ks ≡ₚ masked <$> (map_to_list m).*2
  /\ store_is_empty ks = bool_decide (m = ∅).
Proof using values_perm H0.
  intros Hfs Hd ks m. pose proof (history_inv path fs ops Hfs Hd) as Hi. fold ks m in Hi. pose proof Hi as (Hm & Hsub & Hs & Hf).
  split; [|split; [|split]].
  - intros token r. unfold key_lookup. by rewrite (sh_hash _ _ Hs), live_key.
  - intros id. by apply (revoke_inv path ks m _ id Hi).
  - unfold key_list. rewrite (proj1 (sort_by_key_ok km_created_at _)). apply fmap_Permutation.
    apply values_holds; [done|]. by eapply live_keys_distinct.
  - unfold store_is_empty. apply bool_decide_ext. split; intros E.
    + apply map_empty. intros id. destruct (m !! id) as [r|] eqn:Er; [|done]. exfalso. pose proof (Hm _ _ Er) as Eid.
      assert (by_hash ks !! ak_token_hash r = Some r) as Hc by (apply (sh_hash _ _ Hs); split; [|done]; apply live_key; [done|]; by rewrite Eid).
      by rewrite E, lookup_empty in Hc.
    + apply map_empty. intros h. destruct (by_hash ks !! h) as [r|] eqn:Er; [|done]. exfalso.
      apply (sh_hash _ _ Hs) in Er as [Hr _]. apply live_key in Hr; [|done]. by rewrite E, lookup_empty in Hr.
Qed.
End KeyTheorems.

(** ** A concrete store: JSON replaced by an injective numbering *)
Definition scope_code (s : ApiScope) : nat := match s with ReadOnly => 0 | ReadWrite => 1 | Admin => 2 end.
Definition scope_of_code (n : nat) : option ApiScope :=
  match n with O => Some ReadOnly | 1%nat => Some ReadWrite | 2%nat => Some Admin | _ => None end.
#[export] Instance ApiScope_countable : Countable ApiScope.
Proof. apply (inj_countable scope_code scope_of_code). by intros []. Defined.
#[export] Instance ApiKeyRecord_eq_dec : EqDecision ApiKeyRecord.
Proof. solve_decision. Defined.
#[export] Instance ApiKeyRecord_countable : Countable ApiKeyRecord.
Proof.
  apply (inj_countable'
           (fun r => (ak_id r, ak_scope r, ak_collection r, ak_description r, ak_created_at r, ak_token_hash r, ak_prefix r))
           (fun '(a, b, c, d, e, f, g) => mkKeyRecord a b c d e f g)).
  by intros [].
Defined.

#[local] Instance demo_key_json : KeyJson := {|
  encode_keys l := [Zpos (encode l)];
  decode_keys data := match data with [Zpos p] => decode p | _ => None end;
|}.
#[local] Instance demo_key_laws : KeyJsonLaws.
Proof. intros l. simpl. apply decode_encode. Qed.

Module KeyDemo.
Definition in_order (m : gmap (list Z) ApiKeyRecord) : list ApiKeyRecord := (map_to_list m).*2.
Definition entropy (n : Z) : KeyEntropy := mkEntropy (replicate 32 n) (replicate 32 (n + 100)) n (1000 + n).
Definition admin_key : ApiKeyRecord := new_record demo_hash Admin None None (entropy 1).
Definition reader_key : ApiKeyRecord := new_record demo_hash ReadOnly (Some (ascii_bytes "docs")) None (entropy 2).
Definition reader_header : option (list Z) := Some (ascii_bytes "Bearer " ++ generate_token (replicate 32 2)).
Definition path : name := ascii_bytes "keys.json".
Definition ops : list KeyOp :=
  [KCreate Admin None None (entropy 1); KCreate ReadOnly (Some (ascii_bytes "docs")) None (entropy 2); KRestart;
   KRevoke (ak_id admin_key); KRestart].
Definition store : KeyStore := foldl (key_do demo_hash in_order) (KeyStore_new (Some path) (∅ : Fs)) ops.
End KeyDemo.

Lemma key_routes_guarded_witness :
  let a := mkAuth (KeyStore_new None (∅ : Fs)) (Some (ascii_bytes "secret")) in
  ~ privileged demo_hash a None
  /\ exists g, g <> Pass /\ serve_key_request demo_hash KeyDemo.in_order None ListKeys a = (a, Denied g).
Proof.
  intros a. destruct (key_routes_guarded demo_hash KeyDemo.in_order None ListKeys a) as [[(t & Ht & _) _]|Hr];
    [reflexivity|discriminate Ht|exact Hr].
Defined.

Lemma key_history_exact_witness :
  (forall token r, key_lookup demo_hash token KeyDemo.store = Some r
     <-> foldl (valid_do demo_hash) ∅ KeyDemo.ops !! ak_id r = Some r /\ ak_token_hash r = hash_token demo_hash token)
  /\ forall id, (key_revoke KeyDemo.in_order id KeyDemo.store).2
       = bool_decide (is_Some (foldl (valid_do demo_hash) ∅ KeyDemo.ops !! id)).
Proof.
  destruct (key_history_exact demo_hash KeyDemo.in_order (fun m => reflexivity _) KeyDemo.path (∅ : Fs) KeyDemo.ops) as (H1 & H2 & _).
  - reflexivity.
  - split; (eapply (bool_decide_unpack _); vm_compute; reflexivity).
  - split; [exact H1|exact H2].
Defined.

(** ** What the guard lets through *)

(** Revoking the last key of a node without a static token switches
    authentication off: a request without any header passes, on the key routes
    too. *)
Theorem last_revocation_opens_node :
  let ks := foldl (key_do demo_hash KeyDemo.in_order) (KeyStore_new (Some KeyDemo.path) (∅ : Fs))
              [KCreate Admin None None (KeyDemo.entropy 1); KRevoke (ak_id KeyDemo.admin_key)] in
  auth_guard_v2 demo_hash (mkAuth ks None) (ascii_bytes "POST") (ascii_bytes "/v1/keys") None = Pass.
Proof. vm_compute. reflexivity. Qed.

(** So does a key file that does not parse. *)
Theorem damaged_key_file_opens_node `{KeyJson} blake3 path fs data method url header :
  fs !! path = Some data -> decode_keys data = None ->
  auth_guard_v2 blake3 (mkAuth (KeyStore_new (Some path) fs) None) method url header = Pass.
Proof. intros Hf Hd. unfold KeyStore_new, keys_load. simpl. by rewrite Hf, Hd. Qed.

(** A key with read scope may drop the collection named "search". *)
Theorem reader_drops_search_collection :
  let a := mkAuth KeyDemo.store None in
  auth_guard_v2 demo_hash a (ascii_bytes "DELETE") (ascii_bytes "/v1/namespaces/docs") KeyDemo.reader_header = FORBIDDEN
  /\ auth_guard_v2 demo_hash a (ascii_bytes "DELETE") (ascii_bytes "/v1/namespaces/search") KeyDemo.reader_header = Pass.
Proof. vm_compute. split; reflexivity. Qed.

(** The collection a key is locked to plays no part: the key of the collection
    "docs" passes on any read. *)
Definition unlocked (r : ApiKeyRecord) : ApiKeyRecord :=
  mkKeyRecord (ak_id r) (ak_scope r) None (ak_description r) (ak_created_at r) (ak_token_hash r) (ak_prefix r).
Theorem collection_lock_ignored blake3 ks legacy method url header :
  auth_guard_v2 blake3 (mkAuth ks legacy) method url header
  = auth_guard_v2 blake3 (mkAuth (mkKeyStore (unlocked <$> by_hash ks) (id_to_hash ks) (key_path ks) (key_fs ks)) legacy)
      method url header.
Proof.
  set (ks' := mkKeyStore _ _ _ _).
  assert (store_is_empty ks' = store_is_empty ks) as Ee by (apply bool_decide_ext, fmap_empty_iff).
  unfold auth_guard_v2, has_any_auth, key_lookup. cbn [key_store legacy_token]. rewrite Ee.
  destruct (bearer header) as [token|]; [|done]. unfold ks'. cbn [by_hash]. rewrite lookup_fmap.
  by destruct (by_hash ks !! hash_token blake3 token).
Qed.
