(* ===== verification/TreeRag.v ===== *)
(** * The tree index of a document

    Models [crates/valori-rag/src/tree.rs]: the table of contents built from
    Markdown headings, breadcrumbs and the structure map, term-frequency ranking,
    answers with their receipts, replay of a receipt and of a chain.

    Texts are lists of code points, as in [Chunker]; hashes are their hexadecimal
    texts.  The walk to the root and the recursion over children take one more
    than the number of nodes as fuel: a walk that is longer repeats a node and
    never ends.  The clock and the display of floats and of lists of strings
    (part of the reasoning text) are arguments.  What a heading is ([headings]) is
    stated on the lines of the text, independently of the parser. *)

From Stdlib Require Import SpecFloat String.
From stdpp Require Import gmap.
From S2P Require Import Prelude.
From S2P Require Import Core.
From S2P Require Import Bytes.
From S2P Require Import StateProof.
From S2P Require Import Wire.
From S2P Require Import WireTheorems.
From S2P Require Import EventLog.
From S2P Require Import EventLogTheorems.
From S2P Require Import EventCommit.
From S2P Require Import Rotation.
From S2P Require Import F32.
From S2P Require Import HostIndex.
From S2P Require Import Planner.
From S2P Require Import PlannerTheorems.
From S2P Require Import Chunker.
From S2P Require Import Pipeline.
From S2P Require Import Search.
From S2P Require Import Hnsw.
From S2P Require Import GraphRag.
From S2P Require Import Metadata.

(** ** Terms *)
Definition STOP : list text_str :=
  ascii_bytes <$>
    ["the"; "a"; "an"; "and"; "or"; "of"; "to"; "in"; "on"; "for"; "is"; "are"; "do"; "does"; "i";
     "you"; "my"; "our"; "how"; "what"; "when"; "where"; "which"; "can"; "may"; "get"; "much";
     "many"; "per"; "with"; "at"; "be"; "if"; "it"; "this"; "that"; "as"; "by"; "from"; "have";
     "has"]%string.

Definition is_ascii_alphanumeric (c : Z) : bool :=
  ((48 <=? c) && (c <=? 57)) || ((65 <=? c) && (c <=? 90)) || ((97 <=? c) && (c <=? 122)).
Definition to_ascii_lowercase (c : Z) : Z := if (65 <=? c) && (c <=? 90) then c + 32 else c.

(** [push_token]: the term is kept when it has at least two bytes (its
    characters are ASCII) and is no stop word. *)
Definition push_token (out : list text_str) (cur : text_str) : list text_str :=
  if (1 <? len cur) && negb (bool_decide (cur ∈ STOP)) then out ++ [cur] else out.
Definition token_char (st : list text_str * text_str) (ch : Z) : list text_str * text_str :=
  let '(out, cur) := st in
  if is_ascii_alphanumeric ch then (out, cur ++ [to_ascii_lowercase ch])
  else match cur with [] => (out, []) | _ => (push_token out cur, []) end.
Definition tokens (text : text_str) : list text_str :=
  let '(out, cur) := foldl token_char ([], []) text in
  match cur with [] => out | _ => push_token out cur end.

(** ** The tree *)
Record TreeNode : Type := mkTreeNode {
  node_id : text_str;
  title : text_str;
  level : Z;
  start_line : Z;
  end_line : Z;
  own_text : text_str;
  summary : text_str;
  parent : option text_str;
  children : list text_str;
}.
Record TreeIndex : Type := mkTree { doc_name : text_str; roots : list text_str; tree_nodes : gmap text_str TreeNode }.

(** ** Construction *)
Definition HASH : Z := 35.
Definition parse_heading (s : text_str) : option (Z * text_str) :=
  let level := length (take_prefix (fun c => c =? HASH) s) in
  if negb (str_starts_with [HASH] s) then None
  else if (level =? 0)%nat || (6 <? level)%nat then None
  else
    let rest := str_trim_start (drop level s) in
    if negb (bool_decide (s !! level = Some 32)) || is_empty rest then None
    else Some (Z.of_nat level, str_trim rest).

(** The headings with their 1-based lines; fenced code is skipped. *)
Definition FENCE : text_str := [96; 96; 96].
Fixpoint find_headers (in_code : bool) (i : Z) (ls : list text_str) : list (Z * Z * text_str) :=
  match ls with
  | [] => []
  | line :: ls =>
      let s := str_trim line in
      if str_starts_with FENCE s then find_headers (negb in_code) (i + 1) ls
      else if in_code then find_headers in_code (i + 1) ls
      else match parse_heading s with
           | Some (level, title) => (i + 1, level, title) :: find_headers in_code (i + 1) ls
           | None => find_headers in_code (i + 1) ls
           end
  end.

(** The text up to the first sentence mark, which is kept. *)
Definition is_mark (c : Z) : bool := (c =? 46) || (c =? 33) || (c =? 63).
Fixpoint to_mark (s : text_str) : text_str :=
  match s with
  | [] => []
  | c :: s => if is_mark c then [c] else c :: to_mark s
  end.
Definition first_sentence (text : text_str) : option text_str :=
  let body := join [32] (base.filter (fun l => str_trim l <> []) (str_lines text)) in
  if is_empty body then None else Some (str_trim (take 160 (to_mark body))).

Definition id_of (idx : nat) : text_str := dec_padded 4 (Z.of_nat (S idx)).

(** The node of a heading, before it is linked; [next] is the line of the next
    heading or one past the last line. *)
Definition section_text (ls : list text_str) (line_num next : Z) : text_str :=
  let body_end := next - 1 in
  if line_num <? body_end
  then str_trim (join [NL] (take (Z.to_nat (Z.min body_end (len ls) - line_num)) (drop (Z.to_nat line_num) ls)))
  else [].
Definition section_node (ls : list text_str) (idx : nat) (h : Z * Z * text_str) (next : Z) : TreeNode :=
  let '(line_num, level, title) := h in
  let own_text := section_text ls line_num next in
  mkTreeNode (id_of idx) title level line_num (next - 1) own_text (default title (first_sentence own_text)) None [].

Definition set_parent (p : text_str) (n : TreeNode) : TreeNode :=
  mkTreeNode (node_id n) (title n) (level n) (start_line n) (end_line n) (own_text n) (summary n) (Some p) (children n).
Definition push_child (c : text_str) (n : TreeNode) : TreeNode :=
  mkTreeNode (node_id n) (title n) (level n) (start_line n) (end_line n) (own_text n) (summary n) (parent n) (children n ++ [c]).

(** [stack], the top first: ids with their levels. *)
Record Building : Type := mkBuilding {
  b_nodes : gmap text_str TreeNode;
  b_roots : list text_str;
  b_stack : list (text_str * Z);
}.
Fixpoint pop_levels (level : Z) (stack : list (text_str * Z)) : list (text_str * Z) :=
  match stack with
  | [] => []
  | (id, lvl) :: rest => if level <=? lvl then pop_levels level rest else stack
  end.
Definition link_section (b : Building) (node : TreeNode) : Building :=
  let stack := pop_levels (level node) (b_stack b) in
  let id := node_id node in
  let '(node, nodes, roots) :=
    match stack with
    | (parent_id, _) :: _ => (set_parent parent_id node, alter (push_child id) parent_id (b_nodes b), b_roots b)
    | [] => (node, b_nodes b, b_roots b ++ [id])
    end in
  mkBuilding (<[id := node]> nodes) roots ((id, level node) :: stack).

Fixpoint sections (ls : list text_str) (idx : nat) (hs : list (Z * Z * text_str)) : list TreeNode :=
  match hs with
  | [] => []
  | h :: hs =>
      let next := match hs with (line, _, _) :: _ => line | [] => len ls + 1 end in
      section_node ls idx h next :: sections ls (S idx) hs
  end.
Definition from_markdown (text name : text_str) : TreeIndex :=
  let ls := split_at NL text in
  let b := foldl link_section (mkBuilding ∅ [] []) (sections ls 0 (find_headers false 0 ls)) in
  mkTree name (b_roots b) (b_nodes b).

(** ** Paths and the structure map *)
Definition CRUMB : text_str := [32; 62; 32].
Fixpoint crumbs (fuel : nat) (nodes : gmap text_str TreeNode) (cur : option TreeNode) (parts : list text_str) :
    outcome Empty_set (list text_str) :=
  match cur with
  | None => Ok parts
  | Some n =>
      match fuel with
      | O => Hang
      | S fuel => crumbs fuel nodes (p ← parent n; nodes !! p) (title n :: parts)
      end
  end.
Definition breadcrumb (t : TreeIndex) (id : text_str) : outcome Empty_set text_str :=
  do* parts := crumbs (S (size (tree_nodes t))) (tree_nodes t) (tree_nodes t !! id) [] in Ok (join CRUMB parts).

Inductive StructureNode : Type := mkStructure (id title summary : text_str) (nodes : list StructureNode).
Fixpoint build_structure (fuel : nat) (t : TreeIndex) (id : text_str) : outcome Empty_set StructureNode :=
  match fuel with
  | O => Hang
  | S fuel =>
      do* n := unwrap (tree_nodes t !! id) in
      do* subs := (fix all (ids : list text_str) : outcome Empty_set (list StructureNode) :=
                     match ids with
                     | [] => Ok []
                     | c :: ids => do* x := build_structure fuel t c in do* xs := all ids in Ok (x :: xs)
                     end) (children n) in
      Ok (mkStructure (node_id n) (title n) (summary n) subs)
  end.
Fixpoint structures (fuel : nat) (t : TreeIndex) (ids : list text_str) : outcome Empty_set (list StructureNode) :=
  match ids with
  | [] => Ok []
  | r :: ids => do* x := build_structure fuel t r in do* xs := structures fuel t ids in Ok (x :: xs)
  end.
Definition structure_map (t : TreeIndex) : outcome Empty_set (list StructureNode) :=
  structures (S (size (tree_nodes t))) t (roots t).

(** ** Ranking *)

(** A [BTreeMap] or [BTreeSet] of texts in order. *)
Definition sorted_texts {A} (m : gmap text_str A) : list (text_str * A) :=
  sort_scored (fun a b => key_leb a.1 b.1) (map_to_list m).
Definition count_term (m : gmap text_str Z) (t : text_str) : gmap text_str Z := <[t := default 0 (m !! t) + 1]> m.
Definition count_terms (toks : list text_str) : gmap text_str Z := foldl count_term ∅ toks.
Definition term_set (toks : list text_str) : list text_str := (sorted_texts (count_terms toks)).*1.

Definition f64_round (x : f64) : f64 :=
  match x with
  | S754_finite s m e =>
      if 0 <=? e then x else binary_normalize 53 1024 (cond_Zopp s ((Zpos m + 2 ^ (- e - 1)) / 2 ^ (- e))) 0 s
  | _ => x
  end.

Definition score_term (n : TreeNode) (st : f64 * list text_str) (q : text_str) : f64 * list text_str :=
  let '(score, matched) := st in
  let in_title := bool_decide (q ∈ tokens (title n)) in
  let in_summary := bool_decide (q ∈ tokens (summary n)) in
  let score := if in_title then f64_add score (f64_of_int 5) else score in
  let score := if in_summary then f64_add score (f64_of_int 2) else score in
  match count_terms (tokens (own_text n)) !! q with
  | Some c => (f64_add score (f64_mul (f64_of_int (Z.min c 3)) (f64_of_int 1)), matched ++ [q])
  | None => (score, if in_title || in_summary then matched ++ [q] else matched)
  end.
Definition score_node (q_terms : list text_str) (n : TreeNode) : option (f64 * list text_str) :=
  let '(score, matched) := foldl (score_term n) (S754_zero false, []) q_terms in
  if SFltb (S754_zero false) score then
    let score := f64_add score (f64_mul (f64_literal 1 10) (f64_of_int (level n))) in
    Some (f64_div (f64_round (f64_mul score (f64_of_int 100))) (f64_of_int 100), matched)
  else None.

Definition ranked_ge (a b : text_str * f64 * list text_str) : bool :=
  match SFcompare b.1.2 a.1.2 with Some Gt => false | _ => true end.
Definition rank_nodes (t : TreeIndex) (query : text_str) : list (text_str * f64 * list text_str) :=
  let q_terms := term_set (tokens query) in
  sort_scored ranked_ge
    (omap (fun x : text_str * TreeNode => (fun r => (x.1, r.1, r.2)) <$> score_node q_terms x.2) (sorted_texts (tree_nodes t))).
Definition rank_nodes_normalized (t : TreeIndex) (query : text_str) (k : nat) : list (text_str * f64) :=
  let ranked := rank_nodes t query in
  let max := f64_max (match ranked with x :: _ => x.1.2 | [] => f64_of_int 1 end) (f64_literal 1 1000000000) in
  (fun x => (x.1.1, f64_div x.1.2 max)) <$> take k ranked.

(** ** Receipts *)
Record TreeReceipt : Type := mkTreeReceipt {
  rq_query : text_str;
  rq_query_hash : text_str;
  rq_visited : list text_str;
  rq_ranges : list (Z * Z);
  rq_evidence_hash : text_str;
  rq_answer_hash : text_str;
  rq_prev_hash : text_str;
  rq_receipt_hash : text_str;
  rq_hash_algo : text_str;
  rq_timestamp : Z;
}.
Record Citation : Type := mkCitation { ct_node : text_str; ct_title : text_str; ct_breadcrumb : text_str; ct_lines : Z * Z }.
Record AnswerResult : Type := mkAnswer {
  an_query : text_str;
  an_answer : text_str;
  an_citations : list Citation;
  an_visited : list text_str;
  an_ranges : list (Z * Z);
  an_evidence : text_str;
  an_reasoning : text_str;
  an_receipt : TreeReceipt;
}.

Section Tree.
Context (blake3 : list Z -> list Z) (show_f64 : f64 -> text_str) (debug_strs : list text_str -> text_str).

Definition TREE_GENESIS : text_str := replicate 64 48.
Definition hash_text (text : text_str) : text_str := hex (blake3 (utf8 text)).
Definition join_hash (parts : list text_str) : text_str := hex (blake3 (utf8 (join [31] parts))).

Definition ranges_str (ranges : list (Z * Z)) : text_str :=
  join [59] ((fun r => decimal r.1 ++ [45] ++ decimal r.2) <$> ranges).
Definition receipt_digest (prev query_hash : text_str) (visited : list text_str) (ranges : list (Z * Z))
    (evidence_hash answer_hash : text_str) : text_str :=
  join_hash [prev; query_hash; join [44] visited; ranges_str ranges; evidence_hash; answer_hash].

Definition receipt_make (now : Z) (query : text_str) (visited : list text_str) (ranges : list (Z * Z))
    (evidence answer prev : text_str) : TreeReceipt :=
  mkTreeReceipt query (hash_text query) visited ranges (hash_text evidence) (hash_text answer) prev
    (receipt_digest prev (hash_text query) visited ranges (hash_text evidence) (hash_text answer))
    (ascii_bytes "blake3") now.
Definition recompute (r : TreeReceipt) (prev : text_str) : bool :=
  bool_decide (receipt_digest prev (rq_query_hash r) (rq_visited r) (rq_ranges r) (rq_evidence_hash r) (rq_answer_hash r)
               = rq_receipt_hash r)
  && bool_decide (rq_prev_hash r = prev).

Fixpoint chain_from (prev : text_str) (rs : list TreeReceipt) : bool :=
  match rs with
  | [] => true
  | r :: rs => if recompute r prev then chain_from (rq_receipt_hash r) rs else false
  end.
Definition verify_chain (rs : list TreeReceipt) : bool := chain_from TREE_GENESIS rs.

(** The index of the first broken receipt ([tree_chain_verify]). *)
Fixpoint broken_from (i : Z) (prev : text_str) (rs : list TreeReceipt) : option Z :=
  match rs with
  | [] => None
  | r :: rs => if recompute r prev then broken_from (i + 1) (rq_receipt_hash r) rs else Some i
  end.
Definition tree_chain_verify (rs : list TreeReceipt) : bool * option Z :=
  let broken := broken_from 0 TREE_GENESIS rs in (bool_decide (broken = None), broken).

(** ** Answers *)
Definition select_nodes (t : TreeIndex) (query : text_str) (k : nat) : outcome Empty_set (list text_str * text_str) :=
  match take k (rank_nodes t query) with
  | [] => Ok ([], ascii_bytes "No section matched the query terms.")
  | ranked =>
      let reason x : outcome Empty_set text_str :=
        let '(nid, sc, mt) := x : text_str * f64 * list text_str in
        do* n := unwrap (tree_nodes t !! nid) in
        Ok (nid ++ ascii_bytes " (" ++ title n ++ ascii_bytes ") matched " ++ debug_strs mt ++ ascii_bytes " score=" ++ show_f64 sc) in
      do* reasons := foldr (fun x acc => do* r := reason x in do* rs := acc in Ok (r :: rs)) (Ok []) ranked in
      Ok ((fun x => x.1.1) <$> ranked, join (ascii_bytes "; ") reasons)
  end.

(** What is read of one section: its citation and its piece of evidence. *)
Definition evidence_of (t : TreeIndex) (nid : text_str) (n : TreeNode) : outcome Empty_set (Citation * text_str) :=
  do* bc := breadcrumb t nid in
  Ok (mkCitation nid (title n) bc (start_line n, end_line n), [91] ++ bc ++ [93; NL] ++ own_text n).
Fixpoint read_sections (t : TreeIndex) (ids : list text_str) : outcome Empty_set (list (Citation * text_str)) :=
  match ids with
  | [] => Ok []
  | nid :: ids =>
      do* n := unwrap (tree_nodes t !! nid) in
      do* x := evidence_of t nid n in
      do* xs := read_sections t ids in Ok (x :: xs)
  end.

Definition tree_answer (now : Z) (t : TreeIndex) (query : text_str) (k : nat) (prev_hash : text_str) : outcome Empty_set AnswerResult :=
  do* sel := select_nodes t query k in
  let '(ids, reasoning) := sel in
  do* read := read_sections t ids in
  let citations := fst <$> read in
  let ranges := ct_lines <$> citations in
  let evidence := join [NL; NL] (snd <$> read) in
  let text := if is_empty evidence then ascii_bytes "No relevant section found." else evidence in
  Ok (mkAnswer query text citations ids ranges evidence reasoning
        (receipt_make now query ids ranges evidence text prev_hash)).

(** [verify_receipt]: an id that is gone makes it fail before the rest is read. *)
Fixpoint reread (t : TreeIndex) (ids : list text_str) : outcome Empty_set (option (list text_str)) :=
  match ids with
  | [] => Ok (Some [])
  | nid :: ids =>
      match tree_nodes t !! nid with
      | None => Ok None
      | Some n =>
          do* x := evidence_of t nid n in
          do* rest := reread t ids in Ok ((fun l => snd x :: l) <$> rest)
      end
  end.
Definition verify_tree_receipt (t : TreeIndex) (r : TreeReceipt) : outcome Empty_set bool :=
  do* parts := reread t (rq_visited r) in
  match parts with
  | None => Ok false
  | Some parts => Ok (bool_decide (hash_text (join [NL; NL] parts) = rq_evidence_hash r))
  end.
End Tree.

(** ** The tree of a document *)

(** The nearest earlier section of a lower level, the sections before listed
    last first. *)
Definition enclosing (before : list TreeNode) (l : Z) : option text_str :=
  node_id <$> head (base.filter (fun m => level m < l) before).
Definition parent_at (nodes : gmap text_str TreeNode) (id : text_str) : option text_str := nodes !! id ≫= parent.

(** A node of the tree is a section up to its links. *)
Definition same_section (n m : TreeNode) : Prop :=
  node_id n = node_id m /\ title n = title m /\ level n = level m /\ start_line n = start_line m
  /\ end_line n = end_line m /\ own_text n = own_text m /\ summary n = summary m.

Lemma pop_levels_spec l stack :
  head (pop_levels l stack) = head (base.filter (fun p : text_str * Z => p.2 < l) stack)
  /\ forall l', l' <= l -> base.filter (fun p : text_str * Z => p.2 < l') (pop_levels l stack)
                        = base.filter (fun p : text_str * Z => p.2 < l') stack.
Proof.
  induction stack as [|[id lvl] stack [IH1 IH2]]; [done|]. cbn [pop_levels]. destruct (l <=? lvl) eqn:E.
  - split; [rewrite filter_cons, decide_False by (simpl; lia); exact IH1|]. intros l' Hl.
    rewrite filter_cons, decide_False by (simpl; lia). by apply IH2.
  - split; [|done]. rewrite filter_cons, decide_True by (simpl; lia). done.
Qed.

Record tree_inv (done : list TreeNode) (b : Building) : Prop := {
  ti_stack l : fst <$> head (base.filter (fun p : text_str * Z => p.2 < l) (b_stack b)) = enclosing (reverse done) l;
  ti_node i m : done !! i = Some m ->
    exists n, b_nodes b !! node_id m = Some n /\ same_section n m /\ parent n = enclosing (reverse (take i done)) (level m);
  ti_dom id : is_Some (b_nodes b !! id) -> id ∈ node_id <$> done;
  ti_children id n : b_nodes b !! id = Some n ->
    children n = base.filter (fun c => parent_at (b_nodes b) c = Some id) (node_id <$> done);
  ti_roots : b_roots b = base.filter (fun c => parent_at (b_nodes b) c = None) (node_id <$> done);
}.

Lemma enclosing_done done l p : enclosing (reverse done) l = Some p -> p ∈ node_id <$> done.
Proof.
  unfold enclosing. intros (m & Hm & ->)%fmap_Some. apply head_Some_elem_of, list_elem_of_filter in Hm as [_ Hm].
  apply list_elem_of_fmap. exists m. split; [done|]. by rewrite elem_of_reverse in Hm.
Qed.

Lemma link_parent done b m :
  tree_inv done b -> node_id m ∉ node_id <$> done ->
  exists nodes,
    link_section b m = mkBuilding (<[node_id m := match enclosing (reverse done) (level m) with Some p => set_parent p m | None => m end]> nodes)
                         (match enclosing (reverse done) (level m) with Some _ => b_roots b | None => b_roots b ++ [node_id m] end)
                         ((node_id m, level m) :: pop_levels (level m) (b_stack b))
    /\ forall id, nodes !! id = (if decide (enclosing (reverse done) (level m) = Some id) then push_child (node_id m) else fun n => n) <$> b_nodes b !! id.
Proof.
  intros Hi Hnew. destruct (pop_levels_spec (level m) (b_stack b)) as [Hh _].
  pose proof (ti_stack _ _ Hi (level m)) as Hs. rewrite <- Hh in Hs. unfold link_section.
  destruct (pop_levels (level m) (b_stack b)) as [|[pid lvl] rest] eqn:Ep; simpl in Hs.
  - rewrite <- Hs. eexists. split; [done|]. intros id. rewrite decide_False by done. by rewrite option_fmap_id.
  - rewrite <- Hs. eexists. split; [done|]. intros id. destruct (decide (Some pid = Some id)) as [[= ->]|Hne].
    + by rewrite lookup_alter_eq.
    + rewrite lookup_alter_ne by congruence. by rewrite option_fmap_id.
Qed.

Lemma filter_none {A} (P : A -> Prop) `{!forall x, Decision (P x)} (l : list A) :
  (forall x, x ∈ l -> ~ P x) -> base.filter P l = [].
Proof.
  induction l as [|x l IH]; intros Hp; [done|]. rewrite filter_cons, decide_False by (apply Hp; by left).
  apply IH. intros y Hy. apply Hp. by right.
Qed.

Lemma link_section_inv done b m :
  tree_inv done b -> node_id m ∉ node_id <$> done -> parent m = None -> children m = [] ->
  tree_inv (done ++ [m]) (link_section b m).
Proof.
  intros Hi Hnew Hpar Hch. destruct (link_parent done b m Hi Hnew) as (nodes & -> & Hn).
  set (up := enclosing (reverse done) (level m)) in *. set (new := match up with Some p => set_parent p m | None => m end).
  assert (same_section new m /\ parent new = up /\ children new = []) as (Hsame & Hup & Hnc).
  { unfold new. by destruct up. }
  assert (forall c, c ∈ node_id <$> done -> parent_at (<[node_id m := new]> nodes) c = parent_at (b_nodes b) c) as Hold.
  { intros c Hc. unfold parent_at. rewrite lookup_insert_ne by (intros <-; done). rewrite Hn.
    destruct (b_nodes b !! c); [|done]. simpl. by destruct (decide _). }
  assert (parent_at (<[node_id m := new]> nodes) (node_id m) = up) as Hme by (unfold parent_at; by rewrite lookup_insert_eq).
  assert (forall c, c ∈ node_id <$> done -> parent_at (b_nodes b) c <> Some (node_id m)) as Hnone.
  { intros c Hc E. apply list_elem_of_fmap in Hc as (m' & -> & Hin). apply list_elem_of_lookup in Hin as [i Hm'].
    destruct (ti_node _ _ Hi i m' Hm') as (n & Hl & _ & Hp). unfold parent_at in E. rewrite Hl in E. simpl in E. rewrite Hp in E.
    apply enclosing_done in E. apply Hnew. apply list_elem_of_fmap in E as (x & -> & Hx). apply list_elem_of_fmap.
    exists x. split; [done|]. apply list_elem_of_lookup in Hx as [j Hj]. apply lookup_take_Some in Hj as [Hj _]. by eapply list_elem_of_lookup_2. }
  split; cbn [b_nodes b_roots b_stack].
  - intros l. rewrite reverse_snoc. unfold enclosing. rewrite !filter_cons. cbn [snd].
    destruct (decide (level m < l)); [done|]. rewrite (proj2 (pop_levels_spec _ _)) by lia. apply (ti_stack _ _ Hi).
  - intros i x Hx. destruct (decide (i = length done)) as [-> |Hne].
    + rewrite list_lookup_middle in Hx by done. injection Hx as <-. exists new. rewrite lookup_insert_eq, take_app_length. done.
    + assert (done !! i = Some x) as Hx'.
      { apply lookup_app_Some in Hx as [?|[? Hx]]; [done|]. apply lookup_lt_Some in Hx as Hlt. simpl in Hlt. lia. }
      destruct (ti_node _ _ Hi i x Hx') as (n & Hl & Hsec & Hp). apply lookup_lt_Some in Hx' as Hlt.
      assert (node_id x <> node_id m) as Hid.
      { intros E. apply Hnew. rewrite <- E. apply list_elem_of_fmap. exists x. split; [done|]. by eapply list_elem_of_lookup_2. }
      rewrite lookup_insert_ne by done. rewrite Hn, Hl, take_app_le by lia. eexists. split; [done|]. by destruct (decide _).
  - intros id Hid. rewrite fmap_app. apply elem_of_app. destruct (decide (node_id m = id)) as [<- |Hne]; [right; by left|].
    rewrite lookup_insert_ne, Hn, fmap_is_Some in Hid by done. left. by apply (ti_dom _ _ Hi).
  - intros id n Hl. rewrite fmap_app, filter_app. cbn [fmap list_fmap]. rewrite filter_cons, filter_nil, Hme.
    destruct (decide (node_id m = id)) as [<- |Hne].
    + rewrite lookup_insert_eq in Hl. injection Hl as <-. rewrite Hnc. symmetry.
      rewrite filter_none by (intros c Hc; rewrite Hold by done; by apply Hnone).
      rewrite decide_False; [done|]. intros E. apply Hnew. by apply (enclosing_done done (level m)).
    + rewrite lookup_insert_ne, Hn in Hl by done. destruct (b_nodes b !! id) as [n0|] eqn:E0; [|done]. injection Hl as <-.
      rewrite (filter_ext_in _ (fun c => parent_at (b_nodes b) c = Some id)) by (intros c Hc; by rewrite Hold).
      rewrite <- (ti_children _ _ Hi id n0 E0). destruct (decide (up = Some id)); [done|]. by rewrite app_nil_r.
  - rewrite fmap_app, filter_app. cbn [fmap list_fmap]. rewrite filter_cons, filter_nil, Hme.
    rewrite (filter_ext_in _ (fun c => parent_at (b_nodes b) c = None)) by (intros c Hc; by rewrite Hold).
    rewrite <- (ti_roots _ _ Hi). destruct up as [p|]; [rewrite decide_False by done; by rewrite app_nil_r|by rewrite decide_True].
Qed.

Lemma link_sections_inv rest : forall done b,
  tree_inv done b -> NoDup (node_id <$> done ++ rest) -> Forall (fun m => parent m = None /\ children m = []) rest ->
  tree_inv (done ++ rest) (foldl link_section b rest).
Proof.
  induction rest as [|m rest IH]; intros done b Hi Hn Hf; [by rewrite app_nil_r|]. apply Forall_cons in Hf as [[H1 H2] Hf].
  cbn [foldl]. rewrite (cons_middle m done rest), app_assoc. apply IH; [|by rewrite <- app_assoc|done].
  apply link_section_inv; [done| |done|done]. rewrite fmap_app in Hn. apply NoDup_app in Hn as (_ & Hn & _).
  intros Hin. apply (Hn _ Hin). by left.
Qed.

Lemma empty_tree_inv : tree_inv [] (mkBuilding ∅ [] []).
Proof.
  split; try done; simpl.
  - intros id Hid. rewrite lookup_empty in Hid. by destruct Hid.
Qed.

(** The sections of a document: numbered, unlinked, one after the other. *)
Lemma sections_lookup ls hs : forall idx i m,
  sections ls idx hs !! i = Some m ->
  node_id m = id_of (idx + i) /\ parent m = None /\ children m = []
  /\ exists h, hs !! i = Some h /\ start_line m = h.1.1 /\ level m = h.1.2 /\ title m = h.2
     /\ end_line m = match hs !! S i with Some h' => h'.1.1 - 1 | None => len ls end
     /\ own_text m = section_text ls (start_line m) (end_line m + 1).
Proof.
  induction hs as [|[[line lvl] ttl] hs IH]; intros idx i m Hm; [done|]. destruct i as [|i]; simpl in Hm.
  - injection Hm as <-. rewrite Nat.add_0_r. do 3 (split; [done|]). eexists. split; [done|]. simpl.
    do 3 (split; [done|]). split; [destruct hs as [|[[? ?] ?] ?]; simpl; lia|]. by rewrite Z.sub_add.
  - destruct (IH (S idx) i m Hm) as (H1 & H2 & H3 & h & H4). replace (idx + S i)%nat with (S idx + i)%nat by lia.
    do 3 (split; [done|]). by exists h.
Qed.

Lemma length_sections ls idx hs : length (sections ls idx hs) = length hs.
Proof. revert idx. induction hs as [|h hs IH]; intros idx; [done|]. simpl. by rewrite IH. Qed.

Lemma id_of_inj i j : Z.of_nat i < 10 ^ 20 - 1 -> Z.of_nat j < 10 ^ 20 - 1 -> id_of i = id_of j -> i = j.
Proof.
  intros Hi Hj E. apply (f_equal dec_value) in E. unfold id_of in E. rewrite !dec_value_padded in E by lia. lia.
Qed.

Lemma length_split_at sep s : (length (split_at sep s) <= S (length s))%nat.
Proof.
  induction s as [|c s IH]; [done|]. cbn [split_at]. destruct (c =? sep); simpl; [lia|].
  destruct (split_at sep s); simpl in *; lia.
Qed.

(** What a heading is, read off the text: one to six number signs, a space and a
    title that is not blank. *)
Definition heading_text (s : text_str) (l : Z) (t : text_str) : Prop :=
  1 <= l <= 6 /\ exists rest, s = replicate (Z.to_nat l) 35 ++ 32 :: rest /\ t = str_trim rest /\ t <> [].

(** The lines that open or close fenced code. *)
Definition fence_line (line : text_str) : Prop := exists rest, str_trim line = [96; 96; 96] ++ rest.

(** The fence lines among the first [k]; an odd number of them leaves the code open. *)
Inductive fences_before (ls : list text_str) : nat -> nat -> Prop :=
| fences_none : fences_before ls 0 0
| fences_more k n line : fences_before ls k n -> ls !! k = Some line -> fence_line line -> fences_before ls (S k) (S n)
| fences_same k n line : fences_before ls k n -> ls !! k = Some line -> ~ fence_line line -> fences_before ls (S k) n.

(** Line [line], counted from 1, is a heading outside fenced code. *)
Definition heading_at (ls : list text_str) (line l : Z) (t : text_str) : Prop :=
  exists k n s, line = Z.of_nat (S k) /\ ls !! k = Some s /\ fences_before ls k n /\ Nat.Even n
    /\ heading_text (str_trim s) l t.

(** [hs] lists the headings of [ls] with line, level and title, in order. *)
Definition headings (ls : list text_str) (hs : list (Z * Z * text_str)) : Prop :=
  (forall line l t, (line, l, t) ∈ hs <-> heading_at ls line l t)
  /\ forall i h h', hs !! i = Some h -> hs !! S i = Some h' -> h.1.1 < h'.1.1.

Lemma take_prefix_split p (s : text_str) : s = take_prefix p s ++ drop (length (take_prefix p s)) s.
Proof. induction s as [|c s IH]; [done|]. cbn [take_prefix]. destruct (p c); [|done]. simpl. by rewrite <- IH. Qed.

Lemma heading_prefix n (rest : text_str) :
  let s : text_str := replicate n HASH ++ 32 :: rest in
  take_prefix (fun c => c =? HASH) s = replicate n HASH /\ s !! n = Some 32 /\ drop n s = 32 :: rest.
Proof. cbn zeta. induction n as [|n (H1 & H2 & H3)]; [done|]. cbn [replicate app take_prefix]. rewrite Z.eqb_refl, H1. done. Qed.

Lemma take_prefix_hashes (s : text_str) :
  take_prefix (fun c => c =? HASH) s = replicate (length (take_prefix (fun c => c =? HASH) s)) HASH.
Proof. induction s as [|c s IH]; [done|]. cbn [take_prefix]. destruct (Z.eqb_spec c HASH) as [-> |]; [|done]. simpl. by rewrite <- IH. Qed.

Lemma drop_prefix_idemp p (s : text_str) : drop_prefix p (drop_prefix p s) = drop_prefix p s.
Proof. induction s as [|c s IH]; [done|]. cbn [drop_prefix]. destruct (p c) eqn:E; [done|]. cbn [drop_prefix]. by rewrite E. Qed.

Lemma str_trim_trim_start (s : text_str) : str_trim (str_trim_start s) = str_trim s.
Proof. unfold str_trim, str_trim_start. by rewrite drop_prefix_idemp. Qed.

Lemma drop_prefix_snoc p (s : text_str) c : p c = false -> drop_prefix p (s ++ [c]) <> [].
Proof. intros Hc. induction s as [|x s IH]; cbn [app drop_prefix]; [by rewrite Hc|]. by destruct (p x). Qed.

Lemma drop_prefix_head p (s : text_str) c r : drop_prefix p s = c :: r -> p c = false.
Proof. induction s as [|x s IH]; [done|]. cbn [drop_prefix]. destruct (p x) eqn:E; [done|]. by intros [= <- _]. Qed.

Lemma str_trim_nil (s : text_str) : str_trim s = [] <-> str_trim_start s = [].
Proof.
  unfold str_trim. split; [|by intros ->]. destruct (str_trim_start s) as [|c r] eqn:E; [done|].
  apply drop_prefix_head in E. unfold str_trim_end. rewrite reverse_cons. intros H'.
  apply (f_equal reverse) in H'. rewrite reverse_involutive in H'. by apply drop_prefix_snoc in H'.
Qed.

Lemma parse_heading_iff s l t : parse_heading s = Some (l, t) <-> heading_text s l t.
Proof.
  unfold parse_heading, heading_text. pose proof (take_prefix_split (fun c => c =? HASH) s) as Hs.
  pose proof (take_prefix_hashes s) as Hh. set (n := length _) in *. split.
  - destruct (negb (str_starts_with _ _)); [done|]. destruct ((n =? 0)%nat || (6 <? n)%nat) eqn:E1; [done|].
    destruct (negb _ || is_empty _) eqn:E2; [done|]. apply orb_false_iff in E1 as [E1%Nat.eqb_neq E3%Nat.ltb_ge].
    apply orb_false_iff in E2 as [E2%negb_false_iff%bool_decide_eq_true E4]. intros [= <- <-]. split; [clearbody n; lia|].
    pose proof (drop_S s 32 n E2) as Ed. exists (drop (S n) s). rewrite Nat2Z.id.
    split; [rewrite Hs at 1; rewrite Hh, Ed; done|]. rewrite Ed in *. change (str_trim_start (32 :: drop (S n) s)) with (str_trim_start (drop (S n) s)) in *.
    rewrite str_trim_trim_start. split; [done|]. rewrite str_trim_nil. by intros E; rewrite E in E4.
  - intros (Hl & rest & -> & -> & Ht). clear Hs.
    destruct (heading_prefix (Z.to_nat l) rest) as (H1 & H2 & H3). unfold HASH in *.
    assert (n = Z.to_nat l) as -> by (subst n; rewrite H1; apply length_replicate). rewrite H2, H3.
    change (str_trim_start (32 :: rest)) with (str_trim_start rest). rewrite str_trim_trim_start, str_trim_nil in *.
    destruct (Z.to_nat l) as [|n] eqn:En; [lia|]. cbn [replicate app]. rewrite (proj2 (Nat.ltb_ge 6 (S n))) by lia.
    destruct (str_trim_start rest) eqn:Er; [done|]. simpl. f_equal. f_equal. lia.
Qed.

(** Headings come in the order of their lines, with levels 1 to 6. *)
Lemma find_headers_spec ls : forall in_code i k h,
  find_headers in_code i ls !! k = Some h ->
  i < h.1.1 <= i + len ls /\ 1 <= h.1.2 <= 6
  /\ forall h', find_headers in_code i ls !! S k = Some h' -> h.1.1 < h'.1.1.
Proof.
  assert (forall s lvl ttl, parse_heading s = Some (lvl, ttl) -> 1 <= lvl <= 6) as Hlvl.
  { intros s lvl ttl. unfold parse_heading. set (n := length _). destruct (negb (str_starts_with _ _)); [done|].
    destruct ((n =? 0)%nat || (6 <? n)%nat) eqn:E1; [done|]. destruct (negb _ || is_empty _); [done|].
    apply orb_false_iff in E1 as [E1%Nat.eqb_neq E3%Nat.ltb_ge]. intros [= <- <-]. clearbody n. lia. }
  induction ls as [|line ls IH]; intros in_code i k h Hk; [done|]. cbn [find_headers] in *.
  assert (forall ic, find_headers ic (i + 1) ls !! k = Some h ->
            i < h.1.1 <= i + len (line :: ls) /\ 1 <= h.1.2 <= 6
            /\ forall h', find_headers ic (i + 1) ls !! S k = Some h' -> h.1.1 < h'.1.1) as Hskip.
  { intros ic Hic. destruct (IH ic (i + 1) k h Hic) as (H1 & H2 & H3). rewrite len_cons. split; [lia|]. by split. }
  destruct (str_starts_with FENCE (str_trim line)); [by apply Hskip|]. destruct in_code; [by apply Hskip|].
  destruct (parse_heading (str_trim line)) as [[lvl ttl]|] eqn:Eh; [|by apply Hskip].
  destruct k as [|k].
  - injection Hk as <-. simpl. rewrite len_cons. pose proof (len_nonneg ls). split; [lia|]. split; [by eapply Hlvl|].
    intros h' Hh'. destruct (IH false (i + 1) 0%nat h' Hh') as [H1 _]. lia.
  - simpl in Hk. destruct (IH false (i + 1) k h Hk) as (H1 & H2 & H3). rewrite len_cons. split; [lia|]. by split.
Qed.

Lemma fence_line_iff (line : text_str) : str_starts_with FENCE (str_trim line) = true <-> fence_line line.
Proof.
  unfold str_starts_with, fence_line. rewrite bool_decide_eq_true. change (length FENCE) with 3%nat. split.
  - intros E. exists (drop 3 (str_trim line)). rewrite <- (take_drop 3 (str_trim line)) at 1. by rewrite E.
  - by intros [rest ->].
Qed.

Lemma fences_before_det ls k n n' : fences_before ls k n -> fences_before ls k n' -> n = n'.
Proof.
  intros H1. revert n'. induction H1 as [|k n line H1 IH El Hf|k n line H1 IH El Hf]; intros n' H2; inversion H2; subst;
    [done|..]; simplify_eq; try done; try (by f_equal; apply IH); by apply IH.
Qed.

Lemma heading_not_fence (line : text_str) l t : heading_text (str_trim line) l t -> ~ fence_line line.
Proof.
  intros (Hl & rest & E & _) [rest' E']. rewrite E in E'. destruct (Z.to_nat l) eqn:En; [lia|done].
Qed.

(** A heading on line [b + 1] or later. *)
Definition heading_from (ls : list text_str) (b : nat) (line l : Z) (t : text_str) : Prop :=
  exists k n s, (b <= k)%nat /\ line = Z.of_nat (S k) /\ ls !! k = Some s /\ fences_before ls k n /\ Nat.Even n
    /\ heading_text (str_trim s) l t.

(** A heading from [b] on is line [b + 1] itself or comes later. *)
Lemma heading_from_step ls b n s line l t :
  ls !! b = Some s -> fences_before ls b n ->
  heading_from ls b line l t
  <-> (line = Z.of_nat (S b) /\ Nat.Even n /\ heading_text (str_trim s) l t) \/ heading_from ls (S b) line l t.
Proof.
  intros Hs Hf. split.
  - intros (k & n' & s' & Hk & E & Hs' & Hn' & He & Hh). destruct (decide (k = b)) as [-> | Hne].
    + left. simplify_eq. by rewrite (fences_before_det _ _ _ _ Hf Hn').
    + right. exists k, n', s'. split; [lia|done].
  - intros [(E & He & Hh)|(k & n' & s' & Hk & Hr)]; [by exists b, n, s|exists k, n', s'; split; [lia|done]].
Qed.

Lemma find_headers_iff (all rest : list text_str) : forall pre n,
  all = pre ++ rest -> fences_before all (length pre) n ->
  forall line l t, (line, l, t) ∈ find_headers (Nat.odd n) (len pre) rest <-> heading_from all (length pre) line l t.
Proof.
  induction rest as [|line0 rest IH]; intros pre n Eall Hf line l t.
  { split; [by intros ?%elem_of_nil|]. intros (k & n' & s & Hk & _ & Hs & _). apply lookup_lt_Some in Hs.
    rewrite Eall, app_nil_r in Hs. lia. }
  assert (all !! length pre = Some line0) as H0 by (rewrite Eall; by apply list_lookup_middle).
  assert (length (pre ++ [line0]) = S (length pre)) as El by (rewrite length_app; simpl; lia).
  assert (len (pre ++ [line0]) = len pre + 1) as Elen by (unfold len; lia).
  assert (forall n1, fences_before all (S (length pre)) n1 ->
    (line, l, t) ∈ find_headers (Nat.odd n1) (len pre + 1) rest <-> heading_from all (S (length pre)) line l t) as Hnext.
  { intros n1 Hn1. rewrite <- Elen, <- El. apply IH; [by rewrite <- app_assoc|by rewrite El]. }
  rewrite (heading_from_step _ _ _ _ _ _ _ H0 Hf). cbn [find_headers].
  destruct (str_starts_with FENCE (str_trim line0)) eqn:Ef.
  - apply fence_line_iff in Ef. assert (negb (Nat.odd n) = Nat.odd (S n)) as -> by (rewrite Nat.odd_succ; apply Nat.negb_odd).
    rewrite Hnext by (by eapply fences_more). split; [by right|]. intros [(_ & _ & Hh)|Hr]; [by apply heading_not_fence in Hh|done].
  - assert (~ fence_line line0) as Hnf by (rewrite <- fence_line_iff; by rewrite Ef).
    specialize (Hnext n (fences_same _ _ _ _ Hf H0 Hnf)). destruct (Nat.odd n) eqn:Eo.
    { rewrite Hnext. split; [by right|]. intros [(_ & He%Nat.even_spec & _)|Hr]; [|done].
      by rewrite <- Nat.negb_odd, Eo in He. }
    assert (Nat.Even n) as Hev by (apply Nat.even_spec; by rewrite <- Nat.negb_odd, Eo).
    setoid_rewrite <- parse_heading_iff. assert (len pre + 1 = Z.of_nat (S (length pre))) as Epre by (unfold len; lia).
    destruct (parse_heading (str_trim line0)) as [[lvl ttl]|].
    + rewrite elem_of_cons, Hnext, Epre. split; intros [E|Hr]; [left|by right|left|by right].
      * by injection E as -> -> ->.
      * by destruct E as (-> & _ & [= -> ->]).
    + rewrite Hnext. split; [by right|]. by intros [(_ & _ & [=])|Hr].
Qed.

Lemma find_headers_headings ls : headings ls (find_headers false 0 ls).
Proof.
  split.
  - intros line l t. etransitivity; [exact (find_headers_iff ls ls [] 0 eq_refl (fences_none ls) line l t)|]. split.
    + intros (k & n' & s & _ & Hr). by exists k, n', s.
    + intros (k & n' & s & Hr). exists k, n', s. split; [simpl; lia|done].
  - intros i h h' Hi Hi'. by apply (find_headers_spec ls false 0 i h Hi).
Qed.

(** [p] is the nearest heading before heading [i] of a level below [l], if any. *)
Definition nearest_above (hs : list (Z * Z * text_str)) (i : nat) (l : Z) (p : option text_str) : Prop :=
  match p with
  | Some id =>
      exists j h, (j < i)%nat /\ hs !! j = Some h /\ h.1.2 < l /\ id = id_of j
        /\ forall k h', (j < k < i)%nat -> hs !! k = Some h' -> l <= h'.1.2
  | None => forall k h', (k < i)%nat -> hs !! k = Some h' -> l <= h'.1.2
  end.

Lemma enclosing_spec (secs : list TreeNode) l i :
  match enclosing (reverse (take i secs)) l with
  | Some p =>
      exists j m, (j < i)%nat /\ secs !! j = Some m /\ level m < l /\ p = node_id m
        /\ forall k m', (j < k < i)%nat -> secs !! k = Some m' -> l <= level m'
  | None => forall k m', (k < i)%nat -> secs !! k = Some m' -> l <= level m'
  end.
Proof.
  induction i as [|i IH]; [simpl; lia|]. destruct (secs !! i) as [m|] eqn:Em.
  - rewrite (take_S_r _ _ _ Em), reverse_snoc. unfold enclosing in *. rewrite filter_cons.
    assert (forall k m', (k < S i)%nat -> secs !! k = Some m' -> k = i /\ m' = m \/ (k < i)%nat) as Hlast.
    { intros k m' Hk Hm'. destruct (decide (k = i)) as [-> | ?]; [left|right; lia]. split; [done|]. congruence. }
    destruct (decide (level m < l)) as [Hl|Hl].
    + exists i, m. split_and!; [lia|done|done|done|]. lia.
    + destruct (node_id <$> head _) as [p|].
      * destruct IH as (j & m0 & Hj & Hm0 & Hl0 & -> & Hb). exists j, m0. split_and!; [lia|done|done|done|].
        intros k m' Hk Hm'. destruct (Hlast k m') as [[-> ->]|?]; [lia|done|lia|]. apply (Hb k); [lia|done].
      * intros k m' Hk Hm'. destruct (Hlast k m') as [[-> ->]|?]; [done|done|lia|]. by apply (IH k).
  - assert (take (S i) secs = take i secs) as -> by (apply lookup_ge_None in Em; rewrite !take_ge by lia; done).
    destruct (enclosing _ _) as [p|].
    + destruct IH as (j & m0 & Hj & Hm0 & Hl0 & -> & Hb). exists j, m0. split_and!; [lia|done|done|done|].
      intros k m' Hk Hm'. destruct (decide (k = i)) as [-> | ?]; [congruence|]. apply (Hb k); [lia|done].
    + intros k m' Hk Hm'. destruct (decide (k = i)) as [-> | ?]; [congruence|]. apply (IH k); [lia|done].
Qed.

Lemma section_text_body ls line stop :
  0 <= line -> stop <= len ls ->
  section_text ls line (stop + 1) = str_trim (join [NL] (take (Z.to_nat (stop - line)) (drop (Z.to_nat line) ls))).
Proof.
  intros Hl Hs. unfold section_text. rewrite Z.add_simpl_r, Z.min_l by lia. destruct (Z.ltb_spec line stop); [done|].
  by replace (Z.to_nat (stop - line)) with 0%nat by lia.
Qed.

Lemma length_find_headers ls : forall in_code i, (length (find_headers in_code i ls) <= length ls)%nat.
Proof.
  induction ls as [|line ls IH]; intros in_code i; [done|]. cbn [find_headers].
  destruct (str_starts_with _ _); [pose proof (IH (negb in_code) (i + 1)); simpl; lia|].
  destruct in_code; [pose proof (IH true (i + 1)); simpl; lia|].
  destruct (parse_heading _) as [[? ?]|]; pose proof (IH false (i + 1)); simpl; lia.
Qed.

Section Document.
Context (text name : text_str) (Hlen : len text <= u64_MAX).

Definition doc_sections : list TreeNode :=
  sections (split_at NL text) 0 (find_headers false 0 (split_at NL text)).

Lemma doc_section i m :
  doc_sections !! i = Some m -> node_id m = id_of i /\ parent m = None /\ children m = [] /\ Z.of_nat i < 10 ^ 20 - 1.
Proof using Hlen.
  intros Hm. destruct (sections_lookup _ _ _ _ _ Hm) as (H1 & H2 & H3 & _). do 3 (split; [done|]).
  apply lookup_lt_Some in Hm. unfold doc_sections in Hm. rewrite length_sections in Hm.
  pose proof (length_find_headers (split_at NL text) false 0). pose proof (length_split_at NL text).
  unfold len, u64_MAX in Hlen. lia.
Qed.

Lemma doc_ids : node_id <$> doc_sections = id_of <$> seq 0 (length doc_sections).
Proof using Hlen.
  apply list_eq. intros i. rewrite !list_lookup_fmap. destruct (doc_sections !! i) as [m|] eqn:Em.
  - apply lookup_lt_Some in Em as Hlt. rewrite lookup_seq_lt by done. simpl. f_equal. by apply (doc_section i m Em).
  - apply lookup_ge_None in Em as Hge. by rewrite lookup_seq_ge by done.
Qed.

Lemma doc_ids_distinct : NoDup (node_id <$> doc_sections).
Proof using Hlen.
  apply NoDup_alt. intros i j x Hi Hj. rewrite list_lookup_fmap in Hi, Hj.
  destruct (doc_sections !! i) as [m|] eqn:Ei, (doc_sections !! j) as [m'|] eqn:Ej; try done. simpl in Hi, Hj.
  destruct (doc_section _ _ Ei) as (E1 & _ & _ & L1), (doc_section _ _ Ej) as (E2 & _ & _ & L2).
  apply id_of_inj; [done|done|]. congruence.
Qed.

Lemma doc_tree_inv :
  exists stack, tree_inv doc_sections (mkBuilding (tree_nodes (from_markdown text name)) (roots (from_markdown text name)) stack).
Proof using Hlen.
  pose proof (link_sections_inv doc_sections [] _ empty_tree_inv) as Hi. simpl in Hi.
  exists (b_stack (foldl link_section (mkBuilding ∅ [] []) doc_sections)).
  unfold from_markdown. fold doc_sections. simpl.
  destruct (foldl link_section (mkBuilding ∅ [] []) doc_sections) as [n r s]. apply Hi; [apply doc_ids_distinct|].
  apply Forall_lookup. intros i m Hm. destruct (doc_section i m Hm) as (_ & ? & ? & _). done.
Qed.

Lemma doc_size : size (tree_nodes (from_markdown text name)) = length doc_sections.
Proof using Hlen.
  destruct doc_tree_inv as [stack Hi]. rewrite <- size_dom, <- (length_fmap node_id doc_sections).
  rewrite <- (size_list_to_set (C := gset text_str)) by apply doc_ids_distinct. f_equal. apply set_eq. intros id.
  rewrite elem_of_dom, elem_of_list_to_set. split; [apply (ti_dom _ _ Hi)|].
  intros (m & -> & Hm)%list_elem_of_fmap. apply list_elem_of_lookup in Hm as [i Hm].
  destruct (ti_node _ _ Hi i m Hm) as (n & Hn & _). cbn [b_nodes] in Hn. by rewrite Hn.
Qed.

(** The walk to the root moves to earlier sections. *)
Lemma crumbs_path i : forall m,
  doc_sections !! i = Some m ->
  exists path, path <> [] /\ forall fuel parts, (i < fuel)%nat ->
    crumbs fuel (tree_nodes (from_markdown text name)) (tree_nodes (from_markdown text name) !! node_id m) parts = Ok (path ++ parts).
Proof using Hlen.
  destruct doc_tree_inv as [stack Hi]. induction i as [i IH] using lt_wf_ind. intros m Hm.
  destruct (ti_node _ _ Hi i m Hm) as (n & Hn & Hsame & Hp). cbn [b_nodes] in Hn. rewrite Hn.
  destruct (enclosing (reverse (take i doc_sections)) (level m)) as [p|] eqn:Ep.
  - apply enclosing_done, list_elem_of_fmap in Ep as (m' & -> & Hm'). apply list_elem_of_lookup in Hm' as [j Hj].
    apply lookup_take_Some in Hj as [Hj Hlt]. destruct (IH j Hlt m' Hj) as (path & Hne & Hpath).
    exists (path ++ [title n]). split; [by destruct path|]. intros [|fuel] parts Hf; [lia|]. cbn [crumbs]. rewrite Hp.
    cbn [mbind option_bind]. rewrite Hpath by lia. by rewrite <- app_assoc.
  - exists [title n]. split; [done|]. intros [|fuel] parts Hf; [lia|]. cbn [crumbs]. rewrite Hp. by destruct fuel.
Qed.

Lemma join_snoc sep (path : list text_str) (x : text_str) : path <> [] -> join sep (path ++ [x]) = join sep path ++ sep ++ x.
Proof.
  induction path as [|p path IH]; intros Hne; [done|]. destruct path as [|q path]; [done|].
  specialize (IH ltac:(done)). cbn [join app] in *. rewrite IH. by rewrite <- !app_assoc.
Qed.

Lemma doc_breadcrumb i m n :
  doc_sections !! i = Some m -> tree_nodes (from_markdown text name) !! node_id m = Some n ->
  exists bc, breadcrumb (from_markdown text name) (node_id m) = Ok bc
    /\ match parent n with
       | None => bc = title n
       | Some p => exists up, breadcrumb (from_markdown text name) p = Ok up /\ bc = up ++ CRUMB ++ title n
       end.
Proof using Hlen.
  intros Hm Hn. destruct doc_tree_inv as [stack Hi].
  assert (forall k x path, doc_sections !! k = Some x ->
            (forall fuel parts, (k < fuel)%nat -> crumbs fuel (tree_nodes (from_markdown text name))
               (tree_nodes (from_markdown text name) !! node_id x) parts = Ok (path ++ parts)) ->
            breadcrumb (from_markdown text name) (node_id x) = Ok (join CRUMB path)) as Hbc.
  { intros k x path Hx Hpath. unfold breadcrumb. apply lookup_lt_Some in Hx.
    rewrite Hpath by (rewrite doc_size; lia). cbn [obind]. by rewrite app_nil_r. }
  destruct (ti_node _ _ Hi i m Hm) as (n' & Hn' & _ & Hp). cbn [b_nodes] in Hn'. rewrite Hn in Hn'. injection Hn' as <-.
  rewrite Hp. destruct (enclosing (reverse (take i doc_sections)) (level m)) as [p|] eqn:Ep.
  - apply enclosing_done, list_elem_of_fmap in Ep as (m' & -> & Hm'). apply list_elem_of_lookup in Hm' as [j Hj].
    apply lookup_take_Some in Hj as [Hj Hji]. destruct (crumbs_path j m' Hj) as (path & Hne & Hpath).
    exists (join CRUMB (path ++ [title n])). split.
    + apply (Hbc i m); [done|]. intros [|fuel] parts Hf; [lia|]. rewrite Hn. cbn [crumbs]. rewrite Hp. cbn [mbind option_bind].
      rewrite Hpath by lia. by rewrite <- app_assoc.
    + exists (join CRUMB path). split; [by apply (Hbc j)|]. by apply join_snoc.
  - exists (title n). split; [|done]. apply (Hbc i m [title n]); [done|]. intros [|fuel] parts Hf; [lia|].
    rewrite Hn. cbn [crumbs]. rewrite Hp. by destruct fuel.
Qed.
(** The parents of the sections, read off the headings. *)
Lemma doc_parent i l : nearest_above (find_headers false 0 (split_at NL text)) i l (enclosing (reverse (take i doc_sections)) l).
Proof using Hlen.
  assert (forall k h, find_headers false 0 (split_at NL text) !! k = Some h ->
            exists m, doc_sections !! k = Some m /\ level m = h.1.2) as Hsec.
  { intros k h Hk. destruct (lookup_lt_is_Some_2 doc_sections k) as [m Hm].
    { apply lookup_lt_Some in Hk. unfold doc_sections. by rewrite length_sections. }
    destruct (sections_lookup _ _ _ _ _ Hm) as (_ & _ & _ & h' & Hh' & _ & El & _). exists m. split; [done|]. congruence. }
  pose proof (enclosing_spec doc_sections l i) as He. destruct (enclosing _ _) as [p|]; simpl.
  - destruct He as (j & m & Hj & Hm & Hl & -> & Hb).
    destruct (sections_lookup _ _ _ _ _ Hm) as (Hid & _ & _ & h & Hh & _ & El & _). exists j, h. split_and!; [done|done|lia|done|].
    intros k h' Hk Hh'. destruct (Hsec k h' Hh') as (m' & Hm' & <-). by apply (Hb k).
  - intros k h' Hk Hh'. destruct (Hsec k h' Hh') as (m' & Hm' & <-). by apply (He k).
Qed.

(** The node of the tree that belongs to a heading. *)
Lemma doc_node i m line l ttl :
  let t := from_markdown text name in
  let ls := split_at NL text in
  let hs := find_headers false 0 ls in
  doc_sections !! i = Some m -> hs !! i = Some (line, l, ttl) ->
  exists n, tree_nodes t !! id_of i = Some n
    /\ node_id n = id_of i /\ title n = ttl /\ level n = l /\ start_line n = line
    /\ end_line n = match hs !! S i with Some h => h.1.1 - 1 | None => len ls end
    /\ own_text n = str_trim (join [NL] (take (Z.to_nat (end_line n - line)) (drop (Z.to_nat line) ls)))
    /\ nearest_above hs i l (parent n)
    /\ children n = base.filter (fun c => parent_at (tree_nodes t) c = Some (id_of i)) (node_id <$> doc_sections)
    /\ exists bc, breadcrumb t (id_of i) = Ok bc
       /\ match parent n with
          | None => bc = ttl
          | Some p => exists up, breadcrumb t p = Ok up /\ bc = up ++ CRUMB ++ ttl
          end.
Proof using Hlen.
  intros t ls hs Hm Hh. destruct doc_tree_inv as [stack Hi]. destruct (doc_section i m Hm) as (Hid & _).
  destruct (ti_node _ _ Hi i m Hm) as (n & Hn & (S1 & S2 & S3 & S4 & S5 & S6 & _) & Hp). cbn [b_nodes] in Hn.
  destruct (sections_lookup _ _ _ _ _ Hm) as (_ & _ & _ & h & Hh' & E1 & E2 & E3 & E4 & E5).
  assert (h = (line, l, ttl)) as -> by (unfold hs, ls in Hh; congruence). simpl in E1, E2, E3.
  destruct (find_headers_spec _ _ _ _ _ Hh) as (B1 & _ & _). simpl in B1.
  exists n. rewrite <- Hid. split_and!; [done|done|congruence|congruence|congruence|by rewrite S5| | |exact (ti_children _ _ Hi _ _ Hn)|].
  - rewrite S6, E5, S5, E1. apply section_text_body; [lia|]. rewrite E4. unfold ls.
    destruct (find_headers false 0 (split_at NL text) !! S i) as [h'|] eqn:Eh'; [|lia].
    destruct (find_headers_spec _ _ _ _ _ Eh') as (B2 & _ & _). lia.
  - rewrite Hp, E2. apply doc_parent.
  - destruct (doc_breadcrumb i m n Hm Hn) as (bc & Hbc & Hup). exists bc. split; [done|]. replace ttl with (title n) by congruence. done.
Qed.
End Document.

(** C40: The tree of a Markdown text has exactly one node for each heading: a
    line outside fenced code (an even number of lines that start with three
    backticks before it) that, trimmed, is one to six number signs, a space and a
    title that is not blank. The nodes are numbered in the order of the lines;
    each has the heading's title, level and line, ends at the line before the next
    heading (the last line of the text for the last) and holds the trimmed text of
    the lines in between; its parent is the nearest earlier heading of a lower
    level, its children are exactly the nodes it is the parent of, in order, and
    the roots those without a parent. The breadcrumb of every node is found and is
    that of its parent followed by its title. *)
Theorem from_markdown_tree text name :
  len text <= u64_MAX ->
  let t := from_markdown text name in
  let ls := split_at NL text in
  exists hs, headings ls hs
    /\ (forall i line l ttl, hs !! i = Some (line, l, ttl) ->
          exists n, tree_nodes t !! id_of i = Some n
            /\ node_id n = id_of i /\ title n = ttl /\ level n = l /\ start_line n = line
            /\ end_line n = match hs !! S i with Some h => h.1.1 - 1 | None => len ls end
            /\ own_text n = str_trim (join [NL] (take (Z.to_nat (end_line n - line)) (drop (Z.to_nat line) ls)))
            /\ nearest_above hs i l (parent n)
            /\ children n
               = base.filter (fun c => parent_at (tree_nodes t) c = Some (id_of i)) (id_of <$> seq 0 (length hs))
            /\ exists bc, breadcrumb t (id_of i) = Ok bc
               /\ match parent n with
                  | None => bc = ttl
                  | Some p => exists up, breadcrumb t p = Ok up /\ bc = up ++ CRUMB ++ ttl
                  end)
    /\ NoDup (id_of <$> seq 0 (length hs))
    /\ (forall id, is_Some (tree_nodes t !! id) <-> id ∈ id_of <$> seq 0 (length hs))
    /\ roots t = base.filter (fun c => parent_at (tree_nodes t) c = None) (id_of <$> seq 0 (length hs)).
Proof.
  intros Hlen t ls. destruct (doc_tree_inv text name Hlen) as [stack Hi].
  exists (find_headers false 0 ls). split; [apply find_headers_headings|].
  assert (length (find_headers false 0 ls) = length (doc_sections text)) as -> by (symmetry; apply length_sections).
  rewrite <- doc_ids by done. split_and!.
  - intros i line l ttl Hh. destruct (lookup_lt_is_Some_2 (doc_sections text) i) as [m Hm].
    { apply lookup_lt_Some in Hh. unfold doc_sections. by rewrite length_sections. }
    by apply (doc_node text name Hlen i m).
  - by apply doc_ids_distinct.
  - intros id. split; [apply (ti_dom _ _ Hi)|]. intros (m & -> & Hm)%list_elem_of_fmap.
    apply list_elem_of_lookup in Hm as [i Hm]. destruct (ti_node _ _ Hi i m Hm) as (n & Hn & _). cbn [b_nodes] in Hn. by exists n.
  - exact (ti_roots _ _ Hi).
Qed.

(** ** Answers and their receipts *)
Section Answers.
Context (blake3 : list Z -> list Z) (show_f64 : f64 -> text_str) (debug_strs : list text_str -> text_str).

Lemma ranked_node t query x : x ∈ rank_nodes t query -> is_Some (tree_nodes t !! x.1.1).
Proof.
  unfold rank_nodes. rewrite sort_scored_perm, list_elem_of_omap. intros ([id n] & Hin & Hx).
  unfold sorted_texts in Hin. rewrite sort_scored_perm in Hin. apply elem_of_map_to_list in Hin.
  simpl in Hx. destruct (score_node (term_set (tokens query)) n) as [r|]; [|done]. injection Hx as <-. by exists n.
Qed.

Lemma select_nodes_ok t query k :
  exists ids reasoning, select_nodes show_f64 debug_strs t query k = Ok (ids, reasoning)
    /\ (length ids <= k)%nat /\ forall id, id ∈ ids -> is_Some (tree_nodes t !! id).
Proof.
  unfold select_nodes.
  assert (forall x, x ∈ take k (rank_nodes t query) -> is_Some (tree_nodes t !! x.1.1)) as Hin.
  { intros x Hx. eapply ranked_node. apply list_elem_of_lookup in Hx as [i Hi]. apply lookup_take_Some in Hi as [Hi _].
    by eapply list_elem_of_lookup_2. }
  assert (length (take k (rank_nodes t query)) <= k)%nat as Hlen by (rewrite length_take; lia).
  destruct (take k (rank_nodes t query)) as [|x xs]; [eexists _, _; split; [done|]; split; [simpl; lia|by intros id ?%elem_of_nil]|].
  set (f := fun (y : text_str * f64 * list text_str) (acc : outcome Empty_set (list text_str)) => _).
  assert (exists rs, foldr f (Ok []) (x :: xs) = Ok rs) as [rs Hrs].
  { clear Hlen. induction (x :: xs) as [|y ys IH]; [by eexists|]. destruct IH as [rs Hrs]; [intros z Hz; apply Hin; by right|].
    cbn [foldr]. rewrite Hrs. destruct y as [[nid sc] mt]. destruct (Hin (nid, sc, mt)) as [n Hn]; [by left|].
    unfold f. simpl in Hn. rewrite Hn. cbn [unwrap obind]. by eexists. }
  rewrite Hrs. cbn [obind]. eexists _, _. split; [done|]. split; [by rewrite length_fmap|].
  intros id (y & -> & Hy)%list_elem_of_fmap. by apply Hin.
Qed.

(** Sections of a tree whose walks end are read, and read again. *)
Lemma read_sections_ok t ids :
  (forall id n, tree_nodes t !! id = Some n -> exists bc, breadcrumb t id = Ok bc) ->
  (forall id, id ∈ ids -> is_Some (tree_nodes t !! id)) ->
  exists l, read_sections t ids = Ok l /\ reread t ids = Ok (Some (snd <$> l)).
Proof.
  intros Hbc. induction ids as [|id ids IH]; intros Hin; [by exists []|].
  destruct (Hin id) as [n Hn]; [by left|]. destruct (Hbc id n Hn) as [bc Hb].
  destruct IH as (l & H1 & H2); [intros x Hx; apply Hin; by right|].
  cbn [read_sections reread]. rewrite Hn. cbn [unwrap obind]. unfold evidence_of. rewrite Hb. cbn [obind].
  rewrite H1, H2. cbn [obind fmap option_fmap option_map]. by eexists.
Qed.

Lemma tree_answer_ok now t query k prev :
  (forall id n, tree_nodes t !! id = Some n -> exists bc, breadcrumb t id = Ok bc) ->
  exists r, tree_answer blake3 show_f64 debug_strs now t query k prev = Ok r
    /\ (length (an_visited r) <= k)%nat
    /\ rq_visited (an_receipt r) = an_visited r /\ rq_evidence_hash (an_receipt r) = hash_text blake3 (an_evidence r)
    /\ verify_tree_receipt blake3 t (an_receipt r) = Ok true /\ recompute blake3 (an_receipt r) prev = true.
Proof.
  intros Hbc. unfold tree_answer. destruct (select_nodes_ok t query k) as (ids & reasoning & -> & Hlen & Hin). cbn [obind].
  destruct (read_sections_ok t ids Hbc Hin) as (l & -> & Hre). cbn [obind]. eexists. split; [done|]. split; [done|].
  split; [done|]. split; [done|]. split.
  - unfold verify_tree_receipt. cbn [an_receipt receipt_make rq_visited rq_evidence_hash]. rewrite Hre. cbn [obind].
    by rewrite bool_decide_true.
  - unfold recompute. simpl. by rewrite !bool_decide_true.
Qed.

Lemma doc_walks_end text name : len text <= u64_MAX ->
  forall id n, tree_nodes (from_markdown text name) !! id = Some n -> exists bc, breadcrumb (from_markdown text name) id = Ok bc.
Proof.
  intros Hlen id n Hn. destruct (doc_tree_inv text name Hlen) as [stack Hi].
  assert (id ∈ node_id <$> doc_sections text) as Hid by (apply (ti_dom _ _ Hi); by exists n).
  apply list_elem_of_fmap in Hid as (m & -> & Hm). apply list_elem_of_lookup in Hm as [i Hm].
  destruct (doc_breadcrumb text name Hlen i m n Hm Hn) as (bc & Hb & _). by exists bc.
Qed.

(** Every question to the tree of a document is answered: at most k sections
    are read, the receipt verifies against the tree and continues the given chain;
    and whenever it verifies against another tree, the sections read there make up
    the same evidence text, or that text and the evidence collide. *)
Theorem tree_answer_verifies now text name query k prev :
  (forall m, hash_typed (blake3 m)) -> len text <= u64_MAX ->
  let t := from_markdown text name in
  exists r, tree_answer blake3 show_f64 debug_strs now t query k prev = Ok r
    /\ (length (an_visited r) <= k)%nat
    /\ verify_tree_receipt blake3 t (an_receipt r) = Ok true /\ recompute blake3 (an_receipt r) prev = true
    /\ forall t', verify_tree_receipt blake3 t' (an_receipt r) = Ok true ->
         exists parts, reread t' (an_visited r) = Ok (Some parts)
           /\ (utf8 (join [NL; NL] parts) = utf8 (an_evidence r)
               \/ collision blake3 [utf8 (join [NL; NL] parts); utf8 (an_evidence r)]).
Proof.
  intros Hb Hlen t. destruct (tree_answer_ok now t query k prev (doc_walks_end text name Hlen)) as (r & H1 & H2 & H3 & H4 & H5 & H6).
  exists r. do 4 (split; [done|]). intros t' Hv. unfold verify_tree_receipt in Hv. rewrite H3, H4 in Hv.
  destruct (reread t' (an_visited r)) as [[parts|]| | |]; try done. cbn [obind] in Hv. injection Hv as Hv.
  apply bool_decide_eq_true in Hv. unfold hash_text in Hv.
  assert (hex (blake3 (utf8 (join [NL; NL] parts))) ++ [] = hex (blake3 (utf8 (an_evidence r))) ++ []) as E by by rewrite Hv.
  destruct (Hb (utf8 (join [NL; NL] parts))) as [B1 L1], (Hb (utf8 (an_evidence r))) as [B2 L2].
  apply hex_app_inj in E as [E _]; [|done|done|congruence].
  exists parts. split; [done|]. by apply blake3_inj.
Qed.

(** *** Chains: each answer is given the hash of the one before *)
Record Question : Type := mkQuestion { qu_now : Z; qu_text : text_str; qu_name : text_str; qu_query : text_str; qu_k : nat }.
Fixpoint ask (prev : text_str) (qs : list Question) : outcome Empty_set (list TreeReceipt) :=
  match qs with
  | [] => Ok []
  | q :: qs =>
      do* r := tree_answer blake3 show_f64 debug_strs (qu_now q) (from_markdown (qu_text q) (qu_name q)) (qu_query q) (qu_k q) prev in
      do* rs := ask (rq_receipt_hash (an_receipt r)) qs in Ok (an_receipt r :: rs)
  end.

Lemma broken_chain prev rs i : broken_from blake3 i prev rs = None <-> chain_from blake3 prev rs = true.
Proof.
  revert i prev. induction rs as [|r rs IH]; intros i prev; [done|]. cbn [broken_from chain_from].
  destruct (recompute blake3 r prev); [apply IH|done].
Qed.

(** The receipts of any sequence of questions, each given the hash of the
    receipt before, verify as a chain, and the chain endpoint reports no break. *)
Theorem asked_chain_verifies qs :
  Forall (fun q => len (qu_text q) <= u64_MAX) qs ->
  exists rs, ask TREE_GENESIS qs = Ok rs /\ length rs = length qs
    /\ verify_chain blake3 rs = true /\ tree_chain_verify blake3 rs = (true, None).
Proof.
  intros Hq. assert (forall prev, exists rs, ask prev qs = Ok rs /\ length rs = length qs /\ chain_from blake3 prev rs = true) as Hc.
  { induction Hq as [|q qs Hlen _ IH]; intros prev; [by exists []|]. cbn [ask].
    destruct (tree_answer_ok (qu_now q) (from_markdown (qu_text q) (qu_name q)) (qu_query q) (qu_k q) prev
                (doc_walks_end (qu_text q) (qu_name q) Hlen)) as (r & -> & _ & _ & _ & _ & Hr). cbn [obind].
    destruct (IH (rq_receipt_hash (an_receipt r))) as (rs & -> & Hl & Hch). cbn [obind]. eexists. split; [done|].
    split; [simpl; by rewrite Hl|]. cbn [chain_from]. by rewrite Hr. }
  destruct (Hc TREE_GENESIS) as (rs & H1 & H2 & H3). exists rs. do 3 (split; [done|]).
  unfold tree_chain_verify. apply (broken_chain _ _ 0) in H3. rewrite H3. by rewrite bool_decide_true.
Qed.
End Answers.

(** ** Concrete documents *)
Definition demo_doc : text_str :=
  ascii_bytes "# Handbook" ++ [NL] ++ ascii_bytes "Intro line." ++ [NL; NL] ++ ascii_bytes "## Annual Leave" ++ [NL]
  ++ ascii_bytes "You get 25 days." ++ [NL] ++ ascii_bytes "```" ++ [NL] ++ ascii_bytes "# not a heading" ++ [NL]
  ++ ascii_bytes "```" ++ [NL] ++ ascii_bytes "## Sick Leave" ++ [NL] ++ ascii_bytes "Ten days.".
Definition demo_tree : TreeIndex := from_markdown demo_doc [].

Lemma from_markdown_tree_witness :
  exists hs, headings (split_at NL demo_doc) hs
    /\ roots demo_tree = base.filter (fun c => parent_at (tree_nodes demo_tree) c = None) (id_of <$> seq 0 (length hs)).
Proof.
  destruct (from_markdown_tree demo_doc []) as (hs & Hh & _ & _ & _ & Hr); [vm_compute; discriminate|].
  exists hs. split; [exact Hh|exact Hr].
Defined.

Lemma tree_answer_verifies_witness :
  exists r, tree_answer demo_hash (fun _ => []) (fun _ => []) 7 demo_tree (ascii_bytes "sick days") 2 TREE_GENESIS = Ok r
    /\ verify_tree_receipt demo_hash demo_tree (an_receipt r) = Ok true.
Proof.
  destruct (tree_answer_verifies demo_hash (fun _ => []) (fun _ => []) 7 demo_doc [] (ascii_bytes "sick days") 2 TREE_GENESIS)
    as (r & H1 & _ & H2 & _); [apply demo_hash_typed|vm_compute; discriminate|].
  exists r. split; [exact H1|exact H2].
Defined.

(** Two of the three sections match. *)
Example demo_ranking :
  (fun x => x.1.1) <$> rank_nodes demo_tree (ascii_bytes "sick days") = [id_of 2; id_of 1].
Proof. vm_compute. reflexivity. Qed.

Lemma asked_chain_verifies_witness :
  exists rs, ask demo_hash (fun _ => []) (fun _ => []) TREE_GENESIS [mkQuestion 1 demo_doc [] (ascii_bytes "leave") 1] = Ok rs
    /\ verify_chain demo_hash rs = true.
Proof.
  destruct (asked_chain_verifies demo_hash (fun _ => []) (fun _ => []) [mkQuestion 1 demo_doc [] (ascii_bytes "leave") 1])
    as (rs & H1 & _ & H2 & _); [constructor; [vm_compute; discriminate|constructor]|].
  exists rs. split; [exact H1|exact H2].
Defined.

(** A tree in a request may be cyclic: the walk to its root never ends, and so
    does the check of a receipt against it. *)
Definition self_parent : TreeNode := mkTreeNode [97] [98] 1 1 1 [] [] (Some [97]) [].
Definition cyclic_tree : TreeIndex := mkTree [] [] {[ [97] := self_parent ]}.
Theorem cyclic_tree_never_answers fuel parts :
  crumbs fuel (tree_nodes cyclic_tree) (tree_nodes cyclic_tree !! [97]) parts = Hang.
Proof. revert parts. induction fuel as [|fuel IH]; intros parts; [done|]. apply (IH ([98] :: parts)). Qed.

(** Receipts do not bind their query: another query text passes. *)
Theorem receipt_query_unchecked blake3 r q prev :
  let r' := mkTreeReceipt q (rq_query_hash r) (rq_visited r) (rq_ranges r) (rq_evidence_hash r) (rq_answer_hash r)
              (rq_prev_hash r) (rq_receipt_hash r) (rq_hash_algo r) (rq_timestamp r) in
  recompute blake3 r' prev = recompute blake3 r prev /\ forall t, verify_tree_receipt blake3 t r' = verify_tree_receipt blake3 t r.
Proof. done. Qed.
